(* ===== verification/_CoqProject ===== *)
-Q . S2P
Prelude.v
Values.v
Wire.v
ValueOrder.v
Identity.v
Crypto.v
Seal.v
WalCodec.v
WalReplay.v
WalSink.v
NodeDelta.v
Memtable.v
MemtableInv.v
MemtableApply.v
MemtableCodec.v
L0Segment.v
Snapshot.v
SnapshotRead.v
DeltaFold.v
Compaction.v
CompactionFold.v
CompactionReplay.v
CompactionEdges.v
CompactionMerge.v
CompactionSelect.v
CompactionReads.v
TouchedJournal.v
Resolve.v
DeltaWriter.v
WriterDisk.v
WriterInv.v
WriterFlush.v
WriterSafety.v
FlushCrash.v
WriterLimits.v
Statement.v
KeyProbe.v
ServerWrite.v
ServerSafety.v
NodeRead.v
ReadWrites.v
PackStream.v
Chunk.v
Bolt.v
BlockCodec.v
Isam.v
IsamLookup.v
IsamExact.v
ClockCache.v
ShardedCache.v
BlockFile.v
BlockRead.v
BlockExact.v
BlockPool.v
BlockConcat.v
Topology.v
Grouping.v
TopologyFile.v
Bits.v
EliasFano.v
RunLength.v
BitPacked.v
Plane.v
Postings.v
PostingFile.v
Columns.v
Sidecars.v
DegreeEf.v
NodeDegree.v
DegreeColumn.v
BlockCaches.v
CachedReads.v
Extents.v
