(* ===== verification/Prelude.v ===== *)
(** * Verification of Slater: the writable layer, its formats and its protocol

    Slater is a graph database.  An offline builder ([slater-build]) writes an immutable
    image of a graph, in the format that [graph-format] owns, and a server ([slater]) answers
    queries over it.  The writable layer ([slater-delta]) is a log-structured merge tree on
    top of the image.  A write is appended to a write-ahead log and applied to a memtable in
    memory.  A frozen memtable is spilled to an L0 segment.  Reads fold the memtable and the
    L0 levels over the core image.
    This development models that layer from the bytes up to the statements of a client, the
    parts of [graph-format] it stands on, the codecs of the columns the image is stored in, and
    the Bolt protocol by which clients reach the server.

    ** How the parts interact

    - Values are encoded by the wire codec.  Log records, identities and L0 segments are
      built from it.
    - Names are interned to symbols.  A node is identified by a label, a key and a value; an
      edge by its endpoints, its type and an optional key.  The canonical key of an identity
      is the key of the memtable's stores.
    - A log segment and an L0 segment may be sealed.  Each frame is bound to the key, the
      file name and its ordinal.
    - The log sink appends batches of records with a commit frame; replay returns the batches
      that were committed.
    - Replay and the server apply operations to the memtable, which keeps its entries, the
      indexes by dense id, the adjacency and the tallies.
    - A snapshot stacks the memtable over L0 levels.  Reads fold the levels, and the executor
      corrects the hits of a core index by it.
    - Compaction picks a run of adjacent L0 levels of similar size, folds it, and replays the
      result into one level through the memtable's own operations.
    - A write statement is evaluated and folded into operations, each resolved to the node or
      edge it names: by a probe of the core's indexes, and by the delta where the core has none.
    - The delta writer owns the log, the memtable and the levels.  It appends a batch of resolved
      operations, installs the memtable they give, and publishes it with an epoch; the ids the
      epoch touched go to a journal.  It flushes the memtable to a level, compacts levels, and
      rebuilds all of this from the two directories when the process starts.
    - Ids are cut into bands by an extent table, which routes an id to the segment that owns
      it.  Within a segment, degrees and sorted keys are stored in chunks of packed integers,
      and blocks of bytes are compressed under a ceiling.
    - A block file packs records into such blocks under a directory.  Blocks are read through a
      cache that threads share, and decoded leaves of an index through another.
    - A range index stores sorted pairs of a key and an id in such blocks, under a resident top
      level.  The probes of business keys look in it.
    - Other block files hold the adjacency of the nodes, the endpoints of each relationship type,
      the properties and labels of entities, and the degrees.  The builder writes them, in bands
      that are concatenated or in one stream; histograms it derives from the finished indexes.
      The server loads histograms and hubs when it opens a generation, and keeps chunks of
      degrees resident within a budget.
    - A connection is reassembled from chunks into messages, and a message is a PackStream
      structure that decodes to a request.

    ** Files

    All paths are below [src/crates/].

    - [Prelude]: machine integers, results and errors, byte readers, UTF-8, and the classes,
      tactics and hint databases the other files share.
    - [Values], [ValueOrder]: [Value] and [cmp_key] of [graph-format/src/ids.rs], and
      [value_cmp_exact] of [slater-build/src/merge_build.rs].  Floats are their bit images.
    - [Wire]: [graph-format/src/wire.rs].
    - [Identity]: [slater-delta/src/interner.rs] and [slater-delta/src/identity.rs], one
      module per type.
    - [Crypto]: [graph-format/src/crypto.rs].  The primitives are the class [Crypto], and
      their documented laws the class [CryptoLaws].
    - [Seal]: [slater-delta/src/seal.rs].
    - [WalCodec], [WalReplay], [WalSink]: [slater-delta/src/wal.rs], the records, the replay
      and the writer.  The writer runs over a file whose operations fail by a schedule, and
      over the buffered writer of the standard library.
    - [NodeDelta]: the deltas of [slater-delta/src/memtable.rs], their mutators and
      [fold_newer].
    - [Memtable]: the record [Memtable], every write operation, [apply] and the reads of one
      level.  [MemtableInv] holds the invariant and the node writes, [MemtableApply] the edge
      writes and the histories, [MemtableCodec] the image of a level.
    - [L0Segment]: [slater-delta/src/l0.rs], over a directory with failing operations.
    - [Snapshot]: the trait [LevelRead] as a class, [DeltaSnapshot], [flush_segment_data],
      and the equality seek of [slater/src/exec/scan.rs].  [SnapshotRead] holds what a level
      promises (the class [LevelLaws], which the memtable satisfies under its invariant) and
      the theorems proved against that interface.
    - [DeltaFold]: what [fold_newer] does field by field, and the operations that replay a
      folded delta.
    - [Compaction]: [merge_levels] of [slater-delta/src/memtable.rs] and the choice of a run in
      [slater/src/delta_writer.rs].  [CompactionFold] says what the fold of a run holds,
      [CompactionReplay] what replaying its nodes builds, [CompactionEdges] the same for edges,
      [CompactionMerge] puts them together, [CompactionSelect] is about the choice, and
      [CompactionReads] about what a snapshot reads before and after.
    - [TouchedJournal]: the journal of [slater/src/rwindex.rs], in the order in which the writer
      settles it.
    - [Resolve]: how a live write and a replayed record find what they name, from
      [slater/src/server/write.rs] and [slater/src/delta_writer.rs].  The core's answers are the
      class [CoreProbe].
    - [DeltaWriter]: [slater/src/delta_writer.rs] over resident levels.  Its calls are in a state
      and error monad over the writer, its two directories and a schedule of faults, and record
      every disk state passed through.  [WriterDisk] says what files a directory holds,
      [WriterInv] what is durable and what opening restores, [WriterFlush] what a flush does,
      [WriterSafety] is the machine the writer implements and the proof that it does,
      [FlushCrash] is about a crash inside a flush, and [WriterLimits] evaluates the runs where
      the guarantees end.
    - [Statement]: the write statements of [slater/src/parser.rs], the values of
      [slater/src/exec.rs], and their translation to operations in
      [slater/src/server/write.rs].
    - [KeyProbe]: the probe of business keys, alone and in batches, of
      [slater/src/server/write.rs] over the stack of [slater/src/segstack.rs].
    - [ServerWrite]: the statements run over the writer, of [slater/src/server/write.rs].  The
      query engine's answers are the class [Generation].  [ServerSafety] shows that they meet
      what the writer's theorems assume, and that they hand over what was asked.
    - [NodeRead]: the read of one node by the executor, its properties from
      [slater/src/exec/access.rs] and its labels from [slater/src/exec.rs], over the merged delta;
      the equality seek is proved against it.  [ReadWrites] says what it shows after a statement.
    - [PackStream], [Chunk], [Bolt]: [packstream.rs], [chunk.rs], [handshake.rs] and
      [message.rs] of [slater/src/bolt/], and the framer of [slater/src/server.rs].
    - [BlockCodec]: the bounded decompression of [graph-format/src/codec.rs], with zstd as an
      argument.
    - [Isam], [IsamLookup], [IsamExact]: [graph-format/src/isam.rs], the writer and the opening of
      a file, the lookups of an open index, and what they answer from end to end.
    - [ClockCache], [ShardedCache]: the shard and the sharding of [graph-format/src/blockcache.rs],
      generic, since [graph-format/src/isam.rs] repeats them for decoded leaves.  [BlockCaches] has
      both instances and the runs of one, [CachedReads] the reads through them.
    - [BlockFile], [BlockRead], [BlockExact]: [graph-format/src/blockfile.rs], the writer and the
      opening of a file, its reads and scans, and what they give back.  [BlockPool] is the writer
      whose blocks are sealed by a pool of workers, as a machine of events, and [BlockConcat] the
      concatenation of files.
    - [Bits], [EliasFano], [RunLength], [BitPacked], [Plane]: [graph-format/src/plane.rs],
      the words and bit operations, one file per encoding, and the choice and key column.
    - [DegreeEf]: [graph-format/src/degree_ef.rs], over the same three.
    - [Topology], [TopologyFile]: [graph-format/src/topology.rs], the adjacency records and their
      decoders, and the three writers with the reader.  [Grouping] is what they share with the
      postings: a stream of pairs, cut into a list per key.
    - [Postings], [PostingFile]: [graph-format/src/postings.rs], the records with their cursor, and
      the bit planes and writers.
    - [Columns]: the stores of [graph-format/src/columns.rs] and [graph-format/src/nodelabels.rs],
      and the records of [graph-format/src/hubdegree.rs] and [graph-format/src/histogram.rs].
      [Sidecars] takes the latter from [slater-build/src/common.rs] to [slater/src/generation.rs].
    - [NodeDegree]: [graph-format/src/nodedegree.rs].  [DegreeColumn]:
      [slater/src/degree_column.rs], as the sections of its calls in any order.
    - [Extents]: [graph-format/src/extents.rs], and the bands of a set manifest.

    ** What the theorems show

    - Codec: varints, zig-zag, values and log records read back.  Decoding arbitrary bytes
      terminates and yields only values the encoder could have written.  Skipping and reading
      stop at the same byte.
    - Order: [cmp_key] is a preorder on values whose integers are exact as floats, and is not
      transitive beyond; the builder's comparator is a total order.
    - Identity: interning is stable and dense; canonical keys are injective.
    - Cryptography: the MAC policy, and separation of keys, domains and positions.  A
      violation is reduced to a collision of the hash or a forgery of the cipher.
    - Log: replay of a torn segment returns every acknowledged batch and whole batches only.
      Under arbitrary faults a batch is atomic and an acknowledgement means durability, with
      the exception of one double fault, which is exhibited.
    - Deltas: the delta a history builds denotes the view the operations mean.  Folding lays
      the newer view over the older.  Cutting a history into levels is invisible, with one
      exception, which is exhibited.
    - Memtable: along every history the stores, indexes and tallies stay consistent, and each
      write has its meaning and changes nothing else.
    - Segment: a file is replaced atomically, and reads back to the memtable written.
    - Snapshot: the stacked reads show the levels applied in order.  The equality seek finds a
      core node exactly when the executor reads a matching value of it, its business key included;
      it is not exact for born nodes that are written again.  The flush image keeps the patch of a
      deleted core edge.
    - Compaction: merging a run never panics and reads as the newest-wins fold of the run,
      whatever order the hash maps are walked in.  The stack reads the same before and after
      for nodes that were not deleted and written again.  Exhibited: a property that comes
      back, an edge that is lost and makes the merge panic, ids that move, a patch that is
      hidden by another.
    - Writer: a batch is applied whole or not at all, and what was acknowledged is found again,
      through any sequence of writes, flushes and restarts after crashes, between calls or inside
      a batch, as a refinement of a machine that only appends and seals.  A crash inside a flush of
      node writes is invisible, although the log may be replayed over the level that holds it, if
      the files that are left of the log have no gap in their numbers.  Live and replayed
      resolution of a write agree.  The journal answers exactly the ids of a range of epochs, or
      declines.  Exhibited: a crash inside a compaction, a flush that fails half way, a flush
      between the resolution of a write and the write, and a log left with a gap.
    - Statements: a [SET] means its items in order.  A batch resolves its rows as if each were
      probed alone.  A statement is refused or hands to the writer the operations it asks for,
      which are replayed as they were resolved; only a [MERGE] that assigns nothing to a
      relationship that exists writes nothing.  After an acknowledged [SET] or [MERGE] the executor
      reads the node with the items applied, and the other nodes as before; a replacement keeps the
      business key.  A deletion of a node that is not there or, without [DETACH], that the core or
      the memtable attach a relationship to is refused, and otherwise makes the node unreadable
      and leaves the others.  Exhibited: a write that hides another one because the index and the
      delta disagree on whether two keys are equal, a delete that misses flushed relationships, and
      checks that a create does not make.
    - Protocol: values read back exactly up to the limits of depth and count, and are refused
      beyond.  Decoding arbitrary bytes is bounded by them.  However the network cuts the
      stream, the requests that were sent are the requests that are handled, and the buffer
      of a connection stays within its limit.
    - Columns: whichever encoding is chosen, a plane, a key column and a chunk of degrees
      decode to the values they were built from; arbitrary bytes never make the reader panic,
      except for the records that are exhibited.  One width of field is read wrong, which is
      exhibited too.
    - Blocks: decompression holds no more than was declared and refuses what exceeds it.
    - Range index: entries written in any order open to an index that answers equality and range
      lookups and counts of distinct keys as scans of the entries, and its sweep over many keys
      answers as a lookup of each; so it has what the probes of business keys expect ([index_ok]).
    - Block files: every record is read back at the location its append returned and by its index,
      and scans visit a range in order.  Sealing in a pool leaves the bytes that sealing inline
      leaves, in whatever order workers finish, and never deadlocks.  A concatenation of files
      reads as their records in order, with every sealed block bound to its new place.  Exhibited:
      empty records that are lost at the end of a file, and blocks the pool's semaphore does not
      count.
    - Caches: in any interleaving of lock sections a sweep ends, a hit is the block of its key, and
      each shard keeps to its share of the budget or to one block; reads through a cache agree with
      reads around it.  Exhibited: shards that exceed the budget by one block each, and a block
      that stays at exactly its limit of idleness.
    - Topology: a record decodes to its edges, whole or by type, and never to more than its bytes
      hold.  The streaming writer and the writer over lists leave one file.  Bands of either
      direction, concatenated, open to a topology with the edges of every node.  Exhibited: a
      forged base at which the derived ids overflow.
    - Postings: planes set in any order, a sorted stream and buckets leave one file, which gives
      the distinct endpoints of each type.  Exhibited: a stream sorted only by type that is
      written all the same, a choice of the larger form, and a record of few bytes that decodes
      to any number of ids.
    - Stores: entities read back by their dense id, whole or one key at a time, and the decoder of
      one key agrees with the whole one on any bytes.  Labels, hubs and histograms read back.
    - Statistics: what the server loads are the counts of the indexes the builder read, and a
      search of the hubs finds the listed nodes only.
    - Degrees: the column reads back whole and by chunk.  In any interleaving the resident column
      counts its bytes exactly, hands out chunks of the file, and answers lookups; a fault restores
      the budget, up to its own chunk.
    - Routing: an id goes to the one band that contains it.

    ** Bounds and fuel

    - Integers are in [Z].  A [u64], [u32] or [u8] has a range predicate, and wrap-around is
      written where the source can reach it.  [usize] has 64 bits, and a slice is shorter
      than [2 ^ 63] bytes.
    - A loop over input takes the length of the input as fuel, since every round consumes a
      byte (class [Consuming]).  The class [FuelSafe] states that this fuel is never
      exhausted, so termination is proved and not assumed.
    - A value nests at most [MAX_VALUE_DEPTH] deep, which bounds the decoder's recursion.
    - Interned names are bounded by [2 ^ 32]; the hypothesis [room] says there is space.
    - The memtable theorems assume a stable resolution: the writer gives one identity one
      dense id along a history (predicates [resolves], [endpoint_resolves], [edge_resolves]).
    - A merge assumes that the levels are consistent and stacked (predicate [run_ok]): each
      starts its born ids where the level below ends, the names of all of them fit an
      interner, and every edge has at most one identity per level and one id across levels.
      The exhibited gaps are stacks that leave those assumptions, or the re-write that
      [revives] excludes.
    - The order in which a hash map is walked, or a directory listed, is the class [HashWalk]: any
      permutation.  A flush is shown safe for crashes that leave no gap in the numbers of the log.
    - A crash leaves the synced part of an open file and any prefix of what was written since,
      closed files whole, and of a new segment its whole magic or none of it.  Synthetic ids,
      sequence and file numbers stay below [2 ^ 63], and an operation leaves room for its symbols.
    - The writer's theorems are about the keys in use (class [KeyUse]), of which no two name one
      node of the core ([keys_distinct]).  The indexes take an integer and the equal float for
      the same key and the delta does not, so with both in use that fails.
    - The writer's history is one in which every rollback of the log succeeded, no crash fell
      inside a flush, and a refused flush left no level; the exhibits are histories without those.
    - What a statement shows a reader is proved for the generation the delta is bound to, in which
      every label has an id of its own and every node found by a key is below the node count.
    - A plane spans less than [2 ^ 58] per value, and a record is at most [2 ^ 29] bytes, where
      a theorem needs it; both are far above the blocks the builder writes.
    - The keys of a range index are values whose integers are exact as floats, an entry leaves its
      leaf below a gigabyte and the leaves their top level below two, and zstd expands a block by
      no more than it documents.
    - A sweep of a cache shard takes at most two steps per entry and per set bit; its fuel is four
      steps per entry and two more, and is proved enough.  A scan of blocks has the number of
      blocks as fuel, and the loops over shard counts five rounds, for at most 32 shards.
    - The records of a block file have bytes and leave their block below a gigabyte, and the
      directory stays below two.
    - A node has fewer than [2 ^ 56] edges, with ids below [2 ^ 63]; the ids in a posting are below
      [2 ^ 30].  Walking a posting has as fuel the ids of its universe, and writing empty records
      up to a node their number.
    - Five times the target size of a block, with the record, stays below a gigabyte.
    - Sizes of heap records only enter the byte estimate; they are the class [Layout].

    ** What is not modelled

    - The AEAD, the hash and the random generator: third-party code, the class [Crypto].
      Compression likewise: [zstd] is an argument of the definitions that call it.
    - Locks, threads and the network: the writer is single and operations are sequences; where
      two connections can interleave, the interleaving is written out.  Of the caches, of the
      degree column and of the sealing pool the sections under a lock are the steps, and any order
      of them is a run; the memory order of their counters and bits is not modelled.
    - Creating, flushing and syncing block files and indexes, and the failures of those calls.
    - Decoration of errors, logging and zeroing of keys: no effect on results.
    - The off-heap levels, and the proof that a compaction is safe under crashes: it is not.
    - The grammar of the query language, the expressions of reads, and the query engine: of it the
      read of one node, and the answers a write asks for, as class methods.
    - The rest of [graph-format] (segments with their fragments of indexes and postings, manifests,
      vector and full-text search, object stores), the sessions of the server, and of the builder
      all but the derivation of histograms.

    ** Plan

    In order: the off-heap level as a second instance of [LevelRead]; the index fragments and
    postings of segments; the core stack and the merged read view; access control and the
    consolidation window. *)

From stdpp Require Export base tactics numbers list gmap strings sorting.
From Stdlib Require Export ZArith Lia.
From Stdlib Require Import Ascii.

#[export] Set Default Goal Selector "!".
Open Scope Z_scope.

(** * Machine integers and bytes

    A [u8], [u32], [u64] or [i64] of the source is a [Z]; the predicates below are its
    range, the functions its wrap-around.  [usize] is 64 bits wide, as on every target
    the repository builds for. *)

Abbreviation bytes := (list Z) (only parsing).
(** A Rust [String] is its UTF-8 byte image. *)
Abbreviation str := (list Z) (only parsing).

Definition is_u8 (z : Z) : Prop := 0 <= z < 2 ^ 8.
Definition is_u32 (z : Z) : Prop := 0 <= z < 2 ^ 32.
Definition is_u64 (z : Z) : Prop := 0 <= z < 2 ^ 64.
Definition is_i64 (z : Z) : Prop := - 2 ^ 63 <= z < 2 ^ 63.

(** [as u64] of an arbitrary integer, and [as i64] of a 64-bit one. *)
Definition as_u64 (z : Z) : Z := z mod 2 ^ 64.
Definition as_i64 (z : Z) : Z := (z + 2 ^ 63) mod 2 ^ 64 - 2 ^ 63.
Definition as_u32 (z : Z) : Z := z mod 2 ^ 32.

#[export] Instance is_u64_dec z : Decision (is_u64 z).
Proof. unfold is_u64. apply _. Defined.
#[export] Instance is_u32_dec z : Decision (is_u32 z).
Proof. unfold is_u32. apply _. Defined.
#[export] Instance is_u8_dec z : Decision (is_u8 z).
Proof. unfold is_u8. apply _. Defined.
#[export] Instance is_i64_dec z : Decision (is_i64 z).
Proof. unfold is_i64. apply _. Defined.

Lemma as_u64_range z : is_u64 (as_u64 z).
Proof. unfold is_u64, as_u64. apply Z.mod_pos_bound. lia. Qed.

Lemma as_u64_id z : is_u64 z → as_u64 z = z.
Proof. unfold is_u64, as_u64. intros. by apply Z.mod_small. Qed.

Lemma as_i64_range z : is_i64 (as_i64 z).
Proof.
  unfold is_i64, as_i64. pose proof (Z.mod_pos_bound (z + 2 ^ 63) (2 ^ 64)). lia.
Qed.

Lemma as_i64_id z : is_i64 z → as_i64 z = z.
Proof. unfold is_i64, as_i64. intros. rewrite Z.mod_small; lia. Qed.

(** Rust's [s.len()] of a slice, and its bound: no allocation exceeds [isize::MAX]. *)
Definition zlen {A} (l : list A) : Z := Z.of_nat (length l).
Definition fits {A} (l : list A) : Prop := zlen l < 2 ^ 63.

Lemma zlen_nonneg {A} (l : list A) : 0 <= zlen l.
Proof. unfold zlen. lia. Qed.

Lemma fits_u64 {A} (l : list A) : fits l → is_u64 (zlen l).
Proof. unfold fits, is_u64, zlen. lia. Qed.

Lemma zlen_app {A} (l k : list A) : zlen (l ++ k) = zlen l + zlen k.
Proof. unfold zlen. rewrite length_app. lia. Qed.

Lemma zlen_cons {A} (x : A) l : zlen (x :: l) = zlen l + 1.
Proof. unfold zlen. cbn [length]. lia. Qed.

(** [slice::partition_point] of a slice whose elements that satisfy the predicate come first:
    how many they are. *)
Fixpoint partition_point {A} (p : A → bool) (l : list A) : nat :=
  match l with
  | [] => O
  | x :: l => if p x then S (partition_point p l) else O
  end.

Lemma partition_point_le {A} (p : A → bool) l : (partition_point p l <= length l)%nat.
Proof. induction l as [|x l IH]; cbn; [lia|]. destruct (p x); lia. Qed.

(** * Results

    [anyhow::Error] carries either a message ([bail!]) or one of the typed errors callers
    downcast to.  [with_context] only decorates an error and is not modelled. *)

Inductive error :=
  | Bail (msg : string)
  | DepthExceeded (max : Z)
  | LengthOverflow (what : string) (n elem : Z)
  | KeyRequired (subject : string)
  | Unsealed (subject : string)
  | AeadRejected
  | MacMissing (subject : string)
  | MacMismatch (subject : string)
  | IoError
  | ValueBudgetExceeded (max_values : Z)
  | EfLowBitsWidth (what : string) (l : Z)
  | EfBitCount (what : string) (declared found : Z)
  | TooManyElements (what : string) (n max : Z)
  | BlockDeclared (declared max : Z)
  | BlockExpanded (raw_len : Z)
  | Panic (msg : string)
  | OutOfFuel.

Inductive result (A : Type) :=
  | Ok (a : A)
  | Err (e : error).
Arguments Ok {_} _.
Arguments Err {_} _.

#[export] Instance result_ret : MRet result := @Ok.
#[export] Instance result_bind : MBind result := λ A B f m,
  match m with Ok a => f a | Err e => Err e end.
#[export] Instance result_fmap : FMap result := λ A B f m,
  match m with Ok a => Ok (f a) | Err e => Err e end.

Definition is_ok {A} (m : result A) : bool := match m with Ok _ => true | Err _ => false end.

Lemma bind_Ok {A B} (f : A → result B) m b :
  m ≫= f = Ok b ↔ ∃ a, m = Ok a ∧ f a = Ok b.
Proof. destruct m; simpl; split; [eauto|by intros (? & [= ->] & ?)|done|by intros (? & ? & ?)]. Qed.

Lemma bind_Err {A B} (f : A → result B) m e :
  m ≫= f = Err e ↔ m = Err e ∨ ∃ a, m = Ok a ∧ f a = Err e.
Proof.
  destruct m; simpl; split; [eauto|by intros [?|(? & [= ->] & ?)]|by left; congruence|].
  intros [?|(? & ? & ?)]; congruence.
Qed.

(** A decoder takes the slice it reads from and returns the advanced slice.  Every caller
    propagates an error with [?], so the position after a failure is unobservable. *)
Abbreviation reader A := (bytes → result (A * bytes)) (only parsing).

(** Split a hypothesis [m ≫= f = Ok b] into its steps. *)
Ltac split_bind :=
  repeat match goal with
  | H : _ ≫= _ = Ok _ |- _ =>
      apply bind_Ok in H; destruct H as ([??] & ? & H)
  end.

(** * Slices *)

(** [r.split_first()]: the next byte and the rest, or the given error. *)
Definition split_first (e : error) : reader Z := λ r,
  match r with b :: r => Ok (b, r) | [] => Err e end.

(** [if r.len() < n { bail } else { r.split_at(n) }]. *)
Definition split_at (e : error) (n : Z) : reader bytes := λ r,
  if zlen r <? n then Err e else Ok (take (Z.to_nat n) r, drop (Z.to_nat n) r).

Lemma split_at_app e s r : split_at e (zlen s) (s ++ r) = Ok (s, r).
Proof.
  unfold split_at. rewrite zlen_app, (proj2 (Z.ltb_ge _ _)).
  - unfold zlen. rewrite Nat2Z.id. by rewrite take_app_length, drop_app_length.
  - pose proof (zlen_nonneg r). lia.
Qed.

Lemma split_at_Ok e n r s r' :
  split_at e n r = Ok (s, r') → r = s ++ r' ∧ (0 <= n → zlen s = n).
Proof.
  unfold split_at. destruct (Z.ltb_spec (zlen r) n) as [|Hn]; [done|].
  intros [= <- <-]. rewrite take_drop. split; [done|]. unfold zlen in *.
  intros. rewrite length_take. lia.
Qed.

(** * Little-endian integers ([to_le_bytes], [from_le_bytes], [write_f64::<LittleEndian>]) *)

Fixpoint le_bytes (n : nat) (z : Z) : bytes :=
  match n with
  | O => []
  | S n => Z.land z 255 :: le_bytes n (Z.shiftr z 8)
  end.

Fixpoint le_val (bs : bytes) : Z :=
  match bs with
  | [] => 0
  | b :: bs => b + Z.shiftl (le_val bs) 8
  end.

Lemma length_le_bytes n z : length (le_bytes n z) = n.
Proof. revert z. induction n; intros; simpl; auto. Qed.

Lemma le_bytes_u8 n z : Forall is_u8 (le_bytes n z).
Proof.
  revert z. induction n as [|n IH]; intros; simpl; constructor; [|done].
  unfold is_u8. change 255 with (Z.ones 8). rewrite Z.land_ones by lia.
  apply Z.mod_pos_bound. lia.
Qed.

Lemma le_val_bytes n z : 0 <= z < 2 ^ (8 * Z.of_nat n) → le_val (le_bytes n z) = z.
Proof.
  revert z. induction n as [|n IH]; intros z Hz; simpl.
  - change (2 ^ (8 * Z.of_nat 0)) with 1 in Hz. lia.
  - change 255 with (Z.ones 8). rewrite Z.land_ones, Z.shiftr_div_pow2 by lia.
    rewrite Nat2Z.inj_succ, Z.mul_succ_r, Z.pow_add_r in Hz by lia.
    rewrite IH.
    + rewrite Z.shiftl_mul_pow2 by lia.
      pose proof (Z.div_mod z (2 ^ 8)). lia.
    + split; [apply Z.div_pos; lia|]. apply Z.div_lt_upper_bound; lia.
Qed.

#[global] Arguments le_bytes : simpl never.
#[global] Arguments le_val : simpl never.

(** Big-endian integers ([to_be_bytes], [from_be_bytes]). *)
Definition be_bytes (n : nat) (z : Z) : bytes := rev (le_bytes n z).
Definition be_val (bs : bytes) : Z := le_val (rev bs).

Lemma length_be_bytes n z : length (be_bytes n z) = n.
Proof. unfold be_bytes. by rewrite length_rev, length_le_bytes. Qed.

Lemma be_bytes_u8 n z : Forall is_u8 (be_bytes n z).
Proof. apply Forall_rev, le_bytes_u8. Qed.

Lemma be_val_bytes n z : 0 <= z < 2 ^ (8 * Z.of_nat n) → be_val (be_bytes n z) = z.
Proof. intros. unfold be_val, be_bytes. rewrite rev_involutive. by apply le_val_bytes. Qed.

Lemma le_val_range bs : Forall is_u8 bs → 0 <= le_val bs < 2 ^ (8 * zlen bs).
Proof.
  induction 1 as [|b bs Hb _ IH]; [done|]. change (le_val (b :: bs)) with (b + Z.shiftl (le_val bs) 8).
  rewrite Z.shiftl_mul_pow2 by lia. unfold zlen, is_u8 in *. cbn [length].
  replace (8 * Z.of_nat (S (length bs))) with (8 * Z.of_nat (length bs) + 8) by lia.
  rewrite Z.pow_add_r by lia. nia.
Qed.

Lemma be_val_range bs : Forall is_u8 bs → 0 <= be_val bs < 2 ^ (8 * zlen bs).
Proof.
  intros H. unfold be_val. replace (zlen bs) with (zlen (rev bs)) by (unfold zlen; by rewrite length_rev).
  apply le_val_range. by apply Forall_rev.
Qed.

#[global] Arguments be_bytes : simpl never.
#[global] Arguments be_val : simpl never.

(** * UTF-8 validity, as [String::from_utf8] checks it *)

Definition byte_in (lo hi b : Z) : bool := (lo <=? b) && (b <=? hi).

Fixpoint utf8_valid (s : bytes) : bool :=
  match s with
  | [] => true
  | b0 :: t0 =>
    if byte_in 0 127 b0 then utf8_valid t0
    else match t0 with
    | [] => false
    | b1 :: t1 =>
      if byte_in 194 223 b0 then byte_in 128 191 b1 && utf8_valid t1
      else match t1 with
      | [] => false
      | b2 :: t2 =>
        if (b0 =? 224) && byte_in 160 191 b1
           || (byte_in 225 236 b0 || byte_in 238 239 b0) && byte_in 128 191 b1
           || (b0 =? 237) && byte_in 128 159 b1
        then byte_in 128 191 b2 && utf8_valid t2
        else match t2 with
        | [] => false
        | b3 :: t3 =>
          ((b0 =? 240) && byte_in 144 191 b1
           || byte_in 241 243 b0 && byte_in 128 191 b1
           || (b0 =? 244) && byte_in 128 143 b1)
          && byte_in 128 191 b2 && byte_in 128 191 b3 && utf8_valid t3
        end
      end
    end
  end.

(** The byte image of a string literal of the source. *)
Definition lit (s : string) : str :=
  map (λ a, Z.of_N (N_of_ascii a)) (String.list_ascii_of_string s).

(** * Lexicographic order on byte strings ([Ord] of [str] and [[u8]]) *)

Fixpoint bytes_cmp (a b : bytes) : comparison :=
  match a, b with
  | [], [] => Eq
  | [], _ :: _ => Lt
  | _ :: _, [] => Gt
  | x :: a, y :: b => match x ?= y with Eq => bytes_cmp a b | c => c end
  end.

Lemma bytes_cmp_eq a b : bytes_cmp a b = Eq ↔ a = b.
Proof.
  revert b. induction a as [|x a IH]; intros [|y b]; simpl; [done..|].
  destruct (Z.compare_spec x y); subst; rewrite ?IH; split; intros; simplify_eq; try done; lia.
Qed.

Lemma bytes_cmp_antisym a b : bytes_cmp b a = CompOpp (bytes_cmp a b).
Proof.
  revert b. induction a as [|x a IH]; intros [|y b]; simpl; [done..|].
  rewrite (Z.compare_antisym x y). destruct (x ?= y); simpl; auto.
Qed.

Lemma bytes_cmp_trans a b c o :
  bytes_cmp a b = o → bytes_cmp b c = o → bytes_cmp a c = o.
Proof.
  revert b c. induction a as [|x a IH]; intros [|y b] [|z c]; simpl; try congruence.
  destruct (Z.compare_spec x y), (Z.compare_spec y z), (Z.compare_spec x z);
    subst; try congruence; try lia; eauto.
Qed.

(** * Repeated reads: [for _ in 0..n { v.push(rd(r)?) }]

    [n] comes off disk and can be near [2^64], so the loop recurses on fuel; a reader that
    consumes at least a byte per element cannot run [S (length r)] times, so the fuel
    chosen in [read_many] is never exhausted ([read_many_fuel_safe]) and [read_many]
    satisfies the loop's own equation ([read_many_step]). *)

Fixpoint read_many_fuel {A} (rd : reader A) (fuel : nat) (n : Z) (r : bytes)
    : result (list A * bytes) :=
  if n <=? 0 then Ok ([], r)
  else match fuel with
  | O => Err OutOfFuel
  | S fuel =>
      '(x, r) ← rd r;
      '(xs, r) ← read_many_fuel rd fuel (n - 1) r;
      Ok (x :: xs, r)
  end.

Definition read_many {A} (rd : reader A) (n : Z) (r : bytes) : result (list A * bytes) :=
  read_many_fuel rd (S (length r)) n r.

#[global] Arguments read_many : simpl never.

(** What a loop needs of the reader it repeats. *)
Class Consuming {A} (rd : reader A) : Prop :=
  consuming r a r' : rd r = Ok (a, r') → (length r' < length r)%nat.
Class FuelSafe {A} (rd : reader A) : Prop :=
  fuel_safe r : rd r ≠ Err OutOfFuel.

(** A writer/reader pair: what is written reads back, whatever follows it. *)
Class Codec {A} (wf : A → Prop) (wr : A → bytes) (rd : reader A) : Prop := {
  codec_consuming : Consuming rd;
  codec_roundtrip a rest : wf a → rd (wr a ++ rest) = Ok (a, rest);
}.

Section read_many.
Context {A : Type} (rd : reader A) `{!Consuming rd}.

Lemma read_many_fuel_irrel f1 f2 n r :
  (length r < f1)%nat → (length r < f2)%nat →
  read_many_fuel rd f1 n r = read_many_fuel rd f2 n r.
Proof.
  revert f2 n r. induction f1 as [|f1 IH]; intros f2 n r H1 H2; [lia|].
  destruct f2 as [|f2]; [lia|]. simpl. destruct (n <=? 0); [done|].
  destruct (rd r) as [[x r1]|] eqn:E; simpl; [|done].
  apply consuming in E. by rewrite (IH f2) by lia.
Qed.

Lemma read_many_zero n r : n <= 0 → read_many rd n r = Ok ([], r).
Proof. intros. unfold read_many. simpl. by rewrite (proj2 (Z.leb_le _ _)). Qed.

Lemma read_many_step n r : 0 < n →
  read_many rd n r =
    '(x, r) ← rd r; '(xs, r) ← read_many rd (n - 1) r; Ok (x :: xs, r).
Proof.
  intros. unfold read_many at 1. cbn [read_many_fuel].
  rewrite (proj2 (Z.leb_gt _ _)) by lia.
  destruct (rd r) as [[x r1]|] eqn:E; simpl; [|done].
  apply consuming in E. unfold read_many. by rewrite (read_many_fuel_irrel _ (S (length r1))) by lia.
Qed.

Lemma read_many_length n r xs r' :
  read_many rd n r = Ok (xs, r') → zlen xs = Z.max 0 n ∧ (length r' <= length r)%nat.
Proof.
  remember (length r) as k eqn:Hk. revert n r xs r' Hk.
  induction k as [k IH] using (well_founded_induction lt_wf); intros n r xs r' Hk.
  destruct (Z.leb_spec n 0).
  { rewrite read_many_zero by done. intros [= <- <-]. unfold zlen. simpl. lia. }
  rewrite read_many_step by done. intros Hr.
  destruct (rd r) as [[x r1]|] eqn:E; simpl in Hr; [|done]. apply consuming in E.
  destruct (read_many rd (n - 1) r1) as [[xs1 r2]|] eqn:E1; simpl in Hr; [|done].
  injection Hr as <- <-. apply (IH (length r1)) in E1; [|lia|done].
  unfold zlen in *. simpl. lia.
Qed.

Lemma read_many_consumes n r xs r' :
  read_many rd n r = Ok (xs, r') → (length xs + length r' <= length r)%nat.
Proof.
  remember (length r) as k eqn:Hk. revert n r xs r' Hk.
  induction k as [k IH] using (well_founded_induction lt_wf); intros n r xs r' Hk.
  destruct (Z.leb_spec n 0).
  { rewrite read_many_zero by done. intros [= <- <-]. simpl. lia. }
  rewrite read_many_step by done. intros Hr.
  apply bind_Ok in Hr as ([x r1] & Hx & Hr). apply bind_Ok in Hr as ([ys r2] & Hy & Hr).
  simplify_eq. apply consuming in Hx. apply (IH (length r1)) in Hy; [|lia|done]. simpl. lia.
Qed.

Lemma read_many_fuel_safe n r : FuelSafe rd → read_many rd n r ≠ Err OutOfFuel.
Proof.
  intros Hs. remember (length r) as k eqn:Hk. revert n r Hk.
  induction k as [k IH] using (well_founded_induction lt_wf); intros n r Hk.
  destruct (Z.leb_spec n 0); [by rewrite read_many_zero|].
  rewrite read_many_step by done. destruct (rd r) as [[x r1]|] eqn:E; simpl.
  - apply consuming in E. specialize (IH (length r1) ltac:(lia) (n - 1) r1 eq_refl).
    by destruct (read_many rd (n - 1) r1) as [[]|].
  - intros [= ->]. by apply (fuel_safe r).
Qed.
End read_many.

(** A reader returns a tail of the slice it was given. *)
Class Suffixing {A} (rd : reader A) : Prop :=
  suffixing r a r' : rd r = Ok (a, r') → suffix r' r.

#[export] Instance split_first_suffixing e : Suffixing (split_first e).
Proof. intros [|b r] c r'; simpl; [done|]. intros [= _ <-]. by apply suffix_cons_r. Qed.

#[export] Instance split_at_suffixing e n : Suffixing (split_at e n).
Proof. intros r s r' [-> _]%split_at_Ok. by apply suffix_app_r. Qed.

#[export] Instance read_many_suffixing {A} (rd : reader A) n :
  Consuming rd → Suffixing rd → Suffixing (read_many rd n).
Proof.
  intros Hc Hs r. remember (length r) as k eqn:Hk. revert n r Hk.
  induction k as [k IH] using (well_founded_induction lt_wf); intros n r Hk xs r'.
  destruct (Z.leb_spec n 0); [rewrite read_many_zero by done; by intros [= _ <-]|].
  rewrite (read_many_step rd) by done. intros Hr.
  apply bind_Ok in Hr as ([x r1] & Hx & Hr). apply bind_Ok in Hr as ([ys r2] & Hy & Hr).
  simplify_eq. trans r1; [|by eapply suffixing]. apply consuming in Hx.
  eapply (IH (length r1)); [lia|done|done].
Qed.

Lemma suffix_Forall {A} (P : A → Prop) l k : suffix k l → Forall P l → Forall P k.
Proof. intros [p ->]. by intros [_ ?]%Forall_app. Qed.

Lemma suffix_length_le {A} (k l : list A) : suffix k l → (length k <= length l)%nat.
Proof. apply suffix_length. Qed.

(** ** Fuel safety of composed readers

    The [fuel] database closes the goals [m ≠ Err OutOfFuel] a composed decoder leaves:
    a bind is fuel-safe when both its sides are. *)
Create HintDb fuel.

Lemma bind_fuel_safe {A B} (m : result A) (f : A → result B) :
  m ≠ Err OutOfFuel → (∀ a, f a ≠ Err OutOfFuel) → m ≫= f ≠ Err OutOfFuel.
Proof. intros Hm Hf. destruct m; simpl; [done|]. congruence. Qed.

Lemma split_first_fuel_safe e r : e ≠ OutOfFuel → split_first e r ≠ Err OutOfFuel.
Proof. destruct r; simpl; congruence. Qed.
Lemma split_at_fuel_safe e n r : e ≠ OutOfFuel → split_at e n r ≠ Err OutOfFuel.
Proof. intros ?. unfold split_at. case_match; congruence. Qed.
#[export] Hint Resolve split_first_fuel_safe split_at_fuel_safe fuel_safe read_many_fuel_safe : fuel.
#[export] Hint Extern 1 (Consuming _) => apply _ : fuel.
#[export] Hint Extern 1 (FuelSafe _) => apply _ : fuel.

Ltac fuel_safe :=
  repeat match goal with
  | |- _ ≫= _ ≠ Err OutOfFuel => apply bind_fuel_safe; [|intros [??]]
  | |- (if ?b then _ else _) ≠ _ => destruct b
  end; try discriminate; eauto with fuel.

Lemma split_first_length e r b r' : split_first e r = Ok (b, r') → length r = S (length r').
Proof. destruct r; [done|]. by intros [= -> ->]. Qed.

Lemma split_at_length e n r s r' : split_at e n r = Ok (s, r') → (length r' <= length r)%nat.
Proof. intros [-> _]%split_at_Ok. rewrite length_app. lia. Qed.

(** Turn the reads of a decoder's run into facts on the lengths of its slices. *)
Ltac consume :=
  repeat match goal with
  | H : split_first _ _ = Ok _ |- _ => apply split_first_length in H
  | H : split_at _ _ _ = Ok _ |- _ => apply split_at_length in H
  | H : read_many ?rd _ _ = Ok _ |- _ => apply (read_many_length rd) in H as [_ H]
  | H : ?rd _ = Ok (_, _) |- _ => apply (consuming (rd := rd)) in H
  end; simpl in *; lia.

Section codec.
Context {A : Type} {wf : A → Prop} {wr : A → bytes} {rd : reader A} `{!Codec wf wr rd}.
#[local] Instance codec_is_consuming : Consuming rd := codec_consuming.

Lemma codec_nonempty a : wf a → (0 < length (wr a))%nat.
Proof.
  intros Hw. pose proof (codec_roundtrip a [] Hw) as E. rewrite app_nil_r in E.
  apply consuming in E. simpl in E. lia.
Qed.

(** A writer with a reader is injective and prefix-free. *)
Lemma codec_prefix_free a b r s : wf a → wf b → wr a ++ r = wr b ++ s → a = b ∧ r = s.
Proof.
  intros Ha Hb E. pose proof (codec_roundtrip a r Ha) as E1.
  rewrite E, (codec_roundtrip b s Hb) in E1. by injection E1.
Qed.

Lemma codec_many_roundtrip xs rest :
  Forall wf xs → read_many rd (zlen xs) (concat (map wr xs) ++ rest) = Ok (xs, rest).
Proof.
  induction 1 as [|x xs Hx Hxs IH]; [by apply read_many_zero|].
  rewrite (read_many_step rd) by (unfold zlen; cbn [length]; lia). simpl.
  rewrite <- app_assoc, codec_roundtrip by done. simpl.
  replace (zlen (x :: xs) - 1) with (zlen xs) by (unfold zlen; simpl; lia).
  by rewrite IH.
Qed.
End codec.

(** * Ascending lists *)

Lemma sorted_lt_NoDup (l : list Z) : StronglySorted Z.lt l → NoDup l.
Proof.
  induction 1 as [|x l _ IH Hx]; constructor; [|done]. intros Hin. rewrite Forall_forall in Hx.
  specialize (Hx x Hin). lia.
Qed.
