(* ===== verification/Values.v ===== *)
(** Property-cell values and their index order (crates/graph-format/src/ids.rs).

    [Value.t] is the enum [Value]; a float is its IEEE-754 bit image ([f64::to_bits],
    [f32::to_bits]), which is what the wire format stores and what [total_cmp] compares.
    [Value.cmp_key] is the order the range indexes and [ORDER BY] use. *)

From S2P Require Import Prelude.

Module Value.

#[warnings="-register-all"]
Inductive t :=
  | Null
  | Bool (b : bool)
  | Int (i : Z)
  | Float (bits : Z)
  | Str (s : str)
  | List (items : list t)
  | Vector (xs : list Z).

(** [Value::type_name]. *)
Definition type_name (v : t) : string :=
  match v with
  | Null => "null"
  | Bool _ => "bool"
  | Int _ => "int"
  | Float _ => "float"
  | Str _ => "string"
  | List _ => "list"
  | Vector _ => "vector"
  end.

Definition rank (v : t) : Z :=
  match v with
  | Null => 0
  | Bool _ => 1
  | Int _ | Float _ => 2
  | Str _ => 3
  | List _ => 4
  | Vector _ => 5
  end.

(** ** Floats

    [f64::total_cmp] flips the magnitude bits of a negative number and compares the two
    images as signed integers; [f32::total_cmp] is the same at 32 bits. *)
Definition as_signed (w z : Z) : Z := (z + 2 ^ (w - 1)) mod 2 ^ w - 2 ^ (w - 1).

Definition total_key (w bits : Z) : Z :=
  let left := as_signed w bits in
  Z.lxor left (Z.shiftr (Z.shiftr left (w - 1) mod 2 ^ w) 1).

Definition total_cmp64 (a b : Z) : comparison := total_key 64 a ?= total_key 64 b.
Definition total_cmp32 (a b : Z) : comparison := total_key 32 a ?= total_key 32 b.

(** The magnitude of [i as f64] for [a > 0], rounded to nearest, ties to even: the
    exponent field and the 52 fraction bits as one integer.  A carry out of the fraction
    lands in the exponent field, which is the IEEE encoding of the rounded value. *)
Definition f64_magnitude (a : Z) : Z :=
  let e := Z.log2 a in
  let m :=
    if e <=? 52 then Z.shiftl a (52 - e)
    else
      let s := e - 52 in
      let q := Z.shiftr a s in
      let rem := Z.land a (Z.ones s) in
      let half := Z.shiftl 1 (s - 1) in
      if (half <? rem) || ((half =? rem) && Z.odd q) then q + 1 else q in
  Z.shiftl (e + 1023) 52 + (m - 2 ^ 52).

(** [i as f64], as bits. *)
Definition i64_as_f64 (i : Z) : Z :=
  if i =? 0 then 0
  else if 0 <? i then f64_magnitude i
  else 2 ^ 63 + f64_magnitude (- i).

(** ** [Value::cmp_key] *)

(** [a.iter().zip(b).map(cmp).find(|o| o != Equal).unwrap_or(a.len().cmp(&b.len()))]. *)
Definition zip_cmp {A} (cmp : A → A → comparison) : list A → list A → comparison :=
  fix go a b :=
    match a, b with
    | x :: a', y :: b' => match cmp x y with Eq => go a' b' | o => o end
    | _, _ => zlen a ?= zlen b
    end.

Definition bool_cmp (a b : bool) : comparison :=
  match a, b with
  | false, true => Lt
  | true, false => Gt
  | _, _ => Eq
  end.

Fixpoint cmp_key (a b : t) {struct a} : comparison :=
  match a, b with
  | Null, Null => Eq
  | Bool a, Bool b => bool_cmp a b
  | Int a, Int b => a ?= b
  | Float a, Float b => total_cmp64 a b
  | Int a, Float b => total_cmp64 (i64_as_f64 a) b
  | Float a, Int b => total_cmp64 a (i64_as_f64 b)
  | Str a, Str b => bytes_cmp a b
  | List a, List b =>
      (fix go (a b : list t) : comparison :=
         match a, b with
         | x :: a', y :: b' => match cmp_key x y with Eq => go a' b' | o => o end
         | _, _ => zlen a ?= zlen b
         end) a b
  | Vector a, Vector b => zip_cmp total_cmp32 a b
  | a, b => rank a ?= rank b
  end.

(** ** The builder's type-exact order ([value_cmp_exact], slater-build/src/merge_build.rs):
    the same comparisons, with [Int] and [Float] of different rank. *)
Definition rank_exact (v : t) : Z :=
  match v with
  | Null => 0
  | Bool _ => 1
  | Int _ => 2
  | Float _ => 3
  | Str _ => 4
  | List _ => 5
  | Vector _ => 6
  end.

Fixpoint value_cmp_exact (a b : t) {struct a} : comparison :=
  match a, b with
  | Null, Null => Eq
  | Bool x, Bool y => bool_cmp x y
  | Int x, Int y => x ?= y
  | Float x, Float y => total_cmp64 x y
  | Str x, Str y => bytes_cmp x y
  | List x, List y =>
      (fix go (x y : list t) : comparison :=
         match x, y with
         | p :: x', q :: y' => match value_cmp_exact p q with Eq => go x' y' | o => o end
         | _, _ => zlen x ?= zlen y
         end) x y
  | Vector x, Vector y => zip_cmp total_cmp32 x y
  | _, _ => rank_exact a ?= rank_exact b
  end.

(** Structural induction that reaches inside lists. *)
Section ind.
Context (P : t → Prop).
Context (HNull : P Null) (HBool : ∀ b, P (Bool b)) (HInt : ∀ i, P (Int i))
  (HFloat : ∀ x, P (Float x)) (HStr : ∀ s, P (Str s))
  (HList : ∀ l, Forall P l → P (List l)) (HVector : ∀ xs, P (Vector xs)).

Fixpoint t_nested_ind (v : t) : P v :=
  match v with
  | Null => HNull
  | Bool b => HBool b
  | Int i => HInt i
  | Float x => HFloat x
  | Str s => HStr s
  | List l => HList l
      ((fix go (l : list t) : Forall P l :=
          match l with
          | [] => Forall_nil_2 _
          | v :: l => Forall_cons_2 _ _ _ (t_nested_ind v) (go l)
          end) l)
  | Vector xs => HVector xs
  end.
End ind.

(** ** What the Rust types guarantee of a value

    The [i64], [f64], [f32] ranges, UTF-8 strings, and lengths an allocation can have. *)
Fixpoint wf (v : t) : Prop :=
  match v with
  | Null | Bool _ => True
  | Int i => is_i64 i
  | Float x => is_u64 x
  | Str s => Forall is_u8 s ∧ utf8_valid s = true ∧ fits s
  | List l => fits l ∧ (fix go (l : list t) := match l with [] => True | v :: l => wf v ∧ go l end) l
  | Vector xs => zlen xs < 2 ^ 61 ∧ Forall is_u32 xs
  end.

(** Nesting, counting the value itself (the rule of [MAX_VALUE_DEPTH]). *)
Fixpoint depth (v : t) : nat :=
  match v with
  | List l => S ((fix go (l : list t) := match l with [] => O | v :: l => Nat.max (depth v) (go l) end) l)
  | _ => 1%nat
  end.

Fixpoint max_depth (l : list t) : nat :=
  match l with [] => O | v :: l => Nat.max (depth v) (max_depth l) end.

Lemma depth_List l : depth (List l) = S (max_depth l).
Proof. reflexivity. Qed.

Lemma wf_List l : wf (List l) ↔ fits l ∧ Forall wf l.
Proof.
  simpl. split; intros [Hf Hl]; split; auto.
  - clear Hf. induction l; [done|]. destruct Hl. constructor; auto.
  - clear Hf. by induction Hl.
Qed.

#[global] Instance t_eq_dec : EqDecision t.
Proof.
  refine (fix go (a b : t) : Decision (a = b) :=
    let _ : EqDecision t := @go in
    match a, b with
    | Null, Null => left _
    | Bool a, Bool b => cast_if (decide (a = b))
    | Int a, Int b => cast_if (decide (a = b))
    | Float a, Float b => cast_if (decide (a = b))
    | Str a, Str b => cast_if (decide (a = b))
    | List a, List b => cast_if (decide (a = b))
    | Vector a, Vector b => cast_if (decide (a = b))
    | _, _ => right _
    end); abstract congruence.
Defined.
End Value.
