(* ===== verification/Wire.v ===== *)
(** The wire encoding shared by the property store, the indexes and the delta layer
    (crates/graph-format/src/wire.rs): LEB128 varints, zig-zag integers, and the
    self-delimiting image of a property value.

    A writer of the source appends to a buffer; here it returns the bytes it appends. *)

From S2P Require Import Prelude Values.

Definition TAG_NULL : Z := 0.
Definition TAG_BOOL : Z := 1.
Definition TAG_INT : Z := 2.
Definition TAG_FLOAT : Z := 3.
Definition TAG_STR : Z := 4.
Definition TAG_LIST : Z := 5.
Definition TAG_VECTOR : Z := 6.

Definition MAX_VALUE_DEPTH : nat := 256.
Definition MAX_UNBACKED_PREALLOC : Z := Z.shiftl 1 20.

(** ** Reservations and spans *)

Definition capacity_for (count remaining min_elem_bytes : Z) : Z :=
  Z.min count (remaining / Z.max min_elem_bytes 1).

Definition capacity_hint (count : Z) : Z := Z.min count MAX_UNBACKED_PREALLOC.

(** [usize::try_from(n)] succeeds for every [u64] at 64 bits; [checked_mul] fails on
    overflow. *)
Definition checked_span (what : string) (n elem : Z) : result Z :=
  if n * elem <? 2 ^ 64 then Ok (n * elem)
  else Err (LengthOverflow what n elem).

(** ** Varints *)

(** One pass of the [loop] of [write_uvarint] per unit of fuel. *)
Fixpoint write_uvarint_loop (fuel : nat) (v : Z) : bytes :=
  match fuel with
  | O => []
  | S fuel =>
      let byte := Z.land v 127 in
      let v := Z.shiftr v 7 in
      if v =? 0 then [byte] else Z.lor byte 128 :: write_uvarint_loop fuel v
  end.

(** Ten passes exhaust a [u64] ([write_uvarint_loop_stop]). *)
Definition write_uvarint (v : Z) : bytes := write_uvarint_loop 10 v.

Definition uvarint_len (v : Z) : Z :=
  let bits := Z.max (if v =? 0 then 0 else Z.log2 v + 1) 1 in
  (bits + 6) / 7.

(** The loop of [read_uvarint]; a [u64] shift drops the bits pushed past the top. *)
Fixpoint read_uvarint_loop (result shift : Z) (r : bytes) : Prelude.result (Z * bytes) :=
  match r with
  | [] => Err (Bail "varint truncated")
  | byte :: r =>
      let result := Z.lor result (as_u64 (Z.shiftl (Z.land byte 127) shift)) in
      if Z.land byte 128 =? 0 then Ok (result, r)
      else
        let shift := shift + 7 in
        if 64 <=? shift then Err (Bail "varint too long")
        else read_uvarint_loop result shift r
  end.

Definition read_uvarint : reader Z := read_uvarint_loop 0 0.

(** ** Zig-zag: [((v << 1) ^ (v >> 63)) as u64] and its inverse *)

Definition zigzag (v : Z) : Z :=
  as_u64 (Z.lxor (as_i64 (Z.shiftl v 1)) (Z.shiftr v 63)).

Definition unzigzag (v : Z) : Z :=
  Z.lxor (as_i64 (Z.shiftr v 1)) (- as_i64 (Z.land v 1)).

(** ** Values *)

Fixpoint write_value (v : Value.t) : bytes :=
  match v with
  | Value.Null => [TAG_NULL]
  | Value.Bool b => [TAG_BOOL; if b then 1 else 0]
  | Value.Int i => TAG_INT :: write_uvarint (zigzag i)
  | Value.Float f => TAG_FLOAT :: le_bytes 8 f
  | Value.Str s => TAG_STR :: write_uvarint (zlen s) ++ s
  | Value.List items =>
      TAG_LIST :: write_uvarint (zlen items) ++ concat (map write_value items)
  | Value.Vector xs =>
      TAG_VECTOR :: write_uvarint (zlen xs) ++ concat (map (le_bytes 4) xs)
  end.

(** [r.read_f64::<LittleEndian>()?] and [r.read_f32::<LittleEndian>()?]. *)
Definition read_f64 : reader Z := λ r,
  '(b, r) ← split_at IoError 8 r; Ok (le_val b, r).
Definition read_f32 : reader Z := λ r,
  '(b, r) ← split_at IoError 4 r; Ok (le_val b, r).

(** A length-prefixed string: [read_uvarint], the length check, [split_at] and
    [String::from_utf8], as [read_value] and the [read_str] helpers spell it. *)
Definition read_string (truncated invalid : error) : reader str := λ r,
  '(len, r) ← read_uvarint r;
  '(s, r) ← split_at truncated len r;
  if utf8_valid s then Ok (s, r) else Err invalid.

(** [read_value_at(r, depth)] with [lv = MAX_VALUE_DEPTH + 1 - depth] levels left. *)
Fixpoint read_value_at (lv : nat) (r : bytes) : result (Value.t * bytes) :=
  match lv with
  | O => Err (DepthExceeded (Z.of_nat MAX_VALUE_DEPTH))
  | S lv =>
      '(tag, r) ← split_first (Bail "value truncated (no tag)") r;
      if tag =? TAG_NULL then Ok (Value.Null, r)
      else if tag =? TAG_BOOL then
        '(b, r) ← split_first (Bail "bool truncated") r;
        Ok (Value.Bool (negb (b =? 0)), r)
      else if tag =? TAG_INT then
        '(u, r) ← read_uvarint r; Ok (Value.Int (unzigzag u), r)
      else if tag =? TAG_FLOAT then
        '(f, r) ← read_f64 r; Ok (Value.Float f, r)
      else if tag =? TAG_STR then
        '(s, r) ← read_string (Bail "string truncated") (Bail "invalid utf-8") r;
        Ok (Value.Str s, r)
      else if tag =? TAG_LIST then
        '(n, r) ← read_uvarint r;
        '(items, r) ← read_many (read_value_at lv) n r;
        Ok (Value.List items, r)
      else if tag =? TAG_VECTOR then
        '(n, r) ← read_uvarint r;
        '(xs, r) ← read_many read_f32 n r;
        Ok (Value.Vector xs, r)
      else Err (Bail "unknown value tag")
  end.

Definition read_value : reader Value.t := read_value_at MAX_VALUE_DEPTH.

Definition skip_bytes (n : Z) : reader unit := λ r,
  if zlen r <? n then Err (Bail "value truncated") else Ok (tt, drop (Z.to_nat n) r).

(** [skip_value_at(r, depth)], with the levels left as in [read_value_at]. *)
Fixpoint skip_value_at (lv : nat) (r : bytes) : result (unit * bytes) :=
  match lv with
  | O => Err (DepthExceeded (Z.of_nat MAX_VALUE_DEPTH))
  | S lv =>
      '(tag, r) ← split_first (Bail "value truncated (no tag)") r;
      if tag =? TAG_NULL then Ok (tt, r)
      else if tag =? TAG_BOOL then
        '(_, r) ← split_first (Bail "bool truncated") r; Ok (tt, r)
      else if tag =? TAG_INT then
        '(_, r) ← read_uvarint r; Ok (tt, r)
      else if tag =? TAG_FLOAT then skip_bytes 8 r
      else if tag =? TAG_STR then
        '(len, r) ← read_uvarint r; skip_bytes len r
      else if tag =? TAG_LIST then
        '(n, r) ← read_uvarint r;
        '(_, r) ← read_many (skip_value_at lv) n r;
        Ok (tt, r)
      else if tag =? TAG_VECTOR then
        '(n, r) ← read_uvarint r;
        if n * 4 <? 2 ^ 64 then skip_bytes (n * 4) r else Err (Bail "vector too long")
      else Err (Bail "unknown value tag")
  end.

Definition skip_value : reader unit := skip_value_at MAX_VALUE_DEPTH.

#[global] Arguments write_uvarint : simpl never.
#[global] Arguments read_uvarint : simpl never.
#[global] Arguments read_string : simpl never.
#[global] Arguments read_f64 : simpl never.
#[global] Arguments read_f32 : simpl never.
#[global] Arguments read_value : simpl never.
#[global] Arguments skip_value : simpl never.

(** * Varints *)

Lemma land_127_le v : 0 <= Z.land v 127 < 128.
Proof.
  change 127 with (Z.ones 7). rewrite Z.land_ones by lia. apply Z.mod_pos_bound. lia.
Qed.

Lemma cont_byte_low v : Z.land (Z.lor (Z.land v 127) 128) 127 = Z.land v 127.
Proof.
  rewrite Z.land_lor_distr_l. change (Z.land 128 127) with 0.
  by rewrite Z.lor_0_r, <- Z.land_assoc.
Qed.

Lemma cont_byte_high v : Z.land (Z.lor (Z.land v 127) 128) 128 = 128.
Proof.
  rewrite Z.land_lor_distr_l, <- Z.land_assoc. change (Z.land 127 128) with 0.
  by rewrite Z.land_0_r.
Qed.

Lemma last_byte_high v : Z.land (Z.land v 127) 128 = 0.
Proof. rewrite <- Z.land_assoc. by rewrite Z.land_0_r. Qed.

(** The low seven bits and the rest reassemble at any shift. *)
Lemma uvarint_reassemble v s : 0 <= s →
  Z.lor (Z.shiftl (Z.land v 127) s) (Z.shiftl (Z.shiftr v 7) (s + 7)) = Z.shiftl v s.
Proof.
  intros Hs. rewrite (Z.add_comm s), <- Z.shiftl_shiftl, <- Z.shiftl_lor by lia. f_equal.
  rewrite <- Z.ldiff_ones_r by lia. change 127 with (Z.ones 7).
  rewrite Z.lor_comm. apply Z.lor_ldiff_and.
Qed.

Lemma shiftr7_zero v : 0 <= v → Z.shiftr v 7 = 0 → Z.land v 127 = v.
Proof.
  intros Hv E. rewrite Z.shiftr_div_pow2 in E by lia. change 127 with (Z.ones 7).
  rewrite Z.land_ones by lia. pose proof (Z.div_mod v (2 ^ 7)). lia.
Qed.

Lemma write_uvarint_loop_S fuel v :
  write_uvarint_loop (S fuel) v =
    if Z.shiftr v 7 =? 0 then [Z.land v 127]
    else Z.lor (Z.land v 127) 128 :: write_uvarint_loop fuel (Z.shiftr v 7).
Proof. reflexivity. Qed.

Lemma read_write_uvarint_loop fuel v res s rest :
  0 <= v < 2 ^ (7 * Z.of_nat (S fuel)) → 0 <= s → v * 2 ^ s < 2 ^ 64 →
  read_uvarint_loop res s (write_uvarint_loop (S fuel) v ++ rest)
  = Ok (Z.lor res (Z.shiftl v s), rest).
Proof.
  revert v res s. induction fuel as [|fuel IH]; intros v res s Hv Hs Hb.
  all: rewrite write_uvarint_loop_S; pose proof (land_127_le v) as Hl.
  all: assert (Z.land v 127 <= v) as Hle by
    (change 127 with (Z.ones 7); rewrite Z.land_ones by lia; apply Z.mod_le; lia).
  all: assert (0 <= Z.land v 127 * 2 ^ s < 2 ^ 64) as Hsm by nia.
  all: assert (as_u64 (Z.shiftl (Z.land v 127) s) = Z.shiftl (Z.land v 127) s) as Hid by
    (rewrite Z.shiftl_mul_pow2 by lia; by apply as_u64_id).
  - assert (v < 128) by (simpl in Hv; lia).
    assert (Z.shiftr v 7 = 0) as E by (rewrite Z.shiftr_div_pow2 by lia; by apply Z.div_small).
    rewrite E. cbn. rewrite last_byte_high. cbn.
    rewrite <- Z.land_assoc, Z.land_diag, Hid. by rewrite (shiftr7_zero v) by lia.
  - destruct (Z.eqb_spec (Z.shiftr v 7) 0) as [E|E].
    + cbn. rewrite last_byte_high. cbn. rewrite <- Z.land_assoc, Z.land_diag, Hid.
      by rewrite (shiftr7_zero v) by lia.
    + assert (0 < Z.shiftr v 7) by (pose proof (Z.shiftr_nonneg v 7); lia).
      assert (Z.shiftr v 7 * 2 ^ 7 <= v) by
        (rewrite Z.shiftr_div_pow2 by lia; pose proof (Z.mul_div_le v (2 ^ 7)); lia).
      assert (s + 7 < 64) by (apply (Z.pow_lt_mono_r_iff 2); [lia..|]; rewrite Z.pow_add_r by lia; nia).
      cbn [app read_uvarint_loop]. rewrite cont_byte_high, cont_byte_low, Hid.
      change (128 =? 0) with false. cbv iota. rewrite (proj2 (Z.leb_gt _ _)) by lia.
      rewrite IH.
      * by rewrite <- Z.lor_assoc, uvarint_reassemble.
      * split; [lia|]. rewrite Z.shiftr_div_pow2 by lia. apply Z.div_lt_upper_bound; [lia|].
        rewrite <- Z.pow_add_r by lia. replace (7 + 7 * Z.of_nat (S fuel)) with (7 * Z.of_nat (S (S fuel))) by lia. lia.
      * lia.
      * rewrite Z.pow_add_r by lia. nia.
Qed.

Lemma read_write_uvarint v rest :
  is_u64 v → read_uvarint (write_uvarint v ++ rest) = Ok (v, rest).
Proof.
  intros Hv. unfold read_uvarint, write_uvarint, is_u64 in *.
  rewrite read_write_uvarint_loop; [|simpl; lia..].
  by rewrite Z.shiftl_0_r.
Qed.

Lemma read_uvarint_loop_consuming res s r v r' :
  read_uvarint_loop res s r = Ok (v, r') → (length r' < length r)%nat.
Proof.
  revert res s. induction r as [|b r IH]; intros res s; simpl; [done|].
  destruct (_ =? 0); [intros [= _ <-]; lia|]. destruct (_ <=? _); [done|].
  intros H%IH. lia.
Qed.

#[export] Instance read_uvarint_consuming : Consuming read_uvarint.
Proof. intros r v r'. apply read_uvarint_loop_consuming. Qed.

#[export] Instance read_uvarint_fuel_safe : FuelSafe read_uvarint.
Proof.
  intros r. unfold read_uvarint. generalize 0 at 1; generalize 0.
  induction r as [|b r IH]; intros s res; simpl; [done|].
  destruct (_ =? 0); [done|]. by destruct (_ <=? _).
Qed.

#[export] Instance uvarint_codec : Codec is_u64 write_uvarint read_uvarint.
Proof. constructor; [apply _|]. intros. by apply read_write_uvarint. Qed.

Lemma zlen_write_uvarint v : is_u64 v → zlen (write_uvarint v) = uvarint_len v.
Proof.
  unfold write_uvarint, uvarint_len, is_u64. intros Hv.
  assert (0 <= v < 2 ^ (7 * Z.of_nat 10)) as H by (simpl; lia). clear Hv. revert v H.
  generalize 9%nat as n. induction n as [|n IH]; intros v Hv; rewrite write_uvarint_loop_S.
  all: destruct (Z.eqb_spec (Z.shiftr v 7) 0) as [E|E].
  1,3: apply shiftr7_zero in E; [|lia]; pose proof (land_127_le v); cbn [length].
  1,2: destruct (Z.eqb_spec v 0); [subst; reflexivity|].
  1,2: assert (Z.log2 v < 7) by (apply Z.log2_lt_pow2; lia); pose proof (Z.log2_nonneg v).
  1,2: change (zlen _) with 1; apply (Z.div_unique _ _ _ (Z.max (Z.log2 v + 1) 1 - 1)); lia.
  - destruct E. rewrite Z.shiftr_div_pow2 by lia. apply Z.div_small. simpl in Hv. lia.
  - assert (0 < Z.shiftr v 7) as Hp by (pose proof (proj2 (Z.shiftr_nonneg v 7)); lia).
    assert (128 <= v) by (rewrite Z.shiftr_div_pow2 in Hp by lia;
      pose proof (Z.mul_div_le v (2 ^ 7)); lia).
    pose proof (Z.log2_shiftr v 7 ltac:(lia)) as Hl.
    assert (7 <= Z.log2 v) by (apply Z.log2_le_pow2; lia).
    unfold zlen in *. cbn [length]. rewrite Nat2Z.inj_succ, IH.
    + rewrite (proj2 (Z.eqb_neq (Z.shiftr v 7) 0)) by lia. rewrite (proj2 (Z.eqb_neq v 0)) by (intros ->; done).
      rewrite Hl. replace (Z.max (Z.log2 v + 1) 1 + 6) with (Z.max (Z.max 0 (Z.log2 v - 7) + 1) 1 + 6 + 1 * 7) by lia.
      rewrite Z.div_add by lia. lia.
    + split; [lia|]. rewrite Z.shiftr_div_pow2 by lia. apply Z.div_lt_upper_bound; [lia|].
      rewrite <- Z.pow_add_r by lia. replace (7 + 7 * Z.of_nat (S n)) with (7 * Z.of_nat (S (S n))) by lia. lia.
Qed.

(** * Zig-zag *)

Lemma zigzag_nonneg v : 0 <= v < 2 ^ 63 → zigzag v = 2 * v.
Proof.
  intros Hv. unfold zigzag. rewrite (Z.shiftr_div_pow2 v) by lia. rewrite (Z.div_small v) by lia.
  rewrite Z.lxor_0_r, Z.shiftl_mul_pow2 by lia. unfold as_u64, as_i64.
  rewrite Zminus_mod_idemp_l. rewrite Z.mod_small; lia.
Qed.

Lemma zigzag_neg v : - 2 ^ 63 <= v < 0 → zigzag v = - (2 * v) - 1.
Proof.
  intros Hv. unfold zigzag. rewrite (Z.shiftr_div_pow2 v) by lia.
  replace (v / 2 ^ 63) with (-1) by (apply (Z.div_unique _ _ _ (v + 2 ^ 63)); lia).
  rewrite Z.lxor_m1_r. unfold Z.lnot. rewrite Z.shiftl_mul_pow2 by lia. unfold as_u64, as_i64.
  rewrite <- Z.sub_1_r. set (w := (v * 2 ^ 1 + 2 ^ 63) mod 2 ^ 64).
  replace (- (w - 2 ^ 63) - 1) with (2 ^ 63 - 1 - w) by lia.
  unfold w. rewrite Zminus_mod_idemp_r, Z.mod_small; lia.
Qed.

Lemma zigzag_u64 v : is_u64 (zigzag v).
Proof. apply as_u64_range. Qed.

Lemma unzigzag_even n : 0 <= n < 2 ^ 63 → unzigzag (2 * n) = n.
Proof.
  intros Hn. unfold unzigzag. rewrite (Z.shiftr_div_pow2 _ 1), (Z.mul_comm 2), Z.div_mul by lia.
  change 1 with (Z.ones 1) at 1. rewrite Z.land_ones, Z.mod_mul by lia.
  change (- as_i64 0) with 0. by rewrite Z.lxor_0_r, as_i64_id by (unfold is_i64; lia).
Qed.

Lemma unzigzag_odd n : 0 <= n < 2 ^ 63 → unzigzag (2 * n + 1) = - n - 1.
Proof.
  intros Hn. unfold unzigzag. rewrite (Z.shiftr_div_pow2 _ 1) by lia.
  replace ((2 * n + 1) / 2 ^ 1) with n by (apply (Z.div_unique _ _ _ 1); lia).
  change 1 with (Z.ones 1) at 2. rewrite Z.land_ones by lia.
  replace ((2 * n + 1) mod 2 ^ 1) with 1 by (apply (Z.mod_unique _ _ n); lia).
  change (- as_i64 1) with (-1). rewrite as_i64_id by (unfold is_i64; lia).
  rewrite Z.lxor_m1_r. unfold Z.lnot. lia.
Qed.

Lemma unzigzag_zigzag v : is_i64 v → unzigzag (zigzag v) = v.
Proof.
  unfold is_i64. intros Hv. destruct (Z.le_gt_cases 0 v).
  - rewrite zigzag_nonneg by lia. apply unzigzag_even. lia.
  - rewrite zigzag_neg by lia. replace (- (2 * v) - 1) with (2 * (- v - 1) + 1) by lia.
    rewrite unzigzag_odd; lia.
Qed.

Lemma zigzag_unzigzag u : is_u64 u → is_i64 (unzigzag u) ∧ zigzag (unzigzag u) = u.
Proof.
  unfold is_u64, is_i64. intros Hu. pose proof (Z.div_mod u 2) as E.
  pose proof (Z.mod_pos_bound u 2). destruct (Z.eq_dec (u mod 2) 0) as [E0|E0].
  - rewrite E, E0, Z.add_0_r by lia. rewrite unzigzag_even by lia.
    rewrite zigzag_nonneg; lia.
  - rewrite E by lia. replace (u mod 2) with 1 by lia. rewrite unzigzag_odd by lia.
    rewrite zigzag_neg; lia.
Qed.

(** * The readers consume, and never run out of fuel *)

#[export] Instance read_f64_consuming : Consuming read_f64.
Proof.
  intros r v r' H. unfold read_f64 in H. split_bind. simplify_eq.
  apply split_at_Ok in H0 as [-> Hl]. specialize (Hl ltac:(lia)). unfold zlen in Hl.
  rewrite length_app. lia.
Qed.

#[export] Instance read_f32_consuming : Consuming read_f32.
Proof.
  intros r v r' H. unfold read_f32 in H. split_bind. simplify_eq.
  apply split_at_Ok in H0 as [-> Hl]. specialize (Hl ltac:(lia)). unfold zlen in Hl.
  rewrite length_app. lia.
Qed.

#[export] Instance read_string_consuming e1 e2 : Consuming (read_string e1 e2).
Proof.
  intros r v r' H. unfold read_string in H. split_bind.
  destruct (utf8_valid _); simplify_eq. consume.
Qed.

(** Case on the tag tests of a decoder's run [H]. *)
Ltac case_tags H :=
  repeat match type of H with (if ?x =? ?y then _ else _) = _ => destruct (Z.eqb_spec x y) end.

#[export] Instance read_value_at_consuming lv : Consuming (read_value_at lv).
Proof.
  induction lv as [|lv IH]; intros r v r' H; [done|]. cbn [read_value_at] in H.
  apply bind_Ok in H as ([tag r1] & Ht & H). case_tags H; split_bind; simplify_eq; consume.
Qed.

Lemma skip_bytes_length n r u r' : skip_bytes n r = Ok (u, r') → (length r' <= length r)%nat.
Proof. unfold skip_bytes. case_match; [done|]. intros [= _ <-]. rewrite length_drop. lia. Qed.

#[export] Instance skip_value_at_consuming lv : Consuming (skip_value_at lv).
Proof.
  induction lv as [|lv IH]; intros r v r' H; [done|]. cbn [skip_value_at] in H.
  apply bind_Ok in H as ([tag r1] & Ht & H). case_tags H; split_bind; simplify_eq.
  all: try (case_match; [|done]).
  all: repeat match goal with H : skip_bytes _ _ = Ok _ |- _ => apply skip_bytes_length in H end.
  all: consume.
Qed.

#[export] Instance read_f64_fuel_safe : FuelSafe read_f64.
Proof. intros r. unfold read_f64. fuel_safe. Qed.
#[export] Instance read_f32_fuel_safe : FuelSafe read_f32.
Proof. intros r. unfold read_f32. fuel_safe. Qed.
Lemma read_string_fuel_safe e1 e2 r :
  e1 ≠ OutOfFuel → e2 ≠ OutOfFuel → read_string e1 e2 r ≠ Err OutOfFuel.
Proof. intros ??. unfold read_string. fuel_safe. congruence. Qed.
#[export] Hint Resolve read_string_fuel_safe : fuel.

#[export] Instance read_value_at_fuel_safe lv : FuelSafe (read_value_at lv).
Proof.
  induction lv as [|lv IH]; intros r; [done|]. cbn [read_value_at]. fuel_safe.
Qed.

Lemma skip_bytes_fuel_safe n r : skip_bytes n r ≠ Err OutOfFuel.
Proof. unfold skip_bytes. by case_match. Qed.
#[export] Hint Resolve skip_bytes_fuel_safe : fuel.

#[export] Instance skip_value_at_fuel_safe lv : FuelSafe (skip_value_at lv).
Proof.
  induction lv as [|lv IH]; intros r; [done|]. cbn [skip_value_at]. fuel_safe.
Qed.

(** * Values: decoding what was written *)

Lemma read_string_write e1 e2 s rest : utf8_valid s = true → fits s →
  read_string e1 e2 (write_uvarint (zlen s) ++ s ++ rest) = Ok (s, rest).
Proof.
  intros Hu Hf. unfold read_string. rewrite read_write_uvarint by by apply fits_u64.
  simpl. rewrite split_at_app. simpl. by rewrite Hu.
Qed.

#[export] Instance f64_codec : Codec is_u64 (le_bytes 8) read_f64.
Proof.
  constructor; [apply _|]. intros f rest Hf. unfold read_f64.
  replace 8 with (zlen (le_bytes 8 f)) at 1 by (unfold zlen; by rewrite length_le_bytes).
  rewrite split_at_app. simpl. rewrite le_val_bytes; [done|exact Hf].
Qed.

#[export] Instance f32_codec : Codec is_u32 (le_bytes 4) read_f32.
Proof.
  constructor; [apply _|]. intros f rest Hf. unfold read_f32.
  replace 4 with (zlen (le_bytes 4 f)) at 1 by (unfold zlen; by rewrite length_le_bytes).
  rewrite split_at_app. simpl. rewrite le_val_bytes; [done|exact Hf].
Qed.

(** The list loop over written items: all of them when each fits the depth left, the
    depth error otherwise. *)
Lemma read_items_write lv items rest :
  Forall (λ v, ∀ rest, read_value_at lv (write_value v ++ rest) =
    if (Value.depth v <=? lv)%nat then Ok (v, rest)
    else Err (DepthExceeded (Z.of_nat MAX_VALUE_DEPTH))) items →
  read_many (read_value_at lv) (zlen items) (concat (map write_value items) ++ rest) =
    if (Value.max_depth items <=? lv)%nat then Ok (items, rest)
    else Err (DepthExceeded (Z.of_nat MAX_VALUE_DEPTH)).
Proof.
  induction 1 as [|v items Hv _ IH]; [by apply read_many_zero|].
  rewrite (read_many_step (read_value_at lv)) by (unfold zlen; cbn [length]; lia).
  replace (zlen (v :: items) - 1) with (zlen items) by (unfold zlen; cbn [length]; lia).
  cbn [map concat Value.max_depth]. rewrite <- app_assoc, Hv.
  destruct (Nat.leb_spec (Value.depth v) lv); simpl.
  - rewrite IH. destruct (Nat.leb_spec (Value.max_depth items) lv); simpl;
      destruct (Nat.leb_spec (Value.depth v `max` Value.max_depth items) lv); done || lia.
  - destruct (Nat.leb_spec (Value.depth v `max` Value.max_depth items) lv); done || lia.
Qed.

Lemma read_value_at_write v : Value.wf v → ∀ lv rest,
  read_value_at lv (write_value v ++ rest) =
    if (Value.depth v <=? lv)%nat then Ok (v, rest)
    else Err (DepthExceeded (Z.of_nat MAX_VALUE_DEPTH)).
Proof.
  induction v using Value.t_nested_ind; intros Hw [|lv] rest; try done.
  - by destruct b.
  - cbn. rewrite read_write_uvarint by apply zigzag_u64. simpl. by rewrite unzigzag_zigzag.
  - cbn -[read_f64 le_bytes]. by rewrite (codec_roundtrip (wr := le_bytes 8)) by exact Hw.
  - destruct Hw as (_ & Hu & Hf). cbn -[read_string]. rewrite <- app_assoc.
    by rewrite read_string_write.
  - apply Value.wf_List in Hw as [Hf Hw]. rewrite Value.depth_List.
    cbn [write_value app read_value_at]. cbn -[read_many]. rewrite <- app_assoc.
    rewrite read_write_uvarint by by apply fits_u64. cbn -[read_many].
    rewrite read_items_write.
    + by destruct (_ <=? _)%nat.
    + apply Forall_forall. intros v Hin rest'. rewrite Forall_forall in H, Hw. auto.
  - destruct Hw as [Hn Hx]. cbn -[read_many]. rewrite <- app_assoc.
    rewrite read_write_uvarint by (unfold is_u64; pose proof (zlen_nonneg xs); lia). cbn -[read_many].
    by rewrite (codec_many_roundtrip (wr := le_bytes 4)).
Qed.

(** The values a decode accepts back: representable and within the depth limit. *)
Definition value_ok (v : Value.t) : Prop :=
  Value.wf v ∧ (Value.depth v <= MAX_VALUE_DEPTH)%nat.

#[export] Instance value_codec : Codec value_ok write_value read_value.
Proof.
  constructor; [apply _|]. intros v rest [Hw Hd]. unfold read_value.
  rewrite read_value_at_write by done. by rewrite (proj2 (Nat.leb_le _ _)).
Qed.

(** * Values: what a decode of arbitrary bytes returns *)

Lemma lor_u64 a b : is_u64 a → is_u64 b → is_u64 (Z.lor a b).
Proof.
  unfold is_u64. intros Ha Hb. split; [apply Z.lor_nonneg; lia|].
  destruct (decide (Z.lor a b = 0)) as [->|Hn]; [lia|].
  assert (0 < Z.lor a b) by (pose proof (proj2 (Z.lor_nonneg a b)); lia).
  apply Z.log2_lt_pow2; [done|]. rewrite Z.log2_lor by lia.
  apply Z.max_lub_lt.
  - destruct (decide (a = 0)) as [->|]; [done|]. apply Z.log2_lt_pow2; lia.
  - destruct (decide (b = 0)) as [->|]; [done|]. apply Z.log2_lt_pow2; lia.
Qed.

Lemma read_uvarint_loop_u64 res s r v r' :
  is_u64 res → read_uvarint_loop res s r = Ok (v, r') → is_u64 v.
Proof.
  revert res s. induction r as [|b r IH]; intros res s Hr; simpl; [done|].
  assert (is_u64 (Z.lor res (as_u64 (Z.shiftl (Z.land b 127) s)))) by
    (apply lor_u64; [done|apply as_u64_range]).
  destruct (_ =? 0); [congruence|]. destruct (_ <=? _); [done|]. by apply IH.
Qed.

Lemma read_uvarint_u64 r v r' : read_uvarint r = Ok (v, r') → is_u64 v.
Proof. by apply read_uvarint_loop_u64. Qed.

(** [n] floats take [4n] bytes, and any [4n] bytes are [n] floats. *)
Lemma read_f32_drop r : 4 <= zlen r → ∃ x, read_f32 r = Ok (x, drop 4 r).
Proof.
  intros H. unfold read_f32, split_at. rewrite (proj2 (Z.ltb_ge _ _)) by done. simpl. eauto.
Qed.

Lemma read_f32s n r xs r' : read_many read_f32 n r = Ok (xs, r') → 0 <= n →
  4 * n <= zlen r ∧ r' = drop (Z.to_nat (4 * n)) r.
Proof.
  intros Hr Hn. revert r xs r' Hr. pattern n. revert n Hn. apply natlike_ind.
  - intros r xs r'. rewrite read_many_zero by lia. intros [= _ ->].
    split; [pose proof (zlen_nonneg r')|]; [lia|done].
  - intros n Hn IH r xs r'. rewrite (read_many_step read_f32) by lia. replace (Z.succ n - 1) with n by lia.
    intros H. apply bind_Ok in H as ([x r1] & Hx & H). apply bind_Ok in H as ([ys r2] & Hys & H).
    simplify_eq. apply IH in Hys as [H1 ->].
    unfold read_f32 in Hx. apply bind_Ok in Hx as ([b r2] & Hx & [= _ ->]).
    apply split_at_Ok in Hx as [-> Hl].
    specialize (Hl ltac:(lia)). rewrite zlen_app. split; [lia|].
    rewrite drop_app_ge by (unfold zlen in Hl; lia). f_equal. unfold zlen in Hl. lia.
Qed.

Lemma read_f32s_total n r : 0 <= n → 4 * n <= zlen r →
  ∃ xs, read_many read_f32 n r = Ok (xs, drop (Z.to_nat (4 * n)) r).
Proof.
  intros Hn. revert r. pattern n. revert n Hn. apply natlike_ind.
  - intros r _. rewrite read_many_zero by lia. by exists [].
  - intros n Hn IH r Hr. rewrite (read_many_step read_f32) by lia. replace (Z.succ n - 1) with n by lia.
    destruct (read_f32_drop r) as [x ->]; [lia|]. simpl.
    destruct (IH (drop 4 r)) as [xs ->]; [unfold zlen in *; rewrite length_drop; lia|].
    exists (x :: xs). simpl. rewrite drop_drop. do 2 f_equal. f_equal. lia.
Qed.

Lemma fits_le {A} (l k : list A) : (length k <= length l)%nat → fits l → fits k.
Proof. unfold fits, zlen. lia. Qed.

(** Skipping and decoding agree item by item, so they agree on the loop. *)
Lemma skip_items lv n r : fits r →
  (∀ r v r', fits r → read_value_at lv r = Ok (v, r') → skip_value_at lv r = Ok (tt, r')) →
  ∀ vs r', read_many (read_value_at lv) n r = Ok (vs, r') →
    ∃ us, read_many (skip_value_at lv) n r = Ok (us, r').
Proof.
  intros Hf Hv. remember (length r) as k eqn:Hk. revert n r Hk Hf.
  induction k as [k IH] using (well_founded_induction lt_wf); intros n r Hk Hf vs r'.
  destruct (Z.leb_spec n 0).
  { rewrite !read_many_zero by done. intros [= _ <-]. by exists []. }
  rewrite (read_many_step (read_value_at lv)), (read_many_step (skip_value_at lv)) by done.
  intros Hr. apply bind_Ok in Hr as ([v r1] & Hx & Hr). apply bind_Ok in Hr as ([ws r2] & Hws & Hr).
  simplify_eq. rewrite (Hv _ _ _ Hf Hx). simpl.
  apply consuming in Hx. edestruct (IH (length r1)) as [us ->]; [lia|done| |done|].
  - eapply fits_le; [|done]. lia.
  - by exists (tt :: us).
Qed.

Lemma read_value_at_skip lv r v r' :
  fits r → read_value_at lv r = Ok (v, r') → skip_value_at lv r = Ok (tt, r').
Proof.
  revert r v r'. induction lv as [|lv IH]; intros r v r' Hf H; [done|].
  cbn [read_value_at skip_value_at] in *. apply bind_Ok in H as ([tag r1] & Ht & H).
  assert (fits r1) as Hf1 by (apply (fits_le r); [apply split_first_length in Ht; lia|done]).
  rewrite Ht. cbn [mbind result_bind].
  case_tags H; try (apply bind_Ok in H as ([x r2] & Hx & H)); simplify_eq; try done.
  - by rewrite Hx.
  - by rewrite Hx.
  - unfold read_f64, split_at, skip_bytes in *. case_match; simpl in *; congruence.
  - unfold read_string, split_at, skip_bytes in *. destruct (read_uvarint _) as [[??]|]; simpl in *; [|done].
    case_match; simpl in *; [done|]. case_match; simpl in *; congruence.
  - apply bind_Ok in H as ([vs r3] & Hvs & H). simplify_eq.
    rewrite Hx. simpl. eapply skip_items in Hvs as [us ->]; [done| |exact IH].
    eapply fits_le; [|exact Hf1]. apply consuming in Hx. lia.
  - apply bind_Ok in H as ([xs r3] & Hxs & H). simplify_eq.
    rewrite Hx. simpl. pose proof (read_uvarint_u64 _ _ _ Hx) as Hn. unfold is_u64 in Hn.
    apply read_f32s in Hxs as [Hl ->]; [|lia]. unfold skip_bytes.
    assert (zlen r2 < 2 ^ 63) by (eapply (fits_le r1); [apply consuming in Hx; lia|done]).
    rewrite (proj2 (Z.ltb_lt _ _)) by lia. rewrite (proj2 (Z.ltb_ge _ _)) by lia.
    do 3 f_equal. lia.
Qed.

Lemma read_items_of_skip lv n r :
  (∀ r r', skip_value_at lv r = Ok (tt, r') →
    (∃ v, read_value_at lv r = Ok (v, r')) ∨ read_value_at lv r = Err (Bail "invalid utf-8")) →
  ∀ us r', read_many (skip_value_at lv) n r = Ok (us, r') →
    (∃ vs, read_many (read_value_at lv) n r = Ok (vs, r')) ∨
    read_many (read_value_at lv) n r = Err (Bail "invalid utf-8").
Proof.
  intros Hv. remember (length r) as k eqn:Hk. revert n r Hk.
  induction k as [k IH] using (well_founded_induction lt_wf); intros n r Hk us r'.
  destruct (Z.leb_spec n 0).
  { rewrite !read_many_zero by done. intros [= _ <-]. left. by exists []. }
  rewrite (read_many_step (read_value_at lv)), (read_many_step (skip_value_at lv)) by done.
  intros Hr. apply bind_Ok in Hr as ([[] r1] & Hx & Hr). apply bind_Ok in Hr as ([ws r2] & Hws & Hr).
  simplify_eq. destruct (Hv _ _ Hx) as [[v ->]| ->]; [|by right]. simpl.
  apply consuming in Hx. edestruct (IH (length r1)) as [[vs ->]| ->]; [lia|done..| |by right].
  left. by exists (v :: vs).
Qed.

Lemma skip_value_at_read lv r r' : skip_value_at lv r = Ok (tt, r') →
  (∃ v, read_value_at lv r = Ok (v, r')) ∨ read_value_at lv r = Err (Bail "invalid utf-8").
Proof.
  revert r r'. induction lv as [|lv IH]; intros r r' H; [done|].
  cbn [read_value_at skip_value_at] in *. apply bind_Ok in H as ([tag r1] & Ht & H).
  rewrite Ht. cbn [mbind result_bind]. clear Ht.
  case_tags H; try (apply bind_Ok in H as ([x r2] & Hx & H)); simplify_eq; eauto.
  - rewrite Hx. simpl. eauto.
  - rewrite Hx. simpl. eauto.
  - unfold read_f64, split_at, skip_bytes in *. case_match; simpl in *; simplify_eq; eauto.
  - unfold read_string, split_at, skip_bytes in *. rewrite Hx. simpl.
    case_match; simpl in *; simplify_eq. case_match; simpl; eauto.
  - rewrite Hx. simpl. apply bind_Ok in H as ([us r3] & Hus & H). simplify_eq.
    destruct (read_items_of_skip lv x r2 IH _ _ Hus) as [[vs ->]| ->]; simpl; eauto.
  - rewrite Hx. simpl. pose proof (read_uvarint_u64 _ _ _ Hx) as Hn. unfold is_u64 in Hn.
    destruct (_ <? _) in H; [|done]. unfold skip_bytes in H.
    destruct (Z.ltb_spec (zlen r2) (x * 4)); simplify_eq.
    destruct (read_f32s_total x r2) as [xs ->]; [lia..|]. simpl. left. eexists.
    do 3 f_equal. lia.
Qed.

#[export] Instance read_uvarint_suffixing : Suffixing read_uvarint.
Proof.
  intros r v r'. unfold read_uvarint. generalize 0 at 1 as res; generalize 0 as s.
  induction r as [|b r IH]; intros s res; simpl; [done|].
  destruct (_ =? 0); [intros [= _ <-]; by apply suffix_cons_r|].
  destruct (_ <=? _); [done|]. intros H%IH. by apply suffix_cons_r.
Qed.

#[export] Instance read_f64_suffixing : Suffixing read_f64.
Proof.
  intros r v r' H. apply bind_Ok in H as ([b r1] & H & [= _ <-]). by apply suffixing in H.
Qed.
#[export] Instance read_f32_suffixing : Suffixing read_f32.
Proof.
  intros r v r' H. apply bind_Ok in H as ([b r1] & H & [= _ <-]). by apply suffixing in H.
Qed.

#[export] Instance read_string_suffixing e1 e2 : Suffixing (read_string e1 e2).
Proof.
  intros r v r' H. apply bind_Ok in H as ([n r1] & Hn & H). apply bind_Ok in H as ([s r2] & Hs & H).
  case_match; simplify_eq. apply suffixing in Hn, Hs. by trans r1.
Qed.

#[export] Instance read_value_at_suffixing lv : Suffixing (read_value_at lv).
Proof.
  induction lv as [|lv IH]; intros r v r' H; [done|]. cbn [read_value_at] in H.
  apply bind_Ok in H as ([tag r1] & Ht & H). apply suffixing in Ht. trans r1; [|done].
  case_tags H; simplify_eq; try done.
  all: apply bind_Ok in H as ([x r2] & Hx & H); simplify_eq; apply suffixing in Hx; try done.
  all: apply bind_Ok in H as ([y r3] & Hy & H); simplify_eq.
  all: apply suffixing in Hy; by trans r2.
Qed.

Lemma read_f64_range r x r' : Forall is_u8 r → read_f64 r = Ok (x, r') → is_u64 x.
Proof.
  intros Hr H. apply bind_Ok in H as ([b r1] & H & [= <- _]). apply split_at_Ok in H as [-> Hl].
  apply Forall_app in Hr as [Hb _]. apply le_val_range in Hb. rewrite Hl in Hb by lia. exact Hb.
Qed.

Lemma read_f32_range r x r' : Forall is_u8 r → read_f32 r = Ok (x, r') → is_u32 x.
Proof.
  intros Hr H. apply bind_Ok in H as ([b r1] & H & [= <- _]). apply split_at_Ok in H as [-> Hl].
  apply Forall_app in Hr as [Hb _]. apply le_val_range in Hb. rewrite Hl in Hb by lia. exact Hb.
Qed.

(** A property every read of a well-formed slice has, the loop's elements have. *)
Lemma read_many_Forall {A} (rd : reader A) (P : A → Prop) n r xs r' :
  Consuming rd → Suffixing rd →
  (∀ r a r', Forall is_u8 r → fits r → rd r = Ok (a, r') → P a) →
  Forall is_u8 r → fits r → read_many rd n r = Ok (xs, r') → Forall P xs.
Proof.
  intros Hc Hs HP. remember (length r) as k eqn:Hk. revert n r xs r' Hk.
  induction k as [k IH] using (well_founded_induction lt_wf); intros n r xs r' Hk Hr Hf.
  destruct (Z.leb_spec n 0); [rewrite read_many_zero by done; by intros [= <- _]|].
  rewrite (read_many_step rd) by done. intros Hm.
  apply bind_Ok in Hm as ([x r1] & Hx & Hm). apply bind_Ok in Hm as ([ys r2] & Hy & Hm). simplify_eq.
  constructor; [by eapply HP|]. pose proof (consuming _ _ _ Hx). apply suffixing in Hx.
  eapply (IH (length r1)); [lia|done| | |done].
  - by eapply suffix_Forall.
  - eapply fits_le; [|done]. lia.
Qed.

Lemma max_depth_le l n : Forall (λ v, (Value.depth v <= n)%nat) l → (Value.max_depth l <= n)%nat.
Proof. induction 1; simpl; lia. Qed.

Lemma read_value_at_wf lv r v r' : Forall is_u8 r → fits r →
  read_value_at lv r = Ok (v, r') → Value.wf v ∧ (Value.depth v <= lv)%nat.
Proof.
  revert r v r'. induction lv as [|lv IH]; intros r v r' Hr Hf H; [done|]. cbn [read_value_at] in H.
  apply bind_Ok in H as ([tag r1] & Ht & H).
  pose proof (split_first_length _ _ _ _ Ht) as Hl1. apply suffixing in Ht as Hs1.
  pose proof (suffix_Forall _ _ _ Hs1 Hr) as Hr1.
  assert (fits r1) as Hf1 by (apply (fits_le r); [lia|done]).
  case_tags H; simplify_eq; try (simpl; split; [done|lia]).
  all: apply bind_Ok in H as ([x r2] & Hx & H); simplify_eq; try (simpl; split; [done|lia]).
  - simpl. split; [|lia]. apply zigzag_unzigzag. by eapply read_uvarint_u64.
  - simpl. split; [|lia]. by eapply read_f64_range.
  - simpl. split; [|lia]. apply bind_Ok in Hx as ([len r3] & Hn & Hx).
    apply bind_Ok in Hx as ([s r4] & Hs & Hx). case_match; simplify_eq.
    pose proof (consuming _ _ _ Hn). apply suffixing in Hn. apply split_at_Ok in Hs as [-> _].
    pose proof (suffix_Forall _ _ _ Hn Hr1) as [??]%Forall_app. rewrite length_app in *.
    repeat split; [done..|]. apply (fits_le r1); [lia|done].
  - apply bind_Ok in H as ([vs r3] & Hvs & H). simplify_eq.
    pose proof (consuming _ _ _ Hx). pose proof (read_uvarint_u64 _ _ _ Hx) as Hn.
    apply suffixing in Hx. pose proof (suffix_Forall _ _ _ Hx Hr1).
    assert (fits r2) as Hf2 by (apply (fits_le r1); [lia|done]).
    assert (Forall (λ v, Value.wf v ∧ (Value.depth v <= lv)%nat) vs) as Hw
      by (eapply (read_many_Forall (read_value_at lv)); [apply _|apply _|exact IH|done..]).
    rewrite Forall_and in Hw. destruct Hw as [Hw Hd].
    rewrite Value.wf_List, Value.depth_List. split; [split; [|done]|].
    + unfold fits, zlen in *. apply (read_many_consumes (read_value_at lv)) in Hvs. lia.
    + apply max_depth_le in Hd. lia.
  - apply bind_Ok in H as ([xs r3] & Hxs & H). simplify_eq. simpl. split; [|lia].
    pose proof (consuming _ _ _ Hx). pose proof (read_uvarint_u64 _ _ _ Hx) as Hn. unfold is_u64 in Hn.
    apply suffixing in Hx. pose proof (suffix_Forall _ _ _ Hx Hr1).
    assert (fits r2) as Hf2 by (apply (fits_le r1); [lia|done]). split.
    + pose proof (read_many_length read_f32 _ _ _ _ Hxs) as [Hz _].
      apply read_f32s in Hxs as [Hl _]; [|lia]. unfold fits in Hf2. lia.
    + eapply (read_many_Forall read_f32); [apply _|apply _| |done..].
      intros ????? Hrd. by eapply read_f32_range.
Qed.

(** * Sequences and strings on the wire

    [write_uvarint(n); for x in xs { wr(x) }] and the loop that reads it back. *)

Definition write_seq {A} (wr : A → bytes) (xs : list A) : bytes :=
  write_uvarint (zlen xs) ++ concat (map wr xs).

Definition read_seq {A} (rd : reader A) : reader (list A) := λ r,
  '(n, r) ← read_uvarint r; read_many rd n r.

Definition write_string (s : str) : bytes := write_uvarint (zlen s) ++ s.

(** What the [String] type guarantees. *)
Definition str_ok (s : str) : Prop := Forall is_u8 s ∧ utf8_valid s = true ∧ fits s.

#[global] Arguments write_seq : simpl never.
#[global] Arguments read_seq : simpl never.
#[global] Arguments write_string : simpl never.

#[export] Instance string_codec e1 e2 : Codec str_ok write_string (read_string e1 e2).
Proof.
  constructor; [apply _|]. intros s rest (_ & Hu & Hf). unfold write_string.
  rewrite <- app_assoc. by apply read_string_write.
Qed.

Section seq.
Context {A : Type} {wf : A → Prop} {wr : A → bytes} {rd : reader A}.

#[export] Instance read_seq_consuming : Consuming rd → Consuming (read_seq rd).
Proof.
  intros Hc r xs r' H. apply bind_Ok in H as ([n r1] & Hn & H). apply consuming in Hn.
  apply (read_many_length rd) in H as [_ H]. lia.
Qed.

#[export] Instance read_seq_suffixing : Consuming rd → Suffixing rd → Suffixing (read_seq rd).
Proof.
  intros Hc Hs r xs r' H. apply bind_Ok in H as ([n r1] & Hn & H). apply suffixing in Hn.
  apply suffixing in H. by trans r1.
Qed.

#[export] Instance read_seq_fuel_safe : Consuming rd → FuelSafe rd → FuelSafe (read_seq rd).
Proof. intros Hc Hs r. unfold read_seq. fuel_safe. Qed.

#[export] Instance seq_codec :
  Codec wf wr rd → Codec (λ xs, fits xs ∧ Forall wf xs) (write_seq wr) (read_seq rd).
Proof.
  intros HC. constructor; [apply read_seq_consuming, HC|]. intros xs rest [Hf Hw].
  unfold write_seq, read_seq. rewrite <- app_assoc, read_write_uvarint by by apply fits_u64.
  cbn [mbind result_bind]. by apply codec_many_roundtrip.
Qed.
End seq.

(** A pair written field after field. *)
Definition write_pair {A B} (wa : A → bytes) (wb : B → bytes) (p : A * B) : bytes :=
  wa p.1 ++ wb p.2.

Definition read_pair {A B} (ra : reader A) (rb : reader B) : reader (A * B) := λ r,
  '(a, r) ← ra r; '(b, r) ← rb r; Ok ((a, b), r).

#[global] Arguments write_pair : simpl never.
#[global] Arguments read_pair : simpl never.

Section pair.
Context {A B : Type} {wfa : A → Prop} {wfb : B → Prop}.
Context {wa : A → bytes} {wb : B → bytes} {ra : reader A} {rb : reader B}.

#[export] Instance read_pair_consuming : Consuming ra → Consuming rb → Consuming (read_pair ra rb).
Proof.
  intros Ha Hb r p r' H. apply bind_Ok in H as ([a r1] & H1 & H).
  apply bind_Ok in H as ([b r2] & H2 & H). simplify_eq. apply consuming in H1, H2. lia.
Qed.

#[export] Instance read_pair_suffixing : Suffixing ra → Suffixing rb → Suffixing (read_pair ra rb).
Proof.
  intros Ha Hb r p r' H. apply bind_Ok in H as ([a r1] & H1 & H).
  apply bind_Ok in H as ([b r2] & H2 & H). simplify_eq. apply suffixing in H1, H2. by trans r1.
Qed.

#[export] Instance read_pair_fuel_safe : FuelSafe ra → FuelSafe rb → FuelSafe (read_pair ra rb).
Proof. intros Ha Hb r. unfold read_pair. fuel_safe. Qed.

#[export] Instance pair_codec : Codec wfa wa ra → Codec wfb wb rb →
  Codec (λ p, wfa p.1 ∧ wfb p.2) (write_pair wa wb) (read_pair ra rb).
Proof.
  intros Ca Cb. constructor; [apply read_pair_consuming; [apply Ca|apply Cb]|].
  intros [a b] rest [Ha Hb]. unfold write_pair, read_pair. cbn in *.
  rewrite <- app_assoc, codec_roundtrip by done. cbn. by rewrite codec_roundtrip.
Qed.
End pair.

(** * Properties *)

(** A varint reads back whatever follows it, and takes exactly the [uvarint_len] bytes
    announced for it, at least one and at most ten. *)
Theorem uvarint_roundtrip v rest : is_u64 v →
  read_uvarint (write_uvarint v ++ rest) = Ok (v, rest) ∧
  zlen (write_uvarint v) = uvarint_len v ∧ 1 <= uvarint_len v <= 10.
Proof.
  intros Hv. split; [by apply read_write_uvarint|]. split; [by apply zlen_write_uvarint|].
  unfold uvarint_len, is_u64 in *. destruct (Z.eqb_spec v 0) as [|Hn]; [done|].
  pose proof (Z.log2_nonneg v). assert (Z.log2 v < 64) by (apply Z.log2_lt_pow2; lia).
  split; [apply Z.div_le_lower_bound|apply Z.lt_succ_r, Z.div_lt_upper_bound]; lia.
Qed.

(** Zig-zag is a bijection between [i64] and [u64]: no property integer is lost or
    shared by two encodings, at the ends of the range included. *)
Theorem zigzag_bijection i u :
  (is_i64 i → is_u64 (zigzag i) ∧ unzigzag (zigzag i) = i) ∧
  (is_u64 u → is_i64 (unzigzag u) ∧ zigzag (unzigzag u) = u).
Proof.
  split; [|apply zigzag_unzigzag]. intros Hi.
  split; [apply zigzag_u64|by apply unzigzag_zigzag].
Qed.

(** Every property value the types allow reads back from its image, whatever follows
    it, when it nests no deeper than [MAX_VALUE_DEPTH]; a deeper one is refused with the
    typed depth error and nothing else. *)
Theorem read_value_write v rest : Value.wf v →
  read_value (write_value v ++ rest) =
    if (Value.depth v <=? MAX_VALUE_DEPTH)%nat then Ok (v, rest)
    else Err (DepthExceeded (Z.of_nat MAX_VALUE_DEPTH)).
Proof. intros. by apply read_value_at_write. Qed.

(** C38: decoding any byte slice is total: the decoder never loops, and what it accepts is
    a representable value within the depth limit, whose own image decodes to it again. *)
Theorem read_value_total r : Forall is_u8 r → fits r →
  read_value r ≠ Err OutOfFuel ∧
  ∀ v r', read_value r = Ok (v, r') →
    value_ok v ∧ suffix r' r ∧ (length r' < length r)%nat ∧
    read_value (write_value v ++ r') = Ok (v, r').
Proof.
  intros Hr Hf. split; [apply read_value_at_fuel_safe|]. intros v r' H.
  assert (value_ok v) as Hv by (by eapply read_value_at_wf).
  split_and!; [done|by eapply read_value_at_suffixing|by eapply read_value_at_consuming|].
  by apply (codec_roundtrip (wr := write_value)).
Qed.

Lemma read_value_total_witness :
  read_value [5; 2; 0; 1; 1; 8] ≠ Err OutOfFuel ∧
  ∀ v r', read_value [5; 2; 0; 1; 1; 8] = Ok (v, r') →
    value_ok v ∧ suffix r' [5; 2; 0; 1; 1; 8] ∧ (length r' < length [5; 2; 0; 1; 1; 8])%nat ∧
    read_value (write_value v ++ r') = Ok (v, r').
Proof. apply (read_value_total [5; 2; 0; 1; 1; 8]); [repeat constructor; done|done]. Defined.

(** Skipping a value and decoding it land on the same byte: whatever decodes is
    skipped to the same place, and whatever is skipped either decodes to that place or is
    refused for the one thing a skip does not check, UTF-8. *)
Theorem skip_value_agrees r r' : fits r →
  (∀ v, read_value r = Ok (v, r') → skip_value r = Ok (tt, r')) ∧
  (skip_value r = Ok (tt, r') →
    (∃ v, read_value r = Ok (v, r')) ∨ read_value r = Err (Bail "invalid utf-8")).
Proof.
  intros Hf. split.
  - intros v. by apply read_value_at_skip.
  - apply skip_value_at_read.
Qed.

Lemma skip_value_agrees_witness :
  (∀ v, read_value [4; 1; 65; 3] = Ok (v, [3]) → skip_value [4; 1; 65; 3] = Ok (tt, [3])) ∧
  (skip_value [4; 1; 65; 3] = Ok (tt, [3]) →
    (∃ v, read_value [4; 1; 65; 3] = Ok (v, [3])) ∨
    read_value [4; 1; 65; 3] = Err (Bail "invalid utf-8")).
Proof. apply (skip_value_agrees [4; 1; 65; 3] [3]). done. Defined.
