(* ===== verification/ValueOrder.v ===== *)
(** The laws of [Value.cmp_key], the order of the range indexes
    (crates/graph-format/src/ids.rs).

    [cmp_key] is antisymmetric on every pair of values, and a total preorder on values
    whose integers are exactly representable as [f64]; beyond [2^53] an [Int] and a
    [Float] compare through a rounded image while two [Int]s compare exactly, and the
    comparison is not transitive. *)

From S2P Require Import Prelude Values.
Import Value.

(** * Triples ordered consistently

    Three comparison results are consistent when three integers have them. *)
Definition consistent3 (xy yz xz : comparison) : Prop :=
  ∃ p q r : Z, xy = (p ?= q) ∧ yz = (q ?= r) ∧ xz = (p ?= r).

Definition lex (o o' : comparison) : comparison := match o with Eq => o' | Lt => Lt | Gt => Gt end.

Lemma consistent3_keys p q r : consistent3 (p ?= q) (q ?= r) (p ?= r).
Proof. by exists p, q, r. Qed.

Lemma comparison_realised o : ∃ a b : Z, o = (a ?= b) ∧ 0 <= a <= 1 ∧ 0 <= b <= 1.
Proof. destruct o; [exists 0, 0|exists 0, 1|exists 1, 0]; split; done || lia. Qed.

Lemma consistent3_le xy yz xz :
  consistent3 xy yz xz → xy ≠ Gt → yz ≠ Gt → xz ≠ Gt ∧ (xz = Eq → xy = Eq ∧ yz = Eq).
Proof.
  intros (p & q & r & -> & -> & ->). intros H1 H2. split; [|intros H3].
  - apply Z.compare_ngt_iff in H1, H2. apply Z.compare_ngt_iff. lia.
  - apply Z.compare_eq_iff in H3 as ->. apply Z.compare_ngt_iff in H1, H2.
    rewrite !Z.compare_eq_iff. lia.
Qed.

Ltac zcmp :=
  repeat match goal with
  | |- context [?x ?= ?y] => destruct (Z.compare_spec x y); simpl in *
  | H : context [?x ?= ?y] |- _ => destruct (Z.compare_spec x y); simpl in *
  end; subst; try done; try lia.

(** Refining a consistent triple by a second comparison, consistent where the first does
    not decide. *)
Lemma consistent3_lex p q r xy yz xz :
  (p = q → q = r → consistent3 xy yz xz) →
  consistent3 (lex (p ?= q) xy) (lex (q ?= r) yz) (lex (p ?= r) xz).
Proof.
  intros H. destruct (decide (p = q)) as [->|Hpq], (decide (q = r)) as [->|Hqr].
  - rewrite !Z.compare_refl. by apply H.
  - destruct (comparison_realised xy) as (a & b & -> & Ha & Hb).
    exists (2 * q + a), (2 * q + b), (2 * r).
    rewrite Z.compare_refl. unfold lex. split_and!; zcmp.
  - destruct (comparison_realised yz) as (a & b & -> & Ha & Hb).
    exists (2 * p), (2 * r + a), (2 * r + b).
    rewrite Z.compare_refl. unfold lex. split_and!; zcmp.
  - destruct (decide (p = r)) as [->|Hpr].
    + destruct (comparison_realised xz) as (a & b & -> & Ha & Hb).
      exists (2 * r + a), (2 * q), (2 * r + b).
      rewrite Z.compare_refl. unfold lex. split_and!; zcmp.
    + exists p, q, r. unfold lex. split_and!; zcmp.
Qed.

(** The element-wise comparison of lists. *)
Lemma consistent3_zip {A} (cmp : A → A → comparison) a b c :
  Forall (λ x, ∀ y z, y ∈ b → z ∈ c → consistent3 (cmp x y) (cmp y z) (cmp x z)) a →
  consistent3 (zip_cmp cmp a b) (zip_cmp cmp b c) (zip_cmp cmp a c).
Proof.
  intros H. revert b c H. induction a as [|x a IH]; intros b c H.
  - destruct b as [|y b], c as [|z c]; simpl.
    + by apply (consistent3_keys 0 0 0).
    + by apply (consistent3_keys 0 0 1).
    + by apply (consistent3_keys 0 1 0).
    + destruct (comparison_realised (match cmp y z with Eq => zip_cmp cmp b c | o => o end))
        as (p & q & -> & ? & ?). exists (-1), p, q. split_and!; zcmp.
  - apply Forall_cons in H as [Hx H]. destruct b as [|y b], c as [|z c]; simpl.
    + by apply (consistent3_keys 1 0 0).
    + destruct (comparison_realised (match cmp x z with Eq => zip_cmp cmp a c | o => o end))
        as (p & q & -> & ? & ?). exists p, (-1), q. split_and!; zcmp.
    + destruct (comparison_realised (match cmp x y with Eq => zip_cmp cmp a b | o => o end))
        as (p & q & -> & ? & ?). exists p, q, (-1). split_and!; zcmp.
    + destruct (Hx y z) as (p & q & r & -> & -> & ->); [set_solver..|].
      apply (consistent3_lex p q r). intros _ _. apply IH.
      eapply Forall_impl; [done|]. simpl. intros w Hw y' z' ??. apply Hw; set_solver.
Qed.

Lemma zip_cmp_antisym {A} (cmp : A → A → comparison) a b :
  Forall (λ x, ∀ y, cmp y x = CompOpp (cmp x y)) a →
  zip_cmp cmp b a = CompOpp (zip_cmp cmp a b).
Proof.
  intros H. revert b. induction H as [|x a Hx _ IH]; intros [|y b]; simpl; try done.
  rewrite Hx. destruct (cmp x y); simpl; auto.
Qed.

Lemma bytes_cmp_zip a b : bytes_cmp a b = zip_cmp Z.compare a b.
Proof.
  revert b. induction a as [|x a IH]; intros [|y b]; try done.
  cbn. by rewrite IH.
Qed.

Lemma cmp_key_List a b : cmp_key (List a) (List b) = zip_cmp cmp_key a b.
Proof.
  revert b. induction a as [|x a IH]; intros [|y b]; try done.
Qed.

(** * Antisymmetry *)

Lemma bool_cmp_key a b : bool_cmp a b = (Z.b2z a ?= Z.b2z b).
Proof. by destruct a, b. Qed.

Lemma bool_cmp_antisym a b : bool_cmp b a = CompOpp (bool_cmp a b).
Proof. by destruct a, b. Qed.

Lemma cmp_key_opp a : ∀ b, cmp_key b a = CompOpp (cmp_key a b).
Proof.
  induction a using t_nested_ind; intros []; try done; try apply Z.compare_antisym.
  - apply bool_cmp_antisym.
  - apply bytes_cmp_antisym.
  - rewrite !cmp_key_List. by apply zip_cmp_antisym.
  - simpl. apply zip_cmp_antisym, Forall_forall. intros. apply Z.compare_antisym.
Qed.

(** * Numbers: an exactly representable integer and its float compare as integers do *)

Section total_key.
Context (w : Z) (Hw : 1 < w).

Lemma pow2_split : 2 ^ w = 2 * 2 ^ (w - 1).
Proof. rewrite <- Z.pow_succ_r by lia. f_equal. lia. Qed.

Lemma total_key_pos x : 0 <= x < 2 ^ (w - 1) → total_key w x = x.
Proof.
  intros Hx. unfold total_key, as_signed. pose proof pow2_split.
  rewrite Z.mod_small by lia. replace (x + 2 ^ (w - 1) - 2 ^ (w - 1)) with x by lia.
  rewrite (Z.shiftr_div_pow2 x), (Z.div_small x) by lia. rewrite Z.mod_0_l by lia. by rewrite Z.lxor_0_r.
Qed.

(** Flipping the low [w - 1] bits of [x - 2^(w-1)]. *)
Lemma lxor_ones_sub x : 0 <= x < 2 ^ (w - 1) →
  Z.lxor (x - 2 ^ (w - 1)) (Z.ones (w - 1)) = Z.lnot x.
Proof.
  intros Hx. apply Z.bits_inj'. intros n Hn. rewrite Z.lxor_spec, Z.lnot_spec by done.
  rewrite Z.testbit_ones_nonneg by lia. destruct (Z.ltb_spec n (w - 1)).
  - rewrite <- (Z.mod_pow2_bits_low (x - 2 ^ (w - 1)) (w - 1) n) by lia.
    rewrite <- (Z.mod_add (x - 2 ^ (w - 1)) 1) by lia.
    replace (x - 2 ^ (w - 1) + 1 * 2 ^ (w - 1)) with x by lia.
    rewrite Z.mod_small by lia. by destruct (Z.testbit x n).
  - rewrite xorb_false_r.
    replace (x - 2 ^ (w - 1)) with (Z.lnot (2 ^ (w - 1) - 1 - x)) by (unfold Z.lnot; lia).
    rewrite Z.lnot_spec by done. f_equal. rewrite !Z.testbit_odd, !Z.shiftr_div_pow2 by lia.
    assert (2 ^ (w - 1) <= 2 ^ n) by (apply Z.pow_le_mono_r; lia).
    rewrite !Z.div_small; [done|lia..].
Qed.

Lemma total_key_neg x : 0 <= x < 2 ^ (w - 1) → total_key w (2 ^ (w - 1) + x) = - 1 - x.
Proof.
  intros Hx. unfold total_key, as_signed. pose proof pow2_split.
  replace (2 ^ (w - 1) + x + 2 ^ (w - 1)) with (x + 1 * 2 ^ w) by lia.
  rewrite Z.mod_add by lia. rewrite (Z.mod_small x) by lia.
  rewrite (Z.shiftr_div_pow2 (x - _)) by lia.
  replace ((x - 2 ^ (w - 1)) / 2 ^ (w - 1)) with (-1) by (apply (Z.div_unique _ _ _ x); lia).
  replace (-1 mod 2 ^ w) with (2 ^ w - 1) by (apply (Z.mod_unique _ _ (-1)); lia).
  rewrite Z.shiftr_div_pow2 by lia.
  replace ((2 ^ w - 1) / 2 ^ 1) with (Z.ones (w - 1))
    by (rewrite Z.ones_equiv, <- Z.sub_1_r; apply (Z.div_unique _ _ _ 1); lia).
  rewrite lxor_ones_sub by done. unfold Z.lnot. lia.
Qed.

Lemma total_key_high y : 2 ^ (w - 1) <= y < 2 ^ w → total_key w y = 2 ^ (w - 1) - 1 - y.
Proof.
  intros Hy. pose proof pow2_split. pose proof (total_key_neg (y - 2 ^ (w - 1))) as E.
  replace (2 ^ (w - 1) + (y - 2 ^ (w - 1))) with y in E by lia. rewrite E; lia.
Qed.

(** [total_cmp] distinguishes every two bit images. *)
Lemma total_key_inj x y :
  0 <= x < 2 ^ w → 0 <= y < 2 ^ w → total_key w x = total_key w y → x = y.
Proof.
  intros Hx Hy. pose proof pow2_split.
  destruct (Z.lt_ge_cases x (2 ^ (w - 1))), (Z.lt_ge_cases y (2 ^ (w - 1))).
  - rewrite !total_key_pos by lia. lia.
  - rewrite total_key_pos, total_key_high by lia. lia.
  - rewrite total_key_high, (total_key_pos y) by lia. lia.
  - rewrite !total_key_high by lia. lia.
Qed.
End total_key.

(** The magnitude field: the exponent bounds it on both sides. *)
Lemma f64_magnitude_exact a : 0 < a → Z.log2 a <= 52 →
  f64_magnitude a = (Z.log2 a + 1022) * 2 ^ 52 + a * 2 ^ (52 - Z.log2 a).
Proof.
  intros Ha He. unfold f64_magnitude. rewrite (proj2 (Z.leb_le _ _)) by done.
  rewrite !Z.shiftl_mul_pow2 by lia. lia.
Qed.

Lemma f64_magnitude_bounds a : 0 < a <= 2 ^ 53 →
  (Z.log2 a + 1023) * 2 ^ 52 <= f64_magnitude a < (Z.log2 a + 1024) * 2 ^ 52.
Proof.
  intros Ha. destruct (decide (a = 2 ^ 53)) as [->|Hn]; [done|].
  assert (Z.log2 a < 53) by (apply Z.log2_lt_pow2; lia).
  rewrite f64_magnitude_exact by lia. pose proof (Z.log2_nonneg a).
  destruct (Z.log2_spec a) as [Hl Hu]; [lia|]. rewrite Z.pow_succ_r in Hu by lia.
  assert (2 ^ Z.log2 a * 2 ^ (52 - Z.log2 a) = 2 ^ 52) as E
    by (rewrite <- Z.pow_add_r by lia; f_equal; lia).
  assert (0 < 2 ^ (52 - Z.log2 a)) by (apply Z.pow_pos_nonneg; lia). nia.
Qed.

Lemma f64_magnitude_mono a b : 0 < a → a < b → b <= 2 ^ 53 → f64_magnitude a < f64_magnitude b.
Proof.
  intros Ha Hab Hb. pose proof (Z.log2_le_mono a b ltac:(lia)).
  pose proof (f64_magnitude_bounds a ltac:(lia)). pose proof (f64_magnitude_bounds b ltac:(lia)).
  destruct (decide (Z.log2 a = Z.log2 b)) as [E|]; [|nia].
  assert (Z.log2 a <= 52) by (apply Z.lt_succ_r, Z.log2_lt_pow2; simpl; lia).
  rewrite !f64_magnitude_exact by lia. rewrite E.
  assert (0 < 2 ^ (52 - Z.log2 b)) by (apply Z.pow_pos_nonneg; lia). nia.
Qed.

Definition exact_int (i : Z) : Prop := - 2 ^ 53 <= i <= 2 ^ 53.

Lemma i64_as_f64_key i : exact_int i →
  total_key 64 (i64_as_f64 i) =
    if i =? 0 then 0 else if 0 <? i then f64_magnitude i else - 1 - f64_magnitude (- i).
Proof.
  unfold exact_int, i64_as_f64. intros Hi. destruct (Z.eqb_spec i 0); [done|].
  assert (∀ a, 0 < a <= 2 ^ 53 → 0 <= f64_magnitude a < 2 ^ 63) as Hm.
  { intros a Ha. pose proof (f64_magnitude_bounds a Ha). pose proof (Z.log2_nonneg a).
    assert (Z.log2 a <= 53) by (change 53 with (Z.log2 (2 ^ 53)); apply Z.log2_le_mono; lia). lia. }
  destruct (Z.ltb_spec 0 i); [apply (total_key_pos 64 ltac:(lia))|apply (total_key_neg 64 ltac:(lia))]; apply Hm; lia.
Qed.

Lemma i64_as_f64_mono i j : exact_int i → exact_int j →
  (total_key 64 (i64_as_f64 i) ?= total_key 64 (i64_as_f64 j)) = (i ?= j).
Proof.
  intros Hi Hj.
  assert (∀ i j, exact_int i → exact_int j → i < j →
    total_key 64 (i64_as_f64 i) < total_key 64 (i64_as_f64 j)) as Hlt.
  { clear. intros i j Hi Hj Hij. rewrite !i64_as_f64_key by done. unfold exact_int in *.
    assert (∀ a, 0 < a <= 2 ^ 53 → 0 < f64_magnitude a) as Hp.
    { intros a Ha. pose proof (f64_magnitude_bounds a Ha). pose proof (Z.log2_nonneg a). lia. }
    destruct (Z.eqb_spec i 0), (Z.eqb_spec j 0), (Z.ltb_spec 0 i), (Z.ltb_spec 0 j); try lia.
    - apply Hp. lia.
    - pose proof (Hp (- i)). lia.
    - by apply f64_magnitude_mono; lia.
    - pose proof (Hp (- i)). pose proof (Hp j). lia.
    - pose proof (f64_magnitude_mono (- j) (- i)). lia. }
  destruct (Z.compare_spec i j) as [->|H|H]; [apply Z.compare_refl|by apply Hlt|].
  apply Z.compare_gt_iff. by apply Hlt.
Qed.

(** * Exact values: a total preorder *)

Fixpoint exact (v : t) : Prop :=
  match v with
  | Int i => exact_int i
  | List l => (fix go (l : list t) := match l with [] => True | v :: l => exact v ∧ go l end) l
  | _ => True
  end.

Lemma exact_List l : exact (List l) ↔ Forall exact l.
Proof.
  simpl. induction l; [by split|]. split.
  - intros [??]. constructor; tauto.
  - intros [??]%Forall_cons. tauto.
Qed.

(** Within a type (numbers together), and across types by rank. *)
Definition num_key (v : t) : Z :=
  match v with Int i => total_key 64 (i64_as_f64 i) | Float x => total_key 64 x | _ => 0 end.

Lemma cmp_key_num a b : rank a = 2 → rank b = 2 → exact a → exact b →
  cmp_key a b = (num_key a ?= num_key b).
Proof.
  destruct a, b; try done. intros _ _ Ha Hb. simpl in *. by rewrite i64_as_f64_mono.
Qed.

Lemma cmp_key_rank a b : rank a ≠ rank b → cmp_key a b = (rank a ?= rank b).
Proof. by destruct a, b. Qed.

Lemma cmp_key_lex a b : cmp_key a b = lex (rank a ?= rank b) (cmp_key a b).
Proof.
  destruct (decide (rank a = rank b)) as [->|Hn]; [by rewrite Z.compare_refl|].
  rewrite (cmp_key_rank _ _ Hn). by destruct (_ ?= _).
Qed.

Lemma cmp_key_by_rank a b c :
  (rank a = rank b → rank b = rank c →
    consistent3 (cmp_key a b) (cmp_key b c) (cmp_key a c)) →
  consistent3 (cmp_key a b) (cmp_key b c) (cmp_key a c).
Proof.
  intros H. apply (consistent3_lex (rank a) (rank b) (rank c)) in H.
  by rewrite <- !cmp_key_lex in H.
Qed.

Lemma cmp_key_consistent a b c : exact a → exact b → exact c →
  consistent3 (cmp_key a b) (cmp_key b c) (cmp_key a c).
Proof.
  revert b c. induction a as [|x|x|x|s|l IH|xs] using t_nested_ind; intros b c Ha Hb Hc.
  all: apply cmp_key_by_rank; intros E1 E2; symmetry in E1, E2.
  all: destruct b; try done; destruct c; try done.
  all: try (rewrite !cmp_key_num by done; apply consistent3_keys).
  - by apply (consistent3_keys 0 0 0).
  - simpl. rewrite !bool_cmp_key. apply consistent3_keys.
  - simpl. rewrite !bytes_cmp_zip. apply consistent3_zip, Forall_forall. intros. apply consistent3_keys.
  - rewrite !cmp_key_List. rewrite exact_List in *. apply consistent3_zip, Forall_forall.
    rewrite Forall_forall in *. intros. apply IH; auto.
  - simpl. apply consistent3_zip, Forall_forall. intros. apply consistent3_keys.
Qed.

(** * The type-exact order of the builder *)

Lemma value_cmp_exact_List a b : value_cmp_exact (List a) (List b) = zip_cmp value_cmp_exact a b.
Proof. revert b. induction a as [|x a IH]; intros [|y b]; done. Qed.

Lemma value_cmp_exact_opp a : ∀ b, value_cmp_exact b a = CompOpp (value_cmp_exact a b).
Proof.
  induction a using t_nested_ind; intros []; try done; try apply Z.compare_antisym.
  - apply bool_cmp_antisym.
  - apply bytes_cmp_antisym.
  - rewrite !value_cmp_exact_List. by apply zip_cmp_antisym.
  - simpl. apply zip_cmp_antisym, Forall_forall. intros. apply Z.compare_antisym.
Qed.

Lemma value_cmp_exact_lex a b :
  value_cmp_exact a b = lex (rank_exact a ?= rank_exact b) (value_cmp_exact a b).
Proof. by destruct a, b. Qed.

Lemma value_cmp_exact_by_rank a b c :
  (rank_exact a = rank_exact b → rank_exact b = rank_exact c →
    consistent3 (value_cmp_exact a b) (value_cmp_exact b c) (value_cmp_exact a c)) →
  consistent3 (value_cmp_exact a b) (value_cmp_exact b c) (value_cmp_exact a c).
Proof.
  intros H. apply (consistent3_lex (rank_exact a) (rank_exact b) (rank_exact c)) in H.
  by rewrite <- !value_cmp_exact_lex in H.
Qed.

Lemma value_cmp_exact_consistent a b c :
  consistent3 (value_cmp_exact a b) (value_cmp_exact b c) (value_cmp_exact a c).
Proof.
  revert b c. induction a as [|x|x|x|s|l IH|xs] using t_nested_ind; intros b c.
  all: apply value_cmp_exact_by_rank; intros E1 E2; symmetry in E1, E2.
  all: destruct b; try done; destruct c; try done; try apply consistent3_keys.
  - by apply (consistent3_keys 0 0 0).
  - simpl. rewrite !bool_cmp_key. apply consistent3_keys.
  - simpl. rewrite !bytes_cmp_zip. apply consistent3_zip, Forall_forall. intros. apply consistent3_keys.
  - rewrite !value_cmp_exact_List. apply consistent3_zip, Forall_forall.
    rewrite Forall_forall in IH. intros. by apply IH.
  - simpl. apply consistent3_zip, Forall_forall. intros. apply consistent3_keys.
Qed.

Lemma zip_cmp_eq {A} (cmp : A → A → comparison) (P : A → Prop) a b :
  Forall P a → Forall P b →
  Forall (λ x, ∀ y, P x → P y → cmp x y = Eq ↔ x = y) a →
  zip_cmp cmp a b = Eq ↔ a = b.
Proof.
  intros Ha. revert b. induction Ha as [|x a Hx Ha IH]; intros [|y b] Hb Hc; simpl; try done.
  apply Forall_cons in Hb as [Hy Hb]. apply Forall_cons in Hc as [Hxy Hc].
  specialize (IH b Hb Hc). specialize (Hxy y Hx Hy). destruct (cmp x y).
  - rewrite IH. destruct Hxy as [Hxy _]. specialize (Hxy eq_refl). split; congruence.
  - split; [done|]. intros [= -> ->]. destruct Hxy as [_ Hxy]. by discriminate Hxy.
  - split; [done|]. intros [= -> ->]. destruct Hxy as [_ Hxy]. by discriminate Hxy.
Qed.

Lemma value_cmp_exact_eq a : ∀ b, wf a → wf b → value_cmp_exact a b = Eq ↔ a = b.
Proof.
  induction a as [|x|x|x|s|l IH|xs] using t_nested_ind; intros b Ha Hb; destruct b; try done.
  - destruct x, b; simpl; done.
  - simpl. rewrite Z.compare_eq_iff. split; congruence.
  - simpl. unfold total_cmp64. rewrite Z.compare_eq_iff. split; [|congruence].
    intros E. f_equal. by apply (total_key_inj 64).
  - simpl. rewrite bytes_cmp_eq. split; congruence.
  - rewrite value_cmp_exact_List, wf_List in *. destruct Ha as [_ Ha], Hb as [_ Hb].
    rewrite (zip_cmp_eq _ wf) by (try done; tauto). split; congruence.
  - simpl in *. rewrite (zip_cmp_eq _ is_u32); [split; congruence|tauto..|].
    apply Forall_forall. intros x _ y Hx Hy. unfold total_cmp32. rewrite Z.compare_eq_iff.
    split; [|congruence]. by apply (total_key_inj 32).
Qed.

(** * Properties *)

(** On every pair of values, comparing in the other direction gives the opposite
    result, so [cmp_key] is reflexive and never orders a pair both ways. *)
Theorem cmp_key_antisym a b : cmp_key b a = CompOpp (cmp_key a b) ∧ cmp_key a a = Eq.
Proof.
  split; [apply cmp_key_opp|]. pose proof (cmp_key_opp a a) as E. by destruct (cmp_key a a).
Qed.

(** On values whose integers lie within [±2^53] (floats, strings, lists and vectors
    of any content), [cmp_key] is a total preorder: the relation "not greater" is
    transitive, and a chain is an equality only if both its steps are. *)
Theorem cmp_key_exact_preorder a b c : exact a → exact b → exact c →
  cmp_key a b ≠ Gt → cmp_key b c ≠ Gt →
  cmp_key a c ≠ Gt ∧ (cmp_key a c = Eq → cmp_key a b = Eq ∧ cmp_key b c = Eq).
Proof. intros. apply consistent3_le; [|done..]. by apply cmp_key_consistent. Qed.

(** Beyond [2^53] [cmp_key] is not an order: three representable values with
    [a < b], [b = c] and [c = a], because two [Int]s compare exactly and an [Int] with a
    [Float] after rounding. *)
Theorem cmp_key_not_transitive : ∃ a b c : t,
  wf a ∧ wf b ∧ wf c ∧ cmp_key a b = Lt ∧ cmp_key b c = Eq ∧ cmp_key c a = Eq.
Proof.
  exists (Int (2 ^ 53)), (Int (2 ^ 53 + 1)), (Float (i64_as_f64 (2 ^ 53))).
  split_and!; try reflexivity; unfold wf, is_i64, is_u64; vm_compute; split; congruence.
Qed.

(** The builder's type-exact order is a total order on representable values: equal
    only for the same value (down to the bits of a float), opposite when swapped, and
    transitive; it is the order business keys are matched with. *)
Theorem value_cmp_exact_total_order a b c : wf a → wf b → wf c →
  (value_cmp_exact a b = Eq ↔ a = b) ∧
  value_cmp_exact b a = CompOpp (value_cmp_exact a b) ∧
  (value_cmp_exact a b ≠ Gt → value_cmp_exact b c ≠ Gt → value_cmp_exact a c ≠ Gt).
Proof.
  intros Ha Hb Hc. split_and!; [by apply value_cmp_exact_eq|apply value_cmp_exact_opp|].
  intros H1 H2. by eapply (consistent3_le _ _ _ (value_cmp_exact_consistent a b c)).
Qed.

