(* ===== verification/Identity.v ===== *)
(** Symbols and business identities of the delta layer
    (crates/slater-delta/src/interner.rs and identity.rs).

    [Interner] hands out first-seen dense ids; [NodeIdentity] and [EdgeIdentity] are the
    business keys a delta record binds to, and [canonical_key] the byte image the memtable
    keys its stores by. *)

From S2P Require Import Prelude Values ValueOrder Wire.

(** * The interner *)

Record Interner := mkInterner {
  int_map : gmap (list Z) Z;
  int_names : list str;
}.

Module Interner.

Definition new : Interner := {| int_map := ∅; int_names := [] |}.

(** Insert-or-get; a fresh id is [self.names.len() as SymbolId], a [u32]. *)
Definition intern (name : str) (i : Interner) : Z * Interner :=
  match int_map i !! name with
  | Some id => (id, i)
  | None =>
      let id := as_u32 (zlen (int_names i)) in
      (id, {| int_map := <[name := id]> (int_map i); int_names := int_names i ++ [name] |})
  end.

Definition get (name : str) (i : Interner) : option Z := int_map i !! name.

Definition name (id : Z) (i : Interner) : option str := int_names i !! Z.to_nat id.

Definition names (i : Interner) : list str := int_names i.

(** [collect] into a [HashMap]: a later duplicate overwrites an earlier one. *)
Definition from_names (ns : list str) : Interner := {|
  int_map := foldl (λ m '(i, n), <[n := as_u32 (Z.of_nat i)]> m) ∅ (imap (λ i n, (i, n)) ns);
  int_names := ns;
|}.

(** The table and the map are inverse to each other, and ids have not wrapped. *)
Definition wf (i : Interner) : Prop :=
  NoDup (int_names i) ∧ zlen (int_names i) <= 2 ^ 32 ∧
  ∀ n id, int_map i !! n = Some id ↔ 0 <= id ∧ int_names i !! Z.to_nat id = Some n.

(** Room for one more symbol. *)
Definition has_room (i : Interner) : Prop := zlen (int_names i) < 2 ^ 32.

(** Every symbol of [i] means the same in [j]. *)
Definition extends (i j : Interner) : Prop := prefix (int_names i) (int_names j).

Lemma new_wf : wf new.
Proof.
  unfold wf, new. cbn. split_and!; [constructor|done|]. intros n id.
  rewrite lookup_empty. split; [done|]. intros [_ H]. by rewrite lookup_nil in H.
Qed.

Lemma wf_lookup_range i id n : wf i → 0 <= id → int_names i !! Z.to_nat id = Some n →
  is_u32 id.
Proof.
  intros (_ & Hl & _) H0 H. apply lookup_lt_Some in H. unfold is_u32, zlen in *. lia.
Qed.

Lemma get_range i n id : wf i → get n i = Some id → is_u32 id ∧ name id i = Some n.
Proof.
  intros Hw H. pose proof Hw as (_ & _ & Hi). apply Hi in H as [??].
  split; [by eapply wf_lookup_range|done].
Qed.

Lemma intern_wf n i id j : wf i → has_room i → intern n i = (id, j) →
  wf j ∧ extends i j ∧ get n j = Some id ∧ is_u32 id.
Proof.
  intros Hw Hr. unfold intern. destruct (int_map i !! n) as [k|] eqn:E.
  { intros [= <- <-]. split_and!; [done|unfold extends; reflexivity|done|].
    by eapply get_range. }
  pose proof Hw as (Hn & Hl & Hi). unfold has_room in Hr.
  assert (as_u32 (zlen (int_names i)) = zlen (int_names i)) as ->.
  { unfold as_u32. apply Z.mod_small. pose proof (zlen_nonneg (int_names i)). lia. }
  intros [= <- <-].
  assert (n ∉ int_names i) as Hni.
  { intros [k Hk]%list_elem_of_lookup. assert (int_map i !! n = Some (Z.of_nat k)) as E'.
    { apply Hi. rewrite Nat2Z.id. split; [lia|done]. }
    congruence. }
  split_and!.
  - unfold wf. cbn. split_and!.
    + apply NoDup_app. split_and!; [done| |apply NoDup_singleton].
      intros x Hx ->%list_elem_of_singleton. done.
    + rewrite zlen_app. change (zlen [n]) with 1. lia.
    + intros m id. destruct (decide (m = n)) as [->|Hm].
      * rewrite lookup_insert_eq. unfold zlen. split.
        -- intros [= <-]. split; [lia|]. rewrite Nat2Z.id. by apply list_lookup_middle.
        -- intros [H0 [H|[H1 H2]]%lookup_app_Some].
           ++ destruct Hni. by eapply list_elem_of_lookup_2.
           ++ apply lookup_lt_Some in H2. simpl in H2. f_equal. lia.
      * rewrite lookup_insert_ne by done. rewrite Hi. split; intros [H0 H]; split; try done.
        -- by apply lookup_app_l_Some.
        -- apply lookup_app_Some in H as [H|[_ H]]; [done|].
           destruct (Z.to_nat id - length (int_names i))%nat; simplify_eq/=.
  - by apply prefix_app_r.
  - unfold get. cbn. by rewrite lookup_insert_eq.
  - unfold is_u32. pose proof (zlen_nonneg (int_names i)). lia.
Qed.

Lemma name_extends i j id n : extends i j → name id i = Some n → name id j = Some n.
Proof. intros [k E] H. unfold name. rewrite E. by apply lookup_app_l_Some. Qed.

Lemma get_extends i j n id : wf i → wf j → extends i j → get n i = Some id → get n j = Some id.
Proof.
  intros Hi Hj He H. destruct Hi as (_ & _ & Hi), Hj as (_ & _ & Hj). apply Hi in H as [H0 H].
  apply Hj. split; [done|]. by apply (name_extends i j).
Qed.

Lemma name_inj i id1 id2 n : wf i → 0 <= id1 → 0 <= id2 →
  name id1 i = Some n → name id2 i = Some n → id1 = id2.
Proof.
  intros (Hn & _) H1 H2 E1 E2. assert (Z.to_nat id1 = Z.to_nat id2) by (by eapply NoDup_lookup).
  lia.
Qed.

Lemma from_names_wf ns : NoDup ns → zlen ns <= 2 ^ 32 → wf (from_names ns).
Proof.
  intros Hn Hl. unfold wf, from_names. cbn. split_and!; [done..|].
  induction ns as [|m ns IH] using rev_ind.
  { intros n id. split; [done|]. intros [_ H]. by rewrite lookup_nil in H. }
  apply NoDup_app in Hn as (Hn & Hd & _). rewrite zlen_app in Hl. change (zlen [m]) with 1 in Hl.
  assert (m ∉ ns) as Hm by (intros H; by apply (Hd m H), list_elem_of_singleton).
  specialize (IH Hn ltac:(lia)).
  intros n id. rewrite imap_app, foldl_app. cbn.
  rewrite Nat.add_0_r. unfold as_u32. rewrite Z.mod_small by (unfold zlen in Hl; lia).
  destruct (decide (n = m)) as [->|Hne].
  - rewrite lookup_insert_eq. split.
    + intros [= <-]. split; [lia|]. rewrite Nat2Z.id. by apply list_lookup_middle.
    + intros [H0 [H|[H1 H2]]%lookup_app_Some]; [by destruct Hm; eapply list_elem_of_lookup_2|].
      apply lookup_lt_Some in H2. simpl in H2. f_equal. lia.
  - rewrite lookup_insert_ne by done. rewrite IH. split; intros [H0 H]; split; try done.
    + by apply lookup_app_l_Some.
    + apply lookup_app_Some in H as [H|[_ H]]; [done|].
      destruct (Z.to_nat id - length ns)%nat; simplify_eq/=.
Qed.

Lemma from_names_names i : wf i → from_names (names i) = i.
Proof.
  intros (Hn & Hl & Hi). pose proof (from_names_wf _ Hn Hl) as (_ & _ & Hj).
  destruct i as [m ns]. unfold names in *. cbn in *.
  assert (int_map (from_names ns) = m) as E; [|unfold from_names in *; cbn in *; by rewrite E].
  apply map_eq. intros n. apply option_eq. intros id. by rewrite Hi, Hj.
Qed.
End Interner.

(** * Business identities *)

Record NodeIdentity := mkNodeIdentity {
  ni_label : Z;
  ni_key : Z;
  ni_value : Value.t;
}.

Record EdgeIdentity := mkEdgeIdentity {
  ei_src : NodeIdentity;
  ei_reltype : Z;
  ei_dst : NodeIdentity;
  ei_key : option (Z * Value.t);
}.

#[export] Instance NodeIdentity_eq_dec : EqDecision NodeIdentity.
Proof. solve_decision. Defined.
#[export] Instance EdgeIdentity_eq_dec : EqDecision EdgeIdentity.
Proof. solve_decision. Defined.

Module NodeIdentity.

Definition encode_into (i : NodeIdentity) : bytes :=
  write_uvarint (ni_label i) ++ write_uvarint (ni_key i) ++ write_value (ni_value i).

Definition canonical_key (i : NodeIdentity) : bytes := encode_into i.

(** The field types: two [SymbolId]s and a representable value. *)
Definition wf (i : NodeIdentity) : Prop :=
  is_u32 (ni_label i) ∧ is_u32 (ni_key i) ∧ Value.wf (ni_value i).

End NodeIdentity.

Module EdgeIdentity.

Definition new (src : NodeIdentity) (reltype : Z) (dst : NodeIdentity) : EdgeIdentity :=
  {| ei_src := src; ei_reltype := reltype; ei_dst := dst; ei_key := None |}.

Definition keyed (src : NodeIdentity) (reltype : Z) (dst : NodeIdentity)
    (key : option (Z * Value.t)) : EdgeIdentity :=
  {| ei_src := src; ei_reltype := reltype; ei_dst := dst; ei_key := key |}.

Definition canonical_key (e : EdgeIdentity) : bytes :=
  NodeIdentity.encode_into (ei_src e) ++
  write_uvarint (ei_reltype e) ++
  NodeIdentity.encode_into (ei_dst e) ++
  match ei_key e with
  | Some (key, value) => write_uvarint key ++ write_value value
  | None => []
  end.

Definition wf (e : EdgeIdentity) : Prop :=
  NodeIdentity.wf (ei_src e) ∧ is_u32 (ei_reltype e) ∧ NodeIdentity.wf (ei_dst e) ∧
  match ei_key e with Some (k, v) => is_u32 k ∧ Value.wf v | None => True end.

End EdgeIdentity.

Lemma is_u32_u64 z : is_u32 z → is_u64 z.
Proof. unfold is_u32, is_u64. lia. Qed.
#[export] Hint Resolve is_u32_u64 : core.

(** The image of a value delimits itself, at any depth. *)
Lemma write_value_prefix_free a b r s :
  Value.wf a → Value.wf b → write_value a ++ r = write_value b ++ s → a = b ∧ r = s.
Proof.
  intros Ha Hb E. set (lv := Nat.max (Value.depth a) (Value.depth b)).
  pose proof (read_value_at_write a Ha lv r) as E1. pose proof (read_value_at_write b Hb lv s) as E2.
  rewrite (proj2 (Nat.leb_le _ _)) in E1 by lia. rewrite (proj2 (Nat.leb_le _ _)) in E2 by lia.
  rewrite E, E2 in E1. by injection E1.
Qed.

Lemma write_uvarint_prefix_free a b r s :
  is_u64 a → is_u64 b → write_uvarint a ++ r = write_uvarint b ++ s → a = b ∧ r = s.
Proof. apply codec_prefix_free. Qed.

(** Peel the fields off an equation between two images. *)
Ltac peel E :=
  repeat rewrite <- app_assoc in E;
  repeat match type of E with
  | write_uvarint ?a ++ _ = write_uvarint ?b ++ _ =>
      apply write_uvarint_prefix_free in E as [? E]; [|by auto..]
  | write_value ?a ++ _ = write_value ?b ++ _ =>
      apply write_value_prefix_free in E as [? E]; [|by auto..]
  end.

Lemma encode_into_prefix_free a b r s : NodeIdentity.wf a → NodeIdentity.wf b →
  NodeIdentity.encode_into a ++ r = NodeIdentity.encode_into b ++ s → a = b ∧ r = s.
Proof.
  destruct a as [la ka va], b as [lb kb vb]. intros (?&?&?) (?&?&?) E. cbn in *.
  unfold NodeIdentity.encode_into in E. cbn in E. peel E. split; congruence.
Qed.

Lemma node_canonical_key_inj a b : NodeIdentity.wf a → NodeIdentity.wf b →
  NodeIdentity.canonical_key a = NodeIdentity.canonical_key b → a = b.
Proof.
  intros Ha Hb E. eapply (encode_into_prefix_free a b [] []); [done..|]. by rewrite !app_nil_r.
Qed.

Lemma write_uvarint_nonempty v r : is_u64 v → write_uvarint v ++ r ≠ [].
Proof.
  intros Hv E. apply (f_equal length) in E. rewrite length_app in E.
  pose proof (codec_nonempty (wr := write_uvarint) v Hv). simpl in E. lia.
Qed.

Lemma edge_canonical_key_inj a b : EdgeIdentity.wf a → EdgeIdentity.wf b →
  EdgeIdentity.canonical_key a = EdgeIdentity.canonical_key b → a = b.
Proof.
  destruct a as [sa ra da ka], b as [sb rb db kb]. intros (?&?&?&Ka) (?&?&?&Kb) E.
  unfold EdgeIdentity.canonical_key in E. cbn in *.
  apply encode_into_prefix_free in E as [-> E]; [|done..].
  apply write_uvarint_prefix_free in E as [-> E]; [|by auto..].
  apply encode_into_prefix_free in E as [-> E]; [|done..].
  destruct ka as [[ka va]|], kb as [[kb vb]|]; [..|done].
  - destruct Ka, Kb. apply write_uvarint_prefix_free in E as [-> E]; [|by auto..].
    assert (write_value va ++ [] = write_value vb ++ []) as E' by by rewrite !app_nil_r.
    by apply write_value_prefix_free in E' as [-> _].
  - destruct Ka. by apply write_uvarint_nonempty in E; auto.
  - destruct Kb. symmetry in E. by apply write_uvarint_nonempty in E; auto.
Qed.

(** * Properties *)

(** Interning a name gives an id that names it and is found by it, leaves every
    earlier id meaning what it meant, and is idempotent, while ids are below [2^32]. *)
Theorem intern_spec n i : Interner.wf i → Interner.has_room i →
  let id := (Interner.intern n i).1 in
  let j := (Interner.intern n i).2 in
  Interner.wf j ∧ Interner.name id j = Some n ∧ Interner.get n j = Some id ∧
  (∀ k m, Interner.name k i = Some m → Interner.name k j = Some m) ∧
  (∀ k m, Interner.get m i = Some k → Interner.get m j = Some k) ∧
  Interner.intern n j = (id, j).
Proof.
  intros Hw Hr. destruct (Interner.intern n i) as [id j] eqn:E. cbn.
  apply Interner.intern_wf in E as (Hj & He & Hg & _); [|done..].
  split_and!; [done|by apply Interner.get_range|done| | |].
  - intros k m. by apply Interner.name_extends.
  - intros k m. by apply Interner.get_extends.
  - unfold Interner.intern, Interner.get in *. by rewrite Hg.
Qed.

(** Rebuilding an interner from its persisted name table gives the interner back. *)
Theorem from_names_roundtrip i : Interner.wf i → Interner.from_names (Interner.names i) = i.
Proof. apply Interner.from_names_names. Qed.

(** Two node identities have the same canonical key exactly when they have the same
    label, the same key property, and values the builder's type-exact order holds equal. *)
Theorem node_canonical_key_iff a b : NodeIdentity.wf a → NodeIdentity.wf b →
  NodeIdentity.canonical_key a = NodeIdentity.canonical_key b ↔
    ni_label a = ni_label b ∧ ni_key a = ni_key b ∧
    Value.value_cmp_exact (ni_value a) (ni_value b) = Eq.
Proof.
  intros Ha Hb. rewrite value_cmp_exact_eq by (apply Ha || apply Hb). split.
  - intros ->%node_canonical_key_inj; done.
  - destruct a, b. cbn. by intros (-> & -> & ->).
Qed.

(** An edge's canonical key identifies it: endpoints, direction, relationship type
    and identifying property are all recovered from it, and a keyed edge never shares a
    key with a keyless one. *)
Theorem edge_canonical_key_iff a b : EdgeIdentity.wf a → EdgeIdentity.wf b →
  EdgeIdentity.canonical_key a = EdgeIdentity.canonical_key b ↔ a = b.
Proof. intros Ha Hb. split; [by apply edge_canonical_key_inj|by intros ->]. Qed.

