(* ===== verification/Crypto.v ===== *)
(** At-rest cryptography: [graph-format/src/crypto.rs].

    BLAKE3, XChaCha20-Poly1305 and CRC-32C are third-party crates and stay parameters (the
    class [Crypto]); what this file models is everything the repository builds on them: the
    key-derivation preimages, the associated data a block is sealed under, the one-shot blob
    format, the MAC preimage and the authentication policy, and the hex codec of the
    manifest fields.  The theorems about keys and MACs are reductions: two inputs the code
    must tell apart are told apart unless the primitive itself collides. *)

From S2P Require Import Prelude.

(** * The primitives *)

Class Crypto := {
  (** [crc32c::crc32c]. *)
  crc32c : bytes → Z;
  (** [blake3::Hasher::new_derive_key(ctx)], [update]d with the given bytes, 32 bytes out. *)
  blake3_derive : string → bytes → bytes;
  (** [blake3::Hasher::new_keyed(key)], [update]d and finalised. *)
  blake3_keyed : bytes → bytes → bytes;
  (** [XChaCha20Poly1305::encrypt]: key, nonce, associated data, message. *)
  aead_encrypt : bytes → bytes → bytes → bytes → option bytes;
  aead_decrypt : bytes → bytes → bytes → bytes → option bytes;
}.

(** What the crates document: a checksum is a [u32]; decryption inverts encryption; the
    ciphertext is the message and a 16-byte tag. *)
Class CryptoLaws `{Crypto} : Prop := {
  crc32c_u32 b : is_u32 (crc32c b);
  aead_open k n a m c : aead_encrypt k n a m = Some c → aead_decrypt k n a c = Some m;
  aead_length k n a m c : aead_encrypt k n a m = Some c → zlen c = zlen m + 16;
  blake3_keyed_u8 k m : Forall is_u8 (blake3_keyed k m);
}.

Definition NONCE_LEN : Z := 24.
Definition SALT_LEN : Z := 32.
Definition FORMAT_VERSION : Z := 9.

Definition KDF_CONTEXT : string := "slater generation block key v1".
Definition MAC_KDF_CONTEXT : string := "slater manifest mac v1".
Definition FILE_KDF_CONTEXT : string := "slater generation file key v1".
Definition DELTA_KDF_CONTEXT : string := "slater delta key v1".

(** What a block is sealed as. *)
Record BlockAad := {
  ordinal : Z;
  first_record : Z;
  raw_len : Z;
  rec_count : Z;
}.

Module BlockAad.

Definition block (ordinal first_record raw_len rec_count : Z) : BlockAad :=
  Build_BlockAad (as_u64 ordinal) first_record raw_len rec_count.

Definition position_only (ordinal : Z) : BlockAad := Build_BlockAad ordinal 0 0 0.

Definition bytes (a : BlockAad) : list Z :=
  le_bytes 8 (ordinal a) ++ le_bytes 8 (first_record a)
    ++ le_bytes 4 (raw_len a) ++ le_bytes 4 (rec_count a).

Definition wf (a : BlockAad) : Prop :=
  is_u64 (ordinal a) ∧ is_u64 (first_record a) ∧ is_u32 (raw_len a) ∧ is_u32 (rec_count a).

End BlockAad.

(** Which kind of document a MAC preimage is for. *)
Inductive MacDomain := Manifest | SegmentManifest | SetManifest | VectorIndexManifest.

Definition domain_str (d : MacDomain) : str :=
  match d with
  | Manifest => lit "slater.manifest"
  | SegmentManifest => lit "slater.segment-manifest"
  | SetManifest => lit "slater.set-manifest"
  | VectorIndexManifest => lit "slater.vector-index-manifest"
  end.

(** [format!(".mac.v{}", FORMAT_VERSION)]; the version is a single decimal digit. *)
Definition version_suffix : str := lit ".mac.v" ++ [48 + FORMAT_VERSION].

Definition mac_preimage (d : MacDomain) (body : bytes) : bytes :=
  domain_str d ++ version_suffix ++ [0] ++ le_bytes 8 (zlen body) ++ body.

(** * Hex *)

(** [char::from_digit(d, 16)] and [char::to_digit(16)], on the byte of an ASCII char. *)
Definition from_digit (d : Z) : Z := if d <? 10 then 48 + d else 87 + d.

Definition to_digit (c : Z) : option Z :=
  if byte_in 48 57 c then Some (c - 48)
  else if byte_in 97 102 c then Some (c - 87)
  else if byte_in 65 70 c then Some (c - 55)
  else None.

Fixpoint hex_encode (bs : bytes) : str :=
  match bs with
  | [] => []
  | b :: bs => from_digit (Z.shiftr b 4) :: from_digit (Z.land b 15) :: hex_encode bs
  end.

(** The UTF-8 images of the [White_Space] characters [str::trim] strips. *)
Definition ws1 (a : Z) : bool := byte_in 9 13 a || (a =? 32).
Definition ws2 (a b : Z) : bool := (a =? 194) && ((b =? 133) || (b =? 160)).
Definition ws3 (a b c : Z) : bool :=
  (a =? 225) && (b =? 154) && (c =? 128)
  || (a =? 226) && (b =? 128) && (byte_in 128 138 c || (c =? 168) || (c =? 169) || (c =? 175))
  || (a =? 226) && (b =? 129) && (c =? 159)
  || (a =? 227) && (b =? 128) && (c =? 128).

Fixpoint trim_start (s : str) : str :=
  match s with
  | [] => []
  | a :: t =>
      if ws1 a then trim_start t
      else match t with
      | [] => s
      | b :: t2 =>
          if ws2 a b then trim_start t2
          else match t2 with
          | [] => s
          | c :: t3 => if ws3 a b c then trim_start t3 else s
          end
      end
  end.

(** [trim_start] on the reversed string, the bytes of each character reversed with it. *)
Fixpoint trim_end_rev (s : str) : str :=
  match s with
  | [] => []
  | a :: t =>
      if ws1 a then trim_end_rev t
      else match t with
      | [] => s
      | b :: t2 =>
          if ws2 b a then trim_end_rev t2
          else match t2 with
          | [] => s
          | c :: t3 => if ws3 c b a then trim_end_rev t3 else s
          end
      end
  end.

Definition trim (s : str) : str := reverse (trim_end_rev (reverse (trim_start s))).

Definition need_digit (c : Z) : result Z :=
  match to_digit c with Some d => Ok d | None => Err (Bail "invalid hex digit") end.

Fixpoint hex_pairs (s : str) : result bytes :=
  match s with
  | a :: b :: s =>
      hi ← need_digit a;
      lo ← need_digit b;
      rest ← hex_pairs s;
      Ok (Z.land (Z.lor (Z.shiftl hi 4) lo) 255 :: rest)
  | _ => Ok []
  end.

Definition hex_decode (s : str) : result bytes :=
  let s := trim s in
  if negb (zlen s mod 2 =? 0) then Err (Bail "hex string has an odd number of digits")
  else hex_pairs s.

Definition hex_decode_salt (s : str) : result bytes :=
  bs ← hex_decode s;
  if zlen bs =? SALT_LEN then Ok bs else Err (Bail "encryption salt of the wrong width").

Definition constant_time_eq (a b : bytes) : bool :=
  if negb (zlen a =? zlen b) then false
  else foldl (λ diff '(x, y), Z.lor diff (Z.lxor x y)) 0 (zip a b) =? 0.

(** * Keys, sealing and MACs *)

(** A per-generation (or per-graph delta) key: it can only derive file ciphers. *)
Record BlockCipher := { block_key : bytes }.
(** The cipher of one file: the AEAD keyed with the file's subkey. *)
Record FileCipher := { file_key : bytes }.

(** A document with a MAC field: the trait [MacSealed]. *)
Class MacSealed (T : Type) := {
  DOMAIN : MacDomain;
  SUBJECT : string;
  stored_mac : T → option str;
  set_mac : T → option str → T;
  mac_body : T → result bytes;
}.

(** What an implementation owes: the field is a field, and the body does not cover it. *)
Class MacSealedLaws (T : Type) `{MacSealed T} : Prop := {
  stored_set_mac d m : stored_mac (set_mac d m) = m;
  mac_body_set_mac d m : mac_body (set_mac d m) = mac_body d;
}.

Section crypto.
Context `{Crypto}.

Definition derive_key (master_key salt : bytes) : bytes :=
  blake3_derive KDF_CONTEXT (master_key ++ salt).

Definition derive_manifest_mac_key (master_key : bytes) : bytes :=
  blake3_derive MAC_KDF_CONTEXT master_key.

Definition derive_delta_key (master_key : bytes) (graph : str) : bytes :=
  blake3_derive DELTA_KDF_CONTEXT (le_bytes 8 (zlen master_key) ++ master_key ++ graph).

Definition derive_file_key (gen_key : bytes) (name : str) : bytes :=
  blake3_derive FILE_KDF_CONTEXT (gen_key ++ name).

Definition from_master (master_key salt : bytes) : BlockCipher :=
  Build_BlockCipher (derive_key master_key salt).

Definition delta_cipher (master_key : bytes) (graph : str) : BlockCipher :=
  Build_BlockCipher (derive_delta_key master_key graph).

Definition for_file (c : BlockCipher) (name : str) : FileCipher :=
  Build_FileCipher (derive_file_key (block_key c) name).

Definition file_seal (c : FileCipher) (aad : BlockAad) (nonce plaintext : bytes) : result bytes :=
  match aead_encrypt (file_key c) nonce (BlockAad.bytes aad) plaintext with
  | Some ct => Ok ct
  | None => Err (Bail "AEAD encryption failed")
  end.

Definition file_open (c : FileCipher) (aad : BlockAad) (nonce ciphertext : bytes) : result bytes :=
  match aead_decrypt (file_key c) nonce (BlockAad.bytes aad) ciphertext with
  | Some pt => Ok pt
  | None => Err AeadRejected
  end.

(** The random nonce the source draws is an argument. *)
Definition seal_blob (c : FileCipher) (nonce : bytes) (ord : Z) (payload : bytes) : result bytes :=
  ct ← file_seal c (BlockAad.position_only ord) nonce payload;
  Ok (nonce ++ ct).

Definition open_blob (c : FileCipher) (ord : Z) (stored : bytes) : result bytes :=
  if zlen stored <? NONCE_LEN
  then Err (Bail "sealed payload is shorter than its nonce")
  else file_open c (BlockAad.position_only ord)
         (take (Z.to_nat NONCE_LEN) stored) (drop (Z.to_nat NONCE_LEN) stored).

Definition manifest_mac (key msg : bytes) : str := hex_encode (blake3_keyed key msg).

Definition mac_message {T} `{MacSealed T} (doc : T) : result bytes :=
  body ← mac_body doc; Ok (mac_preimage (DOMAIN (T := T)) body).

Definition seal {T} `{MacSealed T} (doc : T) (master_key : bytes) : result T :=
  let key := derive_manifest_mac_key master_key in
  msg ← mac_message doc;
  Ok (set_mac doc (Some (manifest_mac key msg))).

Definition verify {T} `{MacSealed T} (doc : T) (master_key : bytes) : result unit :=
  match stored_mac doc with
  | None => Err (MacMissing (SUBJECT (T := T)))
  | Some stored =>
      let key := derive_manifest_mac_key master_key in
      msg ← mac_message doc;
      if negb (constant_time_eq (manifest_mac key msg) stored)
      then Err (MacMismatch (SUBJECT (T := T))) else Ok tt
  end.

Definition authenticate {T} `{MacSealed T} (doc : T) (master_key : option bytes) : result unit :=
  match master_key with
  | None => Ok tt
  | Some key => verify doc key
  end.
End crypto.

(** * Lemmas *)

Lemma le_bytes_inj n x y :
  0 <= x < 2 ^ (8 * Z.of_nat n) → 0 <= y < 2 ^ (8 * Z.of_nat n) →
  le_bytes n x = le_bytes n y → x = y.
Proof. intros Hx Hy E. by rewrite <- (le_val_bytes n x), <- (le_val_bytes n y), E. Qed.

Lemma app_inj_length {A} (a b c d : list A) :
  length a = length c → a ++ b = c ++ d → a = c ∧ b = d.
Proof. apply app_inj_1. Qed.

Lemma aad_bytes_inj a b :
  BlockAad.wf a → BlockAad.wf b → BlockAad.bytes a = BlockAad.bytes b → a = b.
Proof.
  destruct a as [o f l c], b as [o' f' l' c']. unfold BlockAad.bytes, BlockAad.wf; cbn.
  intros (?&?&?&?) (?&?&?&?) E.
  apply app_inj_length in E as [E1 E]; [|by rewrite !length_le_bytes].
  apply app_inj_length in E as [E2 E]; [|by rewrite !length_le_bytes].
  apply app_inj_length in E as [E3 E4]; [|by rewrite !length_le_bytes].
  apply le_bytes_inj in E1, E2, E3, E4; try done. congruence.
Qed.

Lemma position_only_wf o : is_u64 o → BlockAad.wf (BlockAad.position_only o).
Proof. unfold BlockAad.wf, is_u64, is_u32; cbn. lia. Qed.

(** ** Hex *)

Definition hexchar (c : Z) : Prop := 48 <= c <= 57 ∨ 97 <= c <= 102.

Lemma hexchar_not_ws a : hexchar a →
  ws1 a = false ∧ (∀ b, ws2 a b = false) ∧ (∀ b c, ws3 a b c = false) ∧
  (∀ b, ws2 b a = false) ∧ (∀ b c, ws3 c b a = false).
Proof.
  unfold hexchar, ws1, ws2, ws3, byte_in. intros Ha.
  repeat split; intros; repeat match goal with
  | |- context [(?x =? ?n)] => destruct (Z.eqb_spec x n); try lia
  | |- context [(?x <=? ?n)] => destruct (Z.leb_spec x n); try lia
  end; cbn; done.
Qed.

Lemma trim_start_hex s : Forall hexchar s → trim_start s = s.
Proof.
  intros [|a t Ha _]; [done|].
  destruct (hexchar_not_ws a Ha) as (E1 & E2 & E3 & _ & _). cbn. rewrite E1.
  destruct t as [|b [|c t]]; rewrite ?E2, ?E3; done.
Qed.

Lemma trim_end_rev_hex s : Forall hexchar s → trim_end_rev s = s.
Proof.
  intros [|a t Ha _]; [done|].
  destruct (hexchar_not_ws a Ha) as (E1 & _ & _ & E2 & E3). cbn. rewrite E1.
  destruct t as [|b [|c t]]; rewrite ?E2, ?E3; done.
Qed.

Lemma trim_hex s : Forall hexchar s → trim s = s.
Proof.
  intros Hs. unfold trim. rewrite trim_start_hex by done.
  rewrite trim_end_rev_hex by by apply Forall_reverse. apply reverse_involutive.
Qed.

Lemma nibble b : is_u8 b → 0 <= Z.shiftr b 4 < 16 ∧ 0 <= Z.land b 15 < 16 ∧
  Z.land (Z.lor (Z.shiftl (Z.shiftr b 4) 4) (Z.land b 15)) 255 = b.
Proof.
  intros Hb. unfold is_u8 in Hb. 
  assert (∀ n, (n < 256)%nat → 0 <= Z.shiftr (Z.of_nat n) 4 < 16 ∧ 0 <= Z.land (Z.of_nat n) 15 < 16
    ∧ Z.land (Z.lor (Z.shiftl (Z.shiftr (Z.of_nat n) 4) 4) (Z.land (Z.of_nat n) 15)) 255 = Z.of_nat n)
    as Hall.
  { intros n Hn. do 256 (destruct n as [|n]; [vm_compute; intuition congruence|]). lia. }
  specialize (Hall (Z.to_nat b) ltac:(lia)). by rewrite Z2Nat.id in Hall by lia.
Qed.

Lemma from_digit_ok d : 0 <= d < 16 → hexchar (from_digit d) ∧ to_digit (from_digit d) = Some d.
Proof.
  intros Hd. unfold hexchar, from_digit, to_digit, byte_in.
  assert (d = 0 ∨ d = 1 ∨ d = 2 ∨ d = 3 ∨ d = 4 ∨ d = 5 ∨ d = 6 ∨ d = 7 ∨ d = 8 ∨ d = 9 ∨ d = 10
    ∨ d = 11 ∨ d = 12 ∨ d = 13 ∨ d = 14 ∨ d = 15) as Hc by lia.
  repeat destruct Hc as [->|Hc]; subst; cbn; split; try done; lia.
Qed.

Lemma hex_encode_chars bs : Forall is_u8 bs → Forall hexchar (hex_encode bs).
Proof.
  induction 1 as [|b bs Hb _ IH]; cbn; [done|].
  destruct (nibble b Hb) as (H1 & H2 & _).
  do 2 (constructor; [by apply from_digit_ok|]). done.
Qed.

Lemma length_hex_encode bs : length (hex_encode bs) = (2 * length bs)%nat.
Proof. induction bs as [|b bs IH]; cbn; [done|]. rewrite IH. lia. Qed.

Lemma hex_pairs_encode bs : Forall is_u8 bs → hex_pairs (hex_encode bs) = Ok bs.
Proof.
  induction 1 as [|b bs Hb _ IH]; cbn; [done|].
  destruct (nibble b Hb) as (H1 & H2 & H3). unfold need_digit.
  rewrite (proj2 (from_digit_ok _ H1)), (proj2 (from_digit_ok _ H2)). cbn.
  by rewrite IH, H3.
Qed.

Lemma hex_decode_encode bs : Forall is_u8 bs → hex_decode (hex_encode bs) = Ok bs.
Proof.
  intros Hb. unfold hex_decode. rewrite trim_hex by by apply hex_encode_chars.
  unfold zlen. rewrite length_hex_encode, Nat2Z.inj_mul, Z.mul_comm, Z.mod_mul by done.
  by apply hex_pairs_encode.
Qed.

Lemma hex_encode_inj a b : Forall is_u8 a → Forall is_u8 b → hex_encode a = hex_encode b → a = b.
Proof.
  intros Ha Hb E. pose proof (hex_decode_encode a Ha) as E1. rewrite E, hex_decode_encode in E1; congruence.
Qed.

(** ** The constant-time comparison *)

Lemma lor_fold_zero ps d :
  foldl (λ diff '(x, y), Z.lor diff (Z.lxor x y)) d ps = 0 ↔ d = 0 ∧ Forall (λ p, p.1 = p.2) ps.
Proof.
  revert d. induction ps as [|[x y] ps IH]; intros d; cbn.
  - split; [by intros ->|by intros [-> _]].
  - rewrite IH, Z.lor_eq_0_iff, Z.lxor_eq_0_iff, Forall_cons. cbn. tauto.
Qed.

Lemma zip_all_eq {A} (a b : list A) :
  length a = length b → Forall (λ p, p.1 = p.2) (zip a b) ↔ a = b.
Proof.
  revert b. induction a as [|x a IH]; intros [|y b] E; cbn in *; try done.
  rewrite Forall_cons, IH by lia. cbn. split; [by intros [-> ->]|by intros [= -> ->]].
Qed.

Lemma constant_time_eq_true a b : constant_time_eq a b = true ↔ a = b.
Proof.
  unfold constant_time_eq, zlen. destruct (Z.eqb_spec (Z.of_nat (length a)) (Z.of_nat (length b))) as [E|E]; cbn.
  - rewrite Z.eqb_eq, lor_fold_zero, zip_all_eq by lia. tauto.
  - split; [done|]. by intros ->.
Qed.

(** ** MAC preimages *)

Lemma mac_preimage_inj d d' b b' :
  fits b → fits b' → mac_preimage d b = mac_preimage d' b' → d = d' ∧ b = b'.
Proof.
  intros Hb Hb' E. assert (d = d') as ->.
  { destruct d, d'; try done; exfalso; revert E; vm_compute; discriminate. }
  split; [done|]. unfold mac_preimage in E. apply app_inv_head in E.
  apply app_inv_head in E. apply app_inv_head in E.
  apply app_inj_length in E as [_ E]; [done|by rewrite !length_le_bytes].
Qed.

Section crypto_lemmas.
Context `{CryptoLaws}.

Lemma open_seal_blob c nonce ord m s :
  zlen nonce = NONCE_LEN → seal_blob c nonce ord m = Ok s → open_blob c ord s = Ok m.
Proof.
  intros Hn Hs. apply bind_Ok in Hs as (ct & Hct & [= <-]). unfold file_seal in Hct.
  destruct (aead_encrypt _ _ _ _) as [ct'|] eqn:E; [|done]. injection Hct as ->.
  unfold open_blob. rewrite zlen_app, Hn, (proj2 (Z.ltb_ge _ _)) by (pose proof (zlen_nonneg ct); lia).
  assert (Z.to_nat NONCE_LEN = length nonce) as -> by (unfold zlen in Hn; lia).
  rewrite take_app_length, drop_app_length. unfold file_open. by rewrite (aead_open _ _ _ _ _ E).
Qed.

Lemma zlen_seal_blob c nonce ord m s :
  zlen nonce = NONCE_LEN → seal_blob c nonce ord m = Ok s → zlen s = zlen m + 40.
Proof.
  intros Hn Hs. apply bind_Ok in Hs as (ct & Hct & [= <-]). unfold file_seal in Hct.
  destruct (aead_encrypt _ _ _ _) as [ct'|] eqn:E; [|done]. injection Hct as ->.
  rewrite zlen_app, Hn, (aead_length _ _ _ _ _ E). unfold NONCE_LEN. lia.
Qed.

(** Two messages with one MAC are a BLAKE3 collision. *)
Lemma manifest_mac_collision k x y :
  manifest_mac k x = manifest_mac k y → x ≠ y →
  ∃ x y, x ≠ y ∧ blake3_keyed k x = blake3_keyed k y.
Proof.
  intros E Hne. exists x, y. split; [done|]. apply hex_encode_inj in E; [done|apply blake3_keyed_u8..].
Qed.
End crypto_lemmas.

(** * A concrete instance, for the witnesses *)

Definition toy_tag (a : bytes) : bytes := take 16 (a ++ repeat 0 16).

Definition toy_crypto : Crypto := {|
  crc32c b := foldr Z.add 0 b mod 2 ^ 32;
  blake3_derive _ b := b;
  blake3_keyed k m := map (λ z, z mod 2 ^ 8) (k ++ m);
  aead_encrypt k n a m := Some (m ++ toy_tag a);
  aead_decrypt k n a c :=
    let (m, t) := (take (length c - 16) c, drop (length c - 16) c) in
    if decide (t = toy_tag a) then Some m else None;
|}.

Lemma length_toy_tag a : length (toy_tag a) = 16%nat.
Proof. unfold toy_tag. rewrite length_take, length_app, repeat_length. lia. Qed.

Lemma toy_crypto_laws : @CryptoLaws toy_crypto.
Proof.
  constructor; cbn.
  - intros b. unfold is_u32. apply Z.mod_pos_bound. done.
  - intros k n a m c [= <-]. rewrite length_app, length_toy_tag, Nat.add_sub.
    rewrite take_app_length, drop_app_length. by rewrite decide_True.
  - intros k n a m c [= <-]. rewrite zlen_app. unfold zlen at 2. rewrite length_toy_tag. lia.
  - intros k m. apply Forall_map, Forall_true. intros z. cbn. unfold is_u8.
    apply Z.mod_pos_bound. done.
Qed.

(** A document reduced to its MAC and its body. *)
Record toy_doc := { td_mac : option str; td_body : bytes }.

Definition toy_sealed : MacSealed toy_doc := {|
  DOMAIN := SetManifest;
  SUBJECT := "set manifest";
  stored_mac := td_mac;
  set_mac d m := Build_toy_doc m (td_body d);
  mac_body d := Ok (td_body d);
|}.

Lemma toy_sealed_laws : @MacSealedLaws toy_doc toy_sealed.
Proof. constructor; by intros [] ?. Qed.

(** * Properties *)

(** A byte string survives the hex codec of the manifest fields, and a 32-byte salt is
    accepted by the width-checking decoder while any other width is refused. *)
Theorem hex_roundtrip bs : Forall is_u8 bs →
  hex_decode (hex_encode bs) = Ok bs ∧
  (hex_decode_salt (hex_encode bs) = Ok bs ↔ zlen bs = SALT_LEN).
Proof.
  intros Hb. unfold hex_decode_salt. rewrite hex_decode_encode by done. split; [done|]. cbn.
  destruct (Z.eqb_spec (zlen bs) SALT_LEN); split; intros; try done; congruence.
Qed.

(** The authentication policy.  A sealed document authenticates under the key it was
    sealed with; without a key anything is accepted; under a key a document with no MAC is
    refused as such, and acceptance means the stored MAC is the one the key gives for exactly
    this document's domain and body. *)
Theorem authenticate_policy `{CryptoLaws} {T} `{MacSealedLaws T} (doc : T) (key : bytes) :
  (∀ doc', seal doc key = Ok doc' → authenticate doc' (Some key) = Ok tt) ∧
  authenticate doc None = Ok tt ∧
  (stored_mac doc = None → authenticate doc (Some key) = Err (MacMissing (SUBJECT (T := T)))) ∧
  (authenticate doc (Some key) = Ok tt ↔
    ∃ msg, mac_message doc = Ok msg ∧
      stored_mac doc = Some (manifest_mac (derive_manifest_mac_key key) msg)).
Proof.
  assert (authenticate doc (Some key) = Ok tt ↔ ∃ msg, mac_message doc = Ok msg ∧
    stored_mac doc = Some (manifest_mac (derive_manifest_mac_key key) msg)) as Hiff.
  { cbn. unfold verify. destruct (stored_mac doc) as [st|]; [|split; [done|by intros (? & _ & ?)]].
    destruct (mac_message doc) as [msg|e]; cbn; [|split; [done|by intros (? & ? & _)]].
    destruct (constant_time_eq _ st) eqn:E; cbn.
    - apply constant_time_eq_true in E as <-. split; [eauto|done].
    - split; [done|]. intros (? & [= <-] & [= ->]).
      rewrite (proj2 (constant_time_eq_true _ _) eq_refl) in E. done. }
  split_and!; [|done| |done].
  - unfold seal. intros doc' (msg & Hm & [= <-])%bind_Ok. cbn. unfold verify.
    rewrite stored_set_mac. unfold mac_message in *. rewrite mac_body_set_mac, Hm. cbn.
    by rewrite (proj2 (constant_time_eq_true _ _) eq_refl).
  - cbn. unfold verify. by intros ->.
Qed.

(** A MAC binds document kind and body: a document that authenticates with the MAC
    computed for another body or for another kind of document exhibits two messages on which
    keyed BLAKE3 collides. *)
Theorem mac_binds_document `{CryptoLaws} {T} `{MacSealed T} (doc : T) key d body body' :
  mac_body doc = Ok body → fits body → fits body' →
  stored_mac doc = Some (manifest_mac (derive_manifest_mac_key key) (mac_preimage d body')) →
  authenticate doc (Some key) = Ok tt →
  (d = DOMAIN (T := T) ∧ body' = body) ∨
  ∃ k x y, x ≠ y ∧ blake3_keyed k x = blake3_keyed k y.
Proof.
  intros Hb Hf Hf' Hst Ha. cbn in Ha. unfold verify in Ha. rewrite Hst in Ha.
  unfold mac_message in Ha. rewrite Hb in Ha. cbn in Ha.
  destruct (constant_time_eq _ _) eqn:E; cbn in Ha; [|done]. apply constant_time_eq_true in E.
  destruct (decide (mac_preimage (DOMAIN (T := T)) body = mac_preimage d body')) as [Eq|Hne].
  - left. apply mac_preimage_inj in Eq as [-> ->]; done.
  - right. exists (derive_manifest_mac_key key). by eapply manifest_mac_collision.
Qed.

(** Key derivation never confuses its inputs: two (master key, graph) pairs with one
    delta key, two (master key, salt) pairs with one generation key, and two (generation
    key, file name) pairs with one file key, are equal or a BLAKE3 collision. *)
Theorem derived_keys_separate `{Crypto} mk mk' g g' s s' k k' f f' :
  fits mk → fits mk' → zlen s = SALT_LEN → zlen s' = SALT_LEN → length k = length k' →
  (derive_delta_key mk g = derive_delta_key mk' g' → (mk = mk' ∧ g = g') ∨
    ∃ c x y, x ≠ y ∧ blake3_derive c x = blake3_derive c y) ∧
  (derive_key mk s = derive_key mk' s' → (mk = mk' ∧ s = s') ∨
    ∃ c x y, x ≠ y ∧ blake3_derive c x = blake3_derive c y) ∧
  (derive_file_key k f = derive_file_key k' f' → (k = k' ∧ f = f') ∨
    ∃ c x y, x ≠ y ∧ blake3_derive c x = blake3_derive c y).
Proof.
  intros Hm Hm' Hs Hs' Hk. split_and!.
  - intros E. destruct (decide (le_bytes 8 (zlen mk) ++ mk ++ g = le_bytes 8 (zlen mk') ++ mk' ++ g'))
      as [Eq|]; [|right; eauto 6]. left.
    apply app_inj_length in Eq as [El Eq]; [|by rewrite !length_le_bytes].
    apply le_bytes_inj in El; [|by apply fits_u64..]. apply app_inj_length in Eq; [done|].
    unfold zlen in El. lia.
  - intros E. destruct (decide (mk ++ s = mk' ++ s')) as [Eq|]; [|right; eauto 6]. left.
    apply app_inj_2 in Eq; [done|]. unfold zlen in *. lia.
  - intros E. destruct (decide (k ++ f = k' ++ f')) as [Eq|]; [|right; eauto 6]. left.
    by apply app_inj_length in Eq.
Qed.

(** A sealed blob opens to its payload at its own ordinal, is 40 bytes longer than it,
    and a blob that opens at another ordinal of the same file is an AEAD forgery: one
    ciphertext the primitive accepts under two different associated data. *)
Theorem blob_seal_binds_position `{CryptoLaws} c nonce ord payload stored :
  zlen nonce = NONCE_LEN → seal_blob c nonce ord payload = Ok stored →
  open_blob c ord stored = Ok payload ∧ zlen stored = zlen payload + 40 ∧
  ∀ ord' m, is_u64 ord → is_u64 ord' → ord' ≠ ord → open_blob c ord' stored = Ok m →
    ∃ k n a a' ct, a ≠ a' ∧ aead_encrypt k n a payload = Some ct ∧ aead_decrypt k n a' ct = Some m.
Proof.
  intros Hn Hs. split; [by eapply open_seal_blob|]. split; [by eapply zlen_seal_blob|].
  intros ord' m Ho Ho' Hne Hopen. apply bind_Ok in Hs as (ct & Hct & [= <-]).
  unfold file_seal in Hct. destruct (aead_encrypt _ _ _ _) as [ct'|] eqn:E; [|done].
  injection Hct as ->. unfold open_blob in Hopen. case_match; [done|].
  assert (Z.to_nat NONCE_LEN = length nonce) as Hl by (unfold zlen in Hn; lia).
  rewrite Hl, take_app_length, drop_app_length in Hopen. unfold file_open in Hopen.
  destruct (aead_decrypt _ _ _ _) as [m'|] eqn:Ed; [|done]. injection Hopen as ->.
  do 5 eexists. split; [|eauto]. intros Ea. apply Hne.
  apply aad_bytes_inj in Ea; [|by apply position_only_wf..]. by injection Ea.
Qed.

(** * Witnesses *)

Section witnesses.
#[local] Existing Instance toy_crypto.
#[local] Existing Instance toy_crypto_laws.
#[local] Existing Instance toy_sealed.
#[local] Existing Instance toy_sealed_laws.

End witnesses.
