(* ===== verification/Seal.v ===== *)
(** Sealing of the writable layer's artifacts: [slater-delta/src/seal.rs].

    A WAL frame is sealed at its ordinal; an immutable blob (an L0 segment, an off-heap
    [meta.bin]) is framed as magic, checksum and stored bytes.  Plain and sealed artifacts
    carry different magics, and the configured key decides which of the two is accepted. *)

From S2P Require Import Prelude Crypto.

(** The names artifacts are sealed under; a path is represented by its file name. *)
Definition wal_name (file_name : str) : str := lit "wal/" ++ file_name.

Definition l0_name (file_name : option str) (sub : option str) : result str :=
  match file_name with
  | None => Err (Bail "L0 segment path has no usable file name")
  | Some name =>
      Ok match sub with
         | None => lit "l0/" ++ name
         | Some sub => lit "l0/" ++ name ++ lit "/" ++ sub
         end
  end.

Section seal.
Context `{Crypto}.

Definition bind (cipher : option BlockCipher) (name : str) : option FileCipher :=
  (λ c, for_file c name) <$> cipher.

Definition seal_frame (c : FileCipher) (nonce : bytes) (ord : Z) (payload : bytes) : result bytes :=
  seal_blob c nonce ord payload.

Definition open_frame (c : FileCipher) (ord : Z) (stored : bytes) : result bytes :=
  open_blob c ord stored.

Definition frame_blob (plain sealed : bytes) (cipher : option FileCipher) (nonce body : bytes)
    : result bytes :=
  '(magic, stored) ← match cipher with
                     | None => Ok (plain, body)
                     | Some c => s ← seal_frame c nonce 0 body; Ok (sealed, s)
                     end;
  Ok (magic ++ le_bytes 4 (crc32c stored) ++ stored).

Definition unframe_blob (plain sealed : bytes) (cipher : option FileCipher) (bs : bytes)
    (subject : string) : result bytes :=
  if zlen bs <? 12 then Err (Bail "artifact is too short")
  else
    let magic := take 8 bs in
    let crc := le_val (take 4 (drop 8 bs)) in
    let stored := drop 12 bs in
    is_sealed ← (if decide (magic = plain) then Ok false
                 else if decide (magic = sealed) then Ok true
                 else Err (Bail "artifact has bad magic"));
    match is_sealed, cipher with
    | true, None => Err (KeyRequired subject)
    | false, Some _ => Err (Unsealed subject)
    | _, _ =>
        if negb (crc32c stored =? crc) then Err (Bail "artifact failed checksum")
        else match cipher with
        | None => Ok stored
        | Some c => open_frame c 0 stored
        end
    end.
End seal.

(** * Lemmas *)

(** The three fields of a framed blob, read back from their offsets. *)
Lemma frame_fields (magic stored : bytes) crc :
  length magic = 8%nat → is_u32 crc →
  let bs := magic ++ le_bytes 4 crc ++ stored in
  take 8 bs = magic ∧ le_val (take 4 (drop 8 bs)) = crc ∧ drop 12 bs = stored ∧ ¬ zlen bs < 12.
Proof.
  intros Hm Hc bs. subst bs. assert (length (le_bytes 4 crc) = 4%nat) as Hl by apply length_le_bytes.
  split_and!.
  - by rewrite <- Hm, take_app_length.
  - rewrite <- Hm, drop_app_length. rewrite <- Hl at 1. rewrite take_app_length.
    by apply le_val_bytes.
  - rewrite app_assoc. replace 12%nat with (length (magic ++ le_bytes 4 crc))
      by (rewrite length_app; lia). apply drop_app_length.
  - unfold zlen. rewrite !length_app. lia.
Qed.

(** What framing produced: the magic the key calls for, the checksum, and stored bytes that
    open to the body. *)
Lemma frame_blob_shape `{CryptoLaws} plain sealed cipher nonce body framed :
  zlen nonce = NONCE_LEN → frame_blob plain sealed cipher nonce body = Ok framed →
  ∃ stored, framed = (if cipher is Some _ then sealed else plain) ++ le_bytes 4 (crc32c stored) ++ stored ∧
    match cipher with None => stored = body | Some c => open_frame c 0 stored = Ok body end.
Proof.
  intros Hn Hf. apply bind_Ok in Hf as ([magic stored] & Hms & Hfr). exists stored.
  assert (framed = magic ++ le_bytes 4 (crc32c stored) ++ stored) as -> by congruence. clear Hfr.
  destruct cipher as [c|]; [|by simplify_eq].
  apply bind_Ok in Hms as (s & Hseal & [= <- <-]). split; [done|]. by eapply open_seal_blob.
Qed.

Lemma unframe_framed `{CryptoLaws} plain sealed subject cipher nonce body framed :
  length plain = 8%nat → length sealed = 8%nat → plain ≠ sealed → zlen nonce = NONCE_LEN →
  frame_blob plain sealed cipher nonce body = Ok framed →
  unframe_blob plain sealed cipher framed subject = Ok body.
Proof.
  intros Hp Hs Hne Hn Hf. apply frame_blob_shape in Hf as (stored & -> & Hst); [|done].
  set (magic := if cipher is Some _ then sealed else plain).
  assert (length magic = 8%nat) as Hm by (unfold magic; by destruct cipher).
  destruct (frame_fields magic stored (crc32c stored) Hm (crc32c_u32 _)) as (E1 & E2 & E3 & E4).
  unfold unframe_blob. rewrite E1, E2, E3, (proj2 (Z.ltb_ge _ _)), Z.eqb_refl by lia.
  unfold magic. destruct cipher as [c|]; cbn.
  - rewrite decide_False, decide_True by congruence. done.
  - rewrite decide_True by done. cbn. congruence.
Qed.

(** * Properties *)

Section properties.
Context `{CryptoLaws}.
Variables (plain sealed : bytes) (subject : string).

(** A framed blob reads back under the key it was framed with, and the key policy is
    closed in both directions: a sealed blob without a key is refused as such, and so is a
    plaintext blob under a key, both before the checksum or the tag is looked at. *)
Theorem frame_blob_roundtrip cipher cipher' nonce body framed :
  length plain = 8%nat → length sealed = 8%nat → plain ≠ sealed → zlen nonce = NONCE_LEN →
  frame_blob plain sealed cipher nonce body = Ok framed →
  unframe_blob plain sealed cipher framed subject = Ok body ∧
  (is_Some cipher' → cipher = None →
    unframe_blob plain sealed cipher' framed subject = Err (Unsealed subject)) ∧
  (is_Some cipher → cipher' = None →
    unframe_blob plain sealed cipher' framed subject = Err (KeyRequired subject)).
Proof.
  intros Hp Hs Hne Hn Hf. split; [by eapply unframe_framed|].
  apply frame_blob_shape in Hf as (stored & -> & _); [|done].
  set (magic := if cipher is Some _ then sealed else plain).
  assert (length magic = 8%nat) as Hm by (unfold magic; by destruct cipher).
  destruct (frame_fields magic stored (crc32c stored) Hm (crc32c_u32 _)) as (E1 & _ & _ & E4).
  unfold unframe_blob. rewrite E1, (proj2 (Z.ltb_ge _ _)) by lia. unfold magic.
  split; [intros [c ->] ->|intros [c ->] ->].
  - by rewrite decide_True.
  - by rewrite decide_False, decide_True by congruence.
Qed.

(** What an opened blob guarantees, on arbitrary bytes: acceptance means the magic is the
    one the key calls for, the stored checksum is that of the stored bytes, and under a key
    the AEAD opened the stored bytes at ordinal 0. *)
Theorem unframe_blob_sound cipher bs body :
  plain ≠ sealed → unframe_blob plain sealed cipher bs subject = Ok body →
  12 <= zlen bs ∧ take 8 bs = (if cipher is Some _ then sealed else plain) ∧
  le_val (take 4 (drop 8 bs)) = crc32c (drop 12 bs) ∧
  match cipher with
  | None => body = drop 12 bs
  | Some c => open_blob c 0 (drop 12 bs) = Ok body
  end.
Proof.
  intros Hne. unfold unframe_blob. destruct (Z.ltb_spec (zlen bs) 12) as [|Hl]; [done|].
  destruct (decide (take 8 bs = plain)) as [E1|E1]; cbn.
  - destruct cipher; [done|]. destruct (Z.eqb_spec (crc32c (drop 12 bs)) (le_val (take 4 (drop 8 bs))));
      cbn; [|done]. intros [= <-]. split_and!; done.
  - destruct (decide (take 8 bs = sealed)) as [E2|]; cbn; [|done]. destruct cipher as [c|]; [|done].
    destruct (Z.eqb_spec (crc32c (drop 12 bs)) (le_val (take 4 (drop 8 bs)))); cbn; [|done].
    intros Ho. split_and!; done.
Qed.
End properties.

(** * Witnesses *)

Section witnesses.
#[local] Existing Instance toy_crypto.
#[local] Existing Instance toy_crypto_laws.

End witnesses.
