(* ===== verification/WalCodec.v ===== *)
(** Write-ahead-log records and their codec: the first half of [slater-delta/src/wal.rs]. *)

From S2P Require Import Prelude Values Wire.

Definition KIND_RECORD : Z := 1.
Definition KIND_COMMIT : Z := 2.

Definition OP_UPSERT_NODE : Z := 1.
Definition OP_DELETE_NODE : Z := 2.
Definition OP_UPSERT_EDGE : Z := 3.
Definition OP_DELETE_EDGE : Z := 4.
Definition OP_REMOVE_NODE_PROPS : Z := 5.
Definition OP_REPLACE_NODE : Z := 6.
Definition OP_SET_NODE_LABELS : Z := 7.
Definition OP_UPSERT_EDGE_V2 : Z := 8.
Definition OP_DELETE_EDGE_V2 : Z := 9.

Abbreviation NodeKey := (str * str * Value.t)%type (only parsing).

Inductive WalOp :=
  | UpsertNode (label key : str) (value : Value.t) (patches : list (str * Value.t))
  | DeleteNode (label key : str) (value : Value.t)
  | RemoveNodeProps (label key : str) (value : Value.t) (props : list str)
  | ReplaceNode (label key : str) (value : Value.t) (patches : list (str * Value.t))
  | SetNodeLabels (label key : str) (value : Value.t) (added removed : list str)
  | UpsertEdge (src_label src_key : str) (src_value : Value.t) (reltype : str)
      (dst_label dst_key : str) (dst_value : Value.t)
      (edge_key : option (str * Value.t)) (replace : bool) (patches : list (str * Value.t))
  | DeleteEdge (src_label src_key : str) (src_value : Value.t) (reltype : str)
      (dst_label dst_key : str) (dst_value : Value.t) (edge_key : option (str * Value.t)).

(** The key a node op targets, the endpoints an edge op targets, its identifying property. *)
Definition node_key (op : WalOp) : option NodeKey :=
  match op with
  | UpsertNode l k v _ | DeleteNode l k v | RemoveNodeProps l k v _ | ReplaceNode l k v _
  | SetNodeLabels l k v _ _ => Some (l, k, v)
  | UpsertEdge _ _ _ _ _ _ _ _ _ _ | DeleteEdge _ _ _ _ _ _ _ _ => None
  end.

Definition edge_keys (op : WalOp) : option (NodeKey * str * NodeKey) :=
  match op with
  | UpsertEdge sl sk sv rt dl dk dv _ _ _ | DeleteEdge sl sk sv rt dl dk dv _ =>
      Some ((sl, sk, sv), rt, (dl, dk, dv))
  | _ => None
  end.

Definition edge_identity_key (op : WalOp) : option (str * Value.t) :=
  match op with
  | UpsertEdge _ _ _ _ _ _ _ ek _ _ | DeleteEdge _ _ _ _ _ _ _ ek => ek
  | _ => None
  end.

Record WalRecord := { seq : Z; op : WalOp }.

(** [Seq::next]: a [u64] increment, which panics on overflow in a debug build. *)
Definition seq_next (s : Z) : Z := as_u64 (s + 1).

(** * The codec *)

Definition write_str (s : str) : bytes := write_string s.

Definition read_str : reader str :=
  read_string (Bail "WAL string truncated") (Bail "WAL string not utf-8").

Definition read_u8 : reader Z := split_first (Bail "WAL byte truncated").

Definition write_edge_key (key : option (str * Value.t)) : bytes :=
  match key with
  | None => [0]
  | Some (name, value) => 1 :: write_str name ++ write_value value
  end.

Definition read_edge_key : reader (option (str * Value.t)) := λ r,
  '(b, r) ← read_u8 r;
  if b =? 0 then Ok (None, r)
  else '(name, r) ← read_str r;
       '(value, r) ← read_value r;
       Ok (Some (name, value), r).

(** [write_uvarint(patches.len()); for (prop, val) in patches { ... }] and its reader. *)
Definition write_patches : list (str * Value.t) → bytes :=
  write_seq (write_pair write_str write_value).
Definition read_patches : reader (list (str * Value.t)) :=
  read_seq (read_pair read_str read_value).

Definition encode_payload (rec : WalRecord) : bytes :=
  KIND_RECORD :: write_uvarint (seq rec) ++
  match op rec with
  | UpsertNode label key value patches =>
      OP_UPSERT_NODE :: write_str label ++ write_str key ++ write_value value
        ++ write_patches patches
  | DeleteNode label key value =>
      OP_DELETE_NODE :: write_str label ++ write_str key ++ write_value value
  | RemoveNodeProps label key value props =>
      OP_REMOVE_NODE_PROPS :: write_str label ++ write_str key ++ write_value value
        ++ write_seq write_str props
  | ReplaceNode label key value patches =>
      OP_REPLACE_NODE :: write_str label ++ write_str key ++ write_value value
        ++ write_patches patches
  | SetNodeLabels label key value added removed =>
      OP_SET_NODE_LABELS :: write_str label ++ write_str key ++ write_value value
        ++ write_seq write_str added ++ write_seq write_str removed
  | UpsertEdge sl sk sv rt dl dk dv edge_key replace patches =>
      let v2 := bool_decide (is_Some edge_key) || replace in
      (if v2 then OP_UPSERT_EDGE_V2 else OP_UPSERT_EDGE)
        :: write_str sl ++ write_str sk ++ write_value sv ++ write_str rt
        ++ write_str dl ++ write_str dk ++ write_value dv
        ++ (if v2 then write_edge_key edge_key ++ [Z.b2z replace] else [])
        ++ write_patches patches
  | DeleteEdge sl sk sv rt dl dk dv edge_key =>
      let v2 := bool_decide (is_Some edge_key) in
      (if v2 then OP_DELETE_EDGE_V2 else OP_DELETE_EDGE)
        :: write_str sl ++ write_str sk ++ write_value sv ++ write_str rt
        ++ write_str dl ++ write_str dk ++ write_value dv
        ++ (if v2 then write_edge_key edge_key else [])
  end.

Definition decode_record_body : reader WalRecord := λ r,
  '(seq, r) ← read_uvarint r;
  '(op_tag, r) ← read_u8 r;
  if op_tag =? OP_UPSERT_NODE then
    '(label, r) ← read_str r; '(key, r) ← read_str r; '(value, r) ← read_value r;
    '(patches, r) ← read_patches r;
    Ok (Build_WalRecord seq (UpsertNode label key value patches), r)
  else if op_tag =? OP_DELETE_NODE then
    '(label, r) ← read_str r; '(key, r) ← read_str r; '(value, r) ← read_value r;
    Ok (Build_WalRecord seq (DeleteNode label key value), r)
  else if op_tag =? OP_REMOVE_NODE_PROPS then
    '(label, r) ← read_str r; '(key, r) ← read_str r; '(value, r) ← read_value r;
    '(props, r) ← read_seq read_str r;
    Ok (Build_WalRecord seq (RemoveNodeProps label key value props), r)
  else if op_tag =? OP_REPLACE_NODE then
    '(label, r) ← read_str r; '(key, r) ← read_str r; '(value, r) ← read_value r;
    '(patches, r) ← read_patches r;
    Ok (Build_WalRecord seq (ReplaceNode label key value patches), r)
  else if op_tag =? OP_SET_NODE_LABELS then
    '(label, r) ← read_str r; '(key, r) ← read_str r; '(value, r) ← read_value r;
    '(added, r) ← read_seq read_str r; '(removed, r) ← read_seq read_str r;
    Ok (Build_WalRecord seq (SetNodeLabels label key value added removed), r)
  else if (op_tag =? OP_UPSERT_EDGE) || (op_tag =? OP_UPSERT_EDGE_V2) then
    '(sl, r) ← read_str r; '(sk, r) ← read_str r; '(sv, r) ← read_value r;
    '(rt, r) ← read_str r;
    '(dl, r) ← read_str r; '(dk, r) ← read_str r; '(dv, r) ← read_value r;
    '(edge_key, replace, r) ←
      (if op_tag =? OP_UPSERT_EDGE_V2 then
         '(k, r) ← read_edge_key r; '(b, r) ← read_u8 r; Ok (k, negb (b =? 0), r)
       else Ok (None, false, r));
    '(patches, r) ← read_patches r;
    Ok (Build_WalRecord seq (UpsertEdge sl sk sv rt dl dk dv edge_key replace patches), r)
  else if (op_tag =? OP_DELETE_EDGE) || (op_tag =? OP_DELETE_EDGE_V2) then
    '(sl, r) ← read_str r; '(sk, r) ← read_str r; '(sv, r) ← read_value r;
    '(rt, r) ← read_str r;
    '(dl, r) ← read_str r; '(dk, r) ← read_str r; '(dv, r) ← read_value r;
    '(edge_key, r) ← (if op_tag =? OP_DELETE_EDGE_V2 then read_edge_key r else Ok (None, r));
    Ok (Build_WalRecord seq (DeleteEdge sl sk sv rt dl dk dv edge_key), r)
  else Err (Bail "unknown WAL op tag").

(** * Well-formed records: what the Rust types guarantee, and values within the depth the
    decoder accepts. *)

Definition patch_ok (p : str * Value.t) : Prop := str_ok p.1 ∧ value_ok p.2.
Definition patches_ok (ps : list (str * Value.t)) : Prop := fits ps ∧ Forall patch_ok ps.
Definition strs_ok (ss : list str) : Prop := fits ss ∧ Forall str_ok ss.
Definition key_ok (l k : str) (v : Value.t) : Prop := str_ok l ∧ str_ok k ∧ value_ok v.
Definition edge_key_ok (ek : option (str * Value.t)) : Prop :=
  match ek with None => True | Some p => patch_ok p end.

Definition op_ok (op : WalOp) : Prop :=
  match op with
  | UpsertNode l k v ps | ReplaceNode l k v ps => key_ok l k v ∧ patches_ok ps
  | DeleteNode l k v => key_ok l k v
  | RemoveNodeProps l k v ps => key_ok l k v ∧ strs_ok ps
  | SetNodeLabels l k v a r => key_ok l k v ∧ strs_ok a ∧ strs_ok r
  | UpsertEdge sl sk sv rt dl dk dv ek _ ps =>
      key_ok sl sk sv ∧ str_ok rt ∧ key_ok dl dk dv ∧ edge_key_ok ek ∧ patches_ok ps
  | DeleteEdge sl sk sv rt dl dk dv ek =>
      key_ok sl sk sv ∧ str_ok rt ∧ key_ok dl dk dv ∧ edge_key_ok ek
  end.

Definition record_ok (rec : WalRecord) : Prop := is_u64 (seq rec) ∧ op_ok (op rec).

#[export] Instance str_ok_dec s : Decision (str_ok s).
Proof. unfold str_ok, fits. apply _. Defined.

(** Discharge the well-formedness of a concrete record. *)
Ltac concrete_ok :=
  repeat match goal with
  | |- True => exact I
  | |- _ ∧ _ => split
  | |- str_ok _ => apply (bool_decide_unpack _); vm_compute; exact I
  | |- Forall _ [] => apply Forall_nil_2
  | |- Forall _ (_ :: _) => apply Forall_cons_2
  | |- fits _ => vm_compute; reflexivity
  | |- is_u64 _ => unfold is_u64; lia
  | |- value_ok _ => split; [|vm_compute; lia]
  | |- Value.wf (Value.Str ?s) => change (str_ok s)
  | |- Value.wf _ => cbn [Value.wf]; first [exact I | unfold is_i64, is_u64; lia]
  | |- _ => progress unfold op_ok, key_ok, patches_ok, strs_ok, patch_ok, edge_key_ok
  | |- _ => progress cbn [op_ok edge_key_ok fst snd]
  end.

(** * Round trip *)

#[export] Instance str_codec : Codec str_ok write_str read_str.
Proof. apply string_codec. Qed.
#[export] Instance read_str_consuming : Consuming read_str := codec_consuming.
#[export] Instance read_str_fuel_safe : FuelSafe read_str.
Proof. intros r. unfold read_str, read_string. fuel_safe. Qed.
#[export] Instance read_u8_fuel_safe : FuelSafe read_u8.
Proof. intros r. unfold read_u8. fuel_safe. Qed.

#[global] Arguments write_str : simpl never.
#[global] Arguments write_patches : simpl never.
#[global] Arguments write_edge_key : simpl never.
#[global] Arguments read_str : simpl never.
#[global] Arguments read_patches : simpl never.
#[global] Arguments read_edge_key : simpl never.

Lemma read_write_str s r : str_ok s → read_str (write_str s ++ r) = Ok (s, r).
Proof. apply codec_roundtrip. Qed.

Lemma read_write_value v r : value_ok v → read_value (write_value v ++ r) = Ok (v, r).
Proof. apply codec_roundtrip. Qed.

Lemma read_write_strs ss r : strs_ok ss → read_seq read_str (write_seq write_str ss ++ r) = Ok (ss, r).
Proof. apply (codec_roundtrip (wf := strs_ok)). Qed.

Lemma read_write_patches ps r : patches_ok ps → read_patches (write_patches ps ++ r) = Ok (ps, r).
Proof. apply (codec_roundtrip (wf := patches_ok)). Qed.

Lemma read_u8_cons b r : read_u8 (b :: r) = Ok (b, r).
Proof. done. Qed.

Lemma read_write_edge_key ek r : edge_key_ok ek → read_edge_key (write_edge_key ek ++ r) = Ok (ek, r).
Proof.
  unfold read_edge_key, write_edge_key. destruct ek as [[n v]|]; [|done]. intros [Hn Hv]. cbn in *.
  rewrite <- app_assoc, read_write_str by done. cbn. by rewrite read_write_value.
Qed.

(** Run a decoder over what its encoder wrote, field by field. *)
Ltac read_back :=
  repeat first
    [ rewrite <- app_assoc | rewrite <- app_comm_cons | rewrite app_nil_l | rewrite read_u8_cons
    | rewrite read_write_uvarint by done | rewrite read_write_str by done
    | rewrite read_write_value by done | rewrite read_write_strs by done
    | rewrite read_write_patches by done | rewrite read_write_edge_key by done
    | progress cbn [mbind result_bind] ].

(** The record after the kind byte, as [replay_bytes] hands it to the decoder. *)
Lemma decode_encode_record rec rest : record_ok rec →
  ∃ body, encode_payload rec = KIND_RECORD :: body ∧
    decode_record_body (body ++ rest) = Ok (rec, rest).
Proof.
  destruct rec as [s o]. intros [Hs Ho]. eexists. split; [done|]. cbn [seq op] in *.
  unfold decode_record_body. destruct o; cbn [op_ok] in Ho; unfold key_ok in Ho; destruct_and? Ho;
    read_back; cbn [Z.eqb Pos.eqb OP_UPSERT_NODE OP_DELETE_NODE OP_UPSERT_EDGE OP_DELETE_EDGE
      OP_REMOVE_NODE_PROPS OP_REPLACE_NODE OP_SET_NODE_LABELS OP_UPSERT_EDGE_V2 OP_DELETE_EDGE_V2];
    read_back; try done.
  - destruct (bool_decide (is_Some edge_key) || replace) eqn:Ev; cbn; read_back.
    + by destruct replace.
    + apply orb_false_iff in Ev as [Ek ->]. apply bool_decide_eq_false in Ek.
      destruct edge_key; [exfalso; apply Ek; eauto|]. cbn. read_back. done.
  - destruct (bool_decide (is_Some edge_key)) eqn:Ev; cbn; read_back; [done|].
    apply bool_decide_eq_false in Ev. destruct edge_key; [exfalso; apply Ev; eauto|done].
Qed.

(** * Totality of the decoder *)

#[export] Instance read_edge_key_fuel_safe : FuelSafe read_edge_key.
Proof. intros r. unfold read_edge_key. fuel_safe. Qed.
#[export] Instance read_patches_fuel_safe : FuelSafe read_patches.
Proof. unfold read_patches. apply _. Qed.

Lemma decode_record_body_fuel_safe : FuelSafe decode_record_body.
Proof.
  intros r. unfold decode_record_body.
  repeat match goal with
  | |- _ ≫= _ ≠ Err OutOfFuel => apply bind_fuel_safe; [|intros [??]]
  | |- (let '(_, _) := ?p in _) ≠ _ => destruct p
  | |- (if ?b then _ else _) ≠ _ => destruct b
  end; try discriminate; eauto with fuel.
Qed.

(** * Properties *)

(** Every record the writer can build survives the log: its payload starts with the
    record kind byte, and the body decodes to exactly the record, leaving what follows
    untouched, in the v1 and the v2 edge encodings alike. *)
Theorem wal_record_roundtrip rec rest : record_ok rec →
  ('(kind, r) ← read_u8 (encode_payload rec ++ rest);
   '(got, r) ← decode_record_body r;
   Ok (kind, got, r))
  = Ok (KIND_RECORD, rec, rest).
Proof.
  intros Hr. destruct (decode_encode_record rec rest Hr) as (body & E & Hd). rewrite E. cbn.
  by rewrite Hd.
Qed.

Definition example_edge_record : WalRecord :=
  Build_WalRecord 7 (UpsertEdge (lit "P") (lit "id") (Value.Int 1) (lit "R") (lit "P") (lit "id")
    (Value.Int 2) (Some (lit "uuid", Value.Str (lit "r-1"))) true [(lit "w", Value.Bool true)]).

Lemma example_edge_record_ok : record_ok example_edge_record.
Proof. unfold record_ok, example_edge_record. cbn [seq op]. concrete_ok. Qed.

