(* ===== verification/WalReplay.v ===== *)
(** Replay of write-ahead-log segments: [replay_bytes], [replay_segment] and [replay_dir] of
    [slater-delta/src/wal.rs].

    A segment is a magic and a run of frames; the loop over its byte positions is modelled on
    the suffix of the image that starts at the position.  [framed] describes the images the
    writer produces, for plain and for sealed segments; [replay_frames_spec] says replay
    computes the meaning of the frames an image starts with, whatever torn tail follows. *)

From S2P Require Import Prelude Values Wire Crypto Seal WalCodec.

Definition WAL_MAGIC : bytes := lit "SLWAL001".
Definition WAL_MAGIC_SEALED : bytes := lit "SLWALE01".
Definition WAL_SUBJECT : string := "WAL segment".

Record Replay := { records : list WalRecord; last_seq : Z }.

Definition replay_default : Replay := Build_Replay [] 0.

(** [format!("{segment:010}.wal")]. *)
Fixpoint decimal_fuel (fuel : nat) (n : Z) (acc : str) : str :=
  match fuel with
  | O => acc
  | S fuel =>
      let acc := (48 + n mod 10) :: acc in
      if n / 10 =? 0 then acc else decimal_fuel fuel (n / 10) acc
  end.

(** A [u64] has at most 20 decimal digits. *)
Definition decimal (n : Z) : str := decimal_fuel 20 n [].

Definition segment_file_name (segment : Z) : str :=
  let d := decimal segment in
  repeat 48 (10 - length d) ++ d ++ lit ".wal".

(** [Path::extension] and [Path::file_stem] of a file name: split at the last dot, unless that
    is the first character. *)
Fixpoint split_dot_rev (s acc : str) : option (str * str) :=
  match s with
  | [] => None
  | c :: s => if c =? 46 then Some (reverse s, acc) else split_dot_rev s (c :: acc)
  end.

Definition stem_ext (name : str) : option (str * str) :=
  match split_dot_rev (reverse name) [] with
  | Some ([], _) | None => None
  | Some (stem, ext) => Some (stem, ext)
  end.

(** [str::parse::<u64>]: an optional plus, at least one digit, no overflow. *)
Fixpoint parse_digits (s : str) (acc : Z) : option Z :=
  match s with
  | [] => Some acc
  | c :: s =>
      if byte_in 48 57 c then
        let acc := acc * 10 + (c - 48) in
        if acc <? 2 ^ 64 then parse_digits s acc else None
      else None
  end.

Definition parse_u64 (s : str) : option Z :=
  match s with
  | [] => None
  | [43] => None
  | 43 :: s => parse_digits s 0
  | s => parse_digits s 0
  end.

(** [segments.sort_by_key(|(n, _)| *n)], a stable sort. *)
Fixpoint insert_segment {A} (x : Z * A) (l : list (Z * A)) : list (Z * A) :=
  match l with
  | [] => [x]
  | y :: l => if x.1 <=? y.1 then x :: y :: l else y :: insert_segment x l
  end.

Definition sort_segments {A} (l : list (Z * A)) : list (Z * A) := foldr insert_segment [] l.

(** What follows a frame's opening: a record is held back, a marker commits what is held. *)
Definition step_payload (payload : bytes) (st : list WalRecord * Replay)
    : result (list WalRecord * Replay) :=
  let '(pending, out) := st in
  '(kind, r) ← read_u8 payload;
  if kind =? KIND_RECORD then
    '(rec, _) ← decode_record_body r;
    Ok (pending ++ [rec], out)
  else if kind =? KIND_COMMIT then
    '(committed_seq, _) ← read_uvarint r;
    Ok ([], Build_Replay (records out ++ pending)
              (if last_seq out <? committed_seq then committed_seq else last_seq out))
  else Err (Bail "unknown WAL frame kind").

Section replay.
Context `{Crypto}.

(** The frame at the head of the remaining bytes, or [None] for a torn tail. *)
Definition parse_frame (bs : bytes) : option (bytes * bytes) :=
  if zlen bs <? 8 then None
  else
    let len := le_val (take 4 bs) in
    let crc := le_val (take 4 (drop 4 bs)) in
    if len =? 0 then None
    else if zlen bs <? 8 + len then None
    else
      let stored := take (Z.to_nat len) (drop 8 bs) in
      if negb (crc32c stored =? crc) then None
      else Some (stored, drop (Z.to_nat len) (drop 8 bs)).

Definition open_payload (cipher : option FileCipher) (ord : Z) (stored : bytes) : result bytes :=
  match cipher with
  | None => Ok stored
  | Some c => open_frame c ord stored
  end.

(** What [write_frame] lays down for one stored payload. *)
Definition frame (stored : bytes) : bytes :=
  le_bytes 4 (as_u32 (zlen stored)) ++ le_bytes 4 (crc32c stored) ++ stored.

(** The [while pos < bytes.len()] loop. Every pass consumes a frame of at least nine bytes. *)
Fixpoint replay_frames (fuel : nat) (cipher : option FileCipher) (ord : Z)
    (st : list WalRecord * Replay) (bs : bytes) : result Replay :=
  match parse_frame bs with
  | None => Ok st.2
  | Some (stored, rest) =>
      match fuel with
      | O => Err OutOfFuel
      | S fuel =>
          payload ← open_payload cipher ord stored;
          st ← step_payload payload st;
          replay_frames fuel cipher (ord + 1) st rest
      end
  end.

Definition replay_bytes (bs : bytes) (cipher : option FileCipher) (out : Replay) : result Replay :=
  match bs with
  | [] => Ok out
  | _ =>
    if zlen bs <? zlen WAL_MAGIC then Err (Bail "bad or missing WAL magic")
    else
      let m := take (length WAL_MAGIC) bs in
      sealed ← (if decide (m = WAL_MAGIC) then Ok false
                else if decide (m = WAL_MAGIC_SEALED) then Ok true
                else Err (Bail "bad or missing WAL magic"));
      match sealed, cipher with
      | true, None => Err (KeyRequired WAL_SUBJECT)
      | false, Some _ => Err (Unsealed WAL_SUBJECT)
      | _, _ => replay_frames (length bs) cipher 0 ([], out) (drop (length WAL_MAGIC) bs)
      end
  end.

(** A segment is read by its file name, which its frame cipher is bound to. *)
Definition segment_cipher (name : option str) (cipher : option BlockCipher)
    : result (option FileCipher) :=
  match name with
  | None => Err (Bail "WAL segment path has no usable file name")
  | Some name => Ok (bind cipher (wal_name name))
  end.

Definition replay_segment (name : str) (contents : bytes) (cipher : option BlockCipher)
    : result Replay :=
  c ← segment_cipher (Some name) cipher;
  replay_bytes contents c replay_default.

(** The entries of the directory that are segments. *)
Definition list_segments (entries : list (str * bytes)) : list (Z * (str * bytes)) :=
  omap (λ '(name, contents),
    match stem_ext name with
    | Some (stem, ext) =>
        if decide (ext = lit "wal") then
          match parse_u64 stem with Some n => Some (n, (name, contents)) | None => None end
        else None
    | None => None
    end) entries.

(** The numbering check: there must be [last - first + 1] segments.  The subtraction is of a
    sorted list's ends; the increment wraps for the single run [0..=u64::MAX]. *)
Definition check_dense {A} (segments : list (Z * A)) : result unit :=
  match segments, last segments with
  | (first, _) :: _, Some (lst, _) =>
      let expected := as_u64 (lst - first + 1) in
      if negb (zlen segments =? expected) then Err (Bail "WAL dir is missing segments") else Ok tt
  | _, _ => Ok tt
  end.

Fixpoint replay_segments (segments : list (Z * (str * bytes))) (cipher : option BlockCipher)
    (out : Replay) : result Replay :=
  match segments with
  | [] => Ok out
  | (_, (name, contents)) :: segments =>
      c ← segment_cipher (Some name) cipher;
      out ← replay_bytes contents c out;
      replay_segments segments cipher out
  end.

(** [None] is a directory that does not exist. *)
Definition replay_dir (dir : option (list (str * bytes))) (cipher : option BlockCipher)
    : result Replay :=
  match dir with
  | None => Ok replay_default
  | Some entries =>
      let segments := sort_segments (list_segments entries) in
      _ ← check_dense segments;
      replay_segments segments cipher replay_default
  end.
End replay.

(** * Framed images *)

Definition frame_fits (stored : bytes) : Prop := 0 < zlen stored < 2 ^ 32.

(** The image of a run of payloads: each is stored in a frame that opens to it at its
    ordinal. *)
Inductive framed `{Crypto} (cipher : option FileCipher) : Z → list bytes → bytes → Prop :=
  | framed_nil ord : framed cipher ord [] []
  | framed_cons ord p ps stored bs :
      open_payload cipher ord stored = Ok p → frame_fits stored →
      framed cipher (ord + 1) ps bs → framed cipher ord (p :: ps) (frame stored ++ bs).

(** The meaning of a run of payloads. *)
Fixpoint run_payloads (ps : list bytes) (st : list WalRecord * Replay)
    : result (list WalRecord * Replay) :=
  match ps with
  | [] => Ok st
  | p :: ps => st ← step_payload p st; run_payloads ps st
  end.

(** One batch as the writer lays it down: its records, then the commit marker. *)
Abbreviation batch := (list WalRecord * Z)%type (only parsing).

Definition commit_payload (s : Z) : bytes := KIND_COMMIT :: write_uvarint s.

Definition batch_payloads (b : batch) : list bytes := map encode_payload b.1 ++ [commit_payload b.2].

Definition batch_ok (b : batch) : Prop := Forall record_ok b.1 ∧ is_u64 b.2.

Definition apply_batch (out : Replay) (b : batch) : Replay :=
  Build_Replay (records out ++ b.1) (Z.max (last_seq out) b.2).

Definition apply_batches (out : Replay) (bs : list batch) : Replay := foldl apply_batch out bs.

Definition payloads (bs : list batch) : list bytes := concat (map batch_payloads bs).

(** ** Parsing one frame *)

Lemma length_frame `{Crypto} stored : length (frame stored) = (8 + length stored)%nat.
Proof. unfold frame. rewrite !length_app, !length_le_bytes. lia. Qed.

Section parse.
Context `{CryptoLaws}.

Lemma frame_header stored rest : frame_fits stored →
  let bs := frame stored ++ rest in
  le_val (take 4 bs) = zlen stored ∧ le_val (take 4 (drop 4 bs)) = crc32c stored ∧
  drop 8 bs = stored ++ rest.
Proof.
  intros Hf bs. subst bs. unfold frame. unfold frame_fits in Hf.
  set (l := le_bytes 4 (as_u32 (zlen stored))). set (k := le_bytes 4 (crc32c stored)).
  assert (length l = 4%nat ∧ length k = 4%nat) as [Hl Hk] by (split; apply length_le_bytes).
  rewrite <- !app_assoc. split_and!.
  - rewrite <- Hl at 1. rewrite take_app_length. unfold l. rewrite le_val_bytes; unfold as_u32.
    + by rewrite Z.mod_small by lia.
    + apply Z.mod_pos_bound. lia.
  - rewrite <- Hl at 2. rewrite drop_app_length. rewrite <- Hk at 1. rewrite take_app_length.
    apply le_val_bytes, crc32c_u32.
  - rewrite app_assoc. replace 8%nat with (length (l ++ k)) by (rewrite length_app; lia).
    apply drop_app_length.
Qed.

Lemma parse_frame_frame stored rest :
  frame_fits stored → parse_frame (frame stored ++ rest) = Some (stored, rest).
Proof.
  intros Hf. destruct (frame_header stored rest Hf) as (E1 & E2 & E3).
  unfold parse_frame. rewrite E1, E2, E3. unfold frame_fits in Hf.
  assert (zlen (frame stored ++ rest) = 8 + zlen stored + zlen rest) as El.
  { unfold zlen. rewrite length_app, length_frame. lia. }
  pose proof (zlen_nonneg rest).
  rewrite El, (proj2 (Z.ltb_ge _ _)), (proj2 (Z.eqb_neq _ _)), (proj2 (Z.ltb_ge _ _)) by lia.
  assert (Z.to_nat (zlen stored) = length stored) as -> by (unfold zlen; lia).
  by rewrite take_app_length, drop_app_length, Z.eqb_refl.
Qed.

(** A frame cut short is never taken for a frame. *)
Lemma parse_frame_cut stored t u :
  frame_fits stored → frame stored = t ++ u → u ≠ [] → parse_frame t = None.
Proof.
  intros Hf E Hu. unfold parse_frame. destruct (Z.ltb_spec (zlen t) 8) as [|Ht]; [done|].
  destruct (frame_header stored [] Hf) as (E1 & _ & _). rewrite app_nil_r, E in E1.
  assert (take 4 (t ++ u) = take 4 t) as Et by (apply take_app_le; unfold zlen in Ht; lia).
  rewrite Et in E1. rewrite E1. unfold frame_fits in Hf. rewrite (proj2 (Z.eqb_neq _ _)) by lia.
  apply (f_equal length) in E. rewrite length_frame, length_app in E.
  assert (0 < length u)%nat by (destruct u; [done|cbn; lia]).
  rewrite (proj2 (Z.ltb_lt _ _)); [done|]. unfold zlen. lia.
Qed.
End parse.

Lemma parse_frame_length `{Crypto} bs stored rest :
  parse_frame bs = Some (stored, rest) → (length rest + 8 <= length bs)%nat.
Proof.
  unfold parse_frame. destruct (Z.ltb_spec (zlen bs) 8); [done|].
  destruct (le_val (take 4 bs) =? 0); [done|]. destruct (_ <? _); [done|].
  destruct (negb _); [done|]. intros [= <- <-]. rewrite !length_drop. unfold zlen in *. lia.
Qed.

Lemma le_val_take_range n bs : Forall is_u8 bs → 0 <= le_val (take n bs).
Proof. intros Hb. apply le_val_range. by apply Forall_take. Qed.

(** ** The loop *)

Section loop.
Context `{CryptoLaws}.

Lemma replay_frames_fuel_safe fuel cipher ord st bs :
  (length bs <= fuel)%nat → replay_frames fuel cipher ord st bs ≠ Err OutOfFuel.
Proof.
  revert ord st bs. induction fuel as [|fuel IH]; intros ord st bs Hl; cbn.
  - destruct (parse_frame bs) as [[s r]|] eqn:E; [|done]. apply parse_frame_length in E. lia.
  - destruct (parse_frame bs) as [[s r]|] eqn:E; [|done]. apply parse_frame_length in E.
    apply bind_fuel_safe.
    { destruct cipher as [c|]; cbn; [|done]. unfold open_frame, open_blob, file_open. by repeat case_match. }
    intros p. apply bind_fuel_safe; [|intros st'; apply IH; lia].
    destruct st as [pending out]. unfold step_payload. fuel_safe.
    apply decode_record_body_fuel_safe.
Qed.

Lemma replay_frames_spec cipher ord ps bs tail fuel st :
  framed cipher ord ps bs → parse_frame tail = None → (length ps <= fuel)%nat →
  replay_frames fuel cipher ord st (bs ++ tail) = snd <$> run_payloads ps st.
Proof.
  intros Hf Ht. revert fuel st. induction Hf as [ord|ord p ps stored bs Ho Hfit Hf IH]; intros fuel st Hl.
  - cbn. by destruct fuel; cbn; rewrite Ht.
  - cbn in Hl. destruct fuel as [|fuel]; [lia|]. cbn. rewrite <- app_assoc, parse_frame_frame by done.
    rewrite Ho. cbn. destruct (step_payload p st) as [st'|e]; cbn; [|done].
    apply IH. lia.
Qed.

Lemma framed_length cipher ord ps bs : framed cipher ord ps bs → (length ps <= length bs)%nat.
Proof. induction 1; cbn; [done|]. rewrite length_app, length_frame. lia. Qed.

Lemma framed_app cipher ord ps qs bs cs :
  framed cipher ord ps bs → framed cipher (ord + zlen ps) qs cs → framed cipher ord (ps ++ qs) (bs ++ cs).
Proof.
  induction 1 as [ord|ord p ps stored bs Ho Hfit Hf IH]; intros Hc.
  - unfold zlen in Hc. cbn in *. by rewrite Z.add_0_r in Hc.
  - cbn. rewrite <- app_assoc. constructor; [done..|]. apply IH.
    replace (ord + 1 + zlen ps) with (ord + zlen (p :: ps)) by (unfold zlen; cbn [length]; lia). done.
Qed.

(** Every prefix of an image is the image of a prefix of its payloads and a torn tail. *)
Lemma framed_prefix cipher ord ps bs t u :
  framed cipher ord ps bs → bs = t ++ u →
  ∃ k b tail, t = b ++ tail ∧ framed cipher ord (take k ps) b ∧ parse_frame tail = None ∧
    (k <= length ps)%nat ∧ (u = [] → k = length ps).
Proof.
  intros Hf. revert t u. induction Hf as [ord|ord p ps stored bs Ho Hfit Hf IH]; intros t u E.
  - symmetry in E. apply app_nil in E as [-> ->]. exists O, [], []. by repeat constructor.
  - apply app_eq_inv in E as [(k & E1 & E2)|(k & E1 & E2)].
    + destruct k as [|x k].
      * rewrite app_nil_r in E1. subst t. cbn in E2. subst u.
        destruct (IH [] bs eq_refl) as (k & b & tail & Eb & Hb & Ht & Hk & Hu).
        exists (S k), (frame stored ++ b), tail. cbn. rewrite <- app_assoc, <- Eb, app_nil_r.
        split_and!; [done|by constructor|done|lia|]. intros Hn. by rewrite Hu.
      * exists O, [], t. split_and!; [done|constructor| |cbn; lia|by destruct u].
        by eapply parse_frame_cut.
    + subst t. destruct (IH k u E2) as (n & b & tail & Eb & Hb & Ht & Hk & Hu).
      exists (S n), (frame stored ++ b), tail. cbn. rewrite <- app_assoc, <- Eb.
      split_and!; [done|by constructor|done|lia|]. intros Hn. by rewrite Hu.
Qed.
End loop.

(** ** Batches *)

Lemma run_payloads_app ps qs st : run_payloads (ps ++ qs) st = run_payloads ps st ≫= run_payloads qs.
Proof.
  revert st. induction ps as [|p ps IH]; intros st; cbn; [done|].
  destruct (step_payload p st); cbn; [apply IH|done].
Qed.

Lemma step_record rec pending out :
  record_ok rec → step_payload (encode_payload rec) (pending, out) = Ok (pending ++ [rec], out).
Proof.
  intros Hr. destruct (decode_encode_record rec [] Hr) as (body & E & Hd).
  unfold step_payload. rewrite E, app_nil_r in *. cbn. by rewrite Hd.
Qed.

Lemma step_commit s pending out : is_u64 s →
  step_payload (commit_payload s) (pending, out) = Ok ([], apply_batch out (pending, s)).
Proof.
  intros Hs. unfold step_payload, commit_payload, apply_batch. cbn [read_u8 split_first mbind result_bind].
  change (KIND_COMMIT =? KIND_RECORD) with false. change (KIND_COMMIT =? KIND_COMMIT) with true. cbn [snd fst].
  rewrite <- (app_nil_r (write_uvarint s)), read_write_uvarint by done. cbn.
  f_equal. f_equal. f_equal. destruct (Z.ltb_spec (last_seq out) s); lia.
Qed.

Lemma run_records recs pending out : Forall record_ok recs →
  run_payloads (map encode_payload recs) (pending, out) = Ok (pending ++ recs, out).
Proof.
  intros Hr. revert pending. induction Hr as [|rec recs Hrec Hr IH]; intros pending; cbn [map run_payloads].
  - by rewrite app_nil_r.
  - rewrite step_record by done. cbn [mbind result_bind]. rewrite IH, <- app_assoc. done.
Qed.

Lemma run_batch b out : batch_ok b →
  run_payloads (batch_payloads b) ([], out) = Ok ([], apply_batch out b).
Proof.
  intros [Hr Hs]. unfold batch_payloads. rewrite run_payloads_app, run_records by done.
  cbn [mbind result_bind app run_payloads]. rewrite step_commit by done. by destruct b.
Qed.

(** Part of a batch without its marker commits nothing. *)
Lemma run_batch_cut b k out : batch_ok b → (k < length (batch_payloads b))%nat →
  run_payloads (take k (batch_payloads b)) ([], out) = Ok (take k b.1, out).
Proof.
  intros [Hr Hs] Hk. unfold batch_payloads in *. rewrite length_app, length_map in Hk. cbn in Hk.
  rewrite take_app_le by (rewrite length_map; lia). rewrite <- fmap_take.
  by rewrite run_records by by apply Forall_take.
Qed.

Lemma run_batches bs out : Forall batch_ok bs →
  run_payloads (payloads bs) ([], out) = Ok ([], apply_batches out bs).
Proof.
  intros Hb. revert out. induction Hb as [|b bs Hb Hbs IH]; intros out; [done|].
  unfold payloads. cbn [map concat]. rewrite run_payloads_app, run_batch by done. apply IH.
Qed.

(** Any number of a log's payloads commits a whole number of its batches. *)
Lemma run_batches_cut bs k out : Forall batch_ok bs → (k <= length (payloads bs))%nat →
  ∃ j pending, run_payloads (take k (payloads bs)) ([], out)
      = Ok (pending, apply_batches out (take j bs)) ∧ (j <= length bs)%nat ∧
    (k = length (payloads bs) → j = length bs).
Proof.
  intros Hb. revert k out. induction Hb as [|b bs Hb Hbs IH]; intros k out Hk.
  - exists O, []. by destruct k.
  - unfold payloads in *. cbn [map concat] in *. rewrite length_app in *.
    destruct (decide (k < length (batch_payloads b))%nat) as [Hlt|Hge].
    + exists O, (take k b.1). rewrite take_app_le by lia. rewrite run_batch_cut by done.
      split_and!; [done|lia|lia].
    + rewrite take_app_ge by lia. rewrite run_payloads_app, run_batch by done.
      destruct (IH (k - length (batch_payloads b))%nat (apply_batch out b)) as (j & pd & E & Hj & Hall); [lia|].
      exists (S j), pd. cbn [mbind result_bind take]. rewrite E. split_and!; [done|cbn; lia|].
      intros Ek. cbn. rewrite Hall by lia. done.
Qed.

Definition segment_magic (cipher : option FileCipher) : bytes :=
  match cipher with None => WAL_MAGIC | Some _ => WAL_MAGIC_SEALED end.

Section segments.
Context `{CryptoLaws}.

Lemma replay_bytes_head m body cipher out : length m = 8%nat →
  replay_bytes (m ++ body) cipher out =
  (sealed ← (if decide (m = WAL_MAGIC) then Ok false
             else if decide (m = WAL_MAGIC_SEALED) then Ok true
             else Err (Bail "bad or missing WAL magic"));
   match sealed, cipher with
   | true, None => Err (KeyRequired WAL_SUBJECT)
   | false, Some _ => Err (Unsealed WAL_SUBJECT)
   | _, _ => replay_frames (8 + length body) cipher 0 ([], out) body
   end).
Proof.
  intros Hl. unfold replay_bytes. destruct (m ++ body) as [|x bs] eqn:E.
  { apply (f_equal length) in E. rewrite length_app in E. cbn in E. lia. }
  rewrite <- E. clear x bs E.
  rewrite (proj2 (Z.ltb_ge _ _)).
  2: { unfold zlen. rewrite length_app, Hl. change (length WAL_MAGIC) with 8%nat. lia. }
  change (length WAL_MAGIC) with 8%nat. rewrite length_app, Hl.
  assert (take 8 (m ++ body) = m ∧ drop 8 (m ++ body) = body) as [-> ->]; [|done].
  rewrite <- Hl. by rewrite take_app_length, drop_app_length.
Qed.

Lemma replay_bytes_magic cipher body out :
  replay_bytes (segment_magic cipher ++ body) cipher out
  = replay_frames (8 + length body) cipher 0 ([], out) body.
Proof.
  rewrite replay_bytes_head by (by destruct cipher).
  destruct cipher as [c|]; cbn [segment_magic]; [rewrite decide_False by done|]; by rewrite decide_True.
Qed.

Lemma replay_log_prefix cipher acked rest A U t out :
  Forall batch_ok acked → Forall batch_ok rest →
  framed cipher 0 (payloads acked) A → framed cipher (zlen (payloads acked)) (payloads rest) U →
  t `prefix_of` U →
  ∃ j, (j <= length rest)%nat ∧ (t = U → j = length rest) ∧
    replay_bytes (segment_magic cipher ++ A ++ t) cipher out
      = Ok (apply_batches out (acked ++ take j rest)).
Proof.
  intros Hacked Hrest HA HU [u Hu].
  destruct (framed_prefix _ _ _ _ t u HU Hu) as (k & b & tail & -> & Hb & Htail & Hk & Hall).
  destruct (run_batches_cut rest k (apply_batches out acked)) as (j & pd & E & Hj & Hjall); [done..|].
  exists j. split; [done|]. split.
  { intros Et. apply Hjall, Hall. apply (f_equal length) in Hu. rewrite <- Et, !length_app in Hu.
    destruct u; [done|cbn in Hu; lia]. }
  rewrite replay_bytes_magic, app_assoc.
  pose proof (framed_app _ _ _ _ _ _ HA Hb) as Hf. 
  rewrite (replay_frames_spec _ _ _ _ _ _ _ Hf Htail).
  - rewrite run_payloads_app, run_batches by done. cbn [mbind result_bind]. rewrite E. cbn.
    unfold apply_batches. by rewrite foldl_app.
  - apply framed_length in Hf. rewrite !length_app in *. lia.
Qed.
End segments.

(** ** Soundness on arbitrary bytes *)

Lemma le_bytes_val bs : Forall is_u8 bs → le_bytes (length bs) (le_val bs) = bs.
Proof.
  induction 1 as [|b bs Hb Hbs IH]; [done|]. unfold is_u8 in Hb.
  cbn [length]. change (le_val (b :: bs)) with (b + Z.shiftl (le_val bs) 8).
  change (le_bytes (S (length bs)) ?z) with (Z.land z 255 :: le_bytes (length bs) (Z.shiftr z 8)).
  change 255 with (Z.ones 8). rewrite Z.land_ones, Z.shiftl_mul_pow2, Z.shiftr_div_pow2 by lia.
  rewrite Z.mod_add, Z.mod_small, Z.div_add, Z.div_small, Z.add_0_l, IH by lia. done.
Qed.

Section sound.
Context `{CryptoLaws}.

Lemma parse_frame_inv bs stored rest : Forall is_u8 bs →
  parse_frame bs = Some (stored, rest) → bs = frame stored ++ rest ∧ frame_fits stored.
Proof.
  intros Hb. unfold parse_frame. destruct (Z.ltb_spec (zlen bs) 8) as [|H8]; [done|].
  destruct (Z.eqb_spec (le_val (take 4 bs)) 0) as [|Hnz]; [done|].
  destruct (Z.ltb_spec (zlen bs) (8 + le_val (take 4 bs))) as [|Hlen]; [done|].
  destruct (Z.eqb_spec (crc32c (take (Z.to_nat (le_val (take 4 bs))) (drop 8 bs)))
    (le_val (take 4 (drop 4 bs)))) as [Hcrc|]; cbn; [|done].
  intros [= Hs Hr]. pose proof (Forall_take _ 4 _ Hb) as Hb4.
  pose proof (le_val_range (take 4 bs) Hb4) as Hv.
  assert (length (take 4 bs) = 4%nat) as Hl by (rewrite length_take; unfold zlen in *; lia).
  assert (zlen (take 4 bs) = 4) as Hl4 by (unfold zlen; lia). rewrite Hl4 in Hv.
  assert (zlen stored = le_val (take 4 bs)) as Hz.
  { subst stored. unfold zlen in *. rewrite length_take, length_drop. lia. }
  split; [|unfold frame_fits; lia]. unfold frame.
  rewrite Hz. unfold as_u32. rewrite Z.mod_small by lia. rewrite <- Hl at 1. rewrite le_bytes_val by done.
  rewrite <- Hs, Hcrc at 1.
  assert (length (take 4 (drop 4 bs)) = 4%nat) as Hl' by
    (rewrite length_take, length_drop; unfold zlen in *; lia).
  rewrite <- Hl' at 2. rewrite le_bytes_val by by apply Forall_take, Forall_drop.
  rewrite <- !app_assoc, <- Hs, <- Hr. rewrite (take_drop (Z.to_nat _) (drop 8 bs)).
  replace (drop 8 bs) with (drop 4 (drop 4 bs)) by (by rewrite drop_drop). by rewrite !take_drop.
Qed.

Lemma replay_frames_sound fuel cipher ord st bs out : Forall is_u8 bs →
  replay_frames fuel cipher ord st bs = Ok out →
  ∃ ps body tail st', bs = body ++ tail ∧ framed cipher ord ps body ∧ parse_frame tail = None ∧
    run_payloads ps st = Ok st' ∧ st'.2 = out.
Proof.
  revert ord st bs. induction fuel as [|fuel IH]; intros ord st bs Hb; cbn.
  - destruct (parse_frame bs) as [[stored rest]|] eqn:E; [done|]. intros [= <-].
    exists [], [], bs, st. split_and!; [done|constructor|done..].
  - destruct (parse_frame bs) as [[stored rest]|] eqn:E.
    + apply parse_frame_inv in E as [-> Hf]; [|done]. apply Forall_app in Hb as [_ Hb].
      intros (p & Ho & (st1 & Hst & Hr)%bind_Ok)%bind_Ok.
      apply IH in Hr as (ps & body & tail & st' & -> & Hfr & Ht & Hrun & Hout); [|done].
      exists (p :: ps), (frame stored ++ body), tail, st'. rewrite <- app_assoc.
      split_and!; [done|by constructor|done| |done]. cbn. by rewrite Hst.
    + intros [= <-]. exists [], [], bs, st. split_and!; [done|constructor|done..].
Qed.
End sound.

(** ** Directories: names, order and gaps *)

Definition digit (c : Z) : Prop := 48 <= c <= 57.
Definition dval (s : str) (acc : Z) : Z := foldl (λ a c, a * 10 + (c - 48)) acc s.

Lemma dval_ge s acc : Forall digit s → 0 <= acc → acc <= dval s acc.
Proof.
  intros Hs. revert acc. induction Hs as [|c s Hc _ IH]; intros acc Ha; cbn; [lia|].
  unfold digit in Hc. specialize (IH (acc * 10 + (c - 48))). unfold dval in *. lia.
Qed.

Lemma parse_digits_dval s acc : Forall digit s → 0 <= acc → dval s acc < 2 ^ 64 →
  parse_digits s acc = Some (dval s acc).
Proof.
  intros Hs. revert acc. induction Hs as [|c s Hc Hs IH]; intros acc Ha Hv; [done|].
  unfold digit in Hc. cbn [parse_digits]. unfold byte_in.
  rewrite (proj2 (Z.leb_le 48 c)), (proj2 (Z.leb_le c 57)) by lia. cbn [andb].
  change (dval (c :: s) acc) with (dval s (acc * 10 + (c - 48))) in *.
  pose proof (dval_ge s (acc * 10 + (c - 48)) Hs ltac:(lia)).
  rewrite (proj2 (Z.ltb_lt _ _)) by lia. apply IH; lia.
Qed.

Lemma decimal_fuel_app fuel n acc : decimal_fuel fuel n acc = decimal_fuel fuel n [] ++ acc.
Proof.
  revert n acc. induction fuel as [|f IH]; intros n acc; cbn; [done|].
  destruct (n / 10 =? 0); [done|]. rewrite (IH _ (_ :: acc)), (IH _ [_]), <- app_assoc. done.
Qed.

Lemma decimal_fuel_spec fuel n : 0 <= n < 10 ^ Z.of_nat fuel → (0 < fuel)%nat →
  Forall digit (decimal_fuel fuel n []) ∧ dval (decimal_fuel fuel n []) 0 = n ∧
  decimal_fuel fuel n [] ≠ [].
Proof.
  revert n. induction fuel as [|f IH]; intros n Hn Hf; [lia|]. cbn [decimal_fuel].
  pose proof (Z.mod_pos_bound n 10 ltac:(lia)). pose proof (Z.div_mod n 10 ltac:(lia)).
  destruct (Z.eqb_spec (n / 10) 0) as [E|E].
  - split_and!; [|cbn; lia|done]. constructor; [unfold digit; lia|done].
  - rewrite decimal_fuel_app. rewrite Nat2Z.inj_succ, Z.pow_succ_r in Hn by lia.
    assert (0 <= n / 10) by (apply Z.div_pos; lia).
    assert (n / 10 < 10 ^ Z.of_nat f) by (apply Z.div_lt_upper_bound; lia).
    assert (0 < f)%nat by (destruct f; [cbn in *; lia|lia]).
    destruct (IH (n / 10)) as (Hd1 & Hd2 & Hd3); [lia..|]. split_and!.
    + apply Forall_app. split; [done|]. constructor; [unfold digit; lia|done].
    + unfold dval in *. rewrite foldl_app, Hd2. cbn. lia.
    + by destruct (decimal_fuel f (n / 10) []).
Qed.

Lemma dval_zeros k s : dval (repeat 48 k ++ s) 0 = dval s 0.
Proof. induction k; cbn; done. Qed.

Lemma split_dot_rev_app s t acc : Forall (λ c, c ≠ 46) s →
  split_dot_rev (s ++ 46 :: t) acc = Some (reverse t, reverse s ++ acc).
Proof.
  intros Hs. revert acc. induction Hs as [|c s Hc _ IH]; intros acc; cbn [app split_dot_rev]; [done|].
  rewrite (proj2 (Z.eqb_neq _ _)) by done. rewrite IH, reverse_cons, <- app_assoc. done.
Qed.

(** A number is recovered from a file name that is made of it and an extension. *)
Lemma numbered_name_stem n ext : is_u64 n → Forall (λ c, c ≠ 46) ext →
  let stem := repeat 48 (10 - length (decimal n)) ++ decimal n in
  stem_ext (stem ++ 46 :: ext) = Some (stem, ext) ∧ parse_u64 stem = Some n.
Proof.
  intros Hn Hext. unfold is_u64 in Hn.
  destruct (decimal_fuel_spec 20 n) as (Hd & Hv & Hne); [cbn; lia..|]. change (decimal_fuel 20 n []) with (decimal n) in *.
  set (stem := repeat 48 (10 - length (decimal n)) ++ decimal n). cbv zeta.
  assert (Forall digit stem) as Hs.
  { apply Forall_app. split; [|done]. apply Forall_forall. intros x Hx%list_elem_of_In%repeat_spec.
    subst x. unfold digit. lia. }
  assert (stem ≠ []) as Hse by (unfold stem; destruct (repeat 48 _); [done|done]).
  split.
  - unfold stem_ext. rewrite reverse_app, reverse_cons, <- app_assoc. cbn [app].
    rewrite split_dot_rev_app by by apply Forall_reverse.
    rewrite !reverse_involutive, app_nil_r. by destruct stem.
  - assert (parse_digits stem 0 = Some n) as E.
    { unfold stem. rewrite parse_digits_dval; rewrite ?dval_zeros; [by rewrite Hv|done|lia|lia]. }
    destruct stem as [|c s] eqn:Es; [done|]. apply Forall_cons in Hs as [Hc _]. unfold digit in Hc.
    unfold parse_u64. repeat (case_match; try lia; try done).
Qed.

Lemma numbered_name_parses n ext : is_u64 n → Forall (λ c, c ≠ 46) ext → ∃ stem,
  stem_ext (repeat 48 (10 - length (decimal n)) ++ decimal n ++ 46 :: ext) = Some (stem, ext) ∧
  parse_u64 stem = Some n.
Proof. intros Hn He. rewrite app_assoc. eexists. by apply numbered_name_stem. Qed.

(** Replay recovers a segment's number from the name the writer gives it. *)
Lemma segment_name_parses n : is_u64 n → ∃ stem,
  stem_ext (segment_file_name n) = Some (stem, lit "wal") ∧ parse_u64 stem = Some n.
Proof. intros Hn. apply (numbered_name_parses n (lit "wal") Hn). by repeat constructor. Qed.

Lemma insert_segment_perm {A} (x : Z * A) l : insert_segment x l ≡ₚ x :: l.
Proof. induction l as [|y l IH]; cbn; [done|]. case_match; [done|]. rewrite IH. apply perm_swap. Qed.

Lemma sort_segments_perm {A} (l : list (Z * A)) : sort_segments l ≡ₚ l.
Proof. induction l as [|x l IH]; cbn; [done|]. by rewrite insert_segment_perm, IH. Qed.

Abbreviation seg_le := (λ x y, x.1 <= y.1) (only parsing).

Lemma insert_segment_sorted {A} (x : Z * A) l :
  StronglySorted seg_le l → StronglySorted seg_le (insert_segment x l).
Proof.
  induction 1 as [|y l Hl IH Hy]; cbn; [by repeat constructor|].
  destruct (Z.leb_spec x.1 y.1).
  - constructor; [by constructor|]. constructor; [done|]. eapply Forall_impl; [exact Hy|]. cbn. lia.
  - constructor; [done|]. rewrite insert_segment_perm. constructor; [lia|done].
Qed.

Lemma sort_segments_sorted {A} (l : list (Z * A)) : StronglySorted seg_le (sort_segments l).
Proof. induction l; cbn; [constructor|by apply insert_segment_sorted]. Qed.

(** With distinct numbers there is one sorted order. *)
Lemma sorted_perm_unique {A} (l k : list (Z * A)) :
  StronglySorted seg_le l → StronglySorted seg_le k → NoDup (map fst l) → l ≡ₚ k → l = k.
Proof.
  intros Hl. revert k. induction Hl as [|x l Hl IH Hx]; intros k Hk Hnd Hp.
  { by apply Permutation_nil_l in Hp. }
  destruct Hk as [|y k Hk Hy]; [by apply Permutation_nil_r in Hp|].
  cbn in Hnd. apply NoDup_cons in Hnd as [Hni Hnd].
  assert (x = y) as ->.
  { assert (x ∈ y :: k) as Hxin by (rewrite <- Hp; apply list_elem_of_here).
    assert (y ∈ x :: l) as Hyin by (rewrite Hp; apply list_elem_of_here).
    apply elem_of_cons in Hxin. destruct Hxin as [?|Hxk]; [done|].
    apply elem_of_cons in Hyin. destruct Hyin as [?|Hyl]; [done|].
    rewrite Forall_forall in Hx, Hy. specialize (Hx y Hyl). specialize (Hy x Hxk). cbn in *.
    exfalso. apply Hni. apply list_elem_of_fmap. exists y. split; [lia|done]. }
  f_equal. apply IH; [done..|]. by apply Permutation_cons_inv in Hp.
Qed.

(** A strictly increasing run holds at most as many numbers as it spans, and exactly as many
    when it has no gap. *)
Lemma span_bound {A} (x : Z * A) l lst : StronglySorted seg_le (x :: l) → NoDup (map fst (x :: l)) →
  last (x :: l) = Some lst →
  zlen (x :: l) <= lst.1 - x.1 + 1 ∧
  (zlen (x :: l) = lst.1 - x.1 + 1 ↔ ∀ n, x.1 <= n <= lst.1 → n ∈ map fst (x :: l)).
Proof.
  revert x. induction l as [|y l IH]; intros x Hs Hnd Hlast.
  - injection Hlast as <-. unfold zlen. cbn. split; [lia|]. split; [|lia]. intros _ n Hn.
    assert (n = x.1) as -> by lia. apply list_elem_of_here.
  - rewrite last_cons_cons in Hlast. apply StronglySorted_inv in Hs as [Hs Hx].
    cbn [map] in Hnd. apply NoDup_cons in Hnd as [Hni Hnd].
    destruct (IH y Hs Hnd Hlast) as [Hb Hiff].
    assert (x.1 < y.1) as Hlt.
    { apply Forall_cons in Hx as [Hxy _]. assert (x.1 ≠ y.1); [|lia].
      intros E. apply Hni. rewrite E. apply list_elem_of_here. }
    assert (zlen (x :: y :: l) = 1 + zlen (y :: l)) as Hz by (unfold zlen; cbn [length]; lia).
    assert (y.1 <= lst.1) as Hyl by (unfold zlen in Hb; cbn [length] in Hb; lia).
    split; [lia|]. split.
    + intros E n Hn. cbn [map]. destruct (decide (n = x.1)) as [->|Hnx]; [apply list_elem_of_here|].
      apply list_elem_of_further. apply Hiff; lia.
    + intros Hall. assert (y.1 = x.1 + 1) as Hy.
      { specialize (Hall (x.1 + 1) ltac:(lia)). cbn [map] in Hall. apply elem_of_cons in Hall.
        destruct Hall as [?|Hin]; [lia|]. apply elem_of_cons in Hin. destruct Hin as [?|Hin]; [done|].
        apply list_elem_of_fmap in Hin as (z & Ez & Hz'). apply StronglySorted_inv in Hs as [_ Hyl'].
        rewrite Forall_forall in Hyl'. specialize (Hyl' z Hz'). cbn in Hyl'. lia. }
      rewrite Hz, (proj2 Hiff); [lia|]. intros n Hn. specialize (Hall n ltac:(lia)).
      cbn [map] in Hall. apply elem_of_cons in Hall. destruct Hall as [?|?]; [lia|done].
Qed.

Lemma sorted_min {A} (x : Z * A) l y : StronglySorted seg_le (x :: l) → y ∈ x :: l → x.1 <= y.1.
Proof.
  intros [_ Hx]%StronglySorted_inv Hy. rewrite Forall_forall in Hx. apply elem_of_cons in Hy.
  destruct Hy as [->|Hy]; [done|by apply Hx].
Qed.

Lemma sorted_max {A} (x : Z * A) l lst y :
  StronglySorted seg_le (x :: l) → last (x :: l) = Some lst → y ∈ x :: l → y.1 <= lst.1.
Proof.
  revert x. induction l as [|z l IH]; intros x Hs Hl Hy.
  - injection Hl as <-. by apply list_elem_of_singleton in Hy as ->.
  - rewrite last_cons_cons in Hl. pose proof (last_Some_elem_of _ _ Hl) as Hin.
    apply elem_of_cons in Hy. destruct Hy as [->|Hy].
    + eapply sorted_min; [done|]. by right.
    + apply StronglySorted_inv in Hs as [Hs _]. by eapply IH.
Qed.

Lemma check_dense_spec {A} (l : list (Z * A)) :
  StronglySorted seg_le l → NoDup (map fst l) → Forall (λ x, is_u64 x.1) l → zlen l < 2 ^ 64 →
  check_dense l = Ok tt ↔
  ∀ a b n, a ∈ map fst l → b ∈ map fst l → a <= n <= b → n ∈ map fst l.
Proof.
  intros Hs Hnd Hu Hlen. destruct l as [|x l].
  { split; [|done]. intros _ a b n Ha. by apply elem_of_nil in Ha. }
  destruct (last (x :: l)) as [lst|] eqn:El; [|by apply last_None in El].
  destruct (span_bound x l lst Hs Hnd El) as [Hb Hiff].
  pose proof (last_Some_elem_of _ _ El) as Hin.
  rewrite Forall_forall in Hu. pose proof (Hu _ Hin) as Hul.
  pose proof (Hu x (list_elem_of_here _ _)) as Hux. unfold is_u64 in Hul, Hux.
  assert (check_dense (x :: l) = Ok tt ↔ zlen (x :: l) = lst.1 - x.1 + 1) as ->.
  { destruct x as [x1 xa], lst as [l1 la]. cbn [fst] in *. cbv beta iota delta [check_dense]. rewrite El.
    unfold as_u64. pose proof (zlen_nonneg l). assert (zlen ((x1, xa) :: l) = 1 + zlen l) as Hz
      by (unfold zlen; cbn [length]; lia).
    destruct (decide (l1 - x1 + 1 = 2 ^ 64)) as [Hw|Hw].
    - rewrite Hw, Z_mod_same_full, (proj2 (Z.eqb_neq _ _)) by lia. cbn. split; [done|lia].
    - rewrite Z.mod_small by lia. destruct (Z.eqb_spec (zlen ((x1, xa) :: l)) (l1 - x1 + 1)); cbn; done. }
  rewrite Hiff. split.
  - intros Hall a b n Ha Hb' Hn. apply Hall.
    apply list_elem_of_fmap in Ha as (za & -> & Ha). apply list_elem_of_fmap in Hb' as (zb & -> & Hb').
    pose proof (sorted_min _ _ _ Hs Ha). pose proof (sorted_max _ _ _ _ Hs El Hb'). lia.
  - intros Hall n Hn. apply (Hall x.1 lst.1); [apply list_elem_of_here|by apply list_elem_of_fmap_2|done].
Qed.

Lemma parse_digits_range s acc n : 0 <= acc < 2 ^ 64 → parse_digits s acc = Some n → is_u64 n.
Proof.
  revert acc. induction s as [|c s IH]; intros acc Ha; cbn [parse_digits]; [by intros [= <-]|].
  unfold byte_in. destruct (Z.leb_spec 48 c), (Z.leb_spec c 57); cbn [andb]; try done.
  destruct (Z.ltb_spec (acc * 10 + (c - 48)) (2 ^ 64)); [|done]. apply IH. lia.
Qed.

Lemma parse_u64_range s n : parse_u64 s = Some n → is_u64 n.
Proof. unfold parse_u64. intros E. repeat case_match; try done; eapply parse_digits_range; try done; lia. Qed.

Lemma list_segments_u64 entries : Forall (λ x, is_u64 x.1) (list_segments entries).
Proof.
  apply Forall_forall. intros [n [nm c]] Hin. unfold list_segments in Hin.
  apply list_elem_of_omap in Hin as ([nm' c'] & _ & E). repeat case_match; simplify_eq.
  by eapply parse_u64_range.
Qed.

Lemma omap_length_le {A B} (f : A → option B) l : (length (omap f l) <= length l)%nat.
Proof.
  induction l as [|x l IH]; [done|]. 
  change (omap f (x :: l)) with (match f x with Some y => y :: omap f l | None => omap f l end).
  cbn [length].
  destruct (f x); cbn [length]; lia.
Qed.

Lemma list_segments_length entries : (length (list_segments entries) <= length entries)%nat.
Proof. apply omap_length_le. Qed.

(** Plain payloads are their own stored form. *)
Lemma framed_plain `{Crypto} ord ps :
  Forall frame_fits ps → framed None ord ps (concat (map frame ps)).
Proof. intros Hp. revert ord. induction Hp; intros ord; cbn; by constructor. Qed.

(** * Properties *)

Section properties.
Context `{CryptoLaws}.

(** C8: Recovery after a crash.  When a segment holds the frames of the acknowledged batches
    followed by any prefix of the frames of later ones, replay returns every acknowledged
    batch and then a whole number of the later batches, never part of one; an untorn image
    gives them all.  Plain and sealed segments alike. *)
Theorem replay_recovers_committed cipher acked later A U t out :
  Forall batch_ok acked → Forall batch_ok later →
  framed cipher 0 (payloads acked) A → framed cipher (zlen (payloads acked)) (payloads later) U →
  t `prefix_of` U →
  ∃ j, (j <= length later)%nat ∧ (t = U → j = length later) ∧
    replay_bytes (segment_magic cipher ++ A ++ t) cipher out
      = Ok (apply_batches out (acked ++ take j later)).
Proof. apply replay_log_prefix. Qed.

(** C39: What acceptance means on arbitrary bytes.  Replay always terminates with an answer,
    and when it succeeds on a non-empty image the image is the magic the key calls for, a run
    of frames each of which opened at its own ordinal, and a torn tail; the outcome is the
    meaning of exactly those frames. *)
Theorem replay_bytes_sound cipher bs out : Forall is_u8 bs →
  replay_bytes bs cipher out ≠ Err OutOfFuel ∧
  ∀ out', replay_bytes bs cipher out = Ok out' →
    (bs = [] ∧ out' = out) ∨
    ∃ ps body tail pending, bs = segment_magic cipher ++ body ++ tail ∧ framed cipher 0 ps body ∧
      parse_frame tail = None ∧ run_payloads ps ([], out) = Ok (pending, out').
Proof.
  intros Hb. unfold replay_bytes. destruct bs as [|x bs0]; [split; [done|intros ? [= ->]; by left]|].
  remember (x :: bs0) as bs eqn:Ebs. destruct (zlen bs <? zlen WAL_MAGIC); [done|].
  assert (∀ out', replay_frames (length bs) cipher 0 ([], out) (drop (length WAL_MAGIC) bs) = Ok out' →
    take (length WAL_MAGIC) bs = segment_magic cipher →
    ∃ ps body tail pending, bs = segment_magic cipher ++ body ++ tail ∧ framed cipher 0 ps body ∧
      parse_frame tail = None ∧ run_payloads ps ([], out) = Ok (pending, out')) as Hgo.
  { intros out' Hr Hm. apply replay_frames_sound in Hr as (ps & body & tail & [pd o] & E & Hf & Ht & Hrun & Ho);
      [|by apply Forall_drop]. cbn in Ho. subst o. exists ps, body, tail, pd. rewrite <- E, <- Hm, take_drop.
    done. }
  assert (replay_frames (length bs) cipher 0 ([], out) (drop (length WAL_MAGIC) bs) ≠ Err OutOfFuel) as Hfu.
  { apply replay_frames_fuel_safe. rewrite length_drop. lia. }
  destruct (decide (take (length WAL_MAGIC) bs = WAL_MAGIC)) as [E1|E1];
    [|destruct (decide (take (length WAL_MAGIC) bs = WAL_MAGIC_SEALED)) as [E2|E2]; [|done]];
    destruct cipher as [c|]; cbn [mbind result_bind]; (split; [done|]); try done; eauto.
Qed.

(** The key policy of a segment is closed both ways: a sealed segment with no key, and a
    plaintext segment under a key, are refused with their typed errors whatever follows the
    magic, and an image with neither magic is refused too. *)
Theorem replay_key_policy c body out bs :
  replay_bytes (WAL_MAGIC_SEALED ++ body) None out = Err (KeyRequired WAL_SUBJECT) ∧
  replay_bytes (WAL_MAGIC ++ body) (Some c) out = Err (Unsealed WAL_SUBJECT) ∧
  (bs ≠ [] → take 8 bs ≠ WAL_MAGIC → take 8 bs ≠ WAL_MAGIC_SEALED →
    ∀ cipher, replay_bytes bs cipher out = Err (Bail "bad or missing WAL magic")).
Proof.
  split_and!.
  { rewrite replay_bytes_head, decide_False, decide_True by done. done. }
  { rewrite replay_bytes_head, decide_True by done. done. }
  intros Hne Hm1 Hm2 cipher. destruct bs as [|x bs0]; [done|].
  remember (x :: bs0) as bs. unfold replay_bytes. subst bs. destruct (_ <? _); [done|].
  change (length WAL_MAGIC) with 8%nat. by rewrite !decide_False.
Qed.

(** Replaying a directory.  With distinct segment numbers, a gap in the numbering is
    refused, a gapless directory replays segment after segment in ascending order, and the
    order in which the directory is listed does not matter. *)
Theorem replay_dir_dense cipher entries : fits entries → NoDup (map fst (list_segments entries)) →
  let numbers := map fst (list_segments entries) in
  ((∃ a b n, a ∈ numbers ∧ b ∈ numbers ∧ a <= n <= b ∧ n ∉ numbers) →
    is_ok (replay_dir (Some entries) cipher) = false) ∧
  ((∀ a b n, a ∈ numbers → b ∈ numbers → a <= n <= b → n ∈ numbers) →
    replay_dir (Some entries) cipher
      = replay_segments (sort_segments (list_segments entries)) cipher replay_default) ∧
  (∀ entries', entries ≡ₚ entries' → replay_dir (Some entries') cipher = replay_dir (Some entries) cipher).
Proof.
  intros Hfit Hnd numbers. set (l := sort_segments (list_segments entries)).
  assert (l ≡ₚ list_segments entries) as Hp by apply sort_segments_perm.
  assert (map fst l ≡ₚ numbers) as Hpn by (by apply fmap_Permutation).
  assert (check_dense l = Ok tt ↔ ∀ a b n, a ∈ numbers → b ∈ numbers → a <= n <= b → n ∈ numbers) as Hd.
  { setoid_rewrite <- Hpn. apply check_dense_spec.
    - apply sort_segments_sorted.
    - by rewrite Hpn.
    - rewrite Hp. apply list_segments_u64.
    - pose proof (list_segments_length entries). apply Permutation_length in Hp.
      unfold fits, zlen in *. lia. }
  split_and!.
  - intros (a & b & n & Ha & Hb & Hn & Hni). cbn. fold l. destruct (check_dense l) as [[]|] eqn:E; [|done].
    exfalso. by apply Hni, (proj1 Hd eq_refl a b).
  - intros Hall. cbn. fold l. by rewrite (proj2 Hd Hall).
  - intros entries' He. cbn.
    assert (list_segments entries ≡ₚ list_segments entries') as Hl by (by apply omap_Permutation).
    rewrite (sorted_perm_unique (sort_segments (list_segments entries')) l); [done|..].
    + apply sort_segments_sorted.
    + apply sort_segments_sorted.
    + rewrite sort_segments_perm, <- Hl. done.
    + rewrite sort_segments_perm, <- Hl. by rewrite Hp.
Qed.
End properties.

(** * Witnesses *)

Section witnesses.
#[local] Existing Instance toy_crypto.
#[local] Existing Instance toy_crypto_laws.

Definition example_acked : list batch := [([example_edge_record], 7)].
Definition example_later : list batch := [([], 9)].
Definition plain_image (bs : list batch) : bytes := concat (map frame (payloads bs)).

Lemma example_acked_ok : Forall batch_ok example_acked.
Proof. constructor; [|done]. split; [|done]. constructor; [apply example_edge_record_ok|done]. Qed.

Lemma example_fit : Forall frame_fits (payloads example_acked) ∧ Forall frame_fits (payloads example_later).
Proof. by repeat constructor. Qed.

Lemma replay_recovers_committed_witness :
  ∃ j, (j <= length example_later)%nat ∧ ([2; 0] = plain_image example_later → j = length example_later) ∧
    replay_bytes (segment_magic None ++ plain_image example_acked ++ [2; 0]) None replay_default
      = Ok (apply_batches replay_default (example_acked ++ take j example_later)).
Proof.
  apply (replay_recovers_committed None example_acked example_later
    (plain_image example_acked) (plain_image example_later) [2; 0] replay_default).
  - apply example_acked_ok.
  - by repeat constructor.
  - apply framed_plain, example_fit.
  - apply framed_plain, example_fit.
  - eexists. by vm_compute.
Defined.

Lemma replay_bytes_sound_witness :
  replay_bytes (WAL_MAGIC ++ [1; 2; 3]) None replay_default = Ok replay_default ∧
  replay_bytes (WAL_MAGIC ++ [1; 2; 3]) None replay_default ≠ Err OutOfFuel.
Proof.
  split; [by vm_compute|]. apply (replay_bytes_sound None (WAL_MAGIC ++ [1; 2; 3]) replay_default).
  by repeat constructor.
Defined.

End witnesses.
