(* ===== verification/WalSink.v ===== *)
(** The write-ahead-log writer: [WalSink] and its [Rollback] guard in
    [slater-delta/src/wal.rs], over the standard library's [BufWriter<File>].

    Every system call draws its outcome from an arbitrary list of faults, so the theorems hold
    under any pattern of I/O errors and partial writes.  The world also keeps a trail of the
    file contents the operating system has seen, each with the content of the last successful
    fsync, from which the images a crash may leave are derived. *)

From S2P Require Import Prelude Values Wire Crypto Seal WalCodec WalReplay.

(** * The operating system *)

(** The outcome of one system call: it works, or it fails (a write after some bytes). *)
Inductive outcome := Works | FailsAfter (k : nat).

Record world := {
  data : bytes;                     (* the file, as the OS sees it *)
  pos : nat;                        (* its position *)
  synced : bytes;                   (* its content at the last successful fsync *)
  trail : list (bytes * bytes);     (* every (synced, data) the file went through, newest first *)
  faults : list outcome;            (* outcomes of the system calls to come *)
  rng : nat;                        (* random nonces drawn *)
  warned : nat;                     (* rollback failures logged *)
  buf : bytes;                      (* the BufWriter's buffer *)
  committed_len : Z;
  cur_len : Z;
  committed_frames : Z;
  cur_frames : Z;
}.

(** State changes. *)
Definition set_file (d : bytes) (p : nat) (w : world) : world :=
  Build_world d p (synced w) ((synced w, d) :: trail w) (faults w) (rng w) (warned w) (buf w)
    (committed_len w) (cur_len w) (committed_frames w) (cur_frames w).
Definition set_pos (p : nat) (w : world) : world :=
  Build_world (data w) p (synced w) (trail w) (faults w) (rng w) (warned w) (buf w)
    (committed_len w) (cur_len w) (committed_frames w) (cur_frames w).
Definition set_synced (w : world) : world :=
  Build_world (data w) (pos w) (data w) ((data w, data w) :: trail w) (faults w) (rng w) (warned w)
    (buf w) (committed_len w) (cur_len w) (committed_frames w) (cur_frames w).
Definition set_faults (f : list outcome) (w : world) : world :=
  Build_world (data w) (pos w) (synced w) (trail w) f (rng w) (warned w) (buf w)
    (committed_len w) (cur_len w) (committed_frames w) (cur_frames w).
Definition draw (w : world) : world :=
  Build_world (data w) (pos w) (synced w) (trail w) (faults w) (S (rng w)) (warned w) (buf w)
    (committed_len w) (cur_len w) (committed_frames w) (cur_frames w).
Definition warn (w : world) : world :=
  Build_world (data w) (pos w) (synced w) (trail w) (faults w) (rng w) (S (warned w)) (buf w)
    (committed_len w) (cur_len w) (committed_frames w) (cur_frames w).
Definition set_buf (b : bytes) (w : world) : world :=
  Build_world (data w) (pos w) (synced w) (trail w) (faults w) (rng w) (warned w) b
    (committed_len w) (cur_len w) (committed_frames w) (cur_frames w).
Definition set_cur (len frames : Z) (w : world) : world :=
  Build_world (data w) (pos w) (synced w) (trail w) (faults w) (rng w) (warned w) (buf w)
    (committed_len w) len (committed_frames w) frames.
Definition set_committed (w : world) : world :=
  Build_world (data w) (pos w) (synced w) (trail w) (faults w) (rng w) (warned w) (buf w)
    (cur_len w) (cur_len w) (cur_frames w) (cur_frames w).

(** * Effects: a result and the world it leaves, also on failure *)

Definition io (A : Type) : Type := world → result A * world.

#[export] Instance io_ret : MRet io := λ A a w, (Ok a, w).
#[export] Instance io_bind : MBind io := λ A B f m w,
  match m w with
  | (Ok a, w) => f a w
  | (Err e, w) => (Err e, w)
  end.

Definition modify (f : world → world) : io unit := λ w, (Ok tt, f w).
Definition lift {A} (r : result A) : io A := λ w, (r, w).

(** Run [m]; on failure run the handler for its effect and keep the error (a drop guard). *)
Definition on_error {A} (m : io A) (h : io unit) : io A := λ w,
  match m w with
  | (Ok a, w) => (Ok a, w)
  | (Err e, w) => (Err e, (h w).2)
  end.

Fixpoint io_for {A} (f : A → io unit) (xs : list A) : io unit :=
  match xs with
  | [] => mret tt
  | x :: xs => f x ≫= λ _, io_for f xs
  end.

Definition next_outcome : io outcome := λ w,
  match faults w with
  | [] => (Ok Works, w)
  | o :: f => (Ok o, set_faults f w)
  end.

(** ** System calls *)

(** Bytes written at a position; a gap past the end reads as zeros. *)
Definition overwrite (d : bytes) (p : nat) (x : bytes) : bytes :=
  take p d ++ repeat 0 (p - length d) ++ x ++ drop (p + length x) d.

Definition put (x : bytes) : io unit := λ w,
  (Ok tt, set_file (overwrite (data w) (pos w) x) (pos w + length x) w).

(** The loop of [write] calls that puts [x] in the file: the number of bytes that reached it
    and whether it was all of them.  Nothing is called for no bytes, and a failure leaves at
    least one byte unwritten. *)
Definition file_write (x : bytes) : io (nat * bool) :=
  match x with
  | [] => mret (O, true)
  | _ =>
      next_outcome ≫= λ o,
      match o with
      | Works => put x ≫= λ _, mret (length x, true)
      | FailsAfter k =>
          let n := Nat.min k (length x - 1) in
          put (take n x) ≫= λ _, mret (n, false)
      end
  end.

Definition fallible (f : world → world) : io unit :=
  next_outcome ≫= λ o,
  match o with
  | Works => modify f
  | FailsAfter _ => lift (Err IoError)
  end.

Definition set_len (off : Z) : io unit :=
  fallible (λ w, set_file (take (Z.to_nat off) (data w)
                            ++ repeat 0 (Z.to_nat off - length (data w))) (pos w) w).
Definition seek (off : Z) : io unit := fallible (set_pos (Z.to_nat off)).
Definition sync_data : io unit := fallible set_synced.
(** Syncing the directory changes nothing in the file. *)
Definition fsync_dir : io unit := fallible id.

(** * The buffered writer *)

(** [DEFAULT_BUF_SIZE] of the standard library. *)
Definition BUF_CAPACITY : Z := 8192.

Definition check_io (ok : bool) : io unit := if ok then mret tt else lift (Err IoError).

(** [BufWriter::flush_buf]: what was written leaves the buffer, also on failure. *)
Definition flush_buf : io unit := λ w,
  (file_write (buf w) ≫= λ '(n, ok),
   modify (λ w, set_buf (drop n (buf w)) w) ≫= λ _, check_io ok) w.

Definition flush : io unit := flush_buf.

(** [BufWriter::write_all]: into the buffer when it fits with room to spare, else after a
    flush; input as large as the buffer goes straight to the file. *)
Definition write_all (x : bytes) : io unit := λ w,
  let spare := BUF_CAPACITY - zlen (buf w) in
  if zlen x <? spare then modify (λ w, set_buf (buf w ++ x) w) w
  else
    ((if spare <? zlen x then flush_buf else mret tt) ≫= λ _,
     if BUF_CAPACITY <=? zlen x
     then file_write x ≫= λ '(_, ok), check_io ok
     else modify (λ w, set_buf (buf w ++ x) w)) w.

(** * The sink *)

Definition frame_len (payload_len : Z) : Z := 8 + payload_len.

(** The fields a sink is created with and never changes. *)
Record WalSink := { segment : Z; sink_cipher : option FileCipher }.

Section sink.
Context `{Crypto}.
(** The random nonces, in the order they are drawn. *)
Variable random_nonce : nat → bytes.

Definition write_frame (payload : bytes) : io unit :=
  write_all (le_bytes 4 (as_u32 (zlen payload))) ≫= λ _,
  write_all (le_bytes 4 (crc32c payload)) ≫= λ _,
  write_all payload.

Definition write_payload (s : WalSink) (payload : bytes) : io unit := λ w,
  ((match sink_cipher s with
    | None => mret payload
    | Some c =>
        modify draw ≫= λ _, lift (seal_frame c (random_nonce (rng w)) (cur_frames w) payload)
    end) ≫= λ stored,
   write_frame stored ≫= λ _,
   modify (λ w, set_cur (cur_len w + frame_len (zlen stored)) (cur_frames w + 1) w)) w.

Definition write_record_frame (s : WalSink) (rec : WalRecord) : io unit :=
  write_payload s (encode_payload rec).

Definition write_commit_frame (s : WalSink) (committed_seq : Z) : io unit :=
  write_payload s (KIND_COMMIT :: write_uvarint committed_seq) ≫= λ _,
  flush ≫= λ _,
  sync_data ≫= λ _,
  modify set_committed.

Definition truncate_to (off frames : Z) : io unit :=
  flush ≫= λ _,
  set_len off ≫= λ _,
  seek off ≫= λ _,
  sync_data ≫= λ _,
  modify (set_cur off frames).

(** [Rollback::drop] while armed: a failed truncate is only logged. *)
Definition rollback_drop (off frames : Z) : io unit := λ w,
  match truncate_to off frames w with
  | (Ok _, w) => (Ok tt, w)
  | (Err _, w) => (Ok tt, warn w)
  end.

(** The floor is re-established when an earlier rollback is known to have failed. *)
Definition self_heal : io unit := λ w,
  if cur_len w =? committed_len w then (Ok tt, w)
  else truncate_to (committed_len w) (committed_frames w) w.

(** The frames of a batch, written under the armed guard. *)
Definition write_batch (s : WalSink) (recs : list WalRecord) (committed_seq : Z) : io unit :=
  io_for (write_record_frame s) recs ≫= λ _, write_commit_frame s committed_seq.

Definition guarded (m : io unit) : io unit := λ w,
  on_error m (rollback_drop (committed_len w) (committed_frames w)) w.

Definition append_batch (s : WalSink) (recs : list WalRecord) (committed_seq : Z) : io unit :=
  self_heal ≫= λ _, guarded (write_batch s recs committed_seq).

(** The separate calls: a failure rolls back, and a failed rollback is the error returned. *)
Definition or_truncate (m : io unit) : io unit := λ w,
  match m w with
  | (Ok _, w) => (Ok tt, w)
  | (Err e, w) =>
      (truncate_to (committed_len w) (committed_frames w) ≫= λ _, lift (Err e)) w
  end.

Definition append (s : WalSink) (rec : WalRecord) : io unit := or_truncate (write_record_frame s rec).
Definition commit (s : WalSink) (committed_seq : Z) : io unit :=
  or_truncate (write_commit_frame s committed_seq).

(** [WalSink::create]: a fresh or truncated file, the magic flushed, the directory entry made
    durable. [dir_existed] and [has_parent] are what the file system answers. *)
Definition create (dir_existed has_parent : bool) (segment : Z) (cipher : option BlockCipher)
    : io WalSink :=
  let cipher := bind cipher (wal_name (segment_file_name segment)) in
  fallible id ≫= λ _,
  fallible (set_file [] 0) ≫= λ _,
  modify (set_buf []) ≫= λ _,
  write_all (match cipher with Some _ => WAL_MAGIC_SEALED | None => WAL_MAGIC end) ≫= λ _,
  flush ≫= λ _,
  fsync_dir ≫= λ _,
  (if negb dir_existed && has_parent then fsync_dir else mret tt) ≫= λ _,
  modify (λ w, set_committed (set_cur (zlen WAL_MAGIC) 0 w)) ≫= λ _,
  mret (Build_WalSink segment cipher).

(** [WalSink::seal]: flush, fsync the file and the directory; the segment number is handed
    back. *)
Definition seal (s : WalSink) : io Z :=
  flush ≫= λ _,
  sync_data ≫= λ _,
  fsync_dir ≫= λ _,
  mret (segment s).

(** A run of batches: those acknowledged, in order, and the world they leave. *)
Fixpoint run_appends (s : WalSink) (bs : list batch) (w : world) : list batch * world :=
  match bs with
  | [] => ([], w)
  | b :: bs =>
      let '(r, w) := append_batch s b.1 b.2 w in
      let '(acked, w) := run_appends s bs w in
      ((if is_ok r then b :: acked else acked), w)
  end.
End sink.

(** * Reasoning about runs *)

Definition at_end (w : world) : Prop := pos w = length (data w).

(** Everything accepted so far, in the file or still buffered. *)
Definition content (w : world) : bytes := data w ++ buf w.

(** The file only grew: each content it went through lies between the old and the new one,
    and nothing was synced. *)
Record grows (w w' : world) : Prop := {
  grows_data : data w `prefix_of` data w';
  grows_end : at_end w';
  grows_synced : synced w' = synced w;
  grows_warned : warned w' = warned w;
  grows_committed : committed_len w' = committed_len w ∧ committed_frames w' = committed_frames w;
  grows_trail : ∃ nt, trail w' = nt ++ trail w ∧
    Forall (λ e, e.1 = synced w ∧ data w `prefix_of` e.2 ∧ e.2 `prefix_of` data w') nt;
}.

Definition same_cur (w w' : world) : Prop := cur_len w' = cur_len w ∧ cur_frames w' = cur_frames w.

Lemma grows_refl w : at_end w → grows w w.
Proof. intros He. split; try done. exists []. split; [done|constructor]. Qed.

Lemma grows_trans w1 w2 w3 : grows w1 w2 → grows w2 w3 → grows w1 w3.
Proof.
  intros [D E S W [C F] (n1 & T1 & H1)] [D' E' S' W' [C' F'] (n2 & T2 & H2)]. split; try congruence.
  - by trans (data w2).
  - split; congruence.
  - exists (n2 ++ n1). rewrite T2, T1, app_assoc. split; [done|]. apply Forall_app. split.
    + eapply Forall_impl; [exact H2|]. cbn. intros e (He & Ha & Hb).
      split_and!; [congruence|by trans (data w2)|done].
    + eapply Forall_impl; [exact H1|]. cbn. intros e (He & Ha & Hb).
      split_and!; [done|done|by trans (data w2)].
Qed.

Lemma io_bind_Ok {A B} (m : io A) (f : A → io B) w a w' :
  m w = (Ok a, w') → (m ≫= f) w = f a w'.
Proof. intros E. unfold mbind, io_bind. by rewrite E. Qed.

Lemma io_bind_Err {A B} (m : io A) (f : A → io B) w e w' :
  m w = (Err e, w') → (m ≫= f) w = (Err e, w').
Proof. intros E. unfold mbind, io_bind. by rewrite E. Qed.

Lemma io_bind_inv {A B} (m : io A) (f : A → io B) w r w' :
  (m ≫= f) w = (r, w') →
  (∃ a w1, m w = (Ok a, w1) ∧ f a w1 = (r, w')) ∨ (∃ e, m w = (Err e, w') ∧ r = Err e).
Proof.
  unfold mbind, io_bind. destruct (m w) as [[a|e] w1]; [eauto|]. intros [= <- <-]. eauto.
Qed.

Lemma next_outcome_spec w : ∃ o f, next_outcome w = (Ok o, set_faults f w).
Proof. unfold next_outcome. destruct w as [? ? ? ? [|o f]]; eexists _, _; done. Qed.

Lemma grows_set_faults f w w' : grows (set_faults f w) w' ↔ grows w w'.
Proof. split; intros []; by split. Qed.

Lemma put_spec x w : at_end w → ∃ w', put x w = (Ok tt, w') ∧ grows w w' ∧
  data w' = data w ++ x ∧ buf w' = buf w ∧ same_cur w w'.
Proof.
  intros He. eexists. split; [done|]. unfold at_end in He.
  assert (overwrite (data w) (pos w) x = data w ++ x) as Eo.
  { unfold overwrite. rewrite He, firstn_all, Nat.sub_diag, drop_ge by lia. cbn. by rewrite app_nil_r. }
  rewrite Eo. split; [|done]. split; cbn; try done.
  - by apply prefix_app_r.
  - unfold at_end. cbn. rewrite length_app. lia.
  - exists [(synced w, data w ++ x)]. split; [done|]. constructor; [|constructor]. cbn.
    split_and!; [done|by apply prefix_app_r|done].
Qed.

Lemma file_write_spec x w : at_end w → ∃ n ok w', file_write x w = (Ok (n, ok), w') ∧ grows w w' ∧
  data w' = data w ++ take n x ∧ (ok = true → n = length x) ∧ buf w' = buf w ∧ same_cur w w'.
Proof.
  intros He. unfold file_write. destruct x as [|b x0].
  { exists O, true, w. split_and!; try done; [by apply grows_refl|by rewrite app_nil_r]. }
  remember (b :: x0) as x. destruct (next_outcome_spec w) as (o & f & Eo).
  rewrite (io_bind_Ok _ _ _ _ _ Eo). destruct o as [|k].
  - destruct (put_spec x (set_faults f w)) as (w' & Ep & Hg & Hd & Hb & Hc); [done|].
    rewrite (io_bind_Ok _ _ _ _ _ Ep). exists (length x), true, w'.
    rewrite firstn_all. split_and!; try done. by apply (grows_set_faults f).
  - destruct (put_spec (take (Nat.min k (length x - 1)) x) (set_faults f w))
      as (w' & Ep & Hg & Hd & Hb & Hc); [done|].
    rewrite (io_bind_Ok _ _ _ _ _ Ep). eexists _, false, w'. split_and!; try done.
    by apply (grows_set_faults f).
Qed.

Lemma flush_spec w r w' : at_end w → flush w = (r, w') →
  grows w w' ∧ content w' = content w ∧ (is_ok r = true → buf w' = []) ∧ same_cur w w'.
Proof.
  intros He. unfold flush, flush_buf.
  destruct (file_write_spec (buf w) w He) as (n & ok & w1 & E & Hg & Hd & Hn & Hb & Hc).
  rewrite (io_bind_Ok _ _ _ _ _ E). cbn. unfold content.
  destruct ok; cbn; intros [= <- <-]; cbn; rewrite Hb, Hd; (split; [|split; [|split]]); try done.
  - destruct Hg. by split.
  - rewrite <- app_assoc, take_drop. done.
  - intros _. rewrite Hn by done. by apply drop_ge.
  - destruct Hg. by split.
  - rewrite <- app_assoc, take_drop. done.
Qed.

Lemma same_cur_trans w1 w2 w3 : same_cur w1 w2 → same_cur w2 w3 → same_cur w1 w3.
Proof. unfold same_cur. intros [] []. split; congruence. Qed.

(** What a write of [x] leaves: all of it accepted, or an error after part of it. *)
Definition wrote (x : bytes) (w : world) (r : result unit) (w' : world) : Prop :=
  grows w w' ∧ same_cur w w' ∧
  ∃ y, content w' = content w ++ y ∧ y `prefix_of` x ∧ (is_ok r = true → y = x).

Lemma buffer_spec x w : at_end w →
  wrote x w (Ok tt) (set_buf (buf w ++ x) w).
Proof.
  intros He. split; [|split; [done|]].
  - split; try done. exists []. split; [done|constructor].
  - exists x. unfold content. cbn. by rewrite app_assoc.
Qed.

Lemma write_all_spec x w r w' : at_end w → write_all x w = (r, w') → wrote x w r w'.
Proof.
  intros He. unfold write_all. destruct (Z.ltb_spec (zlen x) (BUF_CAPACITY - zlen (buf w))) as [|Hsp].
  { intros [= <- <-]. by apply buffer_spec. }
  intros [(a & w1 & E1 & E2)|(e & E1 & ->)]%io_bind_inv; cycle 1.
  { destruct (_ <? _); [|done]. apply flush_spec in E1 as (Hg & Hc & _ & Hs); [|done].
    split; [done|]. split; [done|]. exists []. rewrite app_nil_r. split_and!; [done| |done].
    apply prefix_nil. }
  assert (grows w w1 ∧ content w1 = content w ∧ same_cur w w1 ∧ (BUF_CAPACITY <= zlen x → buf w1 = []))
    as (Hg & Hc & Hs & Hb).
  { destruct (Z.ltb_spec (BUF_CAPACITY - zlen (buf w)) (zlen x)) as [|Hnl].
    - apply flush_spec in E1 as (Hg & Hc & Hb & Hs); [|done]. auto.
    - injection E1 as _ <-. split_and!; [by apply grows_refl|done|done|]. intros Hx.
      destruct (buf w); [done|]. unfold zlen in *. cbn [length] in *. lia. }
  destruct (Z.leb_spec BUF_CAPACITY (zlen x)) as [Hbig|Hsmall]; cycle 1.
  { injection E2 as <- <-. destruct (buffer_spec x w1) as (Hg1 & Hs1 & y & Hy & Hp & Hok).
    { apply Hg. }
    split; [by eapply grows_trans|]. split; [by eapply same_cur_trans|].
    exists y. rewrite Hy, Hc. done. }
  specialize (Hb Hbig). destruct (file_write_spec x w1 (grows_end _ _ Hg)) as
    (n & ok & w2 & E & Hg2 & Hd & Hn & Hb2 & Hs2).
  rewrite (io_bind_Ok _ _ _ _ _ E) in E2.
  assert (w' = w2 ∧ (is_ok r = true → ok = true)) as [-> Hok].
  { destruct ok; injection E2 as <- <-; done. }
  split; [by eapply grows_trans|]. split; [by eapply same_cur_trans|].
  exists (take n x). unfold content in *. rewrite Hd, Hb2, Hb, !app_nil_r in *. rewrite Hc.
  split_and!; [done|apply prefix_take|]. intros Hr. rewrite Hn by auto. apply firstn_all.
Qed.

(** Consecutive writes write the concatenation. *)
Lemma wrote_bind x1 x2 (m1 m2 : io unit) w r w' :
  (∀ r1 w1, m1 w = (r1, w1) → wrote x1 w r1 w1) →
  (∀ w1 r2 w2, at_end w1 → m2 w1 = (r2, w2) → wrote x2 w1 r2 w2) →
  (m1 ≫= λ _ : unit, m2) w = (r, w') → wrote (x1 ++ x2) w r w'.
Proof.
  intros Hm1 Hm2 [(a & w1 & E1 & E2)|(e & E1 & ->)]%io_bind_inv.
  - destruct (Hm1 _ _ E1) as (Hg & Hs & y & Hy & Hp & Hok). rewrite (Hok eq_refl) in Hy.
    destruct (Hm2 _ _ _ (grows_end _ _ Hg) E2) as (Hg2 & Hs2 & z & Hz & Hp2 & Hok2).
    split; [by eapply grows_trans|]. split; [by eapply same_cur_trans|].
    exists (x1 ++ z). rewrite Hz, Hy, app_assoc. split_and!; [done|by apply prefix_app|].
    intros Hr. by rewrite Hok2.
  - destruct (Hm1 _ _ E1) as (Hg & Hs & y & Hy & Hp & _). split; [done|]. split; [done|].
    exists y. split_and!; [done|by apply prefix_app_r|done].
Qed.

Lemma framed_one `{Crypto} cipher ord p stored :
  open_payload cipher ord stored = Ok p → frame_fits stored → framed cipher ord [p] (frame stored).
Proof.
  intros Ho Hf. rewrite <- (app_nil_r (frame stored)). apply framed_cons; [done..|]. apply framed_nil.
Qed.

Lemma io_bind_ext {A B} (m m' : io A) (f : A → io B) w : m w = m' w → (m ≫= f) w = (m' ≫= f) w.
Proof. intros E. unfold mbind, io_bind. by rewrite E. Qed.

Lemma io_bind_assoc {A B C} (m : io A) (f : A → io B) (g : B → io C) w :
  ((m ≫= f) ≫= g) w = (m ≫= λ x, f x ≫= g) w.
Proof. unfold mbind, io_bind. by destruct (m w) as [[]]. Qed.

Lemma io_for_map {A B} (f : B → io unit) (g : A → B) xs w :
  io_for (λ x, f (g x)) xs w = io_for f (map g xs) w.
Proof.
  revert w. induction xs as [|x xs IH]; intros w; cbn; [done|].
  unfold mbind, io_bind. destruct (f (g x) w) as [[]]; auto.
Qed.

Lemma io_for_snoc {A} (f : A → io unit) xs x w :
  io_for f (xs ++ [x]) w = (io_for f xs ≫= λ _, f x) w.
Proof.
  revert w. induction xs as [|y xs IH]; intros w; cbn; unfold mbind, io_bind.
  - cbn. destruct (f x w) as [[[]|]]; done.
  - destruct (f y w) as [[]]; [apply IH|done].
Qed.

Lemma fallible_spec f w r w' : fallible f w = (r, w') →
  ∃ fl, (r = Ok tt ∧ w' = f (set_faults fl w)) ∨ (r = Err IoError ∧ w' = set_faults fl w).
Proof.
  unfold fallible. destruct (next_outcome_spec w) as (o & fl & E). rewrite (io_bind_Ok _ _ _ _ _ E).
  intros Hr. exists fl. destruct o; cbn in Hr; injection Hr as <- <-; eauto.
Qed.

(** The contents the file goes through while a batch is written over [D]: each extends [D]
    with part of the batch's frames, and is not synced yet or just was. *)
Definition between (s0 D X : bytes) (nt : list (bytes * bytes)) : Prop :=
  Forall (λ e, (e.1 = s0 ∨ e.1 = e.2) ∧ D `prefix_of` e.2 ∧ e.2 `prefix_of` D ++ X) nt.

Lemma grows_between w w' E : grows w w' → content w' `prefix_of` E →
  ∃ nt, trail w' = nt ++ trail w ∧
    Forall (λ e, (e.1 = synced w ∨ e.1 = e.2) ∧ data w `prefix_of` e.2 ∧ e.2 `prefix_of` E) nt.
Proof.
  intros [_ _ _ _ _ (nt & Ht & Hnt)] Hc. exists nt. split; [done|].
  eapply Forall_impl; [exact Hnt|]. cbn. intros e (He & Ha & Hb). split_and!; [by left|done|].
  trans (data w'); [done|]. etrans; [|exact Hc]. unfold content. by apply prefix_app_r.
Qed.

Section sink_specs.
Context `{CryptoLaws} (random_nonce : nat → bytes) (s : WalSink).
Hypothesis nonce_len : ∀ i, zlen (random_nonce i) = NONCE_LEN.
Let cipher : option FileCipher := sink_cipher s.

Lemma write_frame_spec payload w r w' : at_end w →
  write_frame payload w = (r, w') → wrote (frame payload) w r w'.
Proof.
  intros He. unfold write_frame, frame. apply wrote_bind.
  - intros r1 w1. by apply write_all_spec.
  - intros w1 r1 w2 He1. apply wrote_bind; intros; by eapply write_all_spec.
Qed.

(** A payload small enough for its frame's length field, sealed or not. *)
Definition payload_fits (p : bytes) : Prop := 0 < zlen p ∧ zlen p + 40 < 2 ^ 32.

(** What is stored for a payload. *)
Lemma stored_spec payload w r w1 : payload_fits payload →
  (match cipher with
   | None => mret payload
   | Some c =>
       modify draw ≫= λ _, lift (seal_frame c (random_nonce (rng w)) (cur_frames w) payload)
   end) w = (r, w1) →
  (w1 = w ∨ w1 = draw w) ∧
  (∀ stored, r = Ok stored → open_payload cipher (cur_frames w) stored = Ok payload ∧ frame_fits stored).
Proof.
  intros [Hp Hp']. unfold cipher. destruct (sink_cipher s) as [c|]; cbn.
  - intros [= <- <-]. split; [by right|]. intros stored E. split.
    + by eapply open_seal_blob.
    + apply zlen_seal_blob in E; [|done]. unfold frame_fits. lia.
  - intros [= <- <-]. split; [by left|]. intros stored [= <-]. split; [done|]. unfold frame_fits. lia.
Qed.

(** One payload, written as a frame at the current ordinal. *)
Lemma write_payload_spec payload w r w' : payload_fits payload → at_end w →
  write_payload random_nonce s payload w = (r, w') →
  grows w w' ∧ ∃ y, content w' = content w ++ y ∧
    (is_ok r = true → ∃ stored, y = frame stored ∧
      open_payload cipher (cur_frames w) stored = Ok payload ∧ frame_fits stored ∧
      cur_len w' = cur_len w + zlen y ∧ cur_frames w' = cur_frames w + 1) ∧
    (is_ok r = false → y = [] ∨ ∃ stored, y `prefix_of` frame stored ∧
      open_payload cipher (cur_frames w) stored = Ok payload ∧ frame_fits stored).
Proof.
  intros Hp He. unfold write_payload. intros [(st & w1 & E1 & E2)|(e & E1 & ->)]%io_bind_inv.
  - apply stored_spec in E1 as [Hw1 Hst]; [|done]. destruct (Hst st eq_refl) as [Ho Hf].
    assert (at_end w1 ∧ content w1 = content w ∧ same_cur w w1 ∧ grows w w1) as (He1 & Hc1 & Hs1 & Hg1).
    { destruct Hw1 as [->| ->]; split_and!; try done; [by apply grows_refl|].
      split; try done. exists []. split; [done|constructor]. }
    apply io_bind_inv in E2 as [([] & w2 & E2 & E3)|(e & E2 & ->)].
    + apply write_frame_spec in E2 as (Hg & [Hl Hfr] & y & Hy & _ & Hok); [|done].
      rewrite (Hok eq_refl) in Hy. injection E3 as <- <-. destruct Hs1 as [Hl1 Hf1].
      split; [eapply grows_trans; [done|]; destruct Hg; by split|].
      exists (frame st). split; [unfold content in *; cbn; congruence|]. split; [|done].
      intros _. exists st. split_and!; try done.
      * cbn. rewrite Hl, Hl1. unfold frame_len, zlen. rewrite length_frame. lia.
      * cbn. rewrite Hfr, Hf1. done.
    + apply write_frame_spec in E2 as (Hg & _ & y & Hy & Hpre & _); [|done].
      split; [by eapply grows_trans|]. exists y. split; [congruence|]. split; [done|]. eauto.
  - apply stored_spec in E1 as [Hw1 _]; [|done]. split.
    + destruct Hw1 as [->| ->]; [by apply grows_refl|]. split; try done.
      exists []. split; [done|constructor].
    + exists []. split_and!; [|done|by left]. destruct Hw1 as [->| ->]; by rewrite app_nil_r.
Qed.

(** ** A run of payloads *)

Lemma write_payloads_spec ps w r w' : Forall payload_fits ps → at_end w →
  io_for (write_payload random_nonce s) ps w = (r, w') →
  grows w w' ∧
  (is_ok r = true → ∃ X, framed cipher (cur_frames w) ps X ∧ content w' = content w ++ X ∧
    cur_len w' = cur_len w + zlen X ∧ cur_frames w' = cur_frames w + zlen ps) ∧
  (is_ok r = false → ∃ qs X y, qs `prefix_of` ps ∧ framed cipher (cur_frames w) qs X ∧
    y `prefix_of` X ∧ content w' = content w ++ y).
Proof.
  intros Hps. revert w. induction Hps as [|p ps Hp Hps IH]; intros w He; cbn [io_for].
  { intros [= <- <-]. split; [by apply grows_refl|]. split; [|done]. intros _. exists [].
    unfold zlen. cbn. rewrite app_nil_r, !Z.add_0_r. split_and!; try done. constructor. }
  intros [([] & w1 & E1 & E2)|(e & E1 & ->)]%io_bind_inv.
  - apply write_payload_spec in E1 as (Hg & y & Hy & Hok & _); [|done..].
    destruct (Hok eq_refl) as (st & -> & Ho & Hf & Hl & Hfr).
    destruct (IH w1 (grows_end _ _ Hg) E2) as (Hg2 & Hok2 & Herr2).
    split; [by eapply grows_trans|]. rewrite Hfr in *. split.
    + intros Hr. destruct (Hok2 Hr) as (X & HX & Hc & Hl2 & Hf2).
      exists (frame st ++ X). split_and!; [by constructor|by rewrite Hc, Hy, app_assoc| |].
      * rewrite Hl2, Hl, zlen_app. lia.
      * rewrite Hf2. unfold zlen. cbn [length]. lia.
    + intros Hr. destruct (Herr2 Hr) as (qs & X & z & Hq & HX & Hz & Hc).
      exists (p :: qs), (frame st ++ X), (frame st ++ z).
      split_and!; [by apply prefix_cons|by constructor|by apply prefix_app|].
      by rewrite Hc, Hy, app_assoc.
  - apply write_payload_spec in E1 as (Hg & y & Hy & _ & Herr); [|done..].
    split; [done|]. split; [done|]. intros _.
    destruct (Herr eq_refl) as [->|(st & Hpre & Ho & Hf)].
    + exists [], [], []. split_and!; [apply prefix_nil|constructor|done|done].
    + exists [p], (frame st), y. split_and!; [|by apply framed_one|done..].
      apply prefix_cons, prefix_nil.
Qed.

(** ** A batch *)

Definition batch_fits (b : batch) : Prop := Forall payload_fits (batch_payloads b).

Lemma write_batch_unfold b w :
  write_batch random_nonce s b.1 b.2 w =
  (io_for (write_payload random_nonce s) (batch_payloads b) ≫= λ _,
   flush ≫= λ _, sync_data ≫= λ _, modify set_committed) w.
Proof.
  unfold write_batch, batch_payloads, write_commit_frame, write_record_frame.
  rewrite (io_bind_ext _ _ _ w (io_for_map _ encode_payload b.1 w)).
  rewrite (io_bind_ext _ _ _ w (io_for_snoc _ (map encode_payload b.1) (commit_payload b.2) w)).
  by rewrite io_bind_assoc.
Qed.

Lemma write_batch_spec b w r w' : batch_fits b → at_end w → buf w = [] →
  write_batch random_nonce s b.1 b.2 w = (r, w') →
  ∃ qs X nt, qs `prefix_of` batch_payloads b ∧ framed cipher (cur_frames w) qs X ∧
    trail w' = nt ++ trail w ∧ between (synced w) (data w) X nt ∧ warned w' = warned w ∧
    (is_ok r = true → qs = batch_payloads b ∧ data w' = data w ++ X ∧ buf w' = [] ∧ at_end w' ∧
      synced w' = data w' ∧ cur_len w' = cur_len w + zlen X ∧
      cur_frames w' = cur_frames w + zlen qs ∧
      committed_len w' = cur_len w' ∧ committed_frames w' = cur_frames w') ∧
    (is_ok r = false → grows w w' ∧ content w' `prefix_of` data w ++ X).
Proof.
  intros Hfit He Hbuf. rewrite write_batch_unfold. intros Hrun.
  apply io_bind_inv in Hrun as [([] & w1 & E1 & Hrun)|(e & E1 & ->)]; cycle 1.
  { apply write_payloads_spec in E1 as (Hg & _ & Herr); [|done..].
    destruct (Herr eq_refl) as (qs & X & y & Hq & HX & Hy & Hc).
    unfold content in Hc. rewrite Hbuf, app_nil_r in Hc.
    assert (content w' `prefix_of` data w ++ X) as Hcp by (unfold content; rewrite Hc; by apply prefix_app).
    destruct (grows_between _ _ (data w ++ X) Hg Hcp) as (nt & Ht & Hbt).
    exists qs, X, nt. split_and!; try done. by apply grows_warned. }
  apply write_payloads_spec in E1 as (Hg & Hok & _); [|done..].
  destruct (Hok eq_refl) as (X & HX & Hc & Hl & Hf). unfold content in Hc.
  rewrite Hbuf, app_nil_r in Hc. exists (batch_payloads b), X.
  apply io_bind_inv in Hrun as [([] & w2 & E2 & Hrun)|(e & E2 & ->)];
    apply flush_spec in E2 as (Hg2 & Hc2 & Hb2 & [Hl2 Hf2]); [|apply Hg| |apply Hg].
  all: pose proof (grows_trans _ _ _ Hg Hg2) as Hg12; unfold content in Hc2.
  2: { destruct (grows_between _ _ (data w ++ X) Hg12) as (nt & Ht & Hbt).
       { unfold content. by rewrite Hc2, Hc. }
       exists nt. split_and!; try done; [by apply grows_warned|]. intros _. split; [done|].
       unfold content. by rewrite Hc2, Hc. }
  specialize (Hb2 eq_refl). rewrite Hb2, app_nil_r, Hc in Hc2.
  destruct (grows_between _ _ (data w ++ X) Hg12) as (nt & Ht & Hbt).
  { unfold content. by rewrite Hb2, app_nil_r, Hc2. }
  apply io_bind_inv in Hrun as [([] & w3 & E3 & Hrun)|(e & E3 & ->)];
    apply fallible_spec in E3 as (fl & [(Er & ->)|(Er & ->)]); try done.
  - injection Hrun as <- <-. exists ((data w2, data w2) :: nt). cbn. rewrite Ht. split_and!; try done.
    + constructor; [|done]. cbn. rewrite Hc2. split_and!; [by right|by apply prefix_app_r|done].
    + by apply grows_warned.
    + intros _. split_and!; try done; [apply Hg12|congruence|congruence].
  - exists nt. cbn. split_and!; try done; [by apply grows_warned|]. intros _. split.
    + destruct Hg12. by split.
    + unfold content. cbn. by rewrite Hb2, app_nil_r, Hc2.
Qed.
End sink_specs.

(** ** The rollback *)

(** The committed image [D] is intact below the file's position. *)
Definition above (D : bytes) (w : world) : Prop := D `prefix_of` data w ∧ (length D <= pos w)%nat.

Definition same_floor (w w' : world) : Prop :=
  committed_len w' = committed_len w ∧ committed_frames w' = committed_frames w ∧ warned w' = warned w.

Lemma overwrite_above D d p x :
  D `prefix_of` d → (length D <= p)%nat → D `prefix_of` overwrite d p x.
Proof.
  intros [z ->] Hp. unfold overwrite. apply prefix_app_r.
  rewrite take_app_ge by done. by apply prefix_app_r.
Qed.

Lemma put_above D x w : above D w → ∃ w', put x w = (Ok tt, w') ∧ above D w' ∧
  buf w' = buf w ∧ same_cur w w' ∧ same_floor w w'.
Proof.
  intros [Hd Hp]. eexists. split; [done|]. split_and!; try done. split; cbn; [by apply overwrite_above|lia].
Qed.

Lemma flush_above D w r w' : above D w → flush w = (r, w') →
  above D w' ∧ same_cur w w' ∧ same_floor w w' ∧ (is_ok r = true → buf w' = []).
Proof.
  intros Ha. unfold flush, flush_buf.
  assert (∃ n ok w1, file_write (buf w) w = (Ok (n, ok), w1) ∧ above D w1 ∧ buf w1 = buf w ∧
    same_cur w w1 ∧ same_floor w w1 ∧ (ok = true → n = length (buf w)))
    as (n & ok & w1 & E & Ha1 & Hb & Hc & Hf & Hn).
  { unfold file_write. destruct (buf w) as [|b x0] eqn:Eb; [by exists O, true, w|].
    rewrite <- Eb. destruct (next_outcome_spec w) as (o & f & Eo).
    rewrite (io_bind_Ok _ _ _ _ _ Eo). destruct o as [|k].
    - destruct (put_above D (buf w) (set_faults f w)) as (w1 & Ep & Ha1 & Hb1 & Hc1 & Hf1); [done|].
      rewrite (io_bind_Ok _ _ _ _ _ Ep). exists (length (buf w)), true, w1. done.
    - destruct (put_above D (take (Nat.min k (length (buf w) - 1)) (buf w)) (set_faults f w))
        as (w1 & Ep & Ha1 & Hb1 & Hc1 & Hf1); [done|].
      rewrite (io_bind_Ok _ _ _ _ _ Ep). eexists _, false, w1. done. }
  rewrite (io_bind_Ok _ _ _ _ _ E). destruct ok; cbn; intros [= <- <-]; cbn; split_and!; try done.
  intros _. rewrite Hb, Hn by done. by apply drop_ge.
Qed.

Lemma set_len_image D d : D `prefix_of` d →
  take (Z.to_nat (zlen D)) d ++ repeat 0 (Z.to_nat (zlen D) - length d) = D.
Proof.
  intros [z ->]. unfold zlen. rewrite Nat2Z.id, take_app_length, length_app.
  replace (length D - (length D + length z))%nat with O by lia. apply app_nil_r.
Qed.

(** A truncate that works restores the committed image exactly, from any state above it; one
    that fails keeps the image and the counters. *)
Lemma truncate_spec D fr w r w' : above D w → truncate_to (zlen D) fr w = (r, w') →
  same_floor w w' ∧
  (is_ok r = true → data w' = D ∧ buf w' = [] ∧ at_end w' ∧ synced w' = D ∧
    cur_len w' = zlen D ∧ cur_frames w' = fr) ∧
  (is_ok r = false → above D w' ∧ same_cur w w').
Proof.
  intros Ha. unfold truncate_to. intros [([] & w1 & E & Hrun)|(e & E & ->)]%io_bind_inv;
    apply (flush_above D) in E as (Ha1 & Hc & Hf & Hb); try done.
  specialize (Hb eq_refl). destruct Ha1 as [Hd1 Hp1].
  apply io_bind_inv in Hrun as [([] & w2 & E2 & Hrun)|(e & E2 & ->)];
    apply fallible_spec in E2 as (f2 & [(Er & ->)|(Er & ->)]); try done.
  apply io_bind_inv in Hrun as [([] & w3 & E3 & Hrun)|(e & E3 & ->)];
    apply fallible_spec in E3 as (f3 & [(Er3 & ->)|(Er3 & ->)]); try done; cycle 1.
  { split_and!; try done. intros _. split; [|done]. split; cbn; [by rewrite set_len_image|done]. }
  apply io_bind_inv in Hrun as [([] & w4 & E4 & Hrun)|(e & E4 & ->)];
    apply fallible_spec in E4 as (f4 & [(Er4 & ->)|(Er4 & ->)]); try done; cycle 1.
  { split_and!; try done. intros _. split; [|done]. split; cbn; [by rewrite set_len_image|].
    unfold zlen. lia. }
  injection Hrun as <- <-. split; [done|]. split; [|done]. intros _. unfold at_end. cbn.
  rewrite set_len_image by done. split_and!; try done. unfold zlen. lia.
Qed.

(** From the end of a batch under way, the file only goes through parts of the batch and the
    committed image. *)
Lemma truncate_between D X fr w r w' : at_end w → D `prefix_of` data w → content w `prefix_of` D ++ X →
  truncate_to (zlen D) fr w = (r, w') →
  ∃ nt, trail w' = nt ++ trail w ∧ between (synced w) D X nt.
Proof.
  intros He Hd Hc. unfold truncate_to. intros Hrun.
  assert (∀ r1 w1, flush w = (r1, w1) → D `prefix_of` data w1 ∧ synced w1 = synced w ∧
    ∃ nt, trail w1 = nt ++ trail w ∧ between (synced w) D X nt) as Hfl.
  { intros r1 w1 (Hg & Hcc & _ & _)%flush_spec; [|done].
    split; [trans (data w); [done|apply Hg]|]. split; [apply Hg|].
    destruct (grows_between w w1 (D ++ X) Hg) as (nt & Ht & Hnt); [by rewrite Hcc|].
    exists nt. split; [done|]. eapply Forall_impl; [exact Hnt|]. cbn. intros e (?&?&?).
    split_and!; [done|by trans (data w)|done]. }
  apply io_bind_inv in Hrun as [([] & w1 & E & Hrun)|(e & E & ->)];
    apply Hfl in E as (Hd1 & Hs1 & nt & Ht & Hnt); [|by exists nt].
  apply io_bind_inv in Hrun as [([] & w2 & E2 & Hrun)|(e & E2 & ->)];
    apply fallible_spec in E2 as (f2 & [(Er & ->)|(Er & ->)]); try done; [|by exists nt].
  assert (between (synced w) D X ((synced w, D) :: nt)) as Hnt2.
  { constructor; [|done]. split_and!; [by left|done|by apply prefix_app_r]. }
  apply io_bind_inv in Hrun as [([] & w3 & E3 & Hrun)|(e & E3 & ->)];
    apply fallible_spec in E3 as (f3 & [(Er3 & ->)|(Er3 & ->)]); try done; cycle 1.
  { eexists (_ :: nt). cbn. rewrite set_len_image, Hs1, Ht by done. done. }
  apply io_bind_inv in Hrun as [([] & w4 & E4 & Hrun)|(e & E4 & ->)];
    apply fallible_spec in E4 as (f4 & [(Er4 & ->)|(Er4 & ->)]); try done; cycle 1.
  { eexists (_ :: nt). cbn. rewrite set_len_image, Hs1, Ht by done. done. }
  injection Hrun as <- <-. eexists (_ :: _ :: nt). cbn. rewrite set_len_image, Hs1, Ht by done.
  split; [done|]. constructor; [|done]. split_and!; [by right|done|by apply prefix_app_r].
Qed.

(** * States of a sink between batches *)

Section states.
Context `{CryptoLaws} (random_nonce : nat → bytes) (s : WalSink).
Hypothesis nonce_len : ∀ i, zlen (random_nonce i) = NONCE_LEN.

(** The image of the acknowledged batches. *)
Definition image (acked : list batch) (D : bytes) : Prop :=
  ∃ A, framed (sink_cipher s) 0 (payloads acked) A ∧ D = segment_magic (sink_cipher s) ++ A.

(** The file is exactly the acknowledged batches, and they are durable (before the first
    batch, the magic alone may not be). *)
Record clean (acked : list batch) (w : world) : Prop := {
  clean_image : image acked (data w);
  clean_buf : buf w = [];
  clean_end : at_end w;
  clean_len : committed_len w = zlen (data w) ∧ cur_len w = committed_len w;
  clean_frames : committed_frames w = zlen (payloads acked) ∧ cur_frames w = committed_frames w;
  clean_synced : synced w = data w ∨ acked = [] ∧ synced w = [];
}.

(** A rollback has failed: the acknowledged image is intact at the head of the file, what
    follows is not to be trusted, and the lengths tell. *)
Record dirty (acked : list batch) (w : world) : Prop := {
  dirty_image : ∃ D, image acked D ∧ above D w ∧ committed_len w = zlen D;
  dirty_frames : committed_frames w = zlen (payloads acked);
  dirty_len : cur_len w ≠ committed_len w;
}.

Lemma payloads_snoc acked b : payloads (acked ++ [b]) = payloads acked ++ batch_payloads b.
Proof. unfold payloads. rewrite map_app, concat_app. cbn. by rewrite app_nil_r. Qed.

Lemma image_snoc acked D b X : image acked D →
  framed (sink_cipher s) (zlen (payloads acked)) (batch_payloads b) X → image (acked ++ [b]) (D ++ X).
Proof.
  intros (A & HA & ->) HX. exists (A ++ X). rewrite payloads_snoc, <- app_assoc. split; [|done].
  apply framed_app; [done|]. by rewrite Z.add_0_l.
Qed.

Lemma restore_clean acked D fr w r w' : image acked D → above D w → committed_len w = zlen D →
  committed_frames w = zlen (payloads acked) → fr = committed_frames w →
  truncate_to (zlen D) fr w = (r, w') → is_ok r = true → clean acked w' ∧ warned w' = warned w.
Proof.
  intros Hi Ha Hl Hf -> Hrun Hr. apply (truncate_spec D) in Hrun as ((Hcl & Hcf & Hw) & Hok & _); [|done].
  destruct (Hok Hr) as (Hd & Hb & He & Hs & Hcur & Hfr). split; [|done].
  split; [by rewrite Hd|done|done|split; congruence|split; congruence|left; congruence].
Qed.

(** The batch under the guard, from a clean state. *)
Lemma guarded_spec acked b w r w' : batch_fits b → clean acked w →
  guarded (write_batch random_nonce s b.1 b.2) w = (r, w') →
  (is_ok r = true → clean (acked ++ [b]) w' ∧ warned w' = warned w) ∧
  (is_ok r = false → warned w' = warned w → clean acked w') ∧
  ∃ qs X nt, qs `prefix_of` batch_payloads b ∧ framed (sink_cipher s) (zlen (payloads acked)) qs X ∧
    trail w' = nt ++ trail w ∧ between (synced w) (data w) X nt.
Proof.
  intros Hfit [Hi Hb He [Hl Hcl] [Hf Hcf] Hs] Hrun. unfold guarded, on_error in Hrun.
  destruct (write_batch random_nonce s b.1 b.2 w) as [r1 w1] eqn:E.
  apply write_batch_spec in E as (qs & X & nt & Hq & HX & Ht & Hbt & Hw & Hok & Herr); [|done..].
  rewrite Hcf, Hf in HX. destruct r1 as [[]|e].
  - injection Hrun as <- <-. destruct (Hok eq_refl) as (-> & Hd & Hb1 & He1 & Hs1 & Hl1 & Hf1 & Hc1 & Hc2).
    split; [|split; [done|by exists (batch_payloads b), X, nt]]. intros _. split; [|done].
    split; try done.
    + rewrite Hd. by apply image_snoc.
    + split; [|by rewrite Hc1]. rewrite Hc1, Hl1, Hcl, Hl, Hd, zlen_app. done.
    + split; [|by rewrite Hc2]. rewrite Hc2, Hf1, Hcf, Hf, payloads_snoc, zlen_app. done.
    + by left.
  - destruct (Herr eq_refl) as [Hg Hc]. pose proof (grows_committed _ _ Hg) as [Hgl Hgf].
    assert (above (data w) w1) as Ha.
    { split; [apply Hg|]. rewrite (grows_end _ _ Hg). apply prefix_length, Hg. }
    unfold rollback_drop in Hrun. rewrite Hl in Hrun.
    destruct (truncate_to (zlen (data w)) (committed_frames w) w1) as [r2 w2] eqn:E2.
    assert (∃ nt2, trail w2 = nt2 ++ trail w1 ∧ between (synced w1) (data w) X nt2) as (nt2 & Ht2 & Hbt2).
    { eapply truncate_between; [apply Hg|apply Hg|done|done]. }
    assert (trail w' = trail w2) as Htr by (destruct r2; by injection Hrun as <- <-).
    split; [|split].
    + destruct r2; injection Hrun as <- <-; done.
    + intros _ Hwarn. destruct r2 as [[]|e2].
      * injection Hrun as <- <-.
        eapply restore_clean in E2 as [Hcln _]; [exact Hcln|exact Hi|exact Ha|congruence|congruence|congruence|done].
      * injection Hrun as <- <-. apply (truncate_spec (data w)) in E2 as ((_ & _ & Hw2) & _ & _); [|done].
        cbn in Hwarn. lia.
    + exists qs, X, (nt2 ++ nt). rewrite Htr, Ht2, Ht, app_assoc. split_and!; try done.
      apply Forall_app. split; [|done]. rewrite (grows_synced _ _ Hg) in Hbt2. done.
Qed.

Lemma append_batch_clean acked b w :
  clean acked w → append_batch random_nonce s b.1 b.2 w = guarded (write_batch random_nonce s b.1 b.2) w.
Proof.
  intros Hc. unfold append_batch. rewrite (io_bind_Ok _ _ _ tt w); [done|]. unfold self_heal.
  rewrite (proj2 (Z.eqb_eq _ _)); [done|]. apply Hc.
Qed.

(** ** What a crash leaves, and what replay makes of it *)

(** A crash while the file has content [e.2] over the synced [e.1] may tear off its end, but
    not bytes that were synced and are still there. *)
Definition crash_image (e : bytes * bytes) (c : bytes) : Prop :=
  c `prefix_of` e.2 ∧ ∀ p, p `prefix_of` e.1 → p `prefix_of` e.2 → p `prefix_of` c.

(** What an image replays to, on top of whatever was replayed before. *)
Definition replays_to (c : bytes) (bs : list batch) : Prop :=
  ∀ out, replay_bytes c (sink_cipher s) out = Ok (apply_batches out bs).

(** Part of a batch's frames replays to nothing or to the whole batch. *)
Lemma replay_partial acked b D qs X c :
  Forall batch_ok acked → batch_ok b → image acked D → qs `prefix_of` batch_payloads b →
  framed (sink_cipher s) (zlen (payloads acked)) qs X → D `prefix_of` c → c `prefix_of` D ++ X →
  replays_to c acked ∨ replays_to c (acked ++ [b]).
Proof.
  intros Hacked Hb (A & HA & ->) [qs' Hq] HX [t ->] Hc.
  rewrite <- !app_assoc in *. apply prefix_app_inv in Hc. apply prefix_app_inv in Hc as [u Hu].
  destruct (framed_prefix _ _ _ _ t u HX Hu) as (k & bd & tail & -> & Hbd & Htail & Hk & _).
  pose proof (framed_app _ _ _ _ _ _ HA Hbd) as Hf.
  assert (∀ out, replay_bytes (segment_magic (sink_cipher s) ++ A ++ bd ++ tail) (sink_cipher s) out
    = snd <$> run_payloads (take k (batch_payloads b)) ([], apply_batches out acked)) as E.
  { intros out. rewrite replay_bytes_magic, app_assoc, (replay_frames_spec _ _ _ _ _ _ _ Hf Htail).
    - rewrite run_payloads_app, run_batches by done. cbn [mbind result_bind].
      by rewrite Hq, take_app_le.
    - apply framed_length in Hf. rewrite !length_app in *. lia. }
  destruct (decide (k < length (batch_payloads b))%nat) as [Hlt|Hge].
  - left. intros out. by rewrite E, run_batch_cut.
  - right. intros out. rewrite E, take_ge by lia. rewrite run_batch by done. cbn.
    unfold apply_batches. by rewrite foldl_app.
Qed.

Lemma replay_image acked D out : Forall batch_ok acked → image acked D →
  replay_bytes D (sink_cipher s) out = Ok (apply_batches out acked).
Proof.
  intros Hacked (A & HA & ->). rewrite replay_bytes_magic, <- (app_nil_r A).
  rewrite (replay_frames_spec _ _ _ _ _ _ _ HA); [|done|].
  - by rewrite run_batches.
  - apply framed_length in HA. rewrite length_app. lia.
Qed.

(** A crash image of a batch under way contains the committed image, or tears the magic of a
    segment nothing was acknowledged in. *)
Lemma crash_between acked w X nt e c : clean acked w → between (synced w) (data w) X nt → e ∈ nt →
  crash_image e c →
  (data w `prefix_of` c ∧ c `prefix_of` data w ++ X) ∨ (acked = [] ∧ zlen c < 8).
Proof.
  intros Hcl Hbt He [Hc Hkeep]. unfold between in Hbt. rewrite Forall_forall in Hbt.
  destruct (Hbt e He) as (Hsyn & Hd & Hx).
  assert (c `prefix_of` data w ++ X) as Hcx by (by trans e.2).
  destruct Hsyn as [E1|E1]; cycle 1.
  { left. split; [|done]. trans e.2; [done|]. apply Hkeep; [by rewrite E1|done]. }
  destruct (clean_synced _ _ Hcl) as [Es|[-> Es]].
  { left. split; [|done]. apply Hkeep; [by rewrite E1, Es|done]. }
  destruct (clean_image _ _ Hcl) as (A & HA & Ed). inversion HA; subst. rewrite app_nil_r in Ed.
  destruct (decide (zlen c < 8)) as [|Hlen]; [by right|left]. split; [|done].
  apply (prefix_weak_total (data w) c (data w ++ X)) in Hcx as [|Hcd]; [done| |by apply prefix_app_r].
  assert (length (data w) = 8%nat) as H8 by (rewrite Ed; by destruct (sink_cipher s)).
  assert (c = data w) as ->; [|done]. apply prefix_length_eq; [done|]. unfold zlen in Hlen. lia.
Qed.
End states.

(** A file that does not exist yet, with the outcomes of the calls to come. *)
Definition fresh (fl : list outcome) : world := Build_world [] 0 [] [] fl 0 0 [] 0 0 0 0.

Lemma fallible_id_spec w r w' : fallible id w = (r, w') → ∃ fl, w' = set_faults fl w.
Proof. intros (fl & [[_ ->]|[_ ->]])%fallible_spec; by exists fl. Qed.

Section create.
Context `{CryptoLaws}.

Lemma create_clean existed parent seg bc fl s w' :
  create existed parent seg bc (fresh fl) = (Ok s, w') →
  clean s [] w' ∧ warned w' = O ∧ segment s = seg ∧
  sink_cipher s = bind bc (wal_name (segment_file_name seg)).
Proof.
  unfold create. set (c := bind bc (wal_name (segment_file_name seg))). intros Hrun.
  apply io_bind_inv in Hrun as [([] & w1 & E1 & Hrun)|(? & _ & ?)]; [|done].
  apply fallible_id_spec in E1 as [f1 ->].
  apply io_bind_inv in Hrun as [([] & w2 & E2 & Hrun)|(? & _ & ?)]; [|done].
  apply fallible_spec in E2 as (f2 & [[_ ->]|[? _]]); [|done].
  apply io_bind_inv in Hrun as [([] & w3 & E3 & Hrun)|(? & _ & ?)]; [|done].
  injection E3 as <-.
  apply io_bind_inv in Hrun as [([] & w4 & E4 & Hrun)|(? & _ & ?)]; [|done].
  apply write_all_spec in E4 as (Hg & _ & y & Hy & _ & Hok); [|done]. rewrite (Hok eq_refl) in Hy.
  apply io_bind_inv in Hrun as [([] & w5 & E5 & Hrun)|(? & _ & ?)]; [|done].
  apply flush_spec in E5 as (Hg5 & Hc5 & Hb5 & _); [|apply Hg]. specialize (Hb5 eq_refl).
  apply io_bind_inv in Hrun as [([] & w6 & E6 & Hrun)|(? & _ & ?)]; [|done].
  apply fallible_id_spec in E6 as [f6 ->].
  apply io_bind_inv in Hrun as [([] & w7 & E7 & Hrun)|(? & _ & ?)]; [|done].
  assert (∃ f7, w7 = set_faults f7 w5) as [f7 ->].
  { destruct (_ && _); [apply fallible_id_spec in E7 as [f7 ->]; by exists f7|].
    injection E7 as <-. by exists f6. }
  apply io_bind_inv in Hrun as [([] & w8 & E8 & Hrun)|(? & _ & ?)]; [|done].
  injection E8 as <-. injection Hrun as <- <-.
  pose proof (grows_trans _ _ _ Hg Hg5) as Hg45.
  unfold content in *. rewrite Hb5, app_nil_r in Hc5. rewrite Hy in Hc5. cbn in Hc5.
  assert (data w5 = segment_magic c) as Hd by (rewrite Hc5; by destruct c).
  split; [|split_and!; [exact (grows_warned _ _ Hg45)|done|done]].
  split; cbn; try done.
  - exists []. rewrite app_nil_r. split; [constructor|done].
  - apply Hg45.
  - rewrite Hd. split; [by destruct c|done].
  - right. split; [done|]. exact (grows_synced _ _ Hg45).
Qed.

(** Until it is handed out a segment is unsynced and part of its magic. *)
Definition unborn (c : option FileCipher) (w : world) : Prop :=
  Forall (λ e, e.1 = [] ∧ e.2 `prefix_of` segment_magic c) (trail w).

Lemma unborn_grows c w w' : synced w = [] → unborn c w → grows w w' → data w' `prefix_of` segment_magic c →
  unborn c w'.
Proof.
  intros Hs Hu [_ _ _ _ _ (nt & Ht & Hnt)] Hp. unfold unborn. rewrite Ht. apply Forall_app. split; [|done].
  eapply Forall_impl; [exact Hnt|]. cbn. intros e (E & _ & He). split; [congruence|by trans (data w')].
Qed.

Lemma create_trail existed parent seg bc fl r w' :
  create existed parent seg bc (fresh fl) = (r, w') →
  unborn (bind bc (wal_name (segment_file_name seg))) w'.
Proof.
  unfold create. set (c := bind bc (wal_name (segment_file_name seg))). intros Hrun.
  assert (∀ f w, unborn c w → unborn c (set_faults f w)) as Hf by done.
  apply io_bind_inv in Hrun as [([] & w1 & E1 & Hrun)|(? & E1 & _)];
    apply fallible_id_spec in E1 as [f1 ->]; [|by apply Forall_nil].
  apply io_bind_inv in Hrun as [([] & w2 & E2 & Hrun)|(? & E2 & _)];
    apply fallible_spec in E2 as (f2 & [[? ->]|[? ->]]); try done; [|by apply Forall_nil].
  apply io_bind_inv in Hrun as [([] & w3 & E3 & Hrun)|(? & ? & _)]; [|done]. injection E3 as <-.
  set (w3 := set_buf [] _) in Hrun.
  assert (unborn c w3) as H3.
  { apply Forall_cons. split; [|apply Forall_nil_2]. split; [done|]. apply prefix_nil. }
  assert (∃ w4, write_all (segment_magic c) w3 = (Ok tt, w4) ∧ w4 = set_buf (segment_magic c) w3) as (w4 & E4 & Ew4).
  { unfold segment_magic. destruct c; by eexists. }
  assert ((match c with Some _ => WAL_MAGIC_SEALED | None => WAL_MAGIC end) = segment_magic c) as Em by by destruct c.
  rewrite Em in Hrun. apply io_bind_inv in Hrun as [([] & w4' & E4' & Hrun)|(? & E4' & _)]; [|congruence].
  assert (w4' = w4) as -> by congruence.
  assert (∀ r5 w5, flush w4 = (r5, w5) → unborn c w5) as H5.
  { intros r5 w5 E5. apply flush_spec in E5 as (Hg & Hc & _); [|by rewrite Ew4].
    apply (unborn_grows c w4); [by rewrite Ew4|by rewrite Ew4|done|].
    rewrite Ew4 in Hc. unfold content in Hc. cbn in Hc. rewrite <- Hc. by apply prefix_app_r. }
  apply io_bind_inv in Hrun as [([] & w5 & E5 & Hrun)|(? & E5 & _)]; [|by eapply H5].
  apply H5 in E5.
  apply io_bind_inv in Hrun as [([] & w6 & E6 & Hrun)|(? & E6 & _)];
    apply fallible_id_spec in E6 as [f6 ->]; [|done].
  apply io_bind_inv in Hrun as [([] & w7 & E7 & Hrun)|(? & E7 & _)].
  - injection Hrun as _ <-.
    destruct (_ && _); [by apply fallible_id_spec in E7 as [f7 ->]|by injection E7 as <-].
  - destruct (_ && _); [by apply fallible_id_spec in E7 as [f7 ->]|done].
Qed.

(** Sealing changes nothing in the file. *)
Lemma seal_data s acked w r w' : clean s acked w → WalSink.seal s w = (r, w') → data w' = data w.
Proof.
  intros Hcl. unfold WalSink.seal.
  assert (∀ r1 w1, flush w = (r1, w1) → data w1 = data w) as Hfl.
  { intros r1 w1 E. unfold flush, flush_buf in E. rewrite (clean_buf _ _ _ Hcl) in E. cbn in E. by injection E as <- <-. }
  intros [([] & w1 & E1 & Hrun)|(? & E1 & _)]%io_bind_inv; [|by eapply Hfl].
  apply Hfl in E1. rewrite <- E1.
  apply io_bind_inv in Hrun as [([] & w2 & E2 & Hrun)|(? & E2 & _)];
    apply fallible_spec in E2 as (f2 & [[? ->]|[? ->]]); try done.
  apply io_bind_inv in Hrun as [([] & w3 & E3 & Hrun)|(? & E3 & _)];
    apply fallible_id_spec in E3 as [f3 ->]; [|done]. by injection Hrun as _ <-.
Qed.
End create.

Lemma sublist_Forall {A} (P : A → Prop) (l k : list A) : sublist l k → Forall P k → Forall P l.
Proof. induction 1; intros Hk; [done|..]; apply Forall_cons in Hk as [??]; auto. Qed.

(** ** Runs *)

(** Warnings are only ever added, whatever state an operation starts from. *)
Definition keeps_warnings {A} (m : io A) : Prop := ∀ w, (warned w <= warned (m w).2)%nat.

Create HintDb warnings.

Lemma bind_warnings {A B} (m : io A) (f : A → io B) :
  keeps_warnings m → (∀ a, keeps_warnings (f a)) → keeps_warnings (m ≫= f).
Proof.
  intros Hm Hf w. unfold mbind, io_bind. specialize (Hm w). destruct (m w) as [[a|e] w1]; cbn in *; [|done].
  specialize (Hf a w1). lia.
Qed.

Lemma modify_warnings f : (∀ w, warned w <= warned (f w))%nat → keeps_warnings (modify f).
Proof. intros Hf w. apply Hf. Qed.

Lemma lift_warnings {A} (r : result A) : keeps_warnings (lift r).
Proof. by intros w. Qed.

Lemma ret_warnings {A} (a : A) : keeps_warnings (mret a).
Proof. by intros w. Qed.

Lemma next_outcome_warnings : keeps_warnings next_outcome.
Proof. intros w. destruct (next_outcome_spec w) as (o & f & ->). done. Qed.

Lemma put_warnings x : keeps_warnings (put x).
Proof. by intros w. Qed.

#[local] Hint Resolve lift_warnings ret_warnings next_outcome_warnings put_warnings : warnings.
#[local] Hint Extern 2 (keeps_warnings (modify _)) => apply modify_warnings; intros; cbn; lia : warnings.

(** Take an operation apart down to the state changes it makes. *)
Ltac keep_warnings :=
  repeat match goal with
  | |- keeps_warnings (_ ≫= _) => apply bind_warnings; [|intros ?; cbv beta]
  | |- keeps_warnings (match ?x with _ => _ end) => destruct x
  | |- keeps_warnings (let _ := _ in _) => cbv zeta
  end; auto with warnings.

(** The same for an operation that first looks at the world. *)
Ltac keep_warnings_at :=
  intros w; cbv beta zeta;
  repeat match goal with |- context [if ?b then _ else _ ] => destruct b end;
  match goal with
  | |- (_ <= warned (?m w).2)%nat =>
      let Hm := fresh in enough (keeps_warnings m) as Hm; [exact (Hm w)|]
  end; keep_warnings.

Lemma fallible_warnings f : (∀ w, warned w <= warned (f w))%nat → keeps_warnings (fallible f).
Proof. intros Hf. unfold fallible. keep_warnings. Qed.

Lemma file_write_warnings x : keeps_warnings (file_write x).
Proof. unfold file_write. keep_warnings. Qed.
#[local] Hint Resolve file_write_warnings : warnings.

Lemma flush_warnings : keeps_warnings flush.
Proof.
  unfold flush, flush_buf. keep_warnings_at. unfold check_io. keep_warnings.
Qed.
#[local] Hint Resolve flush_warnings : warnings.

Lemma write_all_warnings x : keeps_warnings (write_all x).
Proof.
  unfold write_all. keep_warnings_at; unfold check_io; keep_warnings.
Qed.
#[local] Hint Resolve write_all_warnings : warnings.

Lemma sync_warnings : keeps_warnings sync_data.
Proof. by apply fallible_warnings. Qed.

Lemma truncate_warnings off fr : keeps_warnings (truncate_to off fr).
Proof.
  unfold truncate_to. keep_warnings; unfold set_len, seek; [by apply fallible_warnings..|apply sync_warnings].
Qed.

Lemma io_for_warnings {A} (f : A → io unit) xs :
  (∀ x, keeps_warnings (f x)) → keeps_warnings (io_for f xs).
Proof. intros Hf. induction xs; cbn; keep_warnings. Qed.

Section runs.
Context `{CryptoLaws} (random_nonce : nat → bytes) (s : WalSink).

Lemma write_payload_warnings p : keeps_warnings (write_payload random_nonce s p).
Proof.
  unfold write_payload. keep_warnings_at. unfold write_frame. keep_warnings.
Qed.

Lemma append_batch_warnings recs sq : keeps_warnings (append_batch random_nonce s recs sq).
Proof.
  unfold append_batch. apply bind_warnings.
  - unfold self_heal. intros w. destruct (_ =? _); [done|]. apply truncate_warnings.
  - intros _. unfold guarded, on_error. intros w.
    assert (keeps_warnings (write_batch random_nonce s recs sq)) as Hw.
    { unfold write_batch, write_commit_frame. keep_warnings; try apply sync_warnings.
      - apply io_for_warnings. intros x. apply write_payload_warnings.
      - apply write_payload_warnings. }
    specialize (Hw w). destruct (write_batch _ _ _ _ w) as [[a|e] w1]; cbn in *; [done|].
    unfold rollback_drop. pose proof (truncate_warnings (committed_len w) (committed_frames w) w1) as Ht.
    destruct (truncate_to _ _ w1) as [[]]; cbn in *; lia.
Qed.

Lemma run_appends_warnings bs w : (warned w <= warned (run_appends random_nonce s bs w).2)%nat.
Proof.
  revert w. induction bs as [|b bs IH]; intros w; cbn; [done|].
  pose proof (append_batch_warnings b.1 b.2 w). destruct (append_batch _ _ _ _ w) as [r w1]. cbn in *.
  specialize (IH w1). destruct (run_appends _ _ bs w1) as [acked w2]. cbn in *. lia.
Qed.

Hypothesis nonce_len : ∀ i, zlen (random_nonce i) = NONCE_LEN.

Lemma run_appends_clean bs before w acked w' : Forall batch_fits bs → clean s before w →
  run_appends random_nonce s bs w = (acked, w') → warned w' = warned w →
  clean s (before ++ acked) w' ∧ sublist acked bs.
Proof.
  intros Hfit. revert before w acked. induction Hfit as [|b bs Hb Hfit IH]; intros before w acked Hcl; cbn.
  { intros [= <- <-] _. rewrite app_nil_r. split; [done|constructor]. }
  destruct (append_batch random_nonce s b.1 b.2 w) as [r w1] eqn:E.
  destruct (run_appends random_nonce s bs w1) as [ack w2] eqn:E2. intros [= <- <-] Hw.
  pose proof (append_batch_warnings b.1 b.2 w) as Hm1. rewrite E in Hm1. cbn in Hm1.
  pose proof (run_appends_warnings bs w1) as Hm2. rewrite E2 in Hm2. cbn in Hm2.
  rewrite (append_batch_clean random_nonce s before b w Hcl) in E.
  apply (guarded_spec random_nonce s nonce_len before) in E as (Hok & Herr & _); [|done..].
  destruct r as [[]|e]; cbn.
  - destruct (Hok eq_refl) as [Hcl1 Hw1]. destruct (IH (before ++ [b]) w1 ack Hcl1 E2) as [Hcl2 Hs]; [lia|].
    rewrite <- app_assoc in Hcl2. split; [done|by constructor].
  - destruct (IH before w1 ack) as [Hcl2 Hs]; [apply Herr; [done|lia]|done|lia|].
    split; [done|by constructor].
Qed.
End runs.

(** ** Two batches: one with a record larger than the buffer, one small *)

Definition big_batch : batch :=
  ([Build_WalRecord 1 (UpsertNode (lit "P") (lit "id") (Value.Int 1)
      [(lit "x", Value.Str (repeat 97 (Z.to_nat 9000)))])], 1).

Definition small_batch : batch :=
  ([Build_WalRecord 2 (DeleteNode (lit "P") (lit "id") (Value.Int 1))], 2).

Lemma result_of {A} (p : result A * world) r : p.1 = r → p = (r, p.2).
Proof. by destruct p; cbn; intros ->. Qed.

#[export] Instance payload_fits_dec p : Decision (payload_fits p).
Proof. unfold payload_fits. apply _. Defined.

Lemma big_batch_ok : batch_ok big_batch ∧ batch_fits big_batch.
Proof.
  split.
  - split; [|by vm_compute]. constructor; [|done]. unfold record_ok, big_batch. cbn [seq op]. concrete_ok.
  - unfold batch_fits. apply (bool_decide_unpack _). vm_compute. exact I.
Qed.

Lemma small_batch_ok : batch_ok small_batch ∧ batch_fits small_batch.
Proof.
  split.
  - split; [|by vm_compute]. constructor; [|done]. unfold record_ok, small_batch. cbn [seq op]. concrete_ok.
  - unfold batch_fits. apply (bool_decide_unpack _). vm_compute. exact I.
Qed.

(** * Properties *)

Section properties.
Context `{CryptoLaws} (random_nonce : nat → bytes).

(** One call of [append_batch] on a clean segment, as the properties below need it. *)
Lemma append_batch_spec s acked b w r w' :
  (∀ i, zlen (random_nonce i) = NONCE_LEN) →
  Forall batch_ok acked → batch_ok b → batch_fits b → clean s acked w →
  append_batch random_nonce s b.1 b.2 w = (r, w') →
  (is_ok r = true → clean s (acked ++ [b]) w') ∧
  (is_ok r = false → warned w' = warned w → clean s acked w') ∧
  ∃ nt, trail w' = nt ++ trail w ∧
    ∀ e c, e ∈ nt → crash_image e c →
      replays_to s c acked ∨ replays_to s c (acked ++ [b]) ∨ (acked = [] ∧ zlen c < 8).
Proof.
  intros Hn Hacked Hb Hfit Hcl. rewrite (append_batch_clean random_nonce s acked b w Hcl). intros Hrun.
  apply (guarded_spec random_nonce s Hn acked) in Hrun as (Hok & Herr & qs & X & nt & Hq & HX & Ht & Hbt);
    [|done..].
  split; [by intros Hr; apply Hok|split; [done|]].
  exists nt. split; [done|]. intros e c He Hc.
  destruct (crash_between s acked w X nt e c Hcl Hbt He Hc) as [[H1 H2]|]; [|by right; right].
  destruct (replay_partial s acked b (data w) qs X c) as [|]; auto. apply Hcl.
Qed.

(** C1: A batch is atomic and its acknowledgement means durability, under any pattern of I/O
    errors and partial writes.  From a clean segment, an acknowledged batch leaves a clean,
    synced segment that replays to the old batches and this one; a refused batch whose
    rollback did not fail leaves the segment as it was; and a crash at any moment of the call
    leaves an image that replays to the old batches, with or without the whole new one
    (tearing the magic itself is possible only before anything was acknowledged).  A segment is
    clean while every rollback succeeded: after one that failed, a later acknowledgement may be
    lost ([double_fault_loses_acked]). *)
Theorem append_batch_atomic s acked b w r w' :
  (∀ i, zlen (random_nonce i) = NONCE_LEN) →
  Forall batch_ok acked → batch_ok b → batch_fits b → clean s acked w →
  append_batch random_nonce s b.1 b.2 w = (r, w') →
  (is_ok r = true → clean s (acked ++ [b]) w' ∧ synced w' = data w' ∧
    replay_bytes (data w') (sink_cipher s) replay_default
      = Ok (apply_batches replay_default (acked ++ [b]))) ∧
  (is_ok r = false → warned w' = warned w → clean s acked w' ∧
    replay_bytes (data w') (sink_cipher s) replay_default
      = Ok (apply_batches replay_default acked)) ∧
  ∃ nt, trail w' = nt ++ trail w ∧
    ∀ e c, e ∈ nt → crash_image e c →
      replay_bytes c (sink_cipher s) replay_default = Ok (apply_batches replay_default acked) ∨
      replay_bytes c (sink_cipher s) replay_default = Ok (apply_batches replay_default (acked ++ [b])) ∨
      (acked = [] ∧ zlen c < 8).
Proof.
  intros Hn Hacked Hb Hfit Hcl Hrun.
  destruct (append_batch_spec s acked b w r w') as (Hok & Herr & nt & Ht & Hcrash); [done..|].
  split; [|split].
  - intros Hr. pose proof (Hok Hr) as Hcl'. split; [done|]. split.
    + destruct (clean_synced _ _ _ Hcl') as [|[? _]]; [done|]. by destruct acked.
    + apply replay_image; [apply Forall_app; split; [done|by constructor]|apply Hcl'].
  - intros Hr Hw. split; [by apply Herr|]. apply replay_image; [done|]. by apply Herr.
  - exists nt. split; [done|]. intros e c He Hc.
    destruct (Hcrash e c He Hc) as [H'|[H'|H']]; [left; apply H'|right; left; apply H'|by right; right].
Qed.

(** C25: A segment from its creation on.  Whatever batches are appended to a fresh segment and
    whatever calls fail, as long as no rollback itself fails the segment replays to exactly
    the acknowledged batches, in order. *)
Theorem segment_replays_acked existed parent seg bc fl s bs w acked w' :
  (∀ i, zlen (random_nonce i) = NONCE_LEN) → Forall batch_ok bs → Forall batch_fits bs →
  create existed parent seg bc (fresh fl) = (Ok s, w) →
  run_appends random_nonce s bs w = (acked, w') → warned w' = O →
  replay_segment (segment_file_name seg) (data w') bc = Ok (apply_batches replay_default acked) ∧
  sublist acked bs.
Proof.
  intros Hn Hbs Hfit Hcr Hrun Hw. apply create_clean in Hcr as (Hcl & Hw0 & _ & Hsc).
  destruct (run_appends_clean random_nonce s Hn bs [] w acked w') as [Hcl' Hsub];
    [done..|congruence|].
  split; [|done]. unfold replay_segment, segment_cipher. cbn [mbind result_bind]. rewrite <- Hsc.
  apply replay_image; [|apply Hcl']. by eapply sublist_Forall.
Qed.

(** Recovery from a failed rollback.  When the lengths still show that a rollback failed,
    the next batch first restores the acknowledged image: it is acknowledged only on top of
    exactly the batches acknowledged before, and a refusal leaves the image intact. *)
Theorem self_heal_recovers s acked b w r w' :
  (∀ i, zlen (random_nonce i) = NONCE_LEN) → batch_fits b → dirty s acked w →
  append_batch random_nonce s b.1 b.2 w = (r, w') →
  (is_ok r = true → clean s (acked ++ [b]) w') ∧
  (is_ok r = false → warned w' = warned w → clean s acked w' ∨ dirty s acked w').
Proof.
  intros Hn Hfit [(D & Hi & Ha & Hl) Hf Hne] Hrun. unfold append_batch in Hrun.
  assert (self_heal w = truncate_to (zlen D) (committed_frames w) w) as Eh.
  { unfold self_heal. rewrite (proj2 (Z.eqb_neq _ _)) by done. by rewrite Hl. }
  apply io_bind_inv in Hrun as [([] & w1 & E & Hrun)|(e & E & ->)]; rewrite Eh in E.
  - destruct (restore_clean s acked D (committed_frames w) w (Ok tt) w1) as [Hcl Hw]; try done.
    apply (guarded_spec random_nonce s Hn acked) in Hrun as (Hok & Herr & _); [|done..].
    split; [intros Hr; by apply Hok|]. intros Hr Hwn. left. apply Herr; [done|lia].
  - apply (truncate_spec D) in E as ((Hcl & Hcf & _) & _ & Herr); [|done].
    destruct (Herr eq_refl) as [Ha' [Hc1 Hc2]]. split; [done|]. intros _ _. right.
    split; [exists D; split_and!; [done|done|congruence]|congruence|congruence].
Qed.

(** The limit of that recovery, as an execution of the code.  A first record too large for
    the buffer is written in part and fails before the length is advanced, and the rollback's
    truncate fails as well; the lengths agree, nothing is repaired, and the next batch is
    acknowledged and fsynced behind the debris, where replay does not find it. *)
Theorem double_fault_loses_acked :
  ∃ fl s w0 b1 b2 w1 w2,
    batch_ok b1 ∧ batch_fits b1 ∧ batch_ok b2 ∧ batch_fits b2 ∧ b2.1 ≠ [] ∧
    create true true 1 None (fresh fl) = (Ok s, w0) ∧
    append_batch random_nonce s b1.1 b1.2 w0 = (Err IoError, w1) ∧
    append_batch random_nonce s b2.1 b2.2 w1 = (Ok tt, w2) ∧ synced w2 = data w2 ∧
    replay_segment (segment_file_name 1) (data w2) None = Ok replay_default.
Proof.
  set (fl := [Works; Works; Works; Works; Works; FailsAfter 100; FailsAfter 0]).
  set (s := Build_WalSink 1 None).
  set (w0 := (create true true 1 None (fresh fl)).2).
  set (w1 := (append_batch random_nonce s big_batch.1 big_batch.2 w0).2).
  set (w2 := (append_batch random_nonce s small_batch.1 small_batch.2 w1).2).
  exists fl, s, w0, big_batch, small_batch, w1, w2.
  do 2 (split; [apply big_batch_ok|]). do 2 (split; [apply small_batch_ok|]). split; [done|].
  split; [exact (result_of (create true true 1 None (fresh fl)) (Ok s)
    ltac:(vm_compute; reflexivity))|].
  split; [exact (result_of (append_batch random_nonce s big_batch.1 big_batch.2 w0) (Err IoError)
    ltac:(vm_compute; reflexivity))|].
  split; [exact (result_of (append_batch random_nonce s small_batch.1 small_batch.2 w1) (Ok tt)
    ltac:(vm_compute; reflexivity))|].
  split; vm_compute; reflexivity.
Qed.
End properties.

(** * Witnesses *)

Section witnesses.
#[local] Existing Instance toy_crypto.
#[local] Existing Instance toy_crypto_laws.

Definition zero_nonce (_ : nat) : bytes := repeat 0 24.
Definition example_sink : WalSink := Build_WalSink 1 None.
Definition example_world (fl : list outcome) : world := (create true true 1 None (fresh fl)).2.

Lemma example_create : create true true 1 None (fresh []) = (Ok example_sink, example_world []).
Proof. exact (result_of (create true true 1 None (fresh [])) (Ok example_sink) eq_refl). Qed.

Lemma example_clean : clean example_sink [] (example_world []).
Proof. apply (create_clean true true 1 None [] example_sink), example_create. Qed.

Lemma append_batch_atomic_witness :
  let '(r, w') := append_batch zero_nonce example_sink small_batch.1 small_batch.2 (example_world []) in
  is_ok r = true ∧
  replay_bytes (data w') None replay_default = Ok (apply_batches replay_default [small_batch]).
Proof.
  destruct (append_batch zero_nonce example_sink small_batch.1 small_batch.2 (example_world []))
    as [r w'] eqn:E.
  assert (is_ok r = true) as Hr by (apply (f_equal fst) in E; cbn in E; by rewrite <- E; vm_compute).
  split; [done|].
  apply (append_batch_atomic zero_nonce example_sink [] small_batch (example_world []) r w');
    [done|constructor|apply small_batch_ok|apply small_batch_ok|apply example_clean|done|done].
Defined.

Lemma segment_replays_acked_witness :
  let '(acked, w') := run_appends zero_nonce example_sink [small_batch] (example_world []) in
  acked = [small_batch] ∧
  replay_segment (segment_file_name 1) (data w') None = Ok (apply_batches replay_default acked).
Proof.
  destruct (run_appends zero_nonce example_sink [small_batch] (example_world [])) as [acked w'] eqn:E.
  split; [apply (f_equal fst) in E; by vm_compute in E|].
  apply (segment_replays_acked zero_nonce true true 1 None [] example_sink [small_batch]
    (example_world []) acked w');
    [done|by repeat constructor; apply small_batch_ok|by repeat constructor; apply small_batch_ok
    |apply example_create|done|apply (f_equal (λ p, warned p.2)) in E; by vm_compute in E].
Defined.

(** The file after a batch whose rollback failed with its frames in place. *)
Definition example_dirty : world :=
  Build_world (WAL_MAGIC ++ [9; 9]) 10 WAL_MAGIC [] [] 0 1 [] 8 10 0 1.

Lemma example_dirty_ok : dirty example_sink [] example_dirty.
Proof.
  split; [|done|done]. exists WAL_MAGIC. split_and!; [|split; [by exists [9; 9]|cbn; lia]|done].
  exists []. split; [constructor|done].
Qed.

End witnesses.
