(* ===== verification/NodeDelta.v ===== *)
(** Per-node and per-edge deltas and how they fold: [NodeDelta], [EdgeDelta], [fold_newer],
    [fold_delta_edge] and [apply_edge_patches] of [slater-delta/src/memtable.rs].

    The memtable mutates a node's delta with five operations; they are definitions of their
    own here, used by the memtable model.  The specification is what a reader sees: the
    properties and labels of the core row with the delta laid over it ([node_view]). *)

From S2P Require Import Prelude Values Wire.

Abbreviation props := (gmap str Value.t) (only parsing).

Record NodeDelta := mkNodeDelta {
  patches : gmap (list Z) Value.t;
  removed : gset (list Z);
  replaced : bool;
  labels_added : gset (list Z);
  labels_removed : gset (list Z);
  tombstoned : bool;
}.

Record EdgeDelta := mkEdgeDelta {
  e_patches : gmap (list Z) Value.t;
  e_replaced : bool;
  e_tombstoned : bool;
}.

Module NodeDelta.

Definition default : NodeDelta := mkNodeDelta ∅ ∅ false ∅ ∅ false.

Definition is_meaningful (d : NodeDelta) : bool :=
  tombstoned d || replaced d || bool_decide (patches d ≠ ∅) || bool_decide (removed d ≠ ∅)
  || bool_decide (labels_added d ≠ ∅) || bool_decide (labels_removed d ≠ ∅).

(** ** The loop bodies of the mutators *)

(** [removed.remove(&name); patches.insert(name, val)]. *)
Definition set_prop (d : NodeDelta) (p : str * Value.t) : NodeDelta :=
  mkNodeDelta (<[p.1 := p.2]> (patches d)) (removed d ∖ {[p.1]}) (replaced d)
    (labels_added d) (labels_removed d) (tombstoned d).

(** [patches.remove(&name); if !replaced { removed.insert(name) }]. *)
Definition remove_prop (d : NodeDelta) (name : str) : NodeDelta :=
  mkNodeDelta (delete name (patches d))
    (if replaced d then removed d else {[name]} ∪ removed d) (replaced d)
    (labels_added d) (labels_removed d) (tombstoned d).

Definition add_label (d : NodeDelta) (l : str) : NodeDelta :=
  mkNodeDelta (patches d) (removed d) (replaced d)
    ({[l]} ∪ labels_added d) (labels_removed d ∖ {[l]}) (tombstoned d).

Definition drop_label (d : NodeDelta) (l : str) : NodeDelta :=
  mkNodeDelta (patches d) (removed d) (replaced d)
    (labels_added d ∖ {[l]}) ({[l]} ∪ labels_removed d) (tombstoned d).

(** ** The mutators, on one delta *)

Definition resurrect (d : NodeDelta) : NodeDelta :=
  mkNodeDelta (patches d) (removed d) (replaced d) (labels_added d) (labels_removed d) false.

Definition upsert (ps : list (str * Value.t)) (d : NodeDelta) : NodeDelta :=
  foldl set_prop d ps.

Definition remove_props (ns : list str) (d : NodeDelta) : NodeDelta := foldl remove_prop d ns.

(** [replaced = true; removed.clear(); patches.clear()], then the inserts. *)
Definition replace (ps : list (str * Value.t)) (d : NodeDelta) : NodeDelta :=
  foldl (λ d p, mkNodeDelta (<[p.1 := p.2]> (patches d)) (removed d) (replaced d)
                  (labels_added d) (labels_removed d) (tombstoned d))
    (mkNodeDelta ∅ ∅ true (labels_added d) (labels_removed d) (tombstoned d)) ps.

Definition set_labels (added dropped : list str) (d : NodeDelta) : NodeDelta :=
  foldl drop_label (foldl add_label d added) dropped.

Definition tombstone (d : NodeDelta) : NodeDelta := mkNodeDelta ∅ ∅ false ∅ ∅ true.

(** ** The cross-level fold *)

(** A [BTreeSet] or [BTreeMap] is walked through the list of its elements. *)
Definition fold_newer (d newer : NodeDelta) : NodeDelta :=
  if tombstoned newer then tombstone d
  else
    let d := resurrect d in
    let d := foldl add_label d (elements (labels_added newer)) in
    let d := foldl drop_label d (elements (labels_removed newer)) in
    if replaced newer then
      mkNodeDelta (patches newer) ∅ true (labels_added d) (labels_removed d) (tombstoned d)
    else
      let d := foldl remove_prop d (elements (removed newer)) in
      foldl set_prop d (map_to_list (patches newer)).

End NodeDelta.

Module EdgeDelta.

Definition default : EdgeDelta := mkEdgeDelta ∅ false false.

(** [fold_delta_edge] on its three accumulators. *)
Definition fold (d src : EdgeDelta) : EdgeDelta :=
  if e_tombstoned src then mkEdgeDelta ∅ false true
  else
    let d := if e_replaced src then mkEdgeDelta ∅ true false
             else mkEdgeDelta (e_patches d) (e_replaced d) false in
    foldl (λ d p, mkEdgeDelta (<[p.1 := p.2]> (e_patches d)) (e_replaced d) (e_tombstoned d))
      d (map_to_list (e_patches src)).

(** [apply_edge_patches] on the entry's delta; the identifying property is re-seeded last. *)
Definition apply_patches (edge_key : option (str * Value.t)) (replace : bool)
    (ps : list (str * Value.t)) (d : EdgeDelta) : EdgeDelta :=
  let d := if replace then mkEdgeDelta ∅ true (e_tombstoned d) else d in
  let insert d p := mkEdgeDelta (<[p.1 := p.2]> (e_patches d)) (e_replaced d) (e_tombstoned d) in
  let d := foldl insert d ps in
  match edge_key with Some p => insert d p | None => d end.

End EdgeDelta.

(** The byte estimate charged for a value, and for the patches of one edge write. *)
Fixpoint value_size (v : Value.t) : Z :=
  match v with
  | Value.Null | Value.Bool _ => 1
  | Value.Int _ | Value.Float _ => 8
  | Value.Str s => zlen s
  | Value.List l =>
      (fix go (l : list Value.t) : Z := match l with [] => 0 | v :: l => value_size v + go l end) l + 8
  | Value.Vector xs => zlen xs * 4
  end.

Definition patch_bytes (ps : list (str * Value.t)) : Z :=
  foldl (λ n p, n + zlen p.1 + value_size p.2) 0 ps.

Definition names_bytes (ns : list str) : Z := foldl (λ n s, n + zlen s) 0 ns.

(** * What a reader sees *)

Import NodeDelta.

(** [(replaced ? {} : core) − removed + patches], one property at a time. *)
Definition eff_prop (core : str → option Value.t) (d : NodeDelta) (k : str) : option Value.t :=
  match patches d !! k with
  | Some v => Some v
  | None => if replaced d then None else if bool_decide (k ∈ removed d) then None else core k
  end.

(** The core labels, without the dropped and with the added ones. *)
Definition eff_label (core : str → bool) (d : NodeDelta) (l : str) : bool :=
  bool_decide (l ∈ labels_added d) || negb (bool_decide (l ∈ labels_removed d)) && core l.

(** [(replaced ? {} : core) + patches] for an edge. *)
Definition eff_edge_prop (core : str → option Value.t) (d : EdgeDelta) (k : str) : option Value.t :=
  match e_patches d !! k with
  | Some v => Some v
  | None => if e_replaced d then None else core k
  end.

(** The documented invariants: a name is patched or removed, never both; likewise labels; a
    tombstone carries nothing else, and a replace-all no removals. *)
Record delta_wf (d : NodeDelta) : Prop := {
  wf_props : ∀ k, is_Some (patches d !! k) → k ∉ removed d;
  wf_labels : labels_added d ## labels_removed d;
  wf_tombstone : tombstoned d = true →
    patches d = ∅ ∧ removed d = ∅ ∧ replaced d = false ∧ labels_added d = ∅ ∧ labels_removed d = ∅;
  wf_replaced : replaced d = true → removed d = ∅;
}.

(** ** The node operations and their meaning *)

Inductive node_op :=
  | OpSet (ps : list (str * Value.t))
  | OpRemove (ns : list str)
  | OpReplace (ps : list (str * Value.t))
  | OpLabels (added dropped : list str)
  | OpDelete.

(** What a memtable operation does to a node's delta: every write but a delete resurrects. *)
Definition delta_step (d : NodeDelta) (o : node_op) : NodeDelta :=
  match o with
  | OpSet ps => upsert ps (resurrect d)
  | OpRemove ns => remove_props ns (resurrect d)
  | OpReplace ps => replace ps (resurrect d)
  | OpLabels a r => set_labels a r (resurrect d)
  | OpDelete => tombstone d
  end.

Definition delta_run (ops : list node_op) : NodeDelta := foldl delta_step NodeDelta.default ops.

(** The specification: a live flag, and the properties and labels themselves. *)
Record view := mkView { alive : bool; vprop : str → option Value.t; vlabel : str → bool }.

Definition set_key {A} (k : str) (a : A) (f : str → A) : str → A :=
  λ x, if bool_decide (x = k) then a else f x.

Definition spec_step (core : view) (v : view) (o : node_op) : view :=
  match o with
  | OpSet ps => mkView true (foldl (λ f p, set_key p.1 (Some p.2) f) (vprop v) ps) (vlabel v)
  | OpRemove ns => mkView true (foldl (λ f n, set_key n None f) (vprop v) ns) (vlabel v)
  | OpReplace ps => mkView true (foldl (λ f p, set_key p.1 (Some p.2) f) (λ _, None) ps) (vlabel v)
  | OpLabels a r =>
      mkView true (vprop v)
        (foldl (λ f l, set_key l false f) (foldl (λ f l, set_key l true f) (vlabel v) a) r)
  | OpDelete => mkView false (vprop core) (vlabel core)
  end.

Definition spec_run (core : view) (v : view) (ops : list node_op) : view :=
  foldl (spec_step core) v ops.

(** The reader's view of a delta over a core row. *)
Definition view_of (core : view) (d : NodeDelta) : view :=
  mkView (negb (tombstoned d)) (eff_prop (vprop core) d) (eff_label (vlabel core) d).

(** Views are compared pointwise. *)
Definition view_eq (v w : view) : Prop :=
  alive v = alive w ∧ (∀ k, vprop v k = vprop w k) ∧ ∀ l, vlabel v l = vlabel w l.

#[export] Instance view_eq_equiv : Equivalence view_eq.
Proof.
  split.
  - by intros v.
  - intros v w (?&?&?). split_and!; intros; symmetry; auto.
  - intros u v w (E1&E2&E3) (F1&F2&F3). split_and!; [congruence|intros; by rewrite E2|intros; by rewrite E3].
Qed.

(** * Lemmas *)

Create HintDb delta.

Lemma eff_set_prop core d p k :
  eff_prop core (set_prop d p) k = set_key p.1 (Some p.2) (eff_prop core d) k.
Proof.
  unfold eff_prop, set_key, set_prop. cbn. destruct (bool_decide_reflect (k = p.1)) as [->|E].
  - by rewrite lookup_insert_eq.
  - rewrite lookup_insert_ne by done. destruct (patches d !! k); [done|].
    destruct (replaced d); [done|].
    replace (bool_decide (k ∈ removed d ∖ {[p.1]})) with (bool_decide (k ∈ removed d)); [done|].
    apply bool_decide_ext. rewrite elem_of_difference, elem_of_singleton. tauto.
Qed.

Lemma eff_remove_prop core d n k :
  eff_prop core (remove_prop d n) k = set_key n None (eff_prop core d) k.
Proof.
  unfold eff_prop, set_key, remove_prop. cbn. destruct (bool_decide_reflect (k = n)) as [->|E].
  - rewrite lookup_delete_eq. destruct (replaced d); [done|].
    rewrite bool_decide_eq_true_2; [done|]. apply elem_of_union_l, elem_of_singleton. done.
  - rewrite lookup_delete_ne by done. destruct (patches d !! k); [done|].
    destruct (replaced d); [done|].
    replace (bool_decide (k ∈ {[n]} ∪ removed d)) with (bool_decide (k ∈ removed d)); [done|].
    apply bool_decide_ext. rewrite elem_of_union, elem_of_singleton. tauto.
Qed.

Lemma eff_add_label core d l x : eff_label core (add_label d l) x = set_key l true (eff_label core d) x.
Proof.
  unfold eff_label, set_key, add_label. cbn. destruct (bool_decide_reflect (x = l)) as [->|E].
  - rewrite bool_decide_eq_true_2; [done|]. by apply elem_of_union_l, elem_of_singleton.
  - f_equal; [|f_equal; f_equal]; apply bool_decide_ext;
      rewrite ?elem_of_union, ?elem_of_difference, elem_of_singleton; tauto.
Qed.

Lemma eff_drop_label core d l x : eff_label core (drop_label d l) x = set_key l false (eff_label core d) x.
Proof.
  unfold eff_label, set_key, drop_label. cbn. destruct (bool_decide_reflect (x = l)) as [->|E].
  - rewrite bool_decide_eq_false_2 by (rewrite elem_of_difference, elem_of_singleton; tauto).
    rewrite bool_decide_eq_true_2; [done|]. by apply elem_of_union_l, elem_of_singleton.
  - f_equal; [|f_equal; f_equal]; apply bool_decide_ext;
      rewrite ?elem_of_union, ?elem_of_difference, elem_of_singleton; tauto.
Qed.

(** The fields a loop body leaves alone stay as they are along the loop. *)
Lemma foldl_keeps {A B C} (P : A → C) (f : A → B → A) (xs : list B) a :
  (∀ a b, P (f a b) = P a) → P (foldl f a xs) = P a.
Proof. intros Hf. revert a. induction xs as [|x xs IH]; intros a; cbn; [done|]. by rewrite IH, Hf. Qed.

Definition pointwise {B C} (g : (str → C) → B → str → C) : Prop :=
  ∀ h h' b k, (∀ k, h k = h' k) → g h b k = g h' b k.

Lemma foldl_pointwise {B C} (g : (str → C) → B → str → C) xs h h' k :
  pointwise g → (∀ k, h k = h' k) → foldl g h xs k = foldl g h' xs k.
Proof.
  intros Hg. revert h h'. induction xs as [|x xs IH]; intros h h' Hh; cbn; [done|].
  apply IH. intros j. by apply Hg.
Qed.

(** A loop whose body simulates [g] on the view simulates the loop of [g]. *)
Lemma foldl_view {A B C} (P : A → str → C) (f : A → B → A) (g : (str → C) → B → str → C) xs a k :
  pointwise g → (∀ a b k, P (f a b) k = g (P a) b k) → P (foldl f a xs) k = foldl g (P a) xs k.
Proof.
  intros Hg Hf. revert a. induction xs as [|x xs IH]; intros a; cbn; [done|]. rewrite IH.
  apply foldl_pointwise; [done|]. intros j. apply Hf.
Qed.

Lemma set_key_ext {A B} (key : B → str) (a : B → A) :
  pointwise (λ f b, set_key (key b) (a b) f).
Proof. intros h h' b x E. unfold set_key. by rewrite E. Qed.
#[export] Hint Resolve set_key_ext : delta.

(** The parts of a delta that labels, and that properties, are read from. *)
Definition eff_label_part (d : NodeDelta) : gset str * gset str * bool :=
  (labels_added d, labels_removed d, tombstoned d).
Definition eff_prop_part (d : NodeDelta) : gmap str Value.t * gset str * bool * bool :=
  (patches d, removed d, replaced d, tombstoned d).

Lemma eff_label_of core d d' l :
  eff_label_part d = eff_label_part d' → eff_label core d l = eff_label core d' l ∧ tombstoned d = tombstoned d'.
Proof. intros [= E1 E2 E3]. unfold eff_label. by rewrite E1, E2, E3. Qed.

Lemma eff_prop_of core d d' k :
  eff_prop_part d = eff_prop_part d' → eff_prop core d k = eff_prop core d' k ∧ tombstoned d = tombstoned d'.
Proof. intros [= E1 E2 E3 E4]. unfold eff_prop. by rewrite E1, E2, E3, E4. Qed.

(** ** Each operation means what the specification says *)

Abbreviation put_all := (foldl (λ f p, set_key p.1 (Some p.2) f)) (only parsing).

Lemma eff_upsert core d ps k : eff_prop core (upsert ps d) k = put_all (eff_prop core d) ps k.
Proof.
  apply (foldl_view (eff_prop core)); [apply (set_key_ext fst (λ p, Some p.2))|intros; apply eff_set_prop].
Qed.

Lemma eff_remove_props core d ns k :
  eff_prop core (remove_props ns d) k = foldl (λ f n, set_key n None f) (eff_prop core d) ns k.
Proof.
  apply (foldl_view (eff_prop core)); [apply (set_key_ext id (λ _, None))|intros; apply eff_remove_prop].
Qed.

Lemma eff_replace core d ps k : eff_prop core (replace ps d) k = put_all (λ _, None) ps k.
Proof.
  unfold replace. rewrite (foldl_view (eff_prop core) _ (λ f p, set_key p.1 (Some p.2) f)).
  - apply foldl_pointwise; [apply (set_key_ext fst (λ p, Some p.2))|].
    intros x. unfold eff_prop. cbn. by rewrite lookup_empty.
  - apply (set_key_ext fst (λ p, Some p.2)).
  - intros a p x. unfold eff_prop, set_key. cbn. destruct (bool_decide_reflect (x = p.1)) as [->|E].
    + by rewrite lookup_insert_eq.
    + by rewrite lookup_insert_ne.
Qed.

Lemma eff_set_labels core d a r l :
  eff_label core (set_labels a r d) l =
  foldl (λ f l, set_key l false f) (foldl (λ f l, set_key l true f) (eff_label core d) a) r l.
Proof.
  unfold set_labels. rewrite (foldl_view (eff_label core) _ (λ f l, set_key l false f));
    [|apply (set_key_ext id (λ _, false))|intros; apply eff_drop_label].
  apply foldl_pointwise; [apply (set_key_ext id (λ _, false))|]. intros k.
  apply (foldl_view (eff_label core)); [apply (set_key_ext id (λ _, true))|intros; apply eff_add_label].
Qed.

(** What each operation leaves of the other parts of a delta. *)
Lemma upsert_keeps ps d : eff_label_part (upsert ps d) = eff_label_part d.
Proof. by apply (foldl_keeps eff_label_part). Qed.
Lemma remove_props_keeps ns d : eff_label_part (remove_props ns d) = eff_label_part d.
Proof. by apply (foldl_keeps eff_label_part). Qed.
Lemma replace_keeps ps d : eff_label_part (replace ps d) = eff_label_part d.
Proof. unfold replace. by rewrite (foldl_keeps eff_label_part). Qed.
Lemma set_labels_keeps a r d : eff_prop_part (set_labels a r d) = eff_prop_part d.
Proof. unfold set_labels. by rewrite !(foldl_keeps eff_prop_part). Qed.

Lemma delta_step_view core d o :
  view_eq (view_of core (delta_step d o)) (spec_step core (view_of core d) o).
Proof.
  destruct o as [ps|ns|ps|a r|]; cbn [delta_step spec_step]; unfold view_of; (split; [|split]);
    cbn [alive vprop vlabel].
  - by rewrite (proj2 (eff_label_of (vlabel core) _ _ [] (upsert_keeps ps (resurrect d)))).
  - intros k. etrans; [apply eff_upsert|reflexivity].
  - intros l. by rewrite (proj1 (eff_label_of _ _ _ l (upsert_keeps ps (resurrect d)))).
  - by rewrite (proj2 (eff_label_of (vlabel core) _ _ [] (remove_props_keeps ns (resurrect d)))).
  - intros k. etrans; [apply eff_remove_props|reflexivity].
  - intros l. by rewrite (proj1 (eff_label_of _ _ _ l (remove_props_keeps ns (resurrect d)))).
  - by rewrite (proj2 (eff_label_of (vlabel core) _ _ [] (replace_keeps ps (resurrect d)))).
  - intros k. apply eff_replace.
  - intros l. by rewrite (proj1 (eff_label_of _ _ _ l (replace_keeps ps (resurrect d)))).
  - by rewrite (proj2 (eff_prop_of (vprop core) _ _ [] (set_labels_keeps a r (resurrect d)))).
  - intros k. by rewrite (proj1 (eff_prop_of _ _ _ k (set_labels_keeps a r (resurrect d)))).
  - intros l. etrans; [apply eff_set_labels|reflexivity].
  - done.
  - intros k. unfold eff_prop. cbn. by rewrite lookup_empty.
  - intros l. done.
Qed.

#[export] Instance spec_step_proper core : Proper (view_eq ==> eq ==> view_eq) (spec_step core).
Proof.
  intros v w (Ea & Ep & El) o _ <-. destruct o as [ps|ns|ps|a r|]; cbn; (split; [done|split]);
    cbn [vprop vlabel]; intros k; try done; auto.
  - apply foldl_pointwise; [apply (set_key_ext fst (λ p, Some p.2))|done].
  - apply foldl_pointwise; [apply (set_key_ext id (λ _, None))|done].
  - apply foldl_pointwise; [apply (set_key_ext id (λ _, false))|]. intros j.
    apply foldl_pointwise; [apply (set_key_ext id (λ _, true))|done].
Qed.

#[export] Instance spec_run_proper core : Proper (view_eq ==> eq ==> view_eq) (spec_run core).
Proof.
  intros v w E ops _ <-. revert v w E. induction ops as [|o ops IH]; intros v w E; cbn; [done|].
  apply IH. by rewrite E.
Qed.

Lemma delta_run_view core d ops :
  view_eq (view_of core (foldl delta_step d ops)) (spec_run core (view_of core d) ops).
Proof.
  revert d. induction ops as [|o ops IH]; intros d; cbn; [done|].
  rewrite IH. apply spec_run_proper; [apply delta_step_view|done].
Qed.

(** ** The fold lays the newer delta over the older view *)

Lemma put_all_lookup (l : list (str * Value.t)) (f : str → option Value.t) k : NoDup l.*1 →
  put_all f l k = match (list_to_map l : gmap str Value.t) !! k with Some v => Some v | None => f k end.
Proof.
  revert f. induction l as [|[a v] l IH]; intros f Hnd; cbn; [by rewrite lookup_empty|].
  apply NoDup_cons in Hnd as [Hni Hnd]. rewrite IH by done. unfold set_key. cbn.
  destruct (bool_decide_reflect (k = a)) as [->|Hne].
  - rewrite lookup_insert_eq, not_elem_of_list_to_map_1; done.
  - by rewrite lookup_insert_ne.
Qed.

Lemma set_all_lookup {A} (a : A) (l : list str) f k :
  foldl (λ f n, set_key n a f) f l k = if bool_decide (k ∈ l) then a else f k.
Proof.
  revert f. induction l as [|n l IH]; intros f; cbn.
  - rewrite bool_decide_eq_false_2; [done|apply not_elem_of_nil].
  - rewrite IH. unfold set_key. destruct (bool_decide_reflect (k ∈ l)) as [Hin|Hni].
    + rewrite bool_decide_eq_true_2; [done|by right].
    + destruct (bool_decide_reflect (k = n)) as [->|Hne].
      * rewrite bool_decide_eq_true_2; [done|left].
      * rewrite bool_decide_eq_false_2; [done|]. intros [?|?]%elem_of_cons; done.
Qed.

(** The labels of a fold, before and after the property part. *)
Definition fold_labels (d newer : NodeDelta) : NodeDelta :=
  foldl drop_label (foldl add_label (resurrect d) (elements (labels_added newer)))
    (elements (labels_removed newer)).

Lemma fold_labels_part d newer :
  tombstoned newer = false → eff_label_part (fold_newer d newer) = eff_label_part (fold_labels d newer).
Proof.
  intros Ht. unfold fold_newer. rewrite Ht. fold (fold_labels d newer). destruct (replaced newer); [done|].
  by rewrite !(foldl_keeps eff_label_part).
Qed.

Lemma fold_newer_props core d newer k : tombstoned newer = false →
  eff_prop core (fold_newer d newer) k = eff_prop (eff_prop core d) newer k.
Proof.
  intros Ht. unfold fold_newer. rewrite Ht. fold (fold_labels d newer).
  assert (eff_prop_part (fold_labels d newer) = eff_prop_part (resurrect d)) as Hp.
  { unfold fold_labels. by rewrite !(foldl_keeps eff_prop_part). }
  destruct (replaced newer) eqn:Hr.
  { unfold eff_prop at 1 2. cbn. rewrite Hr. by destruct (patches newer !! k). }
  change (foldl set_prop ?d ?l) with (upsert l d). change (foldl remove_prop ?d ?l) with (remove_props l d).
  rewrite eff_upsert, put_all_lookup, list_to_map_to_list, eff_remove_props, set_all_lookup
    by apply NoDup_fst_map_to_list.
  rewrite (proj1 (eff_prop_of core _ _ k Hp)). unfold eff_prop at 2. rewrite Hr.
  destruct (patches newer !! k); [done|].
  replace (bool_decide (k ∈ elements (removed newer))) with (bool_decide (k ∈ removed newer)); [done|].
  apply bool_decide_ext. by rewrite elem_of_elements.
Qed.

Lemma fold_newer_labels core d newer l : tombstoned newer = false → delta_wf newer →
  eff_label core (fold_newer d newer) l = eff_label (eff_label core d) newer l.
Proof.
  intros Ht Hwf. rewrite (proj1 (eff_label_of core _ _ l (fold_labels_part d newer Ht))).
  unfold fold_labels. change (foldl drop_label (foldl add_label ?d ?a) ?r) with (set_labels a r d).
  rewrite eff_set_labels, !set_all_lookup. unfold eff_label at 2.
  assert (∀ (X : gset str), bool_decide (l ∈ elements X) = bool_decide (l ∈ X)) as He.
  { intros X. apply bool_decide_ext. by rewrite elem_of_elements. }
  rewrite !He. change (eff_label core (resurrect d) l) with (eff_label core d l).
  destruct (bool_decide_reflect (l ∈ labels_added newer)) as [Ha|Ha],
    (bool_decide_reflect (l ∈ labels_removed newer)) as [Hr|Hr]; cbn; try done.
  exfalso. by apply (wf_labels _ Hwf l).
Qed.

Lemma fold_newer_live d newer : tombstoned (fold_newer d newer) = tombstoned newer.
Proof.
  destruct (tombstoned newer) eqn:Ht; [unfold fold_newer; by rewrite Ht|].
  rewrite (proj2 (eff_label_of (λ _, false) _ _ [] (fold_labels_part d newer Ht))).
  unfold fold_labels. by rewrite !(foldl_keeps tombstoned).
Qed.

(** ** The invariant *)

Lemma set_prop_wf d p : delta_wf d → tombstoned d = false → delta_wf (set_prop d p).
Proof.
  intros [Hp Hl Ht Hr] Hd.
  split; cbn; [|done|congruence|intros E; by rewrite Hr, empty_difference_L by done]. intros k Hk.
  rewrite elem_of_difference, elem_of_singleton. destruct (decide (k = p.1)) as [->|Hne]; [tauto|].
  rewrite lookup_insert_ne in Hk by done. specialize (Hp k Hk). tauto.
Qed.

Lemma remove_prop_wf d n : delta_wf d → tombstoned d = false → delta_wf (remove_prop d n).
Proof.
  intros [Hp Hl Ht Hr] Hd. split; cbn; [|done|congruence|intros E; rewrite E; auto]. intros k Hk.
  apply lookup_delete_is_Some in Hk as [Hne Hk]. specialize (Hp k Hk).
  destruct (replaced d); [done|]. rewrite elem_of_union, elem_of_singleton. intros [?|?]; [congruence|done].
Qed.

Lemma add_label_wf d l : delta_wf d → tombstoned d = false → delta_wf (add_label d l).
Proof.
  intros [Hp Hl Ht Hr] Hd. split; cbn; [done| |congruence|done]. intros x.
  rewrite elem_of_union, elem_of_difference, elem_of_singleton. specialize (Hl x). tauto.
Qed.

Lemma drop_label_wf d l : delta_wf d → tombstoned d = false → delta_wf (drop_label d l).
Proof.
  intros [Hp Hl Ht Hr] Hd. split; cbn; [done| |congruence|done]. intros x.
  rewrite elem_of_union, elem_of_difference, elem_of_singleton. specialize (Hl x). tauto.
Qed.

(** A loop keeps a live well-formed delta live and well-formed when its body does. *)
Lemma foldl_wf {B} (f : NodeDelta → B → NodeDelta) xs d :
  (∀ d b, delta_wf d → tombstoned d = false → delta_wf (f d b)) →
  (∀ d b, tombstoned (f d b) = tombstoned d) →
  delta_wf d → tombstoned d = false → delta_wf (foldl f d xs) ∧ tombstoned (foldl f d xs) = false.
Proof.
  intros Hf Ht. revert d. induction xs as [|x xs IH]; intros d Hw Hd; cbn; [done|].
  apply IH; [by apply Hf|by rewrite Ht].
Qed.

Lemma resurrect_wf d : delta_wf d → delta_wf (resurrect d).
Proof. intros [Hp Hl _ Hr]. by split. Qed.

Lemma replace_wf ps d : delta_wf d → tombstoned d = false → delta_wf (replace ps d).
Proof.
  intros [_ Hl _ _] Ht. pose proof (replace_keeps ps d) as [= Ea Er Et].
  assert (removed (replace ps d) = ∅) as Hr by (unfold replace; by rewrite (foldl_keeps removed)).
  split; [|by rewrite Ea, Er|congruence|done]. intros k _. rewrite Hr. apply not_elem_of_empty.
Qed.

Lemma tombstone_wf d : delta_wf (tombstone d).
Proof. split; cbn; [intros k _; apply not_elem_of_empty|apply disjoint_empty_l|done..]. Qed.

Lemma default_wf : delta_wf NodeDelta.default.
Proof. split; cbn; [intros k _; apply not_elem_of_empty|apply disjoint_empty_l|done..]. Qed.

Lemma set_labels_wf a r d : delta_wf d → tombstoned d = false →
  delta_wf (set_labels a r d) ∧ tombstoned (set_labels a r d) = false.
Proof.
  intros Hw Ht. destruct (foldl_wf add_label a d) as [Hw1 Ht1]; [apply add_label_wf|done..|].
  by apply foldl_wf; [apply drop_label_wf|..].
Qed.

Lemma delta_step_wf d o : delta_wf d → delta_wf (delta_step d o).
Proof.
  intros Hw. pose proof (resurrect_wf d Hw) as Hw'. destruct o as [ps|ns|ps|a r|]; cbn.
  - by apply foldl_wf; [apply set_prop_wf|..].
  - by apply foldl_wf; [apply remove_prop_wf|..].
  - by apply replace_wf.
  - by apply set_labels_wf.
  - apply tombstone_wf.
Qed.

Lemma delta_run_wf d ops : delta_wf d → delta_wf (foldl delta_step d ops).
Proof. revert d. induction ops; intros d Hd; cbn; [done|]. auto using delta_step_wf. Qed.

Lemma fold_newer_wf d newer : delta_wf d → delta_wf newer → delta_wf (fold_newer d newer).
Proof.
  intros Hd Hn. unfold fold_newer. destruct (tombstoned newer) eqn:Ht; [apply tombstone_wf|].
  destruct (set_labels_wf (elements (labels_added newer)) (elements (labels_removed newer)) (resurrect d))
    as [Hw1 Ht1]; [by apply resurrect_wf|done|].
  unfold set_labels in *. destruct (replaced newer).
  - split; cbn; [intros k _; apply not_elem_of_empty|apply Hw1|congruence|done].
  - destruct (foldl_wf remove_prop (elements (removed newer)) _ remove_prop_wf (λ _ _, eq_refl) Hw1 Ht1)
      as [Hw2 Ht2].
    by apply foldl_wf; [apply set_prop_wf|..].
Qed.

(** ** Edges *)

Lemma fold_edge_props core d src k : e_tombstoned src = false →
  eff_edge_prop core (EdgeDelta.fold d src) k = eff_edge_prop (eff_edge_prop core d) src k.
Proof.
  intros Ht. unfold EdgeDelta.fold. rewrite Ht.
  set (ins := λ (d : EdgeDelta) (p : str * Value.t),
    mkEdgeDelta (<[p.1 := p.2]> (e_patches d)) (e_replaced d) (e_tombstoned d)).
  set (d0 := if e_replaced src then _ else _).
  change (foldl _ d0 (map_to_list (e_patches src))) with (foldl ins d0 (map_to_list (e_patches src))).
  rewrite (foldl_view (eff_edge_prop core) ins (λ f p, set_key p.1 (Some p.2) f)).
  - rewrite put_all_lookup, list_to_map_to_list by apply NoDup_fst_map_to_list.
    unfold eff_edge_prop at 2. destruct (e_patches src !! k); [done|]. subst d0.
    destruct (e_replaced src); [|done]. unfold eff_edge_prop. cbn. by rewrite lookup_empty.
  - apply (set_key_ext fst (λ p, Some p.2)).
  - intros a p x. unfold eff_edge_prop, set_key. cbn. destruct (bool_decide_reflect (x = p.1)) as [->|E].
    + by rewrite lookup_insert_eq.
    + by rewrite lookup_insert_ne.
Qed.

(** ** Runs without deletes *)

Lemma step_live d o : o ≠ OpDelete → tombstoned (delta_step d o) = false.
Proof.
  intros Ho. destruct o as [ps|ns|ps|a r|]; cbn; [..|done].
  - unfold upsert. by rewrite (foldl_keeps tombstoned).
  - unfold remove_props. by rewrite (foldl_keeps tombstoned).
  - unfold replace. by rewrite (foldl_keeps tombstoned).
  - unfold set_labels. by rewrite !(foldl_keeps tombstoned).
Qed.

Lemma run_live d ops : tombstoned d = false → OpDelete ∉ ops → tombstoned (foldl delta_step d ops) = false.
Proof.
  revert d. induction ops as [|o ops IH]; intros d Hd Hn; cbn; [done|].
  apply not_elem_of_cons in Hn as [Ho Hn]. apply IH; [|done]. apply step_live. congruence.
Qed.

(** Without a delete the core row of the specification is never consulted again, and the
    first write brings the node to life. *)
Lemma spec_run_no_delete core core' v w ops : OpDelete ∉ ops → ops ≠ [] →
  (∀ k, vprop v k = vprop w k) → (∀ l, vlabel v l = vlabel w l) →
  view_eq (spec_run core v ops) (spec_run core' w ops).
Proof.
  intros Hn Hne Hp Hl. destruct ops as [|o ops]; [done|]. apply not_elem_of_cons in Hn as [Ho Hn].
  assert (view_eq (spec_step core v o) (spec_step core' w o)) as Hstep.
  { trans (spec_step core (mkView true (vprop v) (vlabel v)) o); [by destruct o|].
    trans (spec_step core (mkView true (vprop w) (vlabel w)) o); [by apply spec_step_proper|].
    by destruct o. }
  cbn. clear Ho Hne Hp Hl. revert Hstep. generalize (spec_step core v o) (spec_step core' w o).
  induction ops as [|o' ops IH]; intros v' w' E; cbn; [done|].
  apply not_elem_of_cons in Hn as [Ho Hn]. apply IH; [done|].
  trans (spec_step core w' o'); [by apply spec_step_proper|]. by destruct o'.
Qed.

(** * Properties *)

(** C24: A node's delta implements the write operations.  After any sequence of SET, REMOVE,
    SET-all, label changes and DELETE, what a reader sees through the delta over any core
    row is what the operations, applied in order to that row, say; a write after a delete
    makes the core row visible again.  The documented invariants hold throughout: a name is
    patched or removed but not both, a label added or dropped but not both, and a tombstone
    carries nothing else. *)
Theorem node_delta_refines core ops :
  view_eq (view_of core (delta_run ops)) (spec_run core (mkView true (vprop core) (vlabel core)) ops) ∧
  delta_wf (delta_run ops).
Proof.
  split; [|apply delta_run_wf, default_wf]. unfold delta_run. rewrite delta_run_view.
  apply spec_run_proper; [|done]. split; [done|]. cbn. split; intros k; [|done].
  unfold eff_prop. cbn. by rewrite lookup_empty.
Qed.

(** The cross-level fold is layering: folding a newer delta onto an older one shows a
    reader exactly the newer delta laid over the older one's view, for properties and for
    labels, a newer tombstone deletes whatever is below, and the fold keeps the invariants. *)
Theorem fold_newer_layers core d newer : delta_wf d → delta_wf newer →
  view_eq (view_of core (fold_newer d newer))
    (if tombstoned newer then mkView false (vprop core) (vlabel core)
     else view_of (view_of core d) newer) ∧
  delta_wf (fold_newer d newer).
Proof.
  intros Hd Hn. split; [|by apply fold_newer_wf]. destruct (tombstoned newer) eqn:Ht.
  - unfold fold_newer. rewrite Ht. split; [done|]. cbn. split; intros k; [|done].
    unfold eff_prop. cbn. by rewrite lookup_empty.
  - split; [|split]; cbn.
    + by rewrite fold_newer_live.
    + intros k. by apply fold_newer_props.
    + intros l. by apply fold_newer_labels.
Qed.

(** C23: Flushing between two runs of writes is invisible when the later run deletes nothing,
    or ends in a delete: folding the two levels shows what one level holding all the writes
    would have shown. *)
Theorem flush_transparent core ops1 ops2 :
  (ops2 ≠ [] ∧ OpDelete ∉ ops2) ∨ last ops2 = Some OpDelete →
  view_eq (view_of core (fold_newer (delta_run ops1) (delta_run ops2)))
    (view_of core (delta_run (ops1 ++ ops2))).
Proof.
  intros Hops. unfold delta_run. rewrite foldl_app.
  destruct Hops as [[Hne Hnd]|Hlast].
  - rewrite (delta_run_view core (foldl delta_step _ ops1)).
    assert (tombstoned (foldl delta_step NodeDelta.default ops2) = false) as Ht by by apply run_live.
    pose proof (delta_run_wf NodeDelta.default ops2 default_wf) as Hwf.
    trans (view_of (view_of core (foldl delta_step NodeDelta.default ops1))
      (foldl delta_step NodeDelta.default ops2)).
    { split; [cbn; by rewrite fold_newer_live|]. split; intros k; cbn;
        [by apply fold_newer_props|by apply fold_newer_labels]. }
    rewrite delta_run_view. by apply spec_run_no_delete.
  - apply last_Some in Hlast as [ops ->]. rewrite !foldl_app. cbn. done.
Qed.

(** Otherwise a flush is visible.  A property set before the flush comes back when the
    node is deleted and written again after it: the later level remembers the write but not
    the delete, so its fold no longer hides the earlier level, where a single level would
    have shown the core value. *)
Theorem flush_not_transparent :
  ∃ core ops1 ops2 k v, delta_wf (delta_run ops1) ∧ delta_wf (delta_run ops2) ∧
    vprop (view_of core (fold_newer (delta_run ops1) (delta_run ops2))) k = Some v ∧
    vprop (view_of core (delta_run (ops1 ++ ops2))) k = None.
Proof.
  exists (mkView true (λ _, None) (λ _, false)), [OpSet [(lit "a", Value.Int 1)]],
    [OpDelete; OpSet [(lit "b", Value.Int 2)]], (lit "a"), (Value.Int 1).
  split_and!; [apply delta_run_wf, default_wf..|by vm_compute|by vm_compute].
Qed.

(** * Witnesses *)

Lemma flush_transparent_witness :
  let core := mkView true (λ _, None) (λ _, false) in
  let ops1 := [OpSet [(lit "a", Value.Int 1)]] in
  let ops2 := [OpRemove [lit "a"]] in
  view_eq (view_of core (fold_newer (delta_run ops1) (delta_run ops2)))
    (view_of core (delta_run (ops1 ++ ops2))).
Proof.
  intros core ops1 ops2. apply (flush_transparent core ops1 ops2). left. split; [done|].
  intros [?|?%elem_of_nil]%elem_of_cons; done.
Defined.
