(* ===== verification/Memtable.v ===== *)
(** The in-memory delta level: [Memtable] of [slater-delta/src/memtable.rs], its write
    operations, [apply], and the reads of a single level.

    [HashMap]s are [gmap]s; where the code walks one, the walk is over [map_to_list] (the
    order of a [HashMap] walk is unspecified, and no theorem depends on it).  Sizes are
    unbounded: the byte estimate and the allocated ids do not wrap. *)

From stdpp Require Import sorting.
From S2P Require Import Prelude Values ValueOrder Wire Identity WalCodec NodeDelta.

(** What the compiler decides: the in-memory size of an entry, charged to the byte budget. *)
Class Layout := { size_of_NodeEntry : Z; size_of_EdgeEntry : Z }.

Record NodeEntry := mkNodeEntry {
  n_identity : NodeIdentity;
  n_delta : NodeDelta;
  synthetic : option Z;
}.

Record EdgeEntry := mkEdgeEntry {
  e_identity : EdgeIdentity;
  src_dense : Z;
  dst_dense : Z;
  synthetic_edge : option Z;
  core_edge : option Z;
  e_delta : EdgeDelta;
}.

Record DeltaEdge := mkDeltaEdge {
  other : Z;
  de_reltype : str;
  edge_id : option Z;
  de_key : option (str * Value.t);
  de_tombstoned : bool;
}.

Inductive OpResolution :=
  | ResNode (resolved : option Z)
  | ResEdge (src dst edge_id : option Z).

Record Memtable := mkMemtable {
  interner : Interner;
  nodes : gmap (list Z) NodeEntry;
  edges : gmap (list Z) EdgeEntry;
  out_adj : gmap Z (list (list Z));
  in_adj : gmap Z (list (list Z));
  by_dense : gmap Z (list Z);
  by_edge_id : gmap Z (list Z);
  synthetic_base : Z;
  edge_synthetic_base : Z;
  born : list (list Z);
  born_edges : list (list Z);
  m_tombstoned : gset Z;
  born_label_counts : gmap Z Z;
  m_bytes : Z;
}.

(** * Field updates *)

Definition set_interner (m : Memtable) (i : Interner) : Memtable :=
  mkMemtable i (nodes m) (edges m) (out_adj m) (in_adj m) (by_dense m) (by_edge_id m)
    (synthetic_base m) (edge_synthetic_base m) (born m) (born_edges m) (m_tombstoned m)
    (born_label_counts m) (m_bytes m).

Definition set_nodes (m : Memtable) (ns : gmap (list Z) NodeEntry) : Memtable :=
  mkMemtable (interner m) ns (edges m) (out_adj m) (in_adj m) (by_dense m) (by_edge_id m)
    (synthetic_base m) (edge_synthetic_base m) (born m) (born_edges m) (m_tombstoned m)
    (born_label_counts m) (m_bytes m).

Definition set_edges (m : Memtable) (es : gmap (list Z) EdgeEntry) : Memtable :=
  mkMemtable (interner m) (nodes m) es (out_adj m) (in_adj m) (by_dense m) (by_edge_id m)
    (synthetic_base m) (edge_synthetic_base m) (born m) (born_edges m) (m_tombstoned m)
    (born_label_counts m) (m_bytes m).

Definition set_adj (m : Memtable) (o i : gmap Z (list (list Z))) : Memtable :=
  mkMemtable (interner m) (nodes m) (edges m) o i (by_dense m) (by_edge_id m)
    (synthetic_base m) (edge_synthetic_base m) (born m) (born_edges m) (m_tombstoned m)
    (born_label_counts m) (m_bytes m).

Definition set_by_dense (m : Memtable) (bd : gmap Z (list Z)) : Memtable :=
  mkMemtable (interner m) (nodes m) (edges m) (out_adj m) (in_adj m) bd (by_edge_id m)
    (synthetic_base m) (edge_synthetic_base m) (born m) (born_edges m) (m_tombstoned m)
    (born_label_counts m) (m_bytes m).

Definition set_by_edge_id (m : Memtable) (be : gmap Z (list Z)) : Memtable :=
  mkMemtable (interner m) (nodes m) (edges m) (out_adj m) (in_adj m) (by_dense m) be
    (synthetic_base m) (edge_synthetic_base m) (born m) (born_edges m) (m_tombstoned m)
    (born_label_counts m) (m_bytes m).

Definition set_born_edges (m : Memtable) (b : list (list Z)) : Memtable :=
  mkMemtable (interner m) (nodes m) (edges m) (out_adj m) (in_adj m) (by_dense m) (by_edge_id m)
    (synthetic_base m) (edge_synthetic_base m) (born m) b (m_tombstoned m)
    (born_label_counts m) (m_bytes m).

Definition set_tombstoned (m : Memtable) (t : gset Z) : Memtable :=
  mkMemtable (interner m) (nodes m) (edges m) (out_adj m) (in_adj m) (by_dense m) (by_edge_id m)
    (synthetic_base m) (edge_synthetic_base m) (born m) (born_edges m) t
    (born_label_counts m) (m_bytes m).

Definition set_born (m : Memtable) (b : list (list Z)) (counts : gmap Z Z) : Memtable :=
  mkMemtable (interner m) (nodes m) (edges m) (out_adj m) (in_adj m) (by_dense m) (by_edge_id m)
    (synthetic_base m) (edge_synthetic_base m) b (born_edges m) (m_tombstoned m) counts (m_bytes m).

Definition charge (m : Memtable) (n : Z) : Memtable :=
  mkMemtable (interner m) (nodes m) (edges m) (out_adj m) (in_adj m) (by_dense m) (by_edge_id m)
    (synthetic_base m) (edge_synthetic_base m) (born m) (born_edges m) (m_tombstoned m)
    (born_label_counts m) (m_bytes m + n).

(** * Construction and counters *)

Definition with_bases (node_base edge_base : Z) : Memtable :=
  mkMemtable Interner.new ∅ ∅ ∅ ∅ ∅ ∅ node_base edge_base [] [] ∅ ∅ 0.

Definition with_synthetic_base (base : Z) : Memtable := with_bases base 0.

Definition born_count (m : Memtable) : Z := zlen (born m).
Definition born_edge_count (m : Memtable) : Z := zlen (born_edges m).
Definition is_empty (m : Memtable) : bool := bool_decide (nodes m = ∅) && bool_decide (edges m = ∅).
Definition node_delta_count (m : Memtable) : Z := Z.of_nat (size (nodes m)).
Definition edge_delta_count (m : Memtable) : Z := Z.of_nat (size (edges m)).

(** [*map.entry(k).or_default() += 1]. *)
Definition tally (k : Z) (counts : gmap Z Z) : gmap Z Z :=
  <[k := default 0 (counts !! k) + 1]> counts.

(** [map.entry(k).or_default().push(x)]. *)
Definition push_adj (k : Z) (x : list Z) (adj : gmap Z (list (list Z))) : gmap Z (list (list Z)) :=
  <[k := default [] (adj !! k) ++ [x]]> adj.

(** [let v = map.entry(k).or_default(); if !v.contains(&x) { v.push(x) }]. *)
Definition push_adj_once (k : Z) (x : list Z) (adj : gmap Z (list (list Z))) : gmap Z (list (list Z)) :=
  let v := default [] (adj !! k) in
  <[k := if bool_decide (x ∈ v) then v else v ++ [x]]> adj.

(** [NodeIdentity::new(self.interner.intern(label), self.interner.intern(key), value)]. *)
Definition intern_node_identity (label key : str) (value : Value.t) (i : Interner) :
    NodeIdentity * Interner :=
  let '(l, i) := Interner.intern label i in
  let '(k, i) := Interner.intern key i in
  (mkNodeIdentity l k value, i).

Section ops.
Context {layout : Layout}.

(** * Node operations *)

(** [self.synthetic_base + self.born.len() as u64]. *)
Definition next_synthetic (m : Memtable) : Z := synthetic_base m + zlen (born m).

Definition touch_node_entry (label key : str) (value : Value.t) (resolved : option Z)
    (m : Memtable) : list Z * Memtable :=
  let '(ident, i) := intern_node_identity label key value (interner m) in
  let m := set_interner m i in
  let ck := NodeIdentity.canonical_key ident in
  let m := match nodes m !! ck with
           | None => charge m (zlen ck + size_of_NodeEntry)
           | Some _ => m
           end in
  let entry := default (mkNodeEntry ident NodeDelta.default None) (nodes m !! ck) in
  let was_tombstoned := tombstoned (n_delta entry) in
  let already_synthetic := synthetic entry in
  let label_sym := ni_label (n_identity entry) in
  let entry := mkNodeEntry (n_identity entry) (NodeDelta.resurrect (n_delta entry)) already_synthetic in
  let m := set_nodes m (<[ck := entry]> (nodes m)) in
  let m := if was_tombstoned then
             match union resolved already_synthetic with
             | Some dense => set_tombstoned m (m_tombstoned m ∖ {[dense]})
             | None => m
             end
           else m in
  match resolved, already_synthetic with
  | Some dense, _ => (ck, set_by_dense m (<[dense := ck]> (by_dense m)))
  | None, None =>
      let dense := next_synthetic m in
      let m := set_by_dense m (<[dense := ck]> (by_dense m)) in
      let m := set_nodes m
        (<[ck := mkNodeEntry (n_identity entry) (n_delta entry) (Some dense)]> (nodes m)) in
      (ck, set_born m (born m ++ [ck]) (tally label_sym (born_label_counts m)))
  | None, Some _ => (ck, m)
  end.

(** [self.nodes.get_mut(&ck).expect(..)] and a mutation of its delta. *)
Definition update_delta (ck : list Z) (f : NodeDelta → NodeDelta) (m : Memtable) : Memtable :=
  match nodes m !! ck with
  | Some e => set_nodes m (<[ck := mkNodeEntry (n_identity e) (f (n_delta e)) (synthetic e)]> (nodes m))
  | None => m
  end.

Definition upsert_node (label key : str) (value : Value.t) (resolved : option Z)
    (ps : list (str * Value.t)) (m : Memtable) : Memtable :=
  let '(ck, m) := touch_node_entry label key value resolved m in
  charge (update_delta ck (NodeDelta.upsert ps) m) (patch_bytes ps).

Definition remove_node_props (label key : str) (value : Value.t) (resolved : option Z)
    (ns : list str) (m : Memtable) : Memtable :=
  let '(ck, m) := touch_node_entry label key value resolved m in
  let in_force := match nodes m !! ck with Some e => replaced (n_delta e) | None => false end in
  charge (update_delta ck (NodeDelta.remove_props ns) m) (if in_force then 0 else names_bytes ns).

Definition replace_node (label key : str) (value : Value.t) (resolved : option Z)
    (ps : list (str * Value.t)) (m : Memtable) : Memtable :=
  let '(ck, m) := touch_node_entry label key value resolved m in
  charge (update_delta ck (NodeDelta.replace ps) m) (patch_bytes ps).

Definition set_node_labels (label key : str) (value : Value.t) (resolved : option Z)
    (added dropped : list str) (m : Memtable) : Memtable :=
  let '(ck, m) := touch_node_entry label key value resolved m in
  charge (update_delta ck (NodeDelta.set_labels added dropped) m)
    (names_bytes added + names_bytes dropped).

Definition delete_node (label key : str) (value : Value.t) (resolved : option Z)
    (m : Memtable) : Memtable :=
  let '(ident, i) := intern_node_identity label key value (interner m) in
  let m := set_interner m i in
  let ck := NodeIdentity.canonical_key ident in
  let already_synthetic := synthetic <$> (nodes m !! ck) in
  match already_synthetic, resolved with
  | None, None => m
  | _, _ =>
      let m := match already_synthetic with
               | None => charge m (zlen ck + size_of_NodeEntry)
               | Some _ => m
               end in
      let entry := default (mkNodeEntry ident NodeDelta.default None) (nodes m !! ck) in
      let m := set_nodes m (<[ck := mkNodeEntry (n_identity entry)
                 (NodeDelta.tombstone (n_delta entry)) (synthetic entry)]> (nodes m)) in
      match resolved, mjoin already_synthetic with
      | Some dense, _ =>
          set_tombstoned (set_by_dense m (<[dense := ck]> (by_dense m))) ({[dense]} ∪ m_tombstoned m)
      | None, Some dense => set_tombstoned m ({[dense]} ∪ m_tombstoned m)
      | None, None => m
      end
  end.

Definition rebuild_derived (m : Memtable) : Memtable :=
  let t := foldl (λ t '(dense, ck),
             match nodes m !! ck with
             | Some e => if tombstoned (n_delta e) then {[dense]} ∪ t else t
             | None => t
             end) ∅ (map_to_list (by_dense m)) in
  let counts := foldl (λ c ck,
             match nodes m !! ck with
             | Some e => tally (ni_label (n_identity e)) c
             | None => c
             end) ∅ (born m) in
  set_born (set_tombstoned m t) (born m) counts.

(** * Edge operations *)

Definition endpoint_dense_or_create (label key : str) (value : Value.t) (resolved : option Z)
    (m : Memtable) : Z * Memtable :=
  match resolved with
  | Some dense => (dense, m)
  | None =>
      let '(ident, i) := intern_node_identity label key value (interner m) in
      let m := set_interner m i in
      let ck := NodeIdentity.canonical_key ident in
      match (nodes m !! ck) ≫= synthetic with
      | Some dense => (dense, m)
      | None =>
          let dense := next_synthetic m in
          let m := charge m (zlen ck + size_of_NodeEntry) in
          let m := set_born m (born m ++ [ck]) (tally (ni_label ident) (born_label_counts m)) in
          let m := set_by_dense m (<[dense := ck]> (by_dense m)) in
          (dense, set_nodes m
                    (<[ck := mkNodeEntry ident NodeDelta.default (Some dense)]> (nodes m)))
      end
  end.

Definition intern_edge_identity (src_label src_key : str) (src_value : Value.t) (reltype : str)
    (dst_label dst_key : str) (dst_value : Value.t) (edge_key : option (str * Value.t))
    (m : Memtable) : EdgeIdentity * Memtable :=
  let '(src, i) := intern_node_identity src_label src_key src_value (interner m) in
  let '(rt, i) := Interner.intern reltype i in
  let '(dst, i) := intern_node_identity dst_label dst_key dst_value i in
  match edge_key with
  | Some (name, value) =>
      let '(k, i) := Interner.intern name i in
      (EdgeIdentity.keyed src rt dst (Some (k, value)), set_interner m i)
  | None => (EdgeIdentity.keyed src rt dst None, set_interner m i)
  end.

Definition born_endpoint_dense (label key : str) (value : Value.t) (resolved : option Z)
    (m : Memtable) : option Z * Memtable :=
  match resolved with
  | Some _ => (resolved, m)
  | None =>
      let '(ident, i) := intern_node_identity label key value (interner m) in
      let m := set_interner m i in
      ((nodes m !! NodeIdentity.canonical_key ident) ≫= synthetic, m)
  end.

(** The bytes [apply_edge_patches] reports. *)
Definition edge_patch_bytes (edge_key : option (str * Value.t)) (ps : list (str * Value.t)) : Z :=
  patch_bytes ps + match edge_key with Some (k, v) => zlen k + value_size v | None => 0 end.

(** Clear the entry's tombstone and fold the patches in. *)
Definition patch_edge (eck : list Z) (edge_key : option (str * Value.t)) (replace : bool)
    (ps : list (str * Value.t)) (m : Memtable) : Memtable :=
  match edges m !! eck with
  | Some e =>
      let d := mkEdgeDelta (e_patches (e_delta e)) (e_replaced (e_delta e)) false in
      charge
        (set_edges m (<[eck := mkEdgeEntry (e_identity e) (src_dense e) (dst_dense e)
           (synthetic_edge e) (core_edge e) (EdgeDelta.apply_patches edge_key replace ps d)]> (edges m)))
        (edge_patch_bytes edge_key ps)
  | None => m
  end.

Definition upsert_edge_keyed (src_label src_key : str) (src_value : Value.t) (reltype : str)
    (dst_label dst_key : str) (dst_value : Value.t) (src_resolved dst_resolved : option Z)
    (edge_key : option (str * Value.t)) (replace : bool) (ps : list (str * Value.t))
    (m : Memtable) : Memtable :=
  let '(src, m) := endpoint_dense_or_create src_label src_key src_value src_resolved m in
  let '(dst, m) := endpoint_dense_or_create dst_label dst_key dst_value dst_resolved m in
  let '(ident, m) := intern_edge_identity src_label src_key src_value reltype
                       dst_label dst_key dst_value edge_key m in
  let eck := EdgeIdentity.canonical_key ident in
  let m := match edges m !! eck with
           | Some _ => m
           | None =>
               let m := charge m (zlen eck + size_of_EdgeEntry) in
               let syn := edge_synthetic_base m + zlen (born_edges m) in
               let m := set_born_edges m (born_edges m ++ [eck]) in
               let m := set_adj m (push_adj src eck (out_adj m)) (push_adj dst eck (in_adj m)) in
               set_edges m (<[eck := mkEdgeEntry ident src dst (Some syn) None EdgeDelta.default]>
                              (edges m))
           end in
  patch_edge eck edge_key replace ps m.

Definition delete_edge_keyed (src_label src_key : str) (src_value : Value.t) (reltype : str)
    (dst_label dst_key : str) (dst_value : Value.t) (src_resolved dst_resolved : option Z)
    (edge_key : option (str * Value.t)) (m : Memtable) : Memtable :=
  let '(src, m) := born_endpoint_dense src_label src_key src_value src_resolved m in
  match src with
  | None => m
  | Some src =>
  let '(dst, m) := born_endpoint_dense dst_label dst_key dst_value dst_resolved m in
  match dst with
  | None => m
  | Some dst =>
  let '(ident, m) := intern_edge_identity src_label src_key src_value reltype
                       dst_label dst_key dst_value edge_key m in
  let eck := EdgeIdentity.canonical_key ident in
  match edges m !! eck with
  | None =>
      let m := charge m (zlen eck + size_of_EdgeEntry) in
      let m := set_adj m (push_adj src eck (out_adj m)) (push_adj dst eck (in_adj m)) in
      set_edges m (<[eck := mkEdgeEntry ident src dst None None (mkEdgeDelta ∅ false true)]> (edges m))
  | Some e =>
      let m := set_edges m (<[eck := mkEdgeEntry (e_identity e) (src_dense e) (dst_dense e)
                 (synthetic_edge e) None (mkEdgeDelta ∅ false true)]> (edges m)) in
      match core_edge e with
      | Some cid =>
          let m := set_by_edge_id m (delete cid (by_edge_id m)) in
          set_adj m (push_adj_once src eck (out_adj m)) (push_adj_once dst eck (in_adj m))
      | None => m
      end
  end end end.

Definition patch_core_edge_keyed (src_label src_key : str) (src_value : Value.t) (reltype : str)
    (dst_label dst_key : str) (dst_value : Value.t) (src_resolved dst_resolved : option Z)
    (edge_key : option (str * Value.t)) (core_edge_id : Z) (replace : bool)
    (ps : list (str * Value.t)) (m : Memtable) : Memtable :=
  let '(src, m) := endpoint_dense_or_create src_label src_key src_value src_resolved m in
  let '(dst, m) := endpoint_dense_or_create dst_label dst_key dst_value dst_resolved m in
  let '(ident, m) := intern_edge_identity src_label src_key src_value reltype
                       dst_label dst_key dst_value edge_key m in
  let eck := EdgeIdentity.canonical_key ident in
  let m := match edges m !! eck with
           | Some _ => m
           | None =>
               let m := charge m (zlen eck + size_of_EdgeEntry) in
               set_edges m (<[eck := mkEdgeEntry ident src dst None (Some core_edge_id)
                                       EdgeDelta.default]> (edges m))
           end in
  let m := set_by_edge_id m (<[core_edge_id := eck]> (by_edge_id m)) in
  let m := match edges m !! eck with
           | Some e => set_edges m (<[eck := mkEdgeEntry (e_identity e) (src_dense e) (dst_dense e)
                         (synthetic_edge e) (Some core_edge_id) (e_delta e)]> (edges m))
           | None => m
           end in
  patch_edge eck edge_key replace ps m.

Definition upsert_edge (src_label src_key : str) (src_value : Value.t) (reltype : str)
    (dst_label dst_key : str) (dst_value : Value.t) (src_resolved dst_resolved : option Z)
    (ps : list (str * Value.t)) (m : Memtable) : Memtable :=
  upsert_edge_keyed src_label src_key src_value reltype dst_label dst_key dst_value
    src_resolved dst_resolved None false ps m.

Definition delete_edge (src_label src_key : str) (src_value : Value.t) (reltype : str)
    (dst_label dst_key : str) (dst_value : Value.t) (src_resolved dst_resolved : option Z)
    (m : Memtable) : Memtable :=
  delete_edge_keyed src_label src_key src_value reltype dst_label dst_key dst_value
    src_resolved dst_resolved None m.

Definition patch_core_edge (src_label src_key : str) (src_value : Value.t) (reltype : str)
    (dst_label dst_key : str) (dst_value : Value.t) (src_resolved dst_resolved : option Z)
    (core_edge_id : Z) (ps : list (str * Value.t)) (m : Memtable) : Memtable :=
  patch_core_edge_keyed src_label src_key src_value reltype dst_label dst_key dst_value
    src_resolved dst_resolved None core_edge_id false ps m.

(** [None] is the [unreachable!] of an operation given the wrong kind of resolution. *)
Definition apply (op : WalOp) (res : OpResolution) (m : Memtable) : option Memtable :=
  match op, res with
  | UpsertNode l k v ps, ResNode r => Some (upsert_node l k v r ps m)
  | DeleteNode l k v, ResNode r => Some (delete_node l k v r m)
  | RemoveNodeProps l k v ns, ResNode r => Some (remove_node_props l k v r ns m)
  | ReplaceNode l k v ps, ResNode r => Some (replace_node l k v r ps m)
  | SetNodeLabels l k v a d, ResNode r => Some (set_node_labels l k v r a d m)
  | UpsertEdge sl sk sv rt dl dk dv ek rp ps, ResEdge s d (Some cid) =>
      Some (patch_core_edge_keyed sl sk sv rt dl dk dv s d ek cid rp ps m)
  | UpsertEdge sl sk sv rt dl dk dv ek rp ps, ResEdge s d None =>
      Some (upsert_edge_keyed sl sk sv rt dl dk dv s d ek rp ps m)
  | DeleteEdge sl sk sv rt dl dk dv ek, ResEdge s d _ =>
      Some (delete_edge_keyed sl sk sv rt dl dk dv s d ek m)
  | _, _ => None
  end.

End ops.

(** * Reads of one level *)

Definition name_or_empty (i : Interner) (sym : Z) : str := default [] (Interner.name sym i).

Definition node_patch (dense_id : Z) (m : Memtable) : option NodeDelta :=
  ck ← by_dense m !! dense_id; n_delta <$> (nodes m !! ck).

Definition lookup_node (id : NodeIdentity) (m : Memtable) : option NodeDelta :=
  n_delta <$> (nodes m !! NodeIdentity.canonical_key id).

Definition node_identity_by_dense (dense_id : Z) (m : Memtable) : option (str * str * Value.t) :=
  ck ← by_dense m !! dense_id;
  e ← nodes m !! ck;
  Some (name_or_empty (interner m) (ni_label (n_identity e)),
        name_or_empty (interner m) (ni_key (n_identity e)), ni_value (n_identity e)).

Definition born_synthetic_for_identity (label key : str) (value : Value.t) (m : Memtable) : option Z :=
  l ← Interner.get label (interner m);
  k ← Interner.get key (interner m);
  (nodes m !! NodeIdentity.canonical_key (mkNodeIdentity l k value)) ≫= synthetic.

Definition tombstoned_ids (m : Memtable) : list Z := elements (m_tombstoned m).

Definition born_count_with_label (label : str) (m : Memtable) : Z :=
  default 0 (Interner.get label (interner m) ≫= λ sym, born_label_counts m !! sym).

Definition has_edge_tombstones (m : Memtable) : bool :=
  existsb (λ p, e_tombstoned (e_delta p.2)) (map_to_list (edges m)).

Definition born_labels (m : Memtable) : list str :=
  omap (λ p, Interner.name p.1 (interner m)) (map_to_list (born_label_counts m)).

(** [Vec::dedup]: of a run of equal elements only the first stays. *)
Fixpoint dedup {A} `{EqDecision A} (l : list A) : list A :=
  match l with
  | x :: (y :: _) as t => if decide (x = y) then dedup t else x :: dedup t
  | _ => l
  end.

(** The order of [Ord] on strings. *)
Definition bytes_le (a b : bytes) : Prop := bytes_cmp a b ≠ Gt.

#[export] Instance bytes_le_dec : RelDecision bytes_le.
Proof. intros a b. unfold bytes_le. apply _. Defined.

(** [v.sort_unstable(); v.dedup()] on names, and on ids. *)
Definition sort_dedup_names (l : list str) : list str := dedup (merge_sort bytes_le l).
Definition sort_dedup_ids (l : list Z) : list Z := dedup (merge_sort Z.le l).

Definition born_edge_reltypes (m : Memtable) : list str :=
  sort_dedup_names (omap (λ p, if synthetic_edge p.2 is Some _
                               then Interner.name (ei_reltype (e_identity p.2)) (interner m)
                               else None) (map_to_list (edges m))).

Definition born_edge_count_with_reltype (reltype : str) (m : Memtable) : Z :=
  match Interner.get reltype (interner m) with
  | None => 0
  | Some sym =>
      zlen (filter (λ p, is_Some (synthetic_edge p.2) ∧ ei_reltype (e_identity p.2) = sym)
              (map_to_list (edges m)))
  end.

(** The walk of [born] that collects the synthetic ids of the entries [keep] selects. *)
Definition born_ids (keep : NodeEntry → bool) (m : Memtable) : list Z :=
  omap (λ ck, e ← nodes m !! ck; if keep e then synthetic e else None) (born m).

(** The walk of [by_dense] that collects the dense ids of the entries [keep] selects. *)
Definition dense_ids (keep : Z → NodeEntry → bool) (m : Memtable) : list Z :=
  omap (λ p, e ← nodes m !! p.2; if keep p.1 e then Some p.1 else None) (map_to_list (by_dense m)).

Definition has_label_sym (label : str) (m : Memtable) (e : NodeEntry) : bool :=
  bool_decide (Interner.name (ni_label (n_identity e)) (interner m) = Some label).

Definition born_ids_with_label (label : str) (m : Memtable) : list Z :=
  born_ids (has_label_sym label m) m.

Definition ids_with_added_label (label : str) (m : Memtable) : list Z :=
  dense_ids (λ _ e, bool_decide (label ∈ labels_added (n_delta e))) m.

Definition ids_with_removed_label (label : str) (m : Memtable) : list Z :=
  dense_ids (λ _ e, bool_decide (label ∈ labels_removed (n_delta e))) m.

(** The entry carries a label mutation. *)
Definition relabelled (e : NodeEntry) : bool :=
  bool_decide (labels_added (n_delta e) ≠ ∅) || bool_decide (labels_removed (n_delta e) ≠ ∅).

Definition label_overlay_ids (m : Memtable) : list Z := dense_ids (λ _, relabelled) m.

Definition has_label_overlay (m : Memtable) : bool :=
  existsb (λ p, relabelled p.2) (map_to_list (nodes m)).

Definition born_index_value (e : NodeEntry) (prop : str) (m : Memtable) : option Value.t :=
  match patches (n_delta e) !! prop with
  | Some v => Some v
  | None =>
      if bool_decide (Interner.name (ni_key (n_identity e)) (interner m) = Some prop)
      then Some (ni_value (n_identity e)) else None
  end.

Definition born_ids_in_index (label prop : str) (pred : Value.t → bool) (m : Memtable) : list Z :=
  born_ids (λ e, has_label_sym label m e &&
                 match born_index_value e prop m with Some v => pred v | None => false end) m.

(** The bounds test of a range seek; a missing bound is no bound. *)
Definition value_in_range (v : Value.t) (lo : option Value.t) (lo_inclusive : bool)
    (hi : option Value.t) (hi_inclusive : bool) : bool :=
  let above := match lo with
    | None => true
    | Some l => match Value.cmp_key v l with Gt => true | Eq => lo_inclusive | Lt => false end
    end in
  let below := match hi with
    | None => true
    | Some h => match Value.cmp_key v h with Lt => true | Eq => hi_inclusive | Gt => false end
    end in
  above && below.

Definition born_ids_in_index_eq (label prop : str) (key : Value.t) (m : Memtable) : list Z :=
  born_ids_in_index label prop (λ v, bool_decide (Value.cmp_key v key = Eq)) m.

Definition born_ids_in_index_range (label prop : str) (lo : option Value.t) (lo_inclusive : bool)
    (hi : option Value.t) (hi_inclusive : bool) (m : Memtable) : list Z :=
  born_ids_in_index label prop (λ v, value_in_range v lo lo_inclusive hi hi_inclusive) m.

Definition core_ids_patched_on_index (label prop : str) (m : Memtable) : list Z :=
  dense_ids (λ dense e, bool_decide (dense < synthetic_base m) && has_label_sym label m e &&
                        bool_decide (is_Some (patches (n_delta e) !! prop))) m.

Definition delta_edge (outgoing : bool) (m : Memtable) (e : EdgeEntry) : DeltaEdge :=
  mkDeltaEdge (if outgoing then dst_dense e else src_dense e)
    (name_or_empty (interner m) (ei_reltype (e_identity e))) (synthetic_edge e)
    ((λ p, (name_or_empty (interner m) p.1, p.2)) <$> ei_key (e_identity e))
    (e_tombstoned (e_delta e)).

Definition edges_for (adj : gmap Z (list (list Z))) (node : Z) (outgoing : bool) (m : Memtable) :
    list DeltaEdge :=
  omap (λ eck, delta_edge outgoing m <$> (edges m !! eck)) (default [] (adj !! node)).

Definition out_edges (node : Z) (m : Memtable) : list DeltaEdge := edges_for (out_adj m) node true m.
Definition in_edges (node : Z) (m : Memtable) : list DeltaEdge := edges_for (in_adj m) node false m.

Definition edge_delta_by_id (edge_id : Z) (m : Memtable) : option EdgeDelta :=
  let base := edge_synthetic_base m in
  eck ← (if bool_decide (edge_id < base) then by_edge_id m !! edge_id
         else born_edges m !! Z.to_nat (edge_id - base));
  e_delta <$> (edges m !! eck).
