(* ===== verification/MemtableInv.v ===== *)
(** The memtable invariant and what each write does: every operation [Memtable::apply]
    dispatches to keeps the stores, the read indexes, the born-id vectors and the derived
    tallies of [slater-delta/src/memtable.rs] consistent with each other. *)

From S2P Require Import Prelude Values Wire Identity WalCodec NodeDelta Memtable.

(** * The invariant *)

(** The symbols of an identity are in the table. *)
Definition known (i : Interner) (n : NodeIdentity) : Prop :=
  is_Some (Interner.name (ni_label n) i) ∧ is_Some (Interner.name (ni_key n) i).

Definition known_edge (i : Interner) (n : EdgeIdentity) : Prop :=
  known i (ei_src n) ∧ is_Some (Interner.name (ei_reltype n) i) ∧ known i (ei_dst n) ∧
  match ei_key n with Some (k, _) => is_Some (Interner.name k i) | None => True end.

(** The per-label tally of born nodes, as [rebuild_derived] computes it. *)
Definition label_tally (ns : gmap (list Z) NodeEntry) (b : list (list Z)) : gmap Z Z :=
  foldl (λ c ck, match ns !! ck with
                 | Some e => tally (ni_label (n_identity e)) c
                 | None => c
                 end) ∅ b.

Record node_inv (i : Interner) (ns : gmap (list Z) NodeEntry) (bd : gmap Z (list Z)) (base : Z)
    (b : list (list Z)) (ts : gset Z) (counts : gmap Z Z) : Prop := {
  inv_entry : ∀ ck e, ns !! ck = Some e →
    ck = NodeIdentity.canonical_key (n_identity e) ∧ NodeIdentity.wf (n_identity e) ∧
    known i (n_identity e) ∧ delta_wf (n_delta e);
  (* the k-th born key owns the k-th synthetic id, and no other entry owns one *)
  inv_born : ∀ k ck, b !! k = Some ck →
    ∃ e, ns !! ck = Some e ∧ synthetic e = Some (base + Z.of_nat k);
  inv_synthetic : ∀ ck e s, ns !! ck = Some e → synthetic e = Some s →
    (∃ k, s = base + Z.of_nat k ∧ b !! k = Some ck) ∧ bd !! s = Some ck;
  (* every entry is reachable under exactly one dense id, which is a core id or a born one *)
  inv_dense : ∀ d ck, bd !! d = Some ck → is_Some (ns !! ck) ∧ d < base + zlen b;
  inv_dense_total : ∀ ck, is_Some (ns !! ck) → ∃ d, bd !! d = Some ck;
  inv_dense_unique : ∀ d d' ck, bd !! d = Some ck → bd !! d' = Some ck → d = d';
  inv_tombstoned : ∀ d, d ∈ ts ↔
    ∃ ck e, bd !! d = Some ck ∧ ns !! ck = Some e ∧ tombstoned (n_delta e) = true;
  inv_counts : counts = label_tally ns b;
}.

(** A delta edge is listed under its endpoints; [complete] entries must be. *)
Definition adj_ok (adj : gmap Z (list (list Z))) (es : gmap (list Z) EdgeEntry)
    (endpoint : EdgeEntry → Z) : Prop :=
  (∀ n v, adj !! n = Some v → NoDup v ∧
     ∀ eck, eck ∈ v → ∃ e, es !! eck = Some e ∧ endpoint e = n) ∧
  ∀ eck e, es !! eck = Some e → core_edge e = None →
    ∃ v, adj !! endpoint e = Some v ∧ eck ∈ v.

Record edge_inv (i : Interner) (es : gmap (list Z) EdgeEntry) (oa ia : gmap Z (list (list Z)))
    (be : gmap Z (list Z)) (base : Z) (b : list (list Z)) : Prop := {
  inv_edge : ∀ eck e, es !! eck = Some e →
    eck = EdgeIdentity.canonical_key (e_identity e) ∧ EdgeIdentity.wf (e_identity e) ∧
    known_edge i (e_identity e) ∧
    (e_tombstoned (e_delta e) = true → e_patches (e_delta e) = ∅ ∧ e_replaced (e_delta e) = false);
  inv_born_edge : ∀ k eck, b !! k = Some eck →
    ∃ e, es !! eck = Some e ∧ synthetic_edge e = Some (base + Z.of_nat k);
  inv_synthetic_edge : ∀ eck e s, es !! eck = Some e → synthetic_edge e = Some s →
    core_edge e = None ∧ ∃ k, s = base + Z.of_nat k ∧ b !! k = Some eck;
  inv_out : adj_ok oa es src_dense;
  inv_in : adj_ok ia es dst_dense;
  inv_by_edge_id : ∀ cid eck, be !! cid = Some eck ↔
    ∃ e, es !! eck = Some e ∧ core_edge e = Some cid;
  inv_core_range : ∀ cid eck, be !! cid = Some eck → cid < base;
}.

Definition nodes_ok (m : Memtable) : Prop :=
  node_inv (interner m) (nodes m) (by_dense m) (synthetic_base m) (born m) (m_tombstoned m)
    (born_label_counts m).

Definition edges_ok (m : Memtable) : Prop :=
  edge_inv (interner m) (edges m) (out_adj m) (in_adj m) (by_edge_id m) (edge_synthetic_base m)
    (born_edges m).

Definition memtable_wf (m : Memtable) : Prop := Interner.wf (interner m) ∧ nodes_ok m ∧ edges_ok m.

(** * Interning *)

Lemma known_extends i j n : Interner.extends i j → known i n → known j n.
Proof.
  intros He [[a Ha] [b Hb]]. split; eexists; by apply (Interner.name_extends i j).
Qed.

Lemma known_edge_extends i j n : Interner.extends i j → known_edge i n → known_edge j n.
Proof.
  intros He (Hs & [a Ha] & Hd & Hk). split_and!; [by eapply known_extends| |by eapply known_extends|].
  - eexists. by apply (Interner.name_extends i j).
  - destruct (ei_key n) as [[k v]|]; [|done]. destruct Hk as [b Hb]. eexists.
    by apply (Interner.name_extends i j).
Qed.

Lemma node_inv_extends i j ns bd base b ts c :
  Interner.extends i j → node_inv i ns bd base b ts c → node_inv j ns bd base b ts c.
Proof.
  intros He [H1 H2 H3 H4 H5 H6 H7 H8]. split; try done. intros ck e H.
  destruct (H1 ck e H) as (?&?&?&?). split_and!; eauto using known_extends.
Qed.

Lemma edge_inv_extends i j es oa ia be base b :
  Interner.extends i j → edge_inv i es oa ia be base b → edge_inv j es oa ia be base b.
Proof.
  intros He [H1 H2 H3 H4 H5 H6 H7]. split; try done. intros ck e H.
  destruct (H1 ck e H) as (?&?&?&?). split_and!; eauto using known_edge_extends.
Qed.

Lemma extends_trans i j k : Interner.extends i j → Interner.extends j k → Interner.extends i k.
Proof. unfold Interner.extends. intros; by etrans. Qed.

(** Room for [n] more symbols. *)
Definition room (n : Z) (i : Interner) : Prop := zlen (int_names i) + n <= 2 ^ 32.

Lemma intern_names n i : zlen (int_names (Interner.intern n i).2) <= zlen (int_names i) + 1.
Proof.
  unfold Interner.intern. destruct (int_map i !! n); cbn; [lia|]. rewrite zlen_app.
  change (zlen [n]) with 1. lia.
Qed.

(** What interning one name guarantees. *)
Lemma intern_ok n i sym j k : Interner.wf i → room (k + 1) i → 0 <= k → Interner.intern n i = (sym, j) →
  Interner.wf j ∧ Interner.extends i j ∧ room k j ∧ is_u32 sym ∧ Interner.name sym j = Some n.
Proof.
  intros Hw Hr Hk E. destruct (Interner.intern_wf n i sym j) as (Hj & He & Hg & Hu); [done| |done|].
  { unfold Interner.has_room, room in *. lia. }
  split_and!; [done..| | |].
  - pose proof (intern_names n i) as Hn. rewrite E in Hn. unfold room in *. cbn in Hn. lia.
  - done.
  - by destruct (Interner.get_range j n sym Hj Hg).
Qed.

Lemma intern_node_ok l k v i id j r : Interner.wf i → room (r + 2) i → 0 <= r → Value.wf v →
  intern_node_identity l k v i = (id, j) →
  Interner.wf j ∧ Interner.extends i j ∧ room r j ∧ NodeIdentity.wf id ∧ known j id ∧
  ni_value id = v ∧ Interner.name (ni_label id) j = Some l ∧ Interner.name (ni_key id) j = Some k.
Proof.
  intros Hw Hr H0 Hv. unfold intern_node_identity.
  destruct (Interner.intern l i) as [a i1] eqn:E1. destruct (Interner.intern k i1) as [b i2] eqn:E2.
  intros [= <- <-].
  destruct (intern_ok l i a i1 (r + 1)) as (W1&X1&R1&U1&N1); [done|by replace (r+1+1) with (r+2) by lia|lia|done|].
  destruct (intern_ok k i1 b i2 r) as (W2&X2&R2&U2&N2); [done..|].
  pose proof (Interner.name_extends i1 i2 a l X2 N1) as N1'.
  split_and!; [done|by eapply extends_trans|done|by split_and!| |done..]. split; eauto.
Qed.

(** * Transitions of the node stores *)

Lemma label_tally_ext ns ns' b :
  (∀ ck, ck ∈ b → ni_label ∘ n_identity <$> ns' !! ck = ni_label ∘ n_identity <$> ns !! ck) →
  label_tally ns' b = label_tally ns b.
Proof.
  unfold label_tally. generalize (∅ : gmap Z Z). induction b as [|x b IH]; intros c H; cbn; [done|].
  rewrite IH by (intros ck Hck; apply H; by right). f_equal.
  specialize (H x ltac:(left)). destruct (ns !! x), (ns' !! x); cbn in H; congruence.
Qed.

(** Rewriting an entry's delta in place. *)
Lemma node_inv_put i ns bd base b ts c ck e e' ts' :
  node_inv i ns bd base b ts c → ns !! ck = Some e →
  n_identity e' = n_identity e → synthetic e' = synthetic e → delta_wf (n_delta e') →
  (∀ d, d ∈ ts' ↔ if decide (bd !! d = Some ck) then tombstoned (n_delta e') = true else d ∈ ts) →
  node_inv i (<[ck := e']> ns) bd base b ts' c.
Proof.
  intros [H1 H2 H3 H4 H5 H6 H7 H8] He Hid Hsyn Hwf Hts. split.
  - intros x y. rewrite lookup_insert_Some. intros [[<- <-]|[_ H]]; [|auto].
    rewrite Hid. destruct (H1 ck e He) as (?&?&?&?). done.
  - intros k x Hk. destruct (H2 k x Hk) as (y & Hy & Hs). destruct (decide (x = ck)) as [->|Hne].
    + exists e'. rewrite lookup_insert_eq. split; [done|]. congruence.
    + exists y. by rewrite lookup_insert_ne.
  - intros x y s. rewrite lookup_insert_Some. intros [[<- <-]|[_ H]] Hs; [|eauto].
    rewrite Hsyn in Hs. eauto.
  - intros d x Hd. destruct (H4 d x Hd) as [Hx ?]. split; [|done]. apply lookup_insert_is_Some'. by right.
  - intros x. rewrite lookup_insert_is_Some'. intros [<-|H]; apply H5; eauto.
  - done.
  - intros d. rewrite Hts. destruct (decide (bd !! d = Some ck)) as [E|E].
    + split; [intros ?; exists ck, e'; by rewrite lookup_insert_eq|].
      intros (x & y & Hx & Hy & ?). rewrite E in Hx. simplify_eq.
      rewrite lookup_insert_eq in Hy. by simplify_eq.
    + rewrite H7. split; intros (x & y & Hx & Hy & ?); exists x, y; split_and!; try done.
      * by rewrite lookup_insert_ne by congruence.
      * rewrite lookup_insert_ne in Hy by congruence. done.
  - rewrite H8. symmetry. apply label_tally_ext. intros x _. destruct (decide (x = ck)) as [->|Hne].
    + rewrite lookup_insert_eq, He. cbn. by rewrite Hid.
    + by rewrite lookup_insert_ne.
Qed.

(** What a new entry must satisfy. *)
Definition entry_ok (i : Interner) (ck : list Z) (e : NodeEntry) : Prop :=
  ck = NodeIdentity.canonical_key (n_identity e) ∧ NodeIdentity.wf (n_identity e) ∧
  known i (n_identity e) ∧ delta_wf (n_delta e).

(** A new entry changes nothing for the keys already there. *)
Lemma insert_fresh {A} (ns : gmap (list Z) A) ck x y e : ns !! ck = None →
  ns !! x = Some y → <[ck := e]> ns !! x = Some y.
Proof. intros Hn Hx. by rewrite lookup_insert_ne by congruence. Qed.

Lemma tombstoned_fresh (ns : gmap (list Z) NodeEntry) (bd : gmap Z (list Z)) (ts : gset Z) ck e d ts' :
  (∀ x, x ∈ ts ↔ ∃ ck e, bd !! x = Some ck ∧ ns !! ck = Some e ∧ tombstoned (n_delta e) = true) →
  (∀ x ck, bd !! x = Some ck → is_Some (ns !! ck)) →
  ns !! ck = None → bd !! d = None →
  ts' = (if tombstoned (n_delta e) then {[d]} ∪ ts else ts) →
  ∀ x, x ∈ ts' ↔ ∃ ck' e', <[d := ck]> bd !! x = Some ck' ∧ <[ck := e]> ns !! ck' = Some e' ∧
                          tombstoned (n_delta e') = true.
Proof.
  intros H7 H4 Hck Hd -> x. destruct (decide (x = d)) as [->|Hx].
  - assert (d ∉ ts) by (rewrite H7; intros (?&?&?&_); congruence).
    split.
    + intros Hin. exists ck, e. rewrite !lookup_insert_eq. destruct (tombstoned (n_delta e)); [done|].
      done.
    + intros (ck' & e' & E & E' & Ht). rewrite lookup_insert_eq in E. simplify_eq.
      rewrite lookup_insert_eq in E'. simplify_eq. rewrite Ht. apply elem_of_union_l, elem_of_singleton. done.
  - trans (x ∈ ts).
    { destruct (tombstoned (n_delta e)); [|done]. rewrite elem_of_union, elem_of_singleton. tauto. }
    rewrite H7. split; intros (ck' & e' & E & E' & Ht); exists ck', e'.
    + rewrite !lookup_insert_ne; [done|congruence|done].
    + rewrite lookup_insert_ne in E by done. rewrite lookup_insert_ne in E'; [done|].
      intros <-. destruct (H4 x ck E). congruence.
Qed.

(** A key seen for the first time that resolves to an id below the synthetic space. *)
Lemma node_inv_core i ns bd base b ts c ck e d ts' :
  node_inv i ns bd base b ts c → ns !! ck = None → entry_ok i ck e → synthetic e = None →
  bd !! d = None → d < base →
  ts' = (if tombstoned (n_delta e) then {[d]} ∪ ts else ts) →
  node_inv i (<[ck := e]> ns) (<[d := ck]> bd) base b ts' c.
Proof.
  intros [H1 H2 H3 H4 H5 H6 H7 H8] Hck He Hsyn Hd Hlt Hts.
  assert (∀ x, bd !! x ≠ Some ck) as Hfresh by (intros x E; destruct (H4 x ck E) as [[??] _]; congruence).
  split.
  - intros x y. rewrite lookup_insert_Some. intros [[<- <-]|[_ H]]; [done|auto].
  - intros k x Hk. destruct (H2 k x Hk) as (y & Hy & Hs). exists y. split; [|done].
    by apply insert_fresh.
  - intros x y s. rewrite lookup_insert_Some. intros [[<- <-]|[_ H]] Hs; [congruence|].
    destruct (H3 x y s H Hs) as [??]. split; [done|]. rewrite lookup_insert_ne; [done|congruence].
  - intros d' x. rewrite lookup_insert_Some, lookup_insert_is_Some'. intros [[<- <-]|[_ H]].
    + split; [by left|]. pose proof (zlen_nonneg b). lia.
    + destruct (H4 d' x H). auto.
  - intros x. rewrite lookup_insert_is_Some'. intros [<-|H]; [exists d; by rewrite lookup_insert_eq|].
    destruct (H5 x H) as [d' Hd']. exists d'. rewrite lookup_insert_ne; [done|congruence].
  - intros x y z. rewrite !lookup_insert_Some. intros [[<- <-]|[? Hx]] [[<- E]|[? Hy]]; subst.
    + done.
    + by destruct (Hfresh y).
    + by destruct (Hfresh x).
    + eauto.
  - eapply tombstoned_fresh; eauto. intros x y E. by destruct (H4 x y E).
  - rewrite H8. symmetry. apply label_tally_ext. intros x [k Hk]%list_elem_of_lookup.
    destruct (H2 k x Hk) as (y & Hy & _). by rewrite (insert_fresh _ _ _ _ _ Hck Hy), Hy.
Qed.

(** A key seen for the first time that resolves nowhere: a born node. *)
Lemma node_inv_born i ns bd base b ts c ck e :
  node_inv i ns bd base b ts c → ns !! ck = None → entry_ok i ck e →
  synthetic e = Some (base + zlen b) → tombstoned (n_delta e) = false →
  node_inv i (<[ck := e]> ns) (<[base + zlen b := ck]> bd) base (b ++ [ck]) ts
    (tally (ni_label (n_identity e)) c).
Proof.
  intros [H1 H2 H3 H4 H5 H6 H7 H8] Hck He Hsyn Ht.
  assert (∀ x, bd !! x ≠ Some ck) as Hfresh by (intros x E; destruct (H4 x ck E) as [[??] _]; congruence).
  assert (bd !! (base + zlen b) = None) as Hd.
  { destruct (bd !! (base + zlen b)) as [x|] eqn:E; [|done]. destruct (H4 _ x E). lia. }
  assert (b !! length b = None) as Hb by by apply lookup_ge_None.
  split.
  - intros x y. rewrite lookup_insert_Some. intros [[<- <-]|[_ H]]; [done|auto].
  - intros k x [H|[Hk Hx]]%lookup_app_Some.
    + destruct (H2 k x H) as (y & Hy & Hs). exists y. split; [by apply insert_fresh|done].
    + apply list_lookup_singleton_Some in Hx as [Hx ->]. exists e. rewrite lookup_insert_eq.
      split; [done|]. rewrite Hsyn. unfold zlen. do 2 f_equal. lia.
  - intros x y s. rewrite lookup_insert_Some. intros [[<- <-]|[_ H]] Hs.
    + rewrite Hsyn in Hs. simplify_eq. rewrite lookup_insert_eq. split; [|done].
      exists (length b). split; [done|]. by apply list_lookup_middle.
    + destruct (H3 x y s H Hs) as [(k & Hk & Hx) E]. split.
      * exists k. split; [done|]. by apply lookup_app_l_Some.
      * rewrite lookup_insert_ne; [done|congruence].
  - intros d' x. rewrite lookup_insert_Some, lookup_insert_is_Some', zlen_app. change (zlen [ck]) with 1.
    intros [[<- <-]|[_ H]]; [split; [by left|lia]|]. destruct (H4 d' x H). split; [by right|lia].
  - intros x. rewrite lookup_insert_is_Some'. intros [<-|H]; [eexists; by rewrite lookup_insert_eq|].
    destruct (H5 x H) as [d' Hd']. exists d'. rewrite lookup_insert_ne; [done|congruence].
  - intros x y z. rewrite !lookup_insert_Some. intros [[<- <-]|[? Hx]] [[<- E]|[? Hy]]; subst.
    + done.
    + by destruct (Hfresh y).
    + by destruct (Hfresh x).
    + eauto.
  - eapply tombstoned_fresh; eauto; [|by rewrite Ht]. intros x y E. by destruct (H4 x y E).
  - unfold label_tally. rewrite foldl_app. cbn. rewrite lookup_insert_eq. f_equal. rewrite H8.
    symmetry. apply label_tally_ext. intros x [k Hk]%list_elem_of_lookup.
    destruct (H2 k x Hk) as (y & Hy & _). by rewrite (insert_fresh _ _ _ _ _ Hck Hy), Hy.
Qed.

(** * Node operations *)

(** The canonical key an operation on [(label, key, value)] addresses. *)
Definition node_ck (label key : str) (value : Value.t) (m : Memtable) : list Z :=
  NodeIdentity.canonical_key (intern_node_identity label key value (interner m)).1.

(** The caller's dense-id resolution is stable: a key keeps the id it is registered under (a
    node born here may also be left to the memtable to find), and a new key gets an id of its
    own, below this level's synthetic space. *)
Definition resolves (m : Memtable) (ck : list Z) (r : option Z) : Prop :=
  match nodes m !! ck with
  | Some e => (r = None ∧ is_Some (synthetic e)) ∨ ∃ d, r = Some d ∧ by_dense m !! d = Some ck
  | None => ∀ d, r = Some d → by_dense m !! d = None ∧ d < synthetic_base m
  end.

(** The delta stored under a canonical key; an absent entry is an empty delta. *)
Definition delta_at (m : Memtable) (ck : list Z) : NodeDelta :=
  match nodes m !! ck with Some e => n_delta e | None => NodeDelta.default end.

Definition same_edges (m m' : Memtable) : Prop :=
  edges m' = edges m ∧ out_adj m' = out_adj m ∧ in_adj m' = in_adj m ∧ by_edge_id m' = by_edge_id m ∧
  edge_synthetic_base m' = edge_synthetic_base m ∧ born_edges m' = born_edges m.

Lemma edges_ok_same m m' : same_edges m m' → Interner.extends (interner m) (interner m') →
  edges_ok m → edges_ok m'.
Proof.
  intros (E1&E2&E3&E4&E5&E6) Hx H. unfold edges_ok. rewrite E1, E2, E3, E4, E5, E6.
  by eapply edge_inv_extends.
Qed.

(** What a node operation with target [ck] leaves behind: the other keys, ids and edges. *)
Record frames (m m' : Memtable) (ck : list Z) : Prop := {
  frame_edges : same_edges m m';
  frame_interner : Interner.extends (interner m) (interner m');
  frame_nodes : ∀ x, x ≠ ck → nodes m' !! x = nodes m !! x;
  frame_base : synthetic_base m' = synthetic_base m;
  frame_dense : ∀ d x, by_dense m !! d = Some x → by_dense m' !! d = Some x;
  frame_born : born m `prefix_of` born m';
}.

Lemma frames_trans m1 m2 m3 ck : frames m1 m2 ck → frames m2 m3 ck → frames m1 m3 ck.
Proof.
  intros [(A1&A2&A3&A4&A5&A6) A7 A8 A9 A10 A11] [(B1&B2&B3&B4&B5&B6) B7 B8 B9 B10 B11].
  split; [unfold same_edges; split_and!; congruence|by eapply extends_trans| |congruence|eauto|by etrans].
  intros x Hx. rewrite B8, A8; done.
Qed.

(** A live entry is not in the tombstone set. *)
Lemma live_tombstones m ck e d : nodes_ok m → nodes m !! ck = Some e →
  tombstoned (n_delta e) = false →
  d ∈ m_tombstoned m ↔ if decide (by_dense m !! d = Some ck) then false = true else d ∈ m_tombstoned m.
Proof.
  intros Hm He Ht. destruct (decide _) as [E|E]; [|done]. rewrite (inv_tombstoned _ _ _ _ _ _ _ Hm).
  split; [|done]. intros (x & y & Hx & Hy & Hty). congruence.
Qed.

(** Evaluate an operation whose lookups [H] decides. *)
Ltac settle H := repeat (cbn; rewrite H); cbn.

Section node_ops.
Context {layout : Layout}.

(** The touched entry, in the three cases of the code. *)
Lemma touch_existing l k v r m id i e : memtable_wf m →
  intern_node_identity l k v (interner m) = (id, i) →
  nodes m !! NodeIdentity.canonical_key id = Some e → resolves m (NodeIdentity.canonical_key id) r →
  let ck := NodeIdentity.canonical_key id in
  ∃ d, by_dense m !! d = Some ck ∧
    touch_node_entry l k v r m =
      (ck, set_tombstoned (set_nodes (set_interner m i)
             (<[ck := mkNodeEntry (n_identity e) (NodeDelta.resurrect (n_delta e)) (synthetic e)]> (nodes m)))
             (if tombstoned (n_delta e) then m_tombstoned m ∖ {[d]} else m_tombstoned m)).
Proof.
  intros (Hi & Hn & He) E Hck Hr ck. unfold resolves in Hr. rewrite Hck in Hr.
  destruct Hr as [[-> [s Hs]]|(d & -> & Hd)].
  - exists s. destruct (inv_synthetic _ _ _ _ _ _ _ Hn _ _ _ Hck Hs) as [_ Hbd]. split; [done|].
    unfold touch_node_entry. rewrite E. settle Hck. rewrite Hs. cbn.
    by destruct (tombstoned (n_delta e)), m.
  - exists d. split; [done|]. unfold touch_node_entry. rewrite E. settle Hck.
    rewrite union_Some_l. destruct (tombstoned (n_delta e)), m; unfold set_by_dense, set_tombstoned; cbn in *;
      by rewrite (insert_id _ d).
Qed.

Lemma touch_resolved l k v d m id i : 
  intern_node_identity l k v (interner m) = (id, i) →
  nodes m !! NodeIdentity.canonical_key id = None →
  let ck := NodeIdentity.canonical_key id in
  touch_node_entry l k v (Some d) m =
    (ck, charge (set_by_dense (set_nodes (set_interner m i)
           (<[ck := mkNodeEntry id NodeDelta.default None]> (nodes m))) (<[d := ck]> (by_dense m)))
           (zlen ck + size_of_NodeEntry)).
Proof. intros E Hck ck. unfold touch_node_entry. rewrite E. settle Hck. done. Qed.

Lemma touch_born l k v m id i :
  intern_node_identity l k v (interner m) = (id, i) →
  nodes m !! NodeIdentity.canonical_key id = None →
  let ck := NodeIdentity.canonical_key id in
  touch_node_entry l k v None m =
    (ck, charge (set_born (set_by_dense (set_nodes (set_interner m i)
           (<[ck := mkNodeEntry id NodeDelta.default (Some (next_synthetic m))]> (nodes m)))
           (<[next_synthetic m := ck]> (by_dense m)))
           (born m ++ [ck]) (tally (ni_label id) (born_label_counts m)))
           (zlen ck + size_of_NodeEntry)).
Proof.
  intros E Hck ck. unfold touch_node_entry. rewrite E. settle Hck.
  unfold set_nodes, set_by_dense, set_born, charge. cbn. by rewrite insert_insert_eq.
Qed.

(** The entry a node write with target [(l, k, v)] leaves under its key. *)
Definition holds (m : Memtable) (l k : str) (v : Value.t) (ck : list Z) (d : NodeDelta) : Prop :=
  ∃ e, nodes m !! ck = Some e ∧ n_delta e = d ∧ ni_value (n_identity e) = v ∧
    Interner.name (ni_label (n_identity e)) (interner m) = Some l ∧
    Interner.name (ni_key (n_identity e)) (interner m) = Some k.

Lemma existing_identity m id e : nodes_ok m → NodeIdentity.wf id →
  nodes m !! NodeIdentity.canonical_key id = Some e → n_identity e = id.
Proof.
  intros Hn Hid He. destruct (inv_entry _ _ _ _ _ _ _ Hn _ _ He) as (E & Hw & _ & _).
  symmetry. by apply node_canonical_key_inj.
Qed.

(** A rewrite of an existing entry's delta, its tombstone recorded or cleared. *)
Lemma rewrite_entry_ok m i ck e e' d ts : memtable_wf m → Interner.wf i →
  Interner.extends (interner m) i → nodes m !! ck = Some e → by_dense m !! d = Some ck →
  n_identity e' = n_identity e → synthetic e' = synthetic e → delta_wf (n_delta e') →
  (∀ x, x ≠ d → x ∈ ts ↔ x ∈ m_tombstoned m) → (d ∈ ts ↔ tombstoned (n_delta e') = true) →
  memtable_wf (set_tombstoned (set_nodes (set_interner m i) (<[ck := e']> (nodes m))) ts) ∧
  frames m (set_tombstoned (set_nodes (set_interner m i) (<[ck := e']> (nodes m))) ts) ck.
Proof.
  intros (Hi & Hn & He) Hwi Hx Hck Hd Hid Hs Hw Hts Htd.
  assert (frames m (set_tombstoned (set_nodes (set_interner m i) (<[ck := e']> (nodes m))) ts) ck) as Hf.
  { split; cbn; try done. intros x Hne. by rewrite lookup_insert_ne. }
  split; [|done]. split_and!; [done| |by eapply edges_ok_same; [apply Hf|apply Hf|]].
  unfold nodes_ok. cbn. eapply (node_inv_put _ _ _ _ _ _ _ ck e); try done.
  { by eapply node_inv_extends. }
  intros x. destruct (decide (by_dense m !! x = Some ck)) as [E|E].
  - by rewrite (inv_dense_unique _ _ _ _ _ _ _ Hn x d ck E Hd).
  - apply Hts. by intros ->.
Qed.

(** The tombstone an entry had, if any, is under its one dense id. *)
Lemma tombstone_at m ck e d : nodes_ok m → nodes m !! ck = Some e → by_dense m !! d = Some ck →
  d ∈ m_tombstoned m ↔ tombstoned (n_delta e) = true.
Proof.
  intros Hn He Hd. rewrite (inv_tombstoned _ _ _ _ _ _ _ Hn). split; [|eauto].
  intros (x & y & Hx & Hy & ?). congruence.
Qed.

(** A new entry for a key that resolves below the synthetic space. *)
Lemma core_entry_ok m i ck e d n : memtable_wf m → Interner.wf i →
  Interner.extends (interner m) i → nodes m !! ck = None → entry_ok i ck e → synthetic e = None →
  by_dense m !! d = None → d < synthetic_base m →
  let m' := charge (set_tombstoned (set_by_dense (set_nodes (set_interner m i)
              (<[ck := e]> (nodes m))) (<[d := ck]> (by_dense m)))
              (if tombstoned (n_delta e) then {[d]} ∪ m_tombstoned m else m_tombstoned m)) n in
  memtable_wf m' ∧ frames m m' ck.
Proof.
  intros (Hi & Hn & He) Hwi Hx Hck Hok Hs Hd Hlt m'.
  assert (frames m m' ck) as Hf.
  { split; cbn; try done; [by intros x Hne; rewrite lookup_insert_ne|].
    intros x y Hy. rewrite lookup_insert_ne; [done|congruence]. }
  split; [|done]. split_and!; [done| |by eapply edges_ok_same; [apply Hf|apply Hf|]].
  unfold nodes_ok. cbn. apply (node_inv_core _ _ _ _ _ (m_tombstoned m)); try done.
  by eapply node_inv_extends.
Qed.

(** A new live entry for a key that resolves nowhere. *)
Lemma born_entry_ok m i ck e n : memtable_wf m → Interner.wf i →
  Interner.extends (interner m) i → nodes m !! ck = None → entry_ok i ck e →
  synthetic e = Some (next_synthetic m) → tombstoned (n_delta e) = false →
  let m' := charge (set_born (set_by_dense (set_nodes (set_interner m i)
              (<[ck := e]> (nodes m))) (<[next_synthetic m := ck]> (by_dense m)))
              (born m ++ [ck]) (tally (ni_label (n_identity e)) (born_label_counts m))) n in
  memtable_wf m' ∧ frames m m' ck.
Proof.
  intros (Hi & Hn & He) Hwi Hx Hck Hok Hs Ht m'.
  assert (frames m m' ck) as Hf.
  { split; cbn; try done; [by intros x Hne; rewrite lookup_insert_ne| |by apply prefix_app_r].
    intros x y Hy. rewrite lookup_insert_ne; [done|]. intros <-.
    destruct (inv_dense _ _ _ _ _ _ _ Hn _ _ Hy). unfold next_synthetic in *. lia. }
  split; [|done]. split_and!; [done| |by eapply edges_ok_same; [apply Hf|apply Hf|]].
  unfold nodes_ok. cbn. apply node_inv_born; try done. by eapply node_inv_extends.
Qed.

Lemma touch_ok l k v r m ck m' : memtable_wf m → room 2 (interner m) → Value.wf v →
  resolves m (node_ck l k v m) r → touch_node_entry l k v r m = (ck, m') →
  ck = node_ck l k v m ∧ (memtable_wf m' ∧ frames m m' ck) ∧
  holds m' l k v ck (NodeDelta.resurrect (delta_at m ck)).
Proof.
  intros Hm Hroom Hv. unfold node_ck.
  destruct (intern_node_identity l k v (interner m)) as [id i] eqn:E. cbn.
  pose proof Hm as (Hi & Hn & He).
  destruct (intern_node_ok l k v (interner m) id i 0) as (Hwi & Hx & _ & Hid & Hkn & Hval & Hl & Hk); try done.
  set (key := NodeIdentity.canonical_key id). intros Hr Ht. unfold holds, delta_at.
  destruct (nodes m !! key) as [e|] eqn:Hck.
  { destruct (touch_existing l k v r m id i e) as (d & Hd & E'); try done.
    rewrite E' in Ht. injection Ht as <- <-. fold key in Hd |- *. split; [done|]. split.
    - pose proof (tombstone_at m key e d Hn Hck Hd) as Htd.
      apply (rewrite_entry_ok m i key e _ d); try done.
      + apply resurrect_wf. by destruct (inv_entry _ _ _ _ _ _ _ Hn _ _ Hck) as (_&_&_&?).
      + intros x Hxd. destruct (tombstoned (n_delta e)); [|done].
        rewrite elem_of_difference, elem_of_singleton. tauto.
      + cbn. destruct (tombstoned (n_delta e)); [|done].
        rewrite elem_of_difference, elem_of_singleton. split; [tauto|done].
    - rewrite Hck. cbn. eexists. rewrite lookup_insert_eq. split; [done|]. cbn.
      by rewrite (existing_identity m id e). }
  assert (∀ s, entry_ok i key (mkNodeEntry id NodeDelta.default s)) as Hok
    by (intros s; split_and!; [done..|apply default_wf]).
  unfold resolves in Hr. rewrite Hck in Hr. destruct r as [d|].
  - destruct (Hr d eq_refl) as [Hd Hlt]. rewrite (touch_resolved l k v d m id i) in Ht by done.
    injection Ht as <- <-. fold key. split; [done|]. split.
    + by apply (core_entry_ok m i key (mkNodeEntry id NodeDelta.default None) d).
    + cbn. rewrite Hck. eexists. by rewrite lookup_insert_eq.
  - rewrite (touch_born l k v m id i) in Ht by done.
    injection Ht as <- <-. fold key. split; [done|]. split.
    + by apply (born_entry_ok m i key (mkNodeEntry id NodeDelta.default _)).
    + cbn. rewrite Hck. eexists. by rewrite lookup_insert_eq.
Qed.

(** Mutating a live entry's delta. *)
Lemma update_ok m ck f l k v d : memtable_wf m → holds m l k v ck d →
  tombstoned d = false → tombstoned (f d) = false → delta_wf (f d) →
  memtable_wf (update_delta ck f m) ∧ frames m (update_delta ck f m) ck ∧
  holds (update_delta ck f m) l k v ck (f d).
Proof.
  intros Hm (e & Hck & <- & Hnames) Ht Hft Hw. unfold update_delta. rewrite Hck.
  pose proof Hm as (Hi & Hn & He).
  destruct (inv_dense_total _ _ _ _ _ _ _ Hn ck) as [d Hd]; [by rewrite Hck|].
  pose proof (tombstone_at m ck e d Hn Hck Hd) as Htd.
  destruct (rewrite_entry_ok m (interner m) ck e
    (mkNodeEntry (n_identity e) (f (n_delta e)) (synthetic e)) d (m_tombstoned m)) as [Hm' Hf];
    try done; [by unfold Interner.extends|cbn; by rewrite Htd, Ht, Hft|].
  replace (set_tombstoned _ _) with (set_nodes m
    (<[ck := mkNodeEntry (n_identity e) (f (n_delta e)) (synthetic e)]> (nodes m))) in Hm', Hf
    by by destruct m.
  split_and!; [done..|]. eexists. cbn. by rewrite lookup_insert_eq.
Qed.

(** The five node operations, as one. *)
Definition node_write (o : node_op) (l k : str) (v : Value.t) (r : option Z) (m : Memtable) : Memtable :=
  match o with
  | OpSet ps => upsert_node l k v r ps m
  | OpRemove ns => remove_node_props l k v r ns m
  | OpReplace ps => replace_node l k v r ps m
  | OpLabels a d => set_node_labels l k v r a d m
  | OpDelete => delete_node l k v r m
  end.

Lemma node_write_interner o l k v r m :
  interner (node_write o l k v r m) = (intern_node_identity l k v (interner m)).2.
Proof.
  assert (interner (touch_node_entry l k v r m).2 = (intern_node_identity l k v (interner m)).2) as Ht.
  { unfold touch_node_entry. destruct (intern_node_identity l k v (interner m)). by repeat case_match. }
  assert (∀ ck f m n, interner (charge (update_delta ck f m) n) = interner m) as Hu.
  { intros. unfold update_delta. by case_match. }
  destruct o; cbn; unfold upsert_node, remove_node_props, replace_node, set_node_labels;
    try (destruct (touch_node_entry l k v r m); by rewrite Hu).
  unfold delete_node. destruct (intern_node_identity l k v (interner m)). by repeat case_match.
Qed.

Lemma delete_ok l k v r m : memtable_wf m → room 2 (interner m) → Value.wf v →
  resolves m (node_ck l k v m) r →
  let m' := delete_node l k v r m in let ck := node_ck l k v m in
  (memtable_wf m' ∧ frames m m' ck) ∧
  (r = None ∧ nodes m !! ck = None ∧ nodes m' = nodes m ∨
   holds m' l k v ck (NodeDelta.tombstone (delta_at m ck))).
Proof.
  intros Hm Hroom Hv. unfold node_ck, delete_node.
  destruct (intern_node_identity l k v (interner m)) as [id i] eqn:E. cbn.
  pose proof Hm as (Hi & Hn & He).
  destruct (intern_node_ok l k v (interner m) id i 0) as (Hwi & Hx & _ & Hid & Hkn & Hval & Hl & Hk); try done.
  set (key := NodeIdentity.canonical_key id). intros Hr. unfold holds, delta_at.
  unfold resolves in Hr. destruct (nodes m !! key) as [e|] eqn:Hck; cbn.
  - assert (∃ d, by_dense m !! d = Some key ∧ union r (synthetic e) = Some d) as (d & Hd & Hrd).
    { destruct Hr as [[-> [s Hs]]|(d & -> & Hd)]; [|exists d; by rewrite union_Some_l].
      exists s. rewrite Hs. by destruct (inv_synthetic _ _ _ _ _ _ _ Hn _ _ _ Hck Hs) as [_ ?]. }
    destruct (rewrite_entry_ok m i key e (mkNodeEntry (n_identity e)
      (NodeDelta.tombstone (n_delta e)) (synthetic e)) d ({[d]} ∪ m_tombstoned m)) as [Hm' Hf];
      try done;
      [by intros x Hxd; rewrite elem_of_union, elem_of_singleton; tauto
      |split; [done|]; intros _; by apply elem_of_union_l, elem_of_singleton|].
    match goal with |- (memtable_wf ?M ∧ _) ∧ _ =>
      assert (M = set_tombstoned (set_nodes (set_interner m i) (<[key := mkNodeEntry (n_identity e)
        (NodeDelta.tombstone (n_delta e)) (synthetic e)]> (nodes m))) ({[d]} ∪ m_tombstoned m)) as -> end.
    { settle Hck. destruct r as [x|].
      - rewrite union_Some_l in Hrd. simplify_eq. unfold set_by_dense, set_tombstoned. cbn.
        by rewrite (insert_id (by_dense m)).
      - rewrite (left_id_L None union) in Hrd. by rewrite Hrd. }
    split; [done|]. right. eexists. cbn. rewrite lookup_insert_eq. split; [done|]. cbn.
    by rewrite (existing_identity m id e).
  - destruct r as [d|]; cbn.
    + destruct (Hr d eq_refl) as [Hd Hlt]. split.
      * settle Hck. by destruct (core_entry_ok m i key
          (mkNodeEntry id (NodeDelta.tombstone NodeDelta.default) None) d (zlen key + size_of_NodeEntry)).
      * right. settle Hck. eexists. by rewrite lookup_insert_eq.
    + split; [|by left]. split; [|by split]. split_and!; [done| |].
      * by eapply node_inv_extends.
      * by eapply edge_inv_extends.
Qed.

Lemma charge_ok m n ck m' : memtable_wf m' ∧ frames m m' ck →
  memtable_wf (charge m' n) ∧ frames m (charge m' n) ck.
Proof. by intros [Hm [H1 H2 H3 H4 H5 H6]]. Qed.

(** A write that touches the entry and then mutates its delta. *)
Lemma mutate_ok l k v r m f (cost : Memtable → list Z → Z) :
  memtable_wf m → room 2 (interner m) → Value.wf v → resolves m (node_ck l k v m) r →
  (∀ d, delta_wf d → tombstoned d = false → delta_wf (f d) ∧ tombstoned (f d) = false) →
  let m' := let '(ck, m) := touch_node_entry l k v r m in charge (update_delta ck f m) (cost m ck) in
  let ck := node_ck l k v m in
  (memtable_wf m' ∧ frames m m' ck) ∧ holds m' l k v ck (f (NodeDelta.resurrect (delta_at m ck))).
Proof.
  intros Hm Hroom Hv Hr Hf. destruct (touch_node_entry l k v r m) as [ck m1] eqn:E. cbv zeta.
  destruct (touch_ok l k v r m ck m1) as (<- & [Hm1 Hf1] & Hh); try done.
  assert (delta_wf (delta_at m ck)) as Hw.
  { unfold delta_at. destruct (nodes m !! ck) eqn:Hck; [|apply default_wf].
    by destruct Hm as (_ & Hn & _); destruct (inv_entry _ _ _ _ _ _ _ Hn _ _ Hck) as (_&_&_&?). }
  destruct (Hf (NodeDelta.resurrect (delta_at m ck))) as [Hfw Hft]; [by apply resurrect_wf|done|].
  destruct (update_ok m1 ck f l k v (NodeDelta.resurrect (delta_at m ck))) as (Hm2 & Hf2 & Hh2); try done.
  split; [|done]. apply charge_ok. split; [done|]. by eapply frames_trans.
Qed.

Lemma node_write_ok o l k v r m : memtable_wf m → room 2 (interner m) → Value.wf v →
  resolves m (node_ck l k v m) r →
  let m' := node_write o l k v r m in let ck := node_ck l k v m in
  (memtable_wf m' ∧ frames m m' ck) ∧
  (o = OpDelete ∧ r = None ∧ nodes m !! ck = None ∧ nodes m' = nodes m ∨
   holds m' l k v ck (delta_step (delta_at m ck) o)).
Proof.
  intros Hm Hroom Hv Hr. destruct o as [ps|ns|ps|a d|]; cbn.
  - destruct (mutate_ok l k v r m (NodeDelta.upsert ps) (λ _ _, patch_bytes ps)); auto.
    intros d Hd Ht. by apply foldl_wf; [apply set_prop_wf|..].
  - destruct (mutate_ok l k v r m (NodeDelta.remove_props ns) (λ m ck,
      if match nodes m !! ck with Some e => replaced (n_delta e) | None => false end
      then 0 else names_bytes ns)); auto.
    intros d Hd Ht. by apply foldl_wf; [apply remove_prop_wf|..].
  - destruct (mutate_ok l k v r m (NodeDelta.replace ps) (λ _ _, patch_bytes ps)); auto.
    intros d Hd Ht. split; [by apply replace_wf|]. by pose proof (replace_keeps ps d) as [= _ _ ->].
  - destruct (mutate_ok l k v r m (NodeDelta.set_labels a d) (λ _ _, names_bytes a + names_bytes d)); auto.
    intros x Hx Ht. by apply set_labels_wf.
  - destruct (delete_ok l k v r m) as [? [(?&?&?)|?]]; auto 10.
Qed.
End node_ops.

(** * Transitions of the edge stores *)

Section adjacency.
Context (adj : gmap Z (list (list Z))) (es : gmap (list Z) EdgeEntry) (endpoint : EdgeEntry → Z).
Context (Hadj : adj_ok adj es endpoint).

Lemma adj_put eck e e' : es !! eck = Some e → endpoint e' = endpoint e →
  (core_edge e' = None → core_edge e = None) → adj_ok adj (<[eck := e']> es) endpoint.
Proof using Hadj.
  destruct Hadj as [Hs Hc]. intros He Hep Hcore. split.
  - intros n v Hv. destruct (Hs n v Hv) as [Hnd Hin]. split; [done|]. intros x Hx.
    destruct (Hin x Hx) as (y & Hy & Hn). destruct (decide (x = eck)) as [->|Hne].
    + exists e'. rewrite lookup_insert_eq. split; [done|congruence].
    + exists y. by rewrite lookup_insert_ne.
  - intros x y. rewrite lookup_insert_Some. intros [[<- <-]|[_ H]] Hy; [|by apply Hc].
    rewrite Hep. apply Hc; auto.
Qed.

Lemma adj_fresh eck e : es !! eck = None → is_Some (core_edge e) → adj_ok adj (<[eck := e]> es) endpoint.
Proof using Hadj.
  destruct Hadj as [Hs Hc]. intros He [c Hcore]. split.
  - intros n v Hv. destruct (Hs n v Hv) as [Hnd Hin]. split; [done|]. intros x Hx.
    destruct (Hin x Hx) as (y & Hy & Hn). exists y. split; [by apply insert_fresh|done].
  - intros x y. rewrite lookup_insert_Some. intros [[<- <-]|[_ H]] Hy; [congruence|by apply Hc].
Qed.

(** Listing an entry that is not listed yet under its endpoint. *)
Lemma adj_listed eck e :
  eck ∉ default [] (adj !! endpoint e) →
  (∀ y, es !! eck = Some y → endpoint y = endpoint e) →
  adj_ok (push_adj (endpoint e) eck adj) (<[eck := e]> es) endpoint.
Proof using Hadj.
  destruct Hadj as [Hs Hc]. intros Hni Hep. unfold push_adj.
  assert (∀ n v x, adj !! n = Some v → x ∈ v → ∃ y, <[eck := e]> es !! x = Some y ∧ endpoint y = n) as Hold.
  { intros n v x Hv Hx. destruct (Hs n v Hv) as [_ Hin]. destruct (Hin x Hx) as (y & Hy & Hn).
    destruct (decide (x = eck)) as [->|Hne].
    - exists e. rewrite lookup_insert_eq. split; [done|]. by rewrite <-(Hep y Hy).
    - exists y. by rewrite lookup_insert_ne. }
  split.
  - intros n v. rewrite lookup_insert_Some. intros [[<- <-]|[_ Hv]].
    + assert (∀ x, x ∈ default [] (adj !! endpoint e) → ∃ v, adj !! endpoint e = Some v ∧ x ∈ v) as Hd.
      { intros x Hx. destruct (adj !! endpoint e); [eauto|by apply elem_of_nil in Hx]. }
      split.
      * apply NoDup_app. split_and!; [|by intros x Hx ->%list_elem_of_singleton|apply NoDup_singleton].
        destruct (adj !! endpoint e) as [v|] eqn:E; cbn; [|apply NoDup_nil_2].
        by destruct (Hs _ _ E).
      * intros x [Hx| ->%list_elem_of_singleton]%elem_of_app; [|exists e; by rewrite lookup_insert_eq].
        destruct (Hd x Hx) as (v & Hv & Hxv). eauto.
    + split; [by destruct (Hs n v Hv)|eauto].
  - intros x y. rewrite lookup_insert_Some. intros [[<- <-]|[Hne H]] Hy.
    + eexists. rewrite lookup_insert_eq. split; [done|]. apply elem_of_app. right. by apply list_elem_of_singleton.
    + destruct (Hc x y H Hy) as (v & Hv & Hx). destruct (decide (endpoint y = endpoint e)) as [E|E].
      * rewrite E in *. eexists. rewrite lookup_insert_eq, Hv. split; [done|]. cbn. apply elem_of_app. by left.
      * exists v. by rewrite lookup_insert_ne.
Qed.

Lemma adj_once eck e e' : es !! eck = Some e → endpoint e' = endpoint e →
  adj_ok (push_adj_once (endpoint e') eck adj) (<[eck := e']> es) endpoint.
Proof using Hadj.
  intros He Hep. unfold push_adj_once. case_bool_decide as Hin.
  - destruct (adj !! endpoint e') as [v|] eqn:Hv; cbn in *; [|by apply elem_of_nil in Hin].
    rewrite insert_id by done. destruct Hadj as [Hs Hc]. split.
    + intros n w Hw. destruct (Hs n w Hw) as [Hnd Hall]. split; [done|]. intros x Hx.
      destruct (Hall x Hx) as (y & Hy & Hn). destruct (decide (x = eck)) as [->|Hne].
      * exists e'. rewrite lookup_insert_eq. split; [done|congruence].
      * exists y. by rewrite lookup_insert_ne.
    + intros x y. rewrite lookup_insert_Some. intros [[<- <-]|[_ H]] Hy; eauto.
  - apply adj_listed; [done|]. intros y Hy. by simplify_eq.
Qed.
End adjacency.

Section edge_transitions.
Context (i : Interner) (es : gmap (list Z) EdgeEntry) (oa ia : gmap Z (list (list Z))).
Context (be : gmap Z (list Z)) (base : Z) (b : list (list Z)).
Context (Hinv : edge_inv i es oa ia be base b).

Definition edge_entry_ok (eck : list Z) (e : EdgeEntry) : Prop :=
  eck = EdgeIdentity.canonical_key (e_identity e) ∧ EdgeIdentity.wf (e_identity e) ∧
  known_edge i (e_identity e) ∧
  (e_tombstoned (e_delta e) = true → e_patches (e_delta e) = ∅ ∧ e_replaced (e_delta e) = false).

Lemma fresh_unlisted eck adj endpoint n : adj_ok adj es endpoint → es !! eck = None →
  eck ∉ default [] (adj !! n).
Proof.
  intros [Hs _] He Hin. destruct (adj !! n) as [v|] eqn:Hv; cbn in Hin; [|by apply elem_of_nil in Hin].
  destruct (Hs n v Hv) as [_ Hall]. destruct (Hall eck Hin) as (y & Hy & _). congruence.
Qed.

(** A new entry: born when it takes the next synthetic id, tombstone-only otherwise. *)
Lemma edge_inv_listed eck e : es !! eck = None → edge_entry_ok eck e → core_edge e = None →
  let b' := if synthetic_edge e is Some _ then b ++ [eck] else b in
  (∀ s, synthetic_edge e = Some s → s = base + zlen b) →
  edge_inv i (<[eck := e]> es) (push_adj (src_dense e) eck oa) (push_adj (dst_dense e) eck ia) be base b'.
Proof using Hinv.
  destruct Hinv as [H1 H2 H3 H4 H5 H6 H7]. intros He Hok Hcore b' Hs.
  assert (b `prefix_of` b') as Hpre by (unfold b'; destruct (synthetic_edge e); [by apply prefix_app_r|done]).
  split.
  - intros x y. rewrite lookup_insert_Some. intros [[<- <-]|[_ H]]; [done|auto].
  - intros k x Hk. destruct (b !! k) as [x'|] eqn:Hb.
    + rewrite (prefix_lookup_Some _ _ _ _ Hb Hpre) in Hk. simplify_eq.
      destruct (H2 k x Hb) as (y & Hy & ?). exists y. split; [by apply insert_fresh|done].
    + unfold b' in Hk. destruct (synthetic_edge e) as [s|] eqn:Es; [|congruence].
      apply lookup_app_Some in Hk as [Hk|[Hle [Hk <-]%list_lookup_singleton_Some]]; [congruence|].
      exists e. rewrite lookup_insert_eq, Es, (Hs s eq_refl). split; [done|].
      unfold zlen. do 2 f_equal. lia.
  - intros x y s. rewrite lookup_insert_Some. intros [[<- <-]|[_ H]] Hy.
    + split; [done|]. exists (length b). split; [by apply Hs|]. unfold b'. rewrite Hy.
      by apply list_lookup_middle.
    + destruct (H3 x y s H Hy) as (? & k & ? & Hk). split; [done|]. exists k. split; [done|].
      by eapply prefix_lookup_Some.
  - apply adj_listed; [done|by eapply fresh_unlisted|]. intros y Hy. congruence.
  - apply adj_listed; [done|by eapply fresh_unlisted|]. intros y Hy. congruence.
  - intros cid x. rewrite H6. split; intros (y & Hy & Hc); exists y; (split; [|done]).
    + by apply insert_fresh.
    + rewrite lookup_insert_Some in Hy. destruct Hy as [[<- <-]|[_ ?]]; [congruence|done].
  - done.
Qed.

(** A patch over a core edge, new or laid on an entry of that edge. *)
Lemma edge_inv_core eck e cid : edge_entry_ok eck e → core_edge e = Some cid →
  synthetic_edge e = None → cid < base →
  (∀ y, es !! eck = Some y → src_dense y = src_dense e ∧ dst_dense y = dst_dense e ∧
     synthetic_edge y = None ∧ (core_edge y = None ∨ core_edge y = Some cid)) →
  (∀ x, be !! cid = Some x → x = eck) →
  edge_inv i (<[eck := e]> es) oa ia (<[cid := eck]> be) base b.
Proof using Hinv.
  destruct Hinv as [H1 H2 H3 H4 H5 H6 H7]. intros Hok Hcore Hsyn Hlt Hold Hbe. split.
  - intros x y. rewrite lookup_insert_Some. intros [[<- <-]|[_ H]]; [done|auto].
  - intros k x Hk. destruct (H2 k x Hk) as (y & Hy & Hs). exists y. split; [|done].
    rewrite lookup_insert_ne; [done|]. intros <-. destruct (Hold y Hy) as (_&_&?&_). congruence.
  - intros x y s. rewrite lookup_insert_Some. intros [[<- <-]|[_ H]] Hs; [congruence|eauto].
  - destruct (es !! eck) as [y|] eqn:E; [|by apply adj_fresh].
    destruct (Hold y eq_refl) as (?&?&?&?). eapply adj_put; [done..|congruence].
  - destruct (es !! eck) as [y|] eqn:E; [|by apply adj_fresh].
    destruct (Hold y eq_refl) as (?&?&?&?). eapply adj_put; [done..|congruence].
  - intros c x. rewrite lookup_insert_Some. split.
    + intros [[<- <-]|[Hne Hc]]; [exists e; by rewrite lookup_insert_eq|].
      apply H6 in Hc as (y & Hy & Hyc). exists y. split; [|done]. rewrite lookup_insert_ne; [done|].
      intros <-. destruct (Hold y Hy) as (_&_&_&[?|?]); congruence.
    + intros (y & Hy & Hyc). rewrite lookup_insert_Some in Hy. destruct Hy as [[<- <-]|[Hne Hy]].
      * left. split; congruence.
      * assert (be !! c = Some x) as Hbx by (apply H6; eauto). right. split; [|done].
        intros <-. by apply Hne, eq_sym, Hbe.
  - intros c x. rewrite lookup_insert_Some. intros [[<- <-]|[_ H]]; [done|eauto].
Qed.

(** Rewriting an entry in place, its core link kept. *)
Lemma edge_inv_put eck e e' : es !! eck = Some e → edge_entry_ok eck e' →
  src_dense e' = src_dense e → dst_dense e' = dst_dense e → synthetic_edge e' = synthetic_edge e →
  core_edge e' = core_edge e → edge_inv i (<[eck := e']> es) oa ia be base b.
Proof using Hinv.
  destruct Hinv as [H1 H2 H3 H4 H5 H6 H7]. intros He Hok Hsrc Hdst Hsyn Hcore. split.
  - intros x y. rewrite lookup_insert_Some. intros [[<- <-]|[_ H]]; [done|auto].
  - intros k x Hk. destruct (H2 k x Hk) as (y & Hy & Hs). destruct (decide (x = eck)) as [->|Hne].
    + exists e'. rewrite lookup_insert_eq. split; congruence.
    + exists y. by rewrite lookup_insert_ne.
  - intros x y s. rewrite lookup_insert_Some. intros [[<- <-]|[_ H]] Hs; [|eauto].
    rewrite Hcore. rewrite Hsyn in Hs. eauto.
  - eapply adj_put; [done..|congruence].
  - eapply adj_put; [done..|congruence].
  - intros c x. rewrite H6. destruct (decide (x = eck)) as [->|Hne].
    + rewrite lookup_insert_eq. split; intros (y & Hy & Hc); simplify_eq; eexists; (split; [done|congruence]).
    + by rewrite lookup_insert_ne.
  - done.
Qed.

(** Deleting a patched core edge: the patch index gives way to an adjacency tombstone. *)
Lemma edge_inv_drop eck e e' cid : es !! eck = Some e → edge_entry_ok eck e' →
  core_edge e = Some cid → core_edge e' = None → synthetic_edge e' = synthetic_edge e →
  src_dense e' = src_dense e → dst_dense e' = dst_dense e →
  edge_inv i (<[eck := e']> es) (push_adj_once (src_dense e') eck oa)
    (push_adj_once (dst_dense e') eck ia) (delete cid be) base b.
Proof using Hinv.
  destruct Hinv as [H1 H2 H3 H4 H5 H6 H7]. intros He Hok Hcore Hcore' Hsyn Hsrc Hdst.
  assert (synthetic_edge e = None) as Hns.
  { destruct (synthetic_edge e) eqn:E; [|done]. destruct (H3 _ _ _ He E). congruence. }
  split.
  - intros x y. rewrite lookup_insert_Some. intros [[<- <-]|[_ H]]; [done|auto].
  - intros k x Hk. destruct (H2 k x Hk) as (y & Hy & Hs). exists y. split; [rewrite lookup_insert_ne; congruence|done].
  - intros x y s. rewrite lookup_insert_Some. intros [[<- <-]|[_ H]] Hs; [congruence|eauto].
  - by eapply adj_once.
  - by eapply adj_once.
  - intros c x. rewrite lookup_delete_Some, H6. split.
    + intros (Hne & y & Hy & Hc). exists y. split; [|done]. rewrite lookup_insert_ne; congruence.
    + intros (y & Hy & Hc). rewrite lookup_insert_Some in Hy. destruct Hy as [[<- <-]|[Hne Hy]]; [congruence|].
      split; [|eauto]. intros <-. apply Hne.
      assert (be !! cid = Some x) by (apply H6; eauto). assert (be !! cid = Some eck) by (apply H6; eauto).
      congruence.
  - intros c x [_ H]%lookup_delete_Some. eauto.
Qed.
End edge_transitions.
