(* ===== verification/MemtableApply.v ===== *)
(** The edge operations and [Memtable::apply]: preservation of the memtable invariant along
    any history of writes, and what the writes mean. *)

From S2P Require Import Prelude Values Wire Identity WalCodec NodeDelta Memtable MemtableInv.

(** * Identities by name *)

(** An identity is that of the business key [(l, k, v)]. *)
Definition names_are (i : Interner) (n : NodeIdentity) (l k : str) (v : Value.t) : Prop :=
  Interner.name (ni_label n) i = Some l ∧ Interner.name (ni_key n) i = Some k ∧ ni_value n = v.

Record EdgeNames := mkEdgeNames {
  en_src : str * str * Value.t; en_reltype : str; en_dst : str * str * Value.t;
  en_key : option (str * Value.t);
}.

Definition edge_names_are (i : Interner) (n : EdgeIdentity) (en : EdgeNames) : Prop :=
  names_are i (ei_src n) (en_src en).1.1 (en_src en).1.2 (en_src en).2 ∧
  Interner.name (ei_reltype n) i = Some (en_reltype en) ∧
  names_are i (ei_dst n) (en_dst en).1.1 (en_dst en).1.2 (en_dst en).2 ∧
  match ei_key n, en_key en with
  | None, None => True
  | Some (s, v), Some (k, v') => Interner.name s i = Some k ∧ v = v'
  | _, _ => False
  end.

Lemma name_back i j s n : Interner.extends i j → is_Some (Interner.name s i) →
  Interner.name s j = Some n → Interner.name s i = Some n.
Proof. intros Hx [x Hs] Hn. pose proof (Interner.name_extends i j s x Hx Hs). congruence. Qed.

Lemma names_back i j n l k v : Interner.extends i j → known i n → names_are j n l k v → names_are i n l k v.
Proof. intros Hx [Hl Hk] (El & Ek & Ev). split_and!; [by eapply name_back..|done]. Qed.

Lemma edge_names_back i j n en : Interner.extends i j → known_edge i n →
  edge_names_are j n en → edge_names_are i n en.
Proof.
  intros Hx (Hs & Hr & Hd & Hk) (Es & Er & Ed & Ek).
  split_and!; [by eapply names_back|by eapply name_back|by eapply names_back|].
  destruct (ei_key n) as [[s v]|], (en_key en) as [[k v']|]; try done.
  destruct Ek. split; [by eapply name_back|done].
Qed.

Lemma names_extend i j n l k v : Interner.extends i j → names_are i n l k v → names_are j n l k v.
Proof. intros Hx (El & Ek & Ev). split_and!; [by eapply Interner.name_extends..|done]. Qed.

Lemma edge_names_extend i j n en : Interner.extends i j → edge_names_are i n en → edge_names_are j n en.
Proof.
  intros Hx (Es & Er & Ed & Ek).
  split_and!; [by eapply names_extend|by eapply Interner.name_extends|by eapply names_extend|].
  destruct (ei_key n) as [[s v]|], (en_key en) as [[k v']|]; try done.
  destruct Ek. split; [by eapply Interner.name_extends|done].
Qed.

Lemma names_unique i a b l k v : Interner.wf i → NodeIdentity.wf a → NodeIdentity.wf b →
  names_are i a l k v → names_are i b l k v → a = b.
Proof.
  intros Hi (Ha1 & Ha2 & _) (Hb1 & Hb2 & _) (El & Ek & Ev) (Fl & Fk & Fv).
  unfold is_u32 in *. destruct a, b; cbn in *. f_equal.
  - eapply (Interner.name_inj i); [done|lia|lia|done..].
  - eapply (Interner.name_inj i); [done|lia|lia|done..].
  - congruence.
Qed.

Lemma edge_names_unique i a b en : Interner.wf i → EdgeIdentity.wf a → EdgeIdentity.wf b →
  edge_names_are i a en → edge_names_are i b en → a = b.
Proof.
  intros Hi (Ha1 & Ha2 & Ha3 & Ha4) (Hb1 & Hb2 & Hb3 & Hb4) (Es & Er & Ed & Ek) (Fs & Fr & Fd & Fk).
  pose proof (names_unique i _ _ _ _ _ Hi Ha1 Hb1 Es Fs) as E1.
  pose proof (names_unique i _ _ _ _ _ Hi Ha3 Hb3 Ed Fd) as E2.
  destruct a as [a1 a2 a3 a4], b as [b1 b2 b3 b4]; cbn in *. unfold is_u32 in *. subst. f_equal.
  - eapply (Interner.name_inj i); [done|lia|lia|done..].
  - destruct (en_key en) as [[k v]|], a4 as [[s x]|], b4 as [[t y]|]; try done.
    destruct Ek as [Ek ->], Fk as [Fk ->], Ha4, Hb4. do 2 f_equal.
    eapply (Interner.name_inj i); [done|lia|lia|done..].
Qed.

(** * Endpoints *)

(** What an edge operation does to the nodes before it reaches the edge: nothing but new
    symbols and new born nodes. *)
Record widens (m m' : Memtable) : Prop := {
  grow_edges : same_edges m m';
  grow_interner : Interner.extends (interner m) (interner m');
  grow_nodes : ∀ ck e, nodes m !! ck = Some e → nodes m' !! ck = Some e;
  grow_base : synthetic_base m' = synthetic_base m;
  grow_dense : ∀ d x, by_dense m !! d = Some x → by_dense m' !! d = Some x;
  grow_new : ∀ ck e, nodes m' !! ck = Some e → nodes m !! ck = Some e ∨
    nodes m !! ck = None ∧ is_Some (synthetic e) ∧ n_delta e = NodeDelta.default;
}.

Lemma widens_refl m : widens m m.
Proof. split; try done; [by unfold Interner.extends|auto]. Qed.

Lemma widens_trans m1 m2 m3 : widens m1 m2 → widens m2 m3 → widens m1 m3.
Proof.
  intros [(A1&A2&A3&A4&A5&A6) A7 A8 A9 A10 A11] [(B1&B2&B3&B4&B5&B6) B7 B8 B9 B10 B11].
  split; [unfold same_edges; split_and!; congruence|by eapply extends_trans|auto|congruence|auto|].
  intros ck e H. destruct (B11 ck e H) as [H'|(H' & ? & ?)]; [auto|].
  right. split; [|done]. destruct (nodes m1 !! ck) eqn:E; [|done]. apply A8 in E. congruence.
Qed.

(** An endpoint left unresolved is unknown to the level, or born in it. *)
Definition endpoint_resolves (m : Memtable) (key : str * str * Value.t) (r : option Z) : Prop :=
  r = None → ∀ ck e, nodes m !! ck = Some e →
    names_are (interner m) (n_identity e) key.1.1 key.1.2 key.2 → is_Some (synthetic e).

Lemma endpoint_resolves_grows m m' key r : nodes_ok m → widens m m' →
  endpoint_resolves m key r → endpoint_resolves m' key r.
Proof.
  intros Hn Hg H Hr ck e He Hnm. destruct (grow_new _ _ Hg ck e He) as [He'|(_ & ? & _)]; [|done].
  apply (H Hr ck e He'). eapply names_back; [apply Hg| |done].
  by destruct (inv_entry _ _ _ _ _ _ _ Hn _ _ He') as (_&_&?&_).
Qed.

(** The dense id an endpoint is linked by: the caller's, or that of the born node. *)
Definition endpoint_id (m : Memtable) (key : str * str * Value.t) (r : option Z) (d : Z) : Prop :=
  match r with
  | Some x => d = x
  | None => ∃ ck e, nodes m !! ck = Some e ∧ synthetic e = Some d ∧
      names_are (interner m) (n_identity e) key.1.1 key.1.2 key.2
  end.

Lemma endpoint_id_grows m m' key r d : widens m m' → endpoint_id m key r d → endpoint_id m' key r d.
Proof.
  intros [_ Gi Gn _ _ _]. destruct r as [x|]; [done|]. intros (ck & e & He & Hs & Hnm).
  exists ck, e. split_and!; [auto|done|]. by eapply names_extend.
Qed.

(** An endpoint that exists nowhere: not resolved by the caller, not born here. *)
Definition endpoint_absent (m : Memtable) (key : str * str * Value.t) (r : option Z) : Prop :=
  r = None ∧ ∀ ck e, nodes m !! ck = Some e →
    names_are (interner m) (n_identity e) key.1.1 key.1.2 key.2 → synthetic e = None.

Lemma endpoint_absent_back m m' key r : widens m m' → nodes m' = nodes m →
  endpoint_absent m' key r → endpoint_absent m key r.
Proof.
  intros G N [Hr H]. split; [done|]. intros ck e He Hnm. rewrite N in H.
  eapply H; [done|]. eapply names_extend; [apply G|done].
Qed.

Lemma grow_interner_ok m i : memtable_wf m → Interner.wf i → Interner.extends (interner m) i →
  memtable_wf (set_interner m i) ∧ widens m (set_interner m i).
Proof.
  intros (Hi & Hn & He) Hw Hx. split.
  - split_and!; [done|by eapply node_inv_extends|by eapply edge_inv_extends].
  - split; try done. auto.
Qed.

Section edge_ops.
Context {layout : Layout}.

Lemma endpoint_ok l k v r m d m' n : memtable_wf m → room (n + 2) (interner m) → 0 <= n → Value.wf v →
  endpoint_resolves m (l, k, v) r → endpoint_dense_or_create l k v r m = (d, m') →
  memtable_wf m' ∧ widens m m' ∧ room n (interner m') ∧ endpoint_id m' (l, k, v) r d.
Proof.
  intros Hm Hroom H0 Hv Hr. unfold endpoint_dense_or_create. destruct r as [x|].
  { intros [= <- <-]. split_and!; [done|apply widens_refl|unfold room in *; lia|done]. }
  destruct (intern_node_identity l k v (interner m)) as [id i] eqn:E.
  pose proof Hm as (Hi & Hn & He).
  destruct (intern_node_ok l k v (interner m) id i n) as (Hwi & Hx & Hrm & Hid & Hkn & Hval & Hl & Hk); try done.
  set (key := NodeIdentity.canonical_key id). cbn.
  destruct (nodes m !! key) as [e|] eqn:Hck; cbn.
  - assert (n_identity e = id) as Eid by by apply (existing_identity m id e).
    destruct (Hr eq_refl key e Hck) as [s Hs].
    { eapply names_back; [done| |rewrite Eid; done].
      by destruct (inv_entry _ _ _ _ _ _ _ Hn _ _ Hck) as (_&_&?&_). }
    rewrite Hs. intros [= <- <-]. destruct (grow_interner_ok m i Hm Hwi Hx) as [Hm' Hg].
    split_and!; [done..|]. exists key, e. cbn. by rewrite Eid.
  - intros Heq. assert (next_synthetic m = d) as <- by exact (f_equal fst Heq).
    assert (charge (set_born (set_by_dense (set_nodes (set_interner m i)
      (<[key := mkNodeEntry id NodeDelta.default (Some (next_synthetic m))]> (nodes m)))
      (<[next_synthetic m := key]> (by_dense m))) (born m ++ [key])
      (tally (ni_label id) (born_label_counts m))) (zlen key + size_of_NodeEntry) = m') as <-.
    { etrans; [|exact (f_equal snd Heq)]. by destruct m. }
    destruct (born_entry_ok m i key (mkNodeEntry id NodeDelta.default (Some (next_synthetic m)))
      (zlen key + size_of_NodeEntry)) as [Hm' [F1 F2 F3 F4 F5 F6]]; try done.
    split_and!; [done| |done|].
    + split; try done.
      * intros x y Hy. cbn. by apply insert_fresh.
      * cbn. intros x y. rewrite lookup_insert_Some. intros [[<- <-]|[_ ?]]; [right|by left].
        split_and!; [done|by eexists|done].
    + exists key, (mkNodeEntry id NodeDelta.default (Some (next_synthetic m))). cbn.
      by rewrite lookup_insert_eq.
Qed.

Lemma born_endpoint_ok l k v r m d m' n : memtable_wf m → room (n + 2) (interner m) → 0 <= n →
  Value.wf v → born_endpoint_dense l k v r m = (d, m') →
  memtable_wf m' ∧ widens m m' ∧ room n (interner m') ∧ nodes m' = nodes m ∧
  match d with Some x => endpoint_id m' (l, k, v) r x | None => endpoint_absent m' (l, k, v) r end.
Proof.
  intros Hm Hroom H0 Hv. unfold born_endpoint_dense. destruct r as [x|].
  { intros [= <- <-]. by split_and!; [|apply widens_refl|unfold room in *; lia|..]. }
  destruct (intern_node_identity l k v (interner m)) as [id i] eqn:E.
  pose proof Hm as (Hi & Hn & He).
  destruct (intern_node_ok l k v (interner m) id i n) as (Hwi & Hx & Hrm & Hid & Hkn & Hval & Hl & Hk); try done.
  intros Heq. assert (set_interner m i = m') as <- by exact (f_equal snd Heq).
  assert ((nodes m !! NodeIdentity.canonical_key id) ≫= synthetic = d) as <- by exact (f_equal fst Heq).
  destruct (grow_interner_ok m i Hm Hwi Hx) as [Hm' Hg]. split_and!; [done..|].
  assert (∀ e, nodes m !! NodeIdentity.canonical_key id = Some e → n_identity e = id) as Hids
    by (intros e Hck; by apply (existing_identity m id e)).
  destruct ((nodes m !! NodeIdentity.canonical_key id) ≫= synthetic) as [x|] eqn:Hs; cbn.
  - destruct (nodes m !! NodeIdentity.canonical_key id) as [e|] eqn:Hck; [|done].
    exists (NodeIdentity.canonical_key id), e. cbn. by rewrite (Hids e).
  - split; [done|]. cbn. intros ck e Hent Hnm.
    destruct (inv_entry _ _ _ _ _ _ _ Hn _ _ Hent) as (Eck & Hw & _).
    assert (n_identity e = id) as Eid by by eapply (names_unique i).
    rewrite Eid in Eck. subst ck. by rewrite Hent in Hs.
Qed.

Definition edge_key_wf (ek : option (str * Value.t)) : Prop :=
  match ek with Some (_, v) => Value.wf v | None => True end.

Lemma intern_edge_ok sl sk sv rt dl dk dv ek m id m' : memtable_wf m → room 6 (interner m) →
  Value.wf sv → Value.wf dv → edge_key_wf ek →
  intern_edge_identity sl sk sv rt dl dk dv ek m = (id, m') →
  memtable_wf m' ∧ widens m m' ∧ nodes m' = nodes m ∧ EdgeIdentity.wf id ∧
  edge_names_are (interner m') id (mkEdgeNames (sl, sk, sv) rt (dl, dk, dv) ek) ∧
  known_edge (interner m') id.
Proof.
  intros Hm Hroom Hsv Hdv Hek. unfold intern_edge_identity.
  destruct (intern_node_identity sl sk sv (interner m)) as [src i1] eqn:E1.
  destruct (Interner.intern rt i1) as [r i2] eqn:E2.
  destruct (intern_node_identity dl dk dv i2) as [dst i3] eqn:E3.
  destruct (intern_node_ok sl sk sv (interner m) src i1 4) as (W1&X1&R1&S1&K1&V1&L1&N1); try done; [apply Hm|].
  destruct (intern_ok rt i1 r i2 3) as (W2&X2&R2&U2&N2); try done.
  destruct (intern_node_ok dl dk dv i2 dst i3 1) as (W3&X3&R3&S3&K3&V3&L3&N3); try done.
  assert (∀ j, Interner.wf j → Interner.extends i3 j → memtable_wf (set_interner m j) ∧ widens m (set_interner m j)) as Hgrow.
  { intros j Hj Hx. apply grow_interner_ok; [done..|]. by do 3 (eapply extends_trans; [done|]). }
  assert (∀ j, Interner.extends i3 j → names_are j src sl sk sv ∧ Interner.name r j = Some rt ∧
    names_are j dst dl dk dv) as Hnames.
  { intros j Hx. split_and!.
    - eapply (names_extend i1); [|done]. by do 2 (eapply extends_trans; [done|]).
    - eapply (Interner.name_extends i2); [|done]. by eapply extends_trans.
    - by eapply (names_extend i3). }
  destruct ek as [[kn kv]|].
  - destruct (Interner.intern kn i3) as [ks i4] eqn:E4.
    destruct (intern_ok kn i3 ks i4 0) as (W4&X4&R4&U4&N4); try done.
    intros [= <- <-]. destruct (Hgrow i4 W4 X4) as [Hm' Hg]. destruct (Hnames i4 X4) as (A&B&C).
    split_and!; [done..| |]; [by split_and!|]. unfold known_edge, known. cbn.
    destruct A as (?&?&?), C as (?&?&?). by split_and!; eauto.
  - intros [= <- <-]. assert (Interner.extends i3 i3) as X4 by by unfold Interner.extends.
    destruct (Hgrow i3 W3 X4) as [Hm' Hg]. destruct (Hnames i3 X4) as (A&B&C).
    split_and!; [done..| |]; [by split_and!|]. unfold known_edge, known. cbn.
    destruct A as (?&?&?), C as (?&?&?). by split_and!; eauto.
Qed.

(** * Edge operations *)

(** The caller's resolution of an edge is stable: an entry patched over a core edge keeps its
    endpoints and its core id, a core id has one identity, and core ids lie below the
    synthetic space. *)
Record edge_resolves (m : Memtable) (en : EdgeNames) (src dst eid : option Z) : Prop := {
  er_entry : ∀ eck e, edges m !! eck = Some e → edge_names_are (interner m) (e_identity e) en →
    (is_Some (core_edge e) → src = Some (src_dense e) ∧ dst = Some (dst_dense e)) ∧
    ∀ cid, eid = Some cid →
      synthetic_edge e = None ∧ (core_edge e = None ∨ core_edge e = Some cid);
  er_core : ∀ cid, eid = Some cid → cid < edge_synthetic_base m ∧
    ∀ eck e, by_edge_id m !! cid = Some eck → edges m !! eck = Some e →
      edge_names_are (interner m) (e_identity e) en;
}.

Lemma edge_resolves_grows m m' en src dst eid : edges_ok m → widens m m' →
  edge_resolves m en src dst eid → edge_resolves m' en src dst eid.
Proof.
  intros He [(A1&A2&A3&A4&A5&A6) Hx _ _ _ _] [H1 H2]. split; rewrite A1, ?A4, ?A5.
  - intros eck e Hck Hn. apply (H1 eck e Hck). eapply edge_names_back; [done| |done].
    by destruct (inv_edge _ _ _ _ _ _ _ He _ _ Hck) as (_&_&?&_).
  - intros cid Hc. destruct (H2 cid Hc) as [Hlt Hall]. split; [done|]. intros eck e Hb Hck.
    eapply edge_names_extend; eauto.
Qed.

Lemma existing_edge m id e : edges_ok m → EdgeIdentity.wf id →
  edges m !! EdgeIdentity.canonical_key id = Some e → e_identity e = id.
Proof.
  intros Hn Hid He. destruct (inv_edge _ _ _ _ _ _ _ Hn _ _ He) as (E & Hw & _ & _).
  symmetry. by apply edge_canonical_key_inj.
Qed.

(** Only the edge stores differ, and there only the entry of [eck]. *)
Record only_edge (m m' : Memtable) (eck : list Z) : Prop := {
  oe_interner : interner m' = interner m;
  oe_nodes : nodes m' = nodes m;
  oe_dense : by_dense m' = by_dense m;
  oe_base : synthetic_base m' = synthetic_base m;
  oe_born : born m' = born m;
  oe_tombstoned : m_tombstoned m' = m_tombstoned m;
  oe_counts : born_label_counts m' = born_label_counts m;
  oe_edges : ∀ x, x ≠ eck → edges m' !! x = edges m !! x;
}.

Lemma only_edge_trans m1 m2 m3 eck : only_edge m1 m2 eck → only_edge m2 m3 eck → only_edge m1 m3 eck.
Proof.
  intros [A1 A2 A3 A4 A5 A6 A7 A8] [B1 B2 B3 B4 B5 B6 B7 B8]. split; try congruence.
  intros x Hx. by rewrite B8, A8.
Qed.

Lemma only_edge_wf m m' eck : memtable_wf m → only_edge m m' eck → edges_ok m' → memtable_wf m'.
Proof.
  intros (Hi & Hn & _) [A1 A2 A3 A4 A5 A6 A7 _] He. split_and!; [by rewrite A1| |done].
  unfold nodes_ok. by rewrite A1, A2, A3, A4, A5, A6, A7.
Qed.

Lemma only_edge_endpoint m m' eck key r d : only_edge m m' eck →
  endpoint_id m key r d → endpoint_id m' key r d.
Proof. intros [Oi On _ _ _ _ _ _]. destruct r; [done|]. cbn. by rewrite Oi, On. Qed.

(** The dense ids an edge write leaves in its entry: those the entry had, or, for a new
    entry, those of the operation's source and destination, in this order. *)
Definition linked (m m' : Memtable) (eck : list Z) (src dst : str * str * Value.t)
    (s d : option Z) : Prop :=
  ∀ e, edges m' !! eck = Some e →
    match edges m !! eck with
    | Some e0 => src_dense e = src_dense e0 ∧ dst_dense e = dst_dense e0
    | None => endpoint_id m' src s (src_dense e) ∧ endpoint_id m' dst d (dst_dense e)
    end.

Lemma linked_same m m' eck src dst s d : edges m' = edges m → linked m m' eck src dst s d.
Proof. intros E e. rewrite E. intros ->. done. Qed.

(** What an edge write leaves under its key. *)
Definition holds_edge (m : Memtable) (en : EdgeNames) (eck : list Z) (d : EdgeDelta) : Prop :=
  ∃ e, edges m !! eck = Some e ∧ e_delta e = d ∧ edge_names_are (interner m) (e_identity e) en.

Definition edge_delta_at (m : Memtable) (eck : list Z) : EdgeDelta :=
  match edges m !! eck with Some e => e_delta e | None => EdgeDelta.default end.

(** Clear the tombstone, fold the patches in. *)
Definition edge_patched (ek : option (str * Value.t)) (rp : bool) (ps : list (str * Value.t))
    (d : EdgeDelta) : EdgeDelta :=
  EdgeDelta.apply_patches ek rp ps (mkEdgeDelta (e_patches d) (e_replaced d) false).

Lemma edge_patched_live ek rp ps d : e_tombstoned (edge_patched ek rp ps d) = false.
Proof.
  unfold edge_patched, EdgeDelta.apply_patches. destruct ek as [p|]; cbn;
    rewrite (foldl_keeps e_tombstoned) by done; by destruct rp.
Qed.

Lemma patch_edge_ok m en eck ek rp ps d : memtable_wf m → holds_edge m en eck d →
  memtable_wf (patch_edge eck ek rp ps m) ∧ only_edge m (patch_edge eck ek rp ps m) eck ∧
  holds_edge (patch_edge eck ek rp ps m) en eck (edge_patched ek rp ps d).
Proof.
  intros Hm (e & Hck & <- & Hnm). unfold patch_edge. rewrite Hck. cbv zeta.
  match goal with |- memtable_wf ?M ∧ _ => set (m' := M) end.
  assert (only_edge m m' eck) as Ho.
  { split; try done. intros x Hx. cbn. by rewrite lookup_insert_ne. }
  split_and!; [|done|].
  - eapply only_edge_wf; [done..|]. destruct Hm as (Hi & Hn & He). unfold edges_ok. cbn.
    destruct (inv_edge _ _ _ _ _ _ _ He _ _ Hck) as (Hk & Hw & Hkn & _).
    eapply edge_inv_put; try done. split_and!; [done..|]. cbn.
    fold (edge_patched ek rp ps (e_delta e)). by rewrite edge_patched_live.
  - eexists. cbn. by rewrite lookup_insert_eq.
Qed.

Lemma patch_edge_ends m eck ek rp ps e' : edges (patch_edge eck ek rp ps m) !! eck = Some e' →
  ∃ e, edges m !! eck = Some e ∧ src_dense e' = src_dense e ∧ dst_dense e' = dst_dense e.
Proof.
  unfold patch_edge. destruct (edges m !! eck) as [e|] eqn:E; [|by rewrite E].
  cbn. rewrite lookup_insert_eq. intros [= <-]. by exists e.
Qed.

(** A brand-new edge entry listed in the adjacency: born, or a tombstone of a core edge. *)
Lemma listed_edge_ok m id s d syn dl n be : memtable_wf m → EdgeIdentity.wf id →
  known_edge (interner m) id → edges m !! EdgeIdentity.canonical_key id = None →
  (e_tombstoned dl = true → e_patches dl = ∅ ∧ e_replaced dl = false) →
  (∀ x, syn = Some x → x = edge_synthetic_base m + zlen (born_edges m)) →
  let eck := EdgeIdentity.canonical_key id in
  be = (if syn is Some _ then born_edges m ++ [eck] else born_edges m) →
  let m' := set_edges (set_adj (set_born_edges (charge m n) be) (push_adj s eck (out_adj m))
              (push_adj d eck (in_adj m))) (<[eck := mkEdgeEntry id s d syn None dl]> (edges m)) in
  memtable_wf m' ∧ only_edge m m' eck.
Proof.
  intros Hm Hid Hkn Hck Hdl Hsyn eck -> m'.
  assert (only_edge m m' eck) as Ho.
  { split; try done. intros x Hx. cbn. by rewrite lookup_insert_ne. }
  split; [|done]. eapply only_edge_wf; [done..|]. destruct Hm as (_ & _ & He). unfold edges_ok. cbn.
  by apply (edge_inv_listed _ _ _ _ _ _ _ He eck (mkEdgeEntry id s d syn None dl)).
Qed.

(** The common first half of the edge writes. *)
Lemma edge_setup sl sk sv rt dl dk dv ek src dst eid m s m1 d m2 id m3 :
  let en := mkEdgeNames (sl, sk, sv) rt (dl, dk, dv) ek in
  memtable_wf m → room 10 (interner m) → Value.wf sv → Value.wf dv → edge_key_wf ek →
  endpoint_resolves m (sl, sk, sv) src → endpoint_resolves m (dl, dk, dv) dst →
  edge_resolves m en src dst eid →
  endpoint_dense_or_create sl sk sv src m = (s, m1) →
  endpoint_dense_or_create dl dk dv dst m1 = (d, m2) →
  intern_edge_identity sl sk sv rt dl dk dv ek m2 = (id, m3) →
  memtable_wf m3 ∧ widens m m3 ∧ EdgeIdentity.wf id ∧ edge_names_are (interner m3) id en ∧
  known_edge (interner m3) id ∧ edge_resolves m3 en src dst eid ∧
  endpoint_id m3 (sl, sk, sv) src s ∧ endpoint_id m3 (dl, dk, dv) dst d.
Proof.
  intros en Hm Hroom Hsv Hdv Hek Hs Hd Hr E1 E2 E3. pose proof Hm as (Hi & Hn & He).
  destruct (endpoint_ok sl sk sv src m s m1 8) as (Hm1 & G1 & R1 & I1); try done.
  destruct (endpoint_ok dl dk dv dst m1 d m2 6) as (Hm2 & G2 & R2 & I2); try done.
  { by eapply endpoint_resolves_grows. }
  destruct (intern_edge_ok sl sk sv rt dl dk dv ek m2 id m3) as (Hm3 & G3 & _ & Hid & Hnm & Hkn); try done.
  assert (widens m m3) as G by (eapply widens_trans; [done|]; by eapply widens_trans).
  split_and!; try done; [by eapply edge_resolves_grows| |exact (endpoint_id_grows m2 m3 _ _ _ G3 I2)].
  apply (endpoint_id_grows m1); [|done]. by apply (widens_trans m1 m2).
Qed.

Lemma upsert_edge_ok sl sk sv rt dl dk dv src dst ek rp ps m :
  let en := mkEdgeNames (sl, sk, sv) rt (dl, dk, dv) ek in
  memtable_wf m → room 10 (interner m) → Value.wf sv → Value.wf dv → edge_key_wf ek →
  endpoint_resolves m (sl, sk, sv) src → endpoint_resolves m (dl, dk, dv) dst →
  edge_resolves m en src dst None →
  let m' := upsert_edge_keyed sl sk sv rt dl dk dv src dst ek rp ps m in
  ∃ mg eck, memtable_wf m' ∧ widens m mg ∧ only_edge mg m' eck ∧
    holds_edge m' en eck (edge_patched ek rp ps (edge_delta_at m eck)) ∧
    linked m m' eck (sl, sk, sv) (dl, dk, dv) src dst.
Proof.
  intros en Hm Hroom Hsv Hdv Hek Hs Hd Hr. cbv zeta. unfold upsert_edge_keyed.
  destruct (endpoint_dense_or_create sl sk sv src m) as [s m1] eqn:E1.
  destruct (endpoint_dense_or_create dl dk dv dst m1) as [d m2] eqn:E2.
  destruct (intern_edge_identity sl sk sv rt dl dk dv ek m2) as [id m3] eqn:E3.
  destruct (edge_setup sl sk sv rt dl dk dv ek src dst None m s m1 d m2 id m3)
    as (Hm3 & G & Hid & Hnm & Hkn & _ & Is & Id); try done.
  set (eck := EdgeIdentity.canonical_key id). exists m3, eck.
  assert (edges m3 = edges m) as Ees by apply G. unfold edge_delta_at, linked. rewrite <-Ees.
  destruct (edges m3 !! eck) as [e|] eqn:Hck.
  - destruct (patch_edge_ok m3 en eck ek rp ps (e_delta e)) as (A & B & C); try done.
    { exists e. split_and!; try done. rewrite (existing_edge m3 id e); try done. apply Hm3. }
    split_and!; try done. intros e' (x & Hx & ? & ?)%patch_edge_ends. by simplify_eq.
  - destruct (listed_edge_ok m3 id s d (Some (edge_synthetic_base m3 + zlen (born_edges m3)))
      EdgeDelta.default (zlen eck + size_of_EdgeEntry) (born_edges m3 ++ [eck])) as [Hm4 Ho4]; try done.
    { by intros x [= <-]. }
    match goal with |- context [patch_edge _ _ _ _ ?M] => set (m4 := M) end.
    destruct (patch_edge_ok m4 en eck ek rp ps EdgeDelta.default) as (A & B & C); try done.
    { eexists. split; [apply lookup_insert_eq|]. done. }
    assert (only_edge m3 (patch_edge eck ek rp ps m4) eck) as Ho by by eapply only_edge_trans.
    split_and!; try done. intros e' (x & Hx & -> & ->)%patch_edge_ends.
    change (edges m4) with (<[eck := mkEdgeEntry id s d (Some (edge_synthetic_base m3 + zlen (born_edges m3)))
      None EdgeDelta.default]> (edges m3)) in Hx. rewrite lookup_insert_eq in Hx. simplify_eq.
    split; by eapply only_edge_endpoint.
Qed.

(** [m'] is [m] with the entry of [id] linked to the core edge [cid]. *)
Record links_core (m m' : Memtable) (id : EdgeIdentity) (s d cid : Z) : Prop := {
  lc_only : only_edge m m' (EdgeIdentity.canonical_key id);
  lc_edges : let eck := EdgeIdentity.canonical_key id in
    let e := default (mkEdgeEntry id s d None (Some cid) EdgeDelta.default) (edges m !! eck) in
    edges m' = <[eck := mkEdgeEntry (e_identity e) (src_dense e) (dst_dense e)
                   (synthetic_edge e) (Some cid) (e_delta e)]> (edges m);
  lc_adj : out_adj m' = out_adj m ∧ in_adj m' = in_adj m ∧
    edge_synthetic_base m' = edge_synthetic_base m ∧ born_edges m' = born_edges m;
  lc_index : by_edge_id m' = <[cid := EdgeIdentity.canonical_key id]> (by_edge_id m);
}.

Lemma links_core_ok m m' id s d cid en src dst : memtable_wf m → EdgeIdentity.wf id →
  edge_names_are (interner m) id en → known_edge (interner m) id →
  edge_resolves m en src dst (Some cid) → links_core m m' id s d cid →
  memtable_wf m' ∧
  holds_edge m' en (EdgeIdentity.canonical_key id) (edge_delta_at m (EdgeIdentity.canonical_key id)).
Proof.
  intros Hm Hid Hnm Hkn [Hre Hrc] [Ho Hes (O1 & O2 & O3 & O4) Hbe]. cbv zeta in Hes.
  pose proof Hm as (Hi & _ & He). destruct (Hrc cid eq_refl) as [Hlt Hown].
  set (eck := EdgeIdentity.canonical_key id) in *. unfold edge_delta_at.
  assert (∀ x, by_edge_id m !! cid = Some x → x = eck) as Huniq.
  { intros x Hx. apply (inv_by_edge_id _ _ _ _ _ _ _ He) in Hx as Hx'. destruct Hx' as (y & Hy & _).
    destruct (inv_edge _ _ _ _ _ _ _ He _ _ Hy) as (Ex & Hyw & _). rewrite Ex. unfold eck. f_equal.
    eapply edge_names_unique; [done..|by apply (Hown x y)|done]. }
  assert (∀ e, edges m !! eck = Some e → edge_entry_ok (interner m) eck e ∧ e_identity e = id ∧
    synthetic_edge e = None ∧ (core_edge e = None ∨ core_edge e = Some cid)) as Hold.
  { intros e Hck. assert (e_identity e = id) as Eid by by apply (existing_edge m id e).
    destruct (Hre eck e Hck) as [_ Hc]; [by rewrite Eid|]. split; [|by split; [|apply Hc]].
    by apply (inv_edge _ _ _ _ _ _ _ He). }
  split.
  - eapply only_edge_wf; [done..|]. unfold edges_ok. rewrite Hes, O1, O2, O3, O4, Hbe, (oe_interner _ _ _ Ho).
    destruct (edges m !! eck) as [e|] eqn:Hck; cbn.
    + destruct (Hold e eq_refl) as (Hok & Eid & Hsyn & Hc). rewrite Hsyn.
      apply edge_inv_core; try done. intros y Hy. by simplify_eq.
    + apply edge_inv_core; try done. intros y Hy. congruence.
  - eexists. rewrite Hes, lookup_insert_eq. split; [done|]. rewrite (oe_interner _ _ _ Ho). cbn.
    destruct (edges m !! eck) as [e|] eqn:Hck; cbn; [|done].
    destruct (Hold e eq_refl) as (_ & -> & _). done.
Qed.

Lemma patch_core_edge_ok sl sk sv rt dl dk dv src dst ek cid rp ps m :
  let en := mkEdgeNames (sl, sk, sv) rt (dl, dk, dv) ek in
  memtable_wf m → room 10 (interner m) → Value.wf sv → Value.wf dv → edge_key_wf ek →
  endpoint_resolves m (sl, sk, sv) src → endpoint_resolves m (dl, dk, dv) dst →
  edge_resolves m en src dst (Some cid) →
  let m' := patch_core_edge_keyed sl sk sv rt dl dk dv src dst ek cid rp ps m in
  ∃ mg eck, memtable_wf m' ∧ widens m mg ∧ only_edge mg m' eck ∧
    holds_edge m' en eck (edge_patched ek rp ps (edge_delta_at m eck)) ∧
    linked m m' eck (sl, sk, sv) (dl, dk, dv) src dst.
Proof.
  intros en Hm Hroom Hsv Hdv Hek Hs Hd Hr. cbv zeta. unfold patch_core_edge_keyed.
  destruct (endpoint_dense_or_create sl sk sv src m) as [s m1] eqn:E1.
  destruct (endpoint_dense_or_create dl dk dv dst m1) as [d m2] eqn:E2.
  destruct (intern_edge_identity sl sk sv rt dl dk dv ek m2) as [id m3] eqn:E3.
  destruct (edge_setup sl sk sv rt dl dk dv ek src dst (Some cid) m s m1 d m2 id m3)
    as (Hm3 & G & Hid & Hnm & Hkn & Hr3 & Is & Id); try done.
  set (eck := EdgeIdentity.canonical_key id). exists m3, eck.
  match goal with |- context [patch_edge _ _ _ _ ?M] => set (m4 := M) end.
  assert (links_core m3 m4 id s d cid) as Hl.
  { assert (edges m4 = <[eck := let e := default (mkEdgeEntry id s d None (Some cid) EdgeDelta.default)
        (edges m3 !! eck) in mkEdgeEntry (e_identity e) (src_dense e) (dst_dense e)
        (synthetic_edge e) (Some cid) (e_delta e)]> (edges m3)) as Ees.
    { unfold m4. destruct (edges m3 !! eck) eqn:Hck; settle Hck; [done|].
      rewrite lookup_insert_eq. cbn. by rewrite insert_insert_eq. }
    split; [|done|..].
    - split; [..|intros x Hx; by rewrite Ees, lookup_insert_ne];
        unfold m4; destruct (edges m3 !! eck) eqn:Hck; settle Hck; by rewrite ?lookup_insert_eq.
    - unfold m4. destruct (edges m3 !! eck) eqn:Hck; settle Hck; by rewrite ?lookup_insert_eq.
    - unfold m4. destruct (edges m3 !! eck) eqn:Hck; settle Hck; by rewrite ?lookup_insert_eq. }
  destruct (links_core_ok m3 m4 id s d cid en src dst) as [Hm4 Hh]; try done. fold eck in Hh.
  destruct (patch_edge_ok m4 en eck ek rp ps (edge_delta_at m3 eck)) as (A & B & C); try done.
  assert (edge_delta_at m eck = edge_delta_at m3 eck) as ->.
  { unfold edge_delta_at. by replace (edges m3) with (edges m) by (symmetry; apply G). }
  assert (only_edge m3 (patch_edge eck ek rp ps m4) eck) as Ho by (eapply only_edge_trans; [apply Hl|done]).
  split_and!; try done. intros e' (x & Hx & -> & ->)%patch_edge_ends.
  pose proof (lc_edges _ _ _ _ _ _ Hl) as Hes. cbv zeta in Hes. fold eck in Hes.
  rewrite Hes, lookup_insert_eq in Hx. simplify_eq. cbn.
  replace (edges m) with (edges m3) by apply G. destruct (edges m3 !! eck); [done|cbn].
  split; by eapply only_edge_endpoint.
Qed.

Lemma delete_edge_ok sl sk sv rt dl dk dv src dst ek eid m :
  let en := mkEdgeNames (sl, sk, sv) rt (dl, dk, dv) ek in
  memtable_wf m → room 10 (interner m) → Value.wf sv → Value.wf dv → edge_key_wf ek →
  edge_resolves m en src dst eid →
  let m' := delete_edge_keyed sl sk sv rt dl dk dv src dst ek m in
  ∃ mg eck, memtable_wf m' ∧ widens m mg ∧ only_edge mg m' eck ∧ nodes m' = nodes m ∧
    (edges m' = edges m ∧ (endpoint_absent m (sl, sk, sv) src ∨ endpoint_absent m (dl, dk, dv) dst) ∨
     holds_edge m' en eck (mkEdgeDelta ∅ false true)) ∧
    linked m m' eck (sl, sk, sv) (dl, dk, dv) src dst.
Proof.
  intros en Hm Hroom Hsv Hdv Hek Hr. cbv zeta. unfold delete_edge_keyed.
  destruct (born_endpoint_dense sl sk sv src m) as [s m1] eqn:E1.
  destruct (born_endpoint_ok sl sk sv src m s m1 8) as (Hm1 & G1 & R1 & N1 & Hs); try done.
  destruct s as [s|]; [|exists m1, []; split_and!; try done; [left; split; [apply G1|left];
    by eapply endpoint_absent_back|apply linked_same, G1]].
  destruct (born_endpoint_dense dl dk dv dst m1) as [d m2] eqn:E2.
  destruct (born_endpoint_ok dl dk dv dst m1 d m2 6) as (Hm2 & G2 & R2 & N2 & Hd); try done.
  assert (widens m m2) as G12 by by eapply widens_trans.
  destruct d as [d|]; [|exists m2, []; split_and!; try done; [congruence| |apply linked_same, G12]; left;
    split; [apply G12|right]; apply (endpoint_absent_back m m2); [done|congruence|done]].
  destruct (intern_edge_identity sl sk sv rt dl dk dv ek m2) as [id m3] eqn:E3.
  destruct (intern_edge_ok sl sk sv rt dl dk dv ek m2 id m3) as (Hm3 & G3 & N3 & Hid & Hnm & Hkn); try done.
  assert (widens m m3) as G by by eapply widens_trans.
  pose proof (edge_resolves_grows m m3 en src dst eid (proj2 (proj2 Hm)) G Hr) as [Hre _].
  set (eck := EdgeIdentity.canonical_key id). exists m3, eck.
  pose proof Hm3 as (_ & _ & He3). assert (edges m = edges m3) as Ees by (symmetry; apply G).
  destruct (edges m3 !! eck) as [e|] eqn:Hck.
  - assert (e_identity e = id) as Eid by by apply (existing_edge m3 id e).
    destruct (Hre eck e Hck) as [Hends _]; [by rewrite Eid|].
    pose proof (inv_edge _ _ _ _ _ _ _ He3 _ _ Hck) as (K1 & K2 & K3 & _).
    destruct (core_edge e) as [cid|] eqn:Hc.
    + destruct (Hends ltac:(done)) as [-> ->].
      assert (s = src_dense e) as -> by by apply Hs.
      assert (d = dst_dense e) as -> by by apply Hd.
      match goal with |- memtable_wf ?M ∧ _ => assert (only_edge m3 M eck) as Ho end.
      { split; try done. intros x Hx. cbn. by rewrite lookup_insert_ne. }
      split_and!; try done; [|cbn; congruence|right; eexists; cbn; rewrite lookup_insert_eq; split_and!; try done; by rewrite Eid|
        intros x; rewrite Ees, Hck; cbn; rewrite lookup_insert_eq; by intros [= <-]].
      eapply only_edge_wf; [done..|]. unfold edges_ok. cbn.
      apply (edge_inv_drop _ _ _ _ _ _ _ He3 eck e (mkEdgeEntry (e_identity e) (src_dense e)
        (dst_dense e) (synthetic_edge e) None (mkEdgeDelta ∅ false true))); try done.
    + match goal with |- memtable_wf ?M ∧ _ => assert (only_edge m3 M eck) as Ho end.
      { split; try done. intros x Hx. cbn. by rewrite lookup_insert_ne. }
      split_and!; try done; [|cbn; congruence|right; eexists; cbn; rewrite lookup_insert_eq; split_and!; try done; by rewrite Eid|
        intros x; rewrite Ees, Hck; cbn; rewrite lookup_insert_eq; by intros [= <-]].
      eapply only_edge_wf; [done..|]. unfold edges_ok. cbn. eapply edge_inv_put; try done.
  - destruct (listed_edge_ok m3 id s d None (mkEdgeDelta ∅ false true) (zlen eck + size_of_EdgeEntry)
      (born_edges m3)) as [Hm4 Ho4]; try done.
    split_and!; try done; [cbn; congruence|right; eexists; cbn; by rewrite lookup_insert_eq|].
    intros x. rewrite Ees, Hck. cbn. rewrite lookup_insert_eq. intros [= <-]. cbn.
    split; (eapply only_edge_endpoint; [done|]); [|by apply (endpoint_id_grows m2)].
    apply (endpoint_id_grows m1); [by apply (widens_trans m1 m2)|done].
Qed.
End edge_ops.

(** * Applying operations *)

(** The node operation a log record carries. *)
Definition node_op_of (op : WalOp) : option node_op :=
  match op with
  | UpsertNode _ _ _ ps => Some (OpSet ps)
  | DeleteNode _ _ _ => Some OpDelete
  | RemoveNodeProps _ _ _ ns => Some (OpRemove ns)
  | ReplaceNode _ _ _ ps => Some (OpReplace ps)
  | SetNodeLabels _ _ _ a d => Some (OpLabels a d)
  | _ => None
  end.

(** What an edge operation makes of the edge's delta. *)
Definition edge_step (op : WalOp) (d : EdgeDelta) : EdgeDelta :=
  match op with
  | UpsertEdge _ _ _ _ _ _ _ ek rp ps => edge_patched ek rp ps d
  | _ => mkEdgeDelta ∅ false true
  end.

(** The resolution given with an operation is of the right kind, and stable. *)
Definition op_resolves (m : Memtable) (op : WalOp) (res : OpResolution) : Prop :=
  match res with
  | ResNode r => ∃ l k v, node_key op = Some (l, k, v) ∧ resolves m (node_ck l k v m) r
  | ResEdge s d eid => ∃ src rt dst, edge_keys op = Some (src, rt, dst) ∧
      endpoint_resolves m src s ∧ endpoint_resolves m dst d ∧
      edge_resolves m (mkEdgeNames src rt dst (edge_identity_key op)) s d eid
  end.

Section apply.
Context {layout : Layout}.

Lemma apply_node op l k v r o m : node_key op = Some (l, k, v) → node_op_of op = Some o →
  apply op (ResNode r) m = Some (node_write o l k v r m).
Proof. by destruct op; intros [= -> -> ->] [= <-]. Qed.

Lemma node_op_exists op key : node_key op = Some key → is_Some (node_op_of op).
Proof. by destruct op. Qed.

Lemma op_ok_key op l k v : op_ok op → node_key op = Some (l, k, v) → Value.wf v.
Proof.
  destruct op; intros Hok [= -> -> ->]; cbn in Hok; unfold key_ok, value_ok in Hok; tauto.
Qed.

(** The behaviour of the three edge writes, as one. *)
Lemma apply_edge op src rt dst s d eid m : edge_keys op = Some (src, rt, dst) → op_ok op →
  let en := mkEdgeNames src rt dst (edge_identity_key op) in
  memtable_wf m → room 10 (interner m) →
  endpoint_resolves m src s → endpoint_resolves m dst d → edge_resolves m en s d eid →
  ∃ m' mg eck, apply op (ResEdge s d eid) m = Some m' ∧ memtable_wf m' ∧ widens m mg ∧
    only_edge mg m' eck ∧ linked m m' eck src dst s d ∧
    (edges m' = edges m ∧ (∃ a b c e f g h i, op = DeleteEdge a b c e f g h i) ∧
       (endpoint_absent m src s ∨ endpoint_absent m dst d) ∨
     holds_edge m' en eck (edge_step op (edge_delta_at m eck))).
Proof.
  destruct op as [| | | | |sl sk sv r dl dk dv ek rp ps|sl sk sv r dl dk dv ek]; try done.
  - intros [= <- <- <-] (K1 & _ & K2 & K3 & _) en Hm Hroom Hs Hd Hr. cbn in *.
    assert (Value.wf sv ∧ Value.wf dv ∧ edge_key_wf ek) as (W1 & W2 & W3).
    { unfold key_ok, value_ok, edge_key_ok, patch_ok, value_ok in *.
      split_and!; [tauto..|]. destruct ek as [[? ?]|]; cbn in *; tauto. }
    destruct eid as [cid|]; eexists.
    + destruct (patch_core_edge_ok sl sk sv r dl dk dv s d ek cid rp ps m) as (mg & eck & A & B & C & D & L); try done.
      exists mg, eck. split_and!; try done. by right.
    + destruct (upsert_edge_ok sl sk sv r dl dk dv s d ek rp ps m) as (mg & eck & A & B & C & D & L); try done.
      exists mg, eck. split_and!; try done. by right.
  - intros [= <- <- <-] (K1 & _ & K2 & K3) en Hm Hroom Hs Hd Hr. cbn in *.
    assert (Value.wf sv ∧ Value.wf dv ∧ edge_key_wf ek) as (W1 & W2 & W3).
    { unfold key_ok, value_ok, edge_key_ok, patch_ok, value_ok in *.
      split_and!; [tauto..|]. destruct ek as [[? ?]|]; cbn in *; tauto. }
    eexists. destruct (delete_edge_ok sl sk sv r dl dk dv s d ek eid m) as (mg & eck & A & B & C & _ & D & L); try done.
    exists mg, eck. split_and!; try done. destruct D as [[D Da]|D]; [left|by right].
    split_and!; [done|by repeat eexists|done].
Qed.

Lemma apply_ok op res m : memtable_wf m → op_ok op → room 10 (interner m) → op_resolves m op res →
  ∃ m', apply op res m = Some m' ∧ memtable_wf m'.
Proof.
  intros Hm Hok Hroom Hr. destruct res as [r|s d eid].
  - destruct Hr as (l & k & v & Hk & Hr). destruct (node_op_exists op _ Hk) as [o Ho].
    rewrite (apply_node op l k v r o) by done. eexists. split; [done|].
    apply node_write_ok; try done; [unfold room in *; lia|by eapply op_ok_key].
  - destruct Hr as (src & rt & dst & Hk & Hs & Hd & Hr).
    destruct (apply_edge op src rt dst s d eid m) as (m' & mg & eck & A & B & _); eauto.
Qed.

(** A history of writes, each resolved stably where it is applied. *)
Inductive history : Memtable → list (WalOp * OpResolution) → Memtable → Prop :=
  | history_nil m : history m [] m
  | history_cons m op res m1 h m2 :
      op_ok op → room 10 (interner m) → op_resolves m op res →
      apply op res m = Some m1 → history m1 h m2 → history m ((op, res) :: h) m2.

Lemma history_wf m h m' : history m h m' → memtable_wf m → memtable_wf m'.
Proof.
  induction 1 as [|m op res m1 h m2 Hok Hroom Hr Ha _ IH]; intros Hm; [done|].
  destruct (apply_ok op res m) as (x & Hx & ?); try done. apply IH. congruence.
Qed.

Lemma with_bases_wf nb eb : memtable_wf (with_bases nb eb).
Proof.
  split_and!; [apply Interner.new_wf| |].
  - split; cbn; try done; try (intros *; rewrite ?lookup_empty, ?lookup_nil; done).
    intros d. rewrite elem_of_empty. split; [done|]. intros (?&?&E&_). by rewrite lookup_empty in E.
  - split; cbn; try done; try (intros *; rewrite ?lookup_empty, ?lookup_nil; done).
    intros cid eck. rewrite lookup_empty. split; [done|]. intros (e & E & _). by rewrite lookup_empty in E.
Qed.

(** The derived tallies are the ones a rebuild computes. *)
Lemma rebuild_tombstones (ns : gmap (list Z) NodeEntry) (l : list (Z * list Z)) (t : gset Z) d :
  d ∈ foldl (λ t '(dense, ck), match ns !! ck with
       | Some e => if tombstoned (n_delta e) then {[dense]} ∪ t else t
       | None => t end) t l ↔
  d ∈ t ∨ ∃ ck e, (d, ck) ∈ l ∧ ns !! ck = Some e ∧ tombstoned (n_delta e) = true.
Proof.
  revert t. induction l as [|[x ck] l IH]; intros t; cbn.
  { split; [by left|]. intros [?|(?&?&?%elem_of_nil&_)]; done. }
  rewrite IH. setoid_rewrite elem_of_cons.
  destruct (ns !! ck) as [e|] eqn:E; [destruct (tombstoned (n_delta e)) eqn:Ht|].
  - rewrite elem_of_union, elem_of_singleton. split.
    + intros [[->|?]|(y & f & ? & ? & ?)]; [right; exists ck, e; auto|by left|right; exists y, f; auto].
    + intros [?|(y & f & [?|?] & ? & ?)]; [by left; right|simplify_eq; by left; left|right; by exists y, f].
  - split; [intros [?|(y & f & ? & ? & ?)]; [by left|right; exists y, f; auto]|].
    intros [?|(y & f & [?|?] & ? & ?)]; [by left|congruence|right; by exists y, f].
  - split; [intros [?|(y & f & ? & ? & ?)]; [by left|right; exists y, f; auto]|].
    intros [?|(y & f & [?|?] & ? & ?)]; [by left|congruence|right; by exists y, f].
Qed.

Lemma rebuild_derived_id m : nodes_ok m → rebuild_derived m = m.
Proof.
  intros Hn. unfold rebuild_derived.
  assert (m_tombstoned m = foldl (λ t '(dense, ck), match nodes m !! ck with
       | Some e => if tombstoned (n_delta e) then {[dense]} ∪ t else t
       | None => t end) ∅ (map_to_list (by_dense m))) as <-.
  { apply set_eq. intros d. rewrite (inv_tombstoned _ _ _ _ _ _ _ Hn), rebuild_tombstones, elem_of_empty.
    split; [intros (ck & e & ? & ? & ?); right; exists ck, e; by rewrite elem_of_map_to_list|].
    intros [[]|(ck & e & H & ? & ?)]. rewrite elem_of_map_to_list in H. eauto. }
  fold (label_tally (nodes m) (born m)). rewrite <-(inv_counts _ _ _ _ _ _ _ Hn). by destruct m.
Qed.
End apply.

(** * The properties *)

Lemma edge_readable m eck e : edges_ok m → edges m !! eck = Some e →
  (core_edge e = None → delta_edge true m e ∈ out_edges (src_dense e) m ∧
                        delta_edge false m e ∈ in_edges (dst_dense e) m) ∧
  (∀ cid, core_edge e = Some cid → edge_delta_by_id cid m = Some (e_delta e)) ∧
  ∀ s, synthetic_edge e = Some s → edge_delta_by_id s m = Some (e_delta e).
Proof.
  intros He Hck. split_and!.
  - intros Hc. destruct (inv_out _ _ _ _ _ _ _ He) as [_ Ho], (inv_in _ _ _ _ _ _ _ He) as [_ Hi].
    destruct (Ho eck e Hck Hc) as (v & Hv & Hin), (Hi eck e Hck Hc) as (w & Hw & Hin').
    unfold out_edges, in_edges, edges_for. rewrite Hv, Hw.
    split; apply list_elem_of_omap; exists eck; by rewrite Hck.
  - intros cid Hc. assert (by_edge_id m !! cid = Some eck) as Hb
      by (apply (inv_by_edge_id _ _ _ _ _ _ _ He); eauto).
    unfold edge_delta_by_id. rewrite bool_decide_eq_true_2 by (by eapply inv_core_range).
    rewrite Hb. cbn. by rewrite Hck.
  - intros s Hs. destruct (inv_synthetic_edge _ _ _ _ _ _ _ He _ _ _ Hck Hs) as (_ & k & -> & Hk).
    unfold edge_delta_by_id. rewrite bool_decide_eq_false_2 by lia.
    replace (Z.to_nat (edge_synthetic_base m + Z.of_nat k - edge_synthetic_base m)) with k by lia.
    rewrite Hk. cbn. by rewrite Hck.
Qed.

(** A reader listing an endpoint sees the edge [e]: the other end, its type, its identity
    key, whether it is deleted, and its id if it was born here. *)
Definition shows (x : DeltaEdge) (o : Z) (rt : str) (ek : option (str * Value.t)) (e : EdgeEntry) : Prop :=
  x = mkDeltaEdge o rt (synthetic_edge e) ek (e_tombstoned (e_delta e)).

Lemma delta_edge_shows b m e src rt dst ek :
  edge_names_are (interner m) (e_identity e) (mkEdgeNames src rt dst ek) →
  shows (delta_edge b m e) (if b then dst_dense e else src_dense e) rt ek e.
Proof.
  intros (_ & Hr & _ & Hk). unfold shows, delta_edge, name_or_empty. cbn in Hr, Hk. rewrite Hr. f_equal.
  destruct (ei_key (e_identity e)) as [[i v]|], ek as [[k v']|]; try done. cbn. by destruct Hk as [-> ->].
Qed.

Section properties.
Context {layout : Layout}.

(** A resolved write registers its key under the resolved id. *)
Lemma write_registers o l k v x m : by_dense (node_write o l k v (Some x) m) !! x = Some (node_ck l k v m).
Proof.
  assert (∀ ck f m n, by_dense (charge (update_delta ck f m) n) = by_dense m) as Hu.
  { intros ck f m' n. unfold update_delta. by destruct (nodes m' !! ck). }
  assert (∀ ck m', touch_node_entry l k v (Some x) m = (ck, m') → by_dense m' !! x = Some (node_ck l k v m)) as Ht.
  { intros ck m' E. assert (m' = (touch_node_entry l k v (Some x) m).2) as -> by by rewrite E.
    unfold node_ck, touch_node_entry.
    destruct (intern_node_identity l k v (interner m)) as [id i]. apply lookup_insert_eq. }
  destruct o; cbn; unfold upsert_node, remove_node_props, replace_node, set_node_labels;
    try (destruct (touch_node_entry l k v (Some x) m) as [ck m'] eqn:E; rewrite Hu; by eapply Ht).
  unfold delete_node, node_ck. destruct (intern_node_identity l k v (interner m)) as [id i].
  cbn. destruct (nodes m !! NodeIdentity.canonical_key id); apply lookup_insert_eq.
Qed.

Lemma written_id o l k v r m e : let m' := node_write o l k v r m in memtable_wf m' →
  nodes m' !! node_ck l k v m = Some e →
  ∃ d, by_dense m' !! d = Some (node_ck l k v m) ∧ (r = None ∨ r = Some d).
Proof.
  intros m' (_ & Hn & _) He. destruct r as [x|].
  - exists x. split; [apply write_registers|by right].
  - destruct (inv_dense_total _ _ _ _ _ _ _ Hn (node_ck l k v m)) as [d Hd]; [by rewrite He|].
    exists d. auto.
Qed.

(** C7: Along every history of stably resolved writes from an empty level the memtable stays
    consistent: canonical keys match identities, born ids are dense and in allocation order,
    every entry is reachable under exactly one dense id, the adjacency and core-edge indexes
    list exactly the entries they should, deltas keep their invariants, the incremental
    tallies are those a rebuild would compute, and the next write is never refused. *)
Theorem memtable_invariant nb eb h m : history (with_bases nb eb) h m →
  memtable_wf m ∧ rebuild_derived m = m ∧
  ∀ op res, op_ok op → room 10 (interner m) → op_resolves m op res →
    ∃ m', apply op res m = Some m' ∧ memtable_wf m'.
Proof.
  intros Hh. pose proof (history_wf _ _ _ Hh (with_bases_wf nb eb)) as Hm.
  split_and!; [done|apply rebuild_derived_id, Hm|]. intros op res Hok Hr. by apply apply_ok.
Qed.

(** C34: A node write changes the delta of its key as the operation says, and nothing else.
    Unless it deletes a key that exists nowhere, which stores nothing, the key is readable
    afterwards under one dense id, the resolved one if there was one, with the folded delta
    and its business key; every node readable before keeps its id, and its delta unless it
    is the target; no edge changes. *)
Theorem node_write_meaning op o l k v r m : node_key op = Some (l, k, v) → node_op_of op = Some o →
  memtable_wf m → op_ok op → room 2 (interner m) → resolves m (node_ck l k v m) r →
  let ck := node_ck l k v m in
  ∃ m', apply op (ResNode r) m = Some m' ∧ same_edges m m' ∧
    (∀ d x, by_dense m !! d = Some x → by_dense m' !! d = Some x ∧
       (x ≠ ck → node_patch d m' = node_patch d m)) ∧
    (o = OpDelete ∧ r = None ∧ nodes m !! ck = None ∧ nodes m' = nodes m ∨
     ∃ d, (r = None ∨ r = Some d) ∧ node_patch d m' = Some (delta_step (delta_at m ck) o) ∧
       node_identity_by_dense d m' = Some (l, k, v)).
Proof.
  intros Hk Ho Hm Hok Hroom Hr ck. exists (node_write o l k v r m).
  pose proof (node_write_ok o l k v r m Hm Hroom (op_ok_key _ _ _ _ Hok Hk) Hr) as [[Hm' Hf] Hh].
  cbv zeta in Hm', Hf, Hh. set (m' := node_write o l k v r m) in *.
  split_and!; [by apply apply_node|apply Hf| |].
  - intros d x Hd. pose proof (frame_dense _ _ _ Hf d x Hd) as Hd'. split; [done|]. intros Hx.
    unfold node_patch. rewrite Hd, Hd'. cbn. by rewrite (frame_nodes _ _ _ Hf).
  - destruct Hh as [Hdel|(e & Hck & Hd & Hv & Hl & Hkn)]; [by left|right]. fold ck in Hck, Hd.
    destruct (written_id o l k v r m e) as (d & Hbd & Hrd); try done.
    change (by_dense m' !! d = Some ck) in Hbd. exists d. split; [done|].
    unfold node_patch, node_identity_by_dense, name_or_empty. rewrite Hbd. cbn. rewrite Hck. cbn. by rewrite Hl, Hkn, Hv, Hd.
Qed.

End properties.

(** * Witnesses *)

#[local] Instance names_are_dec i n l k v : Decision (names_are i n l k v).
Proof. unfold names_are. apply _. Defined.
#[local] Instance edge_names_are_dec i n en : Decision (edge_names_are i n en).
Proof.
  unfold edge_names_are. repeat apply and_dec; try apply _.
  destruct (ei_key n) as [[? ?]|], (en_key en) as [[? ?]|]; apply _.
Defined.

(** Sufficient conditions that evaluate on a concrete level. *)
Definition resolves_b (m : Memtable) (ck : list Z) (r : option Z) : bool :=
  match nodes m !! ck, r with
  | Some e, None => bool_decide (is_Some (synthetic e))
  | Some _, Some d => bool_decide (by_dense m !! d = Some ck)
  | None, Some d => bool_decide (by_dense m !! d = None) && bool_decide (d < synthetic_base m)
  | None, None => true
  end.

Lemma resolves_b_sound m ck r : resolves_b m ck r = true → resolves m ck r.
Proof.
  unfold resolves_b, resolves. destruct (nodes m !! ck), r; intros H; try done.
  - right. eexists. split; [done|]. by apply bool_decide_eq_true in H.
  - left. split; [done|]. by apply bool_decide_eq_true in H.
  - intros d [= ->]. by apply andb_true_iff in H as [?%bool_decide_eq_true ?%bool_decide_eq_true].
Qed.

Definition endpoint_resolves_b (m : Memtable) (key : str * str * Value.t) (r : option Z) : bool :=
  bool_decide (is_Some r) ||
  forallb (λ p, negb (bool_decide (names_are (interner m) (n_identity p.2) key.1.1 key.1.2 key.2)) ||
                bool_decide (is_Some (synthetic p.2))) (map_to_list (nodes m)).

Lemma endpoint_resolves_b_sound m key r : endpoint_resolves_b m key r = true → endpoint_resolves m key r.
Proof.
  intros [[x Hx]%bool_decide_eq_true|H]%orb_true_iff Hr ck e He Hn; [congruence|].
  rewrite forallb_forall in H. specialize (H (ck, e)). cbn in H.
  rewrite <-list_elem_of_In, elem_of_map_to_list, bool_decide_eq_true_2 in H by done.
  by apply bool_decide_eq_true in H.
Qed.

Definition edge_resolves_b (m : Memtable) (en : EdgeNames) (eid : option Z) : bool :=
  forallb (λ p, negb (bool_decide (edge_names_are (interner m) (e_identity p.2) en)))
    (map_to_list (edges m)) &&
  match eid with
  | Some cid => bool_decide (cid < edge_synthetic_base m) && bool_decide (by_edge_id m !! cid = None)
  | None => true
  end.

Lemma edge_resolves_b_sound m en s d eid : edge_resolves_b m en eid = true → edge_resolves m en s d eid.
Proof.
  intros [H Hc]%andb_true_iff. split.
  - intros eck e He Hn. rewrite forallb_forall in H. specialize (H (eck, e)). cbn in H.
    rewrite <-list_elem_of_In, elem_of_map_to_list, bool_decide_eq_true_2 in H by done. by specialize (H He).
  - intros cid ->. apply andb_true_iff in Hc as [?%bool_decide_eq_true ?%bool_decide_eq_true].
    split; [done|]. congruence.
Qed.

Section witnesses.
#[local] Instance example_layout : Layout := {| size_of_NodeEntry := 200; size_of_EdgeEntry := 320 |}.

Definition person (n : Z) : str * str * Value.t := (lit "P", lit "id", Value.Int n).

Definition example_history : list (WalOp * OpResolution) := [
  (UpsertNode (lit "P") (lit "id") (Value.Int 1) [(lit "x", Value.Int 7)], ResNode (Some 3));
  (UpsertNode (lit "P") (lit "id") (Value.Int 2) [], ResNode None);
  (UpsertEdge (lit "P") (lit "id") (Value.Int 1) (lit "R") (lit "P") (lit "id") (Value.Int 2)
     None false [(lit "w", Value.Int 1)], ResEdge (Some 3) None None);
  (UpsertEdge (lit "P") (lit "id") (Value.Int 1) (lit "C") (lit "P") (lit "id") (Value.Int 1)
     None true [], ResEdge (Some 3) (Some 3) (Some 4));
  (DeleteNode (lit "P") (lit "id") (Value.Int 1), ResNode (Some 3))].

Definition example_step (m : Memtable) (p : WalOp * OpResolution) : Memtable :=
  default m (apply p.1 p.2 m).

Definition example_table (n : nat) : Memtable :=
  foldl example_step (with_bases 10 5) (take n example_history).

(** One more write of the example. *)
Lemma example_next n op res h m : op_ok op → (zlen (int_names (interner (example_table n))) + 10 <=? 2 ^ 32) = true →
  op_resolves (example_table n) op res →
  bool_decide (is_Some (apply op res (example_table n))) = true →
  example_history !! n = Some (op, res) →
  history (example_table (S n)) h m → history (example_table n) ((op, res) :: h) m.
Proof.
  intros Hok Hroom%Z.leb_le Hr [m1 Hm1]%bool_decide_eq_true Hn Hh.
  apply history_cons with (m1 := m1); try done.
  replace m1 with (example_table (S n)); [done|]. unfold example_table.
  rewrite (take_S_r _ _ _ Hn), foldl_app. cbn. unfold example_step at 1. cbn.
  fold (example_table n). by rewrite Hm1.
Qed.

Lemma example_table_history : history (with_bases 10 5) example_history (example_table 5).
Proof.
  change (with_bases 10 5) with (example_table 0). unfold example_history at 1.
  apply example_next; [concrete_ok|by vm_compute| |by vm_compute|done|].
  { exists (lit "P"), (lit "id"), (Value.Int 1). split; [done|]. apply resolves_b_sound. by vm_compute. }
  apply example_next; [concrete_ok|by vm_compute| |by vm_compute|done|].
  { exists (lit "P"), (lit "id"), (Value.Int 2). split; [done|]. apply resolves_b_sound. by vm_compute. }
  apply example_next; [concrete_ok|by vm_compute| |by vm_compute|done|].
  { exists (person 1), (lit "R"), (person 2). split; [done|].
    split; [apply endpoint_resolves_b_sound; by vm_compute|].
    split; [apply endpoint_resolves_b_sound; by vm_compute|]. apply edge_resolves_b_sound. by vm_compute. }
  apply example_next; [concrete_ok|by vm_compute| |by vm_compute|done|].
  { exists (person 1), (lit "C"), (person 1). split; [done|].
    split; [apply endpoint_resolves_b_sound; by vm_compute|].
    split; [apply endpoint_resolves_b_sound; by vm_compute|]. apply edge_resolves_b_sound. by vm_compute. }
  apply example_next; [concrete_ok|by vm_compute| |by vm_compute|done|constructor].
  exists (lit "P"), (lit "id"), (Value.Int 1). split; [done|]. apply resolves_b_sound. by vm_compute.
Qed.

Lemma example_table_wf : memtable_wf (example_table 5).
Proof. eapply history_wf; [apply example_table_history|apply with_bases_wf]. Qed.

Lemma memtable_invariant_witness :
  history (with_bases 10 5) example_history (example_table 5) ∧
  rebuild_derived (example_table 5) = example_table 5 ∧
  tombstoned_ids (example_table 5) = [3] ∧ born_count_with_label (lit "P") (example_table 5) = 1.
Proof.
  split; [apply example_table_history|]. split; [|by vm_compute].
  apply (memtable_invariant 10 5 example_history (example_table 5)). apply example_table_history.
Defined.

Lemma node_write_meaning_witness :
  ∃ m', apply (UpsertNode (lit "P") (lit "id") (Value.Int 1) [(lit "y", Value.Int 9)]) (ResNode (Some 3))
          (example_table 5) = Some m' ∧ same_edges (example_table 5) m'.
Proof.
  destruct (node_write_meaning (UpsertNode (lit "P") (lit "id") (Value.Int 1) [(lit "y", Value.Int 9)])
    (OpSet [(lit "y", Value.Int 9)]) (lit "P") (lit "id") (Value.Int 1) (Some 3) (example_table 5))
    as (m' & Ha & Hs & _).
  - reflexivity.
  - reflexivity.
  - exact example_table_wf.
  - concrete_ok.
  - apply Z.leb_le. vm_compute. reflexivity.
  - apply resolves_b_sound. vm_compute. reflexivity.
  - exists m'. split; [exact Ha|exact Hs].
Defined.

End witnesses.
