(* ===== verification/MemtableCodec.v ===== *)
(** The L0 segment body: [Memtable::serialise] and [Memtable::deserialise] of
    [slater-delta/src/memtable.rs], and the segment file around it
    ([L0Segment::write] and [open] of [slater-delta/src/l0.rs]).

    Maps are written as sequences sorted by key; a [BTreeMap] or [BTreeSet] is walked in key
    order as well. *)

From stdpp Require Import sorting.
From S2P Require Import Prelude Values Wire Crypto Seal Identity NodeDelta Memtable MemtableInv.

(** * Sorted maps and sets on the wire *)

(** Inserting a list of bindings one after the other. *)
Definition insert_all {K V} `{Countable K} (l : list (K * V)) : gmap K V :=
  foldl (λ m p, <[p.1 := p.2]> m) ∅ l.

Definition key_le {K V} (cmp : K → K → comparison) (a b : K * V) : Prop := cmp a.1 b.1 ≠ Gt.

#[export] Instance key_le_dec {K V} (cmp : K → K → comparison) : RelDecision (key_le (V := V) cmp).
Proof. intros a b. unfold key_le. apply _. Defined.

Definition sorted_entries {K V} `{Countable K} (cmp : K → K → comparison) (m : gmap K V) : list (K * V) :=
  merge_sort (key_le cmp) (map_to_list m).

(** The elements of a [BTreeSet<String>], in order. *)
Definition sorted_names (s : gset (list Z)) : list str := merge_sort bytes_le (elements s).

Definition write_map {K V} `{Countable K} (cmp : K → K → comparison) (wk : K → bytes) (wv : V → bytes)
    (m : gmap K V) : bytes :=
  write_seq (write_pair wk wv) (sorted_entries cmp m).

Definition read_map {K V} `{Countable K} (rk : reader K) (rv : reader V) : reader (gmap K V) := λ r,
  '(l, r) ← read_seq (read_pair rk rv) r; Ok (insert_all l, r).

(** * The body format *)

Definition L0_FORMAT_VERSION : Z := 4.

Definition w_str (s : str) : bytes := write_string s.
Definition r_str : reader str := read_string (Bail "L0 string truncated") (Bail "L0 string not utf-8").

Definition w_bytes (b : bytes) : bytes := write_uvarint (zlen b) ++ b.
Definition r_bytes : reader bytes := λ r,
  '(len, r) ← read_uvarint r; split_at (Bail "L0 byte string truncated") len r.

Definition read_u8 : reader Z := split_first (Bail "L0 truncated").

Definition w_opt_u64 (v : option Z) : bytes :=
  match v with Some x => 1 :: write_uvarint x | None => [0] end.

Definition r_opt_u64 : reader (option Z) := λ r,
  '(t, r) ← read_u8 r;
  if t =? 0 then Ok (None, r)
  else if t =? 1 then '(x, r) ← read_uvarint r; Ok (Some x, r)
  else Err (Bail "L0 bad Option tag").

Definition w_node_identity (id : NodeIdentity) : bytes :=
  write_uvarint (ni_label id) ++ write_uvarint (ni_key id) ++ write_value (ni_value id).

Definition r_node_identity : reader NodeIdentity := λ r,
  '(label, r) ← read_uvarint r;
  '(key, r) ← read_uvarint r;
  '(value, r) ← read_value r;
  Ok (mkNodeIdentity (as_u32 label) (as_u32 key) value, r).

Definition w_delta (patches : gmap (list Z) Value.t) (tombstoned : bool) : bytes :=
  Z.b2z tombstoned :: write_map bytes_cmp w_str write_value patches.

Definition r_delta : reader (gmap (list Z) Value.t * bool) := λ r,
  '(t, r) ← read_u8 r;
  '(patches, r) ← read_map r_str read_value r;
  Ok ((patches, negb (t =? 0)), r).

Definition w_name_set (s : gset (list Z)) : bytes := write_seq w_str (sorted_names s).

Definition r_name_set : reader (gset (list Z)) := λ r,
  '(l, r) ← read_seq r_str r; Ok (foldl (λ s n, {[n]} ∪ s) ∅ l, r).

Definition w_node_delta (d : NodeDelta) : bytes :=
  w_delta (patches d) (tombstoned d) ++ [Z.b2z (replaced d)] ++ w_name_set (removed d) ++
  w_name_set (labels_added d) ++ w_name_set (labels_removed d).

Definition r_node_delta : reader NodeDelta := λ r,
  '(pt, r) ← r_delta r;
  '(rp, r) ← read_u8 r;
  '(rem, r) ← r_name_set r;
  '(la, r) ← r_name_set r;
  '(lr, r) ← r_name_set r;
  Ok (mkNodeDelta pt.1 rem (negb (rp =? 0)) la lr pt.2, r).

Definition w_edge_key (key : option (Z * Value.t)) : bytes :=
  match key with
  | None => [0]
  | Some (sym, value) => 1 :: write_uvarint sym ++ write_value value
  end.

Definition r_edge_key : reader (option (Z * Value.t)) := λ r,
  '(b, r) ← read_u8 r;
  if b =? 0 then Ok (None, r)
  else '(sym, r) ← read_uvarint r;
       '(value, r) ← read_value r;
       Ok (Some (as_u32 sym, value), r).

Definition w_dense_index (idx : gmap Z (list Z)) : bytes := write_map Z.compare write_uvarint w_bytes idx.
Definition r_dense_index : reader (gmap Z (list Z)) := read_map read_uvarint r_bytes.

Definition w_key_vec (v : list (list Z)) : bytes := write_seq w_bytes v.
Definition r_key_vec : reader (list (list Z)) := read_seq r_bytes.

Definition w_adj (adj : gmap Z (list (list Z))) : bytes := write_map Z.compare write_uvarint w_key_vec adj.
Definition r_adj : reader (gmap Z (list (list Z))) := read_map read_uvarint r_key_vec.

(** One stored entry, after its canonical key. *)
Definition w_node_entry (e : NodeEntry) : bytes :=
  w_node_identity (n_identity e) ++ w_node_delta (n_delta e) ++ w_opt_u64 (synthetic e).

Definition r_node_entry : reader NodeEntry := λ r,
  '(ident, r) ← r_node_identity r;
  '(delta, r) ← r_node_delta r;
  '(syn, r) ← r_opt_u64 r;
  Ok (mkNodeEntry ident delta syn, r).

Definition w_edge_entry (e : EdgeEntry) : bytes :=
  w_node_identity (ei_src (e_identity e)) ++ write_uvarint (ei_reltype (e_identity e)) ++
  w_node_identity (ei_dst (e_identity e)) ++ w_edge_key (ei_key (e_identity e)) ++
  write_uvarint (src_dense e) ++ write_uvarint (dst_dense e) ++
  w_opt_u64 (synthetic_edge e) ++ w_opt_u64 (core_edge e) ++
  w_delta (e_patches (e_delta e)) (e_tombstoned (e_delta e)) ++ [Z.b2z (e_replaced (e_delta e))].

Definition r_edge_entry : reader EdgeEntry := λ r,
  '(src, r) ← r_node_identity r;
  '(reltype, r) ← read_uvarint r;
  '(dst, r) ← r_node_identity r;
  '(key, r) ← r_edge_key r;
  '(sd, r) ← read_uvarint r;
  '(dd, r) ← read_uvarint r;
  '(syn, r) ← r_opt_u64 r;
  '(core, r) ← r_opt_u64 r;
  '(pt, r) ← r_delta r;
  '(rp, r) ← read_u8 r;
  Ok (mkEdgeEntry (mkEdgeIdentity src (as_u32 reltype) dst key) sd dd syn core
        (mkEdgeDelta pt.1 (negb (rp =? 0)) pt.2), r).

Definition serialise (m : Memtable) : bytes :=
  write_uvarint L0_FORMAT_VERSION ++
  write_seq w_str (Interner.names (interner m)) ++
  write_uvarint (synthetic_base m) ++ write_uvarint (edge_synthetic_base m) ++
  write_uvarint (m_bytes m) ++
  write_map bytes_cmp w_bytes w_node_entry (nodes m) ++
  write_map bytes_cmp w_bytes w_edge_entry (edges m) ++
  w_dense_index (by_dense m) ++ w_adj (out_adj m) ++ w_adj (in_adj m) ++
  w_key_vec (born m) ++ w_key_vec (born_edges m).

(** [edges.iter().filter_map(|(ck, e)| e.core_edge.map(|cid| (cid, ck.clone()))).collect()]. *)
Definition core_index (es : gmap (list Z) EdgeEntry) : gmap Z (list Z) :=
  insert_all (omap (λ p, (λ cid, (cid, p.1)) <$> core_edge p.2) (map_to_list es)).

Definition deserialise (b : bytes) : result Memtable :=
  '(version, r) ← read_uvarint b;
  if negb (version =? L0_FORMAT_VERSION) then Err (Bail "unsupported L0 segment version") else
  '(names, r) ← read_seq r_str r;
  '(nb, r) ← read_uvarint r;
  '(eb, r) ← read_uvarint r;
  '(est, r) ← read_uvarint r;
  '(ns, r) ← read_map r_bytes r_node_entry r;
  '(es, r) ← read_map r_bytes r_edge_entry r;
  '(bd, r) ← r_dense_index r;
  '(oa, r) ← r_adj r;
  '(ia, r) ← r_adj r;
  '(bn, r) ← r_key_vec r;
  '(bes, r) ← r_key_vec r;
  match r with
  | _ :: _ => Err (Bail "L0 segment has trailing bytes")
  | [] => Ok (rebuild_derived (mkMemtable (Interner.from_names names) ns es oa ia bd (core_index es)
                nb eb bn bes ∅ ∅ est))
  end.

(** * Reading back *)

Lemma insert_all_lookup {K V} `{Countable K} (l : list (K * V)) k v :
  (∀ k v v', (k, v) ∈ l → (k, v') ∈ l → v = v') → insert_all l !! k = Some v ↔ (k, v) ∈ l.
Proof.
  unfold insert_all. induction l as [|[a b] l IH] using rev_ind; intros Hf.
  { cbn. rewrite lookup_empty. split; [done|]. by intros ?%elem_of_nil. }
  rewrite foldl_app. cbn. rewrite elem_of_app, list_elem_of_singleton.
  assert (∀ k v v', (k, v) ∈ l → (k, v') ∈ l → v = v') as Hf'.
  { intros x y z Hy Hz. eapply Hf; apply elem_of_app; by left. }
  destruct (decide (k = a)) as [->|Hne].
  - rewrite lookup_insert_eq. split; [intros [= ->]; by right|]. intros [Hin|[= ->]]; [|done].
    f_equal. eapply (Hf a b v); apply elem_of_app; [right; by apply list_elem_of_singleton|by left].
  - rewrite lookup_insert_ne, IH by done. split; [by left|]. intros [?|[= ? ?]]; done.
Qed.

Lemma insert_all_sorted {K V} `{Countable K} cmp (m : gmap K V) : insert_all (sorted_entries cmp m) = m.
Proof.
  apply map_eq. intros k. apply option_eq. intros v. unfold sorted_entries.
  assert (∀ p, p ∈ merge_sort (key_le cmp) (map_to_list m) ↔ m !! p.1 = Some p.2) as Hin.
  { intros [a b]. rewrite merge_sort_Permutation. apply elem_of_map_to_list. }
  rewrite insert_all_lookup; [apply (Hin (k, v))|].
  intros a b c Hb%Hin Hc%Hin. cbn in *. congruence.
Qed.

Lemma sorted_names_elements (s : gset (list Z)) : foldl (λ s n, {[n]} ∪ s) ∅ (sorted_names s) = s.
Proof.
  apply set_eq. intros x. trans (x ∈ sorted_names s).
  - generalize (sorted_names s) as l. intros l. induction l as [|a l IH] using rev_ind; cbn.
    + rewrite elem_of_empty, elem_of_nil. done.
    + rewrite foldl_app, elem_of_app, list_elem_of_singleton. cbn. rewrite elem_of_union, elem_of_singleton, IH.
      tauto.
  - unfold sorted_names. rewrite merge_sort_Permutation. apply elem_of_elements.
Qed.

Section map_codec.
Context {K V : Type} `{Countable K} {cmp : K → K → comparison}.
Context {wfk : K → Prop} {wk : K → bytes} {rk : reader K} {wfv : V → Prop} {wv : V → bytes} {rv : reader V}.

#[export] Instance read_map_consuming : Consuming rk → Consuming rv → Consuming (read_map rk rv).
Proof.
  intros Hk Hv r m r' E. apply bind_Ok in E as ([l r1] & E1 & E). simplify_eq.
  by apply consuming in E1.
Qed.

Definition map_ok (m : gmap K V) : Prop :=
  fits (map_to_list m) ∧ map_Forall (λ k v, wfk k ∧ wfv v) m.

#[export] Instance map_codec : Codec wfk wk rk → Codec wfv wv rv →
  Codec map_ok (write_map cmp wk wv) (read_map rk rv).
Proof.
  intros Hk Hv. constructor; [apply read_map_consuming; apply codec_consuming|]. intros m rest [Hf Hm].
  unfold write_map, read_map.
  rewrite (codec_roundtrip (wf := λ xs, fits xs ∧ Forall (λ p, wfk p.1 ∧ wfv p.2) xs)).
  - cbn. by rewrite insert_all_sorted.
  - split.
    + unfold fits, zlen, sorted_entries in *. by rewrite merge_sort_Permutation.
    + apply Forall_forall. intros [k v] Hin. unfold sorted_entries in Hin.
      rewrite merge_sort_Permutation in Hin. apply elem_of_map_to_list in Hin. apply (Hm k v Hin).
Qed.
End map_codec.

#[global] Arguments map_ok {K V _ _} wfk wfv m.
#[global] Arguments w_bytes : simpl never.
#[global] Arguments w_str : simpl never.
#[global] Arguments r_str : simpl never.
#[global] Arguments r_bytes : simpl never.
#[global] Arguments write_map : simpl never.
#[global] Arguments read_map : simpl never.
#[global] Arguments w_name_set : simpl never.
#[global] Arguments r_name_set : simpl never.

(** What the field types guarantee, values within the depth the decoder accepts. *)
Definition bytes_ok (b : bytes) : Prop := Forall is_u8 b ∧ fits b.
Definition opt_u64_ok (v : option Z) : Prop := match v with Some x => is_u64 x | None => True end.
Definition identity_ok (id : NodeIdentity) : Prop :=
  is_u32 (ni_label id) ∧ is_u32 (ni_key id) ∧ value_ok (ni_value id).
Definition sym_key_ok (key : option (Z * Value.t)) : Prop :=
  match key with Some (s, v) => is_u32 s ∧ value_ok v | None => True end.
Definition names_ok (s : gset (list Z)) : Prop := fits (elements s) ∧ set_Forall str_ok s.
Definition node_delta_ok (d : NodeDelta) : Prop :=
  map_ok str_ok value_ok (patches d) ∧ names_ok (removed d) ∧ names_ok (labels_added d) ∧
  names_ok (labels_removed d).
Definition node_entry_ok (e : NodeEntry) : Prop :=
  identity_ok (n_identity e) ∧ node_delta_ok (n_delta e) ∧ opt_u64_ok (synthetic e).
Definition edge_entry_image_ok (e : EdgeEntry) : Prop :=
  identity_ok (ei_src (e_identity e)) ∧ is_u32 (ei_reltype (e_identity e)) ∧
  identity_ok (ei_dst (e_identity e)) ∧ sym_key_ok (ei_key (e_identity e)) ∧
  is_u64 (src_dense e) ∧ is_u64 (dst_dense e) ∧ opt_u64_ok (synthetic_edge e) ∧
  opt_u64_ok (core_edge e) ∧ map_ok str_ok value_ok (e_patches (e_delta e)).
Definition keys_ok (v : list (list Z)) : Prop := fits v ∧ Forall bytes_ok v.

Record encodable (m : Memtable) : Prop := {
  enc_names : fits (int_names (interner m)) ∧ Forall str_ok (int_names (interner m));
  enc_bases : is_u64 (synthetic_base m) ∧ is_u64 (edge_synthetic_base m) ∧ is_u64 (m_bytes m);
  enc_nodes : map_ok bytes_ok node_entry_ok (nodes m);
  enc_edges : map_ok bytes_ok edge_entry_image_ok (edges m);
  enc_dense : map_ok is_u64 bytes_ok (by_dense m);
  enc_adj : map_ok is_u64 keys_ok (out_adj m) ∧ map_ok is_u64 keys_ok (in_adj m);
  enc_born : keys_ok (born m) ∧ keys_ok (born_edges m);
}.

Lemma as_u32_id z : is_u32 z → as_u32 z = z.
Proof. unfold is_u32, as_u32. intros. by apply Z.mod_small. Qed.

(** Read one field back after the other. *)
Ltac next_field := rewrite <-?app_assoc; rewrite codec_roundtrip by auto; cbn [mbind result_bind].
Ltac next_byte := rewrite <-?app_assoc; cbn [app read_u8 split_first mbind result_bind].

#[export] Instance l0_str_codec : Codec str_ok w_str r_str.
Proof. apply string_codec. Qed.
#[export] Instance r_str_consuming : Consuming r_str := codec_consuming.

#[export] Instance bytes_codec : Codec bytes_ok w_bytes r_bytes.
Proof.
  constructor.
  - intros r b r' E. unfold r_bytes in E. split_bind. consume.
  - intros b rest [_ Hf]. unfold w_bytes, r_bytes. rewrite <-app_assoc, read_write_uvarint by by apply fits_u64.
    cbn [mbind result_bind]. apply split_at_app.
Qed.
#[export] Instance r_bytes_consuming : Consuming r_bytes := codec_consuming.

#[export] Instance opt_u64_codec : Codec opt_u64_ok w_opt_u64 r_opt_u64.
Proof.
  constructor.
  - intros r v r' E. unfold r_opt_u64, read_u8 in E. apply bind_Ok in E as ([t r1] & E1 & E).
    destruct (t =? 0); [simplify_eq; consume|]. destruct (t =? 1); [|done]. split_bind. simplify_eq. consume.
  - intros [x|] rest Hx; [|done]. cbn. by rewrite read_write_uvarint.
Qed.

#[export] Instance identity_codec : Codec identity_ok w_node_identity r_node_identity.
Proof.
  constructor.
  - intros r v r' E. unfold r_node_identity in E. split_bind. simplify_eq. consume.
  - intros [l k v] rest (Hl & Hk & Hv). unfold w_node_identity, r_node_identity. cbn [ni_label ni_key ni_value] in *.
    rewrite <-!app_assoc, read_write_uvarint by auto. cbn [mbind result_bind].
    rewrite read_write_uvarint by auto. cbn [mbind result_bind]. rewrite codec_roundtrip by done.
    cbn. by rewrite !as_u32_id.
Qed.

Lemma b2z_neq b : negb (Z.b2z b =? 0) = b.
Proof. by destruct b. Qed.

#[export] Instance delta_codec :
  Codec (λ p, map_ok str_ok value_ok p.1) (λ p, w_delta p.1 p.2) r_delta.
Proof.
  constructor.
  - intros r v r' E. unfold r_delta, read_u8 in E. split_bind. simplify_eq. consume.
  - intros [ps t] rest Hp. cbn [fst snd] in *. unfold w_delta, r_delta. cbn [app read_u8 split_first mbind result_bind].
    rewrite codec_roundtrip by done. cbn. by rewrite b2z_neq.
Qed.

#[export] Instance name_set_codec : Codec names_ok w_name_set r_name_set.
Proof.
  constructor.
  - intros r v r' E. unfold r_name_set in E. split_bind. simplify_eq. consume.
  - intros s rest [Hf Hs]. unfold w_name_set, r_name_set.
    rewrite (codec_roundtrip (wf := λ xs, fits xs ∧ Forall str_ok xs)).
    + cbn. by rewrite sorted_names_elements.
    + unfold sorted_names. split; [unfold fits, zlen in *; by rewrite merge_sort_Permutation|].
      apply Forall_forall. intros x Hx. rewrite merge_sort_Permutation, elem_of_elements in Hx. by apply Hs.
Qed.

#[export] Instance r_opt_u64_consuming : Consuming r_opt_u64 := codec_consuming.
#[export] Instance r_node_identity_consuming : Consuming r_node_identity := codec_consuming.
#[export] Instance r_delta_consuming : Consuming r_delta := codec_consuming.
#[export] Instance r_name_set_consuming : Consuming r_name_set := codec_consuming.

#[global] Arguments w_node_identity : simpl never.
#[global] Arguments r_node_identity : simpl never.
#[global] Arguments w_delta : simpl never.
#[global] Arguments r_delta : simpl never.
#[global] Arguments w_opt_u64 : simpl never.
#[global] Arguments r_opt_u64 : simpl never.

Lemma read_delta_image ps t rest : map_ok str_ok value_ok ps →
  r_delta (w_delta ps t ++ rest) = Ok ((ps, t), rest).
Proof. apply (codec_roundtrip (Codec := delta_codec) (ps, t)). Qed.

#[export] Instance node_delta_codec : Codec node_delta_ok w_node_delta r_node_delta.
Proof.
  constructor.
  - intros r v r' E. unfold r_node_delta, read_u8 in E. split_bind. simplify_eq. consume.
  - intros [ps rm rp la lr t] rest (Hp & Hr & Ha & Hl). unfold w_node_delta, r_node_delta.
    cbn [patches removed replaced labels_added labels_removed tombstoned] in *.
    rewrite <-!app_assoc, read_delta_image by done. cbn [mbind result_bind]. next_byte.
    do 3 next_field. by rewrite b2z_neq.
Qed.
#[export] Instance r_node_delta_consuming : Consuming r_node_delta := codec_consuming.

#[export] Instance edge_key_codec : Codec sym_key_ok w_edge_key r_edge_key.
Proof.
  constructor.
  - intros r v r' E. unfold r_edge_key, read_u8 in E. apply bind_Ok in E as ([t r1] & E1 & E).
    destruct (t =? 0); [simplify_eq; consume|]. split_bind. simplify_eq. consume.
  - intros [[s v]|] rest Hk; [|done]. destruct Hk as [Hs Hv]. unfold w_edge_key, r_edge_key. next_byte.
    cbn [Z.eqb]. rewrite <-app_assoc, read_write_uvarint by auto. cbn [mbind result_bind]. next_field.
    by rewrite as_u32_id.
Qed.
#[export] Instance r_edge_key_consuming : Consuming r_edge_key := codec_consuming.

#[global] Arguments w_node_delta : simpl never.
#[global] Arguments r_node_delta : simpl never.
#[global] Arguments w_edge_key : simpl never.
#[global] Arguments r_edge_key : simpl never.

#[export] Instance node_entry_codec : Codec node_entry_ok w_node_entry r_node_entry.
Proof.
  constructor.
  - intros r v r' E. unfold r_node_entry in E. split_bind. simplify_eq. consume.
  - intros [id d s] rest (Hi & Hd & Hs). unfold w_node_entry, r_node_entry.
    cbn [n_identity n_delta synthetic] in *. do 3 next_field. done.
Qed.

#[export] Instance edge_entry_codec : Codec edge_entry_image_ok w_edge_entry r_edge_entry.
Proof.
  constructor.
  - intros r v r' E. unfold r_edge_entry, read_u8 in E. split_bind. simplify_eq. consume.
  - intros [[src rt dst key] sd dd syn core [ps rp t]] rest. unfold edge_entry_image_ok.
    cbn [e_identity ei_src ei_reltype ei_dst ei_key src_dense dst_dense synthetic_edge core_edge e_delta
         e_patches e_replaced e_tombstoned].
    intros (Hsrc & Hrt & Hdst & Hkey & Hsd & Hdd & Hsyn & Hcore & Hps).
    unfold w_edge_entry, r_edge_entry. cbn [e_identity ei_src ei_reltype ei_dst ei_key src_dense dst_dense
      synthetic_edge core_edge e_delta e_patches e_replaced e_tombstoned].
    do 8 next_field. rewrite read_delta_image by done. cbn [mbind result_bind]. next_byte.
    by rewrite b2z_neq, as_u32_id.
Qed.

#[export] Instance key_vec_codec : Codec keys_ok w_key_vec r_key_vec.
Proof. unfold keys_ok, w_key_vec, r_key_vec. apply _. Qed.
#[export] Instance dense_index_codec : Codec (map_ok is_u64 bytes_ok) w_dense_index r_dense_index.
Proof. unfold w_dense_index, r_dense_index. apply _. Qed.
#[export] Instance adj_codec : Codec (map_ok is_u64 keys_ok) w_adj r_adj.
Proof. unfold w_adj, r_adj. apply _. Qed.

(** The core-edge index is the one the live writes maintained. *)
Lemma core_index_by_edge_id m : edges_ok m → core_index (edges m) = by_edge_id m.
Proof.
  intros He. apply map_eq. intros cid. apply option_eq. intros eck. unfold core_index.
  assert (∀ p, p ∈ omap (λ p, (λ cid, (cid, p.1)) <$> core_edge p.2) (map_to_list (edges m)) ↔
    by_edge_id m !! p.1 = Some p.2) as Hin.
  { intros [c x]. rewrite list_elem_of_omap, (inv_by_edge_id _ _ _ _ _ _ _ He). cbn. split.
    - intros ([y e] & Hy & Hc). rewrite elem_of_map_to_list in Hy. cbn in Hc.
      destruct (core_edge e) eqn:E; simplify_eq/=. eauto.
    - intros (e & Hx & Hc). exists (x, e). rewrite elem_of_map_to_list. split; [done|]. cbn. by rewrite Hc. }
  rewrite insert_all_lookup; [apply (Hin (cid, eck))|].
  intros a b c Hb%Hin Hc%Hin. cbn in *. congruence.
Qed.

Lemma deserialise_serialise m : memtable_wf m → encodable m →
  deserialise (serialise m) = Ok (rebuild_derived m).
Proof.
  intros (Hi & Hn & He) [E1 (B1 & B2 & B3) E3 E4 E5 [E6 E7] [E8 E9]]. unfold serialise, deserialise.
  rewrite read_write_uvarint by done. cbn [mbind result_bind Z.eqb L0_FORMAT_VERSION Pos.eqb negb].
  rewrite (codec_roundtrip (wf := λ xs, fits xs ∧ Forall str_ok xs)) by done. cbn [mbind result_bind].
  do 9 next_field.
  rewrite <-(app_nil_r (w_key_vec (born_edges m))). next_field.
  rewrite Interner.from_names_names, core_index_by_edge_id by done. by destruct m.
Qed.
