(* ===== verification/L0Segment.v ===== *)
(** L0 segment files: [L0Segment::write] and [L0Segment::open] of [slater-delta/src/l0.rs],
    over a directory with failing file operations.

    A directory maps file names to contents.  Each file operation of [write] draws an outcome;
    a failing [write_all] leaves a prefix of its bytes behind, a failing create, sync or
    rename changes nothing ([rename] replaces its target atomically).  The directory is
    recorded after every operation, so a theorem can speak about every moment of a write. *)

From S2P Require Import Prelude Values Wire Crypto Seal Identity WalCodec WalReplay NodeDelta.
From S2P Require Import Memtable MemtableInv MemtableApply MemtableCodec.

Definition L0_MAGIC : bytes := lit "SLL0SEG1".
Definition L0_MAGIC_SEALED : bytes := lit "SLL0SEGE".
Definition L0_SUBJECT : string := "L0 delta segment".

Abbreviation dir := (gmap (list Z) (list Z)) (only parsing).

Inductive file_op :=
  | CreateFile (name : str)
  | WriteAll (name : str) (contents : bytes)
  | SyncAll (name : str)
  | Rename (from to : str).

(** [None] is success; [Some k] is a failure, after [k] bytes where bytes are written. *)
Definition run_op (o : file_op) (outcome : option nat) (d : dir) : result unit * dir :=
  match o, outcome with
  | CreateFile n, None => (Ok tt, <[n := []]> d)
  | WriteAll n c, None => (Ok tt, <[n := default [] (d !! n) ++ c]> d)
  | WriteAll n c, Some k => (Err (Bail "write"), <[n := default [] (d !! n) ++ take k c]> d)
  | Rename a b, None =>
      match d !! a with
      | Some c => (Ok tt, <[b := c]> (delete a d))
      | None => (Err (Bail "rename"), d)
      end
  | SyncAll _, None => (Ok tt, d)
  | _, Some _ => (Err (Bail "io"), d)
  end.

(** The operations in turn, stopping at the first failure, and the directories passed
    through.  When the outcomes run out the rest succeed. *)
Fixpoint run_ops (os : list file_op) (outcomes : list (option nat)) (d : dir) : result unit * list dir :=
  match os with
  | [] => (Ok tt, [d])
  | o :: os =>
      let '(r, d') := run_op o (mjoin (head outcomes)) d in
      match r with
      | Err e => (Err e, [d; d'])
      | Ok _ => let '(r, ds) := run_ops os (tail outcomes) d' in (r, d :: ds)
      end
  end.

(** [path.with_extension("tmp")]. *)
Definition with_tmp (name : str) : str :=
  (match stem_ext name with Some (stem, _) => stem | None => name end) ++ lit ".tmp".

Section segment.
Context `{Crypto}.

Definition l0_cipher (cipher : option BlockCipher) (name : str) : result (option FileCipher) :=
  n ← l0_name (Some name) None; Ok (bind cipher n).

(** The directory sync after the rename ignores its outcome, and changes no contents. *)
Definition write (mem : Memtable) (name : str) (cipher : option BlockCipher) (nonce : bytes)
    (outcomes : list (option nat)) (d : dir) : result unit * list dir :=
  let body := serialise mem in
  match (c ← l0_cipher cipher name; frame_blob L0_MAGIC L0_MAGIC_SEALED c nonce body) with
  | Err e => (Err e, [d])
  | Ok framed =>
      let tmp := with_tmp name in
      run_ops [CreateFile tmp; WriteAll tmp framed; SyncAll tmp; Rename tmp name] outcomes d
  end.

Definition open (name : str) (cipher : option BlockCipher) (d : dir) : result Memtable :=
  match d !! name with
  | None => Err (Bail "read L0 segment")
  | Some bs =>
      c ← l0_cipher cipher name;
      body ← unframe_blob L0_MAGIC L0_MAGIC_SEALED c bs L0_SUBJECT;
      deserialise body
  end.
End segment.

(** * Lemmas *)

(** The staging name is never the segment's own, unless that is itself a [.tmp] name. *)
Lemma with_tmp_ne name stem ext : stem_ext name = Some (stem, ext) → ext ≠ lit "tmp" →
  name = stem ++ lit "." ++ ext → with_tmp name ≠ name.
Proof.
  intros E He Hn. unfold with_tmp. rewrite E, Hn. intros Heq. apply app_inv_head in Heq.
  change (lit ".tmp") with (lit "." ++ lit "tmp") in Heq. apply app_inv_head in Heq. congruence.
Qed.

(** Staging and renaming: the target holds its old contents or all of the new ones. *)
Lemma staged_write tmp name framed outcomes d : tmp ≠ name →
  let '(r, ds) := run_ops [CreateFile tmp; WriteAll tmp framed; SyncAll tmp; Rename tmp name] outcomes d in
  (∀ d', d' ∈ ds → d' !! name = d !! name ∨ d' !! name = Some framed) ∧
  (r = Ok tt → ∃ d', last ds = Some d' ∧ d' !! name = Some framed).
Proof.
  intros Hne. cbn [run_ops].
  destruct (mjoin (head outcomes)) as [k|]; cbn.
  { split; [|done]. intros d' Hd. repeat (apply elem_of_cons in Hd as [->|Hd]; [by left|]). by apply elem_of_nil in Hd. }
  destruct (mjoin (head (tail outcomes))) as [k|]; cbn.
  { split; [|done]. intros d' Hd. left.
    repeat (apply elem_of_cons in Hd as [->|Hd]; [by rewrite ?lookup_insert_ne|]). by apply elem_of_nil in Hd. }
  destruct (mjoin (head (tail (tail outcomes)))) as [k|]; cbn.
  { split; [|done]. intros d' Hd. left.
    repeat (apply elem_of_cons in Hd as [->|Hd]; [by rewrite ?lookup_insert_ne|]). by apply elem_of_nil in Hd. }
  destruct (mjoin (head (tail (tail (tail outcomes))))) as [k|]; cbn.
  { split; [|done]. intros d' Hd. left.
    repeat (apply elem_of_cons in Hd as [->|Hd]; [by rewrite ?lookup_insert_ne|]). by apply elem_of_nil in Hd. }
  rewrite !lookup_insert_eq. cbn. split.
  - intros d' Hd. repeat (apply elem_of_cons in Hd as [->|Hd]; [first [by left; rewrite ?lookup_insert_ne
      |right; by rewrite lookup_insert_eq]|]). by apply elem_of_nil in Hd.
  - intros _. eexists. split; [done|]. by rewrite lookup_insert_eq.
Qed.

Section properties.
Context `{CryptoLaws}.

Lemma open_framed name cipher nonce mem c framed d : memtable_wf mem → encodable mem →
  zlen nonce = NONCE_LEN → l0_cipher cipher name = Ok c →
  frame_blob L0_MAGIC L0_MAGIC_SEALED c nonce (serialise mem) = Ok framed →
  d !! name = Some framed → open name cipher d = Ok mem.
Proof.
  intros Hm He Hn Hc Hf Hd. unfold open. rewrite Hd, Hc. cbn [mbind result_bind].
  rewrite (unframe_framed _ _ _ _ nonce (serialise mem)) by done. cbn [mbind result_bind].
  rewrite deserialise_serialise by done. by rewrite rebuild_derived_id by apply Hm.
Qed.

Lemma open_same name cipher d d' : d' !! name = d !! name → open name cipher d' = open name cipher d.
Proof. unfold open. by intros ->. Qed.

(** C36: An L0 segment is written atomically and reads back exactly.  At every moment of a
    write, whichever file operation fails and however much of the image it left behind,
    opening the segment gives what it gave before or the whole new memtable; when the write
    is acknowledged it gives the new memtable; and without a fault an unsealed write is
    acknowledged. *)
Theorem l0_segment_atomic mem name cipher nonce outcomes d :
  memtable_wf mem → encodable mem → zlen nonce = NONCE_LEN → with_tmp name ≠ name →
  let '(r, ds) := write mem name cipher nonce outcomes d in
  (∀ d', d' ∈ ds → open name cipher d' = open name cipher d ∨ open name cipher d' = Ok mem) ∧
  (r = Ok tt → ∃ d', last ds = Some d' ∧ open name cipher d' = Ok mem) ∧
  (cipher = None → Forall (eq None) outcomes → r = Ok tt).
Proof.
  intros Hm He Hn Htmp. unfold write.
  destruct (l0_cipher cipher name) as [c|e] eqn:Hc; [|done]. cbn [mbind result_bind].
  destruct (frame_blob L0_MAGIC L0_MAGIC_SEALED c nonce (serialise mem)) as [framed|e] eqn:Hf.
  - pose proof (staged_write (with_tmp name) name framed outcomes d Htmp) as Hs.
    assert (Forall (eq None) outcomes → (run_ops [CreateFile (with_tmp name); WriteAll (with_tmp name) framed;
      SyncAll (with_tmp name); Rename (with_tmp name) name] outcomes d).1 = Ok tt) as Hlive.
    { intros Hall. cbn [run_ops].
      assert (∀ l, Forall (eq None) l → mjoin (head l) = None (A := nat) ∧ Forall (eq (@None nat)) (tail l)) as Hnx.
      { intros [|x l] Hl; [done|]. by apply Forall_cons in Hl as [<- ?]. }
      destruct (Hnx outcomes) as [-> H1]; [done|]. cbn. destruct (Hnx _ H1) as [-> H2]. cbn.
      destruct (Hnx _ H2) as [-> H3]. cbn. destruct (Hnx _ H3) as [-> _]. cbn. by rewrite !lookup_insert_eq. }
    destruct (run_ops _ outcomes d) as [r ds]. destruct Hs as [Hat Hok]. split_and!.
    + intros d' Hin. destruct (Hat d' Hin) as [E|E]; [left; by apply open_same|right].
      by eapply open_framed.
    + intros ->. destruct Hok as (d' & Hl & E); [done|]. exists d'. split; [done|]. by eapply open_framed.
    + by intros _.
  - split_and!; [|done|].
    + intros d' Hd%list_elem_of_singleton. subst. by left.
    + intros ->. cbn in Hc. simplify_eq/=.
Qed.
End properties.

(** * Witness *)

Section witnesses.
#[local] Existing Instance toy_crypto.
#[local] Existing Instance toy_crypto_laws.
#[local] Existing Instance example_layout.

(** A core node with a patch, in a level of its own. *)
Definition example_level : Memtable := example_table 1.

Lemma example_level_wf : memtable_wf example_level.
Proof.
  eapply (history_wf (with_bases 10 5) (take 1 example_history)); [|apply with_bases_wf].
  apply (example_next 0); [concrete_ok|by vm_compute| |by vm_compute|done|constructor].
  exists (lit "P"), (lit "id"), (Value.Int 1). split; [done|]. apply resolves_b_sound. by vm_compute.
Qed.

Lemma singleton_ok {K V} `{Countable K} (wfk : K → Prop) (wfv : V → Prop) m k v :
  m = {[k := v]} → wfk k → wfv v → map_ok wfk wfv m.
Proof.
  intros -> Hk Hv. split; [by rewrite map_to_list_singleton|]. by apply map_Forall_singleton.
Qed.

#[local] Instance bytes_ok_dec b : Decision (bytes_ok b).
Proof. unfold bytes_ok, fits. apply _. Defined.

Lemma bytes_ok_b b : bool_decide (bytes_ok b) = true → bytes_ok b.
Proof. by intros ?%bool_decide_eq_true. Qed.

Lemma names_ok_empty : names_ok ∅.
Proof. split; [done|]. intros x Hx. by apply not_elem_of_empty in Hx. Qed.

Lemma example_level_encodable : encodable example_level.
Proof.
  assert (∀ (A : Type) (wfv : A → Prop), map_ok is_u64 wfv ∅) as Hempty.
  { intros. split; [by rewrite map_to_list_empty|apply map_Forall_empty]. }
  split.
  - split; [by vm_compute|]. change (int_names (interner example_level)) with [lit "P"; lit "id"]. concrete_ok.
  - split_and!; vm_compute; done.
  - apply (singleton_ok _ _ _ [0; 1; 2; 2] (mkNodeEntry (mkNodeIdentity 0 1 (Value.Int 1))
      (mkNodeDelta {[lit "x" := Value.Int 7]} ∅ false ∅ ∅ false) None));
      [vm_compute; reflexivity|apply bytes_ok_b; by vm_compute|].
    split. { split_and!; [done|done|..]; cbn [ni_value n_identity]. concrete_ok. } split; [|done].
    split; [|split_and!; apply names_ok_empty].
    apply (singleton_ok _ _ _ (lit "x") (Value.Int 7)); [done|concrete_ok|concrete_ok].
  - split; [by vm_compute|]. apply map_Forall_empty.
  - apply (singleton_ok _ _ _ 3 [0; 1; 2; 2]); [vm_compute; reflexivity|done|apply bytes_ok_b; by vm_compute].
  - split; apply Hempty.
  - split; split; (done || apply Forall_nil_2).
Qed.

Lemma l0_segment_atomic_witness :
  let r := write example_level (lit "0000000001.l0") (Some (Build_BlockCipher [7])) (repeat 5 24)
             [None; Some 30%nat] ∅ in
  r.1 = Err (Bail "write") ∧ length r.2 = 3%nat ∧
  ∀ d', d' ∈ r.2 → open (lit "0000000001.l0") (Some (Build_BlockCipher [7])) d'
      = Err (Bail "read L0 segment") ∨
    open (lit "0000000001.l0") (Some (Build_BlockCipher [7])) d' = Ok example_level.
Proof.
  pose proof (l0_segment_atomic example_level (lit "0000000001.l0") (Some (Build_BlockCipher [7]))
    (repeat 5 24) [None; Some 30%nat] ∅ example_level_wf example_level_encodable
    ltac:(vm_compute; reflexivity) ltac:(vm_compute; discriminate)) as Hw.
  cbv zeta. split; [vm_compute; reflexivity|]. split; [vm_compute; reflexivity|].
  destruct (write example_level _ _ _ _ _) as [r ds]. exact (proj1 Hw).
Defined.
End witnesses.
