(* ===== verification/Snapshot.v ===== *)
(** The read side of the delta: [LevelRead] and [DeltaSnapshot] of
    [slater-delta/src/memtable.rs], and the index seek that uses them
    ([candidate_stream] of [slater/src/exec/scan.rs]).

    [LevelRead] is a type class, its instance for the memtable is [memtable_level], and a
    stacked level is a [dyn]: a value packed with its instance.  What the snapshot relies on
    is the class [LevelLaws], which the memtable satisfies under its invariant. *)

From stdpp Require Import sorting.
From S2P Require Import Prelude Values ValueOrder Wire Identity WalCodec NodeDelta Memtable.
From S2P Require Import MemtableInv MemtableApply MemtableCodec.

(** * The interface of a level *)

Class LevelRead (L : Type) := {
  is_empty : L → bool;
  node_delta_count : L → Z;
  edge_delta_count : L → Z;
  synthetic_base : L → Z;
  edge_synthetic_base : L → Z;
  born_count : L → Z;
  born_edge_count : L → Z;
  tombstoned_ids : L → list Z;
  born_count_with_label : L → str → Z;
  has_edge_tombstones : L → bool;
  born_edge_count_with_reltype : L → str → Z;
  born_labels : L → list str;
  born_edge_reltypes : L → list str;
  node_patch_owned : L → Z → option NodeDelta;
  node_tombstoned : L → Z → option bool;
  node_identity_owned : L → Z → option (str * str * Value.t);
  born_ids_with_label : L → str → list Z;
  ids_with_added_label : L → str → list Z;
  ids_with_removed_label : L → str → list Z;
  label_overlay_ids : L → list Z;
  has_label_overlay : L → bool;
  born_synthetic_for_identity : L → str → str → Value.t → option Z;
  born_ids_in_index_eq : L → str → str → Value.t → list Z;
  born_ids_in_index_range : L → str → str → option Value.t → bool → option Value.t → bool → list Z;
  core_ids_patched_on_index : L → str → str → list Z;
  out_edges : L → Z → list DeltaEdge;
  in_edges : L → Z → list DeltaEdge;
  edge_delta_owned : L → Z → option EdgeDelta;
  node_dense_ids : L → list Z;
  adj_out_nodes : L → list Z;
  edge_ids : L → list Z;
  core_patched_edges : L → list (Z * Z * Z * str);
}.

#[export] Instance memtable_level : LevelRead Memtable := {|
  is_empty := Memtable.is_empty;
  node_delta_count := Memtable.node_delta_count;
  edge_delta_count := Memtable.edge_delta_count;
  synthetic_base := Memtable.synthetic_base;
  edge_synthetic_base := Memtable.edge_synthetic_base;
  born_count := Memtable.born_count;
  born_edge_count := Memtable.born_edge_count;
  tombstoned_ids := Memtable.tombstoned_ids;
  born_count_with_label m label := Memtable.born_count_with_label label m;
  has_edge_tombstones := Memtable.has_edge_tombstones;
  born_edge_count_with_reltype m rt := Memtable.born_edge_count_with_reltype rt m;
  born_labels := Memtable.born_labels;
  born_edge_reltypes := Memtable.born_edge_reltypes;
  node_patch_owned m d := Memtable.node_patch d m;
  node_tombstoned m d := tombstoned <$> Memtable.node_patch d m;
  node_identity_owned m d := Memtable.node_identity_by_dense d m;
  born_ids_with_label m label := Memtable.born_ids_with_label label m;
  ids_with_added_label m label := Memtable.ids_with_added_label label m;
  ids_with_removed_label m label := Memtable.ids_with_removed_label label m;
  label_overlay_ids := Memtable.label_overlay_ids;
  has_label_overlay := Memtable.has_label_overlay;
  born_synthetic_for_identity m l k v := Memtable.born_synthetic_for_identity l k v m;
  born_ids_in_index_eq m label prop key := Memtable.born_ids_in_index_eq label prop key m;
  born_ids_in_index_range m label prop lo li hi hii :=
    Memtable.born_ids_in_index_range label prop lo li hi hii m;
  core_ids_patched_on_index m label prop := Memtable.core_ids_patched_on_index label prop m;
  out_edges m n := Memtable.out_edges n m;
  in_edges m n := Memtable.in_edges n m;
  edge_delta_owned m e := Memtable.edge_delta_by_id e m;
  node_dense_ids m := (map_to_list (by_dense m)).*1;
  adj_out_nodes m := (map_to_list (out_adj m)).*1;
  edge_ids m :=
    map (λ i, Memtable.edge_synthetic_base m + Z.of_nat i) (List.seq 0 (length (born_edges m)))
    ++ (map_to_list (by_edge_id m)).*1;
  core_patched_edges m :=
    omap (λ p, (λ e, (p.1, src_dense e, dst_dense e,
                      name_or_empty (interner m) (ei_reltype (e_identity e)))) <$> (edges m !! p.2))
      (map_to_list (by_edge_id m));
|}.

(** [Arc<dyn LevelRead>]. *)
Inductive level : Type :=
  | dyn (L : Type) (lr : LevelRead L) (l : L).
#[global] Arguments dyn {L lr} l.

#[export] Instance dyn_level : LevelRead level := {|
  is_empty '(dyn l) := is_empty l;
  node_delta_count '(dyn l) := node_delta_count l;
  edge_delta_count '(dyn l) := edge_delta_count l;
  synthetic_base '(dyn l) := synthetic_base l;
  edge_synthetic_base '(dyn l) := edge_synthetic_base l;
  born_count '(dyn l) := born_count l;
  born_edge_count '(dyn l) := born_edge_count l;
  tombstoned_ids '(dyn l) := tombstoned_ids l;
  born_count_with_label '(dyn l) := born_count_with_label l;
  has_edge_tombstones '(dyn l) := has_edge_tombstones l;
  born_edge_count_with_reltype '(dyn l) := born_edge_count_with_reltype l;
  born_labels '(dyn l) := born_labels l;
  born_edge_reltypes '(dyn l) := born_edge_reltypes l;
  node_patch_owned '(dyn l) := node_patch_owned l;
  node_tombstoned '(dyn l) := node_tombstoned l;
  node_identity_owned '(dyn l) := node_identity_owned l;
  born_ids_with_label '(dyn l) := born_ids_with_label l;
  ids_with_added_label '(dyn l) := ids_with_added_label l;
  ids_with_removed_label '(dyn l) := ids_with_removed_label l;
  label_overlay_ids '(dyn l) := label_overlay_ids l;
  has_label_overlay '(dyn l) := has_label_overlay l;
  born_synthetic_for_identity '(dyn l) := born_synthetic_for_identity l;
  born_ids_in_index_eq '(dyn l) := born_ids_in_index_eq l;
  born_ids_in_index_range '(dyn l) := born_ids_in_index_range l;
  core_ids_patched_on_index '(dyn l) := core_ids_patched_on_index l;
  out_edges '(dyn l) := out_edges l;
  in_edges '(dyn l) := in_edges l;
  edge_delta_owned '(dyn l) := edge_delta_owned l;
  node_dense_ids '(dyn l) := node_dense_ids l;
  adj_out_nodes '(dyn l) := adj_out_nodes l;
  edge_ids '(dyn l) := edge_ids l;
  core_patched_edges '(dyn l) := core_patched_edges l;
|}.

(** * The snapshot *)

Inductive IndexState :=
  | IxCore
  | IxPatched (v : Value.t)
  | IxAbsent.

Record DeltaSnapshot := mkSnapshot {
  mem : Memtable;
  l0 : list level;
}.

Definition sumZ (l : list Z) : Z := foldl Z.add 0 l.

(** [Iterator::find_map]. *)
Fixpoint find_map {A B} (f : A → option B) (l : list A) : option B :=
  match l with
  | [] => None
  | x :: l => match f x with Some y => Some y | None => find_map f l end
  end.

Module DeltaSnapshot.

Definition empty : DeltaSnapshot := mkSnapshot (with_bases 0 0) [].
Definition from_memtable (m : Memtable) : DeltaSnapshot := mkSnapshot m [].
Definition with_levels (m : Memtable) (l0 : list level) : DeltaSnapshot := mkSnapshot m l0.

Definition levels_newest_first (s : DeltaSnapshot) : list level := dyn (mem s) :: l0 s.
Definition levels_oldest_first (s : DeltaSnapshot) : list level := rev (l0 s) ++ [dyn (mem s)].

Definition is_empty (s : DeltaSnapshot) : bool :=
  Memtable.is_empty (mem s) && forallb Snapshot.is_empty (l0 s).

Definition node_dense_ids (s : DeltaSnapshot) : list Z :=
  sort_dedup_ids (concat (map Snapshot.node_dense_ids (levels_oldest_first s))).
Definition edge_dense_ids (s : DeltaSnapshot) : list Z :=
  sort_dedup_ids (concat (map Snapshot.edge_ids (levels_oldest_first s))).
Definition adj_out_nodes (s : DeltaSnapshot) : list Z :=
  sort_dedup_ids (concat (map Snapshot.adj_out_nodes (levels_oldest_first s))).

(** One step of the fold over the levels that carry a delta for the id. *)
Definition fold_patch (acc : option NodeDelta) (nd : option NodeDelta) : option NodeDelta :=
  match nd, acc with
  | None, _ => acc
  | Some nd, None => Some nd
  | Some nd, Some a => Some (NodeDelta.fold_newer a nd)
  end.

Definition node_patch (dense_id : Z) (s : DeltaSnapshot) : option NodeDelta :=
  match l0 s with
  | [] => Memtable.node_patch dense_id (mem s)
  | _ => foldl (λ acc lv, fold_patch acc (node_patch_owned lv dense_id)) None (levels_oldest_first s)
  end.

Definition is_tombstoned (dense_id : Z) (s : DeltaSnapshot) : bool :=
  default false (find_map (λ lv, node_tombstoned lv dense_id) (levels_newest_first s)).

Definition has_tombstones (s : DeltaSnapshot) : bool :=
  match l0 s with
  | [] => bool_decide (Memtable.tombstoned_ids (mem s) ≠ [])
  | _ => existsb (λ lv, bool_decide (Snapshot.tombstoned_ids lv ≠ [])) (levels_newest_first s)
  end.

Definition has_edge_tombstones (s : DeltaSnapshot) : bool :=
  match l0 s with
  | [] => Memtable.has_edge_tombstones (mem s)
  | _ => existsb Snapshot.has_edge_tombstones (levels_newest_first s)
  end.

Definition node_delta_count (s : DeltaSnapshot) : Z :=
  sumZ (map Snapshot.node_delta_count (levels_newest_first s)).
Definition edge_delta_count (s : DeltaSnapshot) : Z :=
  sumZ (map Snapshot.edge_delta_count (levels_newest_first s)).

(** [min] over a sequence that is never empty. *)
Definition synthetic_base (s : DeltaSnapshot) : Z :=
  foldl (λ b lv, Z.min b (Snapshot.synthetic_base lv)) (Memtable.synthetic_base (mem s)) (l0 s).
Definition edge_synthetic_base (s : DeltaSnapshot) : Z :=
  foldl (λ b lv, Z.min b (Snapshot.edge_synthetic_base lv)) (Memtable.edge_synthetic_base (mem s)) (l0 s).

Definition born_count (s : DeltaSnapshot) : Z :=
  sumZ (map Snapshot.born_count (levels_newest_first s)).
Definition born_edge_count (s : DeltaSnapshot) : Z :=
  sumZ (map Snapshot.born_edge_count (levels_newest_first s)).
Definition born_count_with_label (label : str) (s : DeltaSnapshot) : Z :=
  sumZ (map (λ lv, Snapshot.born_count_with_label lv label) (levels_newest_first s)).
Definition born_edge_count_with_reltype (reltype : str) (s : DeltaSnapshot) : Z :=
  sumZ (map (λ lv, Snapshot.born_edge_count_with_reltype lv reltype) (levels_newest_first s)).

Definition born_labels (s : DeltaSnapshot) : list str :=
  sort_dedup_names (concat (map Snapshot.born_labels (levels_newest_first s))).
Definition born_edge_reltypes (s : DeltaSnapshot) : list str :=
  sort_dedup_names (concat (map Snapshot.born_edge_reltypes (levels_newest_first s))).

Definition edge_counts_are_exact (s : DeltaSnapshot) : bool :=
  let levels_with_born_edges :=
    zlen (filter (λ lv, 0 < Snapshot.born_edge_count lv) (levels_newest_first s)) in
  (levels_with_born_edges <=? 1) && negb (has_edge_tombstones s).

(** The candidates are a [HashSet]: each occurs once. *)
Definition effective_tombstoned_ids (s : DeltaSnapshot) : list Z :=
  let candidates : gset Z :=
    list_to_set (concat (map Snapshot.tombstoned_ids (levels_newest_first s))) in
  merge_sort Z.le (filter (λ d, is_tombstoned d s = true) (elements candidates)).

Definition node_identity_by_dense (dense_id : Z) (s : DeltaSnapshot) : option (str * str * Value.t) :=
  find_map (λ lv, node_identity_owned lv dense_id) (levels_newest_first s).

Definition born_ids_with_label (label : str) (s : DeltaSnapshot) : list Z :=
  match l0 s with
  | [] => Memtable.born_ids_with_label label (mem s)
  | _ => concat (map (λ lv, Snapshot.born_ids_with_label lv label) (levels_oldest_first s))
  end.

Definition ids_with_added_label (label : str) (s : DeltaSnapshot) : list Z :=
  sort_dedup_ids (concat (map (λ lv, Snapshot.ids_with_added_label lv label) (levels_newest_first s))).
Definition ids_with_removed_label (label : str) (s : DeltaSnapshot) : list Z :=
  sort_dedup_ids (concat (map (λ lv, Snapshot.ids_with_removed_label lv label) (levels_newest_first s))).
Definition label_overlay_ids (s : DeltaSnapshot) : list Z :=
  sort_dedup_ids (concat (map Snapshot.label_overlay_ids (levels_newest_first s))).
Definition has_label_overlay (s : DeltaSnapshot) : bool :=
  existsb Snapshot.has_label_overlay (levels_newest_first s).

Definition born_synthetic_for_identity (label key : str) (value : Value.t) (s : DeltaSnapshot) : option Z :=
  find_map (λ lv, Snapshot.born_synthetic_for_identity lv label key value) (levels_newest_first s).

Definition born_ids_in_index_eq (label prop : str) (key : Value.t) (s : DeltaSnapshot) : list Z :=
  match l0 s with
  | [] => Memtable.born_ids_in_index_eq label prop key (mem s)
  | _ => concat (map (λ lv, Snapshot.born_ids_in_index_eq lv label prop key) (levels_oldest_first s))
  end.

Definition born_ids_in_index_range (label prop : str) (lo : option Value.t) (lo_inclusive : bool)
    (hi : option Value.t) (hi_inclusive : bool) (s : DeltaSnapshot) : list Z :=
  match l0 s with
  | [] => Memtable.born_ids_in_index_range label prop lo lo_inclusive hi hi_inclusive (mem s)
  | _ => concat (map (λ lv, Snapshot.born_ids_in_index_range lv label prop lo lo_inclusive hi hi_inclusive)
                  (levels_oldest_first s))
  end.

(** ** The moved-indexed-value overlay *)

Definition effective_index_state (dense : Z) (prop : str) (s : DeltaSnapshot) : IndexState :=
  match node_patch dense s with
  | None => IxCore
  | Some nd =>
      if tombstoned nd then IxCore
      else match patches nd !! prop with
      | Some v => IxPatched v
      | None =>
          if replaced nd || bool_decide (prop ∈ removed nd) then
            match node_identity_by_dense dense s with
            | Some (_, kname, _) => if bool_decide (kname = prop) then IxCore else IxAbsent
            | None => IxAbsent
            end
          else IxCore
      end
  end.

Definition core_hit_survives_eq (dense : Z) (prop : str) (key : Value.t) (s : DeltaSnapshot) : bool :=
  match effective_index_state dense prop s with
  | IxCore => true
  | IxPatched v => bool_decide (Value.cmp_key v key = Eq)
  | IxAbsent => false
  end.

Definition core_hit_survives_range (dense : Z) (prop : str) (lo : option Value.t) (lo_inclusive : bool)
    (hi : option Value.t) (hi_inclusive : bool) (s : DeltaSnapshot) : bool :=
  match effective_index_state dense prop s with
  | IxCore => true
  | IxPatched v => value_in_range v lo lo_inclusive hi hi_inclusive
  | IxAbsent => false
  end.

(** The candidates are a [BTreeSet]: sorted, each once. *)
Definition moved_core_ids_in_index (label prop : str) (pred : Value.t → bool) (s : DeltaSnapshot) : list Z :=
  filter (λ d, match effective_index_state d prop s with IxPatched v => pred v | _ => false end = true)
    (sort_dedup_ids (concat (map (λ lv, core_ids_patched_on_index lv label prop) (levels_newest_first s)))).

Definition moved_core_ids_in_index_eq (label prop : str) (key : Value.t) (s : DeltaSnapshot) : list Z :=
  moved_core_ids_in_index label prop (λ v, bool_decide (Value.cmp_key v key = Eq)) s.

Definition moved_core_ids_in_index_range (label prop : str) (lo : option Value.t) (lo_inclusive : bool)
    (hi : option Value.t) (hi_inclusive : bool) (s : DeltaSnapshot) : list Z :=
  moved_core_ids_in_index label prop (λ v, value_in_range v lo lo_inclusive hi hi_inclusive) s.

(** ** The edge overlay *)

(** [name ‖ write_value(value)] of the identifying property. *)
Definition edge_key_bytes (e : DeltaEdge) : bytes :=
  match de_key e with Some (name, value) => name ++ write_value value | None => [] end.

(** The first edge of every key, in order. *)
Definition keep_first (es : list DeltaEdge) : list DeltaEdge :=
  (foldl (λ (acc : gset (list Z * Z * list Z) * list DeltaEdge) e,
            let k := (de_reltype e, other e, edge_key_bytes e) in
            if bool_decide (k ∈ acc.1) then acc else ({[k]} ∪ acc.1, acc.2 ++ [e]))
     (∅, []) es).2.

Definition merge_edges (node : Z) (outgoing : bool) (s : DeltaSnapshot) : list DeltaEdge :=
  match l0 s with
  | [] => if outgoing then Memtable.out_edges node (mem s) else Memtable.in_edges node (mem s)
  | _ => keep_first (concat (map (λ lv, if outgoing then Snapshot.out_edges lv node
                                        else Snapshot.in_edges lv node) (levels_newest_first s)))
  end.

Definition out_edges (node : Z) (s : DeltaSnapshot) : list DeltaEdge := merge_edges node true s.
Definition in_edges (node : Z) (s : DeltaSnapshot) : list DeltaEdge := merge_edges node false s.

(** [for m in levels_newest_first { .. }] with its early returns. *)
Fixpoint edge_patch_search (ds : list (option EdgeDelta)) (prop : str) : option Value.t :=
  match ds with
  | [] => None
  | None :: ds => edge_patch_search ds prop
  | Some d :: ds =>
      if e_tombstoned d then None
      else match e_patches d !! prop with
      | Some v => Some v
      | None => if e_replaced d then None else edge_patch_search ds prop
      end
  end.

Definition edge_patch_value (edge_id : Z) (prop : str) (s : DeltaSnapshot) : option Value.t :=
  edge_patch_search (map (λ lv, edge_delta_owned lv edge_id) (levels_newest_first s)) prop.

(** [fold_delta_edge] over the levels; the tombstone flag of each step is discarded. *)
Definition edge_fold_step (acc : EdgeDelta) (d : option EdgeDelta) : EdgeDelta :=
  match d with Some d => EdgeDelta.fold acc d | None => acc end.

Definition edge_delta (edge_id : Z) (s : DeltaSnapshot) : gmap (list Z) Value.t * bool :=
  let d := foldl (λ acc lv, edge_fold_step acc (edge_delta_owned lv edge_id)) EdgeDelta.default
             (levels_oldest_first s) in
  (e_patches d, e_replaced d).

Definition edge_patches (edge_id : Z) (s : DeltaSnapshot) : gmap (list Z) Value.t :=
  (edge_delta edge_id s).1.
Definition edge_replaced (edge_id : Z) (s : DeltaSnapshot) : bool := (edge_delta edge_id s).2.

(** A newer level's entry wins; a [BTreeMap] is walked in key order. *)
Definition core_patched_edges (s : DeltaSnapshot) : list (Z * Z * Z * str) :=
  let acc : gmap Z (Z * Z * str) :=
    foldl (λ acc '(id, src, dst, rt), <[id := (src, dst, rt)]> acc) ∅
      (concat (map Snapshot.core_patched_edges (levels_oldest_first s))) in
  map (λ '(id, (src, dst, rt)), (id, src, dst, rt)) (sorted_entries Z.compare acc).

End DeltaSnapshot.

(** * The flush image *)

(** The part of [SegmentData] a core-segment flush reads. *)
Record SegmentData := mkSegmentData {
  sd_synthetic_base : Z;
  sd_edge_synthetic_base : Z;
  sd_born_count : Z;
  sd_born_edge_count : Z;
  sd_nodes : list (Z * str * str * Value.t * NodeDelta);
  sd_adj_out : list (Z * list DeltaEdge);
  sd_edges : list (Z * EdgeDelta);
  sd_core_patched_edges : list (Z * Z * Z * str);
}.

(** [union(&|l| l.column())]: ascending and without duplicates. *)
Definition union_ids (column : level → list Z) (levels : list level) : list Z :=
  sort_dedup_ids (concat (map column levels)).

Definition flush_edge_rows (s : DeltaSnapshot) : list (Z * EdgeDelta) :=
  let levels := DeltaSnapshot.levels_newest_first s in
  omap (λ id,
    newest ← find_map (λ lv, edge_delta_owned lv id) levels;
    if bool_decide (id < DeltaSnapshot.edge_synthetic_base s) && e_tombstoned newest then None
    else Some (id, mkEdgeDelta (DeltaSnapshot.edge_patches id s) (DeltaSnapshot.edge_replaced id s)
                     (e_tombstoned newest)))
    (union_ids edge_ids levels).

Definition flush_core_patches (s : DeltaSnapshot) (rows : list (Z * EdgeDelta)) : list (Z * Z * Z * str) :=
  let cpe : gmap Z (Z * Z * str) :=
    foldl (λ acc '(id, src, dst, rt), if acc !! id is Some _ then acc else <[id := (src, dst, rt)]> acc)
      (foldl (λ acc '(id, src, dst, rt), <[id := (src, dst, rt)]> acc) ∅ (core_patched_edges (mem s)))
      (concat (map core_patched_edges (l0 s))) in
  let live : gset Z := list_to_set (filter (λ p, e_tombstoned p.2 = false) rows).*1 in
  map (λ '(id, (src, dst, rt)), (id, src, dst, rt))
    (filter (λ p, p.1 ∈ live) (sorted_entries Z.compare cpe)).

Definition flush_segment_data (active : Memtable) (l0 : list level) : SegmentData :=
  let s := DeltaSnapshot.with_levels active l0 in
  let levels := DeltaSnapshot.levels_newest_first s in
  let rows := flush_edge_rows s in
  {| sd_synthetic_base := DeltaSnapshot.synthetic_base s;
     sd_edge_synthetic_base := DeltaSnapshot.edge_synthetic_base s;
     sd_born_count := DeltaSnapshot.born_count s;
     sd_born_edge_count := DeltaSnapshot.born_edge_count s;
     sd_nodes :=
       omap (λ id,
         delta ← DeltaSnapshot.node_patch id s;
         '(label, key, value) ← DeltaSnapshot.node_identity_by_dense id s;
         Some (id, label, key, value, delta)) (union_ids node_dense_ids levels);
     sd_adj_out :=
       omap (λ n, match DeltaSnapshot.out_edges n s with [] => None | es => Some (n, es) end)
         (union_ids adj_out_nodes levels);
     sd_edges := rows;
     sd_core_patched_edges := flush_core_patches s rows |}.

(** * The index seek of the executor *)

(** [if let Err(pos) = ids.binary_search(&id) { ids.insert(pos, id) }] on an ascending list. *)
Fixpoint insert_sorted (x : Z) (l : list Z) : list Z :=
  match l with
  | [] => [x]
  | y :: t => if x <? y then x :: l else if x =? y then l else y :: insert_sorted x t
  end.

(** The delta part of [RangeEq], over the hits [ids] of the core stack, and the tombstone
    suppression that follows it. *)
Definition range_eq_overlay (ids : list Z) (label prop : str) (key : Value.t) (s : DeltaSnapshot) : list Z :=
  if DeltaSnapshot.is_empty s then ids
  else
    let ids := filter (λ x, DeltaSnapshot.core_hit_survives_eq x prop key s = true) ids in
    let ids := foldl (λ ids id, insert_sorted id ids) ids
                 (DeltaSnapshot.moved_core_ids_in_index_eq label prop key s) in
    ids ++ DeltaSnapshot.born_ids_in_index_eq label prop key s.

Definition range_eq_scan (ids : list Z) (label prop : str) (key : Value.t) (s : DeltaSnapshot) : list Z :=
  filter (λ x, DeltaSnapshot.is_tombstoned x s = false) (range_eq_overlay ids label prop key s).
