(* ===== verification/SnapshotRead.v ===== *)
(** What the stacked reads of a [DeltaSnapshot] mean: the node fold, the tombstone fast
    paths, the edge fold and the index seek, proved for any levels that keep the laws of
    [LevelRead]; the memtable keeps them under its invariant. *)

From stdpp Require Import sorting.
From S2P Require Import Prelude Values ValueOrder Wire Identity WalCodec NodeDelta Memtable.
From S2P Require Import MemtableInv MemtableApply MemtableCodec Snapshot.

(** * The laws of a level *)

Class LevelLaws {L} `{LevelRead L} (l : L) : Prop := {
  law_wf d nd : node_patch_owned l d = Some nd → delta_wf nd;
  law_empty d : is_empty l = true → node_patch_owned l d = None;
  law_tombstoned d : node_tombstoned l d = tombstoned <$> node_patch_owned l d;
  law_tombstoned_ids d : d ∈ tombstoned_ids l ↔ node_tombstoned l d = Some true;
  law_identity d : is_Some (node_patch_owned l d) → is_Some (node_identity_owned l d);
  law_core_patched d label prop : d ∈ core_ids_patched_on_index l label prop ↔
    d < synthetic_base l ∧
    ∃ nd k v, node_patch_owned l d = Some nd ∧ is_Some (patches nd !! prop) ∧
      node_identity_owned l d = Some (label, k, v);
  law_born_index d label prop key :
    d ∈ born_ids_in_index_eq l label prop key → synthetic_base l <= d;
}.

#[export] Instance memtable_laws m : memtable_wf m → LevelLaws m.
Proof.
  intros (_ & Hn & _). split; cbn.
  - intros d nd. unfold node_patch. destruct (by_dense m !! d) as [ck|]; [|done]. cbn.
    destruct (nodes m !! ck) as [e|] eqn:E; [|done]. intros [= <-].
    by destruct (inv_entry _ _ _ _ _ _ _ Hn _ _ E) as (_&_&_&?).
  - intros d [H%bool_decide_eq_true _]%andb_true_iff. unfold node_patch. rewrite H.
    destruct (by_dense m !! d); [|done]. cbn. by rewrite lookup_empty.
  - done.
  - intros d. unfold Memtable.tombstoned_ids. rewrite elem_of_elements.
    rewrite (inv_tombstoned _ _ _ _ _ _ _ Hn). unfold node_patch. split.
    + intros (ck & e & -> & Hck & <-). cbn. by rewrite Hck.
    + destruct (by_dense m !! d) as [ck|]; [|done]. cbn. destruct (nodes m !! ck) as [e|] eqn:E; [|done].
      cbn. intros [= Ht]. eauto.
  - intros d. unfold node_patch, node_identity_by_dense. destruct (by_dense m !! d) as [ck|]; cbn; [|by intros []].
    destruct (nodes m !! ck); cbn; [by eexists|by intros []].
  - intros d label prop. unfold Memtable.core_ids_patched_on_index, dense_ids. rewrite list_elem_of_omap.
    unfold node_patch, node_identity_by_dense, has_label_sym. split.
    + intros ([x ck] & Hx & Hk). rewrite elem_of_map_to_list in Hx. cbn in Hk.
      destruct (nodes m !! ck) as [e|] eqn:E; cbn in Hk; [|done].
      destruct (bool_decide_reflect (x < Memtable.synthetic_base m)) as [Hlt|]; cbn in Hk; [|done].
      case_bool_decide as Hl; cbn in Hk; [|done]. case_bool_decide as Hp; [|done]. simplify_eq.
      split; [done|]. rewrite Hx. cbn. rewrite E. cbn. unfold name_or_empty. rewrite Hl.
      do 3 eexists. split_and!; [done|done|done].
    + intros (Hlt & nd & k & v & Hp & Hpp & Hid). destruct (by_dense m !! d) as [ck|] eqn:Hd; [|done].
      cbn in *. destruct (nodes m !! ck) as [e|] eqn:E; [|done]. cbn in *.
      exists (d, ck). rewrite elem_of_map_to_list. split; [done|]. cbn. rewrite E. cbn.
      destruct (inv_entry _ _ _ _ _ _ _ Hn _ _ E) as (_ & _ & [[a Ha] _] & _).
      unfold name_or_empty in Hid. rewrite Ha in Hid |- *. cbn in Hid. simplify_eq.
      by rewrite !bool_decide_eq_true_2.
  - intros d label prop key. unfold Memtable.born_ids_in_index_eq, born_ids_in_index, born_ids. rewrite list_elem_of_omap.
    intros (ck & _ & Hk). destruct (nodes m !! ck) as [e|] eqn:E; cbn in Hk; [|done].
    destruct (has_label_sym label m e && _); [|done].
    destruct (inv_synthetic _ _ _ _ _ _ _ Hn _ _ _ E Hk) as [(k & -> & _) _]. lia.
Qed.

#[export] Instance dyn_laws {L} `{LevelRead L} (l : L) : LevelLaws l → LevelLaws (dyn l).
Proof. intros [H1 H2 H3 H4 H5 H6 H7]. by split. Qed.

(** Every level of the snapshot keeps the laws. *)
Definition levels_ok (s : DeltaSnapshot) : Prop :=
  Forall (λ lv, LevelLaws lv) (DeltaSnapshot.levels_newest_first s).

(** * The node fold *)

Section node_fold.
Import DeltaSnapshot.
#[local] Arguments NodeDelta.fold_newer : simpl never.

(** The deltas of an id, newest level first. *)
Definition patches_of (d : Z) (s : DeltaSnapshot) : list (option NodeDelta) :=
  map (λ lv, node_patch_owned lv d) (levels_newest_first s).

(** The fold over the levels, as a recursion on the newest one. *)
Definition fold_newest (ps : list (option NodeDelta)) : option NodeDelta :=
  foldr (λ p acc, fold_patch acc p) None ps.

Lemma levels_rev s : levels_oldest_first s = rev (levels_newest_first s).
Proof. done. Qed.

Lemma node_patch_fold d s : node_patch d s = fold_newest (patches_of d s).
Proof.
  unfold node_patch, fold_newest, patches_of. destruct (l0 s) as [|lv ls] eqn:E.
  - unfold levels_newest_first. rewrite E. cbn. by destruct (Memtable.node_patch d (mem s)).
  - rewrite levels_rev. clear E. induction (levels_newest_first s) as [|x xs IH]; [done|].
    cbn [rev map foldr]. rewrite foldl_app. cbn [foldl]. by rewrite IH.
Qed.

Lemma fold_newest_tombstoned ps :
  tombstoned <$> fold_newest ps = find_map (λ p, tombstoned <$> p) ps.
Proof.
  induction ps as [|[nd|] ps IH]; cbn; [done| |done]. fold (fold_newest ps).
  destruct (fold_newest ps); cbn; [by rewrite fold_newer_live|done].
Qed.

Lemma find_map_map {A B C} (f : B → option C) (g : A → B) l :
  find_map f (map g l) = find_map (λ x, f (g x)) l.
Proof. induction l as [|x l IH]; cbn; [done|]. by rewrite IH. Qed.

Lemma find_map_ext {A B} (f g : A → option B) l : (∀ x, x ∈ l → f x = g x) → find_map f l = find_map g l.
Proof.
  induction l as [|x l IH]; intros H; cbn; [done|].
  rewrite (H x), IH; [done| |left]. intros y Hy. apply H. by right.
Qed.

(** The tombstone fast path reads what the merged delta says. *)
Lemma is_tombstoned_fold d s : levels_ok s →
  is_tombstoned d s = match node_patch d s with Some nd => tombstoned nd | None => false end.
Proof.
  intros Hok. unfold is_tombstoned. rewrite node_patch_fold.
  assert (find_map (λ lv, node_tombstoned lv d) (levels_newest_first s) =
    tombstoned <$> fold_newest (patches_of d s)) as ->.
  { rewrite fold_newest_tombstoned. unfold patches_of. rewrite find_map_map. apply find_map_ext.
    intros lv Hin. unfold levels_ok in Hok. rewrite Forall_forall in Hok.
    destruct (Hok lv Hin). apply law_tombstoned0. }
  by destruct (fold_newest _).
Qed.

Lemma find_map_Some {A B} (f : A → option B) l y : find_map f l = Some y → ∃ x, x ∈ l ∧ f x = Some y.
Proof.
  induction l as [|x l IH]; cbn; [done|]. destruct (f x) eqn:E.
  - intros [= ->]. exists x. split; [left|done].
  - intros (z & Hz & ?)%IH. exists z. split; [by right|done].
Qed.

Lemma effective_ids_spec d s : levels_ok s →
  d ∈ effective_tombstoned_ids s ↔ is_tombstoned d s = true.
Proof.
  intros Hok. unfold effective_tombstoned_ids. rewrite merge_sort_Permutation, list_elem_of_filter.
  rewrite elem_of_elements, elem_of_list_to_set. split; [tauto|]. intros Ht. split; [done|].
  unfold is_tombstoned in Ht.
  destruct (find_map (λ lv, node_tombstoned lv d) (levels_newest_first s)) as [b|] eqn:E; [|done].
  cbn in Ht. subst b. apply find_map_Some in E as (lv & Hin & Hlv).
  unfold levels_ok in Hok. rewrite Forall_forall in Hok. destruct (Hok lv Hin).
  apply list_elem_of_In, in_concat. exists (Snapshot.tombstoned_ids lv).
  split; [by apply in_map, list_elem_of_In|]. apply list_elem_of_In. by apply law_tombstoned_ids0.
Qed.

(** The view of a stack of deltas, oldest first: each is laid over the ones below, a
    tombstone hides them all. *)
Definition layer (core v : view) (nd : NodeDelta) : view :=
  if tombstoned nd then mkView false (vprop core) (vlabel core) else view_of v nd.

Definition stacked_view (core : view) (nds : list NodeDelta) : view :=
  foldl (layer core) (mkView true (vprop core) (vlabel core)) nds.

Lemma view_of_proper v w nd : view_eq v w → view_eq (view_of v nd) (view_of w nd).
Proof.
  intros (_ & Hp & Hl). split; [done|]. split; cbn; intros k; unfold eff_prop, eff_label.
  - destruct (patches nd !! k); [done|]. destruct (replaced nd); [done|]. by case_bool_decide.
  - by rewrite Hl.
Qed.

(** A delta alone over the core row. *)
Lemma layer_first core nd : delta_wf nd →
  view_eq (view_of core nd) (layer core (mkView true (vprop core) (vlabel core)) nd).
Proof.
  intros Hw. unfold layer. destruct (tombstoned nd) eqn:Ht.
  - destruct (wf_tombstone _ Hw Ht) as (E1 & E2 & E3 & E4 & E5).
    split; [by cbn; rewrite Ht|]. split; cbn; intros k; unfold eff_prop, eff_label.
    + rewrite E1, E2, E3, lookup_empty, bool_decide_eq_false_2; [done|apply not_elem_of_empty].
    + rewrite E4, E5, !bool_decide_eq_false_2; [done|apply not_elem_of_empty..].
  - by split.
Qed.

(** A delta folded onto the ones below. *)
Lemma layer_fold core a nd : delta_wf nd →
  view_eq (view_of core (NodeDelta.fold_newer a nd)) (layer core (view_of core a) nd).
Proof.
  intros Hw. unfold layer. destruct (tombstoned nd) eqn:Ht.
  - unfold NodeDelta.fold_newer. rewrite Ht. split; [done|]. cbn. split; intros k; [|done].
    unfold eff_prop. cbn. by rewrite lookup_empty.
  - split; [cbn; by rewrite fold_newer_live|]. split; cbn; intros k.
    + by apply fold_newer_props.
    + by apply fold_newer_labels.
Qed.

Lemma layer_proper core v w nd : view_eq v w → view_eq (layer core v nd) (layer core w nd).
Proof. intros E. unfold layer. destruct (tombstoned nd); [done|]. by apply view_of_proper. Qed.

Lemma fold_newest_view core ps : Forall (λ p, ∀ nd, p = Some nd → delta_wf nd) ps →
  match fold_newest ps with
  | Some nd => view_eq (view_of core nd) (stacked_view core (omap id (rev ps)))
  | None => Forall (eq None) ps
  end.
Proof.
  induction ps as [|[nd|] ps IH]; intros Hw; cbn [rev]; [constructor| |].
  - apply Forall_cons in Hw as [Hnd Hw]. specialize (Hnd nd eq_refl). specialize (IH Hw).
    change (fold_newest (Some nd :: ps)) with (fold_patch (fold_newest ps) (Some nd)).
    rewrite omap_app. unfold stacked_view. rewrite foldl_app. cbn [omap list_omap foldl id].
    destruct (fold_newest ps) as [a|]; cbn [fold_patch].
    + rewrite layer_fold by done. by apply layer_proper.
    + assert (omap id (rev ps) = []) as ->; [|by apply layer_first].
      clear -IH. induction IH as [|p ps <- _ IH]; [done|]. cbn. by rewrite omap_app, IH.
  - apply Forall_cons in Hw as [_ Hw]. specialize (IH Hw).
    change (fold_newest (None :: ps)) with (fold_newest ps).
    rewrite omap_app. cbn [omap list_omap id]. rewrite app_nil_r.
    destruct (fold_newest ps); [done|]. by constructor.
Qed.

Lemma patches_of_wf d s : levels_ok s → Forall (λ p, ∀ nd, p = Some nd → delta_wf nd) (patches_of d s).
Proof.
  intros Hok. unfold patches_of. apply Forall_map. eapply Forall_impl; [exact Hok|].
  intros lv [Hwf _ _ _ _ _ _] nd E. by eapply Hwf.
Qed.

(** * The edge fold *)

(** The newest-first search finds what the oldest-first fold keeps. *)
Lemma edge_search_fold ds prop :
  edge_patch_search ds prop =
  e_patches (foldr (λ d acc, edge_fold_step acc d) EdgeDelta.default ds) !! prop.
Proof.
  induction ds as [|[d|] ds IH]; [done| |done]. cbn [edge_patch_search foldr edge_fold_step].
  set (acc := foldr _ _ ds) in *. destruct (e_tombstoned d) eqn:Ht.
  { unfold EdgeDelta.fold. rewrite Ht. cbn. by rewrite lookup_empty. }
  assert (∀ e k, eff_edge_prop (λ _, None) e k = e_patches e !! k) as Heff.
  { intros e k. unfold eff_edge_prop. destruct (e_patches e !! k); [done|]. by destruct (e_replaced e). }
  rewrite <-(Heff (EdgeDelta.fold acc d)), fold_edge_props by done. unfold eff_edge_prop at 1.
  destruct (e_patches d !! prop); [done|]. destruct (e_replaced d); [done|]. by rewrite Heff.
Qed.

Lemma edge_delta_fold e s :
  edge_delta e s =
  let d := foldr (λ d acc, edge_fold_step acc d) EdgeDelta.default
             (map (λ lv, edge_delta_owned lv e) (levels_newest_first s)) in
  (e_patches d, e_replaced d).
Proof.
  unfold edge_delta. rewrite levels_rev. cbv zeta.
  assert (foldl (λ acc lv, edge_fold_step acc (edge_delta_owned lv e)) EdgeDelta.default
    (rev (levels_newest_first s)) = foldr (λ d acc, edge_fold_step acc d) EdgeDelta.default
    (map (λ lv, edge_delta_owned lv e) (levels_newest_first s))) as ->; [|done].
  induction (levels_newest_first s) as [|x xs IH]; [done|].
  cbn [rev map foldr]. rewrite foldl_app. cbn [foldl]. by rewrite IH.
Qed.

(** The view of a stack of edge deltas, oldest first. *)
Definition edge_layer (core v : str → option Value.t) (d : EdgeDelta) : str → option Value.t :=
  if e_tombstoned d then core else eff_edge_prop v d.

Definition stacked_edge (core : str → option Value.t) (ds : list EdgeDelta) : str → option Value.t :=
  foldl (edge_layer core) core ds.

Lemma edge_fold_view core ds k :
  eff_edge_prop core (foldr (λ d acc, edge_fold_step acc d) EdgeDelta.default ds) k =
  stacked_edge core (omap id (rev ds)) k.
Proof.
  induction ds as [|[d|] ds IH] in k |- *.
  - unfold eff_edge_prop, stacked_edge. cbn. by rewrite lookup_empty.
  - cbn [foldr edge_fold_step rev]. rewrite omap_app. unfold stacked_edge. rewrite foldl_app.
    cbn [omap list_omap foldl id]. unfold edge_layer at 1. destruct (e_tombstoned d) eqn:Ht.
    + unfold EdgeDelta.fold, eff_edge_prop. rewrite Ht. cbn. by rewrite lookup_empty.
    + rewrite fold_edge_props by done. unfold eff_edge_prop at 1 3.
      destruct (e_patches d !! k); [done|]. destruct (e_replaced d); [done|]. apply IH.
  - cbn [foldr edge_fold_step rev]. rewrite omap_app. cbn [omap list_omap id]. rewrite app_nil_r. apply IH.
Qed.
End node_fold.

(** * The index seek *)

Section index.
Import DeltaSnapshot.

Lemma elem_of_dedup {A} `{EqDecision A} (l : list A) x : x ∈ dedup l ↔ x ∈ l.
Proof.
  induction l as [|y [|z t] IH]; [done|done|]. cbn [dedup] in *. destruct (decide (y = z)) as [->|Hne].
  - rewrite IH, (elem_of_cons (z :: t)). split; [by right|]. intros [->|?]; [left|done].
  - rewrite !(elem_of_cons _ x y), IH. done.
Qed.

Lemma elem_of_sort_dedup x l : x ∈ sort_dedup_ids l ↔ x ∈ l.
Proof. unfold sort_dedup_ids. by rewrite elem_of_dedup, merge_sort_Permutation. Qed.

Lemma elem_of_insert_sorted x y l : x ∈ insert_sorted y l ↔ x = y ∨ x ∈ l.
Proof.
  induction l as [|z t IH]; cbn; [by rewrite list_elem_of_singleton, elem_of_nil; tauto|].
  destruct (y <? z); [by rewrite elem_of_cons|]. destruct (Z.eqb_spec y z) as [->|Hne].
  - rewrite elem_of_cons. tauto.
  - rewrite !elem_of_cons, IH. tauto.
Qed.

Lemma elem_of_insert_all_sorted x ys l : x ∈ foldl (λ ids id, insert_sorted id ids) l ys ↔ x ∈ ys ∨ x ∈ l.
Proof.
  revert l. induction ys as [|y ys IH]; intros l; cbn; [by rewrite elem_of_nil; tauto|].
  rewrite IH, elem_of_insert_sorted, elem_of_cons. tauto.
Qed.

Lemma elem_of_concat_map {A B} (f : A → list B) l x : x ∈ concat (map f l) ↔ ∃ a, a ∈ l ∧ x ∈ f a.
Proof.
  rewrite list_elem_of_In, in_concat. split.
  - intros (y & Hy & Hx). apply in_map_iff in Hy as (a & <- & Ha). exists a. by rewrite !list_elem_of_In.
  - intros (a & Ha & Hx). exists (f a). rewrite <-!list_elem_of_In. split; [|done].
    rewrite list_elem_of_In. apply in_map. by apply list_elem_of_In.
Qed.

(** A patch the fold shows comes from one of the levels. *)
Lemma fold_newest_source ps nd k v : fold_newest ps = Some nd → patches nd !! k = Some v →
  ∃ x, Some x ∈ ps ∧ is_Some (patches x !! k).
Proof.
  assert (∀ d k, eff_prop (λ _, None) d k = patches d !! k) as Heff.
  { intros d j. unfold eff_prop. destruct (patches d !! j); [done|]. destruct (replaced d); [done|].
    by case_bool_decide. }
  revert nd v. induction ps as [|[x|] ps IH]; intros nd v; [done| |].
  - change (fold_newest (Some x :: ps)) with (fold_patch (fold_newest ps) (Some x)).
    destruct (patches x !! k) as [y|] eqn:Hx; [intros _ _; exists x; split; [left|by eexists]|].
    destruct (fold_newest ps) as [a|]; cbn [fold_patch]; [|intros [= <-]; congruence].
    intros [= <-] Hv. destruct (patches a !! k) as [z|] eqn:Ha.
    { destruct (IH a z eq_refl Ha) as (w & ? & ?). exists w. split; [by right|done]. }
    destruct (tombstoned x) eqn:Ht.
    { unfold NodeDelta.fold_newer in Hv. rewrite Ht in Hv. cbn in Hv. by rewrite lookup_empty in Hv. }
    rewrite <-Heff, fold_newer_props in Hv by done. unfold eff_prop at 1 in Hv. rewrite Hx, Heff, Ha in Hv.
    destruct (replaced x); [done|]. by case_bool_decide.
  - change (fold_newest (None :: ps)) with (fold_newest ps). intros H1 H2.
    destruct (IH nd v H1 H2) as (w & ? & ?). exists w. split; [by right|done].
Qed.

Lemma min_base_le s lv : lv ∈ levels_newest_first s → synthetic_base s <= Snapshot.synthetic_base lv.
Proof.
  unfold levels_newest_first, synthetic_base.
  assert (∀ l b, foldl (λ b lv, Z.min b (Snapshot.synthetic_base lv)) b l <= b ∧
    ∀ x, x ∈ l → foldl (λ b lv, Z.min b (Snapshot.synthetic_base lv)) b l <= Snapshot.synthetic_base x) as Hmin.
  { induction l as [|y l IH]; intros b; cbn [foldl].
    - split; [lia|]. by intros x ?%elem_of_nil.
    - destruct (IH (Z.min b (Snapshot.synthetic_base y))) as [H1 H2]. split; [lia|].
      intros x [->|Hx]%elem_of_cons; [lia|by apply H2]. }
  intros [->|Hin]%elem_of_cons; [exact (proj1 (Hmin (l0 s) _))|by apply Hmin].
Qed.

(** The value the index must list for a core node: its patched value, none if it was dropped,
    else the core value. *)
Definition index_value (core : str → option Value.t) (d : Z) (prop : str) (s : DeltaSnapshot) : option Value.t :=
  match effective_index_state d prop s with
  | IxCore => core prop
  | IxPatched v => Some v
  | IxAbsent => None
  end.

(** Every level that touches [d] knows it under [label]. *)
Definition carries (d : Z) (label : str) (s : DeltaSnapshot) : Prop :=
  ∀ lv i, lv ∈ levels_newest_first s → node_identity_owned lv d = Some i → i.1.1 = label.

Lemma moved_spec d label prop pred s : levels_ok s → d < synthetic_base s → carries d label s →
  d ∈ moved_core_ids_in_index label prop pred s ↔
  ∃ v, effective_index_state d prop s = IxPatched v ∧ pred v = true.
Proof.
  intros Hok Hlt Hc. unfold moved_core_ids_in_index.
  rewrite list_elem_of_filter, elem_of_sort_dedup, elem_of_concat_map. split.
  - intros [Hp _]. destruct (effective_index_state d prop s); [done|eauto|done].
  - intros (v & E & Hp). split; [by rewrite E|].
    unfold effective_index_state in E. destruct (node_patch d s) as [nd|] eqn:Hnd; [|done].
    destruct (tombstoned nd); [done|]. destruct (patches nd !! prop) as [w|] eqn:Hw.
    2:{ by repeat (case_match; try done). }
    rewrite node_patch_fold in Hnd. destruct (fold_newest_source _ _ _ _ Hnd Hw) as (x & Hx & Hxp).
    unfold patches_of in Hx. apply list_elem_of_In, in_map_iff in Hx as (lv & Hlv & Hin%list_elem_of_In).
    exists lv. split; [done|]. pose proof (min_base_le s lv Hin).
    unfold levels_ok in Hok. rewrite Forall_forall in Hok. destruct (Hok lv Hin) as [_ _ _ _ Hid Hcp _].
    apply Hcp. split; [lia|]. destruct (Hid d) as [[[l k] u] Hu]; [by rewrite Hlv|].
    pose proof (Hc lv (l, k, u) Hin Hu) as Hl. cbn in Hl. subst l. by exists x, k, u.
Qed.

Lemma born_index_range d label prop key s : levels_ok s →
  d ∈ born_ids_in_index_eq label prop key s → synthetic_base s <= d.
Proof.
  intros Hok Hin.
  assert (∃ lv, lv ∈ levels_newest_first s ∧ d ∈ Snapshot.born_ids_in_index_eq lv label prop key) as (lv & Hlv & Hd).
  { unfold born_ids_in_index_eq in Hin. destruct (l0 s) as [|x xs] eqn:E.
    - exists (dyn (mem s)). split; [left|done].
    - rewrite elem_of_concat_map in Hin. destruct Hin as (lv & Hlv & Hd). exists lv. split; [|done].
      rewrite levels_rev in Hlv. by rewrite list_elem_of_In, <-in_rev, <-list_elem_of_In in Hlv. }
  pose proof (min_base_le s lv Hlv). unfold levels_ok in Hok. rewrite Forall_forall in Hok.
  destruct (Hok lv Hlv) as [_ _ _ _ _ _ Hb]. specialize (Hb _ _ _ _ Hd). lia.
Qed.

Lemma empty_no_patch d s : levels_ok s → is_empty s = true → node_patch d s = None.
Proof.
  intros Hok [H1 H2]%andb_true_iff. rewrite node_patch_fold. unfold patches_of.
  assert (∀ lv, lv ∈ levels_newest_first s → node_patch_owned lv d = None) as Hnone.
  { intros lv Hin. unfold levels_ok in Hok. rewrite Forall_forall in Hok.
    destruct (Hok lv Hin) as [_ He _ _ _ _ _]. apply He. apply elem_of_cons in Hin as [->|Hin]; [done|].
    rewrite forallb_forall in H2. apply H2. by apply list_elem_of_In. }
  clear -Hnone. induction (levels_newest_first s) as [|x xs IH]; [done|]. cbn [map].
  rewrite (Hnone x) by left. change (fold_newest (None :: ?y)) with (fold_newest y). apply IH.
  intros lv Hin. apply Hnone. by right.
Qed.
End index.

(** * The properties *)

Section properties.
Import DeltaSnapshot.

(** C22: The stacked node read.  The merged delta of an id is absent when no level touches it,
    and otherwise shows a reader the levels laid over the core row one after the other,
    oldest first, a tombstone hiding everything below it; the tombstone fast path agrees with
    it; and the memoised list is exactly the suppressed ids, ascending and each once, so a
    live count may subtract its length. *)
Theorem snapshot_node_read s core d : levels_ok s →
  match node_patch d s with
  | Some nd => view_eq (view_of core nd)
      (stacked_view core (omap id (rev (patches_of d s))))
  | None => Forall (eq None) (patches_of d s)
  end ∧
  is_tombstoned d s = match node_patch d s with Some nd => tombstoned nd | None => false end ∧
  (d ∈ effective_tombstoned_ids s ↔ is_tombstoned d s = true) ∧
  NoDup (effective_tombstoned_ids s) ∧ StronglySorted Z.le (effective_tombstoned_ids s).
Proof.
  intros Hok. split_and!.
  - rewrite node_patch_fold. apply (fold_newest_view core). by apply patches_of_wf.
  - by apply is_tombstoned_fold.
  - by apply effective_ids_spec.
  - unfold effective_tombstoned_ids. rewrite merge_sort_Permutation. apply NoDup_filter, NoDup_elements.
  - apply StronglySorted_merge_sort; [intros x y z; lia|intros x y; lia].
Qed.

(** The stacked edge read.  The newest-first search for one property of an edge, with its
    early stops at a delete and at a replace, finds exactly what the oldest-first fold of the
    whole property set keeps, in every snapshot; and the fold laid over the core row shows
    the levels applied one after the other, a delete restoring the core row. *)
Theorem snapshot_edge_read s core e prop :
  edge_patch_value e prop s = edge_patches e s !! prop ∧
  eff_edge_prop core (mkEdgeDelta (edge_patches e s) (edge_replaced e s) false) prop =
    stacked_edge core (omap id (rev (map (λ lv, edge_delta_owned lv e) (levels_newest_first s)))) prop.
Proof.
  unfold edge_patches, edge_replaced. rewrite edge_delta_fold. cbn [fst snd]. split.
  - apply edge_search_fold.
  - rewrite <-edge_fold_view. done.
Qed.

(** An equality seek returns a live core node exactly when the value the index must list for it
    matches. *)
Lemma seek_index_value s core ids label prop key d :
  levels_ok s → d < synthetic_base s → is_tombstoned d s = false → carries d label s →
  (d ∈ ids ↔ ∃ v, core prop = Some v ∧ Value.cmp_key v key = Eq) →
  d ∈ range_eq_scan ids label prop key s ↔
  ∃ v, index_value core d prop s = Some v ∧ Value.cmp_key v key = Eq.
Proof.
  intros Hok Hlt Ht Hc Hids.
  unfold range_eq_scan. rewrite list_elem_of_filter. trans (d ∈ range_eq_overlay ids label prop key s);
    [tauto|]. unfold range_eq_overlay, index_value. destruct (is_empty s) eqn:He.
  { unfold effective_index_state. by rewrite empty_no_patch. }
  rewrite elem_of_app, elem_of_insert_all_sorted, list_elem_of_filter.
  unfold moved_core_ids_in_index_eq. rewrite moved_spec by done.
  assert (d ∉ born_ids_in_index_eq label prop key s) as Hnb.
  { intros Hb%born_index_range; [lia|done]. }
  unfold core_hit_survives_eq. rewrite Hids. destruct (effective_index_state d prop s) as [|v|].
  - split; [intros [[(w & ? & _)|[_ ?]]|?]; done|]. intros H. left. by right.
  - split.
    + intros [[(w & [= <-] & H%bool_decide_eq_true)|[H%bool_decide_eq_true _]]|?]; [eauto|eauto|done].
    + intros (w & [= <-] & H). left. left. exists v. split; [done|]. by apply bool_decide_eq_true.
  - split; [intros [[(w & ? & _)|[? _]]|?]; done|]. by intros (w & ? & _).
Qed.
End properties.

(** * Born nodes re-written in a newer level, and edges deleted in one *)

Section examples.
Import DeltaSnapshot.
#[local] Existing Instance example_layout.

(** One write on an empty level. *)
Definition level_of (nb eb : Z) (op : WalOp) (res : OpResolution) : Memtable :=
  default (with_bases nb eb) (apply op res (with_bases nb eb)).

Lemma level_of_history nb eb op res : op_ok op → op_resolves (with_bases nb eb) op res →
  bool_decide (is_Some (apply op res (with_bases nb eb))) = true →
  history (with_bases nb eb) [(op, res)] (level_of nb eb op res).
Proof.
  intros Hok Hr [m Hm]%bool_decide_eq_true. unfold level_of. rewrite Hm. cbn.
  eapply history_cons; [done|by vm_compute|done|done|constructor].
Qed.

Definition set_x (x : Z) : WalOp :=
  UpsertNode (lit "P") (lit "id") (Value.Int 1) [(lit "x", Value.Int x)].

(** A node born with [x = 1] and flushed, then written again at its id. *)
Definition born_level : Memtable := level_of 10 5 (set_x 1) (ResNode None).
Definition rewritten (x : Z) : Memtable := level_of 11 5 (set_x x) (ResNode (Some 10)).
Definition stacked (x : Z) : DeltaSnapshot := with_levels (rewritten x) [dyn born_level].

Lemma born_level_history : history (with_bases 10 5) [(set_x 1, ResNode None)] born_level.
Proof.
  apply level_of_history; [unfold set_x; concrete_ok| |by vm_compute].
  exists (lit "P"), (lit "id"), (Value.Int 1). split; [done|]. apply resolves_b_sound. by vm_compute.
Qed.

Lemma rewritten_history x : op_ok (set_x x) → bool_decide (is_Some (apply (set_x x) (ResNode (Some 10)) (with_bases 11 5))) = true →
  history (with_bases 11 5) [(set_x x, ResNode (Some 10))] (rewritten x).
Proof.
  intros Hok Ha. apply level_of_history; [done| |done].
  exists (lit "P"), (lit "id"), (Value.Int 1). split; [done|]. apply resolves_b_sound. by vm_compute.
Qed.

(** For born nodes the seek is not exact.  A node born in a flushed level and written
    again in the active one is taken for a core node there and for a born node below: a seek
    for a value both levels give it returns its id twice, and after the active level changed
    the value a seek for the old one still returns it. *)
Theorem index_seek_born_stale :
  history (with_bases 10 5) [(set_x 1, ResNode None)] born_level ∧
  history (with_bases 11 5) [(set_x 1, ResNode (Some 10))] (rewritten 1) ∧
  history (with_bases 11 5) [(set_x 2, ResNode (Some 10))] (rewritten 2) ∧
  range_eq_scan [] (lit "P") (lit "x") (Value.Int 1) (stacked 1) = [10; 10] ∧
  range_eq_scan [] (lit "P") (lit "x") (Value.Int 1) (stacked 2) = [10] ∧
  (node_patch 10 (stacked 2) ≫= λ nd, eff_prop (λ _, None) nd (lit "x")) = Some (Value.Int 2).
Proof.
  split; [apply born_level_history|].
  split; [apply rewritten_history; [unfold set_x; concrete_ok|by vm_compute]|].
  split; [apply rewritten_history; [unfold set_x; concrete_ok|by vm_compute]|].
  split_and!; by vm_compute.
Qed.

(** A core edge patched in a flushed level, then deleted in the active one. *)
Definition patch_edge_op : WalOp :=
  UpsertEdge (lit "P") (lit "id") (Value.Int 1) (lit "R") (lit "P") (lit "id") (Value.Int 2)
    None false [(lit "w", Value.Int 7)].
Definition delete_edge_op : WalOp :=
  DeleteEdge (lit "P") (lit "id") (Value.Int 1) (lit "R") (lit "P") (lit "id") (Value.Int 2) None.

Definition patched_level : Memtable := level_of 10 5 patch_edge_op (ResEdge (Some 1) (Some 2) (Some 4)).
Definition deleted_level : Memtable := level_of 10 5 delete_edge_op (ResEdge (Some 1) (Some 2) None).

Lemma edge_level_history op eid : op_ok op →
  edge_keys op = Some (person 1, lit "R", person 2) → edge_identity_key op = None →
  edge_resolves_b (with_bases 10 5) (mkEdgeNames (person 1) (lit "R") (person 2) None) eid = true →
  bool_decide (is_Some (apply op (ResEdge (Some 1) (Some 2) eid) (with_bases 10 5))) = true →
  history (with_bases 10 5) [(op, ResEdge (Some 1) (Some 2) eid)]
    (level_of 10 5 op (ResEdge (Some 1) (Some 2) eid)).
Proof.
  intros Hok Hk Hek Hr Ha. apply level_of_history; [done| |done].
  exists (person 1), (lit "R"), (person 2). split; [done|].
  split; [by apply endpoint_resolves_b_sound|]. split; [by apply endpoint_resolves_b_sound|].
  rewrite Hek. by apply edge_resolves_b_sound.
Qed.

(** A flush keeps the patched row of a deleted core edge.  Patched in a flushed level and
    deleted in the active one, the edge is suppressed in the adjacency of the flush image, but
    its row and its endpoints are emitted as a live patch. *)
Theorem flush_keeps_deleted_patch :
  history (with_bases 10 5) [(patch_edge_op, ResEdge (Some 1) (Some 2) (Some 4))] patched_level ∧
  history (with_bases 10 5) [(delete_edge_op, ResEdge (Some 1) (Some 2) None)] deleted_level ∧
  let data := flush_segment_data deleted_level [dyn patched_level] in
  (∃ de, sd_adj_out data = [(1, [de])] ∧ other de = 2 ∧ de_tombstoned de = true) ∧
  (∃ row, sd_edges data = [(4, row)] ∧ e_tombstoned row = false) ∧
  sd_core_patched_edges data = [(4, 1, 2, lit "R")].
Proof.
  split; [apply edge_level_history; [unfold patch_edge_op; concrete_ok|done|done|by vm_compute..]|].
  split; [apply edge_level_history; [unfold delete_edge_op; concrete_ok|done|done|by vm_compute..]|].
  cbv zeta. split; [|split].
  - eexists. split; [vm_compute; reflexivity|]. by split.
  - eexists. split; [vm_compute; reflexivity|]. done.
  - by vm_compute.
Qed.

(** * Witnesses *)

Lemma stacked_ok : levels_ok (stacked 2).
Proof.
  assert (memtable_wf born_level) as H0 by (eapply history_wf; [apply born_level_history|apply with_bases_wf]).
  assert (memtable_wf (rewritten 2)) as H2.
  { eapply history_wf; [apply rewritten_history; [unfold set_x; concrete_ok|by vm_compute]|apply with_bases_wf]. }
  apply Forall_cons. split; [apply dyn_laws, memtable_laws, H2|].
  apply Forall_singleton. apply dyn_laws, memtable_laws, H0.
Qed.

Lemma snapshot_node_read_witness :
  is_tombstoned 10 (stacked 2) = false ∧ effective_tombstoned_ids (stacked 2) = [] ∧
  StronglySorted Z.le (effective_tombstoned_ids (stacked 2)).
Proof.
  split; [vm_compute; reflexivity|]. split; [vm_compute; reflexivity|].
  apply (snapshot_node_read (stacked 2) (mkView true (λ _, None) (λ _, false)) 10 stacked_ok).
Defined.

End examples.
