(* ===== verification/DeltaFold.v ===== *)
(** The algebra of the cross-level fold: [NodeDelta::fold_newer] of
    [slater-delta/src/memtable.rs], field by field; that it is associative unless it would
    fold a recreation onto a deletion, and has the empty delta as its unit; and that the
    mutator calls [replay_folded_node] reissues rebuild a folded delta exactly. *)

From S2P Require Import Prelude Values NodeDelta.
Import NodeDelta.

Lemma delta_ext (d e : NodeDelta) :
  (∀ k, patches d !! k = patches e !! k) → (∀ k, k ∈ removed d ↔ k ∈ removed e) →
  replaced d = replaced e → (∀ l, l ∈ labels_added d ↔ l ∈ labels_added e) →
  (∀ l, l ∈ labels_removed d ↔ l ∈ labels_removed e) → tombstoned d = tombstoned e → d = e.
Proof.
  destruct d, e; cbn. intros H1 H2 <- H4 H5 <-. f_equal; [by apply map_eq|by apply set_eq..].
Qed.

Lemma keys_lookup {A} (P : gmap str A) k : k ∈ (map_to_list P).*1 ↔ is_Some (P !! k).
Proof.
  rewrite list_elem_of_fmap. split.
  - intros ([x v] & -> & H%elem_of_map_to_list). by exists v.
  - intros [v H]. exists (k, v). split; [done|by apply elem_of_map_to_list].
Qed.

(** * The loops, field by field *)

Lemma set_props_patches d (l : list (str * Value.t)) k : NoDup l.*1 →
  patches (foldl set_prop d l) !! k =
  match (list_to_map l : gmap str Value.t) !! k with Some v => Some v | None => patches d !! k end.
Proof.
  intros Hnd. rewrite <-(put_all_lookup l (λ k, patches d !! k)) by done.
  apply (foldl_view (λ d k, patches d !! k) set_prop (λ f p, set_key p.1 (Some p.2) f));
    [apply (set_key_ext fst (λ p, Some p.2))|]. intros a [x v] j. cbn. unfold set_key.
  destruct (bool_decide_reflect (j = x)) as [->|E]; [apply lookup_insert_eq|by rewrite lookup_insert_ne].
Qed.

Lemma set_props_removed d l k :
  k ∈ removed (foldl set_prop d l) ↔ k ∈ removed d ∧ k ∉ l.*1.
Proof.
  revert d. induction l as [|p l IH]; intros d; cbn; [set_solver|]. rewrite IH. cbn. set_solver.
Qed.

Lemma remove_props_patches d l k :
  patches (foldl remove_prop d l) !! k = if bool_decide (k ∈ l) then None else patches d !! k.
Proof.
  rewrite <-(set_all_lookup None l (λ k, patches d !! k)).
  apply (foldl_view (λ d k, patches d !! k) remove_prop (λ f n, set_key n None f));
    [apply (set_key_ext id (λ _, None))|]. intros a n j. cbn. unfold set_key.
  destruct (bool_decide_reflect (j = n)) as [->|E]; [apply lookup_delete_eq|by rewrite lookup_delete_ne].
Qed.

Lemma remove_props_removed d l k :
  k ∈ removed (foldl remove_prop d l) ↔ k ∈ removed d ∨ k ∈ l ∧ replaced d = false.
Proof.
  revert d. induction l as [|n l IH]; intros d; cbn; [set_solver|]. rewrite IH. cbn.
  destruct (replaced d); set_solver.
Qed.

Lemma set_labels_added a r d l :
  l ∈ labels_added (set_labels a r d) ↔ (l ∈ labels_added d ∨ l ∈ a) ∧ l ∉ r.
Proof.
  unfold set_labels. assert (∀ d, l ∈ labels_added (foldl drop_label d r) ↔ l ∈ labels_added d ∧ l ∉ r) as ->.
  { induction r as [|x r IH]; intros e; cbn; [set_solver|]. rewrite IH. cbn. set_solver. }
  assert (∀ d, l ∈ labels_added (foldl add_label d a) ↔ l ∈ labels_added d ∨ l ∈ a) as ->; [|done].
  induction a as [|x a IH]; intros e; cbn; [set_solver|]. rewrite IH. cbn. set_solver.
Qed.

Lemma set_labels_removed a r d l :
  l ∈ labels_removed (set_labels a r d) ↔ l ∈ labels_removed d ∧ l ∉ a ∨ l ∈ r.
Proof.
  unfold set_labels. assert (∀ d, l ∈ labels_removed (foldl drop_label d r) ↔ l ∈ labels_removed d ∨ l ∈ r) as ->.
  { induction r as [|x r IH]; intros e; cbn; [set_solver|]. rewrite IH. cbn. set_solver. }
  assert (∀ d, l ∈ labels_removed (foldl add_label d a) ↔ l ∈ labels_removed d ∧ l ∉ a) as ->; [|done].
  induction a as [|x a IH]; intros e; cbn; [set_solver|]. rewrite IH. cbn. set_solver.
Qed.

Lemma upsert_replaced ps d : replaced (upsert ps d) = replaced d.
Proof. by apply (foldl_keeps replaced). Qed.

Lemma remove_props_replaced ns d : replaced (remove_props ns d) = replaced d.
Proof. by apply (foldl_keeps replaced). Qed.

Lemma replace_fields (P : gmap str Value.t) d :
  eff_prop_part (replace (map_to_list P) d) = (P, ∅, true, tombstoned d).
Proof.
  unfold eff_prop_part, replace.
  rewrite (foldl_keeps removed), (foldl_keeps replaced), (foldl_keeps tombstoned) by done. cbn.
  f_equal. f_equal. f_equal. apply map_eq. intros k.
  rewrite (foldl_view (λ d k, patches d !! k) _ (λ f p, set_key p.1 (Some p.2) f)).
  - rewrite put_all_lookup, list_to_map_to_list by apply NoDup_fst_map_to_list. cbn.
    rewrite lookup_empty. by destruct (P !! k).
  - apply (set_key_ext fst (λ p, Some p.2)).
  - intros a p j. cbn. unfold set_key.
    destruct (bool_decide_reflect (j = p.1)) as [->|E]; [apply lookup_insert_eq|by rewrite lookup_insert_ne].
Qed.

(** * The fold, field by field *)

Section fields.
Context (d n : NodeDelta) (Ht : tombstoned n = false).
Local Abbreviation relabelled := (set_labels (elements (labels_added n)) (elements (labels_removed n)) (resurrect d)).

Lemma fold_newer_shape : fold_newer d n =
  if replaced n then
    mkNodeDelta (patches n) ∅ true (labels_added relabelled) (labels_removed relabelled) (tombstoned relabelled)
  else upsert (map_to_list (patches n)) (remove_props (elements (removed n)) relabelled).
Proof using Ht. unfold fold_newer. by rewrite Ht. Qed.

Lemma relabelled_props : eff_prop_part relabelled = eff_prop_part (resurrect d).
Proof using. apply set_labels_keeps. Qed.

Lemma fold_newer_patches k : patches (fold_newer d n) !! k =
  match patches n !! k with
  | Some v => Some v
  | None => if replaced n || bool_decide (k ∈ removed n) then None else patches d !! k
  end.
Proof using Ht.
  rewrite fold_newer_shape. pose proof relabelled_props as [= E1 E2 E3 E4].
  destruct (replaced n); cbn [patches orb]; [by destruct (patches n !! k)|].
  unfold upsert, remove_props.
  rewrite set_props_patches, list_to_map_to_list, remove_props_patches by apply NoDup_fst_map_to_list.
  rewrite E1. destruct (patches n !! k); [done|].
  replace (bool_decide (k ∈ elements (removed n))) with (bool_decide (k ∈ removed n)); [done|].
  apply bool_decide_ext. by rewrite elem_of_elements.
Qed.

Lemma fold_newer_removed k : k ∈ removed (fold_newer d n) ↔
  replaced n = false ∧ patches n !! k = None ∧ (k ∈ removed d ∨ k ∈ removed n ∧ replaced d = false).
Proof using Ht.
  rewrite fold_newer_shape. pose proof relabelled_props as [= E1 E2 E3 E4].
  destruct (replaced n); cbn [removed]; [set_solver|].
  unfold upsert, remove_props. rewrite set_props_removed, remove_props_removed, elem_of_elements, E2, E3. cbn.
  assert (k ∉ (map_to_list (patches n)).*1 ↔ patches n !! k = None) as ->; [|tauto].
  by rewrite keys_lookup, <-eq_None_not_Some.
Qed.

Lemma fold_newer_replaced : replaced (fold_newer d n) = replaced n || replaced d.
Proof using Ht.
  rewrite fold_newer_shape. pose proof relabelled_props as [= E1 E2 E3 E4].
  destruct (replaced n); [done|]. by rewrite upsert_replaced, remove_props_replaced, E3.
Qed.

Lemma fold_newer_added l : l ∈ labels_added (fold_newer d n) ↔
  (l ∈ labels_added d ∨ l ∈ labels_added n) ∧ l ∉ labels_removed n.
Proof using Ht.
  pose proof (fold_labels_part d n Ht) as [= -> _ _]. unfold fold_labels.
  change (foldl drop_label (foldl add_label ?d ?a) ?r) with (set_labels a r d).
  by rewrite set_labels_added, !elem_of_elements.
Qed.

Lemma fold_newer_dropped l : l ∈ labels_removed (fold_newer d n) ↔
  l ∈ labels_removed d ∧ l ∉ labels_added n ∨ l ∈ labels_removed n.
Proof using Ht.
  pose proof (fold_labels_part d n Ht) as [= _ -> _]. unfold fold_labels.
  change (foldl drop_label (foldl add_label ?d ?a) ?r) with (set_labels a r d).
  by rewrite set_labels_removed, !elem_of_elements.
Qed.
End fields.

(** * Unit and associativity *)

Lemma fold_newer_default n : delta_wf n → fold_newer NodeDelta.default n = n.
Proof.
  intros Hw. destruct (tombstoned n) eqn:Ht.
  { unfold fold_newer. rewrite Ht. destruct (wf_tombstone n Hw Ht) as (E1&E2&E3&E4&E5).
    destruct n; cbn in *. by subst. }
  pose proof (wf_labels n Hw) as Hl. apply delta_ext.
  - intros k. rewrite fold_newer_patches by done. cbn. rewrite lookup_empty.
    destruct (patches n !! k); [done|]. by case_match.
  - intros k. rewrite fold_newer_removed by done. cbn. split; [set_solver|]. intros Hk.
    split_and!; [|by apply eq_None_not_Some; intros ?%(wf_props n Hw)|by right].
    destruct (replaced n) eqn:E; [|done]. apply (wf_replaced n Hw) in E. set_solver.
  - rewrite fold_newer_replaced by done. by destruct (replaced n).
  - intros l. rewrite fold_newer_added by done. cbn. set_solver.
  - intros l. rewrite fold_newer_dropped by done. cbn. set_solver.
  - by rewrite fold_newer_live.
Qed.

(** Folding a recreation onto a deletion forgets the deletion; any other fold is associative. *)
Lemma fold_newer_assoc a b c : delta_wf a → delta_wf b → delta_wf c →
  (tombstoned b = true → tombstoned c = true) →
  fold_newer (fold_newer a b) c = fold_newer a (fold_newer b c).
Proof.
  intros Ha Hb Hc Hbc. destruct (tombstoned c) eqn:Tc.
  { assert (∀ x, fold_newer x c = mkNodeDelta ∅ ∅ false ∅ ∅ true) as E
      by (intros x; unfold fold_newer; by rewrite Tc).
    rewrite !E. unfold fold_newer. done. }
  destruct (tombstoned b) eqn:Tb; [naive_solver|].
  assert (tombstoned (fold_newer b c) = false) as Tbc by by rewrite fold_newer_live.
  pose proof (wf_labels b Hb) as Lb. pose proof (wf_labels c Hc) as Lc. apply delta_ext.
  - intros k. rewrite !fold_newer_patches, fold_newer_replaced by done.
    destruct (patches c !! k) eqn:Pc; [done|]. destruct (replaced c) eqn:Rc; [done|]. cbn.
    replace (bool_decide (k ∈ removed (fold_newer b c))) with
      (bool_decide (k ∈ removed b ∨ k ∈ removed c ∧ replaced b = false))
      by (apply bool_decide_ext; rewrite fold_newer_removed, Rc, Pc by done; tauto).
    pose proof (wf_replaced b Hb) as Eb. destruct (patches b !! k) eqn:Pb, (replaced b); cbn;
      repeat case_bool_decide; try done; try tauto; try (rewrite Eb in * by done); set_solver.
  - intros k. rewrite !fold_newer_removed, !fold_newer_replaced, fold_newer_patches by done.
    pose proof (wf_replaced a Ha) as Ea. clear -Ea.
    destruct (replaced c); cbn; [split; intros (? & _); done|].
    destruct (replaced b); cbn; [split; [intros (_ & _ & [(? & _)|[_ ?]])|intros (? & _)]; done|].
    destruct (patches c !! k); [split; [intros (_ & ? & _)|intros (_ & ? & _)]; done|].
    destruct (replaced a).
    { rewrite Ea by done. pose proof (not_elem_of_empty (C := gset (list Z)) k). intuition done. }
    case_bool_decide; destruct (patches b !! k); intuition (try done).
  - rewrite !fold_newer_replaced by done. by rewrite orb_assoc.
  - intros l. rewrite !fold_newer_added, fold_newer_dropped by done.
    pose proof (Lb l). pose proof (Lc l).
    destruct (decide (l ∈ labels_added c)), (decide (l ∈ labels_removed c)); tauto.
  - intros l. rewrite !fold_newer_dropped, fold_newer_added by done.
    pose proof (Lb l). pose proof (Lc l).
    destruct (decide (l ∈ labels_added c)), (decide (l ∈ labels_removed c)); tauto.
  - by rewrite !fold_newer_live.
Qed.

(** * Reissuing a folded delta *)

(** The mutator calls of [replay_folded_node], as operations on the delta. *)
Definition replay_ops (d : NodeDelta) : list node_op :=
  if tombstoned d then [OpDelete]
  else
    (if replaced d then [OpReplace (map_to_list (patches d))]
     else OpSet (map_to_list (patches d)) ::
       if bool_decide (removed d = ∅) then [] else [OpRemove (elements (removed d))]) ++
    (if bool_decide (labels_added d = ∅) && bool_decide (labels_removed d = ∅) then []
     else [OpLabels (elements (labels_added d)) (elements (labels_removed d))]).

(** The property part of the calls on an empty delta. *)
Lemma replay_props d : delta_wf d → tombstoned d = false →
  let d1 := if replaced d then replace (map_to_list (patches d)) NodeDelta.default
            else remove_props (elements (removed d)) (upsert (map_to_list (patches d)) NodeDelta.default) in
  eff_prop_part d1 = eff_prop_part d ∧ eff_label_part d1 = (∅, ∅, false).
Proof.
  intros Hw Ht. cbv zeta. destruct (replaced d) eqn:Hr.
  - rewrite replace_fields, replace_keeps. split; [|done]. unfold eff_prop_part.
    by rewrite Hr, Ht, (wf_replaced d Hw Hr).
  - rewrite remove_props_keeps, upsert_keeps. split; [|done]. unfold eff_prop_part.
    rewrite remove_props_replaced, upsert_replaced, Hr, Ht.
    match goal with |- (?P, ?R, _, ?T) = (?P', ?R', _, ?T') =>
      cut (P = P' ∧ R = R' ∧ T = T'); [by intros (-> & -> & ->)|split_and!] end.
    + apply map_eq. intros k. unfold remove_props, upsert.
      rewrite remove_props_patches, set_props_patches, list_to_map_to_list by apply NoDup_fst_map_to_list.
      cbn. rewrite lookup_empty. case_bool_decide as E.
      * apply elem_of_elements in E. symmetry. apply eq_None_not_Some. intros H. by apply (wf_props d Hw k).
      * by destruct (patches d !! k).
    + apply set_eq. intros k. unfold remove_props, upsert.
      rewrite remove_props_removed, set_props_removed, elem_of_elements. cbn.
      rewrite (foldl_keeps replaced) by done. cbn. pose proof (not_elem_of_empty (C := gset (list Z)) k). tauto.
    + pose proof (remove_props_keeps (elements (removed d)) (upsert (map_to_list (patches d)) NodeDelta.default))
        as [= _ _ ->]. by pose proof (upsert_keeps (map_to_list (patches d)) NodeDelta.default) as [= _ _ ->].
Qed.

(** The label part of the calls, whether made or skipped. *)
Lemma replay_labels d d1 : delta_wf d → eff_label_part d1 = (∅, ∅, false) →
  eff_prop_part d1 = eff_prop_part d →
  set_labels (elements (labels_added d)) (elements (labels_removed d)) d1 = d.
Proof.
  intros Hw [= E1 E2 E3] Hp. pose proof (wf_labels d Hw) as Hl.
  pose proof (set_labels_keeps (elements (labels_added d)) (elements (labels_removed d)) d1) as Hk.
  rewrite Hp in Hk. injection Hk as K1 K2 K3 K4.
  apply delta_ext; [intros k; by rewrite K1|intros k; by rewrite K2|done| | |done].
  - intros l. rewrite set_labels_added, !elem_of_elements, E1. set_solver.
  - intros l. rewrite set_labels_removed, !elem_of_elements, E2. set_solver.
Qed.

Lemma resurrect_live d : tombstoned d = false → resurrect d = d.
Proof. destruct d; cbn. by intros ->. Qed.

Lemma replay_ops_spec d : delta_wf d → foldl delta_step NodeDelta.default (replay_ops d) = d.
Proof.
  intros Hw. unfold replay_ops. destruct (tombstoned d) eqn:Ht.
  { destruct (wf_tombstone d Hw Ht) as (E1&E2&E3&E4&E5). cbn. destruct d; cbn in *. by subst. }
  destruct (replay_props d Hw Ht) as [Hp Hl]. rewrite foldl_app.
  match goal with |- foldl _ (foldl _ _ ?ops) _ = _ => set (d0 := foldl delta_step NodeDelta.default ops) end.
  assert (d0 = if replaced d then replace (map_to_list (patches d)) NodeDelta.default
     else remove_props (elements (removed d)) (upsert (map_to_list (patches d)) NodeDelta.default)) as E.
  { unfold d0. destruct (replaced d); [done|]. case_bool_decide as Hr; cbn [foldl delta_step].
    - by rewrite Hr, elements_empty.
    - rewrite (resurrect_live (upsert _ _)); [done|].
      by pose proof (upsert_keeps (map_to_list (patches d)) (resurrect NodeDelta.default)) as [= _ _ ->]. }
  rewrite <-E in Hp, Hl. clearbody d0. pose proof Hl as [= E1 E2 E3].
  transitivity (set_labels (elements (labels_added d)) (elements (labels_removed d)) d0);
    [|by apply replay_labels].
  case_bool_decide as A; case_bool_decide as B; cbn [andb foldl delta_step]; rewrite ?resurrect_live; try done.
  by rewrite A, B, !elements_empty.
Qed.
