(* ===== verification/Compaction.v ===== *)
(** Compaction of sealed levels: [Memtable::merge_levels], [replay_folded_node],
    [node_name_key] and [edge_name_key] of [slater-delta/src/memtable.rs], and the choice of
    the run to merge, [select_compaction_run], [select_compaction_run_in_stack] and
    [DeltaWriter::compact_l0] of [slater/src/delta_writer.rs].

    The order in which a [HashMap] is walked is a parameter, constrained only to yield every
    entry once; the [debug_assert]s are not part of a release build.  [None] is a panic. *)

From stdpp Require Import sorting.
From S2P Require Import Prelude Values Wire Identity WalCodec NodeDelta DeltaFold Memtable.

(** Some order to walk a hash map in. *)
Class HashWalk := {
  walk : ∀ {K A : Type} `{Countable K}, gmap K A → list (K * A);
  walk_perm : ∀ {K A : Type} `{Countable K} (m : gmap K A), walk m ≡ₚ map_to_list m;
}.

Definition stored_walk : HashWalk :=
  {| walk K A _ _ := map_to_list; walk_perm K A _ _ m := reflexivity (map_to_list m) |}.

(** * Folding the levels *)

Record FoldedNode := mkFoldedNode {
  fn_label : str;
  fn_key : str;
  fn_value : Value.t;
  fn_delta : NodeDelta;
  fn_dense : Z;
}.

Record FoldedEdge := mkFoldedEdge {
  fe_src_label : str;
  fe_src_key : str;
  fe_src_value : Value.t;
  fe_reltype : str;
  fe_dst_label : str;
  fe_dst_key : str;
  fe_dst_value : Value.t;
  fe_edge_key : option (str * Value.t);
  fe_delta : EdgeDelta; (* the fields [patches], [replaced] and [tombstoned] *)
  fe_src_dense : Z;
  fe_dst_dense : Z;
  fe_born_edge_id : option Z;
  fe_core_edge_id : option Z;
}.

Definition node_name_key (label key : str) (value : Value.t) : bytes :=
  write_string label ++ write_string key ++ write_value value.

Definition edge_name_key (src_label src_key : str) (src_value : Value.t) (reltype : str)
    (dst_label dst_key : str) (dst_value : Value.t) (edge_key : option (str * Value.t)) : bytes :=
  node_name_key src_label src_key src_value ++ write_string reltype ++
  node_name_key dst_label dst_key dst_value ++
  match edge_key with
  | Some (name, value) => write_string name ++ write_value value
  | None => []
  end.

(** One turn of the loop over [by_dense]. *)
Definition fold_node (seg : Memtable) (fnodes : gmap (list Z) FoldedNode) (p : Z * list Z) :
    gmap (list Z) FoldedNode :=
  match nodes seg !! p.2 with
  | None => fnodes
  | Some entry =>
      let label := name_or_empty (interner seg) (ni_label (n_identity entry)) in
      let key := name_or_empty (interner seg) (ni_key (n_identity entry)) in
      let value := ni_value (n_identity entry) in
      let nk := node_name_key label key value in
      let f := default (mkFoldedNode label key value NodeDelta.default p.1) (fnodes !! nk) in
      <[nk := mkFoldedNode (fn_label f) (fn_key f) (fn_value f)
                (NodeDelta.fold_newer (fn_delta f) (n_delta entry)) p.1]> fnodes
  end.

(** One turn of the loop over [edges]. *)
Definition fold_edge (seg : Memtable) (fedges : gmap (list Z) FoldedEdge) (entry : EdgeEntry) :
    gmap (list Z) FoldedEdge :=
  let name sym := name_or_empty (interner seg) sym in
  let id := e_identity entry in
  let sl := name (ni_label (ei_src id)) in
  let sk := name (ni_key (ei_src id)) in
  let sv := ni_value (ei_src id) in
  let rt := name (ei_reltype id) in
  let dl := name (ni_label (ei_dst id)) in
  let dk := name (ni_key (ei_dst id)) in
  let dv := ni_value (ei_dst id) in
  let ek := (λ p, (name p.1, p.2)) <$> ei_key id in
  let nk := edge_name_key sl sk sv rt dl dk dv ek in
  let f := default (mkFoldedEdge sl sk sv rt dl dk dv ek EdgeDelta.default (src_dense entry)
                      (dst_dense entry) None None) (fedges !! nk) in
  <[nk := mkFoldedEdge (fe_src_label f) (fe_src_key f) (fe_src_value f) (fe_reltype f)
            (fe_dst_label f) (fe_dst_key f) (fe_dst_value f) (fe_edge_key f)
            (EdgeDelta.fold (fe_delta f) (e_delta entry)) (src_dense entry) (dst_dense entry)
            (if fe_born_edge_id f is None then synthetic_edge entry else fe_born_edge_id f)
            (if fe_core_edge_id f is None then core_edge entry else fe_core_edge_id f)]> fedges.

(** ** The orders the folded entities are replayed in *)

Definition key_le {A} (key : A → Z) (a b : A) : Prop := key a <= key b.

#[export] Instance key_le_dec {A} (key : A → Z) : RelDecision (key_le key).
Proof. intros a b. unfold key_le. apply _. Defined.

(** [slice::sort_by_key], which is stable. *)
Definition sort_by_key {A} (key : A → Z) (l : list A) : list A := merge_sort (key_le key) l.

(** The tuple order of [(src_dense, dst_dense, &reltype)]. *)
Definition core_edge_cmp (a b : FoldedEdge) : comparison :=
  match fe_src_dense a ?= fe_src_dense b with
  | Eq => match fe_dst_dense a ?= fe_dst_dense b with
          | Eq => bytes_cmp (fe_reltype a) (fe_reltype b)
          | c => c
          end
  | c => c
  end.

Definition core_edge_le (a b : FoldedEdge) : Prop := core_edge_cmp a b ≠ Gt.

#[export] Instance core_edge_le_dec : RelDecision core_edge_le.
Proof. intros a b. unfold core_edge_le. apply _. Defined.

Section merge.
Context {layout : Layout} {order : HashWalk}.

(** Every level, oldest first. *)
Definition fold_levels (newest_first : list Memtable) :
    gmap (list Z) FoldedNode * gmap (list Z) FoldedEdge :=
  foldl (λ acc seg, (foldl (fold_node seg) acc.1 (walk (by_dense seg)),
                     foldl (fold_edge seg) acc.2 (walk (edges seg)).*2))
    (∅, ∅) (rev newest_first).

(** * Rebuilding a memtable from the folded state *)

Definition replay_folded_node (m : Memtable) (f : FoldedNode) (resolved : option Z) : Memtable :=
  let d := fn_delta f in
  if tombstoned d then delete_node (fn_label f) (fn_key f) (fn_value f) resolved m
  else
    let m :=
      if replaced d then
        replace_node (fn_label f) (fn_key f) (fn_value f) resolved (map_to_list (patches d)) m
      else
        let m := upsert_node (fn_label f) (fn_key f) (fn_value f) resolved
                   (map_to_list (patches d)) m in
        if bool_decide (removed d = ∅) then m
        else remove_node_props (fn_label f) (fn_key f) (fn_value f) resolved
               (elements (removed d)) m in
    if bool_decide (labels_added d = ∅) && bool_decide (labels_removed d = ∅) then m
    else set_node_labels (fn_label f) (fn_key f) (fn_value f) resolved
           (elements (labels_added d)) (elements (labels_removed d)) m.

(** The loop body for a born node: allocate the id, then replay. *)
Definition replay_born_node (m : Memtable) (f : FoldedNode) : Memtable :=
  replay_folded_node (upsert_node (fn_label f) (fn_key f) (fn_value f) None [] m) f None.

Definition replay_core_node (m : Memtable) (f : FoldedNode) : Memtable :=
  replay_folded_node m f (Some (fn_dense f)).

Definition delete_folded_edge (f : FoldedEdge) (m : Memtable) : Memtable :=
  delete_edge_keyed (fe_src_label f) (fe_src_key f) (fe_src_value f) (fe_reltype f)
    (fe_dst_label f) (fe_dst_key f) (fe_dst_value f)
    (Some (fe_src_dense f)) (Some (fe_dst_dense f)) (fe_edge_key f) m.

Definition replay_born_edge (m : Memtable) (f : FoldedEdge) : Memtable :=
  let m := upsert_edge_keyed (fe_src_label f) (fe_src_key f) (fe_src_value f) (fe_reltype f)
             (fe_dst_label f) (fe_dst_key f) (fe_dst_value f)
             (Some (fe_src_dense f)) (Some (fe_dst_dense f)) (fe_edge_key f)
             (e_replaced (fe_delta f)) (map_to_list (e_patches (fe_delta f))) m in
  if e_tombstoned (fe_delta f) then delete_folded_edge f m else m.

(** [None] where a live entry carries no core id and the [expect] fails. *)
Definition replay_core_edge (m : Memtable) (f : FoldedEdge) : option Memtable :=
  if e_tombstoned (fe_delta f) then Some (delete_folded_edge f m)
  else
    cid ← fe_core_edge_id f;
    Some (patch_core_edge_keyed (fe_src_label f) (fe_src_key f) (fe_src_value f) (fe_reltype f)
            (fe_dst_label f) (fe_dst_key f) (fe_dst_value f)
            (Some (fe_src_dense f)) (Some (fe_dst_dense f)) (fe_edge_key f) cid
            (e_replaced (fe_delta f)) (map_to_list (e_patches (fe_delta f))) m).


Definition merge_levels (newest_first : list Memtable) : option Memtable :=
  match last newest_first with
  | None => Some (with_bases 0 0)
  | Some oldest =>
      let base_node := synthetic_base oldest in
      let base_edge := edge_synthetic_base oldest in
      let '(fnodes, fedges) := fold_levels newest_first in
      let m := with_bases base_node base_edge in
      let folded := (walk fnodes).*2 in
      let m := foldl replay_born_node m
                 (sort_by_key fn_dense (filter (λ f, base_node <= fn_dense f) folded)) in
      let m := foldl replay_core_node m
                 (sort_by_key fn_dense (filter (λ f, fn_dense f < base_node) folded)) in
      let folded := (walk fedges).*2 in
      let m := foldl replay_born_edge m
                 (sort_by_key (λ f, default 0 (fe_born_edge_id f))
                    (filter (λ f, is_Some (fe_born_edge_id f)) folded)) in
      foldl (λ m f, m ← m; replay_core_edge m f) (Some m)
        (merge_sort core_edge_le
           (filter (λ f, fe_born_edge_id f = None) folded))
  end.

End merge.

(** * Choosing the run *)

Definition SIZE_TIER_RATIO : Z := 4.

Definition saturating_mul (a b : Z) : Z := Z.min (a * b) (2 ^ 64 - 1).

(** The inner loop: the end of the maximal run whose sizes stay within the ratio. *)
Fixpoint extend_run (lo hi : Z) (rest : list Z) (j : nat) : nat :=
  match rest with
  | [] => j
  | s :: rest =>
      let s := Z.max s 1 in
      let nlo := Z.min lo s in
      let nhi := Z.max hi s in
      if saturating_mul nlo SIZE_TIER_RATIO <? nhi then j else extend_run nlo nhi rest (S j)
  end.

(** [best.is_none_or(|(bs, be)| e - s >= be - bs)]: a later run wins a tie. *)
Definition keep_longer (best : option (nat * nat)) (s e : nat) : option (nat * nat) :=
  match best with
  | Some (bs, be) => if (be - bs <=? e - s)%nat then Some (s, e) else best
  | None => Some (s, e)
  end.

Fixpoint select_run_loop (fuel : nat) (sizes : list Z) (i : nat) (best : option (nat * nat)) :
    option (nat * nat) :=
  match fuel, drop i sizes with
  | S fuel, s :: rest =>
      let j := extend_run (Z.max s 1) (Z.max s 1) rest (i + 1) in
      let best := if (2 <=? j - i)%nat then keep_longer best i j else best in
      select_run_loop fuel sizes (Nat.max j (i + 1)) best
  | _, _ => best
  end.

(** Every turn of the loop moves [i] forward: one turn per size is enough. *)
Definition select_compaction_run (sizes : list Z) : option (nat * nat) :=
  select_run_loop (length sizes) sizes 0 None.

(** The end of the span of levels of one format. *)
Fixpoint extend_span (format : bool) (rest : list bool) (j : nat) : nat :=
  match rest with
  | b :: rest => if bool_decide (b = format) then extend_span format rest (S j) else j
  | [] => j
  end.

Fixpoint select_span_loop (fuel : nat) (sizes : list Z) (off_heap : list bool) (span_start : nat)
    (best : option (nat * nat)) : option (nat * nat) :=
  match fuel, drop span_start off_heap with
  | S fuel, b :: rest =>
      let span_end := extend_span b rest (span_start + 1) in
      let best :=
        match select_compaction_run (take (span_end - span_start) (drop span_start sizes)) with
        | Some (s, e) => keep_longer best (span_start + s) (span_start + e)
        | None => best
        end in
      select_span_loop fuel sizes off_heap span_end best
  | _, _ => best
  end.

Definition select_compaction_run_in_stack (sizes : list Z) (off_heap : list bool) :
    option (nat * nat) :=
  select_span_loop (length sizes) sizes off_heap 0 None.

(** What [compact_l0] does to a stack of resident levels, newest first, with their byte sizes:
    the merged level takes the place of the run.  Writing it to the run's oldest file and
    opening that again is the subject of [L0Segment]. *)
Definition compact_levels `{Layout, HashWalk} (consolidating : bool) (sizes : list Z)
    (l0 : list Memtable) : option (bool * list Memtable) :=
  if consolidating then Some (false, l0)
  else if (length l0 <? 2)%nat then Some (false, l0)
  else
    match select_compaction_run_in_stack sizes (replicate (length l0) false) with
    | None => Some (false, l0)
    | Some (start, end_) =>
        merged ← merge_levels (take (end_ - start) (drop start l0));
        Some (true, take start l0 ++ merged :: drop end_ l0)
    end.
