(* ===== verification/CompactionFold.v ===== *)
(** The folding half of [merge_levels]: every folded node and edge is the newest-wins fold of
    the entries the levels hold for its identity. *)

From S2P Require Import Prelude Values Wire Identity NodeDelta DeltaFold Memtable MemtableInv.
From S2P Require Import MemtableApply Snapshot SnapshotRead Compaction.

(** * Grouping rows by key *)

(** Folding rows into a map, each onto the entry of its key, is one fold per key. *)
Lemma group_fold {R A} (key : R → list Z) (upd : option A → R → A) (rows : list R)
    (acc : gmap (list Z) A) k :
  foldl (λ acc r, <[key r := upd (acc !! key r) r]> acc) acc rows !! k =
  foldl (λ o r, Some (upd o r)) (acc !! k) (filter (λ r, key r = k) rows).
Proof.
  revert acc. induction rows as [|r rows IH]; intros acc; [done|].
  cbn [foldl]. rewrite IH, filter_cons. destruct (decide (key r = k)) as [<-|Hne]; cbn [foldl].
  - by rewrite lookup_insert_eq.
  - by rewrite lookup_insert_ne.
Qed.

Lemma foldl_omap {A B C} (f : C → B → C) (g : A → option B) l c :
  foldl (λ c a, match g a with Some b => f c b | None => c end) c l = foldl f c (omap g l).
Proof. revert c. induction l as [|a l IH]; intros c; cbn; [done|]. rewrite IH. by destruct (g a). Qed.

Lemma foldl_concat {A B C} (f : C → B → C) (g : A → list B) l c :
  foldl (λ c a, foldl f c (g a)) c l = foldl f c (concat (map g l)).
Proof. revert c. induction l as [|a l IH]; intros c; cbn; [done|]. by rewrite IH, foldl_app. Qed.

Lemma foldl_map {A B C} (f : C → B → C) (g : A → B) l c :
  foldl (λ c a, f c (g a)) c l = foldl f c (map g l).
Proof. revert c. induction l as [|a l IH]; intros c; cbn; [done|]. by rewrite IH. Qed.

Lemma foldl_fst {A B C} (f : B → A → B) (g : C → A → C) l b c :
  (foldl (λ acc a, (f acc.1 a, g acc.2 a)) (b, c) l) = (foldl f b l, foldl g c l).
Proof. revert b c. induction l as [|a l IH]; intros b c; cbn; [done|]. by rewrite IH. Qed.

Lemma elem_of_rev {A} (x : A) l : x ∈ rev l ↔ x ∈ l.
Proof. rewrite !list_elem_of_In. symmetry. apply in_rev. Qed.

(** * Name keys *)

Lemma write_string_prefix_free s t r q : fits s → fits t →
  write_string s ++ r = write_string t ++ q → s = t ∧ r = q.
Proof.
  unfold write_string. intros Hs Ht E. rewrite <-!app_assoc in E.
  apply write_uvarint_prefix_free in E as [El E]; [|by apply fits_u64..].
  apply app_inj_1 in E; [done|]. unfold zlen in El. lia.
Qed.

Abbreviation NodeName := (str * str * Value.t)%type (only parsing).

Definition name_ok (n : NodeName) : Prop := fits n.1.1 ∧ fits n.1.2 ∧ Value.wf n.2.

Definition name_key (n : NodeName) : bytes := node_name_key n.1.1 n.1.2 n.2.

Lemma name_key_prefix_free a b r s : name_ok a → name_ok b →
  name_key a ++ r = name_key b ++ s → a = b ∧ r = s.
Proof.
  destruct a as [[la ka] va], b as [[lb kb] vb]. intros (?&?&?) (?&?&?) E. cbn in *.
  unfold name_key, node_name_key in E. cbn in E. rewrite <-!app_assoc in E.
  apply write_string_prefix_free in E as [-> E]; [|done..].
  apply write_string_prefix_free in E as [-> E]; [|done..].
  by apply write_value_prefix_free in E as [-> ->].
Qed.

Lemma name_key_inj a b : name_ok a → name_ok b → name_key a = name_key b → a = b.
Proof.
  intros Ha Hb E. apply (name_key_prefix_free a b [] []); [done..|]. by rewrite !app_nil_r.
Qed.

Definition edge_name_ok (n : EdgeNames) : Prop :=
  name_ok (en_src n) ∧ fits (en_reltype n) ∧ name_ok (en_dst n) ∧
  match en_key n with Some (k, v) => fits k ∧ Value.wf v | None => True end.

Definition edge_names_key (n : EdgeNames) : bytes :=
  edge_name_key (en_src n).1.1 (en_src n).1.2 (en_src n).2 (en_reltype n)
    (en_dst n).1.1 (en_dst n).1.2 (en_dst n).2 (en_key n).

Lemma write_string_nonempty s r : fits s → write_string s ++ r ≠ [].
Proof. unfold write_string. rewrite <-app_assoc. intros. by apply write_uvarint_nonempty, fits_u64. Qed.

Lemma edge_names_key_inj a b : edge_name_ok a → edge_name_ok b →
  edge_names_key a = edge_names_key b → a = b.
Proof.
  destruct a as [sa ra da ka], b as [sb rb db kb]. intros (?&?&?&Ka) (?&?&?&Kb) E. cbn in *.
  unfold edge_names_key, edge_name_key in E. cbn in E. change (node_name_key ?n.1.1 ?n.1.2 ?n.2) with (name_key n) in E.
  apply name_key_prefix_free in E as [-> E]; [|done..].
  apply write_string_prefix_free in E as [-> E]; [|done..].
  apply name_key_prefix_free in E as [-> E]; [|done..].
  destruct ka as [[ka va]|], kb as [[kb vb]|]; [..|done].
  - destruct Ka, Kb. apply write_string_prefix_free in E as [-> E]; [|done..].
    assert (write_value va ++ [] = write_value vb ++ []) as E' by by rewrite !app_nil_r.
    by apply write_value_prefix_free in E' as [-> _].
  - destruct Ka. by apply write_string_nonempty in E.
  - destruct Kb. symmetry in E. by apply write_string_nonempty in E.
Qed.

(** * Walks *)

Section walks.
Context {order : HashWalk}.

Lemma walk_keys {K A} `{Countable K} (m : gmap K A) : NoDup (walk m).*1.
Proof. rewrite (walk_perm m). apply NoDup_fst_map_to_list. Qed.

Lemma walk_map {K A} `{Countable K} (m : gmap K A) : list_to_map (walk m) = m.
Proof. rewrite <-(list_to_map_to_list m) at 2. apply list_to_map_proper; [apply walk_keys|apply walk_perm]. Qed.

Lemma elem_of_walk {K A} `{Countable K} (m : gmap K A) k a : (k, a) ∈ walk m ↔ m !! k = Some a.
Proof. rewrite (walk_perm m). apply elem_of_map_to_list. Qed.

Lemma filter_key {K A} `{Countable K} (l : list (K * A)) k : NoDup l.*1 →
  filter (λ p, p.1 = k) l = match (list_to_map l : gmap K A) !! k with Some a => [(k, a)] | None => [] end.
Proof.
  induction l as [|[x a] l IH]; intros Hnd; [done|]. apply NoDup_cons in Hnd as [Hni Hnd].
  rewrite filter_cons. cbn [list_to_map foldr fst snd]. destruct (decide (x = k)) as [->|Hne]; cbn.
  - rewrite lookup_insert_eq. rewrite IH, not_elem_of_list_to_map_1; done.
  - rewrite lookup_insert_ne by done. by apply IH.
Qed.

Lemma filter_walk {K A} `{Countable K} (m : gmap K A) k :
  filter (λ p, p.1 = k) (walk m) = match m !! k with Some a => [(k, a)] | None => [] end.
Proof. rewrite filter_key by apply walk_keys. by rewrite walk_map. Qed.
End walks.

(** * The rows of the nodes *)

(** What a level holds under a dense id. *)
Record NodeRow := mkNodeRow { nr_name : str * str * Value.t; nr_dense : Z; nr_delta : NodeDelta }.

Definition node_row (seg : Memtable) (p : Z * list Z) : option NodeRow :=
  (λ e, mkNodeRow (name_or_empty (interner seg) (ni_label (n_identity e)),
                   name_or_empty (interner seg) (ni_key (n_identity e)), ni_value (n_identity e))
          p.1 (n_delta e)) <$> nodes seg !! p.2.

(** One row folded onto the entry of its name. *)
Definition fold_row (o : option FoldedNode) (r : NodeRow) : FoldedNode :=
  let f := default (mkFoldedNode (nr_name r).1.1 (nr_name r).1.2 (nr_name r).2 NodeDelta.default (nr_dense r)) o in
  mkFoldedNode (fn_label f) (fn_key f) (fn_value f)
    (NodeDelta.fold_newer (fn_delta f) (nr_delta r)) (nr_dense r).

Lemma fold_rows rows :
  foldl (λ o r, Some (fold_row o r)) None rows =
  (λ r, mkFoldedNode (nr_name r).1.1 (nr_name r).1.2 (nr_name r).2
          (foldl NodeDelta.fold_newer NodeDelta.default (map nr_delta rows))
          (default 0 (nr_dense <$> last rows))) <$> head rows.
Proof.
  induction rows as [|r rows IH] using rev_ind; [done|].
  rewrite foldl_app. cbn [foldl]. rewrite IH, last_snoc, map_app, foldl_app. by destruct rows.
Qed.

Section node_rows.
Context {layout : Layout} {order : HashWalk}.

Definition node_rows (seg : Memtable) : list NodeRow := omap (node_row seg) (walk (by_dense seg)).

Definition all_node_rows (ms : list Memtable) : list NodeRow := concat (map node_rows (rev ms)).

Lemma fold_levels_nodes ms k : (fold_levels ms).1 !! k =
  foldl (λ o r, Some (fold_row o r)) None (filter (λ r, name_key (nr_name r) = k) (all_node_rows ms)).
Proof.
  unfold fold_levels. rewrite (foldl_fst (λ acc seg, foldl (fold_node seg) acc (walk (by_dense seg)))
    (λ acc seg, foldl (fold_edge seg) acc (walk (edges seg)).*2)). cbn [fst].
  rewrite <-(lookup_empty (M := gmap (list Z)) k). rewrite <-group_fold. unfold all_node_rows. f_equal.
  rewrite <-foldl_concat. generalize (∅ : gmap (list Z) FoldedNode).
  induction (rev ms) as [|seg segs IH]; intros acc; [done|]. cbn [foldl]. rewrite IH. f_equal.
  unfold node_rows. rewrite <-foldl_omap. clear. generalize (walk (by_dense seg)) as l. intros l. revert acc.
  induction l as [|p l IH]; intros acc; [done|]. cbn [foldl]. rewrite IH. f_equal.
  unfold fold_node, node_row. by destruct (nodes seg !! p.2).
Qed.

Lemma node_row_reads seg p r : by_dense seg !! p.1 = Some p.2 → node_row seg p = Some r →
  nr_dense r = p.1 ∧ Memtable.node_patch p.1 seg = Some (nr_delta r) ∧
  Memtable.node_identity_by_dense p.1 seg = Some (nr_name r).
Proof.
  unfold node_row, node_patch, node_identity_by_dense. intros ->. cbn.
  destruct (nodes seg !! p.2); cbn; [|done]. by intros [= <-].
Qed.

(** The rows of one dense id: the one the level reads for it. *)
Lemma node_rows_at seg d : filter (λ r, nr_dense r = d) (node_rows seg) =
  match Memtable.node_identity_by_dense d seg, Memtable.node_patch d seg with
  | Some n, Some nd => [mkNodeRow n d nd]
  | _, _ => []
  end.
Proof.
  assert (∀ l : list (Z * list Z), filter (λ r, nr_dense r = d) (omap (node_row seg) l) =
    omap (node_row seg) (filter (λ p, p.1 = d) l)) as E.
  { induction l as [|p l IH]; [done|]. rewrite filter_cons. cbn [omap list_omap].
    destruct (node_row seg p) as [r|] eqn:Er.
    - assert (nr_dense r = p.1) as Hd
        by (unfold node_row in Er; destruct (nodes seg !! p.2); [by injection Er as <-|done]).
      rewrite filter_cons. destruct (decide (nr_dense r = d)), (decide (p.1 = d)); try congruence.
      + cbn [omap list_omap]. by rewrite Er, IH.
    - destruct (decide (p.1 = d)); cbn [omap list_omap]; by rewrite ?Er. }
  unfold node_rows. rewrite E, filter_walk. unfold node_patch, node_identity_by_dense, node_row.
  destruct (by_dense seg !! d) as [ck|]; cbn; [|done]. by destruct (nodes seg !! ck).
Qed.

Lemma all_node_rows_at ms d : map nr_delta (filter (λ r, nr_dense r = d) (all_node_rows ms)) =
  omap (Memtable.node_patch d) (rev ms).
Proof.
  unfold all_node_rows. induction (rev ms) as [|seg segs IH]; [done|].
  cbn [map concat omap list_omap]. rewrite filter_app, map_app, IH, node_rows_at.
  unfold node_patch, node_identity_by_dense.
  destruct (by_dense seg !! d) as [ck|]; cbn; [|done]. by destruct (nodes seg !! ck).
Qed.
End node_rows.

(** * A run of levels *)

Definition fn_name (f : FoldedNode) : str * str * Value.t := (fn_label f, fn_key f, fn_value f).

(** What the writer keeps true of the nodes in a stack: each level is consistent, and the
    stack agrees on which dense id a business key has. *)
Record nodes_run (ms : list Memtable) : Prop := {
  run_wf : ∀ m, m ∈ ms → memtable_wf m;
  run_fits : ∀ m, m ∈ ms → Forall fits (int_names (interner m));
  run_stable : ∀ m m' d d' n n', m ∈ ms → m' ∈ ms →
    Memtable.node_identity_by_dense d m = Some n → Memtable.node_identity_by_dense d' m' = Some n' →
    n = n' ↔ d = d';
}.

Lemma filter_iff_elem {A} (P Q : A → Prop) `{∀ x, Decision (P x), ∀ x, Decision (Q x)} (l : list A) :
  (∀ x, x ∈ l → P x ↔ Q x) → filter P l = filter Q l.
Proof.
  induction l as [|x l IH]; intros E; [done|]. rewrite !filter_cons.
  rewrite IH by (intros y Hy; apply E; by right). pose proof (E x ltac:(left)) as Ex.
  destruct (decide (P x)), (decide (Q x)); tauto.
Qed.

Lemma name_or_empty_fits i s : Forall fits (int_names i) → fits (name_or_empty i s).
Proof.
  intros Hf. unfold name_or_empty. destruct (Interner.name s i) as [n|] eqn:E; [|done].
  unfold Interner.name in E. eapply Forall_lookup_1; [done|]. by eapply E.
Qed.

Lemma fold_newest_levels (g : Memtable → option NodeDelta) ms :
  (∀ m nd, m ∈ ms → g m = Some nd → delta_wf nd) →
  fold_newest (map g ms) = match omap g (rev ms) with
                           | [] => None
                           | l => Some (foldl NodeDelta.fold_newer NodeDelta.default l)
                           end.
Proof.
  induction ms as [|m ms IH]; intros Hw; [done|]. cbn [rev map]. rewrite omap_app.
  change (fold_newest (?a :: ?l)) with (DeltaSnapshot.fold_patch (fold_newest l) a).
  rewrite IH by (intros m' nd Hm; apply Hw; by right). cbn [omap list_omap].
  destruct (g m) as [nd|] eqn:Eg; [|by rewrite app_nil_r].
  destruct (omap g (rev ms)) as [|a l] eqn:El; cbn [DeltaSnapshot.fold_patch app foldl].
  - rewrite fold_newer_default; [done|]. eapply Hw; [left|done].
  - by rewrite foldl_app.
Qed.

Section folded.
Context {layout : Layout} {order : HashWalk} (ms : list Memtable) (Hrun : nodes_run ms).

Lemma elem_of_rows r : r ∈ all_node_rows ms ↔ ∃ m, m ∈ ms ∧
  Memtable.node_identity_by_dense (nr_dense r) m = Some (nr_name r) ∧
  Memtable.node_patch (nr_dense r) m = Some (nr_delta r).
Proof using.
  unfold all_node_rows. rewrite elem_of_concat_map. apply base.exist_proper. intros m.
  rewrite elem_of_rev. split; intros [Hm H]; (split; [done|]).
  - unfold node_rows in H. apply list_elem_of_omap in H as (p & Hp & Hr). destruct p as [d ck].
    apply elem_of_walk in Hp. destruct (node_row_reads m (d, ck) r Hp Hr) as (-> & ? & ?). done.
  - destruct H as [H1 H2]. apply (proj1 (list_elem_of_filter (λ x, nr_dense x = nr_dense r) _ _)).
    rewrite node_rows_at, H1, H2. destruct r. apply list_elem_of_singleton. done.
Qed.

Lemma row_ok r : r ∈ all_node_rows ms → name_ok (nr_name r) ∧ delta_wf (nr_delta r).
Proof using Hrun.
  intros (m & Hm & H1 & H2)%elem_of_rows. pose proof (run_fits ms Hrun m Hm) as Hf.
  destruct (run_wf ms Hrun m Hm) as (_ & Hn & _).
  unfold node_identity_by_dense in H1. unfold node_patch in H2.
  destruct (by_dense m !! nr_dense r) as [ck|]; [|done]. cbn in *.
  destruct (nodes m !! ck) as [e|] eqn:He; [|done]. cbn in *.
  destruct (inv_entry _ _ _ _ _ _ _ Hn _ _ He) as (_ & (_ & _ & Hv) & _ & Hd).
  injection H1 as <-. injection H2 as <-. split; [|done].
  split_and!; [by apply name_or_empty_fits..|done].
Qed.

(** The rows of one name are the rows of one dense id. *)
Lemma rows_by_dense r : r ∈ all_node_rows ms →
  filter (λ x, name_key (nr_name x) = name_key (nr_name r)) (all_node_rows ms) =
  filter (λ x, nr_dense x = nr_dense r) (all_node_rows ms).
Proof using Hrun.
  intros Hr. apply filter_iff_elem. intros x Hx.
  destruct (row_ok r Hr) as [Or _], (row_ok x Hx) as [Ox _].
  apply elem_of_rows in Hr as (m & Hm & H1 & _). apply elem_of_rows in Hx as (m' & Hm' & H1' & _).
  rewrite <-(run_stable ms Hrun m' m _ _ _ _ Hm' Hm H1' H1). split; [by apply name_key_inj|by intros ->].
Qed.

(** A folded node: its key, a level that holds it, and the fold of the levels' deltas. *)
Record is_fold (f : FoldedNode) : Prop := {
  if_held : ∃ m, m ∈ ms ∧ Memtable.node_identity_by_dense (fn_dense f) m = Some (fn_name f);
  if_delta : fold_newest (map (Memtable.node_patch (fn_dense f)) ms) = Some (fn_delta f);
  if_wf : delta_wf (fn_delta f);
  if_name : name_ok (fn_name f);
}.

Lemma patch_wf m d nd : m ∈ ms → Memtable.node_patch d m = Some nd → delta_wf nd.
Proof using Hrun.
  intros Hm H. destruct (run_wf ms Hrun m Hm) as (_ & Hn & _). unfold node_patch in H.
  destruct (by_dense m !! d) as [ck|]; [|done]. cbn in H.
  destruct (nodes m !! ck) as [e|] eqn:He; [|done]. injection H as <-.
  by destruct (inv_entry _ _ _ _ _ _ _ Hn _ _ He) as (_&_&_&?).
Qed.

Lemma fold_all_wf l d : delta_wf d → Forall delta_wf l → delta_wf (foldl NodeDelta.fold_newer d l).
Proof using. revert d. induction l as [|x l IH]; intros d Hd Hl; [done|]. inversion Hl. by apply IH; [apply fold_newer_wf|]. Qed.

Lemma fold_of_row r : r ∈ all_node_rows ms →
  ∃ f, (fold_levels ms).1 !! name_key (nr_name r) = Some f ∧ is_fold f ∧
    fn_dense f = nr_dense r ∧ fn_name f = nr_name r.
Proof using Hrun.
  intros Hr. rewrite fold_levels_nodes, fold_rows, rows_by_dense by done.
  set (rows := filter (λ x, nr_dense x = nr_dense r) (all_node_rows ms)).
  assert (∀ x, x ∈ rows ↔ nr_dense x = nr_dense r ∧ x ∈ all_node_rows ms) as Hin
    by (intros x; unfold rows; by rewrite list_elem_of_filter).
  destruct (head rows) as [r0|] eqn:Eh.
  2: { destruct rows; [|done]. exfalso. by apply (not_elem_of_nil r), Hin. }
  assert (r0 ∈ rows) as [Hd0 Hr0]%Hin by (destruct rows; [done|injection Eh as ->; left]).
  destruct (last rows) as [rl|] eqn:El; [|by apply last_None in El; rewrite El in Eh].
  assert (rl ∈ rows) as [Hdl _]%Hin by (by apply last_Some_elem_of).
  assert (nr_name r0 = nr_name r) as En.
  { apply elem_of_rows in Hr as (m & Hm & H1 & _). apply elem_of_rows in Hr0 as (m' & Hm' & H1' & _).
    by apply (run_stable ms Hrun m' m _ _ _ _ Hm' Hm H1' H1). }
  assert (map nr_delta rows = omap (Memtable.node_patch (nr_dense r)) (rev ms)) as Edl by apply all_node_rows_at.
  cbn [fmap option_fmap option_map from_option]. eexists. split; [done|].
  cbn [fn_dense default from_option]. rewrite Hdl. unfold fn_name. cbn. rewrite En.
  destruct (nr_name r) as [[l k] v] eqn:Enm. cbn. split; [|done]. split; unfold fn_name; cbn.
  - rewrite <-Enm. apply elem_of_rows in Hr as (m & Hm & H1 & _). by exists m.
  - rewrite (fold_newest_levels _ ms) by (intros m nd Hm; by apply patch_wf).
    rewrite <-Edl. destruct rows; [done|]. done.
  - apply fold_all_wf; [apply default_wf|]. rewrite Forall_map. apply Forall_forall.
    intros x [_ Hx]%Hin. by apply row_ok.
  - rewrite <-Enm. by apply row_ok.
Qed.

Lemma folded_node k f : (fold_levels ms).1 !! k = Some f → k = name_key (fn_name f) ∧ is_fold f.
Proof using Hrun.
  intros H. pose proof H as H'. rewrite fold_levels_nodes, fold_rows in H'.
  destruct (filter (λ r, name_key (nr_name r) = k) (all_node_rows ms)) as [|r rows] eqn:E; [done|].
  assert (r ∈ r :: rows) as Hr by left. rewrite <-E in Hr. apply list_elem_of_filter in Hr as [<- Hr].
  destruct (fold_of_row r Hr) as (f' & Hf & Hi & _ & En). rewrite H in Hf. injection Hf as <-. by rewrite En.
Qed.
End folded.
