(* ===== verification/CompactionReplay.v ===== *)
(** The rebuilding half of [merge_levels], for nodes: replaying the folded nodes through the
    ordinary write operations yields a consistent memtable that holds exactly the folded
    deltas, each under the dense id it had. *)

From stdpp Require Import sorting.
From S2P Require Import Prelude Values Wire Identity WalCodec NodeDelta DeltaFold Memtable.
From S2P Require Import MemtableInv MemtableApply Snapshot SnapshotRead Compaction CompactionFold.

(** * Writes to a key the memtable knows *)

Lemma intern_known n sym i : Interner.wf i → 0 <= sym → Interner.name sym i = Some n →
  Interner.intern n i = (sym, i).
Proof.
  intros (_ & _ & Hi) H0 Hn. unfold Interner.intern.
  by replace (int_map i !! n) with (Some sym) by (symmetry; by apply Hi).
Qed.

Lemma intern_node_known l k v i id : Interner.wf i → NodeIdentity.wf id → names_are i id l k v →
  intern_node_identity l k v i = (id, i).
Proof.
  intros Hi (Hl & Hk & _) (Nl & Nk & <-). unfold intern_node_identity, is_u32 in *.
  rewrite (intern_known l (ni_label id)), (intern_known k (ni_key id)); [by destruct id|done|lia|done|done|lia|done].
Qed.

Section writes.
Context {layout : Layout}.

(** A write to a key that has an entry moves no id. *)
Lemma node_write_index o l k v r m e : memtable_wf m → resolves m (node_ck l k v m) r →
  nodes m !! node_ck l k v m = Some e →
  by_dense (node_write o l k v r m) = by_dense m ∧ born (node_write o l k v r m) = born m.
Proof.
  intros Hm Hr He. unfold node_ck in *.
  destruct (intern_node_identity l k v (interner m)) as [id i] eqn:E. cbn in *.
  destruct (touch_existing l k v r m id i e) as (d & Hd & Et); try done.
  assert (∀ ck f m n, by_dense (charge (update_delta ck f m) n) = by_dense m ∧
    born (charge (update_delta ck f m) n) = born m) as Hu.
  { intros ck f m' n. unfold update_delta. by destruct (nodes m' !! ck). }
  destruct o; cbn; unfold upsert_node, remove_node_props, replace_node, set_node_labels;
    try (rewrite Et; cbv beta iota; by rewrite (proj1 (Hu _ _ _ _)), (proj2 (Hu _ _ _ _))).
  unfold delete_node. rewrite E. settle He. unfold resolves in Hr. rewrite He in Hr.
  destruct Hr as [[-> [s Hs]]|(x & -> & Hx)]; [by rewrite Hs|]. cbn. by rewrite insert_id.
Qed.

(** The key keeps its claim to [r]: it is registered under it, or born here. *)
Definition anchored (m : Memtable) (ck : list Z) (r : option Z) : Prop :=
  match r with Some d => by_dense m !! d = Some ck | None => ck ∈ born m end.

Lemma anchored_resolves m ck r : nodes_ok m → anchored m ck r → is_Some (nodes m !! ck) → resolves m ck r.
Proof.
  intros Hn Ha [e He]. unfold resolves. rewrite He. destruct r as [d|]; [right; by exists d|left].
  split; [done|]. apply list_elem_of_lookup in Ha as [k Hk].
  destruct (inv_born _ _ _ _ _ _ _ Hn _ _ Hk) as (e' & He' & Hs). rewrite He in He'. simplify_eq. by rewrite Hs.
Qed.

(** What a run of writes to one known key leaves. *)
Record rewritten (m m' : Memtable) (ck : list Z) (e : NodeEntry) (d : NodeDelta) : Prop := {
  rw_wf : memtable_wf m';
  rw_frames : frames m m' ck;
  rw_dense : by_dense m' = by_dense m;
  rw_born : born m' = born m;
  rw_interner : interner m' = interner m;
  rw_entry : ∃ e', nodes m' !! ck = Some e' ∧ n_delta e' = d ∧ n_identity e' = n_identity e;
}.

Lemma write_known o l k v r m ck e : memtable_wf m → room 2 (interner m) →
  nodes m !! ck = Some e → names_are (interner m) (n_identity e) l k v → anchored m ck r →
  rewritten m (node_write o l k v r m) ck e (delta_step (n_delta e) o).
Proof.
  intros Hm Hroom He Hnm Ha. pose proof Hm as (Hi & Hn & _).
  destruct (inv_entry _ _ _ _ _ _ _ Hn _ _ He) as (Eck & Hw & _ & _).
  pose proof (intern_node_known l k v (interner m) (n_identity e) Hi Hw Hnm) as Eid.
  assert (node_ck l k v m = ck) as Enc by (unfold node_ck; by rewrite Eid).
  assert (resolves m ck r) as Hr by (apply anchored_resolves; [done..|by rewrite He]).
  assert (Value.wf v) as Hv by (destruct Hw as (_ & _ & ?), Hnm as (_ & _ & <-); done).
  assert (interner (node_write o l k v r m) = interner m) as Ei by by rewrite node_write_interner, Eid.
  pose proof (node_write_ok o l k v r m Hm Hroom Hv) as Hok. rewrite Enc in Hok.
  destruct (Hok Hr) as [[Hm' Hf] Hh]. destruct (node_write_index o l k v r m e) as [Ed Eb]; [done|by rewrite Enc..|].
  split; try done. destruct Hh as [(_ & _ & Hno & _)|(e' & He' & Hd & Hv' & Hl & Hk)]; [congruence|].
  exists e'. split_and!; [done|unfold delta_at in Hd; by rewrite He in Hd|].
  destruct Hm' as (Hi' & Hn' & _). destruct (inv_entry _ _ _ _ _ _ _ Hn' _ _ He') as (_ & Hw' & _ & _).
  eapply (names_unique (interner m)); [done..| |done]. rewrite Ei in Hl, Hk. by split_and!.
Qed.

Lemma rewritten_trans m1 m2 m3 ck e e2 d d3 : rewritten m1 m2 ck e d → nodes m2 !! ck = Some e2 →
  n_identity e2 = n_identity e → rewritten m2 m3 ck e2 d3 → rewritten m1 m3 ck e d3.
Proof.
  intros [A1 A2 A3 A4 A5 A6] He Hid [B1 B2 B3 B4 B5 (e' & B6 & B7 & B8)].
  split; [done|by eapply frames_trans|congruence..|]. exists e'. split_and!; [done..|congruence].
Qed.

Lemma writes_known ops l k v r m ck e : memtable_wf m → room 2 (interner m) →
  nodes m !! ck = Some e → names_are (interner m) (n_identity e) l k v → anchored m ck r →
  rewritten m (foldl (λ m o, node_write o l k v r m) m ops) ck e (foldl delta_step (n_delta e) ops).
Proof.
  revert m e. induction ops as [|o ops IH]; intros m e Hm Hroom He Hnm Ha; cbn [foldl].
  { split; try done; [split; try done; by unfold Interner.extends|by exists e]. }
  pose proof (write_known o l k v r m ck e Hm Hroom He Hnm Ha) as Hw.
  destruct (rw_entry _ _ _ _ _ Hw) as (e' & He' & Hd & Hid).
  eapply rewritten_trans; [done..|]. rewrite <-Hd. apply IH; [apply Hw|..].
  - by rewrite (rw_interner _ _ _ _ _ Hw).
  - done.
  - by rewrite (rw_interner _ _ _ _ _ Hw), Hid.
  - unfold anchored. by rewrite (rw_dense _ _ _ _ _ Hw), (rw_born _ _ _ _ _ Hw).
Qed.

(** [replay_folded_node] issues the operations of [replay_ops]. *)
Lemma replay_is_writes m f r : replay_folded_node m f r =
  foldl (λ m o, node_write o (fn_label f) (fn_key f) (fn_value f) r m) m (replay_ops (fn_delta f)).
Proof.
  unfold replay_folded_node, replay_ops. destruct (tombstoned (fn_delta f)); [done|]. rewrite foldl_app.
  destruct (replaced (fn_delta f)), (bool_decide (removed (fn_delta f) = ∅)),
    (bool_decide (labels_added (fn_delta f) = ∅)), (bool_decide (labels_removed (fn_delta f) = ∅));
    cbn [foldl node_write andb]; reflexivity.
Qed.
End writes.

(** * The rebuilt node stores *)

Definition names_of (i : Interner) (e : NodeEntry) (f : FoldedNode) : Prop :=
  names_are i (n_identity e) (fn_label f) (fn_key f) (fn_value f).

(** The memtable after replaying the folded nodes [done], [nb] of them born. *)
Record built (base ebase : Z) (m : Memtable) (done : list FoldedNode) (nb : Z) : Prop := {
  b_wf : memtable_wf m;
  b_base : Memtable.synthetic_base m = base;
  b_edges : same_edges (with_bases base ebase) m;
  b_held : ∀ f, f ∈ done → ∃ ck e, by_dense m !! fn_dense f = Some ck ∧ nodes m !! ck = Some e ∧
    n_delta e = fn_delta f ∧ names_of (interner m) e f;
  b_only : ∀ d ck, by_dense m !! d = Some ck → ∃ f, f ∈ done ∧ fn_dense f = d;
  b_born : zlen (born m) = nb;
  b_names : zlen (int_names (interner m)) <= 2 * zlen done;
}.

(** A folded node that can be replayed next. *)
Record next_fold (done : list FoldedNode) (f : FoldedNode) : Prop := {
  nf_delta : delta_wf (fn_delta f);
  nf_value : Value.wf (fn_value f);
  nf_name : ∀ g, g ∈ done → fn_name g ≠ fn_name f;
  nf_dense : ∀ g, g ∈ done → fn_dense g ≠ fn_dense f;
  nf_room : 2 * (zlen done + 2) <= 2 ^ 32;
}.

Section replay.
Context {layout : Layout} (base ebase : Z).
Local Abbreviation built := (built base ebase).
Local Abbreviation ck_of f m := (node_ck (fn_label f) (fn_key f) (fn_value f) m).

Lemma built_room m done nb f : built m done nb → next_fold done f → room 2 (interner m).
Proof using. intros Hb Hf. pose proof (b_names _ _ _ _ _ Hb). pose proof (nf_room _ _ Hf). unfold room. lia. Qed.

Lemma intern_node_names l k v i :
  zlen (int_names (intern_node_identity l k v i).2) <= zlen (int_names i) + 2.
Proof using.
  unfold intern_node_identity.
  destruct (Interner.intern l i) as [a i1] eqn:E1. destruct (Interner.intern k i1) as [b i2] eqn:E2. cbn.
  pose proof (intern_names l i). pose proof (intern_names k i1). rewrite E1 in *. rewrite E2 in *. cbn in *. lia.
Qed.
(** The key of a new name is new. *)
Lemma fresh_key m done nb f : built m done nb → next_fold done f → nodes m !! ck_of f m = None.
Proof using.
  intros Hb Hf. pose proof (b_wf _ _ _ _ _ Hb) as (Hi & Hn & _). unfold node_ck.
  destruct (intern_node_identity _ _ _ (interner m)) as [id i] eqn:E. cbn.
  destruct (intern_node_ok _ _ _ _ id i 0 Hi (built_room _ _ _ _ Hb Hf) ltac:(lia) (nf_value _ _ Hf) E)
    as (Hwi & Hx & _ & Hid & _ & Hv & Hl & Hk).
  apply eq_None_not_Some. intros [e He].
  destruct (inv_dense_total _ _ _ _ _ _ _ Hn (NodeIdentity.canonical_key id)) as [d Hd]; [by rewrite He|].
  destruct (b_only _ _ _ _ _ Hb d _ Hd) as (g & Hg & Egd).
  destruct (b_held _ _ _ _ _ Hb g Hg) as (ck & e' & Hck & He' & _ & Hnm).
  rewrite Egd, Hd in Hck. simplify_eq. unfold names_of in Hnm. rewrite (existing_identity m id e Hn Hid He) in Hnm.
  eapply names_extend in Hnm as (Nl & Nk & Nv); [|done]. apply (nf_name _ _ Hf g Hg). unfold fn_name. congruence.
Qed.

(** The first write of a fold registers the key; the rest of the fold follows. *)
Lemma built_step m m1 done nb nb' f r ops d1 : built m done nb → next_fold done f →
  memtable_wf m1 → frames m m1 (ck_of f m) → interner m1 = (intern_node_identity (fn_label f) (fn_key f) (fn_value f) (interner m)).2 →
  by_dense m1 = <[fn_dense f := ck_of f m]> (by_dense m) → zlen (born m1) = nb' →
  anchored m1 (ck_of f m) r → holds m1 (fn_label f) (fn_key f) (fn_value f) (ck_of f m) d1 →
  foldl delta_step d1 ops = fn_delta f →
  built (foldl (λ m o, node_write o (fn_label f) (fn_key f) (fn_value f) r m) m1 ops) (done ++ [f]) nb'.
Proof using.
  intros Hb Hf Hm1 Hfr Hi1 Hbd Hborn Ha (e & He & Hd & Hv & Hl & Hk) Hops.
  pose proof (intern_node_names (fn_label f) (fn_key f) (fn_value f) (interner m)) as Hgrow.
  rewrite <-Hi1 in Hgrow. pose proof (b_names _ _ _ _ _ Hb). pose proof (nf_room _ _ Hf).
  assert (room 2 (interner m1)) as Hroom by (unfold room; lia).
  assert (names_of (interner m1) e f) as Hnm by by split_and!.
  pose proof (writes_known ops _ _ _ r m1 _ e Hm1 Hroom He Hnm Ha) as Hw.
  rewrite Hd, Hops in Hw. destruct Hw as [Hm2 Hfr2 Hbd2 Hborn2 Hi2 (e2 & He2 & Hd2 & Hid2)].
  set (m2 := foldl _ m1 ops) in *. pose proof (frames_trans _ _ _ _ Hfr Hfr2) as Hfr3.
  split; [done|rewrite (frame_base _ _ _ Hfr3); apply Hb| | | |congruence|].
  - destruct (b_edges _ _ _ _ _ Hb) as (A1&A2&A3&A4&A5&A6), (frame_edges _ _ _ Hfr3) as (B1&B2&B3&B4&B5&B6).
    split_and!; congruence.
  - intros g [Hg|Hg%list_elem_of_singleton]%elem_of_app.
    + destruct (b_held _ _ _ _ _ Hb g Hg) as (ck & eg & Hck & Heg & Hdg & Hng). exists ck, eg.
      split_and!; [by apply (frame_dense _ _ _ Hfr3)| |done|by eapply names_extend; [apply Hfr3|]].
      rewrite (frame_nodes _ _ _ Hfr3); [done|]. intros ->. by rewrite (fresh_key _ _ _ _ Hb Hf) in Heg.
    + subst g. exists (ck_of f m), e2. rewrite Hbd2, Hbd, lookup_insert_eq. split_and!; try done.
      unfold names_of. by rewrite Hid2, Hi2.
  - intros d ck. rewrite Hbd2, Hbd. intros [[<- <-]|[Hne Hck]]%lookup_insert_Some.
    + exists f. split; [apply elem_of_app; right; by apply list_elem_of_singleton|done].
    + destruct (b_only _ _ _ _ _ Hb d ck Hck) as (g & Hg & <-). exists g. split; [apply elem_of_app; by left|done].
  - rewrite Hi2, zlen_app. change (zlen [f]) with 1. lia.
Qed.

Lemma node_write_dense o l k v d m : 
  by_dense (node_write o l k v (Some d) m) = <[d := node_ck l k v m]> (by_dense m) ∧
  born (node_write o l k v (Some d) m) = born m.
Proof using.
  assert (∀ ck f m n, by_dense (charge (update_delta ck f m) n) = by_dense m ∧
    born (charge (update_delta ck f m) n) = born m) as Hu.
  { intros ck f m' n. unfold update_delta. by destruct (nodes m' !! ck). }
  assert (∀ ck m', touch_node_entry l k v (Some d) m = (ck, m') →
    by_dense m' = <[d := node_ck l k v m]> (by_dense m) ∧ born m' = born m) as Ht.
  { intros ck m' E. assert (m' = (touch_node_entry l k v (Some d) m).2) as -> by by rewrite E.
    unfold node_ck, touch_node_entry. destruct (intern_node_identity l k v (interner m)) as [id i]. cbn.
    repeat case_match; simplify_eq/=; done. }
  destruct o; cbn; unfold upsert_node, remove_node_props, replace_node, set_node_labels;
    try (destruct (touch_node_entry l k v (Some d) m) as [ck m'] eqn:E;
         rewrite (proj1 (Hu _ _ _ _)), (proj2 (Hu _ _ _ _)); by eapply Ht).
  unfold delete_node, node_ck. destruct (intern_node_identity l k v (interner m)) as [id i]. cbn.
  repeat case_match; simplify_eq/=; done.
Qed.

Lemma replay_ops_cons d : ∃ o ops, replay_ops d = o :: ops.
Proof using. unfold replay_ops. destruct (tombstoned d); [eauto|]. destruct (replaced d); cbn; eauto. Qed.

Lemma step_core m done nb f : built m done nb → next_fold done f → fn_dense f < base →
  built (replay_core_node m f) (done ++ [f]) nb.
Proof using.
  intros Hb Hf Hlt. unfold replay_core_node. rewrite replay_is_writes.
  pose proof (replay_ops_spec _ (nf_delta _ _ Hf)) as Hops.
  destruct (replay_ops_cons (fn_delta f)) as (o & ops & E). rewrite E in *. cbn [foldl] in *.
  pose proof (fresh_key _ _ _ _ Hb Hf) as Hfresh.
  destruct (node_write_ok o (fn_label f) (fn_key f) (fn_value f) (Some (fn_dense f)) m) as [[Hm1 Hfr] Hh];
    [apply Hb|by eapply built_room|apply Hf| |].
  { unfold resolves. rewrite Hfresh. intros d [= <-]. split; [|by rewrite (b_base _ _ _ _ _ Hb)].
    apply eq_None_not_Some. intros [ck Hck]. destruct (b_only _ _ _ _ _ Hb _ _ Hck) as (g & Hg & Eg).
    by apply (nf_dense _ _ Hf g Hg). }
  destruct Hh as [(_ & ? & _)|Hh]; [done|]. unfold delta_at in Hh. rewrite Hfresh in Hh.
  destruct (node_write_dense o (fn_label f) (fn_key f) (fn_value f) (fn_dense f) m) as [Ed Eb].
  eapply built_step; try done; [apply node_write_interner|rewrite Eb; apply Hb|].
  unfold anchored. by rewrite Ed, lookup_insert_eq.
Qed.

Lemma step_born m done nb f : built m done nb → next_fold done f → fn_dense f = base + nb →
  built (replay_born_node m f) (done ++ [f]) (nb + 1).
Proof using.
  intros Hb Hf Hd. unfold replay_born_node. rewrite replay_is_writes.
  pose proof (fresh_key _ _ _ _ Hb Hf) as Hfresh.
  set (m1 := upsert_node (fn_label f) (fn_key f) (fn_value f) None [] m).
  destruct (node_write_ok (OpSet []) (fn_label f) (fn_key f) (fn_value f) None m) as [[Hm1 Hfr] Hh];
    [apply Hb|by eapply built_room|apply Hf| |].
  { unfold resolves. rewrite Hfresh. done. }
  destruct Hh as [(? & _)|Hh]; [done|]. unfold delta_at in Hh. rewrite Hfresh in Hh. cbn [node_write] in *. fold m1 in Hm1, Hfr, Hh.
  assert (interner m1 = (intern_node_identity (fn_label f) (fn_key f) (fn_value f) (interner m)).2) as Ei
    by apply (node_write_interner (OpSet [])).
  assert (by_dense m1 = <[fn_dense f := ck_of f m]> (by_dense m) ∧ born m1 = born m ++ [ck_of f m]) as [Ed Eb].
  { assert (next_synthetic m = fn_dense f) as En
      by (unfold next_synthetic; by rewrite (b_base _ _ _ _ _ Hb), (b_born _ _ _ _ _ Hb)).
    unfold m1, upsert_node. unfold node_ck in *.
    destruct (intern_node_identity _ _ _ (interner m)) as [id i] eqn:E. cbn in Hfresh.
    rewrite (touch_born _ _ _ _ id i E Hfresh). unfold update_delta. cbn.
    rewrite lookup_insert_eq. cbn. by rewrite En. }
  eapply built_step; try done.
  - rewrite Eb, zlen_app, (b_born _ _ _ _ _ Hb). done.
  - unfold anchored. rewrite Eb. apply elem_of_app. right. by apply list_elem_of_singleton.
  - cbn. apply replay_ops_spec, Hf.
Qed.

(** The folded nodes of a run: well-formed, no name and no id twice, and not too many. *)
Record replayable (fs : list FoldedNode) : Prop := {
  ra_delta : Forall (λ f, delta_wf (fn_delta f) ∧ Value.wf (fn_value f)) fs;
  ra_names : NoDup (map fn_name fs);
  ra_dense : NoDup (map fn_dense fs);
  ra_room : 2 * (zlen fs + 2) <= 2 ^ 32;
}.

Lemma replayable_next done f l : replayable (done ++ f :: l) → next_fold done f.
Proof using.
  intros [H1 H2 H3 H4]. rewrite Forall_app, Forall_cons in H1. destruct H1 as (_ & [Hd Hv] & _).
  rewrite map_app in H2. rewrite map_app in H3. cbn [map] in H2, H3. rewrite NoDup_app in H2. rewrite NoDup_app in H3.
  destruct H2 as (_ & H2 & _), H3 as (_ & H3 & _). split; try done.
  - intros g Hg E. apply (H2 (fn_name g)); [by apply list_elem_of_fmap_2|]. rewrite E. left.
  - intros g Hg E. apply (H3 (fn_dense g)); [by apply list_elem_of_fmap_2|]. rewrite E. left.
  - rewrite zlen_app, zlen_cons in H4. pose proof (zlen_nonneg l). lia.
Qed.

Lemma replay_core_nodes l m done nb : built m done nb → replayable (done ++ l) →
  Forall (λ f, fn_dense f < base) l → built (foldl replay_core_node m l) (done ++ l) nb.
Proof using.
  revert m done. induction l as [|f l IH]; intros m done Hb Hra Hl; cbn [foldl]; [by rewrite app_nil_r|].
  inversion Hl; subst. rewrite cons_middle, app_assoc. apply IH; [|by rewrite <-app_assoc|done].
  apply step_core; [done|by eapply replayable_next|done].
Qed.

Lemma replay_born_nodes l m done nb : built m done nb → replayable (done ++ l) →
  (∀ k f, l !! k = Some f → fn_dense f = base + nb + Z.of_nat k) →
  built (foldl replay_born_node m l) (done ++ l) (nb + zlen l).
Proof using.
  revert m done nb. induction l as [|f l IH]; intros m done nb Hb Hra Hl; cbn [foldl].
  { rewrite app_nil_r. by replace (nb + zlen []) with nb by (unfold zlen; cbn; lia). }
  rewrite cons_middle, app_assoc, zlen_cons. replace (nb + (zlen l + 1)) with (nb + 1 + zlen l) by lia.
  apply IH; [|by rewrite <-app_assoc|].
  - apply step_born; [done|by eapply replayable_next|]. rewrite (Hl 0%nat f eq_refl). lia.
  - intros k g Hg. rewrite (Hl (S k) g Hg). lia.
Qed.

Lemma built_empty : built (with_bases base ebase) [] 0.
Proof using.
  split; cbn; try done; [apply with_bases_wf|intros f Hf; by apply not_elem_of_nil in Hf].
Qed.
End replay.

(** * The folded nodes of a run, in replay order *)

Lemma sorted_tiles (l : list Z) base n k d : StronglySorted Z.lt l →
  (∀ x, x ∈ l ↔ base <= x < base + n) → l !! k = Some d → d = base + Z.of_nat k.
Proof.
  revert base n k. induction l as [|x l IH]; intros base n k Hs Hin Hk; [done|].
  inversion Hs as [|? ? Hs' Hall]; subst. rewrite Forall_forall in Hall.
  assert (x = base) as ->.
  { pose proof (proj1 (Hin x) ltac:(left)) as Hx.
    assert (base ∈ x :: l) as [?|Hb]%elem_of_cons by (apply Hin; lia); [done|]. specialize (Hall _ Hb). lia. }
  destruct k as [|k]; [injection Hk as <-; lia|]. rewrite (IH (base + 1) (n - 1) k Hs'); [lia| |done].
  intros y. split.
  - intros Hy. specialize (Hall y Hy). pose proof (proj1 (Hin y) ltac:(by right)). lia.
  - intros Hy. assert (y ∈ base :: l) as [?|?]%elem_of_cons by (apply Hin; lia); [lia|done].
Qed.

Lemma nodup_map_finer {A B C} (g : A → B) (h : A → C) (l : list A) : NoDup (map g l) →
  (∀ x y, x ∈ l → y ∈ l → h x = h y → g x = g y) → NoDup (map h l).
Proof.
  induction l as [|x l IH]; intros Hnd Hf; cbn in *; [constructor|].
  apply NoDup_cons in Hnd as [Hni Hnd]. apply NoDup_cons. split; [|apply IH; [done|]].
  - intros (y & Ey & Hy)%list_elem_of_fmap. apply Hni. rewrite (Hf x y); [|left|by right|done].
    by apply list_elem_of_fmap_2.
  - intros y z Hy Hz. apply Hf; by right.
Qed.

Lemma nodup_map_filter {A B} (h : A → B) (P : A → Prop) `{∀ x, Decision (P x)} (l : list A) :
  NoDup (map h l) → NoDup (map h (filter P l)).
Proof.
  induction l as [|x l IH]; intros Hnd; [done|]. apply NoDup_cons in Hnd as [Hni Hnd].
  rewrite filter_cons. destruct (decide (P x)); [|by apply IH]. apply NoDup_cons. split; [|by apply IH].
  intros (y & Ey & Hy)%list_elem_of_fmap. apply list_elem_of_filter in Hy as [_ Hy].
  apply Hni. rewrite Ey. by apply list_elem_of_fmap_2.
Qed.

Lemma sort_by_key_perm {A} (key : A → Z) l : sort_by_key key l ≡ₚ l.
Proof. apply merge_sort_Permutation. Qed.

(** Sorting distinct keys sorts them strictly. *)
Lemma sort_by_key_strict {A} (key : A → Z) l : NoDup (map key l) →
  StronglySorted Z.lt (map key (sort_by_key key l)).
Proof.
  intros Hnd. assert (NoDup (map key (sort_by_key key l))) as Hnd'
    by by rewrite (Permutation_map key (sort_by_key_perm key l)).
  assert (StronglySorted (key_le key) (sort_by_key key l)) as Hs.
  { apply Sorted_StronglySorted; [intros x y z; unfold key_le; lia|].
    assert (Total (key_le key)) by (intros x y; unfold key_le; lia). apply Sorted_merge_sort, _. }
  induction Hs as [|x s Hs IH Hall]; cbn in *; [constructor|]. apply NoDup_cons in Hnd' as [Hni Hnd'].
  constructor; [by apply IH|]. apply Forall_map. rewrite Forall_forall in *. intros y Hy.
  specialize (Hall y Hy). unfold key_le in Hall. cbn.
  assert (key x ≠ key y); [|lia]. intros E. apply Hni. rewrite E. by apply list_elem_of_fmap_2.
Qed.

(** The synthetic space of each level starts where the next older one ends. *)
Fixpoint tiled (base : Memtable → Z) (count : Memtable → Z) (ms : list Memtable) : Prop :=
  match ms with
  | newer :: ((older :: _) as rest) => base newer = base older + count older ∧ tiled base count rest
  | _ => True
  end.

Lemma dense_top m d : nodes_ok m → is_Some (by_dense m !! d) → d < Memtable.synthetic_base m + Memtable.born_count m.
Proof. intros Hn [ck Hck]. by destruct (inv_dense _ _ _ _ _ _ _ Hn _ _ Hck). Qed.

Lemma dense_born m d : nodes_ok m →
  Memtable.synthetic_base m <= d < Memtable.synthetic_base m + Memtable.born_count m → is_Some (by_dense m !! d).
Proof.
  intros Hn Hd. unfold Memtable.born_count, zlen in Hd.
  destruct (lookup_lt_is_Some_2 (born m) (Z.to_nat (d - Memtable.synthetic_base m))) as [ck Hck]; [lia|].
  destruct (inv_born _ _ _ _ _ _ _ Hn _ _ Hck) as (e & He & Hs).
  destruct (inv_synthetic _ _ _ _ _ _ _ Hn _ _ _ He Hs) as [_ Hb].
  replace (Memtable.synthetic_base m + Z.of_nat (Z.to_nat (d - Memtable.synthetic_base m))) with d in Hb by lia.
  by exists ck.
Qed.

(** Tiled levels own every id from the oldest base up to the end of the newest. *)
Lemma tiled_range (base count : Memtable → Z) (owns : Memtable → Z → Prop) ms oldest :
  last ms = Some oldest → tiled base count ms →
  (∀ m, m ∈ ms → 0 <= count m ∧ ∀ d, (owns m d → d < base m + count m) ∧
     (base m <= d < base m + count m → owns m d)) →
  ∃ n, 0 <= n ∧ (∀ m, head ms = Some m → base m + count m = base oldest + n) ∧
    (∀ m, m ∈ ms → base oldest <= base m) ∧
    ∀ d, base oldest <= d → (∃ m, m ∈ ms ∧ owns m d) ↔ d < base oldest + n.
Proof.
  induction ms as [|m ms IH]; intros Hl Ht Hw; [done|].
  destruct (Hw m ltac:(left)) as [H0 Hm]. destruct ms as [|m2 ms].
  { injection Hl as <-. exists (count m). split_and!; [done|by intros ? [= <-]| |].
    - by intros x ->%list_elem_of_singleton.
    - intros d Hd. split.
      + intros (x & ->%list_elem_of_singleton & Hx). by apply Hm.
      + intros Hd'. exists m. split; [left|]. by apply Hm. }
  destruct Ht as [Eb Ht]. destruct (IH Hl Ht) as (n & Hn0 & Htop & Hge & Hiff); [intros x Hx; apply Hw; by right|].
  specialize (Htop m2 eq_refl). exists (n + count m). split_and!; [lia|intros ? [= <-]; lia| |].
  { intros x [->|Hx]%elem_of_cons; [lia|by apply Hge]. }
  intros d Hd. destruct (Hiff d Hd) as [H1 H2]. split.
  - intros (x & [->|Hx]%elem_of_cons & Hs); [apply Hm in Hs; lia|].
    assert (d < base oldest + n) by (apply H1; eauto). lia.
  - intros Hd'. destruct (decide (d < base oldest + n)) as [Hlt|Hnlt].
    + destruct (H2 Hlt) as (x & Hx & Hs). exists x. split; [by right|done].
    + exists m. split; [left|]. apply Hm. lia.
Qed.

Lemma tiled_ids ms oldest : last ms = Some oldest → (∀ m, m ∈ ms → memtable_wf m) →
  tiled Memtable.synthetic_base Memtable.born_count ms →
  ∃ n, 0 <= n ∧ ∀ d, Memtable.synthetic_base oldest <= d →
    (∃ m, m ∈ ms ∧ is_Some (by_dense m !! d)) ↔ d < Memtable.synthetic_base oldest + n.
Proof.
  intros Hl Hw Ht. destruct (tiled_range _ _ (λ m d, is_Some (by_dense m !! d)) ms oldest Hl Ht) as (n & Hn & _ & _ & H);
    [|by exists n].
  intros m Hm. destruct (Hw m Hm) as (_ & Hok & _). split; [apply zlen_nonneg|]. intros d.
  split; [by apply dense_top|by apply dense_born].
Qed.

Lemma length_omap_le {A B} (f : A → option B) (l : list A) : (length (omap f l) <= length l)%nat.
Proof. induction l as [|a l IH]; cbn; [done|]. destruct (f a); cbn; lia. Qed.

Definition total (count : Memtable → Z) (ms : list Memtable) : Z := foldr (λ m n, count m + n) 0 ms.

Lemma total_rev count ms : total count (rev ms) = total count ms.
Proof.
  assert (∀ a b, total count (a ++ b) = total count a + total count b) as Happ.
  { induction a as [|x a IH]; intros b; cbn; [done|]. fold (total count (a ++ b)). rewrite IH. unfold total. lia. }
  induction ms as [|m ms IH]; [done|]. cbn [rev]. rewrite Happ, IH. unfold total. cbn. lia.
Qed.

(** Every dense id names an entry of its own. *)
Lemma dense_count m : memtable_wf m → Z.of_nat (length (map_to_list (by_dense m))) <= Memtable.node_delta_count m.
Proof.
  intros (_ & Hn & _). unfold Memtable.node_delta_count. apply inj_le.
  rewrite <-(length_fmap snd (map_to_list (by_dense m))), <-size_dom.
  assert (∀ l : list (Z * list Z), (∀ p, p ∈ l → by_dense m !! p.1 = Some p.2) → NoDup l → NoDup l.*2) as Hnd.
  { induction l as [|[d ck] l IH]; intros Hl Hnd; [constructor|]. apply NoDup_cons in Hnd as [Hni Hnd].
    apply NoDup_cons. split; [|apply IH; [intros p Hp; apply Hl; by right|done]].
    intros ([d' ck'] & Ec & Hp)%list_elem_of_fmap. cbn in Ec. subst ck'. apply Hni.
    by rewrite (inv_dense_unique _ _ _ _ _ _ _ Hn d d' ck (Hl (d, ck) ltac:(left)) (Hl (d', ck) ltac:(by right))). }
  rewrite <-(size_list_to_set (C := gset (list Z)) (map_to_list (by_dense m)).*2).
  - apply subseteq_size. intros ck ([d c] & -> & Hp)%elem_of_list_to_set%list_elem_of_fmap.
    apply elem_of_map_to_list in Hp. apply elem_of_dom. cbn. by destruct (inv_dense _ _ _ _ _ _ _ Hn _ _ Hp).
  - apply Hnd; [|apply NoDup_map_to_list]. intros [d c] Hp. by apply elem_of_map_to_list in Hp.
Qed.

Section rebuilt.
Context {layout : Layout} {order : HashWalk} (ms : list Memtable) (oldest : Memtable).
Context (Hrun : nodes_run ms) (Hlast : last ms = Some oldest).
Context (Htiled : tiled Memtable.synthetic_base Memtable.born_count ms).
Context (Hroom : 2 * (total Memtable.node_delta_count ms + 2) <= 2 ^ 32).

Definition folded_nodes : list FoldedNode := (walk (fold_levels ms).1).*2.

Lemma elem_of_folded f : f ∈ folded_nodes ↔ ∃ k, (fold_levels ms).1 !! k = Some f.
Proof using.
  unfold folded_nodes. rewrite list_elem_of_fmap. split.
  - intros ([k g] & -> & H%elem_of_walk). by exists k.
  - intros [k H]. exists (k, f). split; [done|by apply elem_of_walk].
Qed.

Lemma folded_is_fold f : f ∈ folded_nodes → is_fold ms f.
Proof using Hrun. intros [k Hk]%elem_of_folded. by eapply folded_node in Hk as [_ ?]. Qed.

Lemma folded_names : NoDup (map fn_name folded_nodes).
Proof using Hrun.
  apply (NoDup_fmap_1 name_key). unfold folded_nodes.
  assert (name_key <$> map fn_name (walk (fold_levels ms).1).*2 = (walk (fold_levels ms).1).*1) as ->; [|apply walk_keys].
  assert (∀ p, p ∈ walk (fold_levels ms).1 → p.1 = name_key (fn_name p.2)) as Hkey.
  { intros [k f] Hp%elem_of_walk. by eapply folded_node in Hp as [-> _]. }
  revert Hkey. generalize (walk (fold_levels ms).1). induction l as [|p l IH]; intros Hkey; [done|].
  cbn. f_equal; [symmetry; apply Hkey; left|apply IH; intros q Hq; apply Hkey; by right].
Qed.

Lemma folded_dense : NoDup (map fn_dense folded_nodes).
Proof using Hrun.
  apply (nodup_map_finer fn_name); [apply folded_names|]. intros f g Hf Hg E.
  destruct (if_held ms f (folded_is_fold f Hf)) as (m & Hm & H1), (if_held ms g (folded_is_fold g Hg)) as (m' & Hm' & H2).
  by apply (run_stable ms Hrun m m' _ _ _ _ Hm Hm' H1 H2).
Qed.

(** Every dense id of a level is folded. *)
Lemma folded_total m d : m ∈ ms → is_Some (by_dense m !! d) → ∃ f, f ∈ folded_nodes ∧ fn_dense f = d.
Proof using Hrun.
  intros Hm [ck Hck]. destruct (run_wf ms Hrun m Hm) as (_ & Hn & _).
  destruct (inv_dense _ _ _ _ _ _ _ Hn _ _ Hck) as [[e He] _].
  destruct (fold_of_row ms Hrun (mkNodeRow (name_or_empty (interner m) (ni_label (n_identity e)),
    name_or_empty (interner m) (ni_key (n_identity e)), ni_value (n_identity e)) d (n_delta e))) as (f & Hf & _ & Hd & _).
  - apply elem_of_rows. exists m. unfold Memtable.node_identity_by_dense, Memtable.node_patch. cbn. rewrite Hck. cbn.
    by rewrite He.
  - exists f. split; [apply elem_of_folded; eauto|done].
Qed.

Lemma folded_range f : f ∈ folded_nodes → ∃ m, m ∈ ms ∧ is_Some (by_dense m !! fn_dense f).
Proof using Hrun.
  intros Hf. destruct (if_held ms f (folded_is_fold f Hf)) as (m & Hm & H). exists m. split; [done|].
  unfold Memtable.node_identity_by_dense in H. destruct (by_dense m !! fn_dense f); [by eexists|done].
Qed.

Lemma folded_count : zlen folded_nodes <= total Memtable.node_delta_count ms.
Proof using Hrun.
  assert (zlen (all_node_rows ms) <= total Memtable.node_delta_count ms) as Hrows.
  { rewrite <-total_rev. unfold all_node_rows.
    assert (∀ m, m ∈ rev ms → memtable_wf m) as Hw by (intros m Hm; rewrite elem_of_rev in Hm; exact (run_wf ms Hrun m Hm)).
    induction (rev ms) as [|m l IH]; [done|]. cbn [map concat]. rewrite zlen_app.
    specialize (IH ltac:(intros x Hx; apply Hw; by right)). pose proof (dense_count m (Hw m ltac:(left))) as Hc.
    assert (zlen (node_rows m) <= Z.of_nat (length (map_to_list (by_dense m))));
      [|change (total ?c (m :: l)) with (c m + total c l); lia].
    unfold node_rows, zlen. rewrite <-(Permutation_length (walk_perm (by_dense m))). apply inj_le, length_omap_le. }
  assert (map fn_dense folded_nodes ⊆+ map nr_dense (all_node_rows ms)) as Hsub.
  { apply NoDup_submseteq; [apply folded_dense|]. intros d (f & -> & Hf)%list_elem_of_fmap.
    destruct (folded_range f Hf) as (m & Hm & [ck Hck]). destruct (if_held ms f (folded_is_fold f Hf)) as (m' & Hm' & H).
    unfold Memtable.node_identity_by_dense in H. destruct (by_dense m' !! fn_dense f) as [ck'|] eqn:Hck'; [|done].
    cbn in H. destruct (nodes m' !! ck') as [e|] eqn:He; [|done].
    apply list_elem_of_fmap. exists (mkNodeRow (fn_name f) (fn_dense f) (n_delta e)). split; [done|].
    apply elem_of_rows. exists m'. unfold Memtable.node_identity_by_dense, Memtable.node_patch. cbn. rewrite Hck'. cbn.
    rewrite He. cbn in *. split_and!; done. }
  apply submseteq_length in Hsub. rewrite !length_map in Hsub. unfold zlen in *. lia.
Qed.

Lemma folded_replayable (l : list FoldedNode) : l ≡ₚ folded_nodes → replayable l.
Proof using Hrun Hroom.
  intros E. split.
  - apply Forall_forall. intros f Hf. rewrite E in Hf. destruct (folded_is_fold f Hf) as [_ _ H1 (_ & _ & H2)]. done.
  - rewrite (Permutation_map fn_name E). apply folded_names.
  - rewrite (Permutation_map fn_dense E). apply folded_dense.
  - unfold zlen. rewrite (Permutation_length E). pose proof folded_count. unfold zlen in *. lia.
Qed.
Local Abbreviation base := (Memtable.synthetic_base oldest).

Definition born_nodes : list FoldedNode :=
  sort_by_key fn_dense (filter (λ f, base <= fn_dense f) folded_nodes).
Definition core_nodes : list FoldedNode :=
  sort_by_key fn_dense (filter (λ f, fn_dense f < base) folded_nodes).

Lemma filter_lt_compl (l : list FoldedNode) :
  filter (λ f, fn_dense f < base) l = filter (λ f, ¬ base <= fn_dense f) l.
Proof using. apply list_filter_iff. intros f. lia. Qed.

Lemma replay_order_perm : born_nodes ++ core_nodes ≡ₚ folded_nodes.
Proof using.
  unfold born_nodes, core_nodes. rewrite !sort_by_key_perm, filter_lt_compl. apply filter_app_complement.
Qed.

(** The born nodes come in the order of their ids, which have no gaps. *)
Lemma born_nodes_ids k f : born_nodes !! k = Some f → fn_dense f = base + Z.of_nat k.
Proof using Hrun Hlast Htiled.
  intros Hk. destruct (tiled_ids ms oldest Hlast (run_wf ms Hrun) Htiled) as (n & Hn & Hiff).
  apply (sorted_tiles (map fn_dense born_nodes) base n k).
  - apply sort_by_key_strict, nodup_map_filter, folded_dense.
  - intros d. change (map fn_dense) with (fmap (M := list) fn_dense). rewrite list_elem_of_fmap. unfold born_nodes. setoid_rewrite sort_by_key_perm.
    setoid_rewrite list_elem_of_filter. split.
    + intros (g & -> & Hge & Hg). split; [done|]. apply Hiff; [done|]. by apply folded_range.
    + intros [Hge Hlt]. destruct (proj2 (Hiff d Hge) Hlt) as (m & Hm & Hd).
      destruct (folded_total m d Hm Hd) as (g & Hg & <-). by exists g.
  - change (map fn_dense) with (fmap (M := list) fn_dense). by rewrite list_lookup_fmap, Hk.
Qed.

Lemma nodes_rebuilt ebase :
  built base ebase (foldl replay_core_node (foldl replay_born_node (with_bases base ebase) born_nodes) core_nodes)
    (born_nodes ++ core_nodes) (zlen born_nodes).
Proof using Hrun Hlast Htiled Hroom.
  pose proof (folded_replayable _ replay_order_perm) as Hra. apply replay_core_nodes; [|done|].
  - apply (replay_born_nodes base ebase born_nodes (with_bases base ebase) [] 0); [apply built_empty| |].
    + destruct Hra as [H1 H2 H3 H4]. rewrite Forall_app in H1. rewrite map_app in H2. rewrite map_app in H3.
      rewrite NoDup_app in H2. rewrite NoDup_app in H3. rewrite zlen_app in H4.
      split; cbn [app]; [apply H1|apply H2|apply H3|pose proof (zlen_nonneg core_nodes); lia].
    + intros k f Hk. rewrite (born_nodes_ids k f Hk). lia.
  - apply Forall_forall. intros f Hf. unfold core_nodes in Hf. rewrite sort_by_key_perm in Hf.
    by apply list_elem_of_filter in Hf as [? _].
Qed.

(** What the rebuilt memtable reads for a node. *)
Lemma rebuilt_patch ebase m l nb d : built base ebase m l nb → l ≡ₚ folded_nodes →
  Memtable.node_patch d m = fold_newest (map (Memtable.node_patch d) ms).
Proof using Hrun.
  intros Hb El. destruct (by_dense m !! d) as [ck|] eqn:Hck.
  - destruct (b_only _ _ _ _ _ Hb d ck Hck) as (f & Hf & <-).
    destruct (b_held _ _ _ _ _ Hb f Hf) as (ck' & e & Hck' & He & Hd & _).
    rewrite El in Hf. rewrite (if_delta ms f (folded_is_fold f Hf)).
    unfold Memtable.node_patch. rewrite Hck'. cbn. by rewrite He, <-Hd.
  - assert (∀ m', m' ∈ ms → by_dense m' !! d = None) as Hno.
    { intros m' Hm'. apply eq_None_not_Some. intros Hs. destruct (folded_total m' d Hm' Hs) as (f & Hf & <-).
      rewrite <-El in Hf. destruct (b_held _ _ _ _ _ Hb f Hf) as (ck & _ & Hck' & _). congruence. }
    unfold Memtable.node_patch at 1. rewrite Hck. cbn. symmetry. clear -Hno.
    induction ms as [|m' l IH]; [done|]. cbn [map]. change (fold_newest (?a :: ?l)) with (DeltaSnapshot.fold_patch (fold_newest l) a).
    rewrite IH by (intros x Hx; apply Hno; by right).
    unfold Memtable.node_patch. by rewrite (Hno m' ltac:(left)).
Qed.

Lemma rebuilt_identity ebase m l nb d : built base ebase m l nb → l ≡ₚ folded_nodes →
  Memtable.node_identity_by_dense d m =
  find_map (Memtable.node_identity_by_dense d) ms.
Proof using Hrun.
  intros Hb El. destruct (find_map (Memtable.node_identity_by_dense d) ms) as [n|] eqn:Ef.
  - apply find_map_Some in Ef as (m' & Hm' & Hn).
    assert (is_Some (by_dense m' !! d)) as Hs.
    { unfold Memtable.node_identity_by_dense in Hn. destruct (by_dense m' !! d); [by eexists|done]. }
    destruct (folded_total m' d Hm' Hs) as (f & Hf & <-).
    destruct (if_held ms f (folded_is_fold f Hf)) as (m2 & Hm2 & Hn2).
    rewrite <-El in Hf. destruct (b_held _ _ _ _ _ Hb f Hf) as (ck & e & Hck & He & _ & (N1 & N2 & N3)).
    unfold Memtable.node_identity_by_dense at 1. rewrite Hck. cbn. rewrite He. cbn.
    unfold name_or_empty. rewrite N1, N2, N3. cbn. f_equal. change (fn_name f = n).
    by apply (run_stable ms Hrun m2 m' _ _ _ _ Hm2 Hm' Hn2 Hn).
  - unfold Memtable.node_identity_by_dense. destruct (by_dense m !! d) as [ck|] eqn:Hck; [|done].
    destruct (b_only _ _ _ _ _ Hb d ck Hck) as (f & Hf & <-). rewrite El in Hf.
    destruct (if_held ms f (folded_is_fold f Hf)) as (m2 & Hm2 & Hn2). exfalso.
    clear -Ef Hm2 Hn2. induction Hm2 as [x l|x y l Hm2 IH]; cbn in Ef; [by rewrite Hn2 in Ef|].
    destruct (Memtable.node_identity_by_dense _ y); [done|]. by apply IH.
Qed.
End rebuilt.
