(* ===== verification/CompactionEdges.v ===== *)
(** The edges of [merge_levels]: what the levels hold for an edge identity is folded newest
    wins, and the replay rebuilds an entry that carries the fold and the ids. *)

From stdpp Require Import sorting.
From S2P Require Import Prelude Values Wire Identity WalCodec NodeDelta DeltaFold Memtable.
From S2P Require Import MemtableInv MemtableApply Snapshot SnapshotRead Compaction CompactionFold.
From S2P Require Import CompactionReplay.

(** * Looking an edge up by name *)

Definition node_id_of (n : str * str * Value.t) (i : Interner) : option NodeIdentity :=
  l ← Interner.get n.1.1 i; k ← Interner.get n.1.2 i; Some (mkNodeIdentity l k n.2).

Definition edge_id_of (en : EdgeNames) (i : Interner) : option EdgeIdentity :=
  s ← node_id_of (en_src en) i;
  r ← Interner.get (en_reltype en) i;
  d ← node_id_of (en_dst en) i;
  match en_key en with
  | None => Some (EdgeIdentity.keyed s r d None)
  | Some (name, v) => k ← Interner.get name i; Some (EdgeIdentity.keyed s r d (Some (k, v)))
  end.

(** The entry of an edge identity in a level. *)
Definition find_edge (en : EdgeNames) (m : Memtable) : option EdgeEntry :=
  id ← edge_id_of en (interner m); edges m !! EdgeIdentity.canonical_key id.

Lemma get_name i n s : Interner.wf i → is_u32 s → Interner.name s i = Some n ↔ Interner.get n i = Some s.
Proof.
  intros Hi Hs. split; [|by intros H; apply Interner.get_range]. intros H. pose proof Hi as (_ & _ & Hm).
  unfold Interner.get. apply Hm. unfold is_u32 in Hs. split; [lia|done].
Qed.

Lemma node_id_of_spec n i id : Interner.wf i → Value.wf n.2 →
  node_id_of n i = Some id ↔ NodeIdentity.wf id ∧ names_are i id n.1.1 n.1.2 n.2.
Proof.
  intros Hi Hv. unfold node_id_of. split.
  - destruct (Interner.get n.1.1 i) as [l|] eqn:El; [|done]. destruct (Interner.get n.1.2 i) as [k|] eqn:Ek; [|done].
    intros [= <-]. destruct (Interner.get_range i _ l Hi El), (Interner.get_range i _ k Hi Ek). by split; split_and!.
  - intros [(Hl & Hk & _) (Nl & Nk & Nv)]. apply get_name in Nl; [|done..]. apply get_name in Nk; [|done..].
    rewrite Nl, Nk. cbn. destruct id; cbn in *. by rewrite Nv.
Qed.

Definition edge_value_ok (en : EdgeNames) : Prop :=
  Value.wf (en_src en).2 ∧ Value.wf (en_dst en).2 ∧
  match en_key en with Some (_, v) => Value.wf v | None => True end.

Lemma edge_id_of_spec en i id : Interner.wf i → edge_value_ok en →
  edge_id_of en i = Some id ↔ EdgeIdentity.wf id ∧ edge_names_are i id en.
Proof.
  intros Hi (Hs & Hd & Hk). unfold edge_id_of. split.
  - destruct (node_id_of (en_src en) i) as [s|] eqn:Es; [|done]. apply node_id_of_spec in Es as [Ws Ns]; [|done..].
    destruct (Interner.get (en_reltype en) i) as [r|] eqn:Er; [|done]. apply Interner.get_range in Er as [Ur Nr]; [|done].
    destruct (node_id_of (en_dst en) i) as [d|] eqn:Ed; [|done]. apply node_id_of_spec in Ed as [Wd Nd]; [|done..].
    unfold edge_names_are, EdgeIdentity.wf.
    destruct (en_key en) as [[name v]|]; cbn.
    + destruct (Interner.get name i) as [k|] eqn:Ek; [|done]. apply Interner.get_range in Ek as [Uk Nk]; [|done].
      intros [= <-]. cbn. by split_and!.
    + intros [= <-]. cbn. by split_and!.
  - unfold edge_names_are, EdgeIdentity.wf. intros [(Ws & Ur & Wd & Wk) (Ns & Nr & Nd & Nk)].
    rewrite (proj2 (node_id_of_spec (en_src en) i (ei_src id) Hi Hs)) by done. cbn.
    apply get_name in Nr; [|done..]. rewrite Nr. cbn.
    rewrite (proj2 (node_id_of_spec (en_dst en) i (ei_dst id) Hi Hd)) by done. cbn.
    destruct id as [s r d [[k v]|]], (en_key en) as [[name v']|]; cbn in *; try done.
    destruct Nk as [Nk ->], Wk as [Uk _]. apply get_name in Nk; [|done..]. by rewrite Nk.
Qed.

Lemma find_edge_spec m en e : memtable_wf m → edge_value_ok en →
  find_edge en m = Some e ↔ ∃ eck, edges m !! eck = Some e ∧ edge_names_are (interner m) (e_identity e) en.
Proof.
  intros (Hi & _ & He) Hv. unfold find_edge. split.
  - destruct (edge_id_of en (interner m)) as [id|] eqn:E; [|done]. apply edge_id_of_spec in E as [Hw Hn]; [|done..].
    cbn. intros Hck. exists (EdgeIdentity.canonical_key id). split; [done|]. by rewrite (existing_edge m id e).
  - intros (eck & Hck & Hn). destruct (inv_edge _ _ _ _ _ _ _ He _ _ Hck) as (-> & Hw & _).
    by rewrite (proj2 (edge_id_of_spec en (interner m) (e_identity e) Hi Hv)).
Qed.

(** An identity has one set of names. *)
Lemma edge_names_fun i id a b : edge_names_are i id a → edge_names_are i id b → a = b.
Proof.
  destruct a as [[[sl sk] sv] rt [[dl dk] dv] ka], b as [[[sl' sk'] sv'] rt' [[dl' dk'] dv'] kb].
  intros ((A1&A2&A3) & A4 & (A5&A6&A7) & A8) ((B1&B2&B3) & B4 & (B5&B6&B7) & B8). cbn in *.
  destruct (ei_key id) as [[s v]|], ka as [[k w]|], kb as [[k' w']|]; try done; destruct_and?; congruence.
Qed.

(** The names of an entry, as [merge_levels] reads them. *)
Definition entry_names (m : Memtable) (e : EdgeEntry) : EdgeNames :=
  let name sym := name_or_empty (interner m) sym in
  let id := e_identity e in
  mkEdgeNames (name (ni_label (ei_src id)), name (ni_key (ei_src id)), ni_value (ei_src id)) (name (ei_reltype id))
    (name (ni_label (ei_dst id)), name (ni_key (ei_dst id)), ni_value (ei_dst id))
    ((λ p, (name p.1, p.2)) <$> ei_key id).

Lemma entry_names_are m eck e : edges_ok m → edges m !! eck = Some e →
  edge_names_are (interner m) (e_identity e) (entry_names m e).
Proof.
  intros He Hck. destruct (inv_edge _ _ _ _ _ _ _ He _ _ Hck) as (_ & _ & (Ks & Kr & Kd & Kk) & _).
  assert (∀ s, is_Some (Interner.name s (interner m)) → Interner.name s (interner m) = Some (name_or_empty (interner m) s)) as Hn.
  { intros s [n E]. unfold name_or_empty. by rewrite E. }
  destruct Ks, Kd. split_and!; cbn; try (by apply Hn); [by split_and!; auto..|].
  destruct (ei_key (e_identity e)) as [[k v]|]; cbn; [|done]. split; [apply Hn, Kk|done].
Qed.

Lemma entry_names_ok m eck e : edges_ok m → Forall fits (int_names (interner m)) → edges m !! eck = Some e →
  edge_name_ok (entry_names m e).
Proof.
  intros He Hf Hck. destruct (inv_edge _ _ _ _ _ _ _ He _ _ Hck) as (_ & ((_ & _ & Vs) & _ & (_ & _ & Vd) & Wk) & _).
  unfold edge_name_ok, name_ok, entry_names. cbn. split_and!; try (by apply name_or_empty_fits); try done.
  destruct (ei_key (e_identity e)) as [[k v]|]; cbn; [|done]. split; [by apply name_or_empty_fits|by destruct Wk].
Qed.

Lemma edge_name_value_ok en : edge_name_ok en → edge_value_ok en.
Proof. intros ((_ & _ & ?) & _ & (_ & _ & ?) & Hk). split_and!; try done. destruct (en_key en) as [[? ?]|]; [by destruct Hk|done]. Qed.

(** * Folding the edges *)

Definition fe_names (f : FoldedEdge) : EdgeNames :=
  mkEdgeNames (fe_src_label f, fe_src_key f, fe_src_value f) (fe_reltype f)
    (fe_dst_label f, fe_dst_key f, fe_dst_value f) (fe_edge_key f).

Abbreviation EdgeRow := (EdgeNames * EdgeEntry)%type (only parsing).

(** The fold of a list of entries of one identity, oldest first. *)
Definition edge_fold (en : EdgeNames) (es : list EdgeEntry) : option FoldedEdge :=
  (λ e, mkFoldedEdge (en_src en).1.1 (en_src en).1.2 (en_src en).2 (en_reltype en)
          (en_dst en).1.1 (en_dst en).1.2 (en_dst en).2 (en_key en)
          (foldl EdgeDelta.fold EdgeDelta.default (map e_delta es)) (src_dense e) (dst_dense e)
          (find_map synthetic_edge es) (find_map core_edge es)) <$> last es.

Definition fold_edge_row (o : option FoldedEdge) (r : EdgeRow) : FoldedEdge :=
  let en := r.1 in let e := r.2 in
  let f := default (mkFoldedEdge (en_src en).1.1 (en_src en).1.2 (en_src en).2 (en_reltype en)
             (en_dst en).1.1 (en_dst en).1.2 (en_dst en).2 (en_key en) EdgeDelta.default
             (src_dense e) (dst_dense e) None None) o in
  mkFoldedEdge (fe_src_label f) (fe_src_key f) (fe_src_value f) (fe_reltype f)
    (fe_dst_label f) (fe_dst_key f) (fe_dst_value f) (fe_edge_key f)
    (EdgeDelta.fold (fe_delta f) (e_delta e)) (src_dense e) (dst_dense e)
    (if fe_born_edge_id f is None then synthetic_edge e else fe_born_edge_id f)
    (if fe_core_edge_id f is None then core_edge e else fe_core_edge_id f).

Lemma find_map_snoc {A B} (g : A → option B) l x :
  find_map g (l ++ [x]) = if find_map g l is None then g x else find_map g l.
Proof. induction l as [|y l IH]; cbn; [by destruct (g x)|]. by destruct (g y). Qed.

Lemma fold_edge_rows en es :
  foldl (λ o r, Some (fold_edge_row o r)) None (map (pair en) es) = edge_fold en es.
Proof.
  induction es as [|e es IH] using rev_ind; [done|].
  rewrite map_app, foldl_app. cbn [map foldl]. rewrite IH. unfold edge_fold.
  rewrite last_snoc, map_app, foldl_app, !find_map_snoc. cbn [map foldl fmap option_fmap option_map].
  destruct (last es) as [l|] eqn:El; [|by apply last_None in El; subst es]. done.
Qed.

Section edge_rows.
Context {layout : Layout} {order : HashWalk}.

Definition edge_row (seg : Memtable) (p : list Z * EdgeEntry) : EdgeRow := (entry_names seg p.2, p.2).

Definition edge_rows (seg : Memtable) : list EdgeRow := map (edge_row seg) (walk (edges seg)).

Definition all_edge_rows (ms : list Memtable) : list EdgeRow := concat (map edge_rows (rev ms)).

Lemma fold_levels_edges ms k : (fold_levels ms).2 !! k =
  foldl (λ o r, Some (fold_edge_row o r)) None (filter (λ r, edge_names_key r.1 = k) (all_edge_rows ms)).
Proof.
  unfold fold_levels. rewrite (foldl_fst (λ acc seg, foldl (fold_node seg) acc (walk (by_dense seg)))
    (λ acc seg, foldl (fold_edge seg) acc (walk (edges seg)).*2)). cbn [snd].
  rewrite <-(lookup_empty (M := gmap (list Z)) k). rewrite <-group_fold. unfold all_edge_rows. f_equal.
  rewrite <-foldl_concat. generalize (∅ : gmap (list Z) FoldedEdge).
  induction (rev ms) as [|seg segs IH]; intros acc; [done|]. cbn [foldl]. rewrite IH. f_equal.
  unfold edge_rows. rewrite <-foldl_map. change ((walk (edges seg)).*2) with (map snd (walk (edges seg))).
  by rewrite <-foldl_map.
Qed.

Lemma map_filter_comm {A B} (g : A → B) (P : B → Prop) `{∀ x, Decision (P x)} (l : list A) :
  filter P (map g l) = map g (filter (λ x, P (g x)) l).
Proof. induction l as [|x l IH]; [done|]. cbn [map]. rewrite !filter_cons, IH. by destruct (decide _). Qed.

(** The rows of one identity in a level: the entry found by name. *)
Lemma edge_rows_at seg en : memtable_wf seg → Forall fits (int_names (interner seg)) → edge_name_ok en →
  filter (λ r, edge_names_key r.1 = edge_names_key en) (edge_rows seg) =
  map (pair en) (option_list (find_edge en seg)).
Proof.
  intros Hm Hf Hen. pose proof Hm as (Hi & _ & He). pose proof (edge_name_value_ok en Hen) as Hv.
  unfold edge_rows. rewrite map_filter_comm.
  assert (∀ p, p ∈ walk (edges seg) → edge_names_key (edge_row seg p).1 = edge_names_key en ↔
    edge_names_are (interner seg) (e_identity p.2) en) as Hiff.
  { intros [eck e] Hp%elem_of_walk. cbn. pose proof (entry_names_are seg eck e He Hp) as Hn. split.
    - intros E. apply edge_names_key_inj in E; [by rewrite <-E|by eapply entry_names_ok|done].
    - intros Hn'. by rewrite (edge_names_fun _ _ _ _ Hn Hn'). }
  destruct (edge_id_of en (interner seg)) as [id|] eqn:Eid.
  - unfold find_edge. rewrite Eid. cbn. apply edge_id_of_spec in Eid as [Hw Hn]; [|done..].
    rewrite (filter_iff_elem _ (λ p, p.1 = EdgeIdentity.canonical_key id)).
    + rewrite filter_walk. destruct (edges seg !! EdgeIdentity.canonical_key id) as [e|] eqn:Hck; [|done].
      cbn. unfold edge_row. cbn. f_equal. f_equal. pose proof (entry_names_are seg _ e He Hck) as Hn'.
      rewrite (existing_edge seg id e He Hw Hck) in Hn'. by apply (edge_names_fun _ _ _ _ Hn' Hn).
    + intros [eck e] Hp. rewrite (Hiff _ Hp). apply elem_of_walk in Hp. cbn.
      destruct (inv_edge _ _ _ _ _ _ _ He _ _ Hp) as (-> & Hwe & _). split.
      * intros Hn'. by rewrite (edge_names_unique (interner seg) (e_identity e) id en Hi Hwe Hw Hn' Hn).
      * intros E. by rewrite (edge_canonical_key_inj _ _ Hwe Hw E).
  - unfold find_edge. rewrite Eid. cbn.
    destruct (filter _ (walk (edges seg))) as [|p l] eqn:E; [done|exfalso].
    assert (p ∈ p :: l) as Hp by left. rewrite <-E in Hp. apply list_elem_of_filter in Hp as [Hn Hp].
    rewrite (Hiff _ Hp) in Hn. destruct p as [eck e]. apply elem_of_walk in Hp. cbn in Hn.
    destruct (inv_edge _ _ _ _ _ _ _ He _ _ Hp) as (_ & Hwe & _).
    by rewrite (proj2 (edge_id_of_spec en (interner seg) (e_identity e) Hi Hv)) in Eid.
Qed.

Lemma folded_edge_at ms en : nodes_run ms → edge_name_ok en →
  (fold_levels ms).2 !! edge_names_key en = edge_fold en (omap (find_edge en) (rev ms)).
Proof.
  intros Hrun Hen. rewrite fold_levels_edges, <-fold_edge_rows. f_equal. unfold all_edge_rows.
  assert (∀ m, m ∈ rev ms → memtable_wf m ∧ Forall fits (int_names (interner m))) as Hw.
  { intros m Hm. rewrite elem_of_rev in Hm. split; [exact (run_wf ms Hrun m Hm)|exact (run_fits ms Hrun m Hm)]. }
  induction (rev ms) as [|m l IH]; [done|]. cbn [map concat omap list_omap]. rewrite filter_app.
  rewrite IH by (intros x Hx; apply Hw; by right). destruct (Hw m ltac:(left)).
  rewrite edge_rows_at by done. by destruct (find_edge en m).
Qed.

(** A folded edge is the fold of what the levels hold under its names. *)
Lemma folded_edge ms k f : nodes_run ms → (fold_levels ms).2 !! k = Some f →
  k = edge_names_key (fe_names f) ∧ edge_name_ok (fe_names f) ∧
  edge_fold (fe_names f) (omap (find_edge (fe_names f)) (rev ms)) = Some f.
Proof.
  intros Hrun Hk. assert (∃ en, k = edge_names_key en ∧ edge_name_ok en) as (en & -> & Hen).
  { rewrite fold_levels_edges in Hk.
    destruct (filter (λ r, edge_names_key r.1 = k) (all_edge_rows ms)) as [|r rows] eqn:E; [done|].
    assert (r ∈ r :: rows) as Hr by left. rewrite <-E in Hr. apply list_elem_of_filter in Hr as [<- Hr].
    exists r.1. split; [done|]. unfold all_edge_rows in Hr. apply elem_of_concat_map in Hr as (m & Hm & Hr).
    rewrite elem_of_rev in Hm. unfold edge_rows in Hr. apply list_elem_of_fmap in Hr as ([eck e] & -> & Hp).
    apply elem_of_walk in Hp. cbn. eapply entry_names_ok; [|exact (run_fits ms Hrun m Hm)|done].
    apply (run_wf ms Hrun m Hm). }
  rewrite folded_edge_at in Hk by done.
  assert (fe_names f = en) as ->; [|done]. unfold edge_fold in Hk.
  destruct (last _); [|done]. injection Hk as <-. unfold fe_names. cbn.
  by destruct en as [[[? ?] ?] ? [[? ?] ?] ?].
Qed.
End edge_rows.

(** * Replaying the folded edges *)

(** The entry a folded edge is rebuilt to. *)
Record edge_is (f : FoldedEdge) (e : EdgeEntry) : Prop := {
  ei_delta : e_delta e = fe_delta f;
  ei_from : src_dense e = fe_src_dense f;
  ei_to : dst_dense e = fe_dst_dense f;
  ei_born : synthetic_edge e = fe_born_edge_id f;
  ei_core : core_edge e =
    if fe_born_edge_id f is Some _ then None
    else if e_tombstoned (fe_delta f) then None else fe_core_edge_id f;
}.

Definition same_nodes (m m' : Memtable) : Prop :=
  nodes m' = nodes m ∧ by_dense m' = by_dense m ∧
  Memtable.synthetic_base m' = Memtable.synthetic_base m ∧ born m' = born m.

(** A tombstone carries nothing, and a live keyed edge carries its key. *)
Definition folded_delta_ok (f : FoldedEdge) : Prop :=
  if e_tombstoned (fe_delta f) then fe_delta f = mkEdgeDelta ∅ false true
  else match fe_edge_key f with
       | Some (k, v) => e_patches (fe_delta f) !! k = Some v
       | None => True
       end.

Lemma repatch (d : EdgeDelta) ek : e_tombstoned d = false →
  match ek with Some (k, v) => e_patches d !! k = Some v | None => True end →
  edge_patched ek (e_replaced d) (map_to_list (e_patches d)) EdgeDelta.default = d.
Proof.
  intros Ht Hk. unfold edge_patched, EdgeDelta.apply_patches. cbn.
  set (ins := λ (d : EdgeDelta) (p : list Z * Value.t), mkEdgeDelta (<[p.1 := p.2]> (e_patches d)) (e_replaced d) (e_tombstoned d)).
  assert (∀ l a, e_patches (foldl ins a l) = foldl (λ q p, <[p.1 := p.2]> q) (e_patches a) l ∧
    e_replaced (foldl ins a l) = e_replaced a ∧ e_tombstoned (foldl ins a l) = e_tombstoned a) as Hfold.
  { induction l as [|p l IH]; intros a; [done|]. cbn [foldl]. by destruct (IH (ins a p)) as (-> & -> & ->). }
  assert (∀ l q, NoDup l.*1 → (foldl (λ q p, <[p.1 := p.2]> q) q l : gmap (list Z) Value.t) = list_to_map l ∪ q) as Hins.
  { induction l as [|p l IH]; intros q Hnd; cbn [foldl];
      [change (list_to_map []) with (∅ : gmap (list Z) Value.t); by rewrite (left_id_L ∅ (∪))|].
    apply NoDup_cons in Hnd as [Hni Hnd]. rewrite IH by done. cbn [list_to_map foldr uncurry]. destruct p as [k v]. cbn in *.
    rewrite <-insert_union_l, insert_union_r; [done|]. by apply not_elem_of_list_to_map_1. }
  match goal with |- context [foldl ins ?a ?l] => set (base := a); destruct (Hfold l base) as (E1 & E2 & E3) end.
  assert (e_patches base = ∅ ∧ e_replaced base = e_replaced d ∧ e_tombstoned base = false) as (B1 & B2 & B3)
    by (unfold base; by destruct (e_replaced d)).
  rewrite Hins, list_to_map_to_list, B1, (right_id_L ∅ (∪)) in E1 by apply NoDup_fst_map_to_list.
  rewrite B2 in E2. rewrite B3 in E3. clearbody base. clear B1 B2 B3.
  destruct ek as [[k v]|].
  - rewrite E1, E2, E3, insert_id by done. destruct d; cbn in *. by rewrite Ht.
  - destruct (foldl ins base _) as [P R T]; cbn in *. destruct d; cbn in *. by subst.
Qed.

Section replay_edges.
Context {layout : Layout}.

Definition interned (f : FoldedEdge) (m : Memtable) : EdgeIdentity * Memtable :=
  intern_edge_identity (fe_src_label f) (fe_src_key f) (fe_src_value f) (fe_reltype f)
    (fe_dst_label f) (fe_dst_key f) (fe_dst_value f) (fe_edge_key f) m.

Lemma interned_shape f m : ∃ id i, interned f m = (id, set_interner m i) ∧
  zlen (int_names i) <= zlen (int_names (interner m)) + 6.
Proof.
  unfold interned, intern_edge_identity, intern_node_identity.
  destruct (Interner.intern (fe_src_label f) (interner m)) as [a1 i1] eqn:E1.
  destruct (Interner.intern (fe_src_key f) i1) as [a2 i2] eqn:E2.
  destruct (Interner.intern (fe_reltype f) i2) as [a3 i3] eqn:E3.
  destruct (Interner.intern (fe_dst_label f) i3) as [a4 i4] eqn:E4.
  destruct (Interner.intern (fe_dst_key f) i4) as [a5 i5] eqn:E5.
  pose proof (intern_names (fe_src_label f) (interner m)) as L1. rewrite E1 in L1. cbn in L1.
  pose proof (intern_names (fe_src_key f) i1) as L2. rewrite E2 in L2. cbn in L2.
  pose proof (intern_names (fe_reltype f) i2) as L3. rewrite E3 in L3. cbn in L3.
  pose proof (intern_names (fe_dst_label f) i3) as L4. rewrite E4 in L4. cbn in L4.
  pose proof (intern_names (fe_dst_key f) i4) as L5. rewrite E5 in L5. cbn in L5.
  destruct (fe_edge_key f) as [[n v]|]; [|eexists _, _; split; [done|lia]].
  destruct (Interner.intern n i5) as [a6 i6] eqn:E6.
  pose proof (intern_names n i5) as L6. rewrite E6 in L6. cbn in L6. eexists _, _. split; [done|lia].
Qed.

Lemma interned_known f m id : Interner.wf (interner m) → EdgeIdentity.wf id →
  edge_names_are (interner m) id (fe_names f) → interned f m = (id, set_interner m (interner m)).
Proof.
  intros Hi (Ws & Ur & Wd & Wk) (Ns & Nr & Nd & Nk). unfold interned, intern_edge_identity. cbn in Ns, Nr, Nd, Nk.
  rewrite (intern_node_known _ _ _ _ (ei_src id)) by done.
  rewrite (intern_known _ (ei_reltype id)); [|done|unfold is_u32 in Ur; lia|done].
  rewrite (intern_node_known _ _ _ _ (ei_dst id)) by done.
  destruct id as [s r d [[k v]|]], (fe_edge_key f) as [[n v']|]; cbn in *; try done.
  destruct Nk as [Nk ->], Wk as [Uk _]. rewrite (intern_known _ k); [done|done|unfold is_u32 in Uk; lia|done].
Qed.

(** The three ways an identity new to the memtable is written. *)
Lemma upsert_edge_new f rp ps m id i : interned f m = (id, set_interner m i) →
  edges m !! EdgeIdentity.canonical_key id = None →
  let eck := EdgeIdentity.canonical_key id in
  let m' := upsert_edge_keyed (fe_src_label f) (fe_src_key f) (fe_src_value f) (fe_reltype f)
    (fe_dst_label f) (fe_dst_key f) (fe_dst_value f) (Some (fe_src_dense f)) (Some (fe_dst_dense f))
    (fe_edge_key f) rp ps m in
  interner m' = i ∧ same_nodes m m' ∧ Memtable.edge_synthetic_base m' = Memtable.edge_synthetic_base m ∧
  born_edges m' = born_edges m ++ [eck] ∧
  edges m' = <[eck := mkEdgeEntry id (fe_src_dense f) (fe_dst_dense f)
    (Some (Memtable.edge_synthetic_base m + zlen (born_edges m))) None
    (edge_patched (fe_edge_key f) rp ps EdgeDelta.default)]> (edges m).
Proof.
  intros E Hck. unfold interned in E. unfold upsert_edge_keyed, endpoint_dense_or_create. cbv beta iota. rewrite E.
  cbn in Hck |- *. settle Hck. unfold patch_edge. cbn. rewrite lookup_insert_eq. cbn. rewrite insert_insert_eq. done.
Qed.

Lemma delete_edge_new f m id i : interned f m = (id, set_interner m i) →
  edges m !! EdgeIdentity.canonical_key id = None →
  let eck := EdgeIdentity.canonical_key id in
  let m' := delete_folded_edge f m in
  interner m' = i ∧ same_nodes m m' ∧ Memtable.edge_synthetic_base m' = Memtable.edge_synthetic_base m ∧
  born_edges m' = born_edges m ∧
  edges m' = <[eck := mkEdgeEntry id (fe_src_dense f) (fe_dst_dense f) None None
    (mkEdgeDelta ∅ false true)]> (edges m).
Proof.
  intros E Hck. unfold interned in E. unfold delete_folded_edge, delete_edge_keyed, born_endpoint_dense. cbv beta iota.
  rewrite E. cbn in Hck |- *. settle Hck. done.
Qed.

Lemma delete_edge_born f m id i e : interned f m = (id, set_interner m i) →
  edges m !! EdgeIdentity.canonical_key id = Some e → core_edge e = None →
  let eck := EdgeIdentity.canonical_key id in
  let m' := delete_folded_edge f m in
  interner m' = i ∧ same_nodes m m' ∧ Memtable.edge_synthetic_base m' = Memtable.edge_synthetic_base m ∧
  born_edges m' = born_edges m ∧
  edges m' = <[eck := mkEdgeEntry (e_identity e) (src_dense e) (dst_dense e) (synthetic_edge e) None
    (mkEdgeDelta ∅ false true)]> (edges m).
Proof.
  intros E Hck Hc. unfold interned in E. unfold delete_folded_edge, delete_edge_keyed, born_endpoint_dense. cbv beta iota.
  rewrite E. cbn in Hck |- *. settle Hck. rewrite Hc. done.
Qed.

Lemma patch_edge_new f cid rp ps m id i : interned f m = (id, set_interner m i) →
  edges m !! EdgeIdentity.canonical_key id = None →
  let eck := EdgeIdentity.canonical_key id in
  let m' := patch_core_edge_keyed (fe_src_label f) (fe_src_key f) (fe_src_value f) (fe_reltype f)
    (fe_dst_label f) (fe_dst_key f) (fe_dst_value f) (Some (fe_src_dense f)) (Some (fe_dst_dense f))
    (fe_edge_key f) cid rp ps m in
  interner m' = i ∧ same_nodes m m' ∧ Memtable.edge_synthetic_base m' = Memtable.edge_synthetic_base m ∧
  born_edges m' = born_edges m ∧
  edges m' = <[eck := mkEdgeEntry id (fe_src_dense f) (fe_dst_dense f) None (Some cid)
    (edge_patched (fe_edge_key f) rp ps EdgeDelta.default)]> (edges m).
Proof.
  intros E Hck. unfold interned in E. unfold patch_core_edge_keyed, endpoint_dense_or_create. cbv beta iota. rewrite E.
  cbn in Hck |- *. settle Hck. unfold patch_edge. cbn. rewrite !lookup_insert_eq. cbn.
  rewrite !lookup_insert_eq. cbn. rewrite !insert_insert_eq. done.
Qed.
End replay_edges.

(** * The rebuilt edge stores *)

(** The memtable after replaying the folded edges [done] onto [m0], [nb] of them born. *)
Record edges_built (m0 m : Memtable) (done : list FoldedEdge) (nb : Z) : Prop := {
  eb_wf : memtable_wf m;
  eb_nodes : same_nodes m0 m;
  eb_interner : Interner.extends (interner m0) (interner m);
  eb_base : Memtable.edge_synthetic_base m = Memtable.edge_synthetic_base m0;
  eb_held : ∀ f, f ∈ done → ∃ eck e, edges m !! eck = Some e ∧ edge_is f e ∧
    edge_names_are (interner m) (e_identity e) (fe_names f);
  eb_only : ∀ eck e, edges m !! eck = Some e → ∃ f, f ∈ done ∧ edge_is f e ∧
    edge_names_are (interner m) (e_identity e) (fe_names f);
  eb_born : zlen (born_edges m) = nb;
  eb_names : zlen (int_names (interner m)) <= zlen (int_names (interner m0)) + 6 * zlen done;
}.

(** A folded edge that can be replayed next. *)
Record next_edge (m0 : Memtable) (done : list FoldedEdge) (f : FoldedEdge) : Prop := {
  ne_values : edge_value_ok (fe_names f);
  ne_delta : folded_delta_ok f;
  ne_name : ∀ g, g ∈ done → fe_names g ≠ fe_names f;
  ne_core : ∀ cid, fe_core_edge_id f = Some cid → cid < Memtable.edge_synthetic_base m0 ∧
    ∀ g, g ∈ done → fe_core_edge_id g ≠ Some cid;
  ne_room : zlen (int_names (interner m0)) + 6 * (zlen done + 1) + 10 <= 2 ^ 32;
}.

Section rebuild_edges.
Context {layout : Layout} (m0 : Memtable).

Lemma edge_room m done nb f : edges_built m0 m done nb → next_edge m0 done f → room 10 (interner m).
Proof using. intros Hb Hf. pose proof (eb_names _ _ _ _ Hb). pose proof (ne_room _ _ _ Hf). unfold room. lia. Qed.

(** The identity the next edge is interned to is new, so any resolution of it is stable. *)
Lemma next_interned m done nb f : edges_built m0 m done nb → next_edge m0 done f →
  ∃ id i, interned f m = (id, set_interner m i) ∧ Interner.wf i ∧ Interner.extends (interner m) i ∧
    zlen (int_names i) <= zlen (int_names (interner m)) + 6 ∧
    EdgeIdentity.wf id ∧ edge_names_are i id (fe_names f) ∧
    edges m !! EdgeIdentity.canonical_key id = None.
Proof using.
  intros Hb Hf. destruct (interned_shape f m) as (id & i & E & Hlen). exists id, i.
  pose proof (eb_wf _ _ _ _ Hb) as Hm. destruct (ne_values _ _ _ Hf) as (Vs & Vd & Vk). cbn in Vs, Vd, Vk.
  pose proof (edge_room _ _ _ _ Hb Hf) as Hroom.
  destruct (intern_edge_ok (fe_src_label f) (fe_src_key f) (fe_src_value f) (fe_reltype f) (fe_dst_label f)
    (fe_dst_key f) (fe_dst_value f) (fe_edge_key f) m id (set_interner m i)) as (Hm' & G & _ & Hid & Hn & _); try done.
  { unfold room in *. lia. }
  split_and!; try done; [apply Hm'|apply G|]. apply eq_None_not_Some. intros [e He].
  destruct (eb_only _ _ _ _ Hb _ _ He) as (g & Hg & _ & Hng). apply (ne_name _ _ _ Hf g Hg).
  rewrite (existing_edge m id e) in Hng; [|apply Hm|done..].
  eapply (edge_names_fun i id); [|done]. eapply edge_names_extend; [apply G|done].
Qed.

Lemma next_resolves m done nb f src dst eid : edges_built m0 m done nb → next_edge m0 done f →
  (∀ cid, eid = Some cid → fe_core_edge_id f = Some cid) → edge_resolves m (fe_names f) src dst eid.
Proof using.
  intros Hb Hf Heid. split.
  - intros eck e He Hn. destruct (eb_only _ _ _ _ Hb _ _ He) as (g & Hg & _ & Hng).
    by destruct (ne_name _ _ _ Hf g Hg (edge_names_fun _ _ _ _ Hng Hn)).
  - intros cid Hc. destruct (ne_core _ _ _ Hf cid (Heid cid Hc)) as [Hlt Hno].
    rewrite (eb_base _ _ _ _ Hb). split; [done|]. intros eck e Hbe He.
    pose proof (eb_wf _ _ _ _ Hb) as (_ & _ & Hinv). destruct (proj1 (inv_by_edge_id _ _ _ _ _ _ _ Hinv cid eck) Hbe) as (e' & He' & Hce).
    rewrite He in He'. simplify_eq. destruct (eb_only _ _ _ _ Hb _ _ He) as (g & Hg & Hig & _).
    destruct (Hno g Hg). rewrite (ei_core _ _ Hig) in Hce. by destruct (fe_born_edge_id g), (e_tombstoned (fe_delta g)).
Qed.

(** One new entry for the next edge. *)
Lemma edges_built_step m m' done nb nb' f id i e : edges_built m0 m done nb → next_edge m0 done f →
  interned f m = (id, set_interner m i) → edges m !! EdgeIdentity.canonical_key id = None →
  Interner.extends (interner m) i → edge_names_are i id (fe_names f) →
  zlen (int_names i) <= zlen (int_names (interner m)) + 6 →
  memtable_wf m' → interner m' = i → same_nodes m m' → Memtable.edge_synthetic_base m' = Memtable.edge_synthetic_base m →
  zlen (born_edges m') = nb' → edges m' = <[EdgeIdentity.canonical_key id := e]> (edges m) →
  e_identity e = id → edge_is f e → edges_built m0 m' (done ++ [f]) nb'.
Proof using.
  intros Hb Hf Hid Hfresh Hx Hn Hlen Hm' Hi' Hsn Hbase Hborn Hes Hei His.
  destruct (eb_nodes _ _ _ _ Hb) as (A1&A2&A3&A4), Hsn as (B1&B2&B3&B4).
  split; [done|split_and!; congruence|rewrite Hi'; eapply extends_trans; [apply Hb|done]|rewrite Hbase; apply Hb| | |done|].
  - intros g [Hg|Hg%list_elem_of_singleton]%elem_of_app.
    + destruct (eb_held _ _ _ _ Hb g Hg) as (eck & eg & Heck & Hig & Hng). exists eck, eg. rewrite Hes, Hi'.
      split_and!; [|done|by eapply edge_names_extend]. rewrite lookup_insert_ne; [done|]. congruence.
    + subst g. exists (EdgeIdentity.canonical_key id), e. rewrite Hes, lookup_insert_eq, Hei, Hi'. done.
  - intros eck x. rewrite Hes, Hi'. intros [[<- <-]|[Hne Hx']]%lookup_insert_Some.
    + exists f. rewrite Hei. split_and!; try done. apply elem_of_app. right. by apply list_elem_of_singleton.
    + destruct (eb_only _ _ _ _ Hb eck x Hx') as (g & Hg & Hig & Hng). exists g.
      split_and!; [apply elem_of_app; by left|done|by eapply edge_names_extend].
  - rewrite Hi', zlen_app. change (zlen [f]) with 1. pose proof (eb_names _ _ _ _ Hb). lia.
Qed.
Lemma step_core_edge m done nb f : edges_built m0 m done nb → next_edge m0 done f →
  fe_born_edge_id f = None → (e_tombstoned (fe_delta f) = false → is_Some (fe_core_edge_id f)) →
  ∃ m', replay_core_edge m f = Some m' ∧ edges_built m0 m' (done ++ [f]) nb.
Proof using.
  intros Hb Hf Hborn Hcore. destruct (next_interned _ _ _ _ Hb Hf) as (id & i & Hid & Hwi & Hx & Hlen & Hw & Hn & Hfresh).
  pose proof (eb_wf _ _ _ _ Hb) as Hm. destruct (ne_values _ _ _ Hf) as (Vs & Vd & Vk). cbn in Vs, Vd, Vk.
  pose proof (edge_room _ _ _ _ Hb Hf) as Hroom. pose proof (ne_delta _ _ _ Hf) as Hd. unfold folded_delta_ok in Hd.
  unfold replay_core_edge. destruct (e_tombstoned (fe_delta f)) eqn:Ht.
  - eexists. split; [done|]. destruct (delete_edge_new f m id i Hid Hfresh) as (E1 & E2 & E3 & E4 & E5).
    destruct (delete_edge_ok (fe_src_label f) (fe_src_key f) (fe_src_value f) (fe_reltype f) (fe_dst_label f) (fe_dst_key f)
      (fe_dst_value f) (Some (fe_src_dense f)) (Some (fe_dst_dense f)) (fe_edge_key f) None m) as (_ & _ & Hm' & _); try done.
    { by eapply next_resolves. }
    eapply edges_built_step; try done; [by rewrite E4; apply Hb|]. split; cbn; try done. by rewrite Hborn, Ht.
  - destruct (Hcore eq_refl) as [cid Hc]. rewrite Hc. cbn [mbind option_bind]. eexists. split; [done|].
    destruct (patch_edge_new f cid (e_replaced (fe_delta f)) (map_to_list (e_patches (fe_delta f))) m id i Hid Hfresh)
      as (E1 & E2 & E3 & E4 & E5).
    destruct (patch_core_edge_ok (fe_src_label f) (fe_src_key f) (fe_src_value f) (fe_reltype f) (fe_dst_label f) (fe_dst_key f)
      (fe_dst_value f) (Some (fe_src_dense f)) (Some (fe_dst_dense f)) (fe_edge_key f) cid (e_replaced (fe_delta f))
      (map_to_list (e_patches (fe_delta f))) m) as (_ & _ & Hm' & _); try done.
    { eapply next_resolves; [done..|]. by intros ? [= <-]. }
    eapply edges_built_step; try done; [by rewrite E4; apply Hb|]. split; cbn; try done; [by apply repatch|by rewrite Hborn, Ht, Hc].
Qed.

Lemma step_born_edge m done nb f : edges_built m0 m done nb → next_edge m0 done f →
  fe_born_edge_id f = Some (Memtable.edge_synthetic_base m0 + nb) →
  edges_built m0 (replay_born_edge m f) (done ++ [f]) (nb + 1).
Proof using.
  intros Hb Hf Hborn. destruct (next_interned _ _ _ _ Hb Hf) as (id & i & Hid & Hwi & Hx & Hlen & Hw & Hn & Hfresh).
  pose proof (eb_wf _ _ _ _ Hb) as Hm. destruct (ne_values _ _ _ Hf) as (Vs & Vd & Vk). cbn in Vs, Vd, Vk.
  pose proof (edge_room _ _ _ _ Hb Hf) as Hroom. pose proof (ne_delta _ _ _ Hf) as Hd. unfold folded_delta_ok in Hd.
  destruct (upsert_edge_new f (e_replaced (fe_delta f)) (map_to_list (e_patches (fe_delta f))) m id i Hid Hfresh)
    as (E1 & E2 & E3 & E4 & E5).
  destruct (upsert_edge_ok (fe_src_label f) (fe_src_key f) (fe_src_value f) (fe_reltype f) (fe_dst_label f) (fe_dst_key f)
    (fe_dst_value f) (Some (fe_src_dense f)) (Some (fe_dst_dense f)) (fe_edge_key f) (e_replaced (fe_delta f))
    (map_to_list (e_patches (fe_delta f))) m) as (_ & _ & Hm1 & _); try done.
  { by eapply next_resolves. }
  unfold replay_born_edge. set (m1 := upsert_edge_keyed _ _ _ _ _ _ _ _ _ _ _ _ m) in *.
  rewrite (eb_base _ _ _ _ Hb), (eb_born _ _ _ _ Hb) in E5.
  assert (zlen (born_edges m1) = nb + 1) as Eb by (rewrite E4, zlen_app, (eb_born _ _ _ _ Hb); done).
  destruct (e_tombstoned (fe_delta f)) eqn:Ht.
  2: { eapply edges_built_step; try done. split; cbn; try done; [by apply repatch|by rewrite Hborn]. }
  assert (interned f m1 = (id, set_interner m1 (interner m1))) as Hid1 by (apply interned_known; by rewrite ?E1).
  set (eck := EdgeIdentity.canonical_key id) in *.
  destruct (delete_edge_born f m1 id (interner m1) _ Hid1 (eq_trans (f_equal (lookup eck) E5) (lookup_insert_eq _ _ _)) eq_refl)
    as (F1 & F2 & F3 & F4 & F5).
  assert (room 10 (interner m1)) as Hroom1.
  { pose proof (eb_names _ _ _ _ Hb). pose proof (ne_room _ _ _ Hf). unfold room. rewrite E1. lia. }
  destruct (delete_edge_ok (fe_src_label f) (fe_src_key f) (fe_src_value f) (fe_reltype f) (fe_dst_label f) (fe_dst_key f)
    (fe_dst_value f) (Some (fe_src_dense f)) (Some (fe_dst_dense f)) (fe_edge_key f) None m1) as (_ & _ & Hm2 & _); try done.
  { split; [|done]. rewrite E5, E1. intros x e [[<- <-]|[Hne Hx']]%lookup_insert_Some Hne'; [split; [by intros [? ?]|done]|].
    exfalso. destruct (eb_only _ _ _ _ Hb x e Hx') as (g & Hg & _ & Hng). apply (ne_name _ _ _ Hf g Hg).
    eapply (edge_names_fun i); [|done]. by eapply edge_names_extend. }
  rewrite E5, insert_insert_eq in F5. cbn [e_identity src_dense dst_dense synthetic_edge] in F5.
  destruct E2 as (?&?&?&?), F2 as (?&?&?&?).
  eapply edges_built_step; try done; [congruence|unfold same_nodes; split_and!; congruence|congruence|congruence|].
  split; cbn; try done. by rewrite Hborn.
Qed.
End rebuild_edges.

(** * The folded edges of a run *)

(** What the writer keeps true of the edges in a stack: a live entry has an id, a keyed live
    entry carries its key, a core edge has one identity and an id below the synthetic space,
    and an identity is born once. *)
Record edges_run (ms : list Memtable) (base : Z) : Prop := {
  run_ids : ∀ m eck e, m ∈ ms → edges m !! eck = Some e → e_tombstoned (e_delta e) = false →
    is_Some (synthetic_edge e) ∨ is_Some (core_edge e);
  run_seeded : ∀ m eck e k v, m ∈ ms → edges m !! eck = Some e → e_tombstoned (e_delta e) = false →
    en_key (entry_names m e) = Some (k, v) → e_patches (e_delta e) !! k = Some v;
  run_core : ∀ m eck e cid, m ∈ ms → edges m !! eck = Some e → core_edge e = Some cid → cid < base ∧
    ∀ m' eck' e', m' ∈ ms → edges m' !! eck' = Some e' → core_edge e' = Some cid →
      entry_names m' e' = entry_names m e;
  run_born_once : ∀ m eck e s m' eck' e' s', m ∈ ms → edges m !! eck = Some e → synthetic_edge e = Some s →
    m' ∈ ms → edges m' !! eck' = Some e' → synthetic_edge e' = Some s' →
    entry_names m' e' = entry_names m e ↔ s = s';
}.

Section folded_edges.
Context {layout : Layout} {order : HashWalk} (ms : list Memtable) (oldest : Memtable).
Local Abbreviation base := (Memtable.edge_synthetic_base oldest).
Context (Hrun : nodes_run ms) (Hlast : last ms = Some oldest) (Hedges : edges_run ms base).
Context (Htiled : tiled Memtable.edge_synthetic_base Memtable.born_edge_count ms).

Definition folded_edges : list FoldedEdge := (walk (fold_levels ms).2).*2.

Lemma elem_of_folded_edges f : f ∈ folded_edges ↔ ∃ k, (fold_levels ms).2 !! k = Some f.
Proof using.
  unfold folded_edges. rewrite list_elem_of_fmap. split.
  - intros ([k g] & -> & H%elem_of_walk). by exists k.
  - intros [k H]. exists (k, f). split; [done|by apply elem_of_walk].
Qed.

(** What the levels hold for a folded edge, oldest first. *)
Definition held (f : FoldedEdge) : list EdgeEntry := omap (find_edge (fe_names f)) (rev ms).

Lemma folded_edge_ok f : f ∈ folded_edges →
  edge_name_ok (fe_names f) ∧ edge_fold (fe_names f) (held f) = Some f.
Proof using Hrun. intros [k Hk]%elem_of_folded_edges. by destruct (folded_edge ms k f Hrun Hk) as (_ & ? & ?). Qed.

Lemma elem_of_held f e : f ∈ folded_edges → e ∈ held f →
  ∃ m eck, m ∈ ms ∧ edges m !! eck = Some e ∧ entry_names m e = fe_names f.
Proof using Hrun.
  intros Hf (m & Hm & He)%list_elem_of_omap. rewrite elem_of_rev in Hm.
  pose proof (run_wf ms Hrun m Hm) as Hw. destruct (folded_edge_ok f Hf) as [Hok _].
  apply find_edge_spec in He as (eck & Hck & Hn); [|done|by apply edge_name_value_ok].
  exists m, eck. split_and!; try done. eapply edge_names_fun; [|done]. by eapply entry_names_are; [apply Hw|].
Qed.

Lemma folded_edge_names : NoDup (map fe_names folded_edges).
Proof using Hrun.
  apply (NoDup_fmap_1 edge_names_key). unfold folded_edges.
  assert (edge_names_key <$> map fe_names (walk (fold_levels ms).2).*2 = (walk (fold_levels ms).2).*1) as ->; [|apply walk_keys].
  assert (∀ p, p ∈ walk (fold_levels ms).2 → p.1 = edge_names_key (fe_names p.2)) as Hkey.
  { intros [k f] Hp%elem_of_walk. by destruct (folded_edge ms k f Hrun Hp) as [-> _]. }
  revert Hkey. generalize (walk (fold_levels ms).2). induction l as [|p l IH]; intros Hkey; [done|].
  cbn. f_equal; [symmetry; apply Hkey; left|apply IH; intros q Hq; apply Hkey; by right].
Qed.

(** The newest entry decides whether the fold is live. *)
Lemma edge_fold_last l d e : last l = Some e →
  e_tombstoned (foldl EdgeDelta.fold d (map e_delta l)) = e_tombstoned (e_delta e) ∧
  (e_tombstoned (e_delta e) = true → foldl EdgeDelta.fold d (map e_delta l) = mkEdgeDelta ∅ false true) ∧
  (e_tombstoned (e_delta e) = false → ∀ k v, e_patches (e_delta e) !! k = Some v →
     e_patches (foldl EdgeDelta.fold d (map e_delta l)) !! k = Some v).
Proof using.
  intros Hl. apply last_Some in Hl as [l' ->]. rewrite map_app, foldl_app. cbn [map foldl].
  set (a := foldl _ d _). unfold EdgeDelta.fold. destruct (e_tombstoned (e_delta e)) eqn:Ht; [done|].
  set (b := if e_replaced (e_delta e) then _ else _).
  assert (e_tombstoned b = false) as Hb by (unfold b; by destruct (e_replaced (e_delta e))).
  rewrite (foldl_keeps e_tombstoned) by done. split_and!; [done|done|]. intros _ k v Hk.
  rewrite (foldl_view (λ d k, e_patches d !! k) _ (λ f p, set_key p.1 (Some p.2) f)).
  - rewrite put_all_lookup, list_to_map_to_list, Hk by apply NoDup_fst_map_to_list. done.
  - apply (set_key_ext fst (λ p, Some p.2)).
  - intros x p j. cbn. unfold set_key.
    destruct (bool_decide_reflect (j = p.1)) as [->|E]; [apply lookup_insert_eq|by rewrite lookup_insert_ne].
Qed.

Lemma folded_last f : f ∈ folded_edges → ∃ e, last (held f) = Some e ∧ e ∈ held f ∧
  fe_delta f = foldl EdgeDelta.fold EdgeDelta.default (map e_delta (held f)) ∧
  fe_born_edge_id f = find_map synthetic_edge (held f) ∧ fe_core_edge_id f = find_map core_edge (held f).
Proof using Hrun.
  intros Hf. destruct (folded_edge_ok f Hf) as [_ E]. unfold edge_fold in E.
  destruct (last (held f)) as [e|] eqn:El; [|done]. exists e. split; [done|]. split; [by apply last_Some_elem_of|].
  injection E as E. pose proof (f_equal fe_delta E) as E1. pose proof (f_equal fe_born_edge_id E) as E2.
  pose proof (f_equal fe_core_edge_id E) as E3. cbn in E1, E2, E3. done.
Qed.

Lemma find_map_in {A B} (g : A → option B) l x : x ∈ l → is_Some (g x) → is_Some (find_map g l).
Proof using.
  intros Hx Hg. induction Hx as [x l|x y l Hx IH]; cbn; [|destruct (g y); [done|by apply IH]].
  by destruct (g x); [eexists|destruct Hg].
Qed.

Lemma folded_delta f : f ∈ folded_edges → folded_delta_ok f.
Proof using Hrun Hedges.
  intros Hf. destruct (folded_last f Hf) as (e & El & He & Ed & _ & _). unfold folded_delta_ok. rewrite Ed.
  destruct (edge_fold_last (held f) EdgeDelta.default e El) as (Ht & Hdead & Hlive). rewrite Ht.
  destruct (e_tombstoned (e_delta e)) eqn:Et; [by apply Hdead|].
  destruct (fe_edge_key f) as [[k v]|] eqn:Ek; [|done].
  destruct (elem_of_held f e Hf He) as (m & eck & Hm & Hck & Hn).
  apply Hlive; [done|]. eapply (run_seeded _ _ Hedges m eck e k v); try done. by rewrite Hn.
Qed.

Lemma folded_has_id f : f ∈ folded_edges → e_tombstoned (fe_delta f) = false → fe_born_edge_id f = None →
  is_Some (fe_core_edge_id f).
Proof using Hrun Hedges.
  intros Hf Ht Hb. destruct (folded_last f Hf) as (e & El & He & Ed & Eb & Ec).
  destruct (edge_fold_last (held f) EdgeDelta.default e El) as (Ht' & _). rewrite <-Ed, Ht in Ht'.
  destruct (elem_of_held f e Hf He) as (m & eck & Hm & Hck & Hn).
  destruct (run_ids _ _ Hedges m eck e Hm Hck (eq_sym Ht')) as [Hs|Hc].
  - destruct (find_map_in synthetic_edge (held f) e He Hs) as [s Hs']. congruence.
  - rewrite Ec. by apply (find_map_in core_edge (held f) e).
Qed.

Lemma folded_core f cid : f ∈ folded_edges → fe_core_edge_id f = Some cid → cid < base ∧
  ∀ g, g ∈ folded_edges → fe_core_edge_id g = Some cid → fe_names g = fe_names f.
Proof using Hrun Hedges.
  assert (∀ f, f ∈ folded_edges → fe_core_edge_id f = Some cid → ∃ m eck e, m ∈ ms ∧ edges m !! eck = Some e ∧
    core_edge e = Some cid ∧ entry_names m e = fe_names f) as Hheld.
  { intros g Hg Hc. destruct (folded_last g Hg) as (_ & _ & _ & _ & _ & Ec). rewrite Ec in Hc.
    apply find_map_Some in Hc as (e & He & Hc). destruct (elem_of_held g e Hg He) as (m & eck & Hm & Hck & Hn).
    by exists m, eck, e. }
  intros Hf Hc. destruct (Hheld f Hf Hc) as (m & eck & e & Hm & Hck & He & Hn).
  destruct (run_core _ _ Hedges m eck e cid Hm Hck He) as [Hlt Huniq]. split; [done|].
  intros g Hg Hcg. destruct (Hheld g Hg Hcg) as (m' & eck' & e' & Hm' & Hck' & He' & Hn').
  rewrite <-Hn, <-Hn'. by eapply Huniq.
Qed.

Lemma folded_born f s : f ∈ folded_edges → fe_born_edge_id f = Some s →
  ∃ m eck e, m ∈ ms ∧ edges m !! eck = Some e ∧ synthetic_edge e = Some s ∧ entry_names m e = fe_names f.
Proof using Hrun.
  intros Hf Hb. destruct (folded_last f Hf) as (_ & _ & _ & _ & Eb & _). rewrite Eb in Hb.
  apply find_map_Some in Hb as (e & He & Hb). destruct (elem_of_held f e Hf He) as (m & eck & Hm & Hck & Hn).
  by exists m, eck, e.
Qed.
Lemma born_range : ∃ n, ∀ s, base <= s < base + n ↔
  ∃ m eck e, m ∈ ms ∧ edges m !! eck = Some e ∧ synthetic_edge e = Some s.
Proof using Hrun Hlast Htiled.
  destruct (tiled_range _ _ (λ m s, ∃ eck e, edges m !! eck = Some e ∧ synthetic_edge e = Some s) ms oldest Hlast Htiled)
    as (n & _ & _ & Hge & Hiff).
  - intros m Hm. destruct (run_wf ms Hrun m Hm) as (_ & _ & He). split; [apply zlen_nonneg|]. intros s. split.
    + intros (eck & e & Hck & Hs). destruct (inv_synthetic_edge _ _ _ _ _ _ _ He _ _ _ Hck Hs) as (_ & k & -> & Hk).
      apply lookup_lt_Some in Hk. unfold Memtable.born_edge_count, zlen. lia.
    + intros Hs. unfold Memtable.born_edge_count, zlen in Hs.
      destruct (lookup_lt_is_Some_2 (born_edges m) (Z.to_nat (s - Memtable.edge_synthetic_base m))) as [eck Hk]; [lia|].
      destruct (inv_born_edge _ _ _ _ _ _ _ He _ _ Hk) as (e & Hck & Es). exists eck, e. split; [done|]. rewrite Es. f_equal. lia.
  - exists n. intros s. split.
    + intros [H1 H2]. destruct (proj2 (Hiff s H1) H2) as (m & Hm & eck & e & Hck & Hs). by exists m, eck, e.
    + intros (m & eck & e & Hm & Hck & Hs). destruct (run_wf ms Hrun m Hm) as (_ & _ & He).
      destruct (inv_synthetic_edge _ _ _ _ _ _ _ He _ _ _ Hck Hs) as (_ & k & Ek & Hk). specialize (Hge m Hm).
      split; [lia|]. apply Hiff; [lia|]. exists m. eauto.
Qed.

Definition born_order : list FoldedEdge :=
  sort_by_key (λ f, default 0 (fe_born_edge_id f)) (filter (λ f, is_Some (fe_born_edge_id f)) folded_edges).
Definition core_order : list FoldedEdge :=
  merge_sort core_edge_le (filter (λ f, fe_born_edge_id f = None) folded_edges).

Lemma edge_order_perm : born_order ++ core_order ≡ₚ folded_edges.
Proof using.
  unfold born_order, core_order. rewrite sort_by_key_perm, (merge_sort_Permutation core_edge_le).
  rewrite (list_filter_iff (λ f, fe_born_edge_id f = None) (λ f, ¬ is_Some (fe_born_edge_id f)) folded_edges);
    [apply filter_app_complement|]. intros f. by rewrite eq_None_not_Some.
Qed.

(** Every entry of a level is folded. *)
Lemma entry_folded m eck e : m ∈ ms → edges m !! eck = Some e →
  ∃ f, f ∈ folded_edges ∧ fe_names f = entry_names m e.
Proof using Hrun.
  intros Hm Hck. pose proof (run_wf ms Hrun m Hm) as Hw. destruct Hw as (Hi & Hn & He).
  pose proof (entry_names_ok m eck e He (run_fits ms Hrun m Hm) Hck) as Hok.
  pose proof (folded_edge_at ms (entry_names m e) Hrun Hok) as Hat.
  assert (e ∈ omap (find_edge (entry_names m e)) (rev ms)) as Hin.
  { apply list_elem_of_omap. exists m. rewrite elem_of_rev. split; [done|].
    apply find_edge_spec; [done|by apply edge_name_value_ok|]. exists eck. split; [done|]. by eapply entry_names_are. }
  destruct (last (omap (find_edge (entry_names m e)) (rev ms))) as [l|] eqn:El.
  2: { apply last_None in El. rewrite El in Hin. by apply not_elem_of_nil in Hin. }
  unfold edge_fold in Hat. rewrite El in Hat. cbn [fmap option_fmap option_map] in Hat.
  eexists. split; [apply elem_of_folded_edges; by eexists|]. done.
Qed.

(** The born edges come in the order of their ids, which have no gaps. *)
Lemma born_order_ids k f : born_order !! k = Some f → fe_born_edge_id f = Some (base + Z.of_nat k).
Proof using Hrun Hlast Hedges Htiled.
  intros Hk. destruct born_range as [n Hn].
  assert (∀ g, g ∈ filter (λ f, is_Some (fe_born_edge_id f)) folded_edges → g ∈ folded_edges ∧
    ∃ s, fe_born_edge_id g = Some s) as Hfil by (intros g [[s ?] ?]%list_elem_of_filter; eauto).
  assert (default 0 (fe_born_edge_id f) = base + Z.of_nat k) as Ed.
  { apply (sorted_tiles (map (λ f, default 0 (fe_born_edge_id f)) born_order) base n k).
    - apply sort_by_key_strict. apply (nodup_map_finer fe_names).
      { apply nodup_map_filter, folded_edge_names. }
      intros x y [Hx [s Es]]%Hfil [Hy [s' Es']]%Hfil. rewrite Es, Es'. cbn. intros <-.
      destruct (folded_born x s Hx Es) as (m & eck & e & Hm & Hck & He & <-).
      destruct (folded_born y s Hy Es') as (m' & eck' & e' & Hm' & Hck' & He' & <-).
      symmetry. by eapply (run_born_once _ _ Hedges m eck e s m' eck' e' s).
    - intros s. change (map ?g) with (fmap (M := list) g). rewrite list_elem_of_fmap, Hn.
      unfold born_order. setoid_rewrite sort_by_key_perm. split.
      + intros (g & -> & [Hg [s2 Es]]%Hfil). rewrite Es. cbn.
        destruct (folded_born g s2 Hg Es) as (m & eck & e & Hm & Hck & He & _). by exists m, eck, e.
      + intros (m & eck & e & Hm & Hck & Hs). destruct (entry_folded m eck e Hm Hck) as (g & Hg & Egn).
        assert (∃ s', fe_born_edge_id g = Some s') as [s' Es'].
        { destruct (folded_last g Hg) as (_ & _ & _ & _ & -> & _). apply (find_map_in synthetic_edge _ e); [|by rewrite Hs].
          apply list_elem_of_omap. exists m. rewrite elem_of_rev. split; [done|].
          destruct (folded_edge_ok g Hg) as [Hok _].
          apply find_edge_spec; [exact (run_wf ms Hrun m Hm)|by apply edge_name_value_ok|]. exists eck. split; [done|].
          rewrite Egn. eapply entry_names_are; [apply (run_wf ms Hrun m Hm)|done]. }
        destruct (folded_born g s' Hg Es') as (m' & eck' & e' & Hm' & Hck' & He' & En').
        assert (s = s') as ->.
        { eapply (run_born_once _ _ Hedges m eck e s m' eck' e' s'); try done. congruence. }
        exists g. rewrite Es'. split; [done|]. apply list_elem_of_filter. rewrite Es'. by split.
    - change (map ?g) with (fmap (M := list) g). by rewrite list_lookup_fmap, Hk. }
  assert (f ∈ born_order) as Hf by by eapply list_elem_of_lookup_2. unfold born_order in Hf.
  rewrite sort_by_key_perm in Hf. destruct (Hfil f Hf) as [_ [s Es]]. rewrite Es in Ed |- *. cbn in Ed. by rewrite Ed.
Qed.
End folded_edges.
