(* ===== verification/CompactionMerge.v ===== *)
(** [merge_levels] as a whole: the merged level is consistent, keeps every id, and holds for
    every node and every edge the newest-wins fold of the run. *)

From stdpp Require Import sorting.
From S2P Require Import Prelude Values Wire Identity WalCodec NodeDelta DeltaFold Memtable.
From S2P Require Import MemtableInv MemtableApply Snapshot SnapshotRead Compaction CompactionFold.
From S2P Require Import CompactionReplay CompactionEdges.

(** * A run that can be merged *)

(** The contract between the writer and [merge_levels]: [ms] is a contiguous run of consistent
    levels, newest first, that agree on ids and fit the symbol table. *)
Record run_ok (ms : list Memtable) (oldest : Memtable) : Prop := {
  ro_last : last ms = Some oldest;
  ro_nodes : nodes_run ms;
  ro_edges : edges_run ms (Memtable.edge_synthetic_base oldest);
  ro_tiled : tiled Memtable.synthetic_base Memtable.born_count ms;
  ro_tiled_edges : tiled Memtable.edge_synthetic_base Memtable.born_edge_count ms;
  ro_room : 2 * total Memtable.node_delta_count ms + 6 * total Memtable.edge_delta_count ms + 16 <= 2 ^ 32;
}.

Section merge.
Context {layout : Layout} {order : HashWalk} (ms : list Memtable) (oldest : Memtable).
Context (Hok : run_ok ms oldest).
Local Abbreviation base := (Memtable.synthetic_base oldest).
Local Abbreviation ebase := (Memtable.edge_synthetic_base oldest).
Local Abbreviation fnodes := (folded_nodes ms).
Local Abbreviation fedges := (folded_edges ms).

Lemma folded_edge_count : zlen fedges <= total Memtable.edge_delta_count ms.
Proof using Hok.
  pose proof (ro_nodes _ _ Hok) as Hrun.
  assert (zlen (all_edge_rows ms) = total Memtable.edge_delta_count ms) as Hrows.
  { rewrite <-total_rev. unfold all_edge_rows. induction (rev ms) as [|m l IH]; [done|]. cbn [map concat].
    rewrite zlen_app, IH. change (total ?c (m :: l)) with (c m + total c l). f_equal.
    unfold edge_rows, zlen, Memtable.edge_delta_count. rewrite length_map, (Permutation_length (walk_perm (edges m))).
    by rewrite length_map_to_list. }
  assert (map fe_names fedges ⊆+ map fst (all_edge_rows ms)) as Hsub.
  { apply NoDup_submseteq; [by apply folded_edge_names|]. intros en (f & -> & Hf)%list_elem_of_fmap.
    destruct (folded_last ms Hrun f Hf) as (e & _ & He & _).
    destruct (elem_of_held ms Hrun f e Hf He) as (m & eck & Hm & Hck & <-).
    apply list_elem_of_fmap. exists (entry_names m e, e). split; [done|].
    unfold all_edge_rows. apply elem_of_concat_map. exists m. rewrite elem_of_rev. split; [done|].
    unfold edge_rows. apply list_elem_of_fmap. exists (eck, e). split; [done|by apply elem_of_walk]. }
  apply submseteq_length in Hsub. rewrite !length_map in Hsub. unfold zlen in *. lia.
Qed.

(** Any folded edge can be replayed after any others. *)
Lemma folded_next m0 done f l : done ++ f :: l ≡ₚ fedges → Memtable.edge_synthetic_base m0 = ebase →
  zlen (int_names (interner m0)) <= 2 * zlen fnodes → next_edge m0 done f.
Proof using Hok.
  pose proof (ro_nodes _ _ Hok) as Hrun. pose proof (ro_edges _ _ Hok) as He.
  intros El Eb Hnames. assert (f ∈ fedges) as Hf by (rewrite <-El; apply elem_of_app; right; left).
  assert (∀ g, g ∈ done → g ∈ fedges) as Hdone by (intros g Hg; rewrite <-El; apply elem_of_app; by left).
  assert (∀ g, g ∈ done → fe_names g ≠ fe_names f) as Hnames'.
  { pose proof (folded_edge_names ms Hrun) as Hnd. rewrite <-(Permutation_map fe_names El), map_app, NoDup_app in Hnd.
    destruct Hnd as (_ & Hnd & _). intros g Hg E. apply (Hnd (fe_names g)); [by apply list_elem_of_fmap_2|].
    rewrite E. left. }
  split.
  - apply edge_name_value_ok. by destruct (folded_edge_ok ms Hrun f Hf).
  - by eapply folded_delta.
  - done.
  - intros cid Hc. destruct (folded_core ms oldest Hrun He f cid Hf Hc) as [Hlt Hu]. rewrite Eb. split; [done|].
    intros g Hg Hcg. apply (Hnames' g Hg). by apply Hu; [apply Hdone|].
  - pose proof folded_edge_count as Hc. pose proof (folded_count ms Hrun) as Hn. pose proof (ro_room _ _ Hok).
    assert (zlen done + 1 <= zlen fedges) as Hl.
    { unfold zlen. rewrite <-(Permutation_length El), length_app. cbn. lia. }
    lia.
Qed.

Lemma replay_born_edges l m0 m done nb rest : edges_built m0 m done nb → (done ++ l) ++ rest ≡ₚ fedges →
  Memtable.edge_synthetic_base m0 = ebase → zlen (int_names (interner m0)) <= 2 * zlen fnodes →
  (∀ k f, l !! k = Some f → fe_born_edge_id f = Some (ebase + nb + Z.of_nat k)) →
  edges_built m0 (foldl replay_born_edge m l) (done ++ l) (nb + zlen l).
Proof using Hok.
  revert m done nb. induction l as [|f l IH]; intros m done nb Hb El Eb Hn Hl; cbn [foldl].
  { rewrite app_nil_r. by replace (nb + zlen []) with nb by (unfold zlen; cbn; lia). }
  rewrite cons_middle, app_assoc, zlen_cons. replace (nb + (zlen l + 1)) with (nb + 1 + zlen l) by lia.
  apply IH; [| |done..|].
  - apply step_born_edge; [done| |].
    + eapply (folded_next m0 done f (l ++ rest)); [|done..]. by rewrite <-El, <-app_assoc.
    + rewrite (Hl 0%nat f eq_refl), Eb. f_equal. lia.
  - by rewrite <-(app_assoc done [f] l).
  - intros k g Hg. rewrite (Hl (S k) g Hg). f_equal. lia.
Qed.

Lemma replay_core_edges l m0 m done nb : edges_built m0 m done nb → done ++ l ≡ₚ fedges →
  Memtable.edge_synthetic_base m0 = ebase → zlen (int_names (interner m0)) <= 2 * zlen fnodes →
  (∀ f, f ∈ l → fe_born_edge_id f = None) →
  ∃ m', foldl (λ m f, m ← m; replay_core_edge m f) (Some m) l = Some m' ∧ edges_built m0 m' (done ++ l) nb.
Proof using Hok.
  revert m done. induction l as [|f l IH]; intros m done Hb El Eb Hn Hl; cbn [foldl].
  { exists m. by rewrite app_nil_r. }
  destruct (step_core_edge m0 m done nb f Hb) as (m' & E & Hb').
  - by eapply folded_next.
  - apply Hl. left.
  - intros Ht. eapply (folded_has_id ms); [apply Hok|apply Hok| |done|apply Hl; left].
    rewrite <-El. apply elem_of_app. right. left.
  - cbn [mbind option_bind]. rewrite E, cons_middle, app_assoc. apply IH; try done.
    + by rewrite <-app_assoc.
    + intros g Hg. apply Hl. by right.
Qed.
(** The node half, then the edge half. *)
Lemma merge_levels_built : ∃ m0 m nb ne,
  merge_levels ms = Some m ∧
  built base ebase m0 (born_nodes ms oldest ++ core_nodes ms oldest) nb ∧
  edges_built m0 m (born_order ms ++ core_order ms) ne.
Proof using Hok.
  pose proof Hok as [Hlast Hrun Hedges Ht Hte Hroom].
  assert (2 * (total Memtable.node_delta_count ms + 2) <= 2 ^ 32) as Hroom'.
  { pose proof folded_edge_count. pose proof (zlen_nonneg fedges). lia. }
  pose proof (nodes_rebuilt ms oldest Hrun Hlast Ht Hroom' ebase) as Hb.
  set (m0 := foldl replay_core_node _ _) in Hb.
  assert (zlen (int_names (interner m0)) <= 2 * zlen fnodes) as Hnames.
  { pose proof (b_names _ _ _ _ _ Hb) as Hn. unfold zlen in *.
    by rewrite (Permutation_length (replay_order_perm ms oldest)) in Hn. }
  assert (Memtable.edge_synthetic_base m0 = ebase) as Eb by (destruct (b_edges _ _ _ _ _ Hb) as (_&_&_&_&?&_); done).
  assert (edges_built m0 m0 [] 0) as He0.
  { destruct (b_edges _ _ _ _ _ Hb) as (E1&_&_&_&_&E6). split.
    - apply Hb.
    - done.
    - by unfold Interner.extends.
    - done.
    - intros f Hf. by apply not_elem_of_nil in Hf.
    - intros eck e. rewrite E1. cbn. by rewrite lookup_empty.
    - by rewrite E6.
    - unfold zlen. cbn. lia. }
  pose proof (edge_order_perm ms) as Hperm.
  pose proof (replay_born_edges (born_order ms) m0 m0 [] 0 (core_order ms) He0 Hperm Eb Hnames) as He1.
  destruct (replay_core_edges (core_order ms) m0 (foldl replay_born_edge m0 (born_order ms)) (born_order ms)
    (0 + zlen (born_order ms))) as (m & Em & He2); try done.
  - apply He1. intros k f Hk. by rewrite (born_order_ids ms oldest Hrun Hlast Hedges Hte k f Hk), Z.add_0_r.
  - intros f Hf. unfold core_order in Hf. rewrite (merge_sort_Permutation core_edge_le) in Hf.
    by apply list_elem_of_filter in Hf as [? _].
  - exists m0, m, (zlen (born_nodes ms oldest)), (0 + zlen (born_order ms)). split_and!; [|done|done].
    unfold merge_levels. rewrite Hlast, (surjective_pairing (fold_levels ms)). exact Em.
Qed.

(** The edge of a name in the merged level: the fold of the run. *)
Lemma merged_edge m0 m ne en : edges_built m0 m (born_order ms ++ core_order ms) ne → edge_name_ok en →
  match edge_fold en (omap (find_edge en) (rev ms)), find_edge en m with
  | Some f, Some e => edge_is f e
  | None, None => True
  | _, _ => False
  end.
Proof using Hok.
  intros Hb Hen. pose proof (ro_nodes _ _ Hok) as Hrun. pose proof (eb_wf _ _ _ _ Hb) as Hm.
  pose proof (edge_name_value_ok en Hen) as Hv. rewrite <-folded_edge_at by done.
  destruct (find_edge en m) as [e|] eqn:Ee.
  - apply find_edge_spec in Ee as (eck & Hck & Hn); [|done..].
    destruct (eb_only _ _ _ _ Hb eck e Hck) as (f & Hf & Hi & Hnf).
    rewrite edge_order_perm in Hf. apply elem_of_folded_edges in Hf as [k Hk].
    pose proof (edge_names_fun _ _ _ _ Hnf Hn) as <-. destruct (folded_edge ms k f Hrun Hk) as (-> & _). by rewrite Hk.
  - destruct ((fold_levels ms).2 !! edge_names_key en) as [f|] eqn:Ef; [|done].
    destruct (folded_edge ms _ f Hrun Ef) as (Ek & Hokf & _).
    assert (fe_names f = en) as En by (by apply edge_names_key_inj).
    destruct (eb_held _ _ _ _ Hb f) as (eck & e & Hck & _ & Hn).
    { rewrite edge_order_perm. apply elem_of_folded_edges. by eexists. }
    rewrite En in Hn. by rewrite (proj2 (find_edge_spec m en e Hm Hv)) in Ee by eauto.
Qed.
End merge.

Section identities.
Context {layout : Layout} {order : HashWalk}.

(** The edges leave the names of the nodes alone. *)
Lemma merged_identity m0 m ms oldest nb ne d : run_ok ms oldest →
  built (Memtable.synthetic_base oldest) (Memtable.edge_synthetic_base oldest) m0
    (born_nodes ms oldest ++ core_nodes ms oldest) nb →
  edges_built m0 m (born_order ms ++ core_order ms) ne →
  Memtable.node_identity_by_dense d m = find_map (Memtable.node_identity_by_dense d) ms.
Proof.
  intros Hok Hb He. pose proof (ro_nodes _ _ Hok) as Hrun. pose proof (eb_nodes _ _ _ _ He) as (N1 & N2 & _ & _).
  rewrite <-(rebuilt_identity ms oldest Hrun (Memtable.edge_synthetic_base oldest) m0 _ _ d Hb (replay_order_perm ms oldest)).
  unfold Memtable.node_identity_by_dense. rewrite N1, N2. destruct (by_dense m0 !! d) as [ck|]; [|done]. cbn.
  destruct (nodes m0 !! ck) as [e|] eqn:Hck; [|done]. cbn.
  destruct (b_wf _ _ _ _ _ Hb) as (_ & Hn & _). destruct (inv_entry _ _ _ _ _ _ _ Hn _ _ Hck) as (_ & _ & [[l Hl] [k Hk]] & _).
  unfold name_or_empty. rewrite Hl, Hk.
  by rewrite (Interner.name_extends _ _ _ _ (eb_interner _ _ _ _ He) Hl), (Interner.name_extends _ _ _ _ (eb_interner _ _ _ _ He) Hk).
Qed.
End identities.
