(* ===== verification/CompactionSelect.v ===== *)
(** The choice of the run to compact: [select_compaction_run] and
    [select_compaction_run_in_stack] return a run of one format and one size tier, and decline
    only when no two neighbours could be merged. *)

From S2P Require Import Prelude Compaction.

(** A level's size as the selection sees it, and two sizes of one tier. *)
Definition tier_size (s : Z) : Z := Z.max s 1.
Definition in_tier (lo hi : Z) : Prop := hi <= saturating_mul lo SIZE_TIER_RATIO.
Definition same_tier (a b : Z) : Prop :=
  in_tier (Z.min (tier_size a) (tier_size b)) (Z.max (tier_size a) (tier_size b)).

(** A run [s, e) of two or more levels whose sizes are all of one tier. *)
Record good_run (sizes : list Z) (s e : nat) : Prop := {
  gr_range : (s + 2 <= e <= length sizes)%nat;
  gr_tier : ∀ i j x y, (s <= i < e)%nat → (s <= j < e)%nat →
    sizes !! i = Some x → sizes !! j = Some y → in_tier (tier_size x) (tier_size y);
}.

Lemma saturating_mul_mono a b : a <= b → saturating_mul a SIZE_TIER_RATIO <= saturating_mul b SIZE_TIER_RATIO.
Proof. unfold saturating_mul, SIZE_TIER_RATIO. lia. Qed.

Lemma extend_run_spec lo hi rest j : in_tier lo hi →
  ∃ n lo' hi', extend_run lo hi rest j = (j + n)%nat ∧ (n <= length rest)%nat ∧ in_tier lo' hi' ∧
    lo' <= lo ∧ hi <= hi' ∧ Forall (λ s, lo' <= tier_size s <= hi') (take n rest).
Proof.
  revert lo hi j. induction rest as [|s rest IH]; intros lo hi j Ht; cbn [extend_run].
  { exists 0%nat, lo, hi. split_and!; [lia|cbn; lia|done|lia|lia|constructor]. }
  fold (tier_size s). destruct (Z.ltb_spec (saturating_mul (Z.min lo (tier_size s)) SIZE_TIER_RATIO)
    (Z.max hi (tier_size s))) as [Hlt|Hge].
  { exists 0%nat, lo, hi. split_and!; [lia|cbn; lia|done|lia|lia|constructor]. }
  destruct (IH (Z.min lo (tier_size s)) (Z.max hi (tier_size s)) (S j) Hge) as (n & lo' & hi' & E & Hn & Ht' & Hlo & Hhi & Hall).
  exists (S n), lo', hi'. split_and!; [lia|cbn; lia|done|lia|lia|]. cbn [take]. constructor; [lia|done].
Qed.

Lemma extend_run_one s s' rest j : same_tier s s' → (j + 1 <= extend_run (tier_size s) (tier_size s) (s' :: rest) j)%nat.
Proof.
  intros Ht. cbn [extend_run]. fold (tier_size s').
  destruct (Z.ltb_spec (saturating_mul (Z.min (tier_size s) (tier_size s')) SIZE_TIER_RATIO)
    (Z.max (tier_size s) (tier_size s'))) as [Hlt|Hge]; [unfold same_tier, in_tier in Ht; lia|].
  destruct (extend_run_spec (Z.min (tier_size s) (tier_size s')) (Z.max (tier_size s) (tier_size s')) rest (S j) Hge)
    as (n & _ & _ & -> & _). lia.
Qed.

Lemma in_tier_self s : 0 <= s < 2 ^ 64 → in_tier (tier_size s) (tier_size s).
Proof. unfold in_tier, tier_size, saturating_mul, SIZE_TIER_RATIO. lia. Qed.

(** The sizes are [u64]s. *)
Definition sizes_ok (sizes : list Z) : Prop := Forall (λ s, 0 <= s < 2 ^ 64) sizes.

Lemma extended_run sizes i s rest : sizes_ok sizes → drop i sizes = s :: rest →
  let j := extend_run (tier_size s) (tier_size s) rest (i + 1) in
  (i + 1 <= j <= length sizes)%nat ∧ ((2 <= j - i)%nat → good_run sizes i j).
Proof.
  intros Hs Hd. cbv zeta. assert (0 <= s < 2 ^ 64) as Hu.
  { eapply (Forall_lookup_1 (λ s, 0 <= s < 2 ^ 64) sizes i s Hs). by rewrite <-(Nat.add_0_r i), <-lookup_drop, Hd. }
  assert (length sizes = i + S (length rest))%nat as Hlen.
  { pose proof (f_equal length Hd) as E. rewrite length_drop in E. cbn in E. lia. }
  destruct (extend_run_spec (tier_size s) (tier_size s) rest (i + 1) (in_tier_self s Hu))
    as (n & lo & hi & -> & Hn & Ht & Hlo & Hhi & Hall).
  split; [lia|]. intros Hlong. split; [lia|].
  assert (∀ k x, (i <= k < i + 1 + n)%nat → sizes !! k = Some x → lo <= tier_size x <= hi) as Hin.
  { intros k x Hk Hx. replace k with (i + (k - i))%nat in Hx by lia. rewrite <-lookup_drop, Hd in Hx.
    destruct (k - i)%nat as [|q] eqn:Eq; cbn in Hx; [simplify_eq; lia|].
    eapply (Forall_lookup_1 (λ s, lo <= tier_size s <= hi)); [done|]. rewrite lookup_take_lt; [done|lia]. }
  intros a b x y Ha Hb Hx Hy. pose proof (Hin a x Ha Hx). pose proof (Hin b y Hb Hy).
  pose proof (saturating_mul_mono lo (tier_size x)). unfold in_tier in *. lia.
Qed.

(** No neighbours from position [i] on are of one tier. *)
Definition ladder (sizes : list Z) (i : nat) : Prop :=
  ∀ k x y, (i <= k)%nat → sizes !! k = Some x → sizes !! S k = Some y → ¬ same_tier x y.

Lemma keep_longer_some best s e : ∃ p, keep_longer best s e = Some p ∧ (p = (s, e) ∨ best = Some p).
Proof. unfold keep_longer. destruct best as [[bs be]|]; [|eauto]. destruct (be - bs <=? e - s)%nat; eauto. Qed.

Lemma select_run_loop_spec fuel sizes i best : sizes_ok sizes → (length sizes <= i + fuel)%nat →
  (∀ s e, best = Some (s, e) → good_run sizes s e) →
  match select_run_loop fuel sizes i best with
  | Some (s, e) => good_run sizes s e
  | None => best = None ∧ ladder sizes i
  end.
Proof.
  intros Hs. revert i best. induction fuel as [|fuel IH]; intros i best Hlen Hbest; cbn [select_run_loop].
  { destruct best as [[s e]|]; [by apply Hbest|]. split; [done|]. intros k x y Hk Hx. apply lookup_lt_Some in Hx. lia. }
  destruct (drop i sizes) as [|s rest] eqn:Hd.
  { destruct best as [[s e]|]; [by apply Hbest|]. split; [done|]. intros k x y Hk Hx. apply lookup_lt_Some in Hx.
    pose proof (f_equal length Hd) as E. rewrite length_drop in E. cbn in E. lia. }
  fold (tier_size s). destruct (extended_run sizes i s rest Hs Hd) as [Hj Hgood].
  set (j := extend_run (tier_size s) (tier_size s) rest (i + 1)) in *. replace (Nat.max j (i + 1)) with j by lia.
  destruct (2 <=? j - i)%nat eqn:E2.
  - apply Nat.leb_le in E2. destruct (keep_longer_some best i j) as ([ps pe] & Ek & Hp). rewrite Ek.
    specialize (IH j (Some (ps, pe)) ltac:(lia)).
    destruct (select_run_loop fuel sizes j (Some (ps, pe))) as [[s' e']|].
    + apply IH. intros s0 e0 [= <- <-]. destruct Hp as [[= -> ->]|Hp]; [by apply Hgood|by apply Hbest].
    + destruct IH as [? _]; [|done]. intros s0 e0 [= <- <-]. destruct Hp as [[= -> ->]|Hp]; [by apply Hgood|by apply Hbest].
  - apply Nat.leb_gt in E2. specialize (IH j best ltac:(lia) Hbest).
    destruct (select_run_loop fuel sizes j best) as [[s' e']|]; [done|]. destruct IH as [-> Hl]. split; [done|].
    intros k x y Hk Hx Hy. destruct (decide (k = i)) as [->|Hne]; [|apply (Hl k x y); [lia|done..]].
    intros Ht. assert (∃ rest', rest = y :: rest' ∧ x = s) as (rest' & -> & ->).
    { rewrite <-(Nat.add_0_r i), <-lookup_drop, Hd in Hx. cbn in Hx.
      replace (S i) with (i + 1)%nat in Hy by lia. rewrite <-lookup_drop, Hd in Hy. cbn in Hy.
      destruct rest as [|z rest']; [done|]. cbn in Hy. simplify_eq. eauto. }
    pose proof (extend_run_one s y rest' (i + 1) Ht). unfold j in E2. lia.
Qed.

Lemma select_compaction_run_spec sizes : sizes_ok sizes →
  match select_compaction_run sizes with
  | Some (s, e) => good_run sizes s e
  | None => ladder sizes 0
  end.
Proof.
  intros Hs. pose proof (select_run_loop_spec (length sizes) sizes 0 None Hs ltac:(lia) ltac:(done)) as H.
  unfold select_compaction_run. by destruct (select_run_loop _ _ _ _) as [[s e]|]; [|destruct H].
Qed.

(** * Mixed stacks *)

Lemma extend_span_spec b rest j : ∃ n, extend_span b rest j = (j + n)%nat ∧ (n <= length rest)%nat ∧
  Forall (λ x, x = b) (take n rest) ∧ ∀ x, rest !! n = Some x → x ≠ b.
Proof.
  revert j. induction rest as [|x rest IH]; intros j; cbn [extend_span].
  { exists 0%nat. split_and!; [lia|cbn; lia|constructor|done]. }
  case_bool_decide as E.
  - destruct (IH (S j)) as (n & -> & Hn & Hall & Hend). exists (S n). split_and!; [lia|cbn; lia|by constructor|done].
  - exists 0%nat. split_and!; [lia|cbn; lia|constructor|]. intros y [= <-]. done.
Qed.

(** A run within one span of the stack. *)
Definition good_stack_run (sizes : list Z) (off_heap : list bool) (s e : nat) : Prop :=
  good_run sizes s e ∧ ∀ i j, (s <= i < e)%nat → (s <= j < e)%nat → off_heap !! i = off_heap !! j.

Definition stack_ladder (sizes : list Z) (off_heap : list bool) (i : nat) : Prop :=
  ∀ k x y b, (i <= k)%nat → sizes !! k = Some x → sizes !! S k = Some y →
    off_heap !! k = Some b → off_heap !! S k = Some b → ¬ same_tier x y.

(** The sizes of a span are those of the stack, shifted. *)
Lemma span_lookup (sizes : list Z) p n k : (k < n)%nat → take n (drop p sizes) !! k = sizes !! (p + k)%nat.
Proof. intros Hk. rewrite lookup_take_lt, lookup_drop; done. Qed.

Lemma span_run sizes p n s e : (p + n <= length sizes)%nat →
  good_run (take n (drop p sizes)) s e → good_run sizes (p + s) (p + e) ∧ (e <= n)%nat.
Proof.
  intros Hn [Hr Ht]. rewrite length_take, length_drop in Hr. split; [|lia]. split; [lia|].
  intros i j x y Hi Hj Hx Hy. apply (Ht (i - p)%nat (j - p)%nat); [lia|lia|..].
  - rewrite span_lookup by lia. by replace (p + (i - p))%nat with i by lia.
  - rewrite span_lookup by lia. by replace (p + (j - p))%nat with j by lia.
Qed.

Lemma span_ok sizes p n : sizes_ok sizes → sizes_ok (take n (drop p sizes)).
Proof. intros H. by apply Forall_take, Forall_drop. Qed.

Lemma select_span_loop_spec fuel sizes off_heap p best : sizes_ok sizes → length off_heap = length sizes →
  (length sizes <= p + fuel)%nat → (∀ s e, best = Some (s, e) → good_stack_run sizes off_heap s e) →
  match select_span_loop fuel sizes off_heap p best with
  | Some (s, e) => good_stack_run sizes off_heap s e
  | None => best = None ∧ stack_ladder sizes off_heap p
  end.
Proof.
  intros Hs Hlen. revert p best. induction fuel as [|fuel IH]; intros p best Hfuel Hbest; cbn [select_span_loop].
  { destruct best as [[s e]|]; [by apply Hbest|]. split; [done|]. intros k x y b Hk Hx. apply lookup_lt_Some in Hx. lia. }
  destruct (drop p off_heap) as [|b rest] eqn:Hd; pose proof (f_equal length Hd) as El; rewrite length_drop in El; cbn in El.
  { destruct best as [[s e]|]; [by apply Hbest|]. split; [done|]. intros k x y b Hk Hx. apply lookup_lt_Some in Hx. lia. }
  destruct (extend_span_spec b rest (p + 1)) as (n & En & Hn & Hall & Hend). rewrite En.
  replace (p + 1 + n - p)%nat with (S n) by lia.
  assert (∀ k, (k <= n)%nat → off_heap !! (p + k)%nat = Some b) as Hspan.
  { intros k Hk. rewrite <-lookup_drop, Hd. destruct k as [|k]; [done|].
    change ((b :: rest) !! S k) with (rest !! k). destruct (lookup_lt_is_Some_2 rest k) as [x Hx]; [lia|]. rewrite Hx. f_equal.
    eapply (Forall_lookup_1 (λ x, x = b)); [done|]. rewrite lookup_take_lt; [done|lia]. }
  pose proof (select_compaction_run_spec (take (S n) (drop p sizes)) (span_ok sizes p (S n) Hs)) as Hsel.
  destruct (select_compaction_run (take (S n) (drop p sizes))) as [[s e]|].
  - destruct (span_run sizes p (S n) s e) as [Hgood He]; [lia|done|].
    destruct (keep_longer_some best (p + s) (p + e)) as ([ps pe] & Ek & Hp). rewrite Ek.
    assert (∀ s0 e0, Some (ps, pe) = Some (s0, e0) → good_stack_run sizes off_heap s0 e0) as Hb.
    { intros s0 e0 [= <- <-]. destruct Hp as [[= -> ->]|Hp]; [|by apply Hbest]. split; [done|].
      intros i j Hi Hj. replace i with (p + (i - p))%nat by lia. replace j with (p + (j - p))%nat by lia.
      by rewrite !Hspan by lia. }
    specialize (IH (p + 1 + n)%nat (Some (ps, pe)) ltac:(lia) Hb).
    destruct (select_span_loop _ _ _ _ _) as [[s' e']|]; [done|]. by destruct IH.
  - specialize (IH (p + 1 + n)%nat best ltac:(lia) Hbest).
    destruct (select_span_loop _ _ _ _ _) as [[s' e']|]; [done|]. destruct IH as [-> Hl]. split; [done|].
    intros k x y c Hk Hx Hy Hc Hc'. destruct (decide (p + 1 + n <= k)%nat) as [Hge|Hlt]; [by eapply Hl|].
    destruct (decide (k = p + n)%nat) as [->|Hne].
    + exfalso. rewrite (Hspan n ltac:(lia)) in Hc. simplify_eq. eapply (Hend c); [|done].
      replace (S (p + n)) with (p + S n)%nat in Hc' by lia. by rewrite <-lookup_drop, Hd in Hc'.
    + apply (Hsel (k - p)%nat x y); [lia|..].
      * rewrite span_lookup by lia. by replace (p + (k - p))%nat with k by lia.
      * rewrite span_lookup by lia. by replace (p + S (k - p))%nat with (S k) by lia.
Qed.

(** The run chosen for compaction is a contiguous stretch of at least two levels of the
    stack, all of one format, whose sizes lie within the tier ratio of each other; and none
    is chosen only when no two neighbours of one format are of one tier.  The choice
    terminates: one turn of each loop per level is enough. *)
Theorem select_run_sound sizes off_heap : sizes_ok sizes → length off_heap = length sizes →
  match select_compaction_run_in_stack sizes off_heap with
  | Some (s, e) => good_stack_run sizes off_heap s e
  | None => stack_ladder sizes off_heap 0
  end.
Proof.
  intros Hs Hlen. pose proof (select_span_loop_spec (length sizes) sizes off_heap 0 None Hs Hlen ltac:(lia) ltac:(done)) as H.
  unfold select_compaction_run_in_stack. by destruct (select_span_loop _ _ _ _ _) as [[s e]|]; [|destruct H].
Qed.

(** The scan is greedy: it takes the run of two at the old end of the stack although a run of
    three of one tier straddles the two runs it sees. *)
Theorem select_run_greedy :
  select_compaction_run [1; 4; 8; 16] = Some (2%nat, 4%nat) ∧ good_run [1; 4; 8; 16] 1 4.
Proof.
  split; [vm_compute; reflexivity|]. split; [cbn; lia|]. intros i j x y Hi Hj Hx Hy.
  unfold in_tier, tier_size, saturating_mul, SIZE_TIER_RATIO.
  destruct i as [|[|[|[|i]]]], j as [|[|[|[|j]]]]; cbn in *; simplify_eq; lia.
Qed.
