(* ===== verification/CompactionReads.v ===== *)
(** What a compaction of the stack does to the reads of a snapshot: [compact_levels] is transparent
    for every node the stack does not delete and recreate, and the four ways in which it, or
    the entries it merges, fall short of what the code documents. *)

From stdpp Require Import sorting.
From S2P Require Import Prelude Values Wire Identity WalCodec NodeDelta DeltaFold Memtable.
From S2P Require Import MemtableInv MemtableApply Snapshot SnapshotRead Compaction CompactionFold.
From S2P Require Import CompactionReplay CompactionEdges CompactionMerge CompactionSelect.
Import DeltaSnapshot.

(** * Folding a run, then folding the result *)

(** The levels, newest first, write a node after an older one of them deleted it. *)
Definition revives (ps : list (option NodeDelta)) : Prop :=
  ∃ newer nd older td, ps = newer ++ Some nd :: older ∧ tombstoned nd = false ∧
    Some td ∈ older ∧ tombstoned td = true.

Lemma revives_cons p ps : revives ps → revives (p :: ps).
Proof. intros (newer & nd & older & td & -> & H). by exists (p :: newer), nd, older, td. Qed.

Lemma revives_app ps qs : revives ps → revives (ps ++ qs).
Proof.
  intros (newer & nd & older & td & -> & Hn & Hin & Ht). exists newer, nd, (older ++ qs), td.
  rewrite <-app_assoc. split_and!; [done|done| |done]. apply elem_of_app. by left.
Qed.

Lemma revives_app_r ps qs : revives qs → revives (ps ++ qs).
Proof. intros H. induction ps as [|p ps IH]; [done|]. by apply revives_cons. Qed.

(** A node no level deletes is not revived. *)
Lemma never_deleted ps : forallb (λ p, negb (default false (tombstoned <$> p))) ps = true → ¬ revives ps.
Proof.
  intros H (newer & nd & older & td & -> & _ & Hin & Ht). rewrite forallb_forall in H.
  specialize (H (Some td)). cbn in H. rewrite Ht in H. assert (false = true); [|done]. apply H.
  apply list_elem_of_In, elem_of_app. right. by right.
Qed.

Lemma fold_newest_wf ps nd : Forall (λ p, ∀ nd, p = Some nd → delta_wf nd) ps →
  fold_newest ps = Some nd → delta_wf nd.
Proof.
  revert nd. induction ps as [|p ps IH]; intros nd Hw; [done|]. inversion Hw as [|? ? Hp Hw']; subst.
  change (fold_newest (p :: ps)) with (fold_patch (fold_newest ps) p).
  destruct p as [d|]; [|by apply IH]. destruct (fold_newest ps) as [a|]; cbn; intros [= <-]; [|by apply Hp].
  apply fold_newer_wf; [by apply IH|by apply Hp].
Qed.

(** A run that does not revive the node folds as one level would. *)
Lemma fold_newest_app ps qs : Forall (λ p, ∀ nd, p = Some nd → delta_wf nd) (ps ++ qs) →
  ¬ revives (ps ++ qs) → fold_newest (ps ++ qs) = fold_patch (fold_newest qs) (fold_newest ps).
Proof.
  induction ps as [|p ps IH]; intros Hw Hr; [done|]. inversion Hw as [|? ? Hp Hw']; subst.
  change (fold_newest ((p :: ps) ++ qs)) with (fold_patch (fold_newest (ps ++ qs)) p).
  change (fold_newest (p :: ps)) with (fold_patch (fold_newest ps) p).
  rewrite IH; [|done|by intros H; apply Hr, revives_cons].
  destruct p as [c|]; [|done]. destruct (fold_newest ps) as [b|] eqn:Eb; [|done].
  destruct (fold_newest qs) as [a|] eqn:Ea; [|done]. cbn. f_equal.
  apply Forall_app in Hw' as [Hps Hqs].
  apply fold_newer_assoc; [exact (fold_newest_wf qs a Hqs Ea)|exact (fold_newest_wf ps b Hps Eb)|by apply Hp|].
  intros Tb. destruct (tombstoned c) eqn:Tc; [done|exfalso]. apply Hr.
  pose proof (fold_newest_tombstoned ps) as Ht. rewrite Eb in Ht. cbn in Ht. rewrite Tb in Ht.
  symmetry in Ht. apply find_map_Some in Ht as (x & Hx & Htx).
  destruct x as [td|]; [|done]. cbn in Htx. injection Htx as Htx.
  exists [], c, (ps ++ qs), td. split_and!; [done|done| |done]. apply elem_of_app. by left.
Qed.

(** * Slices of a stack *)

Definition slice {A} (s e : nat) (l : list A) : list A := take (e - s) (drop s l).

Lemma slice_split {A} s e (l : list A) : (s <= e)%nat → l = take s l ++ slice s e l ++ drop e l.
Proof.
  intros Hse. rewrite <-(take_drop s l) at 1. f_equal. unfold slice.
  rewrite <-(take_drop (e - s) (drop s l)) at 1. f_equal. rewrite drop_drop. f_equal. lia.
Qed.

Lemma tiled_tail base count m ms : tiled base count (m :: ms) → tiled base count ms.
Proof. destruct ms; [done|]. by intros [_ ?]. Qed.

Lemma tiled_take base count n ms : tiled base count ms → tiled base count (take n ms).
Proof.
  revert n. induction ms as [|m ms IH]; intros [|n] Ht; try done. pose proof (tiled_tail _ _ _ _ Ht) as Ht'.
  destruct ms as [|m2 ms]; [by destruct n|]. destruct n as [|n]; [done|]. destruct Ht as [E _].
  cbn [take]. split; [done|]. by apply (IH (S n)).
Qed.

Lemma tiled_drop base count n ms : tiled base count ms → tiled base count (drop n ms).
Proof. revert n. induction ms as [|m ms IH]; intros [|n] Ht; try done. cbn [drop]. by eapply IH, tiled_tail. Qed.

(** Bases grow towards the newer levels. *)
Lemma tiled_base (base count : Memtable → Z) ms oldest m : tiled base count ms → (∀ m, m ∈ ms → 0 <= count m) →
  last ms = Some oldest → m ∈ ms → base oldest <= base m.
Proof.
  intros Ht Hc Hl Hm. destruct (tiled_range base count (λ m d, base m <= d < base m + count m) ms oldest Hl Ht)
    as (_ & _ & _ & Hge & _); [|by apply Hge]. intros x Hx. split; [by apply Hc|]. intros d. lia.
Qed.

Lemma total_sub count ms ms' : (∀ m, 0 <= count m) → ms' `sublist_of` ms → total count ms' <= total count ms.
Proof.
  intros Hc Hs. induction Hs as [|m l l' Hs IH|m l l' Hs IH]; [done|..];
    change (total count (m :: ?x)) with (count m + total count x) in *; specialize (Hc m); lia.
Qed.

Lemma run_ok_slice ms oldest s e : run_ok ms oldest → (s < e <= length ms)%nat →
  ∃ o, run_ok (slice s e ms) o.
Proof.
  intros [Hl Hn He Ht Hte Hroom] Hse. unfold slice.
  assert (∀ m, m ∈ take (e - s) (drop s ms) → m ∈ ms) as Hsub.
  { intros m (i & Hi)%list_elem_of_lookup. apply lookup_take_Some in Hi as [Hi _]. rewrite lookup_drop in Hi.
    by eapply list_elem_of_lookup_2. }
  destruct (last (take (e - s) (drop s ms))) as [o|] eqn:Eo.
  2: { apply last_None in Eo. pose proof (f_equal length Eo) as El. rewrite length_take, length_drop in El. cbn in El. lia. }
  exists o. assert (o ∈ ms) as Ho by (apply Hsub; by apply last_Some_elem_of).
  assert (take (e - s) (drop s ms) `sublist_of` ms) as Hsl by (etrans; [apply sublist_take|apply sublist_drop]).
  split.
  - done.
  - destruct Hn as [H1 H2 H3]. split.
    + intros m Hm. exact (H1 m (Hsub m Hm)).
    + intros m Hm. exact (H2 m (Hsub m Hm)).
    + intros m m' d d' n n' Hm Hm'. apply H3; by apply Hsub.
  - pose proof (tiled_base _ _ ms oldest o Hte ltac:(intros; apply zlen_nonneg) Hl Ho) as Hb.
    destruct He as [H1 H2 H3 H4]. split.
    + intros m eck x Hm. apply (H1 m eck x (Hsub m Hm)).
    + intros m eck x k v Hm. apply (H2 m eck x k v (Hsub m Hm)).
    + intros m eck x cid Hm Hx Hc. destruct (H3 m eck x cid (Hsub m Hm) Hx Hc) as [Hlt Hu]. split; [lia|].
      intros m' eck' x' Hm'. apply (Hu m' eck' x' (Hsub m' Hm')).
    + intros m eck x i m' eck' x' i' Hm Hx Hi Hm'. apply (H4 m eck x i m' eck' x' i' (Hsub m Hm) Hx Hi (Hsub m' Hm')).
  - by apply tiled_take, tiled_drop.
  - by apply tiled_take, tiled_drop.
  - assert (∀ m, 0 <= Memtable.node_delta_count m) as C1 by (intros; unfold Memtable.node_delta_count; lia).
    assert (∀ m, 0 <= Memtable.edge_delta_count m) as C2 by (intros; unfold Memtable.edge_delta_count; lia).
    pose proof (total_sub _ _ _ C1 Hsl). pose proof (total_sub _ _ _ C2 Hsl). lia.
Qed.

(** * Compaction of a stack *)

Lemma find_map_app {A B} (f : A → option B) a b :
  find_map f (a ++ b) = match find_map f a with Some y => Some y | None => find_map f b end.
Proof. induction a as [|x a IH]; cbn; [done|]. by destruct (f x). Qed.

Definition stack (l0 : list Memtable) : list level := map (λ m, dyn m) l0.

Lemma stack_patches d active l0 :
  node_patch d (with_levels active (stack l0)) = fold_patch (fold_newest (map (Memtable.node_patch d) l0)) (Memtable.node_patch d active).
Proof.
  rewrite node_patch_fold. unfold patches_of, levels_newest_first, stack. cbn [mem Snapshot.l0 with_levels map].
  rewrite map_map. done.
Qed.

Lemma stack_tombstoned d active l0 : is_tombstoned d (with_levels active (stack l0)) =
  default false (match tombstoned <$> Memtable.node_patch d active with
                 | Some t => Some t
                 | None => tombstoned <$> fold_newest (map (Memtable.node_patch d) l0)
                 end).
Proof.
  unfold is_tombstoned, levels_newest_first, stack. cbn [mem Snapshot.l0 with_levels find_map].
  rewrite fold_newest_tombstoned, !find_map_map. done.
Qed.

Lemma fold_newest_outer ps qs qs' : fold_newest qs = fold_newest qs' → fold_newest (ps ++ qs) = fold_newest (ps ++ qs').
Proof. intros E. unfold fold_newest in *. by rewrite !foldr_app, E. Qed.

Section compaction.
Context {layout : Layout} {order : HashWalk}.

(** The stack with a run replaced by its merge. *)
Lemma spliced_reads l0 oldest s e : run_ok l0 oldest → (s + 2 <= e <= length l0)%nat →
  ∃ m, merge_levels (slice s e l0) = Some m ∧ memtable_wf m ∧
    let l0' := take s l0 ++ m :: drop e l0 in
    (∀ d, find_map (Memtable.node_identity_by_dense d) l0' = find_map (Memtable.node_identity_by_dense d) l0) ∧
    (∀ d, tombstoned <$> fold_newest (map (Memtable.node_patch d) l0') =
          tombstoned <$> fold_newest (map (Memtable.node_patch d) l0)) ∧
    ∀ d, ¬ revives (map (Memtable.node_patch d) l0) →
      fold_newest (map (Memtable.node_patch d) l0') = fold_newest (map (Memtable.node_patch d) l0).
Proof.
  intros Hok Hse. destruct (run_ok_slice l0 oldest s e Hok ltac:(lia)) as [o Hrun].
  destruct (merge_levels_built (slice s e l0) o Hrun) as (m0 & m & nb & ne & Em & Hb & He).
  pose proof (eb_nodes _ _ _ _ He) as (N1 & N2 & _ & _). exists m. split; [done|]. split; [apply He|]. cbv zeta.
  assert (∀ d, Memtable.node_patch d m = fold_newest (map (Memtable.node_patch d) (slice s e l0))) as Hp.
  { intros d. unfold Memtable.node_patch at 1. rewrite N1, N2.
    apply (rebuilt_patch (slice s e l0) o (ro_nodes _ _ Hrun) _ m0 _ _ d Hb (replay_order_perm _ o)). }
  pose proof (slice_split s e l0 ltac:(lia)) as El. split_and!.
  - intros d. rewrite El at 3. rewrite !find_map_app. cbn [find_map].
    destruct (find_map _ (take s l0)); [done|].
    by rewrite (merged_identity m0 m (slice s e l0) o nb ne d Hrun Hb He).
  - intros d. rewrite El at 3. rewrite !map_app, !fold_newest_tombstoned, !find_map_app. cbn [map find_map].
    destruct (find_map _ (map _ (take s l0))); [done|]. by rewrite Hp, fold_newest_tombstoned.
  - intros d Hr. rewrite El at 3. rewrite !map_app. apply fold_newest_outer. cbn [map].
    change (fold_newest (?p :: ?ps)) with (fold_patch (fold_newest ps) p). rewrite Hp. symmetry. apply fold_newest_app.
    + apply Forall_forall. intros p Hin nd ->. rewrite <-map_app in Hin. apply list_elem_of_fmap in Hin as (x & Ex & Hx).
      apply (patch_wf l0 (ro_nodes _ _ Hok) x d nd); [|done]. rewrite El. apply elem_of_app. by right.
    + intros H. apply Hr. rewrite El, !map_app. by apply revives_app_r.
Qed.
End compaction.

Section properties.
Context {layout : Layout} {order : HashWalk}.

(** Merging a contiguous run of consistent levels never panics and yields a consistent
    level on the oldest level's bases, whatever order the hash maps are walked in.  Under every
    dense id it reads the newest-wins fold of the run, with the identity the run has for it;
    and under every edge name it holds the fold of the run's entries, with the newest
    endpoints and the ids the edge was born under or patches. *)
Theorem merge_levels_folds ms oldest : run_ok ms oldest →
  ∃ m, merge_levels ms = Some m ∧ memtable_wf m ∧
    Memtable.synthetic_base m = Memtable.synthetic_base oldest ∧
    Memtable.edge_synthetic_base m = Memtable.edge_synthetic_base oldest ∧
    (∀ d, Memtable.node_patch d m = fold_newest (map (Memtable.node_patch d) ms)) ∧
    (∀ d, Memtable.node_identity_by_dense d m = find_map (Memtable.node_identity_by_dense d) ms) ∧
    ∀ en, edge_name_ok en →
      match edge_fold en (omap (find_edge en) (rev ms)), find_edge en m with
      | Some f, Some e => edge_is f e
      | None, None => True
      | _, _ => False
      end.
Proof.
  intros Hok. destruct (merge_levels_built ms oldest Hok) as (m0 & m & nb & ne & E & Hb & He). exists m.
  pose proof (eb_nodes _ _ _ _ He) as (N1 & N2 & N3 & N4). pose proof (ro_nodes _ _ Hok) as Hrun.
  split_and!; [done|apply He|rewrite N3; apply Hb| | | |].
  - rewrite (eb_base _ _ _ _ He). by destruct (b_edges _ _ _ _ _ Hb) as (_&_&_&_&?&_).
  - intros d. unfold Memtable.node_patch at 1. rewrite N1, N2. fold (Memtable.node_patch d m0).
    eapply rebuilt_patch; [done..|apply replay_order_perm].
  - intros d. by eapply merged_identity.
  - intros en Hen. by eapply merged_edge.
Qed.

(** C26: Compacting a consistent stack never panics and leaves consistent levels.  Below any
    active level every dense id keeps its identity and its liveness, and every node the stack
    does not write after deleting it keeps the very delta the levels folded to. *)
Theorem compaction_transparent consolidating sizes l0 oldest active :
  run_ok l0 oldest → sizes_ok sizes → length sizes = length l0 →
  ∃ b l0', compact_levels consolidating sizes l0 = Some (b, l0') ∧ Forall memtable_wf l0' ∧
    let before := with_levels active (stack l0) in
    let after := with_levels active (stack l0') in
    ∀ d, node_identity_by_dense d after = node_identity_by_dense d before ∧
      is_tombstoned d after = is_tombstoned d before ∧
      (¬ revives (map (Memtable.node_patch d) l0) → node_patch d after = node_patch d before).
Proof.
  intros Hok Hs Hlen.
  assert (Forall memtable_wf l0) as Hw by (apply Forall_forall; exact (run_wf _ (ro_nodes _ _ Hok))).
  unfold compact_levels. destruct consolidating; [by exists false, l0|].
  destruct (length l0 <? 2)%nat eqn:E2; [by exists false, l0|].
  pose proof (select_span_loop_spec (length sizes) sizes (replicate (length l0) false) 0 None Hs) as Hsel.
  fold (select_compaction_run_in_stack sizes (replicate (length l0) false)) in Hsel.
  destruct (select_compaction_run_in_stack sizes (replicate (length l0) false)) as [[s e]|]; [|by exists false, l0].
  destruct Hsel as [[Hr _] _]; [by rewrite length_replicate|lia|done|]. rewrite Hlen in Hr.
  destruct (spliced_reads l0 oldest s e Hok Hr) as (m & Em & Hm & Hid & Ht & Hp). fold (slice s e l0). rewrite Em.
  exists true, (take s l0 ++ m :: drop e l0). split; [done|]. split.
  { apply Forall_app. split; [by apply Forall_take|]. constructor; [done|by apply Forall_drop]. }
  cbv zeta. intros d. split_and!.
  - unfold node_identity_by_dense, levels_newest_first, stack. cbn [mem Snapshot.l0 with_levels find_map].
    rewrite !find_map_map. change (node_identity_owned (dyn ?x) d) with (Memtable.node_identity_by_dense d x).
    destruct (Memtable.node_identity_by_dense d active); [done|]. exact (Hid d).
  - by rewrite !stack_tombstoned, Ht.
  - intros Hr'. by rewrite !stack_patches, Hp.
Qed.
End properties.

(** * Levels that evaluate *)

#[local] Instance names_are_decision i n l k v : Decision (names_are i n l k v).
Proof. unfold names_are. apply _. Defined.
#[local] Instance edge_names_are_decision i n en : Decision (edge_names_are i n en).
Proof.
  unfold edge_names_are. repeat apply and_dec; try apply _.
  destruct (ei_key n) as [[? ?]|], (en_key en) as [[? ?]|]; apply _.
Defined.
#[local] Instance EdgeNames_eq_dec : EqDecision EdgeNames.
Proof. solve_decision. Defined.

(** A sufficient condition for a stable resolution: the level holds the edge, if at all, as
    one it does not know a core id of. *)
Definition op_resolves_b (m : Memtable) (op : WalOp) (res : OpResolution) : bool :=
  match res with
  | ResNode r => match node_key op with
                 | Some (l, k, v) => resolves_b m (node_ck l k v m) r
                 | None => false
                 end
  | ResEdge s d eid =>
      match edge_keys op with
      | Some (src, rt, dst) =>
          let en := mkEdgeNames src rt dst (edge_identity_key op) in
          endpoint_resolves_b m src s && endpoint_resolves_b m dst d &&
          forallb (λ p, negb (bool_decide (edge_names_are (interner m) (e_identity p.2) en)) ||
                        (bool_decide (core_edge p.2 = None) && bool_decide (eid = None)))
            (map_to_list (edges m)) &&
          match eid with
          | Some cid => bool_decide (cid < Memtable.edge_synthetic_base m) && bool_decide (by_edge_id m !! cid = None)
          | None => true
          end
      | None => false
      end
  end.

Lemma op_resolves_b_sound m op res : op_resolves_b m op res = true → op_resolves m op res.
Proof.
  unfold op_resolves_b, op_resolves. destruct res as [r|s d eid].
  - destruct (node_key op) as [[[l k] v]|]; [|done]. intros H. exists l, k, v. split; [done|by apply resolves_b_sound].
  - destruct (edge_keys op) as [[[src rt] dst]|]; [|done]. cbv zeta.
    intros [[[H1 H2]%andb_true_iff H3]%andb_true_iff H4]%andb_true_iff. exists src, rt, dst.
    split_and!; [done|by apply endpoint_resolves_b_sound..|]. split.
    + intros eck e He Hn. rewrite forallb_forall in H3. specialize (H3 (eck, e)). cbn in H3.
      rewrite <-list_elem_of_In, elem_of_map_to_list, bool_decide_eq_true_2 in H3 by done. cbn in H3.
      apply andb_true_iff in H3 as [Hc%bool_decide_eq_true He'%bool_decide_eq_true]; [|done].
      rewrite Hc, He'. split; [by intros [? ?]|done].
    + intros cid ->. apply andb_true_iff in H4 as [?%bool_decide_eq_true ?%bool_decide_eq_true]. split; [done|congruence].
Qed.

Section levels.
Context {layout : Layout}.

(** The level a list of resolved writes builds on an empty one, if they are stable. *)
Definition level_step (m : option Memtable) (p : WalOp * OpResolution) : option Memtable :=
  m ← m;
  if op_resolves_b m p.1 p.2 && (zlen (int_names (interner m)) + 10 <=? 2 ^ 32) then apply p.1 p.2 m else None.

Definition level_run (nb eb : Z) (h : list (WalOp * OpResolution)) : option Memtable :=
  foldl level_step (Some (with_bases nb eb)) h.

Definition built_level (nb eb : Z) (h : list (WalOp * OpResolution)) : Memtable :=
  default (with_bases nb eb) (level_run nb eb h).

Lemma level_steps_history h m m' : Forall (λ p, op_ok p.1) h → foldl level_step (Some m) h = Some m' → history m h m'.
Proof.
  assert (∀ h, foldl level_step None h = None) as Hnone by (induction h0; done).
  revert m. induction h as [|[op res] h IH]; intros m Hok E; cbn [foldl] in E; [injection E as <-; constructor|].
  inversion Hok as [|? ? Hop Hok']; subst. unfold level_step at 2 in E. cbn in E.
  destruct (op_resolves_b m op res) eqn:Er; [|by rewrite Hnone in E].
  destruct (zlen (int_names (interner m)) + 10 <=? 2 ^ 32) eqn:Eroom; [|by rewrite Hnone in E]. cbn in E.
  destruct (apply op res m) as [m1|] eqn:Ea; [|by rewrite Hnone in E].
  apply history_cons with (m1 := m1); [done|by apply Z.leb_le in Eroom|by apply op_resolves_b_sound|done|by apply IH].
Qed.

Lemma built_level_history nb eb h : Forall (λ p, op_ok p.1) h → bool_decide (is_Some (level_run nb eb h)) = true →
  history (with_bases nb eb) h (built_level nb eb h).
Proof. intros Hok [m Hm]%bool_decide_eq_true. unfold built_level. rewrite Hm. by apply level_steps_history. Qed.

Lemma built_level_wf nb eb h : Forall (λ p, op_ok p.1) h → bool_decide (is_Some (level_run nb eb h)) = true →
  memtable_wf (built_level nb eb h).
Proof. intros Hok Hr. eapply history_wf; [by apply built_level_history|apply with_bases_wf]. Qed.
End levels.

(** Every name and id, and every edge entry with its names, of a run. *)
Definition run_names (ms : list Memtable) : list ((str * str * Value.t) * Z) :=
  concat (map (λ m, omap (λ p, (λ n, (n, p.1)) <$> Memtable.node_identity_by_dense p.1 m)
                      (map_to_list (by_dense m))) ms).
Definition run_entries (ms : list Memtable) : list (EdgeNames * EdgeEntry) :=
  concat (map (λ m, map (λ p, (entry_names m p.2, p.2)) (map_to_list (edges m))) ms).

(** The contract of [merge_levels], evaluated. *)
Definition run_ok_b (ms : list Memtable) (oldest : Memtable) : bool :=
  forallb (λ m, forallb (λ n, zlen n <? 2 ^ 63) (int_names (interner m))) ms &&
  forallb (λ r, forallb (λ q, bool_decide (r.1 = q.1 ↔ r.2 = q.2)) (run_names ms)) (run_names ms) &&
  forallb (λ r,
    (e_tombstoned (e_delta r.2) ||
     (bool_decide (is_Some (synthetic_edge r.2)) || bool_decide (is_Some (core_edge r.2))) &&
     match en_key r.1 with
     | Some (k, v) => bool_decide (e_patches (e_delta r.2) !! k = Some v)
     | None => true
     end) &&
    match core_edge r.2 with
    | Some cid => bool_decide (cid < Memtable.edge_synthetic_base oldest) &&
        forallb (λ q, bool_decide (core_edge q.2 = Some cid → q.1 = r.1)) (run_entries ms)
    | None => true
    end &&
    match synthetic_edge r.2 with
    | Some s => forallb (λ q, match synthetic_edge q.2 with
                              | Some s' => bool_decide (q.1 = r.1 ↔ s = s')
                              | None => true
                              end) (run_entries ms)
    | None => true
    end) (run_entries ms) &&
  (2 * total Memtable.node_delta_count ms + 6 * total Memtable.edge_delta_count ms + 16 <=? 2 ^ 32).

Lemma elem_of_run_names ms m d n : m ∈ ms → Memtable.node_identity_by_dense d m = Some n → (n, d) ∈ run_names ms.
Proof.
  intros Hm Hn. unfold run_names. apply elem_of_concat_map. exists m. split; [done|].
  apply list_elem_of_omap. destruct (by_dense m !! d) as [ck|] eqn:Hck.
  - exists (d, ck). rewrite elem_of_map_to_list. split; [done|]. cbn. by rewrite Hn.
  - unfold Memtable.node_identity_by_dense in Hn. by rewrite Hck in Hn.
Qed.

Lemma elem_of_run_entries ms m eck e : m ∈ ms → edges m !! eck = Some e → (entry_names m e, e) ∈ run_entries ms.
Proof.
  intros Hm He. unfold run_entries. apply elem_of_concat_map. exists m. split; [done|].
  apply list_elem_of_fmap. exists (eck, e). by rewrite elem_of_map_to_list.
Qed.

Lemma run_ok_b_sound ms oldest : last ms = Some oldest → (∀ m, m ∈ ms → memtable_wf m) →
  tiled Memtable.synthetic_base Memtable.born_count ms →
  tiled Memtable.edge_synthetic_base Memtable.born_edge_count ms →
  run_ok_b ms oldest = true → run_ok ms oldest.
Proof.
  intros Hl Hw Ht Hte [[[Hf Hs]%andb_true_iff He]%andb_true_iff Hr]%andb_true_iff.
  rewrite forallb_forall in Hf, Hs, He. setoid_rewrite forallb_forall in Hf. setoid_rewrite forallb_forall in Hs.
  setoid_rewrite <-list_elem_of_In in Hf. setoid_rewrite <-list_elem_of_In in Hs. setoid_rewrite <-list_elem_of_In in He.
  split; try done.
  - split; [done| |].
    + intros m Hm. apply Forall_forall. intros n Hn. by apply Z.ltb_lt, (Hf m Hm n Hn).
    + intros m m' d d' n n' Hm Hm' Hn Hn'. pose proof (Hs _ (elem_of_run_names _ _ _ _ Hm Hn) _ (elem_of_run_names _ _ _ _ Hm' Hn')) as H.
      by apply bool_decide_eq_true in H.
  - split.
    + intros m eck e Hm Hck Hlive. pose proof (He _ (elem_of_run_entries _ _ _ _ Hm Hck)) as H. cbn in H. rewrite Hlive in H. cbn in H.
      apply andb_true_iff in H as [[[H _]%andb_true_iff _]%andb_true_iff _].
      by apply orb_true_iff in H as [?%bool_decide_eq_true|?%bool_decide_eq_true]; [left|right].
    + intros m eck e k v Hm Hck Hlive Hk. pose proof (He _ (elem_of_run_entries _ _ _ _ Hm Hck)) as H.
      cbn [fst snd] in H. rewrite Hlive, Hk in H. cbn in H.
      apply andb_true_iff in H as [[[_ H]%andb_true_iff _]%andb_true_iff _]. by apply bool_decide_eq_true in H.
    + intros m eck e cid Hm Hck Hc. pose proof (He _ (elem_of_run_entries _ _ _ _ Hm Hck)) as H. cbn [fst snd] in H. rewrite Hc in H.
      apply andb_true_iff in H as [[_ [Hlt%bool_decide_eq_true H]%andb_true_iff]%andb_true_iff _]. split; [done|].
      intros m' eck' e' Hm' Hck' Hc'. rewrite forallb_forall in H. setoid_rewrite <-list_elem_of_In in H.
      specialize (H _ (elem_of_run_entries _ _ _ _ Hm' Hck')). apply bool_decide_eq_true in H. by apply H.
    + intros m eck e s m' eck' e' s' Hm Hck Hes Hm' Hck' Hes'. pose proof (He _ (elem_of_run_entries _ _ _ _ Hm Hck)) as H.
      cbn [fst snd] in H. rewrite Hes in H. apply andb_true_iff in H as [_ H]. rewrite forallb_forall in H. setoid_rewrite <-list_elem_of_In in H.
      specialize (H _ (elem_of_run_entries _ _ _ _ Hm' Hck')). cbn [fst snd] in H. rewrite Hes' in H. by apply bool_decide_eq_true in H.
  - by apply Z.leb_le.
Qed.

Section examples.
#[local] Instance example_layout : Layout := {| size_of_NodeEntry := 200; size_of_EdgeEntry := 320 |}.
#[local] Existing Instance stored_walk.

Definition put (n : Z) (prop : str) (x : Z) : WalOp :=
  UpsertNode (lit "P") (lit "id") (Value.Int n) [(prop, Value.Int x)].
Definition drop_node (n : Z) : WalOp := DeleteNode (lit "P") (lit "id") (Value.Int n).
Definition link (a : Z) (rt : str) (b : Z) (ek : option (str * Value.t)) (prop : str) (x : Z) : WalOp :=
  UpsertEdge (lit "P") (lit "id") (Value.Int a) rt (lit "P") (lit "id") (Value.Int b) ek false [(prop, Value.Int x)].
Definition unlink (a : Z) (rt : str) (b : Z) : WalOp :=
  DeleteEdge (lit "P") (lit "id") (Value.Int a) rt (lit "P") (lit "id") (Value.Int b) None.

Ltac concrete_level := by (repeat apply Forall_cons_2; try apply Forall_nil_2; cbn [fst]; unfold put, drop_node, link, unlink; concrete_ok).

(** A node and two edges born in one level; in the next the node is written again, one edge is
    deleted, a core edge patched and a core node deleted. *)
Definition older_level : Memtable := built_level 10 5 [
  (put 1 (lit "x") 1, ResNode None);
  (link 3 (lit "R") 4 None (lit "w") 1, ResEdge (Some 1) (Some 2) None);
  (link 3 (lit "R") 4 (Some (lit "u", Value.Int 7)) (lit "w") 2, ResEdge (Some 1) (Some 2) None)].
Definition newer_level : Memtable := built_level 11 7 [
  (put 1 (lit "x") 2, ResNode (Some 10));
  (unlink 3 (lit "R") 4, ResEdge (Some 1) (Some 2) None);
  (link 3 (lit "C") 4 None (lit "w") 3, ResEdge (Some 1) (Some 2) (Some 4));
  (drop_node 9, ResNode (Some 3))].

Lemma example_run_ok : run_ok [newer_level; older_level] older_level.
Proof.
  apply run_ok_b_sound; [done| | | |by vm_compute].
  - intros m [->|[->|[]%not_elem_of_nil]%elem_of_cons]%elem_of_cons.
    + apply built_level_wf; [concrete_level|by vm_compute].
    + apply built_level_wf; [concrete_level|by vm_compute].
  - split; [by vm_compute|done].
  - split; [by vm_compute|done].
Qed.

Lemma compaction_transparent_witness : ∃ l0',
  compact_levels false [100; 120] [newer_level; older_level] = Some (true, l0') ∧
  node_patch 10 (with_levels (with_bases 11 7) (stack l0')) =
  Some (mkNodeDelta {[ lit "x" := Value.Int 2 ]} ∅ false ∅ ∅ false).
Proof.
  destruct (compaction_transparent false [100; 120] [newer_level; older_level] older_level (with_bases 11 7)
    example_run_ok ltac:(repeat constructor; done) eq_refl) as (b & l0' & E & _ & H).
  exists l0'. split.
  - rewrite E. f_equal. f_equal. vm_compute in E. injection E as <- _. reflexivity.
  - destruct (H 10) as (_ & _ & Hp). rewrite Hp; [vm_compute; reflexivity|].
    apply never_deleted. vm_compute. reflexivity.
Defined.

(** ** Where compaction shows *)

(** A core node given a property, deleted, and written again, in three levels. *)
Definition patched_x : Memtable := built_level 10 5 [(put 1 (lit "x") 1, ResNode (Some 3))].
Definition deleted_x : Memtable := built_level 10 5 [(drop_node 1, ResNode (Some 3))].
Definition patched_y : Memtable := built_level 10 5 [(put 1 (lit "y") 2, ResNode (Some 3))].

(** Compaction can bring back a deleted property.  Where a node was patched in an old
    level, deleted in a newer and written again in the newest, the levels read no [x]; the
    merge of the two newer ones forgets the deletion, and the [x] of the old level is read
    again.  The stack is one [compact_levels] accepts and merges in part. *)
Theorem compaction_revives_property :
  let l0 := [patched_y; deleted_x; patched_x] in
  let read l0 := node_patch 3 (with_levels (with_bases 10 5) (stack l0)) ≫= λ nd, eff_prop (λ _, None) nd (lit "x") in
  run_ok l0 patched_x ∧ read l0 = None ∧
  ∃ l0', compact_levels false [10; 10; 1000] l0 = Some (true, l0') ∧ read l0' = Some (Value.Int 1).
Proof.
  cbv zeta. split; [|split; [by vm_compute|]].
  - apply run_ok_b_sound; [done| | | |by vm_compute].
    + intros m [->|[->|[->|[]%not_elem_of_nil]%elem_of_cons]%elem_of_cons]%elem_of_cons;
        (apply built_level_wf; [concrete_level|by vm_compute]).
    + split; [by vm_compute|]. split; [by vm_compute|done].
    + split; [by vm_compute|]. split; [by vm_compute|done].
  - eexists. split; [vm_compute; reflexivity|]. vm_compute. reflexivity.
Qed.

(** An edge the core does not hold, deleted and then merged again within one level. *)
Definition remerged : list (WalOp * OpResolution) := [
  (unlink 3 (lit "R") 4, ResEdge (Some 1) (Some 2) None);
  (link 3 (lit "R") 4 None (lit "w") 1, ResEdge (Some 1) (Some 2) None)].

(** An edge merged after a delete in the same level is lost, and its level cannot be
    compacted.  The delete stores a tombstone without an id; the merge that follows finds the
    entry and allocates none, so the live edge is listed under no id, which the traversal
    skips; and merging the level with any other panics. *)
Theorem remerge_after_delete_lost :
  history (with_bases 10 5) remerged (built_level 10 5 remerged) ∧
  map (λ e, (other e, edge_id e, de_tombstoned e)) (Memtable.out_edges 1 (built_level 10 5 remerged)) = [(2, None, false)] ∧
  merge_levels [built_level 10 5 remerged; with_bases 10 5] = None.
Proof.
  split; [apply built_level_history; [concrete_level|by vm_compute]|]. by vm_compute.
Qed.

(** An edge merged in two levels, and another one born after it. *)
Definition first_birth : Memtable := built_level 10 5 [(link 3 (lit "R") 4 None (lit "w") 1, ResEdge (Some 1) (Some 2) None)].
Definition second_birth : Memtable := built_level 10 6 [
  (link 3 (lit "R") 4 None (lit "w") 2, ResEdge (Some 1) (Some 2) None);
  (link 3 (lit "S") 4 None (lit "w") 9, ResEdge (Some 1) (Some 2) None)].

(** Compaction renumbers born edges when an edge was merged in two levels of the run.  The
    second merge allocates a second id for it, which the merge of the levels drops: the edge
    born after it moves down to that id, and its own id dangles. *)
Theorem compaction_renumbers_edges :
  memtable_wf first_birth ∧ memtable_wf second_birth ∧
  tiled Memtable.edge_synthetic_base Memtable.born_edge_count [second_birth; first_birth] ∧
  let weight id m := Memtable.edge_delta_by_id id m ≫= λ d, e_patches d !! lit "w" in
  weight 6 second_birth = Some (Value.Int 2) ∧ weight 7 second_birth = Some (Value.Int 9) ∧
  ∃ m, merge_levels [second_birth; first_birth] = Some m ∧
    weight 6 m = Some (Value.Int 9) ∧ weight 7 m = None.
Proof.
  assert (memtable_wf first_birth) as W1 by (apply built_level_wf; [concrete_level|by vm_compute]).
  assert (memtable_wf second_birth) as W2 by (apply built_level_wf; [concrete_level|by vm_compute]).
  split; [done|]. split; [done|]. split; [by split; [vm_compute|]|]. cbv zeta.
  split; [by vm_compute|]. split; [by vm_compute|].
  eexists. split; [vm_compute; reflexivity|]. by vm_compute.
Qed.

(** A core edge written under two identities loses the first write.  A merge without a key
    and one that names the edge by a property resolve to the same core edge but to two
    entries, and the id index keeps the last: the property the first write set is no longer
    read. *)
Theorem core_patch_hidden :
  let read m := Memtable.edge_delta_by_id 4 m ≫= λ d, e_patches d !! lit "w" in
  ∃ m1 m2,
    apply (link 3 (lit "R") 4 None (lit "w") 1) (ResEdge (Some 1) (Some 2) (Some 4)) (with_bases 10 5) = Some m1 ∧
    apply (link 3 (lit "R") 4 (Some (lit "u", Value.Int 7)) (lit "z") 2) (ResEdge (Some 1) (Some 2) (Some 4)) m1 = Some m2 ∧
    read m1 = Some (Value.Int 1) ∧ read m2 = None.
Proof.
  cbv zeta. eexists. eexists. split; [vm_compute; reflexivity|]. split; [vm_compute; reflexivity|]. by vm_compute.
Qed.
End examples.
