(* ===== verification/TouchedJournal.v ===== *)
(** The journal of touched node ids: [TouchedJournal] of [slater/src/rwindex.rs], by which the
    writer tells the vector indexes what each journal_after epoch changed. *)

From S2P Require Import Prelude.

Record TouchedJournal := mkJournal {
  j_entries : list (Z * list Z);  (* epoch and touched ids, oldest first *)
  j_floor : Z;
  j_ids : Z;
}.

Definition JOURNAL_MAX_ENTRIES : Z := 8192.
Definition JOURNAL_MAX_IDS : Z := Z.shiftl 1 20.

(** What a publish tells the journal ([Journal] of [slater/src/delta_writer.rs]). *)
Inductive Journal :=
  | Touched (ids : list Z)
  | Rebased.

Module TouchedJournal.

Definition new (epoch : Z) : TouchedJournal := mkJournal [] epoch 0.

(** The [while] loop of [record], on the entries front to back. *)
Fixpoint trim (entries : list (Z * list Z)) (floor ids : Z) : TouchedJournal :=
  match entries with
  | [] => mkJournal [] floor ids
  | (e, dropped) :: rest =>
      if (JOURNAL_MAX_ENTRIES <? zlen entries) || ((JOURNAL_MAX_IDS <? ids) && (1 <? zlen entries))
      then trim rest e (ids - zlen dropped)
      else mkJournal entries floor ids
  end.

Definition record (epoch : Z) (ids : list Z) (j : TouchedJournal) : TouchedJournal :=
  trim (j_entries j ++ [(epoch, ids)]) (j_floor j) (j_ids j + zlen ids).

Definition reset (epoch : Z) (j : TouchedJournal) : TouchedJournal := mkJournal [] epoch 0.

(** The loop of [since]; [None] where it returns early. *)
Fixpoint since_loop (from to : Z) (entries : list (Z * list Z)) (expect : Z) (out : list Z) :
    option (Z * list Z) :=
  match entries with
  | [] => Some (expect, out)
  | (e, ids) :: rest =>
      if e <=? from then since_loop from to rest expect out
      else if to <? e then Some (expect, out)
      else if negb (e =? expect) then None
      else since_loop from to rest (expect + 1) (out ++ ids)
  end.

Definition since (from to : Z) (j : TouchedJournal) : option (list Z) :=
  if to =? from then Some []
  else if to <? from then None
  else if from <? j_floor j then None
  else
    '(expect, out) ← since_loop from to (j_entries j) (from + 1) [];
    if expect =? to + 1 then Some out else None.

(** The journal part of [DeltaWriter::republish] for a new epoch. *)
Definition settle (ev : Journal) (epoch : Z) (j : TouchedJournal) : TouchedJournal :=
  match ev with
  | Touched ids => record epoch ids j
  | Rebased => record epoch [] (reset epoch j)
  end.

End TouchedJournal.
Import TouchedJournal.

(** * What the journal answers *)

Definition ids_of (ev : Journal) : list Z := match ev with Touched ids => ids | Rebased => [] end.

(** The journal after a writer that opened at epoch 1 journal_after the given changes. *)
Fixpoint publish_all (epoch : Z) (evs : list Journal) (j : TouchedJournal) : TouchedJournal :=
  match evs with
  | [] => j
  | ev :: evs => publish_all (epoch + 1) evs (settle ev (epoch + 1) j)
  end.

Definition journal_after (evs : list Journal) : TouchedJournal := publish_all 1 evs (new 1).

(** The ids touched after epoch [from] and up to epoch [to]. *)
Definition touched_between (from to : Z) (evs : list Journal) : list Z :=
  concat (map ids_of (take (Z.to_nat (to - from)) (drop (Z.to_nat (from - 1)) evs))).

(** Epochs counted up from [e], each with its ids. *)
Fixpoint numbered (e : Z) (evs : list Journal) : list (Z * list Z) :=
  match evs with
  | [] => []
  | ev :: evs => (e + 1, ids_of ev) :: numbered (e + 1) evs
  end.

Lemma numbered_app e evs1 evs2 : numbered e (evs1 ++ evs2) = numbered e evs1 ++ numbered (e + zlen evs1) evs2.
Proof.
  revert e. induction evs1 as [|ev evs IH]; intros e; cbn [app numbered].
  - by rewrite Z.add_0_r.
  - rewrite IH, zlen_cons. cbn [app]. do 3 f_equal. lia.
Qed.

Definition total_ids (l : list (Z * list Z)) : Z := zlen (concat (map snd l)).

(** Since epoch [s] everything journal_after is in the journal, and its floor is not below. *)
Record covers (j : TouchedJournal) (evs : list Journal) (s : nat) : Prop := {
  cv_start : (s <= length evs)%nat;
  cv_entries : j_entries j = numbered (1 + Z.of_nat s) (drop s evs);
  cv_floor : 1 + Z.of_nat s <= j_floor j <= Z.min (2 + Z.of_nat s) (1 + zlen evs);
  cv_ids : j_ids j = total_ids (j_entries j);
  cv_rebased : ∀ k, evs !! k = Some Rebased → Z.of_nat k + 2 <= j_floor j;
}.

Definition bounded (j : TouchedJournal) : Prop :=
  zlen (j_entries j) <= JOURNAL_MAX_ENTRIES ∧ (j_ids j <= JOURNAL_MAX_IDS ∨ zlen (j_entries j) <= 1).

Lemma trim_covers evs s f i :
  covers (mkJournal (numbered (1 + Z.of_nat s) (drop s evs)) f i) evs s →
  let j := trim (numbered (1 + Z.of_nat s) (drop s evs)) f i in
  (∃ s', covers j evs s') ∧ bounded j.
Proof.
  remember (length evs - s)%nat as n eqn:En. revert s f i En.
  induction n as [|n IH]; intros s f i En Hc; cbv zeta; pose proof (cv_start _ _ _ Hc) as Hs.
  - rewrite drop_ge in Hc |- * by lia. cbn. split; [by exists s|]. split; [done|]. right. done.
  - destruct (lookup_lt_is_Some_2 evs s) as [ev Hev]; [lia|].
    pose proof Hc as [_ _ Hf Hi Hr]. cbn [j_floor j_ids j_entries] in *.
    rewrite (drop_S _ _ _ Hev) in Hi |- *. cbn [numbered trim] in Hi |- *.
    destruct (_ || _) eqn:Et.
    + replace (1 + Z.of_nat s + 1) with (1 + Z.of_nat (S s)) by lia.
      apply (IH (S s)); [lia|]. split; cbn [j_entries j_floor j_ids]; [lia|done| | |].
      * split; [lia|]. unfold zlen. apply lookup_lt_Some in Hev. lia.
      * unfold total_ids in *. cbn [map concat snd] in Hi. rewrite zlen_app in Hi.
        replace (1 + Z.of_nat s + 1) with (1 + Z.of_nat (S s)) in Hi by lia. lia.
      * intros k Hk. specialize (Hr k Hk). lia.
    + apply orb_false_iff in Et as [E1 E2]. apply Z.ltb_ge in E1. split.
      * exists s. split; cbn [j_entries j_floor j_ids]; try done. by rewrite (drop_S _ _ _ Hev).
      * split; cbn [j_entries j_ids]; [done|].
        apply andb_false_iff in E2 as [E2|E2]; apply Z.ltb_ge in E2; auto.
Qed.

Lemma settle_covers j evs s ev : covers j evs s →
  let j' := settle ev (1 + zlen evs + 1) j in (∃ s', covers j' (evs ++ [ev]) s') ∧ bounded j'.
Proof.
  intros [Hs He Hf Hi Hr]. cbv zeta.
  assert (length (evs ++ [ev]) = S (length evs)) as Hl by (rewrite length_app; cbn; lia).
  destruct ev as [ids|]; cbn [settle]; unfold record.
  - rewrite He.
    assert (numbered (1 + Z.of_nat s) (drop s evs) ++ [(1 + zlen evs + 1, ids)]
            = numbered (1 + Z.of_nat s) (drop s (evs ++ [Touched ids]))) as E.
    { rewrite drop_app_le by lia. rewrite numbered_app. cbn [numbered ids_of]. do 3 f_equal.
      unfold zlen. rewrite length_drop. lia. }
    rewrite E. apply trim_covers. split; cbn [j_entries j_floor j_ids]; [lia|done| | |].
    + rewrite zlen_app. change (zlen [Touched ids]) with 1. lia.
    + rewrite <- E, Hi, He. unfold total_ids. rewrite map_app, concat_app, zlen_app. cbn.
      by rewrite app_nil_r.
    + intros k [Hk|[? Hk]]%lookup_app_Some; [by apply Hr|].
      apply list_lookup_singleton_Some in Hk as [_ ?]. done.
  - cbn [reset j_entries j_floor j_ids app].
    assert ([(1 + zlen evs + 1, [])] = numbered (1 + Z.of_nat (length evs)) (drop (length evs) (evs ++ [Rebased]))) as E.
    { rewrite drop_app_length. done. }
    change (0 + zlen []) with 0. rewrite E. apply trim_covers.
    split; cbn [j_entries j_floor j_ids]; [lia|done| | |].
    + rewrite zlen_app. change (zlen [Rebased]) with 1. unfold zlen. lia.
    + by rewrite <- E.
    + intros k Hk%lookup_lt_Some. unfold zlen. lia.
Qed.

Lemma publish_all_snoc epoch evs ev j :
  publish_all epoch (evs ++ [ev]) j = settle ev (epoch + zlen evs + 1) (publish_all epoch evs j).
Proof.
  revert epoch j. induction evs as [|e evs IH]; intros epoch j; cbn [app publish_all].
  - by rewrite Z.add_0_r.
  - rewrite IH, zlen_cons. f_equal. lia.
Qed.

Lemma published_covers evs : (∃ s, covers (journal_after evs) evs s) ∧ bounded (journal_after evs).
Proof.
  induction evs as [|ev evs [[s IH] _]] using rev_ind.
  - split; [|by split; [|left]]. exists O. by split.
  - unfold journal_after in *. rewrite publish_all_snoc. by eapply settle_covers.
Qed.

Lemma since_loop_skip from to e evs expect out : e <= from →
  since_loop from to (numbered e evs) expect out
  = since_loop from to (numbered from (drop (Z.to_nat (from - e)) evs)) expect out.
Proof.
  revert e. induction evs as [|ev evs IH]; intros e He; [by rewrite drop_nil|].
  destruct (decide (e = from)) as [->|Hne]; [by rewrite Z.sub_diag|].
  cbn [numbered since_loop]. rewrite (proj2 (Z.leb_le _ _)) by lia. rewrite IH by lia.
  by replace (Z.to_nat (from - e)) with (S (Z.to_nat (from - (e + 1)))) by lia.
Qed.

Lemma since_loop_take from to e evs out : from <= e <= to →
  since_loop from to (numbered e evs) (e + 1) out
  = Some (e + 1 + Z.min (to - e) (zlen evs), out ++ concat (map ids_of (take (Z.to_nat (to - e)) evs))).
Proof.
  revert e out. induction evs as [|ev evs IH]; intros e out He; cbn [numbered since_loop].
  - rewrite take_nil. cbn. rewrite app_nil_r. do 2 f_equal. change (zlen (@nil Journal)) with 0. lia.
  - rewrite (proj2 (Z.leb_gt _ _)) by lia. destruct (Z.ltb_spec to (e + 1)) as [Ht|Ht].
    + replace (to - e) with 0 by lia. cbn. rewrite app_nil_r. do 2 f_equal. unfold zlen. lia.
    + rewrite Z.eqb_refl. cbn [negb]. rewrite IH by lia.
      replace (Z.to_nat (to - e)) with (S (Z.to_nat (to - (e + 1)))) by lia. cbn [take map concat].
      rewrite <- app_assoc. do 2 f_equal. rewrite zlen_cons. lia.
Qed.

(** The journal answers exactly, or says that it cannot.  After any sequence of
    publishes, the ids it gives for an interval of epochs are those of every publish in it,
    in order, and the interval crosses no rebase; it declines only an interval that runs
    backwards, starts below its floor or ends past the last epoch; and it keeps at most its
    bound of entries, and of ids unless one publish alone exceeds it. *)
Theorem journal_exact evs from to :
  match since from to (journal_after evs) with
  | Some out => from = to ∧ out = [] ∨
      1 <= from < to ∧ to <= 1 + zlen evs ∧ out = touched_between from to evs ∧
      ∀ k, evs !! k = Some Rebased → Z.of_nat k + 2 <= from ∨ to < Z.of_nat k + 2
  | None => to < from ∨ from < j_floor (journal_after evs) ∨ 1 + zlen evs < to
  end ∧ bounded (journal_after evs).
Proof.
  destruct (published_covers evs) as [[s [Hs He Hf Hi Hr]] Hb]. split; [|done]. unfold since.
  destruct (Z.eqb_spec to from) as [->|Hne]; [by left|].
  destruct (Z.ltb_spec to from) as [|Hlt]; [by left|].
  destruct (Z.ltb_spec from (j_floor (journal_after evs))) as [|Hfl]; [by right; left|].
  rewrite He, since_loop_skip, since_loop_take by lia. cbn [mbind option_bind app].
  rewrite drop_drop. replace (s + Z.to_nat (from - (1 + Z.of_nat s)))%nat with (Z.to_nat (from - 1)) by lia.
  destruct (Z.eqb_spec (from + 1 + Z.min (to - from) (zlen (drop (Z.to_nat (from - 1)) evs))) (to + 1)) as [E|E].
  - right. split_and!; [lia|lia| | |].
    + unfold zlen in E |- *. rewrite length_drop in E. lia.
    + done.
    + intros k Hk. left. specialize (Hr k Hk). lia.
  - right; right. unfold zlen in E |- *. rewrite length_drop in E. lia.
Qed.
