(* ===== verification/Resolve.v ===== *)
(** How a write finds the node it names: [KeyResolution], [resolve_op], [resolve_node_op_from]
    and [resolve_endpoint] of [slater/src/server/write.rs], and [resolve_with_l0] of
    [slater/src/delta_writer.rs].

    What a generation answers to a probe of its indexes is the class [CoreProbe].  A live write
    is resolved by [resolve_node_op_from], over the whole delta; when the log is replayed the
    same operation is resolved by [resolve_op] and [resolve_with_l0], over the core and the
    sealed levels only.  The theorem of this file is that the two have the same effect. *)

From S2P Require Import Prelude Values Wire Identity WalCodec NodeDelta Memtable MemtableInv.
From S2P Require Import MemtableApply Snapshot.

Inductive KeyResolution :=
  | Unique (id : Z)
  | Absent
  | Ambiguous
  | Unindexed.

(** The probes of the current core generation. *)
Class CoreProbe := {
  resolve_business_key : str → str → Value.t → KeyResolution;
  reltype_id : str → option Z;
  find_core_edge_id : Z → Z → Z → option (str * Value.t) → option Z;
}.

(** The classification of the ids a probe finds, at the end of [resolve_business_key]. *)
Definition key_resolution (ids : list Z) : KeyResolution :=
  match ids with
  | [] => Absent
  | [only] => Unique only
  | _ => Ambiguous
  end.

Definition one (r : KeyResolution) : option Z := match r with Unique id => Some id | _ => None end.

(** [writer.born_synthetic_for_identity]: the sealed levels only, newest first. *)
Definition born_in_l0 (l0 : list Memtable) (key : NodeKey) : option Z :=
  find_map (Memtable.born_synthetic_for_identity key.1.1 key.1.2 key.2) l0.

(** [writer.born_synthetic_in_delta]: the active memtable, then the sealed levels. *)
Definition born_in_delta (mem : Memtable) (l0 : list Memtable) (key : NodeKey) : option Z :=
  born_in_l0 (mem :: l0) key.

(** [None] is the panic of the [expect] on an operation of the wrong kind. *)
Definition resolve_with_l0 (op : WalOp) (base : OpResolution) (l0 : list Memtable) :
    option OpResolution :=
  match base with
  | ResNode None => Some (ResNode (node_key op ≫= born_in_l0 l0))
  | ResEdge src dst edge_id =>
      '(s_key, _, d_key) ← edge_keys op;
      Some (ResEdge (if src is Some _ then src else born_in_l0 l0 s_key)
              (if dst is Some _ then dst else born_in_l0 l0 d_key) edge_id)
  | other => Some other
  end.

Section resolve.
Context {core : CoreProbe}.

Definition one_key (key : NodeKey) : option Z :=
  one (resolve_business_key key.1.1 key.1.2 key.2).

Definition resolve_op (op : WalOp) : OpResolution :=
  match node_key op, edge_keys op with
  | Some node, _ => ResNode (one_key node)
  | None, Some (src, reltype, dst) =>
      let src_id := one_key src in
      let dst_id := one_key dst in
      let edge_id :=
        match op with
        | UpsertEdge _ _ _ _ _ _ _ _ _ _ =>
            match src_id, dst_id, reltype_id reltype with
            | Some s, Some d, Some rt => find_core_edge_id s rt d (edge_identity_key op)
            | _, _, _ => None
            end
        | _ => None
        end in
      ResEdge src_id dst_id edge_id
  | None, None => ResNode None (* no operation is of neither kind *)
  end.

(** [in_l0] and [in_delta] are what the writer answers: the id a key was born with in the sealed
    levels, and in the whole delta. *)
Definition resolve_node_op_from (in_l0 in_delta : NodeKey → option Z) (resolution : KeyResolution)
    (key : NodeKey) (is_set upsert : bool) : result (option Z) :=
  match resolution with
  | Unique id => Ok (Some id)
  | Absent =>
      if is_set && upsert then Ok (in_l0 key)
      else match in_delta key with
           | Some id => Ok (Some id)
           | None =>
               if is_set then Err (Bail "no node to update: the business key matches no existing node")
               else Err (Bail "no node to delete: the business key matches no existing node")
           end
  | Ambiguous => Err (Bail "the business key matches more than one node")
  | Unindexed => Err (Bail "the business key must be range-indexed to resolve it")
  end.

Definition resolve_node_op (mem : Memtable) (l0 : list Memtable) (key : NodeKey)
    (is_set upsert : bool) : result (option Z) :=
  resolve_node_op_from (born_in_l0 l0) (born_in_delta mem l0)
    (resolve_business_key key.1.1 key.1.2 key.2) key is_set upsert.

Definition resolve_endpoint (key : NodeKey) : result (option Z) :=
  match resolve_business_key key.1.1 key.1.2 key.2 with
  | Unique id => Ok (Some id)
  | Absent => Ok None
  | Ambiguous => Err (Bail "the business key matches more than one node")
  | Unindexed => Err (Bail "the business key must be range-indexed to resolve it")
  end.

(** One record replayed: the loop body of [DeltaWriter::open]. *)
Definition replay_op `{Layout} (l0 : list Memtable) (m : Memtable) (op : WalOp) : option Memtable :=
  res ← resolve_with_l0 op (resolve_op op) l0;
  apply op res m.

End resolve.

(** * The id a key has below the active memtable *)

(** The keys the clients use.  A business key names a node by a label, a property and a value; the
    range indexes take an integer and the float equal to it for the same value, the delta for two
    keys.  Which of the two spellings of a key is used is left open. *)
Class KeyUse := in_use : NodeKey → Prop.

Section properties.
Context {core : CoreProbe} {layout : Layout} {use : KeyUse}.

Definition op_uses (op : WalOp) : Prop :=
  (∀ key, node_key op = Some key → in_use key) ∧
  ∀ src rt dst, edge_keys op = Some (src, rt, dst) → in_use src ∧ in_use dst.

Definition key_id (l0 : list Memtable) (key : NodeKey) : option Z :=
  if one_key key is Some d then Some d else born_in_l0 l0 key.

Lemma replay_node l0 op key : node_key op = Some key →
  resolve_with_l0 op (resolve_op op) l0 = Some (ResNode (key_id l0 key)).
Proof.
  intros Hk. unfold resolve_op, key_id. rewrite Hk. destruct (one_key key); [done|].
  cbn. by rewrite Hk.
Qed.

Lemma replay_edge l0 op src rt dst : edge_keys op = Some (src, rt, dst) → ∃ eid,
  resolve_op op = ResEdge (one_key src) (one_key dst) eid ∧
  resolve_with_l0 op (resolve_op op) l0 = Some (ResEdge (key_id l0 src) (key_id l0 dst) eid).
Proof.
  intros Hk. unfold resolve_op. assert (node_key op = None) as -> by by destruct op.
  rewrite Hk. eexists. split; [done|]. unfold resolve_with_l0, key_id. rewrite Hk.
  by destruct (one_key src), (one_key dst).
Qed.

(** No node is born in the memtable under a key that the core or a sealed level knows. *)
Definition born_fresh (l0 : list Memtable) (m : Memtable) : Prop := ∀ ck e l k v,
  nodes m !! ck = Some e → is_Some (synthetic e) → names_are (interner m) (n_identity e) l k v →
  key_id l0 (l, k, v) = None.

Lemma born_synthetic_entry l k v m id : memtable_wf m → Value.wf v →
  Memtable.born_synthetic_for_identity l k v m = Some id → ∃ e,
  nodes m !! node_ck l k v m = Some e ∧ synthetic e = Some id ∧ names_are (interner m) (n_identity e) l k v.
Proof.
  intros (Hi & Hn & _) Hv. unfold Memtable.born_synthetic_for_identity.
  destruct (Interner.get l (interner m)) as [sl|] eqn:El; [|done]. cbn [mbind option_bind].
  destruct (Interner.get k (interner m)) as [sk|] eqn:Ek; [|done]. cbn [mbind option_bind].
  assert (node_ck l k v m = NodeIdentity.canonical_key (mkNodeIdentity sl sk v)) as Eck.
  { unfold node_ck, intern_node_identity, Interner.intern. unfold Interner.get in El, Ek.
    rewrite El. cbn. by rewrite Ek. }
  rewrite Eck. destruct (nodes m !! _) as [e|] eqn:He; [|done]. cbn. intros Hs. exists e.
  split_and!; [done..|].
  destruct (Interner.get_range _ _ _ Hi El) as [R1 N1], (Interner.get_range _ _ _ Hi Ek) as [R2 N2].
  assert (n_identity e = mkNodeIdentity sl sk v) as ->; [|by split_and!].
  apply (existing_identity m); [done|by split_and!|done].
Qed.

(** A node born in the memtable may be named by its id or left to the memtable to find. *)
Lemma write_born_id o l k v m e id : memtable_wf m → nodes m !! node_ck l k v m = Some e →
  synthetic e = Some id → node_write o l k v (Some id) m = node_write o l k v None m.
Proof.
  intros Hm He Hs. pose proof Hm as (_ & Hn & _).
  destruct (inv_synthetic _ _ _ _ _ _ _ Hn _ _ _ He Hs) as [_ Hd].
  unfold node_ck in He, Hd. destruct (intern_node_identity l k v (interner m)) as [ident i] eqn:E. cbn [fst] in He, Hd.
  assert (touch_node_entry l k v (Some id) m = touch_node_entry l k v None m) as Ht.
  { destruct (touch_existing l k v (Some id) m ident i e) as (d1 & H1 & ->); [done..| |].
    { unfold resolves. rewrite He. right. by exists id. }
    destruct (touch_existing l k v None m ident i e) as (d2 & H2 & ->); [done..| |].
    { unfold resolves. rewrite He. left. by split; [|eexists]. }
    by rewrite (inv_dense_unique _ _ _ _ _ _ _ Hn d1 d2 _ H1 H2). }
  destruct o; cbn; unfold upsert_node, remove_node_props, replace_node, set_node_labels; rewrite ?Ht; try done.
  unfold delete_node. rewrite E. cbn [interner set_interner nodes]. rewrite He. cbn [fmap option_fmap option_map mjoin option_join].
  rewrite Hs. cbn. destruct m. unfold set_by_dense, set_tombstoned. cbn in *. by rewrite (insert_id _ id).
Qed.

(** * The resolution is stable *)

(** Every entry has a key in use, and is registered under the id its key has below the memtable,
    or born in it. *)
Definition registered (l0 : list Memtable) (m : Memtable) : Prop := ∀ ck e l k v,
  nodes m !! ck = Some e → names_are (interner m) (n_identity e) l k v →
  in_use (l, k, v) ∧
  match key_id l0 (l, k, v) with
  | Some d => by_dense m !! d = Some ck ∧ synthetic e = None
  | None => is_Some (synthetic e)
  end.

(** Below [base] a key has at most one id, and an id at most one key in use. *)
Definition keys_distinct (l0 : list Memtable) (base : Z) : Prop :=
  (∀ key d, Value.wf key.2 → in_use key → key_id l0 key = Some d → d < base) ∧
  ∀ key key' d, Value.wf key.2 → Value.wf key'.2 → in_use key → in_use key' →
    key_id l0 key = Some d → key_id l0 key' = Some d → key = key'.

Lemma registered_fresh l0 m : registered l0 m → born_fresh l0 m.
Proof.
  intros Hr ck e l k v He Hs Hn. destruct (Hr ck e l k v He Hn) as [_ Hr'].
  destruct (key_id l0 (l, k, v)) as [d|]; [|done]. destruct Hr' as [_ Hr']. rewrite Hr' in Hs. by destruct Hs.
Qed.

Lemma entry_names m ck e : nodes_ok m → nodes m !! ck = Some e →
  ∃ l k v, names_are (interner m) (n_identity e) l k v.
Proof.
  intros Hn He. destruct (inv_entry _ _ _ _ _ _ _ Hn _ _ He) as (_ & _ & [[l Hl] [k Hk]] & _).
  by exists l, k, (ni_value (n_identity e)).
Qed.

(** The target of a node write, found or interned, carries the key's names. *)
Lemma target_entry l k v m e : memtable_wf m → room 2 (interner m) → Value.wf v →
  nodes m !! node_ck l k v m = Some e → names_are (interner m) (n_identity e) l k v.
Proof.
  intros (Hi & Hn & _) Hroom Hv. unfold node_ck.
  destruct (intern_node_identity l k v (interner m)) as [id i] eqn:E. cbn [fst]. intros He.
  destruct (intern_node_ok l k v (interner m) id i 0) as (_ & Hx & _ & Hid & _ & Hval & Hl & Hk); try done.
  eapply names_back; [exact Hx| |].
  - by destruct (inv_entry _ _ _ _ _ _ _ Hn _ _ He) as (_&_&?&_).
  - by rewrite (existing_identity m id e).
Qed.

Lemma names_ck m ck e l k v : memtable_wf m → room 2 (interner m) → Value.wf v →
  nodes m !! ck = Some e → names_are (interner m) (n_identity e) l k v → ck = node_ck l k v m.
Proof.
  intros (Hi & Hn & _) Hroom Hv He Hnm. unfold node_ck.
  destruct (intern_node_identity l k v (interner m)) as [id i] eqn:E. cbn [fst].
  destruct (intern_node_ok l k v (interner m) id i 0) as (Hwi & Hx & _ & Hid & _ & Hval & Hl & Hk); try done.
  destruct (inv_entry _ _ _ _ _ _ _ Hn _ _ He) as (-> & Hw & _). f_equal.
  eapply (names_unique i); try done. by eapply names_extend.
Qed.

(** The resolution of a node write at replay is the one the memtable needs. *)
Lemma registered_resolves l0 m l k v : memtable_wf m → room 2 (interner m) → Value.wf v → in_use (l, k, v) →
  keys_distinct l0 (Memtable.synthetic_base m) → registered l0 m →
  resolves m (node_ck l k v m) (key_id l0 (l, k, v)).
Proof.
  intros Hm Hroom Hv Hu [Hlt Hinj] Hr. unfold resolves. destruct (nodes m !! _) as [e|] eqn:He.
  - destruct (Hr _ _ l k v He (target_entry _ _ _ _ _ Hm Hroom Hv He)) as [_ H].
    destruct (key_id l0 (l, k, v)) as [d|]; [right; exists d; tauto|by left].
  - intros d Hd. split; [|by eapply (Hlt (l, k, v))]. destruct (by_dense m !! d) as [x|] eqn:Hx; [exfalso|done].
    pose proof Hm as (_ & Hn & _).
    destruct (inv_dense _ _ _ _ _ _ _ Hn _ _ Hx) as [[e He'] _].
    destruct (entry_names m x e Hn He') as (l' & k' & v' & Hnm).
    destruct (Hr _ _ _ _ _ He' Hnm) as [Hu' H]. destruct (key_id l0 (l', k', v')) as [d'|] eqn:Hd'.
    + destruct H as [H _]. rewrite (inv_dense_unique _ _ _ _ _ _ _ Hn _ _ _ H Hx) in Hd'.
      assert (Value.wf v') as Hv'.
      { destruct Hnm as (_ & _ & <-). by destruct (inv_entry _ _ _ _ _ _ _ Hn _ _ He') as (_ & (_ & _ & ?) & _). }
      pose proof (Hinj (l, k, v) (l', k', v') d Hv Hv' Hu Hu' Hd Hd') as [= -> -> ->].
      rewrite (names_ck m x e l' k' v') in He' by done. congruence.
    + destruct H as [s Hs]. destruct (inv_synthetic _ _ _ _ _ _ _ Hn _ _ _ He' Hs) as [(n & -> & _) H].
      rewrite (inv_dense_unique _ _ _ _ _ _ _ Hn _ _ _ Hx H) in Hd. specialize (Hlt (l, k, v) _ Hv Hu Hd). lia.
Qed.

Lemma update_delta_synthetic ck f m n e : nodes (charge (update_delta ck f m) n) !! ck = Some e →
  ∃ e0, nodes m !! ck = Some e0 ∧ synthetic e = synthetic e0.
Proof.
  unfold update_delta. destruct (nodes m !! ck) as [e0|] eqn:He; cbn; [|by rewrite He].
  rewrite lookup_insert_eq. intros [= <-]. by exists e0.
Qed.

(** A write left unresolved leaves a born node. *)
Lemma write_unresolved_born o l k v m e : memtable_wf m → resolves m (node_ck l k v m) None →
  nodes (node_write o l k v None m) !! node_ck l k v m = Some e → is_Some (synthetic e).
Proof.
  intros Hm Hr He.
  assert (∀ ck m' e, touch_node_entry l k v None m = (ck, m') → ck = node_ck l k v m →
    nodes m' !! ck = Some e → is_Some (synthetic e)) as Ht.
  { intros ck m' e' Et -> He'. unfold node_ck in *. destruct (intern_node_identity l k v (interner m)) as [id i] eqn:E.
    cbn [fst] in *. destruct (nodes m !! NodeIdentity.canonical_key id) as [e0|] eqn:Hck.
    - destruct (touch_existing l k v None m id i e0) as (d & _ & Et'); try done. rewrite Et in Et'.
      injection Et' as ->. cbn in He'. rewrite lookup_insert_eq in He'. injection He' as <-. cbn.
      unfold resolves in Hr. rewrite Hck in Hr. destruct Hr as [[_ ?]|(? & ? & _)]; [done|done].
    - rewrite (touch_born l k v m id i) in Et by done. injection Et as <-. cbn in He'.
      rewrite lookup_insert_eq in He'. injection He' as <-. by eexists. }
  assert (∀ f n, ∀ ck m', touch_node_entry l k v None m = (ck, m') →
    nodes (charge (update_delta ck f m') n) !! node_ck l k v m = Some e → is_Some (synthetic e)) as Hu.
  { intros f n ck m' Et H. assert (ck = node_ck l k v m) as ->.
    { change ck with (ck, m').1. rewrite <- Et. unfold touch_node_entry, node_ck.
      destruct (intern_node_identity l k v (interner m)) as [id i]. cbn. by repeat case_match. }
    apply update_delta_synthetic in H as (e0 & H & ->). by eapply Ht. }
  destruct o; cbn in He; unfold upsert_node, remove_node_props, replace_node, set_node_labels in He;
    try (destruct (touch_node_entry l k v None m) as [ck m'] eqn:Et; by eapply Hu).
  unfold delete_node, node_ck in *. destruct (intern_node_identity l k v (interner m)) as [id i]. cbn [fst] in *.
  cbn in He. unfold resolves in Hr. destruct (nodes m !! NodeIdentity.canonical_key id) as [e0|] eqn:Hck; cbn in He.
  - destruct Hr as [[_ [s Hs]]|(? & ? & _)]; [|done]. rewrite Hs in He. cbn in He.
    rewrite Hck, lookup_insert_eq in He. injection He as <-. cbn. by rewrite Hs.
  - congruence.
Qed.

Lemma node_write_registered o l0 l k v m : memtable_wf m → room 2 (interner m) → Value.wf v → in_use (l, k, v) →
  keys_distinct l0 (Memtable.synthetic_base m) → registered l0 m →
  registered l0 (node_write o l k v (key_id l0 (l, k, v)) m).
Proof.
  intros Hm Hroom Hv Hu Hd Hr. pose proof (registered_resolves l0 m l k v Hm Hroom Hv Hu Hd Hr) as Hres.
  pose proof (node_write_ok o l k v _ m Hm Hroom Hv Hres) as [[Hm' Hf] Hh]. cbv zeta in Hm', Hf, Hh.
  remember (key_id l0 (l, k, v)) as r eqn:Er. set (m' := node_write o l k v r m) in *.
  intros ck e l' k' v' He Hnm. pose proof Hm as (_ & Hn & _). pose proof Hm' as (Hi' & Hn' & _).
  destruct (decide (ck = node_ck l k v m)) as [->|Hne].
  - assert ((l', k', v') = (l, k, v)) as [= -> -> ->].
    { destruct Hh as [(_ & Hr0 & Hno & Hsame)|(e' & He' & _ & Hv' & Hl' & Hk')].
      - rewrite Hsame in He. congruence.
      - rewrite He in He'. injection He' as <-. destruct Hnm as (H1 & H2 & H3). congruence. }
    rewrite <- Er. split; [done|]. destruct r as [d|].
    + split; [apply write_registers|]. destruct (synthetic e) as [s|] eqn:Hs; [exfalso|done].
      destruct (inv_synthetic _ _ _ _ _ _ _ Hn' _ _ _ He Hs) as [(n & Es & _) H].
      pose proof (inv_dense_unique _ _ _ _ _ _ _ Hn' _ _ _ H (write_registers o l k v d m)) as E.
      destruct Hd as [Hlt _]. specialize (Hlt (l, k, v) _ Hv Hu (eq_sym Er)). rewrite (frame_base _ _ _ Hf) in Es. lia.
    + exact (write_unresolved_born o l k v m e Hm Hres He).
  - rewrite (frame_nodes _ _ _ Hf) in He by done.
    assert (names_are (interner m) (n_identity e) l' k' v') as Hnm0.
    { eapply names_back; [apply Hf| |done]. by destruct (inv_entry _ _ _ _ _ _ _ Hn _ _ He) as (_&_&?&_). }
    destruct (Hr ck e l' k' v' He Hnm0) as [Hu' Hr']. split; [done|]. destruct (key_id l0 (l', k', v')); [|done].
    split; [|apply Hr']. apply (frame_dense _ _ _ Hf), Hr'.
Qed.

Lemma registered_same l0 m m' : nodes_ok m → nodes m' = nodes m → by_dense m' = by_dense m →
  Interner.extends (interner m) (interner m') → registered l0 m → registered l0 m'.
Proof.
  intros Hn En Eb Hx Hr ck e l k v He Hnm. rewrite En in He. rewrite Eb. apply Hr; [done|].
  eapply names_back; [exact Hx| |done]. by destruct (inv_entry _ _ _ _ _ _ _ Hn _ _ He) as (_&_&?&_).
Qed.

Lemma endpoint_registered l0 l k v m d m' n : memtable_wf m → room (n + 2) (interner m) → 0 <= n → Value.wf v → in_use (l, k, v) →
  keys_distinct l0 (Memtable.synthetic_base m) → registered l0 m →
  endpoint_dense_or_create l k v (key_id l0 (l, k, v)) m = (d, m') →
  memtable_wf m' ∧ widens m m' ∧ room n (interner m') ∧ registered l0 m'.
Proof.
  intros Hm Hroom H0 Hv Hu Hd Hr Heq.
  assert (endpoint_resolves m (l, k, v) (key_id l0 (l, k, v))) as Her.
  { intros Hnone ck e He Hnm. cbn in Hnm. destruct (Hr ck e l k v He Hnm) as [_ Hr']. by rewrite Hnone in Hr'. }
  destruct (endpoint_ok l k v _ m d m' n Hm Hroom H0 Hv Her Heq) as (Hm' & Hg & Hrm & _).
  split_and!; [done..|]. intros ck e l' k' v' He Hnm.
  destruct (grow_new _ _ Hg ck e He) as [He0|(Hno & Hs & _)].
  - pose proof Hm as (_ & Hn & _).
    assert (names_are (interner m) (n_identity e) l' k' v') as Hnm0.
    { eapply names_back; [apply Hg| |done]. by destruct (inv_entry _ _ _ _ _ _ _ Hn _ _ He0) as (_&_&?&_). }
    destruct (Hr ck e l' k' v' He0 Hnm0) as [Hu' Hr']. split; [done|]. destruct (key_id l0 (l', k', v')); [|done].
    split; [|apply Hr']. apply (grow_dense _ _ Hg), Hr'.
  - (* a new entry is the endpoint's own, which nothing below knows *)
    unfold endpoint_dense_or_create in Heq. destruct (key_id l0 (l, k, v)) as [x|] eqn:Ek.
    { injection Heq as _ <-. congruence. }
    destruct (intern_node_identity l k v (interner m)) as [id i] eqn:E. pose proof Hm as (Hi & Hn & _).
    destruct (intern_node_ok l k v (interner m) id i n) as (Hwi & Hx & _ & Hid & _ & Hval & Hl & Hk); try done.
    cbn in Heq. destruct ((nodes m !! NodeIdentity.canonical_key id) ≫= synthetic) as [y|].
    { injection Heq as _ <-. cbn in He. congruence. }
    assert (nodes m' = <[NodeIdentity.canonical_key id := mkNodeEntry id NodeDelta.default
      (Some (next_synthetic m))]> (nodes m) ∧ interner m' = i) as [En Ei].
    { by rewrite <- (f_equal snd Heq : _ = m'). }
    rewrite En in He. apply lookup_insert_Some in He as [[_ <-]|[_ He]]; [|congruence].
    cbn [n_identity synthetic] in *. rewrite Ei in Hnm. destruct Hnm as (H1 & H2 & H3).
    assert ((l', k', v') = (l, k, v)) as -> by congruence. split; [done|]. by rewrite Ek.
Qed.

(** The stores an edge write leaves alone once its endpoints are there. *)
Definition same_nodes (m m' : Memtable) : Prop :=
  nodes m' = nodes m ∧ by_dense m' = by_dense m ∧ interner m' = interner m.

Lemma same_nodes_trans m1 m2 m3 : same_nodes m1 m2 → same_nodes m2 m3 → same_nodes m1 m3.
Proof. intros (A & B & C) (D & E & F). split_and!; congruence. Qed.

Lemma patch_edge_nodes eck ek rp ps m : same_nodes m (patch_edge eck ek rp ps m).
Proof. unfold patch_edge. by destruct (edges m !! eck). Qed.

Lemma intern_edge_nodes sl sk sv rt dl dk dv ek m id m' :
  intern_edge_identity sl sk sv rt dl dk dv ek m = (id, m') → nodes m' = nodes m ∧ by_dense m' = by_dense m.
Proof. unfold intern_edge_identity. intros H. repeat case_match; by simplify_eq. Qed.

(** Both endpoints created and the identity interned: the part the two upserts share. *)
Lemma endpoints_registered l0 sl sk sv rt dl dk dv ek m s m1 d m2 id m3 :
  memtable_wf m → room 10 (interner m) → Value.wf sv → Value.wf dv → edge_key_wf ek →
  in_use (sl, sk, sv) → in_use (dl, dk, dv) → keys_distinct l0 (Memtable.synthetic_base m) → registered l0 m →
  endpoint_dense_or_create sl sk sv (key_id l0 (sl, sk, sv)) m = (s, m1) →
  endpoint_dense_or_create dl dk dv (key_id l0 (dl, dk, dv)) m1 = (d, m2) →
  intern_edge_identity sl sk sv rt dl dk dv ek m2 = (id, m3) → registered l0 m3.
Proof.
  intros Hm Hroom Hsv Hdv Hek Hus Hud Hd Hr E1 E2 E3.
  destruct (endpoint_registered l0 sl sk sv m s m1 8) as (Hm1 & G1 & R1 & Hr1); try done.
  destruct (endpoint_registered l0 dl dk dv m1 d m2 6) as (Hm2 & G2 & R2 & Hr2); try done.
  { by rewrite (grow_base _ _ G1). }
  destruct (intern_edge_ok sl sk sv rt dl dk dv ek m2 id m3) as (_ & G3 & _); try done.
  destruct (intern_edge_nodes _ _ _ _ _ _ _ _ _ _ _ E3) as [En Eb].
  eapply registered_same; [apply Hm2|done..|apply G3|done].
Qed.

Lemma born_endpoint_registered l0 l k v r m d m' n : memtable_wf m → room (n + 2) (interner m) → 0 <= n →
  Value.wf v → registered l0 m → born_endpoint_dense l k v r m = (d, m') →
  memtable_wf m' ∧ room n (interner m') ∧ registered l0 m'.
Proof.
  intros Hm Hroom H0 Hv Hr E. destruct (born_endpoint_ok l k v r m d m' n) as (Hm' & G & R & En & _); try done.
  split_and!; [done..|]. eapply registered_same; [apply Hm|done| |apply G|done].
  unfold born_endpoint_dense in E. destruct r; [by simplify_eq|].
  destruct (intern_node_identity l k v (interner m)). by rewrite <- (f_equal snd E : _ = m').
Qed.

Lemma edge_write_registered l0 op src rt dst eid m m' : edge_keys op = Some (src, rt, dst) → op_ok op → op_uses op →
  memtable_wf m → room 10 (interner m) → keys_distinct l0 (Memtable.synthetic_base m) → registered l0 m →
  apply op (ResEdge (key_id l0 src) (key_id l0 dst) eid) m = Some m' → registered l0 m'.
Proof.
  destruct op as [| | | | |sl sk sv r dl dk dv ek rp ps|sl sk sv r dl dk dv ek]; try done;
    intros [= <- <- <-] Hok [_ Hu] Hm Hroom Hd Hr; destruct (Hu _ _ _ eq_refl) as [Hus Hud].
  all: assert (Value.wf sv ∧ Value.wf dv ∧ edge_key_wf ek) as (W1 & W2 & W3)
    by (unfold op_ok, key_ok, value_ok, edge_key_ok, patch_ok, value_ok in Hok;
        destruct ek as [[? ?]|]; cbn in *; tauto).
  - cbn [apply]. intros Ha.
    destruct (endpoint_dense_or_create sl sk sv (key_id l0 (sl, sk, sv)) m) as [s m1] eqn:E1.
    destruct (endpoint_dense_or_create dl dk dv (key_id l0 (dl, dk, dv)) m1) as [d m2] eqn:E2.
    destruct (intern_edge_identity sl sk sv r dl dk dv ek m2) as [id m3] eqn:E3.
    pose proof (endpoints_registered l0 _ _ _ _ _ _ _ _ _ _ _ _ _ _ _ Hm Hroom W1 W2 W3 Hus Hud Hd Hr E1 E2 E3) as Hr3.
    assert (same_nodes m3 m') as (N1 & N2 & N3).
    { destruct eid as [cid|]; injection Ha as <-; [unfold patch_core_edge_keyed|unfold upsert_edge_keyed];
        rewrite E1, E2, E3; cbv zeta; (eapply same_nodes_trans; [|apply patch_edge_nodes]);
        by repeat case_match. }
    intros ck e l k v He Hnm. rewrite N1 in He. rewrite N3 in Hnm. rewrite N2. by apply Hr3.
  - cbn [apply]. intros [= <-]. unfold delete_edge_keyed.
    destruct (born_endpoint_dense sl sk sv _ m) as [s m1] eqn:E1.
    destruct (born_endpoint_registered l0 sl sk sv (key_id l0 (sl, sk, sv)) m s m1 8) as (Hm1 & R1 & Hr1); try done.
    destruct s as [s|]; [|done].
    destruct (born_endpoint_dense dl dk dv _ m1) as [d m2] eqn:E2.
    destruct (born_endpoint_registered l0 dl dk dv (key_id l0 (dl, dk, dv)) m1 d m2 6) as (Hm2 & R2 & Hr2); try done.
    destruct d as [d|]; [|done].
    destruct (intern_edge_identity sl sk sv r dl dk dv ek m2) as [id m3] eqn:E3.
    destruct (intern_edge_ok sl sk sv r dl dk dv ek m2 id m3) as (_ & G3 & _); try done.
    destruct (intern_edge_nodes _ _ _ _ _ _ _ _ _ _ _ E3) as [En Eb].
    assert (registered l0 m3) as Hr3 by (eapply registered_same; [apply Hm2|done..|apply G3|done]).
    by repeat case_match.
Qed.

(** The part of a resolution the keys of nodes do not settle: the core id of an edge. *)
Definition edge_stable (l0 : list Memtable) (m : Memtable) (op : WalOp) : Prop :=
  ∀ src rt dst eid, edge_keys op = Some (src, rt, dst) →
    resolve_op op = ResEdge (one_key src) (one_key dst) eid →
    edge_resolves m (mkEdgeNames src rt dst (edge_identity_key op)) (key_id l0 src) (key_id l0 dst) eid.

(** Symbols and ids, once given, stay. *)
Record keeps (m m' : Memtable) : Prop := {
  keeps_interner : Interner.extends (interner m) (interner m');
  keeps_dense : ∀ d x, by_dense m !! d = Some x → by_dense m' !! d = Some x;
  keeps_base : Memtable.synthetic_base m' = Memtable.synthetic_base m;
}.

(** One record replayed onto a consistent memtable. *)
Lemma replay_op_registered l0 m op : memtable_wf m → op_ok op → op_uses op → room 10 (interner m) →
  keys_distinct l0 (Memtable.synthetic_base m) → registered l0 m → edge_stable l0 m op →
  ∃ res m', resolve_with_l0 op (resolve_op op) l0 = Some res ∧ op_resolves m op res ∧
    apply op res m = Some m' ∧ memtable_wf m' ∧ registered l0 m' ∧ keeps m m'.
Proof.
  intros Hm Hok Huse Hroom Hd Hr Hes. assert (room 2 (interner m)) as Hroom2 by (unfold room in *; lia).
  destruct (node_key op) as [[[l k] v]|] eqn:Hk.
  - pose proof (op_ok_key _ _ _ _ Hok Hk) as Hv. pose proof (proj1 Huse _ Hk) as Hu. destruct (node_op_exists op _ Hk) as [o Ho].
    pose proof (registered_resolves l0 m l k v Hm Hroom2 Hv Hu Hd Hr) as Hres.
    pose proof (node_write_ok o l k v _ m Hm Hroom2 Hv Hres) as [[Hm' Hf] _].
    exists (ResNode (key_id l0 (l, k, v))), (node_write o l k v (key_id l0 (l, k, v)) m). split_and!.
    + by apply replay_node.
    + by exists l, k, v.
    + by apply apply_node.
    + done.
    + by apply node_write_registered.
    + by destruct Hf.
  - destruct (edge_keys op) as [[[src rt] dst]|] eqn:Hek; [|by destruct op].
    destruct (replay_edge l0 op src rt dst Hek) as (eid & Eres & E). specialize (Hes src rt dst eid Hek Eres).
    assert (∀ key, endpoint_resolves m key (key_id l0 key)) as Her.
    { intros [[l k] v] Hnone ck e He Hnm. cbn in Hnm. destruct (Hr ck e l k v He Hnm) as [_ Hr']. by rewrite Hnone in Hr'. }
    destruct (apply_edge op src rt dst (key_id l0 src) (key_id l0 dst) eid m)
      as (m' & mg & eck & Ha & Hm' & G & O & _); [done..|].
    exists (ResEdge (key_id l0 src) (key_id l0 dst) eid), m'. split_and!; try done.
    + exists src, rt, dst. split_and!; try done.
    + exact (edge_write_registered l0 op src rt dst eid m m' Hek Hok Huse Hm Hroom Hd Hr Ha).
    + destruct O as [Oi _ Od Ob _ _ _ _], G as [_ Gi _ Gb Gd _]. split; [by rewrite Oi|by rewrite Od|congruence].
Qed.

(** * Nodes born in the memtable keep their ids *)

Definition born_kept (m m' : Memtable) : Prop := ∀ l k v id, Value.wf v →
  Memtable.born_synthetic_for_identity l k v m = Some id →
  Memtable.born_synthetic_for_identity l k v m' = Some id.

Lemma born_kept_trans m1 m2 m3 : born_kept m1 m2 → born_kept m2 m3 → born_kept m1 m3.
Proof. intros H1 H2 l k v id Hv H. by apply H2, H1. Qed.

Lemma keeps_born l0 m m' : memtable_wf m → memtable_wf m' → registered l0 m → registered l0 m' →
  keeps m m' → born_kept m m'.
Proof.
  intros Hm Hm' Hr Hr' [Hx Hd _] l k v id Hv Hb.
  destruct (born_synthetic_entry l k v m id Hm Hv Hb) as (e & He & Hs & Hnm).
  pose proof Hm as (Hi & Hn & _). pose proof Hm' as (Hi' & Hn' & _).
  destruct (inv_synthetic _ _ _ _ _ _ _ Hn _ _ _ He Hs) as [_ Hid]. apply Hd in Hid.
  destruct (inv_dense _ _ _ _ _ _ _ Hn' _ _ Hid) as [[e' He'] _].
  assert (n_identity e' = n_identity e) as Eid.
  { destruct (inv_entry _ _ _ _ _ _ _ Hn _ _ He) as (E & Hw & _).
    destruct (inv_entry _ _ _ _ _ _ _ Hn' _ _ He') as (E' & Hw' & _). apply node_canonical_key_inj; congruence. }
  assert (synthetic e' = Some id) as Hs'.
  { destruct (Hr _ _ l k v He Hnm) as [_ R].
    destruct (Hr' _ _ l k v He' ltac:(rewrite Eid; by eapply names_extend)) as [_ R'].
    destruct (key_id l0 (l, k, v)); [destruct R as [_ R]; congruence|]. destruct R' as [s' Hs'].
    destruct (inv_synthetic _ _ _ _ _ _ _ Hn' _ _ _ He' Hs') as [_ H].
    by rewrite (inv_dense_unique _ _ _ _ _ _ _ Hn' _ _ _ Hid H). }
  unfold Memtable.born_synthetic_for_identity in *.
  destruct (Interner.get l (interner m)) as [sl|] eqn:El; [|done]. cbn [mbind option_bind] in Hb.
  destruct (Interner.get k (interner m)) as [sk|] eqn:Ek; [|done]. cbn [mbind option_bind] in Hb.
  rewrite (Interner.get_extends _ _ _ _ Hi Hi' Hx El), (Interner.get_extends _ _ _ _ Hi Hi' Hx Ek).
  cbn [mbind option_bind].
  assert (NodeIdentity.canonical_key (mkNodeIdentity sl sk v) = node_ck l k v m) as Eck.
  { unfold node_ck, intern_node_identity, Interner.intern. unfold Interner.get in El, Ek.
    rewrite El. cbn. by rewrite Ek. }
  rewrite Eck, He'. done.
Qed.

(** A resolution made on [m0], applied later on. *)
Lemma resolution_agrees op key is_set upsert l0 m0 m r :
  node_key op = Some key → op_ok op → memtable_wf m → born_fresh l0 m → born_kept m0 m →
  resolve_node_op m0 l0 key is_set upsert = Ok r →
  apply op (ResNode r) m = replay_op l0 m op.
Proof.
  destruct key as [[l k] v]. intros Hk Hok Hm Hf Hkept. unfold replay_op. rewrite (replay_node l0 op _ Hk).
  cbn [mbind option_bind]. unfold resolve_node_op, resolve_node_op_from, key_id, one_key. cbn [fst snd].
  destruct (resolve_business_key l k v) as [d| | |] eqn:Er; [by intros [= <-]| |done|done]. cbn [one].
  destruct (is_set && upsert); [by intros [= <-]|].
  unfold born_in_delta, born_in_l0 at 1. cbn [find_map fst snd].
  destruct (Memtable.born_synthetic_for_identity l k v m0) as [id|] eqn:Eb.
  - intros [= <-]. pose proof (op_ok_key _ _ _ _ Hok Hk) as Hv. apply Hkept in Eb; [|done].
    destruct (born_synthetic_entry l k v m id Hm Hv Eb) as (e & He & Hs & Hnm).
    pose proof (Hf _ _ l k v He ltac:(by eexists) Hnm) as E. unfold key_id, one_key in E. cbn [fst snd] in E.
    rewrite Er in E. cbn [one] in E. rewrite E.
    destruct (node_op_exists op _ Hk) as [o Ho]. rewrite !(apply_node op l k v _ o) by done.
    f_equal. by eapply write_born_id.
  - change (find_map (Memtable.born_synthetic_for_identity l k v) l0) with (born_in_l0 l0 (l, k, v)).
    destruct (born_in_l0 l0 (l, k, v)) as [z|]; [|by destruct is_set].
    intros E. by injection E as <-.
Qed.

(** C9: A write has the effect live that it has when the log is replayed.  A node write the
    server accepts is resolved over the whole delta [m0] as it was when its statement began,
    nodes born in the active memtable included, and its replay over the core and the sealed
    levels alone; applied to the memtable, after the rows of the batch before it, the two give
    the same memtable, whether the node is in the core, in a sealed level, born in the
    memtable or new. *)
Theorem live_replay_agree op key is_set upsert l0 m0 m r :
  node_key op = Some key → op_ok op → memtable_wf m → born_fresh l0 m → born_kept m0 m →
  resolve_node_op m0 l0 key is_set upsert = Ok r →
  apply op (ResNode r) m = replay_op l0 m op.
Proof. apply resolution_agrees. Qed.
End properties.

(** * Witness *)

Section witnesses.
#[local] Existing Instance example_layout.

(** A core without the keys in question. *)
#[local] Instance absent_probe : CoreProbe := {|
  resolve_business_key _ _ _ := Absent; reltype_id _ := None; find_core_edge_id _ _ _ _ := None;
|}.

Lemma live_replay_agree_witness :
  let op := RemoveNodeProps (lit "P") (lit "id") (Value.Int 2) [lit "y"] in
  let m := example_table 5 in
  resolve_node_op m [] (person 2) true false = Ok (Some 10) ∧
  apply op (ResNode (Some 10)) m = replay_op [] m op.
Proof.
  cbv zeta. split; [vm_compute; reflexivity|].
  apply (live_replay_agree (RemoveNodeProps (lit "P") (lit "id") (Value.Int 2) [lit "y"]) (person 2) true false []
    (example_table 5) (example_table 5) (Some 10)).
  - reflexivity.
  - concrete_ok.
  - exact example_table_wf.
  - intros ck e l k v _ _ _. reflexivity.
  - intros l k v id _ H. exact H.
  - vm_compute. reflexivity.
Defined.
End witnesses.
