(* ===== verification/DeltaWriter.v ===== *)
(** The single writer of a graph: [DeltaWriter] of [slater/src/delta_writer.rs], over resident
    levels ([delta.offHeapL0] off).

    The writer owns the log, the active memtable and the sealed levels.  Its state holds the two
    directories as well: the log segments that are closed, the open one as the file of its
    [WalSink], and the files of the levels.  Every directory call draws an outcome from a
    schedule, as every call on a log file does from its own, so a failure may happen anywhere.
    The disks the writer passes through are recorded, from which a crash takes its pick.

    A call runs under the writer lock from beginning to end, so calls are atomic steps; a panic
    is the error [Panic], with the state the call had reached. *)

From S2P Require Import Prelude Values Wire Crypto Seal Identity WalCodec WalReplay WalSink.
From S2P Require Import NodeDelta Memtable MemtableCodec L0Segment Snapshot DeltaFold.
From S2P Require Import Compaction Resolve TouchedJournal.

(** * State *)

(** What a crash leaves to choose from: closed log segments, log files being written (their
    content at the last fsync and now), and the files of the levels. *)
Record Disk := mkDisk {
  d_closed : dir;
  d_open : list (str * (bytes * bytes));
  d_l0 : dir;
}.

Record WriterInner := mkInner {
  w_closed : dir;                 (* the log directory, but for the open segment *)
  w_l0_files : dir;               (* the directory [l0] *)
  w_sink : WalSink;
  w_file : world;                 (* the open segment *)
  w_mem : Memtable;
  w_l0 : list (str * Memtable);   (* the sealed levels and their files, newest first *)
  w_seq : Z;
}.

Record Published := mkPublished { p_delta : DeltaSnapshot; p_epoch : Z }.

Record DeltaWriter := mkWriter {
  inner : WriterInner;
  core_uuid : Z;
  published : Published;
  epoch : Z;
  touched : TouchedJournal;
  consolidating : bool;
  sched : list (option nat);      (* outcomes of the directory calls to come *)
  file_faults : list (list outcome); (* and of the calls on the log files to be opened *)
  disks : list Disk;              (* the disks passed through, newest first *)
}.

Record Frozen := mkFrozen {
  f_snapshot : Memtable;
  f_l0 : list Memtable;
  f_consumed : list str;
  f_consumed_l0 : list str;
}.

(** Field updates. *)
Definition set_closed (d : dir) (i : WriterInner) : WriterInner :=
  mkInner d (w_l0_files i) (w_sink i) (w_file i) (w_mem i) (w_l0 i) (w_seq i).
Definition set_l0_files (d : dir) (i : WriterInner) : WriterInner :=
  mkInner (w_closed i) d (w_sink i) (w_file i) (w_mem i) (w_l0 i) (w_seq i).
Definition set_wal (d : dir) (s : WalSink) (w : world) (i : WriterInner) : WriterInner :=
  mkInner d (w_l0_files i) s w (w_mem i) (w_l0 i) (w_seq i).
Definition set_mem (m : Memtable) (i : WriterInner) : WriterInner :=
  mkInner (w_closed i) (w_l0_files i) (w_sink i) (w_file i) m (w_l0 i) (w_seq i).
Definition set_levels (l : list (str * Memtable)) (i : WriterInner) : WriterInner :=
  mkInner (w_closed i) (w_l0_files i) (w_sink i) (w_file i) (w_mem i) l (w_seq i).
Definition set_seq (s : Z) (i : WriterInner) : WriterInner :=
  mkInner (w_closed i) (w_l0_files i) (w_sink i) (w_file i) (w_mem i) (w_l0 i) s.

Definition set_inner (i : WriterInner) (st : DeltaWriter) : DeltaWriter :=
  mkWriter i (core_uuid st) (published st) (epoch st) (touched st) (consolidating st) (sched st)
    (file_faults st) (disks st).
Definition set_core_uuid (u : Z) (st : DeltaWriter) : DeltaWriter :=
  mkWriter (inner st) u (published st) (epoch st) (touched st) (consolidating st) (sched st)
    (file_faults st) (disks st).
Definition set_consolidating (b : bool) (st : DeltaWriter) : DeltaWriter :=
  mkWriter (inner st) (core_uuid st) (published st) (epoch st) (touched st) b (sched st)
    (file_faults st) (disks st).
Definition set_sched (s : list (option nat)) (st : DeltaWriter) : DeltaWriter :=
  mkWriter (inner st) (core_uuid st) (published st) (epoch st) (touched st) (consolidating st) s
    (file_faults st) (disks st).
Definition set_file_faults (f : list (list outcome)) (st : DeltaWriter) : DeltaWriter :=
  mkWriter (inner st) (core_uuid st) (published st) (epoch st) (touched st) (consolidating st)
    (sched st) f (disks st).
Definition log_disks (ds : list Disk) (st : DeltaWriter) : DeltaWriter :=
  mkWriter (inner st) (core_uuid st) (published st) (epoch st) (touched st) (consolidating st)
    (sched st) (file_faults st) (ds ++ disks st).

(** * Effects *)

Definition wio (A : Type) : Type := DeltaWriter → result A * DeltaWriter.

#[export] Instance wio_ret : MRet wio := λ A a st, (Ok a, st).
#[export] Instance wio_bind : MBind wio := λ A B f m st,
  match m st with
  | (Ok a, st) => f a st
  | (Err e, st) => (Err e, st)
  end.

Definition wgets {A} (f : WriterInner → A) : wio A := λ st, (Ok (f (inner st)), st).
Definition wmodify (f : WriterInner → WriterInner) : wio unit := λ st, (Ok tt, set_inner (f (inner st)) st).
Definition wlift {A} (r : result A) : wio A := λ st, (r, st).
Definition wpanic {A} (m : option A) : wio A :=
  match m with Some a => mret a | None => wlift (Err (Panic "writer")) end.

Fixpoint wio_for {A} (f : A → wio unit) (xs : list A) : wio unit :=
  match xs with
  | [] => mret tt
  | x :: xs => f x ≫= λ _, wio_for f xs
  end.

Definition next_fault : wio (option nat) := λ st,
  match sched st with
  | [] => (Ok None, st)
  | o :: s => (Ok o, set_sched s st)
  end.

(** A directory call that answers [f] of the state, or fails. *)
Definition dir_call {A} (f : WriterInner → A) : wio A :=
  next_fault ≫= λ o, match o with None => wgets f | Some _ => wlift (Err IoError) end.

(** * Names and numbers *)

(** [format!("{n:010}.l0")]. *)
Definition l0_file_name (n : Z) : str :=
  let d := decimal n in repeat 48 (10 - length d) ++ d ++ lit ".l0".

(** The entries of a directory with the given extension and a number for a stem. *)
Definition numbered_files {A} (ext : str) (entries : list (str * A)) : list (Z * (str * A)) :=
  omap (λ '(name, c),
    match stem_ext name with
    | Some (stem, e) =>
        if decide (e = ext) then (λ n, (n, (name, c))) <$> parse_u64 stem else None
    | None => None
    end) entries.

Definition wal_segment_paths (entries : list (str * bytes)) : list str :=
  omap (λ '(name, _),
    match stem_ext name with
    | Some (_, e) => if decide (e = lit "wal") then Some name else None
    | None => None
    end) entries.

Definition next_segment_number (entries : list (str * bytes)) : Z :=
  match foldl (λ mx (p : Z * (str * bytes)),
      Some (match mx with Some m => Z.max m p.1 | None => p.1 end)) None
      (numbered_files (lit "wal") entries) with
  | Some m => as_u64 (m + 1)
  | None => 0
  end.

Definition l0_segment_paths_sorted (entries : list (str * bytes)) : list (Z * str) :=
  sort_segments (map (λ p : Z * (str * bytes), (p.1, p.2.1)) (numbered_files (lit "l0") entries)).

Definition next_l0_number (entries : list (str * bytes)) : Z :=
  match last (l0_segment_paths_sorted entries) with
  | Some (n, _) => as_u64 (n + 1)
  | None => 0
  end.

(** The node ids a batch of committed operations touched. *)
Definition touched_node_ids (mem : Memtable) (ops : list (WalOp * OpResolution)) : list Z :=
  omap (λ '(op, res),
    '(l, k, v) ← node_key op;
    match res with
    | ResNode (Some id) => Some id
    | ResNode None => Memtable.born_synthetic_for_identity l k v mem
    | ResEdge _ _ _ => None
    end) ops.

Definition published_snapshot (mem : Memtable) (l0 : list (str * Memtable)) : DeltaSnapshot :=
  DeltaSnapshot.with_levels mem (map (λ p, dyn p.2) l0).

(** The names a disk's log directory has, and the content of one of its files. *)
Definition wal_dir (i : WriterInner) : dir :=
  <[segment_file_name (segment (w_sink i)) := data (w_file i)]> (w_closed i).

Definition open_entry (s : WalSink) (w : world) : str * (bytes * bytes) :=
  (segment_file_name (segment s), (synced w, data w)).

Definition disk_of (i : WriterInner) : Disk :=
  mkDisk (w_closed i) [open_entry (w_sink i) (w_file i)] (w_l0_files i).

(** The contents a file went through since [w]. *)
Definition new_trail (w w' : world) : list (bytes * bytes) :=
  take (length (trail w') - length (trail w)) (trail w').

Module DeltaWriter.
Section writer.
Context {crypto : Crypto} {layout : Layout} {order : HashWalk}.
Variable random_nonce : nat → bytes.
Variable cipher : option BlockCipher.

Definition read_wal (i : WriterInner) : list (str * bytes) := walk (wal_dir i).
Definition read_l0 (i : WriterInner) : list (str * bytes) := walk (w_l0_files i).

(** A call on the open segment. *)
Definition with_sink {A} (f : WalSink → io A) : wio A := λ st,
  let i := inner st in
  let '(r, w) := f (w_sink i) (w_file i) in
  (r, log_disks (map (λ e, mkDisk (w_closed i) [(segment_file_name (segment (w_sink i)), e)] (w_l0_files i))
                   (new_trail (w_file i) w))
        (set_inner (set_wal (w_closed i) (w_sink i) w i) st)).

(** [WalSink::create] beside the open segment.  On failure the file it made, if it came that
    far, stays behind. *)
Definition create_segment (n : Z) : wio (WalSink * world) := λ st,
  let i := inner st in
  let '(r, w) := create true true n cipher (fresh (default [] (head (file_faults st)))) in
  let name := segment_file_name n in
  let st := log_disks (map (λ e, mkDisk (w_closed i) [open_entry (w_sink i) (w_file i); (name, e)]
                                   (w_l0_files i)) (trail w))
              (set_file_faults (tail (file_faults st)) st) in
  match r with
  | Ok s => (Ok (s, w), st)
  | Err e =>
      (Err e, if trail w is [] then st else set_inner (set_closed (<[name := data w]> (w_closed i)) i) st)
  end.

(** [std::mem::replace(&mut inner.sink, fresh)], then [old.seal()]. *)
Definition rotate (fresh_sink : WalSink * world) : wio unit := λ st,
  let i := inner st in
  let '(r, w) := WalSink.seal (w_sink i) (w_file i) in
  let i := set_wal (<[segment_file_name (segment (w_sink i)) := data w]> (w_closed i))
             fresh_sink.1 fresh_sink.2 i in
  (_ ← r; Ok tt, log_disks [disk_of i] (set_inner i st)).

Definition l0_write (mem : Memtable) (name : str) (nonce : bytes) : wio unit := λ st,
  let i := inner st in
  let '(r, ds) := L0Segment.write mem name cipher nonce (sched st) (w_l0_files i) in
  let disk d := mkDisk (w_closed i) [open_entry (w_sink i) (w_file i)] d in
  (r, log_disks (rev (map disk ds))
        (set_sched (drop (length ds - 1) (sched st))
           (set_inner (set_l0_files (default (w_l0_files i) (last ds)) i) st))).

Definition l0_open (name : str) : wio Memtable :=
  dir_call (λ i, L0Segment.open name cipher (w_l0_files i)) ≫= wlift.

(** The disk as it is now. *)
Definition note_disk : wio unit := λ st, (Ok tt, log_disks [disk_of (inner st)] st).

(** [remove_if_present] on a log segment and on a level. *)
Definition remove_wal (name : str) : wio unit :=
  dir_call (λ _, tt) ≫= λ _,
  wmodify (λ i, set_closed (delete name (w_closed i)) i) ≫= λ _,
  note_disk.

Definition remove_l0 (name : str) : wio unit :=
  dir_call (λ _, tt) ≫= λ _,
  wmodify (λ i, set_l0_files (delete name (w_l0_files i)) i) ≫= λ _,
  note_disk.

Definition republish (journal : Journal) : wio unit := λ st,
  let delta := published_snapshot (w_mem (inner st)) (w_l0 (inner st)) in
  let e := epoch st + 1 in
  (Ok tt, mkWriter (inner st) (core_uuid st) (mkPublished delta e) e
            (TouchedJournal.settle journal e (touched st)) (consolidating st) (sched st)
            (file_faults st) (disks st)).

Definition bind_core (uuid : Z) : wio unit := λ st, (Ok tt, set_core_uuid uuid st).

(** * Writes *)

Definition write (op : WalOp) (resolved : OpResolution) : wio Z :=
  wgets w_mem ≫= λ mem0,
  wpanic (Memtable.apply op resolved mem0) ≫= λ mem,
  wgets (λ i, seq_next (w_seq i)) ≫= λ seq,
  with_sink (λ s, append_batch random_nonce s [Build_WalRecord seq op] seq) ≫= λ _,
  wmodify (set_seq seq) ≫= λ _,
  wmodify (set_mem mem) ≫= λ _,
  republish (Touched (touched_node_ids mem [(op, resolved)])) ≫= λ _,
  mret seq.

(** Every operation folded into a copy of the memtable. *)
Fixpoint apply_all (ops : list (WalOp * OpResolution)) (m : Memtable) : option Memtable :=
  match ops with
  | [] => Some m
  | (op, res) :: ops => m ← Memtable.apply op res m; apply_all ops m
  end.

(** The records of a batch and its last sequence number. *)
Fixpoint number_records (seq : Z) (ops : list (WalOp * OpResolution)) : list WalRecord * Z :=
  match ops with
  | [] => ([], seq)
  | (op, _) :: ops =>
      let '(recs, last) := number_records (seq_next seq) ops in
      (Build_WalRecord (seq_next seq) op :: recs, last)
  end.

Definition write_batch (ops : list (WalOp * OpResolution)) : wio Z :=
  match ops with
  | [] => wgets w_seq
  | _ =>
      wgets w_mem ≫= λ mem0,
      wpanic (apply_all ops mem0) ≫= λ mem,
      wgets (λ i, number_records (w_seq i) ops) ≫= λ '(recs, last),
      wmodify (set_seq last) ≫= λ _,
      with_sink (λ s, append_batch random_nonce s recs last) ≫= λ _,
      wmodify (set_mem mem) ≫= λ _,
      republish (Touched (touched_node_ids mem ops)) ≫= λ _,
      mret last
  end.

(** * Sealing, compaction and consolidation *)

Definition freeze : wio Frozen :=
  dir_call (λ i, wal_segment_paths (read_wal i)) ≫= λ consumed,
  wgets (λ i, map fst (w_l0 i)) ≫= λ consumed_l0,
  dir_call (λ i, next_segment_number (read_wal i)) ≫= λ next,
  create_segment next ≫= λ fresh_sink,
  rotate fresh_sink ≫= λ _,
  wgets (λ i, mkFrozen (w_mem i) (map snd (w_l0 i)) consumed consumed_l0).

(** [flush_to_l0] once the level's file is in place: read it back, rotate the log, install the
    level under a fresh memtable, and remove the log it replaces. *)
Definition install_level (mem : Memtable) (path : str) : wio bool :=
  l0_open path ≫= λ level,
  let node_base := Memtable.synthetic_base mem + Memtable.born_count mem in
  let edge_base := Memtable.edge_synthetic_base mem + Memtable.born_edge_count mem in
  dir_call (λ i, wal_segment_paths (read_wal i)) ≫= λ consumed,
  dir_call (λ i, next_segment_number (read_wal i)) ≫= λ next,
  create_segment next ≫= λ fresh_sink,
  rotate fresh_sink ≫= λ _,
  wmodify (set_mem (with_bases node_base edge_base)) ≫= λ _,
  wmodify (λ i, set_levels ((path, level) :: w_l0 i) i) ≫= λ _,
  wio_for remove_wal consumed ≫= λ _,
  republish (Touched []) ≫= λ _,
  mret true.

Definition flush_to_l0 (nonce : bytes) : wio bool := λ st,
  if consolidating st then (Ok false, st)
  else if Memtable.is_empty (w_mem (inner st)) then (Ok false, st)
  else
    (dir_call (λ _, tt) ≫= λ _,
     dir_call (λ i, next_l0_number (read_l0 i)) ≫= λ n,
     let path := l0_file_name n in
     wgets w_mem ≫= λ mem,
     l0_write mem path nonce ≫= λ _,
     install_level mem path) st.

Definition compact_l0 (nonce : bytes) : wio bool := λ st,
  let l0 := w_l0 (inner st) in
  if consolidating st then (Ok false, st)
  else if (length l0 <? 2)%nat then (Ok false, st)
  else
    match select_compaction_run_in_stack (map (λ p, m_bytes p.2) l0) (replicate (length l0) false) with
    | None => (Ok false, st)
    | Some (start, end_) =>
        (wpanic (fst <$> l0 !! (end_ - 1)%nat) ≫= λ oldest_path,
         let consumed := map fst (take (end_ - 1 - start) (drop start l0)) in
         wpanic (merge_levels (map snd (take (end_ - start) (drop start l0)))) ≫= λ merged,
         l0_write merged oldest_path nonce ≫= λ _,
         l0_open oldest_path ≫= λ level,
         wmodify (set_levels (take start l0 ++ (oldest_path, level) :: drop end_ l0)) ≫= λ _,
         republish (Touched []) ≫= λ _,
         wio_for remove_l0 consumed ≫= λ _,
         mret true) st
    end.

(** Replay of the records onto a fresh memtable, [None] where a resolution panics. *)
Fixpoint replay_records (f : Memtable → WalOp → option Memtable) (recs : list WalRecord) (m : Memtable) :
    option Memtable :=
  match recs with
  | [] => Some m
  | rec :: recs => m ← f m (op rec); replay_records f recs m
  end.

Definition retire (consumed consumed_l0 : list str) (new_core_uuid new_core_node_count
    new_core_edge_count : Z) (resolve : WalOp → OpResolution) : wio unit :=
  wio_for remove_wal consumed ≫= λ _,
  wio_for remove_l0 consumed_l0 ≫= λ _,
  (dir_call (λ i, replay_dir (Some (read_wal i)) cipher) ≫= wlift) ≫= λ replay,
  wpanic (replay_records (λ m op, Memtable.apply op (resolve op) m) (records replay)
            (with_bases new_core_node_count new_core_edge_count)) ≫= λ mem,
  wmodify (set_levels []) ≫= λ _,
  wmodify (set_seq (last_seq replay)) ≫= λ _,
  wmodify (set_mem mem) ≫= λ _,
  republish Rebased ≫= λ _,
  bind_core new_core_uuid.

Definition rebind_core_uuid (new_core_uuid : Z) : wio unit :=
  republish (Touched []) ≫= λ _, bind_core new_core_uuid.

(** The claim to consolidate, and its release. *)
Definition begin_consolidation : wio bool := λ st,
  if consolidating st then (Ok false, st) else (Ok true, set_consolidating true st).
Definition end_consolidation : wio unit := λ st, (Ok tt, set_consolidating false st).

(** * Opening *)

(** The levels of the directory, oldest first, each with the number its file has. *)
Fixpoint open_levels (paths : list (Z * str)) (files : dir) : result (list (str * Memtable)) :=
  match paths with
  | [] => Ok []
  | (_, path) :: paths =>
      level ← L0Segment.open path cipher files;
      levels ← open_levels paths files;
      Ok ((path, level) :: levels)
  end.

(** The bases of the active memtable: past the core and past every level. *)
Definition bases_past (node_count edge_count : Z) (levels : list (str * Memtable)) : Z * Z :=
  foldl (λ '(n, e) p,
    (Z.max n (Memtable.synthetic_base p.2 + Memtable.born_count p.2),
     Z.max e (Memtable.edge_synthetic_base p.2 + Memtable.born_edge_count p.2)))
    (node_count, edge_count) levels.

(** [open] on the two directories a process finds.  Its reads precede its only write, the new
    segment, so a read that fails is the error [IoError] with nothing changed; the log
    directory it leaves is given with the result. *)
Definition open `{CoreProbe} (reads_ok dir_existed : bool) (uuid core_node_count core_edge_count : Z)
    (wal l0_files : dir) (faults : list (option nat)) (files : list (list outcome)) :
    result DeltaWriter * dir :=
  match
    (if reads_ok then
       levels ← open_levels (l0_segment_paths_sorted (walk l0_files)) l0_files;
       replay ← replay_dir (Some (walk wal)) cipher;
       Ok (levels, replay)
     else Err IoError)
  with
  | Err e => (Err e, wal)
  | Ok (levels, replay) =>
      let '(node_base, edge_base) := bases_past core_node_count core_edge_count levels in
      let l0 := rev levels in
      match replay_records (replay_op (map snd l0)) (records replay) (with_bases node_base edge_base) with
      | None => (Err (Panic "writer"), wal)
      | Some mem =>
          let n := next_segment_number (walk wal) in
          let '(r, w) := create dir_existed true n cipher (fresh (default [] (head files))) in
          let wal' := if trail w is [] then wal else <[segment_file_name n := data w]> wal in
          match r with
          | Err e => (Err e, wal')
          | Ok sink =>
              let i := mkInner wal l0_files sink w mem l0 (last_seq replay) in
              (Ok (mkWriter i uuid (mkPublished (published_snapshot mem l0) 1) 1
                     (TouchedJournal.new 1) false faults (tail files) [disk_of i]), wal')
          end
      end
  end.

(** * What readers are given *)

Definition delta_snapshot_at (st : DeltaWriter) : Published := published st.
Definition delta_snapshot (st : DeltaWriter) : DeltaSnapshot := p_delta (published st).

Definition edge_identity_key_between (src : Z) (reltype : str) (dst : Z) (st : DeltaWriter) :
    option (str * Value.t) :=
  match list_find (λ e, de_tombstoned e = false ∧ other e = dst ∧ de_reltype e = reltype)
          (DeltaSnapshot.out_edges src (delta_snapshot st)) with
  | Some (_, e) => de_key e
  | None => None
  end.

Definition total_bytes (st : DeltaWriter) : Z :=
  m_bytes (w_mem (inner st)) + sumZ (map (λ p, m_bytes p.2) (w_l0 (inner st))).

Definition delta_entity_count (st : DeltaWriter) : Z :=
  DeltaSnapshot.node_delta_count (delta_snapshot st) + DeltaSnapshot.edge_delta_count (delta_snapshot st).

End writer.
End DeltaWriter.
