(* ===== verification/WriterDisk.v ===== *)
(** What the writer's two directories hold, and what opening them makes of it: a run of log
    segments replays to the batches they hold, and the files of the levels open to the levels
    in the order of their numbers, whatever order the directory is listed in. *)

From S2P Require Import Prelude Values Wire Crypto Seal Identity WalCodec WalReplay WalSink.
From S2P Require Import NodeDelta Memtable MemtableCodec L0Segment Snapshot DeltaFold.
From S2P Require Import Compaction Resolve TouchedJournal DeltaWriter.

(** * Log segments *)

Lemma segment_file_name_inj a b : is_u64 a → is_u64 b → segment_file_name a = segment_file_name b → a = b.
Proof.
  intros Ha Hb E. destruct (segment_name_parses a Ha) as (s & E1 & P1), (segment_name_parses b Hb) as (t & E2 & P2).
  rewrite E in E1. congruence.
Qed.

Lemma l0_name_parses n : is_u64 n → ∃ stem,
  stem_ext (l0_file_name n) = Some (stem, lit "l0") ∧ parse_u64 stem = Some n.
Proof. intros Hn. apply (numbered_name_parses n (lit "l0") Hn). by repeat constructor. Qed.

Lemma l0_file_name_inj a b : is_u64 a → is_u64 b → l0_file_name a = l0_file_name b → a = b.
Proof.
  intros Ha Hb E. destruct (l0_name_parses a Ha) as (s & E1 & P1), (l0_name_parses b Hb) as (t & E2 & P2).
  rewrite E in E1. congruence.
Qed.

(** A run of segments from number [n] on. *)
Fixpoint named_files (n : Z) (cs : list bytes) : list (str * bytes) :=
  match cs with
  | [] => []
  | c :: cs => (segment_file_name n, c) :: named_files (n + 1) cs
  end.

Definition wal_files (n : Z) (cs : list bytes) : dir := list_to_map (named_files n cs).

(** The numbers of the run are [u64]s, and so is the next one. *)
Definition in_range (n : Z) (cs : list bytes) : Prop := 0 <= n ∧ n + zlen cs < 2 ^ 64.

Lemma in_range_cons n c cs : in_range n (c :: cs) → is_u64 n ∧ in_range (n + 1) cs.
Proof. unfold in_range, is_u64. rewrite zlen_cons. pose proof (zlen_nonneg cs). lia. Qed.

Lemma in_range_snoc n c cs : in_range n (cs ++ [c]) → in_range n cs ∧ is_u64 (n + zlen cs).
Proof.
  unfold in_range, is_u64. rewrite zlen_app. change (zlen [c]) with 1. pose proof (zlen_nonneg cs). lia.
Qed.

Lemma named_files_app n cs1 cs2 : named_files n (cs1 ++ cs2) = named_files n cs1 ++ named_files (n + zlen cs1) cs2.
Proof.
  revert n. induction cs1 as [|c cs IH]; intros n; cbn [app named_files].
  - by rewrite Z.add_0_r.
  - rewrite IH, zlen_cons. cbn [app]. do 3 f_equal. lia.
Qed.

Lemma named_files_elem n cs name c : (name, c) ∈ named_files n cs →
  ∃ k, cs !! k = Some c ∧ name = segment_file_name (n + Z.of_nat k).
Proof.
  revert n. induction cs as [|c0 cs IH]; intros n; cbn [named_files]; [by intros ?%elem_of_nil|].
  intros [[= -> ->]|H]%elem_of_cons.
  - exists O. split; [done|]. by rewrite Z.add_0_r.
  - apply IH in H as (k & Hk & ->). exists (S k). split; [done|]. f_equal. lia.
Qed.

Lemma named_files_NoDup n cs : in_range n cs → NoDup (named_files n cs).*1.
Proof.
  revert n. induction cs as [|c cs IH]; intros n Hr; cbn [named_files fmap list_fmap]; [constructor|].
  apply in_range_cons in Hr as [Hn Hr]. constructor; [|by apply IH].
  intros ([name c'] & E & H)%list_elem_of_fmap. cbn in E. subst name.
  apply named_files_elem in H as (k & Hk & E). apply lookup_lt_Some in Hk.
  apply segment_file_name_inj in E; [lia|done|]. unfold in_range, is_u64, zlen in *. lia.
Qed.

Lemma wal_files_perm n cs : in_range n cs → map_to_list (wal_files n cs) ≡ₚ named_files n cs.
Proof. intros Hr. apply map_to_list_to_map. by apply named_files_NoDup. Qed.

Lemma wal_files_snoc n cs c : in_range n (cs ++ [c]) →
  wal_files n (cs ++ [c]) = <[segment_file_name (n + zlen cs) := c]> (wal_files n cs).
Proof.
  intros Hr. unfold wal_files. rewrite named_files_app, list_to_map_app. cbn [named_files].
  rewrite list_to_map_cons, list_to_map_nil, insert_empty. apply map_eq. intros name. rewrite lookup_union.
  apply in_range_snoc in Hr as [Hr Hu].
  destruct (decide (name = segment_file_name (n + zlen cs))) as [->|Hne].
  - rewrite lookup_insert_eq, lookup_singleton_eq.
    rewrite (not_elem_of_list_to_map_1 (named_files n cs)); [done|].
    intros ([nm c'] & E & H)%list_elem_of_fmap. cbn in E. subst nm.
    apply named_files_elem in H as (k & Hk & E). apply lookup_lt_Some in Hk.
    apply segment_file_name_inj in E; [unfold zlen in E; lia|done|]. unfold in_range, is_u64, zlen in *. lia.
  - rewrite lookup_insert_ne, lookup_singleton_ne by done. by rewrite (right_id_L None union).
Qed.

Lemma wal_files_delete n c cs : in_range n (c :: cs) →
  delete (segment_file_name n) (wal_files n (c :: cs)) = wal_files (n + 1) cs.
Proof.
  intros Hr. unfold wal_files. cbn [named_files]. rewrite list_to_map_cons, delete_insert_id; [done|].
  pose proof (named_files_NoDup n (c :: cs) Hr) as Hnd. cbn in Hnd. apply NoDup_cons in Hnd as [Hni _].
  by apply not_elem_of_list_to_map_1.
Qed.

(** The segments as replay and the writer find them. *)
Fixpoint numbered_segments (n : Z) (cs : list bytes) : list (Z * (str * bytes)) :=
  match cs with
  | [] => []
  | c :: cs => (n, (segment_file_name n, c)) :: numbered_segments (n + 1) cs
  end.

Lemma numbered_named n cs : in_range n cs → numbered_files (lit "wal") (named_files n cs) = numbered_segments n cs.
Proof.
  revert n. induction cs as [|c cs IH]; intros n Hr; cbn [named_files numbered_segments]; [done|].
  apply in_range_cons in Hr as [Hn Hr]. unfold numbered_files. cbn [omap list_omap].
  destruct (segment_name_parses n Hn) as (stem & -> & Ep). rewrite decide_True by done. rewrite Ep. cbn.
  f_equal. by apply IH.
Qed.

Lemma list_segments_numbered entries : list_segments entries = numbered_files (lit "wal") entries.
Proof.
  apply list_omap_ext. apply Forall2_same_length_lookup_2; [done|]. intros i [nm c] y H1 H2. simplify_eq.
  by repeat case_match; simplify_eq/=.
Qed.

Lemma numbered_segments_fst n cs : map fst (numbered_segments n cs) = seqZ n (zlen cs).
Proof.
  revert n. induction cs as [|c cs IH]; intros n; cbn [numbered_segments map]; [done|].
  pose proof (zlen_nonneg cs). rewrite IH, zlen_cons, (seqZ_cons n) by lia. do 2 f_equal; unfold Z.succ, Z.pred; lia.
Qed.

Section replay.
Context {crypto : Crypto} {order : HashWalk} (cipher : option BlockCipher).

(** A segment's bytes replay to its batches, on top of whatever came before. *)
Definition segment_holds (n : Z) (c : bytes) (bs : list batch) : Prop :=
  Forall batch_ok bs ∧
  ∀ out, replay_bytes c (bind cipher (wal_name (segment_file_name n))) out = Ok (apply_batches out bs).

Fixpoint segments_hold (n : Z) (cs : list bytes) (logs : list (list batch)) : Prop :=
  match cs, logs with
  | [], [] => True
  | c :: cs, bs :: logs => segment_holds n c bs ∧ segments_hold (n + 1) cs logs
  | _, _ => False
  end.

Lemma segments_hold_app n cs1 cs2 l1 l2 : length cs1 = length l1 →
  segments_hold n (cs1 ++ cs2) (l1 ++ l2) ↔ segments_hold n cs1 l1 ∧ segments_hold (n + zlen cs1) cs2 l2.
Proof.
  revert n l1. induction cs1 as [|c cs IH]; intros n [|b l1] Hl; try done; cbn [app segments_hold].
  - rewrite Z.add_0_r. tauto.
  - injection Hl as Hl. rewrite (IH (n + 1)) by done. rewrite zlen_cons.
    replace (n + 1 + zlen cs) with (n + (zlen cs + 1)) by lia. tauto.
Qed.

Lemma segments_hold_length n cs logs : segments_hold n cs logs → length cs = length logs.
Proof.
  revert n logs. induction cs as [|c cs IH]; intros n [|b logs]; try done.
  intros [_ H]. cbn. f_equal. by eapply IH.
Qed.

Lemma apply_batches_app out l1 l2 : apply_batches out (l1 ++ l2) = apply_batches (apply_batches out l1) l2.
Proof. apply foldl_app. Qed.

Lemma replay_numbered n cs logs out : segments_hold n cs logs →
  replay_segments (numbered_segments n cs) cipher out = Ok (apply_batches out (concat logs)).
Proof.
  revert n logs out. induction cs as [|c cs IH]; intros n [|b logs] out; try done.
  intros [[_ H] Hs]. cbn [numbered_segments replay_segments segment_cipher mbind result_bind].
  rewrite H. cbn [mbind result_bind]. rewrite (IH _ _ _ Hs). cbn [concat]. by rewrite apply_batches_app.
Qed.

Lemma walk_files_perm n cs : in_range n cs → walk (wal_files n cs) ≡ₚ named_files n cs.
Proof. intros Hr. rewrite walk_perm. by apply wal_files_perm. Qed.

Lemma walk_segments n cs : in_range n cs → list_segments (walk (wal_files n cs)) ≡ₚ numbered_segments n cs.
Proof.
  intros Hr. rewrite list_segments_numbered, <- numbered_named by done.
  unfold numbered_files. apply omap_Permutation. by apply walk_files_perm.
Qed.

Lemma numbered_segments_sorted n cs : StronglySorted seg_le (numbered_segments n cs).
Proof.
  revert n. induction cs as [|c cs IH]; intros n; cbn [numbered_segments]; constructor; [apply IH|].
  apply Forall_forall. intros x Hx. assert (x.1 ∈ map fst (numbered_segments (n + 1) cs)) as H
    by by apply list_elem_of_fmap_2.
  rewrite numbered_segments_fst in H. apply elem_of_seqZ in H. cbn. lia.
Qed.

Lemma numbered_segments_NoDup n cs : NoDup (map fst (numbered_segments n cs)).
Proof. rewrite numbered_segments_fst. apply NoDup_seqZ. Qed.

(** A run of segments replays, in order, to the batches it holds. *)
Lemma replay_files n cs logs : in_range n cs → zlen cs < 2 ^ 63 → segments_hold n cs logs →
  replay_dir (Some (walk (wal_files n cs))) cipher = Ok (apply_batches replay_default (concat logs)).
Proof.
  intros Hr Hlen Hs. pose proof (walk_segments n cs Hr) as Hp.
  assert (sort_segments (list_segments (walk (wal_files n cs))) = numbered_segments n cs) as E.
  { symmetry. apply sorted_perm_unique; [apply numbered_segments_sorted|apply sort_segments_sorted
      |apply numbered_segments_NoDup|]. by rewrite sort_segments_perm, Hp. }
  unfold replay_dir. rewrite E.
  assert (check_dense (numbered_segments n cs) = Ok tt) as ->.
  { apply check_dense_spec; [apply numbered_segments_sorted|apply numbered_segments_NoDup| | |].
    - apply Forall_forall. intros x Hx. assert (x.1 ∈ map fst (numbered_segments n cs)) as H
        by by apply list_elem_of_fmap_2.
      rewrite numbered_segments_fst in H. apply elem_of_seqZ in H. unfold in_range, is_u64 in *. lia.
    - apply (f_equal length) in E. assert (length (numbered_segments n cs) = length cs) as El.
      { rewrite <- (length_map fst), numbered_segments_fst, length_seqZ. unfold zlen. lia. }
      unfold zlen in *. rewrite El. lia.
    - intros a b k. rewrite numbered_segments_fst, !elem_of_seqZ. lia. }
  cbn [mbind result_bind]. by apply replay_numbered.
Qed.

Lemma foldl_max_numbered n cs mx :
  foldl (λ mx (p : Z * (str * bytes)), Some (match mx with Some m => Z.max m p.1 | None => p.1 end)) mx
    (numbered_segments n cs)
  = match cs with
    | [] => mx
    | _ => Some (match mx with Some m => Z.max m (n + zlen cs - 1) | None => n + zlen cs - 1 end)
    end.
Proof.
  revert n mx. induction cs as [|c cs IH]; intros n mx; cbn [numbered_segments foldl]; [done|].
  rewrite IH, zlen_cons. pose proof (zlen_nonneg cs). cbn [fst].
  destruct cs as [|c' cs'].
  - change (zlen (@nil bytes)) with 0. f_equal. destruct mx; lia.
  - f_equal. rewrite zlen_cons in *. pose proof (zlen_nonneg cs'). destruct mx; lia.
Qed.

Lemma foldl_max_perm (l l' : list (Z * (str * bytes))) mx : l ≡ₚ l' →
  foldl (λ mx (p : Z * (str * bytes)), Some (match mx with Some m => Z.max m p.1 | None => p.1 end)) mx l =
  foldl (λ mx (p : Z * (str * bytes)), Some (match mx with Some m => Z.max m p.1 | None => p.1 end)) mx l'.
Proof.
  intros Hp. revert mx. induction Hp as [|x l l' _ IH|x y l|l1 l2 l3 _ IH1 _ IH2]; intros mx; cbn [foldl]; [done|auto| |].
  - do 2 f_equal. destruct mx; lia.
  - by rewrite IH1.
Qed.

(** The next segment continues the run. *)
Lemma next_number n cs : in_range n cs → cs ≠ [] →
  next_segment_number (walk (wal_files n cs)) = n + zlen cs.
Proof.
  intros Hr Hne. unfold next_segment_number.
  rewrite (foldl_max_perm _ (numbered_segments n cs)).
  - rewrite foldl_max_numbered. destruct cs as [|c cs]; [done|].
    replace (n + zlen (c :: cs) - 1 + 1) with (n + zlen (c :: cs)) by lia.
    apply as_u64_id. unfold in_range, is_u64 in *. pose proof (zlen_nonneg (c :: cs)). lia.
  - rewrite <- list_segments_numbered. by apply walk_segments.
Qed.

Lemma next_number_empty : next_segment_number (walk (∅ : dir)) = 0.
Proof.
  unfold next_segment_number. assert (walk (∅ : dir) = []) as ->; [|done].
  apply Permutation_nil_r. by rewrite walk_perm, map_to_list_empty.
Qed.

(** The listing of the consumed segments, in some order. *)
Lemma segment_paths n cs : in_range n cs →
  wal_segment_paths (walk (wal_files n cs)) ≡ₚ map fst (named_files n cs).
Proof.
  intros Hr. unfold wal_segment_paths. rewrite (omap_Permutation _ _ _ (walk_files_perm n cs Hr)).
  match goal with |- ?a ≡ₚ ?b => assert (a = b) as ->; [|done] end.
  revert n Hr. induction cs as [|c cs IH]; intros n Hr; [done|].
  apply in_range_cons in Hr as [Hn Hr]. cbn [named_files omap list_omap map].
  destruct (segment_name_parses n Hn) as (stem & -> & _). rewrite decide_True by done. cbn. f_equal. by apply IH.
Qed.

(** * Levels *)

(** The directory holds the levels with these numbers, oldest first, and no other level. *)
Record l0_holds (files : dir) (ls : list (Z * Memtable)) : Prop := {
  lh_sorted : StronglySorted Z.lt (map fst ls);
  lh_u64 : Forall (λ p, is_u64 p.1) ls;
  lh_opens : ∀ n m, (n, m) ∈ ls → L0Segment.open (l0_file_name n) cipher files = Ok m;
  lh_only : ∀ name c stem n, files !! name = Some c → stem_ext name = Some (stem, lit "l0") →
    parse_u64 stem = Some n → name = l0_file_name n ∧ n ∈ map fst ls;
}.

Lemma seg_le_sorted {A} (l : list (Z * A)) : StronglySorted Z.lt (map fst l) → StronglySorted seg_le l.
Proof.
  induction l as [|x l IH]; intros Hs; [constructor|]. cbn in Hs. apply StronglySorted_inv in Hs as [Hs Hx].
  constructor; [by apply IH|]. rewrite Forall_forall in Hx. apply Forall_forall. intros y Hy.
  specialize (Hx y.1 (list_elem_of_fmap_2 fst _ _ Hy)). cbn. lia.
Qed.

Lemma numbered_files_elem {A} ext (entries : list (str * A)) n name c :
  (n, (name, c)) ∈ numbered_files ext entries ↔
  (name, c) ∈ entries ∧ ∃ stem, stem_ext name = Some (stem, ext) ∧ parse_u64 stem = Some n.
Proof.
  unfold numbered_files. rewrite list_elem_of_omap. split.
  - intros ([nm c'] & Hin & E). destruct (stem_ext nm) as [[stem e]|] eqn:Es; [|done].
    destruct (decide (e = ext)) as [->|]; [|done]. destruct (parse_u64 stem) eqn:Ep; [|done].
    cbn in E. simplify_eq. eauto.
  - intros (Hin & stem & Es & Ep). exists (name, c). split; [done|]. rewrite Es, decide_True by done. by rewrite Ep.
Qed.

Lemma numbered_files_NoDup {A} ext (entries : list (str * A)) : NoDup entries.*1 →
  NoDup (map (λ p : Z * (str * A), (p.1, p.2.1)) (numbered_files ext entries)).
Proof.
  induction entries as [|[nm c] es IH]; [constructor|]. cbn [fmap list_fmap]. intros [Hni Hnd]%NoDup_cons.
  specialize (IH Hnd). unfold numbered_files. cbn [omap list_omap].
  fold (numbered_files ext es). repeat case_match; try done. cbn. constructor; [|done].
  intros ([n' [nm' c']] & E & Hin)%list_elem_of_fmap. cbn in E.
  apply numbered_files_elem in Hin as [Hin _]. apply Hni. apply list_elem_of_fmap. exists (nm', c'). cbn.
  match goal with H : _ <$> parse_u64 _ = Some _ |- _ => apply fmap_Some in H as (? & _ & ->) end.
  split; [by injection E|done].
Qed.

Lemma walk_elem (d : dir) name c : (name, c) ∈ walk d ↔ d !! name = Some c.
Proof. rewrite walk_perm. apply elem_of_map_to_list. Qed.

Lemma l0_paths files ls : l0_holds files ls →
  l0_segment_paths_sorted (walk files) = map (λ p, (p.1, l0_file_name p.1)) ls.
Proof.
  intros [Hs Hu Ho Honly]. symmetry. apply sorted_perm_unique.
  - apply seg_le_sorted. by rewrite map_map.
  - apply sort_segments_sorted.
  - rewrite map_map. by apply sorted_lt_NoDup.
  - unfold l0_segment_paths_sorted. rewrite sort_segments_perm. apply NoDup_Permutation.
    + apply (NoDup_fmap_1 fst). rewrite <- list_fmap_compose. by apply sorted_lt_NoDup.
    + apply numbered_files_NoDup. rewrite walk_perm. apply NoDup_fst_map_to_list.
    + intros [n name]. rewrite !list_elem_of_fmap. split.
      * intros ([n' m] & E & Hin). cbn in E. simplify_eq. pose proof (Ho n' m Hin) as Hop.
        rewrite Forall_forall in Hu. specialize (Hu _ Hin). cbn in Hu.
        destruct (l0_name_parses n' Hu) as (stem & Es & Ep).
        unfold L0Segment.open in Hop. destruct (files !! l0_file_name n') as [c|] eqn:Ef; [|done].
        exists (n', (l0_file_name n', c)). split; [done|]. apply numbered_files_elem.
        rewrite walk_elem. eauto.
      * intros ([n' [nm c]] & E & Hin). cbn in E. simplify_eq.
        apply numbered_files_elem in Hin as (Hin & stem & Es & Ep). rewrite walk_elem in Hin.
        destruct (Honly nm c stem n' Hin Es Ep) as [-> Hn].
        apply list_elem_of_fmap in Hn as ([n m] & -> & Hn). exists (n, m). done.
Qed.

Definition level_files (ls : list (Z * Memtable)) : list (str * Memtable) :=
  map (λ p, (l0_file_name p.1, p.2)) ls.

Lemma levels_open files ls : l0_holds files ls →
  DeltaWriter.open_levels cipher (l0_segment_paths_sorted (walk files)) files = Ok (level_files ls).
Proof.
  intros Hh. rewrite (l0_paths files ls Hh). destruct Hh as [_ _ Ho _].
  induction ls as [|[n m] ls IH]; [done|]. cbn [map DeltaWriter.open_levels fst].
  rewrite (Ho n m) by apply list_elem_of_here. cbn [mbind result_bind].
  rewrite IH; [done|]. intros n' m' Hin. apply Ho. by apply list_elem_of_further.
Qed.

(** The next level's number is above all of them. *)
Lemma next_l0 files ls : l0_holds files ls →
  next_l0_number (walk files) = match last ls with Some (n, _) => as_u64 (n + 1) | None => 0 end.
Proof.
  intros Hh. unfold next_l0_number. rewrite (l0_paths files ls Hh).
  rewrite fmap_last. by destruct (last ls) as [[n m]|].
Qed.

End replay.

(** * A listing in the order of the numbers *)

Section numbered.

(** The number in a file name; a key is read as a name where it encodes one. *)
Definition name_number {K} `{Countable K} (k : K) : Z :=
  match decode (A := str) (encode k) with
  | Some name =>
      match stem_ext name with
      | Some (stem, _) => match parse_u64 stem with Some n => n | None => 0 end
      | None => 0
      end
  | None => 0
  end.

Definition numbered_walk : HashWalk.
Proof.
  refine {| walk K A _ _ m := map snd (sort_segments (map (λ p, (name_number p.1, p)) (map_to_list m))) |}.
  intros K A ? ? m. rewrite sort_segments_perm, map_map. cbn. by rewrite map_id.
Defined.

Lemma name_number_segment n : is_u64 n → name_number (segment_file_name n) = n.
Proof.
  intros Hn. unfold name_number. rewrite decode_encode.
  destruct (segment_name_parses n Hn) as (stem & -> & ->). done.
Qed.

Lemma numbered_walk_files n cs : in_range n cs →
  @walk numbered_walk _ _ _ _ (wal_files n cs) = named_files n cs.
Proof.
  intros Hr. cbn.
  assert (map (λ p : str * bytes, (name_number p.1, p)) (named_files n cs) = numbered_segments n cs) as E.
  { revert n Hr. induction cs as [|c cs IH]; intros n Hr; [done|]. apply in_range_cons in Hr as [Hn Hr].
    cbn [named_files numbered_segments map fst]. rewrite name_number_segment by done. f_equal. by apply IH. }
  assert (sort_segments (map (λ p, (name_number p.1, p)) (map_to_list (wal_files n cs))) = numbered_segments n cs) as ->.
  { symmetry. apply sorted_perm_unique; [apply numbered_segments_sorted|apply sort_segments_sorted
      |apply numbered_segments_NoDup|]. rewrite sort_segments_perm, <- E. by rewrite (wal_files_perm n cs Hr). }
  rewrite <- E, map_map. cbn. apply map_id.
Qed.
End numbered.
