(* ===== verification/WriterInv.v ===== *)
(** Durability of the writer: what its memory is, in terms of what its disk holds, and that
    opening the disk again restores it.

    [durable] relates the two: the closed segments and the open one hold the batches
    acknowledged since the last flush, the level files hold the sealed levels, and the active
    memtable is what replaying those batches over those levels gives.  Opening any directory
    a crash may leave gives that memtable and those levels again; a write keeps the relation,
    or leaves it as it was when it is refused; and so does a flush. *)

From S2P Require Import Prelude Values Wire Crypto Seal Identity WalCodec WalReplay WalSink.
From S2P Require Import NodeDelta Memtable MemtableInv MemtableApply MemtableCodec L0Segment.
From S2P Require Import Snapshot DeltaFold Compaction Resolve TouchedJournal DeltaWriter WriterDisk.

(** * Crashes *)

(** The eight bytes of a segment's magic reach the disk together. *)
Definition untorn (c : bytes) : Prop := c = [] ∨ 8 <= zlen c.

(** What may be left of the files being written.  The first has its directory entry on disk; a
    file still being created may also be missing altogether. *)
Inductive crash_new : list (str * (bytes * bytes)) → dir → dir → Prop :=
  | crash_done d : crash_new [] d d
  | crash_kept name e fs c d d' : crash_image e c → untorn c →
      crash_new fs (<[name := c]> d) d' → crash_new ((name, e) :: fs) d d'
  | crash_lost name e fs d d' : crash_new fs d d' → crash_new ((name, e) :: fs) d d'.

Definition crash (d : Disk) (wal l0 : dir) : Prop :=
  l0 = d_l0 d ∧
  match d_open d with
  | [] => wal = d_closed d
  | (name, e) :: fs => ∃ c, crash_image e c ∧ untorn c ∧ crash_new fs (<[name := c]> (d_closed d)) wal
  end.

Lemma crash_new_nil d d' : crash_new [] d d' → d' = d.
Proof. by inversion 1. Qed.

Lemma crash_new_one name e d d' : crash_new [(name, e)] d d' →
  (∃ c, crash_image e c ∧ untorn c ∧ d' = <[name := c]> d) ∨ d' = d.
Proof.
  inversion 1 as [|? ? ? c ? ? Hc Hu Hw|? ? ? ? ? Hw]; subst; apply crash_new_nil in Hw; [left|right]; eauto.
Qed.

(** * The records of a log *)

Definition log_records (bs : list batch) : list WalRecord := concat (map fst bs).

Lemma log_records_app l1 l2 : log_records (l1 ++ l2) = log_records l1 ++ log_records l2.
Proof. unfold log_records. by rewrite map_app, concat_app. Qed.

Lemma apply_batches_records out bs : records (apply_batches out bs) = records out ++ log_records bs.
Proof.
  revert out. induction bs as [|b bs IH]; intros out; cbn; [by rewrite app_nil_r|].
  unfold apply_batches in IH. rewrite IH. cbn. by rewrite <- app_assoc.
Qed.

Lemma replay_records_app f l1 l2 m :
  DeltaWriter.replay_records f (l1 ++ l2) m = DeltaWriter.replay_records f l1 m ≫= DeltaWriter.replay_records f l2.
Proof.
  revert m. induction l1 as [|x l IH]; intros m; cbn [app DeltaWriter.replay_records]; [done|].
  destruct (f m (op x)); cbn [mbind option_bind]; [apply IH|done].
Qed.

(** The highest sequence number a log commits. *)
Definition log_seq (bs : list batch) : Z := last_seq (apply_batches replay_default bs).

Lemma log_seq_snoc bs b : log_seq (bs ++ [b]) = Z.max (log_seq bs) b.2.
Proof. unfold log_seq, apply_batches. by rewrite foldl_app. Qed.

(** * The relation *)

Section durable.
Context {crypto : Crypto} {crypto_laws : CryptoLaws} {layout : Layout} {order : HashWalk} {core : CoreProbe}.
Variable cipher : option BlockCipher.
Variables core_node_count core_edge_count : Z.

(** The sealed levels newest first. *)
Definition stack (ls : list (Z * Memtable)) : list (str * Memtable) := rev (level_files ls).

(** An empty memtable above the core and the levels. *)
Definition above (ls : list (Z * Memtable)) : Memtable :=
  let '(n, e) := DeltaWriter.bases_past core_node_count core_edge_count (level_files ls) in
  with_bases n e.

(** The memtable a log replays to. *)
Definition replayed (ls : list (Z * Memtable)) (bs : list batch) : option Memtable :=
  DeltaWriter.replay_records (replay_op (map snd (stack ls))) (log_records bs) (above ls).

(** The log: a run of closed segments and the open one after them. *)
Record logged (i : WriterInner) (first : Z) (cs : list bytes) (logs : list (list batch))
    (acked : list batch) : Prop := {
  lg_closed : w_closed i = wal_files first cs;
  lg_holds : segments_hold cipher first cs logs;
  lg_range : 0 <= first ∧ first + zlen cs + 1 < 2 ^ 63;
  lg_number : segment (w_sink i) = first + zlen cs;
  lg_cipher : sink_cipher (w_sink i) = bind cipher (wal_name (segment_file_name (segment (w_sink i))));
  lg_clean : clean (w_sink i) acked (w_file i);
  lg_acked : Forall batch_ok acked;
}.

Record durable (i : WriterInner) (first : Z) (cs : list bytes) (logs : list (list batch))
    (acked : list batch) (ls : list (Z * Memtable)) : Prop := {
  du_log : logged i first cs logs acked;
  du_files : l0_holds cipher (w_l0_files i) ls;
  du_levels : w_l0 i = stack ls;
  du_mem : replayed ls (concat logs ++ acked) = Some (w_mem i);
  du_seq : log_seq (concat logs ++ acked) <= w_seq i;
}.

(** A directory found at startup holds the log [bs] and the levels [ls]. *)
Definition holds (wal l0 : dir) (bs : list batch) (ls : list (Z * Memtable)) : Prop :=
  ∃ first cs logs, wal = wal_files first cs ∧ segments_hold cipher first cs logs ∧
    0 <= first ∧ first + zlen cs < 2 ^ 63 ∧ bs = concat logs ∧ l0_holds cipher l0 ls.

(** Where the restart numbers its segment. *)
Lemma next_of first cs : 0 <= first → first + zlen cs < 2 ^ 63 →
  next_segment_number (walk (wal_files first cs)) = if cs is [] then 0 else first + zlen cs.
Proof.
  intros H1 H2. destruct cs as [|c cs]; [apply next_number_empty|].
  apply next_number; [|done]. unfold in_range. lia.
Qed.

Lemma range_of first (cs : list bytes) : 0 <= first → first + zlen cs < 2 ^ 63 → in_range first cs ∧ zlen cs < 2 ^ 63.
Proof. unfold in_range. lia. Qed.

(** A segment is created when no call fails. *)
Lemma create_ok existed n c : ∃ s w, create existed true n c (fresh []) = (Ok s, w).
Proof.
  unfold create. set (b := bind c (wal_name (segment_file_name n))). clearbody b.
  destruct b, existed; vm_compute; eauto.
Qed.

(** Opening a directory restores what it holds. *)
Lemma open_restores existed uuid wal l0 bs ls mem faults files :
  holds wal l0 bs ls → replayed ls bs = Some mem → next_segment_number (walk wal) + 1 < 2 ^ 63 →
  match (DeltaWriter.open cipher true existed uuid core_node_count core_edge_count wal l0 faults files).1 with
  | Ok st =>
      w_mem (inner st) = mem ∧ w_l0 (inner st) = stack ls ∧ w_seq (inner st) = log_seq bs ∧
      published st = mkPublished (published_snapshot mem (stack ls)) (epoch st) ∧
      disks st = [disk_of (inner st)] ∧ consolidating st = false ∧
      ∃ first cs logs, concat logs = bs ∧ durable (inner st) first cs logs [] ls
  | Err _ => files ≠ []
  end.
Proof.
  intros (first & cs & logs & -> & Hs & H0 & Hmax & -> & Hl0) Hr Hnext.
  destruct (range_of first cs H0 Hmax) as [Hrange Hlen].
  unfold DeltaWriter.open. rewrite (levels_open cipher l0 ls Hl0). cbn [mbind result_bind].
  rewrite (replay_files cipher first cs logs Hrange Hlen Hs). cbn [mbind result_bind].
  unfold replayed, above in Hr. fold (stack ls).
  destruct (DeltaWriter.bases_past core_node_count core_edge_count (level_files ls)) as [nb eb] eqn:Eb.
  rewrite apply_batches_records. cbn [records replay_default app]. rewrite Hr. rewrite next_of in * by done.
  set (n := match cs with [] => 0 | _ => _ end).
  destruct (create existed true n cipher (fresh (default [] (head files)))) as [r w] eqn:Ec.
  destruct r as [s|e].
  2:{ cbn. intros ->. cbn in Ec. destruct (create_ok existed n cipher) as (? & ? & E). congruence. }
  cbn. split_and!; try done.
  apply create_clean in Ec as (Hcl & _ & Hseg & Hsc).
  exists (if cs is [] then 0 else first), cs, logs. split; [done|].
  split; [split|..]; cbn; try done.
  - by destruct cs.
  - destruct cs; [by destruct logs|done].
  - destruct cs; [change (zlen (@nil bytes)) with 0|]; lia.
  - rewrite Hseg. by destruct cs.
  - by rewrite Hseg.
  - rewrite app_nil_r. unfold replayed, above. by rewrite Eb.
  - by rewrite app_nil_r.
Qed.

(** The log with one more segment. *)
Lemma holds_snoc first cs logs c bs l0 ls wal : segments_hold cipher first cs logs →
  0 <= first → first + zlen cs + 1 < 2 ^ 63 → l0_holds cipher l0 ls →
  segment_holds cipher (first + zlen cs) c bs →
  wal = <[segment_file_name (first + zlen cs) := c]> (wal_files first cs) →
  holds wal l0 (concat logs ++ bs) ls.
Proof.
  intros Hs H0 Hmax Hl Hc ->. exists first, (cs ++ [c]), (logs ++ [bs]).
  assert (zlen (cs ++ [c]) = zlen cs + 1) as E by (rewrite zlen_app; done).
  split_and!; try done.
  - rewrite wal_files_snoc; [done|]. unfold in_range. lia.
  - apply segments_hold_app; [by eapply segments_hold_length|done].
  - lia.
  - rewrite concat_app. cbn. by rewrite app_nil_r.
Qed.

(** An empty file, as one whose magic was not yet written, holds no batch. *)
Lemma empty_holds n : segment_holds cipher n [] [].
Proof. done. Qed.

(** The open segment after a crash at rest. *)
Lemma crash_at_rest i first cs logs acked c : logged i first cs logs acked →
  crash_image (synced (w_file i), data (w_file i)) c → untorn c →
  segment_holds cipher (segment (w_sink i)) c acked.
Proof.
  intros Hd [Hpre Hkeep] Hu. cbn in *. destruct Hd as [? ? ? ? Hsc Hcl Hok].
  split; [done|]. intros out. rewrite <- Hsc.
  assert (c = data (w_file i) → replay_bytes c (sink_cipher (w_sink i)) out = Ok (apply_batches out acked)) as Hall.
  { intros ->. apply replay_image; [done|apply Hcl]. }
  destruct (clean_synced _ _ _ Hcl) as [Hsy|[-> Hsy]].
  - apply Hall. specialize (Hkeep (data (w_file i))). rewrite Hsy in Hkeep.
    destruct Hpre as [t Ht]. destruct (Hkeep (reflexivity _) (reflexivity _)) as [u Eu].
    apply (f_equal length) in Ht as Hl. rewrite Eu, !length_app in Hl.
    destruct u; [by rewrite app_nil_r in Eu|cbn in Hl; lia].
  - destruct Hu as [->|Hu]; [done|]. apply Hall.
    destruct (clean_image _ _ _ Hcl) as (A & HA & E). inversion HA; subst. rewrite app_nil_r in E.
    rewrite E in Hpre |- *. destruct Hpre as [t Ht]. apply (f_equal length) in Ht as Hl.
    assert (length (segment_magic (sink_cipher (w_sink i))) = 8%nat) as Em.
    { unfold segment_magic. by destruct (sink_cipher (w_sink i)). }
    rewrite length_app, Em in Hl. unfold zlen in Hu. destruct t; [by rewrite app_nil_r in Ht|cbn in Hl; lia].
Qed.

(** Whatever a crash at rest leaves holds the log and the levels. *)
Lemma crash_holds i first cs logs acked ls wal l0 : logged i first cs logs acked →
  l0_holds cipher (w_l0_files i) ls → crash (disk_of i) wal l0 → holds wal l0 (concat logs ++ acked) ls.
Proof.
  intros Hlog Hl (-> & c & Hc & Hu & Hw). cbn in Hc, Hw. apply crash_new_nil in Hw as ->.
  pose proof (crash_at_rest _ _ _ _ _ c Hlog Hc Hu) as Hh. destruct Hlog as [Hcl Hs Hr Hn ? ? ?].
  rewrite Hn in Hh. eapply holds_snoc; [done|apply Hr|lia|done|done|]. cbn. by rewrite Hcl, Hn.
Qed.

(** * Writes *)

Variable random_nonce : nat → bytes.
Hypothesis nonce_length : ∀ i, zlen (random_nonce i) = NONCE_LEN.

Lemma log_seq_nonneg bs : 0 <= log_seq bs.
Proof.
  induction bs as [|b bs IH] using rev_ind; [done|]. rewrite log_seq_snoc. lia.
Qed.

(** A batch appended to the open segment, with the disks passed through. *)
Lemma append_durable st first cs logs acked ls b r st' :
  durable (inner st) first cs logs acked ls → batch_ok b → batch_fits b →
  DeltaWriter.with_sink (λ s, append_batch random_nonce s b.1 b.2) st = (r, st') →
  ∃ w nd, st' = log_disks nd (set_inner (set_wal (w_closed (inner st)) (w_sink (inner st)) w (inner st)) st) ∧
    (is_ok r = true → clean (w_sink (inner st)) (acked ++ [b]) w) ∧
    (is_ok r = false → warned w = warned (w_file (inner st)) → clean (w_sink (inner st)) acked w) ∧
    ∀ d wal l0, d ∈ nd → crash d wal l0 →
      holds wal l0 (concat logs ++ acked) ls ∨ holds wal l0 (concat logs ++ acked ++ [b]) ls.
Proof.
  intros [[Hcl Hs Hr Hn Hsc Hclean Hok] Hl Hlv Hm Hq] Hb Hfit. unfold DeltaWriter.with_sink.
  destruct (append_batch random_nonce (w_sink (inner st)) b.1 b.2 (w_file (inner st))) as [r0 w] eqn:E.
  intros [= <- <-].
  destruct (append_batch_spec random_nonce _ acked b _ _ _ nonce_length Hok Hb Hfit Hclean E)
    as (H1 & H2 & nt & Ht & Hcr).
  eexists w, _. split; [done|]. split_and!; [done..|].
  intros d wal l0 (e & -> & He)%list_elem_of_fmap (-> & c & Hc & Hu & Hw). cbn in Hw. apply crash_new_nil in Hw as ->.
  unfold new_trail in He. rewrite Ht, length_app, Nat.add_sub, take_app_length in He. cbn [d_l0 d_closed].
  assert (∀ bs, Forall batch_ok bs → replays_to (w_sink (inner st)) c bs →
    segment_holds cipher (first + zlen cs) c bs) as Hseg.
  { intros bs Hbs H. split; [done|]. rewrite <- Hn, <- Hsc. exact H. }
  rewrite Hcl, Hn.
  assert (∀ bs, segment_holds cipher (first + zlen cs) c bs →
    holds (<[segment_file_name (first + zlen cs):=c]> (wal_files first cs)) (w_l0_files (inner st))
      (concat logs ++ bs) ls) as Hh.
  { intros bs H. eapply holds_snoc; [done|apply Hr|lia|done|done|done]. }
  destruct (Hcr e c He Hc) as [H|[H|[-> H]]].
  - left. by apply Hh, Hseg.
  - right. apply Hh, Hseg; [|done]. apply Forall_app; split; [done|by constructor].
  - left. apply Hh. destruct Hu as [->|]; [done|lia].
Qed.

(** The operations of a batch have live the effect they have at replay. *)
Fixpoint replays_as (l0 : list Memtable) (ops : list (WalOp * OpResolution)) (m : Memtable) : Prop :=
  match ops with
  | [] => True
  | (op, res) :: ops =>
      apply op res m = replay_op l0 m op ∧ ∀ m', apply op res m = Some m' → replays_as l0 ops m'
  end.

Lemma apply_all_replays l0 ops recs m : replays_as l0 ops m → map op recs = map fst ops →
  DeltaWriter.replay_records (replay_op l0) recs m = DeltaWriter.apply_all ops m.
Proof.
  revert recs m. induction ops as [|[o res] ops IH]; intros [|rec recs] m Hrep Hops; try done.
  injection Hops as E1 E2. destruct Hrep as [H1 H2]. cbn [DeltaWriter.replay_records DeltaWriter.apply_all].
  rewrite E1, <- H1. destruct (apply o res m) as [m'|] eqn:E; [|done]. cbn [mbind option_bind]. by apply IH; auto.
Qed.

(** The records of a batch carry its operations under consecutive numbers. *)
Lemma number_records_spec seq ops recs lst : 0 <= seq → seq + zlen ops < 2 ^ 64 → Forall (λ o, op_ok o.1) ops →
  DeltaWriter.number_records seq ops = (recs, lst) →
  lst = seq + zlen ops ∧ map op recs = map fst ops ∧ batch_ok (recs, lst).
Proof.
  revert seq recs lst. induction ops as [|[o res] ops IH]; intros seq recs lst H0 Hmax Hok; cbn [DeltaWriter.number_records].
  - intros [= <- <-]. change (zlen (@nil (WalOp * OpResolution))) with 0 in *. split_and!; [lia|done|].
    split; [constructor|]. unfold is_u64. cbn. lia.
  - rewrite zlen_cons in *. pose proof (zlen_nonneg ops). inversion Hok as [|? ? Ho Hok']; subst.
    unfold seq_next. rewrite as_u64_id by (unfold is_u64; lia).
    destruct (DeltaWriter.number_records (seq + 1) ops) as [recs' lst'] eqn:E. intros [= <- <-].
    destruct (IH (seq + 1) recs' lst') as (-> & Hm & [Hr Hu]); [lia|lia|done|done|].
    split_and!; [lia|cbn; by rewrite Hm|]. split; [|done]. constructor; [|done].
    split; [unfold is_u64; cbn; lia|done].
Qed.

(** What a write does: acknowledged, it is durable, installed and published; refused, nothing
    a reader or a restart can see has changed, unless a rollback of the log failed; and a
    crash at any point leaves the log without it or with all of it. *)
Definition write_effect (st : DeltaWriter) (first : Z) (cs : list bytes) (logs : list (list batch))
    (acked : list batch) (ls : list (Z * Memtable)) (b : batch) (applied : option Memtable)
    (ids : Memtable → list Z) (r : result Z) (st' : DeltaWriter) : Prop :=
  (∃ nd, disks st' = nd ++ disks st ∧ ∀ d wal l0, d ∈ nd → crash d wal l0 →
    holds wal l0 (concat logs ++ acked) ls ∨ holds wal l0 (concat logs ++ acked ++ [b]) ls) ∧
  w_l0 (inner st') = w_l0 (inner st) ∧ consolidating st' = consolidating st ∧
  match r with
  | Ok seq =>
      seq = b.2 ∧ w_seq (inner st') = seq ∧ applied = Some (w_mem (inner st')) ∧
      durable (inner st') first cs logs (acked ++ [b]) ls ∧ epoch st' = epoch st + 1 ∧
      published st' = mkPublished (published_snapshot (w_mem (inner st')) (w_l0 (inner st'))) (epoch st') ∧
      touched st' = TouchedJournal.settle (Touched (ids (w_mem (inner st')))) (epoch st') (touched st)
  | Err _ =>
      w_mem (inner st') = w_mem (inner st) ∧ published st' = published st ∧ epoch st' = epoch st ∧
      touched st' = touched st ∧
      (warned (w_file (inner st')) = warned (w_file (inner st)) → durable (inner st') first cs logs acked ls)
  end.

(** The relation with a new file, memtable and number. *)
Lemma durable_file i first cs logs acked acked' ls w m q :
  durable i first cs logs acked ls → clean (w_sink i) acked' w → Forall batch_ok acked' →
  replayed ls (concat logs ++ acked') = Some m → log_seq (concat logs ++ acked') <= q →
  durable (mkInner (w_closed i) (w_l0_files i) (w_sink i) w m (w_l0 i) q) first cs logs acked' ls.
Proof. intros [[] ? ? ? ?] ? ? ? ?. by split. Qed.

Lemma replayed_snoc ls bs b m : replayed ls bs = Some m →
  replayed ls (bs ++ [b]) = DeltaWriter.replay_records (replay_op (map snd (stack ls))) b.1 m.
Proof.
  unfold replayed. intros Hm. rewrite log_records_app, replay_records_app, Hm. cbn [mbind option_bind].
  unfold log_records. cbn. by rewrite app_nil_r.
Qed.

Lemma write_batch_effect st first cs logs acked ls ops recs lst r st' :
  durable (inner st) first cs logs acked ls → ops ≠ [] → Forall (λ o, op_ok o.1) ops →
  w_seq (inner st) + zlen ops < 2 ^ 64 →
  DeltaWriter.number_records (w_seq (inner st)) ops = (recs, lst) → batch_fits (recs, lst) →
  replays_as (map snd (w_l0 (inner st))) ops (w_mem (inner st)) →
  DeltaWriter.write_batch random_nonce ops st = (r, st') →
  write_effect st first cs logs acked ls (recs, lst) (DeltaWriter.apply_all ops (w_mem (inner st)))
    (λ m, touched_node_ids m ops) r st'.
Proof.
  intros Hd Hne Hok Hmax Hnum Hfit Hrep. pose proof (log_seq_nonneg (concat logs ++ acked)) as H0.
  pose proof (du_seq _ _ _ _ _ _ Hd) as Hq.
  destruct (number_records_spec (w_seq (inner st)) ops recs lst) as (El & Hops & Hbok); [lia|done..|].
  pose proof (zlen_nonneg ops) as Hlen. unfold DeltaWriter.write_batch.
  destruct ops as [|o ops]; [done|]. cbv iota. remember (o :: ops) as os eqn:Eos. clear Eos o ops Hne.
  unfold mbind, wio_bind, wgets, wmodify at 1, wpanic. cbn beta iota.
  destruct (DeltaWriter.apply_all os (w_mem (inner st))) as [m|] eqn:Ea.
  2:{ intros [= <- <-]. split_and!; [by exists []; split; [|intros ? ? ? ?%elem_of_nil]|done..]. }
  cbn. rewrite Hnum. cbn.
  set (st1 := set_inner (set_seq lst (inner st)) st).
  assert (durable (inner st1) first cs logs acked ls) as Hd1.
  { destruct Hd as [[]]. split; [by split|done..|]. cbn. lia. }
  destruct (DeltaWriter.with_sink _ st1) as [r1 st2] eqn:Ew.
  apply (append_durable st1 first cs logs acked ls (recs, lst)) in Ew as (w & nd & -> & Hgood & Hbad & Hcr); [|done..].
  destruct r1 as [[]|e]; intros [= <- <-].
  - split; [by exists nd|]. split_and!; try done.
    apply (durable_file (inner st1) _ _ _ acked); [done|by apply Hgood| | |].
    + apply Forall_app; split; [apply Hd|by constructor].
    + rewrite app_assoc, (replayed_snoc _ _ _ _ (du_mem _ _ _ _ _ _ Hd)). cbn [fst].
      rewrite <- (du_levels _ _ _ _ _ _ Hd). by rewrite (apply_all_replays _ os).
    + rewrite app_assoc, log_seq_snoc. cbn. lia.
  - split; [by exists nd|]. split_and!; try done. cbn. intros Hw.
    apply (durable_file (inner st1) _ _ _ acked); [done|by apply Hbad|apply Hd|apply Hd|apply Hd1].
Qed.

Lemma write_one_effect st first cs logs acked ls op res r st' :
  durable (inner st) first cs logs acked ls → op_ok op → w_seq (inner st) + 1 < 2 ^ 64 →
  let b := ([Build_WalRecord (w_seq (inner st) + 1) op], w_seq (inner st) + 1) in
  batch_fits b → apply op res (w_mem (inner st)) = replay_op (map snd (w_l0 (inner st))) (w_mem (inner st)) op →
  DeltaWriter.write random_nonce op res st = (r, st') →
  write_effect st first cs logs acked ls b (apply op res (w_mem (inner st)))
    (λ m, touched_node_ids m [(op, res)]) r st'.
Proof.
  intros Hd Hok Hmax b Hfit Hrep. pose proof (log_seq_nonneg (concat logs ++ acked)) as H0.
  pose proof (du_seq _ _ _ _ _ _ Hd) as Hq.
  assert (batch_ok b) as Hbok.
  { split; [constructor; [|done]|]; [split; [|done]|]; unfold is_u64; cbn; lia. }
  unfold DeltaWriter.write, mbind, wio_bind, wgets, wpanic. cbn beta iota.
  destruct (apply op res (w_mem (inner st))) as [m|] eqn:Ea.
  2:{ intros [= <- <-]. split_and!; [by exists []; split; [|intros ? ? ? ?%elem_of_nil]|done..]. }
  unfold mret at 1, wio_ret at 1. cbn beta iota. unfold seq_next.
  rewrite as_u64_id by (unfold is_u64; lia). cbn.
  destruct (DeltaWriter.with_sink _ st) as [r1 st2] eqn:Ew.
  apply (append_durable st first cs logs acked ls b) in Ew as (w & nd & -> & Hgood & Hbad & Hcr); [|done..].
  destruct r1 as [[]|e]; intros [= <- <-].
  - split; [by exists nd|]. split_and!; try done.
    apply (durable_file (inner st) _ _ _ acked); [done|by apply Hgood| | |].
    + apply Forall_app; split; [apply Hd|by constructor].
    + rewrite app_assoc, (replayed_snoc _ _ _ _ (du_mem _ _ _ _ _ _ Hd)). cbn.
      rewrite <- (du_levels _ _ _ _ _ _ Hd), <- Hrep. done.
    + rewrite app_assoc, log_seq_snoc. cbn. lia.
  - split; [by exists nd|]. split_and!; try done. cbn. intros Hw.
    apply (durable_file (inner st) _ _ _ acked); [done|by apply Hbad|apply Hd|apply Hd|apply Hd].
Qed.
End durable.
