(* ===== verification/WriterFlush.v ===== *)
(** A flush keeps the writer durable: the level file is written before the log is rotated and
    removed, and the new memtable starts past the ids of the sealed one. *)

From S2P Require Import Prelude Values Wire Crypto Seal Identity WalCodec WalReplay WalSink.
From S2P Require Import NodeDelta Memtable MemtableInv MemtableApply MemtableCodec L0Segment.
From S2P Require Import Snapshot DeltaFold Compaction Resolve TouchedJournal DeltaWriter WriterDisk.
From S2P Require Import WriterInv.

#[local] Arguments segment_file_name : simpl never.
#[local] Arguments l0_file_name : simpl never.

(** * The bases of a memtable never move *)

Definition bases (m : Memtable) : Z * Z := (Memtable.synthetic_base m, Memtable.edge_synthetic_base m).

Section bases.
Context {layout : Layout}.

Lemma touch_bases l k v r m : bases (touch_node_entry l k v r m).2 = bases m.
Proof.
  unfold touch_node_entry. destruct (intern_node_identity l k v (interner m)) as [id i].
  by repeat case_match.
Qed.

Lemma update_bases ck f m n : bases (charge (update_delta ck f m) n) = bases m.
Proof. unfold update_delta. by case_match. Qed.

Lemma endpoint_bases l k v r m : bases (endpoint_dense_or_create l k v r m).2 = bases m.
Proof.
  unfold endpoint_dense_or_create. destruct r; [done|].
  destruct (intern_node_identity l k v (interner m)) as [id i]. by repeat case_match.
Qed.

Lemma born_endpoint_bases l k v r m : bases (born_endpoint_dense l k v r m).2 = bases m.
Proof.
  unfold born_endpoint_dense. destruct r; [done|].
  by destruct (intern_node_identity l k v (interner m)) as [id i].
Qed.

Lemma intern_edge_bases sl sk sv rt dl dk dv ek m :
  bases (intern_edge_identity sl sk sv rt dl dk dv ek m).2 = bases m.
Proof. unfold intern_edge_identity. by repeat case_match. Qed.

Lemma patch_edge_bases eck ek rp ps m : bases (patch_edge eck ek rp ps m) = bases m.
Proof. unfold patch_edge. by case_match. Qed.

Lemma node_write_bases op l k v r m m' : node_key op = Some (l, k, v) →
  apply op (ResNode r) m = Some m' → bases m' = bases m.
Proof.
  intros Hk Ha. destruct op; try done; cbn in Hk, Ha; injection Hk as -> -> ->; injection Ha as <-.
  all: try (unfold upsert_node, remove_node_props, replace_node, set_node_labels;
    pose proof (touch_bases l k v r m) as Ht; destruct (touch_node_entry l k v r m) as [ck m1];
    cbn [snd] in Ht; by rewrite update_bases).
  unfold delete_node. destruct (intern_node_identity l k v (interner m)) as [id i]. by repeat case_match.
Qed.

Lemma edge_write_bases op s d e m m' : apply op (ResEdge s d e) m = Some m' → bases m' = bases m.
Proof.
  destruct op as [| | | | |sl sk sv rt dl dk dv ek rp ps|sl sk sv rt dl dk dv ek]; try done; cbn [apply].
  - pose proof (endpoint_bases sl sk sv s m) as E1.
    pose proof (endpoint_bases dl dk dv d (endpoint_dense_or_create sl sk sv s m).2) as E2.
    pose proof (intern_edge_bases sl sk sv rt dl dk dv ek
      (endpoint_dense_or_create dl dk dv d (endpoint_dense_or_create sl sk sv s m).2).2) as E3.
    destruct e as [c|]; intros [= <-]; [unfold patch_core_edge_keyed|unfold upsert_edge_keyed];
      destruct (endpoint_dense_or_create sl sk sv s m) as [x m1]; cbn [snd] in *;
      destruct (endpoint_dense_or_create dl dk dv d m1) as [y m2]; cbn [snd] in *;
      destruct (intern_edge_identity sl sk sv rt dl dk dv ek m2) as [id m3]; cbn [snd] in *;
      rewrite patch_edge_bases; repeat case_match; (trans (bases m3); [done|congruence]).
  - intros [= <-]. unfold delete_edge_keyed. pose proof (born_endpoint_bases sl sk sv s m) as E1.
    destruct (born_endpoint_dense sl sk sv s m) as [x m1]; cbn [snd] in *. destruct x as [x|]; [|done].
    pose proof (born_endpoint_bases dl dk dv d m1) as E2.
    destruct (born_endpoint_dense dl dk dv d m1) as [y m2]; cbn [snd] in *. destruct y as [y|]; [|congruence].
    pose proof (intern_edge_bases sl sk sv rt dl dk dv ek m2) as E3.
    destruct (intern_edge_identity sl sk sv rt dl dk dv ek m2) as [id m3]; cbn [snd] in *.
    repeat case_match; (trans (bases m3); [done|congruence]).
Qed.

(** Replay never panics, and keeps the bases. *)
Lemma replay_op_total `{CoreProbe} l0 m op : ∃ m', replay_op l0 m op = Some m' ∧ bases m' = bases m.
Proof.
  unfold replay_op. destruct (node_key op) as [[[l k] v]|] eqn:Hk.
  - rewrite (replay_node l0 op _ Hk). cbn [mbind option_bind].
    destruct (apply op (ResNode (key_id l0 (l, k, v))) m) as [m'|] eqn:E; [|by destruct op].
    exists m'. split; [done|]. by eapply node_write_bases.
  - destruct (edge_keys op) as [[[src rt] dst]|] eqn:He; [|by destruct op].
    destruct (replay_edge l0 op src rt dst He) as (eid & _ & ->). cbn [mbind option_bind].
    destruct (apply op _ m) as [m'|] eqn:E; [|by destruct op, eid].
    exists m'. split; [done|]. by eapply edge_write_bases.
Qed.

Lemma replay_records_total `{CoreProbe} l0 recs m :
  ∃ m', DeltaWriter.replay_records (replay_op l0) recs m = Some m' ∧ bases m' = bases m.
Proof.
  revert m. induction recs as [|rec recs IH]; intros m; cbn [DeltaWriter.replay_records]; [by exists m|].
  destruct (replay_op_total l0 m (op rec)) as (m1 & -> & E1). cbn [mbind option_bind].
  destruct (IH m1) as (m2 & -> & E2). exists m2. split; [done|congruence].
Qed.
End bases.

(** * Writing a level *)

(** Staging and renaming touches two names, the second only by the rename. *)
Lemma staged_frame tmp name framed outcomes d : tmp ≠ name →
  let '(r, ds) := run_ops [CreateFile tmp; WriteAll tmp framed; SyncAll tmp; Rename tmp name] outcomes d in
  (∀ d' x, d' ∈ ds → x ≠ tmp → x ≠ name → d' !! x = d !! x) ∧
  (r ≠ Ok tt → ∀ d', d' ∈ ds → d' !! name = d !! name).
Proof.
  intros Hne.
  assert (∀ (l : list dir) (P : dir → Prop), Forall P l → ∀ d', d' ∈ l → P d') as Hall
    by (intros l P H d' Hd; by rewrite Forall_forall in H; apply H).
  cbn [run_ops].
  destruct (mjoin (head outcomes)); cbn; [|destruct (mjoin (head (tail outcomes))); cbn;
    [|destruct (mjoin (head (tail (tail outcomes)))); cbn;
      [|destruct (mjoin (head (tail (tail (tail outcomes))))); cbn; rewrite ?lookup_insert_eq; cbn]]].
  all: split; [intros d' x Hd Hx Hy; revert d' Hd; apply Hall;
    repeat constructor; by rewrite ?lookup_insert_ne, ?lookup_delete_ne, ?lookup_insert_ne by done|].
  all: intros Hr; try done; apply Hall; repeat constructor; by rewrite ?lookup_insert_ne by done.
Qed.

Lemma tmp_of n : is_u64 n → ∃ stem, stem_ext (with_tmp (l0_file_name n)) = Some (stem, lit "tmp").
Proof.
  intros Hn. destruct (numbered_name_stem n (lit "l0") Hn) as [E _]; [by repeat constructor|].
  destruct (numbered_name_stem n (lit "tmp") Hn) as [E' _]; [by repeat constructor|].
  exists (repeat 48 (10 - length (decimal n)) ++ decimal n). cbv zeta in E, E'.
  unfold with_tmp, l0_file_name. cbv zeta. rewrite app_assoc.
  change (lit ".l0") with (46 :: lit "l0"). by rewrite E.
Qed.

Section levels.
Context {crypto : Crypto} {crypto_laws : CryptoLaws} (cipher : option BlockCipher).

(** Only the names of levels matter. *)
Lemma l0_holds_same d d' ls tmp stem : stem_ext tmp = Some (stem, lit "tmp") →
  (∀ x, x ≠ tmp → d' !! x = d !! x) → l0_holds cipher d ls → l0_holds cipher d' ls.
Proof.
  intros Ht Hsame [Hs Hu Ho Honly].
  assert (∀ x stem', stem_ext x = Some (stem', lit "l0") → d' !! x = d !! x) as Hx.
  { intros x stem' E. apply Hsame. intros ->. rewrite Ht in E. discriminate E. }
  split; [done|done| |].
  - intros n m Hin. rewrite Forall_forall in Hu. destruct (l0_name_parses n (Hu _ Hin)) as (st & E & _).
    rewrite (open_same _ _ d); [by apply Ho|by eapply Hx].
  - intros name c st n Hn E Ep. rewrite (Hx name st) in Hn by done. by eapply Honly.
Qed.

(** A level added under a new number. *)
Lemma l0_holds_snoc d d' ls n m : is_u64 n → Forall (λ p, p.1 < n) ls → l0_holds cipher d ls →
  L0Segment.open (l0_file_name n) cipher d' = Ok m →
  (∀ x stem, stem_ext x = Some (stem, lit "l0") → x ≠ l0_file_name n → d' !! x = d !! x) →
  l0_holds cipher d' (ls ++ [(n, m)]).
Proof.
  intros Hn Hlt [Hs Hu Ho Honly] Hopen Hsame. split.
  - rewrite map_app. cbn. clear -Hs Hlt. induction ls as [|x ls IH]; cbn in *; [by repeat constructor|].
    apply StronglySorted_inv in Hs as [Hs Hx]. inversion Hlt; subst. constructor; [by apply IH|].
    apply Forall_app. split; [done|by repeat constructor].
  - apply Forall_app. split; [done|by constructor].
  - intros n' m' [Hin|[= -> ->]%list_elem_of_singleton]%elem_of_app; [|done].
    rewrite Forall_forall in Hu, Hlt. specialize (Hu _ Hin). specialize (Hlt _ Hin). cbn in *.
    destruct (l0_name_parses n' Hu) as (st & E & _).
    rewrite (open_same _ _ d); [by apply Ho|]. apply (Hsame _ st E).
    intros E'. apply l0_file_name_inj in E'; [lia|done..].
  - intros name c st k Hc E Ep. rewrite map_app, elem_of_app. cbn [map].
    destruct (decide (name = l0_file_name n)) as [->|Hne].
    + destruct (l0_name_parses n Hn) as (st' & E' & Ep'). assert (k = n) as -> by congruence.
      split; [done|]. right. apply list_elem_of_here.
    + rewrite (Hsame name st) in Hc by done. destruct (Honly name c st k Hc E Ep). auto.
Qed.

(** Writing a level: at every moment the directory holds the old levels or the new one as
    well, and it holds the new one just when the write succeeds. *)
Lemma level_written d ls n m nonce outcomes r ds : is_u64 n → Forall (λ p, p.1 < n) ls →
  memtable_wf m → encodable m → zlen nonce = NONCE_LEN → l0_holds cipher d ls →
  L0Segment.write m (l0_file_name n) cipher nonce outcomes d = (r, ds) →
  (∀ d', d' ∈ ds → l0_holds cipher d' ls ∨ l0_holds cipher d' (ls ++ [(n, m)])) ∧
  (r = Ok tt → l0_holds cipher (default d (last ds)) (ls ++ [(n, m)])) ∧
  (r ≠ Ok tt → ∀ d', d' ∈ ds → l0_holds cipher d' ls).
Proof.
  intros Hn Hlt Hm He Hno Hd. unfold L0Segment.write. set (name := l0_file_name n).
  destruct (l0_cipher cipher name) as [c|e] eqn:Ec; cbn [mbind result_bind].
  2:{ intros [= <- <-]. split_and!; [|done|]; intros; try left; by match goal with H : _ ∈ [_] |- _ =>
    apply list_elem_of_singleton in H as -> end. }
  destruct (frame_blob _ _ c nonce _) as [framed|e] eqn:Ef; cbn [mbind result_bind].
  2:{ intros [= <- <-]. split_and!; [|done|]; intros; try left; by match goal with H : _ ∈ [_] |- _ =>
    apply list_elem_of_singleton in H as -> end. }
  destruct (tmp_of n Hn) as (st & Et). fold name in Et.
  assert (with_tmp name ≠ name) as Hne.
  { intros E. rewrite E in Et. destruct (l0_name_parses n Hn) as (st' & E' & _). fold name in E'.
    rewrite Et in E'. discriminate E'. }
  pose proof (staged_write (with_tmp name) name framed outcomes d Hne) as Hst.
  pose proof (staged_frame (with_tmp name) name framed outcomes d Hne) as Hfr.
  intros Hrun. rewrite Hrun in Hst, Hfr. destruct Hst as [Hst Hlast], Hfr as [Hfr Herr].
  assert (∀ d', d' ∈ ds → d' !! name = d !! name → l0_holds cipher d' ls) as Hold.
  { intros d' Hin E. eapply (l0_holds_same d d' ls _ _ Et); [|done]. intros x Hx.
    destruct (decide (x = name)) as [->|]; [done|by apply Hfr]. }
  assert (∀ d', d' ∈ ds → d' !! name = Some framed → l0_holds cipher d' (ls ++ [(n, m)])) as Hnew.
  { intros d' Hin E. apply (l0_holds_snoc d); [done..| |].
    - by eapply (open_framed name cipher nonce m c framed).
    - intros x st' E' Hx. apply Hfr; [done| |done]. intros ->. rewrite Et in E'. discriminate E'. }
  split_and!.
  - intros d' Hin. destruct (Hst d' Hin); auto.
  - intros Hok. destruct (Hlast Hok) as (d' & El & E). rewrite El. cbn. apply Hnew; [|done].
    by apply last_Some_elem_of.
  - intros Hnok d' Hin. auto.
Qed.
End levels.

(** * The steps of a flush *)

Lemma wio_bind_inv {A B} (m : wio A) (f : A → wio B) st r st' : (m ≫= f) st = (r, st') →
  (∃ a st1, m st = (Ok a, st1) ∧ f a st1 = (r, st')) ∨ (∃ e, m st = (Err e, st') ∧ r = Err e).
Proof.
  unfold mbind, wio_bind. destruct (m st) as [[a|e] st1]; [by eauto|]. intros [= <- <-]. eauto.
Qed.

Lemma dir_call_spec {A} (f : WriterInner → A) st r st' : dir_call f st = (r, st') →
  ∃ s, st' = set_sched s st ∧ (r = Ok (f (inner st)) ∨ r = Err IoError).
Proof.
  unfold dir_call, next_fault, mbind, wio_bind. destruct (sched st) as [|[k|] s] eqn:E; cbn; intros [= <- <-].
  - exists (sched st). split; [by destruct st|by left].
  - exists s. auto.
  - exists s. auto.
Qed.

Section flush.
Context {crypto : Crypto} {crypto_laws : CryptoLaws} {layout : Layout} {order : HashWalk} {core : CoreProbe}.
Variable cipher : option BlockCipher.
Variables core_node_count core_edge_count : Z.

(** The log directory of a writer is one run of segments. *)
Lemma wal_dir_files i first cs logs acked : logged cipher i first cs logs acked →
  wal_dir i = wal_files first (cs ++ [data (w_file i)]) ∧ in_range first (cs ++ [data (w_file i)]).
Proof.
  intros [Hcl _ [H0 Hr] Hn _ _ _]. assert (in_range first (cs ++ [data (w_file i)])) as Hin.
  { unfold in_range. rewrite zlen_app. change (zlen [data (w_file i)]) with 1. lia. }
  split; [|done]. unfold wal_dir. by rewrite Hcl, Hn, wal_files_snoc.
Qed.

Lemma logged_next i first cs logs acked : logged cipher i first cs logs acked →
  next_segment_number (DeltaWriter.read_wal i) = first + zlen cs + 1.
Proof.
  intros Hlog. unfold DeltaWriter.read_wal. destruct (wal_dir_files _ _ _ _ _ Hlog) as [-> Hin].
  rewrite next_number; [|done|by destruct cs]. rewrite zlen_app. change (zlen [_]) with 1. lia.
Qed.

Lemma logged_paths i first cs logs acked : logged cipher i first cs logs acked →
  wal_segment_paths (DeltaWriter.read_wal i) ≡ₚ map fst (named_files first (cs ++ [data (w_file i)])).
Proof.
  intros Hlog. unfold DeltaWriter.read_wal. destruct (wal_dir_files _ _ _ _ _ Hlog) as [-> Hin].
  by apply segment_paths.
Qed.

(** What the open segment holds. *)
Lemma open_holds i first cs logs acked : logged cipher i first cs logs acked →
  segment_holds cipher (first + zlen cs) (data (w_file i)) acked.
Proof.
  intros [_ _ _ Hn Hsc Hcl Hok]. split; [done|]. intros out. rewrite <- Hn, <- Hsc.
  apply replay_image; [done|apply Hcl].
Qed.

(** Rotation: the open segment joins the closed ones, whether or not sealing it succeeds. *)
Lemma rotate_logged st first cs logs acked s w r st' : logged cipher (inner st) first cs logs acked →
  clean s [] w → segment s = first + zlen cs + 1 → first + zlen cs + 2 < 2 ^ 63 →
  sink_cipher s = bind cipher (wal_name (segment_file_name (segment s))) →
  DeltaWriter.rotate (s, w) st = (r, st') →
  let i := inner st in
  let i' := mkInner (wal_files first (cs ++ [data (w_file i)])) (w_l0_files i) s w (w_mem i) (w_l0 i) (w_seq i) in
  st' = log_disks [disk_of i'] (set_inner i' st) ∧
  logged cipher i' first (cs ++ [data (w_file i)]) (logs ++ [acked]) [].
Proof.
  intros Hlog Hcl Hseg Hmax Hsc. unfold DeltaWriter.rotate.
  destruct (WalSink.seal (w_sink (inner st)) (w_file (inner st))) as [r1 w1] eqn:E.
  pose proof (seal_data _ _ _ _ _ (lg_clean _ _ _ _ _ _ Hlog) E) as Ed. intros [= _ <-]. cbn [fst snd].
  rewrite Ed. cbv zeta. change (set_wal ?d s w (inner st)) with
    (mkInner d (w_l0_files (inner st)) s w (w_mem (inner st)) (w_l0 (inner st)) (w_seq (inner st))).
  destruct (wal_dir_files _ _ _ _ _ Hlog) as [Hdir Hin]. unfold wal_dir in Hdir. rewrite Hdir.
  split; [done|]. pose proof (open_holds _ _ _ _ _ Hlog) as Hopen.
  destruct Hlog as [Hclosed Hs [H0 Hr] Hn _ _ Hok]. split; cbn; try done.
  - apply segments_hold_app; [by eapply segments_hold_length|done].
  - rewrite zlen_app. change (zlen [_]) with 1. lia.
  - rewrite zlen_app. change (zlen [_]) with 1. lia.
Qed.

(** A segment still being created holds nothing, as far as it is there. *)
Lemma unborn_holds n e c : e.2 `prefix_of` segment_magic (bind cipher (wal_name (segment_file_name n))) →
  crash_image e c → untorn c → segment_holds cipher n c [].
Proof.
  intros He [Hc _] Hu. split; [constructor|]. intros out. destruct Hu as [->|Hu]; [done|].
  set (b := bind cipher (wal_name (segment_file_name n))) in *.
  assert (c = segment_magic b) as ->.
  { assert (c `prefix_of` segment_magic b) as [t Ht] by by trans e.2. apply (f_equal length) in Ht as Hl.
    assert (length (segment_magic b) = 8%nat) as Em by by destruct b.
    rewrite length_app, Em in Hl. unfold zlen in Hu. destruct t; [by rewrite app_nil_r in Ht|cbn in Hl; lia]. }
  rewrite <- (app_nil_r (segment_magic b)), replay_bytes_magic. by destruct b.
Qed.

(** A crash while the next segment is being created. *)
Lemma crash_creating i first cs logs acked ls e wal l0 : logged cipher i first cs logs acked →
  first + zlen cs + 2 < 2 ^ 63 → l0_holds cipher (w_l0_files i) ls →
  e.2 `prefix_of` segment_magic (bind cipher (wal_name (segment_file_name (first + zlen cs + 1)))) →
  crash (mkDisk (w_closed i) [open_entry (w_sink i) (w_file i); (segment_file_name (first + zlen cs + 1), e)]
    (w_l0_files i)) wal l0 →
  holds cipher wal l0 (concat logs ++ acked) ls.
Proof.
  intros Hlog Hmax Hl He (-> & c & Hc & Hu & Hw). cbn in Hw.
  pose proof (crash_at_rest cipher i first cs logs acked c Hlog Hc Hu) as Hh.
  destruct Hlog as [Hcl Hs [H0 Hr] Hn _ _ _]. rewrite Hn in Hh, Hw. rewrite Hcl in Hw.
  assert (in_range first (cs ++ [c])) as Hin by (unfold in_range; rewrite zlen_app; change (zlen [c]) with 1; lia).
  match type of Hw with crash_new _ ?d _ => replace d with (wal_files first (cs ++ [c])) in Hw by by apply wal_files_snoc end.
  assert (segments_hold cipher first (cs ++ [c]) (logs ++ [acked])) as Hs'.
  { apply segments_hold_app; [by eapply segments_hold_length|done]. }
  assert (zlen (cs ++ [c]) = zlen cs + 1) as El by (rewrite zlen_app; done).
  assert (concat (logs ++ [acked]) = concat logs ++ acked) as Ec by (rewrite concat_app; cbn; by rewrite app_nil_r).
  apply crash_new_one in Hw as [(c1 & Hc1 & Hu1 & ->)| ->].
  - rewrite <- (app_nil_r (concat logs ++ acked)), <- Ec.
    apply (holds_snoc cipher first (cs ++ [c]) (logs ++ [acked]) c1); [done|done|lia|done| |].
    + rewrite El. replace (first + (zlen cs + 1)) with (first + zlen cs + 1) by lia. by eapply unborn_holds.
    + rewrite El. by replace (first + (zlen cs + 1)) with (first + zlen cs + 1) by lia.
  - exists first, (cs ++ [c]), (logs ++ [acked]). split_and!; try done. lia.
Qed.

Lemma create_segment_spec st n r st' : DeltaWriter.create_segment cipher n st = (r, st') →
  ∃ es ff, let i := inner st in
    let nd := map (λ e, mkDisk (w_closed i) [open_entry (w_sink i) (w_file i); (segment_file_name n, e)]
                 (w_l0_files i)) es in
    Forall (λ e, e.2 `prefix_of` segment_magic (bind cipher (wal_name (segment_file_name n)))) es ∧
    disks st' = nd ++ disks st ∧ published st' = published st ∧ w_l0_files (inner st') = w_l0_files i ∧
    ∀ s w, r = Ok (s, w) → st' = log_disks nd (set_file_faults ff st) ∧
      clean s [] w ∧ segment s = n ∧ sink_cipher s = bind cipher (wal_name (segment_file_name n)).
Proof.
  unfold DeltaWriter.create_segment.
  destruct (create true true n cipher _) as [r1 w1] eqn:E. pose proof (create_trail _ _ _ _ _ _ _ E) as Ht.
  intros Hrun. exists (trail w1), (tail (file_faults st)). cbv zeta.
  split; [eapply Forall_impl; [exact Ht|]; by intros e [_ ?]|].
  destruct r1 as [s1|e]; injection Hrun as <- <-.
  - split_and!; [done..|]. intros s w [= <- <-]. split; [done|].
    apply create_clean in E as (? & _ & ? & ?). done.
  - destruct (trail w1); cbn; by split_and!.
Qed.

(** Removing consumed segments. *)
Lemma remove_spec names st r st' : wio_for DeltaWriter.remove_wal names st = (r, st') →
  ∃ k s nd, st' = log_disks nd (set_sched s (set_inner
      (set_closed (foldl (λ m x, delete x m) (w_closed (inner st)) (take k names)) (inner st)) st)) ∧
    (r = Ok tt → take k names = names) ∧
    ∀ d, d ∈ nd → ∃ j, d = disk_of (set_closed (foldl (λ m x, delete x m) (w_closed (inner st)) (take j names)) (inner st)).
Proof.
  revert st. induction names as [|x names IH]; intros st; cbn [wio_for].
  - intros [= <- <-]. exists O, (sched st), []. split; [by destruct st as [[]]|]. split; [done|by intros ? ?%elem_of_nil].
  - unfold DeltaWriter.remove_wal at 1. intros [([] & st1 & H1 & H2)|(e & H1 & ->)]%wio_bind_inv.
    + apply wio_bind_inv in H1 as [([] & st2 & E2 & H1)|(? & _ & ?)]; [|done].
      apply dir_call_spec in E2 as (s & -> & _). cbn in H1. injection H1 as <-.
      apply IH in H2 as (k & s' & nd & -> & Hok & Hnd). cbn in *.
      exists (S k), s', (nd ++ [disk_of (set_closed (delete x (w_closed (inner st))) (inner st))]). cbn.
      split; [unfold log_disks; cbn; by rewrite <- app_assoc|]. split; [intros E; by rewrite Hok|].
      intros d [Hd|Hd%list_elem_of_singleton]%elem_of_app; [|subst d; by exists 1%nat].
      apply Hnd in Hd as (j & ->). by exists (S j).
    + apply wio_bind_inv in H1 as [([] & st2 & E2 & H1)|(e' & E2 & [= <-])]; [done|].
      apply dir_call_spec in E2 as (s & -> & _). exists O, s, []. cbn.
      split; [by destruct st as [[]]|]. split; [done|by intros ? ?%elem_of_nil].
Qed.

Lemma removed_lookup (m : dir) l x :
  foldl (λ m x, delete x m) m l !! x = if decide (x ∈ l) then None else m !! x.
Proof.
  revert m. induction l as [|y l IH]; intros m; cbn [foldl]; [by rewrite decide_False by by intros ?%elem_of_nil|].
  rewrite IH. destruct (decide (x ∈ l)) as [Hin|Hin].
  - by rewrite decide_True by by apply list_elem_of_further.
  - destruct (decide (x = y)) as [->|Hne].
    + rewrite decide_True by apply list_elem_of_here. apply lookup_delete_eq.
    + rewrite decide_False by by intros [?|?]%elem_of_cons. by rewrite lookup_delete_ne.
Qed.

(** All of them removed leaves nothing; in ascending order, each time a run. *)
Lemma removed_all n cs names : in_range n cs → names ≡ₚ map fst (named_files n cs) →
  foldl (λ m x, delete x m) (wal_files n cs) names = (∅ : dir).
Proof.
  intros Hr Hp. apply map_eq. intros x. rewrite lookup_empty, removed_lookup.
  destruct (decide (x ∈ names)) as [|Hn]; [done|].
  apply not_elem_of_list_to_map_1. by rewrite Hp in Hn.
Qed.

Lemma removed_ascending n cs k : in_range n cs →
  foldl (λ m x, delete x m) (wal_files n cs) (take k (map fst (named_files n cs)))
  = wal_files (n + Z.of_nat (Nat.min k (length cs))) (drop k cs).
Proof.
  revert n k. induction cs as [|c cs IH]; intros n k Hr.
  - cbn. rewrite take_nil, drop_nil. done.
  - destruct k as [|k]; cbn [named_files map take foldl drop].
    + cbn. by rewrite Z.add_0_r.
    + cbn [fst]. rewrite wal_files_delete by done. apply in_range_cons in Hr as [_ Hr]. rewrite IH by done.
      f_equal. cbn [length]. lia.
Qed.

Lemma segments_hold_drop n cs logs j : segments_hold cipher n cs logs →
  segments_hold cipher (n + Z.of_nat (Nat.min j (length cs))) (drop j cs) (drop j logs).
Proof.
  intros Hs. pose proof (segments_hold_length _ _ _ _ Hs) as Hl.
  rewrite <- (take_drop j cs), <- (take_drop j logs) in Hs. apply segments_hold_app in Hs as [_ Hs].
  - unfold zlen in Hs. by rewrite length_take in Hs.
  - rewrite !length_take. lia.
Qed.

(** A writer part way through removing the log, oldest segment first. *)
Lemma logged_removed i first cs logs acked j : logged cipher i first cs logs acked →
  logged cipher (set_closed (foldl (λ m x, delete x m) (w_closed i) (take j (map fst (named_files first cs)))) i)
    (first + Z.of_nat (Nat.min j (length cs))) (drop j cs) (drop j logs) acked.
Proof.
  intros [Hcl Hs [H0 Hr] Hn Hsc Hclean Hok].
  assert (in_range first cs) as Hin by (unfold in_range; lia).
  assert (Z.of_nat (Nat.min j (length cs)) + zlen (drop j cs) = zlen cs) as El.
  { unfold zlen. rewrite length_drop. lia. }
  split; cbn; try done.
  - by rewrite Hcl, removed_ascending.
  - by apply segments_hold_drop.
  - lia.
  - lia.
Qed.

(** The numbers of the segments in a log directory have no gap. *)
Definition gapless (wal : dir) : Prop := ∀ a b c, 0 <= a → a <= b <= c → c < 2 ^ 64 →
  is_Some (wal !! segment_file_name a) → is_Some (wal !! segment_file_name c) →
  is_Some (wal !! segment_file_name b).

(** Whatever was removed, if what is left has no gap below the end it is a run of the newest. *)
Lemma removed_run n cs l : in_range n cs →
  let m := foldl (λ m x, delete x m) (wal_files n cs) l in
  (∀ a b, n <= a <= b → b < n + zlen cs → is_Some (m !! segment_file_name a) → is_Some (m !! segment_file_name b)) →
  ∃ j, m = foldl (λ m x, delete x m) (wal_files n cs) (take j (map fst (named_files n cs))).
Proof.
  cbv zeta. revert n. induction cs as [|c cs IH]; intros n Hr Hup.
  { exists O. apply map_eq. intros x. rewrite removed_lookup. cbn. rewrite lookup_empty. by case_decide. }
  destruct (decide (segment_file_name n ∈ l)) as [Hin|Hout].
  - pose proof (in_range_cons _ _ _ Hr) as [_ Hr'].
    assert (foldl (λ m x, delete x m) (wal_files n (c :: cs)) l = foldl (λ m x, delete x m) (wal_files (n + 1) cs) l) as E.
    { rewrite <- (wal_files_delete n c cs Hr). apply map_eq. intros x. rewrite !removed_lookup.
      case_decide; [done|]. by rewrite lookup_delete_ne by congruence. }
    rewrite E in *. destruct (IH (n + 1)) as (j & ->); [done| |].
    + intros a b ? ?. apply Hup; [lia|]. rewrite zlen_cons. lia.
    + exists (S j). cbn [named_files map take foldl fst]. by rewrite wal_files_delete.
  - exists O. cbn [take foldl]. apply map_eq. intros x. rewrite removed_lookup. case_decide as Hx; [|done]. symmetry.
    apply not_elem_of_list_to_map_1. intros ([name d] & -> & Hf)%list_elem_of_fmap. cbn in Hx.
    apply named_files_elem in Hf as (k & Hk & ->). apply lookup_lt_Some in Hk.
    destruct (Hup n (n + Z.of_nat k)) as [y Hy]; [lia|unfold zlen; lia| |].
    + rewrite removed_lookup, decide_False by done. unfold wal_files. cbn. rewrite lookup_insert_eq. done.
    + by rewrite removed_lookup, decide_True in Hy.
Qed.

(** The base of the memtable after a flush is past every level. *)
Lemma above_snoc ls k m : bases m = bases (above core_node_count core_edge_count ls) →
  with_bases (Memtable.synthetic_base m + Memtable.born_count m)
    (Memtable.edge_synthetic_base m + Memtable.born_edge_count m)
  = above core_node_count core_edge_count (ls ++ [(k, m)]).
Proof.
  unfold bases, above, level_files, DeltaWriter.bases_past. rewrite map_app, foldl_app. cbn [map foldl].
  destruct (foldl _ _ _) as [n e]. cbn. intros [= -> ->].
  pose proof (zlen_nonneg (born m)). pose proof (zlen_nonneg (born_edges m)).
  unfold Memtable.born_count, Memtable.born_edge_count. rewrite !Z.max_r by lia. done.
Qed.

Lemma stack_snoc ls k m : stack (ls ++ [(k, m)]) = (l0_file_name k, m) :: stack ls.
Proof. unfold stack, level_files. by rewrite map_app, rev_app_distr. Qed.

Section install.
Variables (st : DeltaWriter) (first : Z) (cs : list bytes) (logs : list (list batch)) (acked : list batch).
Variables (ls : list (Z * Memtable)) (k : Z).
Local Abbreviation mem := (w_mem (inner st)).
Local Abbreviation ls' := (ls ++ [(k, mem)]).

(** What a crash during the flush leaves: the old levels and the whole log, or the new level
    and what is left of the log, provided its numbers have no gap. *)
Definition crash_safe (d : Disk) : Prop := ∀ wal l0, crash d wal l0 → gapless wal →
  holds cipher wal l0 (concat (logs ++ [acked])) ls ∨
  ∃ j, holds cipher wal l0 (concat (drop j (logs ++ [acked]))) ls'.

Definition flushed (st' : DeltaWriter) : Prop :=
  durable cipher core_node_count core_edge_count (inner st') (first + zlen cs + 1) [] [] [] ls' ∧
  w_mem (inner st') = above core_node_count core_edge_count ls' ∧ w_l0 (inner st') = stack ls' ∧
  w_seq (inner st') = w_seq (inner st) ∧ epoch st' = epoch st + 1 ∧ consolidating st' = consolidating st ∧
  touched st' = TouchedJournal.settle (Touched []) (epoch st') (touched st) ∧
  published st' = mkPublished (published_snapshot (w_mem (inner st')) (w_l0 (inner st'))) (epoch st').

Hypothesis Hlog : logged cipher (inner st) first cs logs acked.
Hypothesis Hfiles : l0_holds cipher (w_l0_files (inner st)) ls'.
Hypothesis Hlevels : w_l0 (inner st) = stack ls.
Hypothesis Hbases : bases mem = bases (above core_node_count core_edge_count ls).
Hypothesis Hseq : 0 <= w_seq (inner st).
Hypothesis Hmax : first + zlen cs + 2 < 2 ^ 63.

Lemma concat_snoc : concat (logs ++ [acked]) = concat logs ++ acked.
Proof. rewrite concat_app. cbn. by rewrite app_nil_r. Qed.

(** Segments removed in any order, the level in place. *)
Lemma removing_safe s w mem' l :
  let csx := cs ++ [data (w_file (inner st))] in
  let i := mkInner (wal_files first csx) (w_l0_files (inner st)) s w mem' (stack ls') (w_seq (inner st)) in
  logged cipher i first csx (logs ++ [acked]) [] →
  crash_safe (disk_of (set_closed (foldl (λ m x, delete x m) (w_closed i) l) i)).
Proof.
  intros csx i Hlogx wal l0 Hcr Hg. right. pose proof Hlogx as [_ _ [H0 Hr] Hn _ _ _]. cbn in Hn.
  assert (in_range first csx) as Hin by (unfold in_range; lia). pose proof (zlen_nonneg csx).
  assert (∃ c, wal = <[segment_file_name (first + zlen csx) := c]>
    (foldl (λ m x, delete x m) (wal_files first csx) l)) as (c & Ew).
  { destruct Hcr as (_ & c & _ & _ & Hw). cbn in Hw. apply crash_new_nil in Hw as ->. exists c. by rewrite Hn. }
  assert (∀ a, first <= a < first + zlen csx → wal !! segment_file_name a
    = foldl (λ m x, delete x m) (wal_files first csx) l !! segment_file_name a) as Elow.
  { intros a Ha. rewrite Ew, lookup_insert_ne; [done|]. intros E.
    apply segment_file_name_inj in E; unfold is_u64; lia. }
  destruct (removed_run first csx l Hin) as (j & Ej).
  { intros a b Hab Hb Ha. rewrite <- Elow in Ha |- * by lia.
    apply (Hg a b (first + zlen csx)); [lia..|done|]. rewrite Ew, lookup_insert_eq. done. }
  exists j. pose proof (logged_removed i first csx _ _ j Hlogx) as Hj. rewrite <- (app_nil_r (concat (drop j _))).
  cbn [w_closed i] in Hcr, Hj. rewrite Ej in Hcr. by eapply crash_holds.
Qed.

(** The last part: the new memtable and level installed, the log removed. *)
Lemma install_removed s w names st1 r st' :
  let csx := cs ++ [data (w_file (inner st))] in
  let i := mkInner (wal_files first csx) (w_l0_files (inner st)) s w
             (above core_node_count core_edge_count ls') (stack ls') (w_seq (inner st)) in
  logged cipher i first csx (logs ++ [acked]) [] → inner st1 = i → epoch st1 = epoch st →
  touched st1 = touched st → published st1 = published st → consolidating st1 = consolidating st →
  names ≡ₚ map fst (named_files first csx) →
  (wio_for DeltaWriter.remove_wal names ≫= λ _,
     DeltaWriter.republish (Touched []) ≫= λ _, mret true) st1 = (r, st') →
  (∃ nd, disks st' = nd ++ disks st1 ∧ ∀ d, d ∈ nd → crash_safe d) ∧
  match r with
  | Ok b => b = true ∧ flushed st'
  | Err _ => published st' = published st ∧ w_l0_files (inner st') = w_l0_files (inner st)
  end.
Proof.
  intros csx i Hlogx Hi He Ht Hp Hc Hnames Hrun.
  assert (∀ l, crash_safe (disk_of (set_closed (foldl (λ m x, delete x m) (w_closed i) l) i))) as Hsafe
    by (intros l; by apply removing_safe).
  apply wio_bind_inv in Hrun as [([] & st2 & Hrm & Hrun)|(e & Hrm & ->)];
    apply remove_spec in Hrm as (n & sc & nd & -> & Hall & Hnd); rewrite Hi in Hnd.
  - specialize (Hall eq_refl). rewrite Hall in Hrun. cbn in Hrun. rewrite Hi in Hrun. injection Hrun as <- <-.
    split; [exists nd; split; [done|]; intros d (j & ->)%Hnd; apply Hsafe|]. split; [done|].
    assert (in_range first csx) as Hin by (destruct Hlogx as [_ _ [? ?] _ _ _ _]; unfold in_range; lia).
    assert (foldl (λ m x, delete x m) (wal_files first csx) names = ∅) as Erm
      by by apply removed_all.
    split_and!; cbn; rewrite ?He, ?Ht; try done. rewrite Erm.
    destruct Hlogx as [_ _ [H0 _] Hn Hsc Hcl _].
    assert (zlen csx = zlen cs + 1) as El by (unfold csx; rewrite zlen_app; done).
    pose proof (zlen_nonneg cs). split; [split|..]; cbn; try done.
    + change (zlen (@nil bytes)) with 0. lia.
    + cbn in Hn. rewrite Hn, El. change (zlen (@nil bytes)) with 0. lia.
  - split; [exists nd; split; [done|]; intros d (j & ->)%Hnd; apply Hsafe|]. cbn. rewrite Hi. by split.
Qed.

Lemma install_effect r st' : DeltaWriter.install_level cipher mem (l0_file_name k) st = (r, st') →
  (∃ nd, disks st' = nd ++ disks st ∧ (∀ d, d ∈ nd → crash_safe d)) ∧
  match r with
  | Ok b => b = true ∧ flushed st'
  | Err _ => published st' = published st ∧ w_l0_files (inner st') = w_l0_files (inner st)
  end.
Proof.
  assert (∃ nd, disks st = nd ++ disks st ∧ (∀ d, d ∈ nd → crash_safe d)) as Hno.
  { exists []. split; [done|by intros ? ?%elem_of_nil]. }
  unfold DeltaWriter.install_level, DeltaWriter.l0_open. intros Hrun.
  apply wio_bind_inv in Hrun as [(level & st1 & H1 & Hrun)|(e & H1 & ->)].
  2:{ apply wio_bind_inv in H1 as [(x & st2 & H1 & H2)|(e' & H1 & [= <-])];
        apply dir_call_spec in H1 as (? & -> & _); [injection H2 as _ <-|]; by split. }
  apply wio_bind_inv in H1 as [(x & st2 & H1 & H2)|(? & ? & ?)]; [|done].
  apply dir_call_spec in H1 as (s1 & -> & [[= ->]|?]); [|done]. injection H2 as H2 <-.
  rewrite (lh_opens _ _ _ Hfiles k mem) in H2 by (apply elem_of_app; right; apply list_elem_of_here).
  injection H2 as <-.
  apply wio_bind_inv in Hrun as [(consumed & st1 & H1 & Hrun)|(e & H1 & ->)];
    apply dir_call_spec in H1 as (s2 & -> & [E1|E1]); try done. injection E1 as ->.
  apply wio_bind_inv in Hrun as [(next & st1 & H1 & Hrun)|(e & H1 & ->)];
    apply dir_call_spec in H1 as (s3 & -> & [E1|E1]); try done. injection E1 as ->.
  cbn [inner set_sched] in Hrun. rewrite (logged_next _ _ _ _ _ Hlog) in Hrun.
  apply wio_bind_inv in Hrun as [([s w] & st1 & H1 & Hrun)|(e & H1 & ->)];
    apply create_segment_spec in H1 as (es & ff & Hes & Hd & Hp & Hl & Hok).
  all: assert (∀ d, d ∈ map (λ e, mkDisk (w_closed (inner st)) [open_entry (w_sink (inner st)) (w_file (inner st));
      (segment_file_name (first + zlen cs + 1), e)] (w_l0_files (inner st))) es → crash_safe d) as Hsafe.
  1,3: intros d (ev & -> & He)%list_elem_of_fmap wal l0 Hcr _; rewrite Forall_forall in Hes; right; exists O;
    rewrite drop_0, concat_snoc; by eapply crash_creating; eauto.
  2:{ split; [eexists; by split|]. by split. }
  destruct (Hok s w eq_refl) as (-> & Hcl & Hsg & Hsc). clear Hok Hd Hp Hl.
  apply wio_bind_inv in Hrun as [([] & st1 & H1 & Hrun)|(e & H1 & ->)];
    eapply (rotate_logged _ first cs logs acked) in H1 as [Est Hlogx]; try done; try (by rewrite Hsg);
    cbn in Est, Hlogx; subst.
  - assert (∀ d, d ∈ [disk_of (mkInner (wal_files first (cs ++ [data (w_file (inner st))])) (w_l0_files (inner st)) s w
      mem (w_l0 (inner st)) (w_seq (inner st)))] → crash_safe d) as Hsafe2.
    { intros d Hd%list_elem_of_singleton wal l0 Hcr _. subst d. right. exists O. rewrite drop_0.
      rewrite <- (app_nil_r (concat _)). by eapply crash_holds. }
    apply wio_bind_inv in Hrun as [([] & st1 & [= <-] & Hrun)|(? & ? & _)]; [|done].
    apply wio_bind_inv in Hrun as [([] & st1 & [= <-] & Hrun)|(? & ? & _)]; [|done].
    apply (install_removed s w) in Hrun as [(nd & Hd & Hnd) Hr]; try done.
    + split; [|done]. rewrite Hd. cbn [disks set_inner log_disks set_file_faults set_sched].
      eexists (nd ++ _ :: _). split; [by rewrite <- app_assoc|].
      intros d [Hin|Hin]%elem_of_app; [by apply Hnd|]. apply elem_of_cons in Hin as [->|Hin]; [|by apply Hsafe].
      apply Hsafe2, list_elem_of_here.
    + destruct Hlogx as []. by split.
    + cbn. by rewrite Hlevels, stack_snoc, <- above_snoc.
    + by apply logged_paths in Hlog.
  - split; [|by split]. cbn [disks set_inner log_disks set_file_faults set_sched].
    eexists (_ :: _). split; [done|]. intros d [->|Hin]%elem_of_cons; [|by apply Hsafe].
    intros wal l0 Hcr _. right. exists O. rewrite drop_0, <- (app_nil_r (concat _)). by eapply crash_holds.
Qed.
End install.

(** The number a new level gets. *)
Definition next_level (ls : list (Z * Memtable)) : Z :=
  match last ls with Some (n, _) => n + 1 | None => 0 end.

Lemma next_level_above files ls : l0_holds cipher files ls → Forall (λ p, p.1 + 1 < 2 ^ 64) ls →
  next_l0_number (walk files) = next_level ls ∧ is_u64 (next_level ls) ∧ Forall (λ p, p.1 < next_level ls) ls.
Proof.
  intros Hh Hmax. rewrite (next_l0 cipher files ls Hh). unfold next_level.
  destruct Hh as [Hs Hu _ _]. destruct ls as [|x ls _] using rev_ind; [done|]. rewrite last_snoc.
  destruct x as [n m]. apply Forall_app in Hmax as [_ Hmax], Hu as [_ Hu].
  inversion Hmax as [|? ? Hn _]; inversion Hu as [|? ? Hn' _]; subst. cbn in *. unfold is_u64 in *.
  split; [apply as_u64_id; unfold is_u64; lia|]. split; [lia|].
  rewrite map_app in Hs. apply Forall_app. split; [|by repeat constructor; cbn; lia].
  apply Forall_forall. intros p Hp. assert (p.1 < n); [|lia].
  clear -Hs Hp. induction ls as [|y ls IH]; [by apply elem_of_nil in Hp|]. cbn in Hs.
  apply StronglySorted_inv in Hs as [Hs Hy]. apply elem_of_cons in Hp as [->|Hp]; [|by apply IH].
  apply Forall_app in Hy as [_ Hy]. by inversion Hy.
Qed.

Lemma l0_write_spec st ls k nonce r st' : is_u64 k → Forall (λ p, p.1 < k) ls →
  memtable_wf (w_mem (inner st)) → encodable (w_mem (inner st)) → zlen nonce = NONCE_LEN →
  l0_holds cipher (w_l0_files (inner st)) ls →
  DeltaWriter.l0_write cipher (w_mem (inner st)) (l0_file_name k) nonce st = (r, st') →
  ∃ d s nd, st' = log_disks nd (set_sched s (set_inner (set_l0_files d (inner st)) st)) ∧
    (if is_ok r then l0_holds cipher d (ls ++ [(k, w_mem (inner st))]) else l0_holds cipher d ls) ∧
    ∀ dk, dk ∈ nd → ∃ d', dk = disk_of (set_l0_files d' (inner st)) ∧
      (l0_holds cipher d' ls ∨ l0_holds cipher d' (ls ++ [(k, w_mem (inner st))])).
Proof.
  intros Hk Hlt Hm He Hn Hl. unfold DeltaWriter.l0_write.
  destruct (L0Segment.write _ _ _ _ _ _) as [r1 ds] eqn:E. intros [= <- <-].
  destruct (level_written cipher _ ls k _ nonce _ r1 ds Hk Hlt Hm He Hn Hl E) as (H1 & H2 & H3).
  eexists _, _, _. split; [done|]. split.
  - destruct r1 as [[]|e]; cbn; [by apply H2|]. destruct (last ds) as [d|] eqn:El; [|done].
    apply H3; [done|]. by apply last_Some_elem_of.
  - intros dk Hdk. apply list_elem_of_In, in_rev, list_elem_of_In in Hdk. apply list_elem_of_fmap in Hdk as (d' & -> & Hd'). eauto.
Qed.

Lemma replayed_bases ls bs m : replayed core_node_count core_edge_count ls bs = Some m →
  bases m = bases (above core_node_count core_edge_count ls).
Proof.
  unfold replayed. destruct (replay_records_total (map snd (stack ls)) (log_records bs)
    (above core_node_count core_edge_count ls)) as (m' & -> & E). by intros [= <-].
Qed.

(** A flush, whatever fails.  Carried out, it leaves the writer durable with one more level and
    an empty log.  Refused before the level's file was in place, it leaves it as it was. *)
Lemma flush_effect st first cs logs acked ls nonce r st' :
  durable cipher core_node_count core_edge_count (inner st) first cs logs acked ls →
  memtable_wf (w_mem (inner st)) → encodable (w_mem (inner st)) → zlen nonce = NONCE_LEN →
  segment (w_sink (inner st)) + 2 < 2 ^ 63 → Forall (λ p, p.1 + 1 < 2 ^ 64) ls →
  DeltaWriter.flush_to_l0 cipher nonce st = (r, st') →
  (∃ nd, disks st' = nd ++ disks st ∧
    (∀ d, d ∈ nd → crash_safe st logs acked ls (next_level ls) d)) ∧
  match r with
  | Ok true => flushed st first cs ls (next_level ls) st'
  | Ok false => st' = st
  | Err _ => published st' = published st ∧
      (w_l0_files (inner st') !! l0_file_name (next_level ls) = None →
       w_mem (inner st') = w_mem (inner st) ∧ w_l0 (inner st') = w_l0 (inner st) ∧ epoch st' = epoch st ∧
       durable cipher core_node_count core_edge_count (inner st') first cs logs acked ls)
  end.
Proof.
  intros Hd Hm He Hno Hmax Hlv. pose proof Hd as [Hlog Hfiles Hl0 Hmem Hseq].
  assert (∃ nd, disks st = nd ++ disks st ∧
    (∀ d, d ∈ nd → crash_safe st logs acked ls (next_level ls) d)) as Hnil.
  { exists []. split; [done|by intros ? ?%elem_of_nil]. }
  unfold DeltaWriter.flush_to_l0. destruct (consolidating st); [by intros [= <- <-]|].
  destruct (Memtable.is_empty _); [by intros [= <- <-]|]. intros Hrun.
  apply wio_bind_inv in Hrun as [([] & st1 & H1 & Hrun)|(e & H1 & ->)];
    apply dir_call_spec in H1 as (s1 & -> & _); [|done].
  apply wio_bind_inv in Hrun as [(n & st1 & H1 & Hrun)|(e & H1 & ->)];
    apply dir_call_spec in H1 as (s2 & -> & [E1|E1]); try done. injection E1 as ->.
  destruct (next_level_above _ _ Hfiles Hlv) as (En & Hk & Hlt).
  cbn [inner set_sched] in Hrun. unfold DeltaWriter.read_l0 in Hrun. rewrite En in Hrun.
  apply wio_bind_inv in Hrun as [(mem & st1 & [= <- <-] & Hrun)|(? & ? & _)]; [|done].
  apply wio_bind_inv in Hrun as [([] & st1 & H1 & Hrun)|(e & H1 & ->)];
    apply (l0_write_spec (set_sched s2 (set_sched s1 st)) ls) in H1 as (d & s3 & nd & -> & Hr & Hnd); try done; cbn [inner set_sched is_ok] in *.
  all: assert (∀ dk, dk ∈ nd → crash_safe st logs acked ls (next_level ls) dk) as Hsafe
    by (intros dk (d' & -> & Hd')%Hnd wal l0 Hcr _; rewrite <- (drop_0 (logs ++ [acked])) at 1;
        assert (logged cipher (set_l0_files d' (inner st)) first cs logs acked) as Hlog' by (by destruct Hlog; split);
        rewrite drop_0, concat_snoc; destruct Hd' as [Hd'|Hd'];
        [left|right; exists O; rewrite drop_0, concat_snoc]; by eapply crash_holds).
  2:{ split; [eexists; by split|]. split; [done|]. intros _. split; [done|]. split; [done|]. split; [done|].
      split; try done. by destruct Hlog; split. }
  match type of Hrun with _ ?x = _ => apply (install_effect x first cs logs acked ls (next_level ls)) in Hrun as [(nd' & Ed & Hnd') Hres] end; try done.
  - split.
    { exists (nd' ++ nd). rewrite Ed. split; [by rewrite <- app_assoc|].
      intros dk [Hin|Hin]%elem_of_app; [by apply Hnd'|by apply Hsafe]. }
    destruct r as [b|e]; [by destruct Hres as [-> ?]|]. destruct Hres as [Hp Hf]. split; [done|].
    intros Hnone. exfalso. rewrite Hf in Hnone. cbn in Hnone.
    pose proof (lh_opens _ _ _ Hr (next_level ls) (w_mem (inner st))
      ltac:(apply elem_of_app; right; apply list_elem_of_here)) as Ho.
    unfold L0Segment.open in Ho. by rewrite Hnone in Ho.
  - by destruct Hlog; split.
  - cbn. by eapply replayed_bases.
  - cbn. pose proof (log_seq_nonneg (concat logs ++ acked)). lia.
  - destruct Hlog as [_ _ _ E _ _ _]. lia.
Qed.
End flush.
