(* ===== verification/WriterSafety.v ===== *)
(** The writer as its clients see it: a memtable over sealed levels.

    [astep] is that abstract machine: an acknowledged batch is applied to the memtable, a flush
    moves the memtable onto the levels, a batch interrupted by a crash is applied whole or not
    at all, and nothing else changes anything.  A step of the writer is a write the server
    resolved, a flush, or a crash between two calls or inside a batch followed by a restart,
    under faults that spare the rollback of a batch; each is a step of the machine
    ([step_sound]), so acknowledged writes are never lost and refused ones never seen. *)

From S2P Require Import Prelude Values Wire Crypto Seal Identity WalCodec WalReplay WalSink.
From S2P Require Import NodeDelta Memtable MemtableInv MemtableApply MemtableCodec L0Segment.
From S2P Require Import Snapshot DeltaFold Compaction Resolve TouchedJournal DeltaWriter WriterDisk.
From S2P Require Import WriterInv WriterFlush.

(** * The keys of a flushed memtable *)

Section keys.
Context {core : CoreProbe} {layout : Layout} {use : KeyUse}.

Lemma names_fun i n l k v l' k' v' : names_are i n l k v → names_are i n l' k' v' → (l, k, v) = (l', k', v').
Proof. intros (A & B & C) (A' & B' & C'). congruence. Qed.

(** What a key means over the flushed memtable: what it meant below, or a node born in it. *)
Lemma key_id_cons l0 m key d : memtable_wf m → registered l0 m → Value.wf key.2 →
  key_id (m :: l0) key = Some d →
  key_id l0 key = Some d ∨
  key_id l0 key = None ∧ Memtable.born_synthetic_for_identity key.1.1 key.1.2 key.2 m = Some d.
Proof.
  destruct key as [[l k] v]. cbn [fst snd]. intros Hm Hr Hv. unfold key_id, born_in_l0.
  destruct (one_key (l, k, v)) as [x|] eqn:E1; [auto|]. cbn [find_map fst snd].
  destruct (Memtable.born_synthetic_for_identity l k v m) as [y|] eqn:E2; [|auto]. intros [= <-]. right.
  destruct (born_synthetic_entry l k v m y Hm Hv E2) as (e & He & Hs & Hnm).
  pose proof (registered_fresh _ _ Hr _ _ l k v He ltac:(by eexists) Hnm) as H.
  unfold key_id, born_in_l0 in H. rewrite E1 in H. done.
Qed.

Lemma born_id_range l k v m d : memtable_wf m → Value.wf v →
  Memtable.born_synthetic_for_identity l k v m = Some d →
  Memtable.synthetic_base m <= d < Memtable.synthetic_base m + Memtable.born_count m.
Proof.
  intros Hm Hv Hb. destruct (born_synthetic_entry l k v m d Hm Hv Hb) as (e & He & Hs & _).
  pose proof Hm as (_ & Hn & _). destruct (inv_synthetic _ _ _ _ _ _ _ Hn _ _ _ He Hs) as [(n & -> & Hb') _].
  apply lookup_lt_Some in Hb'. unfold Memtable.born_count, zlen. lia.
Qed.

Lemma born_inj l k v l' k' v' m d : memtable_wf m → Value.wf v → Value.wf v' →
  Memtable.born_synthetic_for_identity l k v m = Some d →
  Memtable.born_synthetic_for_identity l' k' v' m = Some d → (l, k, v) = (l', k', v').
Proof.
  intros Hm Hv Hv' Hb Hb'. destruct (born_synthetic_entry l k v m d Hm Hv Hb) as (e & He & Hs & Hnm).
  destruct (born_synthetic_entry l' k' v' m d Hm Hv' Hb') as (e' & He' & Hs' & Hnm').
  pose proof Hm as (_ & Hn & _). destruct (inv_synthetic _ _ _ _ _ _ _ Hn _ _ _ He Hs) as [_ H1].
  destruct (inv_synthetic _ _ _ _ _ _ _ Hn _ _ _ He' Hs') as [_ H2].
  assert (e' = e) as -> by congruence. by eapply names_fun.
Qed.

Lemma born_of_entry m ck e l k v id : memtable_wf m → nodes m !! ck = Some e →
  names_are (interner m) (n_identity e) l k v → synthetic e = Some id →
  Memtable.born_synthetic_for_identity l k v m = Some id.
Proof.
  intros (Hi & Hn & _) He (Hl & Hk & Hv) Hs. unfold Memtable.born_synthetic_for_identity.
  destruct (inv_entry _ _ _ _ _ _ _ Hn _ _ He) as (Eck & (Wl & Wk & _) & _).
  pose proof Hi as (_ & _ & Hget). unfold is_u32 in *.
  assert (Interner.get l (interner m) = Some (ni_label (n_identity e))) as -> by (apply Hget; split; [lia|done]).
  assert (Interner.get k (interner m) = Some (ni_key (n_identity e))) as -> by (apply Hget; split; [lia|done]).
  cbn [mbind option_bind].
  assert (mkNodeIdentity (ni_label (n_identity e)) (ni_key (n_identity e)) v = n_identity e) as ->
    by (destruct (n_identity e); cbn in *; congruence).
  by rewrite <- Eck, He.
Qed.

(** The key an entry is read under is one in use, and names the id it is read by. *)
Lemma registered_identity l0 m d key : memtable_wf m → registered l0 m →
  Memtable.node_identity_by_dense d m = Some key →
  Value.wf key.2 ∧ in_use key ∧
  (key_id l0 key = Some d ∨
   key_id l0 key = None ∧ Memtable.born_synthetic_for_identity key.1.1 key.1.2 key.2 m = Some d).
Proof.
  intros Hm Hr. unfold Memtable.node_identity_by_dense. pose proof Hm as (_ & Hn & _).
  destruct (by_dense m !! d) as [ck|] eqn:Ed; [|done]. cbn. destruct (nodes m !! ck) as [e|] eqn:Ee; [|done]. cbn.
  destruct (inv_entry _ _ _ _ _ _ _ Hn _ _ Ee) as (_ & (_ & _ & Hv) & [[l Hl] [k Hk]] & _).
  unfold name_or_empty. rewrite Hl, Hk. cbn. intros [= <-]. cbn. split; [done|].
  assert (names_are (interner m) (n_identity e) l k (ni_value (n_identity e))) as Hnm by by split_and!.
  destruct (Hr ck e l k _ Ee Hnm) as [Hu Hid]. split; [done|].
  destruct (key_id l0 (l, k, ni_value (n_identity e))) as [x|] eqn:Ek.
  - left. destruct Hid as [Hx _]. by rewrite (inv_dense_unique _ _ _ _ _ _ _ Hn _ _ _ Hx Ed).
  - right. split; [done|]. destruct Hid as [y Hy]. destruct (inv_synthetic _ _ _ _ _ _ _ Hn _ _ _ Ee Hy) as [_ Hy'].
    rewrite <- (inv_dense_unique _ _ _ _ _ _ _ Hn _ _ _ Hy' Ed). by eapply born_of_entry.
Qed.

(** The levels are consistent, and each reads a node under the key that names its id. *)
Definition levels_kept (ls : list Memtable) : Prop :=
  Forall memtable_wf ls ∧
  ∀ m d key, m ∈ ls → Memtable.node_identity_by_dense d m = Some key →
    Value.wf key.2 ∧ in_use key ∧ key_id ls key = Some d.

Lemma flush_levels l0 m : memtable_wf m → registered l0 m → levels_kept l0 → levels_kept (m :: l0).
Proof.
  intros Hm Hr [Hw Hl]. split; [by constructor|]. intros x d key Hx Hid. pose proof Hm as Hm'.
  assert (∀ key y, Value.wf key.2 → key_id l0 key = Some y → key_id (m :: l0) key = Some y) as Hkeep.
  { intros [[l k] v] y Hv Hy. unfold key_id, born_in_l0 in *. destruct (one_key (l, k, v)) eqn:E1; [done|]. cbn [find_map fst snd].
    destruct (Memtable.born_synthetic_for_identity l k v m) as [z|] eqn:E2; [exfalso|done].
    destruct (born_synthetic_entry l k v m z Hm Hv E2) as (e & He & Hs & Hnm).
    pose proof (registered_fresh _ _ Hr _ _ l k v He ltac:(by eexists) Hnm) as H.
    unfold key_id, born_in_l0 in H. rewrite E1 in H. congruence. }
  apply elem_of_cons in Hx as [->|Hx].
  - destruct (registered_identity l0 m d key Hm Hr Hid) as (Hv & Hu & [H|[H1 H2]]); [auto|]. split_and!; [done..|].
    unfold key_id, born_in_l0 in *. destruct (one_key key); [done|]. cbn [find_map]. by rewrite H2.
  - destruct (Hl x d key Hx Hid) as (Hv & Hu & Hk). auto.
Qed.

(** Sealing a memtable keeps its keys apart from those below, and the next one is past both. *)
Lemma flush_keys l0 m nb eb : memtable_wf m → registered l0 m → keys_distinct l0 (Memtable.synthetic_base m) →
  nb = Memtable.synthetic_base m + Memtable.born_count m →
  keys_distinct (m :: l0) nb ∧ registered (m :: l0) (with_bases nb eb).
Proof.
  intros Hm Hr [Hlt Hinj] ->. split; [|intros ck e l k v He; cbn in He; by rewrite lookup_empty in He].
  split.
  - intros key d Hv Hu Hd. pose proof (zlen_nonneg (born m)) as Hz. unfold Memtable.born_count.
    destruct (key_id_cons l0 m key d Hm Hr Hv Hd) as [H|[_ H]]; [specialize (Hlt key d Hv Hu H); lia|].
    apply born_id_range in H; [unfold Memtable.born_count in H; lia|done..].
  - intros key key' d Hv Hv' Hu Hu' Hd Hd'.
    destruct (key_id_cons l0 m key d Hm Hr Hv Hd) as [H|[_ H]], (key_id_cons l0 m key' d Hm Hr Hv' Hd') as [H'|[_ H']].
    + by apply (Hinj key key' d).
    + specialize (Hlt key d Hv Hu H). apply born_id_range in H'; [lia|done..].
    + specialize (Hlt key' d Hv' Hu' H'). apply born_id_range in H; [lia|done..].
    + destruct key as [[l k] v], key' as [[l' k'] v']. by apply (born_inj l k v l' k' v' m d).
Qed.
End keys.

(** * The abstract machine *)

Inductive event :=
  | Acked (ops : list (WalOp * OpResolution))
  | InFlight (ops : list (WalOp * OpResolution))
  | Sealed
  | Nothing.

Definition state : Type := Memtable * list Memtable.

Inductive astep {layout : Layout} : event → state → state → Prop :=
  | astep_acked ops m m' l : DeltaWriter.apply_all ops m = Some m' → astep (Acked ops) (m, l) (m', l)
  | astep_in_flight ops m m' l : m' = m ∨ DeltaWriter.apply_all ops m = Some m' →
      astep (InFlight ops) (m, l) (m', l)
  | astep_sealed m l :
      astep Sealed (m, l) (with_bases (Memtable.synthetic_base m + Memtable.born_count m)
        (Memtable.edge_synthetic_base m + Memtable.born_edge_count m), m :: l)
  | astep_nothing a : astep Nothing a a.

Definition levels (st : DeltaWriter) : list Memtable := map snd (w_l0 (inner st)).
Definition abs (st : DeltaWriter) : state := (w_mem (inner st), levels st).

(** What readers get of a state. *)
Definition view (a : state) : DeltaSnapshot := DeltaSnapshot.with_levels a.1 (map dyn a.2).

Lemma view_published mem l0 : published_snapshot mem l0 = view (mem, map snd l0).
Proof. unfold published_snapshot, view. cbn. by rewrite map_map. Qed.

Section writer.
Context {crypto : Crypto} {crypto_laws : CryptoLaws} {layout : Layout} {order : HashWalk} {core : CoreProbe} {use : KeyUse}.
Variable cipher : option BlockCipher.
Variables core_node_count core_edge_count : Z.
Variable random_nonce : nat → bytes.
Hypothesis nonce_length : ∀ i, zlen (random_nonce i) = NONCE_LEN.

(** * Writes the server resolved *)

(** An operation on keys in use with the resolution the server gave it, over the delta [(m0, l0)]. *)
Inductive accepted (m0 : Memtable) (l0 : list Memtable) : WalOp * OpResolution → Prop :=
  | accepted_node op key is_set upsert r : node_key op = Some key → op_ok op → op_uses op →
      resolve_node_op m0 l0 key is_set upsert = Ok r → accepted m0 l0 (op, ResNode r)
  | accepted_edge op keys res : edge_keys op = Some keys → op_ok op → op_uses op →
      resolve_with_l0 op (resolve_op op) l0 = Some res → accepted m0 l0 (op, res).

(** Room for the symbols of each operation, and the core id of each edge as the memtable has
    it, one operation after the other. *)
Fixpoint stable (l0 : list Memtable) (ops : list (WalOp * OpResolution)) (m : Memtable) : Prop :=
  match ops with
  | [] => True
  | (op, _) :: ops =>
      room 10 (interner m) ∧ edge_stable l0 m op ∧ ∀ m', replay_op l0 m op = Some m' → stable l0 ops m'
  end.

Lemma accepted_agrees m0 l0 m op res : accepted m0 l0 (op, res) → memtable_wf m → registered l0 m →
  born_kept m0 m → op_ok op ∧ op_uses op ∧ apply op res m = replay_op l0 m op.
Proof.
  inversion 1 as [? key is_set upsert r Hk Hok Hu Hres|? keys ? Hk Hok Hu Hres]; subst; intros Hm Hr Hb; (split_and!; [done..|]).
  - eapply resolution_agrees; try done. by apply registered_fresh.
  - unfold replay_op. by rewrite Hres.
Qed.

Lemma batch_applies m0 l0 ops m : Forall (accepted m0 l0) ops → memtable_wf m → registered l0 m →
  keys_distinct l0 (Memtable.synthetic_base m) → born_kept m0 m → stable l0 ops m →
  replays_as l0 ops m ∧ Forall (λ o, op_ok o.1) ops ∧
  ∃ m', DeltaWriter.apply_all ops m = Some m' ∧ memtable_wf m' ∧ registered l0 m' ∧
    Memtable.synthetic_base m' = Memtable.synthetic_base m.
Proof.
  revert m. induction ops as [|[op res] ops IH]; intros m Ha Hm Hr Hk Hb Hst.
  { split; [done|]. split; [constructor|]. by exists m. }
  inversion Ha as [|? ? Ha1 Ha2]; subst. destruct Hst as (Hroom & Hes & Hst).
  destruct (accepted_agrees m0 l0 m op res Ha1 Hm Hr Hb) as (Hok & Hu & E).
  destruct (replay_op_registered l0 m op Hm Hok Hu Hroom Hk Hr Hes) as (res' & m1 & E1 & _ & E2 & Hm1 & Hr1 & Hkp).
  assert (replay_op l0 m op = Some m1) as E3 by (unfold replay_op; by rewrite E1).
  destruct (IH m1) as (H1 & H2 & m2 & H3 & H4 & H5 & H6); try done.
  - by rewrite (keeps_base _ _ Hkp).
  - eapply born_kept_trans; [exact Hb|]. by eapply keeps_born.
  - by apply Hst.
  - split; [split; [done|]; intros m' E'; assert (m' = m1) as -> by congruence; done|].
    split; [by constructor|]. exists m2. cbn [DeltaWriter.apply_all]. rewrite E, E3. cbn [mbind option_bind].
    split_and!; try done. rewrite H6. apply Hkp.
Qed.

(** * The invariant *)

Record sound (st : DeltaWriter) : Prop := {
  so_durable : ∃ first cs logs acked ls,
    durable cipher core_node_count core_edge_count (inner st) first cs logs acked ls;
  so_wf : memtable_wf (w_mem (inner st));
  so_registered : registered (levels st) (w_mem (inner st));
  so_keys : keys_distinct (levels st) (Memtable.synthetic_base (w_mem (inner st)));
  so_levels : levels_kept (levels st);
  so_published : published st = mkPublished (view (abs st)) (epoch st);
}.

(** A batch that can be numbered, framed and applied. *)
Record admissible (st : DeltaWriter) (ops : list (WalOp * OpResolution)) : Prop := {
  ad_some : ops ≠ [];
  ad_accepted : Forall (accepted (w_mem (inner st)) (levels st)) ops;
  ad_stable : stable (levels st) ops (w_mem (inner st));
  ad_seq : w_seq (inner st) + zlen ops < 2 ^ 64;
  ad_fits : batch_fits (DeltaWriter.number_records (w_seq (inner st)) ops);
}.

(** A flush that has room for its level and its segments. *)
Record flushable (st : DeltaWriter) (nonce : bytes) : Prop := {
  fl_encodable : encodable (w_mem (inner st));
  fl_nonce : zlen nonce = NONCE_LEN;
  fl_segment : segment (w_sink (inner st)) + 2 < 2 ^ 63;
  fl_level : ∀ n stem name c, w_l0_files (inner st) !! name = Some c →
    stem_ext name = Some (stem, lit "l0") → parse_u64 stem = Some n → n + 1 < 2 ^ 64;
}.

(** The level file a flush writes. *)
Definition level_path (st : DeltaWriter) : str :=
  l0_file_name (next_l0_number (DeltaWriter.read_l0 (inner st))).

(** A restart on what a crash left. *)
Definition restarts (st st' : DeltaWriter) : Prop := ∃ wal l0 existed uuid faults files,
  crash (disk_of (inner st)) wal l0 ∧ next_segment_number (walk wal) + 1 < 2 ^ 63 ∧
  (DeltaWriter.open cipher true existed uuid core_node_count core_edge_count wal l0 faults files).1 = Ok st'.

(** A restart on what a crash inside a batch left: at any moment of the call, however it
    would have ended. *)
Definition restarts_in_batch (st : DeltaWriter) (ops : list (WalOp * OpResolution)) (st' : DeltaWriter) : Prop :=
  ∃ r st1 nd d wal l0 existed uuid faults files,
    DeltaWriter.write_batch random_nonce ops st = (r, st1) ∧ disks st1 = nd ++ disks st ∧ d ∈ nd ∧
    crash d wal l0 ∧ next_segment_number (walk wal) + 1 < 2 ^ 63 ∧
    (DeltaWriter.open cipher true existed uuid core_node_count core_edge_count wal l0 faults files).1 = Ok st'.

(** Steps.  Any call may fail, short of a log whose rollback failed and of a flush refused with
    its level already in place; a crash strikes between two calls or inside a batch. *)
Inductive step (st : DeltaWriter) : event → DeltaWriter → Prop :=
  | step_batch ops r st' : admissible st ops → DeltaWriter.write_batch random_nonce ops st = (r, st') →
      is_ok r = true ∨ warned (w_file (inner st')) = warned (w_file (inner st)) →
      step st (if is_ok r then Acked ops else Nothing) st'
  | step_write op res r st' : admissible st [(op, res)] → DeltaWriter.write random_nonce op res st = (r, st') →
      is_ok r = true ∨ warned (w_file (inner st')) = warned (w_file (inner st)) →
      step st (if is_ok r then Acked [(op, res)] else Nothing) st'
  | step_flush nonce r st' : flushable st nonce → DeltaWriter.flush_to_l0 cipher nonce st = (r, st') →
      is_ok r = true ∨ w_l0_files (inner st') !! level_path st = None →
      step st (if r is Ok true then Sealed else Nothing) st'
  | step_restart st' : restarts st st' → step st Nothing st'
  | step_crash ops st' : admissible st ops → restarts_in_batch st ops st' → step st (InFlight ops) st'.

Inductive steps : DeltaWriter → list event → DeltaWriter → Prop :=
  | steps_nil st : steps st [] st
  | steps_cons st e st1 es st2 : step st e st1 → steps st1 es st2 → steps st (e :: es) st2.

Inductive asteps : state → list event → state → Prop :=
  | asteps_nil a : asteps a [] a
  | asteps_cons a e a1 es a2 : astep e a a1 → asteps a1 es a2 → asteps a (e :: es) a2.

(** ** Writes *)

Lemma write_step st ops b ids r st' first cs logs acked ls : sound st → admissible st ops →
  write_effect cipher core_node_count core_edge_count st first cs logs acked ls b
    (DeltaWriter.apply_all ops (w_mem (inner st))) ids r st' →
  is_ok r = true ∨ warned (w_file (inner st')) = warned (w_file (inner st)) →
  sound st' ∧ astep (if is_ok r then Acked ops else Nothing) (abs st) (abs st').
Proof.
  intros [_ Hm Hr Hk Hlw Hp] [_ Hacc Hst _ _] (_ & Hl & _ & Hres) Hw.
  destruct (batch_applies _ _ _ _ Hacc Hm Hr Hk ltac:(by intros ? ? ? ? ? ?) Hst)
    as (_ & _ & m' & Ea & Hm' & Hr' & Hb').
  assert (levels st' = levels st) as El by (unfold levels; by rewrite Hl).
  destruct r as [seq|e]; cbn [is_ok] in *.
  - destruct Hres as (_ & _ & E & Hd & _ & Hpub & _). rewrite Ea in E. injection E as E.
    split; [split|].
    + by eexists _, _, _, _, _.
    + by rewrite <- E.
    + by rewrite El, <- E.
    + by rewrite El, <- E, Hb'.
    + by rewrite El.
    + rewrite Hpub. unfold abs. by rewrite view_published.
    + unfold abs. rewrite El. constructor. by rewrite Ea, E.
  - destruct Hres as (Em & Ep & Ee & _ & Hd). destruct Hw as [|Hw]; [done|].
    assert (abs st' = abs st) as Eabs by (unfold abs; by rewrite El, Em).
    split; [split|].
    + eexists _, _, _, _, _. by apply Hd.
    + by rewrite Em.
    + by rewrite El, Em.
    + by rewrite El, Em.
    + by rewrite El.
    + by rewrite Ep, Ee, Eabs.
    + rewrite Eabs. constructor.
Qed.

Lemma write_batch_step st ops r st' first cs logs acked ls : sound st → admissible st ops →
  durable cipher core_node_count core_edge_count (inner st) first cs logs acked ls →
  DeltaWriter.write_batch random_nonce ops st = (r, st') →
  write_effect cipher core_node_count core_edge_count st first cs logs acked ls
    (DeltaWriter.number_records (w_seq (inner st)) ops)
    (DeltaWriter.apply_all ops (w_mem (inner st))) (λ m, touched_node_ids m ops) r st'.
Proof.
  intros [_ Hm Hr Hk _ _] [Hne Hacc Hst Hseq Hfit] Hd Hrun.
  destruct (batch_applies _ _ _ _ Hacc Hm Hr Hk ltac:(by intros ? ? ? ? ? ?) Hst) as (Hrep & Hok & _).
  destruct (DeltaWriter.number_records (w_seq (inner st)) ops) as [recs lst] eqn:En.
  by eapply write_batch_effect.
Qed.

Lemma write_one_step st op res r st' first cs logs acked ls : sound st → admissible st [(op, res)] →
  durable cipher core_node_count core_edge_count (inner st) first cs logs acked ls →
  DeltaWriter.write random_nonce op res st = (r, st') →
  write_effect cipher core_node_count core_edge_count st first cs logs acked ls
    (DeltaWriter.number_records (w_seq (inner st)) [(op, res)])
    (DeltaWriter.apply_all [(op, res)] (w_mem (inner st))) (λ m, touched_node_ids m [(op, res)]) r st'.
Proof.
  intros [_ Hm Hr Hk _ _] [Hne Hacc Hst Hseq Hfit] Hd Hrun.
  destruct (batch_applies _ _ _ _ Hacc Hm Hr Hk ltac:(by intros ? ? ? ? ? ?) Hst) as ([Hrep _] & Hok & _).
  pose proof (log_seq_nonneg (concat logs ++ acked)). pose proof (du_seq _ _ _ _ _ _ _ _ _ Hd).
  change (zlen [(op, res)]) with 1 in Hseq. inversion Hok; subst.
  cbn [DeltaWriter.number_records DeltaWriter.apply_all] in *. unfold seq_next in *.
  rewrite as_u64_id in * by (unfold is_u64; lia).
  replace (apply op res (w_mem (inner st)) ≫= λ m, Some m) with (apply op res (w_mem (inner st)))
    by by destruct (apply op res (w_mem (inner st))).
  by eapply write_one_effect.
Qed.

(** ** Flushes *)

Lemma flushable_levels st nonce ls : flushable st nonce → l0_holds cipher (w_l0_files (inner st)) ls →
  Forall (λ p, p.1 + 1 < 2 ^ 64) ls.
Proof.
  intros Hf Hh. apply Forall_forall. intros [n m] Hin. cbn.
  pose proof (lh_u64 _ _ _ Hh) as Hu. rewrite Forall_forall in Hu. specialize (Hu _ Hin). cbn in Hu.
  destruct (l0_name_parses n Hu) as (stem & Es & Ep). pose proof (lh_opens _ _ _ Hh n m Hin) as Ho.
  unfold L0Segment.open in Ho. destruct (w_l0_files (inner st) !! l0_file_name n) as [c|] eqn:Ec; [|done].
  by apply (fl_level _ _ Hf n stem (l0_file_name n) c).
Qed.

Lemma flush_step_effect st nonce r st' first cs logs acked ls : sound st → flushable st nonce →
  durable cipher core_node_count core_edge_count (inner st) first cs logs acked ls →
  DeltaWriter.flush_to_l0 cipher nonce st = (r, st') →
  level_path st = l0_file_name (next_level ls) ∧
  (∃ nd, disks st' = nd ++ disks st ∧
    ∀ d, d ∈ nd → crash_safe cipher st logs acked ls (next_level ls) d) ∧
  match r with
  | Ok true => flushed cipher core_node_count core_edge_count st first cs ls (next_level ls) st'
  | Ok false => st' = st
  | Err _ => published st' = published st ∧
      (w_l0_files (inner st') !! l0_file_name (next_level ls) = None →
       w_mem (inner st') = w_mem (inner st) ∧ w_l0 (inner st') = w_l0 (inner st) ∧ epoch st' = epoch st ∧
       durable cipher core_node_count core_edge_count (inner st') first cs logs acked ls)
  end.
Proof.
  intros [_ Hm _ _ _ _] Hf Hd Hrun. pose proof (du_files _ _ _ _ _ _ _ _ _ Hd) as Hh.
  pose proof (flushable_levels _ _ _ Hf Hh) as Hlv. split.
  - unfold level_path, DeltaWriter.read_l0. by destruct (next_level_above cipher _ _ Hh Hlv) as [-> _].
  - destruct Hf as [He Hn Hs _]. by eapply flush_effect.
Qed.

Lemma flush_step st nonce r st' : sound st → flushable st nonce →
  DeltaWriter.flush_to_l0 cipher nonce st = (r, st') →
  is_ok r = true ∨ w_l0_files (inner st') !! level_path st = None →
  sound st' ∧ astep (if r is Ok true then Sealed else Nothing) (abs st) (abs st').
Proof.
  intros Hsnd Hf Hrun Hok. pose proof Hsnd as [(first & cs & logs & acked & ls & Hd) Hm Hr Hk Hlw Hp].
  destruct (flush_step_effect st nonce r st' first cs logs acked ls Hsnd Hf Hd Hrun) as (Epath & _ & Hres).
  destruct r as [[]|e]; cbn [is_ok] in *.
  - destruct Hres as (Hd' & Em & El & _ & _ & _ & _ & Hpub). pose proof Hd as [_ _ Hlv Hmem _].
    pose proof (replayed_bases _ _ _ _ _ Hmem) as Hb.
    assert (levels st' = w_mem (inner st) :: levels st) as Elv.
    { unfold levels. rewrite El, stack_snoc, Hlv. done. }
    rewrite <- (above_snoc _ _ ls (next_level ls) _ Hb) in Em.
    destruct (flush_keys (levels st) (w_mem (inner st)) _ (Memtable.edge_synthetic_base (w_mem (inner st)) +
      Memtable.born_edge_count (w_mem (inner st))) Hm Hr Hk eq_refl) as [Hk' Hr'].
    split; [split|].
    + by eexists _, _, _, _, _.
    + rewrite Em. apply with_bases_wf.
    + by rewrite Elv, Em.
    + by rewrite Elv, Em.
    + rewrite Elv. by apply flush_levels.
    + rewrite Hpub. unfold abs. by rewrite view_published.
    + unfold abs. rewrite Em, Elv. constructor.
  - subst st'. split; [done|]. constructor.
  - destruct Hok as [|Hnone]; [done|]. rewrite Epath in Hnone. destruct Hres as [Hpub Hres].
    destruct (Hres Hnone) as (Em & El & Ee & Hd').
    assert (abs st' = abs st) as Eabs by (unfold abs, levels; by rewrite El, Em).
    split; [split|].
    + by eexists _, _, _, _, _.
    + by rewrite Em.
    + unfold levels. by rewrite El, Em.
    + unfold levels. by rewrite El, Em.
    + unfold levels. by rewrite El.
    + by rewrite Hpub, Ee, Eabs.
    + rewrite Eabs. constructor.
Qed.

(** ** Restarts *)

(** Opening a directory that holds a log and levels restores their state. *)
Lemma open_sound mem existed uuid wal l0 faults files bs ls :
  memtable_wf mem → registered (map snd (stack ls)) mem →
  keys_distinct (map snd (stack ls)) (Memtable.synthetic_base mem) → levels_kept (map snd (stack ls)) →
  replayed core_node_count core_edge_count ls bs = Some mem →
  holds cipher wal l0 bs ls → next_segment_number (walk wal) + 1 < 2 ^ 63 →
  match (DeltaWriter.open cipher true existed uuid core_node_count core_edge_count wal l0 faults files).1 with
  | Ok st' => sound st' ∧ abs st' = (mem, map snd (stack ls))
  | Err _ => files ≠ []
  end.
Proof.
  intros Hm Hr Hk Hlw Em Hh Hmax.
  pose proof (open_restores cipher core_node_count core_edge_count existed uuid wal l0 bs ls _ faults files
    Hh Em Hmax) as Hopen.
  destruct (DeltaWriter.open _ _ _ _ _ _ _ _ _ _).1 as [st'|e]; [|done].
  destruct Hopen as (Em' & El' & _ & Hpub & _ & _ & first & cs & logs & _ & Hd).
  assert (abs st' = (mem, map snd (stack ls))) as Eabs by (unfold abs, levels; by rewrite El', Em').
  pose proof (f_equal fst Eabs) as E1. pose proof (f_equal snd Eabs) as E2. cbn in E1, E2.
  split; [|done]. split.
  - by eexists _, _, _, _, _.
  - by rewrite E1.
  - by rewrite E1, E2.
  - by rewrite E1, E2.
  - by rewrite E2.
  - by rewrite Hpub, Eabs, view_published.
Qed.

(** A crash at rest loses nothing. *)
Lemma restart_sound st existed uuid wal l0 faults files : sound st → crash (disk_of (inner st)) wal l0 →
  next_segment_number (walk wal) + 1 < 2 ^ 63 →
  match (DeltaWriter.open cipher true existed uuid core_node_count core_edge_count wal l0 faults files).1 with
  | Ok st' => sound st' ∧ abs st' = abs st
  | Err _ => files ≠ []
  end.
Proof.
  intros [(first & cs & logs & acked & ls & Hd) Hm Hr Hk Hlw _] Hcr Hmax.
  pose proof Hd as [Hlog Hl Hlv Hmem _]. unfold abs, levels in *. rewrite Hlv in *.
  eapply open_sound; try done. by eapply crash_holds.
Qed.

(** A crash inside a batch finds the state before it or after all of it. *)
Lemma crash_in_batch st ops r st1 : sound st → admissible st ops →
  DeltaWriter.write_batch random_nonce ops st = (r, st1) →
  ∃ nd, disks st1 = nd ++ disks st ∧ ∀ d wal l0 existed uuid faults files, d ∈ nd → crash d wal l0 →
    next_segment_number (walk wal) + 1 < 2 ^ 63 →
    match (DeltaWriter.open cipher true existed uuid core_node_count core_edge_count wal l0 faults files).1 with
    | Ok st2 => sound st2 ∧ (abs st2 = abs st ∨ astep (Acked ops) (abs st) (abs st2))
    | Err _ => files ≠ []
    end.
Proof.
  intros Hs Had Hrun. pose proof Hs as [(first & cs & logs & acked & ls & Hd) Hm Hr Hk Hlw _].
  pose proof (write_batch_step st ops r st1 first cs logs acked ls Hs Had Hd Hrun) as ((nd & Ed & Hnd) & _).
  pose proof Had as [Hne Hacc Hst Hseq Hfit].
  destruct (batch_applies _ _ _ _ Hacc Hm Hr Hk ltac:(by intros ? ? ? ? ? ?) Hst)
    as (Hrep & Hok & m' & Ea & Hm' & Hr' & Hb').
  pose proof (log_seq_nonneg (concat logs ++ acked)). pose proof (du_seq _ _ _ _ _ _ _ _ _ Hd).
  destruct (DeltaWriter.number_records (w_seq (inner st)) ops) as [recs lst] eqn:En.
  destruct (number_records_spec (w_seq (inner st)) ops recs lst) as (_ & Hops & _); [lia|done..|].
  pose proof Hd as [_ _ Hlv Hmem _]. unfold abs, levels in *. rewrite Hlv in *.
  exists nd. split; [done|]. intros d wal l0 existed uuid faults files Hin Hcr Hmax.
  destruct (Hnd d wal l0 Hin Hcr) as [Hh|Hh].
  - pose proof (open_sound _ existed uuid wal l0 faults files _ ls Hm Hr Hk Hlw Hmem Hh Hmax) as Ho.
    destruct (DeltaWriter.open _ _ _ _ _ _ _ _ _ _).1 as [st2|]; [|done]. destruct Ho as [Ho Eo]. auto.
  - assert (replayed core_node_count core_edge_count ls (concat logs ++ acked ++ [(recs, lst)]) = Some m') as Hmem'.
    { rewrite app_assoc, (replayed_snoc _ _ _ _ _ _ Hmem). cbn [fst]. by rewrite (apply_all_replays _ ops). }
    rewrite <- Hb' in Hk.
    pose proof (open_sound m' existed uuid wal l0 faults files _ ls Hm' Hr' Hk Hlw Hmem' Hh Hmax) as Ho.
    destruct (DeltaWriter.open _ _ _ _ _ _ _ _ _ _).1 as [st2|]; [|done]. destruct Ho as [Ho Eo].
    split; [done|]. right. unfold abs, levels in Eo. rewrite Eo. by constructor.
Qed.

Lemma step_sound st e st' : sound st → step st e st' → sound st' ∧ astep e (abs st) (abs st').
Proof.
  intros Hsnd Hstep. pose proof Hsnd as [(first & cs & logs & acked & ls & Hd) _ _ _ _ _].
  inversion Hstep as [ops r ? Had Hrun Hw|op res r ? Had Hrun Hw|nonce r ? Hf Hrun Hw|? Hre|ops ? Had Hre]; subst.
  - eapply write_step; [done|done| |done]. by apply write_batch_step.
  - eapply write_step; [done|done| |done]. by apply write_one_step.
  - by eapply flush_step.
  - destruct Hre as (wal & l0 & existed & uuid & faults & files & Hcr & Hmax & E).
    pose proof (restart_sound st existed uuid wal l0 faults files Hsnd Hcr Hmax) as H. rewrite E in H.
    destruct H as [Hs Ea]. split; [done|]. rewrite Ea. constructor.
  - destruct Hre as (r & st1 & nd & d & wal & l0 & existed & uuid & faults & files & Hrun & Ed & Hin & Hcr & Hmax & E).
    destruct (crash_in_batch st ops r st1 Hsnd Had Hrun) as (nd' & Ed' & Hnd).
    rewrite Ed in Ed'. apply app_inv_tail in Ed' as <-.
    specialize (Hnd d wal l0 existed uuid faults files Hin Hcr Hmax). rewrite E in Hnd.
    destruct Hnd as [Hs [Ea|Ea]]; (split; [done|]).
    + rewrite Ea. destruct (abs st). constructor. by left.
    + destruct (abs st) as [a la], (abs st') as [b lb]. inversion Ea; subst. constructor. by right.
Qed.

Lemma steps_sound st es st' : sound st → steps st es st' → sound st' ∧ asteps (abs st) es (abs st').
Proof.
  intros Hsnd Hst. induction Hst as [st|st e st1 es st2 Hs _ IH]; [by split; [|constructor]|].
  destruct (step_sound _ _ _ Hsnd Hs) as [H1 H2]. destruct (IH H1) as [H3 H4]. split; [done|by econstructor].
Qed.

(** ** The first start *)

(** Before anything was written: no log, no levels. *)
Lemma open_fresh existed uuid faults files st : keys_distinct [] core_node_count →
  (DeltaWriter.open cipher true existed uuid core_node_count core_edge_count ∅ ∅ faults files).1 = Ok st →
  sound st ∧ abs st = (with_bases core_node_count core_edge_count, []).
Proof.
  intros Hk E.
  assert (holds cipher (∅ : dir) (∅ : dir) [] []) as Hh.
  { exists 0, [], []. split_and!; try done. split; [constructor|constructor|by intros ? ? ?%elem_of_nil|].
    intros name c stem n H. by rewrite lookup_empty in H. }
  pose proof (open_restores cipher core_node_count core_edge_count existed uuid ∅ ∅ [] []
    (with_bases core_node_count core_edge_count) faults files Hh eq_refl) as Hopen.
  rewrite next_number_empty, E in Hopen.
  destruct (Hopen ltac:(done)) as (Em & El & _ & Hpub & _ & _ & first & cs & logs & _ & Hd).
  assert (abs st = (with_bases core_node_count core_edge_count, [])) as Eabs.
  { unfold abs, levels. by rewrite Em, El. }
  split; [|done]. unfold levels. split.
  - by eexists _, _, _, _, _.
  - rewrite Em. apply with_bases_wf.
  - rewrite Em. intros ck e l k v He. cbn in He. by rewrite lookup_empty in He.
  - unfold levels. by rewrite Em, El.
  - unfold levels. rewrite El. split; [constructor|]. by intros ? ? ? ?%elem_of_nil.
  - by rewrite Hpub, Eabs, view_published.
Qed.


(** C3: A batch is written all or not at all, at every moment.  Whatever fails, and wherever in
    the call a crash strikes, a restart finds the state before the batch or after all of it;
    acknowledged, the batch is applied and published, and every restart on what a crash leaves
    from then on finds it applied; refused, neither the published snapshot,
    the memtable nor the touched-id journal has changed. *)
Theorem write_crash_atomic st ops r st' uuid :
  sound st → admissible st ops → DeltaWriter.write_batch random_nonce ops st = (r, st') →
  (∃ nd, disks st' = nd ++ disks st ∧ ∀ d wal l0, d ∈ nd → crash d wal l0 →
     next_segment_number (walk wal) + 1 < 2 ^ 63 →
     ∃ st2, (DeltaWriter.open cipher true true uuid core_node_count core_edge_count wal l0 [] []).1 = Ok st2 ∧
       (abs st2 = abs st ∨ astep (Acked ops) (abs st) (abs st2))) ∧
  match r with
  | Ok seq => seq = w_seq (inner st) + zlen ops ∧ astep (Acked ops) (abs st) (abs st') ∧
      DeltaWriter.delta_snapshot st' = view (abs st') ∧ p_epoch (published st') = p_epoch (published st) + 1 ∧
      ∀ wal l0, crash (disk_of (inner st')) wal l0 → next_segment_number (walk wal) + 1 < 2 ^ 63 →
        ∃ st2, (DeltaWriter.open cipher true true uuid core_node_count core_edge_count wal l0 [] []).1 = Ok st2 ∧
          abs st2 = abs st'
  | Err _ => abs st' = abs st ∧ published st' = published st ∧ touched st' = touched st
  end.
Proof.
  intros Hs Had Hrun. pose proof Hs as [(first & cs & logs & acked & ls & Hd) Hm Hr Hk _ Hp].
  pose proof (write_batch_step st ops r st' first cs logs acked ls Hs Had Hd Hrun) as Heff. split.
  - destruct (crash_in_batch st ops r st' Hs Had Hrun) as (nd & Ed & Hnd). exists nd. split; [done|].
    intros d wal l0 Hin Hcr Hmax. specialize (Hnd d wal l0 true uuid [] [] Hin Hcr Hmax).
    destruct (DeltaWriter.open cipher true true uuid core_node_count core_edge_count wal l0 [] []).1 as [st2|]; [|done].
    exists st2. split; [done|]. apply Hnd.
  - destruct r as [seq|e].
    + destruct (write_step st ops _ _ _ _ _ _ _ _ _ Hs Had Heff ltac:(by left)) as [Hs' Ha].
      destruct Heff as (_ & _ & _ & Eseq & _ & _ & _ & Ee & Hpub & _). split_and!.
      * rewrite Eseq. pose proof Had as [_ Hacc Hst Hseq _].
        destruct (batch_applies _ _ _ _ Hacc Hm Hr Hk ltac:(by intros ? ? ? ? ? ?) Hst) as (_ & Hok & _).
        pose proof (du_seq _ _ _ _ _ _ _ _ _ Hd). pose proof (log_seq_nonneg (concat logs ++ acked)).
        destruct (DeltaWriter.number_records (w_seq (inner st)) ops) as [recs lst] eqn:En.
        by destruct (number_records_spec (w_seq (inner st)) ops recs lst) as (? & _); [lia|..].
      * done.
      * unfold DeltaWriter.delta_snapshot. by rewrite (so_published _ Hs').
      * rewrite Hpub, Hp. done.
      * intros wal l0 Hcr Hmax. pose proof (restart_sound st' true uuid wal l0 [] [] Hs' Hcr Hmax) as Ho.
        destruct (DeltaWriter.open cipher true true uuid core_node_count core_edge_count wal l0 [] []).1 as [st2|]; [|done].
        exists st2. split; [done|apply Ho].
    + destruct Heff as (_ & El & _ & Em & Epub & _ & Et & _). split_and!; try done.
      unfold abs, levels. by rewrite El, Em.
Qed.
End writer.

Lemma surjective_pairing_of {A B} (p : A * B) a : p.1 = a → p = (a, p.2).
Proof. by destruct p; intros <-. Qed.

(** * Witnesses *)

Section witnesses.
#[local] Existing Instance toy_crypto.
#[local] Existing Instance toy_crypto_laws.
#[local] Existing Instance example_layout.
#[local] Existing Instance numbered_walk.

(** Every spelling of a key is used. *)
#[local] Instance all_keys : KeyUse := λ _, True.

Lemma all_keys_used op : op_uses op.
Proof. by split. Qed.

(** A core of ten nodes, one of which is indexed. *)
#[local] Instance example_probe : CoreProbe := {|
  resolve_business_key l k v := if decide ((l, k, v) = person 1) then Unique 3 else Absent;
  reltype_id _ := None;
  find_core_edge_id _ _ _ _ := None;
|}.

Lemma example_keys : keys_distinct [] 10.
Proof.
  assert (∀ key d, key_id [] key = Some d → key = person 1 ∧ d = 3) as H.
  { intros [[l k] v] d. unfold key_id, one_key. cbn. case_decide as E; [|done]. cbn. intros [= <-]. by rewrite E. }
  split.
  - intros key d _ _ [_ ->]%H. lia.
  - intros key key' d _ _ _ _ [-> _]%H [-> _]%H. done.
Qed.

(** The state of a result, or a writer over nothing. *)
Definition state_of (r : result DeltaWriter) : DeltaWriter :=
  match r with
  | Ok st => st
  | Err _ =>
      mkWriter (mkInner ∅ ∅ (Build_WalSink 0 None) (fresh []) (with_bases 0 0) [] 0) 0
        (mkPublished (view (with_bases 0 0, [])) 0) 0 (TouchedJournal.new 0) false [] [] []
  end.

Definition example_start : DeltaWriter :=
  state_of (DeltaWriter.open None true true 7 10 5 ∅ ∅ [] []).1.

Definition example_ops : list (WalOp * OpResolution) := [
  (UpsertNode (lit "P") (lit "id") (Value.Int 1) [(lit "x", Value.Int 7)], ResNode (Some 3)) ].

Definition example_nonce (_ : nat) : bytes := repeat 5 24.
Definition example_written : DeltaWriter := (DeltaWriter.write_batch example_nonce example_ops example_start).2.
Definition example_flushed : DeltaWriter := (DeltaWriter.flush_to_l0 None (example_nonce 0) example_written).2.

Lemma example_opens : (DeltaWriter.open None true true 7 10 5 ∅ ∅ [] []).1 = Ok example_start.
Proof. vm_compute. reflexivity. Qed.

Lemma example_admissible : admissible example_start example_ops.
Proof.
  split; [done| | | |].
  - constructor; [|constructor].
    apply (accepted_node _ _ _ (person 1) true true); [done|concrete_ok|apply all_keys_used|by vm_compute].
  - split; [apply Z.leb_le; by vm_compute|]. split; [|done]. intros src rt dst eid E. discriminate E.
  - vm_compute. reflexivity.
  - apply (bool_decide_unpack _). vm_compute. exact I.
Qed.

Lemma example_write_ok : DeltaWriter.write_batch example_nonce example_ops example_start = (Ok 1, example_written).
Proof.
  assert ((DeltaWriter.write_batch example_nonce example_ops example_start).1 = Ok 1) as E by (vm_compute; reflexivity).
  apply surjective_pairing_of in E. exact E.
Qed.

Lemma example_flush_ok :
  DeltaWriter.flush_to_l0 None (example_nonce 0) example_written = (Ok true, example_flushed).
Proof.
  assert ((DeltaWriter.flush_to_l0 None (example_nonce 0) example_written).1 = Ok true) as E by (vm_compute; reflexivity).
  apply surjective_pairing_of in E. exact E.
Qed.

Lemma example_flushable : flushable example_written (example_nonce 0).
Proof.
  split; [|done|by vm_compute|].
  - assert (w_mem (inner example_written) = example_level) as -> by by vm_compute. apply example_level_encodable.
  - intros n stem name c H. by vm_compute in H.
Qed.

Lemma example_steps : steps None 10 5 example_nonce example_start [Acked example_ops; Sealed] example_flushed.
Proof.
  eapply steps_cons; [|eapply steps_cons; [|constructor]].
  - apply (step_batch _ _ _ _ example_start example_ops (Ok 1) example_written example_admissible example_write_ok).
    by left.
  - apply (step_flush _ _ _ _ example_written (example_nonce 0) (Ok true) example_flushed example_flushable example_flush_ok).
    by left.
Qed.

(** A crash that loses nothing that was written. *)
Lemma crash_whole i : untorn (data (w_file i)) → crash (disk_of i) (wal_dir i) (w_l0_files i).
Proof.
  intros Hu. split; [done|]. exists (data (w_file i)). split_and!; [|done|constructor].
  split; [done|]. by intros p _ ?.
Qed.


Lemma example_start_sound : sound None 10 5 example_start.
Proof. apply (open_fresh None 10 5 true 7 [] [] example_start example_keys example_opens). Qed.

Lemma example_written_sound : sound None 10 5 example_written.
Proof.
  eapply (step_sound None 10 5 example_nonce (λ _, eq_refl) example_start); [apply example_start_sound|].
  apply (step_batch _ _ _ _ example_start example_ops (Ok 1) example_written example_admissible example_write_ok).
  by left.
Qed.

Lemma write_crash_atomic_witness :
  astep (Acked example_ops) (abs example_start) (abs example_written) ∧
  (∃ nd, disks example_written = nd ++ disks example_start ∧ nd ≠ []) ∧
  ∃ st2, (DeltaWriter.open None true true 7 10 5 (wal_dir (inner example_written))
      (w_l0_files (inner example_written)) [] []).1 = Ok st2 ∧ abs st2 = abs example_written.
Proof.
  destruct (write_crash_atomic None 10 5 example_nonce (λ _, eq_refl) example_start example_ops (Ok 1)
    example_written 7 example_start_sound example_admissible example_write_ok) as [(nd & Hd & _) (_ & Ha & _ & _ & Hc)].
  split; [exact Ha|]. split.
  - exists nd. split; [exact Hd|]. intros ->. apply (f_equal length) in Hd. vm_compute in Hd. discriminate Hd.
  - apply Hc; [|vm_compute; reflexivity]. apply crash_whole. right. apply Z.leb_le. vm_compute. reflexivity.
Defined.
End witnesses.
