(* ===== verification/FlushCrash.v ===== *)
(** A crash in the middle of a flush.

    Once the level's file is in place a crash leaves the memtable twice, as the new level and as
    what is left of the log, and the restart replays the one over the other.  For a log of
    node writes this is invisible: replaying the end of a log over the level that holds all of
    it changes no node. *)

From S2P Require Import Prelude Values Wire Crypto Seal Identity WalCodec WalReplay WalSink.
From S2P Require Import NodeDelta Memtable MemtableInv MemtableApply MemtableCodec L0Segment.
From S2P Require Import Snapshot DeltaFold Compaction Resolve TouchedJournal DeltaWriter WriterDisk.
From S2P Require Import SnapshotRead WriterInv WriterFlush WriterSafety.

(** * Deltas *)

Import NodeDelta.

(** [d] already has all that [n] says. *)
Record absorbs (d n : NodeDelta) : Prop := {
  ab_added : labels_added n ⊆ labels_added d;
  ab_dropped : labels_removed n ⊆ labels_removed d;
  ab_patches : ∀ k v, patches n !! k = Some v → patches d !! k = Some v;
  ab_removed : ∀ k, k ∈ removed n → patches d !! k = None ∧ (replaced d = false → k ∈ removed d);
  ab_replaced : replaced n = true → replaced d = true ∧ patches d = patches n;
}.

Lemma absorbs_set_prop d n p : absorbs d n → absorbs (set_prop d p) (set_prop n p).
Proof.
  intros [A B C D E]. split; cbn; try done.
  - intros k v. rewrite !lookup_insert_Some. intros [?|[? ?]]; auto.
  - intros k [Hk Hp]%elem_of_difference. rewrite elem_of_singleton in Hp. destruct (D k Hk) as [D1 D2].
    rewrite lookup_insert_ne by done. split; [done|]. intros Hr. rewrite elem_of_difference, elem_of_singleton. auto.
  - intros Hr. destruct (E Hr) as [E1 ->]. done.
Qed.

Lemma absorbs_remove_prop d n x : absorbs d n → absorbs (remove_prop d x) (remove_prop n x).
Proof.
  intros [A B C D E]. split; cbn; try done.
  - intros k v. rewrite !lookup_delete_Some. intros [? ?]; auto.
  - intros k Hk. assert (k = x ∨ k ∈ removed n) as [->|Hin] by (destruct (replaced n); set_solver).
    + rewrite lookup_delete_eq. split; [done|]. intros ->. set_solver.
    + destruct (D k Hin) as [D1 D2]. rewrite lookup_delete_None. split; [auto|]. intros Hr. rewrite Hr. set_solver.
  - intros Hr. destruct (E Hr) as [E1 ->]. done.
Qed.

Lemma absorbs_add_label d n l : absorbs d n → absorbs (add_label d l) (add_label n l).
Proof. intros []. split; cbn; try done; set_solver. Qed.

Lemma absorbs_drop_label d n l : absorbs d n → absorbs (drop_label d l) (drop_label n l).
Proof. intros []. split; cbn; try done; set_solver. Qed.

Lemma absorbs_foldl {B} (f : NodeDelta → B → NodeDelta) xs d n :
  (∀ d n x, absorbs d n → absorbs (f d x) (f n x)) → absorbs d n → absorbs (foldl f d xs) (foldl f n xs).
Proof. intros Hf. revert d n. induction xs as [|x xs IH]; intros d n H; cbn; auto. Qed.

Lemma replace_whole ps d : replace ps d =
  mkNodeDelta (patches (replace ps NodeDelta.default)) ∅ true (labels_added d) (labels_removed d) (tombstoned d).
Proof.
  unfold replace. set (f := λ d p, _).
  assert (∀ d', foldl f d' ps = mkNodeDelta (patches (foldl f d' ps)) (removed d') (replaced d') (labels_added d')
    (labels_removed d') (tombstoned d')) as H1.
  { induction ps as [|p ps IH]; intros d'; cbn; [by destruct d'|]. rewrite IH at 1. done. }
  assert (∀ d' d'', patches d' = patches d'' → patches (foldl f d' ps) = patches (foldl f d'' ps)) as H2.
  { clear H1. induction ps as [|p ps IH]; intros d' d'' E; cbn; [done|]. apply IH. cbn. by rewrite E. }
  rewrite H1. cbn. f_equal. by apply H2.
Qed.

Lemma absorbs_resurrect d n : absorbs d n → absorbs (resurrect d) (resurrect n).
Proof. by intros []. Qed.

(** Absorption survives the same operation on both. *)
Lemma absorbs_step d n o : absorbs d n → absorbs (delta_step d o) (delta_step n o).
Proof.
  intros H%absorbs_resurrect. destruct o as [ps|ns|ps|a r|]; cbn [delta_step].
  - by apply absorbs_foldl; [intros; by apply absorbs_set_prop|].
  - by apply absorbs_foldl; [intros; by apply absorbs_remove_prop|].
  - rewrite !(replace_whole ps (resurrect _)). destruct H. by split.
  - apply absorbs_foldl; [intros; by apply absorbs_drop_label|].
    by apply absorbs_foldl; [intros; by apply absorbs_add_label|].
  - by split.
Qed.

Lemma absorbs_default d : absorbs d NodeDelta.default.
Proof. split; cbn; try done; try set_solver. Qed.

Lemma step_tombstoned d n o : tombstoned (delta_step d o) = tombstoned (delta_step n o).
Proof.
  destruct o; [| | | |done]; rewrite !step_live by done; done.
Qed.

Lemma foldl_fixed {A B} (f : A → B → A) xs a : (∀ x, x ∈ xs → f a x = a) → foldl f a xs = a.
Proof.
  induction xs as [|x xs IH]; intros H; [done|]. cbn. rewrite (H x) by apply list_elem_of_here.
  apply IH. intros y Hy. apply H. by apply list_elem_of_further.
Qed.

(** Folding in what a delta already has changes nothing. *)
Lemma absorbs_fold d n : delta_wf d → tombstoned d = tombstoned n → absorbs d n → fold_newer d n = d.
Proof.
  intros [Hp Hl Ht Hr] Et [A B C D E]. unfold fold_newer. destruct (tombstoned n) eqn:En.
  { destruct d as [ps rm rp la lr ts]; cbn in *. destruct (Ht Et) as (-> & -> & -> & -> & ->). by rewrite Et. }
  assert (resurrect d = d) as -> by (unfold resurrect; rewrite <- Et; by destruct d).
  rewrite (foldl_fixed add_label); [|].
  2:{ intros l Hin%elem_of_elements. destruct d; unfold add_label; cbn in *. f_equal; set_solver. }
  rewrite (foldl_fixed drop_label); [|].
  2:{ intros l Hin%elem_of_elements. destruct d; unfold drop_label; cbn in *. f_equal; set_solver. }
  destruct (replaced n) eqn:Er.
  - destruct (E eq_refl) as [E1 E2]. specialize (Hr E1). destruct d; cbn in *. by rewrite E1, E2, Hr.
  - rewrite (foldl_fixed remove_prop); [|].
    2:{ intros k Hin%elem_of_elements. destruct (D k Hin) as [D1 D2]. destruct d; unfold remove_prop; cbn in *.
        rewrite delete_id by done. f_equal. destruct replaced; [done|]. specialize (D2 eq_refl). set_solver. }
    apply foldl_fixed. intros [k v] Hin%elem_of_map_to_list. apply C in Hin.
    destruct d; unfold set_prop; cbn in *. rewrite (insert_id _ k) by done. f_equal.
    assert (k ∉ removed) by (apply Hp; by eexists). set_solver.
Qed.

(** Over a level, and over whatever is below it. *)
Lemma absorbs_levels below d n : (∀ b, below = Some b → delta_wf b) → delta_wf d → delta_wf n →
  tombstoned d = tombstoned n → absorbs d n →
  DeltaSnapshot.fold_patch (DeltaSnapshot.fold_patch below (Some d)) (Some n)
  = DeltaSnapshot.fold_patch below (Some d).
Proof.
  intros Hb Hd Hn Et Ha. destruct below as [b|]; unfold DeltaSnapshot.fold_patch; apply (f_equal Some).
  - rewrite fold_newer_assoc; [by rewrite (absorbs_fold d n)|by apply Hb|done|done|congruence].
  - by apply absorbs_fold.
Qed.

(** Replaying the end of a run of operations over the run. *)
Lemma suffix_absorbed d ops : absorbs (foldl delta_step d ops) (delta_run ops).
Proof.
  unfold delta_run. assert (∀ d n, absorbs d n → absorbs (foldl delta_step d ops) (foldl delta_step n ops)) as H.
  { induction ops as [|o ops IH]; intros d' n' H; cbn; [done|]. by apply IH, absorbs_step. }
  apply H, absorbs_default.
Qed.

(** * One node write *)

Section nodes.
Context {core : CoreProbe} {layout : Layout} {use : KeyUse}.

(** The delta of an id, empty where the memtable has none. *)
Definition delta_of (d : Z) (m : Memtable) : NodeDelta :=
  match Memtable.node_patch d m with Some n => n | None => NodeDelta.default end.

(** The id a write is about: the one its key has below, or that of the node born under it. *)
Definition write_target (l0 : list Memtable) (m1 : Memtable) (key : NodeKey) (id : Z) : Prop :=
  key_id l0 key = Some id ∨
  key_id l0 key = None ∧ Memtable.born_synthetic_for_identity key.1.1 key.1.2 key.2 m1 = Some id.

(** A write interns at most the two names of its key. *)
Record node_effect (l0 : list Memtable) (m m1 : Memtable) (key : NodeKey) (o : node_op) : Prop := {
  ne_wf : memtable_wf m1;
  ne_registered : registered l0 m1;
  ne_keeps : keeps m m1;
  ne_room : ∀ r, 0 <= r → room (r + 2) (interner m) → room r (interner m1);
  ne_patch :
    (∃ id, write_target l0 m1 key id ∧
       Memtable.node_patch id m1 = Some (delta_step (delta_of id m) o) ∧
       ∀ d, d ≠ id → Memtable.node_patch d m1 = Memtable.node_patch d m) ∨
    (o = OpDelete ∧ key_id l0 key = None ∧
       Memtable.born_synthetic_for_identity key.1.1 key.1.2 key.2 m1 = None ∧
       ∀ d, Memtable.node_patch d m1 = Memtable.node_patch d m);
  ne_born : ∀ l k v id, Value.wf v → (l, k, v) ≠ key →
    Memtable.born_synthetic_for_identity l k v m1 = Some id →
    Memtable.born_synthetic_for_identity l k v m = Some id;
}.

Lemma patch_of m d ck e : by_dense m !! d = Some ck → nodes m !! ck = Some e →
  Memtable.node_patch d m = Some (n_delta e).
Proof. intros Hd He. unfold Memtable.node_patch. rewrite Hd. cbn. by rewrite He. Qed.

(** The ids a write leaves alone. *)
Lemma other_patches m m1 ck id d : memtable_wf m → memtable_wf m1 → frames m m1 ck →
  by_dense m1 !! id = Some ck → d ≠ id → Memtable.node_patch d m1 = Memtable.node_patch d m.
Proof.
  intros (_ & Hn & _) (_ & Hn1 & _) Hf Hid Hd. unfold Memtable.node_patch.
  destruct (by_dense m !! d) as [x|] eqn:Ex; cbn [mbind option_bind].
  - pose proof (frame_dense _ _ _ Hf _ _ Ex) as E1. rewrite E1. cbn [mbind option_bind].
    destruct (decide (x = ck)) as [->|Hx]; [|by rewrite (frame_nodes _ _ _ Hf)].
    by rewrite (inv_dense_unique _ _ _ _ _ _ _ Hn1 _ _ _ E1 Hid) in Hd.
  - destruct (by_dense m1 !! d) as [x|] eqn:E1; cbn [mbind option_bind]; [exfalso|done].
    destruct (decide (x = ck)) as [->|Hx].
    + by rewrite (inv_dense_unique _ _ _ _ _ _ _ Hn1 _ _ _ E1 Hid) in Hd.
    + destruct (inv_dense _ _ _ _ _ _ _ Hn1 _ _ E1) as [He _]. rewrite (frame_nodes _ _ _ Hf) in He by done.
      destruct (inv_dense_total _ _ _ _ _ _ _ Hn _ He) as [d' Hd'].
      pose proof (frame_dense _ _ _ Hf _ _ Hd') as E2.
      rewrite (inv_dense_unique _ _ _ _ _ _ _ Hn1 _ _ _ E1 E2) in Ex. congruence.
Qed.

(** Nothing stored, nothing changed. *)
Lemma same_patches m m1 ck : memtable_wf m → memtable_wf m1 → frames m m1 ck → nodes m1 = nodes m →
  ∀ d, Memtable.node_patch d m1 = Memtable.node_patch d m.
Proof.
  intros (_ & Hn & _) (_ & Hn1 & _) Hf Hsame d. unfold Memtable.node_patch.
  destruct (by_dense m !! d) as [x|] eqn:Ex; cbn [mbind option_bind].
  - rewrite (frame_dense _ _ _ Hf _ _ Ex). cbn [mbind option_bind]. by rewrite Hsame.
  - destruct (by_dense m1 !! d) as [x|] eqn:E1; cbn [mbind option_bind]; [exfalso|done].
    destruct (inv_dense _ _ _ _ _ _ _ Hn1 _ _ E1) as [He _]. rewrite Hsame in He.
    destruct (inv_dense_total _ _ _ _ _ _ _ Hn _ He) as [d' Hd'].
    pose proof (frame_dense _ _ _ Hf _ _ Hd') as E2.
    rewrite (inv_dense_unique _ _ _ _ _ _ _ Hn1 _ _ _ E1 E2) in Ex. congruence.
Qed.

Lemma replay_node_effect l0 m op l k v o : node_key op = Some (l, k, v) → node_op_of op = Some o → op_ok op → op_uses op →
  memtable_wf m → room 2 (interner m) → registered l0 m → keys_distinct l0 (Memtable.synthetic_base m) →
  ∃ m1, replay_op l0 m op = Some m1 ∧ node_effect l0 m m1 (l, k, v) o.
Proof.
  intros Hk Ho Hok Huse Hm Hroom Hr Hd. pose proof (op_ok_key _ _ _ _ Hok Hk) as Hv. pose proof (proj1 Huse _ Hk) as Hu.
  pose proof (registered_resolves l0 m l k v Hm Hroom Hv Hu Hd Hr) as Hres.
  pose proof (node_write_ok o l k v _ m Hm Hroom Hv Hres) as [[Hm1 Hf] Hh]. cbv zeta in Hm1, Hf, Hh.
  pose proof (node_write_registered o l0 l k v m Hm Hroom Hv Hu Hd Hr) as Hr1.
  set (m1 := node_write o l k v (key_id l0 (l, k, v)) m) in *. set (ck := node_ck l k v m) in *.
  exists m1. split; [unfold replay_op; rewrite (replay_node l0 op _ Hk); by apply apply_node|].
  pose proof Hm as (_ & Hn & _). pose proof Hm1 as (_ & Hn1 & _).
  assert (∀ e, nodes m1 !! ck = Some e → names_are (interner m1) (n_identity e) l k v) as Hnames.
  { intros e He. destruct Hh as [(_ & _ & Hno & Hsame)|(e' & He' & _ & Hv' & Hl' & Hk')];
      [rewrite Hsame in He; congruence|]. assert (e' = e) as -> by congruence. by split_and!. }
  split; [done|done|by destruct Hf| | |].
  { intros r H0 Hrr. unfold m1. rewrite node_write_interner.
    destruct (intern_node_identity l k v (interner m)) as [id i] eqn:E.
    by destruct (intern_node_ok l k v (interner m) id i r) as (_ & _ & ? & _); try apply Hm. }
  - destruct Hh as [(Ho' & Hnone & Hno & Hsame)|(e & He & Hdl & _)].
    + right. split_and!; [done|done| |].
      * cbn. destruct (Memtable.born_synthetic_for_identity l k v m1) as [y|] eqn:Eb; [exfalso|done].
        destruct (born_synthetic_entry l k v m1 y Hm1 Hv Eb) as (e & He & Hs & Hnm).
        rewrite Hsame in He. pose proof Hm as (Hi & _). 
        assert (names_are (interner m) (n_identity e) l k v) as Hnm0.
        { eapply names_back; [apply Hf| |exact Hnm]. by destruct (inv_entry _ _ _ _ _ _ _ Hn _ _ He) as (_&_&?&_). }
        rewrite (names_ck m _ e l k v) in He by done. fold ck in He. congruence.
      * by apply (same_patches m m1 ck).
    + left. specialize (Hnames e He). destruct (Hr1 _ _ l k v He Hnames) as [_ Hid].
      assert (∃ id, write_target l0 m1 (l, k, v) id ∧ by_dense m1 !! id = Some ck) as (id & Ht & Hbd).
      { destruct (key_id l0 (l, k, v)) as [x|] eqn:Ek; [exists x; split; [by left|apply Hid]|].
        destruct Hid as [y Hy]. exists y. split; [|by destruct (inv_synthetic _ _ _ _ _ _ _ Hn1 _ _ _ He Hy)].
        right. split; [done|]. by eapply born_of_entry. }
      exists id. split; [done|]. split; [|intros d Hne; by eapply other_patches].
      rewrite (patch_of m1 id ck e Hbd He), Hdl. do 2 f_equal. unfold delta_of, delta_at, Memtable.node_patch.
      destruct (nodes m !! ck) as [e0|] eqn:E0.
      * destruct (inv_dense_total _ _ _ _ _ _ _ Hn ck ltac:(by eexists)) as [d' Hd'].
        rewrite (inv_dense_unique _ _ _ _ _ _ _ Hn1 _ _ _ Hbd (frame_dense _ _ _ Hf _ _ Hd')), Hd'.
        cbn. by rewrite E0.
      * destruct (by_dense m !! id) as [x|] eqn:Ex; [|done]. pose proof (frame_dense _ _ _ Hf _ _ Ex) as Ex1.
        assert (x = ck) as -> by congruence. cbn. by rewrite E0.
  - intros l' k' v' y Hv' Hne Hb. destruct (born_synthetic_entry l' k' v' m1 y Hm1 Hv' Hb) as (e & He & Hs & Hnm).
    set (ck' := node_ck l' k' v' m1) in *. destruct (decide (ck' = ck)) as [E|Hck].
    + rewrite E in He. pose proof (names_fun _ _ _ _ _ _ _ _ Hnm (Hnames e He)). done.
    + rewrite (frame_nodes _ _ _ Hf) in He by done. eapply born_of_entry; [done|done| |done].
      eapply names_back; [apply Hf| |exact Hnm]. by destruct (inv_entry _ _ _ _ _ _ _ Hn _ _ He) as (_&_&?&_).
Qed.

(** * Replaying the end of a log over the level that holds it *)

Section double.
Variables (l0 : list Memtable) (final : Memtable).
Hypothesis Hfinal : memtable_wf final.
Hypothesis Hregistered : registered l0 final.
Local Abbreviation born_in := (λ key m, Memtable.born_synthetic_for_identity key.1.1 key.1.2 key.2 m) (only parsing).

(** What the second replay holds of a node the first has already, or is about to have again. *)
Definition related (m m' : Memtable) : Prop := ∀ d n, d < Memtable.synthetic_base m' →
  Memtable.node_patch d m' = Some n →
  (∃ x, Memtable.node_patch d m = Some x ∧ absorbs x n ∧ tombstoned x = tombstoned n) ∨
  (n = tombstone NodeDelta.default ∧ ∃ key : NodeKey, Value.wf key.2 ∧ key_id l0 key = None ∧
     born_in key m = None ∧ born_in key final = Some d).

Lemma target_final m1 key id : Value.wf key.2 → born_kept m1 final → write_target l0 m1 key id →
  key_id (final :: l0) key = Some id.
Proof.
  destruct key as [[l k] v]. cbn [snd]. intros Hv Hb. unfold write_target, key_id, born_in_l0. cbn [find_map fst snd].
  destruct (one_key (l, k, v)) as [x|] eqn:E1; [by intros [?|[? _]]|].
  intros [H|[_ H]]; [|by rewrite (Hb _ _ _ _ Hv H)].
  destruct (Memtable.born_synthetic_for_identity l k v final) as [y|] eqn:E2; [exfalso|done].
  destruct (born_synthetic_entry l k v final y Hfinal Hv E2) as (e & He & Hs & Hnm).
  pose proof (registered_fresh _ _ Hregistered _ _ l k v He ltac:(by eexists) Hnm) as Hk.
  unfold key_id, born_in_l0 in Hk. rewrite E1 in Hk. cbn [fst snd] in Hk. congruence.
Qed.

Lemma absorbs_tombstone x : absorbs x (tombstone NodeDelta.default).
Proof. destruct (absorbs_default x). by split. Qed.

Lemma related_deltas m m' d : related m m' → d < Memtable.synthetic_base m' → absorbs (delta_of d m) (delta_of d m').
Proof.
  intros Hr Hd. unfold delta_of at 2. destruct (Memtable.node_patch d m') as [n|] eqn:En; [|apply absorbs_default].
  destruct (Hr d n Hd En) as [(x & Hx & Ha & _)|[-> _]]; [|apply absorbs_tombstone].
  unfold delta_of. by rewrite Hx.
Qed.

Lemma related_step m m' m1 m1' key o : Value.wf key.2 → related m m' →
  keys_distinct (final :: l0) (Memtable.synthetic_base m') → born_kept m1 final →
  node_effect l0 m m1 key o → node_effect (final :: l0) m' m1' key o → related m1 m1'.
Proof.
  intros Hv Hr [Hlt _] Hb E E' d n Hd Hn. rewrite (keeps_base _ _ (ne_keeps _ _ _ _ _ E')) in Hd.
  assert (∀ key2 : NodeKey, Value.wf key2.2 → key2 ≠ key → born_in key2 m = None → born_in key2 m1 = None) as Hother.
  { intros [[l k] v] Hv2 Hne H2. cbn [fst snd] in *. destruct (Memtable.born_synthetic_for_identity l k v m1) as [y|] eqn:Ey; [|done].
    pose proof (ne_born _ _ _ _ _ E l k v y Hv2 Hne Ey). congruence. }
  destruct (ne_patch _ _ _ _ _ E) as [(id & Ht & Hp & Hsame)|(-> & Hk & Hbn & Hsame)].
  - pose proof (target_final m1 key id Hv Hb Ht) as Hk'.
    destruct (ne_patch _ _ _ _ _ E') as [(id' & Ht' & Hp' & Hsame')|(_ & Hk'' & _)]; [|congruence].
    assert (id' = id) as -> by (destruct Ht' as [|[? _]]; congruence).
    destruct (decide (d = id)) as [->|Hne].
    + left. rewrite Hp' in Hn. injection Hn as <-. eexists. split; [exact Hp|].
      split; [by apply absorbs_step, related_deltas|apply step_tombstoned].
    + rewrite Hsame' in Hn by done. rewrite Hsame by done.
      destruct (Hr d n Hd Hn) as [?|(-> & key2 & Hv2 & Hk2 & Hb2 & Hf2)]; [by left|right]. split; [done|].
      exists key2. split_and!; try done. apply Hother; [done| |done]. intros ->.
      destruct Ht as [Ht|[_ Ht]]; [congruence|].
      destruct key as [[l k] v]. cbn [fst snd] in *. specialize (Hb _ _ _ _ Hv Ht). congruence.
  - assert (∀ n, Memtable.node_patch d m' = Some n → (∃ x, Memtable.node_patch d m1 = Some x ∧ absorbs x n ∧ tombstoned x = tombstoned n) ∨
      (n = tombstone NodeDelta.default ∧ ∃ key : NodeKey, Value.wf key.2 ∧ key_id l0 key = None ∧
         born_in key m1 = None ∧ born_in key final = Some d)) as Hold.
    { intros n' Hn'. rewrite Hsame. destruct (Hr d n' Hd Hn') as [?|(-> & key2 & Hv2 & Hk2 & Hb2 & Hf2)]; [by left|right].
      split; [done|]. exists key2. split_and!; try done.
      destruct (decide (key2 = key)) as [->|Hne]; [done|by apply Hother]. }
    destruct (ne_patch _ _ _ _ _ E') as [(id' & Ht' & Hp' & Hsame')|(_ & _ & _ & Hsame')]; [|rewrite Hsame' in Hn; by apply Hold].
    destruct (decide (d = id')) as [->|Hne]; [|rewrite Hsame' in Hn by done; by apply Hold].
    destruct Ht' as [Ht'|[_ Ht']].
    + right. rewrite Hp' in Hn. injection Hn as <-. split; [done|]. exists key. split_and!; try done.
      destruct (key_id_cons l0 final key id' Hfinal Hregistered Hv Ht') as [?|[_ ?]]; [congruence|done].
    + destruct key as [[l k] v]. cbn [fst snd] in Ht'. apply born_id_range in Ht'; [|apply (ne_wf _ _ _ _ _ E')|done].
      rewrite (keeps_base _ _ (ne_keeps _ _ _ _ _ E')) in Ht'. lia.
Qed.
End double.

(** A log of node writes, on keys in use. *)
Definition node_log (recs : list WalRecord) : Prop := Forall (λ rec, (op_ok (op rec) ∧ op_uses (op rec)) ∧ is_Some (node_key (op rec))) recs.

Lemma keeps_refl m : keeps m m.
Proof. split; [by unfold Interner.extends|done..]. Qed.

Lemma keeps_trans m1 m2 m3 : keeps m1 m2 → keeps m2 m3 → keeps m1 m3.
Proof. intros [A B C] [A' B' C']. split; [by eapply extends_trans|auto|congruence]. Qed.

(** A memtable on which such a log can be replayed. *)
Record replayable (l0 : list Memtable) (recs : list WalRecord) (m : Memtable) : Prop := {
  rp_wf : memtable_wf m;
  rp_registered : registered l0 m;
  rp_keys : keys_distinct l0 (Memtable.synthetic_base m);
  rp_room : room (2 * zlen recs) (interner m);
}.

Lemma replayable_step l0 rec recs m : replayable l0 (rec :: recs) m → op_ok (op rec) ∧ op_uses (op rec) → is_Some (node_key (op rec)) →
  ∃ key o m1, Value.wf key.2 ∧ node_key (op rec) = Some key ∧ node_op_of (op rec) = Some o ∧ replay_op l0 m (op rec) = Some m1 ∧
    node_effect l0 m m1 key o ∧ replayable l0 recs m1.
Proof.
  intros [Hm Hr Hk Hroom] [Hok Hu] [[[l k] v] Hkey]. destruct (node_op_exists _ _ Hkey) as [o Ho].
  rewrite zlen_cons in Hroom. pose proof (zlen_nonneg recs).
  destruct (replay_node_effect l0 m (op rec) l k v o) as (m1 & E & He); try done; [unfold room in *; lia|].
  exists (l, k, v), o, m1. split; [by eapply op_ok_key|]. split_and!; try done.
  split; [apply He|apply He| |].
  - by rewrite (keeps_base _ _ (ne_keeps _ _ _ _ _ He)).
  - apply (ne_room _ _ _ _ _ He); [lia|]. by replace (2 * zlen recs + 2) with (2 * (zlen recs + 1)) by lia.
Qed.

Lemma replay_keeps l0 recs rest m : node_log recs → replayable l0 (recs ++ rest) m →
  ∃ m', DeltaWriter.replay_records (replay_op l0) recs m = Some m' ∧ replayable l0 rest m' ∧ keeps m m'.
Proof.
  revert m. induction recs as [|rec recs IH]; intros m Hlog Hm; [by exists m; split_and!; [| |apply keeps_refl]|].
  inversion Hlog as [|? ? [Hok Hn] Hlog']; subst.
  destruct (replayable_step l0 rec (recs ++ rest) m Hm Hok Hn) as (key & o & m1 & _ & _ & _ & E & He & Hm1).
  destruct (IH m1 Hlog' Hm1) as (m' & E' & Hm' & Hk'). exists m'. cbn [DeltaWriter.replay_records]. rewrite E.
  split_and!; [done..|]. eapply keeps_trans; [apply He|done].
Qed.

(** The two replays, side by side. *)
Lemma double_replay l0 final recs m m' : node_log recs → memtable_wf final → registered l0 final →
  replayable l0 recs m → replayable (final :: l0) recs m' →
  DeltaWriter.replay_records (replay_op l0) recs m = Some final → related l0 final m m' →
  ∃ final', DeltaWriter.replay_records (replay_op (final :: l0)) recs m' = Some final' ∧
    replayable (final :: l0) [] final' ∧ keeps m' final' ∧ related l0 final final final'.
Proof.
  intros Hlog Hf Hrf. revert m m' Hlog. induction recs as [|rec recs IH]; intros m m' Hlog Hm Hm' Hrun Hrel.
  { injection Hrun as ->. exists m'. by split_and!; [| |apply keeps_refl|]. }
  inversion Hlog as [|? ? [Hok Hn] Hlog']; subst. cbn [DeltaWriter.replay_records] in *.
  destruct (replayable_step _ rec recs m Hm Hok Hn) as (key & o & m1 & Hv & Ek & Eo & E & He & Hm1).
  destruct (replayable_step _ rec recs m' Hm' Hok Hn) as (key2 & o2 & m1' & _ & Ek2 & Eo2 & E' & He' & Hm1').
  assert (key2 = key ∧ o2 = o) as [-> ->] by (split; congruence).
  rewrite E in Hrun. cbn [mbind option_bind] in Hrun. rewrite E'. cbn [mbind option_bind].
  assert (born_kept m1 final) as Hb.
  { destruct (replay_keeps l0 recs [] m1 Hlog') as (x & Ex & _ & Hk); [by rewrite app_nil_r|]. assert (x = final) as -> by congruence.
    apply (keeps_born l0); [apply Hm1|done|apply Hm1|done|done]. }
  destruct (IH m1 m1' Hlog' Hm1 Hm1' Hrun) as (final' & E1 & H1 & H2 & H3).
  { eapply related_step; try done. apply Hm'. }
  exists final'. split_and!; try done. eapply keeps_trans; [apply He'|done].
Qed.

(** Replaying the end of the log over the level that holds all of it: no node reads anew. *)
Lemma suffix_replay_absorbed l0 nb eb base eb' prefix suffix final : node_log (prefix ++ suffix) →
  keys_distinct l0 base → 2 * zlen (prefix ++ suffix) <= 2 ^ 32 →
  nb = base → DeltaWriter.replay_records (replay_op l0) (prefix ++ suffix) (with_bases nb eb) = Some final →
  let base' := Memtable.synthetic_base final + Memtable.born_count final in
  ∃ final', DeltaWriter.replay_records (replay_op (final :: l0)) suffix (with_bases base' eb') = Some final' ∧
    memtable_wf final ∧ memtable_wf final' ∧
    ∀ d n, d < base' → Memtable.node_patch d final' = Some n →
      ∃ x, Memtable.node_patch d final = Some x ∧ absorbs x n ∧ tombstoned x = tombstoned n.
Proof.
  intros Hlog Hk Hlen -> Hrun base'. pose proof (zlen_nonneg prefix). pose proof (zlen_nonneg suffix).
  assert (∀ ls recs b e, keys_distinct ls b → zlen recs <= zlen (prefix ++ suffix) → replayable ls recs (with_bases b e)) as Hstart.
  { intros ls recs b e Hks Hl. split; [apply with_bases_wf| |done|].
    - intros ck en l k v He. cbn in He. by rewrite lookup_empty in He.
    - unfold room. cbn. change (zlen (@nil str)) with 0. lia. }
  pose proof Hlog as [Hlogp Hlogs]%Forall_app.
  destruct (replay_keeps l0 prefix suffix (with_bases base eb) Hlogp) as (mp & Ep & Hmp & _); [by apply Hstart|].
  rewrite replay_records_app, Ep in Hrun. cbn [mbind option_bind] in Hrun.
  destruct (replay_keeps l0 suffix [] mp Hlogs) as (x & Ex & [Hf Hrf Hkf _] & _); [by rewrite app_nil_r|].
  assert (x = final) as -> by congruence.
  destruct (flush_keys l0 final base' eb' Hf Hrf Hkf eq_refl) as [Hk' _].
  destruct (double_replay l0 final suffix mp (with_bases base' eb')) as (final' & E' & Hm' & Hkeep & Hrel); try done.
  { apply Hstart; [done|]. rewrite zlen_app. lia. }
  exists final'. split_and!; [done|done|apply Hm'|]. intros d n Hd Hn.
  destruct (Hrel d n) as [?|(_ & key & _ & _ & Hno & Hyes)]; [|done|done|congruence].
  by rewrite (keeps_base _ _ Hkeep).
Qed.
End nodes.

(** * Crashes during a flush *)

Section crash.
Context {crypto : Crypto} {crypto_laws : CryptoLaws} {layout : Layout} {order : HashWalk} {core : CoreProbe} {use : KeyUse}.
Variable cipher : option BlockCipher.
Variables core_node_count core_edge_count : Z.

(** Replay of the log directory gives the records of the log. *)
Lemma log_read i first cs logs acked : logged cipher i first cs logs acked →
  ∃ rep, replay_dir (Some (DeltaWriter.read_wal i)) cipher = Ok rep ∧
    records rep = log_records (concat (logs ++ [acked])).
Proof.
  intros Hlog. pose proof (wal_dir_files cipher _ _ _ _ _ Hlog) as [Ed Hin].
  pose proof (open_holds cipher _ _ _ _ _ Hlog) as Hopen. destruct Hlog as [_ Hs [H0 Hr] _ _ _ _].
  assert (segments_hold cipher first (cs ++ [data (w_file i)]) (logs ++ [acked])) as Hs'.
  { apply segments_hold_app; [by eapply segments_hold_length|done]. }
  unfold DeltaWriter.read_wal. rewrite Ed, (replay_files cipher first _ (logs ++ [acked])); [|done| |done].
  - eexists. split; [done|]. by rewrite apply_batches_records.
  - rewrite zlen_app. change (zlen [_]) with 1. lia.
Qed.

(** The levels below, as the snapshot folds them. *)
Lemma view_patch m ls d : DeltaSnapshot.node_patch d (view (m, ls)) =
  DeltaSnapshot.fold_patch (fold_newest (map (Memtable.node_patch d) ls)) (Memtable.node_patch d m).
Proof.
  rewrite node_patch_fold. unfold view, patches_of, DeltaSnapshot.levels_newest_first. cbn.
  rewrite !map_map. done.
Qed.

Lemma level_patch_wf m d n : memtable_wf m → Memtable.node_patch d m = Some n → delta_wf n.
Proof.
  intros (_ & Hn & _). unfold Memtable.node_patch. destruct (by_dense m !! d) as [ck|]; [|done]. cbn.
  destruct (nodes m !! ck) as [e|] eqn:He; [|done]. intros [= <-].
  by destruct (inv_entry _ _ _ _ _ _ _ Hn _ _ He) as (_ & _ & _ & ?).
Qed.

Lemma levels_patch_wf ls d nd : Forall memtable_wf ls →
  fold_newest (map (Memtable.node_patch d) ls) = Some nd → delta_wf nd.
Proof.
  revert nd. induction ls as [|m ls IH]; intros nd Hls; [done|]. inversion Hls as [|? ? Hm Hls']; subst. cbn.
  fold (fold_newest (map (Memtable.node_patch d) ls)).
  pose proof (level_patch_wf m d) as Hw.
  destruct (Memtable.node_patch d m) as [n|], (fold_newest _) as [b|] eqn:E; cbn; intros [= <-]; auto.
  apply fold_newer_wf; auto.
Qed.

(** The new level in place and part of the log left, oldest segments gone. *)
Lemma half_flushed st uuid wal l0 first cs logs acked ls j : sound cipher core_node_count core_edge_count st →
  durable cipher core_node_count core_edge_count (inner st) first cs logs acked ls →
  let recs := log_records (concat (logs ++ [acked])) in
  node_log recs → 2 * zlen recs <= 2 ^ 32 →
  holds cipher wal l0 (concat (drop j (logs ++ [acked]))) (ls ++ [(next_level ls, w_mem (inner st))]) →
  next_segment_number (walk wal) + 1 < 2 ^ 63 →
  ∃ st2, (DeltaWriter.open cipher true true uuid core_node_count core_edge_count wal l0 [] []).1 = Ok st2 ∧
    ∀ d, d < Memtable.synthetic_base (w_mem (inner st)) + Memtable.born_count (w_mem (inner st)) →
      DeltaSnapshot.node_patch d (DeltaWriter.delta_snapshot st2)
      = DeltaSnapshot.node_patch d (DeltaWriter.delta_snapshot st).
Proof.
  intros [_ Hm Hr Hk Hlw Hp] Hd recs Hlog Hlen Hh Hmax. pose proof Hd as [_ _ Hlv Hmem _].
  rewrite <- concat_snoc in Hmem. pose proof (replayed_bases _ _ _ _ _ Hmem) as Hb.
  assert (recs = log_records (concat (take j (logs ++ [acked]))) ++ log_records (concat (drop j (logs ++ [acked])))) as Erecs.
  { by rewrite <- log_records_app, <- concat_app, take_drop. }
  assert (above core_node_count core_edge_count ls
    = with_bases (Memtable.synthetic_base (w_mem (inner st))) (Memtable.edge_synthetic_base (w_mem (inner st)))) as Ea.
  { unfold bases, above in *. destruct (DeltaWriter.bases_past _ _ _) as [n e]. cbn in Hb. by injection Hb as -> ->. }
  assert (map snd (stack ls) = levels st) as Elv by (unfold levels; by rewrite Hlv).
  unfold replayed in Hmem. rewrite Ea, Elv in Hmem. fold recs in Hmem. rewrite Erecs in Hmem, Hlog, Hlen.
  set (nb := Memtable.synthetic_base (w_mem (inner st)) + Memtable.born_count (w_mem (inner st))).
  set (eb := Memtable.edge_synthetic_base (w_mem (inner st)) + Memtable.born_edge_count (w_mem (inner st))).
  destruct (suffix_replay_absorbed (levels st) _ _ _ eb _ _ _ Hlog Hk Hlen eq_refl Hmem)
    as (final' & Ef & _ & Hmf & Habs).
  pose proof (open_restores cipher core_node_count core_edge_count true uuid wal l0 _ _ final' [] [] Hh) as Ho.
  unfold replayed in Ho. rewrite <- (above_snoc _ _ _ _ _ Hb), stack_snoc in Ho. cbn [map snd] in Ho.
  rewrite Elv in Ho. fold nb eb in Ho. specialize (Ho Ef Hmax).
  destruct (DeltaWriter.open cipher true true uuid core_node_count core_edge_count wal l0 [] []).1 as [st2|]; [|done].
  destruct Ho as (_ & _ & _ & Hpub & _). exists st2. split; [done|]. intros d Hlt.
  unfold DeltaWriter.delta_snapshot. rewrite Hpub, Hp, view_published. cbn [p_delta]. unfold abs.
  rewrite !view_patch. cbn [map snd]. rewrite Elv. cbn [map].
  change (fold_newest (?x :: ?xs)) with (DeltaSnapshot.fold_patch (fold_newest xs) x).
  destruct (Memtable.node_patch d final') as [n|] eqn:En; [|done].
  destruct (Habs d n Hlt En) as (x & Ex & Hab & Et). rewrite Ex.
  apply absorbs_levels; try done.
  - intros b Hbelow. destruct Hlw as [Hlw _]. by eapply levels_patch_wf.
  - exact (level_patch_wf _ _ _ Hm Ex).
  - exact (level_patch_wf _ _ _ Hmf En).
Qed.

End crash.

(** * Witnesses *)

Section witnesses.
#[local] Existing Instance toy_crypto.
#[local] Existing Instance toy_crypto_laws.
#[local] Existing Instance example_layout.
#[local] Existing Instance numbered_walk.
#[local] Existing Instance example_probe.
#[local] Existing Instance all_keys.

(** The disk just after the rotation: the level is in place and the log still there. *)
Definition example_disk : Disk :=
  match disks example_flushed !! 1%nat with Some d => d | None => mkDisk ∅ [] ∅ end.

Definition example_wal : dir :=
  match d_open example_disk with
  | (name, e) :: _ => <[name := e.2]> (d_closed example_disk)
  | [] => ∅
  end.

Lemma example_crash : crash example_disk example_wal (d_l0 example_disk).
Proof.
  split; [done|]. unfold example_wal. destruct (d_open example_disk) as [|[name [y w]] fs] eqn:E; [by vm_compute in E|].
  assert (fs = [] ∧ w = WAL_MAGIC) as [-> ->] by (vm_compute in E; injection E as _ _ <- <-; done).
  exists WAL_MAGIC. split; [split; [done|by intros p _ ?]|]. split; [by right|constructor].
Qed.

Lemma example_gapless : gapless example_wal.
Proof.
  intros a b c H0 Hab Hc Ha Hcc.
  assert (∀ x, 0 <= x < 2 ^ 64 → is_Some (example_wal !! segment_file_name x) → x = 0 ∨ x = 1) as Hx.
  { intros x Hx [y Hy]. apply elem_of_dom_2 in Hy.
    assert (dom example_wal = {[segment_file_name 0; segment_file_name 1]}) as E
      by (apply (bool_decide_unpack _); vm_compute; exact I).
    rewrite E, elem_of_union, !elem_of_singleton in Hy.
    destruct Hy as [Hy|Hy]; apply segment_file_name_inj in Hy; unfold is_u64; auto; lia. }
  apply Hx in Ha as Ha'; [|lia]. apply Hx in Hcc as Hc'; [|lia].
  assert (b = a ∨ b = c) as [-> | ->] by lia; done.
Qed.

End witnesses.
