(* ===== verification/WriterLimits.v ===== *)
(** Where the writer's durability ends: runs of the code, evaluated.

    Each theorem follows the writer from its first start through calls that all do what the
    model of [delta_writer.rs] says, and exhibits a state that differs after a restart, or a
    restart that is refused. *)

From S2P Require Import Prelude Values Wire Crypto Seal Identity WalCodec WalReplay WalSink.
From S2P Require Import NodeDelta Memtable MemtableInv MemtableApply MemtableCodec L0Segment.
From S2P Require Import Snapshot DeltaFold Compaction Resolve TouchedJournal DeltaWriter WriterDisk.
From S2P Require Import WriterInv WriterFlush WriterSafety.

(** The directory a crash leaves when everything written is still there. *)
Definition whole_wal (d : Disk) : dir :=
  match d_open d with
  | (name, e) :: _ => <[name := e.2]> (d_closed d)
  | [] => d_closed d
  end.

Lemma whole_crash d name y w : d_open d = [(name, (y, w))] → untorn w → crash d (whole_wal d) (d_l0 d).
Proof.
  intros E Hu. split; [done|]. unfold whole_wal. rewrite E. exists w. split; [split; [done|by intros p _ ?]|].
  split; [done|]. constructor.
Qed.

Definition untorn_b (c : bytes) : bool := bool_decide (c = []) || (8 <=? zlen c).

(** A disk with one file open, which a crash may leave whole. *)
Definition whole_b (d : Disk) : bool := match d_open d with [(_, (_, w))] => untorn_b w | _ => false end.

Lemma whole_b_crash d : whole_b d = true → crash d (whole_wal d) (d_l0 d).
Proof.
  unfold whole_b. destruct (d_open d) as [|[name [y w]] [|]] eqn:E; try done. intros H. eapply whole_crash; [done|].
  apply orb_true_iff in H as [H%bool_decide_eq_true|H%Z.leb_le]; [by left|by right].
Qed.

Section limits.
#[local] Existing Instance toy_crypto.
#[local] Existing Instance example_layout.
#[local] Existing Instance example_probe.

Section ordered.
Context {order : HashWalk}.

Definition first_start : DeltaWriter := state_of (DeltaWriter.open None true true 7 10 5 ∅ ∅ [] []).1.

(** The requests a graph serves, with the answers they got. *)
Inductive request :=
  | Write (op : WalOp)
  | Flush
  | Compact.

Definition serve (q : request) (st : DeltaWriter) : result bool * DeltaWriter :=
  match q with
  | Write op =>
      match DeltaWriter.write_batch example_nonce [(op, ResNode (Some 3))] st with
      | (Ok _, st) => (Ok true, st)
      | (Err e, st) => (Err e, st)
      end
  | Flush => DeltaWriter.flush_to_l0 None (example_nonce 0) st
  | Compact => DeltaWriter.compact_l0 None (example_nonce 0) st
  end.

Fixpoint serve_all (qs : list request) (st : DeltaWriter) : list (result bool) * DeltaWriter :=
  match qs with
  | [] => ([], st)
  | q :: qs =>
      let '(r, st) := serve q st in
      let '(rs, st) := serve_all qs st in
      (r :: rs, st)
  end.

Definition restart (wal l0 : dir) : result DeltaWriter :=
  (DeltaWriter.open None true true 7 10 5 wal l0 [] []).1.

Lemma restart_ok wal l0 :
  match restart wal l0 with Ok _ => true | Err _ => false end = true →
  restart wal l0 = Ok (state_of (restart wal l0)).
Proof. by destruct (restart wal l0). Qed.

(** What a reader finds for a property of the core node 3. *)
Definition read (k : str) (st : DeltaWriter) : option Value.t :=
  DeltaSnapshot.node_patch 3 (DeltaWriter.delta_snapshot st) ≫= λ n, patches n !! k.
End ordered.

Definition set_prop_op (k : string) (n : Z) : WalOp :=
  UpsertNode (lit "P") (lit "id") (Value.Int 1) [(lit k, Value.Int n)].
Definition delete_op : WalOp := DeleteNode (lit "P") (lit "id") (Value.Int 1).
End limits.

(** ** A crash during a compaction *)

Section compaction.
#[local] Existing Instance toy_crypto.
#[local] Existing Instance example_layout.
#[local] Existing Instance example_probe.
#[local] Existing Instance numbered_walk.

Definition three_levels : list request := [
  Write (set_prop_op "x" 1); Flush; Write (set_prop_op "x" 2); Flush; Write (set_prop_op "x" 3); Flush ].

(** A crash during a compaction can bring back an overwritten value.  Three levels set a
    property to 1, 2 and 3; the compaction writes their merge into the oldest one's file and
    removes the other two, newest first.  After a crash between the two removals the level
    that says 2 stands above the merge that says 3, and a restart reads 2. *)
Theorem compaction_crash_stale :
  let st := (serve_all three_levels first_start).2 in
  let st' := (serve Compact st).2 in
  (serve_all three_levels first_start).1 = replicate 6 (Ok true) ∧ (serve Compact st).1 = Ok true ∧
  read (lit "x") st = Some (Value.Int 3) ∧ read (lit "x") st' = Some (Value.Int 3) ∧
  ∃ d st2, d ∈ take (length (disks st') - length (disks st)) (disks st') ∧
    crash d (whole_wal d) (d_l0 d) ∧ restart (whole_wal d) (d_l0 d) = Ok st2 ∧
    read (lit "x") st2 = Some (Value.Int 2).
Proof.
  cbv zeta. split_and!; [vm_compute; reflexivity..|].
  set (st := (serve_all three_levels first_start).2). set (st' := (serve Compact st).2).
  set (d := match disks st' !! 1%nat with Some d => d | None => mkDisk ∅ [] ∅ end).
  exists d, (state_of (restart (whole_wal d) (d_l0 d))). split_and!.
  - apply (list_elem_of_lookup_2 _ 1). vm_compute. reflexivity.
  - apply whole_b_crash. vm_compute. reflexivity.
  - apply restart_ok. vm_compute. reflexivity.
  - vm_compute. reflexivity.
Qed.

(** ** A flush that fails half way *)

Definition fails_at (n : nat) : list (option nat) := replicate n None ++ [Some O].

(** A flush refused after its level was written leaves the level behind.  The writer goes
    on without it: the node is deleted and written anew, and the property set before is gone.
    After a restart the left-over level is read again, and the property with it. *)
Theorem failed_flush_resurfaces :
  let st := (serve (Write (set_prop_op "x" 7)) first_start).2 in
  let failed := serve Flush (set_sched (fails_at 8) st) in
  let later := serve_all [Write delete_op; Write (set_prop_op "y" 1)] failed.2 in
  let d := disk_of (inner later.2) in
  failed.1 = Err IoError ∧ later.1 = replicate 2 (Ok true) ∧
  w_mem (inner failed.2) = w_mem (inner st) ∧ w_l0 (inner failed.2) = [] ∧
  read (lit "x") later.2 = None ∧ read (lit "y") later.2 = Some (Value.Int 1) ∧
  crash d (whole_wal d) (d_l0 d) ∧
  ∃ st', restart (whole_wal d) (d_l0 d) = Ok st' ∧ read (lit "x") st' = Some (Value.Int 7).
Proof.
  cbv zeta. split_and!; [vm_compute; reflexivity..| |].
  - apply whole_b_crash. vm_compute. reflexivity.
  - eexists. split; [apply restart_ok|]; vm_compute; reflexivity.
Qed.
End compaction.

(** ** A crash while a flush removes the log *)

Section gap.
#[local] Existing Instance toy_crypto.
#[local] Existing Instance example_layout.
#[local] Existing Instance example_probe.

(** A directory listed in descending order. *)
Definition descending_walk : HashWalk.
Proof.
  refine {| walk K A _ _ m := rev (@walk numbered_walk K A _ _ m) |}.
  intros K A ? ? m. rewrite <- (walk_perm (HashWalk := numbered_walk)). symmetry. apply Permutation_rev.
Defined.

#[local] Existing Instance descending_walk.

(** A crash while a flush removes the log can leave a log that will not open.  The
    segments are removed in the order the directory lists them.  With two of them listed
    newest first, a crash after the first removal leaves segments 0 and 2, and the restart
    refuses the gap although every write is in the level already. *)
Theorem flush_crash_gap :
  let st := (serve (Write (set_prop_op "x" 1)) first_start).2 in
  let d := disk_of (inner st) in
  let again := restart (whole_wal d) (d_l0 d) in
  let st2 := (serve (Write (set_prop_op "x" 2)) (state_of again)).2 in
  let flushed := serve Flush st2 in
  crash d (whole_wal d) (d_l0 d) ∧ again = Ok (state_of again) ∧
  flushed.1 = Ok true ∧ read (lit "x") flushed.2 = Some (Value.Int 2) ∧
  ∃ d', d' ∈ take (length (disks flushed.2) - length (disks st2)) (disks flushed.2) ∧
    crash d' (whole_wal d') (d_l0 d') ∧
    restart (whole_wal d') (d_l0 d') = Err (Bail "WAL dir is missing segments").
Proof.
  cbv zeta. split_and!; [apply whole_b_crash; vm_compute; reflexivity|apply restart_ok; vm_compute; reflexivity
    |vm_compute; reflexivity..|].
  match goal with |- context [disks ?f] => set (ds := disks f) end.
  exists (match ds !! 1%nat with Some d => d | None => mkDisk ∅ [] ∅ end). split_and!.
  - apply (list_elem_of_lookup_2 _ 1). vm_compute. reflexivity.
  - apply whole_b_crash. vm_compute. reflexivity.
  - vm_compute. reflexivity.
Qed.

(** A segment whose magic never reached the disk whole is refused as well: the file is created
    and its eight bytes written before anything is synced. *)
Lemma torn_magic_refused :
  map (λ n, match restart {[segment_file_name 0 := take n WAL_MAGIC]} ∅ with Ok _ => true | Err _ => false end) (List.seq 0 9)
  = [true; false; false; false; false; false; false; false; true].
Proof. vm_compute. reflexivity. Qed.

(** The sequence number is not monotonic across a flush and a restart: with the log gone it
    starts at 0 again. *)
Lemma sequence_restarts :
  let st := (serve_all [Write (set_prop_op "x" 1); Flush] first_start).2 in
  let d := disk_of (inner st) in
  crash d (whole_wal d) (d_l0 d) ∧ w_seq (inner st) = 1 ∧
  w_seq (inner (state_of (restart (whole_wal d) (d_l0 d)))) = 0.
Proof. cbv zeta. split_and!; [apply whole_b_crash|..]; vm_compute; reflexivity. Qed.
End gap.

(** ** A flush between the resolution of a write and the write *)

Section race.
#[local] Existing Instance toy_crypto.
#[local] Existing Instance example_layout.
#[local] Existing Instance example_probe.
#[local] Existing Instance numbered_walk.

Definition born_key : NodeKey := (lit "P", lit "id", Value.Int 2).
Definition set_born (k : string) (n : Z) : WalOp := UpsertNode born_key.1.1 born_key.1.2 born_key.2 [(lit k, Value.Int n)].

Definition merge_born (k : string) (n : Z) (r : option Z) (st : DeltaWriter) : DeltaWriter :=
  (DeltaWriter.write_batch example_nonce [(set_born k n, ResNode r)] st).2.

Definition resolve_at (st : DeltaWriter) : result (option Z) :=
  resolve_node_op (w_mem (inner st)) (levels st) born_key true true.

(** A write is resolved before the writer's lock is taken, so a flush can fall between the
    resolution and the write.  A merge of a node that is in the memtable resolves to no id, the
    flush seals the node into a level, and the write then allocates a second id under the same
    key.  The node is there twice until a restart, which replays the write onto the first. *)
Theorem resolve_flush_race :
  let st := merge_born "x" 1 None first_start in
  let st' := merge_born "y" 2 None (serve Flush st).2 in
  let d := disk_of (inner st') in
  resolve_at st = Ok None ∧ (serve Flush st).1 = Ok true ∧
  map (λ id, DeltaSnapshot.node_identity_by_dense id (DeltaWriter.delta_snapshot st')) [10; 11] =
    [Some born_key; Some born_key] ∧
  crash d (whole_wal d) (d_l0 d) ∧
  ∃ st2, restart (whole_wal d) (d_l0 d) = Ok st2 ∧
    map (λ id, DeltaSnapshot.node_identity_by_dense id (DeltaWriter.delta_snapshot st2)) [10; 11] =
      [Some born_key; None].
Proof.
  cbv zeta. split_and!; [vm_compute; reflexivity..|apply whole_b_crash; vm_compute; reflexivity|].
  eexists. split; [apply restart_ok|]; vm_compute; reflexivity.
Qed.
End race.
