(* ===== verification/Statement.v ===== *)
(** Write statements and the log operations they mean: the expressions and statements of
    [slater/src/parser.rs] that a write may hold, the runtime values of [slater/src/exec.rs],
    and of [slater/src/server/write.rs] the evaluation of a write's values and the folding of
    its items into operations.

    A closure of the source ([eval], [eval_map]) is a function argument; the string it takes to
    name a value in an error message is left out. *)

From Stdlib Require Import SpecFloat.
From S2P Require Import Prelude Values Wire Identity WalCodec NodeDelta Memtable MemtableInv MemtableApply.

(** * Runtime values *)

Module Val.
Inductive t :=
  | Null
  | Bool (b : bool)
  | Int (i : Z)
  | Float (bits : Z)
  | Str (s : str)
  | List (l : list t)
  | Vector (xs : list Z)
  | Map (m : list (str * t))
  | Node (id : Z)
  | Rel (id start stop reltype : Z)
  | Path (nodes : list Z) (rels : list t)
  | Point (latitude longitude : Z)
  | Date (secs : Z)
  | Time (secs : Z)
  | DateTime (secs : Z)
  | Duration (secs : Z).

Fixpoint from_value (v : Value.t) : t :=
  match v with
  | Value.Null => Null
  | Value.Bool b => Bool b
  | Value.Int i => Int i
  | Value.Float f => Float f
  | Value.Str s => Str s
  | Value.List xs => List (map from_value xs)
  | Value.Vector xs => Vector xs
  end.
End Val.

(** [iter().map(f).collect::<Option<Vec<_>>>()]. *)
Definition collect_opt {A B} (f : A → option B) : list A → option (list B) :=
  fix go xs :=
    match xs with
    | [] => Some []
    | x :: xs => y ← f x; ys ← go xs; Some (y :: ys)
    end.

Fixpoint val_to_value (v : Val.t) : option Value.t :=
  match v with
  | Val.Null => Some Value.Null
  | Val.Bool b => Some (Value.Bool b)
  | Val.Int i => Some (Value.Int i)
  | Val.Float f => Some (Value.Float f)
  | Val.Str s => Some (Value.Str s)
  | Val.Vector xs => Some (Value.Vector xs)
  | Val.List xs => Value.List <$> collect_opt val_to_value xs
  | _ => None
  end.

(** * Floats *)

(** The value of an [f64], and the bits of an [f32].  A NaN has the bits of the quiet one. *)
Definition f64_value (bits : Z) : spec_float :=
  let s := Z.testbit bits 63 in
  let e := Z.land (Z.shiftr bits 52) (Z.ones 11) in
  let f := Z.land bits (Z.ones 52) in
  if e =? 2047 then (if f =? 0 then S754_infinity s else S754_nan)
  else
    let m := if e =? 0 then f else f + 2 ^ 52 in
    match m with
    | Zpos p => S754_finite s p (Z.max e 1 - 1075)
    | _ => S754_zero s
    end.

Definition f32_bits (x : spec_float) : Z :=
  let sign (s : bool) := if s then 2 ^ 31 else 0 in
  match x with
  | S754_zero s => sign s
  | S754_infinity s => sign s + Z.shiftl 255 23
  | S754_nan => Z.shiftl 511 22
  | S754_finite s m e =>
      sign s + (if Zpos m <? 2 ^ 23 then Zpos m else Z.shiftl (e + 150) 23 + (Zpos m - 2 ^ 23))
  end.

(** [n as f32]: round to nearest, ties to even, and past the greatest float to infinity. *)
Definition f64_as_f32 (bits : Z) : Z :=
  f32_bits
    match f64_value bits with
    | S754_finite s m e => binary_normalize 24 128 (if s then Zneg m else Zpos m) e s
    | x => x
    end.

Definition f32_is_finite (bits : Z) : bool := negb (Z.land (Z.shiftr bits 23) (Z.ones 8) =? 255).

Definition finite_f32 (value : Z) : result Z :=
  if f32_is_finite value then Ok value else Err (Bail "embedding component is not finite").

(** [==] on values: floats by their value, so a NaN is not equal to itself and the zeros are
    equal. *)
Definition float_eqb (w mant a b : Z) : bool :=
  let magnitude x := Z.land x (Z.ones (w - 1)) in
  let infinity := Z.shiftl (Z.ones (w - 1 - mant)) mant in
  if (infinity <? magnitude a) || (infinity <? magnitude b) then false
  else (a =? b) || ((magnitude a =? 0) && (magnitude b =? 0)).

Fixpoint list_eqb {A} (eq : A → A → bool) (a b : list A) : bool :=
  match a, b with
  | [], [] => true
  | x :: a, y :: b => eq x y && list_eqb eq a b
  | _, _ => false
  end.

Fixpoint value_eqb (a b : Value.t) {struct a} : bool :=
  match a, b with
  | Value.Null, Value.Null => true
  | Value.Bool a, Value.Bool b => Bool.eqb a b
  | Value.Int a, Value.Int b => a =? b
  | Value.Float a, Value.Float b => float_eqb 64 52 a b
  | Value.Str a, Value.Str b => bool_decide (a = b)
  | Value.List a, Value.List b =>
      (fix go (a b : list Value.t) : bool :=
         match a, b with
         | [], [] => true
         | x :: a, y :: b => value_eqb x y && go a b
         | _, _ => false
         end) a b
  | Value.Vector a, Value.Vector b => list_eqb (float_eqb 32 23) a b
  | _, _ => false
  end.

(** * Expressions *)

(** The shapes of [Expr] a write looks at.  [Function] has its arguments, or [None] for the
    star; every other shape is [OtherExpr]. *)
Inductive Expr :=
  | Literal (v : Value.t)
  | Param (name : str)
  | Var (name : str)
  | Property (base : Expr) (field : str)
  | Function (name : str) (args : option (list Expr))
  | OtherExpr.

Fixpoint is_param_path (e : Expr) : bool :=
  match e with
  | Param _ => true
  | Property base _ => is_param_path base
  | _ => false
  end.

Definition ascii_lower (c : Z) : Z := if (65 <=? c) && (c <=? 90) then c + 32 else c.

Definition as_vecf32_arg (e : Expr) : option Expr :=
  match e with
  | Function name (Some [a]) => if decide (map ascii_lower name = lit "vecf32") then Some a else None
  | _ => None
  end.

(** [m.iter().find(|(k, _)| k == field)], [Null] when there is none. *)
Fixpoint map_field (field : str) (m : list (str * Val.t)) : Val.t :=
  match m with
  | [] => Val.Null
  | (k, v) :: m => if decide (k = field) then v else map_field field m
  end.

(** [iter().map(f).collect::<Result<Vec<_>, _>>()]. *)
Definition collect_res {A B} (f : A → result B) : list A → result (list B) :=
  fix go xs :=
    match xs with
    | [] => Ok []
    | x :: xs => y ← f x; ys ← go xs; Ok (y :: ys)
    end.

Definition coerce_component (x : Value.t) : result Z :=
  match x with
  | Value.Float f => finite_f32 (f64_as_f32 f)
  | Value.Int i => finite_f32 (f64_as_f32 (Value.i64_as_f64 i))
  | _ => Err (Bail "vecf32() elements must be numbers")
  end.

Definition coerce_vecf32 (v : Value.t) : result Value.t :=
  match v with
  | Value.Vector _ => Ok v
  | Value.List items => out ← collect_res coerce_component items; Ok (Value.Vector out)
  | _ => Err (Bail "vecf32() needs a list of numbers")
  end.

Definition storable (v : Val.t) : result Value.t :=
  match val_to_value v with
  | Some v => Ok v
  | None => Err (Bail "not a storable scalar value")
  end.

Section eval.
Variable params : gmap str Val.t.

Definition param_val (name : str) : result Val.t :=
  match params !! name with
  | Some v => Ok v
  | None => Err (Bail "parameter was not supplied")
  end.

(** The last arm is the [unreachable!] of the source. *)
Fixpoint param_path_val (e : Expr) : result Val.t :=
  match e with
  | Param name => param_val name
  | Property base field =>
      v ← param_path_val base;
      match v with
      | Val.Map m => Ok (map_field field m)
      | Val.Null => Ok Val.Null
      | _ => Err (Bail "reads a field of a parameter that is not a map")
      end
  | _ => Err (Panic "non-constant")
  end.

Definition write_value (e : Expr) : result Value.t :=
  match as_vecf32_arg e with
  | Some arg => val ← param_path_val arg; v ← storable val; coerce_vecf32 v
  | None =>
      match e with
      | Literal v => Ok v
      | _ => val ← param_path_val e; storable val
      end
  end.

Definition eval_row_val (var : str) (row : Val.t) (e : Expr) : result Val.t :=
  match e with
  | Literal v => Ok (Val.from_value v)
  | Param name => param_val name
  | Var v =>
      if decide (v = var) then Ok row
      else Err (Bail "must be a literal, a parameter, or a field of the row in a batched write")
  | Property base field =>
      let path :=
        if is_param_path e then param_path_val e
        else Err (Bail "may reference only the UNWIND variable or a parameter") in
      match base with
      | Var v =>
          if decide (v = var) then
            match row with
            | Val.Map m => Ok (map_field field m)
            | _ => Err (Bail "the UNWIND row is not a map")
            end
          else path
      | _ => path
      end
  | _ => Err (Bail "must be a literal, a parameter, or a field of the row in a batched write")
  end.

Fixpoint eval_row_value (var : str) (row : Val.t) (e : Expr) {struct e} : result Value.t :=
  let plain := val ← eval_row_val var row e; storable val in
  match e with
  | Function name (Some [arg]) =>
      if decide (map ascii_lower name = lit "vecf32")
      then v ← eval_row_value var row arg; coerce_vecf32 v
      else plain
  | _ => plain
  end.
End eval.

(** * Statements *)

Inductive SetItem :=
  | SetProp (prop : str) (value : Expr)
  | ReplaceMap (m : list (str * Expr))
  | MergeMap (m : list (str * Expr))
  | ReplaceParam (e : Expr)
  | MergeParam (e : Expr)
  | AddLabels (labels : list str).

Inductive RemoveItem :=
  | RemoveProp (prop : str)
  | RemoveLabels (labels : list str).

Inductive WriteOp :=
  | WSet (items : list SetItem)
  | WRemove (items : list RemoveItem)
  | WDelete (detach : bool) (targets : list str).

(** The [RETURN] clause is of the executor; a write only asks whether there is one. *)
Record WriteStmt {R : Type} := mkWriteStmt {
  s_var : str;
  s_label : str;
  s_key : str;
  s_key_value : Expr;
  s_upsert : bool;
  s_op : WriteOp;
  s_on_create : list SetItem;
  s_on_match : list SetItem;
  s_ret : option R;
  s_unwind : option (Expr * str);
}.
#[global] Arguments WriteStmt : clear implicits.
#[global] Arguments mkWriteStmt {R}.

Record CreateStmt {R : Type} := mkCreateStmt {
  c_var : str;
  c_label : str;
  c_props : list (str * Expr);
  c_ret : option R;
}.
#[global] Arguments CreateStmt : clear implicits.
#[global] Arguments mkCreateStmt {R}.

Record EndpointPat := mkEndpoint { ep_label : str; ep_key : str; ep_value : Expr }.

Inductive EdgeWriteOp := EdgeCreate | EdgeDelete.

Record EdgeWriteStmt {R : Type} := mkEdgeStmt {
  es_src : EndpointPat;
  es_reltype : str;
  es_dst : EndpointPat;
  es_op : EdgeWriteOp;
  es_key : option (str * Expr);
  es_sets : list SetItem;
  es_rel_var : option str;
  es_ret : option R;
  es_unwind : option (Expr * str);
}.
#[global] Arguments EdgeWriteStmt : clear implicits.
#[global] Arguments mkEdgeStmt {R}.

(** * From items to operations *)

Definition map_val_to_patches (v : Val.t) : result (list (str * Value.t)) :=
  match v with
  | Val.Map entries => collect_res (λ '(k, val), value ← storable val; Ok (k, value)) entries
  | _ => Err (Bail "must be a map")
  end.

Section items.
Variables (eval : Expr → result Value.t) (eval_map : Expr → result Val.t).

Definition replace_map_patches (m : list (str * Expr)) : result (list (str * Value.t)) :=
  collect_res (λ '(k, e), v ← eval e; Ok (k, v)) m.

(** The state of the loop over the items: the operations so far, the pending patches and the
    labels to add. *)
Record SetFold := mkSetFold {
  sf_ops : list WalOp;
  sf_pending : list (str * Value.t);
  sf_labels : list str;
}.

Section anchor.
Variables (label key : str) (value : Value.t).

Definition fold_set_item (s : SetFold) (item : SetItem) : result SetFold :=
  match item with
  | SetProp prop e =>
      v ← eval e;
      Ok (mkSetFold (sf_ops s) (sf_pending s ++ [(prop, v)]) (sf_labels s))
  | MergeMap m =>
      patches ← replace_map_patches m;
      Ok (mkSetFold (sf_ops s) (sf_pending s ++ patches) (sf_labels s))
  | ReplaceMap m =>
      patches ← replace_map_patches m;
      Ok (mkSetFold (sf_ops s ++ [ReplaceNode label key value patches]) [] (sf_labels s))
  | MergeParam e =>
      v ← eval_map e;
      patches ← map_val_to_patches v;
      Ok (mkSetFold (sf_ops s) (sf_pending s ++ patches) (sf_labels s))
  | ReplaceParam e =>
      v ← eval_map e;
      patches ← map_val_to_patches v;
      Ok (mkSetFold (sf_ops s ++ [ReplaceNode label key value patches]) [] (sf_labels s))
  | AddLabels labels => Ok (mkSetFold (sf_ops s) (sf_pending s) (sf_labels s ++ labels))
  end.

Fixpoint fold_set_loop (items : list SetItem) (s : SetFold) : result SetFold :=
  match items with
  | [] => Ok s
  | item :: items => s ← fold_set_item s item; fold_set_loop items s
  end.

Definition fold_set_items (items : list SetItem) (ensure_nonempty : bool) : result (list WalOp) :=
  s ← fold_set_loop items (mkSetFold [] [] []);
  let ops := sf_ops s in
  let ops := if sf_pending s is [] then ops else ops ++ [UpsertNode label key value (sf_pending s)] in
  let ops := if sf_labels s is [] then ops else ops ++ [SetNodeLabels label key value (sf_labels s) []] in
  Ok (match ops with [] => if ensure_nonempty then [UpsertNode label key value []] else [] | _ => ops end).

Fixpoint remove_loop (items : list RemoveItem) (props labels : list str) : result (list str * list str) :=
  match items with
  | [] => Ok (props, labels)
  | RemoveProp p :: items =>
      if decide (p = key) then Err (Bail "cannot REMOVE the business-key property")
      else remove_loop items (props ++ [p]) labels
  | RemoveLabels ls :: items => remove_loop items props (labels ++ ls)
  end.

Definition build_node_wal_ops (op : WriteOp) : result (list WalOp) :=
  match op with
  | WSet items => fold_set_items items true
  | WRemove items =>
      '(props, removed) ← remove_loop items [] [];
      Ok ((if props is [] then [] else [RemoveNodeProps label key value props]) ++
          (if removed is [] then [] else [SetNodeLabels label key value [] removed]))
  | WDelete _ _ => Ok [DeleteNode label key value]
  end.
End anchor.

Fixpoint edge_set_patches (items : list SetItem) (patches : list (str * Value.t)) (replace : bool) :
    result (list (str * Value.t) * bool) :=
  match items with
  | [] => Ok (patches, replace)
  | SetProp prop e :: items => v ← eval e; edge_set_patches items (patches ++ [(prop, v)]) replace
  | MergeMap m :: items => ps ← replace_map_patches m; edge_set_patches items (patches ++ ps) replace
  | ReplaceMap m :: items => ps ← replace_map_patches m; edge_set_patches items ps true
  | MergeParam e :: items =>
      v ← eval_map e; ps ← map_val_to_patches v; edge_set_patches items (patches ++ ps) replace
  | ReplaceParam e :: items =>
      v ← eval_map e; ps ← map_val_to_patches v; edge_set_patches items ps true
  | AddLabels _ :: _ => Err (Bail "relationships have a type, not labels")
  end.
End items.

(** * The meaning of a [SET] *)

Section meaning.
Variables (eval : Expr → result Value.t) (eval_map : Expr → result Val.t).
Variables (label key : str) (value : Value.t).

Definition set_all (ps : list (str * Value.t)) (f : str → option Value.t) : str → option Value.t :=
  foldl (λ f p, set_key p.1 (Some p.2) f) f ps.
Definition add_all (ls : list str) (f : str → bool) : str → bool := foldl (λ f l, set_key l true f) f ls.

(** The entries of a map right-hand side. *)
Definition map_entries (item : SetItem) : result (list (str * Value.t)) :=
  match item with
  | SetProp prop e => v ← eval e; Ok [(prop, v)]
  | MergeMap m | ReplaceMap m => replace_map_patches eval m
  | MergeParam e | ReplaceParam e => v ← eval_map e; map_val_to_patches v
  | AddLabels _ => Ok []
  end.

(** What one item says of the properties and labels of its node, where a replacement starts
    from the properties [blank]. *)
Definition item_from (blank : str → option Value.t) (w : view) (item : SetItem) : result view :=
  ps ← map_entries item;
  Ok match item with
     | ReplaceMap _ | ReplaceParam _ => mkView (alive w) (set_all ps blank) (vlabel w)
     | AddLabels ls => mkView (alive w) (vprop w) (add_all ls (vlabel w))
     | _ => mkView (alive w) (set_all ps (vprop w)) (vlabel w)
     end.

Fixpoint items_from (blank : str → option Value.t) (items : list SetItem) (w : view) : result view :=
  match items with
  | [] => Ok w
  | item :: items => w ← item_from blank w item; items_from blank items w
  end.

(** A replacement starts from nothing. *)
Definition items_view : list SetItem → view → result view := items_from (λ _, None).

Definition node_ops (ops : list WalOp) : list node_op := omap node_op_of ops.

(** The steps of the view, where a replacement starts from [blank]. *)
Definition step_from (blank : str → option Value.t) (core v : view) (o : node_op) : view :=
  match o with
  | OpReplace ps => mkView true (set_all ps blank) (vlabel v)
  | _ => spec_step core v o
  end.
Definition run_from (blank : str → option Value.t) (core v : view) (os : list node_op) : view :=
  foldl (step_from blank core) v os.

Lemma run_from_none core v os : run_from (λ _, None) core v os = spec_run core v os.
Proof.
  unfold run_from, spec_run. revert v. induction os as [|o os IH]; intros v; cbn; [done|]. rewrite IH. by destruct o.
Qed.

Section blank.
Variable blank : str → option Value.t.

(** The view the state of the loop stands for, from [v]. *)
Definition fold_view (core v : view) (s : SetFold) : view :=
  let base := run_from blank core v (node_ops (sf_ops s)) in
  mkView (alive v) (set_all (sf_pending s) (vprop base)) (add_all (sf_labels s) (vlabel base)).

Definition anchored (op : WalOp) : Prop :=
  node_key op = Some (label, key, value) ∧ op ≠ DeleteNode label key value ∧
  ∀ ns, op ≠ RemoveNodeProps label key value ns.

Lemma fold_view_ops core v ops op pending ls o : node_op_of op = Some o →
  fold_view core v (mkSetFold (ops ++ [op]) pending ls) =
  let base := step_from blank core (run_from blank core v (node_ops ops)) o in
  mkView (alive v) (set_all pending (vprop base)) (add_all ls (vlabel base)).
Proof.
  intros Ho. unfold fold_view, node_ops, run_from. cbn [sf_ops sf_pending sf_labels].
  rewrite omap_app, foldl_app. cbn [omap list_omap]. by rewrite Ho.
Qed.

(** One item is one step of the view. *)
Lemma fold_item_view core v s item : Forall anchored (sf_ops s) →
  match fold_set_item eval eval_map label key value s item, item_from blank (fold_view core v s) item with
  | Ok s', Ok w => fold_view core v s' = w ∧ Forall anchored (sf_ops s')
  | Err e, Err e' => e = e'
  | _, _ => False
  end.
Proof.
  intros Ha.
  assert (∀ ps, Forall anchored (sf_ops s ++ [ReplaceNode label key value ps])) as Hr
    by (intros ps; apply Forall_app; split; [done|]; by constructor).
  unfold item_from. destruct item as [p e|m|m|e|e|ls]; cbn [fold_set_item map_entries].
  - destruct (eval e); [|done]. split; [|done]. unfold fold_view, set_all. cbn. by rewrite foldl_app.
  - destruct (replace_map_patches eval m); [|done]. split; [|apply Hr]. by erewrite fold_view_ops by done.
  - destruct (replace_map_patches eval m); [|done]. split; [|done]. unfold fold_view, set_all. cbn. by rewrite foldl_app.
  - destruct (eval_map e) as [x|]; [|done]. cbn. destruct (map_val_to_patches x); [|done].
    split; [|apply Hr]. by erewrite fold_view_ops by done.
  - destruct (eval_map e) as [x|]; [|done]. cbn. destruct (map_val_to_patches x); [|done].
    split; [|done]. unfold fold_view, set_all. cbn. by rewrite foldl_app.
  - split; [|done]. unfold fold_view, add_all. cbn. by rewrite foldl_app.
Qed.

Lemma fold_loop_view core v items s : Forall anchored (sf_ops s) →
  match fold_set_loop eval eval_map label key value items s, items_from blank items (fold_view core v s) with
  | Ok s', Ok w => fold_view core v s' = w ∧ Forall anchored (sf_ops s')
  | Err e, Err e' => e = e'
  | _, _ => False
  end.
Proof.
  revert s. induction items as [|item items IH]; intros s Ha; cbn; [done|].
  pose proof (fold_item_view core v s item Ha) as H.
  destruct (fold_set_item _ _ _ _ _ s item) as [s'|], (item_from blank _ item) as [w|]; try done.
  destruct H as [<- Ha']. by apply IH.
Qed.

(** The operations the loop leaves show what its state stands for. *)
Definition closed_ops (s : SetFold) : list WalOp :=
  sf_ops s ++ (if sf_pending s is [] then [] else [UpsertNode label key value (sf_pending s)]) ++
    (if sf_labels s is [] then [] else [SetNodeLabels label key value (sf_labels s) []]).

Lemma fold_close core v s : Forall anchored (sf_ops s) →
  let w := run_from blank core v (node_ops (closed_ops s)) in
  vprop w = vprop (fold_view core v s) ∧ vlabel w = vlabel (fold_view core v s) ∧ Forall anchored (closed_ops s).
Proof.
  intros Ha. unfold closed_ops, fold_view, run_from, node_ops. rewrite omap_app, foldl_app.
  assert (∀ op, anchored op → Forall anchored [op]) as H1 by (intros; by constructor).
  assert (∀ ps, anchored (UpsertNode label key value ps)) as H2 by done.
  assert (∀ ls, anchored (SetNodeLabels label key value ls [])) as H3 by done.
  destruct (sf_pending s), (sf_labels s); cbn; split_and!; rewrite ?Forall_app; auto.
Qed.

Lemma run_alive core v ops : Forall anchored ops →
  alive (run_from blank core v (node_ops ops)) = if ops is [] then alive v else true.
Proof.
  intros Ha. destruct ops as [|op ops _] using rev_ind; [done|]. apply Forall_app in Ha as [_ [(Hk & Hd & _) _]%Forall_cons].
  unfold run_from, node_ops. rewrite omap_app, foldl_app. destruct ops; destruct op; cbn; try done; cbn in Hk; congruence.
Qed.

Lemma fold_set_items_closed items b : fold_set_items eval eval_map label key value items b =
  (s ← fold_set_loop eval eval_map label key value items (mkSetFold [] [] []);
   Ok (match closed_ops s with [] => if b then [UpsertNode label key value []] else [] | ops => ops end)).
Proof.
  unfold fold_set_items. destruct (fold_set_loop _ _ _ _ _ items _) as [s|]; [|done]. cbn. f_equal. unfold closed_ops.
  destruct (sf_pending s), (sf_labels s); rewrite ?app_nil_r, <- ?app_assoc; by destruct (sf_ops s).
Qed.

End blank.

Lemma fold_set_items_anchored items b ops :
  fold_set_items eval eval_map label key value items b = Ok ops → Forall anchored ops.
Proof.
  rewrite fold_set_items_closed. set (v := mkView true (λ _, None) (λ _, false)).
  pose proof (fold_loop_view (λ _, None) v v items (mkSetFold [] [] []) (Forall_nil_2 _)) as H.
  destruct (fold_set_loop _ _ _ _ _ items _) as [s|]; [|done]. destruct (items_from _ items _) as [w|]; [|done].
  destruct H as [_ Ha]. destruct (fold_close (λ _, None) v v s Ha) as (_ & _ & Hc). cbn. intros [= <-].
  destruct (closed_ops s); [|done]. destruct b; by repeat constructor.
Qed.
End meaning.

(** The same for a relationship, whose items are folded into one list of patches and the mark
    that they replace what was there.  A label is an error. *)
Definition edge_agrees (f : str → option Value.t) (items : list SetItem)
    (r : result (list (str * Value.t) * bool)) (w : result view) : Prop :=
  match r, w with
  | Ok (ps, rp), Ok w => vprop w = set_all ps (if rp then λ _, None else f)
  | Err e, Err e' => e = e' ∨ ∃ ls, AddLabels ls ∈ items
  | Err _, Ok _ => ∃ ls, AddLabels ls ∈ items
  | Ok _, Err _ => False
  end.

Lemma edge_agrees_cons f item items r w : edge_agrees f items r w → edge_agrees f (item :: items) r w.
Proof.
  assert ((∃ ls, AddLabels ls ∈ items) → ∃ ls, AddLabels ls ∈ item :: items) as H by (intros [? ?]; eexists; by right).
  destruct r as [[]|], w; cbn; try done. intros [->|?]; auto.
Qed.

Lemma set_all_app ps qs f : set_all (ps ++ qs) f = set_all qs (set_all ps f).
Proof. apply foldl_app. Qed.

Lemma edge_items_meaning eval eval_map items ps rp f ls :
  edge_agrees f items (edge_set_patches eval eval_map items ps rp)
    (items_view eval eval_map items (mkView true (set_all ps (if rp then λ _, None else f)) ls)).
Proof.
  revert ps rp ls. induction items as [|item items IH]; intros ps rp ls; [done|].
  destruct item as [p e|m|m|e|e|labels]; cbn; unfold items_view, item_from in *; cbn.
  - destruct (eval e) as [v|]; [|by left].  cbn [mbind result_bind]. rewrite <- set_all_app. apply edge_agrees_cons, IH.
  - destruct (replace_map_patches eval m) as [qs|]; [|by left]. apply edge_agrees_cons, (IH qs true).
  - destruct (replace_map_patches eval m) as [qs|]; [|by left]. cbn [mbind result_bind]. rewrite <- set_all_app.
    apply edge_agrees_cons, IH.
  - destruct (eval_map e) as [x|]; [|by left]. cbn. destruct (map_val_to_patches x) as [qs|]; [|by left].
    apply edge_agrees_cons, (IH qs true).
  - destruct (eval_map e) as [x|]; [|by left]. cbn. destruct (map_val_to_patches x) as [qs|]; [|by left].
    cbn [mbind result_bind]. rewrite <- set_all_app. apply edge_agrees_cons, IH.
  - destruct (items_from _ _ _ items _); cbn; [|right]; exists labels; by left.
Qed.

Lemma fold_set_items_from blank eval eval_map label key value items ensure_nonempty core v :
  alive v = true ∨ ensure_nonempty = true →
  match fold_set_items eval eval_map label key value items ensure_nonempty, items_from eval eval_map blank items v with
  | Ok ops, Ok w =>
      run_from blank core v (node_ops ops) = mkView true (vprop w) (vlabel w) ∧
      Forall (anchored label key value) ops ∧ (ensure_nonempty = true → ops ≠ [])
  | Err e, Err e' => e = e'
  | _, _ => False
  end.
Proof.
  intros Hv. rewrite fold_set_items_closed.
  pose proof (fold_loop_view eval eval_map label key value blank core v items (mkSetFold [] [] []) (Forall_nil_2 _)) as H.
  assert (fold_view blank core v (mkSetFold [] [] []) = v) as E by by destruct v. rewrite E in H.
  destruct (fold_set_loop _ _ _ _ _ items _) as [s|], (items_from _ _ blank items v) as [w|]; try done.
  destruct H as [<- Ha]. cbn [mbind result_bind].
  destruct (fold_close label key value blank core v s Ha) as (Hp & Hl & Hc).
  pose proof (run_alive label key value blank core v _ Hc) as Hal.
  rewrite <- Hp, <- Hl. destruct (closed_ops label key value s) as [|op ops].
  - destruct ensure_nonempty; [split_and!; try done; by constructor|].
    split_and!; try done. destruct Hv as [Hv|]; [|done]. destruct v. cbn in *. by subst.
  - cbn [node_ops omap list_omap] in *. split_and!; try done. by destruct (run_from _ _ _ _); cbn in *; subst.
Qed.

(** C33: One [SET] means its items in order.  The operations the items of a [SET] are folded into
    leave the node with the properties and labels that the items say, one after the other: an
    assignment sets, a map with [+=] merges, a map with [=] replaces every property, a label is
    added.  They all address the anchored node, none of them deletes it, and the node exists
    afterwards; where an item does not evaluate the statement is refused with its error. *)
Theorem set_items_meaning eval eval_map label key value items ensure_nonempty core v :
  alive v = true ∨ ensure_nonempty = true →
  match fold_set_items eval eval_map label key value items ensure_nonempty, items_view eval eval_map items v with
  | Ok ops, Ok w =>
      spec_run core v (node_ops ops) = mkView true (vprop w) (vlabel w) ∧
      Forall (anchored label key value) ops ∧ (ensure_nonempty = true → ops ≠ [])
  | Err e, Err e' => e = e'
  | _, _ => False
  end.
Proof.
  intros Hv. pose proof (fold_set_items_from (λ _, None) eval eval_map label key value items ensure_nonempty core v Hv) as H.
  unfold items_view. destruct (fold_set_items _ _ _ _ _ _ _) as [ops|], (items_from _ _ _ _ _); try done.
  by rewrite run_from_none in H.
Qed.

Lemma set_items_meaning_witness :
  let none := mkView false (λ _, None) (λ _, false) in
  let items := [SetProp (lit "x") (Literal (Value.Int 1)); AddLabels [lit "Q"];
                ReplaceMap [(lit "y", Literal (Value.Int 2))]; SetProp (lit "z") (Param (lit "p"))] in
  let params := {[lit "p" := Val.Int 3]} in
  match fold_set_items (write_value params) (param_path_val params) (lit "P") (lit "id") (Value.Int 1) items true with
  | Ok ops =>
      let w := spec_run none none (node_ops ops) in
      length ops = 3%nat ∧ alive w = true ∧ vlabel w (lit "Q") = true ∧
      map (vprop w) [lit "x"; lit "y"; lit "z"] = [None; Some (Value.Int 2); Some (Value.Int 3)]
  | Err _ => False
  end.
Proof.
  cbv zeta.
  pose proof (set_items_meaning (write_value {[lit "p" := Val.Int 3]}) (param_path_val {[lit "p" := Val.Int 3]})
    (lit "P") (lit "id") (Value.Int 1)
    [SetProp (lit "x") (Literal (Value.Int 1)); AddLabels [lit "Q"];
     ReplaceMap [(lit "y", Literal (Value.Int 2))]; SetProp (lit "z") (Param (lit "p"))] true
    (mkView false (λ _, None) (λ _, false)) (mkView false (λ _, None) (λ _, false)) (or_intror eq_refl)) as H.
  destruct (fold_set_items _ _ _ _ _ _ _) as [ops|] eqn:E; [|discriminate E].
  destruct (items_view _ _ _ _) as [w|] eqn:Ew; [|destruct H]. destruct H as (-> & _ & _).
  injection E as <-. injection Ew as <-. split_and!; reflexivity.
Defined.
