(* ===== verification/KeyProbe.v ===== *)
(** How the write path finds the core nodes a business key names: [resolve_business_key] and
    [resolve_business_keys_batch] of [slater/src/server/write.rs], the rows of a batched write
    they are asked for, [index_for] of [slater/src/plan.rs], and the fold of the core stack over
    an equality probe in [slater/src/segstack.rs].

    The range index of the base and the index fragment of a segment are interfaces: records of
    the probes they answer, with what their documentation says of them in [index_ok] and
    [fragment_ok]. *)

From S2P Require Import Prelude Values ValueOrder Wire Identity WalCodec Memtable Resolve Statement.

(** * Interfaces *)

(** [IsamReader]. *)
Record RangeIndex := mkRangeIndex {
  lookup_eq : Value.t → result (list Z);
  lookup_eq_sorted : list Value.t → result (list (list Z));
}.

(** The index part of a segment, per label and property. *)
Record Fragment := mkFragment {
  removals : str → str → list Z;
  may_hold_eq : str → str → Value.t → bool;
  frag_lookup_eq : str → str → Value.t → result (list Z);
  frag_lookup_eq_sorted : str → str → list Value.t → result (list (list Z));
}.

Record RangeIndexDesc := mkIndexDesc {
  ri_name : str;
  ri_node : bool;          (* [entity == EntityKind::Node] *)
  ri_label : str;
  ri_property : str;
}.

(** What of a generation the probes read: the declared indexes, the readers that are present,
    and the segments of the stack, oldest first, each with its fragment if it has one. *)
Record CoreIndexes := mkCoreIndexes {
  range_indexes : list RangeIndexDesc;
  index_readers : gmap str RangeIndex;
  segments : list (option Fragment);
}.

Definition ascending_keys (vs : list Value.t) : Prop :=
  StronglySorted (λ a b, Value.cmp_key a b = Lt) vs.

Record index_ok (ix : RangeIndex) : Prop := {
  ix_sweep : ∀ vs idss, ascending_keys vs → lookup_eq_sorted ix vs = Ok idss →
    Forall2 (λ v ids, lookup_eq ix v = Ok ids) vs idss;
  ix_equal : ∀ v v', exact v → exact v' → Value.cmp_key v v' = Eq → lookup_eq ix v = lookup_eq ix v';
}.

Record fragment_ok (fr : Fragment) : Prop := {
  fr_fence : ∀ l p v, may_hold_eq fr l p v = false → frag_lookup_eq fr l p v = Ok [];
  fr_sweep : ∀ l p vs hits, ascending_keys vs → frag_lookup_eq_sorted fr l p vs = Ok hits →
    Forall2 (λ v h, frag_lookup_eq fr l p v = Ok h) vs hits;
  fr_equal : ∀ l p v v', exact v → exact v' → Value.cmp_key v v' = Eq →
    frag_lookup_eq fr l p v = frag_lookup_eq fr l p v';
}.

(** * The core stack *)

(** [ids.retain(|id| removals.binary_search(id).is_err())]. *)
Definition suppress (removed ids : list Z) : list Z := filter (λ id, id ∉ removed) ids.

Fixpoint fold_index_eq (segs : list (option Fragment)) (ids : list Z) (label prop : str) (key : Value.t) :
    result (list Z) :=
  match segs with
  | [] => Ok ids
  | None :: segs => fold_index_eq segs ids label prop key
  | Some idx :: segs =>
      let ids := suppress (removals idx label prop) ids in
      ids ← (if may_hold_eq idx label prop key
             then hits ← frag_lookup_eq idx label prop key; Ok (ids ++ hits)
             else Ok ids);
      fold_index_eq segs ids label prop key
  end.

Fixpoint fold_index_eq_batch (segs : list (option Fragment)) (ids : list (list Z)) (label prop : str)
    (keys : list Value.t) : result (list (list Z)) :=
  match segs with
  | [] => Ok ids
  | None :: segs => fold_index_eq_batch segs ids label prop keys
  | Some idx :: segs =>
      let ids := map (suppress (removals idx label prop)) ids in
      hits ← frag_lookup_eq_sorted idx label prop keys;
      fold_index_eq_batch segs (zip_with (++) ids hits) label prop keys
  end.

(** * Probes *)

Section probes.
Variable gen : CoreIndexes.

Definition index_for (label prop : str) : option str :=
  ri_name <$> find (λ ri, ri_node ri && bool_decide (ri_property ri = prop) &&
    bool_decide (ri_label ri = label) && bool_decide (is_Some (index_readers gen !! ri_name ri)))
    (range_indexes gen).

Definition is_singleton : bool := match segments gen with [] => true | _ => false end.

Definition resolve_business_key (label key : str) (value : Value.t) : KeyResolution :=
  match index_for label key ≫= λ idx, index_readers gen !! idx with
  | None => Unindexed
  | Some reader =>
      match lookup_eq reader value with
      | Err _ => Unindexed
      | Ok ids =>
          if is_singleton then key_resolution ids
          else match fold_index_eq (segments gen) ids label key value with
               | Err _ => Unindexed
               | Ok ids => key_resolution (sort_dedup_ids ids)
               end
      end
  end.

Definition resolve_business_keys_batch (label key : str) (values : list Value.t) : list KeyResolution :=
  let unindexed := map (λ _, Unindexed) values in
  match index_for label key ≫= λ idx, index_readers gen !! idx with
  | None => unindexed
  | Some reader =>
      match lookup_eq_sorted reader values with
      | Err _ => unindexed
      | Ok ids =>
          if is_singleton then map key_resolution ids
          else match fold_index_eq_batch (segments gen) ids label key values with
               | Err _ => unindexed
               | Ok ids => map (λ v, key_resolution (sort_dedup_ids v)) ids
               end
      end
  end.

(** ** The rows of a batch *)

(** [order.sort_by(|&a, &b| key_values[a].cmp_key(&key_values[b]))], a stable sort, on the
    indices paired with their values. *)
Fixpoint insert_row (x : nat * Value.t) (l : list (nat * Value.t)) : list (nat * Value.t) :=
  match l with
  | [] => [x]
  | y :: l => if Value.cmp_key x.2 y.2 is Gt then y :: insert_row x l else x :: y :: l
  end.

Definition sort_rows (rows : list (nat * Value.t)) : list (nat * Value.t) := foldr insert_row [] rows.

(** The loop over the sorted rows: the distinct values and the slot of each row. *)
Fixpoint distinct_rows (order : list (nat * Value.t)) (distinct : list Value.t) (slots : list nat) :
    list Value.t * list nat :=
  match order with
  | [] => (distinct, slots)
  | (ri, v) :: order =>
      let fresh := match last distinct with Some l => negb (bool_decide (Value.cmp_key l v = Eq)) | None => true end in
      let distinct := if fresh then distinct ++ [v] else distinct in
      distinct_rows order distinct (<[ri := (length distinct - 1)%nat]> slots)
  end.

(** [None] is an index out of bounds. *)
Definition resolve_rows (label key : str) (key_values : list Value.t) : option (list KeyResolution) :=
  let '(distinct, slots) :=
    distinct_rows (sort_rows (zip (List.seq 0 (length key_values)) key_values)) [] (replicate (length key_values) 0%nat) in
  let resolved := resolve_business_keys_batch label key distinct in
  collect_opt (λ d, resolved !! d) slots.
End probes.

(** * What the fold finds *)

Definition stack_ok (segs : list (option Fragment)) : Prop := ∀ fr, Some fr ∈ segs → fragment_ok fr.

Record probes_ok (gen : CoreIndexes) : Prop := {
  po_readers : ∀ name ix, index_readers gen !! name = Some ix → index_ok ix;
  po_stack : stack_ok (segments gen);
}.

(** The fence only saves a read. *)
Lemma fold_unfenced fr segs ids label prop key : fragment_ok fr →
  fold_index_eq (Some fr :: segs) ids label prop key =
  (hits ← frag_lookup_eq fr label prop key;
   fold_index_eq segs (suppress (removals fr label prop) ids ++ hits) label prop key).
Proof.
  intros Hf. cbn [fold_index_eq]. destruct (may_hold_eq fr label prop key) eqn:E.
  - by destruct (frag_lookup_eq fr label prop key).
  - rewrite (fr_fence _ Hf _ _ _ E). cbn. by rewrite app_nil_r.
Qed.

Lemma stack_ok_cons s segs : stack_ok (s :: segs) → stack_ok segs ∧ ∀ fr, s = Some fr → fragment_ok fr.
Proof. intros H. split; [intros fr Hfr; apply H; by right|intros fr ->; apply H; by left]. Qed.

Lemma fold_equal segs ids label prop v v' : stack_ok segs → exact v → exact v' → Value.cmp_key v v' = Eq →
  fold_index_eq segs ids label prop v = fold_index_eq segs ids label prop v'.
Proof.
  intros Hs Hv Hv' E. revert ids. induction segs as [|[fr|] segs IH]; intros ids; [done| |];
    apply stack_ok_cons in Hs as [Hs Hf].
  - rewrite !fold_unfenced by auto. rewrite (fr_equal _ (Hf _ eq_refl) _ _ _ _ Hv Hv' E).
    destruct (frag_lookup_eq fr label prop v'); [|done]. cbn. by apply IH.
  - cbn. by apply IH.
Qed.

(** The sweep of a batch leaves in each slot what the point fold of its key leaves. *)
Lemma fold_batch_point segs label prop vs idss out : stack_ok segs → ascending_keys vs →
  length idss = length vs → fold_index_eq_batch segs idss label prop vs = Ok out →
  length out = length vs ∧
  ∀ i v ids, vs !! i = Some v → idss !! i = Some ids →
    ∃ o, out !! i = Some o ∧ fold_index_eq segs ids label prop v = Ok o.
Proof.
  intros Hs Hasc. revert idss. induction segs as [|[fr|] segs IH]; intros idss Hlen E.
  - injection E as <-. split; [done|]. intros i v ids _ Hi. by exists ids.
  - apply stack_ok_cons in Hs as [Hs Hf]. specialize (Hf _ eq_refl). cbn in E.
    destruct (frag_lookup_eq_sorted fr label prop vs) as [hits|] eqn:Eh; [|done]. cbn in E.
    pose proof (fr_sweep _ Hf _ _ _ _ Hasc Eh) as Hsw. pose proof (Forall2_length _ _ _ Hsw) as Hl.
    assert (length (zip_with (++) (map (suppress (removals fr label prop)) idss) hits) = length vs) as Hz
      by (rewrite length_zip_with, length_map; lia).
    destruct (IH Hs _ Hz E) as [Hout Hp]. split; [done|].
    intros i v ids Hv Hi. destruct (Forall2_lookup_l _ _ _ _ _ Hsw Hv) as (h & Hh & Eq).
    destruct (Hp i v (suppress (removals fr label prop) ids ++ h) Hv) as (o & Ho & Eo).
    { rewrite lookup_zip_with, list_lookup_fmap, Hi. cbn. by rewrite Hh. }
    exists o. split; [done|]. rewrite fold_unfenced by done. by rewrite Eq.
  - apply stack_ok_cons in Hs as [Hs _]. by apply IH.
Qed.

(** ** Probes of one key and of many *)

Section resolved.
Variables (gen : CoreIndexes) (label key : str).
Hypothesis Hgen : probes_ok gen.

Lemma reader_ok reader : index_for gen label key ≫= (λ idx, index_readers gen !! idx) = Some reader → index_ok reader.
Proof using Hgen. intros (idx & _ & H)%bind_Some. by eapply po_readers. Qed.

Lemma resolve_equal v v' : exact v → exact v' → Value.cmp_key v v' = Eq →
  resolve_business_key gen label key v = resolve_business_key gen label key v'.
Proof using Hgen.
  intros Hv Hv' E. unfold resolve_business_key.
  destruct (index_for gen label key ≫= _) as [reader|] eqn:Er; [|done].
  rewrite (ix_equal _ (reader_ok _ Er) _ _ Hv Hv' E). destruct (lookup_eq reader v'); [|done].
  by rewrite (fold_equal _ _ _ _ _ _ (po_stack _ Hgen) Hv Hv' E).
Qed.

(** A sweep that fails anywhere resolves nothing; one that succeeds resolves every key as its
    own probe does. *)
Lemma batch_pointwise vs : ascending_keys vs →
  resolve_business_keys_batch gen label key vs = map (λ _, Unindexed) vs ∨
  resolve_business_keys_batch gen label key vs = map (resolve_business_key gen label key) vs.
Proof using Hgen.
  intros Hasc. unfold resolve_business_keys_batch.
  destruct (index_for gen label key ≫= _) as [reader|] eqn:Er; [|by left].
  destruct (lookup_eq_sorted reader vs) as [idss|] eqn:El; [|by left].
  pose proof (ix_sweep _ (reader_ok _ Er) _ _ Hasc El) as Hsw. pose proof (Forall2_length _ _ _ Hsw) as Hlen.
  destruct (is_singleton gen) eqn:Es.
  - right. clear Hlen. unfold resolve_business_key. rewrite Er, Es. clear El Hasc.
    induction Hsw as [|v ids vs idss E Hsw IH]; cbn; [done|]. by rewrite E, IH.
  - destruct (fold_index_eq_batch _ idss label key vs) as [out|] eqn:Ef; [|by left]. right.
    destruct (fold_batch_point _ _ _ _ _ _ (po_stack _ Hgen) Hasc (eq_sym Hlen) Ef) as [Hout Hp].
    apply list_eq. intros i. rewrite !list_lookup_fmap.
    destruct (vs !! i) as [v|] eqn:Ev.
    + destruct (Forall2_lookup_l _ _ _ _ _ Hsw Ev) as (ids & Hids & E).
      destruct (Hp i v ids Ev Hids) as (o & -> & Eo). cbn. f_equal. unfold resolve_business_key.
      by rewrite Er, E, Es, Eo.
    + apply lookup_ge_None in Ev. by rewrite lookup_ge_None_2 by lia.
Qed.
End resolved.

(** ** Sorting and grouping the rows *)

Definition row_le (a b : nat * Value.t) : Prop := Value.cmp_key a.2 b.2 ≠ Gt.
Definition exact_row (r : nat * Value.t) : Prop := exact r.2.

Lemma insert_row_perm x l : insert_row x l ≡ₚ x :: l.
Proof.
  induction l as [|y l IH]; cbn; [done|]. destruct (Value.cmp_key x.2 y.2); try done. rewrite IH. apply Permutation_swap.
Qed.

Lemma sort_rows_perm l : sort_rows l ≡ₚ l.
Proof. induction l as [|x l IH]; cbn; [done|]. by rewrite insert_row_perm, IH. Qed.

Lemma row_le_trans a b c : exact_row a → exact_row b → exact_row c → row_le a b → row_le b c → row_le a c.
Proof. intros Ha Hb Hc H1 H2. by apply (cmp_key_exact_preorder a.2 b.2 c.2). Qed.

Lemma insert_row_sorted x l : exact_row x → Forall exact_row l → StronglySorted row_le l →
  StronglySorted row_le (insert_row x l).
Proof.
  intros Hx Hl. induction 1 as [|y l Hs IH Hy]; cbn; [repeat constructor|].
  apply Forall_cons in Hl as [Hey Hl]. destruct (Value.cmp_key x.2 y.2) eqn:E.
  1,2: assert (row_le x y) as Hxy by (unfold row_le; by rewrite E); constructor; [by constructor|];
    apply Forall_cons; split; [done|]; rewrite Forall_forall in *; intros z Hz;
    eapply row_le_trans; [..|exact Hxy|by apply Hy]; auto.
  constructor; [by apply IH|]. rewrite insert_row_perm. apply Forall_cons. split; [|done].
  unfold row_le. rewrite (proj1 (cmp_key_antisym x.2 y.2)), E. done.
Qed.

Lemma sort_rows_sorted l : Forall exact_row l → StronglySorted row_le (sort_rows l).
Proof.
  induction 1 as [|x l Hx Hl IH]; cbn; [constructor|]. apply insert_row_sorted; [done| |done].
  by rewrite sort_rows_perm.
Qed.

Lemma ascending_snoc D v : ascending_keys D → Forall exact D → exact v →
  match last D with Some l => Value.cmp_key l v = Lt | None => True end → ascending_keys (D ++ [v]).
Proof.
  unfold ascending_keys. intros Hs. induction Hs as [|x D Hs IH Hx]; intros He Hv Hl; [repeat constructor|].
  apply Forall_cons in He as [Hex He]. rewrite last_cons in Hl. cbn. constructor.
  - apply IH; [done..|]. by destruct (last D).
  - apply Forall_app. split; [done|]. apply Forall_cons. split; [|done].
    destruct (last D) as [l|] eqn:El; [|done]. apply last_Some_elem_of in El. rewrite Forall_forall in Hx, He.
    specialize (Hx _ El). specialize (He _ El).
    destruct (cmp_key_exact_preorder x l v) as [H1 H2]; try done; [by rewrite Hx|by rewrite Hl|].
    destruct (Value.cmp_key x v) eqn:E; try done. destruct (H2 eq_refl). congruence.
Qed.

(** The distinct values after one more. *)
Lemma distinct_step D v : ascending_keys D → Forall exact D → exact v →
  (∀ l, last D = Some l → Value.cmp_key l v ≠ Gt) →
  let fresh := match last D with Some l => negb (bool_decide (Value.cmp_key l v = Eq)) | None => true end in
  let D1 := if fresh then D ++ [v] else D in
  ascending_keys D1 ∧ Forall exact D1 ∧ (∃ k, D1 = D ++ k) ∧
  ∃ x, last D1 = Some x ∧ exact x ∧ Value.cmp_key x v = Eq.
Proof.
  intros Ha HeD Hev Hlast fresh D1.
  assert (Value.cmp_key v v = Eq) as Hvv by apply (proj2 (cmp_key_antisym v v)).
  assert (match last D with Some l => Value.cmp_key l v = Lt | None => True end →
    ascending_keys (D ++ [v]) ∧ Forall exact (D ++ [v]) ∧ (∃ k, D ++ [v] = D ++ k) ∧
    ∃ x, last (D ++ [v]) = Some x ∧ exact x ∧ Value.cmp_key x v = Eq) as Hpush.
  { intros Hl. split_and!; [by apply ascending_snoc|by apply Forall_app; split; [|constructor]|by exists [v]|].
    exists v. by rewrite last_snoc. }
  unfold D1, fresh. destruct (last D) as [l|] eqn:El; [|by apply Hpush].
  destruct (bool_decide_reflect (Value.cmp_key l v = Eq)) as [E|E]; cbn.
  - split_and!; try done; [exists []; by rewrite app_nil_r|]. exists l. split_and!; try done.
    rewrite Forall_forall in HeD. apply HeD. by apply last_Some_elem_of.
  - apply Hpush. specialize (Hlast l eq_refl). by destruct (Value.cmp_key l v).
Qed.

(** Each row is in the slot of a value equal to its own. *)
Definition slotted (D : list Value.t) (slots : list nat) (row : nat * Value.t) : Prop :=
  ∃ d x, slots !! row.1 = Some d ∧ D !! d = Some x ∧ exact x ∧ Value.cmp_key x row.2 = Eq.

Lemma distinct_rows_spec order D slots : StronglySorted row_le order → Forall exact_row order →
  Forall (λ r, r.1 < length slots)%nat order → NoDup (map fst order) →
  ascending_keys D → Forall exact D → (∀ l r, last D = Some l → r ∈ order → Value.cmp_key l r.2 ≠ Gt) →
  let '(D', slots') := distinct_rows order D slots in
  ascending_keys D' ∧ (∃ k, D' = D ++ k) ∧ length slots' = length slots ∧
  (∀ i, i ∉ map fst order → slots' !! i = slots !! i) ∧ Forall (slotted D' slots') order.
Proof.
  intros Hs. revert D slots. induction Hs as [|[ri v] order Hs IH Hle]; intros D slots He Hb Hnd Ha HeD Hlast.
  { cbn. split_and!; try done. exists []. by rewrite app_nil_r. }
  apply Forall_cons in He as [Hev He]. apply Forall_cons in Hb as [Hri Hb]. apply NoDup_cons in Hnd as [Hni Hnd].
  cbn [distinct_rows]. set (fresh := match last D with Some _ => _ | None => _ end).
  set (D1 := if fresh then D ++ [v] else D).
  assert (∀ l, last D = Some l → Value.cmp_key l v ≠ Gt) as Hlv
    by (intros l El; apply (Hlast l (ri, v) El); by left).
  destruct (distinct_step D v Ha HeD Hev Hlv) as (Ha1 & He1 & (k1 & Ek1) & x & Hx & Hex & Exv).
  fold fresh D1 in Ha1, He1, Ek1, Hx.
  assert (D1 !! (length D1 - 1)%nat = Some x) as Hlx by (rewrite last_lookup in Hx; rewrite <- Hx; f_equal; lia).
  specialize (IH D1 (<[ri := (length D1 - 1)%nat]> slots)). rewrite length_insert in IH.
  destruct (distinct_rows order D1 _) as [D' slots'].
  destruct IH as (Ha' & (k & ->) & Hl' & Hkeep & Hsl); try done.
  { intros l r El Hr. assert (l = x) as -> by congruence. rewrite Forall_forall in Hle, He.
    apply (cmp_key_exact_preorder x v r.2); try done; [by apply He|by rewrite Exv|by apply (Hle r Hr)]. }
  split_and!; try done.
  - exists (k1 ++ k). by rewrite Ek1, <- app_assoc.
  - intros i Hi. cbn in Hi. apply not_elem_of_cons in Hi as [Hne Hi]. rewrite Hkeep by done. by apply list_lookup_insert_ne.
  - apply Forall_cons. split; [|done]. exists (length D1 - 1)%nat, x. cbn. split_and!; try done.
    + rewrite Hkeep by done. by apply list_lookup_insert_eq.
    + by apply lookup_app_l_Some.
Qed.

Lemma zip_seq_lookup {A} (l : list A) n i : zip (List.seq n (length l)) l !! i = (λ a, ((n + i)%nat, a)) <$> l !! i.
Proof.
  revert n i. induction l as [|a l IH]; intros n [|i]; cbn; [done..|by rewrite Nat.add_0_r|].
  rewrite IH. by rewrite Nat.add_succ_r.
Qed.

Lemma zip_seq_fst {A} (l : list A) n : map fst (zip (List.seq n (length l)) l) = List.seq n (length l).
Proof. revert n. induction l as [|a l IH]; intros n; cbn; [done|]. by rewrite IH. Qed.

Lemma collect_opt_lookup {A B} (f : A → option B) xs ys : length xs = length ys →
  (∀ i x, xs !! i = Some x → f x = ys !! i) → collect_opt f xs = Some ys.
Proof.
  revert ys. induction xs as [|x xs IH]; intros [|y ys] Hl H; try done. cbn. rewrite (H 0%nat x eq_refl). cbn.
  rewrite (IH ys); [done|cbn in Hl; lia|]. intros i z Hz. by apply (H (S i)).
Qed.

Lemma resolve_rows_spec gen label key values : probes_ok gen → Forall exact values →
  ∃ res, resolve_rows gen label key values = Some res ∧
    (res = map (λ _, Unindexed) values ∨ res = map (resolve_business_key gen label key) values).
Proof.
  intros Hgen Hex. unfold resolve_rows. set (n := length values). set (rows := zip (List.seq 0 n) values).
  assert (Forall exact_row rows) as Hrows.
  { apply Forall_forall. intros [i v] Hi%elem_of_zip_r. rewrite Forall_forall in Hex. by apply Hex. }
  pose proof (distinct_rows_spec (sort_rows rows) [] (replicate n 0%nat)) as H.
  destruct (distinct_rows (sort_rows rows) [] (replicate n 0%nat)) as [D slots].
  destruct H as (Ha & _ & Hl & _ & Hsl); try done.
  - by apply sort_rows_sorted.
  - by rewrite sort_rows_perm.
  - rewrite sort_rows_perm. apply Forall_forall. intros [i v] Hi%elem_of_zip_l. rewrite length_replicate.
    apply elem_of_seq in Hi. cbn. lia.
  - rewrite sort_rows_perm. unfold rows, n. rewrite zip_seq_fst. apply NoDup_seq.
  - constructor.
  - rewrite sort_rows_perm in Hsl. rewrite length_replicate in Hl.
    assert (∀ i d v, slots !! i = Some d → values !! i = Some v → ∃ x, D !! d = Some x ∧ exact x ∧ Value.cmp_key x v = Eq) as Hslot.
    { intros i d v Hd Hv. rewrite Forall_lookup in Hsl. destruct (Hsl i (i, v)) as (d' & x & Hd' & Hx & He & Ec).
      - unfold rows, n. by rewrite zip_seq_lookup, Hv.
      - cbn in *. exists x. split_and!; try done. congruence. }
    assert (∀ f, (∀ x v, exact x → exact v → Value.cmp_key x v = Eq → f x = f v) →
      collect_opt (λ d, map f D !! d) slots = Some (map f values : list KeyResolution)) as Hc.
    { intros f Hf. apply collect_opt_lookup; [by rewrite length_map|]. intros i d Hd.
      destruct (values !! i) as [v|] eqn:Hv; [|apply lookup_ge_None in Hv; apply lookup_lt_Some in Hd; lia].
      destruct (Hslot i d v Hd Hv) as (x & Hx & He & Ec). rewrite !list_lookup_fmap, Hx, Hv. cbn. f_equal.
      apply Hf; try done. rewrite Forall_lookup in Hex. by eapply Hex. }
    destruct (batch_pointwise gen label key Hgen D Ha) as [E|E]; rewrite E; (eexists; split; [apply Hc|]); auto.
    intros x v Hx Hv Ec. by apply resolve_equal.
Qed.

(** * Properties *)

(** A batch resolves its rows as if each were probed alone.  The keys of the rows are sorted,
    equal ones are fused, and the index and every segment of the stack are swept once for all of
    them.  For keys whose integers are exact as floats, each row then gets what a probe of its own
    key gives, however the rows are ordered and repeated, and no index is out of bounds; where
    any read of the sweep fails, every row is unresolved, and none is taken for absent. *)
Theorem batch_rows_resolve gen label key values : probes_ok gen → Forall exact values →
  ∃ res, resolve_rows gen label key values = Some res ∧ length res = length values ∧
    (res = map (λ _, Unindexed) values ∨
     ∀ i v, values !! i = Some v → res !! i = Some (resolve_business_key gen label key v)).
Proof.
  intros Hgen Hex. destruct (resolve_rows_spec gen label key values Hgen Hex) as (res & E & H).
  exists res. split; [done|]. destruct H as [->| ->]; rewrite length_map; (split; [done|]); [by left|right].
  intros i v Hv. by rewrite list_lookup_fmap, Hv.
Qed.

(** An index that is a table of its entries. *)
Definition table_lookup (entries : list (Value.t * Z)) (v : Value.t) : result (list Z) :=
  Ok (map snd (filter (λ e, Value.cmp_key e.1 v = Eq) entries)).

Definition table_index (entries : list (Value.t * Z)) : RangeIndex :=
  mkRangeIndex (table_lookup entries) (collect_res (table_lookup entries)).

Definition table_fragment (entries : list (Value.t * Z)) (removed : list Z) : Fragment :=
  mkFragment (λ _ _, removed) (λ _ _ _, true) (λ _ _, table_lookup entries)
    (λ _ _, collect_res (table_lookup entries)).

Lemma collect_res_Forall2 {A B} (f : A → result B) xs ys :
  collect_res f xs = Ok ys → Forall2 (λ x y, f x = Ok y) xs ys.
Proof.
  revert ys. induction xs as [|x xs IH]; intros ys; cbn; [intros [= <-]; constructor|].
  destruct (f x) eqn:E; [|done]. cbn. destruct (collect_res f xs) eqn:Ec; [|done]. intros [= <-].
  constructor; [done|]. by apply IH.
Qed.

Lemma cmp_eq_trans e v v' : exact e → exact v → exact v' → Value.cmp_key v v' = Eq →
  Value.cmp_key e v = Eq → Value.cmp_key e v' = Eq.
Proof.
  intros He Hv Hv' E E1. destruct (cmp_key_exact_preorder e v v') as [H1 _]; try congruence.
  destruct (cmp_key_exact_preorder v' v e) as [H2 _]; try done.
  - by rewrite (proj1 (cmp_key_antisym v v')), E.
  - by rewrite (proj1 (cmp_key_antisym e v)), E1.
  - rewrite (proj1 (cmp_key_antisym e v')) in H2. by destruct (Value.cmp_key e v').
Qed.

Lemma table_equal entries v v' : Forall (λ e, exact e.1) entries → exact v → exact v' →
  Value.cmp_key v v' = Eq → table_lookup entries v = table_lookup entries v'.
Proof.
  intros He Hv Hv' E. unfold table_lookup. f_equal. f_equal. induction He as [|e l He _ IH]; [done|].
  assert (Value.cmp_key v' v = Eq) as E' by by rewrite (proj1 (cmp_key_antisym v v')), E.
  rewrite !filter_cons, IH. do 2 case_decide; try done; exfalso; eauto using cmp_eq_trans.
Qed.

Lemma table_index_ok entries : Forall (λ e, exact e.1) entries → index_ok (table_index entries).
Proof.
  intros He. split; [|intros; by apply table_equal]. intros vs idss _. apply collect_res_Forall2.
Qed.

Lemma table_fragment_ok entries removed : Forall (λ e, exact e.1) entries → fragment_ok (table_fragment entries removed).
Proof.
  intros He. split; [done| |intros; by apply table_equal]. intros l p vs hits _. apply collect_res_Forall2.
Qed.

Definition example_indexes : CoreIndexes :=
  mkCoreIndexes [mkIndexDesc (lit "ix") true (lit "P") (lit "id")]
    {[lit "ix" := table_index [(Value.Int 1, 3); (Value.Int 2, 4)]]}
    [Some (table_fragment [(Value.Int 5, 4)] [4])].

Lemma example_probes_ok : probes_ok example_indexes.
Proof.
  split.
  - cbn. intros name ix H. apply lookup_singleton_Some in H as [_ <-]. apply table_index_ok.
    repeat constructor; unfold exact, exact_int; cbn; lia.
  - cbn. intros fr H. apply list_elem_of_singleton in H. injection H as ->. apply table_fragment_ok.
    repeat constructor; unfold exact, exact_int; cbn; lia.
Qed.

