(* ===== verification/ServerWrite.v ===== *)
(** The write statements of the server: [execute_write], [execute_write_batch], [execute_create],
    [execute_edge_write] and [execute_edge_write_batch] of [slater/src/server/write.rs], with
    their checks, over the delta writer.

    A generation is the class [Generation]: the index probes of [KeyProbe], its name tables, and
    the answers of the query engine over the merged view of a delta snapshot.  A statement runs
    here without another in between; what a flush between its resolution and its write can do is
    shown in [WriterLimits].  Error messages are shortened, and the conversion of the rows of a
    [RETURN] to the protocol is part of [project]. *)

From S2P Require Import Prelude Values ValueOrder Wire Crypto Identity WalCodec WalReplay WalSink.
From S2P Require Import NodeDelta Memtable MemtableInv MemtableApply Snapshot Compaction Resolve TouchedJournal.
From S2P Require Import DeltaWriter WriterInv WriterFlush WriterSafety Statement KeyProbe.

(** * The generation *)

Class Generation (R Rows : Type) := {
  gen_indexes : CoreIndexes;
  gen_uuid : Z;
  node_count : Z;
  label_id : str → option Z;
  gen_reltype_id : str → option Z;
  vector_indexes : list (str * str * Z);      (* label, property, dimension *)
  find_outgoing_edge_keyed : DeltaSnapshot → Z → Z → Z → option (str * Value.t) → result (option Z);
  has_incident_edge : DeltaSnapshot → Z → result bool;
  project : DeltaSnapshot → R → list str → list (list Val.t) → gmap str Val.t → result Rows;
  no_rows : Rows;
}.

(** What [resolve_op] asks of a generation.  A failed scan is no edge. *)
#[export] Instance generation_probe {R Rows} `{Generation R Rows} : CoreProbe := {|
  Resolve.resolve_business_key := KeyProbe.resolve_business_key gen_indexes;
  reltype_id := gen_reltype_id;
  find_core_edge_id s rt d key :=
    match find_outgoing_edge_keyed DeltaSnapshot.empty s rt d key with Ok id => id | Err _ => None end;
|}.

(** * What the writer answers *)

Definition wask {A} (f : DeltaWriter → A) : wio A := λ st, (Ok (f st), st).
Definition wtry {A} (f : DeltaWriter → result A) : wio A := λ st, (f st, st).

Definition active_memtable (st : DeltaWriter) : Memtable := mem (DeltaWriter.delta_snapshot st).

Definition born_synthetic_for_identity (st : DeltaWriter) (key : NodeKey) : option Z :=
  find_map (λ lv, Snapshot.born_synthetic_for_identity lv key.1.1 key.1.2 key.2) (l0 (DeltaWriter.delta_snapshot st)).

Definition born_synthetic_in_delta (st : DeltaWriter) (key : NodeKey) : option Z :=
  DeltaSnapshot.born_synthetic_for_identity key.1.1 key.1.2 key.2 (DeltaWriter.delta_snapshot st).

Section server.
Context {crypto : Crypto} {layout : Layout} {R Rows : Type} {gen : Generation R Rows}.
Variable random_nonce : nat → bytes.

(** * Checks *)

Definition refuse_orphaned_delta : wio unit :=
  wtry (λ st, if core_uuid st =? gen_uuid then Ok tt
              else Err (Bail "the writable layer is bound to another generation")).

Definition check_vector_dim (label prop : str) (v : Value.t) : result unit :=
  match v with
  | Value.Vector xs =>
      match find (λ d, bool_decide (d.1.1 = label) && bool_decide (d.1.2 = prop)) vector_indexes with
      | Some d => if zlen xs =? d.2 then Ok tt else Err (Bail "wrong number of dimensions")
      | None => Ok tt
      end
  | _ => Ok tt
  end.

Definition validate_vector_dims (ops : list WalOp) : result unit :=
  if vector_indexes is [] then Ok tt
  else
    _ ← collect_res (λ op,
      match op with
      | UpsertNode label _ _ patches | ReplaceNode label _ _ patches =>
          _ ← collect_res (λ '(prop, v), check_vector_dim label prop v) patches; Ok tt
      | _ => Ok tt
      end) ops;
    Ok tt.

Definition validate_label_ops (ops : list WalOp) (resolved : option Z) (label : str) : result unit :=
  let is_born := match resolved with Some id => node_count <=? id | None => false end in
  _ ← collect_res (λ op,
    match op with
    | SetNodeLabels _ _ _ added removed =>
        if existsb (λ l, match label_id l with None => true | Some _ => false end) added
        then Err (Bail "cannot add a label that is not defined in the graph")
        else if is_born && existsb (λ l, bool_decide (l = label)) removed
        then Err (Bail "cannot REMOVE the identity label from a newly-created node")
        else Ok tt
    | _ => Ok tt
    end) ops;
  Ok tt.

(** The view the check looks through has the active memtable only. *)
Definition node_has_relationships (id : Z) : wio bool :=
  wtry (λ st, has_incident_edge (DeltaSnapshot.from_memtable (active_memtable st)) id).

(** The conformance check of a plain [DELETE]. *)
Definition check_delete (op : WriteOp) (resolved : option Z) : wio unit :=
  match op, resolved with
  | WDelete false _, Some id =>
      node_has_relationships id ≫= λ b : bool,
      if b then wlift (Err (Bail "Cannot delete node, because it still has relationships")) else mret tt
  | _, _ => mret tt
  end.

(** * Node writes *)

Definition resolve_row (resolution : KeyResolution) (key : NodeKey) (is_set upsert : bool) : wio (option Z) :=
  wtry (λ st, resolve_node_op_from (born_synthetic_for_identity st) (born_synthetic_in_delta st)
                resolution key is_set upsert).

Definition merge_creates_node_from (st : DeltaWriter) (resolution : KeyResolution) (key : NodeKey) : bool :=
  match resolution with
  | Unique _ => false
  | Absent => match born_synthetic_in_delta st key with None => true | Some _ => false end
  | _ => false
  end.

Definition is_set_op (op : WriteOp) : bool := match op with WDelete _ _ => false | _ => true end.

(** The operations of one anchored node: the unconditional ones, then those of [ON CREATE] or
    [ON MATCH], by the state before the write. *)
Definition node_ops_of (stmt : WriteStmt R) (eval : Expr → result Value.t) (eval_map : Expr → result Val.t)
    (resolution : KeyResolution) (value : Value.t) (st : DeltaWriter) : result (list WalOp) :=
  let label := s_label stmt in
  let key := s_key stmt in
  ops ← build_node_wal_ops eval eval_map label key value (s_op stmt);
  if s_upsert stmt && negb (bool_decide (length (s_on_create stmt) = 0%nat) && bool_decide (length (s_on_match stmt) = 0%nat))
  then
    let created := merge_creates_node_from st resolution (label, key, value) in
    let items := if created then s_on_create stmt else s_on_match stmt in
    more ← fold_set_items eval eval_map label key value items false;
    Ok (ops ++ more)
  else Ok ops.

(** Resolution and checks of one anchored node. *)
Definition admit_row (stmt : WriteStmt R) (resolution : KeyResolution) (value : Value.t) (ops : list WalOp) :
    wio (option Z) :=
  wlift (validate_vector_dims ops) ≫= λ _,
  resolve_row resolution (s_label stmt, s_key stmt, value) (is_set_op (s_op stmt)) (s_upsert stmt) ≫= λ resolved,
  wlift (validate_label_ops ops resolved (s_label stmt)) ≫= λ _,
  check_delete (s_op stmt) resolved ≫= λ _,
  mret resolved.

(** The id a [RETURN] projects: the one resolved, or the one the commit allocated. *)
Definition committed_id (resolved : option Z) (key : NodeKey) : wio Z :=
  match resolved with
  | Some id => mret id
  | None => wtry (λ st, match born_synthetic_in_delta st key with
                        | Some id => Ok id
                        | None => Err (Bail "the write committed but its node could not be resolved")
                        end)
  end.

Definition project_write_return (ret : R) (cols : list str) (rows : list (list Val.t)) (params : gmap str Val.t) :
    wio Rows :=
  wtry (λ st, project (DeltaSnapshot.from_memtable (active_memtable st)) ret cols rows params).

(** The rows an [UNWIND] ranges over. *)
Definition unwind_rows (params : gmap str Val.t) (source : Expr) : result (list Val.t) :=
  match source with
  | Param name =>
      v ← param_val params name;
      match v with
      | Val.List items => Ok items
      | _ => Err (Bail "the UNWIND source of a batched write is not a list")
      end
  | _ => Err (Bail "the UNWIND source of a batched write must be a parameter list")
  end.

(** The loop over the rows: the operations with their resolutions, and the anchor of each row. *)
Fixpoint plan_rows (stmt : WriteStmt R) (params : gmap str Val.t) (var : str)
    (rows : list (Val.t * (Value.t * KeyResolution))) : wio (list (WalOp * OpResolution) * list (option Z)) :=
  match rows with
  | [] => mret ([], [])
  | (row, (value, resolution)) :: rows =>
      wtry (node_ops_of stmt (eval_row_value params var row) (eval_row_val params var row) resolution value) ≫= λ ops,
      admit_row stmt resolution value ops ≫= λ resolved,
      plan_rows stmt params var rows ≫= λ '(rest, anchors),
      mret (map (λ op, (op, ResNode resolved)) ops ++ rest, resolved :: anchors)
  end.

Fixpoint committed_rows (keys : list (option Z * NodeKey)) : wio (list (list Val.t)) :=
  match keys with
  | [] => mret []
  | (resolved, key) :: keys =>
      committed_id resolved key ≫= λ id,
      committed_rows keys ≫= λ rows,
      mret ([Val.Node id] :: rows)
  end.

Definition execute_write_batch (stmt : WriteStmt R) (source : Expr) (var : str) (params : gmap str Val.t) : wio Rows :=
  refuse_orphaned_delta ≫= λ _,
  wlift (unwind_rows params source) ≫= λ rows,
  wlift (collect_res (λ row, eval_row_value params var row (s_key_value stmt)) rows) ≫= λ key_values,
  wpanic (resolve_rows gen_indexes (s_label stmt) (s_key stmt) key_values) ≫= λ row_res,
  plan_rows stmt params var (zip rows (zip key_values row_res)) ≫= λ '(ops, anchors),
  DeltaWriter.write_batch random_nonce ops ≫= λ _,
  match s_ret stmt with
  | None => mret no_rows
  | Some ret =>
      committed_rows (zip anchors (map (λ v, (s_label stmt, s_key stmt, v)) key_values)) ≫= λ out_rows,
      project_write_return ret [s_var stmt] out_rows params
  end.

Definition execute_write (stmt : WriteStmt R) (params : gmap str Val.t) : wio Rows :=
  refuse_orphaned_delta ≫= λ _,
  match s_unwind stmt with
  | Some (source, var) => execute_write_batch stmt source var params
  | None =>
      wlift (write_value params (s_key_value stmt)) ≫= λ value,
      let key := (s_label stmt, s_key stmt, value) in
      let resolution := Resolve.resolve_business_key (s_label stmt) (s_key stmt) value in
      wtry (node_ops_of stmt (write_value params) (param_path_val params) resolution value) ≫= λ ops,
      wpanic (head ops) ≫= λ _,
      admit_row stmt resolution value ops ≫= λ resolved,
      DeltaWriter.write_batch random_nonce (map (λ op, (op, ResNode resolved)) ops) ≫= λ _,
      match s_ret stmt with
      | None => mret no_rows
      | Some ret =>
          committed_id resolved key ≫= λ id,
          project_write_return ret [s_var stmt] [[Val.Node id]] params
      end
  end.

(** * Creation of a node *)

(** [props.remove(position)] at the first property of that name. *)
Fixpoint take_prop (key : str) (props : list (str * Value.t)) : option (Value.t * list (str * Value.t)) :=
  match props with
  | [] => None
  | (p, v) :: props =>
      if decide (p = key) then Some (v, props)
      else '(w, rest) ← take_prop key props; Some (w, (p, v) :: rest)
  end.

Definition create_key (label : str) (props : list (str * Value.t)) : result str :=
  match find (λ ri, ri_node ri && bool_decide (ri_label ri = label) &&
               existsb (λ p, bool_decide (p.1 = ri_property ri)) props) (range_indexes gen_indexes) with
  | Some ri => Ok (ri_property ri)
  | None => Err (Bail "none of its properties is the label's range-indexed business key")
  end.

Definition execute_create (stmt : CreateStmt R) (params : gmap str Val.t) : wio Rows :=
  wlift (replace_map_patches (write_value params) (c_props stmt)) ≫= λ props,
  wlift (create_key (c_label stmt) props) ≫= λ key,
  wpanic (take_prop key props) ≫= λ '(value, patches),
  let node := (c_label stmt, key, value) in
  resolve_row (Resolve.resolve_business_key (c_label stmt) key value) node true true ≫= λ resolved,
  DeltaWriter.write random_nonce (UpsertNode (c_label stmt) key value patches) (ResNode resolved) ≫= λ _,
  match c_ret stmt with
  | None => mret no_rows
  | Some ret =>
      committed_id resolved node ≫= λ id,
      project_write_return ret [c_var stmt] [[Val.Node id]] params
  end.

(** * Relationship writes *)

Definition edge_reltype_id (reltype : str) : result Z :=
  match gen_reltype_id reltype with
  | Some id => Ok id
  | None => Err (Bail "the relationship type must already exist in the graph")
  end.

Definition ensure_identity_not_reassigned (edge_key : option (str * Value.t)) (patches : list (str * Value.t)) :
    result unit :=
  match edge_key with
  | None => Ok tt
  | Some (key_prop, key_value) =>
      if existsb (λ p, bool_decide (p.1 = key_prop) && negb (value_eqb p.2 key_value)) patches
      then Err (Bail "SET contradicts the identifying property of this relationship")
      else Ok tt
  end.

Record EdgeMergePlan := mkPlan {
  core_edge_id : option Z;
  plan_edge_key : option (str * Value.t);
  idempotent : option (Z * Z * Z);
}.

Definition or_else {A} (a b : option A) : option A := match a with Some _ => a | None => b end.

Definition plan_edge_merge (st : DeltaWriter) (reltype : str) (rt : Z) (core ends : option Z * option Z)
    (src dst : NodeKey) (edge_key : option (str * Value.t)) (patches : list (str * Value.t)) (replace : bool) :
    result EdgeMergePlan :=
  core_id ← (match core with
             | (Some s, Some d) => find_outgoing_edge_keyed DeltaSnapshot.empty s rt d edge_key
             | _ => Ok None
             end);
  match core_id, core with
  | Some cid, (Some s, Some d) =>
      if bool_decide (length patches = 0%nat) && negb replace
      then Ok (mkPlan core_id edge_key (Some (cid, s, d)))
      else Ok (mkPlan core_id edge_key None)
  | _, _ =>
      let edge_key :=
        match edge_key, core_id with
        | None, None =>
            match or_else ends.1 (born_synthetic_in_delta st src), or_else ends.2 (born_synthetic_in_delta st dst) with
            | Some s, Some d => DeltaWriter.edge_identity_key_between s reltype d st
            | _, _ => None
            end
        | _, _ => edge_key
        end in
      Ok (mkPlan core_id edge_key None)
  end.

(** What a relationship write evaluated and resolved: the keys of its endpoints, their ids in
    the core and as the operation carries them, its identifying property and assignments. *)
Record EdgeRow := mkEdgeRow {
  er_src : NodeKey;
  er_dst : NodeKey;
  er_core : option Z * option Z;
  er_ends : option Z * option Z;
  er_key : option (str * Value.t);
  er_patches : list (str * Value.t);
  er_replace : bool;
}.

Definition edge_row (stmt : EdgeWriteStmt R) (eval : Expr → result Value.t) (eval_map : Expr → result Val.t)
    (st : DeltaWriter) : result EdgeRow :=
  src_value ← eval (ep_value (es_src stmt));
  dst_value ← eval (ep_value (es_dst stmt));
  edge_key ← (match es_key stmt with
              | Some (prop, e) => v ← eval e; Ok (Some (prop, v))
              | None => Ok None
              end);
  '(patches, replace) ← edge_set_patches eval eval_map (es_sets stmt) [] false;
  _ ← ensure_identity_not_reassigned edge_key patches;
  let src := (ep_label (es_src stmt), ep_key (es_src stmt), src_value) in
  let dst := (ep_label (es_dst stmt), ep_key (es_dst stmt), dst_value) in
  src_core ← resolve_endpoint src;
  dst_core ← resolve_endpoint dst;
  Ok (mkEdgeRow src dst (src_core, dst_core)
        (or_else src_core (born_synthetic_for_identity st src), or_else dst_core (born_synthetic_for_identity st dst))
        edge_key patches replace).

Definition row_plan (stmt : EdgeWriteStmt R) (rt : Z) (row : EdgeRow) (st : DeltaWriter) : result EdgeMergePlan :=
  plan_edge_merge st (es_reltype stmt) rt (er_core row) (er_ends row) (er_src row) (er_dst row)
    (er_key row) (er_patches row) (er_replace row).

Definition upsert_edge_op (reltype : str) (row : EdgeRow) (edge_key : option (str * Value.t)) : WalOp :=
  UpsertEdge (er_src row).1.1 (er_src row).1.2 (er_src row).2 reltype
    (er_dst row).1.1 (er_dst row).1.2 (er_dst row).2 edge_key (er_replace row) (er_patches row).

Definition delete_edge_op (reltype : str) (row : EdgeRow) : WalOp :=
  DeleteEdge (er_src row).1.1 (er_src row).1.2 (er_src row).2 reltype
    (er_dst row).1.1 (er_dst row).1.2 (er_dst row).2 None.

(** The relationship a [RETURN] projects, found after the commit. *)
Definition committed_edge (rt : Z) (row : EdgeRow) (edge_key : option (str * Value.t)) : wio Val.t :=
  wtry (λ st,
    match or_else (er_ends row).1 (born_synthetic_in_delta st (er_src row)),
          or_else (er_ends row).2 (born_synthetic_in_delta st (er_dst row)) with
    | Some s, Some d =>
        found ← find_outgoing_edge_keyed (DeltaSnapshot.from_memtable (active_memtable st)) s rt d edge_key;
        match found with
        | Some id => Ok (Val.Rel id s d rt)
        | None => Err (Bail "the write committed but its relationship could not be resolved")
        end
    | _, _ => Err (Bail "the write committed but its endpoints could not be resolved")
    end).

Definition project_edge_return (stmt : EdgeWriteStmt R) (ret : R) (rows : list Val.t) (params : gmap str Val.t) : wio Rows :=
  wpanic (es_rel_var stmt) ≫= λ var,
  project_write_return ret [var] (map (λ v, [v]) rows) params.

(** The loop over the rows of a batch: the operations, and each row with the identity it is
    stored under. *)
Fixpoint plan_edge_rows (stmt : EdgeWriteStmt R) (rt : Z) (params : gmap str Val.t) (var : str) (rows : list Val.t)
    (st : DeltaWriter) : result (list (WalOp * OpResolution) * list (EdgeRow * option (str * Value.t))) :=
  match rows with
  | [] => Ok ([], [])
  | r :: rows =>
      row ← edge_row stmt (eval_row_value params var r) (eval_row_val params var r) st;
      plan ← row_plan stmt rt row st;
      '(ops, planned) ← plan_edge_rows stmt rt params var rows st;
      let op := (upsert_edge_op (es_reltype stmt) row (plan_edge_key plan),
                 ResEdge (er_ends row).1 (er_ends row).2 (core_edge_id plan)) in
      Ok (if idempotent plan is None then op :: ops else ops, (row, plan_edge_key plan) :: planned)
  end.

Fixpoint committed_edges (rt : Z) (planned : list (EdgeRow * option (str * Value.t))) : wio (list Val.t) :=
  match planned with
  | [] => mret []
  | (row, key) :: planned =>
      committed_edge rt row key ≫= λ v,
      committed_edges rt planned ≫= λ vs,
      mret (v :: vs)
  end.

Definition execute_edge_write_batch (stmt : EdgeWriteStmt R) (source : Expr) (var : str) (params : gmap str Val.t) :
    wio Rows :=
  wlift (edge_reltype_id (es_reltype stmt)) ≫= λ rt,
  wlift (unwind_rows params source) ≫= λ rows,
  wtry (plan_edge_rows stmt rt params var rows) ≫= λ '(ops, planned),
  DeltaWriter.write_batch random_nonce ops ≫= λ _,
  match es_ret stmt with
  | None => mret no_rows
  | Some ret => committed_edges rt planned ≫= λ vs, project_edge_return stmt ret vs params
  end.

(** The operation of a plain relationship write, with its resolution; or the core edge a bare
    re-merge found. *)
Definition plan_edge_write (stmt : EdgeWriteStmt R) (rt : Z) (row : EdgeRow) (st : DeltaWriter) :
    result (Val.t + (WalOp * OpResolution) * option (str * Value.t)) :=
  match es_op stmt with
  | EdgeDelete => Ok (inr (delete_edge_op (es_reltype stmt) row, ResEdge (er_ends row).1 (er_ends row).2 None, er_key row))
  | EdgeCreate =>
      plan ← row_plan stmt rt row st;
      Ok match idempotent plan with
         | Some (cid, s, d) => inl (Val.Rel cid s d rt)
         | None => inr (upsert_edge_op (es_reltype stmt) row (plan_edge_key plan),
                        ResEdge (er_ends row).1 (er_ends row).2 (core_edge_id plan), plan_edge_key plan)
         end
  end.

Definition execute_edge_write (stmt : EdgeWriteStmt R) (params : gmap str Val.t) : wio Rows :=
  match es_unwind stmt with
  | Some (source, var) => execute_edge_write_batch stmt source var params
  | None =>
      wlift (edge_reltype_id (es_reltype stmt)) ≫= λ rt,
      wtry (edge_row stmt (write_value params) (param_path_val params)) ≫= λ row,
      wtry (plan_edge_write stmt rt row) ≫= λ plan,
      match plan with
      | inl rel => match es_ret stmt with None => mret no_rows | Some ret => project_edge_return stmt ret [rel] params end
      | inr (op, res, key) =>
          DeltaWriter.write random_nonce op res ≫= λ _,
          match es_ret stmt with
          | None => mret no_rows
          | Some ret => committed_edge rt row key ≫= λ v, project_edge_return stmt ret [v] params
          end
      end
  end.

(** [WriteJob::run]. *)
Inductive WriteJob :=
  | JobNode (stmt : WriteStmt R)
  | JobCreate (stmt : CreateStmt R)
  | JobEdge (stmt : EdgeWriteStmt R).

Definition run_job (job : WriteJob) (params : gmap str Val.t) : wio Rows :=
  match job with
  | JobNode stmt => execute_write stmt params
  | JobCreate stmt => execute_create stmt params
  | JobEdge stmt => execute_edge_write stmt params
  end.

(** The overlay a read of the generation takes. *)
Definition delta_for_read (st : DeltaWriter) : DeltaSnapshot * Z :=
  if core_uuid st =? gen_uuid then (p_delta (DeltaWriter.delta_snapshot_at st), p_epoch (DeltaWriter.delta_snapshot_at st))
  else (DeltaSnapshot.empty, 0).
End server.
