(* ===== verification/ServerSafety.v ===== *)
(** What the statements of the server hand to the delta writer.

    The theorems on the writer assume that the server resolved each operation as its replay will
    ([accepted] of [WriterSafety]).  This file proves that of every statement the server runs. *)

From S2P Require Import Prelude Values ValueOrder Wire Crypto Seal Identity WalCodec WalReplay WalSink.
From S2P Require Import NodeDelta Memtable MemtableInv MemtableApply MemtableCodec L0Segment Snapshot SnapshotRead DeltaFold.
From S2P Require Import Compaction Resolve TouchedJournal DeltaWriter WriterDisk WriterInv WriterFlush WriterSafety.
From S2P Require Import Statement KeyProbe ServerWrite.

(** * Calls that change nothing *)

Create HintDb reads.

Definition reads {A} (m : wio A) : Prop := ∀ st, (m st).2 = st.

Lemma reads_ret {A} (a : A) : reads (mret a).
Proof. done. Qed.
Lemma reads_lift {A} (r : result A) : reads (wlift r).
Proof. done. Qed.
Lemma reads_panic {A} (m : option A) : reads (wpanic m).
Proof. by destruct m. Qed.
Lemma reads_try {A} (f : DeltaWriter → result A) : reads (wtry f).
Proof. done. Qed.
Lemma reads_bind {A B} (m : wio A) (f : A → wio B) : reads m → (∀ a, reads (f a)) → reads (m ≫= f).
Proof.
  intros Hm Hf st. specialize (Hm st). unfold mbind, wio_bind. destruct (m st) as [[a|e] st1]; cbn in *; subst; [apply Hf|done].
Qed.
#[export] Hint Resolve reads_ret reads_lift reads_panic reads_try reads_bind : reads.

(** A call that reads, and then another: it failed with nothing changed, or its answer went on. *)
Lemma bind_reads {A B} (m : wio A) (f : A → wio B) st r st' : reads m → (m ≫= f) st = (r, st') →
  (st' = st ∧ is_ok r = false) ∨ ∃ a, m st = (Ok a, st) ∧ f a st = (r, st').
Proof.
  intros Hm. specialize (Hm st). unfold mbind, wio_bind. destruct (m st) as [[a|e] st1]; cbn in Hm; subst st1.
  - right. by exists a.
  - intros [= <- <-]. by left.
Qed.

(** What follows a write and reads does not undo it, and does not report a refused one as done. *)
Lemma then_reads {A B} (m : wio A) (f : A → wio B) st r st' : (∀ a, reads (f a)) → (m ≫= f) st = (r, st') →
  ∃ wr, m st = (wr, st') ∧ (is_ok r = true → is_ok wr = true).
Proof.
  intros Hf. unfold mbind, wio_bind. destruct (m st) as [[a|e] st1].
  - intros E. exists (Ok a). pose proof (Hf a st1) as H. rewrite E in H. cbn in H. by subst.
  - intros [= <- <-]. by exists (Err e).
Qed.

Section server.
Context {crypto : Crypto} {layout : Layout} {R Rows : Type} {gen : Generation R Rows} {use : KeyUse}.
Variable random_nonce : nat → bytes.

Lemma reads_committed_id resolved key : reads (committed_id resolved key).
Proof. destruct resolved; unfold committed_id; auto with reads. Qed.
Lemma reads_committed_rows keys : reads (committed_rows keys).
Proof. induction keys as [|[resolved key] keys IH]; cbn; auto using reads_committed_id with reads. Qed.
Lemma reads_committed_edge rt row key : reads (committed_edge rt row key).
Proof. apply reads_try. Qed.
Lemma reads_committed_edges rt planned : reads (committed_edges rt planned).
Proof. induction planned as [|[row key] planned IH]; cbn; unfold committed_edge; auto with reads. Qed.
Lemma reads_check_delete op resolved : reads (check_delete op resolved).
Proof.
  destruct op as [| |[]], resolved; cbn; auto with reads. apply reads_bind; [apply reads_try|]. intros []; auto with reads.
Qed.
Lemma reads_admit stmt resolution value ops : reads (admit_row stmt resolution value ops).
Proof. unfold admit_row, resolve_row. eauto using reads_check_delete with reads. Qed.
Lemma reads_plan_rows stmt params var rows : reads (plan_rows stmt params var rows).
Proof.
  induction rows as [|[row [value resolution]] rows IH]; cbn; [auto with reads|].
  apply reads_bind; [auto with reads|intros ops]. apply reads_bind; [apply reads_admit|intros resolved].
  apply reads_bind; [done|]. intros [rest anchors]. auto with reads.
Qed.
Lemma reads_project ret cols rows params : reads (project_write_return ret cols rows params).
Proof. unfold project_write_return. auto with reads. Qed.
Lemma reads_project_edge stmt ret rows params : reads (project_edge_return stmt ret rows params).
Proof. unfold project_edge_return. auto using reads_project with reads. Qed.
#[local] Hint Resolve reads_committed_id reads_committed_edge reads_committed_rows reads_committed_edges reads_check_delete reads_admit
  reads_plan_rows reads_project reads_project_edge : reads.

(** * What the published snapshot answers *)

(** The snapshot that is published is the writer's state. *)
Definition current (st : DeltaWriter) : Prop := DeltaWriter.delta_snapshot st = view (abs st).

Lemma born_l0_current st key : current st → born_synthetic_for_identity st key = born_in_l0 (levels st) key.
Proof. intros E. unfold born_synthetic_for_identity. rewrite E. unfold view. cbn. by rewrite find_map_map. Qed.

Lemma born_delta_current st key : current st →
  born_synthetic_in_delta st key = born_in_delta (w_mem (inner st)) (levels st) key.
Proof.
  intros E. unfold born_synthetic_in_delta, DeltaSnapshot.born_synthetic_for_identity. rewrite E.
  unfold born_in_delta, born_in_l0, DeltaSnapshot.levels_newest_first, view. cbn. by rewrite find_map_map.
Qed.

(** * Node statements *)

Lemma build_ops_keyed eval eval_map label key value op ops :
  build_node_wal_ops eval eval_map label key value op = Ok ops →
  Forall (λ o, node_key o = Some (label, key, value)) ops.
Proof.
  destruct op as [items|items|]; cbn.
  - intros H%fold_set_items_anchored. eapply Forall_impl; [exact H|]. by intros o [? _].
  - destruct (remove_loop key items [] []) as [[props removed]|]; [|done]. cbn. intros [= <-].
    apply Forall_app. destruct props, removed; by repeat constructor.
  - intros [= <-]. by repeat constructor.
Qed.

Lemma node_ops_keyed (stmt : WriteStmt R) eval eval_map resolution value st ops :
  node_ops_of stmt eval eval_map resolution value st = Ok ops →
  Forall (λ o, node_key o = Some (s_label stmt, s_key stmt, value)) ops.
Proof.
  unfold node_ops_of. destruct (build_node_wal_ops _ _ _ _ _ _) as [ops1|] eqn:E1; [|done].
  apply build_ops_keyed in E1. cbn [mbind result_bind]. destruct (s_upsert stmt && _); [|by intros [= <-]].
  destruct (fold_set_items _ _ _ _ _ _ _) as [ops2|] eqn:E2; [|done]. cbn [mbind result_bind]. intros [= <-].
  apply fold_set_items_anchored in E2. apply Forall_app. split; [done|].
  eapply Forall_impl; [exact E2|]. by intros o [? _].
Qed.

(** The operations of one anchored node, once it is admitted. *)
Definition offered (st : DeltaWriter) (o : WalOp * OpResolution) : Prop :=
  op_ok o.1 → op_uses o.1 → accepted (w_mem (inner st)) (levels st) o.

Lemma admit_resolved (stmt : WriteStmt R) resolution value ops st resolved : admit_row stmt resolution value ops st = (Ok resolved, st) →
  resolve_node_op_from (born_synthetic_for_identity st) (born_synthetic_in_delta st) resolution
    (s_label stmt, s_key stmt, value) (is_set_op (s_op stmt)) (s_upsert stmt) = Ok resolved.
Proof.
  unfold admit_row. intros H. apply bind_reads in H as [[_ ?]|(? & _ & H)]; [done| |auto with reads].
  apply bind_reads in H as [[_ ?]|(r & E & H)]; [done| |unfold resolve_row; auto with reads].
  apply bind_reads in H as [[_ ?]|(? & _ & H)]; [done| |auto with reads].
  apply bind_reads in H as [[_ ?]|(? & _ & H)]; [done| |auto with reads].
  injection H as ->. unfold resolve_row, wtry in E. by injection E.
Qed.

Lemma resolve_from_ext f g f' g' resolution key is_set upsert : f key = f' key → g key = g' key →
  resolve_node_op_from f g resolution key is_set upsert = resolve_node_op_from f' g' resolution key is_set upsert.
Proof. intros E1 E2. unfold resolve_node_op_from. by rewrite E1, E2. Qed.

(** A row that was resolved by the probe of its own key, or by a sweep that found nothing out. *)
Lemma admitted_offered (stmt : WriteStmt R) resolution value eval eval_map ops st resolved : current st →
  resolution = Unindexed ∨ resolution = Resolve.resolve_business_key (s_label stmt) (s_key stmt) value →
  node_ops_of stmt eval eval_map resolution value st = Ok ops →
  admit_row stmt resolution value ops st = (Ok resolved, st) →
  Forall (offered st) (map (λ op, (op, ResNode resolved)) ops).
Proof.
  intros Hc Hres Hops%node_ops_keyed Hadm%admit_resolved.
  erewrite resolve_from_ext in Hadm by (apply born_l0_current || apply born_delta_current; done).
  destruct Hres as [->| ->]; [done|]. apply Forall_map. eapply Forall_impl; [exact Hops|]. intros op Hk Hok Hu.
  exact (accepted_node _ _ op _ _ _ resolved Hk Hok Hu Hadm).
Qed.

Lemma admit_indexed (stmt : WriteStmt R) resolution value ops st resolved :
  admit_row stmt resolution value ops st = (Ok resolved, st) → resolution ≠ Unindexed.
Proof. intros H%admit_resolved. by intros ->. Qed.

Lemma plan_rows_offered (stmt : WriteStmt R) params var rows st out : current st →
  Forall (λ r, r.2.2 = Unindexed ∨ r.2.2 = Resolve.resolve_business_key (s_label stmt) (s_key stmt) r.2.1) rows →
  plan_rows stmt params var rows st = (Ok out, st) → Forall (offered st) out.1 ∧
  ∃ opss, Forall2 (λ r ops, node_ops_of stmt (eval_row_value params var r.1) (eval_row_val params var r.1)
      (Resolve.resolve_business_key (s_label stmt) (s_key stmt) r.2.1) r.2.1 st = Ok ops) rows opss ∧
    map fst out.1 = concat opss.
Proof.
  intros Hc. revert out. induction rows as [|[row [value resolution]] rows IH]; intros out Hr; cbn.
  { intros [= <-]. split; [constructor|]. exists []. by split. }
  apply Forall_cons in Hr as [Hr1 Hr]. intros H.
  apply bind_reads in H as [[_ ?]|(ops & E & H)]; [done| |auto with reads].
  apply bind_reads in H as [[_ ?]|(resolved & E2 & H)]; [done| |auto with reads].
  apply bind_reads in H as [[_ ?]|([rest anchors] & E3 & H)]; [done| |auto with reads]. injection H as <-.
  unfold wtry in E. injection E as E. destruct (IH _ Hr E3) as (IH1 & opss & IH2 & IH3). split.
  - apply Forall_app. split; [by eapply admitted_offered|done].
  - exists (ops :: opss). cbn in IH3 |- *. split.
    + constructor; [|done]. cbn. apply admit_indexed in E2. destruct Hr1 as [Hr1|Hr1]; simpl in Hr1; by subst resolution.
    + rewrite map_app, IH3, map_map. cbn. by rewrite map_id.
Qed.

(** * Relationship statements *)

(** The scan for an edge with an identifying property finds only what the scan without finds. *)
Definition keyed_narrows : Prop := ∀ s rt d key,
  find_outgoing_edge_keyed DeltaSnapshot.empty s rt d None = Ok None →
  find_outgoing_edge_keyed DeltaSnapshot.empty s rt d (Some key) = Ok None.

Lemma endpoint_one key id : resolve_endpoint key = Ok id → one_key key = id.
Proof. unfold resolve_endpoint, one_key. destruct (Resolve.resolve_business_key _ _ _); try done; by intros [= <-]. Qed.

Record row_resolved (st : DeltaWriter) (row : EdgeRow) : Prop := {
  rr_src : one_key (er_src row) = (er_core row).1;
  rr_dst : one_key (er_dst row) = (er_core row).2;
  rr_ends : er_ends row = (or_else (er_core row).1 (born_in_l0 (levels st) (er_src row)),
                           or_else (er_core row).2 (born_in_l0 (levels st) (er_dst row)));
}.

Lemma edge_row_resolved (stmt : EdgeWriteStmt R) eval eval_map st row : current st →
  edge_row stmt eval eval_map st = Ok row → row_resolved st row.
Proof.
  intros Hc. unfold edge_row. destruct (eval (ep_value (es_src stmt))) as [sv|]; [|done]. cbn [mbind result_bind].
  destruct (eval (ep_value (es_dst stmt))) as [dv|]; [|done]. cbn [mbind result_bind].
  destruct (match es_key stmt with Some _ => _ | None => _ end) as [ek|]; [|done]. cbn [mbind result_bind].
  destruct (edge_set_patches _ _ _ _ _) as [[ps rp]|]; [|done]. cbn [mbind result_bind].
  destruct (ensure_identity_not_reassigned ek ps); [|done]. cbn [mbind result_bind].
  destruct (resolve_endpoint (ep_label (es_src stmt), _, _)) as [sc|] eqn:Es; [|done]. cbn [mbind result_bind].
  destruct (resolve_endpoint (ep_label (es_dst stmt), _, _)) as [dc|] eqn:Ed; [|done]. cbn [mbind result_bind].
  intros [= <-]. split; cbn; [by apply endpoint_one|by apply endpoint_one|]. by rewrite !born_l0_current.
Qed.

(** The core edge a merge found is the one its replay finds, under the identity it is stored
    with. *)
Lemma plan_core_edge st reltype rt core ends src dst ek patches replace plan : keyed_narrows →
  plan_edge_merge st reltype rt core ends src dst ek patches replace = Ok plan → idempotent plan = None →
  core_edge_id plan = match core with
                      | (Some s, Some d) =>
                          match find_outgoing_edge_keyed DeltaSnapshot.empty s rt d (plan_edge_key plan) with
                          | Ok id => id
                          | Err _ => None
                          end
                      | _ => None
                      end.
Proof.
  intros Hn. unfold plan_edge_merge. destruct core as [[s|] [d|]]; cbn [mbind result_bind]; try by intros [= <-].
  destruct (find_outgoing_edge_keyed DeltaSnapshot.empty s rt d ek) as [[cid|]|] eqn:E; [| |done]; cbn [mbind result_bind].
  - destruct (bool_decide _ && negb replace); intros [= <-]; cbn; [done|]. by rewrite E.
  - intros [= <-] _. cbn. destruct ek as [key|]; [by rewrite E|].
    match goal with |- _ = match find_outgoing_edge_keyed _ _ _ _ ?k with Ok _ => _ | Err _ => _ end => destruct k as [key|] end;
      [by rewrite Hn|by rewrite E].
Qed.

Lemma upsert_offered (stmt : EdgeWriteStmt R) rt st row plan : keyed_narrows → row_resolved st row →
  edge_reltype_id (es_reltype stmt) = Ok rt → row_plan stmt rt row st = Ok plan → idempotent plan = None →
  offered st (upsert_edge_op (es_reltype stmt) row (plan_edge_key plan),
              ResEdge (er_ends row).1 (er_ends row).2 (core_edge_id plan)).
Proof.
  intros Hn [Hs Hd He] Hrt Hp Hi Hok Hu. unfold row_plan in Hp.
  pose proof (plan_core_edge _ _ _ _ _ _ _ _ _ _ _ Hn Hp Hi) as Hc.
  eapply accepted_edge; [done|done|done|]. unfold edge_reltype_id in Hrt.
  destruct (gen_reltype_id (es_reltype stmt)) as [rt'|] eqn:Er; [|done]. injection Hrt as ->.
  unfold resolve_op, upsert_edge_op. cbn. unfold one_key in Hs, Hd |- *. cbn in Hs, Hd |- *.
  destruct row as [[[sl sk] sv] [[dl dk] dv] [sc dc] ends key ps rp]. cbn in *. rewrite Hs, Hd, He, Er, Hc. cbn.
  destruct sc, dc; cbn; done.
Qed.

Lemma delete_offered (stmt : EdgeWriteStmt R) st row : row_resolved st row →
  offered st (delete_edge_op (es_reltype stmt) row, ResEdge (er_ends row).1 (er_ends row).2 None).
Proof.
  intros [Hs Hd He] Hok Hu. eapply accepted_edge; [done|done|done|].
  unfold resolve_op, delete_edge_op, one_key in *. destruct row as [[[sl sk] sv] [[dl dk] dv] [sc dc] ends key ps rp].
  cbn in *. rewrite Hs, Hd, He. cbn. by destruct sc, dc.
Qed.

(** * Statements *)

(** A merge that has nothing to write: nothing to assign, and the core has the relationship. *)
Definition nothing_to_write (rt : Z) (row : EdgeRow) : Prop :=
  er_patches row = [] ∧ er_replace row = false ∧
  ∃ s d cid, er_core row = (Some s, Some d) ∧
    find_outgoing_edge_keyed DeltaSnapshot.empty s rt d (er_key row) = Ok (Some cid).

(** What a merge of a relationship has to hand over: one operation on its endpoints and with
    its assignments, under its identifying property if it names one, unless there is nothing
    to write. *)
Definition merge_asks (stmt : EdgeWriteStmt R) (rt : Z) (row : EdgeRow) (o : option WalOp) : Prop :=
  match o with
  | None => nothing_to_write rt row
  | Some op => ~ nothing_to_write rt row ∧
      ∃ key, op = upsert_edge_op (es_reltype stmt) row key ∧ (er_key row = None ∨ key = er_key row)
  end.

(** The operations a statement stands for, in order. *)
Definition asked (job : WriteJob) (params : gmap str Val.t) (st : DeltaWriter) (ops : list WalOp) : Prop :=
  match job with
  | JobNode stmt =>
      let probe := Resolve.resolve_business_key (s_label stmt) (s_key stmt) in
      match s_unwind stmt with
      | None => ∃ value, write_value params (s_key_value stmt) = Ok value ∧
          node_ops_of stmt (write_value params) (param_path_val params) (probe value) value st = Ok ops
      | Some (source, var) => ∃ rows values opss, unwind_rows params source = Ok rows ∧
          collect_res (λ row, eval_row_value params var row (s_key_value stmt)) rows = Ok values ∧
          Forall2 (λ rv ops, node_ops_of stmt (eval_row_value params var rv.1) (eval_row_val params var rv.1)
                               (probe rv.2) rv.2 st = Ok ops) (zip rows values) opss ∧ ops = concat opss
      end
  | JobCreate stmt => ∃ props key value rest, replace_map_patches (write_value params) (c_props stmt) = Ok props ∧
      create_key (c_label stmt) props = Ok key ∧ take_prop key props = Some (value, rest) ∧
      ops = [UpsertNode (c_label stmt) key value rest]
  | JobEdge stmt => ∃ rt, edge_reltype_id (es_reltype stmt) = Ok rt ∧
      match es_unwind stmt with
      | None => ∃ row, edge_row stmt (write_value params) (param_path_val params) st = Ok row ∧
          match es_op stmt with
          | EdgeDelete => ops = [delete_edge_op (es_reltype stmt) row]
          | EdgeCreate => ∃ o, merge_asks stmt rt row o ∧ ops = option_list o
          end
      | Some (source, var) => ∃ rows os, unwind_rows params source = Ok rows ∧
          Forall2 (λ r o, ∃ row, edge_row stmt (eval_row_value params var r) (eval_row_val params var r) st = Ok row ∧
                                 merge_asks stmt rt row o) rows os ∧ ops = omap id os
      end
  end.

(** The writer was given the batch, and what it answered is what the client is told. *)
Definition handed (batch : list (WalOp * OpResolution)) (st st' : DeltaWriter) (r : result Rows) : Prop :=
  ∃ wr,
    (DeltaWriter.write_batch random_nonce batch st = (wr, st') ∨
     ∃ o, batch = [o] ∧ DeltaWriter.write random_nonce o.1 o.2 st = (wr, st')) ∧
    (is_ok r = true → is_ok wr = true).

(** The writer was given what the statement asks for, as operations that replay as they were
    resolved. *)
Definition handed_over (job : WriteJob) (params : gmap str Val.t) (st st' : DeltaWriter) (r : result Rows) : Prop :=
  ∃ batch, asked job params st (map fst batch) ∧ Forall (offered st) batch ∧ handed batch st st' r.

(** Nothing was written, and the client is told of an error. *)
Definition refused (st st' : DeltaWriter) (r : result Rows) : Prop := st' = st ∧ is_ok r = false.

Lemma handed_batch job params batch g st r st' : asked job params st (map fst batch) → Forall (offered st) batch →
  (∀ z, reads (g z)) → (DeltaWriter.write_batch random_nonce batch ≫= g) st = (r, st') → handed_over job params st st' r.
Proof. intros Ha Hb Hg H. apply then_reads in H as (wr & E & Hok); [|done]. exists batch. split_and!; [done..|]. exists wr. auto. Qed.

Lemma handed_one job params o g st r st' : asked job params st [o.1] → offered st o → (∀ z, reads (g z)) →
  (DeltaWriter.write random_nonce o.1 o.2 ≫= g) st = (r, st') → handed_over job params st st' r.
Proof.
  intros Ha Ho Hg H. apply then_reads in H as (wr & E & Hok); [|done]. exists [o].
  split_and!; [done|by constructor|]. exists wr. eauto.
Qed.

(** The keys of a batch have integers that are exact as floats. *)
Definition exact_keys (stmt : WriteStmt R) (params : gmap str Val.t) : Prop :=
  match s_unwind stmt with
  | Some (source, var) => ∀ rows values, unwind_rows params source = Ok rows →
      collect_res (λ row, eval_row_value params var row (s_key_value stmt)) rows = Ok values → Forall exact values
  | None => True
  end.

Lemma zip_resolved {A} (rows : list A) values (res : list KeyResolution) f :
  res = map (λ _, Unindexed) values ∨ res = map f values →
  Forall (λ r : A * (Value.t * KeyResolution), r.2.2 = Unindexed ∨ r.2.2 = f r.2.1) (zip rows (zip values res)).
Proof.
  intros H. revert rows res H. induction values as [|v values IH]; intros [|row rows] res [->| ->]; cbn; try constructor;
    [by left|by apply IH; left|by right|by apply IH; right].
Qed.

Lemma zip_rows {A B C} (P : A * B → C → Prop) (rows : list A) (values : list B) (res : list KeyResolution) out :
  length res = length values → Forall2 (λ r c, P (r.1, r.2.1) c) (zip rows (zip values res)) out →
  Forall2 P (zip rows values) out.
Proof.
  revert rows res out. induction values as [|v values IH]; intros [|row rows] [|x res] out Hl; cbn;
    inversion 1; subst; try done; constructor; [done|]. apply IH with res; [by injection Hl|done].
Qed.

Lemma write_handed stmt params st r st' : probes_ok gen_indexes → exact_keys stmt params → current st →
  execute_write random_nonce stmt params st = (r, st') → refused st st' r ∨ handed_over (JobNode stmt) params st st' r.
Proof.
  intros Hg Hx Hc. unfold execute_write, exact_keys in *. intros H.
  apply bind_reads in H as [?|(? & _ & H)]; [by left| |unfold refuse_orphaned_delta; auto with reads].
  destruct (s_unwind stmt) as [[source var]|] eqn:Eu.
  - unfold execute_write_batch in H.
    apply bind_reads in H as [?|(? & _ & H)]; [by left| |unfold refuse_orphaned_delta; auto with reads].
    apply bind_reads in H as [?|(rows & Er & H)]; [by left| |auto with reads].
    apply bind_reads in H as [?|(values & Ev & H)]; [by left| |auto with reads].
    unfold wlift in Er, Ev. injection Er as Er. injection Ev as Ev.
    destruct (resolve_rows_spec gen_indexes (s_label stmt) (s_key stmt) values Hg (Hx _ _ Er Ev)) as (res & Eres & Hres).
    rewrite Eres in H. apply bind_reads in H as [?|(res' & E' & H)]; [by left| |auto with reads]. injection E' as <-.
    apply bind_reads in H as [?|([ops anchors] & Ep & H)]; [by left| |auto with reads]. right.
    destruct (plan_rows_offered _ _ _ _ _ _ Hc (zip_resolved _ _ _ _ Hres) Ep) as (Hoff & opss & Hops & Econcat).
    eapply handed_batch; [|exact Hoff| |exact H].
    + cbn. rewrite Eu. exists rows, values, opss. split_and!; [done..| |done].
      eapply zip_rows; [|exact Hops]. by destruct Hres as [-> | ->]; rewrite length_map.
    + intros z. destruct (s_ret stmt); auto with reads.
  - apply bind_reads in H as [?|(value & Ev & H)]; [by left| |auto with reads].
    apply bind_reads in H as [?|(ops & Eo & H)]; [by left| |auto with reads].
    apply bind_reads in H as [?|(? & _ & H)]; [by left| |auto with reads].
    apply bind_reads in H as [?|(resolved & Ea & H)]; [by left| |auto with reads]. right.
    unfold wtry in Eo. injection Eo as Eo. unfold wlift in Ev. injection Ev as Ev.
    eapply handed_batch; [| | |exact H].
    + cbn. rewrite Eu. exists value. split; [done|]. rewrite map_map. cbn. by rewrite map_id.
    + by eapply admitted_offered; [|right|..].
    + intros z. destruct (s_ret stmt); auto with reads.
Qed.

Lemma create_handed stmt params st r st' : current st →
  execute_create random_nonce stmt params st = (r, st') → refused st st' r ∨ handed_over (JobCreate stmt) params st st' r.
Proof.
  intros Hc. unfold execute_create. intros H.
  apply bind_reads in H as [?|(props & Ep & H)]; [by left| |auto with reads].
  apply bind_reads in H as [?|(key & Ek & H)]; [by left| |auto with reads].
  apply bind_reads in H as [?|([value patches] & Et & H)]; [by left| |auto with reads].
  apply bind_reads in H as [?|(resolved & Er & H)]; [by left| |unfold resolve_row; auto with reads]. right.
  eapply (handed_one _ _ (UpsertNode (c_label stmt) key value patches, ResNode resolved)); [| | |exact H].
  - unfold wlift in Ep, Ek. injection Ep as Ep. injection Ek as Ek. exists props, key, value, patches. split_and!; try done.
    unfold wpanic in Et. destruct (take_prop key props) as [x|]; [|done]. cbn in Et. by injection Et as ->.
  - intros Hok Hu. unfold resolve_row, wtry in Er. injection Er as Er.
    erewrite resolve_from_ext in Er by (apply born_l0_current || apply born_delta_current; done).
    exact (accepted_node _ _ (UpsertNode (c_label stmt) key value patches) (c_label stmt, key, value) true true resolved eq_refl Hok Hu Er).
  - intros z. destruct (c_ret stmt); auto with reads.
Qed.

Lemma plan_asks (stmt : EdgeWriteStmt R) rt row st plan : row_plan stmt rt row st = Ok plan →
  merge_asks stmt rt row match idempotent plan with
                         | Some _ => None
                         | None => Some (upsert_edge_op (es_reltype stmt) row (plan_edge_key plan))
                         end.
Proof.
  unfold row_plan, plan_edge_merge, nothing_to_write. destruct row as [src dst [sc dc] ends key ps rp]. cbn.
  destruct sc as [s|], dc as [d|]; cbn [mbind result_bind];
    try (intros [= <-]; split; [intros (_ & _ & ? & ? & ? & E & _); discriminate E|];
         eexists; split; [done|]; destruct key; [by right|by left]).
  destruct (find_outgoing_edge_keyed _ s rt d key) as [[cid|]|] eqn:Ef; [| |done]; cbn [mbind result_bind].
  - destruct (bool_decide (length ps = 0%nat) && negb rp) eqn:Eg; intros [= <-]; cbn.
    + apply andb_true_iff in Eg as [Eg%bool_decide_eq_true Er]. apply length_zero_iff_nil in Eg. destruct rp; [done|].
      split_and!; try done. by exists s, d, cid.
    + split; [|eexists; split; [done|by right]]. intros (E1 & E2 & _). simpl in E1, E2. by subst.
  - intros [= <-]. cbn. split; [intros (_ & _ & s' & d' & c & [= <- <-] & E); simpl in E; by rewrite Ef in E|].
    eexists. split; [done|]. destruct key; [by right|by left].
Qed.

Lemma plan_edge_rows_offered (stmt : EdgeWriteStmt R) rt params var rows st out : keyed_narrows → current st →
  edge_reltype_id (es_reltype stmt) = Ok rt → plan_edge_rows stmt rt params var rows st = Ok out →
  Forall (offered st) out.1 ∧
  ∃ os, Forall2 (λ r o, ∃ row, edge_row stmt (eval_row_value params var r) (eval_row_val params var r) st = Ok row ∧
                               merge_asks stmt rt row o) rows os ∧ map fst out.1 = omap id os.
Proof.
  intros Hn Hc Hrt. revert out. induction rows as [|r rows IH]; intros out; cbn.
  { intros [= <-]. split; [constructor|]. by exists []. }
  destruct (edge_row stmt _ _ st) as [row|] eqn:Er; [|done]. cbn. destruct (row_plan stmt rt row st) as [plan|] eqn:Ep; [|done].
  cbn. destruct (plan_edge_rows stmt rt params var rows st) as [[ops planned]|]; [|done]. cbn. intros [= <-].
  destruct (IH _ eq_refl) as (IH1 & os & IH2 & IH3). cbn in IH1, IH3. pose proof (plan_asks _ _ _ _ _ Ep) as Hask. split.
  - cbn. destruct (idempotent plan) eqn:Ei; [done|]. constructor; [|done].
    eapply upsert_offered; try done. by eapply edge_row_resolved.
  - eexists (_ :: os). split; [constructor; [by exists row|done]|]. cbn. by destruct (idempotent plan); cbn; rewrite IH3.
Qed.

Lemma edge_handed stmt params st r st' : keyed_narrows → current st →
  execute_edge_write random_nonce stmt params st = (r, st') →
  refused st st' r ∨ handed_over (JobEdge stmt) params st st' r ∨ st' = st ∧ es_unwind stmt = None ∧ asked (JobEdge stmt) params st [].
Proof.
  intros Hn Hc. unfold execute_edge_write. destruct (es_unwind stmt) as [[source var]|] eqn:Eu.
  - unfold execute_edge_write_batch. intros H.
    apply bind_reads in H as [?|(rt & Ert & H)]; [by left| |auto with reads].
    apply bind_reads in H as [?|(rows & Erows & H)]; [by left| |auto with reads].
    apply bind_reads in H as [?|([ops planned] & Ep & H)]; [by left| |auto with reads]. right. left.
    unfold wlift in Ert, Erows. injection Ert as Ert. injection Erows as Erows. unfold wtry in Ep. injection Ep as Ep.
    destruct (plan_edge_rows_offered _ _ _ _ _ _ _ Hn Hc Ert Ep) as (Hoff & os & Hos & Eos).
    eapply handed_batch; [|exact Hoff| |exact H].
    + exists rt. split; [done|]. rewrite Eu. by exists rows, os.
    + intros z. destruct (es_ret stmt); auto with reads.
  - intros H. apply bind_reads in H as [?|(rt & Ert & H)]; [by left| |auto with reads].
    apply bind_reads in H as [?|(row & Er & H)]; [by left| |auto with reads].
    apply bind_reads in H as [?|(plan & Ep & H)]; [by left| |auto with reads].
    unfold wlift in Ert. injection Ert as Ert. unfold wtry in Er, Ep. injection Er as Er. injection Ep as Ep.
    pose proof (edge_row_resolved _ _ _ _ _ Hc Er) as Hr. unfold plan_edge_write in Ep. destruct (es_op stmt) eqn:Eop.
    + destruct (row_plan stmt rt row st) as [pl|] eqn:Epl; [|done]. cbn in Ep. injection Ep as <-.
      pose proof (plan_asks _ _ _ _ _ Epl) as Hask. destruct (idempotent pl) as [[[cid s] d]|] eqn:Ei.
      * right. right. split_and!; [|done|].
        -- destruct (es_ret stmt) as [ret|]; [|by injection H].
           pose proof (reads_project_edge stmt ret [Val.Rel cid s d rt] params st) as E. rewrite H in E. done.
        -- exists rt. split; [done|]. rewrite Eu. exists row. split; [done|]. rewrite Eop. by exists None.
      * right. left. eapply (handed_one (JobEdge stmt) params (_, _)) in H; [done| | |].
        -- exists rt. split; [done|]. rewrite Eu. exists row. split; [done|]. rewrite Eop. by eexists.
        -- by apply (upsert_offered _ _ _ _ _ Hn Hr Ert Epl Ei).
        -- intros z. destruct (es_ret stmt); auto with reads.
    + injection Ep as <-. right. left. eapply (handed_one (JobEdge stmt) params (_, _)) in H; [done| | |].
      * exists rt. split; [done|]. rewrite Eu. exists row. split; [done|]. by rewrite Eop.
      * by apply (delete_offered stmt _ _ Hr).
      * intros z. destruct (es_ret stmt); auto with reads.
Qed.

End server.

(** * A server over a small core *)

Section examples.
#[local] Existing Instance toy_crypto.
#[local] Existing Instance example_layout.
#[local] Existing Instance numbered_walk.

Definition live_edge (e : DeltaEdge) : bool := negb (de_tombstoned e).

(** Ten nodes, one vector index of two dimensions, no relationship in the core.  The rows of a
    [RETURN] are given as they are. *)
Definition example_generation (uuid : Z) : Generation unit (list (list Val.t)) := {|
  gen_indexes := example_indexes;
  gen_uuid := uuid;
  node_count := 10;
  label_id l := if decide (l = lit "P") then Some 0 else if decide (l = lit "Q") then Some 1 else None;
  gen_reltype_id _ := Some 0;
  vector_indexes := [(lit "P", lit "e", 2)];
  find_outgoing_edge_keyed _ _ _ _ _ := Ok None;
  has_incident_edge s id :=
    Ok (existsb live_edge (DeltaSnapshot.out_edges id s) || existsb live_edge (DeltaSnapshot.in_edges id s));
  project _ _ _ rows _ := Ok rows;
  no_rows := [];
|}.

Definition server_start : DeltaWriter :=
  state_of (@DeltaWriter.open _ _ _ None (@generation_probe _ _ (example_generation 7)) true true 7 10 5 ∅ ∅ [] []).1.

Definition run_at (uuid : Z) (job : WriteJob (R := unit)) (st : DeltaWriter) : result (list (list Val.t)) * DeltaWriter :=
  @run_job _ _ _ _ (example_generation uuid) example_nonce job ∅ st.

Definition person_stmt (id : Z) (upsert : bool) (op : WriteOp) : WriteStmt unit :=
  mkWriteStmt (lit "n") (lit "P") (lit "id") (Literal (Value.Int id)) upsert op [] [] (Some tt) None.

Definition knows_stmt : EdgeWriteStmt unit :=
  mkEdgeStmt (mkEndpoint (lit "P") (lit "id") (Literal (Value.Int 1))) (lit "KNOWS")
    (mkEndpoint (lit "P") (lit "id") (Literal (Value.Int 8))) EdgeCreate None [] None None None.

Definition create_stmt (emb : Value.t) : CreateStmt unit :=
  mkCreateStmt (lit "n") (lit "P") [(lit "id", Literal (Value.Int 9)); (lit "e", Literal emb)] (Some tt).

Definition merge_stmt : WriteStmt unit :=
  person_stmt 9 true (WSet [SetProp (lit "x") (Literal (Value.Int 1)); AddLabels [lit "Q"]]).


(** The check before a plain [DELETE] does not see relationships that were flushed.  A node
    with a relationship in the memtable is not deleted; after a flush the same statement
    succeeds, although the published delta still shows the relationship. *)
Theorem plain_delete_after_flush :
  let delete := JobNode (person_stmt 1 false (WDelete false [])) in
  let st := (run_at 7 (JobEdge knows_stmt) server_start).2 in
  let flushed := DeltaWriter.flush_to_l0 None (example_nonce 0) st in
  (run_at 7 delete st).1 = Err (Bail "Cannot delete node, because it still has relationships") ∧
  flushed.1 = Ok true ∧
  @has_incident_edge _ _ (example_generation 7) (DeltaWriter.delta_snapshot flushed.2) 3 = Ok true ∧
  (run_at 7 delete flushed.2).1 = Ok [[Val.Node 3]] ∧
  DeltaSnapshot.is_tombstoned 3 (DeltaWriter.delta_snapshot (run_at 7 delete flushed.2).2) = true.
Proof. cbv zeta. split_and!; vm_compute; reflexivity. Qed.

(** Two checks that hold for [MERGE] are missing for [CREATE].  With another generation
    served than the writer is bound to, a merge is refused and a create acknowledged, and no read
    sees it.  An embedding of the wrong dimension is refused in a merge and stored by a create. *)
Theorem create_unchecked :
  let run := run_at 8 (JobCreate (create_stmt Value.Null)) server_start in
  (run_at 8 (JobNode merge_stmt) server_start).1 = Err (Bail "the writable layer is bound to another generation") ∧
  run.1 = Ok [[Val.Node 10]] ∧ delta_for_read (gen := example_generation 8) run.2 = (DeltaSnapshot.empty, 0) ∧
  (run_at 7 (JobNode (person_stmt 9 true (WSet [SetProp (lit "e") (Literal (Value.Vector [0]))]))) server_start).1 =
    Err (Bail "wrong number of dimensions") ∧
  let stored := run_at 7 (JobCreate (create_stmt (Value.Vector [0]))) server_start in
  stored.1 = Ok [[Val.Node 10]] ∧
  DeltaSnapshot.node_patch 10 (DeltaWriter.delta_snapshot stored.2) ≫= (λ n, patches n !! lit "e") = Some (Value.Vector [0]).
Proof. cbv zeta. split_and!; vm_compute; reflexivity. Qed.
End examples.
