(* ===== verification/NodeRead.v ===== *)
(** Reading one node through the delta: [Engine::node_record] of exec/access.rs with
    [overlay_node_props], and [node_label_ids_par] of exec.rs.

    The generation below the delta is a [CoreRow]: what its segments and its column store have
    of the node.  [reader] is what a client sees of the node, before the embeddings that a vector
    index serves are left out of the result.  [overlay_get] and
    [node_label_spec] give it in terms of the merged delta of the node and the identity the
    delta has for it, and [index_seek_exact] compares it with what an index seek finds. *)

From S2P Require Import Prelude Values Wire Identity WalCodec NodeDelta Memtable MemtableInv MemtableApply MemtableCodec Snapshot SnapshotRead Statement CompactionReads.

(** * Properties by name *)

Abbreviation NamedProps := (list (str * Value.t)) (only parsing).

(** Last writer wins: an entry of that name is overwritten, otherwise the pair is appended. *)
Fixpoint overlay_named (named : NamedProps) (name : str) (value : Value.t) : NamedProps :=
  match named with
  | [] => [(name, value)]
  | (k, v) :: named => if decide (k = name) then (k, value) :: named else (k, v) :: overlay_named named name value
  end.

Definition named_get (named : NamedProps) (k : str) : option Value.t :=
  snd <$> find (λ p, bool_decide (p.1 = k)) named.

(** * The rows below the delta *)

(** The full row of a node in a segment of the core stack. *)
Record SegmentRow := mkSegmentRow { sr_tombstoned : bool; sr_labels : list str; sr_props : NamedProps }.

(** The newest segment row of a node, its record in the base by name, and its label ids there. *)
Record CoreRow := mkCoreRow { cr_segment : option SegmentRow; cr_props : NamedProps; cr_labels : list Z }.

Definition core_named_props (c : CoreRow) : NamedProps :=
  match cr_segment c with
  | Some row => if sr_tombstoned row then [] else sr_props row
  | None => cr_props c
  end.

Section read.
Variables (node_count : Z) (label_id : str → option Z).

(** * The overlay of the delta *)

Definition overlay_node_props (id : Z) (s : DeltaSnapshot) (named : NamedProps) : NamedProps :=
  if DeltaSnapshot.is_empty s then named
  else
    let nd := DeltaSnapshot.node_patch id s in
    let replaced := match nd with Some d => replaced d | None => false end in
    let born := node_count <=? id in
    let named := if replaced then [] else named in
    let named :=
      if born || replaced then
        match DeltaSnapshot.node_identity_by_dense id s with
        | Some (_, kname, kval) => overlay_named named kname kval
        | None => named
        end
      else named in
    match nd with
    | None => named
    | Some d =>
        let named := foldl (λ named name, filter (λ p, p.1 ≠ name) named) named (sorted_names (removed d)) in
        foldl (λ named p, overlay_named named p.1 p.2) named (sorted_entries bytes_cmp (patches d))
    end.

(** The label ids of a node: those of its segment row, of its identity if it was born in the
    delta, or of its record; then the labels the delta dropped and added. *)
Definition core_label_ids (c : CoreRow) (id : Z) (s : DeltaSnapshot) : list Z :=
  match cr_segment c with
  | Some row => if sr_tombstoned row then [] else omap label_id (sr_labels row)
  | None =>
      if node_count <=? id then
        option_list (DeltaSnapshot.node_identity_by_dense id s ≫= λ '(label, _, _), label_id label)
      else cr_labels c
  end.

Definition node_label_ids (c : CoreRow) (id : Z) (s : DeltaSnapshot) : list Z :=
  let ids := core_label_ids c id s in
  if DeltaSnapshot.is_empty s then ids
  else
    match DeltaSnapshot.node_patch id s with
    | None => ids
    | Some nd =>
        let ids :=
          if decide (labels_removed nd = ∅) then ids
          else
            let removed := omap label_id (sorted_names (labels_removed nd)) in
            filter (λ x, x ∉ removed) ids in
        foldl (λ ids l,
          match label_id l with
          | Some lid => if decide (lid ∈ ids) then ids else ids ++ [lid]
          | None => ids
          end) ids (sorted_names (labels_added nd))
    end.

(** What a client sees of a node. *)
Definition reader (c : CoreRow) (id : Z) (s : DeltaSnapshot) : view :=
  mkView (negb (DeltaSnapshot.is_tombstoned id s)) (named_get (overlay_node_props id s (core_named_props c)))
    (λ l, match label_id l with Some i => bool_decide (i ∈ node_label_ids c id s) | None => false end).

(** * The overlay, one name at a time *)

Lemma named_get_overlay named n v k :
  named_get (overlay_named named n v) k = set_key n (Some v) (named_get named) k.
Proof.
  unfold named_get, set_key. induction named as [|[a x] named IH]; cbn.
  - rewrite (bool_decide_ext (n = k) (k = n)) by done. by case_bool_decide.
  - destruct (decide (a = n)) as [->|Hne]; cbn.
    + rewrite (bool_decide_ext (n = k) (k = n)) by done. by case_bool_decide.
    + destruct (bool_decide_reflect (a = k)) as [->|Hk]; [by rewrite bool_decide_eq_false_2|done].
Qed.

Lemma named_get_retain named n k :
  named_get (filter (λ p, p.1 ≠ n) named) k = set_key n None (named_get named) k.
Proof.
  unfold named_get, set_key. induction named as [|[a x] named IH]; [cbn; by case_bool_decide|].
  rewrite filter_cons. cbn [fst]. destruct (decide (a ≠ n)) as [Hne|Heq]; cbn [find fst].
  - destruct (bool_decide_reflect (a = k)) as [->|Hk]; [by rewrite bool_decide_eq_false_2|done].
  - assert (a = n) as -> by (destruct (decide (a = n)); tauto). rewrite IH.
    rewrite (bool_decide_ext (n = k) (k = n)) by done. by case_bool_decide.
Qed.

Lemma sorted_names_elem (S : gset (list Z)) k : k ∈ sorted_names S ↔ k ∈ S.
Proof. unfold sorted_names. by rewrite merge_sort_Permutation, elem_of_elements. Qed.

Lemma sorted_entries_nodup (ps : gmap (list Z) Value.t) : NoDup (sorted_entries bytes_cmp ps).*1.
Proof. unfold sorted_entries. rewrite merge_sort_Permutation. apply NoDup_fst_map_to_list. Qed.

Lemma sorted_entries_map (ps : gmap (list Z) Value.t) : list_to_map (sorted_entries bytes_cmp ps) = ps.
Proof.
  rewrite <- (list_to_map_to_list ps) at 2. apply list_to_map_proper; [apply sorted_entries_nodup|].
  apply merge_sort_Permutation.
Qed.

(** What the overlay shows of one property: the patch, else nothing if it was removed, else the
    business key where the core row is not its source, else the row unless it was replaced. *)
Definition seen_prop (born : bool) (ident : option (str * str * Value.t)) (core : str → option Value.t)
    (nd : NodeDelta) (k : str) : option Value.t :=
  match patches nd !! k with
  | Some v => Some v
  | None =>
      if bool_decide (k ∈ removed nd) then None
      else
        let row := if replaced nd then None else core k in
        match ident with
        | Some (_, kn, kv) => if (born || replaced nd) && bool_decide (k = kn) then Some kv else row
        | None => row
        end
  end.

Lemma seed_get (b : bool) (ident : option (str * str * Value.t)) named k :
  named_get (if b then match ident with Some (_, kn, kv) => overlay_named named kn kv | None => named end else named) k
  = match ident with
    | Some (_, kn, kv) => if b && bool_decide (k = kn) then Some kv else named_get named k
    | None => named_get named k
    end.
Proof. destruct b, ident as [[[? kn] kv]|]; try done. rewrite named_get_overlay. done. Qed.

(** The overlay, whatever the levels are. *)
Lemma overlay_get_of s id named k : levels_ok s →
  (DeltaSnapshot.node_patch id s = None → node_count <= id → DeltaSnapshot.node_identity_by_dense id s = None) →
  named_get (overlay_node_props id s named) k
  = seen_prop (node_count <=? id) (DeltaSnapshot.node_identity_by_dense id s) (named_get named)
      (default NodeDelta.default (DeltaSnapshot.node_patch id s)) k.
Proof.
  intros Hok Hid. unfold overlay_node_props.
  assert (∀ o, DeltaSnapshot.node_patch id s = None → DeltaSnapshot.node_identity_by_dense id s = o →
    named_get named k = seen_prop (node_count <=? id) o (named_get named) NodeDelta.default k) as Hnone.
  { intros o Hn <-. unfold seen_prop. cbn [patches removed replaced NodeDelta.default]. rewrite lookup_empty, bool_decide_eq_false_2 by apply not_elem_of_empty.
    destruct (Z.leb_spec node_count id) as [Hle|_]; cbn [orb andb]; [by rewrite (Hid Hn Hle)|].
    by destruct (DeltaSnapshot.node_identity_by_dense id s) as [[[??]?]|]. }
  destruct (DeltaSnapshot.is_empty s) eqn:Hemp.
  { rewrite (empty_no_patch id s Hok Hemp) in *. by apply Hnone. }
  destruct (DeltaSnapshot.node_patch id s) as [nd|] eqn:Hnd; cbv zeta.
  - unfold seen_prop. cbn [default from_option Datatypes.id].
    rewrite (foldl_view named_get _ (λ f p, set_key p.1 (Some p.2) f));
      [|apply (set_key_ext fst (λ p, Some p.2))|intros; apply named_get_overlay].
    rewrite put_all_lookup by apply sorted_entries_nodup. rewrite sorted_entries_map.
    destruct (patches nd !! k); [done|].
    rewrite (foldl_view named_get _ (λ f n, set_key n None f));
      [|apply (set_key_ext Datatypes.id (λ _, None))|intros; apply named_get_retain].
    rewrite set_all_lookup, (bool_decide_ext _ (k ∈ removed nd)) by apply sorted_names_elem.
    destruct (bool_decide_reflect (k ∈ removed nd)); [done|]. rewrite seed_get. by destruct (replaced nd).
  - cbn [default from_option]. rewrite <- (Hnone _ eq_refl eq_refl), orb_false_r.
    destruct (Z.leb_spec node_count id) as [Hle|_]; [by rewrite (Hid eq_refl Hle)|done].
Qed.

(** A core node goes by the business key its row has, and the key is not removed: the writer
    refuses to. *)
Definition anchored_row (c : CoreRow) (d : Z) (s : DeltaSnapshot) : Prop :=
  ∀ l k v, DeltaSnapshot.node_identity_by_dense d s = Some (l, k, v) →
    named_get (core_named_props c) k = Some v ∧
    ∀ nd, DeltaSnapshot.node_patch d s = Some nd → k ∉ removed nd.

(** The value the index must list is the one a reader sees. *)
Lemma index_value_read c d prop s : levels_ok s → d < node_count → DeltaSnapshot.is_tombstoned d s = false →
  anchored_row c d s → index_value (named_get (core_named_props c)) d prop s = vprop (reader c d s) prop.
Proof.
  intros Hok Hlt Ht Hkey. rewrite is_tombstoned_fold in Ht by done. cbn [vprop reader].
  rewrite overlay_get_of by (done || lia). rewrite (proj2 (Z.leb_gt _ _) Hlt).
  unfold index_value, DeltaSnapshot.effective_index_state, seen_prop, anchored_row in *. cbn [orb andb].
  destruct (DeltaSnapshot.node_patch d s) as [nd|]; cbn [default from_option Datatypes.id].
  - rewrite Ht. destruct (patches nd !! prop); [done|].
    destruct (DeltaSnapshot.node_identity_by_dense d s) as [[[l k] v]|].
    + destruct (Hkey l k v eq_refl) as [Hv Hr]. specialize (Hr nd eq_refl).
      rewrite (bool_decide_ext (k = prop) (prop = k)) by done.
      destruct (bool_decide_reflect (prop = k)) as [->|Hne].
      * rewrite (bool_decide_eq_false_2 (k ∈ removed nd)) by done. by destruct (replaced nd).
      * rewrite andb_false_r. by destruct (replaced nd), (bool_decide (prop ∈ removed nd)).
    + by destruct (replaced nd), (bool_decide (prop ∈ removed nd)).
  - cbn [patches removed replaced NodeDelta.default]. rewrite lookup_empty, bool_decide_eq_false_2 by apply not_elem_of_empty.
    by destruct (DeltaSnapshot.node_identity_by_dense d s) as [[[??]?]|].
Qed.

(** C10: An equality seek over an index is exact for core nodes.  With the index of the core
    listing a node exactly when the value in its core row matches, and every level that touches
    the node knowing it under the indexed label, a live core node is returned exactly when the
    value a reader of the node sees matches, whatever mixture of patches, removals and
    replacements the levels hold.  That includes the business key itself, which a replacement
    leaves: the node goes by the key its core row has, and no level has removed it. *)
Theorem index_seek_exact s c ids label prop key d :
  levels_ok s → d < node_count → node_count <= DeltaSnapshot.synthetic_base s →
  DeltaSnapshot.is_tombstoned d s = false → carries d label s → anchored_row c d s →
  (d ∈ ids ↔ ∃ v, named_get (core_named_props c) prop = Some v ∧ Value.cmp_key v key = Eq) →
  d ∈ range_eq_scan ids label prop key s ↔
  ∃ v, vprop (reader c d s) prop = Some v ∧ Value.cmp_key v key = Eq.
Proof.
  intros Hok Hlt Hle Ht Hc Hkey Hids. rewrite <- index_value_read by done. apply seek_index_value; [done|lia|done..].
Qed.

(** * Over a stack of memtables *)

Section stack.
Variables (m : Memtable) (ls : list Memtable).
Hypothesis (Hm : memtable_wf m) (Hls : Forall memtable_wf ls).
Local Abbreviation s := (DeltaSnapshot.with_levels m (map dyn ls)).

Lemma stack_levels_ok : levels_ok s.
Proof.
  unfold levels_ok, DeltaSnapshot.levels_newest_first. cbn. constructor; [by apply dyn_laws, memtable_laws|].
  apply Forall_map. eapply Forall_impl; [exact Hls|]. intros x Hx. by apply dyn_laws, memtable_laws.
Qed.

Lemma stack_identity id : DeltaSnapshot.node_identity_by_dense id s = find_map (Memtable.node_identity_by_dense id) (m :: ls).
Proof. unfold DeltaSnapshot.node_identity_by_dense, DeltaSnapshot.levels_newest_first. cbn. by rewrite find_map_map. Qed.

Lemma stack_patch id : DeltaSnapshot.node_patch id s = fold_newest (map (Memtable.node_patch id) (m :: ls)).
Proof. rewrite node_patch_fold. unfold patches_of, DeltaSnapshot.levels_newest_first. cbn. by rewrite map_map. Qed.

(** The delta has an identity for a node exactly where it has a delta of it. *)
Lemma stack_identity_patch id :
  is_Some (DeltaSnapshot.node_identity_by_dense id s) ↔ is_Some (DeltaSnapshot.node_patch id s).
Proof.
  rewrite stack_identity, stack_patch. generalize (m :: ls). intros l. induction l as [|x l IH]; [by cbn; split; intros []|].
  cbn [find_map map]. change (fold_newest (?a :: ?l)) with (DeltaSnapshot.fold_patch (fold_newest l) a).
  unfold Memtable.node_identity_by_dense at 1, Memtable.node_patch at 2.
  destruct (by_dense x !! id) as [ck|]; cbn [mbind option_bind]; [|exact IH].
  destruct (nodes x !! ck) as [e|]; cbn [mbind option_bind fmap option_fmap option_map]; [|exact IH].
  split; [|by eexists]. intros _. destruct (fold_newest _); by eexists.
Qed.

Lemma stack_delta_wf id nd : DeltaSnapshot.node_patch id s = Some nd → delta_wf nd.
Proof.
  rewrite node_patch_fold. apply fold_newest_wf. apply patches_of_wf, stack_levels_ok.
Qed.

(** The delta of the node, the default one if there is none. *)
Definition stack_delta (id : Z) : NodeDelta := default NodeDelta.default (DeltaSnapshot.node_patch id s).

Lemma overlay_get id named k :
  named_get (overlay_node_props id s named) k
  = seen_prop (node_count <=? id) (DeltaSnapshot.node_identity_by_dense id s) (named_get named) (stack_delta id) k.
Proof.
  apply (overlay_get_of s id named k stack_levels_ok). intros Hn _. pose proof (stack_identity_patch id) as Hid.
  rewrite Hn in Hid. destruct (DeltaSnapshot.node_identity_by_dense id s); [by destruct (proj1 Hid ltac:(by eexists))|done].
Qed.

(** Labels by name.  Names have ids of their own. *)
Hypothesis label_id_inj : ∀ l l' i, label_id l = Some i → label_id l' = Some i → l = l'.

Definition core_label (c : CoreRow) (id : Z) (l : str) : bool :=
  match label_id l with Some i => bool_decide (i ∈ core_label_ids c id s) | None => false end.

Lemma added_elem (i : Z) ls0 ids :
  i ∈ foldl (λ ids l, match label_id l with
                      | Some lid => if decide (lid ∈ ids) then ids else ids ++ [lid]
                      | None => ids
                      end) ids ls0 ↔ i ∈ ids ∨ ∃ l, l ∈ ls0 ∧ label_id l = Some i.
Proof.
  revert ids. induction ls0 as [|l ls0 IH]; intros ids; cbn.
  { split; [auto|]. intros [?|(? & ?%elem_of_nil & _)]; done. }
  rewrite IH. setoid_rewrite elem_of_cons. destruct (label_id l) as [j|] eqn:E; [case_decide as Hj|].
  - split; [intros [?|(x & ? & ?)]; eauto|]. intros [?|(x & [->|?] & ?)]; eauto. left. congruence.
  - rewrite elem_of_app, list_elem_of_singleton. split.
    + intros [[?| ->]|(x & ? & ?)]; eauto.
    + intros [?|(x & [->|?] & ?)]; eauto. left. right. congruence.
  - split; [intros [?|(x & ? & ?)]; eauto|]. intros [?|(x & [->|?] & ?)]; eauto. congruence.
Qed.

Lemma node_label_spec c id l i : label_id l = Some i →
  bool_decide (i ∈ node_label_ids c id s) = eff_label (core_label c id) (stack_delta id) l.
Proof.
  intros Hl. unfold node_label_ids, stack_delta, eff_label, core_label. rewrite Hl.
  assert (∀ nd, bool_decide (i ∈ foldl (λ ids l, match label_id l with
      | Some lid => if decide (lid ∈ ids) then ids else ids ++ [lid]
      | None => ids end)
      (if decide (labels_removed nd = ∅) then core_label_ids c id s
       else filter (λ x, x ∉ omap label_id (sorted_names (labels_removed nd))) (core_label_ids c id s))
      (sorted_names (labels_added nd)))
    = bool_decide (l ∈ labels_added nd) || negb (bool_decide (l ∈ labels_removed nd)) &&
      bool_decide (i ∈ core_label_ids c id s)) as Hall.
  { intros nd.
    assert (∀ S : gset (list Z), (∃ x, x ∈ sorted_names S ∧ label_id x = Some i) ↔ l ∈ S) as Hnames.
    { intros S. setoid_rewrite sorted_names_elem. split; [|eauto]. intros (x & Hx & E). by rewrite (label_id_inj l x i). }
    rewrite <- bool_decide_not, <- bool_decide_and, <- bool_decide_or. apply bool_decide_ext.
    rewrite added_elem, Hnames. case_decide as He.
    - rewrite He. set_solver.
    - rewrite list_elem_of_filter, list_elem_of_omap, Hnames. tauto. }
  assert (∀ b, b = bool_decide (l ∈ labels_added NodeDelta.default) ||
    negb (bool_decide (l ∈ labels_removed NodeDelta.default)) && b) as Hno.
  { intros b. rewrite !(bool_decide_eq_false_2 (l ∈ _)) by apply not_elem_of_empty. done. }
  destruct (DeltaSnapshot.is_empty s) eqn:Hemp.
  { rewrite (empty_no_patch id s stack_levels_ok Hemp). apply Hno. }
  destruct (DeltaSnapshot.node_patch id s) as [nd|]; [apply Hall|apply Hno].
Qed.

Lemma reader_alive c id : alive (reader c id s) = negb (tombstoned (stack_delta id)).
Proof.
  unfold reader. cbn [alive]. rewrite (is_tombstoned_fold id s stack_levels_ok). unfold stack_delta. by destruct (DeltaSnapshot.node_patch id s).
Qed.
End stack.
End read.

(** * A node whose identity is known *)

Section keyed.
Variables (key : str) (value : Value.t).

(** The properties a replacement starts from: the business key alone. *)
Definition only_key : str → option Value.t := set_key key (Some value) (λ _, None).

(** The row a read of the node starts from: that of the core, with the business key of a node
    born in the delta. *)
Definition keyed_row (born : bool) (core : str → option Value.t) : str → option Value.t :=
  if born then set_key key (Some value) core else core.

Definition keyed_prop (row : str → option Value.t) (nd : NodeDelta) (k : str) : option Value.t :=
  match patches nd !! k with
  | Some v => Some v
  | None => if bool_decide (k ∈ removed nd) then None else if replaced nd then only_key k else row k
  end.

Lemma seen_keyed born label core nd k :
  seen_prop born (Some (label, key, value)) core nd k = keyed_prop (keyed_row born core) nd k.
Proof.
  unfold seen_prop, keyed_prop, keyed_row, only_key, set_key. destruct (patches nd !! k); [done|].
  destruct (bool_decide (k ∈ removed nd)); [done|]. destruct born, (replaced nd); cbn; try done; by case_bool_decide.
Qed.

(** What is read of a delta over a row. *)
Definition keyed_view (row : str → option Value.t) (labels : str → bool) (nd : NodeDelta) : view :=
  mkView (negb (tombstoned nd)) (keyed_prop row nd) (eff_label labels nd).

Definition keeps_key (o : node_op) : Prop :=
  match o with OpDelete | OpRemove _ => False | _ => True end.

Lemma keyed_prop_of row d d' k : eff_prop_part d = eff_prop_part d' → keyed_prop row d k = keyed_prop row d' k.
Proof. intros [= E1 E2 E3 E4]. unfold keyed_prop. by rewrite E1, E2, E3. Qed.

Lemma keyed_set_prop row d p k :
  keyed_prop row (NodeDelta.set_prop d p) k = set_key p.1 (Some p.2) (keyed_prop row d) k.
Proof.
  unfold keyed_prop, set_key, NodeDelta.set_prop. cbn. destruct (bool_decide_reflect (k = p.1)) as [->|E].
  - by rewrite lookup_insert_eq.
  - rewrite lookup_insert_ne by done. destruct (patches d !! k); [done|].
    rewrite (bool_decide_ext _ (k ∈ removed d)); [done|]. rewrite elem_of_difference, elem_of_singleton. tauto.
Qed.

Lemma keyed_replace row d ps k : keyed_prop row (NodeDelta.replace ps d) k = set_all ps only_key k.
Proof.
  unfold NodeDelta.replace, set_all. rewrite (foldl_view (keyed_prop row) _ (λ f p, set_key p.1 (Some p.2) f)).
  - apply foldl_pointwise; [apply (set_key_ext fst (λ p, Some p.2))|].
    intros x. unfold keyed_prop. cbn. by rewrite lookup_empty, bool_decide_eq_false_2 by apply not_elem_of_empty.
  - apply (set_key_ext fst (λ p, Some p.2)).
  - intros a p x. unfold keyed_prop, set_key. cbn. destruct (bool_decide_reflect (x = p.1)) as [->|E].
    + by rewrite lookup_insert_eq.
    + by rewrite lookup_insert_ne.
Qed.

(** One operation that is neither a deletion nor a removal. *)
Lemma keyed_step row labels core d o : keeps_key o →
  view_eq (keyed_view row labels (delta_step d o)) (step_from only_key core (keyed_view row labels d) o).
Proof.
  intros Ho. pose proof (delta_step_view (mkView true row labels) d o) as (Ha & _ & Hl).
  destruct o as [ps|ns|ps|a r|]; try done; (split; [exact Ha|split; [|exact Hl]]); intros k; cbn [vprop keyed_view delta_step step_from spec_step].
  - unfold NodeDelta.upsert.
    rewrite (foldl_view (keyed_prop row) _ (λ f p, set_key p.1 (Some p.2) f));
      [|apply (set_key_ext fst (λ p, Some p.2))|intros; apply keyed_set_prop]. done.
  - apply keyed_replace.
  - apply (keyed_prop_of row _ (NodeDelta.resurrect d)), set_labels_keeps.
Qed.

Lemma keeps_key_wf d o : delta_wf d → keeps_key o → delta_wf (delta_step d o) ∧ tombstoned (delta_step d o) = false.
Proof.
  intros Hd%resurrect_wf Ho. destruct o as [ps|ns|ps|a r|]; try done; cbn [delta_step].
  - by apply foldl_wf; [apply set_prop_wf|..].
  - split; [by apply replace_wf|]. by pose proof (replace_keeps ps (NodeDelta.resurrect d)) as [= _ _ ->].
  - by apply set_labels_wf.
Qed.

Lemma keeps_key_run d os : delta_wf d → Forall keeps_key os → os ≠ [] →
  delta_wf (foldl delta_step d os) ∧ tombstoned (foldl delta_step d os) = false.
Proof.
  intros Hd Hos. revert d Hd. induction Hos as [|o os Ho Hos IH]; intros d Hd Hne; [done|]. cbn.
  destruct (keeps_key_wf d o Hd Ho) as [Hw Ht]. destruct os as [|o' os]; [done|]. by apply IH.
Qed.

(** The steps look at one property, and at one label, at a time. *)
Lemma run_from_prop core v w os k : Forall keeps_key os → (∀ k, vprop v k = vprop w k) →
  vprop (run_from only_key core v os) k = vprop (run_from only_key core w os) k.
Proof.
  unfold run_from. intros Hos. revert v w. induction Hos as [|o os Ho Hos IH]; intros v w E; cbn; [done|].
  apply IH. intros x. destruct o; try done; cbn; auto.
  apply foldl_pointwise; [apply (set_key_ext fst (λ p, Some p.2))|done].
Qed.

Lemma run_from_label core v w os l : Forall keeps_key os → vlabel v l = vlabel w l →
  vlabel (run_from only_key core v os) l = vlabel (run_from only_key core w os) l.
Proof.
  unfold run_from. intros Hos. revert v w. induction Hos as [|o os Ho Hos IH]; intros v w E; cbn; [done|].
  apply IH. destruct o; try done; cbn. by rewrite !set_all_lookup, E.
Qed.

#[local] Instance step_from_proper core : Proper (view_eq ==> eq ==> view_eq) (step_from only_key core).
Proof.
  intros v w E o _ <-. pose proof (spec_step_proper core v w E o o eq_refl) as H.
  destruct o; try exact H. destruct E as (_ & _ & El). by split_and!.
Qed.

Lemma keyed_run row labels core d os : Forall keeps_key os →
  view_eq (keyed_view row labels (foldl delta_step d os)) (run_from only_key core (keyed_view row labels d) os).
Proof.
  unfold run_from. revert d. assert (∀ os v w, view_eq v w → view_eq (foldl (step_from only_key core) v os) (foldl (step_from only_key core) w os)) as Hp.
  { intros l. induction l as [|o l IH]; intros v w E; cbn; [done|]. apply IH. by rewrite E. }
  induction os as [|o os IH]; intros d Ho; cbn; [done|]. apply Forall_cons in Ho as [Ho Hos].
  rewrite IH by done. by apply Hp, keyed_step.
Qed.

(** Deltas that show the same over every row show the same with the business key. *)
Lemma keyed_ext a b : delta_wf a → delta_wf b → (∀ row, view_eq (view_of row a) (view_of row b)) →
  ∀ row k, keyed_prop row a k = keyed_prop row b k.
Proof.
  intros Ha Hb H row k. set (v0 := mkView true (λ _, None) (λ _, false)). set (v1 := mkView true (λ _, Some Value.Null) (λ _, false)).
  assert (∀ x, patches a !! x = patches b !! x) as Hp.
  { intros x. destruct (H v0) as (_ & E & _). specialize (E x). cbn in E. unfold eff_prop in E.
    repeat case_match; congruence. }
  assert (∀ x, patches a !! x = None → replaced a || bool_decide (x ∈ removed a) = replaced b || bool_decide (x ∈ removed b)) as Hr.
  { intros x Hx. destruct (H v1) as (_ & E & _). specialize (E x). cbn in E. unfold eff_prop in E.
    rewrite <- Hp, Hx in E. destruct (replaced a), (replaced b), (bool_decide (x ∈ removed a)), (bool_decide (x ∈ removed b)); done. }
  assert (replaced a = replaced b) as Erep.
  { set (x := fresh (dom (patches a) ∪ removed a ∪ removed b)).
    assert (x ∉ dom (patches a) ∪ removed a ∪ removed b) as Hf by apply is_fresh.
    specialize (Hr x). rewrite !(bool_decide_eq_false_2 (x ∈ _)), !orb_false_r in Hr by set_solver.
    apply Hr, not_elem_of_dom. set_solver. }
  unfold keyed_prop. rewrite <- Hp, <- Erep. destruct (patches a !! k) eqn:Ek; [done|]. specialize (Hr k Ek).
  rewrite <- Erep in Hr. destruct (replaced a) eqn:Er; cbn in Hr; [|by rewrite Hr].
  rewrite (wf_replaced a Ha Er), (wf_replaced b Hb) by congruence. done.
Qed.
End keyed.

(** * A replaced node under its business key *)

Section example.
Import DeltaSnapshot.
#[local] Existing Instance example_layout.

Definition replace_x : WalOp := ReplaceNode (lit "P") (lit "id") (Value.Int 1) [(lit "x", Value.Int 2)].

Definition replaced_snapshot : DeltaSnapshot := from_memtable (level_of 10 5 replace_x (ResNode (Some 3))).

Lemma replaced_snapshot_ok : levels_ok replaced_snapshot.
Proof.
  apply Forall_singleton, dyn_laws, memtable_laws. eapply history_wf; [|apply with_bases_wf].
  apply (level_of_history 10 5 replace_x (ResNode (Some 3))); [unfold replace_x; concrete_ok| |by vm_compute].
  exists (lit "P"), (lit "id"), (Value.Int 1). split; [done|]. apply resolves_b_sound. by vm_compute.
Qed.

(** The row of node 3 had [id] 1 and [y] 5. *)
Definition replaced_row : CoreRow := mkCoreRow None [(lit "id", Value.Int 1); (lit "y", Value.Int 5)] [].

Lemma index_seek_exact_witness :
  range_eq_scan [3] (lit "P") (lit "id") (Value.Int 1) replaced_snapshot = [3] ∧
  (∃ v, vprop (reader 10 (λ _, None) replaced_row 3 replaced_snapshot) (lit "id") = Some v ∧
        Value.cmp_key v (Value.Int 1) = Eq) ∧
  range_eq_scan [3] (lit "P") (lit "y") (Value.Int 5) replaced_snapshot = [].
Proof.
  split; [vm_compute; reflexivity|]. split; [|vm_compute; reflexivity].
  apply (index_seek_exact 10 (λ _, None) replaced_snapshot replaced_row [3] (lit "P") (lit "id") (Value.Int 1) 3).
  - exact replaced_snapshot_ok.
  - lia.
  - apply Z.leb_le. vm_compute. reflexivity.
  - vm_compute. reflexivity.
  - intros lv i Hin Hi. apply list_elem_of_singleton in Hin. subst lv. vm_compute in Hi. injection Hi as <-. reflexivity.
  - intros l k v H. vm_compute in H. injection H as <- <- <-. split; [vm_compute; reflexivity|].
    intros nd Hnd Hr. vm_compute in Hnd. injection Hnd as <-. cbn [removed] in Hr. by apply not_elem_of_empty in Hr.
  - split; [|intros _; by apply list_elem_of_singleton]. intros _. exists (Value.Int 1). split; vm_compute; reflexivity.
  - apply list_elem_of_In. vm_compute. left. reflexivity.
Defined.
End example.
