(* ===== verification/ReadWrites.v ===== *)
(** Reading back what a statement wrote.

    The statements of [ServerWrite], the writer of [DeltaWriter] and the reads of [Snapshot] put
    together: what a reader of the published snapshot sees of a node after an acknowledged [SET]
    or [MERGE], in terms of what it saw before and of the items of the statement. *)

From S2P Require Import Prelude Values ValueOrder Wire Crypto Seal Identity WalCodec WalReplay WalSink.
From S2P Require Import NodeDelta Memtable MemtableInv MemtableApply MemtableCodec L0Segment Snapshot SnapshotRead DeltaFold.
From S2P Require Import Compaction Resolve TouchedJournal DeltaWriter WriterDisk WriterInv WriterFlush WriterSafety FlushCrash.
From S2P Require Import Statement KeyProbe ServerWrite ServerSafety NodeRead.

(** * The delta of a node over a row *)

(** What the delta of a node makes of a row. *)
Definition patched (core : NodeDelta.view) (d : Z) (s : DeltaSnapshot) : NodeDelta.view :=
  view_of core match DeltaSnapshot.node_patch d s with Some n => n | None => NodeDelta.default end.

(** What the sealed levels make of the row. *)
Definition below (core : NodeDelta.view) (d : Z) (ls : list Memtable) : NodeDelta.view :=
  view_of core match fold_newest (map (Memtable.node_patch d) ls) with Some n => n | None => NodeDelta.default end.

Lemma view_of_rows v w nd : (∀ k, vprop v k = vprop w k) → (∀ l, vlabel v l = vlabel w l) →
  view_eq (view_of v nd) (view_of w nd).
Proof.
  intros Hp Hl. apply (view_of_proper (mkView true (vprop v) (vlabel v)) (mkView true (vprop w) (vlabel w)) nd).
  by split.
Qed.

Lemma view_of_default v : view_eq (view_of v NodeDelta.default) (mkView true (vprop v) (vlabel v)).
Proof.
  split; [done|]. split; intros k; cbn; unfold eff_prop, eff_label; cbn.
  - by rewrite lookup_empty, bool_decide_eq_false_2 by apply not_elem_of_empty.
  - by rewrite !bool_decide_eq_false_2 by apply not_elem_of_empty.
Qed.

(** A live entry of the memtable is read over the sealed levels. *)
Lemma patched_entry core d m ls n : memtable_wf m → Memtable.node_patch d m = Some n → tombstoned n = false →
  view_eq (patched core d (view (m, ls))) (view_of (below core d ls) n).
Proof.
  intros Hm En Ht. pose proof (level_patch_wf m d n Hm En) as Hw. unfold patched, below. rewrite view_patch, En.
  destruct (fold_newest _) as [a|]; cbn [DeltaSnapshot.fold_patch].
  - rewrite layer_fold by done. unfold layer. by rewrite Ht.
  - destruct (view_of_default core) as (_ & Hp & Hl). apply view_of_rows; [intros k; by rewrite Hp|intros l; by rewrite Hl].
Qed.

(** A live node, whether the memtable has an entry for it or not. *)
Lemma patched_live core d m ls : memtable_wf m → alive (patched core d (view (m, ls))) = true →
  view_eq (patched core d (view (m, ls))) (view_of (below core d ls) (delta_of d m)).
Proof.
  intros Hm Ha. unfold delta_of. destruct (Memtable.node_patch d m) as [n|] eqn:En.
  - apply patched_entry; [done..|]. unfold patched in Ha. rewrite view_patch, En in Ha.
    destruct (fold_newest _) as [a|]; cbn in Ha; [rewrite fold_newer_live in Ha|]; by destruct (tombstoned n).
  - unfold patched in *. rewrite view_patch, En in *. change (DeltaSnapshot.fold_patch ?b None) with b in *.
    fold (below core d ls) in *. rewrite view_of_default. by destruct (below core d ls); cbn in *; subst.
Qed.

Section writes.
Context {crypto : Crypto} {layout : Layout} {R Rows : Type} {gen : Generation R Rows} {use : KeyUse}.
Variable random_nonce : nat → bytes.

(** * The memtable under a batch for one node *)

Lemma write_target_kept l0 m1 m2 key d1 d2 : born_kept m1 m2 → Value.wf key.2 →
  write_target l0 m1 key d1 → write_target l0 m2 key d2 → d1 = d2.
Proof.
  intros Hb Hv [H1|[N1 H1]] [H2|[N2 H2]]; try congruence. apply Hb in H1; [congruence|done].
Qed.

(** What a batch of writes of one node leaves: the deltas of its operations, in order, on the
    node its key names, and nothing else. *)
Record batch_effect (l0 : list Memtable) (m m' : Memtable) (key : NodeKey) (os : list node_op) (id : Z) : Prop := {
  be_wf : memtable_wf m';
  be_registered : registered l0 m';
  be_born : born_kept m m';
  be_target : write_target l0 m' key id;
  be_patch : Memtable.node_patch id m' = Some (foldl delta_step (delta_of id m) os);
  be_others : ∀ d, d ≠ id → Memtable.node_patch d m' = Memtable.node_patch d m;
}.

Lemma anchored_op label key value op : anchored label key value op → ∃ o, node_op_of op = Some o ∧ o ≠ OpDelete.
Proof.
  intros (Hk & Hd & _). destruct op; cbn in *; try done; injection Hk as -> -> ->; [|done|..]; (eexists; split; [reflexivity|done]).
Qed.

Lemma node_batch_effect m0 l0 label key value r ops m :
  Forall (anchored label key value) ops → Forall (λ op, accepted m0 l0 (op, ResNode r)) ops → ops ≠ [] →
  memtable_wf m → registered l0 m → keys_distinct l0 (Memtable.synthetic_base m) → born_kept m0 m →
  room (2 * zlen ops) (interner m) → ∃ m' id,
  DeltaWriter.apply_all (map (λ op, (op, ResNode r)) ops) m = Some m' ∧
  batch_effect l0 m m' (label, key, value) (node_ops ops) id ∧
  Memtable.synthetic_base m' = Memtable.synthetic_base m.
Proof.
  revert m. induction ops as [|op ops IH]; intros m Han Hac Hne Hm Hr Hk Hb Hroom; [done|].
  apply Forall_cons in Han as [Ha1 Han]. apply Forall_cons in Hac as [Hc1 Hac]. rewrite zlen_cons in Hroom.
  pose proof (zlen_nonneg ops) as Hlen.
  destruct (anchored_op _ _ _ _ Ha1) as (o & Ho & Hnd). destruct Ha1 as [Hkey _].
  destruct (accepted_agrees m0 l0 m op (ResNode r) Hc1 Hm Hr Hb) as (Hok & Hu & Eap).
  assert (Value.wf value) as Hv by exact (op_ok_key _ _ _ _ Hok Hkey).
  destruct (replay_node_effect l0 m op label key value o Hkey Ho Hok Hu Hm) as (m1 & E1 & [Hm1 Hr1 Hkp Hrm Hp _]);
    [unfold room in *; lia|done..|].
  destruct Hp as [(id & Ht & Hpid & Hoth)|(-> & _)]; [|done].
  pose proof (keeps_born l0 m m1 Hm Hm1 Hr Hr1 Hkp) as Hb1. cbn [map DeltaWriter.apply_all node_ops omap list_omap].
  rewrite Eap, E1, Ho. cbn [mbind option_bind]. destruct (decide (ops = [])) as [->|Hops].
  { exists m1, id. split; [done|]. split; [by split|apply Hkp]. }
  destruct (IH m1) as (m' & id' & E' & [Hm' Hr' Hb' Ht' Hp' Hoth'] & Eb'); try done.
  - by rewrite (keeps_base _ _ Hkp).
  - by eapply born_kept_trans.
  - apply Hrm; [lia|]. unfold room in *. lia.
  - assert (id = id') as <- by exact (write_target_kept l0 m1 m' (label, key, value) id id' Hb' Hv Ht Ht').
    exists m', id. split; [done|]. split; [split; try done|rewrite Eb'; apply Hkp].
    + by eapply born_kept_trans.
    + rewrite Hp'. unfold delta_of at 1. by rewrite Hpid.
    + intros d Hd. rewrite Hoth' by done. by apply Hoth.
Qed.

(** * The published snapshot *)

Lemma write_batch_published ops st seq st' : ops ≠ [] → DeltaWriter.write_batch random_nonce ops st = (Ok seq, st') →
  ∃ m', DeltaWriter.apply_all ops (w_mem (inner st)) = Some m' ∧ DeltaWriter.delta_snapshot st' = view (m', levels st).
Proof.
  intros Hne. unfold DeltaWriter.write_batch. destruct ops as [|o ops]; [done|]. generalize (o :: ops). intros b.
  unfold mbind, wio_bind, wgets, wpanic. destruct (DeltaWriter.apply_all b _) as [m'|]; [|done]. cbn.
  destruct (DeltaWriter.number_records _ b) as [recs lst]. cbn. unfold DeltaWriter.with_sink. cbn.
  destruct (append_batch _ _ _ _ _) as [[u|e] w]; cbn; [|done]. intros H. apply (f_equal snd) in H. cbn [snd] in H. subst st'.
  exists m'. split; [reflexivity|]. unfold DeltaWriter.delta_snapshot. cbn. apply view_published.
Qed.

(** The id a lookup of the business key finds: in the core, or born in the delta. *)
Definition found_at (st : DeltaWriter) (key : NodeKey) : option Z :=
  or_else (one_key key) (born_synthetic_in_delta st key).

Lemma target_found st m l0 key id : memtable_wf m → registered l0 m → Value.wf key.2 →
  DeltaWriter.delta_snapshot st = view (m, l0) → write_target l0 m key id → found_at st key = Some id.
Proof.
  destruct key as [[l k] v]. intros Hm Hr Hv E Ht.
  assert (born_synthetic_in_delta st (l, k, v) = born_in_delta m l0 (l, k, v)) as Eb.
  { unfold born_synthetic_in_delta, DeltaSnapshot.born_synthetic_for_identity. rewrite E.
    unfold born_in_delta, born_in_l0, DeltaSnapshot.levels_newest_first, view. cbn. by rewrite find_map_map. }
  unfold found_at. rewrite Eb. unfold write_target, key_id in Ht. unfold born_in_delta, born_in_l0 in *. cbn [find_map fst snd] in *.
  destruct (one_key (l, k, v)) as [x|] eqn:E1; cbn; [by destruct Ht as [?|[? _]]|].
  destruct (Memtable.born_synthetic_for_identity l k v m) as [y|] eqn:E2; [|by destruct Ht as [Ht|[_ Ht]]; [exact Ht|]].
  destruct Ht as [Ht|[_ Ht]]; [|done]. exfalso.
  destruct (born_synthetic_entry l k v m y Hm Hv E2) as (e & He & Hs & Hnm).
  pose proof (registered_fresh _ _ Hr _ _ l k v He ltac:(by eexists) Hnm) as H.
  unfold key_id, born_in_l0 in H. rewrite E1 in H. cbn [fst snd] in H. congruence.
Qed.
(** * The operations of a statement *)

Lemma items_from_alive blank eval eval_map items v w : items_from eval eval_map blank items v = Ok w → alive w = alive v.
Proof.
  revert v. induction items as [|item items IH]; intros v; cbn; [by intros [= <-]|].
  unfold item_from. destruct (map_entries eval eval_map item) as [ps|]; [|done]. cbn. intros H. rewrite (IH _ H).
  by destruct item.
Qed.

Lemma items_from_app blank eval eval_map xs ys v :
  items_from eval eval_map blank (xs ++ ys) v
  = (w ← items_from eval eval_map blank xs v; items_from eval eval_map blank ys w).
Proof.
  revert v. induction xs as [|x xs IH]; intros v; cbn; [done|]. by destruct (item_from eval eval_map blank v x); cbn.
Qed.

(** The items that apply: those of the [SET], then those of [ON CREATE] or [ON MATCH] of a merge. *)
Definition applied_items (stmt : WriteStmt R) (items : list SetItem) (created : bool) : list SetItem :=
  items ++ if s_upsert stmt then if created then s_on_create stmt else s_on_match stmt else [].

Lemma node_ops_view blank (stmt : WriteStmt R) eval eval_map resolution value st items ops core v : alive v = true →
  s_op stmt = WSet items → node_ops_of stmt eval eval_map resolution value st = Ok ops →
  let created := merge_creates_node_from st resolution (s_label stmt, s_key stmt, value) in
  ∃ w, items_from eval eval_map blank (applied_items stmt items created) v = Ok w ∧
    run_from blank core v (node_ops ops) = w ∧ Forall (anchored (s_label stmt) (s_key stmt) value) ops ∧ ops ≠ [].
Proof.
  intros Hv Hop. unfold node_ops_of, applied_items. rewrite Hop. cbn [build_node_wal_ops]. cbv zeta.
  set (created := merge_creates_node_from _ _ _).
  pose proof (fold_set_items_from blank eval eval_map (s_label stmt) (s_key stmt) value items true core v (or_introl Hv)) as H1.
  destruct (fold_set_items _ _ _ _ _ items true) as [ops1|]; [|done]. cbn [mbind result_bind]. rewrite items_from_app.
  destruct (items_from _ _ blank items v) as [w1|] eqn:E1; [|done]. destruct H1 as (Hs1 & Ha1 & Hne). specialize (Hne eq_refl).
  pose proof (items_from_alive _ _ _ _ _ _ E1) as Hw1. rewrite Hv in Hw1.
  assert (run_from blank core v (node_ops ops1) = w1) as Hr1 by (rewrite Hs1; destruct w1; cbn in *; by subst).
  cbn [mbind result_bind]. destruct (s_upsert stmt); [|intros [= <-]; by exists w1]. cbn [andb].
  set (more := if created then s_on_create stmt else s_on_match stmt).
  destruct (bool_decide (length (s_on_create stmt) = 0%nat) && _) eqn:Eb; cbn [negb].
  { apply andb_true_iff in Eb as [E2 E3]. apply bool_decide_eq_true, nil_length_inv in E2, E3.
    assert (more = []) as -> by (unfold more; by destruct created). intros [= <-]. by exists w1. }
  pose proof (fold_set_items_from blank eval eval_map (s_label stmt) (s_key stmt) value more false core w1 (or_introl Hw1)) as H2.
  destruct (fold_set_items _ _ _ _ _ more false) as [ops2|]; [|done]. cbn [mbind result_bind]. intros [= <-].
  destruct (items_from _ _ blank more w1) as [w2|] eqn:E2; [|done]. destruct H2 as (Hs2 & Ha2 & _). exists w2.
  split; [done|]. split_and!; [|by apply Forall_app|by destruct ops1].
  unfold node_ops. rewrite omap_app. unfold run_from. rewrite foldl_app. fold (node_ops ops1) (node_ops ops2).
  fold (run_from blank core v (node_ops ops1)). rewrite Hr1. fold (run_from blank core w1 (node_ops ops2)). rewrite Hs2.
  pose proof (items_from_alive _ _ _ _ _ _ E2) as Hw2. rewrite Hw1 in Hw2. by destruct w2; cbn in *; subst.
Qed.

Lemma anchored_ops label key value ops : Forall (anchored label key value) ops → ops ≠ [] →
  OpDelete ∉ node_ops ops ∧ node_ops ops ≠ [].
Proof.
  intros Ha Hne. split.
  - intros (op & Hin & Ho)%list_elem_of_omap. rewrite Forall_forall in Ha.
    destruct (anchored_op _ _ _ _ (Ha op Hin)) as (o & Ho' & Hnd). congruence.
  - destruct ops as [|op ops]; [done|]. apply Forall_cons in Ha as [Ha _].
    destruct (anchored_op _ _ _ _ Ha) as (o & Ho & _). cbn. by rewrite Ho.
Qed.

(** * A statement read back *)

(** What the reads and writes of a node rest on; it is part of [sound]. *)
Record readable (st : DeltaWriter) : Prop := {
  rd_wf : memtable_wf (w_mem (inner st));
  rd_registered : registered (levels st) (w_mem (inner st));
  rd_keys : keys_distinct (levels st) (Memtable.synthetic_base (w_mem (inner st)));
  rd_levels : levels_kept (levels st);
  rd_current : current st;
}.

(** The writer is that of the generation that is served: label names have ids of their own,
    the indexes find nodes of the core, and born nodes are numbered past them. *)
Record served_by (st : DeltaWriter) : Prop := {
  sv_labels : ∀ l l' i, label_id l = Some i → label_id l' = Some i → l = l';
  sv_core : ∀ key d, in_use key → one_key key = Some d → d < node_count;
  sv_base : node_count <= Memtable.synthetic_base (w_mem (inner st));
}.

(** The operations are on keys in use and can be encoded, and there is room for their names. *)
Definition ops_fit (ops : list WalOp) (st : DeltaWriter) : Prop :=
  Forall (λ op, op_ok op ∧ op_uses op) ops ∧ room (2 * zlen ops) (interner (w_mem (inner st))).

(** An acknowledged plain statement: its operations, resolved, went through the writer. *)
Lemma execute_write_batch_ok (stmt : WriteStmt R) params st rows st' : s_unwind stmt = None →
  execute_write random_nonce stmt params st = (Ok rows, st') → ∃ value ops resolved seq,
  write_value params (s_key_value stmt) = Ok value ∧
  let resolution := Resolve.resolve_business_key (s_label stmt) (s_key stmt) value in
  node_ops_of stmt (write_value params) (param_path_val params) resolution value st = Ok ops ∧
  admit_row stmt resolution value ops st = (Ok resolved, st) ∧
  DeltaWriter.write_batch random_nonce (map (λ op, (op, ResNode resolved)) ops) st = (Ok seq, st').
Proof.
  intros Hu. unfold execute_write. rewrite Hu. intros H.
  apply bind_reads in H as [[_ ?]|(? & _ & H)]; [done| |unfold refuse_orphaned_delta; auto with reads].
  apply bind_reads in H as [[_ ?]|(value & Ev & H)]; [done| |auto with reads].
  apply bind_reads in H as [[_ ?]|(ops & Eo & H)]; [done| |auto with reads].
  apply bind_reads in H as [[_ ?]|(? & _ & H)]; [done| |auto with reads].
  apply bind_reads in H as [[_ ?]|(resolved & Ea & H)]; [done| |apply reads_admit].
  apply then_reads in H as (wr & Ew & Hok).
  - destruct wr as [seq|e]; [|by specialize (Hok eq_refl)]. injection Ev as Ev. injection Eo as Eo.
    by exists value, ops, resolved, seq.
  - intros z. destruct (s_ret stmt); [|auto with reads].
    apply reads_bind; [apply reads_committed_id|intros id; apply reads_project].
Qed.

Lemma live_run d os : OpDelete ∉ os → os ≠ [] → tombstoned (foldl delta_step d os) = false.
Proof.
  intros Hnd Hne. destruct os as [|o os _] using rev_ind; [done|]. rewrite foldl_app. cbn.
  destruct (delta_step_view (mkView true (λ _, None) (λ _, false)) (foldl delta_step d os) o) as [E _].
  cbn in E. destruct (tombstoned _); [exfalso|done]. destruct o; cbn in E; try done.
  apply Hnd, elem_of_app. right. by apply list_elem_of_singleton.
Qed.

(** The merged delta of the node once the operations are folded onto it. *)
Lemma batch_read l0 m m' key os id : memtable_wf m → batch_effect l0 m m' key os id →
  OpDelete ∉ os → os ≠ [] → tombstoned (stack_delta m l0 id) = false →
  ∀ row, view_eq (view_of row (stack_delta m' l0 id)) (view_of row (foldl delta_step (stack_delta m l0 id) os)).
Proof.
  intros Hm [Hm' _ _ _ Hp _] Hnd Hne Ha row.
  assert (∀ x, view_of row (stack_delta x l0 id) = patched row id (view (x, l0))) as Ev by done.
  assert (alive (patched row id (view (m, l0))) = true) as Hal by (rewrite <- Ev; cbn; by rewrite Ha).
  pose proof (patched_live row id m l0 Hm Hal) as (_ & Ep & El).
  assert (view_eq (view_of (below row id l0) (foldl delta_step (delta_of id m) os))
    (view_of row (foldl delta_step (stack_delta m l0 id) os))) as Hv.
  { rewrite !delta_run_view. apply spec_run_no_delete; [done..| |]; intros x; rewrite Ev; symmetry; auto. }
  rewrite Ev, <- Hv. apply patched_entry; [done..|]. by apply live_run.
Qed.

(** ** The identity of the node *)

(** A node goes by one of the keys in use. *)
Lemma target_inj l0 m key key' id : memtable_wf m → keys_distinct l0 (Memtable.synthetic_base m) →
  Value.wf key.2 → Value.wf key'.2 → in_use key → in_use key' →
  write_target l0 m key id → write_target l0 m key' id → key = key'.
Proof.
  intros Hm [Hlt Hinj] Hv Hv' Hu Hu' [H|[_ H]] [H'|[_ H']].
  - by apply (Hinj key key' id).
  - specialize (Hlt key id Hv Hu H). apply born_id_range in H'; [lia|done..].
  - specialize (Hlt key' id Hv' Hu' H'). apply born_id_range in H; [lia|done..].
  - destruct key as [[l k] v], key' as [[l' k'] v']. by apply (born_inj l k v l' k' v' m id).
Qed.

Lemma identity_target l0 m id key : memtable_wf m → registered l0 m → levels_kept l0 →
  find_map (Memtable.node_identity_by_dense id) (m :: l0) = Some key →
  Value.wf key.2 ∧ in_use key ∧ write_target l0 m key id.
Proof.
  intros Hm Hr [_ Hl]. cbn [find_map]. destruct (Memtable.node_identity_by_dense id m) as [x|] eqn:E.
  - intros [= ->]. by apply registered_identity.
  - intros (y & Hy & Hid)%find_map_Some. destruct (Hl y id key Hy Hid) as (? & ? & ?). split_and!; [done..|by left].
Qed.

Lemma target_kept l0 m m' key id : born_kept m m' → Value.wf key.2 → write_target l0 m key id → write_target l0 m' key id.
Proof. intros Hb Hv [H|[Hn H]]; [by left|right]. split; [done|]. by apply Hb. Qed.

Lemma patch_identity d m : is_Some (Memtable.node_patch d m) ↔ is_Some (Memtable.node_identity_by_dense d m).
Proof.
  unfold Memtable.node_patch, Memtable.node_identity_by_dense. destruct (by_dense m !! d) as [ck|]; cbn; [|by split; intros []].
  destruct (nodes m !! ck); cbn; [split; intros _; by eexists|by split; intros []].
Qed.

Lemma born_identity l k v m d : memtable_wf m → Value.wf v → Memtable.born_synthetic_for_identity l k v m = Some d →
  is_Some (Memtable.node_identity_by_dense d m).
Proof.
  intros Hm Hv Hb. destruct (born_synthetic_entry l k v m d Hm Hv Hb) as (e & He & Hs & _).
  pose proof Hm as (_ & Hn & _). destruct (inv_synthetic _ _ _ _ _ _ _ Hn _ _ _ He Hs) as [_ Hd].
  unfold Memtable.node_identity_by_dense. rewrite Hd. cbn. by rewrite He.
Qed.

(** ** The node before and after *)

Section node.
Variables (l0 : list Memtable) (m m' : Memtable) (label kn : str) (value : Value.t) (os : list node_op) (id : Z).
Local Abbreviation key := (label, kn, value).
Hypotheses (Hm : memtable_wf m) (Hr : registered l0 m) (Hk : keys_distinct l0 (Memtable.synthetic_base m)) (Hl : levels_kept l0).
Hypotheses (Hbase : Memtable.synthetic_base m' = Memtable.synthetic_base m) (Hv : Value.wf value) (Hu : in_use key).
Hypothesis He : batch_effect l0 m m' key os id.

Lemma before_identity key' : find_map (Memtable.node_identity_by_dense id) (m :: l0) = Some key' → key' = key.
Proof.
  intros (Hv' & Hu' & Ht)%identity_target; try done. destruct He as [Hm' _ Hb Ht' _ _].
  eapply (target_inj l0 m'); try done; [by rewrite Hbase|]. by eapply target_kept.
Qed.

Lemma after_identity : find_map (Memtable.node_identity_by_dense id) (m' :: l0) = Some key.
Proof.
  pose proof He as [Hm' Hr' Hb Ht Hp _]. cbn [find_map].
  destruct (Memtable.node_identity_by_dense id m') as [key'|] eqn:E.
  - destruct (registered_identity l0 m' id key' Hm' Hr' E) as (Hv' & Hu' & Ht').
    f_equal. eapply (target_inj l0 m'); try done. by rewrite Hbase.
  - assert (is_Some (Memtable.node_identity_by_dense id m')) as [? ?]; [|congruence]. apply patch_identity. by rewrite Hp.
Qed.

Lemma other_identity d : d ≠ id →
  find_map (Memtable.node_identity_by_dense d) (m' :: l0) = find_map (Memtable.node_identity_by_dense d) (m :: l0).
Proof.
  intros Hd. pose proof He as [Hm' Hr' Hb _ _ Ho]. cbn [find_map].
  pose proof (patch_identity d m) as H1. pose proof (patch_identity d m') as H2. rewrite (Ho d Hd) in H2.
  destruct (Memtable.node_identity_by_dense d m') as [x|] eqn:Ex, (Memtable.node_identity_by_dense d m) as [y|] eqn:Ey.
  - f_equal. destruct (registered_identity l0 m' d x Hm' Hr' Ex) as (? & ? & ?).
    destruct (registered_identity l0 m d y Hm Hr Ey) as (? & ? & ?).
    eapply (target_inj l0 m'); try done; [by rewrite Hbase|]. by eapply target_kept.
  - destruct (proj1 H1) as [? ?]; [|done]. apply H2. by eexists.
  - destruct (proj1 H2) as [? ?]; [|done]. apply H1. by eexists.
  - done.
Qed.

(** A key that was found is that of the node, and named it then; one that was not is new. *)
Lemma found_before y : or_else (one_key key) (born_in_delta m l0 key) = Some y →
  y = id ∧ (is_Some (one_key key) ∨ find_map (Memtable.node_identity_by_dense id) (m :: l0) = Some key).
Proof.
  intros Hf. pose proof He as [Hm' _ Hb Ht _ _].
  assert (∀ z, write_target l0 m key z → z = id) as Hz by (intros z Hz; by eapply (write_target_kept l0 m m' key)).
  destruct (one_key key) as [x|] eqn:E1; cbn [or_else] in Hf.
  { injection Hf as ->. split; [|left; by eexists]. apply Hz. left. unfold key_id. by rewrite E1. }
  assert (is_Some (find_map (Memtable.node_identity_by_dense id) (m :: l0)) →
    find_map (Memtable.node_identity_by_dense id) (m :: l0) = Some key) as Hid.
  { intros [k' Hk']. rewrite Hk'. f_equal. by apply before_identity. }
  unfold born_in_delta, born_in_l0 in Hf. cbn [find_map fst snd] in Hf.
  destruct (Memtable.born_synthetic_for_identity label kn value m) as [z|] eqn:E2.
  - injection Hf as ->. assert (write_target l0 m key y) as Ht0.
    { right. split; [|done]. destruct (born_synthetic_entry label kn value m y Hm Hv E2) as (e & He0 & Hs & Hnm).
      exact (registered_fresh _ _ Hr _ _ label kn value He0 ltac:(by eexists) Hnm). }
    pose proof (Hz y Ht0) as ->. split; [done|]. right. apply Hid. cbn [find_map].
    destruct (born_identity label kn value m id Hm Hv E2) as [w ->]. by eexists.
  - assert (key_id l0 key = Some y) as Ek by (unfold key_id, born_in_l0; by rewrite E1).
    pose proof (Hz y ltac:(by left)) as ->. split; [done|]. right. apply Hid. cbn [find_map].
    destruct (Memtable.node_identity_by_dense id m); [by eexists|]. destruct Hl as [Hlw _].
    apply find_map_Some in Hf as (lv & Hin & Hf). rewrite Forall_forall in Hlw.
    destruct (born_identity label kn value lv id (Hlw lv Hin) Hv Hf) as [w Hw].
    clear -Hin Hw. induction Hin as [x l|x y l Hin IH]; cbn [find_map]; [rewrite Hw; by eexists|].
    destruct (Memtable.node_identity_by_dense id y); [by eexists|by apply IH].
Qed.

Lemma not_found_before : or_else (one_key key) (born_in_delta m l0 key) = None →
  find_map (Memtable.node_identity_by_dense id) (m :: l0) = None ∧ Memtable.synthetic_base m <= id.
Proof.
  intros Hf. pose proof He as [Hm' _ Hb Ht _ _].
  destruct (one_key key) as [x|] eqn:E1; [done|]. cbn [or_else] in Hf. unfold born_in_delta, born_in_l0 in Hf. cbn [find_map fst snd] in Hf.
  destruct (Memtable.born_synthetic_for_identity label kn value m) as [z|] eqn:E2; [done|].
  assert (key_id l0 key = None) as Ek by (unfold key_id, born_in_l0; by rewrite E1). split.
  - destruct (find_map _ (m :: l0)) as [key'|] eqn:Ef; [exfalso|done]. pose proof (before_identity key' Ef) as ->.
    destruct (identity_target l0 m id key Hm Hr Hl Ef) as (_ & _ & [?|[_ Hbm]]); [congruence|].
    cbn [fst snd] in Hbm. congruence.
  - destruct Ht as [?|[_ Ht]]; [congruence|]. apply born_id_range in Ht; [|done..]. rewrite Hbase in Ht. lia.
Qed.

(** ** What is read of it *)

Hypotheses (Hos : Forall keeps_key os) (Hne : os ≠ []).
Hypothesis label_id_inj : ∀ l l' i, label_id l = Some i → label_id l' = Some i → l = l'.
Local Abbreviation born := (node_count <=? id).
Local Abbreviation row c := (keyed_row kn value born (named_get (core_named_props c))).

Lemma read_after c v0 core : tombstoned (stack_delta m l0 id) = false →
  (∀ k, vprop v0 k = keyed_prop kn value (row c) (stack_delta m l0 id) k) →
  (∀ l, is_Some (label_id l) → vlabel v0 l = eff_label (core_label node_count label_id m' l0 c id) (stack_delta m l0 id) l) →
  let after := reader node_count label_id c id (view (m', l0)) in
  let w := run_from (only_key kn value) core v0 os in
  alive after = true ∧ (∀ k, vprop after k = vprop w k) ∧ ∀ l, is_Some (label_id l) → vlabel after l = vlabel w l.
Proof.
  intros Ha Hp0 Hl0. cbv zeta. pose proof He as [Hm' _ _ _ _ _]. destruct Hl as [Hlw _].
  assert (OpDelete ∉ os) as Hnd by (intros Hin; rewrite Forall_forall in Hos; exact (Hos _ Hin)).
  pose proof (batch_read l0 m m' key os id Hm He Hnd Hne Ha) as Hview.
  assert (delta_wf (stack_delta m l0 id)) as Hw.
  { unfold stack_delta. destruct (DeltaSnapshot.node_patch id _) as [nd|] eqn:E; [|apply default_wf]. exact (stack_delta_wf m l0 Hm Hlw id nd E). }
  assert (delta_wf (stack_delta m' l0 id)) as Hw'.
  { unfold stack_delta. destruct (DeltaSnapshot.node_patch id _) as [nd|] eqn:E; [|apply default_wf]. exact (stack_delta_wf m' l0 Hm' Hlw id nd E). }
  destruct (keeps_key_run _ os Hw Hos Hne) as [Hwf Ht].
  destruct (keyed_run kn value (row c) (core_label node_count label_id m' l0 c id) core (stack_delta m l0 id) os Hos) as (_ & Kp & Kl).
  change (view (m', l0)) with (DeltaSnapshot.with_levels m' (map dyn l0)). split_and!.
  - rewrite (reader_alive node_count label_id m' l0 Hm' Hlw). destruct (Hview (mkView true (λ _, None) (λ _, false))) as [E _]. cbn in E. by rewrite E, Ht.
  - intros k. cbn [vprop reader]. rewrite (overlay_get node_count label_id m' l0 Hm' Hlw), stack_identity, after_identity, seen_keyed.
    rewrite (keyed_ext kn value _ _ Hw' Hwf Hview). etrans; [apply Kp|]. apply run_from_prop; [done|]. intros x. by rewrite Hp0.
  - intros l [i Hi]. cbn [vlabel reader]. rewrite Hi, (node_label_spec node_count label_id m' l0 Hm' Hlw label_id_inj c id l i Hi).
    destruct (Hview (mkView true (λ _, None) (core_label node_count label_id m' l0 c id))) as (_ & _ & E). cbn in E. rewrite E.
    etrans; [apply Kl|]. apply run_from_label; [done|]. rewrite Hl0; [done|by eexists].
Qed.

Lemma default_delta : find_map (Memtable.node_identity_by_dense id) (m :: l0) = None →
  stack_delta m l0 id = NodeDelta.default.
Proof.
  intros E. unfold stack_delta. destruct (DeltaSnapshot.node_patch id _) eqn:Ep; [|done]. exfalso.
  assert (is_Some (DeltaSnapshot.node_identity_by_dense id (DeltaSnapshot.with_levels m (map dyn l0)))) as [x Hx].
  { apply stack_identity_patch. by rewrite Ep. }
  rewrite stack_identity in Hx. congruence.
Qed.

Lemma keyed_default r k : keyed_prop kn value r NodeDelta.default k = r k.
Proof. unfold keyed_prop. cbn. by rewrite lookup_empty, bool_decide_eq_false_2 by apply not_elem_of_empty. Qed.

Lemma label_default f l : eff_label f NodeDelta.default l = f l.
Proof. unfold eff_label. rewrite !(bool_decide_eq_false_2 (l ∈ _)) by apply not_elem_of_empty. done. Qed.

(** A node that is known: by its identity, or as one of the core without a delta. *)
Lemma known_before c : let ident := find_map (Memtable.node_identity_by_dense id) (m :: l0) in
  ident = Some key ∨ ident = None ∧ born = false →
  let before := reader node_count label_id c id (view (m, l0)) in
  (∀ k, vprop before k = keyed_prop kn value (row c) (stack_delta m l0 id) k) ∧
  ∀ l, is_Some (label_id l) → vlabel before l = eff_label (core_label node_count label_id m' l0 c id) (stack_delta m l0 id) l.
Proof.
  cbv zeta. intros Hid. destruct Hl as [Hlw _]. change (view (m, l0)) with (DeltaSnapshot.with_levels m (map dyn l0)). split.
  - intros k. cbn [vprop reader]. rewrite (overlay_get node_count label_id m l0 Hm Hlw), stack_identity.
    destruct Hid as [->|[Hid ->]]; [apply seen_keyed|]. rewrite Hid, (default_delta Hid), keyed_default.
    unfold seen_prop. cbn. by rewrite lookup_empty, bool_decide_eq_false_2 by apply not_elem_of_empty.
  - intros l [i Hi]. cbn [vlabel reader]. rewrite Hi, (node_label_spec node_count label_id m l0 Hm Hlw label_id_inj c id l i Hi).
    unfold eff_label, core_label. rewrite Hi. unfold core_label_ids. destruct (cr_segment c); [done|].
    rewrite !stack_identity, after_identity. by destruct Hid as [->|[_ ->]].
Qed.

(** A node that is created: it has its label and its business key. *)
Definition born_view (v : NodeDelta.view) : NodeDelta.view :=
  mkView true (set_key kn (Some value) (vprop v)) (set_key label true (vlabel v)).

Lemma created_before c : find_map (Memtable.node_identity_by_dense id) (m :: l0) = None → born = true →
  cr_segment c = None →
  let before := born_view (reader node_count label_id c id (view (m, l0))) in
  (∀ k, vprop before k = keyed_prop kn value (row c) (stack_delta m l0 id) k) ∧
  ∀ l, is_Some (label_id l) → vlabel before l = eff_label (core_label node_count label_id m' l0 c id) (stack_delta m l0 id) l.
Proof.
  intros Hid Hborn Hc. cbv zeta. destruct Hl as [Hlw _]. change (view (m, l0)) with (DeltaSnapshot.with_levels m (map dyn l0)).
  rewrite (default_delta Hid). split.
  - intros k. rewrite keyed_default, Hborn. cbn [vprop born_view keyed_row]. unfold set_key. case_bool_decide; [done|].
    cbn [vprop reader]. rewrite (overlay_get node_count label_id m l0 Hm Hlw), stack_identity, Hid, (default_delta Hid).
    unfold seen_prop. cbn. by rewrite lookup_empty, bool_decide_eq_false_2 by apply not_elem_of_empty.
  - intros l [i Hi]. rewrite label_default. cbn [vlabel born_view reader]. unfold set_key. rewrite Hi.
    rewrite (node_label_spec node_count label_id m l0 Hm Hlw label_id_inj c id l i Hi), (default_delta Hid), label_default.
    unfold core_label, core_label_ids. rewrite Hi, Hc, Hborn, !stack_identity, after_identity, Hid. cbn.
    rewrite (bool_decide_eq_false_2 (i ∈ [])) by apply not_elem_of_nil.
    transitivity (bool_decide (l = label)); [by case_bool_decide|]. apply bool_decide_ext.
    destruct (label_id label) as [j|] eqn:Ej; cbn; rewrite ?list_elem_of_singleton, ?elem_of_nil; split; try done.
    + intros E. congruence.
    + intros ->. by apply (label_id_inj l label j).
    + intros E. congruence.
Qed.

(** What the reader starts from. *)
Lemma read_before c : (∀ d, one_key key = Some d → d < node_count) → node_count <= Memtable.synthetic_base m →
  let created := bool_decide (or_else (one_key key) (born_in_delta m l0 key) = None) in
  (created = true → cr_segment c = None) →
  let before := reader node_count label_id c id (view (m, l0)) in
  let v0 := if created then born_view before else before in
  (∀ k, vprop v0 k = keyed_prop kn value (row c) (stack_delta m l0 id) k) ∧
  ∀ l, is_Some (label_id l) → vlabel v0 l = eff_label (core_label node_count label_id m' l0 c id) (stack_delta m l0 id) l.
Proof.
  cbv zeta. intros Hcore Hsb. destruct (or_else (one_key key) (born_in_delta m l0 key)) as [y|] eqn:Ef.
  - rewrite bool_decide_eq_false_2 by done. intros _. apply known_before.
    destruct (found_before y Ef) as [-> Hid]. destruct (find_map _ (m :: l0)) as [key'|] eqn:Ei.
    + left. f_equal. by apply before_identity.
    + right. split; [done|]. apply Z.leb_gt. destruct Hid as [[d Hd]|?]; [|done]. rewrite Hd in Ef. injection Ef as ->. auto.
  - rewrite bool_decide_eq_true_2 by done. intros Hseg. destruct (not_found_before Ef) as [Hid Hge].
    apply created_before; [done|apply Z.leb_le; lia|auto].
Qed.

(** The other nodes. *)
Lemma others_same c d : d ≠ id →
  view_eq (reader node_count label_id c d (view (m', l0))) (reader node_count label_id c d (view (m, l0))).
Proof.
  intros Hd. destruct Hl as [Hlw _]. pose proof He as [Hm' _ _ _ _ Ho].
  assert (stack_delta m' l0 d = stack_delta m l0 d) as Es.
  { unfold stack_delta. rewrite !stack_patch. cbn [map]. by rewrite (Ho d Hd). }
  change (view (?x, l0)) with (DeltaSnapshot.with_levels x (map dyn l0)). split_and!.
  - rewrite (reader_alive node_count label_id m' l0 Hm' Hlw), (reader_alive node_count label_id m l0 Hm Hlw). by rewrite Es.
  - intros k. cbn [vprop reader]. rewrite (overlay_get node_count label_id m' l0 Hm' Hlw), (overlay_get node_count label_id m l0 Hm Hlw).
    by rewrite !stack_identity, (other_identity d Hd), Es.
  - intros l. cbn [vlabel reader]. destruct (label_id l) as [i|] eqn:Hi; [|done].
    rewrite (node_label_spec node_count label_id m' l0 Hm' Hlw label_id_inj c d l i Hi), (node_label_spec node_count label_id m l0 Hm Hlw label_id_inj c d l i Hi).
    rewrite Es. unfold eff_label, core_label, core_label_ids. by rewrite !stack_identity, (other_identity d Hd).
Qed.
End node.
Lemma created_found (stmt : WriteStmt R) value ops st resolved : current st →
  let key := (s_label stmt, s_key stmt, value) in
  let resolution := Resolve.resolve_business_key (s_label stmt) (s_key stmt) value in
  admit_row stmt resolution value ops st = (Ok resolved, st) →
  merge_creates_node_from st resolution key = bool_decide (found_at st key = None).
Proof.
  intros Hc key resolution H%admit_resolved. unfold found_at, one_key, merge_creates_node_from. cbn [fst snd key].
  fold resolution. fold key in H. fold key. destruct resolution; try done; cbn [one or_else].
  destruct (born_synthetic_in_delta st key); [by rewrite bool_decide_eq_false_2|by rewrite bool_decide_eq_true_2].
Qed.

Lemma anchored_keeps label key value ops : Forall (anchored label key value) ops → Forall keeps_key (node_ops ops).
Proof.
  intros Ha. apply Forall_forall. intros o (op & Hin & Ho)%list_elem_of_omap. rewrite Forall_forall in Ha.
  destruct (Ha op Hin) as (Hk & Hd & Hrm). destruct op; cbn in *; try done; injection Ho as <-; try done; injection Hk as -> -> ->; try done.
  by eapply Hrm.
Qed.

(** ** Deletion *)

(** A plain deletion up to its write. *)
Lemma delete_plan (stmt : WriteStmt R) detach extra params st value :
  s_unwind stmt = None → s_upsert stmt = false → s_op stmt = WDelete detach extra → core_uuid st = gen_uuid →
  write_value params (s_key_value stmt) = Ok value →
  let key := (s_label stmt, s_key stmt, value) in
  let resolution := Resolve.resolve_business_key (s_label stmt) (s_key stmt) value in
  execute_write random_nonce stmt params st =
  match resolve_node_op_from (born_synthetic_for_identity st) (born_synthetic_in_delta st) resolution key false false with
  | Err e => (Err e, st)
  | Ok resolved =>
      (check_delete (WDelete detach extra) resolved ≫= λ _,
       DeltaWriter.write_batch random_nonce [(DeleteNode (s_label stmt) (s_key stmt) value, ResNode resolved)] ≫= λ _,
       match s_ret stmt with
       | None => mret no_rows
       | Some ret => committed_id resolved key ≫= λ id, project_write_return ret [s_var stmt] [[Val.Node id]] params
       end) st
  end.
Proof.
  intros Hu Hup Hop Huuid Hv. cbv zeta. unfold execute_write, refuse_orphaned_delta, admit_row, node_ops_of, resolve_row, wtry, wlift.
  rewrite Hu, Hup, Hop. cbn [build_node_wal_ops]. unfold mbind, wio_bind.
  rewrite Huuid, Z.eqb_refl, Hv. cbn -[resolve_node_op_from check_delete validate_vector_dims DeltaWriter.write_batch].
  assert (validate_vector_dims [DeleteNode (s_label stmt) (s_key stmt) value] = Ok tt) as ->.
  { unfold validate_vector_dims. by destruct vector_indexes. }
  destruct (resolve_node_op_from _ _ _ _ false false) as [resolved|e]; [|done]. cbn -[check_delete DeltaWriter.write_batch].
  destruct (check_delete (WDelete detach extra) resolved st) as [[[]|e] st1]; done.
Qed.

Lemma delete_effect l0 m m1 label kn value id : node_effect l0 m m1 (label, kn, value) OpDelete →
  memtable_wf m → registered l0 m → born_kept m m1 → Value.wf value →
  or_else (one_key (label, kn, value)) (born_in_delta m l0 (label, kn, value)) = Some id →
  batch_effect l0 m m1 (label, kn, value) [OpDelete] id.
Proof.
  intros [Hm1 Hr1 _ _ Hp _] Hm Hr Hb Hv Hf.
  assert (write_target l0 m (label, kn, value) id) as Ht.
  { unfold write_target, key_id. unfold born_in_delta, born_in_l0 in Hf. cbn [find_map fst snd] in *.
    destruct (one_key (label, kn, value)) as [x|] eqn:E1; [by left|]. cbn [or_else] in Hf.
    destruct (Memtable.born_synthetic_for_identity label kn value m) as [z|] eqn:E2; [|by left].
    right. split; [|done]. destruct (born_synthetic_entry label kn value m z Hm Hv E2) as (e & He & Hs & Hnm).
    pose proof (registered_fresh _ _ Hr _ _ label kn value He ltac:(by eexists) Hnm) as H. unfold key_id in H. by rewrite E1 in H. }
  destruct Hp as [(y & Hy & Hpy & Ho)|(_ & Hn & Hbn & _)].
  - assert (id = y) as -> by by eapply (write_target_kept l0 m m1 (label, kn, value)). by split.
  - exfalso. apply (target_kept l0 m m1) in Ht as [?|[_ ?]]; try done; congruence.
Qed.

(** What the write of a deletion does. *)
Lemma delete_written st l k v resolved id seq st' : readable st → served_by st →
  ops_fit [DeleteNode l k v] st → found_at st (l, k, v) = Some id →
  resolve_node_op (w_mem (inner st)) (levels st) (l, k, v) false false = Ok resolved →
  DeltaWriter.write_batch random_nonce [(DeleteNode l k v, ResNode resolved)] st = (Ok seq, st') →
  (∀ c, alive (reader node_count label_id c id (DeltaWriter.delta_snapshot st')) = false) ∧
  ∀ c d, d ≠ id → view_eq (reader node_count label_id c d (DeltaWriter.delta_snapshot st'))
                          (reader node_count label_id c d (DeltaWriter.delta_snapshot st)).
Proof.
  intros [Hm Hr Hk Hlv Hc] [Hinj _ _] [Hok Hroom] Hf Hres Hw.
  apply Forall_cons in Hok as [[Hok Hu] _]. change (zlen [DeleteNode l k v]) with 1 in Hroom.
  assert (Value.wf v) as Hv by by eapply op_ok_key. assert (in_use (l, k, v)) as Hin by by apply Hu.
  unfold found_at in Hf. rewrite (born_delta_current st _ Hc) in Hf.
  destruct (replay_node_effect (levels st) (w_mem (inner st)) (DeleteNode l k v) l k v OpDelete eq_refl eq_refl Hok Hu Hm
    Hroom Hr Hk) as (m1 & E1 & Hne). pose proof Hne as [Hm1 Hr1 Hkp _ _ _].
  pose proof (keeps_born (levels st) _ _ Hm Hm1 Hr Hr1 Hkp) as Hb.
  pose proof (delete_effect _ _ _ _ _ _ _ Hne Hm Hr Hb Hv Hf) as He.
  destruct (accepted_agrees (w_mem (inner st)) (levels st) (w_mem (inner st)) (DeleteNode l k v) (ResNode resolved)
    (accepted_node _ _ (DeleteNode l k v) (l, k, v) false false resolved eq_refl Hok Hu Hres) Hm Hr
    ltac:(by intros ? ? ? ? ? ?)) as (_ & _ & Ea).
  destruct (write_batch_published [(DeleteNode l k v, ResNode resolved)] st seq st' ltac:(done) Hw) as (m' & Em & Ep).
  cbn [DeltaWriter.apply_all] in Em.
  rewrite Ea, E1 in Em. injection Em as <-. unfold current, abs in Hc. rewrite Ep, Hc. split.
  - intros c. destruct Hlv as [Hlw _].
    etrans; [exact (reader_alive node_count label_id m1 (levels st) Hm1 Hlw c id)|].
    unfold stack_delta. rewrite stack_patch. cbn [map]. rewrite (be_patch _ _ _ _ _ _ He). cbn [foldl delta_step].
    change (fold_newest (?a :: ?x)) with (DeltaSnapshot.fold_patch (fold_newest x) a).
    destruct (fold_newest _); cbn [DeltaSnapshot.fold_patch default from_option Datatypes.id]; [|done]. by rewrite fold_newer_live.
  - intros c d Hd. apply (others_same (levels st) (w_mem (inner st)) m1 l k v [OpDelete] id); try done. apply Hkp.
Qed.

Lemma checked_run {A} extra id (k : unit → wio A) st :
  (check_delete (WDelete false extra) (Some id) ≫= k) st =
  match has_incident_edge (DeltaSnapshot.from_memtable (active_memtable st)) id with
  | Ok true => (Err (Bail "Cannot delete node, because it still has relationships"), st)
  | Ok false => k tt st
  | Err e => (Err e, st)
  end.
Proof.
  cbn [check_delete]. unfold node_has_relationships, wtry, wlift, mbind, wio_bind.
  by destruct (has_incident_edge _ id) as [[]|e].
Qed.

(** What is left of a deletion of the node [id] that was planned, by what its check said. *)
Definition deletion (st : DeltaWriter) (key : NodeKey) (id : Z) (attached : result bool)
    (run : result Rows * DeltaWriter) : Prop :=
  match attached with
  | Ok true => run = (Err (Bail "Cannot delete node, because it still has relationships"), st)
  | Err e => run = (Err e, st)
  | Ok false => ∃ wr,
      DeltaWriter.write_batch random_nonce [(DeleteNode key.1.1 key.1.2 key.2, ResNode (Some id))] st = (wr, run.2) ∧
      (is_ok run.1 = true → is_ok wr = true) ∧
      (is_ok wr = true →
         let before c d := reader node_count label_id c d (DeltaWriter.delta_snapshot st) in
         let after c d := reader node_count label_id c d (DeltaWriter.delta_snapshot run.2) in
         (∀ c, alive (after c id) = false) ∧ ∀ c d, d ≠ id → view_eq (after c d) (before c d))
  end.

Lemma deletion_runs st l k v id (detach : bool) extra (g : Z → wio Rows) : readable st → served_by st → ops_fit [DeleteNode l k v] st →
  found_at st (l, k, v) = Some id →
  resolve_node_op_from (born_synthetic_for_identity st) (born_synthetic_in_delta st) (Resolve.resolve_business_key l k v)
    (l, k, v) false false = Ok (Some id) →
  (∀ z, reads (g z)) →
  deletion st (l, k, v) id (if detach then Ok false else has_incident_edge (DeltaSnapshot.from_memtable (active_memtable st)) id)
    ((check_delete (WDelete detach extra) (Some id) ≫= λ _,
      DeltaWriter.write_batch random_nonce [(DeleteNode l k v, ResNode (Some id))] ≫= g) st).
Proof.
  intros Hrd Hsv Hfit Hf Hr Hg.
  assert (deletion st (l, k, v) id (Ok false)
    ((DeltaWriter.write_batch random_nonce [(DeleteNode l k v, ResNode (Some id))] ≫= g) st)) as Hwr.
  { unfold deletion. cbn [fst snd].
    destruct ((DeltaWriter.write_batch random_nonce [(DeleteNode l k v, ResNode (Some id))] ≫= g) st) as [r st'] eqn:H.
    apply then_reads in H as (wr & Ew & Hok); [|done]. exists wr. split_and!; [done..|]. destruct wr as [seq|]; [|done].
    intros _. eapply (delete_written st l k v (Some id) id seq); try done.
    rewrite <- Hr. apply resolve_from_ext; symmetry; [apply born_l0_current|apply born_delta_current]; apply Hrd. }
  destruct detach; [done|]. rewrite checked_run. by destruct (has_incident_edge _ id) as [[]|e].
Qed.

End writes.

(** The invariant of the writer has it. *)
Lemma sound_readable {crypto : Crypto} {crypto_laws : CryptoLaws} {layout : Layout} {order : HashWalk} {R Rows : Type}
    {gen : Generation R Rows} {use : KeyUse} cipher nodes edges st :
  sound cipher nodes edges st → readable st.
Proof. intros [_ Hm Hr Hk Hl Hp]. split; [done..|]. unfold current, DeltaWriter.delta_snapshot. by rewrite Hp. Qed.

(** * Over the example *)

Section examples.
#[local] Existing Instance toy_crypto.
#[local] Existing Instance example_layout.

(** Keys are spelled as integers. *)
#[local] Instance int_keys : KeyUse := λ key, ∃ n, key.2 = Value.Int n.

#[local] Instance served : Generation unit (list (list Val.t)) := example_generation 7.

Lemma table_int entries n : table_lookup (map (λ p, (Value.Int p.1, p.2)) entries) (Value.Int n)
  = Ok (map snd (filter (λ p, p.1 = n) entries)).
Proof.
  unfold table_lookup. f_equal. induction entries as [|[a d] entries IH]; [done|]. cbn [map fst snd].
  assert (Value.cmp_key (Value.Int a) (Value.Int n) = Eq ↔ a = n) as Hc by apply Z.compare_eq_iff.
  rewrite !filter_cons. cbn [fst snd]. do 2 case_decide; try tauto; cbn; by rewrite IH.
Qed.

Lemma int_key_id key d : in_use key → key_id [] key = Some d →
  key = (lit "P", lit "id", Value.Int 1) ∧ d = 3 ∨ key = (lit "P", lit "id", Value.Int 5) ∧ d = 4.
Proof.
  destruct key as [[l k] v]. intros [n Hv]. cbn in Hv. subst v. unfold key_id, one_key. cbn [fst snd].
  change (Resolve.resolve_business_key l k (Value.Int n)) with (KeyProbe.resolve_business_key example_indexes l k (Value.Int n)).
  unfold KeyProbe.resolve_business_key.
  assert (index_for example_indexes l k = Some (lit "ix") ∧ l = lit "P" ∧ k = lit "id" ∨ index_for example_indexes l k = None) as Hix.
  { unfold index_for. cbn [range_indexes example_indexes find ri_node ri_property ri_label ri_name andb].
    do 2 case_bool_decide; subst; cbn [andb]; try by right. left. split_and!; vm_compute; reflexivity. }
  destruct Hix as [(-> & -> & ->)| ->]; [|done].
  change (mbind _ (Some (lit "ix"))) with (Some (table_index (map (λ p, (Value.Int p.1, p.2)) [(1, 3); (2, 4)]))).
  cbn [lookup_eq table_index is_singleton segments example_indexes fold_index_eq removals may_hold_eq frag_lookup_eq table_fragment].
  change [(Value.Int 5, 4)] with (map (λ p, (Value.Int p.1, p.2)) [(5, 4)]). rewrite !table_int.
  destruct (decide (n = 1)) as [->|H1]; [vm_compute; intros [= <-]; by left|].
  destruct (decide (n = 5)) as [->|H5]; [vm_compute; intros [= <-]; by right|].
  destruct (decide (n = 2)) as [->|H2]; [by vm_compute|].
  rewrite (filter_cons_False _ (1, 3)), (filter_cons_False _ (2, 4)), (filter_cons_False _ (5, 4)) by (cbn; congruence).
  by vm_compute.
Qed.

Lemma int_keys_distinct : keys_distinct [] 10.
Proof.
  split.
  - intros key d _ Hu H. destruct (int_key_id key d Hu H) as [[_ ->]|[_ ->]]; lia.
  - intros key key' d _ _ Hu Hu' H H'.
    destruct (int_key_id key d Hu H) as [[-> ->]|[-> ->]], (int_key_id key' _ Hu' H') as [[-> E]|[-> E]]; congruence || done.
Qed.
Lemma start_mem : w_mem (inner server_start) = with_bases 10 5 ∧ levels server_start = [].
Proof. split; vm_compute; reflexivity. Qed.

Lemma start_readable : readable server_start.
Proof.
  destruct start_mem as [Em El]. split; rewrite ?Em, ?El.
  - apply with_bases_wf.
  - intros ck e l k v He. cbn in He. by rewrite lookup_empty in He.
  - exact int_keys_distinct.
  - split; [constructor|]. by intros ? ? ? ?%elem_of_nil.
  - vm_compute. reflexivity.
Qed.

Lemma start_served : served_by server_start.
Proof.
  destruct start_mem as [Em El]. split; rewrite ?Em.
  - intros l l' i. cbn [label_id served example_generation]. repeat case_decide; congruence.
  - intros key d Hu H. destruct (int_key_id key d Hu) as [[_ ->]|[_ ->]]; [unfold key_id; by rewrite H|done|done].
  - done.
Qed.



(** What the keys in use are for.  The index finds the node under the integer 1 for the float
    1.0 as well, the delta keeps the two apart: two acknowledged writes of node 3 under the two
    spellings, and the second hides the first. *)
Definition set_stmt (key : Value.t) (prop : str) : WriteStmt unit :=
  mkWriteStmt (lit "n") (lit "P") (lit "id") (Literal key) false (WSet [SetProp prop (Literal (Value.Int 7))]) [] [] (Some tt) None.

Theorem second_spelling_hides :
  let one := run_at 7 (JobNode (set_stmt (Value.Int 1) (lit "x"))) server_start in
  let two := run_at 7 (JobNode (set_stmt (Value.Float (Value.i64_as_f64 1)) (lit "y"))) one.2 in
  let prop name run := DeltaSnapshot.node_patch 3 (DeltaWriter.delta_snapshot run.2) ≫= λ n, patches n !! name in
  one.1 = Ok [[Val.Node 3]] ∧ two.1 = Ok [[Val.Node 3]] ∧
  prop (lit "x") one = Some (Value.Int 7) ∧ prop (lit "x") two = None ∧ prop (lit "y") two = Some (Value.Int 7).
Proof. cbv zeta. split_and!; vm_compute; reflexivity. Qed.
End examples.
