(* ===== verification/PackStream.v ===== *)
(** PackStream, the value encoding of the Bolt protocol
    (crates/slater/src/bolt/packstream.rs).

    [encode] returns the bytes the source appends.  A [Decoder] holds what is left of the
    buffer; the [depth] counter of the source is the number of levels [lv] that are left. *)

From S2P Require Import Prelude Values.

#[local] Set Warnings "-register-all".

Module PsValue.

Inductive t :=
  | Null
  | Bool (b : bool)
  | Int (i : Z)
  | Float (bits : Z)
  | Bytes (b : bytes)
  | String (s : str)
  | List (items : list t)
  | Map (entries : list (str * t))
  | Struct (tag : Z) (fields : list t).

(** [PsValue::get]: the first entry under the key. *)
Definition get (v : t) (key : str) : option t :=
  match v with
  | Map entries => snd <$> List.find (λ e, bool_decide (e.1 = key)) entries
  | _ => None
  end.

Definition as_str (v : t) : option str := match v with String s => Some s | _ => None end.
Definition as_int (v : t) : option Z := match v with Int i => Some i | _ => None end.

Section ind.
Context (P : t → Prop) (HNull : P Null) (HBool : ∀ b, P (Bool b)) (HInt : ∀ i, P (Int i))
  (HFloat : ∀ x, P (Float x)) (HBytes : ∀ b, P (Bytes b)) (HString : ∀ s, P (String s))
  (HList : ∀ l, Forall P l → P (List l)) (HMap : ∀ l, Forall (λ e, P e.2) l → P (Map l))
  (HStruct : ∀ tag l, Forall P l → P (Struct tag l)).

Fixpoint nested_ind (v : t) : P v :=
  let go := fix go (l : list t) : Forall P l :=
    match l with
    | [] => Forall_nil_2 _
    | v :: l => Forall_cons_2 _ _ _ (nested_ind v) (go l)
    end in
  match v with
  | Null => HNull
  | Bool b => HBool b
  | Int i => HInt i
  | Float x => HFloat x
  | Bytes b => HBytes b
  | String s => HString s
  | List l => HList l (go l)
  | Map l => HMap l
      ((fix gom (l : list (str * t)) : Forall (λ e, P e.2) l :=
          match l with
          | [] => Forall_nil_2 _
          | e :: l => Forall_cons_2 (λ e, P e.2) e l (nested_ind e.2) (gom l)
          end) l)
  | Struct tag l => HStruct tag l (go l)
  end.
End ind.

(** The number of values a decoder spends on [v]: itself, its items, and two per entry. *)
Fixpoint count (v : t) : Z :=
  let sum := fix sum (l : list t) := match l with [] => 0 | v :: l => count v + sum l end in
  match v with
  | List l => 1 + sum l
  | Map l => 1 + (fix sum (l : list (str * t)) :=
                    match l with [] => 0 | e :: l => 1 + count e.2 + sum l end) l
  | Struct _ l => 1 + sum l
  | _ => 1
  end.

Definition count_all (l : list t) : Z := foldr (λ v n, count v + n) 0 l.
Definition count_entries (l : list (str * t)) : Z := foldr (λ e n, 1 + count e.2 + n) 0 l.

(** Nesting, the value itself included; a map key is a value of its own. *)
Fixpoint depth (v : t) : nat :=
  let deepest := fix deepest (l : list t) :=
    match l with [] => O | v :: l => Nat.max (depth v) (deepest l) end in
  match v with
  | List l => S (deepest l)
  | Map l => S ((fix deepest (l : list (str * t)) :=
                   match l with [] => O | e :: l => Nat.max (Nat.max 1 (depth e.2)) (deepest l) end) l)
  | Struct _ l => S (deepest l)
  | _ => 1%nat
  end.

Definition deepest (l : list t) : nat := foldr (λ v n, Nat.max (depth v) n) O l.
Definition deepest_entry (l : list (str * t)) : nat :=
  foldr (λ e n, Nat.max (Nat.max 1 (depth e.2)) n) O l.

(** What the Rust types and the 32-bit headers guarantee; Bolt structures have at most
    fifteen fields. *)
Definition str_wf (s : str) : Prop := Forall is_u8 s ∧ utf8_valid s = true ∧ zlen s < 2 ^ 32.

Fixpoint wf (v : t) : Prop :=
  let all := fix all (l : list t) := match l with [] => True | v :: l => wf v ∧ all l end in
  match v with
  | Null | Bool _ => True
  | Int i => is_i64 i
  | Float x => is_u64 x
  | Bytes b => Forall is_u8 b ∧ zlen b < 2 ^ 32
  | String s => str_wf s
  | List l => zlen l < 2 ^ 32 ∧ all l
  | Map l => zlen l < 2 ^ 32 ∧
      (fix all (l : list (str * t)) := match l with [] => True | e :: l => (str_wf e.1 ∧ wf e.2) ∧ all l end) l
  | Struct tag l => is_u8 tag ∧ zlen l <= 15 ∧ all l
  end.

Lemma all_Forall {A} (P : A → Prop) (l : list A) :
  (fix all (l : list A) := match l with [] => True | v :: l => P v ∧ all l end) l ↔ Forall P l.
Proof. induction l; [by split|]. rewrite Forall_cons. tauto. Qed.

Lemma ps_wf_List l : wf (List l) ↔ zlen l < 2 ^ 32 ∧ Forall wf l.
Proof. simpl. by rewrite all_Forall. Qed.
Lemma wf_Map l : wf (Map l) ↔ zlen l < 2 ^ 32 ∧ Forall (λ e, str_wf e.1 ∧ wf e.2) l.
Proof. simpl. by rewrite (all_Forall (λ e, str_wf e.1 ∧ wf e.2)). Qed.
Lemma wf_Struct tag l : wf (Struct tag l) ↔ is_u8 tag ∧ zlen l <= 15 ∧ Forall wf l.
Proof. simpl. by rewrite all_Forall. Qed.

Lemma count_List l : count (List l) = 1 + count_all l.
Proof. reflexivity. Qed.
Lemma count_Struct tag l : count (Struct tag l) = 1 + count_all l.
Proof. reflexivity. Qed.
Lemma count_Map l : count (Map l) = 1 + count_entries l.
Proof. reflexivity. Qed.

Lemma ps_depth_List l : depth (List l) = S (deepest l).
Proof. reflexivity. Qed.
Lemma depth_Struct tag l : depth (Struct tag l) = S (deepest l).
Proof. reflexivity. Qed.
Lemma depth_Map l : depth (Map l) = S (deepest_entry l).
Proof. reflexivity. Qed.

Lemma count_pos v : 1 <= count v.
Proof.
  assert (∀ l : list t, Forall (λ v, 1 <= count v) l → 0 <= count_all l) as Hl.
  { induction 1; simpl; lia. }
  induction v as [| | | | | |l H|l H|? l H] using nested_ind; try (cbn; lia).
  - rewrite count_List. specialize (Hl l H). lia.
  - rewrite count_Map. assert (0 <= count_entries l) by (induction H; simpl; lia). lia.
  - rewrite count_Struct. specialize (Hl l H). lia.
Qed.

Lemma count_all_nonneg l : 0 <= count_all l.
Proof. induction l as [|v l IH]; simpl; [done|]. pose proof (count_pos v). lia. Qed.
Lemma count_entries_nonneg l : 0 <= count_entries l.
Proof. induction l as [|e l IH]; simpl; [done|]. pose proof (count_pos e.2). lia. Qed.

End PsValue.

(** ** Encoding *)

(** [tiny | n] up to fifteen, then the sized markers [wide], [wide + 1], [wide + 2]. *)
Definition encode_sized_header (n tiny_base wide_base : Z) : bytes :=
  if n <=? 15 then [Z.lor tiny_base (n mod 2 ^ 8)]
  else if n <=? 255 then [wide_base; n mod 2 ^ 8]
  else if n <=? 65535 then (wide_base + 1) :: be_bytes 2 (n mod 2 ^ 16)
  else (wide_base + 2) :: be_bytes 4 (n mod 2 ^ 32).

Definition encode_int (v : Z) : bytes :=
  if (-16 <=? v) && (v <=? 127) then [v mod 2 ^ 8]
  else if (- 2 ^ 7 <=? v) && (v <=? 2 ^ 7 - 1) then [0xC8; v mod 2 ^ 8]
  else if (- 2 ^ 15 <=? v) && (v <=? 2 ^ 15 - 1) then 0xC9 :: be_bytes 2 (v mod 2 ^ 16)
  else if (- 2 ^ 31 <=? v) && (v <=? 2 ^ 31 - 1) then 0xCA :: be_bytes 4 (v mod 2 ^ 32)
  else 0xCB :: be_bytes 8 (v mod 2 ^ 64).

(** The [Bytes] arm. *)
Definition encode_bytes (b : bytes) : bytes :=
  let n := zlen b in
  (if n <=? 255 then [0xCC; n mod 2 ^ 8]
   else if n <=? 65535 then 0xCD :: be_bytes 2 (n mod 2 ^ 16)
   else 0xCE :: be_bytes 4 (n mod 2 ^ 32)) ++ b.

(** The [String] arm. *)
Definition encode_string (s : str) : bytes :=
  let n := zlen s in
  (if n <=? 15 then [Z.lor 0x80 (n mod 2 ^ 8)]
   else if n <=? 255 then [0xD0; n mod 2 ^ 8]
   else if n <=? 65535 then 0xD1 :: be_bytes 2 (n mod 2 ^ 16)
   else 0xD2 :: be_bytes 4 (n mod 2 ^ 32)) ++ s.

Fixpoint encode (v : PsValue.t) : bytes :=
  match v with
  | PsValue.Null => [0xC0]
  | PsValue.Bool false => [0xC2]
  | PsValue.Bool true => [0xC3]
  | PsValue.Int i => encode_int i
  | PsValue.Float f => 0xC1 :: be_bytes 8 f
  | PsValue.Bytes b => encode_bytes b
  | PsValue.String s => encode_string s
  | PsValue.List items =>
      encode_sized_header (zlen items) 0x90 0xD4 ++ concat (map encode items)
  | PsValue.Map entries =>
      encode_sized_header (zlen entries) 0xA0 0xD8 ++
      concat (map (λ e, encode_string e.1 ++ encode e.2) entries)
  | PsValue.Struct tag fields =>
      Z.lor 0xB0 (zlen fields mod 2 ^ 8) :: tag :: concat (map encode fields)
  end.

Definition to_vec (v : PsValue.t) : bytes := encode v.

(** ** Decoding *)

Definition MAX_DEPTH : nat := 256.
Definition MAX_VALUES : Z := 2000000.

Record Decoder := mkDecoder { d_rest : bytes; d_budget : Z; d_max : Z }.

Abbreviation decoder A := (Decoder → result (A * Decoder)) (only parsing).

Definition with_max_values (buf : bytes) (max_values : Z) : Decoder := mkDecoder buf max_values max_values.
Definition new (buf : bytes) : Decoder := with_max_values buf MAX_VALUES.

Definition remaining (d : Decoder) : Z := zlen (d_rest d).

Definition eof : error := Bail "packstream: unexpected end of input".
Definition too_deep : error := Bail "packstream: value nesting exceeds the limit".

(** [self.take(n)?]. *)
Definition take_n (n : Z) : decoder bytes := λ d,
  '(s, r) ← split_at eof n (d_rest d); Ok (s, mkDecoder r (d_budget d) (d_max d)).

Definition d_u8 : decoder Z := λ d, '(s, d) ← take_n 1 d; Ok (be_val s, d).
Definition d_u16 : decoder Z := λ d, '(s, d) ← take_n 2 d; Ok (be_val s, d).
Definition d_u32 : decoder Z := λ d, '(s, d) ← take_n 4 d; Ok (be_val s, d).
Definition d_u64 : decoder Z := λ d, '(s, d) ← take_n 8 d; Ok (be_val s, d).

(** What a container reserves room for. *)
Definition ps_capacity_for (declared : Z) (d : Decoder) : Z :=
  Z.min (Z.min declared (remaining d)) (d_budget d).

(** [for _ in 0..n { v.push(rd()?) }].  Every element takes a byte, so the length of the
    buffer is fuel enough ([read_n_step], [read_n_fuel_safe]). *)
Fixpoint read_n_fuel {A} (rd : decoder A) (fuel : nat) (n : Z) (d : Decoder) : result (list A * Decoder) :=
  if n <=? 0 then Ok ([], d)
  else match fuel with
  | O => Err OutOfFuel
  | S fuel =>
      '(x, d) ← rd d;
      '(xs, d) ← read_n_fuel rd fuel (n - 1) d;
      Ok (x :: xs, d)
  end.

Definition read_n {A} (rd : decoder A) (n : Z) (d : Decoder) : result (list A * Decoder) :=
  read_n_fuel rd (S (length (d_rest d))) n d.

Definition ps_read_string (n : Z) : decoder PsValue.t := λ d,
  '(s, d) ← take_n n d;
  if utf8_valid s then Ok (PsValue.String s, d) else Err (Bail "packstream: invalid UTF-8 string").

Definition ps_read_bytes (n : Z) : decoder PsValue.t := λ d,
  '(s, d) ← take_n n d; Ok (PsValue.Bytes s, d).

Section containers.
Context (read_value : decoder PsValue.t).

Definition read_list (n : Z) : decoder PsValue.t := λ d,
  '(items, d) ← read_n read_value n d; Ok (PsValue.List items, d).

Definition read_entry : decoder (str * PsValue.t) := λ d,
  '(k, d) ← read_value d;
  match k with
  | PsValue.String s => '(v, d) ← read_value d; Ok ((s, v), d)
  | _ => Err (Bail "packstream: map key is not a string")
  end.

Definition ps_read_map (n : Z) : decoder PsValue.t := λ d,
  '(entries, d) ← read_n read_entry n d; Ok (PsValue.Map entries, d).

Definition read_struct (field_count : Z) : decoder PsValue.t := λ d,
  '(tag, d) ← d_u8 d;
  '(fields, d) ← read_n read_value field_count d; Ok (PsValue.Struct tag fields, d).

Definition read_value_inner : decoder PsValue.t := λ d,
  '(m, d) ← d_u8 d;
  let low := Z.land m 0x0F in
  if byte_in 0x00 0x7F m then Ok (PsValue.Int m, d)
  else if byte_in 0xF0 0xFF m then Ok (PsValue.Int (Value.as_signed 8 m), d)
  else if byte_in 0x80 0x8F m then ps_read_string low d
  else if byte_in 0x90 0x9F m then read_list low d
  else if byte_in 0xA0 0xAF m then ps_read_map low d
  else if byte_in 0xB0 0xBF m then read_struct low d
  else if m =? 0xC0 then Ok (PsValue.Null, d)
  else if m =? 0xC1 then '(x, d) ← d_u64 d; Ok (PsValue.Float x, d)
  else if m =? 0xC2 then Ok (PsValue.Bool false, d)
  else if m =? 0xC3 then Ok (PsValue.Bool true, d)
  else if m =? 0xC8 then '(x, d) ← d_u8 d; Ok (PsValue.Int (Value.as_signed 8 x), d)
  else if m =? 0xC9 then '(x, d) ← d_u16 d; Ok (PsValue.Int (Value.as_signed 16 x), d)
  else if m =? 0xCA then '(x, d) ← d_u32 d; Ok (PsValue.Int (Value.as_signed 32 x), d)
  else if m =? 0xCB then '(x, d) ← d_u64 d; Ok (PsValue.Int (Value.as_signed 64 x), d)
  else if m =? 0xCC then '(n, d) ← d_u8 d; ps_read_bytes n d
  else if m =? 0xCD then '(n, d) ← d_u16 d; ps_read_bytes n d
  else if m =? 0xCE then '(n, d) ← d_u32 d; ps_read_bytes n d
  else if m =? 0xD0 then '(n, d) ← d_u8 d; ps_read_string n d
  else if m =? 0xD1 then '(n, d) ← d_u16 d; ps_read_string n d
  else if m =? 0xD2 then '(n, d) ← d_u32 d; ps_read_string n d
  else if m =? 0xD4 then '(n, d) ← d_u8 d; read_list n d
  else if m =? 0xD5 then '(n, d) ← d_u16 d; read_list n d
  else if m =? 0xD6 then '(n, d) ← d_u32 d; read_list n d
  else if m =? 0xD8 then '(n, d) ← d_u8 d; ps_read_map n d
  else if m =? 0xD9 then '(n, d) ← d_u16 d; ps_read_map n d
  else if m =? 0xDA then '(n, d) ← d_u32 d; ps_read_map n d
  else Err (Bail "packstream: unknown marker byte").
End containers.

(** [read_value] with [lv] levels left below [MAX_DEPTH]. *)
Fixpoint ps_read_value (lv : nat) (d : Decoder) : result (PsValue.t * Decoder) :=
  if d_budget d =? 0 then Err (ValueBudgetExceeded (d_max d))
  else
    let d := mkDecoder (d_rest d) (d_budget d - 1) (d_max d) in
    match lv with
    | O => Err too_deep
    | S lv => read_value_inner (ps_read_value lv) d
    end.

Definition from_slice_capped (buf : bytes) (max_values : Z) : result PsValue.t :=
  '(v, d) ← ps_read_value MAX_DEPTH (with_max_values buf max_values);
  if negb (remaining d =? 0) then Err (Bail "packstream: trailing bytes after value") else Ok v.

Definition from_slice (buf : bytes) : result PsValue.t := from_slice_capped buf MAX_VALUES.

#[global] Arguments read_n : simpl never.
#[global] Arguments encode_sized_header : simpl never.
#[global] Arguments encode_int : simpl never.
#[global] Arguments encode_bytes : simpl never.
#[global] Arguments encode_string : simpl never.

(** * Reading what is at hand *)

Lemma take_n_app s r b mx : take_n (zlen s) (mkDecoder (s ++ r) b mx) = Ok (s, mkDecoder r b mx).
Proof. unfold take_n. cbn [d_rest]. by rewrite split_at_app. Qed.

Lemma take_n_be k z r b mx : take_n (Z.of_nat k) (mkDecoder (be_bytes k z ++ r) b mx) = Ok (be_bytes k z, mkDecoder r b mx).
Proof.
  rewrite <- (take_n_app (be_bytes k z)). f_equal. unfold zlen. by rewrite length_be_bytes.
Qed.

Lemma d_u8_cons m r b mx : d_u8 (mkDecoder (m :: r) b mx) = Ok (m, mkDecoder r b mx).
Proof.
  unfold d_u8. rewrite (take_n_app [m] r b mx : take_n 1 (mkDecoder (m :: r) b mx) = _). cbn.
  unfold be_val, le_val. cbn [rev app]. by rewrite Z.shiftl_0_l, Z.add_0_r.
Qed.

Lemma d_u16_be z r b mx : 0 <= z < 2 ^ 16 →
  d_u16 (mkDecoder (be_bytes 2 z ++ r) b mx) = Ok (z, mkDecoder r b mx).
Proof. intros. unfold d_u16. change 2 with (Z.of_nat 2). rewrite take_n_be. cbn [mbind result_bind]. by rewrite be_val_bytes. Qed.
Lemma d_u32_be z r b mx : 0 <= z < 2 ^ 32 →
  d_u32 (mkDecoder (be_bytes 4 z ++ r) b mx) = Ok (z, mkDecoder r b mx).
Proof. intros. unfold d_u32. change 4 with (Z.of_nat 4). rewrite take_n_be. cbn [mbind result_bind]. by rewrite be_val_bytes. Qed.
Lemma d_u64_be z r b mx : 0 <= z < 2 ^ 64 →
  d_u64 (mkDecoder (be_bytes 8 z ++ r) b mx) = Ok (z, mkDecoder r b mx).
Proof. intros. unfold d_u64. change 8 with (Z.of_nat 8). rewrite take_n_be. cbn [mbind result_bind]. by rewrite be_val_bytes. Qed.

(** Evaluate the marker tests on a known marker. *)
Ltac dispatch :=
  unfold read_value_inner; rewrite ?d_u8_cons; cbn [mbind result_bind]; cbv zeta;
  repeat match goal with
  | |- context [if ?c then _ else _] =>
      let v := eval vm_compute in c in
      lazymatch v with
      | true => change c with true
      | false => change c with false
      end; cbv iota
  end; rewrite ?d_u8_cons; cbn [mbind result_bind].

Lemma tiny_cases n : 0 <= n <= 15 →
  n = 0 ∨ n = 1 ∨ n = 2 ∨ n = 3 ∨ n = 4 ∨ n = 5 ∨ n = 6 ∨ n = 7 ∨ n = 8 ∨ n = 9 ∨ n = 10 ∨
  n = 11 ∨ n = 12 ∨ n = 13 ∨ n = 14 ∨ n = 15.
Proof. lia. Qed.

(** Case on the width a length is written with. *)
Ltac header_cases n :=
  destruct (Z.leb_spec n 15);
  [destruct (tiny_cases n) as [->|[->|[->|[->|[->|[->|[->|[->|[->|[->|[->|[->|[->|[->|[->| ->]]]]]]]]]]]]]]]; [lia|..]
  |destruct (Z.leb_spec n 255); [|destruct (Z.leb_spec n 65535)]];
  rewrite ?Z.mod_small by lia; cbn [app].

Section markers.
Context (rv : decoder PsValue.t).

Lemma inner_list n r b mx : 0 <= n < 2 ^ 32 →
  read_value_inner rv (mkDecoder (encode_sized_header n 0x90 0xD4 ++ r) b mx) = read_list rv n (mkDecoder r b mx).
Proof.
  intros. unfold encode_sized_header. header_cases n; dispatch; try reflexivity.
  - by rewrite d_u16_be by lia.
  - by rewrite d_u32_be by lia.
Qed.

Lemma inner_map n r b mx : 0 <= n < 2 ^ 32 →
  read_value_inner rv (mkDecoder (encode_sized_header n 0xA0 0xD8 ++ r) b mx) = ps_read_map rv n (mkDecoder r b mx).
Proof.
  intros. unfold encode_sized_header. header_cases n; dispatch; try reflexivity.
  - by rewrite d_u16_be by lia.
  - by rewrite d_u32_be by lia.
Qed.

Lemma inner_struct n r b mx : 0 <= n <= 15 →
  read_value_inner rv (mkDecoder (Z.lor 0xB0 (n mod 2 ^ 8) :: r) b mx) = read_struct rv n (mkDecoder r b mx).
Proof. intros. header_cases n; try lia; dispatch; reflexivity. Qed.

Lemma inner_string s r b mx : PsValue.str_wf s →
  read_value_inner rv (mkDecoder (encode_string s ++ r) b mx) = Ok (PsValue.String s, mkDecoder r b mx).
Proof.
  intros (_ & Hu & Hl). pose proof (zlen_nonneg s).
  assert (ps_read_string (zlen s) (mkDecoder (s ++ r) b mx) = Ok (PsValue.String s, mkDecoder r b mx)) as <-.
  { unfold ps_read_string. rewrite take_n_app. cbn [mbind result_bind]. by rewrite Hu. }
  unfold encode_string. rewrite <- app_assoc. generalize (s ++ r). generalize dependent (zlen s). intros n Hn ? l.
  header_cases n; dispatch; try reflexivity.
  - by rewrite d_u16_be by lia.
  - by rewrite d_u32_be by lia.
Qed.

Lemma inner_bytes s r b mx : zlen s < 2 ^ 32 →
  read_value_inner rv (mkDecoder (encode_bytes s ++ r) b mx) = Ok (PsValue.Bytes s, mkDecoder r b mx).
Proof.
  intros Hl. pose proof (zlen_nonneg s).
  assert (ps_read_bytes (zlen s) (mkDecoder (s ++ r) b mx) = Ok (PsValue.Bytes s, mkDecoder r b mx)) as <-.
  { unfold ps_read_bytes. by rewrite take_n_app. }
  unfold encode_bytes. rewrite <- app_assoc. generalize (s ++ r). generalize dependent (zlen s). intros n Hn ? l.
  destruct (Z.leb_spec n 255); [|destruct (Z.leb_spec n 65535)]; rewrite ?Z.mod_small by lia; cbn [app]; dispatch.
  - reflexivity.
  - by rewrite d_u16_be by lia.
  - by rewrite d_u32_be by lia.
Qed.

(** The two's complement image of a [w]-bit integer reads back. *)
Lemma as_signed_mod w v : 0 < w → - 2 ^ (w - 1) <= v < 2 ^ (w - 1) → Value.as_signed w (v mod 2 ^ w) = v.
Proof.
  intros Hw Hv. unfold Value.as_signed. assert (2 ^ w = 2 * 2 ^ (w - 1)) as E.
  { rewrite <- Z.pow_succ_r by lia. f_equal. lia. }
  rewrite Zplus_mod_idemp_l. rewrite Z.mod_small by lia. lia.
Qed.

Lemma inner_int i r b mx : is_i64 i →
  read_value_inner rv (mkDecoder (encode_int i ++ r) b mx) = Ok (PsValue.Int i, mkDecoder r b mx).
Proof.
  unfold is_i64. intros Hi. unfold encode_int.
  destruct ((-16 <=? i) && (i <=? 127)) eqn:E.
  { apply andb_true_iff in E as [?%Z.leb_le ?%Z.leb_le]. cbn [app].
    unfold read_value_inner. rewrite d_u8_cons. cbn [mbind result_bind]. cbv zeta. unfold byte_in.
    destruct (Z.le_gt_cases 0 i).
    - rewrite Z.mod_small by lia. by rewrite !(proj2 (Z.leb_le _ _)) by lia.
    - replace (i mod 2 ^ 8) with (i + 2 ^ 8) by (apply (Z.mod_unique _ _ (-1)); lia).
      rewrite (proj2 (Z.leb_gt (i + 2 ^ 8) 127)) by lia. rewrite andb_false_r.
      rewrite !(proj2 (Z.leb_le _ _)) by lia. cbn [andb].
      replace (i + 2 ^ 8) with (i mod 2 ^ 8) by (symmetry; apply (Z.mod_unique _ _ (-1)); lia).
      by rewrite as_signed_mod by lia. }
  clear E. repeat match goal with |- context [(?a <=? i) && (i <=? ?c)] =>
    destruct ((a <=? i) && (i <=? c)) eqn:E;
    [apply andb_true_iff in E as [?%Z.leb_le ?%Z.leb_le]|clear E] end; cbn [app].
  all: dispatch; rewrite ?d_u16_be, ?d_u32_be, ?d_u64_be by (apply Z.mod_pos_bound; lia); cbn [mbind result_bind].
  all: by rewrite as_signed_mod by lia.
Qed.
End markers.

(** * Loops *)

(** What a loop needs of the decoder it repeats. *)
Class Advancing {A} (rd : decoder A) : Prop :=
  advancing d a d' : rd d = Ok (a, d') → (length (d_rest d') < length (d_rest d))%nat.

Section loops.
Context {A : Type} (rd : decoder A) `{!Advancing rd}.

Lemma read_n_fuel_irrel f1 f2 n d :
  (length (d_rest d) < f1)%nat → (length (d_rest d) < f2)%nat →
  read_n_fuel rd f1 n d = read_n_fuel rd f2 n d.
Proof.
  revert f2 n d. induction f1 as [|f1 IH]; intros f2 n d H1 H2; [lia|].
  destruct f2 as [|f2]; [lia|]. simpl. destruct (n <=? 0); [done|].
  destruct (rd d) as [[x d1]|] eqn:E; simpl; [|done].
  apply advancing in E. by rewrite (IH f2) by lia.
Qed.

Lemma read_n_zero n d : n <= 0 → read_n rd n d = Ok ([], d).
Proof. intros. unfold read_n. simpl. by rewrite (proj2 (Z.leb_le _ _)). Qed.

Lemma read_n_step n d : 0 < n →
  read_n rd n d = '(x, d) ← rd d; '(xs, d) ← read_n rd (n - 1) d; Ok (x :: xs, d).
Proof.
  intros. unfold read_n at 1. cbn [read_n_fuel]. rewrite (proj2 (Z.leb_gt _ _)) by lia.
  destruct (rd d) as [[x d1]|] eqn:E; simpl; [|done].
  apply advancing in E. unfold read_n. by rewrite (read_n_fuel_irrel _ (S (length (d_rest d1)))) by lia.
Qed.

(** Induction on the run of a loop. *)
Lemma read_n_ind (P : Z → Decoder → Prop) :
  (∀ n d, n <= 0 → P n d) →
  (∀ n d, 0 < n → (∀ x d', rd d = Ok (x, d') → P (n - 1) d') → P n d) →
  ∀ n d, P n d.
Proof.
  intros H0 HS n d. remember (length (d_rest d)) as k eqn:Hk. revert n d Hk.
  induction k as [k IH] using (well_founded_induction lt_wf); intros n d ->.
  destruct (Z.le_gt_cases n 0); [by apply H0|]. apply HS; [done|]. intros x d' Hx.
  apply advancing in Hx. by eapply IH.
Qed.

Lemma read_n_fuel_safe n d : (∀ d, rd d ≠ Err OutOfFuel) → read_n rd n d ≠ Err OutOfFuel.
Proof.
  intros Hs. revert n d. apply (read_n_ind (λ n d, read_n rd n d ≠ Err OutOfFuel)); intros n d Hn.
  { by rewrite read_n_zero. }
  intros IH. rewrite read_n_step by done. destruct (rd d) as [[x d1]|] eqn:E; simpl.
  - specialize (IH x d1 eq_refl). by destruct (read_n rd (n - 1) d1) as [[]|].
  - intros [= ->]. by apply (Hs d).
Qed.

Lemma read_n_length n d xs d' : read_n rd n d = Ok (xs, d') →
  zlen xs = Z.max 0 n ∧ (length (d_rest d') <= length (d_rest d))%nat.
Proof.
  revert n d xs d'.
  apply (read_n_ind (λ n d, ∀ xs d', read_n rd n d = Ok (xs, d') →
    zlen xs = Z.max 0 n ∧ (length (d_rest d') <= length (d_rest d))%nat)); intros n d Hn.
  { intros xs d'. rewrite read_n_zero by done. intros [= <- <-]. unfold zlen. cbn [length]. lia. }
  intros IH xs d'. rewrite read_n_step by done. intros Hr. split_bind. simplify_eq.
  apply (IH _ _ H) in H0 as [Hl Hd]. apply advancing in H. unfold zlen in *. cbn [length]. lia.
Qed.
End loops.

(** * Decoding what was encoded *)

(** A decoder meets the image of [a], of the given depth and count, followed by [r]. *)
Inductive outcome {A} (lv : nat) (b mx : Z) (dep : nat) (cnt : Z) (a : A) (r : bytes) :
    result (A * Decoder) → Prop :=
  | accepted : (dep <= lv)%nat → cnt <= b → outcome lv b mx dep cnt a r (Ok (a, mkDecoder r (b - cnt) mx))
  | over_budget : b < cnt → outcome lv b mx dep cnt a r (Err (ValueBudgetExceeded mx))
  | nested_too_deep : (lv < dep)%nat → outcome lv b mx dep cnt a r (Err too_deep).

(** A step and what follows it. *)
Lemma outcome_bind {A B} lv b mx d1 d2 c1 c2 (a : A) (x : B) r1 r2 m f :
  0 <= c2 → outcome lv b mx d1 c1 a r1 m →
  (∀ b', 0 <= b' → outcome lv b' mx d2 c2 x r2 (f (a, mkDecoder r1 b' mx))) →
  outcome lv b mx (Nat.max d1 d2) (c1 + c2) x r2 (m ≫= f).
Proof.
  intros Hc Hm Hf. destruct Hm; cbn [mbind result_bind].
  - destruct (Hf (b - c1)); [lia|..].
    + replace (b - c1 - c2) with (b - (c1 + c2)) by lia.
      apply accepted; lia.
    + apply over_budget; lia.
    + apply nested_too_deep; lia.
  - apply over_budget; lia.
  - apply nested_too_deep; lia.
Qed.
Lemma outcome_weaken {A} lv b mx d1 d2 c1 c2 (a : A) r m :
  d1 = d2 → c1 = c2 → outcome lv b mx d1 c1 a r m → outcome lv b mx d2 c2 a r m.
Proof. by intros -> ->. Qed.

Lemma outcome_return {A B} lv b mx dep cnt (a : A) (g : A → B) r m :
  outcome lv b mx dep cnt a r m → outcome lv b mx dep cnt (g a) r ('(x, d) ← m; Ok (g x, d)).
Proof. by destruct 1; constructor. Qed.

Section written.
Context {A : Type} (rd : decoder A) `{!Advancing rd} (wr : A → bytes) (dep : A → nat) (cnt : A → Z) (lv : nat).

Lemma read_n_written xs b mx r :
  (∀ x, 0 <= cnt x) → 0 <= b →
  Forall (λ x, ∀ b r, 0 <= b → outcome lv b mx (dep x) (cnt x) x r (rd (mkDecoder (wr x ++ r) b mx))) xs →
  outcome lv b mx (foldr (λ x n, Nat.max (dep x) n) O xs) (foldr (λ x n, cnt x + n) 0 xs) xs r
    (read_n rd (zlen xs) (mkDecoder (concat (map wr xs) ++ r) b mx)).
Proof.
  intros Hc Hb Hxs. revert b Hb. induction Hxs as [|x xs Hx _ IH]; intros b Hb.
  { rewrite read_n_zero by done. cbn [foldr map concat app]. replace b with (b - 0) at 2 by lia. constructor; lia. }
  rewrite (read_n_step rd) by (unfold zlen; cbn [length]; lia).
  replace (zlen (x :: xs) - 1) with (zlen xs) by (unfold zlen; cbn [length]; lia).
  cbn [map concat foldr]. rewrite <- app_assoc.
  assert (0 <= foldr (λ x n, cnt x + n) 0 xs) by (clear -Hc; induction xs as [|y ys IH]; simpl; [done|]; specialize (Hc y); lia).
  eapply outcome_bind; [done|by apply Hx|]. intros b' Hb'. cbn beta iota.
  by apply (outcome_return _ _ _ _ _ xs (λ xs, x :: xs)), IH.
Qed.
End written.

(** * The decoders advance and never run out of fuel *)

Lemma take_n_Ok n d s d' : take_n n d = Ok (s, d') →
  d_rest d = s ++ d_rest d' ∧ (0 <= n → zlen s = n) ∧ d_budget d' = d_budget d ∧ d_max d' = d_max d.
Proof.
  unfold take_n. intros H. split_bind. simplify_eq. apply split_at_Ok in H0 as [-> ?]. done.
Qed.

Lemma take_n_length n d s d' : take_n n d = Ok (s, d') → (length (d_rest d') <= length (d_rest d))%nat.
Proof. intros [-> _]%take_n_Ok. rewrite length_app. lia. Qed.

Lemma take_n_fuel_safe n d : take_n n d ≠ Err OutOfFuel.
Proof. unfold take_n. apply bind_fuel_safe; [by apply split_at_fuel_safe|by intros [??]]. Qed.

Lemma d_uint_length k (rd : decoder Z) d x d' :
  rd d = ('(s, d) ← take_n (Z.of_nat k) d; Ok (be_val s, d)) → rd d = Ok (x, d') →
  (length (d_rest d) = k + length (d_rest d'))%nat.
Proof.
  intros E H. rewrite E in H. split_bind. simplify_eq. apply take_n_Ok in H0 as (-> & Hl & _).
  specialize (Hl ltac:(lia)). unfold zlen in Hl. rewrite length_app. lia.
Qed.
Definition d_u8_length := λ d x d', d_uint_length 1 d_u8 d x d' eq_refl.
Definition d_u16_length := λ d x d', d_uint_length 2 d_u16 d x d' eq_refl.
Definition d_u32_length := λ d x d', d_uint_length 4 d_u32 d x d' eq_refl.
Definition d_u64_length := λ d x d', d_uint_length 8 d_u64 d x d' eq_refl.

(** Split a decoder's run and turn its reads into facts on lengths. *)
Ltac decoder_run :=
  repeat match goal with
  | H : _ ≫= _ = Ok _ |- _ => apply bind_Ok in H; destruct H as ([??] & ? & H)
  | H : (if ?c then _ else _) = Ok _ |- _ => destruct c eqn:?; try discriminate H
  | H : ps_read_string _ _ = Ok _ |- _ => unfold ps_read_string in H
  | H : ps_read_bytes _ _ = Ok _ |- _ => unfold ps_read_bytes in H
  | H : read_list _ _ _ = Ok _ |- _ => unfold read_list in H
  | H : ps_read_map _ _ _ = Ok _ |- _ => unfold ps_read_map in H
  | H : read_struct _ _ _ = Ok _ |- _ => unfold read_struct in H
  end; simplify_eq.

Ltac lengths :=
  repeat match goal with
  | H : take_n _ _ = Ok _ |- _ => apply take_n_length in H
  | H : d_u8 _ = Ok _ |- _ => apply d_u8_length in H
  | H : d_u16 _ = Ok _ |- _ => apply d_u16_length in H
  | H : d_u32 _ = Ok _ |- _ => apply d_u32_length in H
  | H : d_u64 _ = Ok _ |- _ => apply d_u64_length in H
  | H : read_n ?rd _ _ = Ok _ |- _ => apply (read_n_length rd) in H as [_ H]
  end; cbn [d_rest] in *; lia.

#[export] Instance read_entry_advancing rv : Advancing rv → Advancing (read_entry rv).
Proof.
  intros Ha d e d' H. unfold read_entry in H. apply bind_Ok in H as ([k d1] & Hk & H).
  destruct k; try discriminate H. split_bind. simplify_eq. apply advancing in Hk, H0. lia.
Qed.

Lemma read_value_inner_advancing rv : Advancing rv → Advancing (read_value_inner rv).
Proof.
  intros Ha d v d' H. unfold read_value_inner in H. cbv zeta in H. decoder_run; lengths.
Qed.

#[export] Instance ps_read_value_advancing lv : Advancing (ps_read_value lv).
Proof.
  induction lv as [|lv IH]; intros d v d' H; cbn [ps_read_value] in H; destruct (_ =? 0); try discriminate H.
  by apply (read_value_inner_advancing _ IH) in H.
Qed.

Lemma read_entry_fuel_safe rv : (∀ d, rv d ≠ Err OutOfFuel) → ∀ d, read_entry rv d ≠ Err OutOfFuel.
Proof.
  intros Hs d. unfold read_entry. apply bind_fuel_safe; [done|]. intros [[] d1]; try done.
  apply bind_fuel_safe; [done|]. by intros [].
Qed.

Lemma read_value_inner_fuel_safe rv : Advancing rv → (∀ d, rv d ≠ Err OutOfFuel) →
  ∀ d, read_value_inner rv d ≠ Err OutOfFuel.
Proof.
  intros Ha Hs d. pose proof (read_entry_fuel_safe rv Hs) as He.
  pose proof (read_n_fuel_safe rv) as Hn. pose proof (read_n_fuel_safe (read_entry rv)) as Hm.
  unfold read_value_inner, read_list, ps_read_map, read_struct, ps_read_string, ps_read_bytes, d_u8, d_u16, d_u32, d_u64. cbv zeta.
  repeat match goal with
  | |- _ ≫= _ ≠ Err OutOfFuel => apply bind_fuel_safe; [|intros [??]]
  | |- (if ?b then _ else _) ≠ _ => destruct b
  | |- take_n _ _ ≠ _ => apply take_n_fuel_safe
  end; try discriminate; auto.
Qed.

Lemma ps_read_value_fuel_safe lv d : ps_read_value lv d ≠ Err OutOfFuel.
Proof.
  revert d. induction lv as [|lv IH]; intros d; cbn [ps_read_value]; destruct (_ =? 0); try done.
  apply read_value_inner_fuel_safe; [apply _|done].
Qed.

(** * The round trip *)

Lemma read_value_case lv b mx dep cnt v r bs :
  0 <= b → (1 <= dep)%nat → 1 <= cnt →
  (∀ lv', lv = S lv' → 0 < b →
     outcome lv' (b - 1) mx (pred dep) (cnt - 1) v r (read_value_inner (ps_read_value lv') (mkDecoder bs (b - 1) mx))) →
  outcome lv b mx dep cnt v r (ps_read_value lv (mkDecoder bs b mx)).
Proof.
  intros Hb Hd Hc Hin. destruct (Z.eqb_spec b 0) as [->|Hb0].
  { destruct lv; cbn [ps_read_value d_budget]; cbn; apply over_budget; lia. }
  destruct lv as [|lv].
  { cbn [ps_read_value d_budget]. rewrite (proj2 (Z.eqb_neq b 0)) by done. apply nested_too_deep. lia. }
  cbn [ps_read_value d_budget d_rest d_max]. rewrite (proj2 (Z.eqb_neq b 0)) by done.
  destruct (Hin lv eq_refl ltac:(lia)); [|constructor; lia..].
  replace (b - 1 - (cnt - 1)) with (b - cnt) by lia. constructor; lia.
Qed.

Lemma read_leaf lv b mx v r bs : 0 <= b → PsValue.depth v = 1%nat → PsValue.count v = 1 →
  (∀ rv b, read_value_inner rv (mkDecoder bs b mx) = Ok (v, mkDecoder r b mx)) →
  outcome lv b mx (PsValue.depth v) (PsValue.count v) v r (ps_read_value lv (mkDecoder bs b mx)).
Proof.
  intros Hb -> -> Hin. apply read_value_case; [done|lia..|]. intros lv' -> Hb'. rewrite Hin.
  replace (b - 1) with (b - 1 - (1 - 1)) at 2 by lia. constructor; cbn; lia.
Qed.

Lemma items_written lv b mx r l : 0 <= b → Forall PsValue.wf l →
  Forall (λ v, PsValue.wf v → ∀ lv b mx r, 0 <= b →
    outcome lv b mx (PsValue.depth v) (PsValue.count v) v r (ps_read_value lv (mkDecoder (encode v ++ r) b mx))) l →
  outcome lv b mx (PsValue.deepest l) (PsValue.count_all l) l r
    (read_n (ps_read_value lv) (zlen l) (mkDecoder (concat (map encode l) ++ r) b mx)).
Proof.
  intros Hb Hw IH. apply (read_n_written _ _ PsValue.depth PsValue.count); [|done|].
  - intros x. pose proof (PsValue.count_pos x). lia.
  - rewrite Forall_forall in IH, Hw |- *. intros x Hx b' r' Hb'. by apply IH; auto.
Qed.

Lemma ps_read_written v : PsValue.wf v → ∀ lv b mx r, 0 <= b →
  outcome lv b mx (PsValue.depth v) (PsValue.count v) v r (ps_read_value lv (mkDecoder (encode v ++ r) b mx)).
Proof.
  induction v as [|[]|i|x|s|s|l IH|l IH|tag l IH] using PsValue.nested_ind; intros Hw lv b mx r Hb.
  1-3: apply read_leaf; try done; intros; cbn [encode app]; dispatch; reflexivity.
  - apply read_leaf; try done. intros. by apply inner_int.
  - apply read_leaf; try done. intros. cbn [encode app]. dispatch. rewrite d_u64_be by exact Hw. reflexivity.
  - apply read_leaf; try done. intros. apply inner_bytes, Hw.
  - apply read_leaf; try done. intros. by apply inner_string.
  - apply PsValue.ps_wf_List in Hw as [Hl Hw]. rewrite PsValue.ps_depth_List, PsValue.count_List.
    pose proof (PsValue.count_all_nonneg l). apply read_value_case; [done|lia..|]. intros lv' -> Hb'.
    cbn [encode]. rewrite <- app_assoc, inner_list by (pose proof (zlen_nonneg l); lia).
    apply outcome_return. eapply outcome_weaken, items_written; [done|lia|lia|done..].
  - apply PsValue.wf_Map in Hw as [Hl Hw]. rewrite PsValue.depth_Map, PsValue.count_Map.
    pose proof (PsValue.count_entries_nonneg l). apply read_value_case; [done|lia..|]. intros lv' -> Hb'.
    cbn [encode]. rewrite <- app_assoc, inner_map by (pose proof (zlen_nonneg l); lia).
    apply outcome_return.
    eapply outcome_weaken, (read_n_written _ _ (λ e, Nat.max 1 (PsValue.depth e.2)) (λ e, 1 + PsValue.count e.2)); [done|unfold PsValue.count_entries; lia|..].
    + intros x. pose proof (PsValue.count_pos x.2). lia.
    + lia.
    + rewrite Forall_forall in IH, Hw |- *. intros [k x] Hx b' r' Hb''. cbn [fst snd].
      destruct (Hw _ Hx) as [Hk Hv]. rewrite <- app_assoc. unfold read_entry.
      eapply (outcome_bind _ _ _ 1 _ 1); [pose proof (PsValue.count_pos x); lia|..].
      * apply (read_leaf _ _ _ (PsValue.String k)); [done..|]. intros. by apply inner_string.
      * intros b2 Hb2. cbn beta iota. apply (outcome_return _ _ _ _ _ x (λ x, (k, x))). by apply (IH _ Hx).
  - apply PsValue.wf_Struct in Hw as (Ht & Hl & Hw). rewrite PsValue.depth_Struct, PsValue.count_Struct.
    pose proof (PsValue.count_all_nonneg l). apply read_value_case; [done|lia..|]. intros lv' -> Hb'.
    cbn [encode]. cbn [app]. rewrite inner_struct by (pose proof (zlen_nonneg l); lia).
    unfold read_struct. rewrite d_u8_cons. cbn [mbind result_bind].
    apply outcome_return. eapply outcome_weaken, items_written; [done|lia|lia|done..].
Qed.

(** * What a decode of arbitrary bytes returns *)

(** A run from bytes: the value is well-formed and within the levels, the budget pays for
    it, and its image is no longer than what was read. *)
Definition sound {A} (P : A → Prop) (dep : A → nat) (cnt : A → Z) (wr : A → bytes) (lv : nat)
    (d : Decoder) (a : A) (d' : Decoder) : Prop :=
  P a ∧ (dep a <= lv)%nat ∧ d_budget d' = d_budget d - cnt a ∧ 0 <= d_budget d' ∧
  zlen (wr a) + zlen (d_rest d') <= zlen (d_rest d) ∧ Forall is_u8 (d_rest d').

Definition sound_reader {A} P dep cnt wr lv (rd : decoder A) : Prop :=
  ∀ d a d', Forall is_u8 (d_rest d) → 0 <= d_budget d → rd d = Ok (a, d') → sound P dep cnt wr lv d a d'.

Section sound_loop.
Context {A : Type} (rd : decoder A) `{!Advancing rd}.
Context (P : A → Prop) (dep : A → nat) (cnt : A → Z) (wr : A → bytes) (lv : nat).

Lemma read_n_sound n : sound_reader P dep cnt wr lv rd →
  sound_reader (Forall P) (foldr (λ x n, Nat.max (dep x) n) O) (foldr (λ x n, cnt x + n) 0)
    (λ xs, concat (map wr xs)) lv (read_n rd n).
Proof.
  intros Hs d. revert n d.
  apply (read_n_ind rd (λ n d, ∀ xs d', Forall is_u8 (d_rest d) → 0 <= d_budget d → read_n rd n d = Ok (xs, d') →
    sound _ _ _ _ lv d xs d')); intros n d Hn.
  { intros xs d' Hb H0. rewrite read_n_zero by done. intros [= <- <-]. split_and!; try done; cbn; lia. }
  intros IH xs d' Hb H0. rewrite (read_n_step rd) by done. intros Hr. split_bind. simplify_eq.
  destruct (Hs _ _ _ Hb H0 H) as (Hp & Hd & Hbud & Hge & Hl & Hr1).
  destruct (IH _ _ H _ _ Hr1 Hge H1) as (Hp2 & Hd2 & Hbud2 & Hge2 & Hl2 & Hr2).
  split_and!; try done; cbn [foldr map concat]; [by constructor|lia..|].
  rewrite zlen_app. lia.
Qed.
End sound_loop.

Lemma header_len n t w : 0 <= n < 2 ^ 32 →
  zlen (encode_sized_header n t w) = if n <=? 15 then 1 else if n <=? 255 then 2 else if n <=? 65535 then 3 else 5.
Proof.
  intros. unfold encode_sized_header. repeat case_match; unfold zlen; cbn [length]; rewrite ?length_be_bytes; done.
Qed.

Lemma encode_string_header s : encode_string s = encode_sized_header (zlen s) 0x80 0xD0 ++ s.
Proof. reflexivity. Qed.

Lemma encode_bytes_len s : zlen s < 2 ^ 32 →
  zlen (encode_bytes s) = (if zlen s <=? 255 then 2 else if zlen s <=? 65535 then 3 else 5) + zlen s.
Proof.
  intros. unfold encode_bytes. rewrite zlen_app. f_equal.
  repeat case_match; unfold zlen; cbn [length]; rewrite ?length_be_bytes; done.
Qed.

Lemma encode_int_len i w : - 2 ^ (w - 1) <= i < 2 ^ (w - 1) → w = 8 ∨ w = 16 ∨ w = 32 ∨ w = 64 →
  zlen (encode_int i) <= 1 + w / 8.
Proof.
  intros Hi Hw. unfold encode_int.
  repeat match goal with |- context [(?a <=? i) && (i <=? ?c)] =>
    destruct ((a <=? i) && (i <=? c)) eqn:E;
    [apply andb_true_iff in E as [?%Z.leb_le ?%Z.leb_le]|apply andb_false_iff in E as [?%Z.leb_gt|?%Z.leb_gt]] end;
  unfold zlen; cbn [length]; rewrite ?length_be_bytes; 
  destruct Hw as [->|[->|[->| ->]]]; simpl Z.pow in *; lia || by vm_compute.
Qed.

Lemma as_signed_range w z : 0 < w → - 2 ^ (w - 1) <= Value.as_signed w z < 2 ^ (w - 1).
Proof.
  intros Hw. unfold Value.as_signed. assert (2 ^ w = 2 * 2 ^ (w - 1)) as E.
  { rewrite <- Z.pow_succ_r by lia. f_equal. lia. }
  pose proof (Z.mod_pos_bound (z + 2 ^ (w - 1)) (2 ^ w)). lia.
Qed.

(** An unsigned field of [k] bytes. *)
Lemma d_uint_sound k (rd : decoder Z) d x d' :
  rd d = ('(s, d) ← take_n (Z.of_nat k) d; Ok (be_val s, d)) → Forall is_u8 (d_rest d) → rd d = Ok (x, d') →
  0 <= x < 2 ^ (8 * Z.of_nat k) ∧ d_budget d' = d_budget d ∧
  zlen (d_rest d) = Z.of_nat k + zlen (d_rest d') ∧ Forall is_u8 (d_rest d').
Proof.
  intros E Hb H. rewrite E in H. split_bind. simplify_eq. apply take_n_Ok in H0 as (Hr & Hl & Hbu & _).
  specialize (Hl ltac:(lia)). rewrite Hr in Hb. apply Forall_app in Hb as [Hs Hb].
  split; [rewrite <- Hl; by apply be_val_range|]. rewrite Hr, zlen_app, Hl. done.
Qed.
Definition d_u8_sound := λ d x d', d_uint_sound 1 d_u8 d x d' eq_refl.
Definition d_u16_sound := λ d x d', d_uint_sound 2 d_u16 d x d' eq_refl.
Definition d_u32_sound := λ d x d', d_uint_sound 4 d_u32 d x d' eq_refl.
Definition d_u64_sound := λ d x d', d_uint_sound 8 d_u64 d x d' eq_refl.

Lemma take_n_sound n d s d' : Forall is_u8 (d_rest d) → 0 <= n → take_n n d = Ok (s, d') →
  zlen s = n ∧ Forall is_u8 s ∧ d_budget d' = d_budget d ∧
  zlen (d_rest d) = zlen s + zlen (d_rest d') ∧ Forall is_u8 (d_rest d').
Proof.
  intros Hb Hn (Hr & Hl & Hbu & _)%take_n_Ok. rewrite Hr in Hb |- *. apply Forall_app in Hb as [??].
  rewrite zlen_app. split_and!; auto.
Qed.

(** The rest of a value whose marker and length took [h] bytes; its own unit of the budget
    is already spent. *)
Definition completes (h : Z) (lv : nat) (d : Decoder) (v : PsValue.t) (d' : Decoder) : Prop :=
  PsValue.wf v ∧ (PsValue.depth v <= S lv)%nat ∧ d_budget d' = d_budget d + 1 - PsValue.count v ∧
  0 <= d_budget d' ∧ zlen (encode v) + zlen (d_rest d') <= h + zlen (d_rest d) ∧ Forall is_u8 (d_rest d').

Definition header_fits (n h : Z) : Prop :=
  0 <= n < 2 ^ 32 ∧ (if n <=? 15 then 1 else if n <=? 255 then 2 else if n <=? 65535 then 3 else 5) <= h.

Section completes.
Context (lv : nat) (h n : Z) (d : Decoder) (v : PsValue.t) (d' : Decoder).
Context (Hbytes : Forall is_u8 (d_rest d)) (Hbudget : 0 <= d_budget d).

Lemma string_completes : header_fits n h → ps_read_string n d = Ok (v, d') → completes h lv d v d'.
Proof.
  intros [Hn Hh] H. unfold ps_read_string in H. decoder_run.
  apply take_n_sound in H0 as (Hl & Hs & Hbu & Hr & Hb'); [|done|lia].
  split_and!; try done; cbn [PsValue.depth PsValue.count encode]; try lia.
  - split_and!; [done|done|lia].
  - rewrite encode_string_header, zlen_app, header_len, Hl by lia. lia.
Qed.

Lemma bytes_completes : 0 <= n < 2 ^ 32 → (if n <=? 255 then 2 else if n <=? 65535 then 3 else 5) <= h →
  ps_read_bytes n d = Ok (v, d') → completes h lv d v d'.
Proof.
  intros Hn Hh H. unfold ps_read_bytes in H. decoder_run.
  apply take_n_sound in H0 as (Hl & Hs & Hbu & Hr & Hb'); [|done|lia].
  split_and!; try done; cbn [PsValue.depth PsValue.count encode]; try lia.
  - split; [done|lia].
  - rewrite encode_bytes_len, Hl by lia. lia.
Qed.

Context (rv : decoder PsValue.t) `{!Advancing rv}.
Context (Hrv : sound_reader PsValue.wf PsValue.depth PsValue.count encode lv rv).

Lemma list_completes : header_fits n h → read_list rv n d = Ok (v, d') → completes h lv d v d'.
Proof.
  intros [Hn Hh] H. unfold read_list in H. decoder_run. pose proof (read_n_length rv _ _ _ _ H0) as [Hl _].
  apply (read_n_sound rv _ _ _ _ lv n Hrv) in H0 as (Hp & Hd & Hbu & Hge & Hz & Hr); [|done..].
  rewrite Z.max_r in Hl by lia.
  split_and!; try done; rewrite ?PsValue.ps_depth_List, ?PsValue.count_List; unfold PsValue.deepest, PsValue.count_all; try lia.
  - apply PsValue.ps_wf_List. split; [lia|done].
  - cbn [encode]. rewrite zlen_app, header_len, Hl by lia. lia.
Qed.

Lemma read_entry_sound :
  sound_reader (λ e, PsValue.str_wf e.1 ∧ PsValue.wf e.2) (λ e, Nat.max 1 (PsValue.depth e.2))
    (λ e, 1 + PsValue.count e.2) (λ e, encode_string e.1 ++ encode e.2) lv (read_entry rv).
Proof.
  intros d0 e d2 Hb H0 H. unfold read_entry in H. apply bind_Ok in H as ([k d1] & Hk & H).
  destruct (Hrv _ _ _ Hb H0 Hk) as (Hp & Hd & Hbu & Hge & Hz & Hr). destruct k; try discriminate H.
  split_bind. simplify_eq. destruct (Hrv _ _ _ Hr Hge H1) as (Hp2 & Hd2 & Hbu2 & Hge2 & Hz2 & Hr2).
  cbn [PsValue.depth PsValue.count encode] in *. split_and!; try done; cbn [fst snd]; try lia.
  rewrite zlen_app. lia.
Qed.

Lemma map_completes : header_fits n h → ps_read_map rv n d = Ok (v, d') → completes h lv d v d'.
Proof.
  intros [Hn Hh] H. unfold ps_read_map in H. decoder_run. pose proof (read_n_length (read_entry rv) _ _ _ _ H0) as [Hl _].
  apply (read_n_sound (read_entry rv) _ _ _ _ lv n read_entry_sound) in H0 as (Hp & Hd & Hbu & Hge & Hz & Hr); [|done..].
  rewrite Z.max_r in Hl by lia.
  split_and!; try done; rewrite ?PsValue.depth_Map, ?PsValue.count_Map; unfold PsValue.deepest_entry, PsValue.count_entries; try lia.
  - apply PsValue.wf_Map. split; [lia|done].
  - cbn [encode]. rewrite zlen_app, header_len, Hl by lia. lia.
Qed.

Lemma struct_completes : 0 <= n <= 15 → 1 <= h → read_struct rv n d = Ok (v, d') → completes h lv d v d'.
Proof.
  intros Hn Hh H. unfold read_struct in H. decoder_run. apply d_u8_sound in H0 as (Ht & Hb1 & Hr1 & Hby); [|done].
  pose proof (read_n_length rv _ _ _ _ H1) as [Hl _].
  apply (read_n_sound rv _ _ _ _ lv n Hrv) in H1 as (Hp & Hd & Hbu & Hge & Hz & Hr); [|done|lia].
  rewrite Z.max_r in Hl by lia.
  split_and!; try done; rewrite ?PsValue.depth_Struct, ?PsValue.count_Struct; unfold PsValue.deepest, PsValue.count_all; try lia.
  - apply PsValue.wf_Struct. split_and!; [exact Ht|lia|done].
  - cbn [encode]. change (?a :: ?b :: ?c) with ([a; b] ++ c). rewrite zlen_app. change (zlen [_; _]) with 2. lia.
Qed.
End completes.

Lemma completes_after k lv d d1 v d' :
  zlen (d_rest d) = k + zlen (d_rest d1) → d_budget d1 = d_budget d → completes k lv d1 v d' → completes 0 lv d v d'.
Proof. intros Hz Hb (?&?&?&?&?&?). split_and!; try done; lia. Qed.

Lemma int_completes k lv d i : Forall is_u8 (d_rest d) → 0 <= d_budget d → is_i64 i → zlen (encode_int i) <= k →
  completes k lv d (PsValue.Int i) d.
Proof. intros. split_and!; try done; cbn [PsValue.depth PsValue.count encode]; lia. Qed.

Lemma signed_completes k w lv d x : Forall is_u8 (d_rest d) → 0 <= d_budget d →
  w = 8 ∨ w = 16 ∨ w = 32 ∨ w = 64 → k = 1 + w / 8 → completes k lv d (PsValue.Int (Value.as_signed w x)) d.
Proof.
  intros Hb H0 Hw ->. pose proof (as_signed_range w x ltac:(lia)) as Hr.
  apply int_completes; [done|done| |by apply encode_int_len].
  unfold is_i64. assert (2 ^ (w - 1) <= 2 ^ 63) by (apply Z.pow_le_mono_r; lia). lia.
Qed.

Lemma low_nibble m : 0 <= Z.land m 15 <= 15.
Proof. change 15 with (Z.ones 4). rewrite Z.land_ones by lia. pose proof (Z.mod_pos_bound m (2 ^ 4)). change (Z.ones 4) with 15. lia. Qed.

Lemma header_fits_tiny n : 0 <= n <= 15 → header_fits n 1.
Proof. intros. split; [lia|]. by rewrite (proj2 (Z.leb_le n 15)) by lia. Qed.
Lemma header_fits_u8 n : 0 <= n < 2 ^ (8 * Z.of_nat 1) → header_fits n 2.
Proof. intros Hn. change (2 ^ (8 * Z.of_nat 1)) with 256 in Hn. split; [lia|]. repeat (case_match; try lia). Qed.
Lemma header_fits_u16 n : 0 <= n < 2 ^ (8 * Z.of_nat 2) → header_fits n 3.
Proof. intros Hn. change (2 ^ (8 * Z.of_nat 2)) with 65536 in Hn. split; [lia|]. repeat (case_match; try lia). Qed.
Lemma header_fits_u32 n : 0 <= n < 2 ^ (8 * Z.of_nat 4) → header_fits n 5.
Proof. intros Hn. split; [exact Hn|]. repeat (case_match; try lia). Qed.

(** The payload of a string or a container, once its length is known. *)
Ltac payload :=
  match goal with
  | H : ps_read_string _ _ = Ok _ |- _ => eapply string_completes; [..|exact H]
  | H : ps_read_bytes _ _ = Ok _ |- _ => eapply bytes_completes; [..|exact H]
  | H : read_list _ _ _ = Ok _ |- _ => eapply list_completes; [..|exact H]
  | H : ps_read_map _ _ _ = Ok _ |- _ => eapply map_completes; [..|exact H]
  | H : read_struct _ _ _ = Ok _ |- _ => eapply struct_completes; [..|exact H]
  end; try eassumption; try lia;
  auto using header_fits_tiny, header_fits_u8, header_fits_u16, header_fits_u32.

(** The length that follows a marker, and the bytes read with it. *)
Ltac sized :=
  match goal with
  | H : d_u8 ?d = Ok _, H' : Forall is_u8 (d_rest ?d) |- completes ?k _ ?d _ _ =>
      apply d_u8_sound in H as (? & ? & ? & ?); [|exact H']
  | H : d_u16 ?d = Ok _, H' : Forall is_u8 (d_rest ?d) |- completes ?k _ ?d _ _ =>
      apply d_u16_sound in H as (? & ? & ? & ?); [|exact H']
  | H : d_u32 ?d = Ok _, H' : Forall is_u8 (d_rest ?d) |- completes ?k _ ?d _ _ =>
      apply d_u32_sound in H as (? & ? & ? & ?); [|exact H']
  | H : d_u64 ?d = Ok _, H' : Forall is_u8 (d_rest ?d) |- completes ?k _ ?d _ _ =>
      apply d_u64_sound in H as (? & ? & ? & ?); [|exact H']
  end.

Lemma completes_later k j lv d d1 v d' :
  zlen (d_rest d) = k + zlen (d_rest d1) → d_budget d1 = d_budget d → completes (j + k) lv d1 v d' → completes j lv d v d'.
Proof. intros Hz Hb (?&?&?&?&?&?). split_and!; try done; lia. Qed.

Lemma read_value_inner_sound rv lv : Advancing rv →
  sound_reader PsValue.wf PsValue.depth PsValue.count encode lv rv →
  ∀ d v d', Forall is_u8 (d_rest d) → 0 <= d_budget d → read_value_inner rv d = Ok (v, d') → completes 0 lv d v d'.
Proof.
  intros Ha Hrv d v d' Hby Hb H. unfold read_value_inner in H. apply bind_Ok in H as ([m d1] & Hm & H).
  cbv zeta in H. apply d_u8_sound in Hm as (Hm & Hb1 & Hz & Hby1); [|done].
  apply (completes_later 1 0 lv d d1); [done..|]. rewrite <- Hb1 in Hb. clear Hz Hb1 Hby. rewrite Z.add_0_l.
  pose proof (low_nibble m) as Hlow. unfold byte_in in H.
  destruct ((0 <=? m) && (m <=? 127)) eqn:E0.
  { apply andb_true_iff in E0 as [?%Z.leb_le ?%Z.leb_le]. simplify_eq. apply int_completes; [done..|unfold is_i64; lia|].
    unfold encode_int. rewrite !(proj2 (Z.leb_le _ _)) by lia. done. }
  destruct ((240 <=? m) && (m <=? 255)) eqn:E1.
  { apply andb_true_iff in E1 as [?%Z.leb_le ?%Z.leb_le]. simplify_eq.
    assert (Value.as_signed 8 m = m - 256) as ->.
    { unfold Value.as_signed. change (2 ^ (8 - 1)) with 128. change (2 ^ 8) with 256.
      rewrite <- (Z.mod_unique (m + 128) 256 1 (m - 128)); lia. }
    apply int_completes; [done..|unfold is_i64; lia|].
    unfold encode_int. rewrite !(proj2 (Z.leb_le _ _)) by lia. done. }
  repeat match type of H with (if ?c then _ else _) = _ => destruct c end; try discriminate H.
  all: try by payload.
  all: repeat match type of H with _ ≫= _ = Ok _ => apply bind_Ok in H; destruct H as ([n d2] & Hn & H) end.
  all: try (simplify_eq; split_and!; try done; cbn; lia).
  all: sized; eapply completes_later; [eassumption..|].
  all: try by payload.
  6-8: change (2 ^ (8 * Z.of_nat 1)) with 256 in *; change (2 ^ (8 * Z.of_nat 2)) with 65536 in *;
    change (2 ^ (8 * Z.of_nat 4)) with (2 ^ 32) in *;
    eapply bytes_completes; [..|exact H]; [done|lia|lia|repeat (case_match; try lia)].
  2-5: simplify_eq; apply signed_completes; [done|lia|auto|done].
  simplify_eq. split_and!; try done; cbn [PsValue.depth PsValue.count encode]; lia.
Qed.

Lemma ps_read_value_sound lv :
  sound_reader PsValue.wf PsValue.depth PsValue.count encode lv (ps_read_value lv).
Proof.
  induction lv as [|lv IH]; intros d v d' Hby Hb H; cbn [ps_read_value] in H;
    destruct (Z.eqb_spec (d_budget d) 0); try discriminate H.
  apply (read_value_inner_sound _ lv _ IH) in H as (?&?&Hbu&?&Hz&?); [|done|cbn; lia].
  cbn [d_rest d_budget] in *. split_and!; try done; lia.
Qed.

(** Everything that is written is a byte. *)
Lemma mod_u8 n : is_u8 (n mod 2 ^ 8).
Proof. apply Z.mod_pos_bound. lia. Qed.
(** The bytes of a marker and a length. *)
Ltac marker_u8 :=
  repeat first [apply Forall_nil_2|apply be_bytes_u8|apply Forall_cons_2|apply mod_u8]; unfold is_u8; lia.
Lemma lor_tiny_u8 t n : t = 0x80 ∨ t = 0x90 ∨ t = 0xA0 ∨ t = 0xB0 → 0 <= n <= 15 → is_u8 (Z.lor t (n mod 2 ^ 8)).
Proof. intros [->|[->|[->| ->]]] Hn; header_cases n; first [lia|split; by vm_compute]. Qed.

Lemma header_u8 n t w : t = 0x80 ∨ t = 0x90 ∨ t = 0xA0 ∨ t = 0xB0 → 0 <= n → 0 <= w <= 0xFD →
  Forall is_u8 (encode_sized_header n t w).
Proof.
  intros Ht Hn Hw. unfold encode_sized_header. destruct (Z.leb_spec n 15); [|repeat case_match].
  1: constructor; [by apply lor_tiny_u8|done].
  all: marker_u8.
Qed.

Lemma encode_int_u8 i : Forall is_u8 (encode_int i).
Proof.
  unfold encode_int. repeat case_match; marker_u8.
Qed.

Lemma encode_string_u8 s : Forall is_u8 s → Forall is_u8 (encode_string s).
Proof.
  intros. rewrite encode_string_header. apply Forall_app. split; [|done].
  apply header_u8; [auto|apply zlen_nonneg|lia].
Qed.

Lemma encode_u8 v : PsValue.wf v → Forall is_u8 (encode v).
Proof.
  induction v as [|[]|i|x|s|s|l IH|l IH|tag l IH] using PsValue.nested_ind; intros Hw; cbn [encode].
  1-3: by repeat constructor.
  - apply encode_int_u8.
  - constructor; [done|apply be_bytes_u8].
  - unfold encode_bytes. apply Forall_app. split; [|apply Hw].
    repeat case_match; marker_u8.
  - apply encode_string_u8, Hw.
  - apply PsValue.ps_wf_List in Hw as [_ Hw]. apply Forall_app. split; [apply header_u8; [auto|apply zlen_nonneg|lia]|].
    apply Forall_concat, Forall_map. rewrite Forall_forall in IH, Hw |- *. auto.
  - apply PsValue.wf_Map in Hw as [_ Hw]. apply Forall_app. split; [apply header_u8; [auto|apply zlen_nonneg|lia]|].
    apply Forall_concat, Forall_map. rewrite Forall_forall in IH, Hw |- *. intros e He. apply Forall_app.
    destruct (Hw e He) as [(? & _) ?]. split; [by apply encode_string_u8|auto].
  - apply PsValue.wf_Struct in Hw as (Ht & Hl & Hw). pose proof (zlen_nonneg l).
    constructor; [apply lor_tiny_u8; [auto|lia]|]. constructor; [done|].
    apply Forall_concat, Forall_map. rewrite Forall_forall in IH, Hw |- *. auto.
Qed.

(** * Properties *)

(** A value survives the Bolt encoding exactly when it is within the limits of the
    decoder: it reads back to itself when it nests at most [MAX_DEPTH] deep and has at most
    the allowed number of values, and otherwise is refused with the error of a limit that it
    really exceeds. *)
Theorem packstream_roundtrip v cap : PsValue.wf v → 0 <= cap →
  from_slice_capped (to_vec v) cap = Ok v ∧ (PsValue.depth v <= MAX_DEPTH)%nat ∧ PsValue.count v <= cap ∨
  from_slice_capped (to_vec v) cap = Err (ValueBudgetExceeded cap) ∧ cap < PsValue.count v ∨
  from_slice_capped (to_vec v) cap = Err too_deep ∧ (MAX_DEPTH < PsValue.depth v)%nat.
Proof.
  intros Hw Hc. unfold from_slice_capped, with_max_values, to_vec.
  pose proof (ps_read_written v Hw MAX_DEPTH cap cap [] Hc) as Ho. rewrite app_nil_r in Ho.
  destruct Ho; cbn [mbind result_bind]; [left|right; left|right; right]; split; auto.
Qed.

(** C37: Decoding arbitrary bytes of a client terminates, and bounds what the client can make
    the server hold: an accepted value is well-formed, has at most as many values as the
    budget, nests at most [MAX_DEPTH] deep, and its own encoding is no
    longer than the message, since the encoder always takes the shortest form.  So it can be
    sent back. *)
Theorem packstream_decode_bounds buf cap : Forall is_u8 buf → 0 <= cap →
  from_slice_capped buf cap ≠ Err OutOfFuel ∧
  ∀ v, from_slice_capped buf cap = Ok v →
    PsValue.wf v ∧ PsValue.count v <= cap ∧ (PsValue.depth v <= MAX_DEPTH)%nat ∧
    zlen (to_vec v) <= zlen buf ∧ from_slice_capped (to_vec v) cap = Ok v.
Proof.
  intros Hby Hc. unfold from_slice_capped at 1 2. split.
  { apply bind_fuel_safe; [apply ps_read_value_fuel_safe|]. intros [v d]. by case_match. }
  intros v H. apply bind_Ok in H as ([v' d] & Hr & H). destruct (negb _); [done|]. simplify_eq.
  apply ps_read_value_sound in Hr as (Hw & Hd & Hb & Hge & Hz & _); [|done..].
  unfold with_max_values in *. cbn [d_rest d_budget] in *. pose proof (zlen_nonneg (d_rest d)).
  split_and!; [done|lia|done|unfold to_vec; lia|].
  pose proof (ps_read_written v Hw MAX_DEPTH cap cap [] Hc) as Ho. rewrite app_nil_r in Ho.
  unfold from_slice_capped, to_vec, with_max_values. destruct Ho; [done|lia..].
Qed.

(** ** Witnesses *)

Definition example_message : PsValue.t :=
  PsValue.Struct 0x10
    [PsValue.String (lit "RETURN $x");
     PsValue.Map [(lit "x", PsValue.List [PsValue.Int (-17); PsValue.Null; PsValue.Float 0])];
     PsValue.Map []].

Lemma example_message_wf : PsValue.wf example_message.
Proof. repeat (split || (apply (bool_decide_unpack _); vm_compute; exact I)); try done; unfold is_i64, is_u64; try lia. Qed.

Lemma packstream_decode_bounds_witness :
  from_slice_capped [0xD4; 2; 0xC8; 5; 0xC0] 3 = Ok (PsValue.List [PsValue.Int 5; PsValue.Null]) ∧
  zlen (to_vec (PsValue.List [PsValue.Int 5; PsValue.Null])) <= 5.
Proof.
  split; [vm_compute; reflexivity|].
  apply (packstream_decode_bounds [0xD4; 2; 0xC8; 5; 0xC0] 3);
    [repeat constructor; unfold is_u8; lia|lia|vm_compute; reflexivity].
Defined.
