(* ===== verification/Chunk.v ===== *)
(** Chunked framing of Bolt messages (crates/slater/src/bolt/chunk.rs) and the framer of a
    connection that reads them off a stream ([Framed::read_message] of
    crates/slater/src/server.rs).

    A loop over a buffer is a function on fuel; [run] is the big-step relation both loops
    satisfy, and the theorems are proved on it. *)

From S2P Require Import Prelude.

Definition MAX_CHUNK : Z := 65535.
Definition MAX_MESSAGE_BYTES : Z := 64 * 1024 * 1024.

(** [<[T]>::chunks(n)]: pieces of [n], the last one shorter. *)
Fixpoint chunks_fuel (fuel n : nat) (l : bytes) : list bytes :=
  match fuel, l with
  | _, [] | O, _ => []
  | S fuel, _ => take n l :: chunks_fuel fuel n (drop n l)
  end.
Definition chunks (n : nat) (l : bytes) : list bytes := chunks_fuel (length l) n l.

(** One chunk: [(piece.len() as u16).to_be_bytes()] and the piece. *)
Definition chunk_image (piece : bytes) : bytes := be_bytes 2 (zlen piece mod 2 ^ 16) ++ piece.

Definition encode_message (body : bytes) : bytes :=
  concat (map chunk_image (chunks (Z.to_nat (Z.max MAX_CHUNK 1)) body)) ++ [0; 0].

Definition frame_message (body : bytes) : bytes := encode_message body.

Definition over_limit : error := Bail "Bolt message exceeds the limit; closing connection".

(** [buf[pos..pos + n]]. *)
Definition slice (pos n : Z) (buf : bytes) : bytes := take (Z.to_nat n) (drop (Z.to_nat pos) buf).

Fixpoint decode_loop (fuel : nat) (buf : bytes) (pos : Z) (body : bytes) (max_body : Z)
    : result (option (bytes * Z)) :=
  match fuel with
  | O => Err OutOfFuel
  | S fuel =>
      if zlen buf <? pos + 2 then Ok None
      else
        let len := be_val (slice pos 2 buf) in
        let pos := pos + 2 in
        if len =? 0 then Ok (Some (body, pos))
        else if zlen buf <? pos + len then Ok None
        else if max_body <? zlen body + len then Err over_limit
        else decode_loop fuel buf (pos + len) (body ++ slice pos len buf) max_body
  end.

(** Every pass moves on by two bytes at least, so the length of the buffer is fuel enough. *)
Definition decode_message_capped (buf : bytes) (max_body : Z) : result (option (bytes * Z)) :=
  decode_loop (S (length buf)) buf 0 [] max_body.

Definition decode_message (buf : bytes) : result (option (bytes * Z)) :=
  decode_message_capped buf MAX_MESSAGE_BYTES.

Definition decode_complete (buf : bytes) : result (bytes * Z) :=
  o ← decode_message buf;
  match o with Some r => Ok r | None => Err (Bail "incomplete Bolt message") end.

(** ** The resumable reassembler *)

Record ChunkReassembler := mkReassembler { re_body : bytes; re_pos : Z }.
Definition reassembler_new : ChunkReassembler := mkReassembler [] 0.

Fixpoint feed_loop (fuel : nat) (st : ChunkReassembler) (buf : bytes) (max_body : Z)
    : result (option (bytes * Z)) * ChunkReassembler :=
  match fuel with
  | O => (Err OutOfFuel, st)
  | S fuel =>
      if zlen buf <? re_pos st + 2 then (Ok None, st)
      else
        let len := be_val (slice (re_pos st) 2 buf) in
        if len =? 0 then (Ok (Some (re_body st, re_pos st + 2)), mkReassembler [] 0)
        else if zlen buf <? re_pos st + 2 + len then (Ok None, st)
        else if max_body <? zlen (re_body st) + len then (Err over_limit, st)
        else feed_loop fuel
               (mkReassembler (re_body st ++ slice (re_pos st + 2) len buf) (re_pos st + (2 + len)))
               buf max_body
  end.

Definition feed (st : ChunkReassembler) (buf : bytes) (max_body : Z)
    : result (option (bytes * Z)) * ChunkReassembler :=
  feed_loop (S (length buf)) st buf max_body.

(** ** The framer of a connection *)

(** What the socket will deliver: one entry per read, [None] for a failing one; the end of
    the list is the end of the stream. *)
Abbreviation stream := (list (option bytes)) (only parsing).

Record Framed := mkFramed {
  fr_stream : stream; fr_buf : bytes; fr_reassembler : ChunkReassembler; fr_max_body : Z }.

Definition framed_new (s : stream) (max_body : Z) : Framed := mkFramed s [] reassembler_new max_body.

Definition slack : Z := Z.shiftl 1 20.

(** [self.stream.read(&mut tmp).await?]: the bytes read, none of them at the end. *)
Definition read_some (s : stream) : result bytes * stream :=
  match s with
  | [] => (Ok [], [])
  | Some bs :: s => (Ok bs, s)
  | None :: s => (Err IoError, s)
  end.

Fixpoint read_message_loop (fuel : nat) (f : Framed) : result (option bytes) * Framed :=
  match fuel with
  | O => (Err OutOfFuel, f)
  | S fuel =>
      let '(r, re) := feed (fr_reassembler f) (fr_buf f) (fr_max_body f) in
      match r with
      | Err e => (Err e, mkFramed (fr_stream f) (fr_buf f) re (fr_max_body f))
      | Ok (Some (body, consumed)) =>
          (Ok (Some body), mkFramed (fr_stream f) (drop (Z.to_nat consumed) (fr_buf f)) re (fr_max_body f))
      | Ok None =>
          let '(r, s) := read_some (fr_stream f) in
          let f := mkFramed s (fr_buf f) re (fr_max_body f) in
          match r with
          | Err e => (Err e, f)
          | Ok [] =>
              if bool_decide (fr_buf f = []) then (Ok None, f)
              else (Err (Bail "connection closed mid-message"), f)
          | Ok tmp =>
              let f := mkFramed s (fr_buf f ++ tmp) re (fr_max_body f) in
              if fr_max_body f + slack <? zlen (fr_buf f)
              then (Err (Bail "Bolt message framing exceeded without completing"), f)
              else read_message_loop fuel f
          end
      end
  end.

(** Every pass but the last takes an entry off the stream. *)
Definition read_message (f : Framed) : result (option bytes) * Framed :=
  read_message_loop (S (S (length (fr_stream f)))) f.

#[global] Arguments slice : simpl never.

(** * The loop as a relation *)

Section run.
Context (max : Z) (buf : bytes).

(** From a position and a body: the answer, and where the loop stands when it gives it. *)
Inductive run : Z → bytes → result (option (bytes * Z)) → Z → bytes → Prop :=
  | run_header pos body : zlen buf < pos + 2 → run pos body (Ok None) pos body
  | run_end pos body : pos + 2 <= zlen buf → be_val (slice pos 2 buf) = 0 →
      run pos body (Ok (Some (body, pos + 2))) pos body
  | run_partial pos body : pos + 2 <= zlen buf → be_val (slice pos 2 buf) ≠ 0 →
      zlen buf < pos + 2 + be_val (slice pos 2 buf) → run pos body (Ok None) pos body
  | run_over pos body : pos + 2 <= zlen buf → be_val (slice pos 2 buf) ≠ 0 →
      pos + 2 + be_val (slice pos 2 buf) <= zlen buf → max < zlen body + be_val (slice pos 2 buf) →
      run pos body (Err over_limit) pos body
  | run_chunk pos body r p b : pos + 2 <= zlen buf → be_val (slice pos 2 buf) ≠ 0 →
      pos + 2 + be_val (slice pos 2 buf) <= zlen buf → zlen body + be_val (slice pos 2 buf) <= max →
      run (pos + 2 + be_val (slice pos 2 buf)) (body ++ slice (pos + 2) (be_val (slice pos 2 buf)) buf) r p b →
      run pos body r p b.

Lemma run_det pos body r p b r' p' b' : run pos body r p b → run pos body r' p' b' → r = r' ∧ p = p' ∧ b = b'.
Proof.
  intros H. revert r' p' b'. induction H; intros r' p' b' H'; inversion H'; subst; try done; try lia; auto.
Qed.

Context (Hbytes : Forall is_u8 buf).

Lemma header_nonneg pos : 0 <= be_val (slice pos 2 buf).
Proof. apply be_val_range. unfold slice. by apply Forall_take, Forall_drop. Qed.

(** The tests of a pass, as the hypotheses of [run]. *)
Ltac pass pos body :=
  destruct (Z.ltb_spec (zlen buf) (pos + 2)); [|
  destruct (Z.eqb_spec (be_val (slice pos 2 buf)) 0); [|
  destruct (Z.ltb_spec (zlen buf) (pos + 2 + be_val (slice pos 2 buf))); [|
  destruct (Z.ltb_spec max (zlen body + be_val (slice pos 2 buf)))]]].

Lemma decode_loop_run fuel pos body : 0 <= pos <= zlen buf → zlen buf < pos + Z.of_nat fuel →
  ∃ p b, run pos body (decode_loop fuel buf pos body max) p b.
Proof.
  revert pos body. induction fuel as [|fuel IH]; intros pos body Hp Hf; [lia|].
  cbn [decode_loop]. pose proof (header_nonneg pos). cbv zeta. pass pos body.
  1-4: by exists pos, body; constructor.
  edestruct IH as (p & b & Hr); [| |exists p, b; by apply run_chunk]; lia.
Qed.

(** A reassembler that has given no answer stands where the loop does. *)
Definition after (r : result (option (bytes * Z))) (p : Z) (b : bytes) : ChunkReassembler :=
  match r with Ok (Some _) => reassembler_new | _ => mkReassembler b p end.

Lemma feed_loop_run fuel st : 0 <= re_pos st <= zlen buf → zlen buf < re_pos st + Z.of_nat fuel →
  ∃ r p b, run (re_pos st) (re_body st) r p b ∧ feed_loop fuel st buf max = (r, after r p b).
Proof.
  revert st. induction fuel as [|fuel IH]; intros [body pos] Hp Hf; cbn [re_pos re_body] in *; [lia|].
  cbn [feed_loop re_pos re_body]. pose proof (header_nonneg pos). cbv zeta. pass pos body.
  1-4: by eexists _, pos, body; split; [by constructor|].
  destruct (IH (mkReassembler (body ++ slice (pos + 2) (be_val (slice pos 2 buf)) buf)
    (pos + (2 + be_val (slice pos 2 buf))))) as (r & p & b & Hr & E); [cbn; lia..|].
  exists r, p, b. split; [|done]. cbn [re_pos re_body] in Hr. rewrite Z.add_assoc in Hr. by apply run_chunk.
Qed.

Lemma run_pos pos body r p b : run pos body r p b → 0 <= pos <= zlen buf → 0 <= p <= zlen buf.
Proof. induction 1; intros; auto. apply IHrun. pose proof (header_nonneg pos). lia. Qed.

Lemma run_body pos body r p b : run pos body r p b → zlen body <= max → zlen b <= max.
Proof.
  induction 1; intros; auto. apply IHrun. rewrite zlen_app. unfold slice, zlen in *. rewrite length_take. lia.
Qed.

Lemma run_answer pos body r p b body' c : run pos body r p b → r = Ok (Some (body', c)) →
  body' = b ∧ c = p + 2 ∧ p + 2 <= zlen buf.
Proof. induction 1; intros E; try discriminate E; [by simplify_eq|auto]. Qed.

Lemma run_fuel_safe pos body r p b : run pos body r p b → r ≠ Err OutOfFuel.
Proof. by induction 1. Qed.
End run.

(** * More bytes only extend the answer *)

Lemma slice_app pos n buf ext : 0 <= pos → 0 <= n → pos + n <= zlen buf → slice pos n (buf ++ ext) = slice pos n buf.
Proof.
  intros. unfold slice, zlen in *. rewrite drop_app_le by lia. rewrite take_app_le; [done|]. rewrite length_drop. lia.
Qed.

Section extend.
Context (max : Z) (buf ext : bytes) (Hbytes : Forall is_u8 buf).

Lemma run_extend pos body r p b : run max buf pos body r p b → 0 <= pos → r ≠ Ok None → run max (buf ++ ext) pos body r p b.
Proof.
  pose proof (zlen_nonneg ext). intros Hr Hp Hn. revert Hp. induction Hr; intros Hp; try done.
  all: try pose proof (header_nonneg buf Hbytes pos).
  - apply run_end; [rewrite zlen_app; lia|]. by rewrite slice_app by lia.
  - apply run_over; rewrite ?slice_app, ?zlen_app by lia; auto; lia.
  - apply run_chunk; rewrite ?slice_app, ?zlen_app by lia; auto; try lia. apply IHHr; [done|lia].
Qed.

(** A loop that stopped for want of bytes may be resumed where it stands. *)
Lemma run_resume pos body p b r p' b' : run max buf pos body (Ok None) p b → 0 <= pos →
  run max (buf ++ ext) p b r p' b' → run max (buf ++ ext) pos body r p' b'.
Proof.
  pose proof (zlen_nonneg ext). intros Hr. remember (Ok None) as none eqn:E. induction Hr; intros Hp Hrest; try done.
  pose proof (header_nonneg buf Hbytes pos).
  apply run_chunk; rewrite ?slice_app, ?zlen_app by lia; auto; try lia. apply IHHr; [done|lia|done].
Qed.
End extend.

Lemma decode_run buf max : Forall is_u8 buf → ∃ p b, run max buf 0 [] (decode_message_capped buf max) p b.
Proof.
  intros. apply decode_loop_run; [done|..]; pose proof (zlen_nonneg buf); unfold zlen in *; lia.
Qed.

(** ** Feeding *)

(** The reassembler has consumed what it could of [buf]. *)
Definition stands (max : Z) (buf : bytes) (st : ChunkReassembler) : Prop :=
  run max buf 0 [] (Ok None) (re_pos st) (re_body st).

(** It may resume on any extension of the buffer. *)
Definition resumable (max : Z) (buf : bytes) (st : ChunkReassembler) : Prop :=
  st = reassembler_new ∨ ∃ old ext, buf = old ++ ext ∧ stands max old st.

Lemma feed_resumes max buf st : Forall is_u8 buf → resumable max buf st →
  let '(r, st') := feed st buf max in
  r = decode_message_capped buf max ∧
  match r with
  | Ok None => stands max buf st'
  | Ok (Some _) => st' = reassembler_new
  | Err _ => True
  end.
Proof.
  intros Hb Hst. destruct (decode_run buf max Hb) as (p & b & Hd).
  assert (0 <= re_pos st <= zlen buf) as Hp.
  { destruct Hst as [->|(old & ext & -> & Hs)]; [cbn; pose proof (zlen_nonneg buf); lia|].
    apply Forall_app in Hb as [Hb _]. apply run_pos in Hs; [|done|pose proof (zlen_nonneg old); lia].
    rewrite zlen_app. pose proof (zlen_nonneg ext). lia. }
  unfold feed. destruct (feed_loop_run max buf Hb (S (length buf)) st Hp) as (r & p' & b' & Hr & ->).
  { unfold zlen in *. lia. }
  assert (run max buf 0 [] r p' b') as Hr0.
  { destruct Hst as [->|(old & ext & -> & Hs)]; [done|]. apply Forall_app in Hb as [Hb _].
    by eapply run_resume. }
  destruct (run_det _ _ _ _ _ _ _ _ _ _ Hd Hr0) as (-> & -> & ->). split; [done|].
  destruct r as [[[]|]|]; [done|exact Hr0|done].
Qed.

Lemma decode_extend buf ext max : Forall is_u8 buf → Forall is_u8 ext → decode_message_capped buf max ≠ Ok None →
  decode_message_capped (buf ++ ext) max = decode_message_capped buf max.
Proof.
  intros Hb He Hn. destruct (decode_run buf max Hb) as (p & b & Hr).
  destruct (decode_run (buf ++ ext) max) as (p' & b' & Hr'); [by apply Forall_app|].
  apply (run_extend _ _ ext) in Hr; [|done..]. by destruct (run_det _ _ _ _ _ _ _ _ _ _ Hr' Hr) as (-> & _).
Qed.

Lemma decode_answer buf max body c : Forall is_u8 buf → 0 <= max →
  decode_message_capped buf max = Ok (Some (body, c)) → zlen body <= max ∧ 2 <= c <= zlen buf.
Proof.
  intros Hb Hm E. destruct (decode_run buf max Hb) as (p & b & Hr).
  destruct (run_answer _ _ _ _ _ _ _ _ _ Hr E) as (-> & -> & Hp). split.
  - by apply run_body in Hr.
  - apply run_pos in Hr; [lia|done|pose proof (zlen_nonneg buf); lia].
Qed.

Lemma decode_fuel_safe buf max : Forall is_u8 buf → decode_message_capped buf max ≠ Err OutOfFuel.
Proof. intros Hb. destruct (decode_run buf max Hb) as (p & b & Hr). by apply run_fuel_safe in Hr. Qed.

(** * Decoding what was framed *)

Lemma chunks_fuel_spec fuel n l : (0 < n)%nat → (length l <= fuel)%nat →
  concat (chunks_fuel fuel n l) = l ∧
  Forall (λ p, (0 < length p <= n)%nat) (chunks_fuel fuel n l) ∧
  (n * length (chunks_fuel fuel n l) < length l + n)%nat.
Proof.
  intros Hn. revert l. induction fuel as [|fuel IH]; intros l Hl.
  { destruct l; [|simpl in Hl; lia]. cbn. split_and!; [done|constructor|lia]. }
  destruct l as [|x l]; [cbn; split_and!; [done|constructor|lia]|].
  destruct (IH (drop n (x :: l))) as (Hc & Hf & Hk); [rewrite length_drop; cbn [length] in *; lia|].
  cbn [chunks_fuel]. cbn [concat length]. rewrite Hc, take_drop. split_and!; [done| |].
  - constructor; [|done]. rewrite length_take. cbn [length]. lia.
  - rewrite length_drop in Hk. destruct (Nat.le_gt_cases n (length (x :: l))); [cbn [length] in *; nia|].
    rewrite drop_ge in Hk |- * by lia. destruct fuel; cbn [chunks_fuel length] in *; nia.
Qed.

Lemma run_framed max rest ps : Forall (λ p, 0 < zlen p <= 65535) ps → ∀ pre body,
  zlen body + zlen (concat ps) <= max →
  let buf := pre ++ concat (map chunk_image ps) ++ [0; 0] ++ rest in
  run max buf (zlen pre) body
    (Ok (Some (body ++ concat ps, zlen pre + zlen (concat (map chunk_image ps)) + 2)))
    (zlen pre + zlen (concat (map chunk_image ps))) (body ++ concat ps).
Proof.
  induction 1 as [|p ps Hp Hps IH]; intros pre body Hm; cbn [map concat] in *.
  - change (zlen []) with 0 in *. rewrite app_nil_r, Z.add_0_r. cbn [app]. apply run_end.
    + rewrite zlen_app. change (zlen (0 :: 0 :: rest)) with (zlen ([0; 0] ++ rest)). rewrite zlen_app.
      change (zlen [0; 0]) with 2. pose proof (zlen_nonneg rest). lia.
    + unfold slice, zlen. rewrite Nat2Z.id, drop_app_length. done.
  - cbv zeta. set (buf := pre ++ (chunk_image p ++ concat (map chunk_image ps)) ++ [0; 0] ++ rest).
    assert (zlen p mod 2 ^ 16 = zlen p) as Hmod by (apply Z.mod_small; lia).
    assert (slice (zlen pre) 2 buf = be_bytes 2 (zlen p)) as Hh.
    { unfold slice, buf, zlen. rewrite Nat2Z.id, drop_app_length. unfold chunk_image. rewrite Hmod.
      rewrite <- !app_assoc. rewrite take_app_le by (by rewrite length_be_bytes).
      apply take_ge. by rewrite length_be_bytes. }
    assert (be_val (slice (zlen pre) 2 buf) = zlen p) as Hlen.
    { rewrite Hh. apply be_val_bytes. cbn. lia. }
    assert (slice (zlen pre + 2) (zlen p) buf = p) as Hp2.
    { unfold slice, buf, chunk_image, zlen. 
      replace (Z.to_nat (Z.of_nat (length pre) + 2)) with (length pre + 2)%nat by lia.
      rewrite <- drop_drop, drop_app_length. rewrite <- !app_assoc.
      rewrite drop_app_ge by (rewrite length_be_bytes; lia). rewrite length_be_bytes. 
      by rewrite Nat.sub_diag, drop_0, Nat2Z.id, take_app_length. }
    assert (zlen (chunk_image p) = 2 + zlen p) as Hci.
    { unfold chunk_image. unfold zlen. rewrite length_app, length_be_bytes. lia. }
    assert (zlen buf = zlen pre + (2 + zlen p) + zlen (concat (map chunk_image ps)) + 2 + zlen rest) as Hbuf.
    { unfold buf. rewrite !zlen_app, Hci. change (zlen [0; 0]) with 2. lia. }
    pose proof (zlen_nonneg rest). pose proof (zlen_nonneg (concat (map chunk_image ps))).
    pose proof (zlen_nonneg (concat ps)). rewrite zlen_app in Hm.
    apply run_chunk; rewrite ?Hlen, ?Hp2; try (unfold zlen in *; lia).
    specialize (IH (pre ++ chunk_image p) (body ++ p)). cbv zeta in IH.
    rewrite (zlen_app pre), Hci, <- !app_assoc in IH. rewrite (zlen_app (chunk_image p)), Hci.
    replace (zlen pre + 2 + zlen p) with (zlen pre + (2 + zlen p)) by lia.
    replace (zlen pre + (2 + zlen p + zlen (concat (map chunk_image ps)))) with
      (zlen pre + (2 + zlen p) + zlen (concat (map chunk_image ps))) by lia.
    unfold buf. rewrite <- !app_assoc. apply IH. rewrite zlen_app. lia.
Qed.

Lemma chunk_image_u8 p : Forall is_u8 p → Forall is_u8 (chunk_image p).
Proof. intros. apply Forall_app. split; [apply be_bytes_u8|done]. Qed.

Lemma chunks_spec body :
  concat (chunks (Z.to_nat (Z.max MAX_CHUNK 1)) body) = body ∧
  Forall (λ p, 0 < zlen p <= 65535) (chunks (Z.to_nat (Z.max MAX_CHUNK 1)) body) ∧
  65535 * zlen (chunks (Z.to_nat (Z.max MAX_CHUNK 1)) body) < zlen body + 65535.
Proof.
  unfold chunks. destruct (chunks_fuel_spec (length body) (Z.to_nat (Z.max MAX_CHUNK 1)) body) as (Hc & Hf & Hk);
    [unfold MAX_CHUNK; lia|done|]. split_and!; [done| |].
  - eapply Forall_impl; [exact Hf|]. intros p. unfold zlen, MAX_CHUNK in *. cbn beta. lia.
  - unfold zlen in *. revert Hk. generalize (length (chunks_fuel (length body) (Z.to_nat (Z.max MAX_CHUNK 1)) body)).
    unfold MAX_CHUNK. intros k Hk. nia.
Qed.

Lemma frame_decodes body rest max : Forall is_u8 body → Forall is_u8 rest → zlen body <= max →
  decode_message_capped (frame_message body ++ rest) max = Ok (Some (body, zlen (frame_message body))).
Proof.
  intros Hb Hr Hm. destruct (chunks_spec body) as (Hc & Hf & _).
  unfold frame_message, encode_message. set (ps := chunks _ body) in *.
  pose proof (run_framed max rest ps Hf [] []) as Hrun. cbv zeta in Hrun. rewrite Hc in Hrun.
  specialize (Hrun Hm). cbn [app] in Hrun. change (zlen []) with 0 in Hrun. rewrite Z.add_0_l in Hrun.
  assert (Forall is_u8 ((concat (map chunk_image ps) ++ [0; 0]) ++ rest)) as Hall.
  { rewrite !Forall_app. split_and!; [|by repeat constructor|done].
    rewrite <- Hc in Hb. apply Forall_concat, Forall_map. apply Forall_concat in Hb.
    eapply Forall_impl; [exact Hb|]. apply chunk_image_u8. }
  destruct (decode_run _ max Hall) as (p & b & Hd). rewrite <- app_assoc in Hd |- *.
  destruct (run_det _ _ _ _ _ _ _ _ _ _ Hd Hrun) as (-> & _). rewrite zlen_app. done.
Qed.

Lemma frame_length body : zlen (frame_message body) <= zlen body + 2 * (zlen body / 65535 + 1) + 2.
Proof.
  destruct (chunks_spec body) as (Hc & Hf & Hk). unfold frame_message, encode_message.
  set (ps := chunks _ body) in *. rewrite zlen_app. change (zlen [0; 0]) with 2.
  assert (zlen (concat (map chunk_image ps)) = zlen (concat ps) + 2 * zlen ps) as ->.
  { clear. induction ps as [|p ps IH]; [done|]. cbn [map concat]. rewrite !zlen_app, IH.
    unfold chunk_image. rewrite zlen_app. unfold zlen. rewrite length_be_bytes. cbn [length]. lia. }
  rewrite Hc. assert (zlen ps <= zlen body / 65535 + 1); [|lia].
  pose proof (Z.div_mod (zlen body) 65535). pose proof (Z.mod_pos_bound (zlen body) 65535). lia.
Qed.

Lemma frame_u8 body : Forall is_u8 body → Forall is_u8 (frame_message body).
Proof.
  intros Hb. destruct (chunks_spec body) as (Hc & _). unfold frame_message, encode_message.
  apply Forall_app. split; [|by repeat constructor]. rewrite <- Hc in Hb.
  apply Forall_concat, Forall_map. apply Forall_concat in Hb. eapply Forall_impl; [exact Hb|]. apply chunk_image_u8.
Qed.

(** Less than a frame is not yet a message. *)
Lemma frame_prefix body max buf ext : Forall is_u8 buf → Forall is_u8 ext → 0 <= max → zlen body <= max →
  Forall is_u8 body → ∀ rest, Forall is_u8 rest → buf ++ ext = frame_message body ++ rest →
  decode_message_capped buf max = Ok None ∧ zlen buf < zlen (frame_message body) ∨
  decode_message_capped buf max = Ok (Some (body, zlen (frame_message body))) ∧
    ∃ tl, buf = frame_message body ++ tl ∧ rest = tl ++ ext.
Proof.
  intros Hb He Hm Hle Hbody rest Hrest E. pose proof (frame_decodes body rest max Hbody Hrest Hle) as Hd.
  destruct (Z.le_gt_cases (zlen (frame_message body)) (zlen buf)) as [Hl|Hl].
  - right. unfold zlen in Hl. assert (∃ tl, buf = frame_message body ++ tl) as [tl ->].
    { exists (drop (length (frame_message body)) buf). rewrite <- (take_drop (length (frame_message body)) buf) at 1.
      f_equal. apply (f_equal (take (length (frame_message body)))) in E.
      rewrite take_app_le, take_app_length in E by lia. done. }
    apply Forall_app in Hb as [_ Htl]. split; [by apply frame_decodes|]. exists tl. split; [done|].
    rewrite <- app_assoc in E. by apply app_inv_head in E.
  - left. split; [|done]. destruct (decode_message_capped buf max) as [[p|]|e] eqn:Er; [exfalso|done|exfalso].
    all: assert (decode_message_capped buf max ≠ Ok None) as Hn by (rewrite Er; discriminate).
    all: rewrite <- E, (decode_extend buf ext) in Hd by done.
    all: destruct (decode_answer _ _ _ _ Hb Hm Hd); lia.
Qed.

(** * The framer *)

(** The framer between two calls, or between two reads of one. *)
Definition framer_ok (f : Framed) : Prop :=
  Forall is_u8 (fr_buf f) ∧ resumable (fr_max_body f) (fr_buf f) (fr_reassembler f).

Definition data (reads : list bytes) : stream := map Some reads.

Lemma resumable_app max buf ext st : stands max buf st → resumable max (buf ++ ext) st.
Proof. right. by exists buf, ext. Qed.

Section deliver.
Context (max : Z) (Hmax : 0 <= max <= 2 ^ 34).

(** One message: whatever the reads, the body comes out and the rest is kept. *)
Lemma deliver_loop body rest reads buf re fuel :
  Forall is_u8 body → Forall is_u8 rest → zlen body <= max → Forall (λ r, 1 <= zlen r <= 8192) reads →
  Forall is_u8 buf → resumable max buf re → buf ++ concat reads = frame_message body ++ rest →
  (length reads < fuel)%nat →
  ∃ buf' reads', read_message_loop fuel (mkFramed (data reads) buf re max) =
    (Ok (Some body), mkFramed (data reads') buf' reassembler_new max) ∧
    buf' ++ concat reads' = rest ∧ Forall (λ r, 1 <= zlen r <= 8192) reads'.
Proof.
  intros Hbody Hrest Hle. revert reads buf re.
  induction fuel as [|fuel IH]; intros reads buf re Hreads Hb Hre E Hf; [lia|].
  assert (Forall is_u8 (concat reads)) as Hc.
  { assert (Forall is_u8 (buf ++ concat reads)) as [_ ?]%Forall_app; [|done].
    rewrite E. apply Forall_app. split; [by apply frame_u8|done]. }
  cbn [read_message_loop fr_reassembler fr_buf fr_max_body fr_stream].
  pose proof (feed_resumes max buf re Hb Hre) as Hfeed. destruct (feed re buf max) as [r st].
  destruct Hfeed as [-> Hst].
  destruct (frame_prefix body max buf (concat reads) Hb Hc ltac:(lia) Hle Hbody rest Hrest E)
    as [[Ed Hl]|[Ed (tl & -> & ->)]]; rewrite Ed in Hst |- *.
  - destruct reads as [|r reads].
    { exfalso. cbn [concat] in E. rewrite app_nil_r in E. apply (f_equal zlen) in E.
      rewrite zlen_app in E. pose proof (zlen_nonneg rest). lia. }
    apply Forall_cons in Hreads as [Hr Hreads]. cbn [data map read_some concat] in *.
    destruct r as [|x r]; [change (zlen []) with 0 in Hr; lia|]. apply Forall_app in Hc as [Hcr Hc].
    cbn [fr_max_body fr_buf]. pose proof (frame_length body).
    assert (zlen body / 65535 <= 2 ^ 34 / 65535) by (apply Z.div_le_mono; lia).
    assert (2 ^ 34 / 65535 = 262148) as Hq by reflexivity.
    rewrite (proj2 (Z.ltb_ge _ _)) by (rewrite zlen_app; change slack with 1048576; lia).
    apply IH; [done|by apply Forall_app|apply resumable_app; exact Hst|by rewrite <- app_assoc|cbn [length] in Hf; lia].
  - exists tl, reads. subst st. unfold zlen. rewrite Nat2Z.id, drop_app_length. done.
Qed.

(** Read until there is no message. *)
Fixpoint drain (n : nat) (f : Framed) : list bytes * result (option bytes) :=
  match n with
  | O => ([], Ok None)
  | S n =>
      match read_message f with
      | (Ok (Some body), f) => let '(bodies, last) := drain n f in (body :: bodies, last)
      | (r, _) => ([], r)
      end
  end.

Lemma drain_S n f : drain (S n) f =
  match read_message f with
  | (Ok (Some body), f) => let '(bodies, last) := drain n f in (body :: bodies, last)
  | (r, _) => ([], r)
  end.
Proof. reflexivity. Qed.

Lemma drain_delivers bodies : Forall (λ b, Forall is_u8 b ∧ zlen b <= max) bodies →
  ∀ reads buf, Forall (λ r, 1 <= zlen r <= 8192) reads →
  buf ++ concat reads = concat (map frame_message bodies) →
  drain (S (length bodies)) (mkFramed (data reads) buf reassembler_new max) = (bodies, Ok None).
Proof.
  assert (∀ buf, Forall is_u8 buf → resumable max buf reassembler_new) as Hnew by by left.
  assert (∀ bs, Forall (λ b, Forall is_u8 b ∧ zlen b <= max) bs → Forall is_u8 (concat (map frame_message bs))) as Hall.
  { intros bs Hbs. apply Forall_concat, Forall_map. eapply Forall_impl; [exact Hbs|]. intros b [? _]. by apply frame_u8. }
  induction 1 as [|b bs [Hb Hle] Hbs IH]; intros reads buf Hreads E.
  - apply app_nil in E as [-> E]. destruct reads as [|r reads].
    { reflexivity. }
    exfalso. apply Forall_cons in Hreads as [Hr _]. cbn [concat] in E. apply app_nil in E as [-> _].
    change (zlen []) with 0 in Hr. lia.
  - cbn [map concat] in E. pose proof (Hall _ Hbs) as Hrest.
    assert (Forall is_u8 buf) as Hbuf.
    { assert (Forall is_u8 (buf ++ concat reads)) as [? _]%Forall_app; [|done].
      rewrite E. apply Forall_app. split; [by apply frame_u8|done]. }
    destruct (deliver_loop b _ reads buf reassembler_new (S (S (length (data reads)))) Hb Hrest Hle Hreads Hbuf
      (Hnew _ Hbuf) E) as (buf' & reads' & Hr & E' & Hreads').
    { unfold data. rewrite length_map. lia. }
    rewrite drain_S. unfold read_message. cbn [fr_stream]. rewrite Hr.
    change (length (b :: bs)) with (S (length bs)). by rewrite (IH _ _ Hreads' E').
Qed.
End deliver.

(** What a peer may send: bytes, at most a buffer of them per read. *)
Definition peer_ok (s : stream) : Prop :=
  Forall (λ o, match o with Some bs => Forall is_u8 bs ∧ zlen bs <= 8192 | None => True end) s.

Definition within (f : Framed) : Prop := zlen (fr_buf f) <= fr_max_body f + slack.

Lemma read_loop_bounded fuel f : framer_ok f → peer_ok (fr_stream f) → 0 <= fr_max_body f → within f →
  (length (fr_stream f) < fuel)%nat →
  let '(r, f') := read_message_loop fuel f in
  fr_max_body f' = fr_max_body f ∧ peer_ok (fr_stream f') ∧
  match r with
  | Ok (Some body) => zlen body <= fr_max_body f ∧ framer_ok f' ∧ within f'
  | Ok None => fr_buf f' = []
  | Err e => e ≠ OutOfFuel ∧ zlen (fr_buf f') <= fr_max_body f + slack + 8192
  end.
Proof.
  revert f. induction fuel as [|fuel IH]; intros [s buf re max] [Hb Hre] Hs Hm Hw Hf; [lia|].
  unfold within in *. cbn [fr_stream fr_buf fr_reassembler fr_max_body read_message_loop] in *.
  pose proof (feed_resumes max buf re Hb Hre) as Hfeed. destruct (feed re buf max) as [r st].
  destruct Hfeed as [-> Hst]. pose proof (decode_fuel_safe buf max Hb) as Hsafe.
  destruct (decode_message_capped buf max) as [[[body c]|]|e] eqn:Ed; cbn [fr_stream fr_buf fr_max_body] in *.
  - destruct (decode_answer _ _ _ _ Hb Hm Ed) as [? Hc]. split_and!; try done.
    + split; [by apply Forall_drop|]. subst st. by left.
    + unfold zlen in *. rewrite length_drop. lia.
  - destruct s as [|[[|x r]|] s]; cbn [read_some].
    1,2: case_bool_decide; cbn [fr_stream fr_buf fr_max_body]; split_and!; try done; try (unfold slack in *; lia).
    1: by apply Forall_cons in Hs as [_ ?].
    1: by apply Forall_cons in Hs as [_ ?].
    + apply Forall_cons in Hs as [[Hr Hl] Hs]. cbn [fr_max_body fr_buf].
      destruct (Z.ltb_spec (max + slack) (zlen (buf ++ x :: r))) as [?|Hle].
      * cbn [fr_stream fr_buf fr_max_body]. rewrite zlen_app. split_and!; try done; lia.
      * apply IH; cbn [fr_stream fr_buf fr_max_body]; try done; [|cbn [length] in Hf; lia].
        split; [by apply Forall_app|]. apply resumable_app. exact Hst.
    + apply Forall_cons in Hs as [_ Hs]. cbn [fr_stream fr_buf fr_max_body]. split_and!; try done; lia.
  - split_and!; try done; [congruence|lia].
Qed.

(** * Properties *)

(** The answer of a reassembler that is fed after each arrival. *)
Fixpoint feed_all (st : ChunkReassembler) (buf : bytes) (parts : list bytes) (max : Z)
    : result (option (bytes * Z)) :=
  match feed st buf max with
  | (Ok None, st) =>
      match parts with [] => Ok None | p :: parts => feed_all st (buf ++ p) parts max end
  | (r, _) => r
  end.

Lemma feed_all_decodes parts : ∀ st buf max, Forall is_u8 buf → Forall (Forall is_u8) parts → resumable max buf st →
  feed_all st buf parts max = decode_message_capped (buf ++ concat parts) max.
Proof.
  induction parts as [|p parts IH]; intros st buf max Hb Hp Hst; cbn [feed_all concat];
    pose proof (feed_resumes max buf st Hb Hst) as Hfeed; destruct (feed st buf max) as [r st'];
    destruct Hfeed as [-> Hst'].
  - rewrite app_nil_r. by destruct (decode_message_capped buf max) as [[]|].
  - apply Forall_cons in Hp as [Hp Hps].
    destruct (decode_message_capped buf max) as [[[body c]|]|e] eqn:Ed.
    2:{ rewrite app_assoc. apply IH; [by apply Forall_app|done|by apply resumable_app]. }
    all: rewrite decode_extend, Ed; try done; [|by rewrite Ed]; apply Forall_app; split; [done|by apply Forall_concat].
Qed.

(** Resumable reassembly is insensitive to fragmentation.  However the bytes of a
    connection are cut into arrivals, the reassembler that keeps its cursor between them
    gives the answer that decoding all the bytes at once from the start would give: the same
    body and length, the same refusal over the limit, or that more is needed. *)
Theorem reassembly_fragmentation parts max : Forall (Forall is_u8) parts →
  feed_all reassembler_new [] parts max = decode_message_capped (concat parts) max.
Proof. intros Hp. by rewrite feed_all_decodes by (done || by left). Qed.

(** Every message that is sent is delivered.  For any bodies within the limit, framed one
    after the other and cut into reads in any way, reading messages off the connection
    returns exactly those bodies in order and then the clean end of the stream. *)
Theorem framer_delivers max bodies reads : 0 <= max <= 2 ^ 34 →
  Forall (λ b, Forall is_u8 b ∧ zlen b <= max) bodies → Forall (λ r, 1 <= zlen r <= 8192) reads →
  concat reads = concat (map frame_message bodies) →
  drain (S (length bodies)) (framed_new (data reads) max) = (bodies, Ok None).
Proof. intros Hm Hb Hr E. by apply drain_delivers. Qed.

(** A peer cannot make the framer hold more than its limit.  For an arbitrary stream,
    reads failing or ending anywhere, a call terminates; a returned body is within the limit,
    and the bytes held never exceed the limit by more than the slack and one read. *)
Theorem framer_bounded f : framer_ok f → peer_ok (fr_stream f) → 0 <= fr_max_body f → within f →
  let '(r, f') := read_message f in
  zlen (fr_buf f') <= fr_max_body f + slack + 8192 ∧
  match r with
  | Ok (Some body) => zlen body <= fr_max_body f ∧ framer_ok f' ∧ peer_ok (fr_stream f') ∧ within f'
  | Ok None => fr_buf f' = []
  | Err e => e ≠ OutOfFuel
  end.
Proof.
  intros Hok Hs Hm Hw. unfold read_message.
  pose proof (read_loop_bounded (S (S (length (fr_stream f)))) f Hok Hs Hm Hw ltac:(lia)) as H.
  destruct (read_message_loop _ f) as [r f']. destruct H as (Hmax & Hs' & H). change slack with 1048576 in *.
  destruct r as [[body|]|e].
  - destruct H as (? & ? & Hw'). unfold within in Hw' |- *. change slack with 1048576 in *. split_and!; try done; lia.
  - rewrite H. change (zlen []) with 0. split; [lia|done].
  - by destruct H.
Qed.

(** ** Witnesses *)

