(* ===== verification/Bolt.v ===== *)
(** The Bolt handshake (crates/slater/src/bolt/handshake.rs), the message set
    (crates/slater/src/bolt/message.rs), and the composition of the three layers: a request
    crosses PackStream and the chunked framing unchanged. *)

From S2P Require Import Prelude Values PackStream Chunk.

(** * The handshake *)

Definition PREAMBLE : bytes := [0x60; 0x60; 0xB0; 0x17].
Definition SUPPORTED : list (Z * Z) := [(5, 4); (4, 4); (4, 1)].
Definition NO_VERSION : bytes := [0; 0; 0; 0].

Record Proposal := mkProposal { major : Z; minor : Z; range : Z }.

(** [Proposal::from_bytes] of [[_, range, minor, major]]. *)
Definition proposal_from_bytes (b : bytes) : Proposal :=
  mkProposal (nth 3 b 0) (nth 2 b 0) (nth 1 b 0).

(** The subtraction is guarded by [minor <= p.minor]. *)
Definition covers (p : Proposal) (maj mnr : Z) : bool :=
  (major p =? maj) && (mnr <=? minor p) && (minor p - mnr <=? range p).

Fixpoint negotiate_from (supported : list (Z * Z)) (proposals : list Proposal) : bytes :=
  match supported with
  | [] => NO_VERSION
  | (maj, mnr) :: supported =>
      if existsb (λ p, covers p maj mnr) proposals then [0; 0; mnr; maj]
      else negotiate_from supported proposals
  end.

Definition negotiate (proposals : list Proposal) : bytes := negotiate_from SUPPORTED proposals.

Definition handle_client_hello (buf : bytes) : result bytes :=
  if bool_decide (take 4 buf ≠ PREAMBLE) then Err (Bail "not a Bolt connection: bad preamble")
  else Ok (negotiate (map (λ i, proposal_from_bytes (take 4 (drop (4 + i * 4) buf))) [0; 1; 2; 3]%nat)).

(** * Messages *)

Definition HELLO : Z := 0x01.
Definition GOODBYE : Z := 0x02.
Definition RESET : Z := 0x0F.
Definition RUN : Z := 0x10.
Definition BEGIN : Z := 0x11.
Definition COMMIT : Z := 0x12.
Definition ROLLBACK : Z := 0x13.
Definition DISCARD : Z := 0x2F.
Definition PULL : Z := 0x3F.
Definition LOGON : Z := 0x6A.
Definition LOGOFF : Z := 0x6B.
Definition SUCCESS : Z := 0x70.
Definition RECORD : Z := 0x71.
Definition IGNORED : Z := 0x7E.
Definition FAILURE : Z := 0x7F.

Inductive Request :=
  | Hello (meta : PsValue.t)
  | Logon (auth : PsValue.t)
  | Logoff
  | Run (query : str) (params extra : PsValue.t)
  | Pull (meta : PsValue.t)
  | Discard (meta : PsValue.t)
  | Begin (meta : PsValue.t)
  | Commit
  | Rollback
  | Reset
  | Goodbye.

Definition take_map (v : PsValue.t) : result PsValue.t :=
  match v with PsValue.Map _ => Ok v | _ => Err (Bail "bolt: expected a map") end.

Definition wrong_arity : error := Bail "bolt: wrong number of fields".

(** [expect(1, name)?; take_map(fields.pop().unwrap(), name)?]. *)
Definition one_map (fields : list PsValue.t) (k : PsValue.t → Request) : result Request :=
  match fields with
  | [v] => m ← take_map v; Ok (k m)
  | _ => Err wrong_arity
  end.

(** [expect(0, name)?]. *)
Definition no_fields (fields : list PsValue.t) (r : Request) : result Request :=
  match fields with [] => Ok r | _ => Err wrong_arity end.

Definition decode_request (body : bytes) : result Request :=
  v ← from_slice body;
  match v with
  | PsValue.Struct tag fields =>
      if tag =? HELLO then one_map fields Hello
      else if tag =? LOGON then one_map fields Logon
      else if tag =? LOGOFF then no_fields fields Logoff
      else if tag =? RUN then
        match fields with
        | [q; p; e] =>
            extra ← take_map e;
            params ← take_map p;
            match q with
            | PsValue.String query => Ok (Run query params extra)
            | _ => Err (Bail "bolt: RUN query must be a string")
            end
        | _ => Err wrong_arity
        end
      else if tag =? PULL then one_map fields Pull
      else if tag =? DISCARD then one_map fields Discard
      else if tag =? BEGIN then one_map fields Begin
      else if tag =? COMMIT then no_fields fields Commit
      else if tag =? ROLLBACK then no_fields fields Rollback
      else if tag =? RESET then no_fields fields Reset
      else if tag =? GOODBYE then no_fields fields Goodbye
      else Err (Bail "bolt: unsupported message tag")
  | _ => Err (Bail "bolt: expected a message struct")
  end.

(** ** Responses *)

Definition success (metadata : list (str * PsValue.t)) : PsValue.t :=
  PsValue.Struct SUCCESS [PsValue.Map metadata].
Definition record (values : list PsValue.t) : PsValue.t := PsValue.Struct RECORD [PsValue.List values].
Definition failure (code message : str) : PsValue.t :=
  PsValue.Struct FAILURE
    [PsValue.Map [(lit "code", PsValue.String code); (lit "message", PsValue.String message)]].
Definition failure_gqlstatus (code message gql_status status_description : str) : PsValue.t :=
  PsValue.Struct FAILURE
    [PsValue.Map [(lit "code", PsValue.String code); (lit "message", PsValue.String message);
                  (lit "gql_status", PsValue.String gql_status);
                  (lit "status_description", PsValue.String status_description)]].
Definition notification (code title description severity : str) : str * PsValue.t :=
  (lit "notifications",
   PsValue.List [PsValue.Map
     [(lit "code", PsValue.String code); (lit "title", PsValue.String title);
      (lit "description", PsValue.String description); (lit "severity", PsValue.String severity);
      (lit "category", PsValue.String (lit "GENERIC"))]]).
Definition ignored : PsValue.t := PsValue.Struct IGNORED [].

Definition to_wire (msg : PsValue.t) : bytes := frame_message (to_vec msg).

(** * What a request stands for on the wire *)

(** The structure a client sends for a request. *)
Definition request_struct (r : Request) : PsValue.t :=
  match r with
  | Hello m => PsValue.Struct HELLO [m]
  | Logon m => PsValue.Struct LOGON [m]
  | Logoff => PsValue.Struct LOGOFF []
  | Run q p e => PsValue.Struct RUN [PsValue.String q; p; e]
  | Pull m => PsValue.Struct PULL [m]
  | Discard m => PsValue.Struct DISCARD [m]
  | Begin m => PsValue.Struct BEGIN [m]
  | Commit => PsValue.Struct COMMIT []
  | Rollback => PsValue.Struct ROLLBACK []
  | Reset => PsValue.Struct RESET []
  | Goodbye => PsValue.Struct GOODBYE []
  end.

Definition is_map (v : PsValue.t) : Prop := match v with PsValue.Map _ => True | _ => False end.

(** The metadata of a request are maps. *)
Definition request_ok (r : Request) : Prop :=
  match r with
  | Hello m | Logon m | Pull m | Discard m | Begin m => is_map m
  | Run _ p e => is_map p ∧ is_map e
  | _ => True
  end.

Lemma take_map_Ok v m : take_map v = Ok m ↔ v = m ∧ is_map m.
Proof. destruct v; cbn; split; try (by intros [= <-]); try done; by intros [<- ?]. Qed.

Lemma one_map_Ok fields k r : one_map fields k = Ok r ↔ ∃ m, fields = [m] ∧ is_map m ∧ r = k m.
Proof.
  unfold one_map. destruct fields as [|v [|]]; [split; [done|by intros (? & ? & _)]| |split; [done|by intros (? & ? & _)]].
  rewrite bind_Ok. split.
  - intros (m & [-> ?]%take_map_Ok & [= <-]). eauto.
  - intros (m & [= ->] & ? & ->). exists m. split; [by apply take_map_Ok|done].
Qed.

Lemma no_fields_Ok fields r0 r : no_fields fields r0 = Ok r ↔ fields = [] ∧ r = r0.
Proof. destruct fields; cbn; split; try done; [by intros [= <-]|by intros [_ ->]|by intros []]. Qed.

Lemma decode_request_iff body r :
  decode_request body = Ok r ↔ from_slice body = Ok (request_struct r) ∧ request_ok r.
Proof.
  unfold decode_request. rewrite bind_Ok. split.
  - intros (v & -> & H). destruct v as [| | | | | | | |tag fields]; try discriminate H.
    repeat match type of H with (if ?a =? ?b then _ else _) = _ => destruct (Z.eqb_spec a b) as [->|] end;
      try discriminate H; try (apply one_map_Ok in H as (m & -> & ? & ->); done);
      try (apply no_fields_Ok in H as [-> ->]; done).
    destruct fields as [|q [|p [|e [|]]]]; try discriminate H.
    apply bind_Ok in H as (e' & [-> He]%take_map_Ok & H). apply bind_Ok in H as (p' & [-> Hp]%take_map_Ok & H).
    destruct q; try discriminate H. by injection H as <-.
  - intros [-> Hok]. eexists. split; [done|].
    destruct r; cbn [request_struct]; cbn [request_ok] in Hok;
      repeat match goal with |- (if ?a =? ?b then _ else _) = _ =>
        let c := eval vm_compute in (a =? b) in change (a =? b) with c; cbv iota end;
      try (apply one_map_Ok; eauto); try (by apply no_fields_Ok).
    destruct Hok as [Hp He]. rewrite (proj2 (take_map_Ok extra extra)) by done. cbn [mbind result_bind].
    by rewrite (proj2 (take_map_Ok params params)) by done.
Qed.

(** A proposal offers the minors from [minor - range] up to [minor]. *)
Definition offers (p : Proposal) (v : Z * Z) : Prop :=
  major p = v.1 ∧ minor p - range p <= v.2 <= minor p.

Lemma covers_offers p maj mnr : covers p maj mnr = true ↔ offers p (maj, mnr).
Proof. unfold covers, offers. cbn [fst snd]. rewrite !andb_true_iff, Z.eqb_eq, !Z.leb_le. lia. Qed.

Lemma negotiate_from_spec sup ps :
  (∃ pre maj mnr post, sup = pre ++ (maj, mnr) :: post ∧ negotiate_from sup ps = [0; 0; mnr; maj] ∧
     (∃ p, p ∈ ps ∧ offers p (maj, mnr)) ∧ ∀ v p, v ∈ pre → p ∈ ps → ¬ offers p v) ∨
  negotiate_from sup ps = NO_VERSION ∧ ∀ v p, v ∈ sup → p ∈ ps → ¬ offers p v.
Proof.
  induction sup as [|[maj mnr] sup IH]; [right; split; [done|]; intros v p Hv; by apply elem_of_nil in Hv|].
  cbn [negotiate_from]. destruct (existsb _ ps) eqn:E.
  - left. exists [], maj, mnr, sup. apply existsb_exists in E as (p & Hp%list_elem_of_In & Hc%covers_offers).
    split_and!; eauto. intros v q Hv. by apply elem_of_nil in Hv.
  - assert (∀ p, p ∈ ps → ¬ offers p (maj, mnr)) as Hno.
    { intros p Hp%list_elem_of_In Hc%covers_offers. assert (existsb (λ p, covers p maj mnr) ps = true) as E'; [|congruence].
      apply existsb_exists. eauto. }
    destruct IH as [(pre & a & b & post & -> & E' & Hp & Hpre)|[E' Hall]]; [left|right].
    + exists ((maj, mnr) :: pre), a, b, post. split_and!; [done..|]. intros v p [->|Hv]%elem_of_cons Hp'; auto.
    + split; [done|]. intros v p [->|Hv]%elem_of_cons Hp'; auto.
Qed.

(** * Properties *)

(** Version negotiation is sound, complete and best first.  A client without the preamble
    is refused.  Otherwise the reply names a version that the server supports and a proposal
    offers, with no more preferred supported version offered; it is the refusal only when no
    supported version is offered by any proposal. *)
Theorem handshake_best buf :
  match handle_client_hello buf with
  | Err _ => take 4 buf ≠ PREAMBLE
  | Ok reply =>
      let ps := map (λ i, proposal_from_bytes (take 4 (drop (4 + i * 4) buf))) [0; 1; 2; 3]%nat in
      take 4 buf = PREAMBLE ∧
      ((∃ pre maj mnr post, SUPPORTED = pre ++ (maj, mnr) :: post ∧ reply = [0; 0; mnr; maj] ∧
          (∃ p, p ∈ ps ∧ offers p (maj, mnr)) ∧ ∀ v p, v ∈ pre → p ∈ ps → ¬ offers p v) ∨
       reply = NO_VERSION ∧ ∀ v p, v ∈ SUPPORTED → p ∈ ps → ¬ offers p v)
  end.
Proof.
  unfold handle_client_hello. case_bool_decide as H; [done|].
  split; [destruct (decide (take 4 buf = PREAMBLE)); tauto|]. apply negotiate_from_spec.
Qed.

(** C31: A request crosses the whole protocol stack unchanged.  Requests within the limits of
    the decoder and of the framer, encoded by PackStream, framed in chunks and cut into reads
    in any way, are read off the connection as exactly those requests, in order, up to the
    clean end of the stream. *)
Theorem bolt_end_to_end max reqs reads : 0 <= max <= 2 ^ 34 →
  Forall (λ r, request_ok r ∧ PsValue.wf (request_struct r) ∧ (PsValue.depth (request_struct r) <= MAX_DEPTH)%nat ∧
    PsValue.count (request_struct r) <= MAX_VALUES ∧
    zlen (to_vec (request_struct r)) <= max) reqs →
  Forall (λ r, 1 <= zlen r <= 8192) reads →
  concat reads = concat (map (λ r, to_wire (request_struct r)) reqs) →
  let '(bodies, last) := drain (S (length reqs)) (framed_new (data reads) max) in
  map decode_request bodies = map Ok reqs ∧ last = Ok None.
Proof.
  intros Hm Hreqs Hreads E.
  pose proof (drain_delivers max Hm (map (λ r, to_vec (request_struct r)) reqs)) as Hd.
  rewrite length_map in Hd. unfold framed_new. rewrite Hd; [split; [|done]|..].
  - rewrite map_map. apply map_ext_in. intros r Hr%list_elem_of_In. rewrite Forall_forall in Hreqs.
    destruct (Hreqs r Hr) as (Hok & Hw & Hdep & Hcnt & _). apply decode_request_iff. split; [|done].
    unfold from_slice, from_slice_capped, with_max_values, to_vec.
    pose proof (ps_read_written _ Hw MAX_DEPTH MAX_VALUES MAX_VALUES [] ltac:(done)) as Ho. rewrite app_nil_r in Ho.
    destruct Ho; [done|lia|lia].
  - apply Forall_map. eapply Forall_impl; [exact Hreqs|]. intros r (_ & Hw & _ & _ & Hl). split; [by apply encode_u8|done].
  - done.
  - cbn [app]. rewrite E, map_map. done.
Qed.

(** ** Witness *)

Definition example_requests : list Request :=
  [Run (lit "RETURN 1") (PsValue.Map []) (PsValue.Map []); Goodbye].

Lemma bolt_end_to_end_witness :
  let wire := concat (map (λ r, to_wire (request_struct r)) example_requests) in
  let '(bodies, last) := drain 3 (framed_new (data [take 5 wire; drop 5 wire]) 100) in
  map decode_request bodies = map Ok example_requests ∧ last = Ok None.
Proof.
  apply (bolt_end_to_end 100 example_requests).
  - lia.
  - repeat constructor; try (vm_compute; reflexivity || discriminate || (intros H; discriminate H)); try (vm_compute; lia).
  - repeat constructor; vm_compute; discriminate.
  - vm_compute. reflexivity.
Defined.
