(* ===== verification/BlockCodec.v ===== *)
(** The block compression codec (crates/graph-format/src/codec.rs): the ceilings on what a
    block may declare, and the decompression into a sink that refuses to pass the declared
    length.

    The zstd crate is a parameter.  Its encoder maps a raw block and a level to bytes; its
    decoder maps a stored block to the pieces it writes to its output, in order, and whether
    the stream then ends without an error. *)

From S2P Require Import Prelude.

Definition MAX_BLOCK_BYTES : Z := Z.shiftl 2 30.
Definition MAX_CAPACITY_RATIO : Z := 64.

Definition check_stored_len (comp_len : Z) : result unit :=
  if MAX_BLOCK_BYTES <? comp_len then Err (BlockDeclared comp_len MAX_BLOCK_BYTES) else Ok tt.

(** The [capacity_for] of codec.rs; [saturating_mul] stops at the top of [usize]. *)
Definition block_capacity_for (comp_len raw_len : Z) : Z :=
  Z.min (Z.min raw_len (Z.min (comp_len * MAX_CAPACITY_RATIO) (2 ^ 64 - 1))) MAX_BLOCK_BYTES.

Record BoundedSink := {
  out : bytes;
  limit : Z;
  overflowed : bool;
}.

(** [Write::write]: the sink after the call, and whether it accepted the bytes. *)
Definition sink_write (s : BoundedSink) (buf : bytes) : BoundedSink * bool :=
  if limit s <? zlen (out s) + zlen buf then
    ({| out := out s; limit := limit s; overflowed := true |}, false)
  else ({| out := out s ++ buf; limit := limit s; overflowed := overflowed s |}, true).

Section Zstd.
Context (zstd_encode_all : bytes → Z → result bytes).
Context (zstd_decode : bytes → list bytes * bool).

Definition compress (raw : bytes) (level : Z) : result bytes := zstd_encode_all raw level.

(** The decoder writes its pieces to the sink and stops at the first one refused. *)
Fixpoint write_pieces (pieces : list bytes) (s : BoundedSink) : BoundedSink * bool :=
  match pieces with
  | [] => (s, true)
  | p :: pieces =>
      let '(s, accepted) := sink_write s p in
      if accepted then write_pieces pieces s else (s, false)
  end.

(** [zstd::stream::copy_decode] into the sink. *)
Definition copy_decode (comp : bytes) (s : BoundedSink) : BoundedSink * bool :=
  let '(pieces, complete) := zstd_decode comp in
  let '(s, accepted) := write_pieces pieces s in
  (s, accepted && complete).

(** The call to the decoder: the sink it leaves, and its outcome. *)
Definition decompress_sink (comp : bytes) (raw_len : Z) : BoundedSink * bool :=
  copy_decode comp {| out := []; limit := raw_len; overflowed := false |}.

Definition decompress_capped (comp : bytes) (raw_len max_block_bytes : Z) : result bytes :=
  if max_block_bytes <? raw_len then Err (BlockDeclared raw_len max_block_bytes)
  else
    let '(sink, ok) := decompress_sink comp raw_len in
    if negb ok then
      if overflowed sink then Err (BlockExpanded raw_len) else Err (Bail "zstd decompress block")
    else if negb (zlen (out sink) =? raw_len) then Err (Bail "zstd block decoded length")
    else Ok (out sink).

Definition decompress (comp : bytes) (raw_len : Z) : result bytes :=
  decompress_capped comp raw_len MAX_BLOCK_BYTES.

(** * The sink *)

(** What the sink holds after a run of writes: everything, or a run of whole pieces that fits
    while the next one does not. *)
Lemma write_pieces_spec pieces s : overflowed s = false → zlen (out s) <= limit s →
  let '(s', ok) := write_pieces pieces s in
  limit s' = limit s ∧ overflowed s' = negb ok ∧ zlen (out s') <= limit s ∧
  ok = (zlen (out s ++ concat pieces) <=? limit s) ∧
  ∃ k, out s' = out s ++ concat (take k pieces) ∧ (ok = true → (length pieces <= k)%nat).
Proof.
  revert s. induction pieces as [|p pieces IH]; intros s Ho Hl; cbn [write_pieces concat].
  { split_and!; [done|done|done|by rewrite app_nil_r; symmetry; apply Z.leb_le|]. exists O. cbn. by rewrite app_nil_r. }
  unfold sink_write. pose proof (zlen_nonneg (concat pieces)).
  destruct (Z.ltb_spec (limit s) (zlen (out s) + zlen p)) as [Hov|Hfit].
  - split_and!; [done|done|done| |exists O; cbn; by rewrite app_nil_r].
    symmetry. apply Z.leb_gt. rewrite !zlen_app. lia.
  - set (s1 := {| out := out s ++ p; limit := limit s; overflowed := overflowed s |}).
    assert (zlen (out s1) <= limit s1) as Hl1 by (cbn; rewrite zlen_app; lia).
    specialize (IH s1 Ho Hl1). destruct (write_pieces pieces s1) as [s' ok].
    destruct IH as (Hlim & Hov & Hlen & Hok & k & Hk & Hall). cbn [limit out s1] in *.
    split_and!; [done|done|done|by rewrite Hok, <- app_assoc|]. exists (S k). cbn [take concat length]. rewrite app_assoc.
    split; [done|]. intros E%Hall. lia.
Qed.

Lemma write_pieces_all pieces s s' : overflowed s = false → zlen (out s) <= limit s →
  write_pieces pieces s = (s', true) → out s' = out s ++ concat pieces.
Proof.
  intros Ho Hl E. pose proof (write_pieces_spec pieces s Ho Hl) as H. rewrite E in H.
  destruct H as (_ & _ & _ & _ & k & -> & Hk). by rewrite take_ge by by apply Hk.
Qed.

(** What a decompression returns, from what the decoder writes. *)
Lemma decompress_capped_spec comp raw_len cap pieces complete : 0 <= raw_len <= cap →
  zstd_decode comp = (pieces, complete) →
  decompress_capped comp raw_len cap =
    if raw_len <? zlen (concat pieces) then Err (BlockExpanded raw_len)
    else if negb complete then Err (Bail "zstd decompress block")
    else if zlen (concat pieces) =? raw_len then Ok (concat pieces)
    else Err (Bail "zstd block decoded length").
Proof.
  intros [Hr Hcap] E. unfold decompress_capped. rewrite (proj2 (Z.ltb_ge _ _) Hcap).
  unfold decompress_sink, copy_decode. rewrite E.
  set (s := {| out := []; limit := raw_len; overflowed := false |}).
  pose proof (write_pieces_spec pieces s eq_refl Hr) as H. pose proof (write_pieces_all pieces s) as Hall.
  destruct (write_pieces pieces s) as [s' ok]. destruct H as (_ & Hov & _ & Hok & _). cbn [out s limit app] in Hok.
  destruct ok.
  - rewrite (Hall s') by done. symmetry in Hok. apply Z.leb_le in Hok. rewrite (proj2 (Z.ltb_ge _ _) Hok). cbn [andb negb].
    destruct complete; cbn [negb]; [|by rewrite Hov]. cbn [out s app]. by destruct (_ =? _).
  - symmetry in Hok. apply Z.leb_gt in Hok. rewrite (proj2 (Z.ltb_lt _ _) Hok). cbn [andb negb]. by rewrite Hov.
Qed.

Lemma decompress_capped_Ok comp raw_len cap pieces complete raw : 0 <= raw_len → zstd_decode comp = (pieces, complete) →
  decompress_capped comp raw_len cap = Ok raw ↔
    raw_len <= cap ∧ complete = true ∧ zlen raw = raw_len ∧ raw = concat pieces.
Proof.
  intros Hr E. destruct (decide (raw_len <= cap)) as [Hc|Hc].
  - rewrite (decompress_capped_spec _ _ _ pieces complete) by done.
    destruct (Z.ltb_spec raw_len (zlen (concat pieces))); [split; [done|]; intros (_ & _ & ? & ->); lia|].
    destruct complete; cbn [negb]; [|split; [done|]; by intros (_ & ? & _)].
    destruct (Z.eqb_spec (zlen (concat pieces)) raw_len); split; [intros [= <-]; done|intros (_ & _ & _ & ->); done|done|].
    intros (_ & _ & ? & ->). lia.
  - unfold decompress_capped. rewrite (proj2 (Z.ltb_lt _ _)) by lia. split; [done|]. intros [? _]. lia.
Qed.

(** The decoder undoes the encoder: the pieces it writes for a compressed block are the block. *)
Definition zstd_lossless : Prop := ∀ raw level comp, zstd_encode_all raw level = Ok comp →
  ∃ pieces, zstd_decode comp = (pieces, true) ∧ concat pieces = raw.

Lemma compress_decompress raw level comp : zstd_lossless → zlen raw <= MAX_BLOCK_BYTES →
  compress raw level = Ok comp → decompress comp (zlen raw) = Ok raw.
Proof.
  intros Hz Hlen (pieces & E & Hc)%Hz. unfold decompress. pose proof (zlen_nonneg raw).
  rewrite (decompress_capped_spec _ _ _ pieces true) by done. rewrite Hc, Z.ltb_irrefl, Z.eqb_refl. done.
Qed.

End Zstd.

(** * What a stored block can cost *)

(** Decompression is bounded by what the block declares, whatever the bytes: the sink never
    holds more than [raw_len] bytes, the reservation made before the first byte is at most 64
    times the stored bytes and never above the ceiling, a declaration above the ceiling is
    refused, a block is returned only when it has exactly the declared length, and a body that
    inflates past its declaration is reported as such and not as a decoder error. *)
Theorem decompress_bounded zstd_decode comp raw_len cap pieces complete :
  0 <= raw_len → zstd_decode comp = (pieces, complete) →
  zlen (out (decompress_sink zstd_decode comp raw_len).1) <= raw_len ∧
  block_capacity_for (zlen comp) raw_len <= Z.min (64 * zlen comp) MAX_BLOCK_BYTES ∧
  (cap < raw_len → decompress_capped zstd_decode comp raw_len cap = Err (BlockDeclared raw_len cap)) ∧
  (∀ raw, decompress_capped zstd_decode comp raw_len cap = Ok raw ↔
    raw_len <= cap ∧ complete = true ∧ zlen raw = raw_len ∧ raw = concat pieces) ∧
  (raw_len <= cap → decompress_capped zstd_decode comp raw_len cap = Err (BlockExpanded raw_len) ↔
    raw_len < zlen (concat pieces)).
Proof.
  intros Hr E. split_and!.
  - unfold decompress_sink, copy_decode. rewrite E.
    set (s := {| out := []; limit := raw_len; overflowed := false |}).
    pose proof (write_pieces_spec pieces s eq_refl Hr) as H. destruct (write_pieces pieces s). apply H.
  - unfold block_capacity_for, MAX_CAPACITY_RATIO. lia.
  - intros Hc. unfold decompress_capped. by rewrite (proj2 (Z.ltb_lt _ _) Hc).
  - intros raw. by apply decompress_capped_Ok.
  - intros Hc. rewrite (decompress_capped_spec _ _ _ _ pieces complete) by done.
    destruct (Z.ltb_spec raw_len (zlen (concat pieces))); [done|].
    destruct (negb complete), (zlen (concat pieces) =? raw_len); split; done || lia.
Qed.

(** A decoder of the identity format, which hands its input over in one piece. *)
Definition stored_encode (raw : bytes) (level : Z) : result bytes := Ok raw.
Definition stored_decode (comp : bytes) : list bytes * bool := ([comp], true).

Lemma stored_lossless : zstd_lossless stored_encode stored_decode.
Proof. intros raw level comp [= <-]. exists [raw]. cbn. by rewrite app_nil_r. Qed.

Lemma stored_bounded raw level comp : stored_encode raw level = Ok comp → zlen comp <= zlen raw + zlen raw / 256 + 64.
Proof. intros [= <-]. pose proof (zlen_nonneg raw). pose proof (Z.div_pos (zlen raw) 256). lia. Qed.

