(* ===== verification/Isam.v ===== *)
(** The sorted range index on disk: the writer and the opening of a file, of
    [graph-format/src/isam.rs].

    An index is its byte image.  Leaf blocks of [(key, id)] pairs are compressed and sealed one
    after the other; the top level holds the first key of each and where it lies, and the footer
    where the top level lies.  The calls that create, flush and sync the file are not modelled:
    the writer returns the image. *)

From S2P Require Import Prelude Values ValueOrder Wire Crypto BlockCodec.

Definition ISAM_MAGIC : bytes := lit "SLISM001".
Definition ISAM_MAGIC_ENC : bytes := lit "SLISME01".
Definition FOOTER_LEN : Z := 24.
Definition FOOTER_LEN_ENC : Z := FOOTER_LEN + NONCE_LEN.
Definition HEADER_ORDINAL : Z := 2 ^ 64 - 1.

Abbreviation entry := (Value.t * Z)%type (only parsing).

(** [Top] of the writer and [TopEntry] of the reader. *)
Record TopEntry := mkTop {
  first_key : Value.t;
  t_offset : Z;
  comp_len : Z;
  raw_len : Z;
  t_nonce : option bytes;
}.

Definition write_entry : entry → bytes := write_pair write_value write_uvarint.
Definition read_entry : reader entry := read_pair read_value read_uvarint.

(** The variables of [write_isam_sorted]: the file and its length, the top level, and the open
    leaf. *)
Record IsamWriter := mkIsamWriter {
  iw_file : bytes;
  iw_offset : Z;
  iw_tops : list TopEntry;
  iw_first : option Value.t;
  iw_count : Z;
  iw_body : bytes;
}.

Record IsamReader := mkIsamReader {
  src : bytes;
  top : list TopEntry;
  r_cipher : option FileCipher;
}.

(** A nonce, where there is one. *)
Definition nonce_bytes (nonce : option bytes) : bytes := match nonce with Some n => n | None => [] end.

(** [RandomReadAt::read_exact_at]. *)
Definition read_exact_at (src : bytes) (off n : Z) : result bytes :=
  if zlen src <? off + n then Err IoError else Ok (take (Z.to_nat n) (drop (Z.to_nat off) src)).

Section isam.
Context {crypto : Crypto}.
Variable zstd_encode_all : bytes → Z → result bytes.
Variable zstd_decode : bytes → list bytes * bool.
(** The nonces in the order they are drawn: one per leaf, then one for the top level. *)
Variable random_nonce : nat → bytes.

(** * Writing *)

Section writer.
Variables (target_block_bytes zstd_level : Z) (cipher : option FileCipher).

(** The bytes stored for a leaf or the top level, and the nonce they are sealed under. *)
Definition seal_stored (ordinal : Z) (nonce plain : bytes) : result (bytes * option bytes) :=
  match cipher with
  | Some c => s ← file_seal c (BlockAad.position_only ordinal) nonce plain; Ok (s, Some nonce)
  | None => Ok (plain, None)
  end.

Definition flush_isam_block (first : Value.t) (st : IsamWriter) : result IsamWriter :=
  let raw := write_uvarint (iw_count st) ++ iw_body st in
  comp ← compress zstd_encode_all raw zstd_level;
  let ordinal := length (iw_tops st) in
  '(stored, nonce) ← seal_stored (Z.of_nat ordinal) (random_nonce ordinal) comp;
  Ok (mkIsamWriter (iw_file st ++ stored) (iw_offset st + zlen stored)
        (iw_tops st ++ [mkTop first (iw_offset st) (as_u32 (zlen stored)) (as_u32 (zlen raw)) nonce])
        None 0 []).

Definition push_entry (st : IsamWriter) (e : result entry) : result IsamWriter :=
  '(k, id) ← e;
  let first := match iw_first st with Some f => f | None => k end in
  let st := mkIsamWriter (iw_file st) (iw_offset st) (iw_tops st) (Some first)
              (iw_count st + 1) (iw_body st ++ write_value k ++ write_uvarint id) in
  if target_block_bytes <=? zlen (iw_body st) then flush_isam_block first st else Ok st.

Fixpoint push_entries (st : IsamWriter) (entries : list (result entry)) : result IsamWriter :=
  match entries with
  | [] => Ok st
  | e :: entries => st ← push_entry st e; push_entries st entries
  end.

Definition isam_start : IsamWriter :=
  let magic := if cipher then ISAM_MAGIC_ENC else ISAM_MAGIC in
  mkIsamWriter magic (zlen magic) [] None 0 [].

(** The leaves, up to the last one. *)
Definition write_leaves (entries : list (result entry)) : result IsamWriter :=
  st ← push_entries isam_start entries;
  if 0 <? iw_count st
  then match iw_first st with
       | Some first => flush_isam_block first st
       | None => Err (Panic "first key of an open block")
       end
  else Ok st.

Definition write_top (t : TopEntry) : bytes :=
  write_value (first_key t) ++ le_bytes 8 (t_offset t) ++ le_bytes 4 (comp_len t) ++ le_bytes 4 (raw_len t)
    ++ nonce_bytes (t_nonce t).

Definition top_bytes (st : IsamWriter) : bytes := concat (map write_top (iw_tops st)).

(** The image of the file and the number of leaves. *)
Definition write_isam_sorted (entries : list (result entry)) : result (bytes * Z) :=
  st ← write_leaves entries;
  '(stored_top, nonce) ← seal_stored HEADER_ORDINAL (random_nonce (length (iw_tops st))) (top_bytes st);
  Ok (iw_file st ++ stored_top ++ le_bytes 8 (iw_offset st) ++ le_bytes 8 (zlen stored_top)
        ++ le_bytes 8 (zlen (iw_tops st)) ++ nonce_bytes nonce,
      zlen (iw_tops st)).

(** [sort_by(|a, b| a.0.cmp_key(&b.0).then(a.1.cmp(&b.1)))]. *)
Definition entry_cmp (a b : entry) : comparison :=
  match Value.cmp_key a.1 b.1 with Eq => (a.2 ?= b.2) | o => o end.

Fixpoint insert_entry (x : entry) (l : list entry) : list entry :=
  match l with
  | [] => [x]
  | y :: l => if entry_cmp x y is Gt then y :: insert_entry x l else x :: y :: l
  end.

Definition sort_entries (entries : list entry) : list entry := foldr insert_entry [] entries.

Definition write_isam_with_cipher (entries : list entry) : result (bytes * Z) :=
  write_isam_sorted (map Ok (sort_entries entries)).
End writer.

(** * Opening *)

Definition read_le (n : nat) : reader Z := λ r,
  '(b, r) ← split_at IoError (Z.of_nat n) r; Ok (le_val b, r).

(** [read_exact] of a nonce where the index is encrypted. *)
Definition read_nonce (encrypted : bool) : reader (option bytes) := λ r,
  if encrypted then '(n, r) ← split_at IoError NONCE_LEN r; Ok (Some n, r) else Ok (None, r).

Definition read_top (encrypted : bool) : reader TopEntry := λ r,
  '(first_key, r) ← read_value r;
  '(offset, r) ← read_le 8 r;
  '(comp_len, r) ← read_le 4 r;
  '(raw_len, r) ← read_le 4 r;
  '(nonce, r) ← read_nonce encrypted r;
  Ok (mkTop first_key offset comp_len raw_len nonce, r).

(** The bytes of a sealed slot, opened where there are a key and a nonce. *)
Definition open_stored (cipher : option FileCipher) (nonce : option bytes) (ordinal : Z) (stored : bytes) : result bytes :=
  match cipher, nonce with
  | Some c, Some n => file_open c (BlockAad.position_only ordinal) n stored
  | _, _ => Ok stored
  end.

Definition open_src (src : bytes) (cipher : option FileCipher) : result IsamReader :=
  let len := zlen src in
  if len <? zlen ISAM_MAGIC + FOOTER_LEN then Err (Bail "isam too short") else
  magic ← read_exact_at src 0 8;
  encrypted ← (if decide (magic = ISAM_MAGIC) then Ok false
               else if decide (magic = ISAM_MAGIC_ENC) then Ok true
               else Err (Bail "bad isam magic") : result bool);
  cipher ← (match encrypted, cipher with
            | true, Some c => Ok (Some c)
            | true, None => Err (Bail "isam index is encrypted but no key was supplied")
            | false, Some _ => Err (Unsealed "isam index")
            | false, None => Ok None
            end : result (option FileCipher));
  let footer_len := if (encrypted : bool) then FOOTER_LEN_ENC else FOOTER_LEN in
  if len <? zlen ISAM_MAGIC + footer_len then Err (Bail "isam too short") else
  footer ← read_exact_at src (len - footer_len) footer_len;
  '(top_offset, fr) ← read_le 8 footer;
  '(top_len, fr) ← read_le 8 fr;
  '(block_count, fr) ← read_le 8 fr;
  '(top_nonce, fr) ← read_nonce encrypted fr;
  if len <? Z.min (top_offset + top_len) (2 ^ 64 - 1) then Err (Bail "isam top-level lies out of the file") else
  _ ← check_stored_len top_len;
  stored_top ← read_exact_at src top_offset top_len;
  top_bytes ← open_stored cipher top_nonce HEADER_ORDINAL stored_top;
  '(top, _) ← read_many (read_top encrypted) block_count top_bytes;
  Ok (mkIsamReader src top cipher).

Definition num_blocks (r : IsamReader) : Z := zlen (top r).

(** * Leaves *)

Definition decompress_block (r : IsamReader) (b : nat) : result bytes :=
  match top r !! b with
  | None => Err (Panic "index out of bounds")
  | Some t =>
      _ ← check_stored_len (comp_len t);
      stored ← read_exact_at (src r) (t_offset t) (comp_len t);
      comp ← open_stored (r_cipher r) (t_nonce t) (Z.of_nat b) stored;
      decompress zstd_decode comp (raw_len t)
  end.

Definition decode_block (raw : bytes) : result (list entry) :=
  '(out, _) ← read_seq read_entry raw; Ok out.

(** A leaf without the cache. *)
Definition load_block (r : IsamReader) (b : nat) : result (list entry) :=
  raw ← decompress_block r b; decode_block raw.
End isam.

(** * The top level reads back *)

Lemma read_le_bytes n z rest : 0 <= z < 2 ^ (8 * Z.of_nat n) → read_le n (le_bytes n z ++ rest) = Ok (z, rest).
Proof.
  intros Hz. unfold read_le. replace (Z.of_nat n) with (zlen (le_bytes n z)) by (unfold zlen; by rewrite length_le_bytes).
  rewrite split_at_app. cbn. by rewrite le_val_bytes.
Qed.

Definition nonce_ok (encrypted : bool) (nonce : option bytes) : Prop :=
  match nonce with Some n => encrypted = true ∧ zlen n = NONCE_LEN | None => encrypted = false end.

Lemma read_nonce_bytes encrypted nonce rest : nonce_ok encrypted nonce →
  read_nonce encrypted (nonce_bytes nonce ++ rest) = Ok (nonce, rest).
Proof. destruct nonce as [n|]; cbn; [|by intros ->]. intros [-> Hn]. unfold read_nonce. rewrite <- Hn. by rewrite split_at_app. Qed.

Record top_ok (encrypted : bool) (t : TopEntry) : Prop := {
  to_key : value_ok (first_key t);
  to_offset : is_u64 (t_offset t);
  to_comp : is_u32 (comp_len t);
  to_raw : is_u32 (raw_len t);
  to_nonce : nonce_ok encrypted (t_nonce t);
}.

Lemma read_le_length n r z r' : read_le n r = Ok (z, r') → (length r' <= length r)%nat.
Proof. unfold read_le. intros H. split_bind. simplify_eq. by eapply split_at_length. Qed.

Lemma read_nonce_length encrypted r x r' : read_nonce encrypted r = Ok (x, r') → (length r' <= length r)%nat.
Proof.
  unfold read_nonce. destruct encrypted; [|intros [= _ <-]; done]. intros H. split_bind. simplify_eq. by eapply split_at_length.
Qed.

#[export] Instance top_codec encrypted : Codec (top_ok encrypted) write_top (read_top encrypted).
Proof.
  constructor.
  - intros r t r' H. unfold read_top in H. split_bind. simplify_eq.
    repeat match goal with
    | H : read_value _ = Ok _ |- _ => apply (consuming (rd := read_value)) in H
    | H : read_le _ _ = Ok _ |- _ => apply read_le_length in H
    | H : read_nonce _ _ = Ok _ |- _ => apply read_nonce_length in H
    end. lia.
  - intros [k off comp raw nonce] rest [Hk Ho Hc Hr Hn]. cbn in *. unfold write_top, read_top. cbn [first_key t_offset comp_len raw_len t_nonce].
    rewrite <- !app_assoc, (codec_roundtrip (wr := write_value)) by done. cbn [mbind result_bind].
    rewrite read_le_bytes by done. cbn [mbind result_bind]. rewrite read_le_bytes by done. cbn [mbind result_bind].
    rewrite read_le_bytes by done. cbn [mbind result_bind]. by rewrite (read_nonce_bytes encrypted nonce rest).
Qed.

Definition entry_ok (e : entry) : Prop := value_ok e.1 ∧ is_u64 e.2.

#[export] Instance entry_codec : Codec entry_ok write_entry read_entry.
Proof. unfold entry_ok, write_entry, read_entry. apply _. Qed.

Lemma write_entry_spec k id : write_entry (k, id) = write_value k ++ write_uvarint id.
Proof. done. Qed.

Lemma decode_written c : fits c → Forall entry_ok c → decode_block (write_seq write_entry c) = Ok c.
Proof.
  intros Hf Hc. unfold decode_block. rewrite <- (app_nil_r (write_seq write_entry c)).
  rewrite (codec_roundtrip (Codec := seq_codec entry_codec)) by done. done.
Qed.


(** * A written index opens *)

(** What the readers of an index need of it: it was cut into leaves, none of them empty, which
    load, and whose first keys are the top level. *)
Definition leaves_of (tops : list TopEntry) (block : nat → result (list entry)) (leaves : list (list entry)) : Prop :=
  length tops = length leaves ∧
  ∀ b c, leaves !! b = Some c → block b = Ok c ∧ c ≠ [] ∧ first_key <$> tops !! b = fst <$> head c.

Section roundtrip.
Context {crypto : Crypto} {crypto_laws : CryptoLaws}.
Variable zstd_encode_all : bytes → Z → result bytes.
Variable zstd_decode : bytes → list bytes * bool.
Variable random_nonce : nat → bytes.
Variables (target zstd_level : Z) (cipher : option FileCipher).
Hypothesis lossless : zstd_lossless zstd_encode_all zstd_decode.
(** [ZSTD_compressBound]. *)
Hypothesis bounded : ∀ raw level comp, zstd_encode_all raw level = Ok comp → zlen comp <= zlen raw + zlen raw / 256 + 64.
Hypothesis nonce_length : ∀ i, zlen (random_nonce i) = NONCE_LEN.
Hypothesis target_usize : 0 <= target.

Local Abbreviation encrypted := (if cipher then true else false) (only parsing).
Local Abbreviation isam_magic := (if cipher then ISAM_MAGIC_ENC else ISAM_MAGIC) (only parsing).
Local Abbreviation seal_slot := (seal_stored cipher) (only parsing).
Local Abbreviation flush := (flush_isam_block zstd_encode_all random_nonce zstd_level cipher) (only parsing).
Local Abbreviation push := (push_entry zstd_encode_all random_nonce target zstd_level cipher) (only parsing).

(** An entry that leaves its leaf within what a reader accepts. *)
Definition entry_fits (e : entry) : Prop := entry_ok e ∧ target + zlen (write_entry e) + 10 <= 2 ^ 30.

Lemma seal_open ordinal nonce plain stored n : seal_slot ordinal nonce plain = Ok (stored, n) → zlen nonce = NONCE_LEN →
  open_stored cipher n ordinal stored = Ok plain ∧ nonce_ok encrypted n ∧ zlen plain <= zlen stored <= zlen plain + 16.
Proof.
  unfold seal_stored, open_stored, file_seal, file_open. destruct cipher as [c|].
  - destruct (aead_encrypt _ _ _ _) as [ct|] eqn:E; [|done]. cbn. intros [= <- <-] Hn. cbn.
    rewrite (aead_open _ _ _ _ _ E). pose proof (aead_length _ _ _ _ _ E). split_and!; [done..|lia|lia].
  - intros [= <- <-] _. split_and!; [done..|lia|lia].
Qed.

Lemma read_at_app pre s post : read_exact_at (pre ++ s ++ post) (zlen pre) (zlen s) = Ok s.
Proof.
  unfold read_exact_at. rewrite !zlen_app. pose proof (zlen_nonneg post).
  destruct (Z.ltb_spec (zlen pre + (zlen s + zlen post)) (zlen pre + zlen s)); [lia|].
  unfold zlen. rewrite !Nat2Z.id, drop_app_length. by rewrite take_app_length.
Qed.

(** A leaf, wherever in the file more follows. *)
Record leaf_reads (file : bytes) (t : TopEntry) (b : nat) (c : list entry) : Prop := {
  lr_nonempty : c ≠ [];
  lr_entries : Forall entry_ok c;
  lr_first : Some (first_key t) = fst <$> head c;
  lr_offset : 0 <= t_offset t <= zlen file;
  lr_comp : is_u32 (comp_len t);
  lr_raw : is_u32 (raw_len t);
  lr_nonce : nonce_ok encrypted (t_nonce t);
  lr_load : ∀ post tops, tops !! b = Some t →
    load_block zstd_decode (mkIsamReader (file ++ post) tops cipher) b = Ok c;
}.

Lemma leaf_reads_grow file more t b c : leaf_reads file t b c → leaf_reads (file ++ more) t b c.
Proof.
  intros []. split; try done.
  - rewrite zlen_app. pose proof (zlen_nonneg more). lia.
  - intros post tops Hb. rewrite <- app_assoc. by apply lr_load0.
Qed.

(** The leaves written so far, and the entries of the open one. *)
Record writer_ok (st : IsamWriter) (leaves : list (list entry)) (open : list entry) : Prop := {
  wo_magic : ∃ rest, iw_file st = isam_magic ++ rest;
  wo_offset : iw_offset st = zlen (iw_file st);
  wo_length : length (iw_tops st) = length leaves;
  wo_leaves : ∀ b t c, iw_tops st !! b = Some t → leaves !! b = Some c → leaf_reads (iw_file st) t b c;
  wo_count : iw_count st = zlen open;
  wo_body : iw_body st = concat (map write_entry open);
  wo_first : iw_first st = fst <$> head open;
  wo_open : Forall entry_ok open;
}.

Lemma entries_length (l : list entry) : Forall entry_ok l → zlen l <= zlen (concat (map write_entry l)).
Proof.
  induction 1 as [|e l He Hl IH]; cbn; [done|]. rewrite zlen_cons, zlen_app.
  pose proof (codec_nonempty (wr := write_entry) e He). unfold zlen in *. lia.
Qed.

(** The leaf a flush writes. *)
Lemma flush_leaf st leaves open first st' : writer_ok st leaves open → open ≠ [] →
  zlen (iw_body st) + 10 <= 2 ^ 30 → iw_first st = Some first → flush first st = Ok st' →
  writer_ok st' (leaves ++ [open]) [].
Proof.
  intros [[rest Hm] Ho Hl Hlv Hc Hb Hf Hop] Hne Hsz Hfirst. unfold flush_isam_block.
  set (raw := write_uvarint (iw_count st) ++ iw_body st).
  destruct (compress zstd_encode_all raw zstd_level) as [comp|] eqn:Ec; [|done]. cbn [mbind result_bind].
  destruct (seal_stored cipher (Z.of_nat (length (iw_tops st))) _ comp) as [[stored nonce]|] eqn:Es; [|done].
  cbn [mbind result_bind]. intros [= <-].
  destruct (seal_open _ _ _ _ _ Es (nonce_length _)) as (Hopen & Hnonce & Hslen).
  assert (raw = write_seq write_entry open) as Eraw by (unfold raw, write_seq; by rewrite Hc, Hb).
  pose proof (entries_length open Hop) as Hcl. rewrite <- Hb in Hcl. pose proof (zlen_nonneg open).
  assert (is_u64 (iw_count st)) as Hcu by (rewrite Hc; unfold is_u64; lia).
  assert (0 <= zlen raw <= 2 ^ 30) as Hraw.
  { unfold raw. rewrite zlen_app, zlen_write_uvarint by done. pose proof (zlen_nonneg (iw_body st)).
    assert (0 <= uvarint_len (iw_count st) <= 10) by (destruct (uvarint_roundtrip (iw_count st) [] Hcu); lia). lia. }
  pose proof (bounded _ _ _ Ec) as Hbd. assert (zlen raw / 256 <= 2 ^ 22) by (apply Z.div_le_upper_bound; lia).
  assert (0 <= zlen stored < 2 ^ 31) as Hst by (pose proof (zlen_nonneg stored); lia).
  split; cbn [iw_offset iw_file iw_tops iw_count iw_body iw_first]; try done.
  - exists (rest ++ stored). by rewrite Hm, app_assoc.
  - by rewrite zlen_app, Ho.
  - by rewrite !length_app, Hl.
  - intros b t c Ht Hcb. apply lookup_app_Some in Ht as [Ht|[Hge Ht]].
    + apply lookup_lt_Some in Ht as Hlt. rewrite lookup_app_l in Hcb by lia. by apply leaf_reads_grow, Hlv.
    + apply list_lookup_singleton_Some in Ht as [Hz <-]. assert (b = length (iw_tops st)) as -> by lia.
      rewrite lookup_app_r, Hl, Nat.sub_diag in Hcb by lia. injection Hcb as <-.
      assert (as_u32 (zlen stored) = zlen stored ∧ as_u32 (zlen raw) = zlen raw) as [E1 E2].
      { unfold as_u32. rewrite !Z.mod_small by lia. done. }
      split; cbn [first_key t_offset comp_len raw_len t_nonce]; rewrite ?E1, ?E2; try done.
      * congruence.
      * rewrite Ho, zlen_app. pose proof (zlen_nonneg (iw_file st)). lia.
      * unfold is_u32. lia.
      * unfold is_u32. lia.
      * intros post tops Ht. unfold load_block, decompress_block. cbn [top src r_cipher]. rewrite Ht.
        cbn [first_key t_offset comp_len raw_len t_nonce]. unfold check_stored_len.
        change MAX_BLOCK_BYTES with (2 ^ 31). rewrite (proj2 (Z.ltb_ge _ _)) by lia. cbn [mbind result_bind].
        rewrite Ho, <- app_assoc, read_at_app. cbn [mbind result_bind]. rewrite Hopen. cbn [mbind result_bind].
        rewrite (compress_decompress _ _ raw zstd_level comp lossless) by (done || change MAX_BLOCK_BYTES with (2 ^ 31); lia).
        cbn [mbind result_bind]. rewrite Eraw. apply decode_written; [unfold fits; lia|done].
Qed.

Lemma push_leaves st leaves open e st' : writer_ok st leaves open → zlen (iw_body st) <= target → entry_fits e →
  push st (Ok e) = Ok st' → ∃ leaves' open', writer_ok st' leaves' open' ∧ zlen (iw_body st') <= target ∧
    concat leaves' ++ open' = (concat leaves ++ open) ++ [e].
Proof.
  intros Hst Hsz [He Hfit]. destruct e as [k id]. unfold push_entry. cbn [mbind result_bind].
  set (first := match iw_first st with Some f => f | None => k end).
  set (st1 := mkIsamWriter _ _ _ _ _ _).
  assert (writer_ok st1 leaves (open ++ [(k, id)])) as Hst1.
  { destruct Hst as [Hm Ho Hl Hlv Hc Hb Hf Hop]. split; cbn [st1 iw_file iw_offset iw_tops iw_count iw_body iw_first]; try done.
    - rewrite zlen_app, Hc. done.
    - rewrite map_app, concat_app, Hb. cbn [map concat]. by rewrite app_nil_r.
    - unfold first. rewrite Hf. by destruct open as [|[]].
    - apply Forall_app. split; [done|]. by apply Forall_singleton. }
  assert (zlen (iw_body st1) = zlen (iw_body st) + zlen (write_entry (k, id))) as Hlen by apply zlen_app.
  destruct (Z.leb_spec target (zlen (iw_body st1))) as [Hge|Hlt].
  - intros Hfl. exists (leaves ++ [open ++ [(k, id)]]), [].
    pose proof (flush_leaf st1 leaves (open ++ [(k, id)]) first st' Hst1 ltac:(by destruct open) ltac:(lia) eq_refl Hfl) as Hw.
    split; [done|]. split; [by rewrite (wo_body _ _ _ Hw)|]. rewrite concat_app. cbn. by rewrite !app_nil_r, <- app_assoc.
  - intros [= <-]. exists leaves, (open ++ [(k, id)]). split; [done|]. split; [lia|]. by rewrite app_assoc.
Qed.

Lemma leaves_written es st : Forall entry_fits es →
  write_leaves zstd_encode_all random_nonce target zstd_level cipher (map Ok es) = Ok st →
  ∃ leaves, writer_ok st leaves [] ∧ concat leaves = es.
Proof.
  intros Hes. unfold write_leaves.
  assert (∀ st0 leaves open st1, writer_ok st0 leaves open → zlen (iw_body st0) <= target → Forall entry_fits es →
    push_entries zstd_encode_all random_nonce target zstd_level cipher st0 (map Ok es) = Ok st1 →
    ∃ leaves' open', writer_ok st1 leaves' open' ∧ zlen (iw_body st1) <= target ∧
      concat leaves' ++ open' = (concat leaves ++ open) ++ es) as Hloop.
  { clear Hes. induction es as [|e es IH]; intros st0 leaves open st1 H0 Hsz Hes; cbn [map push_entries].
    - intros [= <-]. exists leaves, open. by rewrite app_nil_r.
    - apply Forall_cons in Hes as [He Hes].
      destruct (push_entry _ _ _ _ _ st0 (Ok e)) as [st2|] eqn:E; [|done]. cbn [mbind result_bind]. intros Hrun.
      destruct (push_leaves st0 leaves open e st2 H0 Hsz He E) as (l2 & o2 & H2 & Hs2 & E2).
      destruct (IH st2 l2 o2 st1 H2 Hs2 Hes Hrun) as (l3 & o3 & H3 & Hs3 & E3). exists l3, o3. split_and!; [done..|].
      by rewrite E3, E2, <- app_assoc. }
  destruct (push_entries _ _ _ _ _ _ _) as [st1|] eqn:E; [|done]. cbn [mbind result_bind].
  destruct (Hloop (isam_start cipher) [] [] st1) as (leaves & open & Hst & Hsz & Ec); try done.
  { split; cbn; try done. exists []. by rewrite app_nil_r. }
  cbn in Ec. destruct (Z.ltb_spec 0 (iw_count st1)) as [Hc|Hc]; rewrite (wo_count _ _ _ Hst) in Hc.
  - destruct (iw_first st1) as [first|] eqn:Ef; [|done]. intros Hfl.
    assert (open ≠ []) as Hne by by intros ->. exists (leaves ++ [open]). rewrite concat_app. cbn. rewrite app_nil_r. split; [|done].
    eapply flush_leaf; try done. assert (target <= 2 ^ 30 - 10) as Ht; [|lia].
    destruct es as [|e es]; [by apply app_eq_nil in Ec as [_ ?]|]. apply Forall_cons in Hes as [[_ He] _]. pose proof (zlen_nonneg (write_entry e)). lia.
  - intros [= <-]. assert (open = []) as -> by (destruct open; [done|]; rewrite zlen_cons in Hc; pose proof (zlen_nonneg open); lia).
    exists leaves. by rewrite app_nil_r in Ec.
Qed.

(** Opening an image, from its parts. *)
Lemma open_parts file tops stored_top nonce rest : file = isam_magic ++ rest →
  open_stored cipher nonce HEADER_ORDINAL stored_top = Ok (concat (map write_top tops)) → nonce_ok encrypted nonce →
  Forall (top_ok encrypted) tops → zlen stored_top <= MAX_BLOCK_BYTES →
  let img := file ++ stored_top ++ le_bytes 8 (zlen file) ++ le_bytes 8 (zlen stored_top) ++ le_bytes 8 (zlen tops)
               ++ nonce_bytes nonce in
  fits img → zlen tops < 2 ^ 64 → open_src img cipher = Ok (mkIsamReader img tops cipher).
Proof.
  intros Hfile Hopen Hnonce Htops Hsmall img Hfits Hn. change MAX_BLOCK_BYTES with (2 ^ 31) in Hsmall.
  set (footer := le_bytes 8 (zlen file) ++ le_bytes 8 (zlen stored_top) ++ le_bytes 8 (zlen tops) ++ nonce_bytes nonce).
  pose proof (zlen_nonneg file). pose proof (zlen_nonneg stored_top). pose proof (zlen_nonneg tops). pose proof (zlen_nonneg rest).
  assert (zlen footer = if encrypted then FOOTER_LEN_ENC else FOOTER_LEN) as Hfl.
  { unfold footer. rewrite !zlen_app. unfold zlen at 1 2 3. rewrite !length_le_bytes. unfold nonce_ok in Hnonce.
    destruct nonce as [n|], cipher; cbn in *; try lia; destruct Hnonce as [? ->]; done. }
  assert (zlen isam_magic = 8) as Hml by by destruct cipher.
  assert (zlen img = zlen file + zlen stored_top + zlen footer) as Hlen by (unfold img; rewrite !zlen_app; fold footer; unfold footer; rewrite !zlen_app; lia).
  assert (zlen file = 8 + zlen rest) as Hfl8 by (rewrite Hfile, zlen_app; lia).
  unfold open_src. change (zlen ISAM_MAGIC) with 8.
  assert (24 <= zlen footer) as Hf24 by (rewrite Hfl; destruct cipher; done).
  rewrite (proj2 (Z.ltb_ge _ _)) by (unfold FOOTER_LEN; lia).
  assert (img = file ++ stored_top ++ footer) as Eimg by done. clearbody img.
  assert (read_exact_at img 0 8 = Ok isam_magic) as ->.
  { pose proof (read_at_app [] isam_magic (rest ++ stored_top ++ footer)) as E. rewrite Hml in E. rewrite <- E. f_equal.
    rewrite Eimg, Hfile. clearbody footer. by rewrite <- app_assoc. }
  assert (read_exact_at img (zlen img - zlen footer) (zlen footer) = Ok footer) as Hfoot.
  { pose proof (read_at_app (file ++ stored_top) footer []) as E. rewrite <- E. f_equal; [|rewrite zlen_app; lia].
    rewrite Eimg, app_nil_r. clearbody footer. by rewrite <- app_assoc. }
  assert (read_exact_at img (zlen file) (zlen stored_top) = Ok stored_top) as Hstored by (rewrite Eimg; apply read_at_app).
  cbn [mbind result_bind].
  assert ((if decide (isam_magic = ISAM_MAGIC) then Ok false
           else if decide (isam_magic = ISAM_MAGIC_ENC) then Ok true else Err (Bail "bad isam magic")) = Ok encrypted) as ->
    by by destruct cipher.
  cbn [mbind result_bind].
  assert (match encrypted, cipher with
          | true, Some c => Ok (Some c)
          | true, None => Err (Bail "isam index is encrypted but no key was supplied")
          | false, Some _ => Err (Unsealed "isam index")
          | false, None => Ok None
          end = Ok cipher) as -> by by destruct cipher.
  cbn [mbind result_bind]. rewrite <- Hfl. rewrite (proj2 (Z.ltb_ge _ _)) by lia. rewrite Hfoot. cbn [mbind result_bind].
  unfold footer. do 3 (rewrite read_le_bytes by (unfold fits in *; cbn; lia); cbn [mbind result_bind]).
  rewrite <- (app_nil_r (nonce_bytes nonce)), (read_nonce_bytes encrypted nonce []) by done. cbn [mbind result_bind].
  unfold fits in Hfits. rewrite (proj2 (Z.ltb_ge _ _)) by lia. unfold check_stored_len. change MAX_BLOCK_BYTES with (2 ^ 31).
  rewrite (proj2 (Z.ltb_ge _ _)) by lia. cbn [mbind result_bind]. rewrite Hstored. cbn [mbind result_bind].
  rewrite Hopen. cbn [mbind result_bind]. rewrite <- (app_nil_r (concat _)), (codec_many_roundtrip (wf := top_ok encrypted)) by done.
  done.
Qed.
(** The top level fits what a reader accepts. *)
Definition top_fits (es : list entry) : Prop := ∀ st,
  write_leaves zstd_encode_all random_nonce target zstd_level cipher (map Ok es) = Ok st →
  zlen (top_bytes st) + 16 <= MAX_BLOCK_BYTES.

Lemma isam_opens es img n : Forall entry_fits es → top_fits es →
  write_isam_sorted zstd_encode_all random_nonce target zstd_level cipher (map Ok es) = Ok (img, n) → fits img →
  ∃ r leaves, open_src img cipher = Ok r ∧ leaves_of (top r) (load_block zstd_decode r) leaves ∧ concat leaves = es ∧
    n = zlen leaves.
Proof.
  intros Hes Htf. unfold write_isam_sorted.
  destruct (write_leaves _ _ _ _ _ _) as [st|] eqn:El; [|done]. specialize (Htf st El). cbn [mbind result_bind].
  destruct (leaves_written es st Hes El) as (leaves & [[rest Hm] Ho Hl Hlv _ _ _ _] & Hc).
  destruct (seal_stored cipher HEADER_ORDINAL _ _) as [[stored nonce]|] eqn:Es; [|done]. cbn [mbind result_bind].
  destruct (seal_open _ _ _ _ _ Es (nonce_length _)) as (Hopen & Hnonce & Hslen). intros [= <- <-] Hfits. rewrite Ho in *.
  assert (∀ b t, iw_tops st !! b = Some t → ∃ c, leaves !! b = Some c ∧ leaf_reads (iw_file st) t b c) as Hat.
  { intros b t Ht. destruct (lookup_lt_is_Some_2 leaves b) as [c Hcb]; [rewrite <- Hl; by eapply lookup_lt_Some|].
    exists c. split; [done|by apply Hlv]. }
  assert (zlen (iw_file st) < 2 ^ 63) as Hsz.
  { eapply Z.le_lt_trans; [|exact Hfits]. rewrite zlen_app. rewrite <- (Z.add_0_r (zlen (iw_file st))) at 1. apply Z.add_le_mono_l, zlen_nonneg. }
  assert (Forall (top_ok encrypted) (iw_tops st)) as Htops.
  { apply Forall_lookup. intros b t Ht. destruct (Hat b t Ht) as (c & _ & [Hne He Hf Hoff Hcomp Hraw Hnn _]).
    destruct c as [|[k id] c]; [done|]. apply Forall_cons in He as [[He _] _]. injection Hf as Hf.
    split; try done; [by rewrite Hf|]. unfold is_u64. lia. }
  assert (zlen (iw_tops st) <= zlen (top_bytes st)) as Htl.
  { unfold top_bytes. clear -Htops. induction Htops as [|t ts Ht Hts IH]; cbn; [done|]. rewrite zlen_cons, zlen_app.
    pose proof (codec_nonempty (wr := write_top) t Ht). unfold zlen in *. lia. }
  change MAX_BLOCK_BYTES with (2 ^ 31) in Htf.
  exists (mkIsamReader (iw_file st ++ stored ++ le_bytes 8 (zlen (iw_file st)) ++ le_bytes 8 (zlen stored) ++
    le_bytes 8 (zlen (iw_tops st)) ++ nonce_bytes nonce) (iw_tops st) cipher), leaves.
  split; [eapply open_parts; try done; [change MAX_BLOCK_BYTES with (2 ^ 31); lia|lia]|]. split_and!; [|done|unfold zlen; by rewrite Hl].
  split; [done|]. intros b c Hcb. destruct (lookup_lt_is_Some_2 (iw_tops st) b) as [t Ht]; [rewrite Hl; by eapply lookup_lt_Some|].
  destruct (Hlv b t c Ht Hcb) as [Hne _ Hf _ _ _ _ Hload]. split_and!; [by apply Hload|done|]. cbn [top]. rewrite Ht. done.
Qed.
End roundtrip.
