(* ===== verification/IsamLookup.v ===== *)
(** The lookups of the sorted range index, of [graph-format/src/isam.rs]: equality, a sweep of
    many keys, a range, and the counts of the distinct keys.

    They read the resident top level and the leaves.  A leaf is an argument [block], which is
    [load_block] of [Isam] or the same through the cache of [IsamCache]. *)

From S2P Require Import Prelude Values ValueOrder Wire Crypto BlockCodec Isam Memtable SnapshotRead Statement KeyProbe.

Definition below_key (key : Value.t) (e : entry) : bool := bool_decide (Value.cmp_key e.1 key = Lt).
Definition is_key (key : Value.t) (e : entry) : bool := bool_decide (Value.cmp_key e.1 key = Eq).

(** [while i < entries.len() && entries[i].0.cmp_key(key) == Equal]. *)
Fixpoint equal_run (key : Value.t) (l : list entry) : list Z :=
  match l with
  | [] => []
  | e :: l => if is_key key e then e.2 :: equal_run key l else []
  end.

(** What one leaf contributes to an equality lookup, and whether it starts on the key. *)
Definition leaf_run (key : Value.t) (entries : list entry) : list Z :=
  equal_run key (drop (partition_point (below_key key) entries) entries).

Definition first_is_key (key : Value.t) (entries : list entry) : bool :=
  match head entries with Some e => is_key key e | None => false end.

(** [sort_unstable] of ids. *)
Definition sort_ids (ids : list Z) : list Z := merge_sort Z.le ids.

Section lookups.
Variable tops : list TopEntry.
Variable block : nat → result (list entry).

(** * Equality *)

(** The loop from block [b] downwards. *)
Fixpoint eq_walk (key : Value.t) (b : nat) (out : list Z) : result (list Z) :=
  entries ← block b;
  let out := out ++ leaf_run key entries in
  match first_is_key key entries, b with
  | true, S b => eq_walk key b out
  | _, _ => Ok out
  end.

(** The number of blocks whose first key is at most [key]. *)
Definition blocks_upto (key : Value.t) : nat :=
  partition_point (λ t, negb (bool_decide (Value.cmp_key (first_key t) key = Gt))) tops.

Definition lookup_eq (key : Value.t) : result (list Z) :=
  if tops is [] then Ok []
  else match blocks_upto key with
       | O => Ok []
       | S b => out ← eq_walk key b []; Ok (sort_ids out)
       end.

(** The loop of the sweep, with the leaf it decoded last. *)
Fixpoint sweep_walk (key : Value.t) (b : nat) (memo : option (nat * list entry)) (out : list Z) :
    result (list Z * option (nat * list entry)) :=
  entries ← (match memo with
             | Some (mb, e) => if decide (b = mb) then Ok e else block b
             | None => block b
             end);
  let memo := Some (b, entries) in
  let out := out ++ leaf_run key entries in
  match first_is_key key entries, b with
  | true, S b => sweep_walk key b memo out
  | _, _ => Ok (out, memo)
  end.

Fixpoint sweep (keys : list Value.t) (memo : option (nat * list entry)) : result (list (list Z)) :=
  match keys with
  | [] => Ok []
  | key :: keys =>
      '(ids, memo) ← (match blocks_upto key with
                      | O => Ok ([], memo)
                      | S b => '(out, memo) ← sweep_walk key b memo []; Ok (sort_ids out, memo)
                      end);
      rest ← sweep keys memo;
      Ok (ids :: rest)
  end.

Definition lookup_eq_sorted (keys : list Value.t) : result (list (list Z)) :=
  if tops is [] then Ok (map (λ _, []) keys) else sweep keys None.

(** * Ranges *)

Section range.
Variables (lo : option Value.t) (lo_inclusive : bool) (hi : option Value.t) (hi_inclusive : bool).

Definition past_hi (k : Value.t) : bool :=
  match hi with
  | None => false
  | Some hi => match Value.cmp_key k hi with Gt => true | Eq => negb hi_inclusive | Lt => false end
  end.

Definition before_lo (e : entry) : bool :=
  match lo with
  | None => false
  | Some lo => match Value.cmp_key e.1 lo with Lt => true | Eq => negb lo_inclusive | Gt => false end
  end.

(** The first block that may hold the lower bound. *)
Definition range_start : nat :=
  match lo with
  | None => O
  | Some lo => (partition_point (λ t, bool_decide (Value.cmp_key (first_key t) lo = Lt)) tops - 1)%nat
  end.

(** The loop over a leaf: the ids up to the upper bound, and whether it was passed. *)
Fixpoint range_leaf (l : list entry) (out : list Z) : list Z * bool :=
  match l with
  | [] => (out, false)
  | e :: l => if past_hi e.1 then (out, true) else range_leaf l (out ++ [e.2])
  end.

Fixpoint range_blocks (ts : list TopEntry) (b : nat) (out : list Z) : result (list Z) :=
  match ts with
  | [] => Ok out
  | t :: ts =>
      if past_hi (first_key t) then Ok out
      else
        entries ← block b;
        let begin := partition_point before_lo entries in
        let '(out, stop) := range_leaf (drop begin entries) out in
        if stop : bool then Ok out else range_blocks ts (S b) out
  end.

Definition lookup_range : result (list Z) :=
  if tops is [] then Ok []
  else out ← range_blocks (drop range_start tops) range_start []; Ok (sort_dedup_ids out).
End range.

(** * Counts *)

(** One more entry; the counts are held last first. *)
Definition count_entry (max_distinct : Z) (e : entry) (out : list (Value.t * Z)) : option (list (Value.t * Z)) :=
  match out with
  | (prev, n) :: rest =>
      if bool_decide (Value.cmp_key prev e.1 = Eq) then Some ((prev, n + 1) :: rest)
      else if max_distinct <=? zlen out then None else Some ((e.1, 1) :: out)
  | [] => if max_distinct <=? 0 then None else Some [(e.1, 1)]
  end.

Fixpoint count_entries (max_distinct : Z) (l : list entry) (out : list (Value.t * Z)) : option (list (Value.t * Z)) :=
  match l with
  | [] => Some out
  | e :: l => out ← count_entry max_distinct e out; count_entries max_distinct l out
  end.

Fixpoint count_blocks (max_distinct : Z) (n b : nat) (out : list (Value.t * Z)) : result (option (list (Value.t * Z))) :=
  match n with
  | O => Ok (Some (rev out))
  | S n =>
      entries ← block b;
      match count_entries max_distinct entries out with
      | None => Ok None
      | Some out => count_blocks max_distinct n (S b) out
      end
  end.

Definition distinct_key_counts_bounded (max_distinct : Z) : result (option (list (Value.t * Z))) :=
  count_blocks max_distinct (length tops) 0 [].

Definition distinct_key_counts : result (list (Value.t * Z)) :=
  counts ← distinct_key_counts_bounded (2 ^ 64 - 1);
  match counts with
  | Some counts => Ok counts
  | None => Err (Panic "an unbounded count never abandons")
  end.
End lookups.

(** * Sorted leaves *)

Definition entry_le (a b : entry) : Prop := Value.cmp_key a.1 b.1 ≠ Gt.
Definition exact_entry (e : entry) : Prop := exact e.1.

(** Three exact values compare like three integers. *)
Ltac compare_as_ints a b c :=
  let p := fresh "p" in let q := fresh "q" in let r := fresh "r" in
  let E1 := fresh "E" in let E2 := fresh "E" in let E3 := fresh "E" in
  destruct (cmp_key_consistent a b c) as (p & q & r & E1 & E2 & E3); [done..|];
  rewrite ?E1, ?E2, ?E3 in *; rewrite ?Z.compare_eq_iff, ?Z.compare_lt_iff, ?Z.compare_gt_iff, ?Z.compare_ngt_iff in *.

(** A sorted run of entries lies below a key, then on it, then above it. *)
Lemma key_zones key l : exact key → Forall exact_entry l → StronglySorted entry_le l →
  ∃ lo mid hi, l = lo ++ mid ++ hi ∧ Forall (λ e, Value.cmp_key e.1 key = Lt) lo ∧
    Forall (λ e, Value.cmp_key e.1 key = Eq) mid ∧ Forall (λ e, Value.cmp_key e.1 key = Gt) hi.
Proof.
  intros Hk Hl. induction 1 as [|e l Hs IH He]; [by exists [], [], []|].
  apply Forall_cons in Hl as [Hex Hl]. destruct (IH Hl) as (lo & mid & hi & -> & Hlo & Hmid & Hhi).
  assert (∀ x, x ∈ lo ++ mid ++ hi → exact x.1 ∧ entry_le e x) as Hx.
  { intros x Hin. rewrite Forall_forall in Hl, He. split; [by apply Hl|by apply He]. }
  destruct (Value.cmp_key e.1 key) eqn:E.
  - assert (lo = []) as ->.
    { destruct lo as [|x lo]; [done|]. apply Forall_cons in Hlo as [Hlt _]. destruct (Hx x) as [Hxe Hle]; [by left|].
      unfold entry_le in Hle. compare_as_ints e.1 x.1 key. lia. }
    exists [], (e :: mid), hi. by repeat constructor.
  - exists (e :: lo), mid, hi. by repeat constructor.
  - assert (lo = []) as ->.
    { destruct lo as [|x lo]; [done|]. apply Forall_cons in Hlo as [Hlt _]. destruct (Hx x) as [Hxe Hle]; [by left|].
      unfold entry_le in Hle. compare_as_ints e.1 x.1 key. lia. }
    assert (mid = []) as ->.
    { destruct mid as [|x mid]; [done|]. apply Forall_cons in Hmid as [Heq _]. destruct (Hx x) as [Hxe Hle]; [by left|].
      unfold entry_le in Hle. compare_as_ints e.1 x.1 key. lia. }
    exists [], [], (e :: hi). by repeat constructor.
Qed.

Lemma partition_point_app {A} (p : A → bool) l k : Forall (λ x, p x = true) l →
  match k with x :: _ => p x = false | [] => True end → partition_point p (l ++ k) = length l.
Proof.
  intros Hl Hk. induction Hl as [|x l Hx Hl IH]; cbn; [|by rewrite Hx, IH].
  destruct k as [|x k]; cbn; [done|by rewrite Hk].
Qed.

(** What the leaf contributes is what a scan of it finds. *)
Lemma leaf_run_scan key l : exact key → Forall exact_entry l → StronglySorted entry_le l →
  leaf_run key l = map snd (filter (λ e, Value.cmp_key e.1 key = Eq) l).
Proof.
  intros Hk Hl Hs. destruct (key_zones key l Hk Hl Hs) as (lo & mid & hi & -> & Hlo & Hmid & Hhi).
  unfold leaf_run. rewrite partition_point_app.
  - rewrite drop_app_length, !filter_app.
    assert (filter (λ e, Value.cmp_key e.1 key = Eq) lo = []) as ->.
    { clear -Hlo. induction Hlo as [|e lo He Hlo IH]; [done|]. rewrite filter_cons_False by congruence. done. }
    assert (filter (λ e, Value.cmp_key e.1 key = Eq) hi = [] ∧ equal_run key hi = []) as [-> Eh].
    { split; [|destruct Hhi as [|e hi He Hhi]; cbn; [done|]; unfold is_key; by rewrite He].
      clear -Hhi. induction Hhi as [|e hi He Hhi IH]; [done|]. rewrite filter_cons_False by congruence. done. }
    rewrite app_nil_r. cbn [app]. clear -Hmid Eh. induction Hmid as [|e mid He Hmid IH]; [done|].
    rewrite filter_cons_True by done. cbn [app equal_run map]. unfold is_key at 1. rewrite He. cbn [bool_decide]. by rewrite IH.
  - eapply Forall_impl; [exact Hlo|]. intros e He. unfold below_key. by rewrite He.
  - destruct mid as [|e mid]; cbn.
    + destruct hi as [|e hi]; [done|]. apply Forall_cons in Hhi as [He _]. unfold below_key. by rewrite He.
    + apply Forall_cons in Hmid as [He _]. unfold below_key. by rewrite He.
Qed.

Lemma partition_point_spec {A} (p : A → bool) l :
  Forall (λ x, p x = true) (take (partition_point p l) l) ∧
  ∀ x, l !! partition_point p l = Some x → p x = false.
Proof.
  induction l as [|x l IH]; cbn; [by split|]. destruct (p x) eqn:E; cbn; [|split; [constructor|by intros ? [= <-]]].
  destruct IH as [IH1 IH2]. split; [by constructor|done].
Qed.

Lemma sort_ids_sorted l : StronglySorted Z.le (sort_ids l).
Proof. unfold sort_ids. apply StronglySorted_merge_sort; [intros x y z; lia|intros x y; lia]. Qed.

(** Sorting forgets the order of what is sorted. *)
Lemma sort_ids_perm l k : l ≡ₚ k → sort_ids l = sort_ids k.
Proof.
  intros H. apply (StronglySorted_unique Z.le); [apply sort_ids_sorted..|].
  unfold sort_ids. by rewrite !merge_sort_Permutation.
Qed.

(** The test for an empty index only saves work. *)
Lemma lookup_eq_blocks tops block key : lookup_eq tops block key =
  match blocks_upto tops key with
  | O => Ok []
  | S b => out ← eq_walk block key b []; Ok (sort_ids out)
  end.
Proof. by destruct tops. Qed.

Lemma sort_dedup_sorted l : StronglySorted Z.lt (sort_dedup_ids l).
Proof.
  unfold sort_dedup_ids. pose proof (sort_ids_sorted l) as H. unfold sort_ids in H. revert H. generalize (merge_sort Z.le l).
  clear l. induction 1 as [|x l Hs IH Hx]; [constructor|]. destruct l as [|y l]; [by repeat constructor|].
  change (dedup (x :: y :: l)) with (if decide (x = y) then dedup (y :: l) else x :: dedup (y :: l)).
  destruct (decide (x = y)) as [->|Hne]; [done|]. constructor; [done|]. apply Forall_forall. intros z Hz. rewrite elem_of_dedup in Hz.
  apply Forall_cons in Hx as [Hxy _]. apply StronglySorted_cons in Hs as [Hy _]. apply elem_of_cons in Hz as [->|Hz]; [lia|].
  rewrite Forall_forall in Hy. specialize (Hy z Hz). lia.
Qed.

Lemma lookup_range_blocks tops block lo li hi hinc : lookup_range tops block lo li hi hinc =
  out ← range_blocks block lo li hi hinc (drop (range_start tops lo) tops) (range_start tops lo) []; Ok (sort_dedup_ids out).
Proof. destruct tops; [|done]. unfold lookup_range. by rewrite drop_nil. Qed.

(** ** The sweep

    It answers each key as a lookup of its own: the leaf it remembers is the leaf it would
    read. *)

Definition memo_ok (block : nat → result (list entry)) (memo : option (nat * list entry)) : Prop :=
  ∀ b e, memo = Some (b, e) → block b = Ok e.

Lemma sweep_walk_agrees block key b memo out : memo_ok block memo →
  match sweep_walk block key b memo out with
  | Ok (ids, memo') => eq_walk block key b out = Ok ids ∧ memo_ok block memo'
  | Err e => eq_walk block key b out = Err e
  end.
Proof.
  assert (∀ b memo, memo_ok block memo →
    match memo with Some (mb, e) => if decide (b = mb) then Ok e else block b | None => block b end = block b) as Hread.
  { intros b' [[mb e]|] Hm; [|done]. destruct (decide (b' = mb)) as [->|]; [symmetry; by apply Hm|done]. }
  revert memo out. induction b as [|b IH]; intros memo out Hm; cbn [sweep_walk eq_walk]; rewrite (Hread _ _ Hm);
    destruct (block _) as [entries|] eqn:Eb; cbn [mbind result_bind]; try done.
  - assert (memo_ok block (Some (O, entries))) as Hm' by (intros ? ? [= <- <-]; done). by destruct (first_is_key _ _).
  - assert (memo_ok block (Some (S b, entries))) as Hm' by (intros ? ? [= <- <-]; done).
    destruct (first_is_key _ _); [|done]. by apply IH.
Qed.

Lemma sweep_points tops block keys : lookup_eq_sorted tops block keys = collect_res (lookup_eq tops block) keys.
Proof.
  unfold lookup_eq_sorted. destruct tops as [|t ts] eqn:Et.
  { induction keys as [|k keys IH]; [done|]. cbn in *. by rewrite <- IH. }
  rewrite <- Et. clear t ts Et. assert (memo_ok block None) as Hm by done. revert Hm. generalize (None : option (nat * list entry)).
  induction keys as [|k keys IH]; intros memo Hm; [done|]. cbn [sweep]. change (collect_res (lookup_eq tops block) (k :: keys)) with
    (y ← lookup_eq tops block k; ys ← collect_res (lookup_eq tops block) keys; Ok (y :: ys)).
  rewrite lookup_eq_blocks. destruct (blocks_upto tops k) as [|b]; cbn [mbind result_bind]; [by rewrite IH|].
  pose proof (sweep_walk_agrees block k b memo [] Hm) as H. destruct (sweep_walk block k b memo []) as [[ids memo']|e]; cbn [mbind result_bind].
  - destruct H as [-> Hm']. cbn [mbind result_bind]. by rewrite IH.
  - by rewrite H.
Qed.

(** * Lookups over sorted leaves *)

(** A key in a range, by the order of keys: an absent bound does not bound, and a bound is in the
    range when it is inclusive. *)
Definition key_above (lo : option Value.t) (inclusive : bool) (k : Value.t) : Prop :=
  match lo with None => True | Some lo => Value.cmp_key lo k = Lt ∨ inclusive = true ∧ Value.cmp_key lo k = Eq end.
Definition key_below (hi : option Value.t) (inclusive : bool) (k : Value.t) : Prop :=
  match hi with None => True | Some hi => Value.cmp_key k hi = Lt ∨ inclusive = true ∧ Value.cmp_key k hi = Eq end.

Section sorted.
Variables (tops : list TopEntry) (block : nat → result (list entry)) (leaves : list (list entry)).
Hypothesis Hleaves : leaves_of tops block leaves.
Hypothesis Hsorted : StronglySorted entry_le (concat leaves).
Hypothesis Hexact : Forall exact_entry (concat leaves).

(** The leaves before, the one at, and the ones after a position. *)
Lemma leaf_split b c : leaves !! b = Some c →
  concat leaves = concat (take b leaves) ++ c ++ concat (drop (S b) leaves).
Proof. intros Hb. rewrite <- (take_drop_middle leaves b c Hb) at 1. by rewrite concat_app. Qed.

Lemma leaf_sorted b c : leaves !! b = Some c → StronglySorted entry_le c ∧ Forall exact_entry c.
Proof.
  intros Hb. pose proof Hsorted as Hs. pose proof Hexact as He. rewrite (leaf_split b c Hb) in Hs, He.
  apply Forall_app in He as [_ [He _]%Forall_app].
  split; [|done]. by apply StronglySorted_app_1_r, StronglySorted_app_1_l in Hs.
Qed.

(** The first entry of a leaf is its key in the top level; no entry before is greater, none from
    it on is less. *)
Lemma leaf_head b t : tops !! b = Some t → ∃ e c, leaves !! b = Some (e :: c) ∧ first_key t = e.1 ∧ exact_entry e ∧
  (∀ x, x ∈ concat (take b leaves) → exact_entry x ∧ entry_le x e) ∧
  ∀ x, x ∈ concat (drop b leaves) → exact_entry x ∧ Value.cmp_key x.1 e.1 ≠ Lt.
Proof.
  intros Ht. destruct Hleaves as [Hlen Hat].
  destruct (lookup_lt_is_Some_2 leaves b) as [l Hl]; [rewrite <- Hlen; by eapply lookup_lt_Some|].
  destruct (Hat b l Hl) as (_ & Hne & Hf). destruct l as [|e c]; [done|]. rewrite Ht in Hf. cbn in Hf. injection Hf as Hf.
  pose proof Hsorted as Hs. pose proof Hexact as He. rewrite (leaf_split b _ Hl) in Hs, He.
  apply Forall_app in He as [Hbefore Hfrom]. exists e, c. split_and!; try done.
  - by apply Forall_inv in Hfrom.
  - intros x Hx. rewrite Forall_forall in Hbefore. split; [by apply Hbefore|]. eapply StronglySorted_app_1_elem_of; [exact Hs|done|by left].
  - rewrite (drop_S leaves _ _ Hl). intros x Hx. change (concat ((e :: c) :: drop (S b) leaves)) with ((e :: c) ++ concat (drop (S b) leaves)) in Hx.
    rewrite Forall_forall in Hfrom. split; [by apply Hfrom|]. apply StronglySorted_app_1_r in Hs. cbn in Hs, Hx.
    apply StronglySorted_cons in Hs as [Hs _]. rewrite (proj1 (cmp_key_antisym e.1 x.1)).
    apply elem_of_cons in Hx as [->|Hx]; [by rewrite (proj2 (cmp_key_antisym e.1 e.1))|].
    rewrite Forall_forall in Hs. specialize (Hs x Hx). unfold entry_le in Hs. by destruct (Value.cmp_key e.1 x.1).
Qed.

Definition hits (key : Value.t) (l : list entry) : list Z := map snd (filter (λ e, Value.cmp_key e.1 key = Eq) l).

Lemma hits_app key l k : hits key (l ++ k) = hits key l ++ hits key k.
Proof. unfold hits. by rewrite filter_app, map_app. Qed.

Lemma hits_none key l : (∀ x, x ∈ l → Value.cmp_key x.1 key ≠ Eq) → hits key l = [].
Proof.
  intros H. unfold hits. induction l as [|e l IH]; [done|]. rewrite filter_cons_False by (apply H; by left).
  apply IH. intros x Hx. apply H. by right.
Qed.

(** The loop from block [b] down finds everything up to that block. *)
Lemma eq_walk_hits key b t out : exact key → tops !! b = Some t → Value.cmp_key (first_key t) key ≠ Gt →
  ∃ ids, eq_walk block key b out = Ok (out ++ ids) ∧ ids ≡ₚ hits key (concat (take (S b) leaves)).
Proof.
  intros Hk. revert t out. induction b as [|b IH]; intros t out Ht Hle;
    destruct (leaf_head _ t Ht) as (e & c & Hl & Hf & He & Hbefore & _); rewrite Hf in Hle;
    destruct Hleaves as [Hlen Hat]; destruct (Hat _ _ Hl) as (Hb & _ & _);
    destruct (leaf_sorted _ _ Hl) as [Hsc Hec]; cbn [eq_walk]; rewrite Hb; cbn [mbind result_bind];
    rewrite (leaf_run_scan key (e :: c) Hk Hec Hsc); fold (hits key (e :: c)).
  - exists (hits key (e :: c)). split; [by destruct (first_is_key key (e :: c))|]. rewrite (take_S_r leaves 0 _ Hl), take_0. cbn [app concat]. by rewrite app_nil_r.
  - rewrite (take_S_r leaves (S b) _ Hl), concat_app, hits_app. cbn [concat]. rewrite app_nil_r.
    unfold first_is_key. cbn [head]. unfold is_key. case_bool_decide as E.
    + destruct (lookup_lt_is_Some_2 tops b) as [t' Ht']; [apply lookup_lt_Some in Ht; lia|].
      destruct (leaf_head b t' Ht') as (e' & c' & Hl' & Hf' & He' & _).
      destruct (IH t' (out ++ hits key (e :: c)) Ht') as (ids & -> & Hp).
      { assert (e' ∈ concat (take (S b) leaves)) as Hin.
        { rewrite (take_S_r leaves b _ Hl'), concat_app. cbn. rewrite elem_of_app. right. left. }
        destruct (Hbefore e' Hin) as [_ Hle']. unfold entry_le in Hle'. rewrite Hf'. compare_as_ints e'.1 e.1 key. lia. }
      exists (hits key (e :: c) ++ ids). rewrite app_assoc. split; [done|]. rewrite Hp. apply Permutation_app_comm.
    + exists (hits key (e :: c)). split; [done|]. rewrite (hits_none key (concat (take (S b) leaves))); [done|].
      intros x Hx. destruct (Hbefore x Hx) as [Hxe Hle']. unfold entry_le in Hle'. unfold exact_entry in *.
      compare_as_ints x.1 e.1 key. lia.
Qed.

(** An equality lookup finds what a scan of all entries finds. *)
Lemma lookup_eq_hits key : exact key → lookup_eq tops block key = Ok (sort_ids (hits key (concat leaves))).
Proof.
  intros Hk. rewrite lookup_eq_blocks. pose proof (proj1 Hleaves) as Hlen.
  destruct (partition_point_spec (λ t, negb (bool_decide (Value.cmp_key (first_key t) key = Gt))) tops) as [Hin Hout].
  fold (blocks_upto tops key) in Hin, Hout.
  assert (∀ b, b = blocks_upto tops key → hits key (concat (drop b leaves)) = []) as Hnone.
  { intros b ->. destruct (tops !! blocks_upto tops key) as [t|] eqn:Ht.
    - specialize (Hout t eq_refl). destruct (leaf_head _ t Ht) as (e & c & _ & Hf & He & _ & Hafter).
      apply negb_false_iff, bool_decide_eq_true in Hout. rewrite Hf in Hout. apply hits_none. intros x Hx.
      destruct (Hafter x Hx) as [Hxe Hge]. unfold exact_entry in *. compare_as_ints x.1 e.1 key. lia.
    - apply lookup_ge_None in Ht. by rewrite drop_ge by lia. }
  destruct (blocks_upto tops key) as [|b] eqn:Eb; [specialize (Hnone O eq_refl); rewrite drop_0 in Hnone; by rewrite Hnone|].
  destruct (lookup_lt_is_Some_2 tops b) as [t Ht].
  { pose proof (partition_point_le (λ t, negb (bool_decide (Value.cmp_key (first_key t) key = Gt))) tops) as H.
    fold (blocks_upto tops key) in H. lia. }
  destruct (eq_walk_hits key b t [] Hk Ht) as (ids & -> & Hp).
  { rewrite (take_S_r tops b t Ht) in Hin. apply Forall_app in Hin as [_ Hin%Forall_inv].
    by apply negb_true_iff, bool_decide_eq_false in Hin. }
  cbn. f_equal. apply sort_ids_perm. rewrite Hp. rewrite <- (take_drop (S b) leaves) at 2.
  by rewrite concat_app, hits_app, (Hnone (S b) eq_refl), app_nil_r.
Qed.
(** ** Ranges *)

Section range.
Variables (lo : option Value.t) (lo_inclusive : bool) (hi : option Value.t) (hi_inclusive : bool).
Hypothesis Hlo : ∀ v, lo = Some v → exact v.
Hypothesis Hhi : ∀ v, hi = Some v → exact v.

Local Abbreviation before := (before_lo lo lo_inclusive) (only parsing).
Local Abbreviation past := (past_hi hi hi_inclusive) (only parsing).

Definition in_range (e : entry) : bool := negb (before e) && negb (past e.1).

(** What the loops keep is the range, by its bounds alone. *)
Lemma in_range_keys e : in_range e = true ↔ key_above lo lo_inclusive e.1 ∧ key_below hi hi_inclusive e.1.
Proof.
  unfold in_range, before_lo, past_hi, key_above, key_below. rewrite andb_true_iff, !negb_true_iff. apply Morphisms_Prop.and_iff_morphism.
  - destruct lo as [v|]; [|done]. rewrite (proj1 (cmp_key_antisym e.1 v)). destruct (Value.cmp_key e.1 v), lo_inclusive; cbn; naive_solver.
  - destruct hi as [v|]; [|done]. destruct (Value.cmp_key e.1 v), hi_inclusive; cbn; naive_solver.
Qed.

Lemma before_mono a b : exact_entry a → exact_entry b → entry_le a b → before b = true → before a = true.
Proof.
  unfold before_lo, entry_le, exact_entry. destruct lo as [v|]; [|done]. pose proof (Hlo v eq_refl) as Hv.
  intros Ha Hb Hab. destruct (cmp_key_consistent a.1 b.1 v) as (p & q & r & E1 & E2 & E3); [done..|].
  rewrite E2, E3. rewrite E1 in Hab. zcmp.
Qed.

Lemma past_mono a b : exact_entry a → exact_entry b → entry_le a b → past a.1 = true → past b.1 = true.
Proof.
  unfold past_hi, entry_le, exact_entry. destruct hi as [v|]; [|done]. pose proof (Hhi v eq_refl) as Hv.
  intros Ha Hb Hab. destruct (cmp_key_consistent a.1 b.1 v) as (p & q & r & E1 & E2 & E3); [done..|].
  rewrite E2, E3. rewrite E1 in Hab. zcmp.
Qed.

Definition selected (l : list entry) : list Z := map snd (filter in_range l).

Lemma selected_app l k : selected (l ++ k) = selected l ++ selected k.
Proof. unfold selected. by rewrite filter_app, map_app. Qed.

Lemma selected_none l : (∀ x, x ∈ l → before x = true ∨ past x.1 = true) → selected l = [].
Proof.
  intros H. unfold selected. induction l as [|e l IH]; [done|]. rewrite filter_cons_False.
  - apply IH. intros x Hx. apply H. by right.
  - unfold in_range. destruct (H e) as [E|E]; [by left| |rewrite andb_comm]; rewrite E; cbn; tauto.
Qed.

(** From where no entry is below the range: the loop takes the ids in it, and stops at the
    first entry past it. *)
Lemma range_leaf_spec l out : Forall exact_entry l → StronglySorted entry_le l →
  Forall (λ e, before e = false) l →
  range_leaf hi hi_inclusive l out = (out ++ selected l, existsb (λ e, past e.1) l).
Proof.
  intros Hl Hs. revert out. induction Hs as [|e l Hs IH He]; intros out Hb; cbn [range_leaf existsb]; [by rewrite app_nil_r|].
  apply Forall_cons in Hl as [Hex Hl]. apply Forall_cons in Hb as [Hbe Hb]. destruct (past e.1) eqn:Ep.
  - rewrite selected_none, app_nil_r; [done|]. intros x Hx. right. apply elem_of_cons in Hx as [->|Hx]; [done|].
    rewrite Forall_forall in Hl, He. eapply past_mono; [exact Hex|by apply Hl|by apply He|done].
  - cbn [orb]. rewrite IH by done. f_equal. unfold selected. rewrite filter_cons_True by (unfold in_range; by rewrite Hbe, Ep).
    cbn. by rewrite <- app_assoc.
Qed.

Lemma leaf_range c out : Forall exact_entry c → StronglySorted entry_le c →
  range_leaf hi hi_inclusive (drop (partition_point before c) c) out = (out ++ selected c, existsb (λ e, past e.1) (drop (partition_point before c) c)).
Proof.
  intros Hc Hs. destruct (partition_point_spec before c) as [Hin Hout]. set (k := partition_point before c) in *.
  assert (Forall (λ e, before e = false) (drop k c)) as Hd.
  { destruct (drop k c) as [|x l] eqn:Ed; [constructor|].
    assert (c !! k = Some x) as Hx by (rewrite <- (Nat.add_0_r k), <- lookup_drop, Ed; done).
    specialize (Hout x Hx). pose proof Hs as Hs'. pose proof Hc as Hc'. rewrite <- (take_drop k c), Ed in Hs', Hc'.
    apply StronglySorted_app_1_r, StronglySorted_cons in Hs' as [Hle _]. apply Forall_app in Hc' as [_ [Hxe Hl]%Forall_cons].
    constructor; [done|]. rewrite Forall_forall in Hle, Hl |- *. intros y Hy. destruct (before y) eqn:Ey; [|done].
    rewrite (before_mono x y) in Hout; [done|done|by apply Hl|by apply Hle|done]. }
  rewrite range_leaf_spec; [|by apply Forall_drop|by apply StronglySorted_app_1_r with (take k c); rewrite take_drop|done].
  do 2 f_equal. rewrite <- (take_drop k c) at 2. rewrite selected_app, (selected_none (take k c)); [done|].
  intros x Hx. left. rewrite Forall_forall in Hin. by apply Hin.
Qed.

(** The loop over the blocks from [b] on. *)
Lemma range_blocks_selected b out : range_blocks block lo lo_inclusive hi hi_inclusive (drop b tops) b out
  = Ok (out ++ selected (concat (drop b leaves))).
Proof.
  remember (length tops - b)%nat as n eqn:En. revert b out En. induction n as [|n IH]; intros b out En.
  { rewrite !drop_ge by (rewrite <- ?(proj1 Hleaves); lia). cbn. by rewrite app_nil_r. }
  destruct (lookup_lt_is_Some_2 tops b) as [t Ht]; [lia|].
  destruct (leaf_head b t Ht) as (e & c & Hl & Hf & He & _ & Hafter). destruct (leaf_sorted _ _ Hl) as [Hsc Hec].
  destruct (proj2 Hleaves b _ Hl) as (Hb & _ & _). rewrite (drop_S tops t b Ht). cbn [range_blocks].
  assert (∀ x y, x ∈ e :: c → past x.1 = true → y ∈ concat (drop (S b) leaves) → past y.1 = true) as Hrest.
  { intros x y Hx Hp Hy. pose proof Hsorted as Hs. pose proof Hexact as Hx'. rewrite (leaf_split b _ Hl) in Hs, Hx'.
    apply StronglySorted_app_1_r in Hs. apply Forall_app in Hx' as [_ [Hx1 Hx2]%Forall_app]. rewrite Forall_forall in Hx1, Hx2.
    eapply past_mono; [by apply Hx1|by apply Hx2|by eapply StronglySorted_app_1_elem_of|done]. }
  rewrite (drop_S leaves _ b Hl). cbn [concat]. rewrite selected_app. rewrite Hf. destruct (past e.1) eqn:Ep.
  - rewrite (selected_none (e :: c)), (selected_none (concat _)); [by rewrite !app_nil_r| |].
    + intros x Hx. right. eapply Hrest; [by left|done|done].
    + intros x Hx. right. destruct (Hafter x) as [Hxe Hge].
      { rewrite (drop_S leaves _ b Hl). cbn [concat]. rewrite elem_of_app. by left. }
      eapply past_mono; [exact He|exact Hxe| |done]. unfold entry_le. rewrite (proj1 (cmp_key_antisym x.1 e.1)).
      by destruct (Value.cmp_key x.1 e.1).
  - rewrite Hb. cbn [mbind result_bind]. rewrite leaf_range by done. destruct (existsb _ _) eqn:Es.
    + apply existsb_exists in Es as (x & Hx & Hp). apply list_elem_of_In in Hx. rewrite (selected_none (concat _)); [by rewrite app_nil_r|].
      intros y Hy. right. eapply Hrest; [|exact Hp|done].
      rewrite <- (take_drop (partition_point before (e :: c)) (e :: c)), elem_of_app. by right.
    + rewrite IH by lia. by rewrite <- app_assoc.
Qed.
(** A range lookup finds the ids whose key lies in the range, each once, ascending. *)
Lemma lookup_range_selected : ∃ ids, lookup_range tops block lo lo_inclusive hi hi_inclusive = Ok ids ∧
  StronglySorted Z.lt ids ∧ ∀ id, id ∈ ids ↔ ∃ k, (k, id) ∈ concat leaves ∧ key_above lo lo_inclusive k ∧ key_below hi hi_inclusive k.
Proof.
  assert (lookup_range tops block lo lo_inclusive hi hi_inclusive = Ok (sort_dedup_ids (selected (concat (drop (range_start tops lo) leaves))))) as ->.
  { rewrite lookup_range_blocks, range_blocks_selected. done. }
  assert (selected (concat leaves) = selected (concat (drop (range_start tops lo) leaves))) as <-.
  { rewrite <- (take_drop (range_start tops lo) leaves) at 1. rewrite concat_app, selected_app, (selected_none (concat _)); [done|].
    intros x Hx. left. unfold range_start in Hx. unfold before_lo. destruct lo as [v|] eqn:Elo; [|by apply elem_of_nil in Hx].
    pose proof (Hlo v eq_refl) as Hv. set (p := λ t, bool_decide (Value.cmp_key (first_key t) v = Lt)) in *.
    destruct (partition_point_spec p tops) as [Hin _]. destruct (partition_point p tops) as [|[|n]] eqn:Ep; [by apply elem_of_nil in Hx..|].
    destruct (lookup_lt_is_Some_2 tops (S n)) as [t Ht]; [pose proof (partition_point_le p tops); lia|].
    rewrite (take_S_r tops (S n) t Ht) in Hin. apply Forall_app in Hin as [_ Hin%Forall_inv]. apply bool_decide_eq_true in Hin.
    destruct (leaf_head (S n) t Ht) as (e & c & _ & Hf & He & Hbefore & _). rewrite Hf in Hin.
    destruct (Hbefore x) as [Hxe Hle]; [by replace (S (S n) - 1)%nat with (S n) in Hx by lia|].
    unfold entry_le, exact_entry in *. destruct (cmp_key_consistent x.1 e.1 v) as (a & b & d & E1 & E2 & E3); [done..|].
    rewrite E3. rewrite E1 in Hle. rewrite E2 in Hin. zcmp. }
  eexists. split; [done|]. split; [apply sort_dedup_sorted|]. intros id.
  rewrite elem_of_sort_dedup. unfold selected. rewrite list_elem_of_fmap. split.
  - intros ([k i] & -> & [Hr Hin]%list_elem_of_filter). exists k. split; [done|]. by apply (in_range_keys (k, i)), Is_true_true.
  - intros (k & Hin & Hr). exists (k, id). split; [done|]. apply list_elem_of_filter. split; [by apply Is_true_true, in_range_keys|done].
Qed.
End range.
End sorted.
