(* ===== verification/IsamExact.v ===== *)
(** A range index from its writer to its readers: whatever entries were written, the lookups of
    the opened file answer as scans of them, and the index keeps what the probes of business keys
    expect of it ([index_ok] of [KeyProbe]). *)

From S2P Require Import Prelude Values ValueOrder Wire Crypto BlockCodec Isam Resolve Statement KeyProbe IsamLookup.

(** * Sorting the entries *)

Lemma insert_entry_perm x l : insert_entry x l ≡ₚ x :: l.
Proof. induction l as [|y l IH]; cbn; [done|]. destruct (entry_cmp x y); try done. rewrite IH. apply Permutation_swap. Qed.

Lemma sort_entries_perm l : sort_entries l ≡ₚ l.
Proof. induction l as [|x l IH]; cbn; [done|]. by rewrite insert_entry_perm, IH. Qed.

Lemma entry_le_trans a b c : exact_entry a → exact_entry b → exact_entry c → entry_le a b → entry_le b c → entry_le a c.
Proof. unfold entry_le. intros Ha Hb Hc H1 H2. by apply (cmp_key_exact_preorder a.1 b.1 c.1). Qed.

Lemma entry_cmp_le x y : entry_cmp x y ≠ Gt → entry_le x y.
Proof. unfold entry_cmp, entry_le. by destruct (Value.cmp_key x.1 y.1). Qed.

Lemma entry_cmp_gt x y : entry_cmp x y = Gt → entry_le y x.
Proof.
  unfold entry_cmp, entry_le. rewrite (proj1 (cmp_key_antisym x.1 y.1)). by destruct (Value.cmp_key x.1 y.1).
Qed.

Lemma insert_entry_sorted x l : exact_entry x → Forall exact_entry l → StronglySorted entry_le l →
  StronglySorted entry_le (insert_entry x l).
Proof.
  intros Hx Hl. induction 1 as [|y l Hs IH Hy]; cbn; [by repeat constructor|]. apply Forall_cons in Hl as [Hey Hl].
  destruct (entry_cmp x y) eqn:E.
  3:{ constructor; [by apply IH|]. rewrite insert_entry_perm. constructor; [by apply entry_cmp_gt|done]. }
  all: assert (entry_le x y) as Hxy by (apply entry_cmp_le; by rewrite E).
  all: constructor; [by constructor|]; constructor; [done|]; rewrite Forall_forall in Hy, Hl |- *; intros z Hz;
    apply (entry_le_trans x y z); auto.
Qed.

Lemma sort_entries_sorted l : Forall exact_entry l → StronglySorted entry_le (sort_entries l).
Proof.
  induction 1 as [|x l Hx Hl IH]; cbn; [constructor|]. apply insert_entry_sorted; [done| |done].
  by rewrite sort_entries_perm.
Qed.

Lemma hits_perm key l k : l ≡ₚ k → hits key l ≡ₚ hits key k.
Proof. intros H. unfold hits. by rewrite H. Qed.

(** * Counts *)

Lemma cmp_key_refl v : Value.cmp_key v v = Eq.
Proof. apply (cmp_key_antisym v v). Qed.

Lemma StronglySorted_rev {A} (R : A → A → Prop) l : StronglySorted R l → StronglySorted (λ a b, R b a) (rev l).
Proof.
  induction 1 as [|x l Hs IH Hx]; cbn; [constructor|]. apply StronglySorted_app_2; [|done|by repeat constructor].
  intros y z Hy Hz. apply list_elem_of_singleton in Hz as ->. rewrite Forall_forall in Hx. apply Hx.
  by rewrite <- (Permutation_rev l) in Hy.
Qed.

(** The count without a bound. *)
Definition tally (out : list (Value.t * Z)) (e : entry) : list (Value.t * Z) :=
  match out with
  | (prev, n) :: rest => if bool_decide (Value.cmp_key prev e.1 = Eq) then (prev, n + 1) :: rest else (e.1, 1) :: out
  | [] => [(e.1, 1)]
  end.

Lemma tally_length out e : zlen out <= zlen (tally out e) <= zlen out + 1.
Proof. destruct out as [|[prev n] rest]; cbn; [done|]. case_bool_decide; rewrite ?zlen_cons; lia. Qed.

Lemma tallies_length l out : zlen out <= zlen (foldl tally out l).
Proof.
  revert out. induction l as [|e l IH]; intros out; cbn; [lia|]. pose proof (tally_length out e). pose proof (IH (tally out e)). lia.
Qed.

Lemma count_entries_tally max l out : zlen out <= max →
  count_entries max l out = if max <? zlen (foldl tally out l) then None else Some (foldl tally out l).
Proof.
  revert out. induction l as [|e l IH]; intros out Hm; cbn.
  { by destruct (Z.ltb_spec max (zlen out)); [lia|]. }
  assert (count_entry max e out = if max <? zlen (tally out e) then None else Some (tally out e)) as ->.
  { unfold count_entry, tally. destruct out as [|[prev n] rest].
    - change (zlen [(e.1, 1)]) with 1. destruct (Z.leb_spec max 0), (Z.ltb_spec max 1); done || lia.
    - rewrite zlen_cons in Hm. case_bool_decide; rewrite !zlen_cons.
      + by destruct (Z.ltb_spec max (zlen rest + 1)); [lia|].
      + destruct (Z.leb_spec max (zlen rest + 1)), (Z.ltb_spec max (zlen rest + 1 + 1)); done || lia. }
  pose proof (tallies_length l (tally out e)). destruct (Z.ltb_spec max (zlen (tally out e))); cbn; [|by apply IH].
  by destruct (Z.ltb_spec max (zlen (foldl tally (tally out e) l))); [|lia].
Qed.

(** What the tally of a run of entries says, last key first. *)
Record tallied (l : list entry) (out : list (Value.t * Z)) : Prop := {
  ta_keys : Forall (λ c, exact c.1 ∧ c.2 = zlen (hits c.1 l)) out;
  ta_order : StronglySorted (λ a b, Value.cmp_key b.1 a.1 = Lt) out;
  ta_all : Forall (λ e, Exists (λ c, Value.cmp_key e.1 c.1 = Eq) out) l;
  ta_last : match out with c :: _ => Exists (λ e, c.1 = e.1) l | [] => l = [] end;
}.

Lemma hits_one key e : hits key [e] = if decide (Value.cmp_key e.1 key = Eq) then [e.2] else [].
Proof. unfold hits. rewrite filter_cons. by destruct (decide _). Qed.

Lemma tallied_step l out e : Forall exact_entry l → exact_entry e → Forall (λ x, entry_le x e) l →
  tallied l out → tallied (l ++ [e]) (tally out e).
Proof.
  intros Hl He Hle [Hk Ho Ha Hla]. unfold tally. destruct out as [|[prev n] rest].
  { subst l. change ([] ++ [e]) with [e]. split.
    - apply Forall_singleton. split; [done|]. cbn [fst snd]. rewrite hits_one, decide_True; [done|apply cmp_key_refl].
    - by repeat constructor.
    - apply Forall_singleton. constructor. apply cmp_key_refl.
    - by constructor. }
  apply Forall_cons in Hk as [[Hpe Hn] Hk]. cbn [fst snd] in *. apply StronglySorted_cons in Ho as [Hpo Ho].
  assert (Value.cmp_key prev e.1 ≠ Gt) as Hpl.
  { apply Exists_exists in Hla as (x & Hx & ->). rewrite Forall_forall in Hle. by apply Hle. }
  assert (∀ c, c ∈ rest → exact c.1 ∧ Value.cmp_key e.1 c.1 = Gt) as Hrest.
  { intros c Hc. rewrite Forall_forall in Hk, Hpo. destruct (Hk c Hc) as [Hce _]. specialize (Hpo c Hc). cbn in Hpo. split; [done|].
    unfold exact_entry in He. pose proof (cmp_key_antisym e.1 c.1) as [E _]. destruct (cmp_key_consistent c.1 prev e.1) as (a & b & d & E1 & E2 & E3); [done..|].
    rewrite E1 in Hpo. rewrite E2 in Hpl. assert (Value.cmp_key c.1 e.1 = Lt) as El by (rewrite E3; zcmp). rewrite El in E. by destruct (Value.cmp_key e.1 c.1). }
  assert (Forall (λ c, exact c.1 ∧ c.2 = zlen (hits c.1 (l ++ [e]))) rest) as Hk'.
  { rewrite Forall_forall in Hk |- *. intros c Hc. destruct (Hk c Hc) as [? ->]. split; [done|]. destruct (Hrest c Hc) as [_ Hgt].
    rewrite hits_app, hits_one, decide_False by congruence. by rewrite app_nil_r. }
  case_bool_decide as Epe.
  - assert (Value.cmp_key e.1 prev = Eq) as Eep by (rewrite (proj1 (cmp_key_antisym prev e.1)), Epe; done).
    split; [constructor; [|done]|by constructor| |].
    + split; [done|]. cbn [fst snd]. rewrite hits_app, hits_one, decide_True by done. by rewrite zlen_app, Hn.
    + apply Forall_app. split; [|by repeat constructor]. eapply Forall_impl; [exact Ha|]. intros x Hx. inversion Hx; subst; by constructor.
    + apply Exists_app. by left.
  - assert (Value.cmp_key prev e.1 = Lt) as Elt by by destruct (Value.cmp_key prev e.1).
    assert (Value.cmp_key e.1 prev = Gt) as Egt by (rewrite (proj1 (cmp_key_antisym prev e.1)), Elt; done).
    assert (hits e.1 l = []) as Hnone.
    { apply hits_none. intros x Hx. rewrite Forall_forall in Ha, Hl. specialize (Ha x Hx). specialize (Hl x Hx).
      apply Exists_exists in Ha as (c & Hc & Ec). assert (exact c.1 ∧ Value.cmp_key e.1 c.1 = Gt) as [Hce Hcgt].
      { apply elem_of_cons in Hc as [->|Hc]; [done|by apply Hrest]. }
      intros Exe. unfold exact_entry in *. destruct (cmp_key_consistent e.1 x.1 c.1) as (a & b & d & E1 & E2 & E3); [done..|].
      rewrite (proj1 (cmp_key_antisym x.1 e.1)), Exe in E1. rewrite E2 in Ec. rewrite E3 in Hcgt. cbn in E1. zcmp. }
    split.
    + constructor; [|constructor; [|done]]; cbn [fst snd].
      * split; [done|]. rewrite hits_app, Hnone, hits_one, decide_True; [done|apply cmp_key_refl].
      * split; [done|]. rewrite hits_app, hits_one, decide_False by congruence. by rewrite app_nil_r.
    + constructor; [by constructor|]. constructor; [done|]. apply Forall_forall. intros c Hc. destruct (Hrest c Hc) as [_ Hgt].
      cbn. rewrite (proj1 (cmp_key_antisym e.1 c.1)), Hgt. done.
    + apply Forall_app. split; [|constructor; [constructor; apply cmp_key_refl|done]].
      eapply Forall_impl; [exact Ha|]. intros x Hx. by right.
    + apply Exists_app. right. by constructor.
Qed.

Lemma tallied_all l : Forall exact_entry l → StronglySorted entry_le l → tallied l (foldl tally [] l).
Proof.
  induction l as [|e l IH] using rev_ind; intros Hl Hs; [by repeat constructor|].
  rewrite foldl_app. apply Forall_app in Hl as [Hl [He _]%Forall_cons]. cbn. apply tallied_step; try done.
  - apply Forall_forall. intros x Hx. eapply StronglySorted_app_1_elem_of; [exact Hs|done|by left].
  - apply IH; [done|]. by apply StronglySorted_app_1_l in Hs.
Qed.

(** The counts of the leaves: abandoned above the bound, otherwise the tally of their entries. *)
Lemma distinct_key_counts_tally tops block leaves max : leaves_of tops block leaves → 0 <= max →
  let counts := rev (foldl tally [] (concat leaves)) in
  distinct_key_counts_bounded tops block max = Ok (if max <? zlen counts then None else Some counts).
Proof.
  intros [Hlen Hat] Hmax. cbv zeta. set (out := foldl tally [] (concat leaves)). unfold distinct_key_counts_bounded.
  assert (∀ n b l, (b + n = length leaves)%nat → zlen l <= max →
    count_blocks block max n b l = Ok (if max <? zlen (foldl tally l (concat (drop b leaves))) then None
                                       else Some (rev (foldl tally l (concat (drop b leaves)))))) as Hloop.
  { induction n as [|n IH]; intros b l Hn Hl; cbn [count_blocks].
    - rewrite drop_ge by lia. cbn. by destruct (Z.ltb_spec max (zlen l)); [lia|].
    - destruct (lookup_lt_is_Some_2 leaves b) as [c Hc]; [lia|]. destruct (Hat b c Hc) as (-> & _ & _). cbn [mbind result_bind].
      rewrite (drop_S leaves c b Hc). cbn [concat]. rewrite foldl_app, count_entries_tally by done.
      pose proof (tallies_length (concat (drop (S b) leaves)) (foldl tally l c)).
      destruct (Z.ltb_spec max (zlen (foldl tally l c))); [|by apply IH; [lia|]].
      by destruct (Z.ltb_spec max (zlen (foldl tally (foldl tally l c) (concat (drop (S b) leaves))))); [|lia]. }
  rewrite Hloop, drop_0; [|done|done]. fold out. assert (zlen (rev out) = zlen out) as -> by (unfold zlen; by rewrite length_rev). done.
Qed.

(** What the counts of a column say: each distinct key once, in order, with the number of its
    entries. *)
Record counts_of (entries : list entry) (counts : list (Value.t * Z)) : Prop := {
  cn_order : StronglySorted (λ a b, Value.cmp_key a.1 b.1 = Lt) counts;
  cn_number : Forall (λ c, c.2 = zlen (hits c.1 entries)) counts;
  cn_all : Forall (λ e, Exists (λ c, Value.cmp_key e.1 c.1 = Eq) counts) entries;
}.

Lemma counts_of_perm entries entries' counts : entries ≡ₚ entries' → counts_of entries counts → counts_of entries' counts.
Proof.
  intros Hp [Ho Hn Ha]. split; [done| |by rewrite <- Hp]. eapply Forall_impl; [exact Hn|]. intros c ->. unfold zlen. by rewrite (hits_perm c.1 _ _ Hp).
Qed.

Lemma tally_counts entries : StronglySorted entry_le entries → Forall exact_entry entries → counts_of entries (rev (foldl tally [] entries)).
Proof.
  intros Hs He. destruct (tallied_all _ He Hs) as [Hk Ho Ha _]. split.
  - apply StronglySorted_rev. exact Ho.
  - apply Forall_rev. eapply Forall_impl; [exact Hk|]. by intros c [_ ?].
  - eapply Forall_impl; [exact Ha|]. intros e. apply List.Exists_rev.
Qed.

(** * An index, written and read *)

Lemma hits_equal v v' l : exact v → exact v' → Forall exact_entry l → Value.cmp_key v v' = Eq → hits v l = hits v' l.
Proof.
  intros Hv Hv' Hl E. unfold hits. f_equal. induction Hl as [|e l He Hl IH]; [done|]. rewrite !filter_cons, IH.
  unfold exact_entry in He. destruct (cmp_key_consistent e.1 v v') as (a & b & c & E1 & E2 & E3); [done..|].
  rewrite E2 in E. apply Z.compare_eq_iff in E as ->. by rewrite E1, E3.
Qed.

(** What the probes of business keys take an index to be. *)
Definition isam_index {crypto : Crypto} (zstd_decode : bytes → list bytes * bool) (r : IsamReader) : RangeIndex :=
  mkRangeIndex (lookup_eq (top r) (load_block zstd_decode r)) (lookup_eq_sorted (top r) (load_block zstd_decode r)).

(** What a probe of a key should say of the entries: no entry has the key, one has, or several. *)
Definition probe_of (entries : list entry) (v : Value.t) (r : KeyResolution) : Prop :=
  match r with
  | Absent => hits v entries = []
  | Unique id => hits v entries = [id]
  | Ambiguous => (1 < length (hits v entries))%nat
  | Unindexed => False
  end.

Lemma probe_sorted entries v : probe_of entries v (key_resolution (sort_ids (hits v entries))).
Proof.
  assert (sort_ids (hits v entries) ≡ₚ hits v entries) as Hp by apply merge_sort_Permutation.
  unfold key_resolution, probe_of. destruct (sort_ids (hits v entries)) as [|x [|y l]].
  - by apply Permutation_nil in Hp.
  - by apply Permutation_singleton_l in Hp.
  - rewrite <- Hp. cbn [length]. lia.
Qed.

Section exact.
Context {crypto : Crypto} {crypto_laws : CryptoLaws}.
Variable zstd_encode_all : bytes → Z → result bytes.
Variable zstd_decode : bytes → list bytes * bool.
Variable random_nonce : nat → bytes.
Variables (target zstd_level : Z) (cipher : option FileCipher).
Hypothesis lossless : zstd_lossless zstd_encode_all zstd_decode.
Hypothesis bounded : ∀ raw level comp, zstd_encode_all raw level = Ok comp → zlen comp <= zlen raw + zlen raw / 256 + 64.
Hypothesis nonce_length : ∀ i, zlen (random_nonce i) = NONCE_LEN.
Hypothesis target_usize : 0 <= target.

Variables (entries : list entry) (img : bytes) (n : Z).
Hypothesis Hfit : Forall (entry_fits target) entries.
Hypothesis Hexact : Forall exact_entry entries.
Hypothesis Htop : top_fits zstd_encode_all random_nonce target zstd_level cipher (sort_entries entries).
Hypothesis Hwrite : write_isam_with_cipher zstd_encode_all random_nonce target zstd_level cipher entries = Ok (img, n).
Hypothesis Himg : fits img.

(** The opened index holds the entries, sorted and cut into leaves. *)
Lemma written_leaves : ∃ r leaves, open_src img cipher = Ok r ∧ num_blocks r = n ∧
  leaves_of (top r) (load_block zstd_decode r) leaves ∧ concat leaves ≡ₚ entries ∧
  StronglySorted entry_le (concat leaves) ∧ Forall exact_entry (concat leaves).
Proof.
  destruct (isam_opens zstd_encode_all zstd_decode random_nonce target zstd_level cipher lossless bounded nonce_length target_usize
    (sort_entries entries) img n) as (r & leaves & Ho & Hl & Hc & Hn); [by rewrite sort_entries_perm|done|done|done|].
  exists r, leaves. split; [done|]. split; [unfold num_blocks, zlen; rewrite (proj1 Hl); by rewrite Hn|]. split; [done|].
  rewrite Hc. split_and!; [apply sort_entries_perm|by apply sort_entries_sorted|by rewrite sort_entries_perm].
Qed.

(** C11: A range index answers as a scan of what was written.  Entries in any order, written with
    any block size, encrypted or not, open to an index whose equality lookup returns the ids of
    the entries with an equal key, ascending; whose range lookup returns the ids of the entries
    in the range, each once, ascending; and whose count of distinct keys has every key once, in
    order, with the number of its entries, or is abandoned exactly above the bound.  The keys'
    integers are exact as floats, an entry leaves its block below a gigabyte, and the top level
    below two. *)
Theorem isam_exact : ∃ r, open_src img cipher = Ok r ∧ num_blocks r = n ∧
  let block := load_block zstd_decode r in
  (∀ key, exact key → lookup_eq (top r) block key = Ok (sort_ids (hits key entries))) ∧
  (∀ lo li hi hinc, (∀ v, lo = Some v → exact v) → (∀ v, hi = Some v → exact v) →
     ∃ ids, lookup_range (top r) block lo li hi hinc = Ok ids ∧ StronglySorted Z.lt ids ∧
       ∀ id, id ∈ ids ↔ ∃ k, (k, id) ∈ entries ∧ key_above lo li k ∧ key_below hi hinc k) ∧
  ∀ max, 0 <= max → ∃ counts, counts_of entries counts ∧
    distinct_key_counts_bounded (top r) block max = Ok (if max <? zlen counts then None else Some counts).
Proof.
  destruct written_leaves as (r & leaves & Ho & Hn & Hl & Hp & Hs & He). exists r. split; [done|]. split; [done|]. cbv zeta. split_and!.
  - intros key Hk. rewrite (lookup_eq_hits _ _ _ Hl Hs He key Hk). f_equal. by apply sort_ids_perm, hits_perm.
  - intros lo li hi hinc Hlo Hhi. destruct (lookup_range_selected _ _ _ Hl Hs He lo li hi hinc Hlo Hhi) as (ids & E & Hids & Hel).
    exists ids. split_and!; [done..|]. intros id. rewrite Hel. by setoid_rewrite Hp.
  - intros max Hmax. eexists. split; [|by apply distinct_key_counts_tally]. by apply (counts_of_perm _ _ _ Hp), tally_counts.
Qed.

(** C12: A written range index is what the probes of business keys take it for.  Its sweep over
    many keys answers each key as a lookup of its own, and keys that compare equal get one
    answer; and a probe of a key over it alone is absent, unique or ambiguous as no, one or
    several entries have the key. *)
Theorem isam_serves_probes : ∃ r, open_src img cipher = Ok r ∧ index_ok (isam_index zstd_decode r) ∧
  ∀ gen label prop name v, exact v → index_for gen label prop = Some name →
    index_readers gen !! name = Some (isam_index zstd_decode r) → segments gen = [] →
    probe_of entries v (KeyProbe.resolve_business_key gen label prop v).
Proof.
  destruct written_leaves as (r & leaves & Ho & Hn & Hl & Hp & Hs & He). exists r. split; [done|].
  assert (∀ key, exact key → lookup_eq (top r) (load_block zstd_decode r) key = Ok (sort_ids (hits key entries))) as Heq.
  { intros key Hk. rewrite (lookup_eq_hits _ _ _ Hl Hs He key Hk). f_equal. by apply sort_ids_perm, hits_perm. }
  split.
  - split; cbn.
    + intros vs idss _ H. rewrite sweep_points in H. by apply collect_res_Forall2.
    + intros v v' Hv Hv' E. rewrite !Heq by done. by rewrite (hits_equal v v').
  - intros gen label prop name v Hv Hix Hr Hseg. unfold KeyProbe.resolve_business_key. rewrite Hix. cbn [mbind option_bind]. rewrite Hr.
    cbn [KeyProbe.lookup_eq isam_index]. rewrite Heq by done. unfold is_singleton. rewrite Hseg. apply probe_sorted.
Qed.
End exact.

(** * Witnesses *)

Section witnesses.
#[local] Existing Instance toy_crypto.
#[local] Existing Instance toy_crypto_laws.

(** Five entries in blocks of eight bytes, sealed, compressed by storing them. *)
Definition example_entries : list entry :=
  [(Value.Int 2, 7); (Value.Str (lit "ab"), 1); (Value.Int 1, 9); (Value.Float (Value.i64_as_f64 1), 5); (Value.Int 300, 2)].

Definition example_key : option FileCipher := Some (Build_FileCipher [1; 2; 3]).
Definition example_nonces (i : nat) : bytes := repeat (Z.of_nat i) 24.

Definition example_index : result (bytes * Z) :=
  write_isam_with_cipher stored_encode example_nonces 8 3 example_key example_entries.

Definition example_img : bytes := match example_index with Ok (img, _) => img | Err _ => [] end.

Lemma example_fits : Forall (entry_fits 8) example_entries.
Proof.
  repeat (apply Forall_cons; split); [..|by apply Forall_nil].
  all: split; [split; [split; [|by apply Nat.leb_le]|cbn; unfold is_u64; lia]|apply Z.leb_le; vm_compute; reflexivity].
  all: cbn; unfold is_i64, is_u64; try lia.
  all: try (split; [by apply (bool_decide_unpack _)|]; split; [done|apply Z.ltb_lt; vm_compute; reflexivity]).
  all: apply (bool_decide_unpack _); vm_compute; exact I.
Qed.

Lemma example_exact : Forall exact_entry example_entries.
Proof. repeat constructor; unfold exact_entry, exact, exact_int; cbn; lia. Qed.

Lemma example_nonce_length i : zlen (example_nonces i) = NONCE_LEN.
Proof. reflexivity. Qed.

Lemma example_target : 0 <= 8.
Proof. lia. Qed.

Lemma example_index_written : write_isam_with_cipher stored_encode example_nonces 8 3 example_key example_entries = Ok (example_img, 3).
Proof. vm_compute. reflexivity. Qed.

Lemma example_top : top_fits stored_encode example_nonces 8 3 example_key (sort_entries example_entries).
Proof. intros st H. vm_compute in H. injection H as <-. apply Z.leb_le. vm_compute. reflexivity. Qed.

Lemma isam_exact_witness : ∃ r, open_src example_img example_key = Ok r ∧ num_blocks r = 3 ∧
  lookup_eq (top r) (load_block stored_decode r) (Value.Int 1) = Ok [5; 9] ∧
  ∃ ids, lookup_range (top r) (load_block stored_decode r) (Some (Value.Int 1)) false (Some (Value.Int 300)) true = Ok ids ∧
    7 ∈ ids ∧ 9 ∉ ids.
Proof.
  destruct (isam_exact stored_encode stored_decode example_nonces 8 3 example_key stored_lossless stored_bounded
    example_nonce_length example_target example_entries example_img 3 example_fits example_exact example_top example_index_written)
    as (r & Ho & Hn & Heq & Hr & _).
  - apply Z.ltb_lt. vm_compute. reflexivity.
  - exists r. split; [exact Ho|]. split; [exact Hn|]. split.
    + rewrite Heq by (unfold exact, exact_int; lia). vm_compute. reflexivity.
    + destruct (Hr (Some (Value.Int 1)) false (Some (Value.Int 300)) true) as (ids & E & _ & Hid);
        [intros v [= <-]; unfold exact, exact_int; lia|intros v [= <-]; unfold exact, exact_int; lia|].
      exists ids. split; [exact E|]. split.
      * apply Hid. exists (Value.Int 2). split; [apply (bool_decide_unpack _); vm_compute; exact I|]. split; left; reflexivity.
      * intros H. apply Hid in H as (k & Hin & Hk). apply (list_elem_of_In example_entries) in Hin.
        repeat (destruct Hin as [Hin|Hin]; [injection Hin as ?; subst; vm_compute in Hk; intuition (discriminate || lia)|]). destruct Hin.
Defined.

Lemma isam_serves_probes_witness : ∃ r, open_src example_img example_key = Ok r ∧ index_ok (isam_index stored_decode r) ∧
  let gen := mkCoreIndexes [mkIndexDesc (lit "ix") true (lit "P") (lit "id")] {[lit "ix" := isam_index stored_decode r]} [] in
  KeyProbe.resolve_business_key gen (lit "P") (lit "id") (Value.Int 2) = Unique 7 ∧
  KeyProbe.resolve_business_key gen (lit "P") (lit "id") (Value.Int 1) = Ambiguous.
Proof.
  destruct (isam_serves_probes stored_encode stored_decode example_nonces 8 3 example_key stored_lossless stored_bounded
    example_nonce_length example_target example_entries example_img 3 example_fits example_exact example_top example_index_written)
    as (r & Ho & Hix & Hp).
  - apply Z.ltb_lt. vm_compute. reflexivity.
  - exists r. split; [exact Ho|]. split; [exact Hix|]. cbv zeta.
    set (gen := mkCoreIndexes _ _ _).
    pose proof (Hp gen (lit "P") (lit "id") (lit "ix") (Value.Int 2) ltac:(unfold exact, exact_int; lia) eq_refl eq_refl eq_refl) as H2.
    pose proof (Hp gen (lit "P") (lit "id") (lit "ix") (Value.Int 1) ltac:(unfold exact, exact_int; lia) eq_refl eq_refl eq_refl) as H1.
    revert H1 H2. generalize (KeyProbe.resolve_business_key gen (lit "P") (lit "id") (Value.Int 2)) as r2.
    generalize (KeyProbe.resolve_business_key gen (lit "P") (lit "id") (Value.Int 1)) as r1. intros r1 r2 H1 H2.
    split; [destruct r2; vm_compute in H2|destruct r1; vm_compute in H1]; congruence || lia || done.
Defined.
End witnesses.
