(* ===== verification/ClockCache.v ===== *)
(** The sharded cache of [graph-format/src/blockcache.rs]: a byte budget, and second-chance
    eviction.

    The cache of decoded index leaves in [graph-format/src/isam.rs] is the same code over other
    keys and values, so the shard is generic in the key, the value and the stamp of an entry;
    [BlockCaches] instantiates it for both.  Threads share a cache, and what they do to it are
    the sections under a shard's lock: the definitions are those sections, and a run is any
    sequence of them.  [Arc]s are values, since blocks are immutable. *)

From S2P Require Import Prelude.

Section clock.
Context {K : Type} `{Countable K} {V S : Type}.

Record Entry := mkEntry {
  value : V;
  e_bytes : Z;
  referenced : bool;
  stamp : S;
}.

Record ShardInner := mkShardInner {
  sh_map : gmap K Entry;
  ring : list K;
  hand : nat;
  sh_bytes : Z;
  sh_budget : Z;
}.

Definition set_hand (h : nat) (st : ShardInner) : ShardInner :=
  mkShardInner (sh_map st) (ring st) h (sh_bytes st) (sh_budget st).

(** [referenced.swap(false)] where the bit was set. *)
Definition reprieve (key : K) (e : Entry) (h : nat) (st : ShardInner) : ShardInner :=
  mkShardInner (<[key := mkEntry (value e) (e_bytes e) false (stamp e)]> (sh_map st))
    (ring st) h (sh_bytes st) (sh_budget st).

(** The entry leaves the ring and the map; the hand stays. *)
Definition evict_at (h : nat) (key : K) (e : Entry) (st : ShardInner) : ShardInner :=
  mkShardInner (delete key (sh_map st)) (delete h (ring st)) h (sh_bytes st - e_bytes e) (sh_budget st).

Definition over_budget (st : ShardInner) : bool :=
  (sh_budget st <? sh_bytes st) && (1 <? length (ring st))%nat.

(** The loop of [evict_to_budget]. *)
Fixpoint sweep_loop (fuel : nat) (protect : K) (st : ShardInner) (evicted : Z) : result (ShardInner * Z) :=
  if over_budget st then
    match fuel with
    | O => Err OutOfFuel
    | Datatypes.S fuel =>
        let h := if (length (ring st) <=? hand st)%nat then O else hand st in
        match ring st !! h with
        | None => Err (Panic "index out of bounds")
        | Some key =>
            if decide (key = protect) then sweep_loop fuel protect (set_hand (Datatypes.S h) st) evicted
            else match sh_map st !! key with
                 | None => Err (Panic "no entry found for key")
                 | Some e =>
                     if referenced e then sweep_loop fuel protect (reprieve key e (Datatypes.S h) st) evicted
                     else sweep_loop fuel protect (evict_at h key e st) (evicted + 1)
                 end
        end
    end
  else Ok (st, evicted).

(** Two steps for every entry and every set bit are enough. *)
Definition sweep_fuel (st : ShardInner) : nat := (4 * length (ring st) + 2)%nat.

Definition evict_to_budget (protect : K) (st : ShardInner) : result (ShardInner * Z) :=
  sweep_loop (sweep_fuel st) protect st 0.

(** What a hit does to the entry differs between the two caches. *)
Variable touch : Entry → Entry.

Definition touch_key (key : K) (st : ShardInner) : ShardInner :=
  mkShardInner (alter touch key (sh_map st)) (ring st) (hand st) (sh_bytes st) (sh_budget st).

(** The new entry, just behind the hand. *)
Definition place (key : K) (v : V) (bytes : Z) (s : S) (st : ShardInner) : ShardInner :=
  let at_ := Nat.min (hand st) (length (ring st)) in
  mkShardInner (<[key := mkEntry v bytes false s]> (sh_map st))
    (take at_ (ring st) ++ key :: drop at_ (ring st)) (Datatypes.S at_) (sh_bytes st + bytes) (sh_budget st).

Definition insert (key : K) (v : V) (bytes : Z) (s : S) (st : ShardInner) : result (V * Z * ShardInner) :=
  match sh_map st !! key with
  | Some existing => Ok (value existing, 0, touch_key key st)
  | None =>
      '(st, evicted) ← evict_to_budget key (place key v bytes s st);
      Ok (v, evicted, st)
  end.

Definition empty_shard (budget : Z) : ShardInner := mkShardInner ∅ [] 0 0 budget.
End clock.
Arguments Entry : clear implicits.
Arguments ShardInner K {_ _} V S.

(** * The shard's invariant *)

Section invariant.
Context {K : Type} `{Countable K} {V S : Type}.
Implicit Types (st : ShardInner K V S) (m : gmap K (Entry V S)).

Definition bytes_at m (k : K) : Z := from_option e_bytes 0 (m !! k).
Fixpoint ring_bytes m (ks : list K) : Z :=
  match ks with [] => 0 | k :: ks => bytes_at m k + ring_bytes m ks end.
Definition bit_at m (k : K) : nat := if m !! k is Some e then (if referenced e then 1 else 0)%nat else 0%nat.
Fixpoint ring_bits m (ks : list K) : nat :=
  match ks with [] => 0%nat | k :: ks => (bit_at m k + ring_bits m ks)%nat end.

(** Every live key is in the ring exactly once, and the bytes are those of the live entries. *)
Record shard_ok st : Prop := {
  so_nodup : NoDup (ring st);
  so_ring k : k ∈ ring st ↔ is_Some (sh_map st !! k);
  so_bytes : sh_bytes st = ring_bytes (sh_map st) (ring st);
  so_nonneg k e : sh_map st !! k = Some e → 0 <= e_bytes e;
}.

(** What a sweep may change: bits, and which entries are there. *)
Record swept (protect : K) st st' : Prop := {
  sw_budget : sh_budget st' = sh_budget st;
  sw_entry k e : sh_map st' !! k = Some e → ∃ e0, sh_map st !! k = Some e0 ∧
    value e = value e0 ∧ e_bytes e = e_bytes e0 ∧ stamp e = stamp e0;
  sw_protect : sh_map st' !! protect = sh_map st !! protect;
}.

Lemma swept_refl p st : swept p st st.
Proof. split; [done| |done]. eauto. Qed.

Lemma swept_trans p a b c : swept p a b → swept p b c → swept p a c.
Proof.
  intros [Hb1 He1 Hp1] [Hb2 He2 Hp2]. split; [congruence| |congruence]. intros k e Hk.
  destruct (He2 _ _ Hk) as (e1 & Hk1 & ? & ? & ?). destruct (He1 _ _ Hk1) as (e0 & ? & ? & ? & ?).
  exists e0. split_and!; [done|congruence..].
Qed.

(** The sums see the map only at the keys they range over. *)
Lemma ring_bytes_ext m m' ks : (∀ k, k ∈ ks → bytes_at m k = bytes_at m' k) → ring_bytes m ks = ring_bytes m' ks.
Proof. induction ks as [|k ks IH]; cbn; [done|]. intros Hk. rewrite Hk, IH; [done|intros; apply Hk|]; set_solver. Qed.

Lemma ring_bits_ext m m' ks : (∀ k, k ∈ ks → bit_at m k = bit_at m' k) → ring_bits m ks = ring_bits m' ks.
Proof. induction ks as [|k ks IH]; cbn; [done|]. intros Hk. rewrite Hk, IH; [done|intros; apply Hk|]; set_solver. Qed.

Lemma ring_bytes_perm m ks ks' : ks ≡ₚ ks' → ring_bytes m ks = ring_bytes m ks'.
Proof. induction 1; cbn; lia. Qed.

Lemma ring_bits_perm m ks ks' : ks ≡ₚ ks' → ring_bits m ks = ring_bits m ks'.
Proof. induction 1; cbn; lia. Qed.

Lemma ring_bits_le m ks : (ring_bits m ks <= length ks)%nat.
Proof. induction ks as [|k ks IH]; cbn; [done|]. unfold bit_at. repeat case_match; lia. Qed.

Lemma ring_bytes_nonneg m ks : (∀ k e, m !! k = Some e → 0 <= e_bytes e) → 0 <= ring_bytes m ks.
Proof.
  intros Hm. induction ks as [|k ks IH]; cbn; [done|]. unfold bytes_at at 1. destruct (m !! k) as [e|] eqn:E; cbn; [|lia].
  specialize (Hm _ _ E). lia.
Qed.

(** * The sweep ends *)

Definition norm_hand st : nat := if (length (ring st) <=? hand st)%nat then 0%nat else hand st.

(** A step evicts, clears a bit, or skips the protected key; it never skips twice in a row. *)
Definition sweep_measure (p : K) st : nat :=
  (2 * (length (ring st) + ring_bits (sh_map st) (ring st)) +
   (if decide (ring st !! norm_hand st = Some p) then 1 else 0))%nat.

Lemma sweep_measure_fuel p st : (sweep_measure p st <= sweep_fuel st)%nat.
Proof. unfold sweep_measure, sweep_fuel. pose proof (ring_bits_le (sh_map st) (ring st)). case_decide; lia. Qed.

Lemma norm_hand_lookup st : (0 < length (ring st))%nat → ∃ k, ring st !! norm_hand st = Some k.
Proof. intros Hl. apply lookup_lt_is_Some. unfold norm_hand. destruct (Nat.leb_spec (length (ring st)) (hand st)); lia. Qed.

(** The hand moves on from the protected key to another one. *)
Lemma skip_measure p st h : shard_ok st → (1 < length (ring st))%nat → h = norm_hand st → ring st !! h = Some p →
  (sweep_measure p (set_hand (Datatypes.S h) st) < sweep_measure p st)%nat.
Proof.
  intros Hok Hl -> Hp. unfold sweep_measure. cbn [ring sh_map set_hand]. rewrite (decide_True _ _ Hp).
  rewrite decide_False; [lia|]. intros Hq. pose proof (NoDup_lookup _ _ _ _ (so_nodup _ Hok) Hp Hq) as E.
  apply lookup_lt_Some in Hp. unfold norm_hand in E at 2. cbn [ring hand set_hand] in E.
  destruct (Nat.leb_spec (length (ring st)) (Datatypes.S (norm_hand st))); lia.
Qed.

Lemma reprieve_ok p st h key e : shard_ok st → ring st !! h = Some key → key ≠ p → sh_map st !! key = Some e → referenced e = true →
  let st' := reprieve key e (Datatypes.S h) st in
  shard_ok st' ∧ swept p st st' ∧ (sweep_measure p st' < sweep_measure p st)%nat.
Proof.
  intros [Hnd Hr Hb Hn] Hh Hne He Href st'. assert (∀ k, bytes_at (sh_map st') k = bytes_at (sh_map st) k) as Hbytes.
  { intros k. unfold bytes_at, st'. cbn. destruct (decide (k = key)) as [->|]; [by rewrite lookup_insert_eq, He|by rewrite lookup_insert_ne]. }
  split_and!.
  - split; cbn.
    + done.
    + intros k. rewrite Hr. destruct (decide (k = key)) as [->|]; [rewrite lookup_insert_eq, He; split; eauto|by rewrite lookup_insert_ne].
    + rewrite Hb. apply ring_bytes_ext. intros k _. symmetry. apply Hbytes.
    + intros k e' Hk. destruct (decide (k = key)) as [->|]; [rewrite lookup_insert_eq in Hk; injection Hk as <-; exact (Hn key e He)|].
      rewrite lookup_insert_ne in Hk by done. by apply (Hn k).
  - split; cbn; [done| |by rewrite lookup_insert_ne].
    intros k e' Hk. destruct (decide (k = key)) as [->|]; [rewrite lookup_insert_eq in Hk; injection Hk as <-; by exists e|].
    rewrite lookup_insert_ne in Hk by done. by exists e'.
  - pose proof (delete_Permutation _ _ _ Hh) as Hp. unfold sweep_measure. change (ring st') with (ring st).
    assert (key ∉ delete h (ring st)) as Hnot. { rewrite Hp in Hnd. by apply NoDup_cons in Hnd as [? _]. }
    assert (bit_at (sh_map st') key = 0%nat ∧ bit_at (sh_map st) key = 1%nat) as [Hb0 Hb1].
    { unfold bit_at. cbn. by rewrite lookup_insert_eq, He, Href. }
    rewrite !(ring_bits_perm _ _ _ Hp). cbn [ring_bits]. rewrite Hb0, Hb1.
    rewrite (ring_bits_ext (sh_map st') (sh_map st)).
    2: { intros k Hk. unfold bit_at. cbn. rewrite lookup_insert_ne; [done|by intros ->]. }
    repeat case_decide; lia.
Qed.

Lemma evict_ok p st h key e : shard_ok st → ring st !! h = Some key → key ≠ p → sh_map st !! key = Some e → referenced e = false →
  let st' := evict_at h key e st in
  shard_ok st' ∧ swept p st st' ∧ (sweep_measure p st' < sweep_measure p st)%nat ∧ length (ring st) = Datatypes.S (length (ring st')).
Proof.
  intros [Hnd Hr Hb Hn] Hh Hne He Href st'. pose proof (delete_Permutation _ _ _ Hh) as Hp.
  assert (key ∉ delete h (ring st) ∧ NoDup (delete h (ring st))) as [Hnot Hnd'] by (rewrite Hp in Hnd; by apply NoDup_cons in Hnd).
  assert (∀ k, k ∈ delete h (ring st) → sh_map st' !! k = sh_map st !! k) as Hsame.
  { intros k Hk. cbn. rewrite lookup_delete_ne; [done|by intros ->]. }
  assert (length (ring st) = Datatypes.S (length (ring st'))) as Hlen by (by rewrite (Permutation_length Hp)).
  split_and!; [..|done].
  - split; cbn.
    + done.
    + intros k. destruct (decide (k = key)) as [->|Hk].
      * rewrite lookup_delete_eq. split; [done|intros [? ?]; done].
      * rewrite lookup_delete_ne by done. rewrite <- Hr. rewrite Hp at 2. set_solver.
    + rewrite Hb, (ring_bytes_perm _ _ _ Hp). cbn. unfold bytes_at at 1. rewrite He. cbn.
      rewrite (ring_bytes_ext (sh_map st) (delete key (sh_map st)) (delete h (ring st))); [lia|].
      intros k Hk. unfold bytes_at. by rewrite <- (Hsame k Hk).
    + intros k e' [_ Hk]%lookup_delete_Some. by apply (Hn k).
  - split; cbn; [done| |by rewrite lookup_delete_ne]. intros k e' [_ Hk]%lookup_delete_Some. by exists e'.
  - unfold sweep_measure. rewrite Hlen, (ring_bits_perm (sh_map st) _ _ Hp). cbn [ring_bits].
    rewrite (ring_bits_ext (sh_map st') (sh_map st) (ring st')) by (intros k Hk; unfold bit_at; by rewrite (Hsame k Hk)).
    change (ring st') with (delete h (ring st)). repeat case_decide; lia.
Qed.

Lemma set_hand_ok p h st : shard_ok st → shard_ok (set_hand h st) ∧ swept p st (set_hand h st).
Proof. intros []. split; [by split|split; [done| |done]]. eauto. Qed.

(** What a sweep leaves: the shard within its budget, or one entry. *)
Lemma sweep_loop_ok fuel p st n : shard_ok st → (sweep_measure p st <= fuel)%nat →
  ∃ st' d, sweep_loop fuel p st n = Ok (st', n + d) ∧ shard_ok st' ∧ swept p st st' ∧ over_budget st' = false ∧
    0 <= d ∧ zlen (ring st') + d = zlen (ring st).
Proof.
  revert st n. induction fuel as [|fuel IH]; intros st n Hok Hm.
  all: cbn [sweep_loop]; destruct (over_budget st) eqn:Ho;
    [|exists st, 0; rewrite !Z.add_0_r; split_and!; [done|done|apply swept_refl|done|done|done]].
  all: pose proof Ho as [_ Hl%Nat.ltb_lt]%andb_true_iff.
  { unfold sweep_measure in Hm. lia. }
  change (if (length (ring st) <=? hand st)%nat then 0%nat else hand st) with (norm_hand st).
  destruct (norm_hand_lookup st) as [key Hk]; [lia|]. rewrite Hk.
  assert (∀ st1 d1, shard_ok st1 → swept p st st1 → (sweep_measure p st1 < sweep_measure p st)%nat → 0 <= d1 →
    zlen (ring st1) + d1 = zlen (ring st) → ∃ st' d, sweep_loop fuel p st1 (n + d1) = Ok (st', n + d) ∧ shard_ok st' ∧
    swept p st st' ∧ over_budget st' = false ∧ 0 <= d ∧ zlen (ring st') + d = zlen (ring st)) as Hstep.
  { intros st1 d1 Hok1 Hs1 Hm1 Hd1 Hr1. destruct (IH st1 (n + d1) Hok1 ltac:(lia)) as (st' & d & E & ? & ? & ? & ? & ?).
    exists st', (d1 + d). rewrite E, Z.add_assoc. split_and!; [done|done|by eapply swept_trans|done|lia|lia]. }
  destruct (decide (key = p)) as [->|Hne].
  - destruct (set_hand_ok p (Datatypes.S (norm_hand st)) st Hok).
    destruct (Hstep (set_hand (Datatypes.S (norm_hand st)) st) 0) as (st' & d & E & ?);
      [done|done|by apply skip_measure|done|by rewrite Z.add_0_r|].
    exists st', d. by rewrite <- E, Z.add_0_r.
  - destruct (proj1 (so_ring _ Hok key)) as [e He]; [by eapply list_elem_of_lookup_2|]. rewrite He.
    destruct (referenced e) eqn:Href.
    + destruct (reprieve_ok p st (norm_hand st) key e) as (? & ? & ?); [done..|].
      destruct (Hstep (reprieve key e (Datatypes.S (norm_hand st)) st) 0) as (st' & d & E & ?); [done|done|done|done|by rewrite Z.add_0_r|].
      exists st', d. by rewrite <- E, Z.add_0_r.
    + destruct (evict_ok p st (norm_hand st) key e) as (? & ? & ? & Hlen); [done..|].
      apply Hstep; [done|done|done|done|]. unfold zlen. rewrite Hlen. lia.
Qed.

(** * Inserting *)

(** The entries of a shard are the blocks their keys load to. *)
Definition holds_loaded (load : K → option (V * Z)) st : Prop :=
  ∀ k e, sh_map st !! k = Some e → load k = Some (value e, e_bytes e).

(** Within its budget, or holding a single block. *)
Definition within st : Prop := sh_bytes st <= sh_budget st ∨ (length (ring st) <= 1)%nat.

Lemma over_budget_within st : over_budget st = false → within st.
Proof.
  unfold over_budget, within. intros [Ho|Ho]%andb_false_iff; [left; by apply Z.ltb_ge|right; by apply Nat.ltb_ge].
Qed.

Lemma place_ok key v bytes s st : shard_ok st → sh_map st !! key = None → 0 <= bytes → shard_ok (place key v bytes s st).
Proof.
  intros [Hnd Hr Hb Hn] Hk Hbytes. assert (key ∉ ring st) as Hnot by (rewrite Hr, Hk; by intros [? ?]).
  assert (ring (place key v bytes s st) ≡ₚ key :: ring st) as Hp.
  { cbn. rewrite <- Permutation_middle. by rewrite take_drop. }
  split.
  - rewrite Hp. by apply NoDup_cons.
  - intros k. rewrite Hp. cbn. destruct (decide (k = key)) as [->|].
    + rewrite lookup_insert_eq. split; [eauto|intros; apply list_elem_of_here].
    + rewrite lookup_insert_ne by done. rewrite <- Hr. set_solver.
  - rewrite (ring_bytes_perm _ _ _ Hp). cbn. unfold bytes_at at 1. rewrite lookup_insert_eq. cbn. rewrite Hb.
    rewrite (ring_bytes_ext (<[key := _]> (sh_map st)) (sh_map st)); [lia|].
    intros k Hin. unfold bytes_at. rewrite lookup_insert_ne; [done|by intros ->].
  - intros k e. cbn. destruct (decide (k = key)) as [->|]; [rewrite lookup_insert_eq; by intros [= <-]|].
    rewrite lookup_insert_ne by done. apply Hn.
Qed.

(** A hit changes neither the block nor its size. *)
Class Touching (touch : Entry V S → Entry V S) : Prop := {
  touch_value e : value (touch e) = value e;
  touch_bytes e : e_bytes (touch e) = e_bytes e;
}.

Context (touch : Entry V S → Entry V S) `{!Touching touch} (load : K → option (V * Z)).

Lemma lookup_touched key k st : sh_map (touch_key touch key st) !! k = (if decide (k = key) then touch else id) <$> sh_map st !! k.
Proof.
  cbn. case_decide as E; [subst; by rewrite lookup_alter_eq|]. rewrite lookup_alter_ne by done. by destruct (sh_map st !! k).
Qed.

Lemma touch_key_ok key st : shard_ok st → holds_loaded load st → within st →
  shard_ok (touch_key touch key st) ∧ holds_loaded load (touch_key touch key st) ∧ within (touch_key touch key st).
Proof.
  intros [Hnd Hr Hb Hn] Hl Hw.
  assert (∀ k e, sh_map (touch_key touch key st) !! k = Some e → ∃ e0, sh_map st !! k = Some e0 ∧ value e = value e0 ∧ e_bytes e = e_bytes e0) as Hold.
  { intros k e. rewrite lookup_touched. destruct (sh_map st !! k) as [e0|]; [|done]. intros [= <-]. exists e0.
    split; [done|]. case_decide; [|done]. by rewrite touch_value, touch_bytes. }
  split_and!; [split| |exact Hw].
  - done.
  - intros k. rewrite lookup_touched, fmap_is_Some. apply Hr.
  - cbn [sh_bytes touch_key ring]. rewrite Hb. apply ring_bytes_ext. intros k _. unfold bytes_at. rewrite lookup_touched.
    destruct (sh_map st !! k); [|done]. cbn. case_decide; [by rewrite touch_bytes|done].
  - intros k e (e0 & He0 & _ & ->)%Hold. by apply (Hn k).
  - intros k e (e0 & He0 & -> & ->)%Hold. by apply Hl.
Qed.

(** Inserting a loaded block never panics, answers that block, and keeps it. *)
Lemma insert_ok key v bytes s st : shard_ok st → holds_loaded load st → within st → load key = Some (v, bytes) → 0 <= bytes →
  ∃ evicted st', insert touch key v bytes s st = Ok (v, evicted, st') ∧ shard_ok st' ∧ holds_loaded load st' ∧ within st' ∧
    sh_budget st' = sh_budget st ∧ is_Some (sh_map st' !! key) ∧ 0 <= evicted.
Proof.
  intros Hok Hl Hw Hload Hbytes. unfold insert. destruct (sh_map st !! key) as [e|] eqn:E.
  - destruct (touch_key_ok key st) as (? & ? & ?); [done..|]. pose proof (Hl _ _ E) as He. rewrite Hload in He. injection He as -> ->.
    exists 0, (touch_key touch key st). split_and!; [done..| |done]. rewrite lookup_touched, E. eauto.
  - destruct (sweep_loop_ok (sweep_fuel (place key v bytes s st)) key (place key v bytes s st) 0) as (st' & d & Es & Hok' & [Hb He Hp] & Ho & Hd & _);
      [by apply place_ok|apply sweep_measure_fuel|].
    unfold evict_to_budget. rewrite Es. exists (0 + d), st'. split_and!; [done|done| |by apply over_budget_within|done| |lia].
    + intros k e' Hk. destruct (He _ _ Hk) as (e0 & He0 & -> & -> & _). revert He0. cbn.
      destruct (decide (k = key)) as [->|]; [rewrite lookup_insert_eq; by intros [= <-]|]. rewrite lookup_insert_ne by done. apply Hl.
    + rewrite Hp. cbn. rewrite lookup_insert_eq. eauto.
Qed.
End invariant.
