(* ===== verification/ShardedCache.v ===== *)
(** The shards of a cache: how many there are, which one a key goes to, and the sections under
    their locks, of [graph-format/src/blockcache.rs].  Generic like [ClockCache].

    A read is two sections: looking for the block, and on a miss, after loading it outside the
    lock, inserting it.  Other threads run between the two. *)

From S2P Require Import Prelude ClockCache.

Definition MIN_SHARD_BYTES : Z := 4 * 2 ^ 20.
Definition MAX_SHARDS : Z := 32.

(** [usize::next_power_of_two]. *)
Definition next_power_of_two (n : Z) : result Z :=
  if 2 ^ 63 <? n then Err (Panic "next_power_of_two overflows") else Ok (2 ^ Z.log2_up n).

(** [while shards > 1 && budget / shards == 0]. *)
Fixpoint halve_loop (fuel : nat) (budget shards : Z) : result Z :=
  if (1 <? shards) && (budget / shards =? 0) then
    match fuel with O => Err OutOfFuel | S fuel => halve_loop fuel budget (shards / 2) end
  else Ok shards.

(** [while by_budget * 2 * MIN_SHARD_BYTES <= budget && by_budget < MAX_SHARDS]. *)
Fixpoint by_budget_loop (fuel : nat) (budget by_budget : Z) : result Z :=
  if (by_budget * 2 * MIN_SHARD_BYTES <=? budget) && (by_budget <? MAX_SHARDS) then
    match fuel with O => Err OutOfFuel | S fuel => by_budget_loop fuel budget (by_budget * 2) end
  else Ok by_budget.

(** Halving from, or doubling to, [MAX_SHARDS] takes five rounds. *)
Definition shard_rounds : nat := 5.

Section sharded.
Context {K : Type} `{Countable K} {V S : Type}.
Variable shard_hash : K → Z.

Record Shard := mkShard {
  inner : ShardInner K V S;
  hits : Z;
  misses : Z;
  evictions : Z;
}.

Record Cache := mkCache {
  shards : list Shard;
  mask : Z;
}.

Definition with_shards (budget_bytes n : Z) : result Cache :=
  let budget := Z.max budget_bytes 1 in
  p ← next_power_of_two (Z.max n 1);
  shards ← halve_loop shard_rounds budget (Z.min p MAX_SHARDS);
  Ok (mkCache (replicate (Z.to_nat shards) (mkShard (empty_shard (budget / shards)) 0 0 0)) (shards - 1)).

(** The number of processors is asked of the system. *)
Definition new_cache (available_parallelism budget_bytes : Z) : result Cache :=
  let budget := Z.max budget_bytes 1 in
  p ← next_power_of_two (Z.min (available_parallelism * 2) (2 ^ 64 - 1));
  by_budget ← by_budget_loop shard_rounds budget 1;
  with_shards budget (Z.min (Z.min p MAX_SHARDS) by_budget).

Definition shard_index (c : Cache) (key : K) : nat := Z.to_nat (Z.land (shard_hash key) (mask c)).

Definition set_shard (i : nat) (sh : Shard) (c : Cache) : Cache := mkCache (<[i := sh]> (shards c)) (mask c).

(** The section under the read lock, and the counter that follows it. *)
Definition find (touch : Entry V S → Entry V S) (key : K) (c : Cache) : result (option V * Cache) :=
  let i := shard_index c key in
  match shards c !! i with
  | None => Err (Panic "index out of bounds")
  | Some sh =>
      match sh_map (inner sh) !! key with
      | Some e => Ok (Some (value e), set_shard i (mkShard (touch_key touch key (inner sh)) (as_u64 (hits sh + 1)) (misses sh) (evictions sh)) c)
      | None => Ok (None, set_shard i (mkShard (inner sh) (hits sh) (as_u64 (misses sh + 1)) (evictions sh)) c)
      end
  end.

(** The section under the write lock. *)
Definition install (touch : Entry V S → Entry V S) (key : K) (v : V) (bytes : Z) (s : S) (c : Cache) : result (V * Cache) :=
  let i := shard_index c key in
  match shards c !! i with
  | None => Err (Panic "index out of bounds")
  | Some sh =>
      '(canonical, evicted, st) ← insert touch key v bytes s (inner sh);
      Ok (canonical, set_shard i (mkShard st (hits sh) (misses sh)
            (if 0 <? evicted then as_u64 (evictions sh + evicted) else evictions sh)) c)
  end.

(** A read with nothing in between. *)
Definition get_or_load (touch : Entry V S → Entry V S) (key : K) (load : result V) (size : V → Z) (s : S) (c : Cache) :
    result (result V * Cache) :=
  '(found, c) ← find touch key c;
  match found with
  | Some v => Ok (Ok v, c)
  | None =>
      match load with
      | Err e => Ok (Err e, c)
      | Ok v => '(v, c) ← install touch key v (size v) s c; Ok (Ok v, c)
      end
  end.

Definition cache_len (c : Cache) : Z := foldr (λ sh acc, Z.of_nat (size (sh_map (inner sh))) + acc) 0 (shards c).
Definition cache_bytes (c : Cache) : Z := foldr (λ sh acc, sh_bytes (inner sh) + acc) 0 (shards c).
End sharded.
Arguments Shard K {_ _} V S.
Arguments Cache K {_ _} V S.

(** * How many shards *)

Lemma halve_loop_ok fuel budget n : 1 <= budget → 0 <= n <= Z.of_nat fuel →
  ∃ k, halve_loop fuel budget (2 ^ n) = Ok (2 ^ k) ∧ 0 <= k <= n ∧ 1 <= budget / 2 ^ k.
Proof.
  intros Hb. revert n. induction fuel as [|fuel IH]; intros n Hn.
  all: cbn [halve_loop]; destruct ((1 <? 2 ^ n) && (budget / 2 ^ n =? 0)) eqn:E.
  - apply andb_true_iff in E as [E _]. apply Z.ltb_lt in E. replace n with 0 in E by lia. done.
  - exists n. split; [done|]. split; [lia|]. replace n with 0 by lia. by rewrite Z.pow_0_r, Z.div_1_r.
  - apply andb_true_iff in E as [E _]. apply Z.ltb_lt in E. assert (n ≠ 0) by (intros ->; done).
    replace (2 ^ n / 2) with (2 ^ (n - 1)).
    { destruct (IH (n - 1)) as (k & -> & ? & ?); [lia|]. exists k. split; [done|]. split; [lia|done]. }
    replace n with (n - 1 + 1) at 2 by lia. rewrite Z.pow_add_r by lia. by rewrite Z.pow_1_r, Z.div_mul.
  - exists n. split; [done|]. split; [lia|]. apply andb_false_iff in E as [E|E].
    + apply Z.ltb_ge in E. assert (2 ^ n = 1) as -> by (pose proof (Z.pow_pos_nonneg 2 n); lia). by rewrite Z.div_1_r.
    + apply Z.eqb_neq in E. pose proof (Z.div_pos budget (2 ^ n)). pose proof (Z.pow_pos_nonneg 2 n). lia.
Qed.

Lemma min_max_shards n : 0 <= n → Z.min (2 ^ n) MAX_SHARDS = 2 ^ Z.min n 5.
Proof.
  intros Hn. unfold MAX_SHARDS. change 32 with (2 ^ 5). destruct (Z.le_ge_cases n 5) as [Hle|Hle].
  - rewrite (Z.min_l n) by done. apply Z.min_l. by apply Z.pow_le_mono_r.
  - rewrite (Z.min_r n) by done. apply Z.min_r. by apply Z.pow_le_mono_r.
Qed.

(** * The cache's invariant *)

Section invariant.
Context {K : Type} `{Countable K} {V S : Type}.
Variable shard_hash : K → Z.
Variable load : K → option (V * Z).
Hypothesis load_nonneg : ∀ k v n, load k = Some (v, n) → 0 <= n.
Implicit Types (c : Cache K V S) (sh : Shard K V S).

Record inner_ok (per_shard : Z) (st : ShardInner K V S) : Prop := {
  io_shard : shard_ok st;
  io_loaded : holds_loaded load st;
  io_within : within st;
  io_budget : sh_budget st = per_shard;
}.

(** [budget] is the caller's; the shards are a power of two and share it. *)
Record cache_ok (budget per_shard : Z) c : Prop := {
  co_shards : ∃ n, 0 <= n ∧ zlen (shards c) = 2 ^ n ∧ mask c = 2 ^ n - 1;
  co_budget : zlen (shards c) * per_shard <= budget;
  co_per : 1 <= per_shard;
  co_inner : Forall (λ sh, inner_ok per_shard (inner sh)) (shards c);
}.

Lemma empty_ok per : 0 <= per → inner_ok per (empty_shard per).
Proof.
  intros Hper. split; [split|..]; cbn.
  - apply NoDup_nil_2.
  - intros k. rewrite lookup_empty. split; [by intros ?%elem_of_nil|by intros [? ?]].
  - done.
  - intros k e. by rewrite lookup_empty.
  - intros k e. cbn. by rewrite lookup_empty.
  - by left.
  - done.
Qed.

Lemma with_shards_ok budget n : n <= 2 ^ 63 → ∃ c per, with_shards (K := K) (V := V) (S := S) budget n = Ok c ∧ cache_ok (Z.max budget 1) per c.
Proof.
  intros Hn. unfold with_shards, next_power_of_two. destruct (Z.ltb_spec (2 ^ 63) (Z.max n 1)); [lia|]. cbn [mbind result_bind].
  rewrite min_max_shards by apply Z.log2_up_nonneg.
  destruct (halve_loop_ok shard_rounds (Z.max budget 1) (Z.min (Z.log2_up (Z.max n 1)) 5)) as (k & -> & Hk & Hd);
    [lia|pose proof (Z.log2_up_nonneg (Z.max n 1)); unfold shard_rounds; lia|].
  cbn [mbind result_bind]. pose proof (Z.pow_pos_nonneg 2 k). eexists _, (Z.max budget 1 / 2 ^ k). split; [done|].
  assert (zlen (replicate (Z.to_nat (2 ^ k)) (mkShard (empty_shard (K := K) (V := V) (S := S) (Z.max budget 1 / 2 ^ k)) 0 0 0)) = 2 ^ k) as Hlen.
  { unfold zlen. rewrite length_replicate. lia. }
  split; cbn [shards mask].
  - exists k. split_and!; [lia|done|done].
  - rewrite Hlen. apply Z.mul_div_le. lia.
  - done.
  - apply Forall_replicate. apply empty_ok. lia.
Qed.

Lemma shard_index_lt budget per c key : cache_ok budget per c → (shard_index shard_hash c key < length (shards c))%nat.
Proof.
  intros [(n & Hn & Hl & Hm) _ _ _]. unfold shard_index. rewrite Hm. change (2 ^ n - 1) with (Z.pred (2 ^ n)). rewrite <- Z.ones_equiv, Z.land_ones by done.
  pose proof (Z.mod_pos_bound (shard_hash key) (2 ^ n) ltac:(by apply Z.pow_pos_nonneg)). unfold zlen in Hl. lia.
Qed.

Lemma shard_of budget per c key : cache_ok budget per c →
  ∃ sh, shards c !! shard_index shard_hash c key = Some sh ∧ inner_ok per (inner sh).
Proof.
  intros Hc. destruct (lookup_lt_is_Some_2 (shards c) (shard_index shard_hash c key)) as [sh Hsh]; [by eapply shard_index_lt|].
  exists sh. split; [done|]. exact (Forall_lookup_1 _ _ _ _ (co_inner _ _ _ Hc) Hsh).
Qed.

Lemma set_shard_ok budget per c i sh : cache_ok budget per c → inner_ok per (inner sh) → cache_ok budget per (set_shard i sh c).
Proof.
  intros [Hs Hb Hp Hi] Hsh. split; cbn [shards mask set_shard]; unfold zlen in *; rewrite ?length_insert; try done. by apply Forall_insert.
Qed.

Section sections.
Context (touch : Entry V S → Entry V S) `{!Touching touch}.

Lemma find_ok budget per c key : cache_ok budget per c →
  ∃ found c', find shard_hash touch key c = Ok (found, c') ∧ cache_ok budget per c' ∧ ∀ v, found = Some v → ∃ n, load key = Some (v, n).
Proof.
  intros Hc. destruct (shard_of budget per c key Hc) as (sh & Hsh & [Hok Hl Hw Hb]). unfold find. rewrite Hsh.
  destruct (sh_map (inner sh) !! key) as [e|] eqn:E; eexists _, _; (split; [done|]).
  - destruct (touch_key_ok touch load key (inner sh)) as (? & ? & ?); [done..|].
    split; [by apply set_shard_ok|]. intros v [= <-]. exists (e_bytes e). by apply Hl.
  - split; [by apply set_shard_ok|done].
Qed.

(** The block is there until another section runs. *)
Lemma install_ok budget per c key v n s : cache_ok budget per c → load key = Some (v, n) →
  ∃ c', install shard_hash touch key v n s c = Ok (v, c') ∧ cache_ok budget per c' ∧
    ∀ touch', ∃ c'', find shard_hash touch' key c' = Ok (Some v, c'').
Proof.
  intros Hc Hload. destruct (shard_of budget per c key Hc) as (sh & Hsh & [Hok Hl Hw Hb]). unfold install. rewrite Hsh.
  destruct (insert_ok touch load key v n s (inner sh)) as (ev & st & -> & Hok' & Hl' & Hw' & Hb' & [e He] & _);
    [done|done|done|done|by eapply load_nonneg|]. cbn [mbind result_bind]. eexists. split; [done|].
  split; [apply set_shard_ok; [done|]; split; [done|done|done|by cbn; rewrite Hb']|].
  intros touch'. unfold find, shard_index, set_shard. cbn [shards mask]. rewrite list_lookup_insert_eq by (by eapply shard_index_lt).
  cbn [inner]. rewrite He. pose proof (Hl' _ _ He) as E. rewrite Hload in E. injection E as <- _. eauto.
Qed.
End sections.

(** * The budget *)

(** A shard that holds a single block which fits is within its share. *)
Lemma shard_share per st : inner_ok per st → 1 <= per → (∀ k v n, load k = Some (v, n) → n <= per) → sh_bytes st <= per.
Proof.
  intros [[Hnd Hr Hb Hn] Hl [Hw|Hw] <-] Hper Hfit; [done|]. rewrite Hb.
  destruct (ring st) as [|k [|k' ks]] eqn:Er; cbn in *; [lia| |lia]. unfold bytes_at.
  destruct (sh_map st !! k) as [e|] eqn:E; cbn; [|lia]. specialize (Hfit _ _ _ (Hl _ _ E)). lia.
Qed.

Lemma cache_bytes_bounded budget per c : cache_ok budget per c → (∀ k v n, load k = Some (v, n) → n <= per) → 0 <= cache_bytes c <= budget.
Proof.
  intros [_ Hb Hp Hi] Hfit. cut (0 <= cache_bytes c <= zlen (shards c) * per); [lia|]. clear Hb. unfold cache_bytes, zlen.
  induction Hi as [|sh l Hsh Hl IH]; cbn [foldr length]; [lia|]. rewrite Nat2Z.inj_succ.
  pose proof (shard_share per _ Hsh Hp Hfit). destruct Hsh as [[_ _ Hbytes Hn] _ _ _].
  pose proof (ring_bytes_nonneg _ (ring (inner sh)) Hn). lia.
Qed.
End invariant.
