(* ===== verification/BlockFile.v ===== *)
(** The block container of [graph-format/src/blockfile.rs]: records packed into blocks, sealed
    and written behind one another, a directory and a footer.

    A file is its byte image; the calls that create, flush and sync it are not modelled, and
    neither are their failures.  A writer seals its blocks itself, or hands them to a pool of
    workers and writes them in order as they come back; the pool is a machine whose events are
    the steps of the appending thread and the completions of workers, in any order.  The nonce
    drawn for a block is an argument, indexed by the block. *)

From S2P Require Import Prelude Wire Crypto BlockCodec Isam.

Definition BLOCKFILE_MAGIC : bytes := lit "SLBLK001".
Definition BLOCKFILE_MAGIC_ENC : bytes := lit "SLBLKE01".
Definition BLOCKFILE_MAGIC_RAW : bytes := lit "SLBLKR01".
Definition BLOCKFILE_MAGIC_RAW_ENC : bytes := lit "SLBLKX01".
Definition BLOCK_FOOTER_LEN : Z := 24.
Definition SCAN_READAHEAD : nat := 16.

Inductive BlockCodec := Zstd | Raw.

Definition magic_for (codec : BlockCodec) (encrypted : bool) : bytes :=
  match codec, encrypted with
  | Zstd, false => BLOCKFILE_MAGIC
  | Zstd, true => BLOCKFILE_MAGIC_ENC
  | Raw, false => BLOCKFILE_MAGIC_RAW
  | Raw, true => BLOCKFILE_MAGIC_RAW_ENC
  end.

Definition magic_kind (magic : bytes) : option (BlockCodec * bool) :=
  if decide (magic = BLOCKFILE_MAGIC) then Some (Zstd, false)
  else if decide (magic = BLOCKFILE_MAGIC_ENC) then Some (Zstd, true)
  else if decide (magic = BLOCKFILE_MAGIC_RAW) then Some (Raw, false)
  else if decide (magic = BLOCKFILE_MAGIC_RAW_ENC) then Some (Raw, true)
  else None.

Record RecordLoc := mkLoc { loc_block : Z; loc_slot : Z }.

Record DirEntry := mkDir {
  d_offset : Z;
  d_comp : Z;
  d_raw : Z;
  d_recs : Z;
  d_nonce : option bytes;
}.

Record Sealed := mkSealed {
  s_stored : bytes;
  s_raw_len : Z;
  s_recs : Z;
  s_nonce : option bytes;
}.

(** What a block is sealed from: its index, its bytes, the global index of its first record, and
    the number of its records. *)
Record SealJob := mkJob {
  j_idx : nat;
  j_raw : bytes;
  j_first : Z;
  j_count : Z;
}.

Record BlockFileWriter := mkWriter {
  bw_file : bytes;
  bw_offset : Z;
  bw_dir : list DirEntry;
  bw_offsets : list Z;
  bw_data : bytes;
  bw_next_block : nat;
  bw_next_write : nat;
  bw_records : Z;
}.

Record BlockFileReader := mkReader {
  bf_src : bytes;
  bf_dir : list DirEntry;
  block_start : list Z;
  bf_cipher : option FileCipher;
  bf_codec : BlockCodec;
}.

Section blockfile.
Context {crypto : Crypto}.
Variable zstd_encode_all : bytes → Z → result bytes.
Variable zstd_decode : bytes → list bytes * bool.
Variable random_nonce : nat → bytes.

(** * Writing *)

Section writer.
Variables (target_block_bytes : Z) (codec : BlockCodec) (zstd_level : Z) (cipher : option FileCipher).

Definition seal_block (raw : bytes) (ordinal : nat) (first_record rec_count : Z) : result (bytes * option bytes) :=
  comp ← (match codec with Zstd => compress zstd_encode_all raw zstd_level | Raw => Ok raw end : result bytes);
  match cipher with
  | Some c =>
      s ← file_seal c (BlockAad.block (Z.of_nat ordinal) first_record (as_u32 (zlen raw)) rec_count) (random_nonce ordinal) comp;
      Ok (s, Some (random_nonce ordinal))
  | None => Ok (comp, None)
  end.

Definition seal_job (j : SealJob) : result Sealed :=
  '(stored, nonce) ← seal_block (j_raw j) (j_idx j) (j_first j) (j_count j);
  Ok (mkSealed stored (as_u32 (zlen (j_raw j))) (j_count j) nonce).

Definition create_inner : BlockFileWriter :=
  let magic := magic_for codec (if cipher then true else false) in
  mkWriter magic (zlen magic) [] [0] [] 0 0 0.

Definition take_raw_block (w : BlockFileWriter) : option (bytes * Z) * BlockFileWriter :=
  if bool_decide (bw_data w = []) then (None, w)
  else
    let count := as_u32 (zlen (bw_offsets w) - 1) in
    (Some (le_bytes 4 count ++ concat (map (le_bytes 4) (bw_offsets w)) ++ bw_data w, count),
     mkWriter (bw_file w) (bw_offset w) (bw_dir w) [0] [] (bw_next_block w) (bw_next_write w) (bw_records w)).

Definition write_sealed (b : Sealed) (w : BlockFileWriter) : BlockFileWriter :=
  mkWriter (bw_file w ++ s_stored b) (bw_offset w + zlen (s_stored b))
    (bw_dir w ++ [mkDir (bw_offset w) (as_u32 (zlen (s_stored b))) (s_raw_len b) (s_recs b) (s_nonce b)])
    (bw_offsets w) (bw_data w) (bw_next_block w) (S (bw_next_write w)) (bw_records w).

(** The part of [flush_block] before the seal. *)
Definition next_job (w : BlockFileWriter) : option SealJob * BlockFileWriter :=
  match take_raw_block w with
  | (None, w) => (None, w)
  | (Some (raw, count), w) =>
      (Some (mkJob (bw_next_block w) raw (bw_records w) count),
       mkWriter (bw_file w) (bw_offset w) (bw_dir w) (bw_offsets w) (bw_data w) (S (bw_next_block w))
         (bw_next_write w) (bw_records w + count))
  end.

(** [flush_block] that seals inline. *)
Definition flush_block (w : BlockFileWriter) : result BlockFileWriter :=
  match next_job w with
  | (None, w) => Ok w
  | (Some j, w) => b ← seal_job j; Ok (write_sealed b w)
  end.

Definition target : Z := Z.max target_block_bytes 1.

(** The location of the next record, and the record in the open block. *)
Definition buffer_record (record : bytes) (w : BlockFileWriter) : RecordLoc * BlockFileWriter :=
  let data := bw_data w ++ record in
  (mkLoc (as_u32 (Z.of_nat (bw_next_block w))) (as_u32 (zlen (bw_offsets w) - 1)),
   mkWriter (bw_file w) (bw_offset w) (bw_dir w) (bw_offsets w ++ [as_u32 (zlen data)]) data
     (bw_next_block w) (bw_next_write w) (bw_records w)).

Definition block_full (w : BlockFileWriter) : bool := target <=? zlen (bw_data w).

Definition append_record (record : bytes) (w : BlockFileWriter) : result (RecordLoc * BlockFileWriter) :=
  let '(loc, w) := buffer_record record w in
  w ← (if block_full w then flush_block w else Ok w : result BlockFileWriter);
  Ok (loc, w).

Definition write_dir (e : DirEntry) : bytes :=
  le_bytes 8 (d_offset e) ++ le_bytes 4 (d_comp e) ++ le_bytes 4 (d_raw e) ++ le_bytes 4 (d_recs e) ++ nonce_bytes (d_nonce e).

(** The directory and the footer behind the blocks. *)
Definition write_trailer (w : BlockFileWriter) : bytes * Z :=
  let dir_bytes := concat (map write_dir (bw_dir w)) in
  (bw_file w ++ dir_bytes ++ le_bytes 8 (bw_offset w) ++ le_bytes 8 (zlen dir_bytes) ++ le_bytes 8 (zlen (bw_dir w)),
   zlen (bw_dir w)).

Definition finish (w : BlockFileWriter) : result (bytes * Z) :=
  w ← flush_block w; Ok (write_trailer w).

Fixpoint append_records (records : list bytes) (w : BlockFileWriter) : result (list RecordLoc * BlockFileWriter) :=
  match records with
  | [] => Ok ([], w)
  | r :: records =>
      '(loc, w) ← append_record r w;
      '(locs, w) ← append_records records w;
      Ok (loc :: locs, w)
  end.

(** A file from its records: where each was put, the image, and the number of blocks. *)
Definition write_file (records : list bytes) : result (list RecordLoc * (bytes * Z)) :=
  '(locs, w) ← append_records records create_inner;
  out ← finish w;
  Ok (locs, out).
End writer.

(** * Opening *)

Definition read_dir (encrypted : bool) : reader DirEntry := λ r,
  '(offset, r) ← read_le 8 r;
  '(comp_len, r) ← read_le 4 r;
  '(raw_len, r) ← read_le 4 r;
  '(rec_count, r) ← read_le 4 r;
  '(nonce, r) ← read_nonce encrypted r;
  Ok (mkDir offset comp_len raw_len rec_count nonce, r).

(** The prefix sums [open_src] builds beside the directory. *)
Fixpoint starts_from (acc : Z) (dir : list DirEntry) : list Z :=
  match dir with [] => [acc] | e :: dir => acc :: starts_from (acc + d_recs e) dir end.

Definition open_blocks (src : bytes) (cipher : option FileCipher) : result BlockFileReader :=
  let len := zlen src in
  if len <? zlen BLOCKFILE_MAGIC + BLOCK_FOOTER_LEN then Err (Bail "block file too short to be valid") else
  magic ← read_exact_at src 0 8;
  '(codec, encrypted) ← (match magic_kind magic with Some k => Ok k | None => Err (Bail "bad block file magic") end
                          : result (BlockCodec * bool));
  cipher ← (match encrypted, cipher with
            | true, Some c => Ok (Some c)
            | true, None => Err (Bail "block file is encrypted but no key was supplied")
            | false, Some _ => Err (Unsealed "block file")
            | false, None => Ok None
            end : result (option FileCipher));
  footer ← read_exact_at src (len - BLOCK_FOOTER_LEN) BLOCK_FOOTER_LEN;
  '(dir_offset, fr) ← read_le 8 footer;
  '(dir_len, fr) ← read_le 8 fr;
  '(block_count, fr) ← read_le 8 fr;
  if len <? Z.min (dir_offset + dir_len) (2 ^ 64 - 1) then Err (Bail "blockfile directory lies out of the file") else
  _ ← check_stored_len dir_len;
  dir_bytes ← read_exact_at src dir_offset dir_len;
  '(dir, _) ← read_many (read_dir encrypted) block_count dir_bytes;
  Ok (mkReader src dir (starts_from 0 dir) cipher codec).

Definition total_records (r : BlockFileReader) : Z := default 0 (last (block_start r)).

(** [slice::binary_search] in ascending entries: the index of the key, or where it would go. *)
Definition binary_search (starts : list Z) (key : Z) : nat + nat :=
  let i := length (filter (λ s, s < key) starts) in
  if decide (starts !! i = Some key) then inl i else inr i.

Definition locate (r : BlockFileReader) (global : Z) : result RecordLoc :=
  if total_records r <=? global then Err (Bail "record index out of range") else
  block ← (match binary_search (block_start r) global with
           | inl b => Ok b
           | inr (S b) => Ok b
           | inr O => Err (Panic "attempt to subtract with overflow")
           end : result nat);
  match block_start r !! block with
  | Some start => Ok (mkLoc (as_u32 (Z.of_nat block)) (as_u32 (global - start)))
  | None => Err (Panic "index out of bounds")
  end.

Definition decode_stored (r : BlockFileReader) (ordinal : nat) (e : DirEntry) (stored : bytes) : result bytes :=
  comp ← (match bf_cipher r, d_nonce e with
          | Some c, Some nonce =>
              match block_start r !! ordinal with
              | Some start => file_open c (BlockAad.block (Z.of_nat ordinal) start (d_raw e) (d_recs e)) nonce stored
              | None => Err (Panic "index out of bounds")
              end
          | _, _ => Ok stored
          end : result bytes);
  match bf_codec r with
  | Zstd => decompress zstd_decode comp (d_raw e)
  | Raw => if zlen comp =? d_raw e then Ok comp else Err (Bail "raw block length differs from the directory")
  end.

Definition read_block (r : BlockFileReader) (block : nat) : result bytes :=
  match bf_dir r !! block with
  | None => Err (Bail "block out of range")
  | Some e =>
      _ ← check_stored_len (d_comp e);
      stored ← read_exact_at (bf_src r) (d_offset e) (d_comp e);
      decode_stored r block e stored
  end.
End blockfile.

(** * Records in a block *)

(** [windows(2)]: the offsets never decrease. *)
Fixpoint ascending (offsets : list Z) : bool :=
  match offsets with
  | a :: ((b :: _) as rest) => (a <=? b) && ascending rest
  | _ => true
  end.

Definition check_offset_table (offsets : list Z) (data_len : Z) : result unit :=
  match head offsets, last offsets with
  | Some first, Some last_ =>
      if negb (first =? 0) then Err (Bail "first slot does not start at 0")
      else if negb (ascending offsets) then Err (Bail "offsets decrease")
      else if negb (last_ =? data_len) then Err (Bail "last slot does not end at the data length")
      else Ok tt
  | _, _ => Err (Bail "empty table")
  end.

Definition parse_block (raw : bytes) : result (list Z * bytes) :=
  '(count, r) ← read_le 4 raw;
  let header_len := 4 + (count + 1) * 4 in
  if zlen raw <? header_len then Err (Bail "block header exceeds block length") else
  '(offsets, _) ← read_many (read_le 4) (count + 1) r;
  let data := drop (Z.to_nat header_len) raw in
  _ ← check_offset_table offsets (zlen data);
  Ok (offsets, data).

(** A slice [data[start..end]], which panics out of bounds. *)
Definition slice (data : bytes) (start end_ : Z) : result bytes :=
  if (start <=? end_) && (end_ <=? zlen data) then Ok (take (Z.to_nat (end_ - start)) (drop (Z.to_nat start) data))
  else Err (Panic "slice index out of range").

Definition record_from_block (offsets : list Z) (data : bytes) (slot : Z) : result bytes :=
  if zlen offsets <=? slot + 1 then Err (Bail "record slot out of range") else
  match offsets !! Z.to_nat slot, offsets !! Z.to_nat (slot + 1) with
  | Some start, Some end_ =>
      if (end_ <? start) || (zlen data <? end_) then Err (Bail "record slot out of block data") else slice data start end_
  | _, _ => Err (Panic "index out of bounds")
  end.

(** One offset, read in place. *)
Definition offset_at (raw : bytes) (i : Z) : result Z :=
  b ← slice raw (4 + i * 4) (4 + i * 4 + 4); Ok (le_val b).

Definition record_range_in_block (raw : bytes) (slot : Z) : result (Z * Z) :=
  '(count, _) ← read_le 4 raw;
  if count <? slot + 1 then Err (Bail "record slot out of range") else
  let header_len := 4 + (count + 1) * 4 in
  if zlen raw <? header_len then Err (Bail "truncated block header") else
  start ← offset_at raw slot;
  end_ ← offset_at raw (slot + 1);
  let start := header_len + start in
  let end_ := header_len + end_ in
  if (end_ <? start) || (zlen raw <? end_) then Err (Bail "record range out of bounds") else Ok (start, end_).
