(* ===== verification/BlockRead.v ===== *)
(** Reading records back from a block container: single reads and scans of
    [graph-format/src/blockfile.rs], and that a written file gives back what was appended. *)

From S2P Require Import Prelude Wire Crypto BlockCodec Isam BlockFile.

Section reads.
Context {crypto : Crypto}.
Variable zstd_decode : bytes → list bytes * bool.

Definition read_record (r : BlockFileReader) (loc : RecordLoc) : result bytes :=
  raw ← read_block zstd_decode r (Z.to_nat (loc_block loc));
  '(offsets, data) ← parse_block raw;
  record_from_block offsets data (loc_slot loc).

Definition read_record_global (r : BlockFileReader) (global : Z) : result bytes :=
  loc ← locate r global; read_record r loc.

(** * Scans

    The callback threads an accumulator. *)

Definition read_ranges (src : bytes) (ranges : list (Z * Z)) : result (list bytes) :=
  foldr (λ '(off, len) acc, b ← read_exact_at src off len; bs ← acc; Ok (b :: bs)) (Ok []) ranges.

Section scan.
Context {A : Type}.

(** The blocks of one window, from index [bi] on. *)
Fixpoint visit_window (r : BlockFileReader) (f : nat → bytes → A → result A) (bi : nat) (stored : list bytes) (a : A) : result A :=
  match stored with
  | [] => Ok a
  | s :: stored =>
      match bf_dir r !! bi with
      | None => Err (Panic "index out of bounds")
      | Some e => raw ← decode_stored zstd_decode r bi e s; a ← f bi raw a; visit_window r f (S bi) stored a
      end
  end.

Fixpoint window_loop (fuel : nat) (r : BlockFileReader) (f : nat → bytes → A → result A) (bi n : nat) (a : A) : result A :=
  if (bi <? n)%nat then
    match fuel with
    | O => Err OutOfFuel
    | S fuel =>
        let hi := Nat.min (bi + SCAN_READAHEAD) n in
        let window := take (hi - bi) (drop bi (bf_dir r)) in
        stored ← read_ranges (bf_src r) (map (λ e, (d_offset e, d_comp e)) window);
        a ← visit_window r f bi stored a;
        window_loop fuel r f hi n a
    end
  else Ok a.

(** A window moves on by at least one block. *)
Definition for_each_block_in (r : BlockFileReader) (b_lo b_hi : nat) (f : nat → bytes → A → result A) (a : A) : result A :=
  let n := Nat.min b_hi (length (bf_dir r)) in
  window_loop (n - b_lo) r f b_lo n a.

(** The records of one block from [slot] on, [todo] of them. *)
Fixpoint visit_slots (offsets : list Z) (data : bytes) (start lo hi : Z) (f : Z → bytes → A → result A) (todo : nat) (slot : Z) (a : A) : result A :=
  match todo with
  | O => Ok a
  | S todo =>
      let global := start + slot in
      if global <? lo then visit_slots offsets data start lo hi f todo (slot + 1) a
      else if hi <=? global then Ok a
      else rec ← record_from_block offsets data slot;
           a ← f global rec a;
           visit_slots offsets data start lo hi f todo (slot + 1) a
  end.

Definition visit_block (r : BlockFileReader) (lo hi : Z) (f : Z → bytes → A → result A) (bi : nat) (raw : bytes) (a : A) : result A :=
  '(offsets, data) ← parse_block raw;
  match block_start r !! bi, bf_dir r !! bi with
  | Some start, Some e => visit_slots offsets data start lo hi f (Z.to_nat (d_recs e)) 0 a
  | _, _ => Err (Panic "index out of bounds")
  end.

Definition for_each_record_in (r : BlockFileReader) (lo hi : Z) (f : Z → bytes → A → result A) (a : A) : result A :=
  let total := total_records r in
  let lo := Z.min lo total in
  let hi := Z.min hi total in
  if hi <=? lo then Ok a else
  b_lo ← locate r lo;
  b_hi ← locate r (hi - 1);
  for_each_block_in r (Z.to_nat (loc_block b_lo)) (S (Z.to_nat (loc_block b_hi))) (visit_block r lo hi f) a.

Definition for_each_record (r : BlockFileReader) (f : Z → bytes → A → result A) (a : A) : result A :=
  for_each_record_in r 0 (total_records r) f a.
End scan.
End reads.

(** * One block *)

(** The offsets of the records [c], from [acc] on, and the block they are packed into. *)
Fixpoint offsets_from (acc : Z) (c : list bytes) : list Z :=
  acc :: match c with [] => [] | r :: c => offsets_from (acc + zlen r) c end.

Definition raw_of (c : list bytes) : bytes :=
  le_bytes 4 (zlen c) ++ concat (map (le_bytes 4) (offsets_from 0 c)) ++ concat c.

Definition block_fits (c : list bytes) : Prop := zlen c + 1 < 2 ^ 32 ∧ zlen (concat c) < 2 ^ 32.

Lemma zlen_concat_app (a b : list bytes) : zlen (concat (a ++ b)) = zlen (concat a) + zlen (concat b).
Proof. by rewrite concat_app, zlen_app. Qed.

Lemma offsets_from_app acc c r : offsets_from acc (c ++ [r]) = offsets_from acc c ++ [acc + zlen (concat c) + zlen r].
Proof.
  revert acc. induction c as [|x c IH]; intros acc; cbn [offsets_from app concat].
  - cbn [app]. change (zlen (@nil Z)) with 0. by rewrite Z.add_0_r.
  - rewrite IH. cbn [app]. do 3 f_equal. rewrite zlen_app. lia.
Qed.

Lemma length_offsets_from acc c : length (offsets_from acc c) = S (length c).
Proof. revert acc. induction c as [|x c IH]; intros acc; cbn; [done|]. by rewrite IH. Qed.

Lemma offsets_from_lookup acc c i : (i <= length c)%nat → offsets_from acc c !! i = Some (acc + zlen (concat (take i c))).
Proof.
  revert acc i. induction c as [|x c IH]; intros acc [|i] Hi; cbn [length] in Hi; [by rewrite Z.add_0_r|lia|by rewrite Z.add_0_r|].
  cbn [offsets_from take concat lookup list_lookup]. rewrite IH by lia. rewrite zlen_app. f_equal. lia.
Qed.

Lemma offsets_from_bounds acc c : 0 <= acc → Forall (λ o, 0 <= o <= acc + zlen (concat c)) (offsets_from acc c).
Proof.
  revert acc. induction c as [|x c IH]; intros acc Ha; cbn [offsets_from concat]; apply Forall_cons; (split; [|]).
  - change (zlen (@nil Z)) with 0. lia.
  - by apply Forall_nil.
  - rewrite zlen_app. pose proof (zlen_nonneg x). pose proof (zlen_nonneg (concat c)). lia.
  - pose proof (zlen_nonneg x). eapply Forall_impl; [apply IH; lia|]. intros o. rewrite zlen_app. cbn. lia.
Qed.

Lemma offsets_from_ascending acc c : ascending (offsets_from acc c) = true.
Proof.
  revert acc. induction c as [|x c IH]; intros acc; [done|]. specialize (IH (acc + zlen x)).
  assert (acc <=? acc + zlen x = true) as Hle by (apply Z.leb_le; pose proof (zlen_nonneg x); lia).
  destruct c as [|y c]; cbn [offsets_from ascending] in *; rewrite Hle; [done|]. exact IH.
Qed.

Lemma offsets_from_last acc c : last (offsets_from acc c) = Some (acc + zlen (concat c)).
Proof.
  rewrite last_lookup, length_offsets_from. cbn [pred]. rewrite offsets_from_lookup by done. by rewrite firstn_all.
Qed.

Lemma split_at_shorter n r b r' : 0 < n → split_at IoError n r = Ok (b, r') → (length r' < length r)%nat.
Proof.
  unfold split_at. intros Hn. case_match eqn:E; [done|]. intros [= _ <-]. rewrite length_drop.
  apply Z.ltb_ge in E. unfold zlen in E. lia.
Qed.

#[export] Instance u32_codec : Codec is_u32 (le_bytes 4) (read_le 4).
Proof.
  constructor.
  - intros r z r' H. unfold read_le in H. split_bind. simplify_eq. eapply (split_at_shorter 4); [lia|done].
  - intros z rest Hz. apply read_le_bytes. exact Hz.
Qed.

Lemma concat_le_bytes (l : list Z) : zlen (concat (map (le_bytes 4) l)) = 4 * zlen l.
Proof.
  induction l as [|z l IH]; cbn [map concat]; [done|]. rewrite zlen_app, IH, zlen_cons. unfold zlen at 1. rewrite length_le_bytes. lia.
Qed.

(** A packed block parses to its offsets and its records. *)
Lemma parse_raw c : block_fits c → parse_block (raw_of c) = Ok (offsets_from 0 c, concat c).
Proof.
  intros [Hc Hd]. unfold parse_block, raw_of. pose proof (zlen_nonneg c). pose proof (zlen_nonneg (concat c)).
  rewrite read_le_bytes by (cbn; lia). cbn [mbind result_bind].
  set (table := concat (map (le_bytes 4) (offsets_from 0 c))).
  assert (zlen table = 4 * (zlen c + 1)) as Ht.
  { unfold table. rewrite concat_le_bytes. unfold zlen at 1. rewrite length_offsets_from. unfold zlen. lia. }
  assert (zlen (le_bytes 4 (zlen c)) = 4) as H4 by (unfold zlen at 1; by rewrite length_le_bytes).
  rewrite !zlen_app, H4, Ht. rewrite (proj2 (Z.ltb_ge _ _)) by lia.
  assert (zlen (offsets_from 0 c) = zlen c + 1) as Hlen by (unfold zlen; rewrite length_offsets_from; lia).
  rewrite <- Hlen. assert (read_many (read_le 4) (zlen (offsets_from 0 c)) (table ++ concat c) = Ok (offsets_from 0 c, concat c)) as ->.
  { apply (codec_many_roundtrip (wf := is_u32)). eapply Forall_impl; [by apply offsets_from_bounds|].
    intros o Ho. unfold is_u32. cbn in Ho. lia. }
  cbn [mbind result_bind]. rewrite app_assoc.
  replace (Z.to_nat (4 + zlen (offsets_from 0 c) * 4)) with (length (le_bytes 4 (zlen c) ++ table)).
  2: { rewrite length_app. unfold zlen in *. lia. }
  rewrite drop_app_length. unfold check_offset_table. rewrite offsets_from_last, offsets_from_ascending, Z.add_0_l.
  destruct c; cbn [offsets_from head]; cbn [negb]; by rewrite !Z.eqb_refl.
Qed.

Lemma concat_take_drop (c : list bytes) i r : c !! i = Some r →
  take (Z.to_nat (zlen (concat (take (S i) c)) - zlen (concat (take i c)))) (drop (Z.to_nat (zlen (concat (take i c)))) (concat c)) = r.
Proof.
  intros Hi. pose proof (take_drop_middle _ _ _ Hi) as E. rewrite (take_S_r _ _ _ Hi), zlen_concat_app. cbn [concat].
  rewrite app_nil_r. rewrite <- E at 4. rewrite concat_app. cbn [concat]. unfold zlen.
  replace (Z.to_nat (Z.of_nat (length (concat (take i c))))) with (length (concat (take i c))) by lia.
  rewrite drop_app_length. replace (Z.to_nat _) with (length r) by lia. by rewrite take_app_length.
Qed.

Lemma record_of c i r : c !! i = Some r → record_from_block (offsets_from 0 c) (concat c) (Z.of_nat i) = Ok r.
Proof.
  intros Hi. pose proof (lookup_lt_Some _ _ _ Hi) as Hlt. unfold record_from_block, zlen at 1. rewrite length_offsets_from.
  rewrite (proj2 (Z.leb_gt _ _)) by lia. replace (Z.to_nat (Z.of_nat i + 1)) with (S i) by lia. rewrite Nat2Z.id.
  rewrite !offsets_from_lookup, !Z.add_0_l by lia.
  assert (zlen (concat (take i c)) <= zlen (concat (take (S i) c)) <= zlen (concat c)) as Hb.
  { pose proof (zlen_concat_app (take (S i) c) (drop (S i) c)) as E1. rewrite take_drop in E1.
    pose proof (zlen_concat_app (take i c) [r]) as E2. rewrite <- (take_S_r _ _ _ Hi) in E2.
    pose proof (zlen_nonneg (concat [r])). pose proof (zlen_nonneg (concat (drop (S i) c))). lia. }
  rewrite !(proj2 (Z.ltb_ge _ _)) by lia. cbn [orb]. unfold slice. rewrite !(proj2 (Z.leb_le _ _)) by lia. cbn [andb].
  by rewrite (concat_take_drop c i r).
Qed.

(** * A written file *)

Section written.
Context {crypto : Crypto} {crypto_laws : CryptoLaws}.
Variable zstd_encode_all : bytes → Z → result bytes.
Variable zstd_decode : bytes → list bytes * bool.
Variable random_nonce : nat → bytes.
Variables (target_block_bytes : Z) (codec : BlockCodec) (zstd_level : Z) (cipher : option FileCipher).
Hypothesis lossless : zstd_lossless zstd_encode_all zstd_decode.
(** [ZSTD_compressBound]. *)
Hypothesis bounded : ∀ raw level comp, zstd_encode_all raw level = Ok comp → zlen comp <= zlen raw + zlen raw / 256 + 64.
Hypothesis nonce_length : ∀ i, zlen (random_nonce i) = NONCE_LEN.

Local Abbreviation encrypted := (if cipher then true else false) (only parsing).
Local Abbreviation magic := (magic_for codec encrypted) (only parsing).
Local Abbreviation tgt := (target target_block_bytes) (only parsing).
Local Abbreviation seal := (seal_block zstd_encode_all random_nonce codec zstd_level cipher) (only parsing).

(** A record with bytes, which leaves its block below a gigabyte. *)
Definition record_fits (r : bytes) : Prop := r ≠ [] ∧ 5 * tgt + zlen r + 20 <= 2 ^ 30.

(** The bytes a block is stored as: its compressed form, sealed where there is a key. *)
Definition stored_as (b : nat) (start raw_len recs : Z) (nonce : option bytes) (comp stored : bytes) : Prop :=
  match cipher with
  | Some c => ∃ n, nonce = Some n ∧ file_seal c (BlockAad.block (Z.of_nat b) start raw_len recs) n comp = Ok stored
  | None => nonce = None ∧ stored = comp
  end.

(** What the codec makes of a compressed form. *)
Definition unpack (comp : bytes) (raw_len : Z) : result bytes :=
  match codec with
  | Zstd => decompress zstd_decode comp raw_len
  | Raw => if zlen comp =? raw_len then Ok comp else Err (Bail "raw block length differs from the directory")
  end.

Lemma stored_decodes b start e comp stored raw r : stored_as b start (d_raw e) (d_recs e) (d_nonce e) comp stored →
  unpack comp (d_raw e) = Ok raw → block_start r !! b = Some start → bf_cipher r = cipher → bf_codec r = codec →
  decode_stored zstd_decode r b e stored = Ok raw.
Proof.
  unfold stored_as, unpack, decode_stored. intros Hs Hu Hst -> ->. destruct cipher as [c|].
  - destruct Hs as (n & -> & Hs). rewrite Hst. unfold file_seal, file_open in *.
    destruct (aead_encrypt _ _ _ _) as [ct|] eqn:E; [|done]. injection Hs as ->. by rewrite (aead_open _ _ _ _ _ E).
  - by destruct Hs as [_ ->].
Qed.

(** A block that was written is in the file, wherever more follows. *)
Record block_reads (file : bytes) (e : DirEntry) (b : nat) (start : Z) (c : list bytes) : Prop := {
  br_nonempty : c ≠ [];
  br_fits : block_fits c;
  br_offset : 8 <= d_offset e <= zlen file;
  br_comp : is_u32 (d_comp e);
  br_raw : is_u32 (d_raw e);
  br_recs : d_recs e = zlen c;
  br_nonce : nonce_ok encrypted (d_nonce e);
  br_small : d_comp e <= MAX_BLOCK_BYTES;
  br_stored : ∃ stored comp, (∀ post, read_exact_at (file ++ post) (d_offset e) (d_comp e) = Ok stored) ∧
    stored_as b start (d_raw e) (d_recs e) (d_nonce e) comp stored ∧ unpack comp (d_raw e) = Ok (raw_of c);
}.

Lemma block_reads_grow file more e b start c : block_reads file e b start c → block_reads (file ++ more) e b start c.
Proof.
  intros []. split; try done; [rewrite zlen_app; pose proof (zlen_nonneg more); lia|].
  destruct br_stored0 as (stored & comp & Hr & ?). exists stored, comp. split; [|done]. intros post. rewrite <- app_assoc. apply Hr.
Qed.

Lemma zlen_raw_of c : zlen (raw_of c) = 8 + 4 * zlen c + zlen (concat c).
Proof.
  unfold raw_of. rewrite !zlen_app, concat_le_bytes. unfold zlen at 1. rewrite length_le_bytes.
  unfold zlen at 1. rewrite length_offsets_from. unfold zlen. lia.
Qed.

(** What a seal stores for a block. *)
Lemma seal_stores raw b start recs stored nonce : seal raw b start recs = Ok (stored, nonce) → zlen raw <= 2 ^ 30 →
  nonce_ok encrypted nonce ∧ zlen stored < 2 ^ 31 ∧ ∃ comp, stored_as b start (zlen raw) recs nonce comp stored ∧ unpack comp (zlen raw) = Ok raw.
Proof.
  unfold seal_block. intros H Hsz. pose proof (zlen_nonneg raw).
  assert (as_u32 (zlen raw) = zlen raw) as Hu by (unfold as_u32; rewrite Z.mod_small; lia).
  apply bind_Ok in H as (comp & Hc & H). rewrite Hu in H.
  assert (zlen comp <= zlen raw + 2 ^ 22 + 64 ∧ unpack comp (zlen raw) = Ok raw) as [Hlen Hdec].
  { unfold unpack. destruct codec.
    - pose proof (bounded _ _ _ Hc). assert (zlen raw / 256 <= 2 ^ 22) by (apply Z.div_le_upper_bound; lia). split; [lia|].
      apply (compress_decompress zstd_encode_all zstd_decode raw zstd_level comp lossless); [|done].
      change MAX_BLOCK_BYTES with (2 ^ 31). lia.
    - injection Hc as <-. split; [lia|]. by rewrite Z.eqb_refl. }
  unfold stored_as. destruct cipher as [c|].
  - apply bind_Ok in H as (s & Hs & [= -> <-]). pose proof Hs as Hs'. unfold file_seal in Hs'.
    destruct (aead_encrypt _ _ _ _) as [ct|] eqn:E; [|done]. injection Hs' as ->. pose proof (aead_length _ _ _ _ _ E).
    split_and!; [split; [done|apply nonce_length]|lia|]. exists comp. split; [by exists (random_nonce b)|done].
  - injection H as -> <-. split_and!; [done|lia|]. by exists stored.
Qed.

(** The blocks written so far, and the records of the open one. *)
Record writer_ok (w : BlockFileWriter) (blocks : list (list bytes)) (open : list bytes) : Prop := {
  wk_magic : ∃ rest, bw_file w = magic ++ rest;
  wk_offset : bw_offset w = zlen (bw_file w);
  wk_dir : length (bw_dir w) = length blocks;
  wk_blocks b e c : bw_dir w !! b = Some e → blocks !! b = Some c →
    block_reads (bw_file w) e b (zlen (concat (take b blocks))) c;
  wk_next : bw_next_block w = length blocks;
  wk_records : bw_records w = zlen (concat blocks);
  wk_offsets : bw_offsets w = offsets_from 0 open;
  wk_data : bw_data w = concat open;
  wk_open : Forall (λ r, r ≠ []) open;
}.

Lemma nonempty_count (c : list bytes) : Forall (λ r, r ≠ []) c → zlen c <= zlen (concat c).
Proof.
  induction 1 as [|r c Hr Hc IH]; cbn [concat]; [done|]. rewrite zlen_cons, zlen_app. destruct r; [done|]. rewrite zlen_cons. pose proof (zlen_nonneg r). lia.
Qed.

Lemma create_inner_ok : writer_ok (create_inner codec cipher) [] [].
Proof. split; cbn; try done. exists []. by rewrite app_nil_r. Qed.

(** The block a flush seals. *)
Lemma next_job_ok w blocks open : writer_ok w blocks open → open ≠ [] → zlen (raw_of open) <= 2 ^ 30 →
  next_job w = (Some (mkJob (length blocks) (raw_of open) (zlen (concat blocks)) (zlen open)),
    mkWriter (bw_file w) (bw_offset w) (bw_dir w) [0] [] (S (length blocks)) (bw_next_write w) (zlen (concat blocks) + zlen open)).
Proof.
  intros [_ _ _ _ Hn Hr Ho Hd Hop] Hne Hsz. rewrite zlen_raw_of in Hsz. pose proof (zlen_nonneg open). pose proof (zlen_nonneg (concat open)).
  unfold next_job, take_raw_block. rewrite bool_decide_eq_false_2.
  2: { rewrite Hd. destruct open as [|r open]; [done|]. apply Forall_cons in Hop as [Hr0 _]. cbn. by destruct r. }
  assert (as_u32 (zlen (bw_offsets w) - 1) = zlen open) as ->.
  { rewrite Ho. unfold as_u32, zlen at 1. rewrite length_offsets_from. rewrite Z.mod_small; unfold zlen in *; lia. }
  cbn [bw_file bw_offset bw_dir bw_offsets bw_data bw_next_block bw_next_write bw_records]. by rewrite Hn, Hr, Ho, Hd.
Qed.

Lemma flush_block_ok w blocks open w' : writer_ok w blocks open → open ≠ [] → zlen (raw_of open) <= 2 ^ 30 →
  flush_block zstd_encode_all random_nonce codec zstd_level cipher w = Ok w' → writer_ok w' (blocks ++ [open]) [].
Proof.
  intros Hw Hne Hsz. unfold flush_block. rewrite (next_job_ok w blocks open) by done. unfold seal_job. cbn [j_raw j_idx j_first j_count].
  destruct (seal (raw_of open) (length blocks) _ _) as [[stored nonce]|] eqn:Es; [|done]. cbn [mbind result_bind]. intros [= <-].
  destruct (seal_stores _ _ _ _ _ _ Es Hsz) as (Hnonce & Hst & comp & Hstored & Hun). destruct Hw as [[rest Hm] Hoff Hdir Hbl Hn Hr Ho Hd Hop].
  pose proof Hsz as Hraw. rewrite zlen_raw_of in Hsz. pose proof (zlen_nonneg open). pose proof (zlen_nonneg (concat open)). pose proof (zlen_nonneg stored).
  assert (as_u32 (zlen stored) = zlen stored ∧ as_u32 (zlen (raw_of open)) = zlen (raw_of open)) as [E1 E2].
  { unfold as_u32. rewrite !Z.mod_small; [done|pose proof (zlen_nonneg (raw_of open)); lia|lia]. }
  split; cbn [write_sealed bw_file bw_offset bw_dir bw_offsets bw_data bw_next_block bw_next_write bw_records s_stored s_raw_len s_recs s_nonce]; try done.
  - exists (rest ++ stored). by rewrite Hm, app_assoc.
  - by rewrite zlen_app, Hoff.
  - by rewrite !length_app, Hdir.
  - intros b e c He Hc. apply lookup_app_Some in He as [He|[Hge He]].
    + apply lookup_lt_Some in He as Hlt. rewrite Hdir in Hlt. rewrite lookup_app_l in Hc by done. rewrite take_app_le by lia.
      by apply block_reads_grow, Hbl.
    + apply list_lookup_singleton_Some in He as [Hz <-]. assert (b = length blocks) as -> by lia.
      rewrite lookup_app_r, Nat.sub_diag in Hc by lia. injection Hc as <-. rewrite take_app_length, E1, E2.
      split; cbn [d_offset d_comp d_raw d_recs d_nonce]; try done.
      * split; lia.
      * rewrite Hoff, Hm, !zlen_app. assert (zlen magic = 8) as -> by (by destruct codec, cipher).
        pose proof (zlen_nonneg rest). lia.
      * unfold is_u32. lia.
      * unfold is_u32. pose proof (zlen_nonneg (raw_of open)). lia.
      * change MAX_BLOCK_BYTES with (2 ^ 31). lia.
      * exists stored, comp. split; [|done]. intros post. by rewrite Hoff, <- app_assoc, read_at_app.
  - rewrite length_app. cbn. lia.
  - rewrite concat_app, zlen_app. cbn. by rewrite app_nil_r.
Qed.

(** Appending: the record goes where its location says, and the block is cut at the target. *)
Lemma append_record_ok w blocks open r loc w' : writer_ok w blocks open → zlen (concat open) < tgt → record_fits r →
  append_record zstd_encode_all random_nonce target_block_bytes codec zstd_level cipher r w = Ok (loc, w') →
  loc = mkLoc (as_u32 (zlen blocks)) (zlen open) ∧
  ((writer_ok w' blocks (open ++ [r]) ∧ zlen (concat (open ++ [r])) < tgt) ∨ writer_ok w' (blocks ++ [open ++ [r]]) []).
Proof.
  intros Hw Hlt [Hr Hfit]. unfold append_record, buffer_record. pose proof Hw as [Hm Hoff Hdir Hbl Hn Hrec Ho Hd Hop].
  pose proof (nonempty_count open Hop). pose proof (zlen_nonneg open). pose proof (zlen_nonneg r). pose proof (zlen_nonneg (concat open)).
  set (w1 := mkWriter _ _ _ _ _ _ _ _).
  assert (writer_ok w1 blocks (open ++ [r])) as Hw1.
  { split; cbn [w1 bw_file bw_offset bw_dir bw_offsets bw_data bw_next_block bw_next_write bw_records]; try done.
    - rewrite offsets_from_app, Ho, Hd, Z.add_0_l, zlen_app. unfold as_u32. rewrite Z.mod_small; [done|lia].
    - rewrite concat_app, Hd. cbn. by rewrite app_nil_r.
    - apply Forall_app. split; [done|]. by apply Forall_singleton. }
  assert (mkLoc (as_u32 (Z.of_nat (bw_next_block w))) (as_u32 (zlen (bw_offsets w) - 1)) = mkLoc (as_u32 (zlen blocks)) (zlen open)) as ->.
  { rewrite Hn, Ho. f_equal. unfold as_u32, zlen at 1. rewrite length_offsets_from, Z.mod_small; unfold zlen in *; lia. }
  unfold block_full. rewrite (wk_data _ _ _ Hw1). destruct (Z.leb_spec tgt (zlen (concat (open ++ [r])))) as [Hfull|Hfull].
  - destruct (flush_block _ _ _ _ _ w1) as [w2|] eqn:Ef; [|done]. cbn [mbind result_bind]. intros [= <- <-]. split; [done|]. right.
    eapply flush_block_ok; [exact Hw1|by destruct open| |done]. rewrite zlen_raw_of, zlen_concat_app, zlen_app. cbn [concat].
    rewrite app_nil_r. change (zlen [r]) with 1. lia.
  - cbn [mbind result_bind]. intros [= <- <-]. split; [done|]. by left.
Qed.
End written.
