(* ===== verification/BlockExact.v ===== *)
(** A block file from its writer to its readers: the layout the writer makes of the records, and
    that the opened file finds, reads and scans each of them. *)

From S2P Require Import Prelude Wire Crypto BlockCodec Isam BlockFile BlockRead.

(** * The directory *)

Record dir_ok (encrypted : bool) (e : DirEntry) : Prop := {
  do_offset : is_u64 (d_offset e);
  do_comp : is_u32 (d_comp e);
  do_raw : is_u32 (d_raw e);
  do_recs : is_u32 (d_recs e);
  do_nonce : nonce_ok encrypted (d_nonce e);
}.

#[export] Instance dir_codec encrypted : Codec (dir_ok encrypted) write_dir (read_dir encrypted).
Proof.
  constructor.
  - intros r e r' H. unfold read_dir in H. split_bind. simplify_eq.
    match goal with H : read_le 8 _ = Ok _ |- _ => unfold read_le in H; split_bind; simplify_eq end.
    match goal with H : split_at _ _ _ = Ok _ |- _ => apply (split_at_shorter 8) in H; [|lia] end.
    repeat match goal with
    | H : read_le _ _ = Ok _ |- _ => apply read_le_length in H
    | H : read_nonce _ _ = Ok _ |- _ => apply read_nonce_length in H
    end. lia.
  - intros [off comp raw recs nonce] rest [Ho Hc Hr Hn Hno]. cbn in *. unfold write_dir, read_dir. cbn [d_offset d_comp d_raw d_recs d_nonce].
    rewrite <- !app_assoc. do 4 (rewrite read_le_bytes by done; cbn [mbind result_bind]). by rewrite (read_nonce_bytes encrypted nonce rest).
Qed.

Lemma zlen_write_dir encrypted e : nonce_ok encrypted (d_nonce e) → zlen (write_dir e) <= 44.
Proof.
  intros Hn. unfold write_dir. rewrite !zlen_app. assert (∀ k z, zlen (le_bytes k z) = Z.of_nat k) as Hle by (intros; unfold zlen; by rewrite length_le_bytes).
  rewrite !Hle. unfold nonce_ok in Hn. destruct (d_nonce e) as [nn|]; cbn [nonce_bytes]; [destruct Hn as [_ ->]; unfold NONCE_LEN; lia|].
  change (zlen (@nil Z)) with 0. lia.
Qed.

Lemma magic_kind_for codec encrypted : magic_kind (magic_for codec encrypted) = Some (codec, encrypted).
Proof. by destruct codec, encrypted. Qed.

(** Opening an image, from its parts. *)
Lemma open_block_parts `{Crypto} codec (cipher : option FileCipher) file dir rest :
  let encrypted := if cipher then true else false in
  file = magic_for codec encrypted ++ rest → Forall (dir_ok encrypted) dir → zlen (concat (map write_dir dir)) <= MAX_BLOCK_BYTES →
  let img := file ++ concat (map write_dir dir) ++ le_bytes 8 (zlen file) ++ le_bytes 8 (zlen (concat (map write_dir dir))) ++ le_bytes 8 (zlen dir) in
  fits img → zlen dir < 2 ^ 64 → open_blocks img cipher = Ok (mkReader img dir (starts_from 0 dir) cipher codec).
Proof.
  intros encrypted Hfile Hdir Hsmall img Hfits Hn. change MAX_BLOCK_BYTES with (2 ^ 31) in Hsmall. unfold fits in Hfits.
  set (db := concat (map write_dir dir)) in *. set (footer := le_bytes 8 (zlen file) ++ le_bytes 8 (zlen db) ++ le_bytes 8 (zlen dir)).
  pose proof (zlen_nonneg file). pose proof (zlen_nonneg db). pose proof (zlen_nonneg dir). pose proof (zlen_nonneg rest).
  assert (zlen footer = 24) as Hfl by (unfold footer; rewrite !zlen_app; unfold zlen; by rewrite !length_le_bytes).
  assert (zlen (magic_for codec encrypted) = 8) as Hml by (clearbody encrypted; by destruct codec, encrypted).
  assert (img = file ++ db ++ footer) as Eimg by done. clearbody img.
  assert (zlen img = zlen file + zlen db + 24) as Hlen by (rewrite Eimg, !zlen_app; lia).
  assert (zlen file = 8 + zlen rest) as Hfl8 by (rewrite Hfile, zlen_app; lia).
  unfold open_blocks. change (zlen BLOCKFILE_MAGIC) with 8. unfold BLOCK_FOOTER_LEN. rewrite (proj2 (Z.ltb_ge _ _)) by lia.
  assert (read_exact_at img 0 8 = Ok (magic_for codec encrypted)) as ->.
  { pose proof (read_at_app [] (magic_for codec encrypted) (rest ++ db ++ footer)) as E. rewrite Hml in E. rewrite <- E. f_equal.
    rewrite Eimg, Hfile. clearbody footer db. by rewrite <- app_assoc. }
  assert (read_exact_at img (zlen img - 24) 24 = Ok footer) as Hfoot.
  { pose proof (read_at_app (file ++ db) footer []) as E. rewrite <- E, Hfl. f_equal; [|rewrite zlen_app; lia].
    rewrite Eimg, app_nil_r. clearbody footer db. by rewrite <- app_assoc. }
  assert (read_exact_at img (zlen file) (zlen db) = Ok db) as Hdb by (rewrite Eimg; apply read_at_app).
  cbn [mbind result_bind]. rewrite magic_kind_for. cbn [mbind result_bind].
  assert (match encrypted, cipher with
          | true, Some c => Ok (Some c)
          | true, None => Err (Bail "block file is encrypted but no key was supplied")
          | false, Some _ => Err (Unsealed "block file")
          | false, None => Ok None
          end = Ok cipher) as -> by (unfold encrypted; by destruct cipher).
  cbn [mbind result_bind]. rewrite Hfoot. cbn [mbind result_bind]. unfold footer.
  do 2 (rewrite read_le_bytes by (cbn; lia); cbn [mbind result_bind]).
  rewrite <- (app_nil_r (le_bytes 8 (zlen dir))), read_le_bytes by (cbn; lia). cbn [mbind result_bind].
  rewrite (proj2 (Z.ltb_ge _ _)) by lia. unfold check_stored_len. change MAX_BLOCK_BYTES with (2 ^ 31).
  rewrite (proj2 (Z.ltb_ge _ _)) by lia. cbn [mbind result_bind]. rewrite Hdb. cbn [mbind result_bind].
  unfold db. rewrite <- (app_nil_r (concat _)), (codec_many_roundtrip (wf := dir_ok encrypted)) by done. done.
Qed.

(** * Locating a record in a layout *)

Definition first_of (blocks : list (list bytes)) (b : nat) : Z := zlen (concat (take b blocks)).

Lemma starts_from_lookup acc dir (blocks : list (list bytes)) : map d_recs dir = map zlen blocks →
  ∀ b, (b <= length blocks)%nat → starts_from acc dir !! b = Some (acc + first_of blocks b).
Proof.
  revert acc blocks. induction dir as [|e dir IH]; intros acc [|c blocks] E b Hb; try done; cbn [length] in Hb.
  - replace b with 0%nat by lia. cbn. by rewrite Z.add_0_r.
  - injection E as Ee E. destruct b as [|b]; [cbn; by rewrite Z.add_0_r|]. cbn [starts_from lookup list_lookup].
    rewrite (IH _ blocks E) by lia. f_equal. unfold first_of. cbn [take concat]. rewrite zlen_app. lia.
Qed.

Lemma length_starts acc dir : length (starts_from acc dir) = S (length dir).
Proof. revert acc. induction dir as [|e dir IH]; intros acc; cbn; [done|]. by rewrite IH. Qed.

Lemma first_of_S blocks b c : blocks !! b = Some c → first_of blocks (S b) = first_of blocks b + zlen c.
Proof. intros Hb. unfold first_of. rewrite (take_S_r _ _ _ Hb), concat_app, zlen_app. cbn. by rewrite app_nil_r. Qed.

Lemma first_of_mono blocks i j : (i <= j)%nat → first_of blocks i <= first_of blocks j.
Proof.
  intros Hij. unfold first_of. replace j with (i + (j - i))%nat by lia. rewrite <- take_take_drop, concat_app, zlen_app.
  pose proof (zlen_nonneg (concat (take (j - i) (drop i blocks)))). lia.
Qed.

(** The number of entries below the key, where they come first. *)
Lemma filter_below (l : list Z) key i : (i <= length l)%nat → (∀ j s, l !! j = Some s → s < key ↔ (j < i)%nat) →
  length (filter (λ s, s < key) l) = i.
Proof.
  revert i. induction l as [|s l IH]; intros i Hi H; cbn [length] in *; [by replace i with 0%nat by lia|].
  pose proof (H 0%nat s eq_refl) as H0. rewrite filter_cons. destruct i as [|i].
  - rewrite decide_False by lia. apply IH; [lia|]. intros j x Hx. specialize (H (S j) x Hx). lia.
  - rewrite decide_True by lia. cbn. f_equal. apply IH; [lia|]. intros j x Hx. specialize (H (S j) x Hx). lia.
Qed.

Lemma locate_at r (blocks : list (list bytes)) b c s : map d_recs (bf_dir r) = map zlen blocks → block_start r = starts_from 0 (bf_dir r) →
  Forall (λ c, c ≠ []) blocks → blocks !! b = Some c → (s < length c)%nat → zlen c < 2 ^ 32 →
  locate r (first_of blocks b + Z.of_nat s) = Ok (mkLoc (as_u32 (Z.of_nat b)) (Z.of_nat s)).
Proof.
  intros Hd Hs Hne Hb Hlt Hc. pose proof (lookup_lt_Some _ _ _ Hb) as Hbl.
  assert (length (bf_dir r) = length blocks) as Hlen by (by rewrite <- (length_map d_recs), Hd, length_map).
  assert (∀ j, (j <= length blocks)%nat → block_start r !! j = Some (first_of blocks j)) as Hat.
  { intros j Hj. by rewrite Hs, (starts_from_lookup 0 _ blocks Hd). }
  pose proof (first_of_S _ _ _ Hb) as HS. pose proof (first_of_mono blocks (S b) (length blocks) ltac:(lia)) as Hm. unfold zlen in HS, Hc.
  assert (∀ i, (i <= length blocks)%nat → (∀ j, (j < i)%nat → first_of blocks j < first_of blocks b + Z.of_nat s) →
    (∀ j, (i <= j)%nat → (j <= length blocks)%nat → first_of blocks b + Z.of_nat s <= first_of blocks j) →
    length (filter (λ x, x < first_of blocks b + Z.of_nat s) (block_start r)) = i) as Hcount.
  { intros i Hi Hlo Hhi. apply filter_below; [rewrite Hs, length_starts; lia|]. intros j x Hx.
    apply lookup_lt_Some in Hx as Hj. rewrite Hs, length_starts in Hj. rewrite Hat in Hx by lia. injection Hx as <-.
    split; [|apply Hlo]. intros Hx. destruct (Nat.lt_ge_cases j i); [done|]. specialize (Hhi j). lia. }
  unfold locate, total_records. rewrite last_lookup, Hs, length_starts, <- Hs. cbn [pred]. rewrite Hlen, Hat by done. cbn [from_option]. unfold id.
  rewrite (proj2 (Z.leb_gt _ _)) by lia. unfold binary_search. destruct s as [|s].
  - rewrite (Hcount b).
    + rewrite Hat by lia. rewrite decide_True by (f_equal; lia). cbn [mbind result_bind]. rewrite Hat by lia. do 2 f_equal. unfold as_u32. rewrite Z.mod_small; lia.
    + lia.
    + intros j Hj. destruct (lookup_lt_is_Some_2 blocks j) as [d Hdj]; [lia|]. pose proof (first_of_S _ _ _ Hdj).
      pose proof (first_of_mono blocks (S j) b ltac:(lia)). apply (Forall_lookup_1 _ _ _ _ Hne) in Hdj.
      destruct d; [done|]. rewrite zlen_cons in *. pose proof (zlen_nonneg d). lia.
    + intros j Hj _. pose proof (first_of_mono blocks b j Hj). lia.
  - rewrite (Hcount (S b)).
    + rewrite Hat by lia. rewrite decide_False by (intros [=]; lia). cbn [mbind result_bind]. rewrite Hat by lia. do 2 f_equal. unfold as_u32. rewrite Z.mod_small; lia.
    + lia.
    + intros j Hj. pose proof (first_of_mono blocks j b ltac:(lia)). lia.
    + intros j Hj _. pose proof (first_of_mono blocks (S b) j Hj). lia.
Qed.

(** * Scans *)

(** The callback over the records of a list, the first of them at [g]. *)
Fixpoint fold_records {A} (f : Z → bytes → A → result A) (g : Z) (recs : list bytes) (a : A) : result A :=
  match recs with [] => Ok a | r :: recs => a ← f g r a; fold_records f (g + 1) recs a end.

(** The same over those in [[lo, hi)]. *)
Fixpoint fold_range {A} (f : Z → bytes → A → result A) (lo hi g : Z) (recs : list bytes) (a : A) : result A :=
  match recs with
  | [] => Ok a
  | r :: recs =>
      if g <? lo then fold_range f lo hi (g + 1) recs a
      else if hi <=? g then Ok a
      else a ← f g r a; fold_range f lo hi (g + 1) recs a
  end.

Section fold.
Context {A : Type} (f : Z → bytes → A → result A) (lo hi : Z).

Lemma fold_range_past g recs a : lo <= g → hi <= g → fold_range f lo hi g recs a = Ok a.
Proof. intros. destruct recs; cbn; [done|]. rewrite (proj2 (Z.ltb_ge _ _)), (proj2 (Z.leb_le _ _)) by lia. done. Qed.

Lemma fold_range_before g recs a : g + zlen recs <= lo → fold_range f lo hi g recs a = Ok a.
Proof.
  revert g. induction recs as [|r recs IH]; intros g Hg; cbn [fold_range]; [done|]. rewrite zlen_cons in Hg. pose proof (zlen_nonneg recs).
  rewrite (proj2 (Z.ltb_lt _ _)) by lia. apply IH. lia.
Qed.

Lemma fold_range_app g xs ys a : lo <= hi →
  fold_range f lo hi g (xs ++ ys) a = (a ← fold_range f lo hi g xs a; fold_range f lo hi (g + zlen xs) ys a).
Proof.
  intros Hlh. revert g a. induction xs as [|x xs IH]; intros g a; cbn [app fold_range].
  - change (zlen (@nil bytes)) with 0. by rewrite Z.add_0_r.
  - rewrite zlen_cons. replace (g + (zlen xs + 1)) with (g + 1 + zlen xs) by lia. pose proof (zlen_nonneg xs).
    destruct (Z.ltb_spec g lo); [apply IH|]. destruct (Z.leb_spec hi g).
    + cbn [mbind result_bind]. symmetry. apply fold_range_past; lia.
    + destruct (f g x a) as [a'|]; [|done]. cbn [mbind result_bind]. apply IH.
Qed.

Lemma fold_range_slice g recs a : g <= lo <= hi → hi <= g + zlen recs →
  fold_range f lo hi g recs a = fold_records f lo (take (Z.to_nat (hi - lo)) (drop (Z.to_nat (lo - g)) recs)) a.
Proof.
  intros Hlo Hhi. rewrite <- (take_drop (Z.to_nat (lo - g)) recs) at 1. rewrite fold_range_app by lia.
  assert (zlen (take (Z.to_nat (lo - g)) recs) = lo - g) as Ht by (unfold zlen in *; rewrite length_take; lia).
  rewrite fold_range_before by lia. cbn [mbind result_bind]. rewrite Ht. replace (g + (lo - g)) with lo by lia.
  assert (hi <= lo + zlen (drop (Z.to_nat (lo - g)) recs)) as Hd by (unfold zlen in *; rewrite length_drop; lia).
  clear Ht Hhi. remember (drop (Z.to_nat (lo - g)) recs) as ys eqn:E. clear E.
  rewrite <- (take_drop (Z.to_nat (hi - lo)) ys) at 1. rewrite fold_range_app by lia.
  assert (zlen (take (Z.to_nat (hi - lo)) ys) = hi - lo) as Hl by (unfold zlen in *; rewrite length_take; lia).
  rewrite Hl. replace (lo + (hi - lo)) with hi by lia.
  assert (∀ zs k a, lo <= k → k + zlen zs <= hi → fold_range f lo hi k zs a = fold_records f k zs a) as Hin.
  { induction zs as [|z zs IH]; intros k b Hk Hz; cbn [fold_range fold_records]; [done|]. rewrite zlen_cons in Hz. pose proof (zlen_nonneg zs).
    rewrite (proj2 (Z.ltb_ge _ _)), (proj2 (Z.leb_gt _ _)) by lia. destruct (f k z b); [|done]. cbn [mbind result_bind]. apply IH; lia. }
  rewrite Hin by lia. destruct (fold_records _ _ _ _); [|done]. cbn [mbind result_bind]. apply fold_range_past; lia.
Qed.

(** The slots of a packed block. *)
Lemma visit_slots_range c start a : visit_slots (offsets_from 0 c) (concat c) start lo hi f (length c) 0 a = fold_range f lo hi start c a.
Proof.
  assert (∀ todo slot a, (slot + todo = length c)%nat →
    visit_slots (offsets_from 0 c) (concat c) start lo hi f todo (Z.of_nat slot) a = fold_range f lo hi (start + Z.of_nat slot) (drop slot c) a) as H.
  { induction todo as [|todo IH]; intros slot b Hs; cbn [visit_slots]; [rewrite drop_ge by lia; done|].
    destruct (lookup_lt_is_Some_2 c slot) as [r Hr]; [lia|]. rewrite (drop_S _ _ _ Hr). cbn [fold_range].
    replace (Z.of_nat slot + 1) with (Z.of_nat (S slot)) by lia. replace (start + Z.of_nat slot + 1) with (start + Z.of_nat (S slot)) by lia.
    destruct (_ <? lo); [apply IH; lia|]. destruct (hi <=? _); [done|]. rewrite (record_of c slot r Hr). cbn [mbind result_bind].
    destruct (f _ r b); [|done]. cbn [mbind result_bind]. apply IH. lia. }
  rewrite <- (Z.add_0_r start) at 2. apply (H (length c) 0%nat). lia.
Qed.
End fold.

(** * A file of blocks

    What a reader needs: every block is stored where the directory says, and decodes. *)

Section readable.
Context {crypto : Crypto}.
Variable zstd_decode : bytes → list bytes * bool.

Record file_of (r : BlockFileReader) (blocks : list (list bytes)) : Prop := {
  fo_recs : map d_recs (bf_dir r) = map zlen blocks;
  fo_starts : block_start r = starts_from 0 (bf_dir r);
  fo_count : zlen blocks < 2 ^ 32;
  fo_nonempty : Forall (λ c, c ≠ []) blocks;
  fo_fits : Forall block_fits blocks;
  fo_small b e : bf_dir r !! b = Some e → d_comp e <= MAX_BLOCK_BYTES;
  fo_stored b c e : blocks !! b = Some c → bf_dir r !! b = Some e →
    ∃ stored, read_exact_at (bf_src r) (d_offset e) (d_comp e) = Ok stored ∧
      decode_stored zstd_decode r b e stored = Ok (raw_of c);
}.

Context (r : BlockFileReader) (blocks : list (list bytes)) (Hfile : file_of r blocks).

Lemma dir_length : length (bf_dir r) = length blocks.
Proof. by rewrite <- (length_map d_recs), (fo_recs _ _ Hfile), length_map. Qed.

Lemma dir_at b c : blocks !! b = Some c → ∃ e, bf_dir r !! b = Some e ∧ d_recs e = zlen c.
Proof.
  intros Hb. destruct (lookup_lt_is_Some_2 (bf_dir r) b) as [e He]; [rewrite dir_length; by eapply lookup_lt_Some|].
  exists e. split; [done|]. pose proof (f_equal (λ l, l !! b) (fo_recs _ _ Hfile)) as E. cbn in E.
  rewrite !list_lookup_fmap, He, Hb in E. by injection E.
Qed.

Lemma start_at b : (b <= length blocks)%nat → block_start r !! b = Some (first_of blocks b).
Proof. intros Hb. by rewrite (fo_starts _ _ Hfile), (starts_from_lookup 0 _ blocks (fo_recs _ _ Hfile)). Qed.

Lemma total_of : total_records r = zlen (concat blocks).
Proof.
  unfold total_records. rewrite last_lookup, (fo_starts _ _ Hfile), length_starts, <- (fo_starts _ _ Hfile). cbn [pred].
  rewrite dir_length, start_at by done. cbn. unfold first_of. by rewrite firstn_all.
Qed.

Lemma block_at b c : blocks !! b = Some c → read_block zstd_decode r b = Ok (raw_of c).
Proof.
  intros Hb. destruct (dir_at b c Hb) as (e & He & _). unfold read_block. rewrite He. unfold check_stored_len.
  rewrite (proj2 (Z.ltb_ge _ _)) by (by eapply fo_small). cbn [mbind result_bind].
  destruct (fo_stored _ _ Hfile b c e Hb He) as (stored & -> & Hd). exact Hd.
Qed.

(** The block and the slot of a global index. *)
Lemma place_of (bs : list (list bytes)) g : 0 <= g < zlen (concat bs) → ∃ b c s, bs !! b = Some c ∧ (s < length c)%nat ∧ g = first_of bs b + Z.of_nat s.
Proof.
  revert g. induction bs as [|c bs IH]; intros g Hg; cbn [concat] in Hg; [change (zlen (@nil bytes)) with 0 in Hg; lia|]. rewrite zlen_app in Hg.
  destruct (Z.lt_ge_cases g (zlen c)).
  - exists 0%nat, c, (Z.to_nat g). unfold first_of, zlen in *. cbn. split_and!; [done|lia|lia].
  - destruct (IH (g - zlen c)) as (b & d & s & Hb & Hs & Hg'); [lia|]. exists (S b), d, s. split_and!; [done|done|].
    unfold first_of in *. cbn [take concat]. rewrite zlen_app. lia.
Qed.

Lemma fits_at b c : blocks !! b = Some c → block_fits c ∧ zlen c < 2 ^ 32.
Proof. intros Hb. pose proof (Forall_lookup_1 _ _ _ _ (fo_fits _ _ Hfile) Hb) as Hf. split; [done|]. destruct Hf. lia. Qed.

Lemma locate_place b c s : blocks !! b = Some c → (s < length c)%nat →
  locate r (first_of blocks b + Z.of_nat s) = Ok (mkLoc (as_u32 (Z.of_nat b)) (Z.of_nat s)).
Proof. intros Hb Hs. destruct (fits_at b c Hb). by eapply locate_at; [apply Hfile..|exact Hb|done|done]. Qed.

Lemma block_index b c : blocks !! b = Some c → as_u32 (Z.of_nat b) = Z.of_nat b.
Proof. intros Hb%lookup_lt_Some. pose proof (fo_count _ _ Hfile). unfold as_u32, zlen in *. rewrite Z.mod_small; lia. Qed.

Lemma read_at b c s rec : blocks !! b = Some c → c !! s = Some rec →
  read_record zstd_decode r (mkLoc (as_u32 (Z.of_nat b)) (Z.of_nat s)) = Ok rec.
Proof.
  intros Hb Hs. unfold read_record. cbn [loc_block loc_slot]. rewrite (block_index b c Hb), Nat2Z.id, (block_at b c Hb). cbn [mbind result_bind].
  rewrite parse_raw by (by eapply fits_at). cbn [mbind result_bind]. by apply record_of.
Qed.

Lemma record_in_concat (bs : list (list bytes)) b c s rec : bs !! b = Some c → c !! s = Some rec →
  concat bs !! Z.to_nat (first_of bs b + Z.of_nat s) = Some rec.
Proof.
  intros Hb Hs. rewrite <- (take_drop_middle _ _ _ Hb), concat_app. cbn [concat]. unfold first_of, zlen.
  rewrite take_drop_middle by done. replace (Z.to_nat _) with (length (concat (take b bs)) + s)%nat by lia.
  rewrite lookup_app_r by lia. replace (_ + s - _)%nat with s by lia. rewrite lookup_app_l; [done|by eapply lookup_lt_Some].
Qed.

Lemma read_global i rec : concat blocks !! i = Some rec → read_record_global zstd_decode r (Z.of_nat i) = Ok rec.
Proof.
  intros Hi. pose proof (lookup_lt_Some _ _ _ Hi) as Hlt. destruct (place_of blocks (Z.of_nat i)) as (b & c & s & Hb & Hs & Hg); [unfold zlen; lia|].
  destruct (lookup_lt_is_Some_2 c s Hs) as [rec' Hrec]. pose proof (record_in_concat blocks b c s rec' Hb Hrec) as E.
  rewrite <- Hg, Nat2Z.id, Hi in E. injection E as ->. unfold read_record_global. rewrite Hg, (locate_place b c s) by done.
  cbn [mbind result_bind]. by apply (read_at b c s).
Qed.
End readable.

Section scans.
Context {crypto : Crypto}.
Variable zstd_decode : bytes → list bytes * bool.
Context (r : BlockFileReader) (blocks : list (list bytes)) (Hfile : file_of zstd_decode r blocks).
Context {A : Type} (f : Z → bytes → A → result A) (lo hi : Z) (Hrange : lo <= hi).

Lemma visit_block_range b c a : blocks !! b = Some c → visit_block r lo hi f b (raw_of c) a = fold_range f lo hi (first_of blocks b) c a.
Proof.
  intros Hb. destruct (dir_at _ r blocks Hfile b c Hb) as (e & He & Hr). destruct (fits_at _ r blocks Hfile b c Hb).
  unfold visit_block. rewrite parse_raw by done. cbn [mbind result_bind].
  rewrite (start_at _ r blocks Hfile b), He, Hr by (apply lookup_lt_Some in Hb; lia).
  unfold zlen. rewrite Nat2Z.id. apply visit_slots_range.
Qed.

(** One window: what it reads, and what it does with it. *)
Lemma visit_window_range k bi a : (bi + k <= length blocks)%nat →
  ∃ stored, read_ranges (bf_src r) (map (λ e, (d_offset e, d_comp e)) (take k (drop bi (bf_dir r)))) = Ok stored ∧
    visit_window zstd_decode r (visit_block r lo hi f) bi stored a = fold_range f lo hi (first_of blocks bi) (concat (take k (drop bi blocks))) a.
Proof.
  revert bi a. induction k as [|k IH]; intros bi a Hk; [by exists []|].
  destruct (lookup_lt_is_Some_2 blocks bi) as [c Hc]; [lia|]. destruct (dir_at _ r blocks Hfile bi c Hc) as (e & He & _).
  destruct (fo_stored _ _ _ Hfile bi c e Hc He) as (s & Hs & Hd).
  rewrite (drop_S _ _ _ He), (drop_S _ _ _ Hc). cbn [take map concat read_ranges foldr].
  destruct (IH (S bi) a) as (stored & Hst & _); [lia|]. rewrite Hs. cbn [mbind result_bind].
  change (foldr _ _ ?l) with (read_ranges (bf_src r) l). rewrite Hst. cbn [mbind result_bind]. exists (s :: stored). split; [done|].
  cbn [visit_window]. rewrite He, Hd. cbn [mbind result_bind]. rewrite (visit_block_range bi c a Hc), fold_range_app by done.
  destruct (fold_range f lo hi (first_of blocks bi) c a) as [a'|]; [|done]. cbn [mbind result_bind].
  rewrite <- (first_of_S _ _ _ Hc). destruct (IH (S bi) a') as (stored' & Hst' & Hv); [lia|]. congruence.
Qed.

(** The windows together; the fuel is the number of blocks left. *)
Lemma window_loop_range n fuel bi a : (n <= length blocks)%nat → (n - bi <= fuel)%nat →
  window_loop zstd_decode fuel r (visit_block r lo hi f) bi n a = fold_range f lo hi (first_of blocks bi) (concat (take (n - bi) (drop bi blocks))) a.
Proof.
  intros Hn. revert bi a. induction fuel as [|fuel IH]; intros bi a Hf; cbn [window_loop]; destruct (Nat.ltb_spec bi n) as [Hlt|Hge].
  - lia.
  - replace (n - bi)%nat with 0%nat by lia. done.
  - set (h := Nat.min (bi + SCAN_READAHEAD) n). assert (bi < h <= n)%nat as Hh by (unfold h, SCAN_READAHEAD; lia). clearbody h.
    destruct (visit_window_range (h - bi) bi a) as (stored & -> & Hv); [lia|]. cbn [mbind result_bind]. rewrite Hv.
    replace (n - bi)%nat with ((h - bi) + (n - h))%nat by lia. rewrite <- take_take_drop, concat_app, fold_range_app by done.
    destruct (fold_range f lo hi (first_of blocks bi) _ a) as [a'|]; [|done]. cbn [mbind result_bind]. rewrite IH by lia.
    rewrite drop_drop. replace (bi + (h - bi))%nat with h by lia. f_equal. unfold first_of.
    replace h with (bi + (h - bi))%nat at 1 by lia. by rewrite <- take_take_drop, concat_app, zlen_app.
  - replace (n - bi)%nat with 0%nat by lia. done.
Qed.
End scans.

(** A scan of a range is the callback over its records, in order. *)
Lemma scan_range {crypto : Crypto} zstd_decode r blocks {A} (f : Z → bytes → A → result A) lo hi a :
  file_of zstd_decode r blocks → 0 <= lo → let total := zlen (concat blocks) in
  for_each_record_in zstd_decode r lo hi f a =
    fold_records f (Z.min lo total) (take (Z.to_nat (Z.min hi total - Z.min lo total)) (drop (Z.to_nat (Z.min lo total)) (concat blocks))) a.
Proof.
  intros Hf Hlo total. unfold for_each_record_in. rewrite (total_of _ r blocks Hf). fold total.
  destruct (Z.leb_spec (Z.min hi total) (Z.min lo total)) as [Hle|Hlt].
  { replace (Z.to_nat (Z.min hi total - Z.min lo total)) with 0%nat by lia. done. }
  set (l := Z.min lo total) in *. set (h := Z.min hi total) in *.
  destruct (place_of blocks l) as (b1 & c1 & s1 & Hb1 & Hs1 & Hl); [unfold l, h, total in *; lia|].
  destruct (place_of blocks (h - 1)) as (b2 & c2 & s2 & Hb2 & Hs2 & Hh); [unfold l, h, total in *; lia|].
  pose proof (locate_place _ r blocks Hf b1 c1 s1 Hb1 Hs1) as L1. rewrite <- Hl in L1.
  pose proof (locate_place _ r blocks Hf b2 c2 s2 Hb2 Hs2) as L2. rewrite <- Hh in L2. rewrite L1, L2. cbn [mbind result_bind loc_block].
  rewrite (block_index _ r blocks Hf b1 c1 Hb1), (block_index _ r blocks Hf b2 c2 Hb2), !Nat2Z.id.
  pose proof (first_of_S _ _ _ Hb1) as HS1. pose proof (first_of_S _ _ _ Hb2) as HS2.
  pose proof (lookup_lt_Some _ _ _ Hb2) as Hlt2. unfold for_each_block_in. rewrite (dir_length _ r blocks Hf), Nat.min_l by lia.
  assert (b1 <= b2)%nat as Hb12.
  { destruct (Nat.le_gt_cases b1 b2); [done|]. pose proof (first_of_mono blocks (S b2) b1 ltac:(lia)). unfold zlen in *. lia. }
  rewrite (window_loop_range zstd_decode r blocks Hf f l h) by lia.
  pose proof (fold_range_slice f l h 0 (concat blocks) a) as E. rewrite Z.sub_0_r in E. rewrite <- E by (unfold l, h, total in *; lia). clear E.
  rewrite <- (take_drop b1 blocks) at 3. rewrite concat_app, fold_range_app by lia.
  rewrite (fold_range_before f l h 0 (concat (take b1 blocks))) by (fold (first_of blocks b1); lia). cbn [mbind result_bind]. rewrite Z.add_0_l. fold (first_of blocks b1).
  pose proof (take_drop (S b2 - b1) (drop b1 blocks)) as E. rewrite <- E at 2. clear E. rewrite concat_app, fold_range_app by lia.
  destruct (fold_range f l h (first_of blocks b1) _ a) as [a'|]; [|done]. cbn [mbind result_bind]. symmetry.
  assert (first_of blocks b1 + zlen (concat (take (S b2 - b1) (drop b1 blocks))) = first_of blocks (S b2)) as ->.
  { unfold first_of. rewrite <- zlen_app, <- concat_app, take_take_drop. do 3 f_equal. lia. }
  unfold zlen in *. apply fold_range_past; lia.
Qed.

(** * The layout the writer makes *)

Section layout.
Context {crypto : Crypto} {crypto_laws : CryptoLaws}.
Variable zstd_encode_all : bytes → Z → result bytes.
Variable zstd_decode : bytes → list bytes * bool.
Variable random_nonce : nat → bytes.
Variables (target_block_bytes : Z) (codec : BlockCodec) (zstd_level : Z) (cipher : option FileCipher).
Hypothesis lossless : zstd_lossless zstd_encode_all zstd_decode.
Hypothesis bounded : ∀ raw level comp, zstd_encode_all raw level = Ok comp → zlen comp <= zlen raw + zlen raw / 256 + 64.
Hypothesis nonce_length : ∀ i, zlen (random_nonce i) = NONCE_LEN.
Hypothesis target_small : 5 * target target_block_bytes + 20 <= 2 ^ 30.

Local Abbreviation encrypted := (if cipher then true else false) (only parsing).
Local Abbreviation wok := (writer_ok zstd_decode codec cipher) (only parsing).
Local Abbreviation flush := (flush_block zstd_encode_all random_nonce codec zstd_level cipher) (only parsing).

(** The final blocks [fin] continue what is written and the block that is open. *)
Definition continues (blocks : list (list bytes)) (open : list bytes) (fin : list (list bytes)) : Prop :=
  (open = [] ∧ fin = blocks) ∨ ∃ more tail, fin = blocks ++ (open ++ more) :: tail.

(** A record that the final blocks have where its location says. *)
Definition placed (fin : list (list bytes)) (g : Z) (rec : bytes) (loc : RecordLoc) : Prop :=
  ∃ b c s, fin !! b = Some c ∧ c !! s = Some rec ∧ loc = mkLoc (as_u32 (Z.of_nat b)) (Z.of_nat s) ∧ g = first_of fin b + Z.of_nat s.

Lemma last_flush w blocks open w' : wok w blocks open → zlen (concat open) < target target_block_bytes → flush w = Ok w' →
  ∃ fin, wok w' fin [] ∧ concat fin = concat blocks ++ open ∧ continues blocks open fin.
Proof.
  intros Hw Hsz Hf. destruct open as [|r open].
  - exists blocks. rewrite app_nil_r. split_and!; [|done|by left]. unfold flush_block, next_job, take_raw_block in Hf.
    rewrite bool_decide_eq_true_2 in Hf by (by rewrite (wk_data _ _ _ _ _ _ Hw)). by injection Hf as <-.
  - exists (blocks ++ [r :: open]). split_and!.
    + pose proof (nonempty_count _ (wk_open _ _ _ _ _ _ Hw)). eapply flush_block_ok; [done..|exact Hw|done| |done]. rewrite zlen_raw_of. lia.
    + rewrite concat_app. cbn [concat]. by rewrite app_nil_r.
    + right. exists [], []. by rewrite app_nil_r.
Qed.

Lemma layout_of records w blocks open locs w1 w2 : wok w blocks open → zlen (concat open) < target target_block_bytes →
  Forall (record_fits target_block_bytes) records →
  append_records zstd_encode_all random_nonce target_block_bytes codec zstd_level cipher records w = Ok (locs, w1) → flush w1 = Ok w2 →
  ∃ fin, wok w2 fin [] ∧ concat fin = concat blocks ++ open ++ records ∧ continues blocks open fin ∧ length locs = length records ∧
    ∀ i rec loc, records !! i = Some rec → locs !! i = Some loc → placed fin (zlen (concat blocks ++ open) + Z.of_nat i) rec loc.
Proof.
  revert w blocks open locs. induction records as [|r records IH]; intros w blocks open locs Hw Hsz Hrec; cbn [append_records].
  - intros [= <- <-] Hf. destruct (last_flush w blocks open w2 Hw Hsz Hf) as (fin & ? & ? & ?). exists fin. rewrite app_nil_r. by split_and!.
  - apply Forall_cons in Hrec as [Hr Hrec]. intros Ha Hf. apply bind_Ok in Ha as ([loc w'] & Hap & Ha).
    apply bind_Ok in Ha as ([locs' w''] & Hrest & [= <- <-]).
    assert (0 < target target_block_bytes) as Ht by (unfold target; lia).
    destruct (append_record_ok zstd_encode_all zstd_decode random_nonce target_block_bytes codec zstd_level cipher lossless bounded nonce_length
      w blocks open r loc w' Hw Hsz Hr Hap) as [-> Hcase].
    assert (∃ blocks' open', wok w' blocks' open' ∧ zlen (concat open') < target target_block_bytes ∧ concat blocks' ++ open' = concat blocks ++ open ++ [r] ∧
      ∀ fin, continues blocks' open' fin → ∃ more tail, fin = blocks ++ (open ++ r :: more) :: tail) as (blocks' & open' & Hw' & Hsz' & Ec & Hcont).
    { destruct Hcase as [[Hw' Hlt]|Hw'].
      - exists blocks, (open ++ [r]). split_and!; [done|done|done|]. intros fin [[E _]|(more & tail & ->)]; [by destruct open|].
        exists more, tail. by rewrite <- app_assoc.
      - exists (blocks ++ [open ++ [r]]), []. split_and!; [done|done|rewrite concat_app; cbn; by rewrite !app_nil_r|].
        intros fin [[_ ->]|(more & tail & ->)]; [by exists [], []|]. exists [], (more :: tail). by rewrite <- app_assoc. }
    destruct (IH w' blocks' open' locs' Hw' Hsz' Hrec Hrest Hf) as (fin & Hfin & Efin & Hc & Hlen & Hpl). exists fin.
    destruct (Hcont fin Hc) as (more & tail & E). rewrite app_assoc, Ec in Efin. rewrite Ec in Hpl. split_and!.
    + done.
    + rewrite Efin. by rewrite <- !app_assoc.
    + right. exists (r :: more), tail. exact E.
    + cbn. by rewrite Hlen.
    + intros [|i] rec loc Hi Hl; cbn in Hi, Hl.
      * injection Hi as ->. injection Hl as <-. exists (length blocks), (open ++ rec :: more), (length open). rewrite E. split_and!.
        -- by rewrite lookup_app_r, Nat.sub_diag by done.
        -- by rewrite lookup_app_r, Nat.sub_diag by done.
        -- done.
        -- unfold first_of. rewrite take_app_length, zlen_app. unfold zlen. lia.
      * destruct (Hpl i rec loc Hi Hl) as (b & c & s & ? & ? & ? & Hg). exists b, c, s. split_and!; [done..|]. rewrite <- Hg.
        rewrite !zlen_app. change (zlen [r]) with 1. lia.
Qed.

(** * Images *)

(** Blocks behind a magic, and the directory that names them. *)
Record image_ok (file : bytes) (dir : list DirEntry) (blocks : list (list bytes)) : Prop := {
  im_magic : ∃ rest, file = magic_for codec encrypted ++ rest;
  im_dir : length dir = length blocks;
  im_blocks b e c : dir !! b = Some e → blocks !! b = Some c →
    block_reads zstd_decode codec cipher file e b (first_of blocks b) c;
}.

Definition image_of (file : bytes) (dir : list DirEntry) : bytes :=
  file ++ concat (map write_dir dir) ++ le_bytes 8 (zlen file) ++ le_bytes 8 (zlen (concat (map write_dir dir))) ++ le_bytes 8 (zlen dir).

Lemma dir_bytes_length dir : Forall (dir_ok encrypted) dir → zlen (concat (map write_dir dir)) <= 44 * zlen dir.
Proof.
  induction 1 as [|e dir He Hd IH]; cbn [map concat]; [done|]. rewrite zlen_cons, zlen_app.
  pose proof (zlen_write_dir encrypted e (do_nonce _ _ He)). lia.
Qed.

Section image.
Variables (file : bytes) (dir : list DirEntry) (blocks : list (list bytes)).
Hypothesis Hok : image_ok file dir blocks.
Hypothesis Hdir : 44 * zlen dir <= MAX_BLOCK_BYTES.
Hypothesis Himg : fits (image_of file dir).

Lemma image_entry b e : dir !! b = Some e → ∃ c, blocks !! b = Some c ∧ block_reads zstd_decode codec cipher file e b (first_of blocks b) c.
Proof.
  intros He. destruct (lookup_lt_is_Some_2 blocks b) as [c Hc]; [rewrite <- (im_dir _ _ _ Hok); by eapply lookup_lt_Some|].
  exists c. split; [done|by apply (im_blocks _ _ _ Hok)].
Qed.

Lemma image_block b c : blocks !! b = Some c → ∃ e, dir !! b = Some e ∧ block_reads zstd_decode codec cipher file e b (first_of blocks b) c.
Proof.
  intros Hc. destruct (lookup_lt_is_Some_2 dir b) as [e He]; [rewrite (im_dir _ _ _ Hok); by eapply lookup_lt_Some|].
  exists e. split; [done|by apply (im_blocks _ _ _ Hok)].
Qed.

Lemma image_file_small : zlen file < 2 ^ 63.
Proof.
  unfold fits, image_of in Himg. rewrite zlen_app in Himg. match type of Himg with _ + zlen ?x < _ => pose proof (zlen_nonneg x) end. lia.
Qed.

Lemma image_dir_ok : Forall (dir_ok encrypted) dir.
Proof.
  pose proof image_file_small. apply Forall_lookup. intros b e He. destruct (image_entry b e He) as (c & _ & [_ [Hc _] Ho Hcomp Hraw Hrecs Hn _ _]).
  split; try done; [unfold is_u64; lia|]. unfold is_u32. rewrite Hrecs. pose proof (zlen_nonneg c). lia.
Qed.

Lemma image_recs : map d_recs dir = map zlen blocks.
Proof.
  apply list_eq. intros b. rewrite !list_lookup_fmap. destruct (dir !! b) as [e|] eqn:He.
  - destruct (image_entry b e He) as (c & -> & Hbr). cbn. f_equal. exact (br_recs _ _ _ _ _ _ _ _ Hbr).
  - apply lookup_ge_None in He. rewrite (im_dir _ _ _ Hok) in He. by rewrite (proj2 (lookup_ge_None _ _) He).
Qed.

(** An image opens to its blocks. *)
Lemma image_opens : ∃ r, open_blocks (image_of file dir) cipher = Ok r ∧ bf_dir r = dir ∧ file_of zstd_decode r blocks.
Proof.
  pose proof image_dir_ok as Hd. pose proof (dir_bytes_length _ Hd) as Hdb. pose proof (zlen_nonneg dir). pose proof image_recs as Hrecs.
  change MAX_BLOCK_BYTES with (2 ^ 31) in Hdir. destruct (im_magic _ _ _ Hok) as [rest Hm].
  exists (mkReader (image_of file dir) dir (starts_from 0 dir) cipher codec).
  split. { eapply open_block_parts; [exact Hm|done| |done|lia]. change MAX_BLOCK_BYTES with (2 ^ 31). lia. }
  split; [done|]. split; cbn [bf_dir block_start bf_src].
  - done.
  - done.
  - pose proof (im_dir _ _ _ Hok). unfold zlen in *. lia.
  - apply Forall_lookup. intros b c Hc. destruct (image_block b c Hc) as (e & _ & Hbr). apply Hbr.
  - apply Forall_lookup. intros b c Hc. destruct (image_block b c Hc) as (e & _ & Hbr). apply Hbr.
  - intros b e He. destruct (image_entry b e He) as (c & _ & Hbr). apply Hbr.
  - intros b c e Hc He. pose proof (im_blocks _ _ _ Hok b e c He Hc) as Hbr.
    destruct (br_stored _ _ _ _ _ _ _ _ Hbr) as (stored & comp & Hr & Hs & Hu). exists stored. split; [apply Hr|].
    eapply stored_decodes; [exact Hs|exact Hu| |done|done]. cbn [block_start].
    rewrite (starts_from_lookup 0 _ blocks Hrecs); [done|]. apply lookup_lt_Some in Hc. lia.
Qed.
End image.

Variables (records : list bytes) (locs : list RecordLoc) (img : bytes) (n : Z).
Hypothesis Hrec : Forall (record_fits target_block_bytes) records.
Hypothesis Hwrite : write_file zstd_encode_all random_nonce target_block_bytes codec zstd_level cipher records = Ok (locs, (img, n)).

(** What the writer leaves. *)
Lemma written_image : ∃ file dir blocks, img = image_of file dir ∧ n = zlen dir ∧ image_ok file dir blocks ∧ concat blocks = records ∧
  length locs = length records ∧ ∀ i rec loc, records !! i = Some rec → locs !! i = Some loc → placed blocks (Z.of_nat i) rec loc.
Proof.
  pose proof Hwrite as H. unfold write_file in H. apply bind_Ok in H as ([locs' w1] & Ha & H).
  apply bind_Ok in H as (out & Hf & [= -> ->]). unfold finish in Hf. apply bind_Ok in Hf as (w2 & Hf & Ht).
  assert (write_trailer w2 = (img, n)) as Et by congruence. pose proof (f_equal fst Et) as Ei. pose proof (f_equal snd Et) as En.
  clear Ht Et. cbn [write_trailer fst snd] in Ei, En.
  destruct (layout_of records (create_inner codec cipher) [] [] locs w1 w2) as (fin & Hw & Ec & _ & Hlen & Hpl); try done.
  { by apply create_inner_ok. }
  { change (0 < target target_block_bytes). unfold target. lia. }
  destruct Hw as [Hm Hoff Hdl Hbl _ _ _ _ _]. rewrite Hoff in Ei. exists (bw_file w2), (bw_dir w2), fin. split_and!; [done|done|by split|done|done|exact Hpl].
Qed.

Hypothesis Hdir : 44 * n <= MAX_BLOCK_BYTES.
Hypothesis Himg : fits img.

(** The opened file, cut into blocks. *)
Lemma written_file : ∃ r fin, open_blocks img cipher = Ok r ∧ zlen (bf_dir r) = n ∧ file_of zstd_decode r fin ∧ concat fin = records ∧
  length locs = length records ∧ ∀ i rec loc, records !! i = Some rec → locs !! i = Some loc → placed fin (Z.of_nat i) rec loc.
Proof.
  destruct written_image as (file & dir & blocks & Ei & En & Hok & Ec & Hlen & Hpl).
  destruct (image_opens file dir blocks Hok) as (r & Ho & Hd & Hf); [by rewrite <- En|by rewrite <- Ei|].
  exists r, blocks. rewrite Ei, Hd, <- En. by split_and!.
Qed.

(** C17: A block file gives back what was appended.  Records written with any block size, either
    codec, encrypted or not, open to a file that has as many; the location returned by each append
    is the one the reader computes for its index, and reading there, or by the index, gives the
    record; an index past the end is refused; and a scan of any range calls back with the records
    of the range, in order and once.  The records have bytes, leave their block below a gigabyte,
    and the directory of the file below two.  (Empty records behind the last full block are not
    read back.) *)
Theorem blockfile_roundtrip : ∃ r, open_blocks img cipher = Ok r ∧ zlen (bf_dir r) = n ∧ total_records r = zlen records ∧
  length locs = length records ∧
  (∀ i rec loc, records !! i = Some rec → locs !! i = Some loc →
     locate r (Z.of_nat i) = Ok loc ∧ read_record zstd_decode r loc = Ok rec ∧ read_record_global zstd_decode r (Z.of_nat i) = Ok rec) ∧
  (∀ i, zlen records <= i → locate r i = Err (Bail "record index out of range")) ∧
  ∀ A (f : Z → bytes → A → result A) lo hi a, 0 <= lo <= hi → hi <= zlen records →
    for_each_record_in zstd_decode r lo hi f a = fold_records f lo (take (Z.to_nat (hi - lo)) (drop (Z.to_nat lo) records)) a.
Proof.
  destruct written_file as (r & fin & Ho & Hn & Hf & Ec & Hlen & Hpl). exists r.
  pose proof (total_of _ r fin Hf) as Ht. rewrite Ec in Ht. split_and!; [done..| | |].
  - intros i rec loc Hi Hl. destruct (Hpl i rec loc Hi Hl) as (b & c & s & Hb & Hs & -> & Hg). split_and!.
    + rewrite Hg. apply (locate_place _ r fin Hf b c s Hb). by eapply lookup_lt_Some.
    + by apply (read_at _ r fin Hf b c s).
    + apply (read_global _ r fin Hf). by rewrite Ec.
  - intros i Hi. unfold locate. by rewrite Ht, (proj2 (Z.leb_le _ _)).
  - intros A f lo hi a Hlo Hhi. rewrite (scan_range _ r fin f lo hi a Hf) by lia. rewrite Ec, !Z.min_l by lia. done.
Qed.
End layout.

(** * Files in parts *)

Section parts.
Context {crypto : Crypto}.
Variable zstd_encode_all : bytes → Z → result bytes.
Variable random_nonce : nat → bytes.
Variables (target_block_bytes : Z) (codec : BlockCodec) (zstd_level : Z) (cipher : option FileCipher).
Local Abbreviation records_to := (append_records zstd_encode_all random_nonce target_block_bytes codec zstd_level cipher) (only parsing).

Lemma records_app r1 r2 w : ('(_, w) ← records_to (r1 ++ r2) w; Ok w) = ('(_, w) ← records_to r1 w; '(_, w) ← records_to r2 w; Ok w).
Proof.
  revert w. induction r1 as [|r r1 IH]; intros w; cbn [app append_records]; [done|]. destruct (append_record _ _ _ _ _ _ r w) as [[loc w']|]; [|done].
  cbn [mbind result_bind]. specialize (IH w'). destruct (append_records _ _ _ _ _ _ (r1 ++ r2) w') as [[? ?]|], (append_records _ _ _ _ _ _ r1 w') as [[? ?]|]; done.
Qed.

(** A file that is written in two runs of appends. *)
Lemma file_of_two r1 r2 : ('(_, w) ← records_to r1 (create_inner codec cipher); '(_, w) ← records_to r2 w; finish zstd_encode_all random_nonce codec zstd_level cipher w) =
  ('(_, out) ← write_file zstd_encode_all random_nonce target_block_bytes codec zstd_level cipher (r1 ++ r2); Ok out).
Proof.
  unfold write_file. pose proof (records_app r1 r2 (create_inner codec cipher)) as E.
  destruct (append_records _ _ _ _ _ _ r1 _) as [[l1 w1]|]; cbn [mbind result_bind] in *; [destruct (append_records _ _ _ _ _ _ r2 w1) as [[l2 w2]|]; cbn [mbind result_bind] in *|].
  all: destruct (append_records _ _ _ _ _ _ (r1 ++ r2) _) as [[l3 w3]|]; cbn [mbind result_bind] in *; simplify_eq; try done.
  cbn [mbind result_bind]. by destruct (finish _ _ _ _ _ w2).
Qed.
End parts.

(** * Witness *)

Section witness.
#[local] Existing Instance toy_crypto.
#[local] Existing Instance toy_crypto_laws.

Definition example_records : list bytes := [[1; 2]; [3]; [4; 5; 6; 7]; [8]].
Definition example_block_key : option FileCipher := Some (Build_FileCipher [1; 2; 3]).
Definition example_block_nonces (i : nat) : bytes := repeat (Z.of_nat i) 24.

Definition example_written : result (list RecordLoc * (bytes * Z)) :=
  write_file stored_encode example_block_nonces 3 Zstd 3 example_block_key example_records.

Definition example_locs : list RecordLoc := match example_written with Ok (l, _) => l | Err _ => [] end.
Definition example_block_img : bytes := match example_written with Ok (_, (img, _)) => img | Err _ => [] end.

Lemma example_block_nonce_length i : zlen (example_block_nonces i) = NONCE_LEN.
Proof. unfold zlen, example_block_nonces. by rewrite repeat_length. Qed.

Lemma example_records_fit : Forall (record_fits 3) example_records.
Proof. repeat (apply Forall_cons; split); [..|by apply Forall_nil]. all: split; [done|apply Z.leb_le; reflexivity]. Qed.

Lemma example_file_written : write_file stored_encode example_block_nonces 3 Zstd 3 example_block_key example_records = Ok (example_locs, (example_block_img, 3)).
Proof. vm_compute. reflexivity. Qed.

Lemma example_block_fits : fits example_block_img.
Proof. unfold fits. apply Z.ltb_lt. vm_compute. reflexivity. Qed.

Lemma blockfile_roundtrip_witness : ∃ r, open_blocks example_block_img example_block_key = Ok r ∧ total_records r = 4 ∧
  read_record_global stored_decode r 2 = Ok [4; 5; 6; 7].
Proof.
  destruct (blockfile_roundtrip stored_encode stored_decode example_block_nonces 3 Zstd 3 example_block_key stored_lossless stored_bounded
    example_block_nonce_length ltac:(apply Z.leb_le; reflexivity) example_records example_locs example_block_img 3 example_records_fit
    example_file_written ltac:(apply Z.leb_le; reflexivity) example_block_fits) as (r & Ho & _ & Ht & Hl & Hr & _).
  exists r. split; [exact Ho|]. split; [exact Ht|]. destruct (lookup_lt_is_Some_2 example_locs 2) as [loc Hloc]; [rewrite Hl; cbn; lia|].
  exact (proj2 (proj2 (Hr 2%nat [4; 5; 6; 7] loc eq_refl Hloc))).
Defined.
End witness.
