(* ===== verification/BlockPool.v ===== *)
(** The pool that seals the blocks of a writer, of [graph-format/src/blockfile.rs].

    The appending thread hands a full block to the pool and keeps filling the next; workers
    complete blocks in any order; the appending thread writes the completed blocks that are next
    in the file.  A run is any sequence of these steps in which each was enabled. *)

From S2P Require Import Prelude Crypto BlockCodec Isam BlockFile BlockRead BlockExact.

(** [SealState] of a writer, with the permits it holds of the semaphore [INFLIGHT].  [draining]
    is the appending thread between the submission of a block and [drain_ready], and [closed]
    after the last one. *)
Record Pool := mkPool {
  po_w : BlockFileWriter;
  po_pending : list SealJob;
  po_done : gmap nat Sealed;
  po_err : option error;
  po_held : Z;
  po_draining : bool;
  po_closed : bool;
}.

Inductive pool_event :=
  | Append (record : bytes)
  | Close
  | Complete (block : nat)
  | Drain.

Section pool.
Context {crypto : Crypto}.
Variable zstd_encode_all : bytes → Z → result bytes.
Variable random_nonce : nat → bytes.
Variables (target_block_bytes : Z) (codec : BlockCodec) (zstd_level : Z) (cipher : option FileCipher).
Variable cap : Z.

Local Abbreviation sealj := (seal_job zstd_encode_all random_nonce codec zstd_level cipher) (only parsing).

Definition pool_start : Pool := mkPool (create_inner codec cipher) [] ∅ None 0 false false.

(** [flush_block] up to the submission.  It waits while no permit is free. *)
Definition submit (w : BlockFileWriter) (p : Pool) : option Pool :=
  match next_job w with
  | (None, w) => Some (mkPool w (po_pending p) (po_done p) (po_err p) (po_held p) false (po_closed p))
  | (Some j, w) =>
      if po_held p <? cap
      then Some (mkPool w (po_pending p ++ [j]) (po_done p) (po_err p) (po_held p + 1) true (po_closed p))
      else None
  end.

(** The job a worker runs: the result goes to [done] or [err], and the permit is released. *)
Definition complete (block : nat) (p : Pool) : option Pool :=
  match list_find (λ j, j_idx j = block) (po_pending p) with
  | None => None
  | Some (i, j) =>
      let pending := delete i (po_pending p) in
      Some match sealj j with
           | Ok s => mkPool (po_w p) pending (<[block := s]> (po_done p)) (po_err p) (po_held p - 1) (po_draining p) (po_closed p)
           | Err e => mkPool (po_w p) pending (po_done p) (Some (default e (po_err p))) (po_held p - 1) (po_draining p) (po_closed p)
           end
  end.

(** The loop of [drain_ready]; it takes a block out of [done] each round. *)
Fixpoint drain_loop (fuel : nat) (w : BlockFileWriter) (done : gmap nat Sealed) : BlockFileWriter * gmap nat Sealed :=
  match fuel, done !! bw_next_write w with
  | S fuel, Some b => drain_loop fuel (write_sealed b w) (delete (bw_next_write w) done)
  | _, _ => (w, done)
  end.

Definition drain_ready (p : Pool) : result Pool :=
  let '(w, done) := drain_loop (size (po_done p)) (po_w p) (po_done p) in
  match po_err p with
  | Some e => Err e
  | None => Ok (mkPool w (po_pending p) done None (po_held p) false (po_closed p))
  end.

(** One step; [None] when it is not enabled. *)
Definition pool_step (ev : pool_event) (p : Pool) : option (result Pool) :=
  match ev with
  | Append r =>
      if po_draining p || po_closed p then None
      else let w := (buffer_record r (po_w p)).2 in
           if block_full target_block_bytes w then Ok <$> submit w p
           else Some (Ok (mkPool w (po_pending p) (po_done p) (po_err p) (po_held p) false false))
  | Close =>
      if po_draining p || po_closed p then None
      else p ← submit (po_w p) p;
           Some (Ok (mkPool (po_w p) (po_pending p) (po_done p) (po_err p) (po_held p) (po_draining p) true))
  | Complete block => Ok <$> complete block p
  | Drain => if po_draining p then Some (drain_ready p) else None
  end.

Fixpoint pool_run (evs : list pool_event) (p : Pool) : option (result Pool) :=
  match evs with
  | [] => Some (Ok p)
  | ev :: evs =>
      match pool_step ev p with
      | None => None
      | Some (Err e) => Some (Err e)
      | Some (Ok p) => pool_run evs p
      end
  end.

(** The rest of [finish], once the last block is submitted and every worker is done. *)
Definition pool_finish (p : Pool) : option (result (bytes * Z)) :=
  if po_closed p && negb (po_draining p) && bool_decide (po_pending p = []) then
    Some (match po_err p with
          | Some e => Err e
          | None => p ← drain_ready p; Ok (write_trailer (po_w p))
          end)
  else None.

Definition appended (evs : list pool_event) : list bytes :=
  omap (λ ev, if ev is Append r then Some r else None) evs.
End pool.

(** * Cutting and writing are independent *)

Lemma buffer_write_sealed r b w : buffer_record r (write_sealed b w) = ((buffer_record r w).1, write_sealed b (buffer_record r w).2).
Proof. done. Qed.

Lemma next_job_write_sealed b w : next_job (write_sealed b w) = ((next_job w).1, write_sealed b (next_job w).2).
Proof. unfold next_job, take_raw_block. cbn [write_sealed bw_data bw_offsets]. by destruct (bool_decide _). Qed.

Definition written (seals : list Sealed) (w : BlockFileWriter) : BlockFileWriter := foldl (λ w b, write_sealed b w) w seals.

Lemma written_app a b w : written (a ++ b) w = written b (written a w).
Proof. apply foldl_app. Qed.

Lemma buffer_written r seals w : buffer_record r (written seals w) = ((buffer_record r w).1, written seals (buffer_record r w).2).
Proof.
  revert w. induction seals as [|b seals IH]; intros w; [done|].
  change (written (b :: seals) ?x) with (written seals (write_sealed b x)). by rewrite IH, buffer_write_sealed.
Qed.

Lemma next_job_written seals w : next_job (written seals w) = ((next_job w).1, written seals (next_job w).2).
Proof.
  revert w. induction seals as [|b seals IH]; intros w; [apply surjective_pairing|].
  change (written (b :: seals) ?x) with (written seals (write_sealed b x)). by rewrite IH, next_job_write_sealed.
Qed.

Lemma data_written seals w : bw_data (written seals w) = bw_data w.
Proof. revert w. induction seals as [|b seals IH]; intros w; [done|]. exact (IH (write_sealed b w)). Qed.

Lemma next_write_written seals w : bw_next_write (written seals w) = (bw_next_write w + length seals)%nat.
Proof. revert w. induction seals as [|b seals IH]; intros w; cbn; [lia|]. etransitivity; [exact (IH (write_sealed b w))|]. cbn. lia. Qed.

(** * What the appending thread cuts *)

Section cut.
Variable target_block_bytes : Z.

(** The jobs of a run of appends, and the writer they leave, without writing anything. *)
Fixpoint cut (records : list bytes) (w : BlockFileWriter) : list SealJob * BlockFileWriter :=
  match records with
  | [] => ([], w)
  | r :: records =>
      let w := (buffer_record r w).2 in
      if block_full target_block_bytes w
      then let '(j, w) := next_job w in
           let '(js, w) := cut records w in (option_list j ++ js, w)
      else cut records w
  end.

Lemma cut_snoc records r w : cut (records ++ [r]) w =
  let '(js, w) := cut records w in
  let w := (buffer_record r w).2 in
  if block_full target_block_bytes w then let '(j, w) := next_job w in (js ++ option_list j, w) else (js, w).
Proof.
  revert w. induction records as [|x records IH]; intros w; cbn [app cut].
  - destruct (block_full _ _); [|done]. destruct (next_job _) as [j w']. by rewrite app_nil_r.
  - destruct (block_full _ _); [|apply IH]. destruct (next_job _) as [j w']. rewrite IH. destruct (cut records w') as [js w''].
    cbv zeta. destruct (block_full _ _); [|done]. destruct (next_job _) as [j' w3]. by rewrite app_assoc.
Qed.

(** A job carries the number of the block it is for, and there is one per block. *)
Definition numbered (js : list SealJob) (w : BlockFileWriter) : Prop :=
  bw_next_block w = length js ∧ ∀ i j, js !! i = Some j → j_idx j = i.

Lemma next_job_numbered js w : numbered js w → numbered (js ++ option_list (next_job w).1) (next_job w).2.
Proof.
  intros [Hn Hj]. unfold next_job, take_raw_block. destruct (bool_decide _); cbn [fst snd option_list bw_next_block].
  - rewrite app_nil_r. done.
  - split; [rewrite length_app; cbn; lia|]. intros i j [Hi|[Hge Hi]]%lookup_app_Some; [by apply Hj|].
    apply list_lookup_singleton_Some in Hi as [Hz <-]. cbn. lia.
Qed.

Lemma cut_numbered records w : bw_next_block w = 0%nat → numbered (cut records w).1 (cut records w).2.
Proof.
  intros Hw. induction records as [|r records IH] using rev_ind; [split; [done|by intros ? ?]|].
  rewrite cut_snoc. destruct (cut records w) as [js w'] eqn:E. cbn [fst snd] in *.
  assert (numbered js (buffer_record r w').2) as Hb by exact IH.
  destruct (block_full _ _); [|done]. pose proof (next_job_numbered js _ Hb) as Hj. by destruct (next_job _).
Qed.
End cut.

(** * The inline writer *)

Section inline.
Context {crypto : Crypto}.
Variable zstd_encode_all : bytes → Z → result bytes.
Variable random_nonce : nat → bytes.
Variables (target_block_bytes : Z) (codec : BlockCodec) (zstd_level : Z) (cipher : option FileCipher).
Local Abbreviation sealj := (seal_job zstd_encode_all random_nonce codec zstd_level cipher) (only parsing).
Local Abbreviation appends := (append_records zstd_encode_all random_nonce target_block_bytes codec zstd_level cipher) (only parsing).

Definition fails (js : list SealJob) : Prop := ∃ j e, j ∈ js ∧ sealj j = Err e.

Lemma flush_inline seals w : flush_block zstd_encode_all random_nonce codec zstd_level cipher (written seals w) =
  match (next_job w).1 with
  | None => Ok (written seals (next_job w).2)
  | Some j => b ← sealj j; Ok (written (seals ++ [b]) (next_job w).2)
  end.
Proof.
  unfold flush_block. rewrite next_job_written. destruct (next_job w) as [[j|] w']; cbn [fst snd]; [|done].
  destruct (sealj j); [|done]. cbn [mbind result_bind]. by rewrite written_app.
Qed.

(** Inline, the jobs are sealed and written as they are cut. *)
Lemma inline_ok records w seals0 seals : Forall2 (λ j s, sealj j = Ok s) (cut target_block_bytes records w).1 seals →
  ∃ locs, appends records (written seals0 w) = Ok (locs, written (seals0 ++ seals) (cut target_block_bytes records w).2).
Proof.
  revert w seals0 seals. induction records as [|r records IH]; intros w seals0 seals Hs; cbn [append_records cut] in *.
  - apply Forall2_nil_inv_l in Hs as ->. rewrite app_nil_r. by exists [].
  - unfold append_record. rewrite buffer_written. cbn [fst snd]. unfold block_full in *. rewrite data_written.
    destruct (target target_block_bytes <=? _).
    + rewrite flush_inline. destruct (next_job _) as [j w'] eqn:Ej. cbn [fst snd].
      destruct (cut target_block_bytes records w') as [js w''] eqn:Ec. cbn [fst snd] in *. destruct j as [j|]; cbn [option_list app] in Hs.
      * apply Forall2_cons_inv_l in Hs as (s & seals' & Hj & Hs & ->). rewrite Hj. cbn [mbind result_bind].
        destruct (IH w' (seals0 ++ [s]) seals') as [locs Hl]; [by rewrite Ec|]. rewrite Hl, Ec, <- app_assoc. cbn. eauto.
      * cbn [mbind result_bind]. destruct (IH w' seals0 seals) as [locs Hl]; [by rewrite Ec|]. rewrite Hl, Ec. cbn. eauto.
    + cbn [mbind result_bind]. destruct (IH _ seals0 seals Hs) as [locs Hl]. rewrite Hl. cbn. eauto.
Qed.

Lemma inline_fails records w seals0 : fails (cut target_block_bytes records w).1 → ∃ e, appends records (written seals0 w) = Err e.
Proof.
  revert w seals0. induction records as [|r records IH]; intros w seals0 (j0 & e0 & Hin & He); cbn [append_records cut] in *; [by apply elem_of_nil in Hin|].
  unfold append_record. rewrite buffer_written. cbn [fst snd]. unfold block_full in *. rewrite data_written.
  destruct (target target_block_bytes <=? _).
  - rewrite flush_inline. destruct (next_job _) as [j w'] eqn:Ej. cbn [fst snd].
    destruct (cut target_block_bytes records w') as [js w''] eqn:Ec. cbn [fst] in Hin. destruct j as [j|]; cbn [option_list app] in Hin.
    + destruct (sealj j) as [s|e] eqn:Es; cbn [mbind result_bind]; [|eauto].
      apply elem_of_cons in Hin as [->|Hin]; [congruence|]. destruct (IH w' (seals0 ++ [s])) as [e ->]; [rewrite Ec; by exists j0, e0|]. cbn. eauto.
    + cbn [mbind result_bind]. destruct (IH w' seals0) as [e ->]; [rewrite Ec; by exists j0, e0|]. cbn. eauto.
  - cbn [mbind result_bind]. destruct (IH (buffer_record r w).2 seals0) as [e ->]; [by exists j0, e0|]. cbn. eauto.
Qed.
End inline.

(** * The pool's invariant *)

Section invariant.
Context {crypto : Crypto}.
Variable zstd_encode_all : bytes → Z → result bytes.
Variable random_nonce : nat → bytes.
Variables (target_block_bytes : Z) (codec : BlockCodec) (zstd_level : Z) (cipher : option FileCipher) (cap : Z).
Local Abbreviation sealj := (seal_job zstd_encode_all random_nonce codec zstd_level cipher) (only parsing).
Local Abbreviation fails := (fails zstd_encode_all random_nonce codec zstd_level cipher) (only parsing).

(** Of the jobs [js] cut so far the first are written, as [seals].  Of the others each is pending,
    or sealed, or has failed. *)
Record pool_ok (w0 : BlockFileWriter) (js : list SealJob) (seals : list Sealed) (p : Pool) : Prop := {
  pk_fresh : bw_next_write w0 = 0%nat;
  pk_numbered : numbered js w0;
  pk_w : po_w p = written seals w0;
  pk_seals : Forall2 (λ j s, sealj j = Ok s) (take (length seals) js) seals;
  pk_pending j : j ∈ po_pending p → ∃ i, js !! i = Some j ∧ (length seals <= i)%nat;
  pk_done i s : po_done p !! i = Some s → ∃ j, js !! i = Some j ∧ sealj j = Ok s ∧ (length seals <= i)%nat;
  pk_rest i j : js !! i = Some j → (length seals <= i)%nat →
    j ∈ po_pending p ∨ is_Some (po_done p !! i) ∨ ((∃ e, sealj j = Err e) ∧ is_Some (po_err p));
  pk_err e : po_err p = Some e → fails js;
  pk_held : po_held p = zlen (po_pending p);
  pk_nodup : NoDup (po_pending p);
  pk_apart j : j ∈ po_pending p → po_done p !! j_idx j = None;
}.

Lemma seals_le w0 js seals p : pool_ok w0 js seals p → (length seals <= length js)%nat.
Proof. intros Hp. pose proof (Forall2_length _ _ _ (pk_seals _ _ _ _ Hp)) as E. rewrite length_take in E. lia. Qed.

Lemma next_job_fresh w : bw_next_write (next_job w).2 = bw_next_write w.
Proof. unfold next_job, take_raw_block. by destruct (bool_decide _). Qed.

Lemma fails_app js more : fails js → fails (js ++ more).
Proof. intros (j & e & Hj & He). exists j, e. split; [set_solver|done]. Qed.

Lemma submit_ok w0 w1 js seals p p' : pool_ok w0 js seals p → numbered js w1 → bw_next_write w1 = 0%nat →
  submit cap (written seals w1) p = Some p' →
  pool_ok (next_job w1).2 (js ++ option_list (next_job w1).1) seals p' ∧ po_closed p' = po_closed p ∧
    (po_draining p' = false → (next_job w1).1 = None).
Proof.
  intros Hp Hn Hf. unfold submit. rewrite next_job_written. pose proof (next_job_numbered js w1 Hn) as Hn'. pose proof (next_job_fresh w1) as Hf'.
  pose proof (seals_le _ _ _ _ Hp) as Hle. destruct Hp as [_ Hn0 _ Hs Hpe Hd Hr He Hh Hnd Hap].
  destruct (next_job w1) as [[j|] w2] eqn:Ej; cbn [fst snd option_list] in *.
  - destruct (po_held p <? cap); [|done]. intros [= <-]. split; [|done].
    assert (j_idx j = length js) as Hjidx by (apply (proj2 Hn'); by rewrite lookup_app_r, Nat.sub_diag).
    split; cbn [po_w po_pending po_done po_err po_held]; try done.
    + congruence.
    + rewrite take_app_le by done. done.
    + intros j' [Hj|Hj]%elem_of_app.
      * destruct (Hpe j' Hj) as (i & Hi & ?). exists i. split; [by apply lookup_app_l_Some|done].
      * apply list_elem_of_singleton in Hj as ->. exists (length js). split; [by rewrite lookup_app_r, Nat.sub_diag|done].
    + intros i s Hi. destruct (Hd i s Hi) as (j' & ? & ? & ?). exists j'. split_and!; [by apply lookup_app_l_Some|done|done].
    + intros i j' [Hi|[Hge Hi]]%lookup_app_Some Hlen.
      * destruct (Hr i j' Hi Hlen) as [?|?]; [left; set_solver|by right].
      * apply list_lookup_singleton_Some in Hi as [_ <-]. left. set_solver.
    + intros e Hee. by apply fails_app, (He e).
    + rewrite zlen_app, Hh. done.
    + apply NoDup_app. split_and!; [done| |by apply NoDup_singleton]. intros x Hx ->%list_elem_of_singleton.
      destruct (Hpe j Hx) as (i & Hi & _). pose proof (proj2 Hn0 i j Hi). apply lookup_lt_Some in Hi. lia.
    + intros x [Hx|Hx]%elem_of_app; [by apply Hap|]. apply list_elem_of_singleton in Hx as ->. rewrite Hjidx.
      destruct (po_done p !! length js) as [s|] eqn:E; [|done]. destruct (Hd _ _ E) as (y & Hy & _). apply lookup_lt_Some in Hy. lia.
  - intros [= <-]. rewrite app_nil_r in *. split; [|done]. split; cbn [po_w po_pending po_done po_err po_held]; try done. congruence.
Qed.

Lemma complete_ok w0 js seals p block p' : pool_ok w0 js seals p → complete zstd_encode_all random_nonce codec zstd_level cipher block p = Some p' →
  pool_ok w0 js seals p' ∧ po_closed p' = po_closed p ∧ po_draining p' = po_draining p.
Proof.
  intros [Hf Hn Hw Hs Hpe Hd Hr He Hh Hnd Hap]. unfold complete. destruct (list_find _ _) as [[i j]|] eqn:El; [|done].
  apply list_find_Some in El as (Hi & Hidx & _). pose proof (delete_Permutation _ _ _ Hi) as Hp.
  assert (j ∈ po_pending p) as Hin by (by eapply list_elem_of_lookup_2). destruct (Hpe j Hin) as (k & Hk & Hlen).
  pose proof (proj2 Hn k j Hk) as Hkj. rewrite Hidx in Hkj. subst k.
  assert (∀ x, x ∈ delete i (po_pending p) → x ∈ po_pending p) as Hsub by (intros x Hx; rewrite Hp; set_solver).
  assert (po_held p - 1 = zlen (delete i (po_pending p))) as Hheld.
  { rewrite Hh. unfold zlen. rewrite (Permutation_length Hp). cbn [length]. lia. }
  assert (∀ x k, js !! k = Some x → k ≠ block → x ∈ po_pending p → x ∈ delete i (po_pending p)) as Hstay.
  { intros x k Hx Hne Hxin. rewrite Hp in Hxin. apply elem_of_cons in Hxin as [->|?]; [|done]. destruct Hne. by rewrite <- (proj2 Hn k j Hx). }
  assert (j ∉ delete i (po_pending p) ∧ NoDup (delete i (po_pending p))) as [Hgone Hnd'] by (rewrite Hp in Hnd; by apply NoDup_cons in Hnd).
  destruct (sealj j) as [s|e] eqn:Es; intros [= <-]; (split; [|done]); split; cbn [po_w po_pending po_done po_err po_held]; try done.
  - intros x Hx. by apply Hpe, Hsub.
  - intros k s'. destruct (decide (k = block)) as [->|]; [rewrite lookup_insert_eq; intros [= <-]; by exists j|].
    rewrite lookup_insert_ne by done. apply Hd.
  - intros k x Hx Hle. destruct (decide (k = block)) as [->|Hne]; [right; left; rewrite lookup_insert_eq; eauto|].
    rewrite lookup_insert_ne by done. destruct (Hr k x Hx Hle) as [Hpend|Hrest]; [left; by eapply Hstay|by right].
  - intros x Hx. pose proof (Hsub x Hx) as Hx'. rewrite lookup_insert_ne; [by apply Hap|]. intros E. destruct (Hpe x Hx') as (k & Hkx & _).
    pose proof (proj2 Hn k x Hkx). assert (k = block) as -> by lia. congruence.
  - intros x Hx. by apply Hpe, Hsub.
  - intros k x Hx Hle. destruct (decide (k = block)) as [->|Hne].
    + right; right. rewrite Hk in Hx. injection Hx as <-. split; [eauto|by eexists].
    + destruct (Hr k x Hx Hle) as [Hpend|[?|[? ?]]]; [left; by eapply Hstay|by right; left|right; right; split; [done|by eexists]].
  - intros e' _. exists j, e. split; [by eapply list_elem_of_lookup_2|done].
  - intros x Hx. by apply Hap, Hsub.
Qed.

(** Draining writes what is next, as long as it is there. *)
Lemma drain_loop_ok fuel w0 js seals p : pool_ok w0 js seals p → (size (po_done p) <= fuel)%nat →
  ∃ more, let '(w, done) := drain_loop fuel (po_w p) (po_done p) in
    pool_ok w0 js (seals ++ more) (mkPool w (po_pending p) done (po_err p) (po_held p) (po_draining p) (po_closed p)) ∧
    done !! length (seals ++ more) = None.
Proof.
  revert seals p. induction fuel as [|fuel IH]; intros seals p Hp Hsz; pose proof Hp as [Hf Hn Hw Hs Hpe Hd Hr He Hh Hnd Hap].
  all: assert (bw_next_write (po_w p) = length seals) as Hnw by (rewrite Hw, next_write_written, Hf; lia).
  all: cbn [drain_loop].
  { exists []. rewrite app_nil_r. destruct p; cbn in *. split; [done|]. apply Nat.le_0_r, map_size_empty_iff in Hsz as ->. apply lookup_empty. }
  rewrite Hnw. destruct (po_done p !! length seals) as [b|] eqn:Eb; [|exists []; rewrite app_nil_r; destruct p; cbn in *; done].
  destruct (Hd _ _ Eb) as (j & Hj & Hjs & _).
  set (p1 := mkPool (write_sealed b (po_w p)) (po_pending p) (delete (length seals) (po_done p)) (po_err p) (po_held p) (po_draining p) (po_closed p)).
  destruct (IH (seals ++ [b]) p1) as [more Hmore]; [| |exists (b :: more)].
  - split; cbn [p1 po_w po_pending po_done po_err po_held]; try done.
    + by rewrite written_app, <- Hw.
    + rewrite length_app, Nat.add_1_r, (take_S_r _ _ _ Hj). apply Forall2_app; [done|]. by constructor.
    + intros x Hx. destruct (Hpe x Hx) as (i & Hi & Hle). exists i. split; [done|]. rewrite length_app. cbn.
      assert (i ≠ length seals); [|lia]. intros ->. pose proof (Hap x Hx) as E. rewrite (proj2 Hn _ _ Hi) in E. congruence.
    + intros i s [Hne Hi]%lookup_delete_Some. destruct (Hd i s Hi) as (x & ? & ? & ?). exists x. split_and!; [done|done|]. rewrite length_app. cbn. lia.
    + intros i x Hx Hle. rewrite length_app in Hle. cbn in Hle. rewrite lookup_delete_ne by lia. apply Hr; [done|lia].
    + intros x Hx. apply lookup_delete_None. right. by apply Hap.
  - cbn [p1 po_done]. rewrite map_size_delete_Some by eauto. lia.
  - rewrite <- app_assoc in Hmore. exact Hmore.
Qed.

(** * Runs *)

Local Abbreviation start := (create_inner codec cipher) (only parsing).
Local Abbreviation step := (pool_step zstd_encode_all random_nonce target_block_bytes codec zstd_level cipher cap) (only parsing).
Local Abbreviation run := (pool_run zstd_encode_all random_nonce target_block_bytes codec zstd_level cipher cap) (only parsing).
Local Abbreviation write := (write_file zstd_encode_all random_nonce target_block_bytes codec zstd_level cipher) (only parsing).

(** The jobs of a file, with the last one when it is closed. *)
Definition cut_file (records : list bytes) (closed : bool) : list SealJob * BlockFileWriter :=
  let '(js, w) := cut target_block_bytes records start in
  if closed then (js ++ option_list (next_job w).1, (next_job w).2) else (js, w).

Definition reached (records : list bytes) (p : Pool) : Prop :=
  ∃ seals, pool_ok (cut_file records (po_closed p)).2 (cut_file records (po_closed p)).1 seals p.

Lemma inline_file records seals : Forall2 (λ j s, sealj j = Ok s) (cut_file records true).1 seals →
  ∃ locs, write records = Ok (locs, write_trailer (written seals (cut_file records true).2)).
Proof.
  unfold cut_file, write_file. destruct (cut target_block_bytes records start) as [js w] eqn:Ec. cbn [fst snd]. intros Hs.
  apply Forall2_app_inv_l in Hs as (s1 & s2 & H1 & H2 & ->).
  destruct (inline_ok zstd_encode_all random_nonce target_block_bytes codec zstd_level cipher records start [] s1) as [locs Hl]; [by rewrite Ec|].
  change (written [] start) with start in Hl. rewrite Hl, Ec. cbn [mbind result_bind app snd]. unfold finish. rewrite flush_inline.
  destruct (next_job w) as [[j|] w']; cbn [fst snd option_list] in *.
  - apply Forall2_cons_inv_l in H2 as (b & s3 & Hb & H3 & ->). apply Forall2_nil_inv_l in H3 as ->. rewrite Hb. cbn [mbind result_bind]. eauto.
  - apply Forall2_nil_inv_l in H2 as ->. rewrite app_nil_r. cbn [mbind result_bind]. eauto.
Qed.

Lemma inline_file_fails records closed : fails (cut_file records closed).1 → ∃ e, write records = Err e.
Proof.
  unfold cut_file, write_file. destruct (cut target_block_bytes records start) as [js w] eqn:Ec. cbn [fst snd]. intros Hf.
  destruct (append_records _ _ _ _ _ _ records start) as [[locs w1]|e] eqn:Ea; cbn [mbind result_bind]; [|eauto].
  assert (¬ fails js) as Hno.
  { intros Hfail. destruct (inline_fails zstd_encode_all random_nonce target_block_bytes codec zstd_level cipher records start []) as [e E]; [by rewrite Ec|].
    change (written [] start) with start in E. congruence. }
  assert (∃ seals, Forall2 (λ j s, sealj j = Ok s) js seals) as [seals Hs].
  { clear -Hno. induction js as [|j js IH]; [by exists []|]. destruct IH as [seals Hs].
    - intros (x & e & Hx & He). apply Hno. exists x, e. split; [set_solver|done].
    - destruct (sealj j) as [b|e] eqn:Ej; [exists (b :: seals); by constructor|]. destruct Hno. exists j, e. split; [set_solver|done]. }
  destruct (inline_ok zstd_encode_all random_nonce target_block_bytes codec zstd_level cipher records start [] seals) as [locs' Hl]; [by rewrite Ec|].
  change (written [] start) with start in Hl. rewrite Ea, Ec in Hl. injection Hl as _ ->. cbn [app snd]. unfold finish. rewrite flush_inline.
  destruct closed; [|done]. destruct Hf as (x & e & Hx & He). cbn [fst] in Hx. apply elem_of_app in Hx as [Hx|Hx]; [destruct Hno; by exists x, e|].
  destruct (next_job w) as [[j|] w']; cbn [fst snd option_list] in *; [|by apply elem_of_nil in Hx].
  apply list_elem_of_singleton in Hx as ->. rewrite He. cbn. eauto.
Qed.

Lemma cut_fresh records : bw_next_write (cut target_block_bytes records start).2 = 0%nat.
Proof.
  induction records as [|r records IH] using rev_ind; [done|]. rewrite cut_snoc. destruct (cut _ records _) as [js w]. cbn [snd] in *.
  cbv zeta. destruct (block_full _ _); [|done]. pose proof (next_job_fresh (buffer_record r w).2) as E. destruct (next_job _). cbn [snd] in *. by rewrite E.
Qed.

Lemma start_reached : reached [] (pool_start codec cipher).
Proof. exists []. split; cbn; try done; try (intros j Hj; by apply elem_of_nil in Hj). apply NoDup_nil_2. Qed.

(** The fields the invariant does not read. *)
Lemma pool_ok_flags w0 js seals p d c : pool_ok w0 js seals p →
  pool_ok w0 js seals (mkPool (po_w p) (po_pending p) (po_done p) (po_err p) (po_held p) d c).
Proof. intros []. by split. Qed.

Lemma drain_reached records p : reached records p →
  match drain_ready p with
  | Ok p' => reached records p' ∧ po_closed p' = po_closed p ∧ po_err p = None ∧ po_done p' !! bw_next_write (po_w p') = None ∧
      po_pending p' = po_pending p
  | Err e => fails (cut_file records (po_closed p)).1
  end.
Proof.
  intros [seals Hp]. unfold drain_ready. destruct (drain_loop_ok (size (po_done p)) _ _ seals p Hp) as [more Hm]; [done|].
  destruct (drain_loop _ _ _) as [w done_]. destruct Hm as [Hok Hnone]. destruct (po_err p) as [e|] eqn:Ee.
  - by eapply (pk_err _ _ _ _ Hp).
  - split_and!; [|done|done| |done]; cbn [po_closed po_w po_done].
    + exists (seals ++ more). cbn [po_closed]. pose proof (pool_ok_flags _ _ _ _ false (po_closed p) Hok) as H. cbn in H. exact H.
    + rewrite (pk_w _ _ _ _ Hok : w = _), next_write_written, (pk_fresh _ _ _ _ Hok). exact Hnone.
Qed.

Lemma append_reached records r p p' : reached records p → step (Append r) p = Some (Ok p') → reached (records ++ [r]) p'.
Proof.
  intros [seals Hp]. cbn [pool_step]. destruct (po_draining p); [done|]. destruct (po_closed p) eqn:Ecl; [done|]. cbn [orb].
  unfold cut_file in Hp. pose proof (cut_snoc target_block_bytes records r start) as Hc. pose proof (cut_fresh records) as Hf0.
  unfold reached, cut_file. destruct (cut target_block_bytes records start) as [js w] eqn:Ec. cbn [fst snd] in Hp, Hf0.
  rewrite Hc. rewrite (pk_w _ _ _ _ Hp), buffer_written. cbn [fst snd]. unfold block_full in *. rewrite data_written. cbv zeta.
  assert (numbered js (buffer_record r w).2) as Hnum by exact (pk_numbered _ _ _ _ Hp).
  destruct (target target_block_bytes <=? _).
  - destruct (submit cap _ p) as [p1|] eqn:Es; [|done]. intros [= <-].
    destruct (submit_ok w (buffer_record r w).2 js seals p p1 Hp Hnum Hf0 Es) as (Hok & Hcl & _). rewrite Hcl, Ecl. exists seals.
    by destruct (next_job _).
  - intros [= <-]. cbn [po_closed]. exists seals. destruct Hp as []. by split.
Qed.

Lemma close_reached records p p' : reached records p → step Close p = Some (Ok p') → reached records p'.
Proof.
  intros [seals Hp]. cbn [pool_step]. destruct (po_draining p); [done|]. destruct (po_closed p) eqn:Ecl; [done|]. cbn [orb].
  unfold cut_file in Hp. pose proof (cut_fresh records) as Hf0. unfold reached, cut_file.
  destruct (cut target_block_bytes records start) as [js w] eqn:Ec. cbn [fst snd] in *. rewrite (pk_w _ _ _ _ Hp).
  destruct (submit cap _ p) as [p1|] eqn:Es; [|done]. cbn. intros [= <-].
  destruct (submit_ok w w js seals p p1 Hp (pk_numbered _ _ _ _ Hp) Hf0 Es) as (Hok & _ & _). cbn [po_closed fst snd]. exists seals.
  by apply pool_ok_flags.
Qed.

Lemma step_reached records ev p p' : reached records p → step ev p = Some (Ok p') → reached (records ++ appended [ev]) p'.
Proof.
  intros Hp Hs. destruct ev as [r| |block|].
  - by eapply append_reached.
  - rewrite app_nil_r. by eapply close_reached.
  - rewrite app_nil_r. cbn in Hs. destruct (complete _ _ _ _ _ block p) as [p1|] eqn:Ec; [|done]. injection Hs as <-.
    destruct Hp as [seals Hp]. destruct (complete_ok _ _ _ _ _ _ Hp Ec) as (Hok & Hcl & _). exists seals. by rewrite Hcl.
  - rewrite app_nil_r. cbn in Hs. destruct (po_draining p); [|done]. injection Hs as Hs. pose proof (drain_reached records p Hp) as Hd.
    rewrite Hs in Hd. apply Hd.
Qed.

Lemma run_reached evs records p : reached records p →
  match run evs p with
  | Some (Ok p') => reached (records ++ appended evs) p'
  | Some (Err e) => ∃ pre suf closed, evs = pre ++ suf ∧ fails (cut_file (records ++ appended pre) closed).1
  | None => True
  end.
Proof.
  revert records p. induction evs as [|ev evs IH]; intros records p Hp; cbn [pool_run]; [by rewrite app_nil_r|].
  destruct (step ev p) as [[p1|e]|] eqn:Es; [|..|done].
  - specialize (IH _ _ (step_reached _ _ _ _ Hp Es)). rewrite <- app_assoc in IH.
    assert (∀ l, appended [ev] ++ appended l = appended (ev :: l)) as Ha by (intros l; by destruct ev). rewrite Ha in IH.
    destruct (run evs p1) as [[p2|e]|]; [done| |done]. destruct IH as (pre & suf & closed & -> & Hf). exists (ev :: pre), suf, closed.
    rewrite <- app_assoc, Ha in Hf. done.
  - exists [], (ev :: evs), (po_closed p). split; [done|]. rewrite app_nil_r. destruct ev as [r| |block|]; cbn in Es.
    + repeat case_match; try done. by destruct (submit _ _ _).
    + repeat case_match; try done. by destruct (submit _ _ _).
    + by destruct (complete _ _ _ _ _ _ _).
    + destruct (po_draining p); [|done]. injection Es as Es. pose proof (drain_reached records p Hp) as Hd. by rewrite Es in Hd.
Qed.

(** Once closed, drained and without errors, every block is written. *)
Lemma all_written records p seals : pool_ok (cut_file records true).2 (cut_file records true).1 seals p → po_pending p = [] → po_err p = None →
  po_done p !! bw_next_write (po_w p) = None → Forall2 (λ j s, sealj j = Ok s) (cut_file records true).1 seals.
Proof.
  intros Hp Hpend Herr Hnone. pose proof (seals_le _ _ _ _ Hp) as Hle. pose proof (pk_seals _ _ _ _ Hp) as Hs.
  rewrite (pk_w _ _ _ _ Hp), next_write_written, (pk_fresh _ _ _ _ Hp) in Hnone. cbn [Nat.add] in Hnone.
  destruct (Nat.eq_dec (length seals) (length (cut_file records true).1)) as [E|Hne]; [by rewrite E, firstn_all in Hs|].
  destruct (lookup_lt_is_Some_2 (cut_file records true).1 (length seals)) as [j Hj]; [lia|].
  destruct (pk_rest _ _ _ _ Hp _ _ Hj) as [Hin|[[x Hx]|[_ [x Hx]]]]; [done|rewrite Hpend in Hin; by apply elem_of_nil in Hin|congruence|congruence].
Qed.

Lemma finish_inline records p out : reached records p → pool_finish p = Some out →
  match out with Ok o => ∃ locs, write records = Ok (locs, o) | Err _ => ∃ e, write records = Err e end.
Proof.
  intros Hp. unfold pool_finish. destruct (po_closed p) eqn:Ecl; [|done]. destruct (po_draining p); [done|]. cbn [andb negb].
  case_bool_decide as Hpend; [|done]. pose proof (drain_reached records p Hp) as Hd. rewrite Ecl in Hd. destruct (po_err p) as [e|] eqn:Ee.
  - intros [= <-]. destruct Hp as [seals Hp]. rewrite Ecl in Hp. apply (inline_file_fails records true). by eapply (pk_err _ _ _ _ Hp).
  - destruct (drain_ready p) as [p'|e] eqn:Edr; cbn [mbind result_bind]; intros [= <-]; [|by apply (inline_file_fails records true)].
    destruct Hd as ([seals Hp'] & Hcl & _ & Hnone & Hpe). rewrite Hcl in Hp'.
    assert (po_err p' = None) as Herr. { unfold drain_ready in Edr. rewrite Ee in Edr. destruct (drain_loop _ _ _). by injection Edr as <-. }
    rewrite (pk_w _ _ _ _ Hp'). apply inline_file. apply (all_written records p' seals Hp'); [by rewrite Hpe|done|done].
Qed.

Lemma submit_enabled w p : po_held p < cap → is_Some (submit cap w p).
Proof. intros Hh. unfold submit. destruct (next_job w) as [[j|] w']; [|by eexists]. rewrite (proj2 (Z.ltb_lt _ _)) by done. by eexists. Qed.

(** Some step is always enabled: a worker's, or the next one of the appending thread. *)
Lemma pool_progress records p : 0 < cap → reached records p →
  (∃ block, is_Some (step (Complete block) p)) ∨
  (if po_draining p then is_Some (step Drain p)
   else if po_closed p then is_Some (pool_finish p)
   else is_Some (step Close p) ∧ ∀ r, is_Some (step (Append r) p)).
Proof.
  intros Hcap [seals Hp]. destruct (po_pending p) as [|j pending] eqn:Epend.
  - right. assert (po_held p < cap) as Hh by (rewrite (pk_held _ _ _ _ Hp), Epend; done). cbn [pool_step]. unfold pool_finish.
    destruct (po_draining p); [by eexists|]. destruct (po_closed p); [rewrite bool_decide_eq_true_2 by done; by eexists|]. cbn [orb]. split.
    + destruct (submit_enabled (po_w p) p Hh) as [p1 ->]. by eexists.
    + intros r. destruct (block_full _ _); [|by eexists]. destruct (submit_enabled (buffer_record r (po_w p)).2 p Hh) as [p1 ->]. by eexists.
  - left. exists (j_idx j). cbn [pool_step]. unfold complete. rewrite Epend. cbn [list_find]. rewrite decide_True by done. by eexists.
Qed.

(** C18: Sealing in a pool is invisible.  In whatever order workers complete the blocks, a run
    whose [finish] succeeds leaves the image, byte for byte, that a writer sealing inline leaves
    of the same records, given the same nonces; a run that fails, at a step or at [finish], has
    cut a block that the inline writer fails on too; and no run deadlocks. *)
Theorem pooled_writer_equiv evs : 0 < cap →
  match run evs (pool_start codec cipher) with
  | None => True
  | Some (Err _) => ∃ pre suf e, evs = pre ++ suf ∧ write (appended pre) = Err e
  | Some (Ok p) =>
      (∀ out, pool_finish p = Some (Ok out) → ∃ locs, write (appended evs) = Ok (locs, out)) ∧
      (∀ e, pool_finish p = Some (Err e) → ∃ e', write (appended evs) = Err e') ∧
      ((∃ block, is_Some (step (Complete block) p)) ∨
       (if po_draining p then is_Some (step Drain p)
        else if po_closed p then is_Some (pool_finish p)
        else is_Some (step Close p) ∧ ∀ r, is_Some (step (Append r) p)))
  end.
Proof.
  intros Hcap. pose proof (run_reached evs [] _ start_reached) as Hr. destruct (run evs _) as [[p|e]|]; [|..|done].
  - split_and!; [intros out Ho; exact (finish_inline _ p (Ok out) Hr Ho)|intros e He; exact (finish_inline _ p (Err e) Hr He)|].
    by eapply pool_progress.
  - destruct Hr as (pre & suf & closed & -> & Hf). destruct (inline_file_fails _ _ Hf) as [e' He']. by exists pre, suf, e'.
Qed.
End invariant.

(** * Witness and exhibits *)

Section witness.
#[local] Existing Instance toy_crypto.
#[local] Existing Instance toy_crypto_laws.

(** Blocks of one record; the second is complete before the first. *)
Definition example_events : list pool_event :=
  [Append [1; 2]; Drain; Append [3; 4]; Complete 1; Drain; Complete 0; Append [5]; Close; Drain; Complete 2].

Definition example_run : option (result Pool) :=
  pool_run stored_encode example_block_nonces 2 Zstd 3 None 4 example_events (pool_start Zstd None).

Lemma pooled_writer_equiv_witness : ∃ p out locs, example_run = Some (Ok p) ∧ pool_finish p = Some (Ok out) ∧
  write_file stored_encode example_block_nonces 2 Zstd 3 None (appended example_events) = Ok (locs, out).
Proof.
  pose proof (pooled_writer_equiv stored_encode example_block_nonces 2 Zstd 3 None 4 example_events eq_refl) as H.
  change (pool_run _ _ _ _ _ _ _ _ _) with example_run in H.
  destruct example_run as [[p|]|] eqn:E; [|vm_compute in E; discriminate..].
  destruct (pool_finish p) as [[out|]|] eqn:Ef.
  - destruct (proj1 H out eq_refl) as [locs Hl]. exists p, out, locs. split; [reflexivity|]. split; [exact Ef|exact Hl].
  - exfalso. vm_compute in E. injection E as <-. vm_compute in Ef. discriminate.
  - exfalso. vm_compute in E. injection E as <-. vm_compute in Ef. discriminate.
Defined.

(** The permit of a block is given back when it is sealed, not when it is written: behind a slow
    first block, with two permits, five blocks wait in memory. *)
Definition slow_first : list pool_event :=
  [Append [1; 2]; Drain] ++ concat (map (λ i, [Append [Z.of_nat i; 0]; Drain; Complete i]) (seq 1 4)).

Lemma inflight_not_unwritten : ∃ p,
  pool_run stored_encode example_block_nonces 2 Zstd 3 None 2 slow_first (pool_start Zstd None) = Some (Ok p) ∧
  po_held p = 1 ∧ (bw_next_block (po_w p) - bw_next_write (po_w p) = 5)%nat.
Proof. eexists. split; [vm_compute; reflexivity|]. split; vm_compute; reflexivity. Qed.

(** An empty record behind the last full block is lost: its append returns a location, and the
    file has no such record. *)
Definition lossy_file : result (list RecordLoc * (bytes * Z)) := write_file stored_encode example_block_nonces 1 Raw 3 None [[7]; []].

Lemma trailing_empty_lost :
  fst <$> lossy_file = Ok [mkLoc 0 0; mkLoc 1 0] ∧
  ('(_, (img, _)) ← lossy_file; r ← open_blocks img None; Ok (total_records r)) = Ok 1 ∧
  ('(_, (img, _)) ← lossy_file; r ← open_blocks img None; read_record stored_decode r (mkLoc 1 0)) = Err (Bail "block out of range").
Proof. split_and!; vm_compute; reflexivity. Qed.
End witness.
