(* ===== verification/BlockConcat.v ===== *)
(** Concatenation of block files, [concat_block_files] of [graph-format/src/blockfile.rs].

    Plain blocks are copied and their offsets moved.  A sealed block is bound to its position, so
    it is opened at the one it had and sealed again at the one it gets.  Files are byte images, as
    in [BlockFile]. *)

From S2P Require Import Prelude Wire Crypto BlockCodec Isam BlockFile BlockRead BlockExact.

(** The variables of the loop: the output, the directory written so far, and the blocks and
    records in it. *)
Record ConcatState := mkConcat {
  cs_out : bytes;
  cs_dir : list DirEntry;
  cs_blocks : nat;
  cs_records : Z;
}.

Section concat.
Context {crypto : Crypto}.
Variable random_nonce : nat → bytes.
Variable cipher : option FileCipher.
Local Abbreviation encrypted := (if cipher then true else false) (only parsing).

(** One directory entry of the input [f], whose blocks begin at [base] of the output. *)
Definition concat_entry (f : bytes) (base : Z) (local : nat) (local_records : Z) (e : DirEntry) (st : ConcatState) : result ConcatState :=
  '(offset, out, nonce) ←
    (match cipher with
     | None =>
         if d_offset e <? 8 then Err (Panic "attempt to subtract with overflow")
         else Ok (base + (d_offset e - 8), cs_out st, d_nonce e)
     | Some c =>
         _ ← check_stored_len (d_comp e);
         stored ← read_exact_at f (d_offset e) (d_comp e);
         body ← file_open c (BlockAad.block (Z.of_nat local) local_records (d_raw e) (d_recs e)) (nonce_bytes (d_nonce e)) stored;
         resealed ← file_seal c (BlockAad.block (Z.of_nat (cs_blocks st)) (cs_records st) (d_raw e) (d_recs e)) (random_nonce (cs_blocks st)) body;
         Ok (zlen (cs_out st), cs_out st ++ resealed, Some (random_nonce (cs_blocks st)))
     end : result (Z * bytes * option bytes));
  Ok (mkConcat out (cs_dir st ++ [mkDir offset (d_comp e) (d_raw e) (d_recs e) nonce]) (S (cs_blocks st)) (cs_records st + d_recs e)).

(** The entries of one input. *)
Fixpoint entry_loop (f : bytes) (base : Z) (todo local : nat) (local_records : Z) (dr : bytes) (st : ConcatState) : result ConcatState :=
  match todo with
  | O => Ok st
  | S todo =>
      '(e, dr) ← read_dir encrypted dr;
      st ← concat_entry f base local local_records e st;
      entry_loop f base todo (S local) (local_records + d_recs e) dr st
  end.

Definition concat_input (magic f : bytes) (st : ConcatState) : result ConcatState :=
  m ← read_exact_at f 0 8;
  if decide (m ≠ magic) then Err (Bail "concat_block_files: mixed magics") else
  let len := zlen f in
  if len <? BLOCK_FOOTER_LEN then Err (Panic "attempt to subtract with overflow") else
  footer ← read_exact_at f (len - BLOCK_FOOTER_LEN) BLOCK_FOOTER_LEN;
  '(dir_offset, fr) ← read_le 8 footer;
  '(dir_len, fr) ← read_le 8 fr;
  '(blocks, fr) ← read_le 8 fr;
  let base := zlen (cs_out st) in
  if dir_offset <? 8 then Err (Panic "attempt to subtract with overflow") else
  let region := dir_offset - 8 in
  out ← (match cipher with
         | Some _ => Ok (cs_out st)
         | None =>
             if Z.min region (len - 8) =? region then Ok (cs_out st ++ take (Z.to_nat region) (drop 8 f))
             else Err (Bail "concat_block_files: short copy")
         end : result bytes);
  db ← read_exact_at f dir_offset dir_len;
  entry_loop f base (Z.to_nat blocks) 0 0 db (mkConcat out (cs_dir st) (cs_blocks st) (cs_records st)).

Fixpoint concat_inputs (magic : bytes) (inputs : list bytes) (st : ConcatState) : result ConcatState :=
  match inputs with [] => Ok st | f :: inputs => st ← concat_input magic f st; concat_inputs magic inputs st end.

(** The image of the output, and the number of its records. *)
Definition concat_block_files (inputs : list bytes) : result (bytes * Z) :=
  match inputs with
  | [] => Err (Bail "concat_block_files: no inputs")
  | first :: _ =>
      magic ← read_exact_at first 0 8;
      match magic_kind magic with
      | None => Err (Bail "concat_block_files: bad magic")
      | Some (_, enc) =>
          if negb (Bool.eqb enc encrypted) then Err (Bail "concat_block_files: a cipher for an encrypted file and for no other")
          else
            st ← concat_inputs magic inputs (mkConcat magic [] 0 0);
            let dir_bytes := concat (map write_dir (cs_dir st)) in
            Ok (cs_out st ++ dir_bytes ++ le_bytes 8 (zlen (cs_out st)) ++ le_bytes 8 (zlen dir_bytes) ++ le_bytes 8 (Z.of_nat (cs_blocks st)),
                cs_records st)
      end
  end.
End concat.

(** * Blocks move *)

(** What lies behind a prefix is read alike behind another one. *)
Lemma read_behind a b x k n : 0 <= k → read_exact_at (a ++ x) (zlen a + k) n = read_exact_at (b ++ x) (zlen b + k) n.
Proof.
  intros Hk. unfold read_exact_at. rewrite !zlen_app.
  replace (zlen a + zlen x <? zlen a + k + n) with (zlen b + zlen x <? zlen b + k + n)
    by (destruct (Z.ltb_spec (zlen b + zlen x) (zlen b + k + n)), (Z.ltb_spec (zlen a + zlen x) (zlen a + k + n)); lia || done).
  case_match; [done|]. do 2 f_equal. unfold zlen. replace (Z.to_nat (Z.of_nat (length a) + k)) with (length a + Z.to_nat k)%nat by lia.
  replace (Z.to_nat (Z.of_nat (length b) + k)) with (length b + Z.to_nat k)%nat by lia. by rewrite !drop_app_add.
Qed.

Lemma read_exact_length src off n s : 0 <= off → 0 <= n → read_exact_at src off n = Ok s → zlen s = n.
Proof.
  unfold read_exact_at. case_match eqn:E; [done|]. intros Ho Hn [= <-]. apply Z.ltb_ge in E. unfold zlen in *. rewrite length_take, length_drop. lia.
Qed.

Section moved.
Context {crypto : Crypto} {crypto_laws : CryptoLaws}.
Variable zstd_decode : bytes → list bytes * bool.
Variables (codec : BlockCodec) (cipher : option FileCipher).
Local Abbreviation encrypted := (if cipher then true else false) (only parsing).
Local Abbreviation magic := (magic_for codec encrypted) (only parsing).
Local Abbreviation reads := (block_reads zstd_decode codec cipher) (only parsing).
Local Abbreviation iok := (image_ok zstd_decode codec cipher) (only parsing).

Lemma magic_length : zlen magic = 8.
Proof. by destruct codec, cipher. Qed.

Lemma image_grow file more dir blocks : iok file dir blocks → iok (file ++ more) dir blocks.
Proof.
  intros [[rest ->] Hd Hb]. split; [exists (rest ++ more); by rewrite app_assoc|done|]. intros b e c He Hc. by apply block_reads_grow, Hb.
Qed.

Lemma image_append file dir blocks e c : iok file dir blocks → reads file e (length blocks) (zlen (concat blocks)) c → iok file (dir ++ [e]) (blocks ++ [c]).
Proof.
  intros [Hm Hd Hb] Hr. split; [done|by rewrite !length_app, Hd|]. intros b e' c' He Hc. unfold first_of.
  apply lookup_app_Some in He as [He|[Hge He]].
  - apply lookup_lt_Some in He as Hlt. rewrite Hd in Hlt. rewrite lookup_app_l in Hc by done. rewrite take_app_le by lia. by apply Hb.
  - apply list_lookup_singleton_Some in He as [Hz <-]. assert (b = length blocks) as -> by lia.
    rewrite lookup_app_r, Nat.sub_diag in Hc by lia. injection Hc as <-. by rewrite take_app_length.
Qed.

(** The state of the loop: an image of the blocks so far. *)
Record concat_ok (st : ConcatState) (blocks : list (list bytes)) : Prop := {
  ck_image : iok (cs_out st) (cs_dir st) blocks;
  ck_blocks : cs_blocks st = length blocks;
  ck_records : cs_records st = zlen (concat blocks);
}.

(** The only failure on written files is of the cipher. *)
Definition sealing_failed {A} (r : result A) : Prop := r = Err (Bail "AEAD encryption failed") ∧ cipher ≠ None.
End moved.

(** A plain entry: the bytes are there already. *)
Lemma plain_moves `{Crypto} zstd_decode random_nonce codec f region pre local start e c st blocks tail :
  f = magic_for codec false ++ region → cs_out st = pre ++ region → 8 <= zlen pre →
  concat_ok zstd_decode codec None st blocks → block_reads zstd_decode codec None f e local start c →
  ∃ st', concat_entry random_nonce None (f ++ tail) (zlen pre) local start e st = Ok st' ∧ concat_ok zstd_decode codec None st' (blocks ++ [c]) ∧
    cs_out st' = cs_out st.
Proof.
  intros Hf Hout Hpre [Him Hbl Hrec] [Hne Hfit Hoff Hcomp Hraw Hrecs Hn Hsmall (stored & comp & Hread & Hst & Hun)].
  unfold concat_entry. rewrite (proj2 (Z.ltb_ge _ _)) by lia. cbn [mbind result_bind]. eexists. split; [done|]. split; [|done].
  split; cbn [cs_out cs_dir cs_blocks cs_records]; [|rewrite length_app, Hbl; cbn; lia|].
  2: { rewrite concat_app, zlen_app, Hrec, Hrecs. cbn. by rewrite app_nil_r. }
  apply image_append; [done|]. pose proof (magic_length codec None) as Hml. cbn in Hml.
  assert (zlen f = 8 + zlen region) as Hfl by (rewrite Hf, zlen_app, Hml; done).
  split; cbn [d_offset d_comp d_raw d_recs d_nonce]; try done; [rewrite Hout, zlen_app; lia|].
  exists stored, comp. split; [|done]. intros post. rewrite Hout, <- app_assoc, (read_behind pre (magic_for codec false)) by lia.
  rewrite Hml, app_assoc, <- Hf. replace (8 + (d_offset e - 8)) with (d_offset e) by lia. apply Hread.
Qed.

(** A sealed entry: opened at its own position, and sealed at the next one of the output. *)
Lemma sealed_moves `{CryptoLaws} zstd_decode random_nonce codec k f base local start e c st blocks tail :
  (∀ i, zlen (random_nonce i) = NONCE_LEN) →
  concat_ok zstd_decode codec (Some k) st blocks → block_reads zstd_decode codec (Some k) f e local start c →
  concat_entry random_nonce (Some k) (f ++ tail) base local start e st = Err (Bail "AEAD encryption failed") ∨
  ∃ st', concat_entry random_nonce (Some k) (f ++ tail) base local start e st = Ok st' ∧ concat_ok zstd_decode codec (Some k) st' (blocks ++ [c]).
Proof.
  intros Hnl [Him Hbl Hrec] [Hne Hfit Hoff Hcomp Hraw Hrecs Hn Hsmall (stored & comp & Hread & (n & En & Hs) & Hun)].
  unfold concat_entry, check_stored_len. rewrite (proj2 (Z.ltb_ge _ _)) by done. cbn [mbind result_bind].
  rewrite Hread, En. cbn [mbind result_bind nonce_bytes]. unfold file_open. unfold file_seal in Hs.
  destruct (aead_encrypt (file_key k) n _ comp) as [ct1|] eqn:E1; [|done]. injection Hs as ->. rewrite (aead_open _ _ _ _ _ E1). cbn [mbind result_bind].
  destruct (file_seal k _ (random_nonce (cs_blocks st)) comp) as [ct|err] eqn:E2; cbn [mbind result_bind].
  2: { left. unfold file_seal in E2. by destruct (aead_encrypt (file_key k) (random_nonce (cs_blocks st)) _ comp); simplify_eq. }
  right. eexists. split; [done|]. pose proof E2 as E2'. unfold file_seal in E2'. destruct (aead_encrypt _ (random_nonce _) _ comp) as [ct2|] eqn:E3; [|done].
  injection E2' as ->. pose proof (aead_length _ _ _ _ _ E1). pose proof (aead_length _ _ _ _ _ E3).
  pose proof (read_exact_length (f ++ []) (d_offset e) (d_comp e) stored ltac:(lia) (proj1 Hcomp) (Hread [])) as Hlen.
  assert (d_comp e = zlen ct) as Ec by lia.
  split; cbn [cs_out cs_dir cs_blocks cs_records]; [|rewrite length_app, Hbl; cbn; lia|].
  2: { rewrite concat_app, zlen_app, Hrec, Hrecs. cbn. by rewrite app_nil_r. }
  apply image_append; [by apply image_grow|]. destruct Him as [[rest Hm] _ _].
  split; cbn [d_offset d_comp d_raw d_recs d_nonce]; try done.
  - rewrite zlen_app, Hm, zlen_app, (magic_length codec (Some k)). pose proof (zlen_nonneg rest). pose proof (zlen_nonneg ct). lia.
  - exists ct, comp. split_and!; [|exists (random_nonce (cs_blocks st)); split; [done|by rewrite <- Hbl, <- Hrec]|done].
    intros post. rewrite <- app_assoc, Ec. apply read_at_app.
Qed.

(** * One input *)

Section input.
Context {crypto : Crypto} {crypto_laws : CryptoLaws}.
Variable zstd_decode : bytes → list bytes * bool.
Variable random_nonce : nat → bytes.
Variable codec : BlockCodec.
Hypothesis nonce_length : ∀ i, zlen (random_nonce i) = NONCE_LEN.

(** Either a state that continues the blocks, or the cipher failed. *)
Definition moved_to (cipher : option FileCipher) (r : result ConcatState) (blocks : list (list bytes)) : Prop :=
  match r with Ok st => concat_ok zstd_decode codec cipher st blocks | Err _ => sealing_failed cipher r end.

Lemma entry_loop_moves (cipher : option FileCipher) f region pre dir blocks0 tail local rest st blocks :
  let encrypted := if cipher then true else false in
  f = magic_for codec encrypted ++ region → (cipher = None → cs_out st = pre ++ region) → 8 <= zlen pre →
  image_ok zstd_decode codec cipher f dir blocks0 → Forall (dir_ok encrypted) dir → (local <= length dir)%nat →
  concat_ok zstd_decode codec cipher st (blocks ++ take local blocks0) →
  moved_to cipher (entry_loop random_nonce cipher (f ++ tail) (zlen pre) (length dir - local) local (first_of blocks0 local)
    (concat (map write_dir (drop local dir)) ++ rest) st) (blocks ++ blocks0).
Proof.
  intros encrypted Hf. revert st. remember (length dir - local)%nat as todo eqn:Et. revert local Et.
  induction todo as [|todo IH]; intros local Et st Hout Hpre Him Hd Hle Hst; cbn [entry_loop].
  - rewrite take_ge in Hst by (rewrite <- (im_dir _ _ _ _ _ _ Him); lia). exact Hst.
  - destruct (lookup_lt_is_Some_2 dir local) as [e He]; [lia|]. rewrite (drop_S _ _ _ He). cbn [map concat]. rewrite <- app_assoc.
    rewrite (codec_roundtrip (wf := dir_ok encrypted)) by exact (Forall_lookup_1 _ _ _ _ Hd He). cbn [mbind result_bind].
    destruct (image_entry _ _ _ _ _ _ Him local e He) as (c & Hc & Hbr).
    rewrite (br_recs _ _ _ _ _ _ _ _ Hbr), <- (first_of_S _ _ _ Hc).
    assert (∀ st', concat_ok zstd_decode codec cipher st' ((blocks ++ take local blocks0) ++ [c]) → (cipher = None → cs_out st' = pre ++ region) →
      moved_to cipher (entry_loop random_nonce cipher (f ++ tail) (zlen pre) todo (S local) (first_of blocks0 (S local))
        (concat (map write_dir (drop (S local) dir)) ++ rest) st') (blocks ++ blocks0)) as Hnext.
    { intros st' Hst' Hout'. apply IH; [lia|done|done|done|done|apply lookup_lt_Some in He; lia|]. by rewrite (take_S_r _ _ _ Hc), app_assoc. }
    destruct cipher as [k|].
    + destruct (sealed_moves zstd_decode random_nonce codec k f (zlen pre) local _ e c st _ tail nonce_length Hst Hbr) as [->|(st' & -> & Hst')];
        [by split|]. cbn [mbind result_bind]. by apply Hnext.
    + destruct (plain_moves zstd_decode random_nonce codec f region pre local _ e c st _ tail Hf (Hout eq_refl) Hpre Hst Hbr) as (st' & -> & Hst' & Ho).
      cbn [mbind result_bind]. apply Hnext; [done|]. intros _. rewrite Ho. by apply Hout.
Qed.

(** An image that was written is copied, or sealed again, whole. *)
Lemma input_moves (cipher : option FileCipher) f dir blocks0 st blocks : image_ok zstd_decode codec cipher f dir blocks0 →
  44 * zlen dir <= MAX_BLOCK_BYTES → fits (image_of f dir) → concat_ok zstd_decode codec cipher st blocks →
  moved_to cipher (concat_input random_nonce cipher (magic_for codec (if cipher then true else false)) (image_of f dir) st) (blocks ++ blocks0).
Proof.
  intros Him Hdir Hfits Hst. set (encrypted := if cipher then true else false). pose proof (image_dir_ok _ _ _ _ _ _ Him Hfits) as Hdok.
  pose proof (dir_bytes_length cipher dir Hdok) as Hdb. destruct (im_magic _ _ _ _ _ _ Him) as [region Hf]. fold encrypted in Hf.
  pose proof (magic_length codec cipher) as Hml. fold encrypted in Hml. change MAX_BLOCK_BYTES with (2 ^ 31) in Hdir. unfold fits in Hfits.
  set (db := concat (map write_dir dir)) in *. set (footer := le_bytes 8 (zlen f) ++ le_bytes 8 (zlen db) ++ le_bytes 8 (zlen dir)).
  assert (zlen footer = 24) as Hfl by (unfold footer; rewrite !zlen_app; unfold zlen; by rewrite !length_le_bytes).
  assert (image_of f dir = f ++ db ++ footer) as Ei by done. set (img := image_of f dir) in *. clearbody img.
  assert (zlen f = 8 + zlen region) as Hfl8 by (rewrite Hf, zlen_app; lia).
  pose proof (zlen_nonneg f). pose proof (zlen_nonneg db). pose proof (zlen_nonneg dir). pose proof (zlen_nonneg region).
  assert (zlen img = zlen f + zlen db + 24) as Hlen by (rewrite Ei, !zlen_app; lia).
  unfold concat_input, BLOCK_FOOTER_LEN.
  assert (read_exact_at img 0 8 = Ok (magic_for codec encrypted)) as ->.
  { pose proof (read_at_app [] (magic_for codec encrypted) (region ++ db ++ footer)) as E. rewrite Hml in E. rewrite <- E. f_equal.
    rewrite Ei, Hf. clearbody footer db. by rewrite <- app_assoc. }
  assert (read_exact_at img (zlen img - 24) 24 = Ok footer) as Hfoot.
  { pose proof (read_at_app (f ++ db) footer []) as E. rewrite <- E, Hfl. f_equal; [|rewrite zlen_app; lia].
    rewrite Ei, app_nil_r. clearbody footer db. by rewrite <- app_assoc. }
  cbn [mbind result_bind]. rewrite decide_False by (intros Hne; by apply Hne). rewrite (proj2 (Z.ltb_ge _ _)) by lia. rewrite Hfoot.
  cbn [mbind result_bind]. unfold footer at 1. do 2 (rewrite read_le_bytes by (cbn; lia); cbn [mbind result_bind]).
  rewrite <- (app_nil_r (le_bytes 8 (zlen dir))), read_le_bytes by (cbn; lia). cbn [mbind result_bind]. rewrite (proj2 (Z.ltb_ge _ _)) by lia.
  assert (∃ out, (match cipher with
      | Some _ => Ok (cs_out st)
      | None => if Z.min (zlen f - 8) (zlen img - 8) =? zlen f - 8 then Ok (cs_out st ++ take (Z.to_nat (zlen f - 8)) (drop 8 img))
                else Err (Bail "concat_block_files: short copy")
      end : result bytes) = Ok out ∧ (cipher = None → out = cs_out st ++ region) ∧ ∃ more, out = cs_out st ++ more) as (out & -> & Hout & more & Hmore).
  { destruct cipher; [exists (cs_out st); split_and!; [done|done|exists []; by rewrite app_nil_r]|].
    rewrite Z.min_l, Z.eqb_refl by lia. exists (cs_out st ++ region). split_and!; [|done|by exists region]. do 2 f_equal.
    rewrite Ei, Hf. unfold zlen in Hml. assert (length (magic_for codec encrypted) = 8%nat) as Hl by lia.
    rewrite <- app_assoc, <- Hl at 1. rewrite drop_app_length. replace (Z.to_nat _) with (length region).
    - by rewrite take_app_length.
    - rewrite zlen_app. unfold zlen. lia. }
  cbn [mbind result_bind].
  assert (read_exact_at img (zlen f) (zlen db) = Ok db) as -> by (rewrite Ei; apply read_at_app). cbn [mbind result_bind].
  destruct Hst as [Hi Hb Hr]. destruct (im_magic _ _ _ _ _ _ Hi) as [rest0 Ho0].
  pose proof (entry_loop_moves cipher f region (cs_out st) dir blocks0 (db ++ footer) 0 [] (mkConcat out (cs_dir st) (cs_blocks st) (cs_records st)) blocks) as Hloop.
  change (take 0 blocks0) with (@nil (list bytes)) in Hloop. rewrite Nat.sub_0_r, !app_nil_r, <- Ei in Hloop.
  replace (Z.to_nat (zlen dir)) with (length dir) by (unfold zlen; lia). apply Hloop; try done.
  - rewrite Ho0, zlen_app, (magic_length codec cipher). pose proof (zlen_nonneg rest0). lia.
  - lia.
  - split; cbn [cs_out cs_dir cs_blocks cs_records]; [|done|done]. rewrite Hmore. by apply image_grow.
Qed.
End input.

(** * The whole concatenation *)

(** Files written with one codec and one key, one per list of records. *)
Section files.
Context {crypto : Crypto} {crypto_laws : CryptoLaws}.
Variable zstd_encode_all : bytes → Z → result bytes.
Variable zstd_decode : bytes → list bytes * bool.
Variables (target_block_bytes : Z) (codec : BlockCodec) (zstd_level : Z) (cipher : option FileCipher).
Hypothesis lossless : zstd_lossless zstd_encode_all zstd_decode.
Hypothesis bounded : ∀ raw level comp, zstd_encode_all raw level = Ok comp → zlen comp <= zlen raw + zlen raw / 256 + 64.
Hypothesis target_small : 5 * target target_block_bytes + 20 <= 2 ^ 30.

(** A file of [records] in [n] blocks. *)
Definition file_written (records : list bytes) (part : bytes * Z) : Prop :=
  Forall (record_fits target_block_bytes) records ∧ fits part.1 ∧
  ∃ nonces locs, (∀ i, zlen (nonces i) = NONCE_LEN) ∧
    write_file zstd_encode_all nonces target_block_bytes codec zstd_level cipher records = Ok (locs, part).

Definition block_total (parts : list (bytes * Z)) : Z := foldr (λ p acc, p.2 + acc) 0 parts.

Lemma part_image records part : file_written records part → ∃ file dir blocks,
  part = (image_of file dir, zlen dir) ∧ image_ok zstd_decode codec cipher file dir blocks ∧ concat blocks = records.
Proof.
  intros (Hr & Hf & nonces & locs & Hn & Hw). destruct part as [img n].
  destruct (written_image zstd_encode_all zstd_decode nonces target_block_bytes codec zstd_level cipher lossless bounded Hn target_small records locs img n Hr Hw)
    as (file & dir & blocks & -> & -> & Hok & Hc & _). by exists file, dir, blocks.
Qed.

Variable random_nonce : nat → bytes.
Hypothesis nonce_length : ∀ i, zlen (random_nonce i) = NONCE_LEN.

Lemma parts_nonneg recss parts : Forall2 file_written recss parts → 0 <= block_total parts.
Proof.
  induction 1 as [|rs p recss parts Hp _ IH]; [done|]. destruct (part_image _ _ Hp) as (file & dir & blocks & -> & _).
  change (block_total ((image_of file dir, zlen dir) :: parts)) with (zlen dir + block_total parts). pose proof (zlen_nonneg dir). lia.
Qed.

Lemma inputs_move recss parts st blocks : Forall2 file_written recss parts → 44 * block_total parts <= MAX_BLOCK_BYTES →
  concat_ok zstd_decode codec cipher st blocks →
  match concat_inputs random_nonce cipher (magic_for codec (if cipher then true else false)) (map fst parts) st with
  | Ok st' => ∃ more, concat_ok zstd_decode codec cipher st' (blocks ++ more) ∧ concat more = concat recss ∧ zlen more = block_total parts
  | Err e => e = Bail "AEAD encryption failed" ∧ cipher ≠ None
  end.
Proof.
  intros Hp. revert st blocks. induction Hp as [|rs p recss parts Hrs Hps IH]; intros st blocks Hsz Hst; cbn [map concat_inputs].
  - exists []. by rewrite app_nil_r.
  - pose proof (parts_nonneg _ _ Hps) as Hpos. destruct (part_image _ _ Hrs) as (file & dir & bs & -> & Hok & Hc). destruct Hrs as (_ & Hfits & _).
    change (block_total ((image_of file dir, zlen dir) :: parts)) with (zlen dir + block_total parts) in *. cbn [fst] in *. pose proof (zlen_nonneg dir).
    pose proof (input_moves zstd_decode random_nonce codec nonce_length cipher file dir bs st blocks Hok ltac:(lia) Hfits Hst) as Hm.
    destruct (concat_input _ _ _ _ st) as [st1|e]; cbn [mbind result_bind moved_to] in *.
    + specialize (IH st1 (blocks ++ bs) ltac:(lia) Hm). destruct (concat_inputs _ _ _ _ st1); [|done].
      destruct IH as (more & Hst2 & Hcm & Hlm). exists (bs ++ more). rewrite app_assoc. split_and!; [done|by rewrite concat_app, Hc, Hcm|].
      rewrite zlen_app, Hlm. unfold zlen at 1. rewrite <- (im_dir _ _ _ _ _ _ Hok). done.
    + destruct Hm as [[= ->] Hne]. done.
Qed.

Lemma concat_reads recss parts : recss ≠ [] → Forall2 file_written recss parts → 44 * block_total parts <= MAX_BLOCK_BYTES →
  match concat_block_files random_nonce cipher (map fst parts) with
  | Err e => e = Bail "AEAD encryption failed" ∧ cipher ≠ None
  | Ok (img, total) =>
      total = zlen (concat recss) ∧
      (fits img → ∃ r, open_blocks img cipher = Ok r ∧ total_records r = total ∧
         ∀ i rec, concat recss !! i = Some rec → read_record_global zstd_decode r (Z.of_nat i) = Ok rec)
  end.
Proof.
  intros Hne Hp Hsz. pose proof (inputs_move recss parts (mkConcat (magic_for codec (if cipher then true else false)) [] 0 0) [] Hp Hsz) as Hm.
  destruct Hp as [|rs p recss parts Hrs Hps]; [done|]. cbn [map concat_block_files] in *.
  assert (read_exact_at p.1 0 8 = Ok (magic_for codec (if cipher then true else false))) as ->.
  { destruct (part_image _ _ Hrs) as (file & dir & bs & -> & Hok & _). destruct (im_magic _ _ _ _ _ _ Hok) as [rest ->]. cbn [fst]. unfold image_of.
    rewrite <- app_assoc. pose proof (read_at_app [] (magic_for codec (if cipher then true else false))) as E. rewrite (magic_length codec cipher) in E. apply E. }
  cbn [mbind result_bind]. rewrite magic_kind_for, Bool.eqb_reflx. cbn [negb].
  destruct (concat_inputs _ _ _ _ _) as [st|e]; cbn [mbind result_bind].
  2: { apply Hm. split; [split; [exists []; by rewrite app_nil_r|done|done]|done|done]. }
  destruct Hm as (more & [Hok Hb Hr] & Hc & Hlen); [split; [split; [exists []; by rewrite app_nil_r|done|done]|done|done]|]. cbn [app] in *.
  split; [by rewrite Hr, Hc|]. intros Hfits. rewrite Hb, <- (im_dir _ _ _ _ _ _ Hok) in *.
  destruct (image_opens zstd_decode codec cipher (cs_out st) (cs_dir st) more Hok) as (r & Ho & _ & Hf); [|exact Hfits|].
  { unfold zlen at 1. rewrite (im_dir _ _ _ _ _ _ Hok). fold (zlen more). lia. }
  exists r. split_and!; [exact Ho|by rewrite (total_of _ r more Hf)|]. intros i rec Hi. apply (read_global _ r more Hf). by rewrite Hc.
Qed.
(** C19: Concatenating block files concatenates their records.  Files written with one codec and
    one key, or none, concatenate to a file that opens under the same key, has the sum of their
    records, and reads them back in the order of the files; sealed blocks among them, which are
    bound to their positions, open at their new ones.  The concatenation of plain files never
    fails, and of sealed ones only when the cipher refuses to seal. *)
Theorem concat_exact recss parts : recss ≠ [] → Forall2 file_written recss parts → 44 * block_total parts <= MAX_BLOCK_BYTES →
  match concat_block_files random_nonce cipher (map fst parts) with
  | Err e => e = Bail "AEAD encryption failed" ∧ cipher ≠ None
  | Ok (img, total) =>
      total = zlen (concat recss) ∧
      (fits img → ∃ r, open_blocks img cipher = Ok r ∧ total_records r = total ∧
         ∀ i rec, concat recss !! i = Some rec → read_record_global zstd_decode r (Z.of_nat i) = Ok rec)
  end.
Proof. exact (concat_reads recss parts). Qed.
End files.

(** * Witness *)

Section witness.
#[local] Existing Instance toy_crypto.
#[local] Existing Instance toy_crypto_laws.

Definition example_concat : result (bytes * Z) :=
  concat_block_files example_block_nonces example_block_key (map fst [(example_block_img, 3); (example_block_img, 3)]).
Definition example_concat_img : bytes := match example_concat with Ok (img, _) => img | Err _ => [] end.

Lemma example_concat_runs :
  concat_block_files example_block_nonces example_block_key (map fst [(example_block_img, 3); (example_block_img, 3)]) = Ok (example_concat_img, 8).
Proof. vm_compute. reflexivity. Qed.

Lemma example_concat_fits : fits example_concat_img.
Proof. unfold fits. apply Z.ltb_lt. vm_compute. reflexivity. Qed.

Lemma example_part : file_written stored_encode 3 Zstd 3 example_block_key example_records (example_block_img, 3).
Proof.
  split; [exact example_records_fit|]. split; [exact example_block_fits|].
  exists example_block_nonces, example_locs. exact (conj example_block_nonce_length example_file_written).
Qed.

Lemma concat_exact_witness : ∃ r, open_blocks example_concat_img example_block_key = Ok r ∧ total_records r = 8 ∧
  read_record_global stored_decode r 6 = Ok [4; 5; 6; 7].
Proof.
  pose proof (concat_exact stored_encode stored_decode 3 Zstd 3 example_block_key stored_lossless stored_bounded
    ltac:(apply Z.leb_le; reflexivity) example_block_nonces example_block_nonce_length [example_records; example_records]
    [(example_block_img, 3); (example_block_img, 3)] ltac:(done)
    ltac:(repeat (apply Forall2_cons; split; [exact example_part|]); apply Forall2_nil_2)
    ltac:(apply Z.leb_le; reflexivity)) as H.
  rewrite example_concat_runs in H.
  destruct H as [_ H]. destruct (H example_concat_fits) as (r & Ho & Ht & Hr). exists r. split; [exact Ho|]. split; [exact Ht|].
  exact (Hr 6%nat [4; 5; 6; 7] eq_refl).
Defined.
End witness.
