(* ===== verification/Topology.v ===== *)
(** Adjacency records, of [graph-format/src/topology.rs].

    A record holds the edges of a node: a directory of the runs of equal relationship types, and
    the bytes of the runs.  Outgoing records leave the ids of the edges out where they count up
    from a base.  A typed read skips the runs of other types by their lengths. *)

From S2P Require Import Prelude Wire.

Record Adj := mkAdj { adj_reltype : Z; adj_neighbour : Z; adj_edge : Z }.

#[export] Instance Adj_eq_dec : EqDecision Adj.
Proof. solve_decision. Defined.

Definition FWD_CONTIGUOUS : Z := 1.
Definition FWD_EXPLICIT : Z := 0.

(** An entry of the directory: the type of a run, its edges, and its bytes. *)
Definition RunEntry : Type := Z * Z * Z.

(** The addition of [u64]s, which panics where overflow is checked. *)
Definition add_u64 (a b : Z) : result Z :=
  if a + b <? 2 ^ 64 then Ok (a + b) else Err (Panic "attempt to add with overflow").

(** * Encoding *)

Definition write_edge (per_edge_id : bool) (a : Adj) : bytes :=
  write_uvarint (adj_neighbour a) ++ (if per_edge_id then write_uvarint (adj_edge a) else []).

(** The inner loop: the edges of type [rt] at the front of the list are written. *)
Fixpoint run_loop (rt : Z) (per_edge_id : bool) (list : list Adj) (n : Z) (body : bytes) : Z * bytes * (Datatypes.list Adj) :=
  match list with
  | a :: rest => if adj_reltype a =? rt then run_loop rt per_edge_id rest (n + 1) (body ++ write_edge per_edge_id a) else (n, body, list)
  | [] => (n, body, [])
  end.

Fixpoint runs_loop (fuel : nat) (per_edge_id : bool) (list : list Adj) (dir : Datatypes.list RunEntry) (body : bytes) : Datatypes.list RunEntry * bytes :=
  match fuel, list with
  | S fuel, a :: _ =>
      let '(n, body', rest) := run_loop (adj_reltype a) per_edge_id list 0 body in
      runs_loop fuel per_edge_id rest (dir ++ [(adj_reltype a, n, zlen body' - zlen body)]) body'
  | _, _ => (dir, body)
  end.

Definition encode_runs (list : list Adj) (per_edge_id : bool) : Datatypes.list RunEntry * bytes :=
  runs_loop (length list) per_edge_id list [] [].

Definition write_run_entry (e : RunEntry) : bytes :=
  let '(rt, rc, nb) := e in write_uvarint rt ++ write_uvarint rc ++ write_uvarint nb.

Definition write_directory (dir : list RunEntry) : bytes :=
  write_uvarint (zlen dir) ++ concat (map write_run_entry dir).

(** [all] over the ids: it stops at the first that is not [base + k]. *)
Fixpoint contiguous_from (base k : Z) (list : list Adj) : result bool :=
  match list with
  | [] => Ok true
  | a :: list => id ← add_u64 base k; if adj_edge a =? id then contiguous_from base (k + 1) list else Ok false
  end.

Definition encode_adj_forward (list : list Adj) : result bytes :=
  let rec := write_uvarint (zlen list) in
  match list with
  | [] => Ok rec
  | first :: _ =>
      let base := adj_edge first in
      contiguous ← contiguous_from base 0 list;
      if contiguous : bool then
        let '(dir, body) := encode_runs list false in
        Ok (rec ++ [FWD_CONTIGUOUS] ++ write_uvarint base ++ write_directory dir ++ body)
      else
        let '(dir, body) := encode_runs list true in
        Ok (rec ++ [FWD_EXPLICIT] ++ write_directory dir ++ body)
  end.

Definition encode_adj_reverse (list : list Adj) : bytes :=
  let rec := write_uvarint (zlen list) in
  match list with
  | [] => rec
  | _ =>
      let '(dir, body) := encode_runs list true in
      rec ++ write_directory dir ++ body
  end.

(** * Decoding *)

Definition adj_count (rec : bytes) : result Z := '(count, _) ← read_uvarint rec; Ok count.

Record AdjHeader := mkHeader { derive_base : bool; h_base : Z; h_dir : list RunEntry; h_body : bytes }.

Definition read_run_entry : reader RunEntry := λ r,
  '(rt, r) ← read_uvarint r;
  '(rc, r) ← read_uvarint r;
  '(nb, r) ← read_uvarint r;
  Ok (as_u32 rt, rc, nb, r).

Definition parse_adj_header (rec : bytes) (forward : bool) : result (option AdjHeader) :=
  '(count, r) ← read_uvarint rec;
  if count =? 0 then Ok None else
  '(derive, base, r) ←
    (if forward then
       match r with
       | [] => Err (Bail "truncated forward adjacency record (missing codec flag)")
       | flag :: r =>
           if flag =? FWD_CONTIGUOUS then '(base, r) ← read_uvarint r; Ok (true, base, r)
           else if flag =? FWD_EXPLICIT then Ok (false, 0, r)
           else Err (Bail "unknown forward adjacency flag")
       end
     else Ok (false, 0, r) : result (bool * Z * bytes));
  '(num_runs, r) ← read_uvarint r;
  '(dir, r) ← read_many read_run_entry num_runs r;
  Ok (Some (mkHeader derive base dir r)).

(** The visitor [f] changes a state, and may fail. *)
Section visit.
Context {St : Type}.
Variable f : Adj → St → result St.

(** One edge of a run of type [rt], the [k]th of the record. *)
Definition visit_edge (derive : bool) (base rt k : Z) (body : bytes) (s : St) : result (bytes * St) :=
  '(neighbour, body) ← read_uvarint body;
  '(edge, body) ← (if derive then id ← add_u64 base k; Ok (id, body) else read_uvarint body : result (Z * bytes));
  s ← f (mkAdj rt neighbour edge) s;
  Ok (body, s).

(** The [rc] edges of a run; every one takes a byte of the body. *)
Fixpoint visit_run_fuel (fuel : nat) (derive : bool) (base rt rc k : Z) (body : bytes) (s : St) : result (Z * bytes * St) :=
  if rc <=? 0 then Ok (k, body, s) else
  match fuel with
  | O => Err OutOfFuel
  | S fuel =>
      '(body, s) ← visit_edge derive base rt k body s;
      k ← add_u64 k 1;
      visit_run_fuel fuel derive base rt (rc - 1) k body s
  end.

Definition visit_run (derive : bool) (base rt rc k : Z) (body : bytes) (s : St) : result (Z * bytes * St) :=
  visit_run_fuel (S (length body)) derive base rt rc k body s.

Fixpoint visit_runs (derive : bool) (base : Z) (dir : list RunEntry) (k : Z) (body : bytes) (s : St) : result St :=
  match dir with
  | [] => Ok s
  | (rt, rc, _) :: dir =>
      '(k, body, s) ← visit_run derive base rt rc k body s;
      visit_runs derive base dir k body s
  end.

Definition decode_adj_into (rec : bytes) (forward : bool) (s : St) : result St :=
  h ← parse_adj_header rec forward;
  match h with
  | None => Ok s
  | Some h => visit_runs (derive_base h) (h_base h) (h_dir h) 0 (h_body h) s
  end.

Variable want : Z → bool.

Fixpoint visit_wanted (derive : bool) (base : Z) (dir : list RunEntry) (k : Z) (body : bytes) (s : St) : result St :=
  match dir with
  | [] => Ok s
  | (rt, rc, nb) :: dir =>
      if want rt then
        '(k, body, s) ← visit_run derive base rt rc k body s;
        visit_wanted derive base dir k body s
      else if zlen body <? nb then Err (Bail "adjacency run byte length exceeds remaining")
      else
        k ← add_u64 k rc;
        visit_wanted derive base dir k (drop (Z.to_nat nb) body) s
  end.

Definition decode_adj_into_filtered (rec : bytes) (forward : bool) (s : St) : result St :=
  h ← parse_adj_header rec forward;
  match h with
  | None => Ok s
  | Some h => visit_wanted (derive_base h) (h_base h) (h_dir h) 0 (h_body h) s
  end.

(** The edges, visited in order. *)
Fixpoint visit_all (list : list Adj) (s : St) : result St :=
  match list with [] => Ok s | a :: list => s ← f a s; visit_all list s end.
End visit.

Definition push_adj (a : Adj) (out : list Adj) : result (list Adj) := Ok (out ++ [a]).

(** The reservation by [capacity_for] has no effect on the result. *)
Definition decode_adj (rec : bytes) (forward : bool) : result (list Adj) :=
  '(_, _) ← read_uvarint rec;
  decode_adj_into push_adj rec forward [].

(** * Runs *)

(** Edges whose numbers are those of their types, with ids the machine holds. *)
Definition adj_ok (a : Adj) : Prop := is_u32 (adj_reltype a) ∧ is_u64 (adj_neighbour a) ∧ is_u64 (adj_edge a).

Definition run_bytes (per_edge_id : bool) (run : list Adj) : bytes := concat (map (write_edge per_edge_id) run).
Definition entry_of (per_edge_id : bool) (r : Z * list Adj) : RunEntry := (r.1, zlen r.2, zlen (run_bytes per_edge_id r.2)).
Definition run_typed (r : Z * list Adj) : Prop := Forall (λ a, adj_reltype a = r.1) r.2.

Lemma run_loop_spec rt per l : ∃ run rest, l = run ++ rest ∧ run_typed (rt, run) ∧
  ∀ n body, run_loop rt per l n body = (n + zlen run, body ++ run_bytes per run, rest).
Proof.
  induction l as [|a l (run & rest & -> & Hrun & Hl)].
  - exists [], []. split_and!; [done|by apply Forall_nil|]. intros n body. by rewrite Z.add_0_r, app_nil_r.
  - destruct (Z.eqb_spec (adj_reltype a) rt) as [E|E].
    + exists (a :: run), rest. split_and!; [done|by apply Forall_cons|]. intros n body. cbn [run_loop]. rewrite E, Z.eqb_refl, Hl.
      unfold run_bytes. cbn [map concat]. rewrite zlen_cons, <- app_assoc. do 2 f_equal. lia.
    + exists [], (a :: run ++ rest). split_and!; [done|by apply Forall_nil|]. intros n body. cbn [run_loop].
      by rewrite (proj2 (Z.eqb_neq _ _) E), Z.add_0_r, app_nil_r.
Qed.

Lemma runs_loop_spec per fuel l : (length l <= fuel)%nat → ∃ runs, l = concat (map snd runs) ∧ Forall run_typed runs ∧ Forall (λ r, r.2 ≠ []) runs ∧
  ∀ dir body, runs_loop fuel per l dir body = (dir ++ map (entry_of per) runs, body ++ run_bytes per l).
Proof.
  revert l. induction fuel as [|fuel IH]; intros [|a l] Hl; cbn [length] in Hl; [|lia| |].
  1-2: exists []; split_and!; [done|by apply Forall_nil|by apply Forall_nil|]; intros; by rewrite !app_nil_r.
  destruct (run_loop_spec (adj_reltype a) per (a :: l)) as (run & rest & E & Hrun & Hloop).
  assert (run ≠ []) as Hne.
  { intros ->. specialize (Hloop 0 []). cbn [run_loop] in Hloop. rewrite Z.eqb_refl in Hloop.
    destruct (run_loop_spec (adj_reltype a) per l) as (run' & rest' & -> & _ & Hloop'). rewrite Hloop' in Hloop.
    injection Hloop as Hn _ _. change (zlen []) with 0 in Hn. pose proof (zlen_nonneg run'). lia. }
  assert ((length rest <= fuel)%nat) as Hr.
  { destruct run as [|b run]; [done|]. apply (f_equal length) in E. rewrite length_app in E. cbn [length] in E. lia. }
  destruct (IH rest Hr) as (runs & -> & Hruns & Hnes & Hrest). exists ((adj_reltype a, run) :: runs).
  split_and!; [exact E|by apply Forall_cons|by apply Forall_cons|].
  intros dir body. cbn [runs_loop]. rewrite Hloop. rewrite Hrest, E. unfold run_bytes at 3 4. rewrite map_app, concat_app, <- !app_assoc.
  rewrite zlen_app. replace (zlen body + zlen (run_bytes per run) - zlen body) with (zlen (run_bytes per run)) by lia. done.
Qed.

Lemma encode_runs_spec l per : ∃ runs, l = concat (map snd runs) ∧ Forall run_typed runs ∧ Forall (λ r, r.2 ≠ []) runs ∧
  encode_runs l per = (map (entry_of per) runs, run_bytes per l).
Proof. destruct (runs_loop_spec per (length l) l (le_n _)) as (runs & ? & ? & ? & H). exists runs. split_and!; [done..|apply H]. Qed.

(** * Reading runs *)

(** The ids count up from [from]. *)
Fixpoint counts_up (from : Z) (l : list Adj) : Prop :=
  match l with [] => True | a :: l => adj_edge a = from ∧ counts_up (from + 1) l end.

Lemma counts_up_app from l1 l2 : counts_up from (l1 ++ l2) ↔ counts_up from l1 ∧ counts_up (from + zlen l1) l2.
Proof.
  revert from. induction l1 as [|a l1 IH]; intros from; cbn [app counts_up].
  - rewrite Z.add_0_r. tauto.
  - rewrite IH, zlen_cons. replace (from + 1 + zlen l1) with (from + (zlen l1 + 1)) by lia. tauto.
Qed.

Lemma contiguous_spec base k l : Forall adj_ok l → 0 <= base → 0 <= k → base + k + zlen l <= 2 ^ 64 →
  ∃ b, contiguous_from base k l = Ok b ∧ (b = true ↔ counts_up (base + k) l).
Proof.
  intros Hl Hb. revert k. induction Hl as [|a l Ha Hl IH]; intros k Hk Hs; cbn [contiguous_from counts_up]; [by exists true|].
  rewrite zlen_cons in Hs. pose proof (zlen_nonneg l). unfold add_u64. rewrite (proj2 (Z.ltb_lt _ _)) by lia. cbn [mbind result_bind].
  destruct (Z.eqb_spec (adj_edge a) (base + k)) as [E|E].
  - destruct (IH (k + 1)) as (b & -> & Hiff); [lia|lia|]. exists b. rewrite Hiff, <- Z.add_assoc. tauto.
  - exists false. split; [done|]. split; [done|tauto].
Qed.

Lemma run_bytes_app per l1 l2 : run_bytes per (l1 ++ l2) = run_bytes per l1 ++ run_bytes per l2.
Proof. unfold run_bytes. by rewrite map_app, concat_app. Qed.

Lemma run_bytes_length per l : Forall adj_ok l → (length l <= length (run_bytes per l))%nat.
Proof.
  induction 1 as [|a l [_ [Ha _]] Hl IH]; [done|]. change (run_bytes per (a :: l)) with (write_edge per a ++ run_bytes per l).
  unfold write_edge. rewrite !length_app. cbn [length]. pose proof (codec_nonempty (wf := is_u64) (rd := read_uvarint) _ Ha). lia.
Qed.

(** A run is wanted whole or not at all. *)
Lemma filter_run (want : Z → bool) r : run_typed r → filter (λ a, want (adj_reltype a)) r.2 = if want r.1 then r.2 else [].
Proof.
  unfold run_typed. induction 1 as [|a l Ha Hl IH]; [by destruct (want r.1)|]. destruct (want r.1) eqn:E.
  - rewrite filter_cons_True by (by rewrite Ha, E). by rewrite IH.
  - rewrite filter_cons_False by (rewrite Ha, E; by intros []). exact IH.
Qed.

Section visiting.
Context {St : Type}.
Variable f : Adj → St → result St.

(** An edge is read as it was written. *)
Lemma visit_edge_written derive base k a rest s : adj_ok a → (derive = true → adj_edge a = base + k) →
  visit_edge f derive base (adj_reltype a) k (write_edge (negb derive) a ++ rest) s = (s ← f a s; Ok (rest, s)).
Proof.
  intros (Hr & Hn & He) Hid. unfold visit_edge, write_edge. rewrite <- app_assoc, codec_roundtrip by done. cbn [mbind result_bind].
  destruct a as [rt nb id]; cbn [adj_reltype adj_neighbour adj_edge] in *. destruct derive; cbn [negb app].
  - unfold add_u64. rewrite <- Hid by done. by rewrite (proj2 (Z.ltb_lt _ _)) by apply He.
  - by rewrite codec_roundtrip.
Qed.

Lemma visit_run_written derive base rt run fuel k rest s : (length run < fuel)%nat → Forall adj_ok run → run_typed (rt, run) →
  (derive = true → counts_up (base + k) run) → 0 <= k → k + zlen run < 2 ^ 64 →
  visit_run_fuel f fuel derive base rt (zlen run) k (run_bytes (negb derive) run ++ rest) s = (s ← visit_all f run s; Ok (k + zlen run, rest, s)).
Proof.
  revert fuel k s. induction run as [|a run IH]; intros [|fuel] k s Hf Hok Hrt Hid Hk Hs; [cbn [length] in Hf; lia| |cbn [length] in Hf; lia|].
  - cbn. by rewrite Z.add_0_r.
  - cbn [length] in Hf. rewrite zlen_cons in *. pose proof (zlen_nonneg run). inversion_clear Hok as [|? ? Ha Hok']. inversion_clear Hrt as [|? ? Hat Hrt'].
    cbn [visit_run_fuel visit_all]. rewrite (proj2 (Z.leb_gt _ _)) by lia. unfold run_bytes. cbn [map concat]. rewrite <- app_assoc.
    cbn [fst] in Hat. rewrite <- Hat, visit_edge_written by (done || (intros ->; by apply Hid)). destruct (f a s) as [s'|e]; [|done]. cbn [mbind result_bind].
    unfold add_u64 at 1. rewrite (proj2 (Z.ltb_lt _ _)) by lia. cbn [mbind result_bind]. replace (zlen run + 1 - 1) with (zlen run) by lia. rewrite Hat.
    fold (run_bytes (negb derive) run). rewrite IH; [|lia|done|done| |lia|lia].
    + destruct (visit_all f run s'); [|done]. cbn [mbind result_bind]. do 3 f_equal. lia.
    + intros ->. rewrite Z.add_assoc. by apply Hid.
Qed.

Lemma visit_all_app l1 l2 s : visit_all f (l1 ++ l2) s = (s ← visit_all f l1 s; visit_all f l2 s).
Proof. revert s. induction l1 as [|a l1 IH]; intros s; cbn [app visit_all]; [done|]. destruct (f a s); [|done]. apply IH. Qed.

(** A whole record, of which the runs [want] refuses are skipped. *)
Lemma visit_wanted_written want derive base runs k s : Forall run_typed runs → Forall adj_ok (concat (map snd runs)) →
  (derive = true → counts_up (base + k) (concat (map snd runs))) → 0 <= k → k + zlen (concat (map snd runs)) < 2 ^ 64 →
  visit_wanted f want derive base (map (entry_of (negb derive)) runs) k (run_bytes (negb derive) (concat (map snd runs))) s =
  visit_all f (filter (λ a, want (adj_reltype a)) (concat (map snd runs))) s.
Proof.
  intros Hr. revert k s. induction Hr as [|[rt run] runs Hrun Hr IH]; intros k s Hok Hid Hk Hs; [done|].
  cbn [map concat snd] in *. rewrite zlen_app in Hs. pose proof (zlen_nonneg run). pose proof (zlen_nonneg (concat (map snd runs))).
  apply Forall_app in Hok as [Hok1 Hok2]. rewrite filter_app, visit_all_app, run_bytes_app. cbn [visit_wanted entry_of fst snd].
  assert (∀ k', k' = k + zlen run → derive = true → counts_up (base + k') (concat (map snd runs))) as Hrest.
  { intros k' -> Hd. rewrite Z.add_assoc. specialize (Hid Hd). apply counts_up_app in Hid. apply Hid. }
  unfold entry_of at 1. cbn [fst snd]. pose proof (filter_run want _ Hrun) as Ef. cbn [fst snd] in Ef. rewrite Ef. destruct (want rt) eqn:Ew.
  - unfold visit_run. rewrite visit_run_written; [|rewrite length_app; pose proof (run_bytes_length (negb derive) run Hok1); lia|done|done| |done|lia].
    + destruct (visit_all f run s) as [s'|e]; [|done]. cbn [mbind result_bind]. rewrite IH; [done|done|by apply Hrest|lia|lia].
    + intros Hd. specialize (Hid Hd). apply counts_up_app in Hid. apply Hid.
  - rewrite zlen_app, (proj2 (Z.ltb_ge _ _)) by (pose proof (zlen_nonneg (run_bytes (negb derive) (concat (map snd runs)))); lia).
    unfold add_u64 at 1. rewrite (proj2 (Z.ltb_lt _ _)) by lia. cbn [mbind result_bind visit_all]. unfold zlen at 2. rewrite Nat2Z.id, drop_app_length.
    rewrite IH; [done|done|by apply Hrest|lia|lia].
Qed.

(** A decoding that wants every type is the plain one. *)
Lemma visit_runs_wanted derive base dir k body s : visit_runs f derive base dir k body s = visit_wanted f (λ _, true) derive base dir k body s.
Proof.
  revert k body s. induction dir as [|[[rt rc] nb] dir IH]; intros k body s; cbn [visit_runs visit_wanted]; [done|].
  destruct (visit_run _ _ _ _ _ _ _ _) as [[[k' body'] s']|e]; [|done]. apply IH.
Qed.
End visiting.

(** * Records *)

Definition entry_ok (e : RunEntry) : Prop := let '(rt, rc, nb) := e in is_u32 rt ∧ is_u64 rc ∧ is_u64 nb.

#[export] Instance run_entry_codec : Codec entry_ok write_run_entry read_run_entry.
Proof.
  split.
  - intros r [[rt rc] nb] r' H. unfold read_run_entry in H. split_bind. simplify_eq. consume.
  - intros [[rt rc] nb] rest (Hr & Hc & Hn). unfold read_run_entry, write_run_entry. rewrite <- !app_assoc.
    rewrite codec_roundtrip by (unfold is_u32, is_u64 in *; lia). cbn [mbind result_bind]. rewrite codec_roundtrip by done. cbn [mbind result_bind].
    rewrite codec_roundtrip by done. cbn [mbind result_bind]. unfold as_u32. by rewrite Z.mod_small.
Qed.

(** The edges of a node: fewer than [2 ^ 56], with ids below [2 ^ 63]. *)
Definition adjacency_ok (l : list Adj) : Prop := Forall (λ a, adj_ok a ∧ adj_edge a < 2 ^ 63) l ∧ zlen l < 2 ^ 56.

Lemma uvarint_short v : zlen (write_uvarint v) <= 10.
Proof.
  unfold write_uvarint, zlen. enough ((length (write_uvarint_loop 10 v) <= 10)%nat) by lia. generalize 10%nat. intros fuel. revert v.
  induction fuel as [|fuel IH]; intros v; [done|]. rewrite write_uvarint_loop_S. destruct (_ =? _); cbn [length]; [lia|]. specialize (IH (Z.shiftr v 7)). lia.
Qed.

Lemma run_bytes_short per l : zlen (run_bytes per l) <= 20 * zlen l.
Proof.
  induction l as [|a l IH]; [done|]. change (run_bytes per (a :: l)) with (write_edge per a ++ run_bytes per l). unfold write_edge.
  rewrite zlen_cons, !zlen_app. pose proof (uvarint_short (adj_neighbour a)). pose proof (uvarint_short (adj_edge a)).
  destruct per; [|change (zlen (@nil Z)) with 0]; lia.
Qed.

Lemma entries_ok per runs : Forall run_typed runs → Forall adj_ok (concat (map snd runs)) → zlen (concat (map snd runs)) < 2 ^ 56 →
  Forall (λ r, r.2 ≠ []) runs → Forall entry_ok (map (entry_of per) runs) ∧ zlen runs <= zlen (concat (map snd runs)).
Proof.
  induction 1 as [|[rt run] runs Hrun Hr IH]; intros Hok Hlen Hne; [by split; [apply Forall_nil|]|]. cbn [map concat snd] in *.
  apply Forall_app in Hok as [Ho1 Ho2]. rewrite zlen_app in *. rewrite zlen_cons. inversion_clear Hne as [|? ? Hn Hne']. cbn [snd] in Hn.
  pose proof (zlen_nonneg run). pose proof (zlen_nonneg (concat (map snd runs))). destruct (IH Ho2 ltac:(lia) Hne') as [He Hl].
  destruct run as [|a run]; [done|]. rewrite (zlen_cons a run) in *. pose proof (zlen_nonneg run). split; [|lia]. apply Forall_cons. split; [|done].
  pose proof (run_bytes_short per (a :: run)). rewrite zlen_cons in *. pose proof (zlen_nonneg (run_bytes per (a :: run))).
  inversion_clear Ho1 as [|? ? (Ha & _) _]. inversion_clear Hrun as [|? ? Hat _]. cbn [fst] in Hat. rewrite <- Hat.
  split_and!; cbn [fst snd]; [done|rewrite zlen_cons|]; unfold is_u64; lia.
Qed.

(** What reads of a record give: its count, its edges, and the edges of the wanted types. *)
Definition record_of (forward : bool) (rec : bytes) (l : list Adj) : Prop :=
  adj_count rec = Ok (zlen l) ∧ decode_adj rec forward = Ok l ∧
  ∀ (St : Type) (f : Adj → St → result St) want s,
    decode_adj_into_filtered f want rec forward s = visit_all f (filter (λ a, want (adj_reltype a)) l) s.

Lemma visit_push l out : visit_all push_adj l out = Ok (out ++ l).
Proof. revert out. induction l as [|a l IH]; intros out; cbn [visit_all]; [by rewrite app_nil_r|]. cbn. by rewrite IH, <- app_assoc. Qed.

Lemma filter_true (l : list Adj) : filter (λ a, (λ _ : Z, true) (adj_reltype a)) l = l.
Proof. induction l as [|a l IH]; [done|]. rewrite filter_cons_True by done. by rewrite IH. Qed.

(** A record whose header is parsed to the runs of a list reads as the list. *)
Lemma record_reads forward rec l derive base runs : l = concat (map snd runs) → l ≠ [] → adjacency_ok l → Forall run_typed runs →
  (derive = true → counts_up base l) → adj_count rec = Ok (zlen l) →
  parse_adj_header rec forward = Ok (Some (mkHeader derive base (map (entry_of (negb derive)) runs) (run_bytes (negb derive) l))) →
  record_of forward rec l.
Proof.
  intros El Hne [Hok Hlen] Hr Hid Hc Hp. assert (Forall adj_ok l) as Hok' by (eapply Forall_impl; [exact Hok|by intros ? []]).
  assert (∀ St (f : Adj → St → result St) want s, decode_adj_into_filtered f want rec forward s = visit_all f (filter (λ a, want (adj_reltype a)) l) s) as Hf.
  { intros St f want s. unfold decode_adj_into_filtered. rewrite Hp. cbn [mbind result_bind derive_base h_base h_dir h_body]. rewrite El in *.
    apply visit_wanted_written; [done..|by rewrite Z.add_0_r|done|lia]. }
  split_and!; [done| |exact Hf]. unfold decode_adj. unfold adj_count in Hc. destruct (read_uvarint rec) as [[c r]|]; [|done]. cbn [mbind result_bind].
  specialize (Hf _ push_adj (λ _, true) []). unfold decode_adj_into, decode_adj_into_filtered in *. rewrite Hp in *. cbn [mbind result_bind] in *.
  rewrite visit_runs_wanted, Hf, filter_true. apply visit_push.
Qed.

Lemma read_directory dir body : Forall entry_ok dir → is_u64 (zlen dir) →
  ∃ r, read_uvarint (write_directory dir ++ body) = Ok (zlen dir, r) ∧ read_many read_run_entry (zlen dir) r = Ok (dir, body).
Proof.
  intros Hd Hn. exists (concat (map write_run_entry dir) ++ body). unfold write_directory. rewrite <- app_assoc, codec_roundtrip by done.
  split; [done|]. by apply codec_many_roundtrip.
Qed.

Lemma directory_short dir : zlen (write_directory dir) <= 10 + 30 * zlen dir.
Proof.
  unfold write_directory. rewrite zlen_app. pose proof (uvarint_short (zlen dir)). enough (zlen (concat (map write_run_entry dir)) <= 30 * zlen dir) by lia. clear.
  induction dir as [|[[rt rc] nb] dir IH]; [done|]. cbn [map concat]. unfold write_run_entry at 1. rewrite zlen_cons, !zlen_app.
  pose proof (uvarint_short rt). pose proof (uvarint_short rc). pose proof (uvarint_short nb). lia.
Qed.

Lemma empty_record forward rec : rec = write_uvarint 0 → record_of forward rec [].
Proof.
  intros ->. split_and!; [done..|]. intros St f want s. unfold decode_adj_into_filtered, parse_adj_header. done.
Qed.

(** The directory and the bytes of a list, which is not empty, and their size. *)
Lemma runs_written l per : l ≠ [] → adjacency_ok l → ∃ runs, l = concat (map snd runs) ∧ Forall run_typed runs ∧
  encode_runs l per = (map (entry_of per) runs, run_bytes per l) ∧
  (∃ r, read_uvarint (write_directory (map (entry_of per) runs) ++ run_bytes per l) = Ok (zlen (map (entry_of per) runs), r) ∧
     read_many read_run_entry (zlen (map (entry_of per) runs)) r = Ok (map (entry_of per) runs, run_bytes per l)) ∧
  zlen (write_directory (map (entry_of per) runs)) + zlen (run_bytes per l) <= 10 + 50 * zlen l.
Proof.
  intros Hne [Hok Hlen]. destruct (encode_runs_spec l per) as (runs & El & Ht & Hn & Ee). exists runs.
  assert (Forall adj_ok l) as Hok' by (eapply Forall_impl; [exact Hok|by intros ? []]).
  destruct (entries_ok per runs Ht) as [He Hr]; [by rewrite <- El..|done|]. rewrite <- El in Hr.
  pose proof (zlen_nonneg runs). assert (zlen (map (entry_of per) runs) = zlen runs) as Em by (unfold zlen; by rewrite length_map).
  split_and!; [done..| |].
  - apply read_directory; [done|]. rewrite Em. unfold is_u64. lia.
  - pose proof (directory_short (map (entry_of per) runs)). pose proof (run_bytes_short per l). lia.
Qed.

(** The count in front of a record. *)
Lemma counted l rest : adjacency_ok l → read_uvarint (write_uvarint (zlen l) ++ rest) = Ok (zlen l, rest).
Proof. intros [_ Hl]. pose proof (zlen_nonneg l). apply codec_roundtrip. unfold is_u64. lia. Qed.

Lemma edges_counted (l : list Adj) : l ≠ [] → (zlen l =? 0) = false.
Proof. intros Hl. destruct l as [|a l]; [done|]. apply Z.eqb_neq. rewrite zlen_cons. pose proof (zlen_nonneg l). lia. Qed.

Lemma reverse_record l : adjacency_ok l → record_of false (encode_adj_reverse l) l ∧ encode_adj_reverse l ≠ [] ∧ zlen (encode_adj_reverse l) <= 50 * zlen l + 40.
Proof.
  intros Hl. destruct (decide (l = [])) as [->|Hne]; [by split; [apply empty_record|]|].
  destruct (runs_written l true Hne Hl) as (runs & El & Ht & Ee & (r & Hd & Hm) & Hsz). unfold encode_adj_reverse. rewrite Ee.
  assert (match l with [] => write_uvarint (zlen l) | _ => write_uvarint (zlen l) ++ write_directory (map (entry_of true) runs) ++ run_bytes true l end
    = write_uvarint (zlen l) ++ write_directory (map (entry_of true) runs) ++ run_bytes true l) as -> by (by destruct l).
  split_and!.
  - apply (record_reads _ _ _ false 0 runs); [done..|unfold adj_count; by rewrite counted|].
    unfold parse_adj_header. rewrite counted by done. cbn [mbind result_bind]. rewrite edges_counted by done. cbn [mbind result_bind].
    rewrite Hd. cbn [mbind result_bind]. by rewrite Hm.
  - intros Hnil. apply app_nil in Hnil as [Hnil _]. apply (f_equal zlen) in Hnil. destruct Hl as [_ Hl]. pose proof (zlen_nonneg l).
    pose proof (codec_nonempty (wf := is_u64) (rd := read_uvarint) (zlen l)). unfold is_u64, zlen in *. cbn [length] in *. lia.
  - rewrite !zlen_app. pose proof (uvarint_short (zlen l)). lia.
Qed.

Lemma forward_record l : adjacency_ok l → ∃ rec, encode_adj_forward l = Ok rec ∧ record_of true rec l ∧ rec ≠ [] ∧ zlen rec <= 50 * zlen l + 40.
Proof.
  intros Hl. destruct l as [|a l']; [exists (write_uvarint 0); split_and!; [done|by apply empty_record|done|done]|]. set (l := a :: l') in *.
  assert (l ≠ []) as Hne by done. pose proof Hl as [Hok Hlen]. assert (Forall adj_ok l) as Hok' by (eapply Forall_impl; [exact Hok|by intros ? []]).
  inversion Hok as [|? ? [(_ & _ & Ha) Ha63] _ [E1 E2]]. subst. destruct (contiguous_spec (adj_edge a) 0 l) as (b & Hb & Hiff); [done|apply Ha|done|lia|].
  destruct (runs_written l (negb b) Hne Hl) as (runs & El & Ht & Ee & (r & Hd & Hm) & Hsz).
  set (head := if b then [FWD_CONTIGUOUS] ++ write_uvarint (adj_edge a) else [FWD_EXPLICIT]).
  exists (write_uvarint (zlen l) ++ head ++ write_directory (map (entry_of (negb b)) runs) ++ run_bytes (negb b) l). split_and!.
  - unfold encode_adj_forward. cbv beta iota delta [l]. fold l. rewrite Hb. cbn [mbind result_bind]. destruct b; cbn [negb] in Ee; rewrite Ee; [|done].
    unfold head. by rewrite <- app_assoc.
  - apply (record_reads _ _ _ b (if b then adj_edge a else 0) runs); [done..| |unfold adj_count; by rewrite counted|].
    + intros ->. rewrite <- (Z.add_0_r (adj_edge a)). by apply Hiff.
    + unfold parse_adj_header. rewrite counted by done. cbn [mbind result_bind]. rewrite edges_counted by done. unfold head. destruct b; cbn [app].
      * rewrite Z.eqb_refl. rewrite codec_roundtrip by done. cbn [mbind result_bind negb] in *. rewrite Hd. cbn [mbind result_bind]. by rewrite Hm.
      * change (FWD_EXPLICIT =? FWD_CONTIGUOUS) with false. rewrite Z.eqb_refl. cbn [mbind result_bind negb] in *. rewrite Hd. cbn [mbind result_bind]. by rewrite Hm.
  - intros Hnil. apply app_nil in Hnil as [_ Hnil]. apply app_nil in Hnil as [Hnil _]. unfold head in Hnil. by destruct b.
  - rewrite !zlen_app. pose proof (uvarint_short (zlen l)). assert (zlen head <= 11) by (unfold head; destruct b; [rewrite zlen_app; pose proof (uvarint_short (adj_edge a)); change (zlen [FWD_CONTIGUOUS]) with 1; lia|done]). lia.
Qed.

(** * Arbitrary records *)

Lemma visit_edge_consumes derive base rt k body out : match visit_edge push_adj derive base rt k body out with
  | Ok (body', out') => (length body' < length body)%nat ∧ length out' = S (length out)
  | Err e => e ≠ OutOfFuel
  end.
Proof.
  unfold visit_edge. pose proof (fuel_safe (rd := read_uvarint) body) as Hs. destruct (read_uvarint body) as [[nb b1]|e] eqn:E1; cbn [mbind result_bind]; [|congruence].
  apply (consuming (rd := read_uvarint)) in E1. destruct derive.
  - unfold add_u64. destruct (_ <? _); cbn; [|done]. rewrite length_app. cbn. lia.
  - pose proof (fuel_safe (rd := read_uvarint) b1) as Hs1. destruct (read_uvarint b1) as [[id b2]|e] eqn:E2; cbn [mbind result_bind]; [|congruence].
    apply (consuming (rd := read_uvarint)) in E2. cbn. rewrite length_app. cbn. lia.
Qed.

Lemma visit_run_consumes derive base rt fuel rc k body out : (length body < fuel)%nat →
  match visit_run_fuel push_adj fuel derive base rt rc k body out with
  | Ok (_, body', out') => (length body' + length out' <= length body + length out)%nat
  | Err e => e ≠ OutOfFuel
  end.
Proof.
  revert rc k body out. induction fuel as [|fuel IH]; intros rc k body out Hf; cbn [visit_run_fuel]; [lia|]. destruct (rc <=? 0); [lia|].
  pose proof (visit_edge_consumes derive base rt k body out) as He. destruct (visit_edge _ _ _ _ _ _ _) as [[b1 o1]|e]; cbn [mbind result_bind]; [|done].
  unfold add_u64 at 1. destruct (_ <? _); cbn [mbind result_bind]; [|done]. specialize (IH (rc - 1) (k + 1) b1 o1 ltac:(lia)).
  destruct (visit_run_fuel _ _ _ _ _ _ _ _ _) as [[[? ?] ?]|e]; [|done]. lia.
Qed.

#[export] Instance read_run_entry_consuming : Consuming read_run_entry := codec_consuming (Codec := run_entry_codec).
#[export] Instance read_run_entry_fuel_safe : FuelSafe read_run_entry.
Proof. intros r. unfold read_run_entry. fuel_safe. Qed.

Lemma header_bounded rec forward : match parse_adj_header rec forward with
  | Ok (Some h) => (length (h_body h) <= length rec)%nat
  | Ok None => True
  | Err e => e ≠ OutOfFuel
  end.
Proof.
  unfold parse_adj_header. pose proof (fuel_safe (rd := read_uvarint) rec) as Hs. destruct (read_uvarint rec) as [[count r]|e] eqn:E; cbn [mbind result_bind]; [|congruence].
  apply (consuming (rd := read_uvarint)) in E. destruct (count =? 0); [done|].
  assert (match (if forward then
       match r with
       | [] => Err (Bail "truncated forward adjacency record (missing codec flag)")
       | flag :: r =>
           if flag =? FWD_CONTIGUOUS then '(base, r) ← read_uvarint r; Ok (true, base, r)
           else if flag =? FWD_EXPLICIT then Ok (false, 0, r)
           else Err (Bail "unknown forward adjacency flag")
       end
     else Ok (false, 0, r) : result (bool * Z * bytes)) with Ok (_, r') => (length r' <= length r)%nat | Err e => e ≠ OutOfFuel end) as Hh.
  { destruct forward; [|lia]. destruct r as [|fl r]; [done|]. destruct (fl =? _); [|destruct (fl =? _); [cbn; lia|done]].
    pose proof (fuel_safe (rd := read_uvarint) r) as Hr. destruct (read_uvarint r) as [[b r']|e] eqn:Er; cbn [mbind result_bind]; [|congruence].
    apply (consuming (rd := read_uvarint)) in Er. cbn. lia. }
  destruct (if forward then _ else _) as [[[d b] r2]|e]; cbn [mbind result_bind]; [|done].
  pose proof (fuel_safe (rd := read_uvarint) r2) as Hr2. destruct (read_uvarint r2) as [[num r3]|e] eqn:E2; cbn [mbind result_bind]; [|congruence].
  apply (consuming (rd := read_uvarint)) in E2. pose proof (read_many_fuel_safe read_run_entry num r3 _) as Hr3.
  destruct (read_many read_run_entry num r3) as [[dir r4]|e] eqn:E3; cbn [mbind result_bind h_body]; [|congruence].
  apply (read_many_length read_run_entry) in E3 as [_ E3]. lia.
Qed.

(** A record of arbitrary bytes is decoded to no more edges than it has bytes, or refused:
    the counts in it, which may be forged, do not keep the decoder running. *)
Theorem decode_adj_bounded rec forward : match decode_adj rec forward with
  | Ok l => zlen l <= zlen rec
  | Err e => e ≠ OutOfFuel
  end.
Proof.
  assert (∀ derive base dir k body out, match visit_runs push_adj derive base dir k body out with
    | Ok l => (length l <= length body + length out)%nat | Err e => e ≠ OutOfFuel end) as Hv.
  { intros derive base dir. induction dir as [|[[rt rc] nb] dir IH]; intros k body out; cbn [visit_runs]; [lia|].
    pose proof (visit_run_consumes derive base rt (S (length body)) rc k body out (Nat.lt_succ_diag_r _)) as Hr. fold (visit_run push_adj derive base rt rc k body out) in Hr.
    destruct (visit_run _ _ _ _ _ _ _ _) as [[[k1 b1] o1]|e]; cbn [mbind result_bind]; [|done]. specialize (IH k1 b1 o1).
    destruct (visit_runs _ _ _ _ _ _ _); [lia|done]. }
  unfold decode_adj, decode_adj_into. destruct (read_uvarint rec) as [[c r]|e] eqn:Ec; cbn [mbind result_bind];
    [|intros ->; by eapply (fuel_safe (rd := read_uvarint))].
  pose proof (header_bounded rec forward) as Hp.
  destruct (parse_adj_header rec forward) as [[h|]|e]; cbn [mbind result_bind]; [|cbn; apply zlen_nonneg|done].
  specialize (Hv (derive_base h) (h_base h) (h_dir h) 0 (h_body h) []). destruct (visit_runs _ _ _ _ _ _ _); [|done]. unfold zlen. cbn [length] in Hv. lia.
Qed.

(** A forged base, by contrast, is added to unchecked: where overflow is checked the decoder
    panics, and where it is not the ids wrap around. *)
Example forged_base_overflows :
  decode_adj ([2; FWD_CONTIGUOUS] ++ write_uvarint (2 ^ 64 - 1) ++ [1; 0; 2; 2] ++ [5; 6]) true = Err (Panic "attempt to add with overflow").
Proof. vm_compute. reflexivity. Qed.

(** C29: The edges of a node survive the record they are written to.  Whether ids are left out
    because they count up, or kept, and in either direction, decoding the record gives the edges in
    order, its first number counts them, and a decoding by type gives the edges of the wanted types
    in order, although it jumps over the other runs. *)
Theorem adjacency_roundtrip l : adjacency_ok l →
  (∃ rec, encode_adj_forward l = Ok rec ∧ record_of true rec l) ∧ record_of false (encode_adj_reverse l) l.
Proof.
  intros Hl. split; [|apply (reverse_record l Hl)]. destruct (forward_record l Hl) as (rec & He & Hr & _). by exists rec.
Qed.

Definition example_adj : list Adj := [mkAdj 4 300 7; mkAdj 4 2 8; mkAdj 9 300 9].

Lemma example_adj_ok : adjacency_ok example_adj.
Proof. split; [|done]. repeat (apply Forall_cons; split); [..|by apply Forall_nil]. all: repeat split; cbn; lia. Qed.

Lemma adjacency_roundtrip_witness : ∃ rec, encode_adj_forward example_adj = Ok rec ∧
  decode_adj_into_filtered push_adj (λ rt, rt =? 9) rec true [] = Ok [mkAdj 9 300 9].
Proof.
  destruct (adjacency_roundtrip example_adj example_adj_ok) as [(rec & He & _ & _ & Hf) _]. exists rec. split; [exact He|].
  rewrite Hf. reflexivity.
Defined.
