(* ===== verification/Grouping.v ===== *)
(** Streams that are grouped by a key.

    Several writers take elements with the number of the group they belong to, in ascending order
    of groups, and emit one list a group, an empty one for a group without elements.  What they
    emit is here, for any way of adding an element to a list. *)

From S2P Require Import Prelude.

(** The elements pushed for a group, in order. *)
Definition pushed {B} (pushes : list (Z * B)) (i : Z) : list B := map snd (filter (λ p, p.1 = i) pushes).

(** The stream ascends from group [a], below [n]. *)
Fixpoint ascends {B} (n a : Z) (pushes : list (Z * B)) : Prop :=
  match pushes with [] => True | (k, _) :: pushes => a <= k < n ∧ ascends n k pushes end.

(** The lists emitted in [fuel] rounds, of which the first is [cur], and the list that is open then. *)
Fixpoint pad {A} (fuel : nat) (cur : list A) : list (list A) := match fuel with O => [] | S fuel => cur :: pad fuel [] end.
Definition left_over {A} (fuel : nat) (cur : list A) : list A := match fuel with O => cur | S _ => [] end.

Lemma pushed_cons {B} k (x : B) pushes i : pushed ((k, x) :: pushes) i = (if k =? i then [x] else []) ++ pushed pushes i.
Proof.
  unfold pushed. destruct (Z.eqb_spec k i) as [->|Hne]; [by rewrite filter_cons_True|]. by rewrite filter_cons_False.
Qed.

Lemma pushed_app {B} (p q : list (Z * B)) i : pushed (p ++ q) i = pushed p i ++ pushed q i.
Proof. unfold pushed. by rewrite filter_app, map_app. Qed.

Lemma pushed_below {B} n a (pushes : list (Z * B)) i : ascends n a pushes → i < a → pushed pushes i = [].
Proof.
  revert a. induction pushes as [|[k x] pushes IH]; intros a; [done|]. intros [Hk Hp] Hi. rewrite pushed_cons.
  rewrite (proj2 (Z.eqb_neq k i)) by lia. apply (IH k Hp). lia.
Qed.

Lemma pad_nodes {A} fuel a (cur : list A) : pad fuel cur = map (λ i, if i =? a then cur else []) (seqZ a (Z.of_nat fuel)).
Proof.
  revert a cur. induction fuel as [|fuel IH]; intros a cur; [done|]. cbn [pad]. rewrite seqZ_cons by lia. cbn [map]. rewrite Z.eqb_refl. f_equal.
  replace (Z.pred (Z.of_nat (S fuel))) with (Z.of_nat fuel) by lia. rewrite (IH (Z.succ a)). apply map_ext_in. intros i Hi%list_elem_of_In%elem_of_seqZ.
  rewrite (proj2 (Z.eqb_neq i a)) by lia. by destruct (i =? Z.succ a).
Qed.

Section emitted.
Context {A B : Type}.
Variable push : list A → B → list A.

(** The lists that are emitted from group [a] on, when the list [cur] is open for it. *)
Fixpoint stream_lists (n a : Z) (cur : list A) (pushes : list (Z * B)) : list (list A) :=
  match pushes with
  | [] => pad (Z.to_nat (n - a)) cur
  | (k, x) :: pushes => pad (Z.to_nat (k - a)) cur ++ stream_lists n k (push (left_over (Z.to_nat (k - a)) cur) x) pushes
  end.

Lemma stream_lists_nodes n a cur pushes : a <= n → ascends n a pushes →
  stream_lists n a cur pushes = map (λ i, foldl push (if i =? a then cur else []) (pushed pushes i)) (seqZ a (n - a)).
Proof.
  revert a cur. induction pushes as [|[k x] pushes IH]; intros a cur Ha; cbn [stream_lists ascends].
  - intros _. by rewrite (pad_nodes _ a), Z2Nat.id by lia.
  - intros [Hk Hp]. rewrite IH by (done || lia). replace (n - a) with ((k - a) + (n - k)) by lia. rewrite seqZ_app by lia.
    replace (a + (k - a)) with k by lia. rewrite map_app, (pad_nodes _ a), Z2Nat.id by lia. f_equal; apply map_ext_in; intros i Hi%list_elem_of_In%elem_of_seqZ.
    + rewrite pushed_cons, (proj2 (Z.eqb_neq k i)) by lia. by rewrite (pushed_below n k) by (done || lia).
    + rewrite pushed_cons. destruct (Z.eqb_spec i k) as [->|Hik].
      * rewrite Z.eqb_refl. cbn [app foldl]. destruct (Z.eqb_spec k a) as [->|Hka]; [by rewrite Z.sub_diag|].
        destruct (Z.to_nat (k - a)) eqn:E; [lia|]. done.
      * rewrite (proj2 (Z.eqb_neq k i)), (proj2 (Z.eqb_neq i a)) by lia. done.
Qed.
End emitted.

Definition push_back {A} (l : list A) (x : A) : list A := l ++ [x].

Lemma foldl_push_back {A} (l xs : list A) : foldl push_back l xs = l ++ xs.
Proof. revert l. induction xs as [|x xs IH]; intros l; cbn [foldl]; [by rewrite app_nil_r|]. rewrite IH. unfold push_back. by rewrite <- app_assoc. Qed.

Lemma stream_pushed {A} n a (pushes : list (Z * A)) : a <= n → ascends n a pushes →
  stream_lists push_back n a [] pushes = map (pushed pushes) (seqZ a (n - a)).
Proof. intros Ha Hp. rewrite stream_lists_nodes by done. apply map_ext. intros i. rewrite foldl_push_back. by destruct (i =? a). Qed.

(** ** Vectors of lists *)

Lemma alter_pushed {A} n i (x : A) pushes : 0 <= i < n →
  alter (λ l, l ++ [x]) (Z.to_nat i) (map (pushed pushes) (seqZ 0 n)) = map (pushed (pushes ++ [(i, x)])) (seqZ 0 n).
Proof.
  intros Hi. apply list_eq. intros j. destruct (decide (j = Z.to_nat i)) as [->|Hj].
  - rewrite list_lookup_alter_eq, !list_lookup_fmap, lookup_seqZ_lt by lia. cbn. f_equal. rewrite pushed_app, pushed_cons.
    replace (0 + Z.of_nat (Z.to_nat i)) with i by lia. by rewrite Z.eqb_refl.
  - rewrite list_lookup_alter_ne by done. rewrite !list_lookup_fmap. destruct (seqZ 0 n !! j) as [k|] eqn:E; [|done]. cbn. f_equal.
    apply lookup_seqZ in E as [-> Hk]. rewrite pushed_app, pushed_cons, (proj2 (Z.eqb_neq _ _)) by lia. by rewrite !app_nil_r.
Qed.

Lemma no_pushed {A} n : 0 <= n → replicate (Z.to_nat n) (@nil A) = map (pushed []) (seqZ 0 n).
Proof.
  intros Hn. apply list_eq. intros j. rewrite list_lookup_fmap. destruct (decide (j < Z.to_nat n)%nat) as [Hj|Hj].
  - by rewrite lookup_replicate_2, lookup_seqZ_lt by lia.
  - rewrite (proj1 (lookup_replicate_None _ _ _)), lookup_seqZ_ge by lia. done.
Qed.
