(* ===== verification/TopologyFile.v ===== *)
(** The file of adjacencies, of [graph-format/src/topology.rs]: its writers, and its reader.

    A file over [n] nodes has [2 n] records, the outgoing edges of every node and then the
    incoming ones.  It is written from all edges at once, from two streams that are sorted by
    node, or in bands of nodes whose files are concatenated.  The writers here are shown to leave
    the same records, so that all their files read alike. *)

From S2P Require Import Prelude Wire Crypto BlockCodec Isam BlockFile BlockRead BlockExact BlockConcat Topology Grouping.

(** An edge as the builder has it. *)
Record Edge := mkEdge { e_src : Z; e_dst : Z; e_reltype : Z; e_id : Z }.

Section writers.
Context {crypto : Crypto}.
Variable zstd_encode_all : bytes → Z → result bytes.
Variable random_nonce : nat → bytes.
Variables (target_block_bytes : Z) (codec : BlockCodec) (zstd_level : Z) (cipher : option FileCipher).
Local Abbreviation append := (append_record zstd_encode_all random_nonce target_block_bytes codec zstd_level cipher) (only parsing).
Local Abbreviation finish_file := (finish zstd_encode_all random_nonce codec zstd_level cipher) (only parsing).

(** * From all edges *)

(** Vectors of adjacencies by node: [fwd\[i\].push(a)]. *)
Definition push_at (i : Z) (a : Adj) (lists : list (list Adj)) : list (list Adj) := alter (λ l, l ++ [a]) (Z.to_nat i) lists.

Fixpoint bucket_loop (n : Z) (edges : list Edge) (fwd rev : list (list Adj)) : result (list (list Adj) * list (list Adj)) :=
  match edges with
  | [] => Ok (fwd, rev)
  | e :: edges =>
      if (n <=? e_src e) || (n <=? e_dst e) then Err (Bail "edge endpoint out of range")
      else bucket_loop n edges (push_at (e_src e) (mkAdj (e_reltype e) (e_dst e) (e_id e)) fwd)
             (push_at (e_dst e) (mkAdj (e_reltype e) (e_src e) (e_id e)) rev)
  end.

Fixpoint append_lists (encode : list Adj → result bytes) (lists : list (list Adj)) (w : BlockFileWriter) : result BlockFileWriter :=
  match lists with
  | [] => Ok w
  | l :: lists =>
      rec ← encode l;
      '(_, w) ← append rec w;
      append_lists encode lists w
  end.

Definition write_csr_with_cipher (node_count : Z) (edges : list Edge) : result (bytes * Z) :=
  '(fwd, rev) ← bucket_loop node_count edges (replicate (Z.to_nat node_count) []) (replicate (Z.to_nat node_count) []);
  w ← append_lists encode_adj_forward fwd (create_inner codec cipher);
  w ← append_lists (λ l, Ok (encode_adj_reverse l)) rev w;
  finish_file w.

(** * From sorted streams *)

Record CsrStreamWriter := mkStream {
  cs_inner : BlockFileWriter;
  cs_node_count : Z;
  cs_next_node : Z;
  cs_cur : list Adj;
  cs_halves_done : Z;
}.

Definition stream_create (node_count : Z) : CsrStreamWriter := mkStream (create_inner codec cipher) node_count 0 [] 0.

Definition stream_emit_one (st : CsrStreamWriter) : result CsrStreamWriter :=
  rec ← (if cs_halves_done st =? 0 then encode_adj_forward (cs_cur st) else Ok (encode_adj_reverse (cs_cur st)));
  '(_, inner) ← append rec (cs_inner st);
  Ok (mkStream inner (cs_node_count st) (cs_next_node st + 1) [] (cs_halves_done st)).

(** [while self.next_node < node]: one round a node. *)
Fixpoint stream_emit_until (fuel : nat) (node : Z) (st : CsrStreamWriter) : result CsrStreamWriter :=
  if node <=? cs_next_node st then Ok st else
  match fuel with
  | O => Err OutOfFuel
  | S fuel => st ← stream_emit_one st; stream_emit_until fuel node st
  end.

Definition stream_push (key_node : Z) (a : Adj) (st : CsrStreamWriter) : result CsrStreamWriter :=
  if cs_node_count st <=? key_node then Err (Bail "csr key node >= node_count")
  else if key_node <? cs_next_node st then Err (Bail "csr edges not ascending by node")
  else
    st ← stream_emit_until (Z.to_nat (key_node - cs_next_node st)) key_node st;
    Ok (mkStream (cs_inner st) (cs_node_count st) (cs_next_node st) (cs_cur st ++ [a]) (cs_halves_done st)).

Definition stream_finish_half (st : CsrStreamWriter) : result CsrStreamWriter :=
  st ← stream_emit_until (Z.to_nat (cs_node_count st - cs_next_node st)) (cs_node_count st) st;
  Ok (mkStream (cs_inner st) (cs_node_count st) 0 (cs_cur st) (cs_halves_done st + 1)).

Definition stream_finish (st : CsrStreamWriter) : result (bytes * Z) :=
  if cs_halves_done st =? 2 then finish_file (cs_inner st)
  else Err (Bail "csr stream needs both halves finished (forward+reverse)").

(** A half, from its stream of edges by node. *)
Fixpoint stream_half (pushes : list (Z * Adj)) (st : CsrStreamWriter) : result CsrStreamWriter :=
  match pushes with
  | [] => stream_finish_half st
  | (node, a) :: pushes => st ← stream_push node a st; stream_half pushes st
  end.

Definition stream_csr (node_count : Z) (fwd rev : list (Z * Adj)) : result (bytes * Z) :=
  st ← stream_half fwd (stream_create node_count);
  st ← stream_half rev st;
  stream_finish st.

(** * In bands *)

Record CsrHalfWriter := mkHalf {
  ch_inner : BlockFileWriter;
  ch_lo : Z;
  ch_hi : Z;
  ch_next_node : Z;
  ch_cur : list Adj;
  ch_forward : bool;
}.

Definition half_create (lo hi : Z) (forward : bool) : CsrHalfWriter := mkHalf (create_inner codec cipher) lo hi lo [] forward.

Definition half_emit_one (st : CsrHalfWriter) : result CsrHalfWriter :=
  rec ← (if ch_forward st then encode_adj_forward (ch_cur st) else Ok (encode_adj_reverse (ch_cur st)));
  '(_, inner) ← append rec (ch_inner st);
  Ok (mkHalf inner (ch_lo st) (ch_hi st) (ch_next_node st + 1) [] (ch_forward st)).

Fixpoint half_emit_until (fuel : nat) (node : Z) (st : CsrHalfWriter) : result CsrHalfWriter :=
  if node <=? ch_next_node st then Ok st else
  match fuel with
  | O => Err OutOfFuel
  | S fuel => st ← half_emit_one st; half_emit_until fuel node st
  end.

Definition half_push (key_node : Z) (a : Adj) (st : CsrHalfWriter) : result CsrHalfWriter :=
  if (key_node <? ch_lo st) || (ch_hi st <=? key_node) then Err (Bail "csr-half key outside band")
  else if key_node <? ch_next_node st then Err (Bail "csr-half edges not ascending by node")
  else
    st ← half_emit_until (Z.to_nat (key_node - ch_next_node st)) key_node st;
    Ok (mkHalf (ch_inner st) (ch_lo st) (ch_hi st) (ch_next_node st) (ch_cur st ++ [a]) (ch_forward st)).

Definition half_finish (st : CsrHalfWriter) : result (bytes * Z) :=
  st ← half_emit_until (Z.to_nat (ch_hi st - ch_next_node st)) (ch_hi st) st;
  finish_file (ch_inner st).

Fixpoint half_run (pushes : list (Z * Adj)) (st : CsrHalfWriter) : result (bytes * Z) :=
  match pushes with
  | [] => half_finish st
  | (node, a) :: pushes => st ← half_push node a st; half_run pushes st
  end.

(** The file of a band, from the edges of its nodes. *)
Definition band_csr (forward : bool) (lo hi : Z) (pushes : list (Z * Adj)) : result (bytes * Z) := half_run pushes (half_create lo hi forward).
End writers.

(** * Reading *)

Record TopologyReader := mkTopology { t_inner : BlockFileReader; t_node_count : Z }.

Section reader.
Context {crypto : Crypto}.
Variable zstd_decode : bytes → list bytes * bool.

Definition topology_open (src : bytes) (cipher : option FileCipher) : result TopologyReader :=
  inner ← open_blocks src cipher;
  let total := total_records inner in
  if total mod 2 =? 0 then Ok (mkTopology inner (total / 2)) else Err (Bail "topology record count is not even (forward+reverse)").

Definition topology_adj (t : TopologyReader) (global : Z) : result (list Adj) :=
  rec ← read_record_global zstd_decode (t_inner t) global;
  decode_adj rec (global <? t_node_count t).

Definition outgoing_global (t : TopologyReader) (node : Z) : Z := node.
Definition incoming_global (t : TopologyReader) (node : Z) : result Z := add_u64 (t_node_count t) node.

Definition outgoing (t : TopologyReader) (node : Z) : result (list Adj) := topology_adj t node.
Definition incoming (t : TopologyReader) (node : Z) : result (list Adj) :=
  global ← add_u64 (t_node_count t) node; topology_adj t global.
End reader.

(** * The lists a stream gives *)

(** The edges pushed for a node, in order. *)
Definition adjacency : list (Z * Adj) → Z → list Adj := pushed.

(** * The writers append those lists *)

Section written.
Context {crypto : Crypto}.
Variable zstd_encode_all : bytes → Z → result bytes.
Variable random_nonce : nat → bytes.
Variables (target_block_bytes : Z) (codec : BlockCodec) (zstd_level : Z) (cipher : option FileCipher).
Local Abbreviation lists_to := (append_lists zstd_encode_all random_nonce target_block_bytes codec zstd_level cipher) (only parsing).
Local Abbreviation records_to := (append_records zstd_encode_all random_nonce target_block_bytes codec zstd_level cipher) (only parsing).
Local Abbreviation finish_file := (finish zstd_encode_all random_nonce codec zstd_level cipher) (only parsing).
Local Abbreviation the_file := (write_file zstd_encode_all random_nonce target_block_bytes codec zstd_level cipher) (only parsing).

Definition encoder (forward : bool) (l : list Adj) : result bytes := if forward then encode_adj_forward l else Ok (encode_adj_reverse l).

Lemma lists_app enc l1 l2 w : lists_to enc (l1 ++ l2) w = (w ← lists_to enc l1 w; lists_to enc l2 w).
Proof.
  revert w. induction l1 as [|l l1 IH]; intros w; cbn [app append_lists]; [done|]. destruct (enc l) as [rec|]; [|done]. cbn [mbind result_bind].
  destruct (append_record _ _ _ _ _ _ rec w) as [[loc w']|]; [|done]. apply IH.
Qed.

Lemma stream_until fuel st : stream_emit_until zstd_encode_all random_nonce target_block_bytes codec zstd_level cipher fuel (cs_next_node st + Z.of_nat fuel) st =
  (w ← lists_to (encoder (cs_halves_done st =? 0)) (pad fuel (cs_cur st)) (cs_inner st);
   Ok (mkStream w (cs_node_count st) (cs_next_node st + Z.of_nat fuel) (left_over fuel (cs_cur st)) (cs_halves_done st))).
Proof.
  revert st. induction fuel as [|fuel IH]; intros [w n next cur h]; cbn [stream_emit_until pad append_lists left_over cs_next_node cs_inner cs_cur cs_halves_done cs_node_count].
  - rewrite Z.add_0_r, (proj2 (Z.leb_le _ _)) by lia. done.
  - rewrite (proj2 (Z.leb_gt _ _)) by lia. unfold stream_emit_one. cbn [cs_next_node cs_inner cs_cur cs_halves_done cs_node_count].
    change (if h =? 0 then encode_adj_forward cur else Ok (encode_adj_reverse cur)) with (encoder (h =? 0) cur). destruct (encoder _ cur) as [rec|]; [|done]. cbn [mbind result_bind].
    destruct (append_record _ _ _ _ _ _ rec w) as [[loc w']|]; [|done]. cbn [mbind result_bind].
    replace (next + Z.of_nat (S fuel)) with (next + 1 + Z.of_nat fuel) by lia.
    specialize (IH (mkStream w' n (next + 1) [] h)). cbn [cs_next_node cs_inner cs_cur cs_halves_done cs_node_count] in IH. rewrite IH.
    by replace (left_over fuel []) with (@nil Adj) by (by destruct fuel).
Qed.

Lemma half_until fuel st : half_emit_until zstd_encode_all random_nonce target_block_bytes codec zstd_level cipher fuel (ch_next_node st + Z.of_nat fuel) st =
  (w ← lists_to (encoder (ch_forward st)) (pad fuel (ch_cur st)) (ch_inner st);
   Ok (mkHalf w (ch_lo st) (ch_hi st) (ch_next_node st + Z.of_nat fuel) (left_over fuel (ch_cur st)) (ch_forward st))).
Proof.
  revert st. induction fuel as [|fuel IH]; intros [w lo hi next cur fw]; cbn [half_emit_until pad append_lists left_over ch_next_node ch_inner ch_cur ch_forward ch_lo ch_hi].
  - rewrite Z.add_0_r, (proj2 (Z.leb_le _ _)) by lia. done.
  - rewrite (proj2 (Z.leb_gt _ _)) by lia. unfold half_emit_one. cbn [ch_next_node ch_inner ch_cur ch_forward ch_lo ch_hi].
    change (if fw then encode_adj_forward cur else Ok (encode_adj_reverse cur)) with (encoder (fw) cur). destruct (encoder _ cur) as [rec|]; [|done]. cbn [mbind result_bind].
    destruct (append_record _ _ _ _ _ _ rec w) as [[loc w']|]; [|done]. cbn [mbind result_bind].
    replace (next + Z.of_nat (S fuel)) with (next + 1 + Z.of_nat fuel) by lia.
    specialize (IH (mkHalf w' lo hi (next + 1) [] fw)). cbn [ch_next_node ch_inner ch_cur ch_forward ch_lo ch_hi] in IH. rewrite IH.
    by replace (left_over fuel []) with (@nil Adj) by (by destruct fuel).
Qed.

(** A half leaves no open list, since every node pushed to is below the end. *)
Lemma stream_half_lists pushes w n next cur h : next < n ∨ (next <= n ∧ cur = []) → ascends n next pushes →
  stream_half zstd_encode_all random_nonce target_block_bytes codec zstd_level cipher pushes (mkStream w n next cur h) =
  (w ← lists_to (encoder (h =? 0)) (stream_lists push_back n next cur pushes) w; Ok (mkStream w n 0 [] (h + 1))).
Proof.
  revert w next cur. induction pushes as [|[k a] pushes IH]; intros w next cur Hn; cbn [stream_half stream_lists ascends].
  - intros _. unfold stream_finish_half. cbn [cs_node_count cs_next_node]. pose proof (stream_until (Z.to_nat (n - next)) (mkStream w n next cur h)) as E.
    cbn [cs_next_node cs_inner cs_cur cs_halves_done cs_node_count] in E. rewrite Z2Nat.id in E by lia. replace (next + (n - next)) with n in E by lia. rewrite E.
    destruct (append_lists _ _ _ _ _ _ _ _ w) as [w'|]; [|done]. cbn [mbind result_bind cs_inner cs_node_count cs_cur cs_halves_done]. do 2 f_equal.
    destruct Hn as [Hn|[_ ->]]; destruct (Z.to_nat (n - next)) eqn:Ef; (done || lia).
  - intros [Hk Hp]. unfold stream_push. cbn [cs_node_count cs_next_node]. rewrite (proj2 (Z.leb_gt _ _)), (proj2 (Z.ltb_ge _ _)) by lia.
    pose proof (stream_until (Z.to_nat (k - next)) (mkStream w n next cur h)) as E.
    cbn [cs_next_node cs_inner cs_cur cs_halves_done cs_node_count] in E. rewrite Z2Nat.id in E by lia. replace (next + (k - next)) with k in E by lia. rewrite E.
    rewrite lists_app. destruct (append_lists _ _ _ _ _ _ _ (pad _ _) w) as [w'|]; [|done].
    cbn [mbind result_bind cs_inner cs_node_count cs_next_node cs_cur cs_halves_done]. apply IH; [lia|done].
Qed.

Lemma half_run_lists pushes w lo hi next cur forward : lo <= next → next < hi ∨ (next <= hi ∧ cur = []) → ascends hi next pushes →
  half_run zstd_encode_all random_nonce target_block_bytes codec zstd_level cipher pushes (mkHalf w lo hi next cur forward) =
  (w ← lists_to (encoder forward) (stream_lists push_back hi next cur pushes) w; finish_file w).
Proof.
  revert w next cur. induction pushes as [|[k a] pushes IH]; intros w next cur Hlo Hn; cbn [half_run stream_lists ascends].
  - intros _. unfold half_finish. cbn [ch_hi ch_next_node]. pose proof (half_until (Z.to_nat (hi - next)) (mkHalf w lo hi next cur forward)) as E.
    cbn [ch_next_node ch_inner ch_cur ch_forward ch_lo ch_hi] in E. rewrite Z2Nat.id in E by lia. replace (next + (hi - next)) with hi in E by lia. rewrite E.
    by destruct (append_lists _ _ _ _ _ _ _ _ w) as [w'|].
  - intros [Hk Hp]. unfold half_push. cbn [ch_lo ch_hi ch_next_node]. rewrite (proj2 (Z.leb_gt _ _)), !(proj2 (Z.ltb_ge _ _)) by lia. cbn [orb].
    pose proof (half_until (Z.to_nat (k - next)) (mkHalf w lo hi next cur forward)) as E.
    cbn [ch_next_node ch_inner ch_cur ch_forward ch_lo ch_hi] in E. rewrite Z2Nat.id in E by lia. replace (next + (k - next)) with k in E by lia. rewrite E.
    rewrite lists_app. destruct (append_lists _ _ _ _ _ _ _ (pad _ _) w) as [w'|]; [|done].
    cbn [mbind result_bind ch_inner ch_next_node ch_cur ch_forward ch_lo ch_hi]. apply IH; [lia|lia|done].
Qed.

(** Lists whose encodings are known are appended as records. *)
Lemma lists_records enc lists recs w : Forall2 (λ l rec, enc l = Ok rec) lists recs → lists_to enc lists w = ('(_, w) ← records_to recs w; Ok w).
Proof.
  intros H. revert w. induction H as [|l rec lists recs Hl _ IH]; intros w; cbn [append_lists append_records]; [done|]. rewrite Hl. cbn [mbind result_bind].
  destruct (append_record _ _ _ _ _ _ rec w) as [[loc w']|]; [|done]. cbn [mbind result_bind]. rewrite IH. by destruct (append_records _ _ _ _ _ _ recs w') as [[locs w'']|].
Qed.

Lemma file_of_lists enc lists recs : Forall2 (λ l rec, enc l = Ok rec) lists recs →
  (w ← lists_to enc lists (create_inner codec cipher); finish_file w) = ('(_, out) ← the_file recs; Ok out).
Proof.
  intros H. rewrite (lists_records enc lists recs) by done. unfold write_file. destruct (append_records _ _ _ _ _ _ recs _) as [[locs w]|]; [|done].
  cbn [mbind result_bind]. by destruct (finish _ _ _ _ _ w).
Qed.

Lemma file_of_halves lf lr rf rr : Forall2 (λ l rec, encode_adj_forward l = Ok rec) lf rf → Forall2 (λ l rec, encoder false l = Ok rec) lr rr →
  (w ← lists_to encode_adj_forward lf (create_inner codec cipher); w ← lists_to (encoder false) lr w; finish_file w) = ('(_, out) ← the_file (rf ++ rr); Ok out).
Proof.
  intros Hf Hr. rewrite <- file_of_two, (lists_records _ lf rf) by done. destruct (append_records _ _ _ _ _ _ rf _) as [[l1 w1]|]; [|done]. cbn [mbind result_bind].
  rewrite (lists_records _ lr rr) by done. by destruct (append_records _ _ _ _ _ _ rr w1) as [[l2 w2]|].
Qed.
End written.

(** * Buckets *)

Definition fwd_push (e : Edge) : Z * Adj := (e_src e, mkAdj (e_reltype e) (e_dst e) (e_id e)).
Definition rev_push (e : Edge) : Z * Adj := (e_dst e, mkAdj (e_reltype e) (e_src e) (e_id e)).

Definition endpoints_ok (n : Z) (e : Edge) : Prop := 0 <= e_src e < n ∧ 0 <= e_dst e < n.

Lemma bucket_adjacency n edges ps qs : Forall (endpoints_ok n) edges →
  bucket_loop n edges (map (adjacency ps) (seqZ 0 n)) (map (adjacency qs) (seqZ 0 n)) =
  Ok (map (adjacency (ps ++ map fwd_push edges)) (seqZ 0 n), map (adjacency (qs ++ map rev_push edges)) (seqZ 0 n)).
Proof.
  intros H. unfold adjacency. revert ps qs. induction H as [|e edges [Hs Hd] _ IH]; intros ps qs; cbn [bucket_loop map]; [by rewrite !app_nil_r|].
  rewrite !(proj2 (Z.leb_gt _ _)) by lia. cbn [orb]. unfold push_at. rewrite !alter_pushed by done. rewrite IH. by rewrite <- !app_assoc.
Qed.

Section exact.
Context {crypto : Crypto} {crypto_laws : CryptoLaws}.
Variable zstd_encode_all : bytes → Z → result bytes.
Variable zstd_decode : bytes → list bytes * bool.
Variable random_nonce : nat → bytes.
Variables (target_block_bytes : Z) (codec : BlockCodec) (zstd_level : Z) (cipher : option FileCipher).

(** C27: The streaming writer is the plain one.  Two streams that ascend by node and give every
    node the edges the list of edges gives it, outgoing and incoming, are written to the bytes
    that the list is written to, in as many blocks, and fail where it fails. *)
Theorem csr_stream_equiv n edges fwd rev : 0 <= n → Forall (endpoints_ok n) edges → ascends n 0 fwd → ascends n 0 rev →
  (∀ i, adjacency fwd i = adjacency (map fwd_push edges) i) → (∀ i, adjacency rev i = adjacency (map rev_push edges) i) →
  stream_csr zstd_encode_all random_nonce target_block_bytes codec zstd_level cipher n fwd rev =
  write_csr_with_cipher zstd_encode_all random_nonce target_block_bytes codec zstd_level cipher n edges.
Proof.
  intros Hn He Hf Hr Ef Er. unfold stream_csr, write_csr_with_cipher, stream_create. rewrite !no_pushed by done. fold adjacency. rewrite bucket_adjacency by done. cbn [mbind result_bind app].
  rewrite stream_half_lists by (done || (right; by split)). change (encoder (0 =? 0)) with encode_adj_forward. rewrite stream_pushed, Z.sub_0_r, (map_ext _ _ Ef) by done.
  destruct (append_lists _ _ _ _ _ _ _ _ _) as [w|]; [|done]. cbn [mbind result_bind]. rewrite stream_half_lists by (done || (right; by split)).
  change (encoder (0 + 1 =? 0)) with (λ l, Ok (encode_adj_reverse l)). rewrite stream_pushed, Z.sub_0_r, (map_ext _ _ Er) by done.
  by destruct (append_lists _ _ _ _ _ _ _ _ w) as [w'|].
Qed.

(** * Reading back *)

Hypothesis lossless : zstd_lossless zstd_encode_all zstd_decode.
Hypothesis bounded : ∀ raw level comp, zstd_encode_all raw level = Ok comp → zlen comp <= zlen raw + zlen raw / 256 + 64.
Hypothesis target_small : 5 * target target_block_bytes + 20 <= 2 ^ 30.

(** The edges of a node are such that their record fits a block. *)
Definition list_fits (l : list Adj) : Prop := adjacency_ok l ∧ 5 * target target_block_bytes + 50 * zlen l + 60 <= 2 ^ 30.

(** Records of lists: each is the encoding of its list, reads as it, and fits a block. *)
Definition encodes (forward : bool) (l : list Adj) (rec : bytes) : Prop :=
  encoder forward l = Ok rec ∧ record_of forward rec l ∧ record_fits target_block_bytes rec.

Lemma list_encodes forward l : list_fits l → ∃ rec, encodes forward l rec.
Proof.
  intros [Hl Hs]. destruct forward.
  - destruct (forward_record l Hl) as (rec & He & Hr & Hne & Hz). exists rec. split_and!; [done..|]. unfold record_fits. split; [done|lia].
  - destruct (reverse_record l Hl) as (Hr & Hne & Hz). exists (encode_adj_reverse l). split_and!; [done..|]. unfold record_fits. split; [done|lia].
Qed.

Lemma lists_encode forward lists : Forall list_fits lists → ∃ recs, Forall2 (encodes forward) lists recs.
Proof.
  induction 1 as [|l lists Hl _ (recs & IH)]; [by exists []|]. destruct (list_encodes forward l Hl) as [rec Hr]. exists (rec :: recs). by apply Forall2_cons.
Qed.

(** A file of the records of both halves is a topology. *)
Lemma topology_reads n lf lr rf rr img r : zlen lf = n → zlen lr = n → 2 * n < 2 ^ 64 → Forall2 (encodes true) lf rf → Forall2 (encodes false) lr rr →
  open_blocks img cipher = Ok r → total_records r = 2 * n →
  (∀ i rec, (rf ++ rr) !! i = Some rec → read_record_global zstd_decode r (Z.of_nat i) = Ok rec) →
  ∃ t, topology_open img cipher = Ok t ∧ t_node_count t = n ∧
    (∀ i l, lf !! i = Some l → outgoing zstd_decode t (Z.of_nat i) = Ok l) ∧ (∀ i l, lr !! i = Some l → incoming zstd_decode t (Z.of_nat i) = Ok l).
Proof.
  intros Hlf Hlr Hn Hf Hr Ho Ht Hread. exists (mkTopology r n). unfold topology_open. rewrite Ho. cbn [mbind result_bind]. rewrite Ht.
  rewrite (Z.mul_comm 2), Z.mod_mul, Z.div_mul by done. split_and!; [done..| |].
  - intros i l Hl. destruct (Forall2_lookup_l _ _ _ _ _ Hf Hl) as (rec & Hrec & (_ & (_ & Hd & _) & _)). unfold outgoing, topology_adj. cbn [t_inner t_node_count].
    rewrite (Hread i rec) by (by apply lookup_app_l_Some). cbn [mbind result_bind]. apply lookup_lt_Some in Hl. unfold zlen in Hlf.
    by rewrite (proj2 (Z.ltb_lt _ _)) by lia.
  - intros i l Hl. destruct (Forall2_lookup_l _ _ _ _ _ Hr Hl) as (rec & Hrec & (_ & (_ & Hd & _) & _)). unfold incoming, topology_adj. cbn [t_inner t_node_count].
    pose proof (lookup_lt_Some _ _ _ Hl). pose proof (Forall2_length _ _ _ Hf). unfold zlen in *. unfold add_u64. rewrite (proj2 (Z.ltb_lt _ _)) by lia. cbn [mbind result_bind].
    replace (n + Z.of_nat i) with (Z.of_nat (length rf + i)) by lia. rewrite (Hread (length rf + i)%nat rec).
    + cbn [mbind result_bind]. by rewrite (proj2 (Z.ltb_ge _ _)) by lia.
    + rewrite lookup_app_r by lia. by replace (length rf + i - length rf)%nat with i by lia.
Qed.

(** * Bands *)

Definition band_of (lo hi : Z) (pushes : list (Z * Adj)) : list (Z * Adj) := filter (λ p, lo <= p.1 < hi) pushes.

(** Consecutive bands from [a] to [n]. *)
Fixpoint bands_cover (a n : Z) (bands : list (Z * Z)) : Prop :=
  match bands with [] => a = n | (lo, hi) :: bands => lo = a ∧ lo <= hi ∧ bands_cover hi n bands end.

Lemma ascends_band n lo hi pushes a b : ascends n a pushes → b <= Z.max a lo → ascends hi b (band_of lo hi pushes).
Proof.
  revert a b. induction pushes as [|[k x] pushes IH]; intros a b; [done|]. intros [Hk Hp] Hb. unfold band_of. destruct (decide (lo <= k < hi)) as [Hin|Hout].
  - rewrite filter_cons_True by done. cbn [ascends]. split; [lia|]. apply (IH k); [done|lia].
  - rewrite filter_cons_False by done. apply (IH k); [done|lia].
Qed.

Lemma adjacency_band lo hi pushes i : lo <= i < hi → adjacency (band_of lo hi pushes) i = adjacency pushes i.
Proof.
  intros Hi. unfold adjacency, pushed, band_of. rewrite list_filter_filter. f_equal. apply list_filter_iff. intros p. split; [tauto|]. intros ->. by split.
Qed.

(** The file of a band, written with nonces of its own. *)
Definition band_written (forward : bool) (pushes : list (Z * Adj)) (band : Z * Z) (part : bytes * Z) : Prop :=
  fits part.1 ∧ ∃ nonces, (∀ i, zlen (nonces i) = NONCE_LEN) ∧
    band_csr zstd_encode_all nonces target_block_bytes codec zstd_level cipher forward band.1 band.2 (band_of band.1 band.2 pushes) = Ok part.

Lemma band_records forward pushes n lo hi part : ascends n 0 pushes → lo <= hi → Forall list_fits (map (adjacency pushes) (seqZ lo (hi - lo))) →
  band_written forward pushes (lo, hi) part →
  ∃ recs, Forall2 (encodes forward) (map (adjacency pushes) (seqZ lo (hi - lo))) recs ∧
    file_written zstd_encode_all target_block_bytes codec zstd_level cipher recs part.
Proof.
  intros Hp Hb Hfit (Hf & nonces & Hn & Hw). destruct (lists_encode forward _ Hfit) as (recs & Hrecs). exists recs. split; [done|]. cbn [fst snd] in Hw.
  split; [|split; [done|]]. { apply Forall_forall. intros rec [i Hi]%list_elem_of_lookup_1. by destruct (Forall2_lookup_r _ _ _ _ _ Hrecs Hi) as (l & _ & _ & _ & ?). }
  unfold band_csr, half_create in Hw. rewrite half_run_lists in Hw; [|lia|right; by split|apply (ascends_band n _ _ _ 0); [done|lia]].
  rewrite stream_pushed in Hw; [|lia|apply (ascends_band n _ _ _ 0); [done|lia]].
  rewrite (map_ext_in _ (adjacency pushes)) in Hw by (intros i Hi%list_elem_of_In%elem_of_seqZ; apply adjacency_band; lia).
  rewrite (file_of_lists _ _ _ _ _ _ (encoder forward) _ recs) in Hw by (eapply Forall2_impl; [exact Hrecs|by intros ? ? []]).
  apply bind_Ok in Hw as ([locs out] & Hw & [= ->]). by exists nonces, locs.
Qed.

Lemma bands_records forward pushes n bands parts a : ascends n 0 pushes → bands_cover a n bands → (∀ i, a <= i < n → list_fits (adjacency pushes i)) →
  Forall2 (band_written forward pushes) bands parts → a <= n ∧ ∃ recss, length recss = length bands ∧
    Forall2 (encodes forward) (map (adjacency pushes) (seqZ a (n - a))) (concat recss) ∧
    Forall2 (file_written zstd_encode_all target_block_bytes codec zstd_level cipher) recss parts.
Proof.
  intros Hp Hc Hfit Hw. revert a Hc Hfit. induction Hw as [|[lo hi] part bands parts Hb _ IH]; intros a Hc Hfit; cbn [bands_cover] in Hc.
  - subst. split; [done|]. exists []. rewrite Z.sub_diag. by split_and!.
  - destruct Hc as (-> & Hlo & Hc). destruct (IH hi Hc) as (Hhi & recss & Hlen & He & Hf); [intros i Hi; apply Hfit; lia|]. split; [lia|].
    destruct (band_records forward pushes n a hi part Hp Hlo) as (recs & Hr & Hfile); [|done|].
    { apply Forall_map, Forall_forall. intros i Hi%elem_of_seqZ. apply Hfit. lia. }
    exists (recs :: recss). split_and!; [cbn [length]; lia| |by apply Forall2_cons]. replace (n - a) with ((hi - a) + (n - hi)) by lia.
    rewrite seqZ_app, map_app by lia. replace (a + (hi - a)) with hi by lia. cbn [concat]. by apply Forall2_app.
Qed.

Hypothesis nonce_length : ∀ i, zlen (random_nonce i) = NONCE_LEN.

(** The file of all edges reads as them too. *)
Theorem csr_exact n edges img blocks : 0 <= n → 2 * n < 2 ^ 64 → Forall (endpoints_ok n) edges →
  (∀ i, 0 <= i < n → list_fits (adjacency (map fwd_push edges) i) ∧ list_fits (adjacency (map rev_push edges) i)) →
  write_csr_with_cipher zstd_encode_all random_nonce target_block_bytes codec zstd_level cipher n edges = Ok (img, blocks) →
  44 * blocks <= MAX_BLOCK_BYTES → fits img → ∃ t, topology_open img cipher = Ok t ∧ t_node_count t = n ∧
    ∀ i, 0 <= i < n → outgoing zstd_decode t i = Ok (adjacency (map fwd_push edges) i) ∧ incoming zstd_decode t i = Ok (adjacency (map rev_push edges) i).
Proof.
  intros Hn0 Hn He Hfit Hw Hsz Hi. unfold write_csr_with_cipher in Hw. rewrite !no_pushed in Hw by done. fold adjacency in Hw. rewrite bucket_adjacency in Hw by done. cbn [mbind result_bind app] in Hw.
  set (lf := map (adjacency (map fwd_push edges)) (seqZ 0 n)) in *. set (lr := map (adjacency (map rev_push edges)) (seqZ 0 n)) in *.
  assert (Forall list_fits lf ∧ Forall list_fits lr) as [Hf Hr] by (split; apply Forall_map, Forall_forall; intros i Hin%elem_of_seqZ; apply Hfit; lia).
  destruct (lists_encode true lf Hf) as (rf & Ef). destruct (lists_encode false lr Hr) as (rr & Er).
  change (λ l, Ok (encode_adj_reverse l)) with (encoder false) in Hw. rewrite (file_of_halves _ _ _ _ _ _ lf lr rf rr) in Hw by (eapply Forall2_impl; [done|by intros ? ? []]).
  apply bind_Ok in Hw as ([locs out] & Hw & [= ->]).
  assert (Forall (record_fits target_block_bytes) (rf ++ rr)) as Hrec.
  { apply Forall_app. split; apply Forall_forall; intros rec [i Hin]%list_elem_of_lookup_1;
      [destruct (Forall2_lookup_r _ _ _ _ _ Ef Hin) as (l & _ & _ & _ & ?)|destruct (Forall2_lookup_r _ _ _ _ _ Er Hin) as (l & _ & _ & _ & ?)]; done. }
  destruct (written_file zstd_encode_all zstd_decode random_nonce target_block_bytes codec zstd_level cipher lossless bounded nonce_length target_small
    (rf ++ rr) locs img blocks Hrec Hw Hsz Hi) as (r & fin & Ho & _ & Hfile & Hc & _).
  destruct (topology_reads n lf lr rf rr img r) as (t & Hopen & Hcount & Hout & Hin);
    [unfold zlen, lf, lr; rewrite length_map, length_seqZ; lia..|done|done|done|done| | |].
  - rewrite (total_of _ r fin Hfile), Hc, zlen_app. apply Forall2_length in Ef, Er. unfold lf, lr in Ef, Er. rewrite length_map, length_seqZ in Ef, Er. unfold zlen. lia.
  - intros i rec Hrd. apply (read_global _ r fin Hfile). by rewrite Hc.
  - exists t. split_and!; [done..|]. intros i Hi0. rewrite <- (Z2Nat.id i) by lia.
    split; [apply Hout|apply Hin]; unfold lf, lr; rewrite list_lookup_fmap, lookup_seqZ_lt by lia; done.
Qed.

(** C13: The topology that is written in bands reads as the edges it was given.  When every band
    of nodes is written to a file of its own, for outgoing and for incoming edges, and the files
    are concatenated, the result opens as a topology over all nodes, in which every node has the
    outgoing and the incoming edges that were pushed for it, in order.  The concatenation fails
    only where a cipher refuses to seal. *)
Theorem topology_exact n fwd rev bands fparts rparts : 2 * n < 2 ^ 64 → bands ≠ [] → bands_cover 0 n bands → ascends n 0 fwd → ascends n 0 rev →
  (∀ i, 0 <= i < n → list_fits (adjacency fwd i) ∧ list_fits (adjacency rev i)) →
  Forall2 (band_written true fwd) bands fparts → Forall2 (band_written false rev) bands rparts → 44 * block_total (fparts ++ rparts) <= MAX_BLOCK_BYTES →
  match concat_block_files random_nonce cipher (map fst (fparts ++ rparts)) with
  | Err e => e = Bail "AEAD encryption failed" ∧ cipher ≠ None
  | Ok (img, total) => total = 2 * n ∧ (fits img → ∃ t, topology_open img cipher = Ok t ∧ t_node_count t = n ∧
      ∀ i, 0 <= i < n → outgoing zstd_decode t i = Ok (adjacency fwd i) ∧ incoming zstd_decode t i = Ok (adjacency rev i))
  end.
Proof.
  intros Hn Hne Hc Hf Hr Hfit Hwf Hwr Hsz.
  destruct (bands_records true fwd n bands fparts 0 Hf Hc) as (Hn0 & fss & Lf & Ef & Ff); [apply Hfit|done|].
  destruct (bands_records false rev n bands rparts 0 Hr Hc) as (_ & rss & Lr & Er & Fr); [apply Hfit|done|]. rewrite Z.sub_0_r in *.
  assert (fss ++ rss ≠ []) as Hne' by (destruct fss, bands; done).
  pose proof (concat_reads zstd_encode_all zstd_decode target_block_bytes codec zstd_level cipher lossless bounded target_small random_nonce nonce_length
    (fss ++ rss) (fparts ++ rparts) Hne' (Forall2_app Ff Fr) Hsz) as H.
  destruct (concat_block_files _ _ _) as [[img total]|e]; [|done]. destruct H as [Ht H]. rewrite concat_app in *.
  assert (total = 2 * n) as Etot.
  { rewrite Ht, zlen_app. apply Forall2_length in Ef, Er. rewrite length_map, length_seqZ in Ef, Er. unfold zlen. lia. }
  split; [done|]. intros Hi. destruct (H Hi) as (r & Ho & Htr & Hread).
  destruct (topology_reads n (map (adjacency fwd) (seqZ 0 n)) (map (adjacency rev) (seqZ 0 n)) (concat fss) (concat rss) img r)
    as (t & Hopen & Hcount & Hout & Hin); [unfold zlen; rewrite length_map, length_seqZ; lia..|done|done|done|done|by rewrite Htr|done|].
  exists t. split_and!; [done..|]. intros i Hi0. rewrite <- (Z2Nat.id i) by lia.
  split; [apply Hout|apply Hin]; rewrite list_lookup_fmap, lookup_seqZ_lt by lia; done.
Qed.
End exact.

(** * Witnesses *)

Section witness.
#[local] Existing Instance toy_crypto.
#[local] Existing Instance toy_crypto_laws.

Definition example_edges : list Edge := [mkEdge 0 1 4 0; mkEdge 0 2 9 1; mkEdge 2 0 4 2].
Definition example_fwd : list (Z * Adj) := map fwd_push example_edges.
Definition example_rev : list (Z * Adj) := [(0, mkAdj 4 2 2); (1, mkAdj 4 0 0); (2, mkAdj 9 0 1)].
Definition example_bands : list (Z * Z) := [(0, 2); (2, 3)].

Lemma example_rev_adjacency i : adjacency example_rev i = adjacency (map rev_push example_edges) i.
Proof.
  unfold example_rev, example_edges. cbn [map]. unfold rev_push. cbn [e_src e_dst e_reltype e_id]. unfold adjacency. rewrite !pushed_cons.
  destruct (Z.eqb_spec 0 i), (Z.eqb_spec 1 i), (Z.eqb_spec 2 i); (done || lia).
Qed.

Lemma csr_stream_equiv_witness :
  stream_csr stored_encode example_block_nonces 3 Zstd 3 example_block_key 3 example_fwd example_rev =
    write_csr_with_cipher stored_encode example_block_nonces 3 Zstd 3 example_block_key 3 example_edges ∧
  is_ok (write_csr_with_cipher stored_encode example_block_nonces 3 Zstd 3 example_block_key 3 example_edges) = true.
Proof.
  split; [|vm_compute; reflexivity].
  apply (csr_stream_equiv stored_encode example_block_nonces 3 Zstd 3 example_block_key 3 example_edges example_fwd example_rev ltac:(done)
    ltac:(repeat (apply Forall_cons; split); [..|by apply Forall_nil]; repeat split; cbn; lia) ltac:(repeat split; cbn; lia) ltac:(repeat split; cbn; lia)
    ltac:(done) example_rev_adjacency).
Defined.

Definition example_band (forward : bool) (pushes : list (Z * Adj)) (band : Z * Z) : bytes * Z :=
  match band_csr stored_encode example_block_nonces 3 Zstd 3 example_block_key forward band.1 band.2 (band_of band.1 band.2 pushes) with
  | Ok part => part
  | Err _ => ([], 0)
  end.
Definition example_parts : list (bytes * Z) := map (example_band true example_fwd) example_bands ++ map (example_band false example_rev) example_bands.
Definition example_topology : bytes :=
  match concat_block_files example_block_nonces example_block_key (map fst example_parts) with Ok (img, _) => img | Err _ => [] end.

Lemma example_topology_runs : concat_block_files example_block_nonces example_block_key (map fst example_parts) = Ok (example_topology, 6).
Proof. vm_compute. reflexivity. Qed.

Lemma example_topology_fits : fits example_topology.
Proof. unfold fits. apply Z.ltb_lt. vm_compute. reflexivity. Qed.

Lemma example_bands_written forward pushes : pushes = example_fwd ∧ forward = true ∨ pushes = example_rev ∧ forward = false →
  Forall2 (band_written stored_encode 3 Zstd 3 example_block_key forward pushes) example_bands (map (example_band forward pushes) example_bands).
Proof.
  intros [[-> ->]|[-> ->]]; unfold example_bands; cbn [map]; repeat (apply Forall2_cons; split); try apply Forall2_nil_2.
  all: split; [unfold fits; apply Z.ltb_lt; vm_compute; reflexivity|]; exists example_block_nonces; split; [exact example_block_nonce_length|vm_compute; reflexivity].
Qed.

Lemma example_lists_fit i : 0 <= i < 3 → list_fits 3 (adjacency example_fwd i) ∧ list_fits 3 (adjacency example_rev i).
Proof.
  intros Hi. assert (i = 0 ∨ i = 1 ∨ i = 2) as [->|[->| ->]] by lia.
  all: split; (split; [split; [|done]|apply Z.leb_le; reflexivity]); cbn; repeat (apply Forall_cons; split); try apply Forall_nil_2; repeat split; cbn; lia.
Qed.

Lemma topology_exact_witness : ∃ t, topology_open example_topology example_block_key = Ok t ∧ t_node_count t = 3 ∧
  outgoing stored_decode t 0 = Ok [mkAdj 4 1 0; mkAdj 9 2 1] ∧ incoming stored_decode t 0 = Ok [mkAdj 4 2 2].
Proof.
  pose proof (topology_exact stored_encode stored_decode example_block_nonces 3 Zstd 3 example_block_key stored_lossless stored_bounded
    ltac:(apply Z.leb_le; reflexivity) example_block_nonce_length 3 example_fwd example_rev example_bands
    (map (example_band true example_fwd) example_bands) (map (example_band false example_rev) example_bands)
    ltac:(lia) ltac:(done) ltac:(repeat split; cbn; lia) ltac:(repeat split; cbn; lia) ltac:(repeat split; cbn; lia) example_lists_fit
    (example_bands_written true example_fwd ltac:(by left)) (example_bands_written false example_rev ltac:(by right))
    ltac:(apply Z.leb_le; vm_compute; reflexivity)) as H.
  fold example_parts in H. rewrite example_topology_runs in H. destruct H as [_ H]. destruct (H example_topology_fits) as (t & Ho & Hn & Hr). exists t.
  split; [exact Ho|]. split; [exact Hn|]. exact (Hr 0 ltac:(lia)).
Defined.
End witness.
