(* ===== verification/Bits.v ===== *)
(** Bitmaps and packed bits: the primitives of crates/graph-format/src/plane.rs that the
    plane codec and the degree column share.

    A bitmap is a list of [u64] words.  [ones] lists the positions of its one-bits in
    ascending order, which is what the sampled [select1] has to agree with.  An index out of
    range, a panic of the source, is [None]. *)

From S2P Require Import Prelude.

Definition SELECT_SAMPLE : nat := 64.

(** ** Words *)

(** The positions of the one-bits of a word. *)
Definition word_bits (w : Z) : list nat := filter (λ b, Z.testbit w (Z.of_nat b) = true) (seq 0 64).

(** [u64::count_ones], [u64::trailing_zeros] and [w & (w - 1)]. *)
Definition count_ones (w : Z) : nat := length (word_bits w).
Definition trailing_zeros (w : Z) : nat := default 64%nat (head (word_bits w)).
Definition clear_lowest (w : Z) : Z := Z.land w (as_u64 (w - 1)).

(** The [loop] of [select_in_word]; a word has at most 64 one-bits to pass. *)
Fixpoint select_in_word_loop (fuel : nat) (w : Z) (k : nat) : nat :=
  match fuel with
  | O => trailing_zeros w
  | S fuel => if (k =? 0)%nat then trailing_zeros w else select_in_word_loop fuel (clear_lowest w) (k - 1)
  end.
Definition select_in_word (w : Z) (k : nat) : nat := select_in_word_loop 64 w k.

(** [highs[wi] & (!0 << boff)]. *)
Definition mask_from (w : Z) (boff : nat) : Z := Z.land w (as_u64 (Z.shiftl (2 ^ 64 - 1) (Z.of_nat boff))).

(** ** Low bits *)

Definition low_bits (universe m : Z) : Z :=
  if (universe <? m) || (m =? 0) then 0 else Z.log2 (universe / m).

Definition MAX_LOW_BITS : Z := 63.

Definition check_low_bits (what : string) (l : Z) : result unit :=
  if MAX_LOW_BITS <? l then Err (EfLowBitsWidth what l) else Ok tt.

(** [v[p / 8] |= 1 << (p % 8)] of a byte vector, and the same of a word vector. *)
Definition set_bit (width p : nat) (v : list Z) : list Z :=
  alter (λ x, Z.lor x (Z.shiftl 1 (Z.of_nat (p mod width)))) (p / width)%nat v.

(** [for b in 0..l]. *)
Definition write_low (lows : bytes) (bitoff : nat) (v l : Z) : bytes :=
  foldl (λ lows b, if negb (Z.land (Z.shiftr v (Z.of_nat b)) 1 =? 0) then set_bit 8 (bitoff + b) lows else lows)
    lows (seq 0 (Z.to_nat l)).

Definition read_low (lows : bytes) (l : Z) (i : nat) : option Z :=
  if l =? 0 then Some 0
  else
    let bit := (i * Z.to_nat l)%nat in
    let byte := (bit / 8)%nat in
    let shift := (bit mod 8)%nat in
    if (length lows <? byte)%nat then None
    else
      let buf := take 8 (drop byte lows) in
      let word := le_val (buf ++ replicate (8 - length buf) 0) in
      Some (Z.land (Z.shiftr word (Z.of_nat shift)) (Z.shiftl 1 l - 1)).

(** ** Select *)

(** The [while ww != 0] of [build_sample]; the flag says that the function has returned. *)
Fixpoint sample_word (fuel m wi : nat) (ww : Z) (ones : nat) (sample : list Z) : nat * list Z * bool :=
  if ww =? 0 then (ones, sample, false)
  else match fuel with
  | O => (ones, sample, false)
  | S fuel =>
      let sample :=
        if (ones mod SELECT_SAMPLE =? 0)%nat
        then sample ++ [as_u32 (Z.of_nat (wi * 64 + trailing_zeros ww))] else sample in
      let ones := S ones in
      let ww := clear_lowest ww in
      if (ones =? m)%nat then (ones, sample, true) else sample_word fuel m wi ww ones sample
  end.

Fixpoint sample_words (m wi : nat) (highs : list Z) (ones : nat) (sample : list Z) : list Z :=
  match highs with
  | [] => sample
  | w :: highs =>
      let '(ones, sample, stop) := sample_word 64 m wi w ones sample in
      if stop then sample else sample_words m (S wi) highs ones sample
  end.

Definition build_sample (highs : list Z) (m : nat) : list Z := sample_words m 0 highs 0 [].

(** The [loop] of [select1]; a pass moves to the next word, and there is none past the end. *)
Fixpoint select_loop (fuel : nat) (highs : list Z) (wi : nat) (w : Z) (remaining : nat) : option nat :=
  match fuel with
  | O => None
  | S fuel =>
      let c := count_ones w in
      if (remaining <=? c)%nat then Some (wi * 64 + select_in_word w (remaining - 1))%nat
      else w ← highs !! S wi; select_loop fuel highs (S wi) w (remaining - c)
  end.

Definition select1 (highs sample : list Z) (i : nat) : option nat :=
  let s := (i / SELECT_SAMPLE)%nat in
  start ← sample !! s;
  let start := Z.to_nat start in
  let ones_at_start := (s * SELECT_SAMPLE)%nat in
  if (i =? ones_at_start)%nat then Some start
  else
    let remaining := (i - ones_at_start)%nat in
    let wi := ((start + 1) / 64)%nat in
    w ← highs !! wi;
    select_loop (S (length highs)) highs wi (mask_from w ((start + 1) mod 64)) remaining.

(** ** The positions of the one-bits *)

Fixpoint ones_from (wi : nat) (words : list Z) : list nat :=
  match words with
  | [] => []
  | w :: words => map (λ b, wi * 64 + b)%nat (word_bits w) ++ ones_from (S wi) words
  end.
Definition ones (words : list Z) : list nat := ones_from 0 words.

(** * Words *)

Lemma elem_of_word_bits w b : b ∈ word_bits w ↔ (b < 64)%nat ∧ Z.testbit w (Z.of_nat b) = true.
Proof. unfold word_bits. rewrite list_elem_of_filter, elem_of_seq. split; intros []; split; auto; lia. Qed.

Lemma word_bits_sorted w : StronglySorted lt (word_bits w).
Proof.
  unfold word_bits. generalize 64%nat as n. intros n. generalize 0%nat. induction n as [|n IH]; intros s; [constructor|].
  cbn [seq]. rewrite filter_cons. case_decide; [|apply IH]. constructor; [apply IH|].
  apply Forall_forall. intros x [_ Hx]%list_elem_of_filter. apply elem_of_seq in Hx. lia.
Qed.

(** Strictly ascending lists with the same elements are equal. *)
Lemma sorted_unique (l k : list nat) : StronglySorted lt l → StronglySorted lt k → (∀ x, x ∈ l ↔ x ∈ k) → l = k.
Proof.
  intros Hl. revert k. induction Hl as [|x l Hl IH Hx]; intros k Hk Heq.
  { destruct k as [|y k]; [done|]. assert (y ∈ []) as Hn by (apply Heq; left). by apply elem_of_nil in Hn. }
  destruct k as [|y k]; [assert (x ∈ []) as Hn by (apply Heq; left); by apply elem_of_nil in Hn|].
  apply StronglySorted_inv in Hk as [Hk Hy]. rewrite Forall_forall in Hx, Hy.
  assert (x = y) as ->.
  { pose proof (proj1 (Heq x) (list_elem_of_here _ _)) as [?|Hin%Hy]%elem_of_cons; [done|].
    pose proof (proj2 (Heq y) (list_elem_of_here _ _)) as [?|Hin'%Hx]%elem_of_cons; [done|]. lia. }
  f_equal. apply IH; [done|]. intros z. specialize (Heq z). rewrite !elem_of_cons in Heq.
  split; intros Hz; [specialize (Hx _ Hz)|specialize (Hy _ Hz)]; destruct Heq as [H1 H2].
  - destruct (H1 (or_intror Hz)); [lia|done].
  - destruct (H2 (or_intror Hz)); [lia|done].
Qed.

Lemma word_bits_nil w : is_u64 w → word_bits w = [] → w = 0.
Proof.
  intros Hw E. apply Z.bits_inj'. intros b Hb. rewrite Z.bits_0.
  destruct (Z.testbit w b) eqn:Ht; [|done]. destruct (Z.le_gt_cases 64 b) as [Hge|Hlt].
  - rewrite Z.bits_above_log2 in Ht; [done|unfold is_u64 in Hw; lia|].
    destruct (decide (w = 0)) as [->|]; [cbn; lia|]. eapply Z.lt_le_trans; [|exact Hge].
    apply Z.log2_lt_pow2; unfold is_u64 in Hw; lia.
  - assert (Z.to_nat b ∈ word_bits w) as Hin.
    { apply elem_of_word_bits. rewrite Z2Nat.id by lia. split; [lia|done]. }
    rewrite E in Hin. by apply elem_of_nil in Hin.
Qed.

(** [w = a * 2^(t+1) + 2^t] when [t] is the lowest one-bit. *)
Lemma lowest_split w t : 0 <= t → Z.testbit w t = true → (∀ b, 0 <= b < t → Z.testbit w b = false) →
  w = (w / 2 ^ (t + 1)) * 2 ^ (t + 1) + 2 ^ t.
Proof.
  intros Ht H1 H0. rewrite (Z.div_mod w (2 ^ (t + 1))) at 1 by (apply Z.pow_nonzero; lia).
  rewrite (Z.mul_comm (2 ^ (t + 1))). f_equal. apply Z.bits_inj'. intros b Hb.
  rewrite Z.pow2_bits_eqb by lia. destruct (Z.lt_ge_cases b (t + 1)).
  - rewrite Z.mod_pow2_bits_low by lia. destruct (Z.eqb_spec t b) as [<-|]; [done|]. apply H0. lia.
  - rewrite Z.mod_pow2_bits_high by lia. symmetry. apply Z.eqb_neq. lia.
Qed.

Lemma clear_lowest_testbit w t b : is_u64 w → 0 <= t < 64 → 0 <= b → Z.testbit w t = true →
  (∀ b, 0 <= b < t → Z.testbit w b = false) →
  Z.testbit (clear_lowest w) b = Z.testbit w b && negb (b =? t).
Proof.
  intros Hw Ht Hb H1 H0. pose proof (lowest_split w t ltac:(lia) H1 H0) as E.
  assert (0 < 2 ^ t) by (apply Z.pow_pos_nonneg; lia).
  assert (2 ^ (t + 1) = 2 * 2 ^ t) as Ep by (rewrite Z.pow_add_r by lia; lia).
  assert (0 <= w / 2 ^ (t + 1)) by (apply Z.div_pos; unfold is_u64 in Hw; lia).
  unfold clear_lowest. rewrite as_u64_id by (unfold is_u64 in *; nia).
  rewrite Z.land_spec. destruct (Z.lt_trichotomy b t) as [Hlt|[->|Hgt]].
  - by rewrite H0 by lia.
  - rewrite H1, Z.eqb_refl. cbn [andb negb]. rewrite E.
    replace (w / 2 ^ (t + 1) * 2 ^ (t + 1) + 2 ^ t - 1) with ((2 ^ t - 1) + w / 2 ^ (t + 1) * 2 ^ (t + 1)) by lia.
    rewrite <- (Z.mod_pow2_bits_low _ (t + 1)) by lia. rewrite Z_mod_plus_full, Z.mod_small by lia.
    rewrite Z.testbit_eqb by lia. rewrite Z.div_small by lia. done.
  - rewrite (proj2 (Z.eqb_neq b t)) by lia. cbn [negb]. rewrite andb_true_r.
    assert (Z.testbit (w - 1) b = Z.testbit w b) as ->; [|by rewrite andb_diag].
    rewrite !(Z.testbit_eqb _ b) by lia. do 2 f_equal.
    assert (2 ^ b = 2 ^ (t + 1) * 2 ^ (b - (t + 1))) as -> by (rewrite <- Z.pow_add_r by lia; f_equal; lia).
    rewrite <- !Z.div_div by (try apply Z.pow_pos_nonneg; lia). f_equal. set (a := w / 2 ^ (t + 1)) in *. replace (w - 1) with ((2 ^ t - 1) + a * 2 ^ (t + 1)) by lia.
    rewrite Z.div_add, Z.div_small by lia. lia.
Qed.

Lemma land_u64 w x : is_u64 w → is_u64 (Z.land w x).
Proof.
  intros Hw. assert (Z.land w x = as_u64 (Z.land w x)) as ->; [|apply as_u64_range].
  unfold as_u64. rewrite <- Z.land_ones by lia. rewrite <- (as_u64_id w Hw) at 1. unfold as_u64.
  rewrite <- Z.land_ones by lia. rewrite <- !Z.land_assoc. f_equal. apply Z.land_comm.
Qed.

Lemma clear_lowest_u64 w : is_u64 w → is_u64 (clear_lowest w).
Proof. apply land_u64. Qed.

(** Clearing the lowest one-bit drops the head of the list. *)
Lemma word_bits_clear w t bs : is_u64 w → word_bits w = t :: bs → word_bits (clear_lowest w) = bs.
Proof.
  intros Hw E. pose proof (word_bits_sorted w) as Hs. rewrite E in Hs. apply StronglySorted_inv in Hs as [Hs Ht].
  assert (∀ b, b ∈ word_bits w ↔ b = t ∨ b ∈ bs) as Hin by (intros b; rewrite E; apply elem_of_cons).
  rewrite Forall_forall in Ht. destruct (proj1 (elem_of_word_bits w t)) as [Hlt H1]; [apply Hin; by left|].
  assert (∀ b, 0 <= b < Z.of_nat t → Z.testbit w b = false) as H0.
  { intros b Hb. destruct (Z.testbit w b) eqn:Hbit; [|done].
    assert (Z.to_nat b ∈ word_bits w) as [?|Hb'%Ht]%Hin; [|lia..].
    apply elem_of_word_bits. rewrite Z2Nat.id by lia. split; [lia|done]. }
  apply sorted_unique; [apply word_bits_sorted|done|]. intros b.
  rewrite elem_of_word_bits. split.
  - intros [Hb Hbit]. rewrite (clear_lowest_testbit w (Z.of_nat t)) in Hbit by (done || lia).
    apply andb_true_iff in Hbit as [Hbit Hne]. assert (b ∈ word_bits w) as [->|?]%Hin; [by apply elem_of_word_bits| |done].
    rewrite Z.eqb_refl in Hne. done.
  - intros Hb. destruct (proj1 (elem_of_word_bits w b)) as [Hb1 Hb2]; [apply Hin; by right|]. split; [done|].
    rewrite (clear_lowest_testbit w (Z.of_nat t)), Hb2 by (done || lia).
    specialize (Ht b Hb). rewrite (proj2 (Z.eqb_neq _ _)) by lia. done.
Qed.

Lemma select_in_word_spec fuel w k : is_u64 w → (k <= fuel)%nat → (k < count_ones w)%nat →
  word_bits w !! k = Some (select_in_word_loop fuel w k).
Proof.
  revert w k. induction fuel as [|fuel IH]; intros w k Hw Hk Hc; unfold count_ones in Hc;
    destruct (word_bits w) as [|t bs] eqn:E; try (cbn [length] in Hc; lia).
  - destruct k; [|lia]. cbn. unfold trailing_zeros. by rewrite E.
  - cbn [select_in_word_loop]. destruct k as [|k]; cbn [Nat.eqb].
    { unfold trailing_zeros. by rewrite E. }
    pose proof (word_bits_clear w t bs Hw E) as Eb. cbn [lookup list_lookup]. rewrite <- Eb. replace (S k - 1)%nat with k by lia.
    apply IH; [by apply clear_lowest_u64|lia|]. unfold count_ones. rewrite Eb. cbn [length] in Hc. lia.
Qed.

Lemma count_ones_le w : (count_ones w <= 64)%nat.
Proof. unfold count_ones, word_bits. rewrite <- (length_seq 64 0). apply length_filter. Qed.

Lemma word_bits_mask w boff : is_u64 w → (boff < 64)%nat → word_bits (mask_from w boff) = filter (λ b, (boff <= b)%nat) (word_bits w).
Proof.
  intros Hw Hb. apply sorted_unique; [apply word_bits_sorted| |].
  { pose proof (word_bits_sorted w) as Hs. induction Hs as [|x l Hl IH Hx]; [constructor|].
    rewrite filter_cons. case_decide; [|done]. constructor; [done|].
    apply Forall_forall. intros y [_ Hy]%list_elem_of_filter. by rewrite Forall_forall in Hx; apply Hx. }
  intros b. rewrite list_elem_of_filter, !elem_of_word_bits. unfold mask_from, as_u64.
  assert (∀ b, (b < 64)%nat → Z.testbit (Z.land w ((Z.shiftl (2 ^ 64 - 1) (Z.of_nat boff)) mod 2 ^ 64)) (Z.of_nat b) =
    Z.testbit w (Z.of_nat b) && (boff <=? b)%nat) as Hbit.
  { intros c Hc. rewrite Z.land_spec, Z.mod_pow2_bits_low, Z.shiftl_spec by lia. f_equal.
    change (2 ^ 64 - 1) with (Z.ones 64). destruct (Nat.leb_spec boff c).
    - apply Z.ones_spec_low. lia.
    - apply Z.testbit_neg_r. lia. }
  split.
  - intros [H1 H2]. rewrite Hbit in H2 by done. apply andb_true_iff in H2 as [? ?%Nat.leb_le]. done.
  - intros (H1 & H2 & H3). split; [done|]. rewrite Hbit, H3 by done. by apply Nat.leb_le.
Qed.

Lemma mask_from_u64 w boff : is_u64 w → is_u64 (mask_from w boff).
Proof. apply land_u64. Qed.

(** * Bitmaps *)

Lemma elem_of_ones_from wi ws p : p ∈ ones_from wi ws →
  (64 * wi <= p < 64 * (wi + length ws))%nat.
Proof.
  revert wi. induction ws as [|w ws IH]; intros wi; cbn [ones_from length]; [by intros ?%elem_of_nil|].
  intros [Hp|Hp%IH]%elem_of_app; [|lia]. apply list_elem_of_In, in_map_iff in Hp as (b & <- & Hb%list_elem_of_In).
  apply elem_of_word_bits in Hb. lia.
Qed.

Lemma StronglySorted_app_lt (l k : list nat) : StronglySorted lt l → StronglySorted lt k →
  (∀ x y, x ∈ l → y ∈ k → (x < y)%nat) → StronglySorted lt (l ++ k).
Proof.
  induction 1 as [|x l Hl IH Hx]; intros Hk Hlt; [done|]. cbn [app]. constructor.
  - apply IH; [done|]. intros y z Hy. apply Hlt. by right.
  - apply Forall_app. split; [done|]. apply Forall_forall. intros y Hy. apply Hlt; [left|done].
Qed.

Lemma map_sorted (f : nat → nat) l : (∀ x y, (x < y)%nat → (f x < f y)%nat) → StronglySorted lt l → StronglySorted lt (map f l).
Proof.
  intros Hf. induction 1 as [|x l Hl IH Hx]; cbn [map]; constructor; [done|].
  apply Forall_map. eapply Forall_impl; [exact Hx|]. auto.
Qed.

Lemma ones_from_sorted wi ws : StronglySorted lt (ones_from wi ws).
Proof.
  revert wi. induction ws as [|w ws IH]; intros wi; [constructor|]. cbn [ones_from].
  apply StronglySorted_app_lt; [apply map_sorted; [lia|apply word_bits_sorted]|apply IH|].
  intros x y Hx Hy%elem_of_ones_from. apply list_elem_of_In, in_map_iff in Hx as (b & <- & Hb%list_elem_of_In).
  apply elem_of_word_bits in Hb. lia.
Qed.

Lemma ones_from_split wi ws k w : ws !! k = Some w →
  ones_from wi ws = ones_from wi (take k ws) ++ map (λ b, (wi + k) * 64 + b)%nat (word_bits w) ++
    ones_from (wi + S k) (drop (S k) ws).
Proof.
  revert wi k. induction ws as [|v ws IH]; intros wi [|k]; cbn [lookup list_lookup]; try done.
  - intros [= ->]. cbn [take drop ones_from]. rewrite drop_0. by rewrite Nat.add_0_r, Nat.add_1_r.
  - intros H. change (take (S k) (v :: ws)) with (v :: take k ws). change (drop (S (S k)) (v :: ws)) with (drop (S k) ws).
    cbn [ones_from]. rewrite (IH (S wi) k H), <- app_assoc.
    replace (S wi + k)%nat with (wi + S k)%nat by lia. by replace (S wi + S k)%nat with (wi + S (S k))%nat by lia.
Qed.

(** ** The sample *)

(** Every 64th of the positions, counting from [o]. *)
Fixpoint pick (o : nat) (ps : list nat) : list Z :=
  match ps with
  | [] => []
  | p :: ps => (if (o mod SELECT_SAMPLE =? 0)%nat then [as_u32 (Z.of_nat p)] else []) ++ pick (S o) ps
  end.

Lemma sample_word_spec fuel m wi ww o acc : is_u64 ww → (count_ones ww <= fuel)%nat → (o + count_ones ww <= m)%nat →
  sample_word fuel m wi ww o acc =
    ((o + count_ones ww)%nat, acc ++ pick o (map (λ b, wi * 64 + b)%nat (word_bits ww)),
     (negb (count_ones ww =? 0) && (o + count_ones ww =? m))%nat).
Proof.
  revert ww o acc. induction fuel as [|fuel IH]; intros ww o acc Hw Hf Hm; unfold count_ones in *;
    destruct (word_bits ww) as [|t bs] eqn:E; cbn [length] in *; try lia.
  1,2: apply word_bits_nil in E as ->; [|done]; cbn; by rewrite app_nil_r, Nat.add_0_r.
  destruct (Z.eqb_spec ww 0) as [->|Hz]; [done|]. cbn [sample_word]. rewrite (proj2 (Z.eqb_neq ww 0) Hz).
  pose proof (word_bits_clear ww t bs Hw E) as Eb.
  assert (trailing_zeros ww = t) as -> by (unfold trailing_zeros; by rewrite E).
  cbn [map pick]. set (acc' := if (o mod SELECT_SAMPLE =? 0)%nat then _ else acc).
  assert (acc' = acc ++ (if (o mod SELECT_SAMPLE =? 0)%nat then [as_u32 (Z.of_nat (wi * 64 + t))] else [])) as Ea.
  { unfold acc'. case_match; [done|by rewrite app_nil_r]. }
  destruct (Nat.eqb_spec (S o) m) as [Hstop|Hgo].
  - assert (bs = []) as -> by (destruct bs; [done|cbn [length] in *; lia]). cbn [map pick length]. rewrite app_nil_r, Ea.
    rewrite Nat.add_1_r, Hstop, Nat.eqb_refl. done.
  - rewrite (IH (clear_lowest ww) (S o) acc'); [|by apply clear_lowest_u64|rewrite Eb; lia|rewrite Eb; lia].
    rewrite Eb, Ea, <- app_assoc. replace (S o + length bs)%nat with (o + S (length bs))%nat by lia.
    f_equal. destruct bs; cbn [length Nat.eqb negb andb]; [|done].
    symmetry. apply Nat.eqb_neq. lia.
Qed.

Lemma sample_words_spec m wi ws o acc : Forall is_u64 ws → (o + length (ones_from wi ws))%nat = m →
  sample_words m wi ws o acc = acc ++ pick o (ones_from wi ws).
Proof.
  intros Hws. revert wi o acc. induction Hws as [|w ws Hw Hws IH]; intros wi o acc Hm; cbn [sample_words ones_from] in *.
  { by rewrite app_nil_r. }
  rewrite length_app, length_map in Hm. fold (count_ones w) in Hm.
  rewrite sample_word_spec by (done || apply count_ones_le || lia).
  assert (∀ ps qs o, pick o (ps ++ qs) = pick o ps ++ pick (o + length ps) qs) as Hpick.
  { intros ps qs. induction ps as [|p ps IHp]; intros k; cbn [app pick length]; [by rewrite Nat.add_0_r|].
    rewrite IHp, <- app_assoc. by replace (S k + length ps)%nat with (k + S (length ps))%nat by lia. }
  rewrite Hpick, length_map. fold (count_ones w).
  destruct (negb _ && _) eqn:Es.
  - apply andb_true_iff in Es as [_ Es%Nat.eqb_eq]. assert (ones_from (S wi) ws = []) as ->; [|cbn [pick]; by rewrite app_nil_r].
    apply length_zero_iff_nil. lia.
  - rewrite IH, <- app_assoc by lia. done.
Qed.

Lemma pick_lookup o ps s :
  pick o ps !! s = (λ p, as_u32 (Z.of_nat p)) <$> ps !! (64 * s + (64 - o mod 64) mod 64)%nat.
Proof.
  revert o s. induction ps as [|p ps IH]; intros o s; cbn [pick]; [done|].
  unfold SELECT_SAMPLE. pose proof (Nat.mod_upper_bound o 64 ltac:(lia)).
  assert (S o mod 64 = if (o mod 64 =? 63)%nat then 0 else S (o mod 64))%nat as HS.
  { pose proof (Nat.div_mod_eq o 64). destruct (Nat.eqb_spec (o mod 64) 63).
    - symmetry. apply (Nat.mod_unique _ _ (S (o / 64))); lia.
    - symmetry. apply (Nat.mod_unique _ _ (o / 64)); lia. }
  destruct (Nat.eqb_spec (o mod 64) 0) as [E|E].
  - rewrite E in HS |- *. cbn [Nat.eqb] in HS. change ((64 - 0) mod 64)%nat with 0%nat. rewrite Nat.add_0_r.
    destruct s as [|s]; [done|]. cbn [app]. change ((?a :: ?b) !! S s) with (b !! s). rewrite IH, HS.
    change ((64 - 1) mod 64)%nat with 63%nat. replace (64 * S s)%nat with (S (64 * s + 63)) by lia. done.
  - cbn [app]. rewrite IH, HS. replace (64 * s + (64 - o mod 64) mod 64)%nat with
      (S (64 * s + (64 - (if (o mod 64 =? 63)%nat then 0 else S (o mod 64))) mod 64)); [done|].
    rewrite (Nat.mod_small (64 - o mod 64)) by lia. destruct (Nat.eqb_spec (o mod 64) 63) as [->|]; [done|].
    rewrite Nat.mod_small by lia. lia.
Qed.

Lemma build_sample_lookup highs m s : Forall is_u64 highs → length (ones highs) = m →
  build_sample highs m !! s = (λ p, as_u32 (Z.of_nat p)) <$> ones highs !! (64 * s)%nat.
Proof.
  intros Hh Hm. unfold build_sample. rewrite sample_words_spec by done. cbn [app].
  rewrite pick_lookup. change ((64 - 0 mod 64) mod 64)%nat with 0%nat. by rewrite Nat.add_0_r.
Qed.

(** ** Select *)

Lemma select_loop_spec fuel highs wi w r : Forall is_u64 highs → is_u64 w → (1 <= r)%nat →
  (wi < length highs <= fuel + wi)%nat →
  (r <= length (map (λ b, wi * 64 + b)%nat (word_bits w) ++ ones_from (S wi) (drop (S wi) highs)))%nat →
  select_loop fuel highs wi w r =
    (map (λ b, wi * 64 + b)%nat (word_bits w) ++ ones_from (S wi) (drop (S wi) highs)) !! (r - 1)%nat.
Proof.
  intros Hh. revert wi w r. induction fuel as [|fuel IH]; intros wi w r Hw Hr Hf Hl; [lia|].
  cbn [select_loop]. rewrite length_app, length_map in Hl. fold (count_ones w) in Hl.
  destruct (Nat.leb_spec r (count_ones w)) as [Hc|Hc].
  - rewrite lookup_app_l by (rewrite length_map; fold (count_ones w); lia).
    change (map ?f ?l) with (f <$> l). rewrite list_lookup_fmap. unfold select_in_word.
    rewrite (select_in_word_spec 64 w (r - 1)) by (done || (pose proof (count_ones_le w); lia)). done.
  - rewrite lookup_app_r by (rewrite length_map; fold (count_ones w); lia). rewrite length_map. fold (count_ones w).
    destruct (highs !! S wi) as [w'|] eqn:E.
    2:{ apply lookup_ge_None in E. rewrite drop_ge in Hl by lia. cbn [ones_from length] in Hl. lia. }
    cbn [mbind option_bind]. pose proof (lookup_lt_Some _ _ _ E) as Hlt.
    assert (ones_from (S wi) (drop (S wi) highs) =
      map (λ b, S wi * 64 + b)%nat (word_bits w') ++ ones_from (S (S wi)) (drop (S (S wi)) highs)) as Eo.
    { rewrite (drop_S _ _ _ E). done. }
    rewrite Eo in Hl |- *. rewrite IH; [f_equal; lia|by eapply Forall_lookup_1|lia|lia|lia].
Qed.

(** The positions beyond [p] of an ascending list that has [p] at index [k]. *)
Lemma sorted_drop (l : list nat) k p : StronglySorted lt l → l !! k = Some p →
  drop (S k) l = filter (λ q, (p < q)%nat) l.
Proof.
  intros Hl. revert k. induction Hl as [|x l Hl IH Hx]; intros [|k]; cbn [lookup list_lookup]; try done.
  - intros [= ->]. rewrite filter_cons_False by lia. change (drop 1 (p :: l)) with (drop 0 l). rewrite drop_0.
    clear -Hx. induction Hx as [|y l Hy _ IH]; [done|]. rewrite filter_cons_True by done. by f_equal.
  - intros H. rewrite filter_cons_False; [by rewrite <- (IH k H)|]. rewrite Forall_forall in Hx.
    apply list_elem_of_lookup_2 in H. specialize (Hx _ H). lia.
Qed.

Lemma filter_ones_from wi ws p : (∀ q, q ∈ ones_from wi ws → (p < q)%nat) →
  filter (λ q, (p < q)%nat) (ones_from wi ws) = ones_from wi ws.
Proof. generalize (ones_from wi ws). intros l. induction l as [|x l IH]; intros H; [done|].
  rewrite filter_cons_True by (apply H; left). f_equal. apply IH. intros q Hq. apply H. by right. Qed.

(** What follows position [p] in a bitmap: the rest of its word, then the later words. *)
Lemma ones_after highs p wi w : wi = ((p + 1) / 64)%nat → Forall is_u64 highs → highs !! wi = Some w →
  filter (λ q, (p < q)%nat) (ones highs) =
    map (λ b, wi * 64 + b)%nat (word_bits (mask_from w ((p + 1) mod 64))) ++ ones_from (S wi) (drop (S wi) highs).
Proof.
  intros -> Hh E. set (wi := ((p + 1) / 64)%nat) in *. pose proof (Nat.div_mod_eq (p + 1) 64) as Hdm. fold wi in Hdm.
  pose proof (Nat.mod_upper_bound (p + 1) 64 ltac:(lia)) as Hmod. set (boff := ((p + 1) mod 64)%nat) in *.
  assert (is_u64 w) as Hw by by eapply Forall_lookup_1.
  unfold ones. rewrite (ones_from_split 0 highs wi w E). cbn [Nat.add]. rewrite !filter_app.
  assert (filter (λ q, (p < q)%nat) (ones_from 0 (take wi highs)) = []) as ->.
  { assert (∀ q, q ∈ ones_from 0 (take wi highs) → ¬ (p < q)%nat) as Hno.
    { intros q Hq%elem_of_ones_from. rewrite length_take in Hq. lia. }
    revert Hno. generalize (ones_from 0 (take wi highs)). intros l. induction l as [|x l IH]; intros Hno; [done|].
    rewrite filter_cons_False by (apply Hno; left). apply IH. intros q Hq. apply Hno. by right. }
  cbn [app]. f_equal.
  - rewrite word_bits_mask by done. induction (word_bits w) as [|b bs IH]; [done|]. cbn [map].
    rewrite !filter_cons. destruct (decide (p < wi * 64 + b)%nat), (decide (boff <= b)%nat); try lia; cbn [map]; by rewrite IH.
  - apply filter_ones_from. intros q Hq%elem_of_ones_from. lia.
Qed.

Lemma select1_spec highs m i : Forall is_u64 highs → length (ones highs) = m → (i < m)%nat →
  Z.of_nat (64 * length highs) <= 2 ^ 32 → select1 highs (build_sample highs m) i = ones highs !! i.
Proof.
  intros Hh Hm Hi Hsz. unfold select1. rewrite build_sample_lookup by done. unfold SELECT_SAMPLE.
  set (s := (i / 64)%nat). pose proof (Nat.div_mod_eq i 64) as Hdm. fold s in Hdm.
  destruct (lookup_lt_is_Some_2 (ones highs) (64 * s)%nat) as [start Es]; [lia|]. rewrite Es. cbn [fmap option_fmap option_map mbind option_bind].
  assert (start < 64 * length highs)%nat as Hst.
  { apply list_elem_of_lookup_2 in Es. apply elem_of_ones_from in Es. lia. }
  unfold as_u32. rewrite Z.mod_small by lia. rewrite Nat2Z.id.
  rewrite (Nat.mul_comm s 64). destruct (Nat.eqb_spec i (64 * s)) as [He|Hne]; [by rewrite He|].
  assert (64 * s < i)%nat by lia. pose proof (ones_from_sorted 0 highs) as Hsorted. fold (ones highs) in Hsorted.
  pose proof (sorted_drop _ _ _ Hsorted Es) as Hdrop.
  destruct (lookup_lt_is_Some_2 (ones highs) i) as [q Eq]; [lia|].
  assert (q ∈ filter (λ q, (start < q)%nat) (ones highs)) as [Hq Hq']%list_elem_of_filter.
  { rewrite <- Hdrop. apply list_elem_of_lookup. exists (i - S (64 * s))%nat. rewrite lookup_drop, <- Eq. f_equal. lia. }
  apply elem_of_ones_from in Hq'.
  destruct (lookup_lt_is_Some_2 highs ((start + 1) / 64)%nat) as [w Ew].
  { apply Nat.Div0.div_lt_upper_bound. lia. }
  rewrite Ew. cbn [mbind option_bind]. pose proof (lookup_lt_Some _ _ _ Ew) as Hlt.
  pose proof (ones_after highs start _ w eq_refl Hh Ew) as Hafter. rewrite <- Hdrop in Hafter.
  rewrite select_loop_spec; [|done|apply mask_from_u64; by eapply Forall_lookup_1|lia|lia|].
  - rewrite <- Hafter, lookup_drop. f_equal. lia.
  - rewrite <- Hafter, length_drop. lia.
Qed.

(** * Setting bits *)

(** Bit [q] of a vector of [width]-bit cells. *)
Definition vbit (width : nat) (v : list Z) (q : nat) : bool :=
  Z.testbit (default 0 (v !! (q / width)%nat)) (Z.of_nat (q mod width)).

Lemma length_set_bit width p v : length (set_bit width p v) = length v.
Proof. apply length_alter. Qed.

Lemma vbit_set_bit width p v q : (0 < width)%nat → (p / width < length v)%nat →
  vbit width (set_bit width p v) q = vbit width v q || (q =? p)%nat.
Proof.
  intros Hw Hp. unfold vbit, set_bit.
  pose proof (Nat.div_mod_eq p width). pose proof (Nat.div_mod_eq q width).
  pose proof (Nat.mod_upper_bound p width ltac:(lia)). pose proof (Nat.mod_upper_bound q width ltac:(lia)).
  destruct (decide (q / width = p / width)%nat) as [E|E].
  - rewrite E. destruct (lookup_lt_is_Some_2 v (p / width)%nat Hp) as [x Hx].
    rewrite list_lookup_alter_eq, Hx. simpl. rewrite Z.lor_spec. f_equal. rewrite Z.shiftl_1_l, Z.pow2_bits_eqb by lia.
    destruct (Nat.eqb_spec q p) as [->|Hne]; [by apply Z.eqb_eq|]. apply Z.eqb_neq. rewrite E in *. nia.
  - rewrite list_lookup_alter_ne by done. destruct (Nat.eqb_spec q p) as [->|]; [done|]. by rewrite orb_false_r.
Qed.

Lemma log2_width w a : 0 < w → 0 <= a < 2 ^ w → Z.log2 a < w.
Proof. intros Hw Ha. destruct (decide (a = 0)) as [->|]; [done|]. apply Z.log2_lt_pow2; lia. Qed.

Lemma lor_width w a b : 0 < w → 0 <= a < 2 ^ w → 0 <= b < 2 ^ w → 0 <= Z.lor a b < 2 ^ w.
Proof.
  intros Hw Ha Hb. assert (0 <= Z.lor a b) by (apply Z.lor_nonneg; lia). split; [done|].
  destruct (decide (Z.lor a b = 0)) as [->|]; [lia|]. apply Z.log2_lt_pow2; [lia|].
  rewrite Z.log2_lor by lia. pose proof (log2_width w a Hw Ha). pose proof (log2_width w b Hw Hb). lia.
Qed.

Definition cells_ok (width : nat) (v : list Z) : Prop := Forall (λ x, 0 <= x < 2 ^ Z.of_nat width) v.

Lemma set_bit_ok width p v : (0 < width)%nat → cells_ok width v → cells_ok width (set_bit width p v).
Proof.
  intros Hw Hv. apply Forall_alter; [done|]. intros x Hx Hin. apply lor_width; [lia|done|].
  rewrite Z.shiftl_1_l. pose proof (Nat.mod_upper_bound p width ltac:(lia)).
  split; [apply Z.pow_nonneg; lia|]. apply Z.pow_lt_mono_r; lia.
Qed.

Lemma vbit_zeros width n q : vbit width (replicate n 0) q = false.
Proof.
  unfold vbit. destruct (replicate n 0 !! (q / width)%nat) eqn:E; cbn; [|by rewrite Z.testbit_0_l].
  apply lookup_replicate in E as [-> _]. by rewrite Z.testbit_0_l.
Qed.

Lemma zeros_ok width n : cells_ok width (replicate n 0).
Proof. apply Forall_replicate. split; [lia|]. apply Z.pow_pos_nonneg; lia. Qed.

Lemma elem_of_ones words p : p ∈ ones words ↔ (p < 64 * length words)%nat ∧ vbit 64 words p = true.
Proof.
  pose proof (Nat.div_mod_eq p 64). pose proof (Nat.mod_upper_bound p 64 ltac:(lia)). unfold vbit. split.
  - intros Hp. pose proof (elem_of_ones_from _ _ _ Hp). split; [lia|].
    destruct (lookup_lt_is_Some_2 words (p / 64)%nat) as [w E]; [lia|]. rewrite E. cbn [default from_option]. unfold id.
    unfold ones in Hp. rewrite (ones_from_split 0 words _ w E) in Hp. cbn [Nat.add] in Hp.
    apply elem_of_app in Hp as [Hp%elem_of_ones_from|Hp]; [rewrite length_take in Hp; lia|].
    apply elem_of_app in Hp as [Hp|Hp%elem_of_ones_from]; [|lia].
    apply list_elem_of_In, in_map_iff in Hp as (b & Hb & Hin%list_elem_of_In). apply elem_of_word_bits in Hin as [? <-].
    do 2 f_equal. lia.
  - intros [Hlt Hbit]. destruct (lookup_lt_is_Some_2 words (p / 64)%nat) as [w E]; [lia|].
    rewrite E in Hbit. cbn [default from_option] in Hbit. unfold id in Hbit.
    unfold ones. rewrite (ones_from_split 0 words _ w E). cbn [Nat.add]. apply elem_of_app. right. apply elem_of_app. left.
    apply list_elem_of_In, in_map_iff. exists (p mod 64)%nat. split; [lia|]. apply list_elem_of_In, elem_of_word_bits. done.
Qed.

(** * Packed low bits *)

Lemma write_low_spec lows bitoff v l : 0 <= l → (bitoff + Z.to_nat l <= 8 * length lows)%nat → cells_ok 8 lows →
  length (write_low lows bitoff v l) = length lows ∧ cells_ok 8 (write_low lows bitoff v l) ∧
  ∀ q, vbit 8 (write_low lows bitoff v l) q =
    vbit 8 lows q || ((bitoff <=? q)%nat && (q <? bitoff + Z.to_nat l)%nat && Z.testbit v (Z.of_nat (q - bitoff))).
Proof.
  intros Hl Hb Hok. unfold write_low. remember (Z.to_nat l) as n eqn:Hn. clear Hn Hl.
  induction n as [|n IH].
  { cbn [seq foldl]. split_and!; [done|done|]. intros q. replace (_ && _ && _) with false; [by rewrite orb_false_r|].
    destruct (Nat.leb_spec bitoff q); [|done]. destruct (Nat.ltb_spec q (bitoff + 0)); [lia|done]. }
  destruct IH as (Hlen & Hok' & Hq); [lia|]. rewrite seq_S, foldl_app. cbn [foldl Nat.add].
  set (lows' := foldl _ lows (seq 0 n)) in *.
  assert (negb (Z.land (Z.shiftr v (Z.of_nat n)) 1 =? 0) = Z.testbit v (Z.of_nat n)) as ->.
  { rewrite Z.testbit_eqb, Z.shiftr_div_pow2 by lia. change 1 with (Z.ones 1) at 1. rewrite Z.land_ones by lia.
    change (2 ^ 1) with 2. pose proof (Z.mod_pos_bound (v / 2 ^ Z.of_nat n) 2 ltac:(lia)).
    destruct (Z.eqb_spec ((v / 2 ^ Z.of_nat n) mod 2) 0), (Z.eqb_spec ((v / 2 ^ Z.of_nat n) mod 2) 1); done || lia. }
  assert (∀ q, vbit 8 lows q || ((bitoff <=? q)%nat && (q <? bitoff + S n)%nat && Z.testbit v (Z.of_nat (q - bitoff))) =
    (vbit 8 lows' q || ((q =? bitoff + n)%nat && Z.testbit v (Z.of_nat n)))) as Hstep.
  { intros q. rewrite Hq, <- orb_assoc. f_equal.
    destruct (Nat.eqb_spec q (bitoff + n)) as [->|Hne]; cbn [andb].
    - rewrite (proj2 (Nat.leb_le bitoff (bitoff + n))), (proj2 (Nat.ltb_lt (bitoff + n) (bitoff + S n))),
        (proj2 (Nat.ltb_ge (bitoff + n) (bitoff + n))) by lia. cbn [andb orb]. do 2 f_equal. lia.
    - rewrite orb_false_r. f_equal. f_equal.
      destruct (Nat.ltb_spec q (bitoff + S n)), (Nat.ltb_spec q (bitoff + n)); done || lia. }
  destruct (Z.testbit v (Z.of_nat n)) eqn:Et.
  - rewrite length_set_bit. split_and!; [done|apply set_bit_ok; [lia|done]|]. intros q.
    rewrite vbit_set_bit; [|lia|rewrite Hlen; apply Nat.Div0.div_lt_upper_bound; lia].
    rewrite Hstep, andb_true_r. done.
  - split_and!; [done|done|]. intros q. rewrite Hstep, andb_false_r, orb_false_r. done.
Qed.

Lemma vbit_cons x v q : vbit 8 (x :: v) q = if (q <? 8)%nat then Z.testbit x (Z.of_nat q) else vbit 8 v (q - 8).
Proof.
  unfold vbit. destruct (Nat.ltb_spec q 8).
  - rewrite (Nat.div_small q 8), (Nat.mod_small q 8) by done. done.
  - replace q with (q - 8 + 1 * 8)%nat at 1 2 by lia. rewrite Nat.div_add, Nat.Div0.mod_add by lia.
    rewrite Nat.add_1_r. done.
Qed.

(** Bit [b] of a little-endian value is bit [b] of its bytes. *)
Lemma le_val_testbit bs b : cells_ok 8 bs → Z.testbit (le_val bs) (Z.of_nat b) = vbit 8 bs b.
Proof.
  intros Hok. revert b. induction Hok as [|x bs Hx Hok IH]; intros b.
  { unfold vbit. rewrite lookup_nil. change (le_val []) with 0. cbn [default from_option]. by rewrite !Z.testbit_0_l. }
  rewrite vbit_cons. change (2 ^ Z.of_nat 8) with 256 in Hx.
  change (le_val (x :: bs)) with (x + Z.shiftl (le_val bs) 8).
  assert (x + Z.shiftl (le_val bs) 8 = Z.lor x (Z.shiftl (le_val bs) 8)) as ->.
  { apply Z.add_nocarry_lor, Z.bits_inj_0. intros n. rewrite Z.land_spec.
    destruct (decide (n < 8)) as [Hn|Hn]; [rewrite Z.shiftl_spec_low by done; by rewrite andb_false_r|].
    rewrite (Z.bits_above_log2 x n); [done|lia|]; pose proof (log2_width 8 x ltac:(lia) Hx); lia. }
  rewrite Z.lor_spec. destruct (Nat.ltb_spec b 8).
  - rewrite Z.shiftl_spec_low by lia. by rewrite orb_false_r.
  - rewrite Z.shiftl_spec by lia. rewrite (Z.bits_above_log2 x); [|lia|pose proof (log2_width 8 x ltac:(lia) Hx); lia].
    cbn [orb]. rewrite <- IH. f_equal. lia.
Qed.

Lemma vbit_app_zeros v n q : vbit 8 (v ++ replicate n 0) q = vbit 8 v q.
Proof.
  unfold vbit. destruct (decide (q / 8 < length v)%nat).
  - by rewrite lookup_app_l.
  - rewrite lookup_app_r by lia. rewrite (lookup_ge_None_2 v) by lia. cbn [default from_option].
    destruct (replicate n 0 !! _) eqn:E; [|done]. by apply lookup_replicate in E as [-> _].
Qed.

Lemma vbit_window v k n q : vbit 8 (take n (drop k v)) q = (q <? 8 * n)%nat && vbit 8 v (8 * k + q).
Proof.
  unfold vbit. replace (8 * k + q)%nat with (q + k * 8)%nat by lia.
  rewrite Nat.div_add, Nat.Div0.mod_add by lia. pose proof (Nat.div_mod_eq q 8).
  pose proof (Nat.mod_upper_bound q 8 ltac:(lia)).
  destruct (Nat.ltb_spec q (8 * n)).
  - rewrite lookup_take_lt by lia. rewrite lookup_drop, Nat.add_comm. done.
  - rewrite lookup_take_ge by lia. by rewrite Z.testbit_0_l.
Qed.

(** What [read_low] returns, bit by bit: a field is cut off at the end of the eight bytes the function loads. *)
Lemma read_low_bits lows l i : 0 < l → cells_ok 8 lows → (i * Z.to_nat l <= 8 * length lows)%nat →
  ∃ r, read_low lows l i = Some r ∧ 0 <= r ∧ ∀ b, Z.testbit r (Z.of_nat b) =
    (Z.of_nat b <? l) && ((i * Z.to_nat l) mod 8 + b <? 64)%nat && vbit 8 lows (i * Z.to_nat l + b).
Proof.
  intros Hl Hok Hi. unfold read_low. destruct (Z.eqb_spec l 0); [lia|]. cbv zeta.
  pose proof (Nat.div_mod_eq (i * Z.to_nat l) 8) as Hdm. pose proof (Nat.mod_upper_bound (i * Z.to_nat l) 8 ltac:(lia)).
  set (bit := (i * Z.to_nat l)%nat) in *. set (byte := (bit / 8)%nat) in *. set (sh := (bit mod 8)%nat) in *.
  destruct (Nat.ltb_spec (length lows) byte); [lia|]. eexists. split; [done|].
  rewrite Z.shiftl_1_l. change (2 ^ l - 1) with (Z.pred (2 ^ l)). rewrite <- Z.ones_equiv. split.
  { apply Z.land_nonneg. right. rewrite Z.ones_equiv. pose proof (Z.pow_pos_nonneg 2 l). lia. }
  intros b. rewrite Z.land_spec, Z.shiftr_spec by lia. rewrite <- Nat2Z.inj_add, le_val_testbit.
  2:{ apply Forall_app_2; [by apply Forall_take, Forall_drop|]. apply zeros_ok. }
  rewrite vbit_app_zeros, vbit_window. rewrite andb_comm. change (8 * 8)%nat with 64%nat. rewrite (Nat.add_comm b sh).
  replace (8 * byte + (sh + b))%nat with (bit + b)%nat by lia. rewrite andb_assoc. do 2 f_equal.
  destruct (Z.ltb_spec (Z.of_nat b) l); [by rewrite Z.ones_spec_low by lia|by rewrite Z.ones_spec_high by lia].
Qed.
