(* ===== verification/EliasFano.v ===== *)
(** Elias-Fano records: what the [EfMono] of crates/graph-format/src/plane.rs and the [EfChunk]
    of crates/graph-format/src/degree_ef.rs have in common.

    A non-decreasing sequence is stored as the [l] low bits of every value, packed, and a
    bitmap with a one-bit at [(v >> l) + i] for the value [v] at index [i].  An [EfMono] counts
    its values; an [EfChunk] counts its degrees, one less than the cumulative values it
    stores. *)

From S2P Require Import Prelude Bits.

Record Ef := {
  ef_count : Z;
  ef_l : Z;
  ef_lows : bytes;
  ef_highs : list Z;
  ef_sample : list Z;
}.

(** [usize::div_ceil] and [slice::as_chunks]. *)
Definition div_ceil (a b : Z) : Z := (a + b - 1) / b.

Fixpoint as_chunks_loop (fuel k : nat) (bs : bytes) : list bytes :=
  match fuel with
  | O => []
  | S fuel => if (length bs <? k)%nat then [] else take k bs :: as_chunks_loop fuel k (drop k bs)
  end.
Definition as_chunks (k : nat) (bs : bytes) : list bytes := as_chunks_loop (length bs) k bs.

(** ** Encoding *)

Definition ef_mask (l : Z) : Z := if l =? 0 then 0 else Z.shiftl 1 l - 1.

(** The body of the encoding loops: the value [v] at index [i].  A position past the bitmap
    panics. *)
Definition ef_put (l : Z) (st : nat * list Z * bytes) (v : Z) : option (nat * list Z * bytes) :=
  let '(i, highs, lows) := st in
  let hi := Z.to_nat (Z.shiftr v l) in
  let pos := (hi + i)%nat in
  if (length highs <=? pos / 64)%nat then None
  else
    let highs := set_bit 64 pos highs in
    let lows :=
      if negb (l =? 0) then write_low lows (i * Z.to_nat l) (Z.land v (ef_mask l)) l else lows in
    Some (S i, highs, lows).

Fixpoint ef_fill (l : Z) (st : nat * list Z * bytes) (vs : list Z) : option (nat * list Z * bytes) :=
  match vs with
  | [] => Some st
  | v :: vs => st ← ef_put l st v; ef_fill l st vs
  end.

(** The empty planes of [m] values up to [universe]. *)
Definition ef_nwords (m universe l : Z) : Z := Z.max (div_ceil (Z.shiftr universe l + m) 64) 1.
Definition ef_low_bytes (m l : Z) : Z := div_ceil (m * l) 8.
Definition ef_empty (m universe l : Z) : nat * list Z * bytes :=
  (O, replicate (Z.to_nat (ef_nwords m universe l)) 0, replicate (Z.to_nat (ef_low_bytes m l)) 0).

(** ** Access *)

(** [((p - i) << l) | low]. *)
Definition ef_join (l : Z) (p i : nat) (low : Z) : Z :=
  Z.lor (as_u64 (Z.shiftl (as_u64 (Z.of_nat p - Z.of_nat i)) l)) low.

Definition ef_value_at (e : Ef) (i : nat) : option Z :=
  p ← select1 (ef_highs e) (ef_sample e) i;
  low ← read_low (ef_lows e) (ef_l e) i;
  Some (ef_join (ef_l e) p i low).

(** ** Serialisation *)

Definition ef_serialized_len (e : Ef) : Z := 9 + zlen (ef_lows e) + zlen (ef_highs e) * 8.

Definition ef_serialize (e : Ef) : bytes :=
  le_bytes 4 (ef_count e) ++ [ef_l e] ++ le_bytes 4 (as_u32 (zlen (ef_highs e))) ++ ef_lows e ++
  concat (map (le_bytes 8) (ef_highs e)).

Definition ef_resident_bytes (e : Ef) : Z := zlen (ef_lows e) + zlen (ef_highs e) * 8 + zlen (ef_sample e) * 4.

(** [highs.iter().map(|w| w.count_ones()).sum()]. *)
Definition sum_ones (highs : list Z) : nat := foldr (λ w sum, count_ones w + sum)%nat O highs.

(** A record that counts [extra] less than it stores. *)
Definition ef_deserialize (what : string) (extra : Z) (body : bytes) : result Ef :=
  if zlen body <? 9 then Err (Bail "ef body too short")
  else
    let count := le_val (take 4 body) in
    let l := nth 4 body 0 in
    _ ← check_low_bits what l;
    let nwords := le_val (take 4 (drop 5 body)) in
    let m := count + extra in
    let low_bytes := ef_low_bytes m l in
    let high_bytes := nwords * 8 in
    let need := 9 + low_bytes + high_bytes in
    if negb (zlen body =? need) then Err (Bail "ef body length")
    else
      let lows := take (Z.to_nat low_bytes) (drop 9 body) in
      let hstart := 9 + low_bytes in
      let highs := map le_val (as_chunks 8 (take (Z.to_nat high_bytes) (drop (Z.to_nat hstart) body))) in
      if negb (Z.of_nat (sum_ones highs) =? m) then Err (EfBitCount what m (Z.of_nat (sum_ones highs)))
      else Ok {| ef_count := count; ef_l := l; ef_lows := lows; ef_highs := highs;
                 ef_sample := build_sample highs (Z.to_nat m) |}.

(** * Planes *)

Lemma div_ceil_spec a b : 0 < b → 0 <= a → a <= b * div_ceil a b < a + b.
Proof. intros Hb Ha. unfold div_ceil. pose proof (Z.div_mod (a + b - 1) b ltac:(lia)).
  pose proof (Z.mod_pos_bound (a + b - 1) b Hb). lia. Qed.

Lemma ef_mask_bits l v b : 0 <= l → 0 <= v → (Z.of_nat b < l) → Z.testbit (Z.land v (ef_mask l)) (Z.of_nat b) = Z.testbit v (Z.of_nat b).
Proof.
  intros Hl Hv Hb. unfold ef_mask. destruct (Z.eqb_spec l 0); [lia|]. rewrite Z.shiftl_1_l.
  change (2 ^ l - 1) with (Z.pred (2 ^ l)). rewrite <- Z.ones_equiv, Z.land_spec, Z.ones_spec_low by lia. apply andb_true_r.
Qed.

(** The state of the encoding loop after [vs]: where the one-bits are, and the low bits. *)
Record ef_planes (l : Z) (vs : list Z) (highs : list Z) (lows : bytes) : Prop := {
  planes_highs_ok : cells_ok 64 highs;
  planes_lows_ok : cells_ok 8 lows;
  planes_ones q : vbit 64 highs q = true ↔ ∃ i v, vs !! i = Some v ∧ q = (Z.to_nat (Z.shiftr v l) + i)%nat;
  planes_low i v b : vs !! i = Some v → Z.of_nat b < l → vbit 8 lows (i * Z.to_nat l + b) = Z.testbit v (Z.of_nat b);
  planes_rest q : (length vs * Z.to_nat l <= q)%nat → vbit 8 lows q = false;
}.

Lemma lookup_snoc_inv {A} (l : list A) x i y : (l ++ [x]) !! i = Some y ↔ l !! i = Some y ∨ i = length l ∧ y = x.
Proof. rewrite lookup_snoc_Some. split; [intros [[_ ?]|[? ?]]; auto|].
  intros [H|[-> ->]]; [left; split; [by eapply lookup_lt_Some|done]|by right]. Qed.

Lemma ef_put_highs l vs highs v q : 0 <= l →
  (Z.to_nat (Z.shiftr v l) + length vs < 64 * length highs)%nat →
  (vbit 64 highs q = true ↔ ∃ i v, vs !! i = Some v ∧ q = (Z.to_nat (Z.shiftr v l) + i)%nat) →
  (vbit 64 (set_bit 64 (Z.to_nat (Z.shiftr v l) + length vs) highs) q = true ↔
    ∃ i w, (vs ++ [v]) !! i = Some w ∧ q = (Z.to_nat (Z.shiftr w l) + i)%nat).
Proof.
  intros Hl Hpos IH. rewrite vbit_set_bit; [|lia|by apply Nat.Div0.div_lt_upper_bound].
  rewrite orb_true_iff, IH, Nat.eqb_eq. setoid_rewrite lookup_snoc_inv. split.
  - intros [(i & w & ? & ?)| ->]; [by exists i, w; auto|]. exists (length vs), v. auto.
  - intros (i & w & [?|[-> ->]] & ->); [left; by exists i, w|by right].
Qed.

Lemma ef_put_lows l vs highs lows v : 0 < l → 0 <= v → ef_planes l vs highs lows →
  ((length vs + 1) * Z.to_nat l <= 8 * length lows)%nat →
  let lows' := write_low lows (length vs * Z.to_nat l) (Z.land v (ef_mask l)) l in
  length lows' = length lows ∧ cells_ok 8 lows' ∧
  (∀ i w b, (vs ++ [v]) !! i = Some w → Z.of_nat b < l → vbit 8 lows' (i * Z.to_nat l + b) = Z.testbit w (Z.of_nat b)) ∧
  (∀ q, ((length vs + 1) * Z.to_nat l <= q)%nat → vbit 8 lows' q = false).
Proof.
  intros Hl Hv [_ Hok _ Hlow Hrest] Hroom lows'.
  destruct (write_low_spec lows (length vs * Z.to_nat l) (Z.land v (ef_mask l)) l) as (Hlen & Hok' & Hbits); [lia|lia|done|].
  fold lows' in Hlen, Hok', Hbits. split_and!; [done|done| |].
  - intros i w b Hi Hb. rewrite Hbits. apply lookup_snoc_inv in Hi as [Hi|[-> ->]].
    + rewrite (Hlow i w b Hi Hb). pose proof (lookup_lt_Some _ _ _ Hi).
      rewrite (proj2 (Nat.leb_gt _ _)) by nia. by rewrite orb_false_r.
    + rewrite (Hrest (length vs * Z.to_nat l + b)%nat ltac:(lia)). rewrite (proj2 (Nat.leb_le _ _)), (proj2 (Nat.ltb_lt _ _)) by lia. cbn [andb orb].
      replace (length vs * Z.to_nat l + b - length vs * Z.to_nat l)%nat with b by lia. by apply ef_mask_bits; lia.
  - intros q Hq. rewrite Hbits, (Hrest q ltac:(lia)). cbn [orb]. rewrite (proj2 (Nat.ltb_ge q _)) by lia. by rewrite andb_false_r.
Qed.

Lemma ef_fill_app l st vs ws : ef_fill l st (vs ++ ws) = ef_fill l st vs ≫= λ st, ef_fill l st ws.
Proof. revert st. induction vs as [|v vs IH]; intros st; [done|]. cbn. destruct (ef_put l st v); [apply IH|done]. Qed.

Lemma length_write_low lows bitoff v l : length (write_low lows bitoff v l) = length lows.
Proof.
  unfold write_low. generalize (seq 0 (Z.to_nat l)). intros bits. revert lows. induction bits as [|b bits IH]; intros lows; [done|].
  cbn [foldl]. rewrite IH. destruct (negb _); [apply length_set_bit|done].
Qed.

Lemma ef_fill_length l st vs st' : ef_fill l st vs = Some st' →
  length st'.1.2 = length st.1.2 ∧ length st'.2 = length st.2.
Proof.
  revert st. induction vs as [|v vs IH]; intros [[i highs] lows]; cbn [ef_fill]; [by intros [= <-]|].
  cbn [ef_put]. destruct (_ <=? _)%nat; [done|]. cbv zeta. cbn [mbind option_bind]. intros [-> ->]%IH. cbn [fst snd].
  rewrite length_set_bit. split; [done|]. destruct (negb _); [apply length_write_low|done].
Qed.

Lemma ef_fold_planes l vs nw nl : 0 <= l → Forall (λ v, 0 <= v) vs →
  (∀ i v, vs !! i = Some v → (Z.to_nat (Z.shiftr v l) + i < 64 * nw)%nat) →
  (length vs * Z.to_nat l <= 8 * nl)%nat →
  ∃ highs lows, ef_fill l (O, replicate nw 0, replicate nl 0) vs = Some (length vs, highs, lows) ∧
    length highs = nw ∧ length lows = nl ∧ ef_planes l vs highs lows.
Proof.
  intros Hl. induction vs as [|v vs IH] using rev_ind; intros Hv Hpos Hroom.
  { exists (replicate nw 0), (replicate nl 0). split_and!; [done|apply length_replicate|apply length_replicate|].
    split; [apply zeros_ok|apply zeros_ok| |by intros i v b Hi; rewrite lookup_nil in Hi|intros; apply vbit_zeros].
    intros q. rewrite vbit_zeros. split; [done|]. by intros (i & v & ? & _). }
  apply Forall_app in Hv as [Hv [Hv1 _]%Forall_cons]. rewrite length_app in Hroom |- *. cbn [length] in *.
  destruct IH as (highs & lows & E & Hh & Hlo & Hp); [done| |lia|].
  { intros i w Hi. apply (Hpos i w). by apply lookup_app_l_Some. }
  specialize (Hpos (length vs) v). rewrite lookup_app_r, Nat.sub_diag in Hpos by done. specialize (Hpos eq_refl).
  rewrite ef_fill_app, E. cbn [mbind option_bind ef_fill ef_put].
  rewrite (proj2 (Nat.leb_gt _ _)) by (rewrite Hh; by apply Nat.Div0.div_lt_upper_bound). cbv zeta.
  eexists _, _. rewrite Nat.add_1_r. split; [reflexivity|].
  rewrite length_set_bit. split; [done|].
  assert (∀ q, vbit 64 (set_bit 64 (Z.to_nat (Z.shiftr v l) + length vs) highs) q = true ↔
    ∃ i w, (vs ++ [v]) !! i = Some w ∧ q = (Z.to_nat (Z.shiftr w l) + i)%nat) as Hq.
  { intros q. apply ef_put_highs; [done|by rewrite Hh|]. apply (planes_ones _ _ _ _ Hp). }
  destruct (Z.eqb_spec l 0) as [->|Hne]; cbn [negb].
  - split; [done|]. split; [apply set_bit_ok, Hp; lia|apply Hp|done|lia|].
    intros q _. apply (planes_rest _ _ _ _ Hp). lia.
  - destruct (ef_put_lows l vs highs lows v) as (Hlen & Hok & Hlow & Hrest); [lia|done|done|by rewrite Hlo|].
    split; [by rewrite Hlen|]. split; [apply set_bit_ok, Hp; lia|done|done|done|]. intros q. rewrite length_app. apply Hrest.
Qed.

Lemma shiftr_mono a b l : 0 <= a <= b → 0 <= l → Z.shiftr a l <= Z.shiftr b l.
Proof. intros. rewrite !Z.shiftr_div_pow2 by done. apply Z.div_le_mono; [apply Z.pow_pos_nonneg; lia|lia]. Qed.

Lemma imap_sorted (f : nat → Z → nat) vs : (∀ i j v w, vs !! i = Some v → vs !! j = Some w → (i < j)%nat → (f i v < f j w)%nat) →
  StronglySorted lt (imap f vs).
Proof.
  revert f. induction vs as [|v vs IH]; intros f Hf; [constructor|]. cbn [imap]. constructor.
  - apply IH. intros i j a b Hi Hj Hij. apply (Hf (S i) (S j)); [done|done|lia].
  - apply Forall_lookup. intros j x. rewrite list_lookup_imap. intros (w & Hw & ->)%fmap_Some. apply (Hf O (S j)); [done|done|lia].
Qed.

Lemma sorted_lookup_le (vs : list Z) i j v w : StronglySorted Z.le vs → vs !! i = Some v → vs !! j = Some w → (i <= j)%nat → v <= w.
Proof.
  intros Hs. revert i j. induction Hs as [|x vs Hs IH Hx]; intros i j; [by rewrite lookup_nil|].
  destruct i as [|i], j as [|j]; cbn; intros Hi Hj Hij; simplify_eq; [lia| |lia|eapply IH; eauto; lia].
  rewrite Forall_forall in Hx. apply Hx. by eapply list_elem_of_lookup_2.
Qed.

(** The one-bits of an encoded sequence, in order. *)
Lemma planes_ones_list l vs highs lows : 0 <= l → ef_planes l vs highs lows → Forall (λ v, 0 <= v) vs →
  StronglySorted Z.le vs → (∀ i v, vs !! i = Some v → (Z.to_nat (Z.shiftr v l) + i < 64 * length highs)%nat) →
  ones highs = imap (λ i v, Z.to_nat (Z.shiftr v l) + i)%nat vs.
Proof.
  intros Hl Hp Hnn Hs Hpos. apply sorted_unique; [apply ones_from_sorted| |].
  - apply imap_sorted. intros i j v w Hi Hj Hij. pose proof (sorted_lookup_le _ _ _ _ _ Hs Hi Hj ltac:(lia)).
    rewrite Forall_lookup in Hnn. pose proof (Hnn _ _ Hi). pose proof (shiftr_mono v w l ltac:(lia) Hl). lia.
  - intros q. rewrite elem_of_ones, (planes_ones _ _ _ _ Hp), elem_of_lookup_imap. split.
    + intros [_ (i & v & Hi & ->)]. by exists i, v.
    + intros (i & v & -> & Hi). split; [by apply Hpos|by exists i, v].
Qed.

Lemma cells_u64 v : cells_ok 64 v → Forall is_u64 v.
Proof. intros H. eapply Forall_impl; [exact H|]. intros x Hx. exact Hx. Qed.

Lemma planes_select l vs highs lows i v : 0 <= l → ef_planes l vs highs lows → Forall (λ v, 0 <= v) vs →
  StronglySorted Z.le vs → (∀ i v, vs !! i = Some v → (Z.to_nat (Z.shiftr v l) + i < 64 * length highs)%nat) →
  Z.of_nat (64 * length highs) <= 2 ^ 32 → vs !! i = Some v →
  select1 highs (build_sample highs (length vs)) i = Some (Z.to_nat (Z.shiftr v l) + i)%nat.
Proof.
  intros Hl Hp Hnn Hs Hpos Hsz Hi. pose proof (planes_ones_list _ _ _ _ Hl Hp Hnn Hs Hpos) as Ho.
  rewrite (select1_spec highs (length vs)).
  - rewrite Ho, list_lookup_imap, Hi. done.
  - by apply cells_u64, (planes_highs_ok _ _ _ _ Hp).
  - by rewrite Ho, length_imap.
  - by eapply lookup_lt_Some.
  - done.
Qed.

(** A width of at most 57 bits: a field and the offset of its first bit fit the eight bytes
    [read_low] loads. *)
Lemma planes_read_low l vs highs lows i v : 0 <= l <= 57 → ef_planes l vs highs lows →
  (length vs * Z.to_nat l <= 8 * length lows)%nat → vs !! i = Some v → 0 <= v →
  ∃ r, read_low lows l i = Some r ∧ 0 <= r ∧ (∀ b, Z.of_nat b < l → Z.testbit r (Z.of_nat b) = Z.testbit v (Z.of_nat b)) ∧
    ∀ b, l <= Z.of_nat b → Z.testbit r (Z.of_nat b) = false.
Proof.
  intros Hl Hp Hroom Hi Hv. destruct (decide (l = 0)) as [->|Hne].
  { exists 0. split_and!; [done|lia|lia|]. intros. apply Z.testbit_0_l. }
  pose proof (lookup_lt_Some _ _ _ Hi). destruct (read_low_bits lows l i) as (r & E & Hr & Hb); [lia|apply Hp|nia|].
  exists r. split_and!; [done|done| |].
  - intros b Hlt. rewrite Hb, (proj2 (Z.ltb_lt _ _) Hlt). pose proof (Nat.mod_upper_bound (i * Z.to_nat l) 8 ltac:(lia)).
    rewrite (proj2 (Nat.ltb_lt _ _)) by lia. cbn [andb]. by apply (planes_low _ _ _ _ Hp).
  - intros b Hge. rewrite Hb, (proj2 (Z.ltb_ge _ _) Hge). done.
Qed.

Lemma ef_join_bits l p i v low : 0 <= l → is_u64 v → Z.of_nat p = Z.shiftr v l + Z.of_nat i → 0 <= low →
  (∀ b, Z.of_nat b < l → Z.testbit low (Z.of_nat b) = Z.testbit v (Z.of_nat b)) →
  (∀ b, l <= Z.of_nat b → Z.testbit low (Z.of_nat b) = false) → ef_join l p i low = v.
Proof.
  intros Hl Hv Hpos Hlow Hlo Hhi. unfold ef_join, is_u64 in *. rewrite Hpos.
  replace (Z.shiftr v l + Z.of_nat i - Z.of_nat i) with (Z.shiftr v l) by lia.
  pose proof (Z.pow_pos_nonneg 2 l ltac:(lia) Hl). pose proof (Z.div_mod v (2 ^ l) ltac:(lia)).
  pose proof (Z.mod_pos_bound v (2 ^ l) ltac:(lia)). pose proof (Z.div_pos v (2 ^ l) ltac:(lia) ltac:(lia)).
  assert (0 <= Z.shiftr v l < 2 ^ 64 ∧ 0 <= Z.shiftl (Z.shiftr v l) l < 2 ^ 64) as [Hs1 Hs2].
  { rewrite Z.shiftl_mul_pow2, Z.shiftr_div_pow2 by done. nia. }
  unfold as_u64. rewrite (Z.mod_small (Z.shiftr v l)), (Z.mod_small (Z.shiftl (Z.shiftr v l) l)) by done.
  apply Z.bits_inj'. intros n Hn. rewrite Z.lor_spec.
  replace n with (Z.of_nat (Z.to_nat n)) by lia. set (b := Z.to_nat n).
  destruct (decide (Z.of_nat b < l)).
  - rewrite Z.shiftl_spec_low by done. by apply Hlo.
  - rewrite Z.shiftl_spec by lia. rewrite Z.shiftr_spec by lia. rewrite Hhi by lia. rewrite orb_false_r. f_equal. lia.
Qed.

(** An encoded value reads back. *)
Lemma planes_value l vs highs lows count i v : 0 <= l <= 57 → ef_planes l vs highs lows → Forall is_u64 vs →
  StronglySorted Z.le vs → (∀ i v, vs !! i = Some v → (Z.to_nat (Z.shiftr v l) + i < 64 * length highs)%nat) →
  (length vs * Z.to_nat l <= 8 * length lows)%nat → Z.of_nat (64 * length highs) <= 2 ^ 32 → vs !! i = Some v →
  ef_value_at {| ef_count := count; ef_l := l; ef_lows := lows; ef_highs := highs;
                 ef_sample := build_sample highs (length vs) |} i = Some v.
Proof.
  intros Hl Hp Hu Hs Hpos Hroom Hsz Hi. unfold ef_value_at. cbn [ef_highs ef_sample ef_lows ef_l].
  assert (is_u64 v) as Hv by (rewrite Forall_lookup in Hu; eauto).
  rewrite (planes_select l vs highs lows i v) by (done || lia || (eapply Forall_impl; [exact Hu|by intros ? []])).
  cbn [mbind option_bind]. destruct (planes_read_low l vs highs lows i v) as (r & -> & Hr & Hlo & Hhi); [done|done|done|done|apply Hv|].
  cbn [mbind option_bind]. f_equal. apply ef_join_bits; [lia|done| |done|done|done].
  pose proof (proj2 (Z.shiftr_nonneg v l) (proj1 Hv)). lia.
Qed.

(** ** The size of the planes *)

Lemma low_bits_bounds universe m : 0 < m → 0 <= universe → 0 <= low_bits universe m ∧ universe < 2 * m * 2 ^ low_bits universe m.
Proof.
  intros Hm Hu. unfold low_bits. destruct (Z.ltb_spec universe m); cbn [orb]; [cbn; lia|].
  destruct (Z.eqb_spec m 0); [lia|]. assert (0 < universe / m) as Hq by (apply Z.div_str_pos; lia).
  split; [apply Z.log2_nonneg|]. pose proof (Z.log2_spec _ Hq) as [_ Hlt]. rewrite Z.pow_succ_r in Hlt by apply Z.log2_nonneg.
  pose proof (Z.div_mod universe m ltac:(lia)). pose proof (Z.mod_pos_bound universe m ltac:(lia)). nia.
Qed.

Lemma low_bits_le universe m k : 0 < m → 0 <= k → 0 <= universe < m * 2 ^ (k + 1) → low_bits universe m <= k.
Proof.
  intros Hm Hk Hu. unfold low_bits. destruct (Z.ltb_spec universe m); cbn [orb]; [lia|].
  destruct (Z.eqb_spec m 0); [lia|]. assert (0 < universe / m) as Hq by (apply Z.div_str_pos; lia).
  assert (Z.log2 (universe / m) < k + 1); [|lia]. apply Z.log2_lt_pow2; [done|]. apply Z.div_lt_upper_bound; lia.
Qed.

(** The planes hold what the loop writes, and stay far below the width of a sample. *)
Lemma ef_empty_room m universe l : 0 < m <= 2 ^ 30 → 0 <= universe → l = low_bits universe m →
  let nw := Z.to_nat (ef_nwords m universe l) in
  let nl := Z.to_nat (ef_low_bytes m l) in
  Z.of_nat (64 * nw) <= 2 ^ 32 ∧ (Z.to_nat m * Z.to_nat l <= 8 * nl)%nat ∧
  (∀ v i, 0 <= v <= universe → (i < Z.to_nat m)%nat → (Z.to_nat (Z.shiftr v l) + i < 64 * nw)%nat).
Proof.
  intros Hm Hu Hl nw nl. destruct (low_bits_bounds universe m) as [H0 Hlt]; [lia|done|]. rewrite <- Hl in H0, Hlt.
  pose proof (Z.pow_pos_nonneg 2 l ltac:(lia) H0).
  assert (0 <= Z.shiftr universe l < 2 * m) as Hhi.
  { rewrite Z.shiftr_div_pow2 by done. split; [apply Z.div_pos; lia|]. apply Z.div_lt_upper_bound; lia. }
  pose proof (div_ceil_spec (Z.shiftr universe l + m) 64 ltac:(lia) ltac:(lia)) as Hw.
  pose proof (div_ceil_spec (m * l) 8 ltac:(lia) ltac:(nia)) as Hb.
  unfold nw, nl, ef_nwords, ef_low_bytes. split_and!.
  - lia.
  - nia.
  - intros v i Hv Hi. pose proof (shiftr_mono v universe l Hv H0). pose proof (proj2 (Z.shiftr_nonneg v l) (proj1 Hv)). lia.
Qed.

(** ** Stored records *)

Lemma length_ones_from wi ws : length (ones_from wi ws) = sum_ones ws.
Proof.
  revert wi. induction ws as [|w ws IH]; intros wi; [done|]. cbn [ones_from]. rewrite length_app, length_map, IH. done.
Qed.

Lemma as_chunks_concat k ws : (0 < k)%nat → Forall (λ w, length w = k) ws → as_chunks k (concat ws) = ws.
Proof.
  intros Hk Hws. unfold as_chunks.
  assert (∀ fuel, (length (concat ws) <= fuel)%nat → as_chunks_loop fuel k (concat ws) = ws) as H; [|by apply H].
  induction Hws as [|w ws Hw Hws IH]; intros fuel Hf.
  - destruct fuel; cbn [as_chunks_loop concat length]; [done|]. destruct (Nat.ltb_spec 0 k); [done|lia].
  - cbn [concat] in *. rewrite length_app in Hf. destruct fuel as [|fuel]; [lia|]. cbn [as_chunks_loop].
    rewrite length_app. destruct (Nat.ltb_spec (length w + length (concat ws)) k); [lia|].
    rewrite <- Hw at 1. rewrite take_app_length. f_equal. rewrite <- Hw, drop_app_length, Hw. apply IH. lia.
Qed.

Lemma as_chunks_lengths k bs : Forall (λ w, length w = k) (as_chunks k bs).
Proof.
  unfold as_chunks. generalize (length bs) at 1. intros fuel. revert bs.
  induction fuel as [|fuel IH]; intros bs; cbn [as_chunks_loop]; [constructor|]. destruct (Nat.ltb_spec (length bs) k); [constructor|].
  constructor; [rewrite length_take; lia|apply IH].
Qed.

Lemma as_chunks_count k bs : (0 < k)%nat → (k * length (as_chunks k bs) <= length bs)%nat.
Proof.
  intros Hk. unfold as_chunks. generalize (length bs) at 1. intros fuel. revert bs.
  induction fuel as [|fuel IH]; intros bs; cbn [as_chunks_loop length]; [lia|]. destruct (Nat.ltb_spec (length bs) k); cbn [length]; [lia|].
  specialize (IH (drop k bs)). rewrite length_drop in IH. lia.
Qed.

Lemma as_chunks_exact k bs n : (0 < k)%nat → (length bs = k * n)%nat → length (as_chunks k bs) = n.
Proof.
  intros Hk. unfold as_chunks.
  assert (∀ fuel bs n, (length bs <= fuel)%nat → (length bs = k * n)%nat → length (as_chunks_loop fuel k bs) = n) as H; [|by apply H].
  clear bs n. induction fuel as [|fuel IH]; intros bs n Hf Hn; cbn [as_chunks_loop length]; [destruct n; lia|].
  destruct (Nat.ltb_spec (length bs) k); cbn [length]; [destruct n; lia|]. destruct n as [|n]; [lia|]. f_equal.
  apply IH; rewrite length_drop; lia.
Qed.

Lemma Forall_concat_chunks {P : Z → Prop} k bs : Forall P bs → Forall (Forall P) (as_chunks k bs).
Proof.
  unfold as_chunks. generalize (length bs) at 1. intros fuel. revert bs.
  induction fuel as [|fuel IH]; intros bs Hp; cbn [as_chunks_loop]; [constructor|]. destruct (Nat.ltb_spec (length bs) k); [constructor|].
  constructor; [by apply Forall_take|apply IH; by apply Forall_drop].
Qed.

Lemma length_cells_bytes k (ws : list Z) : length (concat (map (le_bytes k) ws)) = (k * length ws)%nat.
Proof. induction ws as [|w ws IH]; [cbn; lia|]. cbn [map concat length]. rewrite length_app, length_le_bytes, IH. lia. Qed.

Lemma cells_bytes_read k (ws : list Z) : (0 < k)%nat → Forall (λ w, 0 <= w < 2 ^ (8 * Z.of_nat k)) ws →
  map le_val (as_chunks k (concat (map (le_bytes k) ws))) = ws.
Proof.
  intros Hk Hws. rewrite as_chunks_concat; [|done|apply Forall_map, Forall_true; intros x; apply length_le_bytes].
  rewrite map_map. induction Hws as [|w ws Hw _ IH]; [done|]. cbn. rewrite IH, le_val_bytes; [done|exact Hw].
Qed.

Lemma length_words_bytes (ws : list Z) : length (concat (map (le_bytes 8) ws)) = (8 * length ws)%nat.
Proof. apply length_cells_bytes. Qed.

Lemma words_bytes_read (ws : list Z) : Forall is_u64 ws → map le_val (as_chunks 8 (concat (map (le_bytes 8) ws))) = ws.
Proof. intros Hws. apply cells_bytes_read; [lia|exact Hws]. Qed.

(** A record the codec can have written or accepted. *)
Record ef_wf (extra : Z) (e : Ef) : Prop := {
  wf_count : is_u32 (ef_count e);
  wf_l : 0 <= ef_l e <= 63;
  wf_lows : Forall is_u8 (ef_lows e) ∧ zlen (ef_lows e) = ef_low_bytes (ef_count e + extra) (ef_l e);
  wf_highs : Forall is_u64 (ef_highs e) ∧ zlen (ef_highs e) < 2 ^ 32;
  wf_ones : Z.of_nat (length (ones (ef_highs e))) = ef_count e + extra;
  wf_sample : ef_sample e = build_sample (ef_highs e) (Z.to_nat (ef_count e + extra));
}.

Lemma is_u32_le_val z : is_u32 z → le_val (le_bytes 4 z) = z.
Proof. intros H. apply le_val_bytes. unfold is_u32 in H. cbn. lia. Qed.

Lemma ef_roundtrip what extra e : 0 <= extra → ef_wf extra e → ef_deserialize what extra (ef_serialize e) = Ok e.
Proof.
  intros Hx [Hc Hl [Hlo Hlolen] [Hhi Hhilen] Hones Hsample]. destruct e as [count l lows highs sample].
  unfold ef_serialize. cbn [ef_count ef_l ef_lows ef_highs ef_sample] in *.
  set (tail := concat (map (le_bytes 8) highs)).
  assert (length tail = 8 * length highs)%nat as Htail by apply length_words_bytes.
  pose proof (zlen_nonneg highs) as Hz. assert (as_u32 (zlen highs) = zlen highs) as -> by (apply Z.mod_small; lia).
  set (body := le_bytes 4 count ++ [l] ++ le_bytes 4 (zlen highs) ++ lows ++ tail).
  assert (zlen body = 9 + zlen lows + zlen highs * 8) as Hlen.
  { unfold body. rewrite !zlen_app. unfold zlen. rewrite !length_le_bytes, Htail. cbn [length]. lia. }
  assert (take 4 body = le_bytes 4 count) as E1 by (apply take_app_length'; by rewrite length_le_bytes).
  assert (drop 4 body = [l] ++ le_bytes 4 (zlen highs) ++ lows ++ tail) as E2 by (apply drop_app_length'; by rewrite length_le_bytes).
  assert (nth 4 body 0 = l) as E3.
  { unfold body. rewrite app_nth2; rewrite length_le_bytes; [done|lia]. }
  assert (drop 5 body = le_bytes 4 (zlen highs) ++ lows ++ tail) as E4.
  { change 5%nat with (4 + 1)%nat. by rewrite <- drop_drop, E2. }
  assert (drop 9 body = lows ++ tail) as E5.
  { change 9%nat with (5 + 4)%nat. rewrite <- drop_drop, E4. apply drop_app_length'. by rewrite length_le_bytes. }
  unfold ef_deserialize. pose proof (zlen_nonneg lows). destruct (Z.ltb_spec (zlen body) 9); [lia|]. cbv zeta.
  rewrite E1, E3, E4, E5, is_u32_le_val by done. rewrite take_app_length' by (by rewrite length_le_bytes).
  rewrite is_u32_le_val by (unfold is_u32; lia). unfold check_low_bits, MAX_LOW_BITS. destruct (Z.ltb_spec 63 l); [lia|].
  cbn [mbind result_bind]. rewrite <- Hlolen, Hlen. rewrite Z.eqb_refl. cbn [negb].
  assert (drop (Z.to_nat (9 + zlen lows)) body = tail) as ->.
  { replace (Z.to_nat (9 + zlen lows)) with (9 + length lows)%nat by (unfold zlen; lia).
    rewrite <- drop_drop, E5. apply drop_app_length. }
  rewrite (take_ge tail) by (unfold zlen in *; lia). replace (Z.to_nat (zlen lows)) with (length lows) by (unfold zlen; lia).
  rewrite take_app_length. unfold tail. rewrite words_bytes_read by done.
  unfold ones in Hones. rewrite length_ones_from in Hones. rewrite Hones, Z.eqb_refl. cbn [negb]. by rewrite <- Hsample.
Qed.

Lemma ef_deserialize_wf what extra body e : 0 <= extra → Forall is_u8 body → ef_deserialize what extra body = Ok e →
  ef_wf extra e ∧ 8 * zlen (ef_highs e) <= zlen body.
Proof.
  intros Hx Hb. unfold ef_deserialize. destruct (Z.ltb_spec (zlen body) 9) as [|Hlen]; [done|]. cbv zeta.
  assert (∀ k, (k + 4 <= 9)%nat → is_u32 (le_val (take 4 (drop k body)))) as Hu32.
  { intros k Hk. assert (length (take 4 (drop k body)) = 4%nat) as El by (rewrite length_take, length_drop; unfold zlen in Hlen; lia).
    pose proof (le_val_range (take 4 (drop k body))) as Hr. unfold zlen in Hr. rewrite El in Hr. apply Hr. by apply Forall_take, Forall_drop. }
  pose proof (Hu32 O ltac:(lia)) as Hc. rewrite drop_0 in Hc. pose proof (Hu32 5%nat ltac:(lia)) as Hw.
  set (count := le_val (take 4 body)) in *. set (l := nth 4 body 0) in *. set (nwords := le_val (take 4 (drop 5 body))) in *.
  assert (is_u8 l) as Hl8.
  { unfold l. destruct (nth_in_or_default 4 body 0) as [Hin| ->]; [|done]. rewrite Forall_forall in Hb. by apply Hb, list_elem_of_In. }
  unfold check_low_bits, MAX_LOW_BITS. destruct (Z.ltb_spec 63 l); [done|]. cbn [mbind result_bind].
  destruct (Z.eqb_spec (zlen body) (9 + ef_low_bytes (count + extra) l + nwords * 8)) as [Hneed|]; [|done]. cbn [negb].
  set (lows := take _ (drop 9 body)). set (highs := map le_val _).
  destruct (Z.eqb_spec (Z.of_nat (sum_ones highs)) (count + extra)) as [Ho|]; [|done]. cbn [negb]. intros [= <-].
  unfold is_u8, is_u32 in *. assert (0 <= ef_low_bytes (count + extra) l) as Hlb.
  { unfold ef_low_bytes. pose proof (div_ceil_spec ((count + extra) * l) 8 ltac:(lia) ltac:(nia)). nia. }
  assert (zlen lows = ef_low_bytes (count + extra) l) as Hlolen.
  { unfold lows, zlen in *. rewrite length_take, length_drop. lia. }
  assert (zlen highs <= nwords ∧ Forall is_u64 highs) as [Hhl Hhu].
  { unfold highs. split.
    - unfold zlen. rewrite length_map.
      match goal with |- context [as_chunks 8 ?bs] => pose proof (as_chunks_count 8 bs ltac:(lia)) as Hcnt end.
      rewrite length_take in Hcnt. lia.
    - apply Forall_map.
      match goal with |- context [as_chunks 8 ?bs] => pose proof (as_chunks_lengths 8 bs) as H8; pose proof (Forall_concat_chunks (P := is_u8) 8 bs) as HP end.
      eapply Forall_impl; [apply Forall_and; split; [exact H8|apply HP; by apply Forall_take, Forall_drop]|].
      intros w [Hlw Hwu]. pose proof (le_val_range w Hwu) as Hr. unfold zlen in Hr. rewrite Hlw in Hr. exact Hr. }
  split; [|cbn; lia]. split; cbn [ef_count ef_l ef_lows ef_highs ef_sample].
  - unfold is_u32. lia.
  - lia.
  - split; [by apply Forall_take, Forall_drop|done].
  - split; [done|lia].
  - unfold ones. by rewrite length_ones_from.
  - done.
Qed.

(** Every index a decoded record declares has a value, and the position of its one-bit is at
    least the index. *)
Lemma ef_wf_select extra e i : ef_wf extra e → Z.of_nat i < ef_count e + extra → 64 * zlen (ef_highs e) <= 2 ^ 32 →
  ∃ p, select1 (ef_highs e) (ef_sample e) i = Some p ∧ ones (ef_highs e) !! i = Some p.
Proof.
  intros [_ _ _ [Hhi _] Hones ->] Hi Hsz. destruct (lookup_lt_is_Some_2 (ones (ef_highs e)) i) as [p Ep]; [lia|].
  exists p. split; [|done]. rewrite (select1_spec _ (Z.to_nat (ef_count e + extra))); [done|done|lia|lia|unfold zlen in Hsz; lia].
Qed.

Lemma ef_wf_read_low extra e i : ef_wf extra e → Z.of_nat i < ef_count e + extra → is_Some (read_low (ef_lows e) (ef_l e) i).
Proof.
  intros [_ Hl [_ Hlo] _ _ _] Hi. unfold read_low. destruct (Z.eqb_spec (ef_l e) 0); [by eexists|]. cbv zeta.
  pose proof (Nat.div_mod_eq (i * Z.to_nat (ef_l e)) 8).
  pose proof (div_ceil_spec ((ef_count e + extra) * ef_l e) 8 ltac:(lia) ltac:(nia)) as Hd. unfold ef_low_bytes in Hlo.
  destruct (Nat.ltb_spec (length (ef_lows e)) (i * Z.to_nat (ef_l e) / 8)); [|by eexists]. unfold zlen in Hlo.
  assert (Z.of_nat i * ef_l e <= (ef_count e + extra) * ef_l e) by nia. nia.
Qed.

Lemma ef_wf_total extra e i : ef_wf extra e → Z.of_nat i < ef_count e + extra → 64 * zlen (ef_highs e) <= 2 ^ 32 →
  is_Some (ef_value_at e i).
Proof.
  intros Hwf Hi Hsz. unfold ef_value_at. destruct (ef_wf_select extra e i) as (p & -> & _); [done|done|done|].
  cbn [mbind option_bind]. destruct (ef_wf_read_low extra e i) as [low ->]; [done|done|]. by eexists.
Qed.

(** What the encoding of a sequence is: a well-formed record that answers every index. *)
Lemma ef_encode_spec extra vs universe l m : l = low_bits universe m → m = zlen vs → 0 <= extra → 0 < m <= 2 ^ 30 → extra <= m →
  Forall is_u64 vs → StronglySorted Z.le vs → is_u64 universe → Forall (λ v, v <= universe) vs →
  ∃ highs lows, ef_fill l (ef_empty m universe l) vs = Some (length vs, highs, lows) ∧
    let e := {| ef_count := m - extra; ef_l := l; ef_lows := lows; ef_highs := highs; ef_sample := build_sample highs (Z.to_nat m) |} in
    ef_planes l vs highs lows ∧
    (∀ i v, vs !! i = Some v → (Z.to_nat (Z.shiftr v l) + i < 64 * length highs)%nat) ∧
    ef_wf extra e ∧ 64 * zlen highs <= 2 ^ 32 ∧ (l <= 57 → ∀ i v, vs !! i = Some v → ef_value_at e i = Some v).
Proof.
  intros Hl Hm Hx Hmr Hxm Hu Hs Huni Hmax.
  destruct (ef_empty_room m universe l) as (Hsz & Hroom & Hpos); [done|apply Huni|done|].
  destruct (low_bits_bounds universe m) as [Hl0 _]; [lia|apply Huni|]. rewrite <- Hl in Hl0.
  assert (l <= 63) as Hl63 by (rewrite Hl; apply low_bits_le; [lia|lia|]; unfold is_u64 in Huni; change (2 ^ (63 + 1)) with (2 ^ 64); lia).
  assert (Z.to_nat m = length vs) as Hmn by (unfold zlen in Hm; lia).
  assert (Forall (λ v, 0 <= v) vs) as Hnn by (eapply Forall_impl; [exact Hu|by intros ? []]).
  set (nw := Z.to_nat (ef_nwords m universe l)) in *. set (nl := Z.to_nat (ef_low_bytes m l)) in *.
  assert (∀ i v, vs !! i = Some v → (Z.to_nat (Z.shiftr v l) + i < 64 * nw)%nat) as Hpos'.
  { intros i v Hi. apply Hpos; [|apply lookup_lt_Some in Hi; lia]. rewrite Forall_lookup in Hnn, Hmax. eauto. }
  destruct (ef_fold_planes l vs nw nl) as (highs & lows & E & Hh & Hlo & Hp); [done|done|done|by rewrite <- Hmn|].
  exists highs, lows. split; [exact E|]. rewrite <- Hh in Hpos', Hsz. cbv zeta. split; [done|]. split; [done|].
  assert (Z.of_nat (length (ones highs)) = m) as Hones.
  { rewrite (planes_ones_list l vs highs lows) by done. rewrite length_imap. lia. }
  split_and!; [split; cbn [ef_count ef_l ef_lows ef_highs ef_sample]| |].
  - unfold is_u32. lia.
  - done.
  - split; [apply Hp|]. replace (m - extra + extra) with m by lia. unfold zlen. rewrite Hlo. unfold nl.
    pose proof (div_ceil_spec (m * l) 8 ltac:(lia) ltac:(nia)). unfold ef_low_bytes. nia.
  - split; [by apply cells_u64, (planes_highs_ok _ _ _ _ Hp)|unfold zlen; lia].
  - lia.
  - do 2 f_equal. lia.
  - unfold zlen. lia.
  - intros Hl57 i v Hi. rewrite Hmn. apply planes_value; auto. rewrite Hlo, <- Hmn. done.
Qed.
