(* ===== verification/RunLength.v ===== *)
(** Run-length records: the [RleU64] of crates/graph-format/src/plane.rs and the [RleChunk] of
    crates/graph-format/src/degree_ef.rs, which differ in the width of a value, the ceiling on
    the number of elements and the name in an error.

    The lemmas describe a record by its runs, pairs of a value and a positive length. *)

From S2P Require Import Prelude Values Wire.

Record Rle := {
  rle_n : Z;
  rle_values : list Z;
  rle_starts : list Z;
}.

(** The [for] of [from_values], from index [i] with the last value seen in [prev]. *)
Fixpoint rle_loop (i : Z) (prev : Z) (values vals starts : list Z) : list Z * list Z :=
  match values with
  | [] => (vals, starts)
  | v :: values =>
      if negb (v =? prev) then rle_loop (i + 1) v values (vals ++ [v]) (starts ++ [as_u32 i])
      else rle_loop (i + 1) prev values vals starts
  end.

Definition rle_from_values (values : list Z) : Rle :=
  match values with
  | [] => {| rle_n := 0; rle_values := []; rle_starts := [] |}
  | prev :: rest =>
      let '(vals, starts) := rle_loop 1 prev rest [prev] [0] in
      {| rle_n := as_u32 (zlen values); rle_values := vals; rle_starts := starts |}
  end.

(** The index [partition_point - 1]; at zero the source panics. *)
Definition rle_value_at (r : Rle) (off : nat) : option Z :=
  match partition_point (λ s, s <=? Z.of_nat off) (rle_starts r) with
  | O => None
  | S k => rle_values r !! k
  end.

(** [if k + 1 < starts.len() { starts[k + 1] } else { n }], for every [k]. *)
Definition rle_ends (r : Rle) : list Z := drop 1 (rle_starts r) ++ [rle_n r].

(** The runs of [serialize_into]; [values] and [starts] are parallel. *)
Fixpoint rle_write_runs (values starts ends : list Z) : bytes :=
  match values, starts, ends with
  | v :: values, start :: starts, end_ :: ends =>
      write_uvarint v ++ write_uvarint (as_u32 (end_ - start)) ++ rle_write_runs values starts ends
  | _, _, _ => []
  end.

Definition rle_serialize (r : Rle) : bytes :=
  write_uvarint (rle_n r) ++ write_uvarint (zlen (rle_values r)) ++
  rle_write_runs (rle_values r) (rle_starts r) (rle_ends r).

Definition rle_body_len (r : Rle) : Z := zlen (rle_serialize r).

(** [Vec::resize]. *)
Definition vec_resize {A} (out : list A) (len : Z) (x : A) : list A :=
  take (Z.to_nat len) out ++ replicate (Z.to_nat len - length out) x.

Fixpoint rle_fill (ends values : list Z) (out : list Z) : list Z :=
  match ends, values with
  | end_ :: ends, v :: values => rle_fill ends values (vec_resize out end_ v)
  | _, _ => out
  end.

Definition rle_to_values (r : Rle) : list Z := rle_fill (rle_ends r) (rle_values r) [].

Definition rle_resident_bytes (value_bytes : Z) (r : Rle) : Z :=
  zlen (rle_values r) * value_bytes + zlen (rle_starts r) * 4.

Section Decode.
(** The name in the errors, the ceiling on the elements, and the narrowing of a value read. *)
Context (what : string) (max : Z) (narrow : Z → Z).

(** [for _ in 0..run_count]: a run takes bytes, so the bytes bound the passes.  The [u64] sum
    of the lengths wraps in a release build. *)
Fixpoint rle_read_runs (fuel : nat) (run_count acc : Z) (r : bytes) : result (list Z * list Z * Z) :=
  if run_count <=? 0 then Ok ([], [], acc)
  else match fuel with
  | O => Err OutOfFuel
  | S fuel =>
      '(value, r) ← read_uvarint r;
      '(len, r) ← read_uvarint r;
      if len =? 0 then Err (Bail "rle has a zero-length run")
      else
        '(values, starts, total) ← rle_read_runs fuel (run_count - 1) (as_u64 (acc + len)) r;
        Ok (narrow value :: values, as_u32 acc :: starts, total)
  end.

Definition rle_deserialize (body : bytes) : result Rle :=
  '(n, r) ← read_uvarint body;
  let n := as_u32 n in
  if max <? n then Err (TooManyElements what n max)
  else
    '(run_count, r) ← read_uvarint r;
    '(values, starts, acc) ← rle_read_runs (S (length r)) run_count 0 r;
    if negb (acc =? n) then Err (Bail "rle run lengths do not sum to the count")
    else Ok {| rle_n := n; rle_values := values; rle_starts := starts |}.

End Decode.

(** * Runs *)

Abbreviation run := (Z * Z)%type (only parsing).

Fixpoint runs_total (runs : list run) : Z :=
  match runs with
  | [] => 0
  | (_, len) :: runs => len + runs_total runs
  end.

Fixpoint starts_from (acc : Z) (runs : list run) : list Z :=
  match runs with
  | [] => []
  | (_, len) :: runs => acc :: starts_from (acc + len) runs
  end.

Definition expand (runs : list run) : list Z := concat (map (λ r, replicate (Z.to_nat r.2) r.1) runs).

Definition rle_of_runs (runs : list run) : Rle :=
  {| rle_n := runs_total runs; rle_values := map fst runs; rle_starts := starts_from 0 runs |}.

Definition runs_ok (runs : list run) : Prop := Forall (λ r, 0 < r.2) runs ∧ runs_total runs < 2 ^ 32.

Lemma runs_total_nonneg runs : Forall (λ r, 0 < r.2) runs → 0 <= runs_total runs.
Proof. induction 1 as [|[v len] runs H _ IH]; cbn in *; lia. Qed.

Lemma runs_ok_cons v len runs : runs_ok ((v, len) :: runs) → 0 < len ∧ runs_ok runs ∧ len + runs_total runs < 2 ^ 32.
Proof.
  intros [[H1 H2]%Forall_cons H3]. cbn in *. pose proof (runs_total_nonneg _ H2). split_and!; [done| |done].
  split; [done|lia].
Qed.

Lemma length_starts_from acc runs : length (starts_from acc runs) = length runs.
Proof. revert acc. induction runs as [|[v len] runs IH]; intros acc; cbn; by rewrite ?IH. Qed.

Lemma zlen_expand runs : Forall (λ r, 0 < r.2) runs → zlen (expand runs) = runs_total runs.
Proof.
  induction 1 as [|[v len] runs H _ IH]; [done|]. cbn in *. unfold expand in *. cbn. rewrite zlen_app, IH.
  unfold zlen. rewrite length_replicate. lia.
Qed.

(** ** Grouping *)

Lemma rle_loop_runs values i prev s vals starts :
  0 <= s < i → i + zlen values < 2 ^ 32 →
  ∃ runs, rle_loop i prev values (vals ++ [prev]) (starts ++ [s]) = (vals ++ map fst runs, starts ++ starts_from s runs) ∧
    Forall (λ r, 0 < r.2) runs ∧ s + runs_total runs = i + zlen values ∧
    expand runs = replicate (Z.to_nat (i - s)) prev ++ values.
Proof.
  revert i prev s vals starts. induction values as [|v values IH]; intros i prev s vals starts Hs Hlen; cbn [rle_loop].
  { exists [(prev, i - s)]. cbn. change (zlen []) with 0. split_and!; [done|by repeat constructor; cbn; lia|lia|].
    unfold expand. cbn. by rewrite !app_nil_r. }
  rewrite zlen_cons in Hlen |- *. destruct (Z.eqb_spec v prev) as [->|Hne]; cbn [negb].
  - destruct (IH (i + 1) prev s vals starts) as (runs & -> & Hp & Ht & He); [lia|lia|]. exists runs. split_and!; [done|done|lia|].
    rewrite He. replace (Z.to_nat (i + 1 - s)) with (Z.to_nat (i - s) + 1)%nat by lia.
    rewrite replicate_add, <- app_assoc. done.
  - pose proof (zlen_nonneg values). unfold as_u32. rewrite Z.mod_small by lia.
    destruct (IH (i + 1) v i (vals ++ [prev]) (starts ++ [s])) as (runs & -> & Hp & Ht & He); [lia|lia|].
    exists ((prev, i - s) :: runs). cbn [map starts_from fst]. rewrite <- !app_assoc. replace (s + (i - s)) with i by lia.
    split_and!; [done|by constructor; [cbn; lia|]|cbn in *; lia|]. unfold expand in *. cbn. rewrite He.
    replace (Z.to_nat (i + 1 - i)) with 1%nat by lia. done.
Qed.

(** A record of values is the record of their runs. *)
Lemma rle_from_values_runs values : zlen values < 2 ^ 32 →
  ∃ runs, rle_from_values values = rle_of_runs runs ∧ runs_ok runs ∧ expand runs = values.
Proof.
  intros Hlen. destruct values as [|v values].
  { exists []. split_and!; [done|split; [constructor|done]|done]. }
  unfold rle_from_values. rewrite zlen_cons in Hlen |- *.
  destruct (rle_loop_runs values 1 v 0 [] []) as (runs & E & Hp & Ht & He); [lia|lia|].
  cbn [app] in E. rewrite E. exists runs. split_and!; [|split; [done|lia]|done].
  unfold rle_of_runs. f_equal. pose proof (zlen_nonneg values). unfold as_u32. rewrite Z.mod_small by lia. lia.
Qed.

(** ** Serialisation *)

Fixpoint runs_bytes (runs : list run) : bytes :=
  match runs with
  | [] => []
  | (v, len) :: runs => write_uvarint v ++ write_uvarint len ++ runs_bytes runs
  end.

Lemma rle_write_runs_of runs acc n : runs_ok runs → n = acc + runs_total runs →
  rle_write_runs (map fst runs) (starts_from acc runs) (drop 1 (starts_from acc runs) ++ [n]) = runs_bytes runs.
Proof.
  revert acc. induction runs as [|[v len] runs IH]; intros acc Hok Hn; [done|].
  apply runs_ok_cons in Hok as (Hl & Hok & Ht). pose proof (runs_total_nonneg _ (proj1 Hok)).
  cbn [map fst starts_from drop runs_bytes runs_total] in *. rewrite drop_0. specialize (IH (acc + len) Hok ltac:(lia)).
  destruct runs as [|[v' len'] runs].
  - cbn in *. unfold as_u32. rewrite Z.mod_small by lia. do 3 f_equal. lia.
  - cbn [starts_from app rle_write_runs map fst drop] in *. rewrite drop_0 in IH. unfold as_u32 at 1. rewrite Z.mod_small by lia.
    replace (acc + len - acc) with len by lia. by rewrite IH.
Qed.

Lemma rle_serialize_runs runs : runs_ok runs →
  rle_serialize (rle_of_runs runs) = write_uvarint (runs_total runs) ++ write_uvarint (zlen runs) ++ runs_bytes runs.
Proof.
  intros Hok. unfold rle_serialize. cbn [rle_of_runs rle_n rle_values rle_starts]. unfold rle_ends. cbn [rle_of_runs rle_n rle_starts].
  rewrite rle_write_runs_of by done. do 2 f_equal. unfold zlen. by rewrite length_map.
Qed.

Lemma rle_read_runs_of narrow runs fuel acc : runs_ok runs → Forall (λ r, is_u64 r.1 ∧ narrow r.1 = r.1) runs →
  (length runs <= fuel)%nat → 0 <= acc → acc + runs_total runs < 2 ^ 32 →
  rle_read_runs narrow fuel (zlen runs) acc (runs_bytes runs) =
    Ok (map fst runs, starts_from acc runs, acc + runs_total runs).
Proof.
  revert fuel acc. induction runs as [|[v len] runs IH]; intros fuel acc Hok Hv Hf Ha Ht.
  { destruct fuel; cbn; by rewrite Z.add_0_r. }
  destruct fuel as [|fuel]; [cbn in Hf; lia|]. apply runs_ok_cons in Hok as (Hl & Hok & Hlt).
  apply Forall_cons in Hv as [[Hv1 Hv2] Hv]. cbn [fst] in *. pose proof (runs_total_nonneg _ (proj1 Hok)).
  cbn [rle_read_runs runs_bytes]. rewrite zlen_cons. pose proof (zlen_nonneg runs). cbn in Ht.
  destruct (Z.leb_spec (zlen runs + 1) 0); [lia|]. rewrite read_write_uvarint by done. cbn [mbind result_bind].
  rewrite read_write_uvarint by (unfold is_u64; lia). cbn [mbind result_bind]. destruct (Z.eqb_spec len 0); [lia|].
  unfold as_u64, as_u32. rewrite !Z.mod_small by lia. replace (zlen runs + 1 - 1) with (zlen runs) by lia.
  rewrite IH by (done || cbn in Hf; lia). cbn [mbind result_bind map fst starts_from]. rewrite Hv2. do 2 f_equal. cbn. lia.
Qed.

Lemma length_runs_bytes runs : (length runs <= length (runs_bytes runs))%nat.
Proof.
  induction runs as [|[v len] runs IH]; [done|]. cbn [length runs_bytes]. rewrite !length_app.
  assert (length (write_uvarint v) ≠ 0%nat) by (unfold write_uvarint; cbn [write_uvarint_loop]; destruct (_ =? 0); done). lia.
Qed.

(** ** Access *)

Lemma partition_point_starts runs acc off : runs_ok runs → 0 <= acc → runs ≠ [] → acc <= off →
  ∃ k, partition_point (λ s, s <=? off) (starts_from acc runs) = S k ∧
    (off < acc + runs_total runs → ∃ v len, runs !! k = Some (v, len) ∧ expand runs !! Z.to_nat (off - acc) = Some v).
Proof.
  revert acc. induction runs as [|[v len] runs IH]; intros acc Hok Ha Hne Hoff; [done|]. clear Hne.
  apply runs_ok_cons in Hok as (Hl & Hok & Ht). cbn [starts_from partition_point].
  rewrite (proj2 (Z.leb_le _ _) Hoff). destruct (decide (acc + len <= off)) as [Hge|Hlt].
  - destruct runs as [|r' runs]; [exists O; cbn; split; [done|lia]|].
    destruct (IH (acc + len)) as (k & Ek & Hk); [done|lia|done|done|]. rewrite Ek. exists (S k). split; [done|].
    intros Hlt. destruct Hk as (v' & len' & Hlk & He); [cbn in *; lia|]. exists v', len'. split; [done|].
    unfold expand in *. cbn [map concat fst snd]. rewrite lookup_app_r by (rewrite length_replicate; lia).
    rewrite length_replicate, <- He. f_equal. lia.
  - exists O. split.
    + destruct runs as [|[v' len'] runs]; [done|]. cbn [starts_from partition_point].
      destruct (Z.leb_spec (acc + len) off); [lia|done].
    + intros _. exists v, len. split; [done|]. unfold expand. cbn [map concat fst snd].
      rewrite lookup_app_l by (rewrite length_replicate; lia). apply lookup_replicate. split; [done|lia].
Qed.

Lemma rle_value_at_runs runs off : runs_ok runs → Z.of_nat off < runs_total runs →
  rle_value_at (rle_of_runs runs) off = expand runs !! off.
Proof.
  intros Hok Hoff. unfold rle_value_at. cbn [rle_of_runs rle_starts rle_values].
  destruct (partition_point_starts runs 0 (Z.of_nat off)) as (k & -> & Hk); [done|lia|by intros ->; cbn in Hoff; lia|lia|].
  destruct Hk as (v & len & Hr & He); [lia|].
  change (map fst runs) with (fst <$> runs). rewrite list_lookup_fmap, Hr. cbn. rewrite <- He. f_equal. lia.
Qed.

Lemma rle_fill_runs runs acc out : runs_ok runs → zlen out = acc →
  rle_fill (drop 1 (starts_from acc runs) ++ [acc + runs_total runs]) (map fst runs) out = out ++ expand runs.
Proof.
  revert acc out. induction runs as [|[v len] runs IH]; intros acc out Hok Hlen.
  { cbn. by rewrite app_nil_r. }
  apply runs_ok_cons in Hok as (Hl & Hok & Ht). cbn [starts_from drop map fst runs_total]. rewrite drop_0.
  assert (vec_resize out (acc + len) v = out ++ replicate (Z.to_nat len) v) as Hres.
  { unfold vec_resize, zlen in *. rewrite take_ge by lia. do 2 f_equal. lia. }
  assert (rle_fill (starts_from (acc + len) runs ++ [acc + (len + runs_total runs)]) (v :: map fst runs) out =
    rle_fill (drop 1 (starts_from (acc + len) runs) ++ [acc + len + runs_total runs]) (map fst runs) (out ++ replicate (Z.to_nat len) v)) as ->.
  { destruct runs as [|[v' len'] runs]; cbn [starts_from app rle_fill map fst drop].
    - cbn [runs_total]. rewrite Z.add_0_r, Hres. done.
    - rewrite Hres, Z.add_assoc. done. }
  rewrite IH; [|done|unfold zlen in *; rewrite length_app, length_replicate; lia]. unfold expand. cbn. by rewrite app_assoc.
Qed.

Lemma rle_to_values_runs runs : runs_ok runs → rle_to_values (rle_of_runs runs) = expand runs.
Proof.
  intros Hok. unfold rle_to_values, rle_ends. cbn [rle_of_runs rle_starts rle_n rle_values].
  apply (rle_fill_runs runs 0 [] Hok). done.
Qed.

(** ** Round trip *)

Lemma expand_values (P : Z → Prop) runs : runs_ok runs → Forall P (expand runs) → Forall (λ r, P r.1) runs.
Proof.
  induction runs as [|[v len] runs IH]; intros Hok Hp; [done|]. apply runs_ok_cons in Hok as (Hl & Hok & _).
  unfold expand in *. cbn in Hp. apply Forall_app in Hp as [H1 H2]. constructor; [|auto].
  destruct (Z.to_nat len) eqn:E; [lia|]. cbn in H1. by apply Forall_cons in H1 as [].
Qed.

(** A record written from values reads back as itself, and answers every index with its value. *)
Lemma rle_roundtrip what max narrow values : zlen values <= max → max < 2 ^ 32 →
  Forall (λ v, is_u64 v ∧ narrow v = v) values →
  rle_deserialize what max narrow (rle_serialize (rle_from_values values)) = Ok (rle_from_values values).
Proof.
  intros Hm Hmax Hv. destruct (rle_from_values_runs values) as (runs & -> & Hok & <-); [lia|].
  rewrite zlen_expand in Hm by apply Hok. pose proof (runs_total_nonneg _ (proj1 Hok)).
  rewrite rle_serialize_runs by done. unfold rle_deserialize. rewrite read_write_uvarint by (unfold is_u64; lia).
  cbn [mbind result_bind]. unfold as_u32 at 1. rewrite Z.mod_small by lia. destruct (Z.ltb_spec max (runs_total runs)); [lia|].
  assert (zlen runs <= runs_total runs) as Hcount.
  { destruct Hok as [Hp _]. clear -Hp. induction Hp as [|[v len] runs H _ IH]; [done|]. rewrite zlen_cons. cbn in *. lia. }
  rewrite read_write_uvarint by (pose proof (zlen_nonneg runs); unfold is_u64; lia). cbn [mbind result_bind].
  rewrite rle_read_runs_of; [|done|by apply (expand_values (λ v, is_u64 v ∧ narrow v = v))| |lia|lia].
  2:{ pose proof (length_runs_bytes runs). lia. }
  cbn [mbind result_bind]. unfold as_u32. rewrite Z.mod_small, Z.eqb_refl by lia. done.
Qed.

Lemma rle_lookup values off : zlen values < 2 ^ 32 → (off < length values)%nat →
  rle_value_at (rle_from_values values) off = values !! off.
Proof.
  intros Hlen Hoff. destruct (rle_from_values_runs values Hlen) as (runs & -> & Hok & <-).
  apply rle_value_at_runs; [done|]. rewrite <- zlen_expand by apply Hok. unfold zlen. lia.
Qed.

Lemma rle_materialise values : zlen values < 2 ^ 32 → rle_to_values (rle_from_values values) = values.
Proof. intros Hlen. destruct (rle_from_values_runs values Hlen) as (runs & -> & Hok & <-). by apply rle_to_values_runs. Qed.

Lemma rle_from_values_n values : zlen values < 2 ^ 32 → rle_n (rle_from_values values) = zlen values.
Proof.
  intros Hlen. destruct (rle_from_values_runs values Hlen) as (runs & -> & Hok & <-). cbn. symmetry. by apply zlen_expand, Hok.
Qed.

(** ** Decoded records *)

Lemma rle_read_runs_fuel narrow fuel count acc r : (length r < fuel)%nat →
  rle_read_runs narrow fuel count acc r ≠ Err OutOfFuel.
Proof.
  revert count acc r. induction fuel as [|fuel IH]; intros count acc r Hf; [lia|]. cbn [rle_read_runs].
  destruct (count <=? 0); [done|].
  destruct (read_uvarint r) as [[value r1]|e] eqn:E1; cbn [mbind result_bind]; [|intros [= ->]; by eapply read_uvarint_fuel_safe].
  destruct (read_uvarint r1) as [[len r2]|e] eqn:E2; cbn [mbind result_bind]; [|intros [= ->]; by eapply read_uvarint_fuel_safe].
  apply read_uvarint_consuming in E1, E2. destruct (len =? 0); [done|].
  apply bind_fuel_safe; [apply IH; lia|]. by intros [[values starts] total].
Qed.

Lemma rle_deserialize_fuel what max narrow body : rle_deserialize what max narrow body ≠ Err OutOfFuel.
Proof.
  unfold rle_deserialize. apply bind_fuel_safe; [apply read_uvarint_fuel_safe|]. intros [n r]. cbv zeta.
  destruct (max <? as_u32 n); [done|].
  apply bind_fuel_safe; [apply read_uvarint_fuel_safe|]. intros [count r'].
  apply bind_fuel_safe; [apply rle_read_runs_fuel; lia|]. intros [[values starts] total]. by destruct (negb _).
Qed.

Lemma rle_read_runs_shape narrow fuel count acc r values starts total :
  rle_read_runs narrow fuel count acc r = Ok (values, starts, total) →
  length values = length starts ∧ (starts = [] ∧ total = acc ∨ head starts = Some (as_u32 acc)).
Proof.
  revert count acc r values starts total. induction fuel as [|fuel IH]; intros count acc r values starts total;
    cbn [rle_read_runs]; (destruct (count <=? 0); [by intros [= <- <- <-]; auto|]); [done|].
  intros ([value r1] & _ & ([len r2] & _ & H)%bind_Ok)%bind_Ok. destruct (len =? 0); [done|].
  apply bind_Ok in H as ([[vs ss] t] & [Hl _]%IH & [= <- <- <-]). cbn. split; [by f_equal|by right].
Qed.

(** Every index below the count of a decoded record has a value. *)
Lemma rle_decoded_total what max narrow body r off : rle_deserialize what max narrow body = Ok r →
  Z.of_nat off < rle_n r → is_Some (rle_value_at r off).
Proof.
  unfold rle_deserialize. intros ([n r1] & _ & H)%bind_Ok. cbv zeta in H. destruct (max <? _); [done|].
  apply bind_Ok in H as ([count r2] & _ & ([[vs ss] total] & [Hl Hs]%rle_read_runs_shape & H)%bind_Ok).
  destruct (Z.eqb_spec total (as_u32 n)); [|done]. injection H as <-. cbn [rle_n]. intros Hoff.
  unfold rle_value_at. cbn [rle_starts rle_values].
  destruct Hs as [[-> ->]|Hs]; [lia|]. destruct ss as [|s starts]; [done|]. cbn in Hs. injection Hs as ->.
  cbn [partition_point]. change (as_u32 0) with 0. destruct (Z.leb_spec 0 (Z.of_nat off)); [|lia].
  apply lookup_lt_is_Some. rewrite Hl. cbn [length]. pose proof (partition_point_le (λ s, s <=? Z.of_nat off) starts). lia.
Qed.
