(* ===== verification/BitPacked.v ===== *)
(** Fixed-width bit packing: the [BitPacked] plane of crates/graph-format/src/plane.rs.

    An element is [width] bits wide and may straddle two [u64] words.  An index past the words,
    a panic of the source, is [None]. *)

From S2P Require Import Prelude Values Wire Bits EliasFano.

Record BitPacked := {
  bp_n : Z;
  bp_base : Z;
  bp_width : Z;
  bp_word_list : list Z;
}.

Definition bp_words (n width : Z) : Z := div_ceil (n * width) 64.

Definition bp_mask (width : Z) : Z := if width =? 64 then 2 ^ 64 - 1 else Z.shiftl 1 width - 1.

Definition bp_read (words : list Z) (width : Z) (i : nat) : option Z :=
  let bit := (i * Z.to_nat width)%nat in
  let w := (bit / 64)%nat in
  let s := Z.of_nat (bit mod 64) in
  x ← words !! w;
  let lo := Z.shiftr x s in
  if s + width <=? 64 then Some (Z.land lo (bp_mask width))
  else
    y ← words !! S w;
    let hi := as_u64 (Z.shiftl y (64 - s)) in
    Some (Z.land (Z.lor lo hi) (bp_mask width)).

(** [words[w] |= x]. *)
Definition or_word (w : nat) (x : Z) (words : list Z) : option (list Z) :=
  if (length words <=? w)%nat then None else Some (alter (λ y, Z.lor y x) w words).

Definition bp_write (words : list Z) (width : Z) (i : nat) (v : Z) : option (list Z) :=
  let bit := (i * Z.to_nat width)%nat in
  let w := (bit / 64)%nat in
  let s := Z.of_nat (bit mod 64) in
  words ← or_word w (as_u64 (Z.shiftl v s)) words;
  if 64 <? s + width then or_word (S w) (Z.shiftr v (64 - s)) words else Some words.

(** The [for] of [from_values], from index [i]. *)
Fixpoint bp_fill (base width : Z) (i : nat) (values words : list Z) : option (list Z) :=
  match values with
  | [] => Some words
  | v :: values => words ← bp_write words width i (v - base); bp_fill base width (S i) values words
  end.

(** [64 - span.leading_zeros()]. *)
Definition bp_width_of (span : Z) : Z := if span =? 0 then 1 else Z.log2 span + 1.

(** The [unwrap] of the minimum panics on an empty slice. *)
Definition bp_from_values (values : list Z) : option BitPacked :=
  match values with
  | [] => None
  | v :: rest =>
      let base := foldl Z.min v rest in
      let max := foldl Z.max v rest in
      let span := max - base in
      let width := bp_width_of span in
      let words := replicate (Z.to_nat (Z.max (bp_words (zlen values) width) 1)) 0 in
      words ← bp_fill base width 0 values words;
      Some {| bp_n := as_u32 (zlen values); bp_base := base; bp_width := width; bp_word_list := words |}
  end.

(** The addition wraps in a release build. *)
Definition bp_value_at (b : BitPacked) (i : nat) : option Z :=
  x ← bp_read (bp_word_list b) (bp_width b) i; Some (as_u64 (bp_base b + x)).

Definition bp_serialize (b : BitPacked) : bytes :=
  write_uvarint (bp_n b) ++ write_uvarint (bp_base b) ++ [bp_width b] ++
  concat (map (le_bytes 8) (bp_word_list b)).

Definition bp_body_len (b : BitPacked) : Z := zlen (bp_serialize b).

(** The [while !r.is_empty()] of [deserialize]; the length has been checked to be a multiple of
    eight, so every [split_at] is in range. *)
Definition bp_deserialize (body : bytes) : result BitPacked :=
  '(n, r) ← read_uvarint body;
  let n := as_u32 n in
  '(base, r) ← read_uvarint r;
  '(width, r) ← split_first (Bail "bitpacked plane body truncated at width") r;
  if (width =? 0) || (64 <? width) then Err (Bail "bitpacked plane width out of range")
  else
    let nwords := bp_words n width in
    let need := nwords * 8 in
    if negb (zlen r =? need) then Err (Bail "bitpacked plane body word bytes")
    else Ok {| bp_n := n; bp_base := base; bp_width := width; bp_word_list := map le_val (as_chunks 8 r) |}.

(** * Reading and writing a field *)

Lemma vbit_or_word w x words words' q : or_word w x words = Some words' →
  length words' = length words ∧
  vbit 64 words' q = vbit 64 words q || ((q / 64 =? w)%nat && Z.testbit x (Z.of_nat (q mod 64))).
Proof.
  unfold or_word. destruct (Nat.leb_spec (length words) w); [done|]. intros [= <-]. split; [apply length_alter|].
  unfold vbit. destruct (Nat.eqb_spec (q / 64) w) as [->|Hne]; cbn [andb].
  - rewrite list_lookup_alter_eq. destruct (lookup_lt_is_Some_2 words w) as [y ->]; [done|]. simpl. apply Z.lor_spec.
  - rewrite list_lookup_alter_ne by done. by rewrite orb_false_r.
Qed.

Lemma testbit_above v w b : 0 <= v < 2 ^ w → 0 < w → w <= b → Z.testbit v b = false.
Proof. intros Hv Hw Hb. apply Z.bits_above_log2; [lia|]. pose proof (log2_width w v Hw Hv). lia. Qed.

Lemma testbit_as_u64 x b : 0 <= b < 64 → Z.testbit (as_u64 x) b = Z.testbit x b.
Proof. intros Hb. unfold as_u64. apply Z.mod_pow2_bits_low. lia. Qed.

Lemma or_word_ok w x words words' : 0 <= x < 2 ^ 64 → or_word w x words = Some words' → cells_ok 64 words → cells_ok 64 words'.
Proof.
  unfold or_word. destruct (_ <=? _)%nat; [done|]. intros Hx [= <-] Hok. apply Forall_alter; [done|].
  intros y _ Hy. apply (lor_width 64); [lia|exact Hy|exact Hx].
Qed.

Lemma bp_write_spec words width i v : 1 <= width <= 64 → 0 <= v < 2 ^ width → cells_ok 64 words →
  ((i + 1) * Z.to_nat width <= 64 * length words)%nat →
  ∃ words', bp_write words width i v = Some words' ∧ length words' = length words ∧ cells_ok 64 words' ∧
    ∀ q, vbit 64 words' q =
      vbit 64 words q || ((i * Z.to_nat width <=? q)%nat && Z.testbit v (Z.of_nat (q - i * Z.to_nat width))).
Proof.
  intros Hw Hv Hok Hroom. unfold bp_write. cbv zeta. set (bit := (i * Z.to_nat width)%nat) in *.
  pose proof (Nat.div_mod_eq bit 64) as Hdm. pose proof (Nat.mod_upper_bound bit 64 ltac:(lia)) as Hs.
  set (w := (bit / 64)%nat) in *. set (s := (bit mod 64)%nat) in *.
  assert (0 <= as_u64 (Z.shiftl v (Z.of_nat s)) < 2 ^ 64) as Hx by (apply Z.mod_pos_bound; lia).
  destruct (or_word w (as_u64 (Z.shiftl v (Z.of_nat s))) words) as [words1|] eqn:E1.
  2:{ unfold or_word in E1. destruct (Nat.leb_spec (length words) w); [|done]. nia. }
  cbn [mbind option_bind]. pose proof (or_word_ok _ _ _ _ Hx E1 Hok) as Hok1.
  assert (∀ q, vbit 64 words1 q = vbit 64 words q ||
    ((q / 64 =? w)%nat && (s <=? q mod 64)%nat && Z.testbit v (Z.of_nat (q mod 64) - Z.of_nat s))) as Hb1.
  { intros q. rewrite (proj2 (vbit_or_word _ _ _ _ q E1)). f_equal. rewrite <- andb_assoc. f_equal.
    pose proof (Nat.mod_upper_bound q 64 ltac:(lia)). rewrite testbit_as_u64, Z.shiftl_spec by lia.
    destruct (Nat.leb_spec s (q mod 64)); [done|]. cbn [andb]. by rewrite Z.testbit_neg_r by lia. }
  pose proof (proj1 (vbit_or_word _ _ _ _ O E1)) as Hl1.
  assert (∀ q, (q / 64 =? w)%nat && (s <=? q mod 64)%nat && Z.testbit v (Z.of_nat (q mod 64) - Z.of_nat s) =
    (q / 64 =? w)%nat && (bit <=? q)%nat && Z.testbit v (Z.of_nat (q - bit))) as Hsame.
  { intros q. pose proof (Nat.div_mod_eq q 64). destruct (Nat.eqb_spec (q / 64) w) as [Eq|]; [|done]. cbn [andb]. rewrite Eq in *.
    destruct (Nat.leb_spec s (q mod 64)), (Nat.leb_spec bit q); try lia; cbn [andb]. f_equal. lia. }
  setoid_rewrite Hsame in Hb1. clear Hsame.
  destruct (Z.ltb_spec 64 (Z.of_nat s + width)) as [Hstr|Hfit].
  - destruct (or_word (S w) (Z.shiftr v (64 - Z.of_nat s)) words1) as [words2|] eqn:E2.
    2:{ unfold or_word in E2. destruct (Nat.leb_spec (length words1) (S w)); [|done]. nia. }
    exists words2. split; [done|]. split; [by rewrite (proj1 (vbit_or_word _ _ _ _ O E2))|]. split.
    { eapply or_word_ok; [|exact E2|done]. split; [apply Z.shiftr_nonneg; lia|]. rewrite Z.shiftr_div_pow2 by lia.
      apply Z.div_lt_upper_bound; [apply Z.pow_pos_nonneg; lia|]. rewrite <- Z.pow_add_r by lia.
      eapply Z.lt_le_trans; [apply Hv|]. apply Z.pow_le_mono_r; lia. }
    intros q. rewrite (proj2 (vbit_or_word _ _ _ _ q E2)), Hb1, <- orb_assoc. f_equal.
    pose proof (Nat.div_mod_eq q 64). pose proof (Nat.mod_upper_bound q 64 ltac:(lia)). rewrite Z.shiftr_spec by lia.
    destruct (Nat.eqb_spec (q / 64) w) as [Eq|Hne1]; cbn [andb].
    { rewrite (proj2 (Nat.eqb_neq _ _)) by lia. cbn [andb]. by rewrite orb_false_r. }
    destruct (Nat.eqb_spec (q / 64) (S w)) as [Eq|Hne2]; cbn [andb orb].
    { rewrite Eq in *. rewrite (proj2 (Nat.leb_le bit q)) by lia. cbn [andb]. f_equal. lia. }
    destruct (Nat.leb_spec bit q); [|done]. cbn [andb]. symmetry. apply (testbit_above v width); lia.
  - exists words1. split_and!; [done|done|done|]. intros q. rewrite Hb1. f_equal.
    pose proof (Nat.div_mod_eq q 64). pose proof (Nat.mod_upper_bound q 64 ltac:(lia)). destruct (Nat.eqb_spec (q / 64) w) as [Eq|Hne]; [done|]. cbn [andb].
    destruct (Nat.leb_spec bit q); [|done]. cbn [andb]. symmetry. apply (testbit_above v width); lia.
Qed.

Lemma bp_mask_bits width b : 1 <= width <= 64 → 0 <= b → Z.testbit (bp_mask width) b = (b <? width).
Proof.
  intros Hw Hb. assert (bp_mask width = Z.ones width) as ->.
  { unfold bp_mask. rewrite Z.ones_equiv. destruct (Z.eqb_spec width 64) as [->|]; [done|]. by rewrite Z.shiftl_1_l. }
  destruct (Z.ltb_spec b width); [by apply Z.ones_spec_low|apply Z.ones_spec_high; lia].
Qed.

Lemma bp_read_spec words width i : 1 <= width <= 64 → cells_ok 64 words →
  ((i + 1) * Z.to_nat width <= 64 * length words)%nat →
  ∃ x, bp_read words width i = Some x ∧ 0 <= x ∧
    ∀ b, Z.testbit x (Z.of_nat b) = (Z.of_nat b <? width) && vbit 64 words (i * Z.to_nat width + b).
Proof.
  intros Hw Hok Hroom. unfold bp_read. cbv zeta. set (bit := (i * Z.to_nat width)%nat) in *.
  pose proof (Nat.div_mod_eq bit 64) as Hdm. pose proof (Nat.mod_upper_bound bit 64 ltac:(lia)) as Hs.
  set (w := (bit / 64)%nat) in *. set (s := (bit mod 64)%nat) in *.
  destruct (lookup_lt_is_Some_2 words w) as [x Ex]; [nia|]. rewrite Ex. cbn [mbind option_bind].
  assert (0 <= x < 2 ^ 64) as Hx by by apply (Forall_lookup_1 _ _ _ _ Hok Ex).
  assert (∀ b, (s + b < 64)%nat → vbit 64 words (bit + b) = Z.testbit x (Z.of_nat (s + b))) as Hlow.
  { intros b Hb. unfold vbit. assert ((bit + b) / 64 = w ∧ (bit + b) mod 64 = s + b)%nat as [-> ->].
    { replace (bit + b)%nat with ((s + b) + w * 64)%nat by lia.
      rewrite Nat.div_add, Nat.Div0.mod_add, Nat.div_small, Nat.mod_small by lia. lia. }
    by rewrite Ex. }
  destruct (Z.leb_spec (Z.of_nat s + width) 64) as [Hfit|Hstr].
  - eexists. split; [done|]. split; [apply Z.land_nonneg; left; apply Z.shiftr_nonneg; lia|]. intros b.
    rewrite Z.land_spec, bp_mask_bits, Z.shiftr_spec, andb_comm by lia. destruct (Z.ltb_spec (Z.of_nat b) width); [|done].
    cbn [andb]. rewrite Hlow by lia. f_equal. lia.
  - destruct (lookup_lt_is_Some_2 words (S w)) as [y Ey]; [nia|]. rewrite Ey. cbn [mbind option_bind].
    assert (0 <= as_u64 (Z.shiftl y (64 - Z.of_nat s))) by (apply Z.mod_pos_bound; lia).
    eexists. split; [done|]. split.
    { apply Z.land_nonneg. left. apply Z.lor_nonneg. split; [apply Z.shiftr_nonneg; lia|done]. }
    intros b. rewrite Z.land_spec, bp_mask_bits, Z.lor_spec, Z.shiftr_spec, andb_comm by lia.
    destruct (Z.ltb_spec (Z.of_nat b) width); [|done]. cbn [andb]. rewrite testbit_as_u64, Z.shiftl_spec by lia.
    destruct (decide (s + b < 64)%nat) as [Hb|Hb].
    + rewrite Hlow by done. rewrite (Z.testbit_neg_r y) by lia. rewrite orb_false_r. f_equal. lia.
    + rewrite (testbit_above x 64) by lia. cbn [orb]. unfold vbit.
      assert ((bit + b) / 64 = S w ∧ (bit + b) mod 64 = s + b - 64)%nat as [-> ->].
      { replace (bit + b)%nat with ((s + b - 64) + S w * 64)%nat by lia.
        rewrite Nat.div_add, Nat.Div0.mod_add, Nat.div_small, Nat.mod_small by lia. lia. }
      rewrite Ey. cbn [default from_option]. unfold id. f_equal. lia.
Qed.

(** * Values *)

Lemma bp_fill_spec base width values i words : 1 <= width <= 64 → Forall (λ v, 0 <= v - base < 2 ^ width) values →
  cells_ok 64 words → ((i + length values) * Z.to_nat width <= 64 * length words)%nat →
  (∀ q, (i * Z.to_nat width <= q)%nat → vbit 64 words q = false) →
  ∃ words', bp_fill base width i values words = Some words' ∧ length words' = length words ∧ cells_ok 64 words' ∧
    (∀ q, (q < i * Z.to_nat width)%nat → vbit 64 words' q = vbit 64 words q) ∧
    ∀ j v b, values !! j = Some v → Z.of_nat b < width → vbit 64 words' ((i + j) * Z.to_nat width + b) = Z.testbit (v - base) (Z.of_nat b).
Proof.
  intros Hw. revert i words. induction values as [|v values IH]; intros i words Hv Hok Hroom Hz; cbn [bp_fill].
  { exists words. split_and!; done. }
  apply Forall_cons in Hv as [Hv Hvs]. cbn [length] in Hroom.
  destruct (bp_write_spec words width i (v - base)) as (w1 & -> & Hl1 & Hok1 & Hb1); [done|done|done|lia|].
  cbn [mbind option_bind]. destruct (IH (S i) w1) as (w2 & -> & Hl2 & Hok2 & Hlow & Hget); [done|done|rewrite Hl1; lia| |].
  { intros q Hq. rewrite Hb1, Hz by lia. cbn [orb]. destruct (Nat.leb_spec (i * Z.to_nat width) q); [|done]. cbn [andb].
    apply (testbit_above _ width); lia. }
  exists w2. split; [done|]. split; [lia|]. split; [done|]. split.
  - intros q Hq. rewrite Hlow by lia. rewrite Hb1, (proj2 (Nat.leb_gt _ _)) by lia. by rewrite orb_false_r.
  - intros [|j] x b Hj Hb; cbn in Hj.
    + injection Hj as <-. rewrite Nat.add_0_r, Hlow, Hb1, Hz by lia. cbn [orb]. rewrite (proj2 (Nat.leb_le _ _)) by lia.
      cbn [andb]. do 2 f_equal. lia.
    + rewrite <- (Hget j x b Hj Hb). do 2 f_equal. lia.
Qed.

Lemma foldl_min_le v rest : foldl Z.min v rest <= v ∧ Forall (λ x, foldl Z.min v rest <= x) rest ∧ foldl Z.min v rest ∈ v :: rest.
Proof.
  revert v. induction rest as [|x rest IH]; intros v; cbn [foldl]; [split_and!; [lia|constructor|by left]|].
  destruct (IH (Z.min v x)) as (H1 & H2 & H3). split_and!; [lia|constructor; [lia|done]|].
  apply elem_of_cons in H3 as [H3|H3]; [|by right; right]. rewrite H3. destruct (Z.min_spec v x) as [[_ ->]|[_ ->]]; [by left|by right; left].
Qed.

Lemma foldl_max_ge v rest : v <= foldl Z.max v rest ∧ Forall (λ x, x <= foldl Z.max v rest) rest ∧ foldl Z.max v rest ∈ v :: rest.
Proof.
  revert v. induction rest as [|x rest IH]; intros v; cbn [foldl]; [split_and!; [lia|constructor|by left]|].
  destruct (IH (Z.max v x)) as (H1 & H2 & H3). split_and!; [lia|constructor; [lia|done]|].
  apply elem_of_cons in H3 as [H3|H3]; [|by right; right]. rewrite H3. destruct (Z.max_spec v x) as [[_ ->]|[_ ->]]; [by right; left|by left].
Qed.

Lemma bp_width_bounds span : 0 <= span < 2 ^ 64 → 1 <= bp_width_of span <= 64 ∧ span < 2 ^ bp_width_of span.
Proof.
  intros Hs. unfold bp_width_of. destruct (Z.eqb_spec span 0) as [->|]; [cbn; lia|].
  pose proof (Z.log2_nonneg span). pose proof (Z.log2_spec span ltac:(lia)).
  assert (Z.log2 span < 64) by (apply Z.log2_lt_pow2; lia). rewrite <- Z.add_1_r in *. lia.
Qed.

(** A record the codec can have written or accepted. *)
Record bp_wf (b : BitPacked) : Prop := {
  bwf_n : is_u32 (bp_n b);
  bwf_base : is_u64 (bp_base b);
  bwf_width : 1 <= bp_width b <= 64;
  bwf_words : cells_ok 64 (bp_word_list b) ∧ zlen (bp_word_list b) = bp_words (bp_n b) (bp_width b);
}.

Lemma bp_from_values_spec values : 0 < zlen values < 2 ^ 32 → Forall is_u64 values →
  ∃ b, bp_from_values values = Some b ∧ bp_wf b ∧ bp_n b = zlen values ∧
    ∀ i v, values !! i = Some v → bp_value_at b i = Some v.
Proof.
  intros Hlen Hu. destruct values as [|v0 rest]; [by destruct Hlen|]. unfold bp_from_values. cbv zeta.
  set (values := v0 :: rest) in *. set (base := foldl Z.min v0 rest). set (mx := foldl Z.max v0 rest).
  destruct (foldl_min_le v0 rest) as (Hmin1 & Hmin2 & Hmin3), (foldl_max_ge v0 rest) as (Hmax1 & Hmax2 & Hmax3).
  fold base in Hmin1, Hmin2, Hmin3. fold mx in Hmax1, Hmax2, Hmax3.
  rewrite Forall_forall in Hu. pose proof (Hu _ Hmin3) as Hb. pose proof (Hu _ Hmax3) as Hm. unfold is_u64 in *.
  destruct (bp_width_bounds (mx - base)) as [Hw Hspan]; [lia|]. set (width := bp_width_of (mx - base)) in *.
  assert (Forall (λ v, base <= v <= mx) values) as Hr.
  { constructor; [lia|]. rewrite Forall_forall in Hmin2, Hmax2. apply Forall_forall. auto. }
  pose proof (div_ceil_spec (zlen values * width) 64 ltac:(lia) ltac:(nia)) as Hd.
  assert (1 <= bp_words (zlen values) width) as Hw1 by (unfold bp_words; nia). rewrite Z.max_l by done.
  destruct (bp_fill_spec base width values 0 (replicate (Z.to_nat (bp_words (zlen values) width)) 0)) as (words & -> & Hl & Hok & _ & Hget).
  - done.
  - eapply Forall_impl; [exact Hr|]. cbn. lia.
  - apply zeros_ok.
  - rewrite length_replicate. unfold bp_words, zlen in *. nia.
  - intros. apply vbit_zeros.
  - rewrite length_replicate in Hl. cbn [mbind option_bind]. eexists. split; [done|].
    assert (as_u32 (zlen values) = zlen values) as -> by (apply Z.mod_small; lia). split_and!.
    + split; cbn; [unfold is_u32; lia|done|done|]. split; [done|]. unfold zlen at 1. lia.
    + done.
    + intros i v Hi. unfold bp_value_at. cbn [bp_word_list bp_width bp_base]. pose proof (lookup_lt_Some _ _ _ Hi).
      destruct (bp_read_spec words width i) as (x & -> & Hx & Hbits); [done|done|rewrite Hl; unfold bp_words, zlen in *; nia|].
      cbn [mbind option_bind]. f_equal. rewrite Forall_lookup in Hr. pose proof (Hr _ _ Hi).
      assert (x = v - base) as ->; [|unfold as_u64; rewrite Z.mod_small; lia].
      apply Z.bits_inj'. intros n Hn. replace n with (Z.of_nat (Z.to_nat n)) by lia. rewrite Hbits.
      destruct (Z.ltb_spec (Z.of_nat (Z.to_nat n)) width); cbn [andb]; [by apply Hget|].
      symmetry. apply (testbit_above _ width); lia.
Qed.

(** ** Stored records *)

Lemma bp_roundtrip b : bp_wf b → bp_deserialize (bp_serialize b) = Ok b.
Proof.
  intros [Hn Hb Hw [Hok Hlen]]. destruct b as [n base width words]. cbn [bp_n bp_base bp_width bp_word_list] in *.
  unfold bp_deserialize, bp_serialize. cbn [bp_n bp_base bp_width bp_word_list]. unfold is_u32 in Hn.
  rewrite read_write_uvarint by (unfold is_u64; lia). cbn [mbind result_bind].
  rewrite read_write_uvarint by done. cbn [mbind result_bind app split_first].
  destruct (Z.eqb_spec width 0); [lia|]. destruct (Z.ltb_spec 64 width); [lia|]. cbn [orb].
  unfold as_u32. rewrite Z.mod_small by lia. unfold zlen at 1. rewrite length_words_bytes, <- Hlen.
  destruct (Z.eqb_spec (Z.of_nat (8 * length words)) (zlen words * 8)) as [_|Hne]; [|unfold zlen in Hne; lia]. cbn [negb].
  rewrite words_bytes_read by by apply cells_u64. done.
Qed.

Lemma bp_deserialize_wf body b : Forall is_u8 body → bp_deserialize body = Ok b → bp_wf b.
Proof.
  intros Hu. unfold bp_deserialize. intros ([n r1] & E1 & ([base r2] & E2 & ([width r3] & E3 & H)%bind_Ok)%bind_Ok)%bind_Ok.
  pose proof (read_uvarint_suffixing _ _ _ E1) as [p1 ->]. pose proof (read_uvarint_suffixing _ _ _ E2) as [p2 ->].
  destruct r2 as [|x r2]; [done|]. injection E3 as -> ->. apply Forall_app in Hu as [_ Hu]. apply Forall_app in Hu as [_ Hu].
  apply Forall_cons in Hu as [Hx Hu]. destruct (Z.eqb_spec width 0); [done|]. destruct (Z.ltb_spec 64 width); [done|]. cbn [orb] in H.
  destruct (Z.eqb_spec (zlen r3) (bp_words (as_u32 n) width * 8)) as [El|]; [|done]. injection H as <-.
  unfold is_u8 in Hx. assert (is_u32 (as_u32 n)) as Hn by (apply Z.mod_pos_bound; lia).
  split; cbn [bp_n bp_base bp_width bp_word_list]; [done|by eapply read_uvarint_u64|lia|]. split.
  - apply Forall_map. eapply Forall_impl.
    { apply Forall_and. split; [apply (as_chunks_lengths 8 r3)|apply (Forall_concat_chunks (P := is_u8) 8 r3 Hu)]. }
    intros w [Hlw Hwu]. pose proof (le_val_range w Hwu) as Hr. unfold zlen in Hr. rewrite Hlw in Hr. exact Hr.
  - unfold zlen at 1. rewrite length_map. unfold is_u32 in Hn.
    rewrite (as_chunks_exact 8 r3 (Z.to_nat (bp_words (as_u32 n) width))); [|lia|unfold zlen in El; lia].
    pose proof (div_ceil_spec (as_u32 n * width) 64 ltac:(lia) ltac:(nia)). unfold bp_words in *. lia.
Qed.

Lemma bp_wf_total b i : bp_wf b → Z.of_nat i < bp_n b → is_Some (bp_value_at b i).
Proof.
  intros [Hn Hb Hw [Hok Hlen]] Hi. unfold bp_value_at.
  pose proof (div_ceil_spec (bp_n b * bp_width b) 64 ltac:(lia) ltac:(nia)) as Hd. unfold bp_words, zlen in Hlen.
  destruct (bp_read_spec (bp_word_list b) (bp_width b) i) as (x & -> & _); [done|done|nia|]. by eexists.
Qed.
