(* ===== verification/Plane.v ===== *)
(** Compact planes of non-decreasing [u64] values and the key columns built on them
    (crates/graph-format/src/plane.rs): the candidate encodings, their selection by size, the
    stored record and its resident form.

    An index out of range that the source does not guard is [None] of an [option], and [Panic]
    where a result is expected.  The [f64] margin is a binary64 of the standard library's
    [SpecFloat].  The zstd crate is a parameter, as in BlockCodec.v. *)

From Stdlib Require Import SpecFloat.
From S2P Require Import Prelude Values Wire BlockCodec Bits EliasFano RunLength BitPacked.

Definition MAX_PLANE_VALUES : Z := MAX_BLOCK_BYTES / 8.

(** ** The selection margin *)

Definition f64_of (n : Z) : spec_float := binary_normalize 53 1024 n 0 false.
Definition f64_half : spec_float := S754_finite false 4503599627370496 (-53).

Definition DEFAULT_ZSTD_SELECT_MARGIN : spec_float := f64_half.

Definition margin_for_profile (profile : string) : spec_float :=
  if String.eqb profile "remote" || String.eqb profile "max" then f64_of 1 else DEFAULT_ZSTD_SELECT_MARGIN.

Record PlaneCodecOpts := {
  zstd_level : Z;
  zstd_margin : spec_float;
}.

Definition default_opts : PlaneCodecOpts := {| zstd_level := 3; zstd_margin := DEFAULT_ZSTD_SELECT_MARGIN |}.

(** ** Elias-Fano over the values *)

Definition ef_from_ascending (m universe : Z) (values : list Z) : option Ef :=
  let l := low_bits universe m in
  '(_, highs, lows) ← ef_fill l (ef_empty m universe l) values;
  Some {| ef_count := as_u32 m; ef_l := l; ef_lows := lows; ef_highs := highs;
          ef_sample := build_sample highs (Z.to_nat m) |}.

Definition ef_encode (values : list Z) : option Ef :=
  ef_from_ascending (zlen values) (default 0 (last values)) values.

Definition ef_serialized_len_for (m universe : Z) : Z :=
  let l := low_bits universe m in
  9 + ef_low_bytes m l + ef_nwords m universe l * 8.

Definition ef_mono_deserialize (body : bytes) : result Ef := ef_deserialize "ef-mono plane" 0 body.

(** The [while lo < hi] of the two [successor]s, over the access they use; the distance from
    [lo] to [hi] bounds the passes. *)
Fixpoint successor_loop (fuel : nat) (get : nat → option Z) (x : Z) (lo hi : nat) : option nat :=
  if (lo <? hi)%nat then
    match fuel with
    | O => None
    | S fuel =>
        let mid := (lo + (hi - lo) / 2)%nat in
        v ← get mid;
        if v <? x then successor_loop fuel get x (mid + 1) hi else successor_loop fuel get x lo mid
    end
  else Some lo.

Definition successor_of (get : nat → option Z) (len : nat) (x : Z) : option nat :=
  successor_loop len get x 0 len.

Definition ef_successor (e : Ef) (x : Z) : option nat :=
  successor_of (ef_value_at e) (Z.to_nat (ef_count e)) x.

Definition ef_contains (e : Ef) (x : Z) : option bool :=
  i ← ef_successor e x;
  if (Z.of_nat i <? ef_count e) then v ← ef_value_at e i; Some (v =? x) else Some false.

(** ** Run length *)

Definition rle_u64_deserialize (body : bytes) : result Rle :=
  rle_deserialize "rle plane" MAX_PLANE_VALUES (λ v, v) body.

(** ** The stored record and its resident form *)

Inductive PlaneKind := KEf | KRawU64 | KZstdDense | KRle | KBitPacked.

Definition plane_kind_u8 (k : PlaneKind) : Z :=
  match k with KEf => 1 | KRawU64 => 2 | KZstdDense => 3 | KRle => 4 | KBitPacked => 5 end.

Definition plane_kind_from_u8 (b : Z) : result PlaneKind :=
  match b with
  | 1 => Ok KEf
  | 2 => Ok KRawU64
  | 3 => Ok KZstdDense
  | 4 => Ok KRle
  | 5 => Ok KBitPacked
  | _ => Err (Bail "unknown plane codec tag")
  end.

Inductive PlaneChunk :=
  | CEf (e : Ef)
  | CRle (r : Rle)
  | CBitPacked (b : BitPacked).

Definition chunk_len (c : PlaneChunk) : Z :=
  match c with CEf e => ef_count e | CRle r => rle_n r | CBitPacked b => bp_n b end.

Definition or_panic {A} (m : option A) : result A :=
  match m with Some a => Ok a | None => Err (Panic "index out of bounds") end.

Definition chunk_access (c : PlaneChunk) (i : nat) : option Z :=
  match c with
  | CEf e => ef_value_at e i
  | CRle r => rle_value_at r i
  | CBitPacked b => bp_value_at b i
  end.

Definition chunk_value_at (c : PlaneChunk) (i : nat) : result (option Z) :=
  if chunk_len c <=? Z.of_nat i then Ok None
  else v ← or_panic (chunk_access c i); Ok (Some v).

(** [self.value_at(mid).unwrap()]. *)
Definition chunk_get (c : PlaneChunk) (i : nat) : option Z :=
  match chunk_value_at c i with Ok (Some v) => Some v | _ => None end.

Definition chunk_successor (c : PlaneChunk) (x : Z) : result nat :=
  or_panic (successor_of (chunk_get c) (Z.to_nat (chunk_len c)) x).

Definition chunk_to_values (c : PlaneChunk) : result (list Z) :=
  match c with
  | CEf e => or_panic (mapM (ef_value_at e) (seq 0 (Z.to_nat (ef_count e))))
  | CRle r => Ok (rle_to_values r)
  | CBitPacked b => or_panic (mapM (bp_value_at b) (seq 0 (Z.to_nat (bp_n b))))
  end.

Definition resident_from_values (values : list Z) : result PlaneChunk :=
  match values with
  | first :: _ =>
      if negb (forallb (λ v, v =? first) values) then e ← or_panic (ef_encode values); Ok (CEf e)
      else Ok (CRle (rle_from_values values))
  | [] => Ok (CRle (rle_from_values values))
  end.

Definition dense_bytes (values : list Z) : bytes := concat (map (le_bytes 8) values).

(** Whether the [zstd-dense] candidate is tried, and whether it then wins. *)
Definition price_zstd (opts : PlaneCodecOpts) (free_len raw_len : Z) : bool :=
  SFltb (f64_of 0) (zstd_margin opts) &&
  (SFleb (f64_of 1) (zstd_margin opts) || (raw_len <? Z.min (free_len * 4) (2 ^ 64 - 1))).

Definition zstd_wins (opts : PlaneCodecOpts) (zstd_len free_len : Z) : bool :=
  SFleb (f64_of zstd_len) (SFmul 53 1024 (f64_of free_len) (zstd_margin opts)).

Section Zstd.
Context (zstd_encode_all : bytes → Z → result bytes).
Context (zstd_decode : bytes → list bytes * bool).

(** The priced [zstd-dense] record, when it is small enough. *)
Definition plane_zstd (values : list Z) (opts : PlaneCodecOpts) (free_len raw_len : Z) : result (option bytes) :=
  if price_zstd opts free_len raw_len then
    zbytes ← compress zstd_encode_all (dense_bytes values) (zstd_level opts);
    let hdr := plane_kind_u8 KZstdDense :: write_uvarint (zlen values) in
    let zstd_len := zlen hdr + zlen zbytes in
    Ok (if zstd_wins opts zstd_len free_len then Some (hdr ++ zbytes) else None)
  else Ok None.

Definition encode_plane (values : list Z) (opts : PlaneCodecOpts) : result bytes :=
  if MAX_PLANE_VALUES <? zlen values then Err (Bail "plane exceeds the value ceiling")
  else if (length values =? 0)%nat then
    Ok (plane_kind_u8 KRle :: rle_serialize (rle_from_values values))
  else
    ef ← or_panic (ef_encode values);
    let ef_len := 1 + ef_serialized_len ef in
    let rle := rle_from_values values in
    let rle_len := 1 + rle_body_len rle in
    bp ← or_panic (bp_from_values values);
    let bp_len := 1 + bp_body_len bp in
    let raw_len := 1 + zlen values * 8 in
    let free_len := Z.min (Z.min (Z.min ef_len rle_len) bp_len) raw_len in
    zstd ← plane_zstd values opts free_len raw_len;
    match zstd with
    | Some record => Ok record
    | None =>
        if (rle_len <=? ef_len) && (rle_len <=? bp_len) && (rle_len <=? raw_len) then
          Ok (plane_kind_u8 KRle :: rle_serialize rle)
        else if (bp_len <=? ef_len) && (bp_len <=? raw_len) then
          Ok (plane_kind_u8 KBitPacked :: bp_serialize bp)
        else if ef_len <=? raw_len then Ok (plane_kind_u8 KEf :: ef_serialize ef)
        else Ok (plane_kind_u8 KRawU64 :: dense_bytes values)
    end.

Definition decode_plane (record : bytes) : result PlaneChunk :=
  '(tag, body) ← split_first (Bail "empty plane record") record;
  kind ← plane_kind_from_u8 tag;
  match kind with
  | KEf => e ← ef_mono_deserialize body; Ok (CEf e)
  | KRle => r ← rle_u64_deserialize body; Ok (CRle r)
  | KBitPacked => b ← bp_deserialize body; Ok (CBitPacked b)
  | KRawU64 =>
      if negb (zlen body mod 8 =? 0) then Err (Bail "raw-u64 plane body not a multiple of 8")
      else resident_from_values (map le_val (as_chunks 8 body))
  | KZstdDense =>
      '(n, body) ← read_uvarint body;
      let raw_len := Z.min (n * 8) (2 ^ 64 - 1) in
      dense ← decompress zstd_decode body raw_len;
      if negb (zlen dense =? raw_len) then Err (Bail "zstd plane decoded length")
      else resident_from_values (map le_val (as_chunks 8 dense))
  end.

End Zstd.

(** ** Key columns *)

Definition KeyColumn : Type := PlaneChunk.

Definition key_get (c : KeyColumn) (i : nat) : result (option Z) := chunk_value_at c i.
Definition key_first (c : KeyColumn) : result (option Z) := chunk_value_at c 0.
Definition key_last (c : KeyColumn) : result (option Z) :=
  if chunk_len c =? 0 then Ok None else chunk_value_at c (Z.to_nat (chunk_len c) - 1).

Definition key_fence (c : KeyColumn) : result (option (Z * Z)) :=
  lo ← key_first c;
  hi ← key_last c;
  Ok (match lo, hi with Some lo, Some hi => Some (lo, hi) | _, _ => None end).

Definition key_find (c : KeyColumn) (x : Z) : result (option nat) :=
  i ← chunk_successor c x;
  if Z.of_nat i <? chunk_len c then
    v ← chunk_value_at c i;
    Ok (if bool_decide (v = Some x) then Some i else None)
  else Ok None.

(** * What a resident form answers *)

(** A column's values: non-decreasing, and no wider than an Elias-Fano low field may be for the
    eight bytes [read_low] loads. *)
Record plane_values (values : list Z) : Prop := {
  pv_u64 : Forall is_u64 values;
  pv_sorted : StronglySorted Z.le values;
  pv_count : zlen values <= MAX_PLANE_VALUES;
  pv_span : default 0 (last values) < zlen values * 2 ^ 58 ∨ values = [];
}.

(** The resident form has the values' count, the value at every index, and materialises them. *)
Record chunk_answers (c : PlaneChunk) (values : list Z) : Prop := {
  ca_len : chunk_len c = zlen values;
  ca_get i v : values !! i = Some v → chunk_access c i = Some v;
  ca_all : chunk_to_values c = Ok values;
}.

Lemma mapM_seq (get : nat → option Z) (values : list Z) : (∀ i v, values !! i = Some v → get i = Some v) →
  mapM get (seq 0 (length values)) = Some values.
Proof.
  intros Hget. apply mapM_Some. apply Forall2_same_length_lookup. split; [by rewrite length_seq|].
  intros i j v Hj Hv. apply lookup_seq in Hj as [-> _]. by apply Hget.
Qed.

Lemma packed_answers c values : (∀ r, c ≠ CRle r) → chunk_len c = zlen values →
  (∀ i v, values !! i = Some v → chunk_access c i = Some v) → chunk_answers c values.
Proof.
  intros Hc Hlen Hget. split; [done|done|]. destruct c as [e|r|b]; [|by destruct (Hc r)|]; cbn in *.
  all: rewrite Hlen; unfold zlen; rewrite Nat2Z.id, (mapM_seq _ values) by done; done.
Qed.

Lemma chunk_answers_value_at c values i : chunk_answers c values → chunk_value_at c i = Ok (values !! i).
Proof.
  intros [Hlen Hget _]. unfold chunk_value_at. rewrite Hlen. unfold zlen. destruct (Z.leb_spec (Z.of_nat (length values)) (Z.of_nat i)).
  - by rewrite lookup_ge_None_2 by lia.
  - destruct (lookup_lt_is_Some_2 values i) as [v Ev]; [lia|]. by rewrite (Hget _ _ Ev), Ev.
Qed.

Lemma last_le values : StronglySorted Z.le values → Forall (λ v, v <= default 0 (last values)) values.
Proof.
  intros Hs. apply Forall_lookup. intros i v Hi. pose proof (lookup_lt_Some _ _ _ Hi).
  destruct (last values) as [u|] eqn:E; [|by apply last_None in E as ->].
  rewrite last_lookup in E. cbn. eapply sorted_lookup_le; eauto. lia.
Qed.

Lemma last_u64 values : Forall is_u64 values → is_u64 (default 0 (last values)).
Proof.
  intros Hu. destruct (last values) as [u|] eqn:E; [|done]. rewrite last_lookup in E. cbn. by eapply Forall_lookup_1 in E; [|exact Hu].
Qed.

Lemma ef_encode_answers values : plane_values values → values ≠ [] →
  ∃ e, ef_encode values = Some e ∧ ef_wf 0 e ∧ chunk_answers (CEf e) values.
Proof.
  intros [Hu Hs Hn [Hspan|]] Hne; [|done]. assert (0 < zlen values) as Hpos by (destruct values; [done|]; rewrite zlen_cons; pose proof (zlen_nonneg values); lia).
  unfold MAX_PLANE_VALUES, MAX_BLOCK_BYTES in Hn. change (Z.shiftl 2 30 / 8) with (2 ^ 28) in Hn.
  destruct (ef_encode_spec 0 values (default 0 (last values)) _ (zlen values) eq_refl) as (highs & lows & E & _ & _ & Hwf & _ & Hget);
    [done|lia|lia|lia|done|done|by apply last_u64|by apply last_le|].
  unfold ef_encode, ef_from_ascending. rewrite E. cbn [mbind option_bind].
  assert (as_u32 (zlen values) = zlen values - 0) as -> by (unfold as_u32; rewrite Z.mod_small; lia).
  eexists. split; [done|]. split; [exact Hwf|]. apply packed_answers; [done|cbn; lia|]. cbn [chunk_access]. apply Hget.
  apply low_bits_le; [lia|lia|]. change (57 + 1) with 58. pose proof (last_u64 _ Hu) as [? _]. lia.
Qed.

Lemma plane_values_len values : plane_values values → zlen values <= 2 ^ 28.
Proof. intros [_ _ Hn _]. exact Hn. Qed.

Lemma rle_answers values : zlen values < 2 ^ 32 → chunk_answers (CRle (rle_from_values values)) values.
Proof.
  intros Hlen. split; [by apply rle_from_values_n| |by cbn; rewrite rle_materialise].
  intros i v Hi. cbn [chunk_access]. rewrite rle_lookup; [done|done|by eapply lookup_lt_Some].
Qed.

Lemma resident_answers values : plane_values values →
  ∃ c, resident_from_values values = Ok c ∧ chunk_answers c values.
Proof.
  intros Hv. pose proof (plane_values_len _ Hv). destruct values as [|v values]; [by eexists; split; [|apply rle_answers]|].
  unfold resident_from_values. destruct (negb _).
  - destruct (ef_encode_answers _ Hv) as (e & -> & _ & Hans); [done|]. by eexists.
  - eexists. split; [done|]. apply rle_answers. lia.
Qed.

Lemma dense_bytes_read values : Forall is_u64 values → map le_val (as_chunks 8 (dense_bytes values)) = values.
Proof. apply words_bytes_read. Qed.

Lemma zlen_dense values : zlen (dense_bytes values) = zlen values * 8.
Proof. unfold zlen, dense_bytes. rewrite length_words_bytes. lia. Qed.

(** ** The round trip of each candidate *)

Section Candidates.
Context (zstd_encode_all : bytes → Z → result bytes) (zstd_decode : bytes → list bytes * bool).
Context (values : list Z) (Hv : plane_values values).

Abbreviation answers record := (∃ c, decode_plane zstd_decode record = Ok c ∧ chunk_answers c values).

Lemma rle_candidate : answers (plane_kind_u8 KRle :: rle_serialize (rle_from_values values)).
Proof.
  pose proof (plane_values_len _ Hv). unfold decode_plane. cbn [split_first mbind result_bind plane_kind_u8 plane_kind_from_u8].
  unfold rle_u64_deserialize. rewrite rle_roundtrip.
  - eexists. split; [done|]. apply rle_answers. lia.
  - exact H.
  - done.
  - eapply Forall_impl; [apply Hv|]. done.
Qed.

Lemma ef_candidate e : values ≠ [] → ef_encode values = Some e → answers (plane_kind_u8 KEf :: ef_serialize e).
Proof.
  intros Hne E. destruct (ef_encode_answers _ Hv Hne) as (e' & E' & Hwf & Hans). rewrite E in E'. injection E' as <-.
  unfold decode_plane. cbn [split_first mbind result_bind plane_kind_u8 plane_kind_from_u8].
  unfold ef_mono_deserialize. rewrite ef_roundtrip by done. by eexists.
Qed.

Lemma bp_candidate b : values ≠ [] → bp_from_values values = Some b → answers (plane_kind_u8 KBitPacked :: bp_serialize b).
Proof.
  intros Hne E. pose proof (plane_values_len _ Hv).
  destruct (bp_from_values_spec values) as (b' & E' & Hwf & Hn & Hget); [destruct values; [done|]; rewrite zlen_cons in *; pose proof (zlen_nonneg l); lia|apply Hv|].
  rewrite E in E'. injection E' as <-.
  unfold decode_plane. cbn [split_first mbind result_bind plane_kind_u8 plane_kind_from_u8]. rewrite bp_roundtrip by done.
  eexists. split; [done|]. by apply packed_answers.
Qed.

Lemma raw_candidate : answers (plane_kind_u8 KRawU64 :: dense_bytes values).
Proof.
  unfold decode_plane. cbn [split_first mbind result_bind plane_kind_u8 plane_kind_from_u8].
  rewrite zlen_dense, Z.mod_mul, dense_bytes_read by (done || apply Hv). by apply resident_answers.
Qed.

Lemma zstd_candidate level zbytes : zstd_lossless zstd_encode_all zstd_decode →
  compress zstd_encode_all (dense_bytes values) level = Ok zbytes →
  answers ((plane_kind_u8 KZstdDense :: write_uvarint (zlen values)) ++ zbytes).
Proof.
  intros Hz Hc. pose proof (plane_values_len _ Hv). pose proof (zlen_nonneg values).
  unfold decode_plane. cbn [app split_first mbind result_bind plane_kind_u8 plane_kind_from_u8].
  rewrite read_write_uvarint by (unfold is_u64; lia). cbn [mbind result_bind]. rewrite Z.min_l by lia.
  rewrite <- zlen_dense. rewrite (compress_decompress _ _ (dense_bytes values) level zbytes Hz).
  2:{ rewrite zlen_dense. unfold MAX_BLOCK_BYTES. change (Z.shiftl 2 30) with (2 ^ 31). lia. }
  2:{ exact Hc. }
  cbn [mbind result_bind]. rewrite Z.eqb_refl. cbn [negb]. rewrite dense_bytes_read by apply Hv. by apply resident_answers.
Qed.

Lemma plane_zstd_answers opts free_len raw_len : zstd_lossless zstd_encode_all zstd_decode →
  (∀ raw level, is_ok (zstd_encode_all raw level) = true) →
  ∃ z, plane_zstd zstd_encode_all values opts free_len raw_len = Ok z ∧ ∀ record, z = Some record → answers record.
Proof.
  intros Hz Htotal. unfold plane_zstd. cbv zeta.
  match goal with |- context [if ?p then _ else _] => destruct p end; [|by exists None].
  destruct (compress _ _ _) as [zbytes|err] eqn:Ec.
  2:{ unfold compress in Ec. specialize (Htotal (dense_bytes values) (zstd_level opts)). by rewrite Ec in Htotal. }
  cbn [mbind result_bind]. eexists. split; [done|]. intros record.
  match goal with |- context [if ?p then _ else _] => destruct p end; [|done]. intros [= <-].
  by apply (zstd_candidate (zstd_level opts)).
Qed.

(** The candidates that need no decompression, whichever the sizes choose. *)
Lemma free_candidate e b (c1 c2 c3 : bool) : values ≠ [] → ef_encode values = Some e → bp_from_values values = Some b →
  ∃ record c, (if c1 then Ok (plane_kind_u8 KRle :: rle_serialize (rle_from_values values))
     else if c2 then Ok (plane_kind_u8 KBitPacked :: bp_serialize b)
     else if c3 then Ok (plane_kind_u8 KEf :: ef_serialize e)
     else Ok (plane_kind_u8 KRawU64 :: dense_bytes values)) = Ok record ∧
    decode_plane zstd_decode record = Ok c ∧ chunk_answers c values.
Proof.
  intros Hne Ee Eb. destruct c1; [|destruct c2; [|destruct c3]].
  - destruct rle_candidate as (c & ? & ?). by eexists _, c.
  - destruct (bp_candidate b Hne Eb) as (c & ? & ?). by eexists _, c.
  - destruct (ef_candidate e Hne Ee) as (c & ? & ?). by eexists _, c.
  - destruct raw_candidate as (c & ? & ?). by eexists _, c.
Qed.

End Candidates.

(** Whatever is chosen, the record decodes to a form that answers like the values. *)
Lemma encode_plane_answers zstd_encode_all zstd_decode values opts : plane_values values →
  zstd_lossless zstd_encode_all zstd_decode → (∀ raw level, is_ok (zstd_encode_all raw level) = true) →
  ∃ record c, encode_plane zstd_encode_all values opts = Ok record ∧ decode_plane zstd_decode record = Ok c ∧
    chunk_answers c values.
Proof.
  intros Hv Hz Htotal. unfold encode_plane. destruct (Z.ltb_spec MAX_PLANE_VALUES (zlen values)) as [Hgt|_].
  { pose proof (pv_count _ Hv). lia. }
  destruct (decide (values = [])) as [->|Hne].
  { destruct (rle_candidate zstd_decode [] Hv) as (c & Hc & Ha). by eexists _, c. }
  destruct (Nat.eqb_spec (length values) 0) as [E|_]; [by apply nil_length_inv in E|].
  destruct (ef_encode_answers _ Hv Hne) as (e & Ee & _ & _). rewrite Ee. cbn [or_panic mbind result_bind].
  destruct (bp_from_values_spec values) as (b & Eb & _).
  { pose proof (plane_values_len _ Hv). destruct values; [done|]. rewrite zlen_cons in *. pose proof (zlen_nonneg values). lia. }
  { apply Hv. }
  rewrite Eb. cbn [or_panic mbind result_bind]. cbv zeta.
  match goal with |- context [plane_zstd _ _ _ ?f ?r] =>
    destruct (plane_zstd_answers zstd_encode_all zstd_decode values Hv opts f r Hz Htotal) as (z & -> & Hans) end.
  cbn [mbind result_bind]. destruct z as [record|]; [|by apply free_candidate].
  destruct (Hans record eq_refl) as (c & ? & ?). by eexists _, c.
Qed.

(** ** Materialising and searching *)

Lemma chunk_answers_len c values : chunk_answers c values → Z.to_nat (chunk_len c) = length values.
Proof. intros [Hlen _ _]. rewrite Hlen. unfold zlen. lia. Qed.

(** Position [k] splits the values at [x]. *)
Definition splits_at (values : list Z) (x : Z) (k : nat) : Prop :=
  (k <= length values)%nat ∧ (∀ i v, values !! i = Some v → v < x ↔ (i < k)%nat).

Lemma successor_loop_spec get values x fuel lo hi : (∀ i v, values !! i = Some v → get i = Some v) →
  StronglySorted Z.le values → (hi - lo <= fuel)%nat → (lo <= hi <= length values)%nat →
  (∀ i v, values !! i = Some v → (i < lo)%nat → v < x) → (∀ i v, values !! i = Some v → (hi <= i)%nat → x <= v) →
  ∃ k, successor_loop fuel get x lo hi = Some k ∧ splits_at values x k.
Proof.
  intros Hget Hs. revert lo hi. induction fuel as [|fuel IH]; intros lo hi Hf Hb Hlt Hge; cbn [successor_loop].
  all: destruct (Nat.ltb_spec lo hi) as [Hl|Hl].
  1: lia.
  1,3: exists lo; split; [done|]; split; [lia|]; intros i v Hi; split; intros Hx;
    [destruct (decide (i < lo)%nat); [done|]; specialize (Hge i v Hi ltac:(lia)); lia|by eapply Hlt].
  pose proof (Nat.Div0.div_le_upper_bound (hi - lo) 2 (hi - lo) ltac:(lia)).
  assert ((hi - lo) / 2 < hi - lo)%nat by (apply Nat.div_lt; lia).
  set (mid := (lo + (hi - lo) / 2)%nat) in *. destruct (lookup_lt_is_Some_2 values mid) as [v Ev]; [lia|].
  rewrite (Hget _ _ Ev). cbn [mbind option_bind]. destruct (Z.ltb_spec v x).
  - apply IH; [lia|lia| |done]. intros i w Hi Hm.
    pose proof (sorted_lookup_le values i mid w v Hs Hi Ev ltac:(lia)). lia.
  - apply IH; [lia|lia|done|]. intros i w Hi Hm. pose proof (sorted_lookup_le values mid i v w Hs Ev Hi Hm). lia.
Qed.

Lemma successor_of_spec get values x : (∀ i v, values !! i = Some v → get i = Some v) → StronglySorted Z.le values →
  ∃ k, successor_of get (length values) x = Some k ∧ splits_at values x k.
Proof.
  intros Hget Hs. apply successor_loop_spec; [done|done|lia|lia|lia|]. intros i v Hi%lookup_lt_Some Hge. lia.
Qed.

Lemma chunk_get_answers c values i v : chunk_answers c values → values !! i = Some v → chunk_get c i = Some v.
Proof. intros Ha Hi. unfold chunk_get. by rewrite (chunk_answers_value_at _ _ _ Ha), Hi. Qed.

Lemma chunk_successor_spec c values x : chunk_answers c values → StronglySorted Z.le values →
  ∃ k, chunk_successor c x = Ok k ∧ splits_at values x k.
Proof.
  intros Ha Hs. unfold chunk_successor. rewrite (chunk_answers_len _ _ Ha).
  destruct (successor_of_spec (chunk_get c) values x) as (k & -> & Hk); [by intros; eapply chunk_get_answers|done|]. by eexists.
Qed.

Lemma sorted_lt_le (values : list Z) : StronglySorted Z.lt values → StronglySorted Z.le values.
Proof.
  induction 1 as [|x l _ IH Hx]; constructor; [done|]. eapply Forall_impl; [exact Hx|]. cbn. lia.
Qed.

Lemma sorted_lt_lookup (keys : list Z) i j a b : StronglySorted Z.lt keys → keys !! i = Some a → keys !! j = Some b →
  (i < j)%nat → a < b.
Proof.
  intros Hs. revert i j. induction Hs as [|y l Hs IH Hy]; intros [|i] [|j] Hi Hj Hij; cbn in *; simplify_eq; try lia.
  - rewrite Forall_lookup in Hy. by eapply Hy.
  - eapply IH; [exact Hi|exact Hj|lia].
Qed.

Lemma sorted_lt_inj (keys : list Z) i j a : StronglySorted Z.lt keys → keys !! i = Some a → keys !! j = Some a → i = j.
Proof.
  intros Hs Hi Hj. destruct (Nat.lt_total i j) as [H|[H|H]]; [|done|].
  - pose proof (sorted_lt_lookup _ _ _ _ _ Hs Hi Hj H). lia.
  - pose proof (sorted_lt_lookup _ _ _ _ _ Hs Hj Hi H). lia.
Qed.

Lemma key_find_spec c keys x : chunk_answers c keys → StronglySorted Z.lt keys →
  (∃ i, key_find c x = Ok (Some i) ∧ keys !! i = Some x) ∨ key_find c x = Ok None ∧ x ∉ keys.
Proof.
  intros Ha Hs. destruct (chunk_successor_spec c keys x Ha) as (k & Ek & Hk & Hsplit); [by apply sorted_lt_le|].
  unfold key_find. rewrite Ek. cbn [mbind result_bind]. rewrite (ca_len _ _ Ha).
  assert (keys !! k ≠ Some x → x ∉ keys) as Hnot.
  { intros Hne (i & Hi)%list_elem_of_lookup. destruct (decide (i < k)%nat) as [Hlt|Hge].
    - apply (proj2 (Hsplit i x Hi)) in Hlt. lia.
    - destruct (decide (i = k)) as [->|]; [done|]. pose proof (lookup_lt_Some _ _ _ Hi).
      destruct (lookup_lt_is_Some_2 keys k) as [v Ev]; [lia|].
      assert (v < x) as Hvx by (eapply (sorted_lt_lookup keys k i); [done|done|done|lia]).
      apply (Hsplit k v Ev) in Hvx. lia. }
  destruct (Z.ltb_spec (Z.of_nat k) (zlen keys)) as [Hlt|Hge].
  - rewrite (chunk_answers_value_at _ _ _ Ha). cbn [mbind result_bind]. case_bool_decide as E.
    + left. by exists k.
    + right. by split; [|apply Hnot].
  - right. split; [done|]. apply Hnot. rewrite lookup_ge_None_2; [done|unfold zlen in Hge; lia].
Qed.

(** * Properties *)

(** C32: a plane survives its stored form whichever encoding is chosen: the values are accepted,
    the record written for them decodes, and the resident form has their count, answers every
    index with the value (and an index past the end with nothing), never panics, and
    materialises to the same list.  The values are non-decreasing [u64]s, at most
    [MAX_PLANE_VALUES] of them, the last below [2^58] times their count: a field of more than 57
    bits may be read wrong ([ef_wide_field_lost]). *)
Theorem plane_roundtrip zstd_encode_all zstd_decode values opts : plane_values values →
  zstd_lossless zstd_encode_all zstd_decode → (∀ raw level, is_ok (zstd_encode_all raw level) = true) →
  ∃ record c, encode_plane zstd_encode_all values opts = Ok record ∧ decode_plane zstd_decode record = Ok c ∧
    chunk_len c = zlen values ∧ (∀ i, chunk_value_at c i = Ok (values !! i)) ∧ chunk_to_values c = Ok values.
Proof.
  intros Hv Hz Ht. destruct (encode_plane_answers _ _ _ opts Hv Hz Ht) as (record & c & He & Hd & Ha).
  exists record, c. split_and!; [done|done|apply Ha| |apply Ha]. intros i. by apply chunk_answers_value_at.
Qed.

Lemma small_plane_values : plane_values [3; 3; 900; 70000].
Proof. split; [by repeat constructor|by repeat constructor|done|by left]. Qed.

Lemma plane_roundtrip_witness :
  ∃ record c, encode_plane stored_encode [3; 3; 900; 70000] default_opts = Ok record ∧
    decode_plane stored_decode record = Ok c ∧ chunk_len c = zlen [3; 3; 900; 70000] ∧
    (∀ i, chunk_value_at c i = Ok ([3; 3; 900; 70000] !! i)) ∧ chunk_to_values c = Ok [3; 3; 900; 70000].
Proof.
  apply (plane_roundtrip stored_encode stored_decode [3; 3; 900; 70000] default_opts).
  - exact small_plane_values.
  - exact stored_lossless.
  - reflexivity.
Defined.

(** A key column finds what it holds: after encoding and decoding a strictly ascending key
    set, [find] returns the index of a present key and nothing for an absent one, [fence] is
    the least and the greatest key, and no lookup panics. *)
Theorem key_column_find zstd_encode_all zstd_decode keys opts x : plane_values keys → StronglySorted Z.lt keys →
  zstd_lossless zstd_encode_all zstd_decode → (∀ raw level, is_ok (zstd_encode_all raw level) = true) →
  ∃ record c, encode_plane zstd_encode_all keys opts = Ok record ∧ decode_plane zstd_decode record = Ok c ∧
    (∀ i, key_find c x = Ok (Some i) ↔ keys !! i = Some x) ∧ (key_find c x = Ok None ↔ x ∉ keys) ∧
    key_fence c = Ok (match head keys, last keys with Some lo, Some hi => Some (lo, hi) | _, _ => None end).
Proof.
  intros Hv Hs Hz Ht. destruct (encode_plane_answers _ _ _ opts Hv Hz Ht) as (record & c & He & Hd & Ha).
  exists record, c. split; [done|]. split; [done|]. split; [|split].
  - intros i. destruct (key_find_spec c keys x Ha Hs) as [(k & Hk & Hkx)|[Hn Hx]].
    + rewrite Hk. split; [intros [= <-]; done|]. intros Hi. do 2 f_equal. by eapply sorted_lt_inj.
    + rewrite Hn. split; [done|]. intros Hi. destruct Hx. by eapply list_elem_of_lookup_2.
  - destruct (key_find_spec c keys x Ha Hs) as [(k & Hk & Hkx)|[Hn Hx]]; [|done]. rewrite Hk.
    split; [done|]. intros Hx. destruct Hx. by eapply list_elem_of_lookup_2.
  - unfold key_fence, key_first, key_last.
    rewrite (chunk_answers_value_at _ _ 0 Ha), (chunk_answers_value_at _ _ (Z.to_nat (chunk_len c) - 1) Ha), (ca_len _ _ Ha).
    destruct keys as [|k0 keys]; [done|]. rewrite zlen_cons. pose proof (zlen_nonneg keys). cbn [mbind result_bind head].
    destruct (Z.eqb_spec (zlen keys + 1) 0); [lia|].
    rewrite last_lookup. replace (Z.to_nat (zlen keys + 1) - 1)%nat with (pred (length (k0 :: keys))) by (unfold zlen; cbn; lia).
    cbn [mbind result_bind]. by destruct ((k0 :: keys) !! pred (length (k0 :: keys))).
Qed.

(** A decoded plane is safe to read, whatever bytes it was decoded from: a record of the
    [ef], [rle] or [bitpacked] kind, of at most half a gigabyte, that the decoder accepts has a
    value at every index below its count and none above, and no access goes out of bounds. *)
Theorem plane_decode_safe zstd_decode tag body c : Forall is_u8 body → zlen body <= 2 ^ 29 →
  tag = plane_kind_u8 KEf ∨ tag = plane_kind_u8 KRle ∨ tag = plane_kind_u8 KBitPacked →
  decode_plane zstd_decode (tag :: body) = Ok c →
  ∀ i, ∃ o, chunk_value_at c i = Ok o ∧ (is_Some o ↔ Z.of_nat i < chunk_len c).
Proof.
  intros Hu Hlen Htag Hd i. assert (Z.of_nat i < chunk_len c → is_Some (chunk_access c i)) as Hsome.
  { destruct Htag as [->|[->| ->]]; unfold decode_plane in Hd;
      cbn [split_first mbind result_bind plane_kind_u8 plane_kind_from_u8] in Hd;
      apply bind_Ok in Hd as (x & Hx & [= <-]); cbn [chunk_len chunk_access]; intros Hi.
    - apply ef_deserialize_wf in Hx as [Hwf Hsz]; [|lia|done]. apply (ef_wf_total 0); [done|lia|lia].
    - by eapply rle_decoded_total.
    - apply bp_deserialize_wf in Hx; [|done]. by apply bp_wf_total. }
  unfold chunk_value_at. destruct (Z.leb_spec (chunk_len c) (Z.of_nat i)) as [Hge|Hlt].
  - exists None. split; [done|]. split; [by intros []|lia].
  - destruct (Hsome Hlt) as [v ->]. exists (Some v). split; [done|]. split; [done|by eexists].
Qed.

(** ** The Elias-Fano record on its own *)

(** [serialized_len_for] predicts the length of the record without building it. *)
Lemma ef_serialized_len_for_exact values e : plane_values values → values ≠ [] → ef_encode values = Some e →
  ef_serialized_len e = ef_serialized_len_for (zlen values) (default 0 (last values)) ∧
  zlen (ef_serialize e) = ef_serialized_len e.
Proof.
  intros Hv Hne E. destruct (ef_encode_answers _ Hv Hne) as (e' & E' & Hwf & Ha). rewrite E in E'. injection E' as <-.
  split.
  - pose proof (ef_fill_length (low_bits (default 0 (last values)) (zlen values))
      (ef_empty (zlen values) (default 0 (last values)) (low_bits (default 0 (last values)) (zlen values))) values) as Hl.
    unfold ef_encode, ef_from_ascending in E.
    destruct (ef_fill _ _ _) as [[[n highs] lows]|]; [|done]. specialize (Hl _ eq_refl). injection E as <-.
    unfold ef_serialized_len, ef_serialized_len_for. cbn in *. destruct Hl as [Hl1 Hl2]. unfold zlen at 1 2. rewrite Hl1, Hl2, !length_replicate.
    pose proof (zlen_nonneg values). pose proof (pv_u64 _ Hv) as Hu. pose proof (last_u64 _ Hu) as [Hu0 _].
    assert (0 < zlen values) by (destruct values; [done|]; rewrite zlen_cons; pose proof (zlen_nonneg values); lia).
    destruct (low_bits_bounds (default 0 (last values)) (zlen values)) as [Hlb _]; [lia|done|].
    unfold ef_nwords, ef_low_bytes. pose proof (div_ceil_spec (zlen values * low_bits (default 0 (last values)) (zlen values)) 8 ltac:(lia) ltac:(nia)). lia.
  - unfold ef_serialize, ef_serialized_len. rewrite !zlen_app. unfold zlen. rewrite !length_le_bytes, length_words_bytes. cbn [length]. lia.
Qed.

Lemma ef_contains_spec values e x : plane_values values → values ≠ [] → ef_encode values = Some e →
  ef_contains e x = Some (bool_decide (x ∈ values)).
Proof.
  intros Hv Hne E. destruct (ef_encode_answers _ Hv Hne) as (e' & E' & _ & Ha). rewrite E in E'. injection E' as <-.
  destruct (successor_of_spec (ef_value_at e) values x) as (k & Ek & Hk & Hsplit); [exact (ca_get _ _ Ha)|apply Hv|].
  unfold ef_contains, ef_successor. pose proof (chunk_answers_len _ _ Ha) as El. cbn in El. rewrite El, Ek. cbn [mbind option_bind].
  pose proof (ca_len _ _ Ha) as Hl. cbn in Hl. rewrite Hl. unfold zlen.
  destruct (Z.ltb_spec (Z.of_nat k) (Z.of_nat (length values))) as [Hlt|Hge].
  - destruct (lookup_lt_is_Some_2 values k) as [v Ev]; [lia|]. pose proof (ca_get _ _ Ha _ _ Ev) as Hg. cbn in Hg. rewrite Hg.
    cbn [mbind option_bind]. f_equal. destruct (Z.eqb_spec v x) as [->|Hvx].
    + symmetry. apply bool_decide_eq_true. by eapply list_elem_of_lookup_2.
    + symmetry. apply bool_decide_eq_false. intros (i & Hi)%list_elem_of_lookup. pose proof (Hsplit i x Hi). pose proof (Hsplit k v Ev).
      pose proof (sorted_lookup_le values k i v x (pv_sorted _ Hv) Ev Hi ltac:(lia)). lia.
  - f_equal. symmetry. apply bool_decide_eq_false. intros (i & Hi)%list_elem_of_lookup.
    pose proof (Hsplit i x Hi). apply lookup_lt_Some in Hi. lia.
Qed.

(** ** Where the codec does not keep its promise *)

(** An Elias-Fano low field wider than 57 bits loses its top bits on the way back, because
    [read_low] loads eight bytes from the byte the field starts in, although widths to 63 are
    produced by [low_bits] and accepted by [check_low_bits]: the ascending plane [0, 2^60, 2^63]
    is stored without loss and decodes to a column whose second value is 0. *)
Theorem ef_wide_field_lost :
  StronglySorted Z.le [0; 2 ^ 60; 2 ^ 63] ∧
  ∃ record c, encode_plane stored_encode [0; 2 ^ 60; 2 ^ 63] default_opts = Ok record ∧
    decode_plane stored_decode record = Ok c ∧ chunk_value_at c 1 = Ok (Some 0).
Proof.
  split; [by repeat constructor|]. eexists _, _. split; [vm_compute; reflexivity|]. split; [vm_compute; reflexivity|]. vm_compute. reflexivity.
Qed.

(** Two things a forged record gets past the plane decoder.  A dense record is re-encoded
    as Elias-Fano without checking that its values ascend: values out of order make the decoder
    index past the bitmap, or leave a column that indexes past its samples when it is read.
    And the run lengths of a run-length record are summed in wrapping arithmetic, so lengths
    that overflow pass the check against the declared count and with it the ceiling on that
    count: a body of fifteen bytes declares one value and is accepted, and materialising it
    first grows the vector to 4,294,967,295 elements, fifteen times the ceiling and more. *)
Theorem plane_decode_gaps zstd_decode :
  decode_plane zstd_decode (plane_kind_u8 KRawU64 :: dense_bytes [1000; 1]) = Err (Panic "index out of bounds") ∧
  (∃ c, decode_plane zstd_decode (plane_kind_u8 KRawU64 :: dense_bytes [1; 0]) = Ok c ∧
    chunk_len c = 2 ∧ chunk_value_at c 1 = Err (Panic "index out of bounds")) ∧
  ∃ r, rle_u64_deserialize [1; 2; 0; 255; 255; 255; 255; 255; 255; 255; 255; 255; 1; 0; 2] = Ok r ∧
    rle_n r = 1 ∧ head (rle_ends r) = Some 4294967295 ∧ 15 * MAX_PLANE_VALUES < 4294967295.
Proof.
  split; [vm_compute; reflexivity|]. split.
  - eexists. split; [vm_compute; reflexivity|]. split; [vm_compute; reflexivity|]. vm_compute. reflexivity.
  - eexists. split; [vm_compute; reflexivity|]. split_and!; [vm_compute; reflexivity..].
Qed.
