(* ===== verification/Postings.v ===== *)
(** Endpoint postings, of [graph-format/src/postings.rs]: which nodes have an edge of a type.

    A posting is a set of node ids, stored in Elias-Fano form, or, where that is smaller, as the
    ids below the greatest that are absent.  It is read by a cursor, one id at a time. *)

From S2P Require Import Prelude Values Wire BlockCodec Bits EliasFano RunLength BitPacked Plane Topology.

Definition POST_EF : Z := 0.
Definition POST_EF_COMPLEMENT : Z := 1.

(** * Encoding *)

Definition complement_is_smaller (count universe : Z) : result bool :=
  if count =? 0 then Ok false else
  n ← add_u64 universe 1;
  let comp := Z.max 0 (n - count) in
  Ok (ef_serialized_len_for comp universe <? ef_serialized_len_for count universe).

(** The ids [ns] that [present], of which only the next is looked at, does not give. *)
Fixpoint complement_loop (ns present : list Z) : list Z :=
  match ns with
  | [] => []
  | n :: ns =>
      match present with
      | p :: rest => if p =? n then complement_loop ns rest else n :: complement_loop ns present
      | [] => n :: complement_loop ns []
      end
  end.

Definition complement_from_ascending (present : list Z) (universe : Z) : list Z := complement_loop (seqZ 0 (universe + 1)) present.

Definition encode_posting_from_ascending (count universe : Z) (present : list Z) : result bytes :=
  smaller ← complement_is_smaller count universe;
  if smaller : bool then
    e ← or_panic (ef_encode (complement_from_ascending present universe));
    Ok ([POST_EF_COMPLEMENT] ++ write_uvarint universe ++ ef_serialize e)
  else
    e ← or_panic (ef_from_ascending count universe present);
    Ok ([POST_EF] ++ ef_serialize e).

Definition encode_endpoint_posting (ids : list Z) : result bytes :=
  encode_posting_from_ascending (zlen ids) (default 0 (last ids)) ids.

(** * Reading *)

Record EndpointPostingIter := mkPosting { p_ef : Ef; p_complement : bool; p_universe : Z; p_i : nat; p_n : Z }.

(** Whether the absent id at the cursor is [cur]. *)
Definition absent_at (e : Ef) (i : nat) (cur : Z) : result bool :=
  if Z.of_nat i <? ef_count e then v ← or_panic (ef_value_at e i); Ok (v =? cur) else Ok false.

(** The [while] of the complement form; every round but the last passes an absent id. *)
Fixpoint next_present (fuel : nat) (it : EndpointPostingIter) : result (option Z * EndpointPostingIter) :=
  if p_universe it <? p_n it then Ok (None, it) else
  match fuel with
  | O => Err OutOfFuel
  | S fuel =>
      let cur := p_n it in
      n ← add_u64 (p_n it) 1;
      absent ← absent_at (p_ef it) (p_i it) cur;
      if absent : bool then next_present fuel (mkPosting (p_ef it) (p_complement it) (p_universe it) (S (p_i it)) n)
      else Ok (Some cur, mkPosting (p_ef it) (p_complement it) (p_universe it) (p_i it) n)
  end.

Definition posting_next (it : EndpointPostingIter) : result (option Z * EndpointPostingIter) :=
  if p_complement it then next_present (S (Z.to_nat (ef_count (p_ef it)) - p_i it)) it
  else if Z.of_nat (p_i it) <? ef_count (p_ef it) then
    v ← or_panic (ef_value_at (p_ef it) (p_i it));
    Ok (Some v, mkPosting (p_ef it) (p_complement it) (p_universe it) (S (p_i it)) (p_n it))
  else Ok (None, it).

Definition endpoint_posting_cursor (rec : bytes) : result EndpointPostingIter :=
  '(tag, body) ← split_first (Bail "empty endpoint posting record") rec;
  if tag =? POST_EF then
    e ← ef_mono_deserialize body;
    Ok (mkPosting e false 0 0 0)
  else if tag =? POST_EF_COMPLEMENT then
    '(universe, body) ← read_uvarint body;
    e ← ef_mono_deserialize body;
    Ok (mkPosting e true universe 0 0)
  else Err (Bail "unknown endpoint posting tag").

(** [collect]: as many rounds as ids can be left, and one that finds none. *)
Fixpoint posting_collect (fuel : nat) (it : EndpointPostingIter) : result (list Z) :=
  match fuel with
  | O => Err OutOfFuel
  | S fuel =>
      '(x, it) ← posting_next it;
      match x with
      | None => Ok []
      | Some v => vs ← posting_collect fuel it; Ok (v :: vs)
      end
  end.

Definition posting_fuel (it : EndpointPostingIter) : nat :=
  S (if p_complement it then Z.to_nat (p_universe it + 1 - p_n it) else Z.to_nat (ef_count (p_ef it)) - p_i it).

Definition decode_endpoint_posting (rec : bytes) : result (list Z) :=
  it ← endpoint_posting_cursor rec; posting_collect (posting_fuel it) it.

(** * Sets of ids *)

(** Ascending, distinct, and below [2 ^ 30], as the node ids of a posting. *)
Definition ids_ok (ids : list Z) : Prop := StronglySorted Z.lt ids ∧ Forall (λ v, 0 <= v < 2 ^ 30) ids.

Lemma sorted_count ids a b : StronglySorted Z.lt ids → Forall (λ v, a <= v < b) ids → a <= b → zlen ids <= b - a.
Proof.
  intros Hs. revert a. induction Hs as [|x ids Hs IH Hx]; intros a Hf Hab; [change (zlen []) with 0; lia|]. apply Forall_cons in Hf as [Ha Hf].
  rewrite zlen_cons. enough (zlen ids <= b - (x + 1)) by lia. apply IH; [|lia]. rewrite Forall_forall in *. intros v Hv. specialize (Hf v Hv). specialize (Hx v Hv). lia.
Qed.

Lemma elem_of_complement ns present x : x ∈ complement_loop ns present → x ∈ ns.
Proof.
  revert present. induction ns as [|n ns IH]; intros present; cbn [complement_loop]; [done|].
  destruct present as [|p rest]; [|destruct (p =? n)]; [|intros H; right; by eapply IH|].
  all: intros [->|H]%elem_of_cons; [left|right; by eapply IH].
Qed.

Lemma complement_sorted ns present : StronglySorted Z.lt ns → StronglySorted Z.lt (complement_loop ns present).
Proof.
  intros Hs. revert present. induction Hs as [|n ns Hs IH Hn]; intros present; cbn [complement_loop]; [constructor|].
  rewrite Forall_forall in Hn. destruct present as [|p rest]; [|destruct (p =? n); [apply IH|]].
  all: constructor; [apply IH|apply Forall_forall; intros x Hx; by eapply Hn, elem_of_complement].
Qed.

Lemma seqZ_sorted a n : StronglySorted Z.lt (seqZ a n).
Proof.
  destruct (Z.le_gt_cases n 0) as [|Hn]; [by rewrite seqZ_nil by lia; constructor|]. rewrite <- (Z2Nat.id n) by lia. generalize (Z.to_nat n). intros k. revert a.
  induction k as [|k IH]; intros a; [constructor|]. rewrite seqZ_cons by lia. replace (Z.pred (Z.of_nat (S k))) with (Z.of_nat k) by lia.
  constructor; [apply IH|]. apply Forall_forall. intros x Hx%elem_of_seqZ. lia.
Qed.

(** What is absent from the absent ids is the set. *)
Lemma complement_twice k a present : StronglySorted Z.lt present → Forall (λ v, a <= v < a + Z.of_nat k) present →
  complement_loop (seqZ a (Z.of_nat k)) (complement_loop (seqZ a (Z.of_nat k)) present) = present.
Proof.
  revert a present. induction k as [|k IH]; intros a present Hs Hf.
  - cbn. destruct present as [|p present]; [done|]. apply Forall_cons in Hf as [Hp _]. lia.
  - rewrite seqZ_cons by lia. replace (Z.pred (Z.of_nat (S k))) with (Z.of_nat k) by lia. destruct present as [|p rest]; cbn [complement_loop].
    + rewrite Z.eqb_refl. apply IH; [constructor|by apply Forall_nil].
    + apply StronglySorted_inv in Hs as Hs'. destruct Hs' as [Hsr Hp]. rewrite Forall_forall in Hf, Hp. destruct (Z.eqb_spec p a) as [->|Hne].
      * assert (∀ l, (∀ x, x ∈ l → a < x) → complement_loop (a :: seqZ (Z.succ a) (Z.of_nat k)) l = a :: complement_loop (seqZ (Z.succ a) (Z.of_nat k)) l) as Hskip.
        { intros [|y l] Hl; [done|]. cbn [complement_loop]. rewrite (proj2 (Z.eqb_neq y a)); [done|]. specialize (Hl y ltac:(left)). lia. }
        cbn [complement_loop] in Hskip. rewrite Hskip by (intros x Hx%elem_of_complement%elem_of_seqZ; lia). f_equal.
        apply IH; [done|]. apply Forall_forall. intros v Hv. specialize (Hp v Hv). specialize (Hf v ltac:(by right)). lia.
      * rewrite Z.eqb_refl. apply IH; [done|]. apply Forall_forall. intros v Hv. specialize (Hf v Hv) as Hfv.
        specialize (Hf p ltac:(left)). apply elem_of_cons in Hv as [->|Hv]; [lia|]. specialize (Hp v Hv). lia.
Qed.

(** A structure that gives the ids of a list. *)
Definition holds_ids (e : Ef) (vs : list Z) : Prop := ef_count e = zlen vs ∧ ∀ i v, vs !! i = Some v → ef_value_at e i = Some v.

Lemma ef_of_ids ids : ids_ok ids → ∃ e, ef_encode ids = Some e ∧ ef_wf 0 e ∧ holds_ids e ids.
Proof.
  intros [Hs Hf]. destruct (decide (ids = [])) as [->|Hne].
  { exists {| ef_count := 0; ef_l := 0; ef_lows := []; ef_highs := [0]; ef_sample := [] |}. split; [vm_compute; reflexivity|]. split; [|done].
    split; cbn [ef_count ef_l ef_lows ef_highs ef_sample]; [done|done|by split; [apply Forall_nil|]| |vm_compute; reflexivity..].
    split; [by apply Forall_cons; split; [|apply Forall_nil]|done]. }
  pose proof (sorted_count ids 0 (2 ^ 30) Hs Hf ltac:(lia)) as Hlen.
  assert (0 < zlen ids) as Hpos by (destruct ids; [done|]; rewrite zlen_cons; pose proof (zlen_nonneg ids); lia).
  assert (Forall is_u64 ids) as Hu by (eapply Forall_impl; [exact Hf|]; unfold is_u64; lia).
  assert (0 <= default 0 (last ids) < 2 ^ 30) as Hl.
  { destruct (last ids) as [u|] eqn:E; [|cbn; lia]. rewrite last_lookup in E. by eapply Forall_lookup_1 in E; [|exact Hf]. }
  destruct (ef_encode_spec 0 ids (default 0 (last ids)) _ (zlen ids) eq_refl) as (highs & lows & E & _ & _ & Hwf & _ & Hget);
    [done|lia|lia|lia|done|by apply sorted_lt_le|by apply last_u64|by apply last_le, sorted_lt_le|].
  unfold ef_encode, ef_from_ascending. rewrite E. cbn [mbind option_bind]. unfold as_u32. rewrite Z.mod_small by lia.
  rewrite Z.sub_0_r in Hwf, Hget. eexists. split; [done|]. split; [done|]. split; [done|]. apply Hget. apply low_bits_le; [lia|lia|].
  change (2 ^ (57 + 1)) with (2 ^ 58). nia.
Qed.

(** * The cursor *)

Section cursor.
Variables (e : Ef) (vs : list Z).
Hypothesis Hvs : holds_ids e vs.

Lemma plain_collect fuel u i n : (length vs - i < fuel)%nat → posting_collect fuel (mkPosting e false u i n) = Ok (drop i vs).
Proof.
  destruct Hvs as [Hc Hget]. revert i. induction fuel as [|fuel IH]; intros i Hf; [lia|]. cbn [posting_collect]. unfold posting_next. cbn [p_complement p_i p_ef].
  rewrite Hc. unfold zlen. destruct (Z.ltb_spec (Z.of_nat i) (Z.of_nat (length vs))) as [Hi|Hi].
  - destruct (lookup_lt_is_Some_2 vs i) as [v Hv]; [lia|]. rewrite (Hget i v Hv). cbn [or_panic mbind result_bind]. rewrite IH by lia.
    cbn [mbind result_bind]. by rewrite (drop_S _ _ _ Hv).
  - cbn [mbind result_bind]. by rewrite drop_ge by lia.
Qed.

(** What a cursor over the absent ids has left. *)
Definition remaining (u : Z) (i : nat) (n : Z) : list Z := complement_loop (seqZ n (u + 1 - n)) (drop i vs).

Lemma next_present_remaining u fuel i n : (length vs - i < fuel)%nat → 0 <= n → u + 1 < 2 ^ 64 →
  ∃ i' n', next_present fuel (mkPosting e true u i n) = Ok (head (remaining u i n), mkPosting e true u i' n') ∧
    remaining u i' n' = tail (remaining u i n) ∧ 0 <= n'.
Proof.
  destruct Hvs as [Hc Hget]. intros Hf Hn Hu. revert i n Hf Hn. induction fuel as [|fuel IH]; intros i n Hf Hn; [lia|].
  cbn [next_present p_universe p_n p_ef p_i p_complement]. destruct (Z.ltb_spec u n) as [Hlt|Hle].
  { exists i, n. unfold remaining. rewrite seqZ_nil by lia. done. }
  unfold add_u64. rewrite (proj2 (Z.ltb_lt _ _)) by lia. cbn [mbind result_bind]. unfold absent_at. rewrite Hc.
  assert (remaining u i n = complement_loop (n :: seqZ (n + 1) (u + 1 - (n + 1))) (drop i vs)) as ->.
  { unfold remaining. rewrite seqZ_cons by lia. do 3 f_equal. lia. }
  unfold zlen. destruct (Z.ltb_spec (Z.of_nat i) (Z.of_nat (length vs))) as [Hi|Hi].
  - destruct (lookup_lt_is_Some_2 vs i) as [v Hv]; [lia|]. rewrite (Hget i v Hv). cbn [or_panic mbind result_bind]. rewrite (drop_S _ _ _ Hv). cbn [complement_loop].
    destruct (v =? n); [apply IH; lia|]. exists i, (n + 1). split_and!; [done| |lia]. cbn [tail]. unfold remaining. by rewrite (drop_S _ _ _ Hv).
  - cbn [mbind result_bind]. rewrite drop_ge by lia. exists i, (n + 1). split_and!; [done| |lia]. cbn [complement_loop tail]. unfold remaining. by rewrite drop_ge by lia.
Qed.

Lemma complement_collect u fuel i n : (length (remaining u i n) < fuel)%nat → 0 <= n → u + 1 < 2 ^ 64 →
  posting_collect fuel (mkPosting e true u i n) = Ok (remaining u i n).
Proof.
  intros Hf Hn Hu. revert i n Hf Hn. induction fuel as [|fuel IH]; intros i n Hf Hn; [lia|]. cbn [posting_collect]. unfold posting_next. cbn [p_complement p_ef p_i].
  destruct (next_present_remaining u (S (Z.to_nat (ef_count e) - i)) i n) as (i' & n' & -> & Hr & Hn'); [destruct Hvs as [-> _]; unfold zlen; lia|done|done|].
  cbn [mbind result_bind]. destruct (remaining u i n) as [|v rest] eqn:E; cbn [head hd_error] in *; [done|]. cbn [tail] in Hr. rewrite IH; [by rewrite Hr|rewrite Hr; cbn [length] in Hf; lia|done].
Qed.
End cursor.

Lemma complement_length ns present : (length (complement_loop ns present) <= length ns)%nat.
Proof.
  revert present. induction ns as [|n ns IH]; intros present; cbn [complement_loop length]; [lia|].
  destruct present as [|p rest]; [|destruct (p =? n)]; cbn [length]; [specialize (IH [])|specialize (IH rest)|specialize (IH (p :: rest))]; lia.
Qed.

(** A record in either form decodes to what it stands for. *)
Lemma decode_plain e vs : ef_wf 0 e → holds_ids e vs → decode_endpoint_posting ([POST_EF] ++ ef_serialize e) = Ok vs.
Proof.
  intros Hwf Hh. unfold decode_endpoint_posting, endpoint_posting_cursor, ef_mono_deserialize. cbn [app split_first mbind result_bind]. rewrite Z.eqb_refl.
  rewrite ef_roundtrip by done. cbn [mbind result_bind]. rewrite (plain_collect e vs Hh); [done|]. unfold posting_fuel. cbn [p_complement p_ef p_i].
  destruct Hh as [-> _]. unfold zlen. lia.
Qed.

Lemma decode_complement e vs u : ef_wf 0 e → holds_ids e vs → 0 <= u → u + 1 < 2 ^ 64 →
  decode_endpoint_posting ([POST_EF_COMPLEMENT] ++ write_uvarint u ++ ef_serialize e) = Ok (complement_loop (seqZ 0 (u + 1)) vs).
Proof.
  intros Hwf Hh Hu Hu64. unfold decode_endpoint_posting, endpoint_posting_cursor, ef_mono_deserialize. cbn [app split_first mbind result_bind].
  change (POST_EF_COMPLEMENT =? POST_EF) with false. rewrite Z.eqb_refl. rewrite codec_roundtrip by (unfold is_u64; lia). cbn [mbind result_bind].
  rewrite ef_roundtrip by done. cbn [mbind result_bind]. assert (remaining vs u 0 0 = complement_loop (seqZ 0 (u + 1)) vs) as Er by (unfold remaining; by rewrite Z.sub_0_r).
  rewrite (complement_collect e vs Hh); [by rewrite Er| |done|done]. rewrite Er. pose proof (complement_length (seqZ 0 (u + 1)) vs) as Hl. rewrite length_seqZ in Hl.
  unfold posting_fuel. cbn [p_complement p_universe p_n]. rewrite Z.sub_0_r. lia.
Qed.

(** The size of a structure is what its numbers say. *)
Lemma ef_encode_len ids e : ef_encode ids = Some e → zlen (ef_serialize e) = ef_serialized_len_for (zlen ids) (default 0 (last ids)).
Proof.
  unfold ef_encode, ef_from_ascending. set (u := default 0 (last ids)). set (m := zlen ids). intros H. apply bind_Some in H as ([[i highs] lows] & Hfill & [= <-]).
  apply ef_fill_length in Hfill as [Hh Hl]. cbn [ef_empty fst snd] in Hh, Hl. rewrite length_replicate in Hh, Hl.
  assert (∀ n z, zlen (le_bytes n z) = Z.of_nat n) as Hle by (intros; unfold zlen; by rewrite length_le_bytes).
  assert (zlen (concat (map (le_bytes 8) highs)) = 8 * zlen highs) as Hw by (unfold zlen; rewrite length_words_bytes; lia).
  unfold ef_serialize. cbn [ef_count ef_l ef_lows ef_highs]. rewrite !zlen_app, !Hle, Hw. change (zlen [low_bits u m]) with 1.
  unfold zlen. rewrite Hh, Hl. unfold ef_serialized_len_for. fold m. assert (0 <= m) by apply zlen_nonneg.
  assert (0 <= low_bits u m) by (unfold low_bits; destruct (_ || _); [done|apply Z.log2_nonneg]).
  assert (0 <= ef_low_bytes m (low_bits u m)) by (unfold ef_low_bytes; pose proof (div_ceil_spec (m * low_bits u m) 8 ltac:(lia) ltac:(nia)); lia).
  assert (1 <= ef_nwords m u (low_bits u m)) by (unfold ef_nwords; lia). lia.
Qed.

Lemma double_le_pow2 l : 0 <= l → 2 * l <= 2 ^ l.
Proof.
  intros Hl. destruct (Z.eq_dec l 0) as [->|Hne]; [done|]. revert l Hl Hne. apply (natlike_ind (λ l, l ≠ 0 → 2 * l <= 2 ^ l)); [done|]. intros l Hl IH _.
  rewrite Z.pow_succ_r by done. destruct (Z.eq_dec l 0) as [->|Hne]; [done|]. destruct (Z.eq_dec l 1) as [->|]; [done|]. specialize (IH Hne). lia.
Qed.

(** A set below [2 ^ 30] takes less than half a gigabyte. *)
Lemma ef_len_bound m u : 0 <= m <= 2 ^ 30 → 0 <= u < 2 ^ 30 → (m = 0 → u = 0) → ef_serialized_len_for m u <= 2 ^ 29 - 20.
Proof.
  intros Hm Hu H0. unfold ef_serialized_len_for. destruct (Z.eq_dec m 0) as [->|Hne]; [rewrite H0 by done; by vm_compute|].
  destruct (low_bits_bounds u m) as [Hl Hlt]; [lia|lia|]. assert (low_bits u m = 0 ∨ m * 2 ^ low_bits u m <= u) as Hlow.
  { unfold low_bits. destruct (Z.ltb_spec u m); cbn [orb]; [by left|]. destruct (Z.eqb_spec m 0); [by left|right].
    assert (0 < u / m) as Hq by (apply Z.div_str_pos; lia). pose proof (Z.log2_spec _ Hq) as [Hle _]. pose proof (Z.mul_div_le u m ltac:(lia)). nia. }
  set (l := low_bits u m) in *. assert (m * l <= 2 ^ 29) as Hml.
  { destruct Hlow as [->|Hlow]; [lia|]. pose proof (double_le_pow2 l Hl). nia. }
  pose proof (Z.pow_pos_nonneg 2 l ltac:(lia) Hl) as Hpow. assert (0 <= Z.shiftr u l < 2 * m) as Hsh.
  { rewrite Z.shiftr_div_pow2 by done. split; [apply Z.div_pos; lia|]. apply Z.div_lt_upper_bound; [done|]. lia. }
  unfold ef_low_bytes, ef_nwords. pose proof (div_ceil_spec (m * l) 8 ltac:(lia) ltac:(nia)). pose proof (div_ceil_spec (Z.shiftr u l + m) 64 ltac:(lia) ltac:(lia)). lia.
Qed.

Lemma ids_len ids e : ids_ok ids → ef_encode ids = Some e → zlen (ef_serialize e) <= 2 ^ 29 - 20.
Proof.
  intros [Hs Hf] He. rewrite (ef_encode_len ids e He). pose proof (sorted_count ids 0 (2 ^ 30) Hs Hf ltac:(lia)). pose proof (zlen_nonneg ids).
  apply ef_len_bound; [lia| |].
  - destruct (last ids) as [x|] eqn:E; [|cbn; lia]. rewrite last_lookup in E. by eapply Forall_lookup_1 in E; [|exact Hf].
  - destruct ids as [|x ids]; [done|]. rewrite zlen_cons. pose proof (zlen_nonneg ids). lia.
Qed.

Lemma posting_encodes ids : ids_ok ids → ∃ rec, encode_endpoint_posting ids = Ok rec ∧ decode_endpoint_posting rec = Ok ids ∧ rec ≠ [] ∧ zlen rec <= 2 ^ 29.
Proof.
  intros Hids. pose proof Hids as [Hs Hf]. unfold encode_endpoint_posting, encode_posting_from_ascending, complement_is_smaller. set (u := default 0 (last ids)).
  destruct (ef_of_ids ids Hids) as (e & He & Hwf & Hh).
  assert (0 <= u < 2 ^ 30) as Hu.
  { unfold u. destruct (last ids) as [x|] eqn:E; [|cbn; lia]. rewrite last_lookup in E. by eapply Forall_lookup_1 in E; [|exact Hf]. }
  assert (∃ b, (if zlen ids =? 0 then Ok false else n ← add_u64 u 1; Ok (ef_serialized_len_for (Z.max 0 (n - zlen ids)) u <? ef_serialized_len_for (zlen ids) u)) = Ok b)
    as [b ->].
  { destruct (_ =? 0); [by eexists|]. unfold add_u64. rewrite (proj2 (Z.ltb_lt _ _)) by lia. by eexists. }
  cbn [mbind result_bind]. destruct b.
  - set (comp := complement_from_ascending ids u). assert (ids_ok comp) as Hcomp.
    { split; [apply complement_sorted, seqZ_sorted|]. apply Forall_forall. intros x Hx%elem_of_complement%elem_of_seqZ. lia. }
    destruct (ef_of_ids comp Hcomp) as (c & Ec & Hcwf & Hch). rewrite Ec. cbn [or_panic mbind result_bind]. eexists. split; [done|].
    split; [|split; [done|rewrite !zlen_app; pose proof (uvarint_short u); pose proof (ids_len comp c Hcomp Ec); change (zlen [POST_EF_COMPLEMENT]) with 1; lia]].
    rewrite (decode_complement c comp u) by (done || lia). f_equal. unfold comp, complement_from_ascending. rewrite <- (Z2Nat.id (u + 1)) by lia.
    apply complement_twice; [done|]. apply Forall_forall. intros v Hv. pose proof (last_le ids (sorted_lt_le ids Hs)) as Hle. rewrite Forall_forall in Hle, Hf.
    specialize (Hle v Hv). specialize (Hf v Hv). fold u in Hle. lia.
  - pose proof (ids_len ids e Hids He) as Hlen. unfold ef_encode in He. fold u in He. rewrite He. cbn [or_panic mbind result_bind]. eexists. split; [done|].
    split; [by apply decode_plain|]. split; [done|]. rewrite zlen_app. change (zlen [POST_EF]) with 1. lia.
Qed.

(** The greatest id of a complement record is taken from the record: a few bytes decode to any
    number of ids. *)
Theorem forged_universe u : 0 <= u → u + 1 < 2 ^ 64 → ∃ rec, zlen rec <= 40 ∧ decode_endpoint_posting rec = Ok (seqZ 0 (u + 1)).
Proof.
  intros Hu Hu64. destruct (ef_of_ids []) as (e & He & Hwf & Hh); [by split; constructor|].
  exists ([POST_EF_COMPLEMENT] ++ write_uvarint u ++ ef_serialize e). split.
  - rewrite !zlen_app. pose proof (uvarint_short u). assert (zlen (ef_serialize e) <= 20) by (vm_compute in He; injection He as <-; by vm_compute).
    change (zlen [POST_EF_COMPLEMENT]) with 1. lia.
  - rewrite (decode_complement e []) by done. f_equal. generalize (seqZ 0 (u + 1)). intros l. induction l as [|x l IH]; [done|]. cbn [complement_loop]. by rewrite IH.
Qed.

(** The sizes that are compared are those at the greatest id of the set, and the absent ids are
    stored at the greatest of their own.  So the larger form can be chosen. *)
Example larger_form_chosen :
  (rec ← encode_endpoint_posting (seqZ 0 22 ++ [44]); Ok (head rec, zlen rec)) = Ok (Some POST_EF_COMPLEMENT, 27) ∧
  (e ← ef_encode (seqZ 0 22 ++ [44]); Some (zlen ([POST_EF] ++ ef_serialize e))) = Some 26.
Proof. split; vm_compute; reflexivity. Qed.
