(* ===== verification/PostingFile.v ===== *)
(** The files of endpoint postings, of [graph-format/src/postings.rs]: one record a relationship
    type, written from a list of edges, from a sorted stream, or from planes of bits that
    threads set.  The three leave the same bytes. *)

From S2P Require Import Prelude Values Wire Crypto BlockCodec Bits EliasFano Plane Memtable Snapshot SnapshotRead Isam IsamLookup BlockFile BlockRead BlockExact Topology TopologyFile Grouping Postings.

(** * Planes of bits *)

Record EndpointPlanes := mkPlanes {
  ep_reltype_count : Z;
  ep_node_count : Z;
  words_per_plane : nat;
  ep_words : list Z;
}.

Definition planes_bytes_for (reltype_count node_count : Z) : Z := reltype_count * div_ceil node_count 64 * 8.

Definition planes_new (reltype_count node_count : Z) : EndpointPlanes :=
  let wpp := Z.to_nat (div_ceil node_count 64) in
  mkPlanes reltype_count node_count wpp (replicate (wpp * Z.to_nat reltype_count) 0).

(** The word is loaded, and the bit is set by [fetch_or] when it was clear. *)
Definition planes_set (reltype node : Z) (p : EndpointPlanes) : result EndpointPlanes :=
  let idx := (Z.to_nat reltype * words_per_plane p + Z.to_nat (Z.shiftr node 6))%nat in
  let bit := Z.shiftl 1 (Z.land node 63) in
  match ep_words p !! idx with
  | None => Err (Panic "index out of bounds")
  | Some word =>
      if Z.land word bit =? 0
      then Ok (mkPlanes (ep_reltype_count p) (ep_node_count p) (words_per_plane p) (<[idx := Z.lor word bit]> (ep_words p)))
      else Ok p
  end.

Definition plane (p : EndpointPlanes) (reltype : Z) : list Z :=
  take (words_per_plane p) (drop (Z.to_nat reltype * words_per_plane p) (ep_words p)).

(** The bits of a word from the lowest; there are at most 64. *)
Fixpoint word_ids (fuel : nat) (base bits : Z) : list Z :=
  if bits =? 0 then [] else
  match fuel with
  | O => []
  | S fuel => base + Z.of_nat (trailing_zeros bits) :: word_ids fuel base (clear_lowest bits)
  end.

Fixpoint words_ids (w : Z) (words : list Z) : list Z :=
  match words with [] => [] | word :: words => word_ids 64 (w * 64) word ++ words_ids (w + 1) words end.

Definition plane_iter (p : EndpointPlanes) (reltype : Z) : list Z := words_ids 0 (plane p reltype).

(** The last word with a bit: [63 - leading_zeros] is the place of its highest. *)
Fixpoint top_bit (w : Z) (words : list Z) : Z :=
  match words with
  | [] => 0
  | word :: words => if word =? 0 then top_bit (w - 1) words else w * 64 + Z.log2 word
  end.

Definition plane_count_universe (p : EndpointPlanes) (reltype : Z) : Z * Z :=
  let words := plane p reltype in
  (Z.of_nat (sum_ones words), top_bit (zlen words - 1) (rev words)).

Definition max_record_bytes (p : EndpointPlanes) : Z :=
  foldr Z.max 0 (map (λ t, let '(count, universe) := plane_count_universe p t in 11 + ef_serialized_len_for count universe) (seqZ 0 (ep_reltype_count p))).

(** * The writers *)

Section writers.
Context {crypto : Crypto}.
Variable zstd_encode_all : bytes → Z → result bytes.
Variable random_nonce : nat → bytes.
Variables (target_block_bytes zstd_level : Z) (cipher : option FileCipher).
Local Abbreviation append := (append_record zstd_encode_all random_nonce target_block_bytes Raw zstd_level cipher) (only parsing).
Local Abbreviation finish_file := (finish zstd_encode_all random_nonce Raw zstd_level cipher) (only parsing).

(** The counts so far, and the file. *)
Definition PostingsState : Type := list Z * BlockFileWriter.
Definition postings_start : PostingsState := ([], create_inner Raw cipher).

Definition flush_posting (count : Z) (rec : result bytes) (st : PostingsState) : result PostingsState :=
  rec ← rec;
  '(_, w) ← append rec st.2;
  Ok (st.1 ++ [count], w).

(** The counts, and the image with the number of its blocks. *)
Definition postings_finish (st : PostingsState) : result (list Z * (bytes * Z)) :=
  out ← finish_file st.2; Ok (st.1, out).

Fixpoint planes_loop (p : EndpointPlanes) (ts : list Z) (st : PostingsState) : result PostingsState :=
  match ts with
  | [] => Ok st
  | t :: ts =>
      let '(count, universe) := plane_count_universe p t in
      st ← flush_posting count (encode_posting_from_ascending count universe (plane_iter p t)) st;
      planes_loop p ts st
  end.

Definition write_endpoint_postings_from_planes (p : EndpointPlanes) : result (list Z * (bytes * Z)) :=
  st ← planes_loop p (seqZ 0 (ep_reltype_count p)) postings_start; postings_finish st.

Fixpoint buckets_loop (buckets : list (list Z)) (st : PostingsState) : result PostingsState :=
  match buckets with
  | [] => Ok st
  | bucket :: buckets =>
      let bucket := sort_dedup_ids bucket in
      st ← flush_posting (zlen bucket) (encode_endpoint_posting bucket) st;
      buckets_loop buckets st
  end.

Definition write_buckets (buckets : list (list Z)) : result (list Z * (bytes * Z)) :=
  st ← buckets_loop buckets postings_start; postings_finish st.

(** The variables of the loop over a sorted stream. *)
Record SortedState := mkSorted { ss_out : PostingsState; cur_rt : Z; ss_bucket : list Z; ss_last : option Z }.

(** [while cur_rt < rt]: one round a type. *)
Fixpoint flush_until (fuel : nat) (rt : Z) (st : SortedState) : result SortedState :=
  if rt <=? cur_rt st then Ok st else
  match fuel with
  | O => Err OutOfFuel
  | S fuel =>
      out ← flush_posting (zlen (ss_bucket st)) (encode_endpoint_posting (ss_bucket st)) (ss_out st);
      flush_until fuel rt (mkSorted out (cur_rt st + 1) [] None)
  end.

Definition sorted_item (reltype_count rt node : Z) (st : SortedState) : result SortedState :=
  if reltype_count <=? rt then Err (Bail "endpoint posting reltype >= reltype_count")
  else if rt <? cur_rt st then Err (Bail "endpoint posting stream not sorted by reltype")
  else
    st ← flush_until (Z.to_nat (rt - cur_rt st)) rt st;
    if bool_decide (ss_last st = Some node) then Ok st
    else Ok (mkSorted (ss_out st) (cur_rt st) (ss_bucket st ++ [node]) (Some node)).

Fixpoint sorted_loop (reltype_count : Z) (sorted : list (result (Z * Z))) (st : SortedState) : result SortedState :=
  match sorted with
  | [] => flush_until (Z.to_nat (reltype_count - cur_rt st)) reltype_count st
  | item :: sorted =>
      '(rt, node) ← item;
      st ← sorted_item reltype_count rt node st;
      sorted_loop reltype_count sorted st
  end.

Definition write_endpoint_postings_from_sorted (reltype_count : Z) (sorted : list (result (Z * Z))) : result (list Z * (bytes * Z)) :=
  st ← sorted_loop reltype_count sorted (mkSorted postings_start 0 [] None); postings_finish (ss_out st).
End writers.

(** The vectors of endpoints by type, of which an index out of range panics. *)
Definition push_endpoint (t node : Z) (buckets : list (list Z)) : result (list (list Z)) :=
  if zlen buckets <=? t then Err (Panic "index out of bounds") else Ok (alter (λ b, b ++ [node]) (Z.to_nat t) buckets).

Fixpoint endpoints_loop (edges : list Edge) (src tgt : list (list Z)) : result (list (list Z) * list (list Z)) :=
  match edges with
  | [] => Ok (src, tgt)
  | e :: edges =>
      src ← push_endpoint (e_reltype e) (e_src e) src;
      tgt ← push_endpoint (e_reltype e) (e_dst e) tgt;
      endpoints_loop edges src tgt
  end.

Definition file_cipher `{Crypto} (cipher : option BlockCipher) (name : str) : option FileCipher := (λ c, for_file c name) <$> cipher.

Definition write_reltype_endpoint_postings `{Crypto} zstd_encode_all (src_nonce tgt_nonce : nat → bytes) (target_block_bytes zstd_level : Z) (cipher : option BlockCipher)
    (reltype_count : Z) (edges : list Edge) : result ((list Z * (bytes * Z)) * (list Z * (bytes * Z))) :=
  let empty := replicate (Z.to_nat reltype_count) [] in
  '(src, tgt) ← endpoints_loop edges empty empty;
  s ← write_buckets zstd_encode_all src_nonce target_block_bytes zstd_level (file_cipher cipher (lit "reltype_src.post")) src;
  t ← write_buckets zstd_encode_all tgt_nonce target_block_bytes zstd_level (file_cipher cipher (lit "reltype_tgt.post")) tgt;
  Ok (s, t).

(** * What the writers flush *)

Section flushed.
Context {crypto : Crypto}.
Variable zstd_encode_all : bytes → Z → result bytes.
Variable random_nonce : nat → bytes.
Variables (target_block_bytes zstd_level : Z) (cipher : option FileCipher).
Local Abbreviation flush := (flush_posting zstd_encode_all random_nonce target_block_bytes zstd_level cipher) (only parsing).

(** One record for each set of ids. *)
Fixpoint flush_all (idss : list (list Z)) (st : PostingsState) : result PostingsState :=
  match idss with
  | [] => Ok st
  | ids :: idss => st ← flush (zlen ids) (encode_endpoint_posting ids) st; flush_all idss st
  end.

Lemma flush_all_app l1 l2 st : flush_all (l1 ++ l2) st = (st ← flush_all l1 st; flush_all l2 st).
Proof.
  revert st. induction l1 as [|ids l1 IH]; intros st; cbn [app flush_all]; [done|]. destruct (flush_posting _ _ _ _ _ _ _ st) as [st'|]; [|done]. apply IH.
Qed.

Lemma buckets_flush buckets st : buckets_loop zstd_encode_all random_nonce target_block_bytes zstd_level cipher buckets st = flush_all (map sort_dedup_ids buckets) st.
Proof.
  revert st. induction buckets as [|b buckets IH]; intros st; cbn [buckets_loop map flush_all]; [done|].
  destruct (flush_posting _ _ _ _ _ _ _ st) as [st'|]; [|done]. apply IH.
Qed.

(** A plane whose bits are the ids of a set is flushed as the set. *)
Definition plane_is (p : EndpointPlanes) (t : Z) (ids : list Z) : Prop :=
  plane_iter p t = ids ∧ plane_count_universe p t = (zlen ids, default 0 (last ids)).

Lemma planes_flush p (ids : Z → list Z) ts st : Forall (λ t, plane_is p t (ids t)) ts →
  planes_loop zstd_encode_all random_nonce target_block_bytes zstd_level cipher p ts st = flush_all (map ids ts) st.
Proof.
  intros H. revert st. induction H as [|t ts [Hi Hc] _ IH]; intros st; cbn [planes_loop map flush_all]; [done|]. rewrite Hc, Hi.
  fold (encode_endpoint_posting (ids t)). destruct (flush_posting _ _ _ _ _ _ _ st) as [st'|]; [|done]. apply IH.
Qed.

(** An id is added unless it is the last. *)
Definition push_new (bucket : list Z) (node : Z) : list Z := if bool_decide (last bucket = Some node) then bucket else bucket ++ [node].

Lemma flush_until_pad fuel out rt bucket l :
  flush_until zstd_encode_all random_nonce target_block_bytes zstd_level cipher fuel (rt + Z.of_nat fuel) (mkSorted out rt bucket l) =
  (out ← flush_all (pad fuel bucket) out; Ok (mkSorted out (rt + Z.of_nat fuel) (left_over fuel bucket) (match fuel with O => l | S _ => None end))).
Proof.
  revert out rt bucket l. induction fuel as [|fuel IH]; intros out rt bucket l; cbn [flush_until pad flush_all left_over cur_rt ss_bucket ss_out].
  - by rewrite Z.add_0_r, (proj2 (Z.leb_le _ _)) by lia.
  - rewrite (proj2 (Z.leb_gt _ _)) by lia. destruct (flush_posting _ _ _ _ _ _ _ out) as [out'|]; [|done]. cbn [mbind result_bind].
    replace (rt + Z.of_nat (S fuel)) with (rt + 1 + Z.of_nat fuel) by lia. rewrite IH. by destruct fuel.
Qed.

Lemma sorted_flush n items out rt bucket : rt <= n → ascends n rt items →
  (st ← sorted_loop zstd_encode_all random_nonce target_block_bytes zstd_level cipher n (map Ok items) (mkSorted out rt bucket (last bucket)); Ok (ss_out st)) =
  flush_all (stream_lists push_new n rt bucket items) out.
Proof.
  revert out rt bucket. induction items as [|[t node] items IH]; intros out rt bucket Hrt; cbn [map sorted_loop stream_lists ascends].
  - intros _. pose proof (flush_until_pad (Z.to_nat (n - rt)) out rt bucket (last bucket)) as E. rewrite Z2Nat.id in E by lia. cbn [cur_rt].
    replace (rt + (n - rt)) with n in E by lia. rewrite E. by destruct (flush_all _ out).
  - intros [Ht Hp]. cbn [mbind result_bind]. unfold sorted_item. cbn [cur_rt]. rewrite (proj2 (Z.leb_gt _ _)), (proj2 (Z.ltb_ge _ _)) by lia.
    pose proof (flush_until_pad (Z.to_nat (t - rt)) out rt bucket (last bucket)) as E. rewrite Z2Nat.id in E by lia. replace (rt + (t - rt)) with t in E by lia.
    rewrite E, flush_all_app. destruct (flush_all (pad _ _) out) as [out'|]; [|done]. cbn [mbind result_bind ss_last ss_out ss_bucket cur_rt].
    assert ((match Z.to_nat (t - rt) with O => last bucket | S _ => None end) = last (left_over (Z.to_nat (t - rt)) bucket)) as -> by (by destruct (Z.to_nat (t - rt))).
    rewrite <- IH by (done || lia). unfold push_new. destruct (bool_decide (last _ = Some node)); [done|]. cbn [mbind result_bind]. by rewrite last_snoc.
Qed.
End flushed.

(** * The sets *)

Lemma sorted_ids_unique (l k : list Z) : StronglySorted Z.lt l → StronglySorted Z.lt k → (∀ x, x ∈ l ↔ x ∈ k) → l = k.
Proof.
  intros Hl Hk Heq. apply (StronglySorted_unique Z.le); [by apply sorted_lt_le..|]. apply NoDup_Permutation; [by apply sorted_lt_NoDup..|done].
Qed.

(** The ids of the words are the places of their bits. *)
Lemma word_ids_bits fuel base w : is_u64 w → (count_ones w <= fuel)%nat → word_ids fuel base w = map (λ b, base + Z.of_nat b) (word_bits w).
Proof.
  revert w. induction fuel as [|fuel IH]; intros w Hw Hc; cbn [word_ids].
  - unfold count_ones in Hc. destruct (word_bits w) as [|t bs] eqn:E; [|cbn [length] in Hc; lia]. by destruct (w =? 0).
  - destruct (Z.eqb_spec w 0) as [->|Hne]; [done|]. unfold trailing_zeros. unfold count_ones in Hc. destruct (word_bits w) as [|t bs] eqn:E; [by apply word_bits_nil in E|].
    cbn [head hd_error default map]. f_equal. pose proof (word_bits_clear w t bs Hw E) as Ec. rewrite IH; [by rewrite Ec|by apply clear_lowest_u64|].
    unfold count_ones. rewrite Ec. cbn [length] in Hc. lia.
Qed.

Lemma words_ids_ones wi ws : Forall is_u64 ws → words_ids (Z.of_nat wi) ws = map Z.of_nat (ones_from wi ws).
Proof.
  intros H. revert wi. induction H as [|w ws Hw _ IH]; intros wi; cbn [words_ids ones_from]; [done|]. rewrite word_ids_bits by (done || apply count_ones_le).
  replace (Z.of_nat wi + 1) with (Z.of_nat (S wi)) by lia. rewrite IH, map_app, map_map. f_equal. apply map_ext. intros b. lia.
Qed.

Lemma ones_from_snoc wi ws w : ones_from wi (ws ++ [w]) = ones_from wi ws ++ map (λ b, (wi + length ws) * 64 + b)%nat (word_bits w).
Proof.
  revert wi. induction ws as [|v ws IH]; intros wi; cbn [app ones_from length]; [by rewrite app_nil_r, Nat.add_0_r|].
  rewrite IH, <- app_assoc. do 2 f_equal. apply map_ext. intros b. lia.
Qed.

(** The highest bit of a word. *)
Lemma word_bits_last w : is_u64 w → w ≠ 0 → last (word_bits w) = Some (Z.to_nat (Z.log2 w)).
Proof.
  intros Hw Hne. assert (0 < w) as Hpos by (unfold is_u64 in Hw; lia). pose proof (Z.log2_nonneg w) as Hn.
  assert (Z.log2 w < 64) as H64 by (apply Z.log2_lt_pow2; [done|apply Hw]).
  assert (Z.to_nat (Z.log2 w) ∈ word_bits w) as Hin by (apply elem_of_word_bits; split; [lia|]; rewrite Z2Nat.id by done; by apply Z.bit_log2).
  destruct (last (word_bits w)) as [t|] eqn:E; [|by apply last_None in E; rewrite E in Hin; apply elem_of_nil in Hin]. f_equal.
  pose proof (word_bits_sorted w) as Hs. apply last_Some in E as [l E]. rewrite E in Hin, Hs.
  assert (t ∈ word_bits w) as Ht by (rewrite E; apply elem_of_app; right; apply list_elem_of_singleton; done).
  apply elem_of_word_bits in Ht as [_ Ht]. assert (Z.of_nat t <= Z.log2 w) as Hle.
  { destruct (Z.le_gt_cases (Z.of_nat t) (Z.log2 w)) as [|Hgt]; [done|]. rewrite Z.bits_above_log2 in Ht; [done|lia|done]. }
  apply elem_of_app in Hin as [Hin|Hin%list_elem_of_singleton]; [|done].
  pose proof (StronglySorted_app_1_elem_of _ _ _ _ t Hs Hin ltac:(by apply list_elem_of_singleton)). lia.
Qed.

Lemma last_map {A B} (f : A → B) l : last (map f l) = f <$> last l.
Proof. exact (fmap_last f l). Qed.

Lemma top_bit_last ws : Forall is_u64 ws → top_bit (zlen ws - 1) (rev ws) = default 0 (last (map Z.of_nat (ones ws))).
Proof.
  unfold ones. induction ws as [|w ws IH] using rev_ind; [done|]. intros [Hws Hw]%Forall_app. apply Forall_cons in Hw as [Hw _].
  rewrite rev_app_distr. cbn [rev app top_bit]. rewrite ones_from_snoc, map_app, last_app, zlen_app. change (zlen [w]) with 1. rewrite Z.add_simpl_r.
  destruct (Z.eqb_spec w 0) as [->|Hne]; [by apply IH|]. rewrite map_map, last_map, word_bits_last by done. cbn [fmap option_fmap option_map from_option id].
  pose proof (Z.log2_nonneg w). unfold zlen. lia.
Qed.

(** ** Setting bits *)

Lemma lor_set_bit word k : 0 <= k → Z.land word (Z.shiftl 1 k) ≠ 0 → Z.lor word (Z.shiftl 1 k) = word.
Proof.
  intros Hk Hne. rewrite Z.shiftl_1_l in *. assert (Z.testbit word k = true) as Ht.
  { destruct (Z.testbit word k) eqn:E; [done|]. exfalso. apply Hne. apply Z.bits_inj'. intros b Hb. rewrite Z.land_spec, Z.bits_0, Z.pow2_bits_eqb by done.
    destruct (Z.eqb_spec k b) as [->|]; [by rewrite E|by rewrite andb_false_r]. }
  apply Z.bits_inj'. intros b Hb. rewrite Z.lor_spec, Z.pow2_bits_eqb by done. destruct (Z.eqb_spec k b) as [->|]; [by rewrite Ht|by rewrite orb_false_r].
Qed.

Lemma planes_set_bit reltype node p : 0 <= reltype → 0 <= node →
  let q := (Z.to_nat reltype * words_per_plane p * 64 + Z.to_nat node)%nat in
  (q / 64 < length (ep_words p))%nat →
  planes_set reltype node p = Ok (mkPlanes (ep_reltype_count p) (ep_node_count p) (words_per_plane p) (set_bit 64 q (ep_words p))).
Proof.
  intros Hr Hn q Hq. unfold planes_set.
  assert (q / 64 = Z.to_nat reltype * words_per_plane p + Z.to_nat (Z.shiftr node 6))%nat as Ed.
  { unfold q. rewrite Z.shiftr_div_pow2 by done. change (2 ^ 6) with 64. rewrite Z2Nat.inj_div by lia. rewrite Nat.div_add_l by lia. done. }
  assert (Z.of_nat (q mod 64) = Z.land node 63) as Em.
  { unfold q. rewrite (Nat.add_comm _ (Z.to_nat node)), Nat.Div0.mod_add. rewrite Nat2Z.inj_mod, Z2Nat.id by done. change 63 with (Z.ones 6).
    by rewrite Z.land_ones by lia. }
  rewrite <- Ed, <- Em. destruct (lookup_lt_is_Some_2 _ _ Hq) as [word Hword]. rewrite Hword. unfold set_bit.
  assert (alter (λ x, Z.lor x (Z.shiftl 1 (Z.of_nat (q mod 64)))) (q / 64)%nat (ep_words p) =
    <[(q / 64)%nat := Z.lor word (Z.shiftl 1 (Z.of_nat (q mod 64)))]> (ep_words p)) as ->.
  { apply list_eq. intros j. destruct (decide (j = q / 64)%nat) as [->|Hj].
    - by rewrite list_lookup_alter_eq, list_lookup_insert_eq, Hword.
    - by rewrite list_lookup_alter_ne, list_lookup_insert_ne by done. }
  destruct (Z.eqb_spec (Z.land word (Z.shiftl 1 (Z.of_nat (q mod 64)))) 0) as [E|E]; [done|]. destruct p as [rc nc wpp ws]. cbn [ep_words ep_reltype_count ep_node_count words_per_plane] in *.
  do 2 f_equal. rewrite list_insert_id; [done|]. rewrite Hword. f_equal. symmetry. apply lor_set_bit; [lia|done].
Qed.

(** Bits set for the endpoints of edges, in the order in which threads get to set them. *)
Fixpoint planes_run (pushes : list (Z * Z)) (p : EndpointPlanes) : result EndpointPlanes :=
  match pushes with [] => Ok p | (t, node) :: pushes => p ← planes_set t node p; planes_run pushes p end.

Definition in_range (r n : Z) (e : Z * Z) : Prop := 0 <= e.1 < r ∧ 0 <= e.2 < n.

(** The bits that are set are those of the endpoints. *)
Record planes_hold (r n : Z) (pushes : list (Z * Z)) (p : EndpointPlanes) : Prop := {
  ph_count : ep_reltype_count p = r;
  ph_wpp : words_per_plane p = Z.to_nat (div_ceil n 64);
  ph_length : length (ep_words p) = (words_per_plane p * Z.to_nat r)%nat;
  ph_cells : cells_ok 64 (ep_words p);
  ph_bits q : vbit 64 (ep_words p) q = true ↔ ∃ t x, (t, x) ∈ pushes ∧ q = (Z.to_nat t * words_per_plane p * 64 + Z.to_nat x)%nat;
}.

Lemma node_word n x wpp : wpp = Z.to_nat (div_ceil n 64) → 0 <= x < n → (Z.to_nat x < wpp * 64)%nat.
Proof. intros -> Hx. pose proof (div_ceil_spec n 64 ltac:(lia) ltac:(lia)). lia. Qed.

Lemma planes_new_hold r n : planes_hold r n [] (planes_new r n).
Proof.
  split; cbn [planes_new ep_reltype_count words_per_plane ep_words]; [done|done|by rewrite length_replicate|apply zeros_ok|].
  intros q. rewrite vbit_zeros. split; [done|]. by intros (t & x & Hin%elem_of_nil & _).
Qed.

Lemma planes_set_hold r n done p t x : planes_hold r n done p → in_range r n (t, x) → ∃ p', planes_set t x p = Ok p' ∧ planes_hold r n (done ++ [(t, x)]) p'.
Proof.
  intros [Hc Hw Hl Hcells Hb] [Ht Hx]. cbn [fst snd] in *. pose proof (node_word n x _ Hw Hx) as Hxw.
  set (q := (Z.to_nat t * words_per_plane p * 64 + Z.to_nat x)%nat).
  assert ((q / 64 < length (ep_words p))%nat) as Hq.
  { apply Nat.Div0.div_lt_upper_bound. unfold q. rewrite Hl. assert (S (Z.to_nat t) <= Z.to_nat r)%nat as Htr by lia.
    pose proof (Nat.mul_le_mono_l _ _ (words_per_plane p) Htr). nia. }
  eexists. split; [apply planes_set_bit; [lia|lia|exact Hq]|]. split; cbn [ep_reltype_count words_per_plane ep_words]; [done|done|by rewrite length_set_bit|by apply set_bit_ok; [lia|]|].
  intros q'. rewrite vbit_set_bit by (exact Hq || lia). rewrite orb_true_iff, Hb, Nat.eqb_eq. fold q. split.
  - intros [(t' & x' & Hin & ->)|Hq']; [exists t', x'; split; [apply elem_of_app; by left|done]|].
    exists t, x. split; [apply elem_of_app; right; by apply list_elem_of_singleton|exact Hq'].
  - intros (t' & x' & [Hin|Hin%list_elem_of_singleton]%elem_of_app & Hq'); [left; by exists t', x'|right; by injection Hin as -> ->].
Qed.

Lemma planes_run_hold r n pushes done p : planes_hold r n done p → Forall (in_range r n) pushes → ∃ p', planes_run pushes p = Ok p' ∧ planes_hold r n (done ++ pushes) p'.
Proof.
  intros Hp Hf. revert done p Hp. induction Hf as [|[t x] pushes Hx _ IH]; intros done p Hp; cbn [planes_run].
  - exists p. by rewrite app_nil_r.
  - destruct (planes_set_hold r n done p t x Hp Hx) as (p1 & -> & H1). cbn [mbind result_bind]. destruct (IH _ _ H1) as (p' & -> & H'). exists p'. split; [done|]. by rewrite <- app_assoc in H'.
Qed.

(** The ids of a plane. *)
Lemma plane_vbit r n pushes p t x : planes_hold r n pushes p → 0 <= t < r → (x < words_per_plane p * 64)%nat →
  vbit 64 (plane p t) x = vbit 64 (ep_words p) (Z.to_nat t * words_per_plane p * 64 + x).
Proof.
  intros Hp Ht Hx. unfold vbit, plane. rewrite Nat.div_add_l by lia. rewrite (Nat.add_comm _ x), Nat.Div0.mod_add.
  rewrite lookup_take_lt by (apply Nat.Div0.div_lt_upper_bound; lia). by rewrite lookup_drop.
Qed.

Lemma plane_length r n pushes p t : planes_hold r n pushes p → 0 <= t < r → length (plane p t) = words_per_plane p.
Proof.
  intros Hp Ht. unfold plane. rewrite length_take, length_drop, (ph_length _ _ _ _ Hp). assert (S (Z.to_nat t) <= Z.to_nat r)%nat as Htr by lia.
  pose proof (Nat.mul_le_mono_l _ _ (words_per_plane p) Htr). nia.
Qed.

Lemma plane_elem r n pushes p t x : planes_hold r n pushes p → Forall (in_range r n) pushes → 0 <= t < r → x ∈ ones (plane p t) ↔ (t, Z.of_nat x) ∈ pushes.
Proof.
  intros Hp Hf Ht. rewrite elem_of_ones, (plane_length _ _ _ _ _ Hp Ht). rewrite Forall_forall in Hf. split.
  - intros [Hx Hv]. rewrite (plane_vbit _ _ _ _ _ _ Hp Ht) in Hv by lia. apply (ph_bits _ _ _ _ Hp) in Hv as (t' & x' & Hin & Hq).
    destruct (Hf _ Hin) as [Ht' Hx']. cbn [fst snd] in *. pose proof (node_word n x' _ (ph_wpp _ _ _ _ Hp) Hx') as Hw.
    assert (Z.to_nat t = Z.to_nat t') as Et by nia. assert (t' = t) as -> by lia. assert (Z.of_nat x = x') as -> by nia. done.
  - intros Hin. destruct (Hf _ Hin) as [_ Hx]. cbn [snd] in Hx. pose proof (node_word n _ _ (ph_wpp _ _ _ _ Hp) Hx) as Hw. rewrite Nat2Z.id in Hw. split; [lia|].
    rewrite (plane_vbit _ _ _ _ _ _ Hp Ht) by lia. apply (ph_bits _ _ _ _ Hp). exists t, (Z.of_nat x). by rewrite Nat2Z.id.
Qed.

(** The distinct endpoints of a type, ascending. *)
Definition endpoints (pushes : list (Z * Z)) (t : Z) : list Z := sort_dedup_ids (pushed pushes t).

Lemma elem_of_endpoints pushes t x : x ∈ endpoints pushes t ↔ (t, x) ∈ pushes.
Proof.
  unfold endpoints. rewrite elem_of_sort_dedup. unfold pushed. rewrite list_elem_of_In, in_map_iff. setoid_rewrite <- list_elem_of_In.
  setoid_rewrite list_elem_of_filter. split; [|intros H; by exists (t, x)]. by intros ([t' x'] & <- & <- & Hin).
Qed.

Lemma planes_are_endpoints r n pushes p t : planes_hold r n pushes p → Forall (in_range r n) pushes → 0 <= t < r → plane_is p t (endpoints pushes t).
Proof.
  intros Hp Hf Ht. assert (Forall is_u64 (plane p t)) as Hu by (apply Forall_take, Forall_drop, cells_u64, Hp).
  assert (map Z.of_nat (ones (plane p t)) = endpoints pushes t) as E.
  { apply sorted_ids_unique; [|apply sort_dedup_sorted|].
    - pose proof (ones_from_sorted 0 (plane p t)) as Hs. fold (ones (plane p t)) in Hs. induction Hs as [|y l Hl IH Hy]; cbn [map]; constructor; [done|].
      apply Forall_map. eapply Forall_impl; [exact Hy|]. cbn. lia.
    - intros x. rewrite elem_of_endpoints, list_elem_of_In, in_map_iff. setoid_rewrite <- list_elem_of_In. split.
      + intros (y & <- & Hy). by apply (plane_elem r n pushes p t y Hp Hf Ht).
      + intros Hin. rewrite Forall_forall in Hf. pose proof (Hf _ Hin) as [_ Hx]. cbn [snd] in Hx. exists (Z.to_nat x). split; [lia|].
        apply (plane_elem r n pushes p t _ Hp); [by apply Forall_forall|done|]. by rewrite Z2Nat.id by lia. }
  unfold plane_is, plane_iter, plane_count_universe. change 0 with (Z.of_nat 0) at 1. rewrite words_ids_ones by done. fold (ones (plane p t)). split; [done|].
  rewrite top_bit_last, E by done. f_equal. rewrite <- E. unfold zlen. rewrite length_map. unfold ones. by rewrite length_ones_from.
Qed.

(** ** Sorted streams *)

Definition endpoint_le (a b : Z * Z) : Prop := a.1 < b.1 ∨ a.1 = b.1 ∧ a.2 <= b.2.

Lemma sorted_ascends r n a items : StronglySorted endpoint_le items → Forall (in_range r n) items → Forall (λ e, a <= e.1) items → ascends r a items.
Proof.
  intros Hs. revert a. induction Hs as [|[t x] items Hs IH Hx]; intros a Hf Ha; cbn [ascends]; [done|]. apply Forall_cons in Hf as [[Ht _] Hf], Ha as [Hat _]. cbn [fst] in *.
  split; [lia|]. apply IH; [done|]. eapply Forall_impl; [exact Hx|]. unfold endpoint_le. cbn [fst]. lia.
Qed.

Lemma sorted_pushed items t : StronglySorted endpoint_le items → StronglySorted Z.le (pushed items t).
Proof.
  induction 1 as [|[k x] items Hs IH Hx]; [constructor|]. rewrite pushed_cons. destruct (Z.eqb_spec k t) as [->|]; [|done]. cbn [app]. constructor; [done|].
  rewrite Forall_forall in Hx. apply Forall_forall. intros y Hy. unfold pushed in Hy. rewrite list_elem_of_In, in_map_iff in Hy. destruct Hy as ([t' y'] & <- & Hin).
  apply list_elem_of_In, list_elem_of_filter in Hin as [Ht Hin]. cbn [fst snd] in *. specialize (Hx _ Hin). unfold endpoint_le in Hx. cbn [fst snd] in Hx. lia.
Qed.

Lemma fold_push_new l b : StronglySorted Z.le l → StronglySorted Z.lt b → (∀ x y, x ∈ b → y ∈ l → x <= y) →
  StronglySorted Z.lt (foldl push_new b l) ∧ ∀ x, x ∈ foldl push_new b l ↔ x ∈ b ∨ x ∈ l.
Proof.
  intros Hl. revert b. induction Hl as [|y l Hl IH Hy]; intros b Hb Hle; cbn [foldl].
  { split; [done|]. intros x. rewrite elem_of_nil. tauto. }
  rewrite Forall_forall in Hy. unfold push_new at 2 4. destruct (bool_decide_reflect (last b = Some y)) as [E|E].
  - destruct (IH b Hb) as [H1 H2]; [intros x z Hx Hz; apply Hle; [done|by right]|]. split; [done|]. intros x. rewrite H2, elem_of_cons. split; [tauto|].
    intros [Hx|[->|Hx]]; [by left| |by right]. left. apply last_Some in E as [b' ->]. apply elem_of_app. right. by apply list_elem_of_singleton.
  - destruct (IH (b ++ [y])) as [H1 H2].
    + apply StronglySorted_app_2; [|done|repeat constructor]. intros x z Hx ->%list_elem_of_singleton. pose proof (Hle x y Hx ltac:(left)).
      destruct (Z.eq_dec x y) as [->|]; [|lia]. exfalso. apply list_elem_of_lookup_1 in Hx as [i Hi]. apply E. rewrite last_lookup.
      pose proof (lookup_lt_Some _ _ _ Hi) as Hlt. destruct (lookup_lt_is_Some_2 b (pred (length b))) as [z Hz]; [lia|]. rewrite Hz. f_equal.
      assert (z <= y) by (apply Hle; [by eapply list_elem_of_lookup_2|left]). pose proof (sorted_lookup_le b i (pred (length b)) y z (sorted_lt_le b Hb) Hi Hz ltac:(lia)). lia.
    + intros x z Hx Hz. apply elem_of_app in Hx as [Hx|Hx%list_elem_of_singleton]; [apply Hle; [done|by right]|subst x; by apply Hy].
    + split; [done|]. intros x. rewrite H2, elem_of_app, list_elem_of_singleton, elem_of_cons. tauto.
Qed.

Lemma endpoints_perm p q t : p ≡ₚ q → endpoints p t = endpoints q t.
Proof. intros E. apply sorted_ids_unique; [apply sort_dedup_sorted..|]. intros x. by rewrite !elem_of_endpoints, E. Qed.

Lemma stream_endpoints r n items : 0 <= r → StronglySorted endpoint_le items → Forall (in_range r n) items →
  stream_lists push_new r 0 [] items = map (endpoints items) (seqZ 0 r).
Proof.
  intros Hr Hs Hf. rewrite stream_lists_nodes; [|done|]. 2: { eapply sorted_ascends; [done..|]. eapply Forall_impl; [exact Hf|]. by intros [? ?] [[? ?] _]. }
  rewrite Z.sub_0_r. apply map_ext. intros t. replace (if t =? 0 then [] else []) with (@nil Z) by (by destruct (t =? 0)).
  destruct (fold_push_new (pushed items t) []) as [H1 H2]; [by apply sorted_pushed|constructor|by intros ? ? ?%elem_of_nil|].
  apply sorted_ids_unique; [done|apply sort_dedup_sorted|]. intros x. rewrite H2. unfold endpoints. rewrite elem_of_sort_dedup, elem_of_nil. tauto.
Qed.

Section agree.
Context {crypto : Crypto}.
Variable zstd_encode_all : bytes → Z → result bytes.
Variable random_nonce : nat → bytes.
Variables (target_block_bytes zstd_level : Z) (cipher : option FileCipher).
Local Abbreviation from_planes := (write_endpoint_postings_from_planes zstd_encode_all random_nonce target_block_bytes zstd_level cipher) (only parsing).
Local Abbreviation from_sorted := (write_endpoint_postings_from_sorted zstd_encode_all random_nonce target_block_bytes zstd_level cipher) (only parsing).
Local Abbreviation from_buckets := (write_buckets zstd_encode_all random_nonce target_block_bytes zstd_level cipher) (only parsing).

(** C28: The three writers of endpoint postings leave the same file.  Bits that are set in any
    order, a stream that was sorted by type and node, and the buckets of a list of edges give
    the same bytes and the same counts, or fail alike; setting the bits never fails. *)
Theorem postings_writers_agree r n pushes order sorted : 0 <= r → Forall (in_range r n) pushes → order ≡ₚ pushes → sorted ≡ₚ pushes →
  StronglySorted endpoint_le sorted → ∃ p, planes_run order (planes_new r n) = Ok p ∧
    from_planes p = from_buckets (map (pushed pushes) (seqZ 0 r)) ∧
    from_sorted r (map Ok sorted) = from_buckets (map (pushed pushes) (seqZ 0 r)).
Proof.
  intros Hr Hf Ho Hp Hs. destruct (planes_run_hold r n order [] (planes_new r n) (planes_new_hold r n)) as (p & Hrun & Hhold); [by rewrite Ho|].
  exists p. split; [done|]. cbn [app] in Hhold. unfold write_endpoint_postings_from_planes, write_endpoint_postings_from_sorted, write_buckets.
  rewrite buckets_flush, map_map. fold (endpoints pushes). split.
  - rewrite (ph_count _ _ _ _ Hhold), (planes_flush _ _ _ _ _ p (endpoints order)).
    + by rewrite (map_ext _ (endpoints pushes)) by (intros t; by apply endpoints_perm).
    + apply Forall_forall. intros t Ht%elem_of_seqZ. eapply planes_are_endpoints; [done|by rewrite Ho|lia].
  - pose proof (sorted_flush zstd_encode_all random_nonce target_block_bytes zstd_level cipher r sorted (postings_start cipher) 0 []) as E.
    rewrite (stream_endpoints r n) in E by (done || by rewrite Hp). rewrite (map_ext _ (endpoints pushes)) in E by (intros t; by apply endpoints_perm).
    change (λ x, sort_dedup_ids (pushed pushes x)) with (endpoints pushes). rewrite <- E; [|done|].
    + by destruct (sorted_loop _ _ _ _ _ _ _ _).
    + eapply sorted_ascends; [done|by rewrite Hp|]. apply (Forall_impl (in_range r n)); [by rewrite Hp|]. by intros [? ?] [[? ?] _].
Qed.
End agree.

(** * Reading back *)

Section exact.
Context {crypto : Crypto} {crypto_laws : CryptoLaws}.
Variable zstd_encode_all : bytes → Z → result bytes.
Variable zstd_decode : bytes → list bytes * bool.
Variables (target_block_bytes zstd_level : Z).
Hypothesis lossless : zstd_lossless zstd_encode_all zstd_decode.
Hypothesis bounded : ∀ raw level comp, zstd_encode_all raw level = Ok comp → zlen comp <= zlen raw + zlen raw / 256 + 64.
Hypothesis target_small : 5 * target target_block_bytes + 2 ^ 29 + 20 <= 2 ^ 30.

Lemma flush_records random_nonce cipher idss recs counts w : Forall2 (λ ids rec, encode_endpoint_posting ids = Ok rec) idss recs →
  flush_all zstd_encode_all random_nonce target_block_bytes zstd_level cipher idss (counts, w) =
  ('(_, w) ← append_records zstd_encode_all random_nonce target_block_bytes Raw zstd_level cipher recs w; Ok (counts ++ map zlen idss, w)).
Proof.
  intros H. revert counts w. induction H as [|ids rec idss recs He _ IH]; intros counts w; cbn [flush_all append_records map]; [by rewrite app_nil_r|].
  unfold flush_posting. rewrite He. cbn [mbind result_bind fst snd]. destruct (append_record _ _ _ _ _ _ rec w) as [[loc w']|]; [|done]. cbn [mbind result_bind].
  rewrite IH. destruct (append_records _ _ _ _ _ _ recs w') as [[locs w'']|]; [|done]. cbn [mbind result_bind]. by rewrite <- app_assoc.
Qed.

Definition posting_record (ids : list Z) (rec : bytes) : Prop :=
  encode_endpoint_posting ids = Ok rec ∧ decode_endpoint_posting rec = Ok ids ∧ record_fits target_block_bytes rec.

Lemma posting_records idss : Forall ids_ok idss → ∃ recs, Forall2 posting_record idss recs.
Proof.
  induction 1 as [|ids idss Hids _ (recs & IH)]; [by exists []|]. destruct (posting_encodes ids Hids) as (rec & He & Hd & Hne & Hlen). exists (rec :: recs).
  apply Forall2_cons. split; [|done]. split_and!; [done..|]. unfold record_fits. split; [done|lia].
Qed.

(** A posting file: it opens, and the record of a type decodes to the endpoints of the edges of
    the type, ascending, as many as its count says. *)
Definition posting_file (cipher : option FileCipher) (r : Z) (endpoint : Edge → Z) (edges : list Edge) (out : list Z * (bytes * Z)) : Prop :=
  ∃ rd, open_blocks out.2.1 cipher = Ok rd ∧ total_records rd = r ∧ ∀ t, 0 <= t < r → ∃ ids,
    (rec ← read_record_global zstd_decode rd t; decode_endpoint_posting rec) = Ok ids ∧ StronglySorted Z.lt ids ∧
    (∀ x, x ∈ ids ↔ ∃ e, e ∈ edges ∧ e_reltype e = t ∧ endpoint e = x) ∧ out.1 !! Z.to_nat t = Some (zlen ids).

Definition endpoint_of (endpoint : Edge → Z) (e : Edge) : Z * Z := (e_reltype e, endpoint e).

Lemma buckets_read random_nonce cipher r n endpoint edges counts img blocks : (∀ i, zlen (random_nonce i) = NONCE_LEN) → 0 <= r → n <= 2 ^ 30 →
  Forall (in_range r n) (map (endpoint_of endpoint) edges) →
  write_buckets zstd_encode_all random_nonce target_block_bytes zstd_level cipher (map (pushed (map (endpoint_of endpoint) edges)) (seqZ 0 r)) = Ok (counts, (img, blocks)) →
  44 * blocks <= MAX_BLOCK_BYTES → fits img → posting_file cipher r endpoint edges (counts, (img, blocks)).
Proof.
  intros Hnonce Hr Hn Hf Hw Hsz Hfits. set (pushes := map (endpoint_of endpoint) edges) in *. unfold write_buckets in Hw. rewrite buckets_flush, map_map in Hw.
  change (λ x, sort_dedup_ids (pushed pushes x)) with (endpoints pushes) in Hw.
  assert (Forall ids_ok (map (endpoints pushes) (seqZ 0 r))) as Hids.
  { apply Forall_map, Forall_forall. intros t _. split; [apply sort_dedup_sorted|]. apply Forall_forall. intros x Hx%elem_of_endpoints.
    rewrite Forall_forall in Hf. destruct (Hf _ Hx) as [_ Hx']. cbn [snd] in Hx'. lia. }
  destruct (posting_records _ Hids) as (recs & Hrecs).
  unfold postings_start in Hw. rewrite (flush_records _ _ _ recs) in Hw by (eapply Forall2_impl; [exact Hrecs|by intros ? ? []]).
  apply bind_Ok in Hw as ([c w] & Hw1 & Hw2). apply bind_Ok in Hw1 as ([locs w1] & Ha & [= <- <-]). unfold postings_finish in Hw2. cbn [fst snd] in Hw2.
  apply bind_Ok in Hw2 as (out & Hfin & [= <- ->]).
  assert (write_file zstd_encode_all random_nonce target_block_bytes Raw zstd_level cipher recs = Ok (locs, (img, blocks))) as Hfile.
  { unfold write_file. rewrite Ha. cbn [mbind result_bind]. by rewrite Hfin. }
  assert (Forall (record_fits target_block_bytes) recs) as Hrf.
  { apply Forall_forall. intros rec [i Hi]%list_elem_of_lookup_1. by destruct (Forall2_lookup_r _ _ _ _ _ Hrecs Hi) as (ids & _ & _ & _ & ?). }
  destruct (written_file zstd_encode_all zstd_decode random_nonce target_block_bytes Raw zstd_level cipher lossless bounded Hnonce ltac:(lia)
    recs locs img blocks Hrf Hfile Hsz Hfits) as (rd & fin & Ho & _ & Hfo & Hc & _).
  exists rd. cbn [fst snd]. split; [done|]. pose proof (Forall2_length _ _ _ Hrecs) as Hlen. rewrite length_map, length_seqZ in Hlen. split.
  - rewrite (total_of _ rd fin Hfo), Hc. unfold zlen. lia.
  - intros t Ht. exists (endpoints pushes t). assert (map (endpoints pushes) (seqZ 0 r) !! Z.to_nat t = Some (endpoints pushes t)) as Hl.
    { rewrite list_lookup_fmap, lookup_seqZ_lt by lia. cbn. do 2 f_equal. lia. }
    destruct (Forall2_lookup_l _ _ _ _ _ Hrecs Hl) as (rec & Hrec & _ & Hd & _). split_and!.
    + rewrite <- (Z2Nat.id t) at 1 by lia. rewrite (read_global _ rd fin Hfo (Z.to_nat t) rec) by (by rewrite Hc). exact Hd.
    + apply sort_dedup_sorted.
    + intros x. rewrite elem_of_endpoints. unfold pushes. rewrite list_elem_of_In, in_map_iff. setoid_rewrite <- list_elem_of_In. split.
      * intros (e & He & Hin). injection He as <- <-. by exists e.
      * intros (e & Hin & <- & <-). by exists e.
    + cbn [app]. rewrite list_lookup_fmap, Hl. done.
Qed.

Lemma endpoints_buckets r edges ps qs : Forall (λ e, 0 <= e_reltype e < r) edges →
  endpoints_loop edges (map (pushed ps) (seqZ 0 r)) (map (pushed qs) (seqZ 0 r)) =
  Ok (map (pushed (ps ++ map (endpoint_of e_src) edges)) (seqZ 0 r), map (pushed (qs ++ map (endpoint_of e_dst) edges)) (seqZ 0 r)).
Proof.
  intros H. revert ps qs. induction H as [|e edges Hr _ IH]; intros ps qs; cbn [endpoints_loop map]; [by rewrite !app_nil_r|].
  assert (∀ ps' : list (Z * Z), zlen (map (pushed ps') (seqZ 0 r)) = r) as Hz by (intros; unfold zlen; rewrite length_map, length_seqZ; lia).
  unfold push_endpoint. rewrite !Hz, (proj2 (Z.leb_gt _ _)) by lia. cbn [mbind result_bind]. rewrite !alter_pushed by done. rewrite IH. by rewrite <- !app_assoc.
Qed.

(** C16: The endpoint postings of a list of edges read as the edges.  In the file of sources the
    record of a type decodes to the ids of the nodes with an outgoing edge of the type, ascending
    and each once, in the file of targets to those with an incoming edge; there is a record for
    every type, and the counts handed to the manifest are the lengths. *)
Theorem postings_exact src_nonce tgt_nonce cipher r n edges src tgt : (∀ i, zlen (src_nonce i) = NONCE_LEN) → (∀ i, zlen (tgt_nonce i) = NONCE_LEN) →
  0 <= r → n <= 2 ^ 30 → Forall (λ e, 0 <= e_reltype e < r ∧ endpoints_ok n e) edges →
  write_reltype_endpoint_postings zstd_encode_all src_nonce tgt_nonce target_block_bytes zstd_level cipher r edges = Ok (src, tgt) →
  44 * src.2.2 <= MAX_BLOCK_BYTES → fits src.2.1 → 44 * tgt.2.2 <= MAX_BLOCK_BYTES → fits tgt.2.1 →
  posting_file (file_cipher cipher (lit "reltype_src.post")) r e_src edges src ∧ posting_file (file_cipher cipher (lit "reltype_tgt.post")) r e_dst edges tgt.
Proof.
  intros Hs Ht Hr Hn He Hw Hbs Hfs Hbt Hft. unfold write_reltype_endpoint_postings in Hw. rewrite !no_pushed in Hw by done.
  rewrite endpoints_buckets in Hw by (eapply Forall_impl; [exact He|by intros ? []]). cbn [mbind result_bind app] in Hw.
  apply bind_Ok in Hw as (s & Hws & Hw). apply bind_Ok in Hw as (t & Hwt & [= -> ->]). destruct src as [cs [simg bs]], tgt as [ct [timg bt]]. cbn [fst snd] in *.
  assert (Forall (in_range r n) (map (endpoint_of e_src) edges) ∧ Forall (in_range r n) (map (endpoint_of e_dst) edges)) as [Hrs Hrt].
  { split; apply Forall_map; (eapply Forall_impl; [exact He|]); by intros e [? [? ?]]. }
  split; [by apply (buckets_read src_nonce _ r n)|by apply (buckets_read tgt_nonce _ r n)].
Qed.
End exact.

(** * Witnesses *)

Section witness.
#[local] Existing Instance toy_crypto.
#[local] Existing Instance toy_crypto_laws.

Definition example_pushes : list (Z * Z) := [(1, 5); (0, 70); (1, 2); (1, 5)].
Definition example_sorted : list (Z * Z) := [(0, 70); (1, 2); (1, 5); (1, 5)].

Lemma example_sorted_perm : example_sorted ≡ₚ example_pushes.
Proof.
  symmetry. etrans; [apply perm_swap|]. apply perm_skip, perm_swap.
Qed.

Lemma postings_writers_agree_witness : ∃ p, planes_run (rev example_pushes) (planes_new 3 80) = Ok p ∧
  write_endpoint_postings_from_planes stored_encode example_block_nonces 3 3 example_block_key p =
  write_endpoint_postings_from_sorted stored_encode example_block_nonces 3 3 example_block_key 3 (map Ok example_sorted).
Proof.
  destruct (postings_writers_agree stored_encode example_block_nonces 3 3 example_block_key 3 80 example_pushes (rev example_pushes) example_sorted
    ltac:(lia) ltac:(repeat (apply Forall_cons; split); [..|by apply Forall_nil]; split; cbn; lia) (symmetry (Permutation_rev example_pushes)) example_sorted_perm
    ltac:(repeat (constructor; [|repeat (apply Forall_cons; split); try apply Forall_nil_2; unfold endpoint_le; cbn; lia]); constructor)) as (p & Hp & H1 & H2).
  exists p. split; [exact Hp|]. rewrite H1, H2. reflexivity.
Defined.

Definition example_cipher : option BlockCipher := None.
Definition example_postings : result ((list Z * (bytes * Z)) * (list Z * (bytes * Z))) :=
  write_reltype_endpoint_postings stored_encode example_block_nonces example_block_nonces 3 3 example_cipher 10 example_edges.
Definition example_src : list Z * (bytes * Z) := match example_postings with Ok (s, _) => s | Err _ => ([], ([], 0)) end.
Definition example_tgt : list Z * (bytes * Z) := match example_postings with Ok (_, t) => t | Err _ => ([], ([], 0)) end.

Lemma example_postings_run :
  write_reltype_endpoint_postings stored_encode example_block_nonces example_block_nonces 3 3 example_cipher 10 example_edges = Ok (example_src, example_tgt).
Proof. vm_compute. reflexivity. Qed.

Lemma postings_exact_witness :
  posting_file stored_decode (file_cipher example_cipher (lit "reltype_src.post")) 10 e_src example_edges example_src ∧ example_src.1 !! 4%nat = Some 2.
Proof.
  split; [|vm_compute; reflexivity].
  exact (proj1 (postings_exact stored_encode stored_decode 3 3 stored_lossless stored_bounded ltac:(apply Z.leb_le; reflexivity) example_block_nonces example_block_nonces
    example_cipher 10 3 example_edges example_src example_tgt example_block_nonce_length example_block_nonce_length ltac:(lia) ltac:(lia)
    ltac:(repeat (apply Forall_cons; split); [..|by apply Forall_nil]; repeat split; cbn; lia) example_postings_run
    ltac:(apply Z.leb_le; vm_compute; reflexivity) ltac:(unfold fits; apply Z.ltb_lt; vm_compute; reflexivity)
    ltac:(apply Z.leb_le; vm_compute; reflexivity) ltac:(unfold fits; apply Z.ltb_lt; vm_compute; reflexivity))).
Defined.

(** Only the order of the types is checked: a stream whose nodes are not sorted is written, and
    the record reads as other nodes. *)
Example unsorted_nodes_written :
  is_ok (write_endpoint_postings_from_sorted stored_encode example_block_nonces 3 3 example_block_key 1 [Ok (0, 5); Ok (0, 2)]) = true ∧
  (rec ← encode_endpoint_posting [5; 2]; decode_endpoint_posting rec) = Ok [3; 4].
Proof. split; vm_compute; reflexivity. Qed.
End witness.
