(* ===== verification/Columns.v ===== *)
(** The stores of entities, of [graph-format/src]: properties ([columns.rs]), labels
    ([nodelabels.rs]), the lists of hubs ([hubdegree.rs]) and the records of
    histograms ([histogram.rs]).

    A store is a block file with a record per entity, so an entity is read by its dense id. *)

From S2P Require Import Prelude Values Wire Crypto BlockCodec Bits Memtable Isam IsamLookup BlockFile BlockRead BlockExact Topology Postings PostingFile.

(** * Properties *)

(** A key by its symbol, and a value. *)
Definition write_prop (p : Z * Value.t) : bytes := write_uvarint p.1 ++ write_value p.2.
Definition encode_props_record (props : list (Z * Value.t)) : bytes := write_uvarint (zlen props) ++ concat (map write_prop props).

Definition read_prop : reader (Z * Value.t) := λ r,
  '(key, r) ← read_uvarint r;
  '(v, r) ← read_value r;
  Ok (as_u32 key, v, r).

Definition decode_props (rec : bytes) : result (list (Z * Value.t)) :=
  '(count, r) ← read_uvarint rec;
  '(out, _) ← read_many read_prop count r;
  Ok out.

(** One property: values of other keys are stepped over.  Each round takes a byte. *)
Fixpoint one_loop (fuel : nat) (target_key count : Z) (r : bytes) : result (option Value.t) :=
  if count <=? 0 then Ok None else
  match fuel with
  | O => Err OutOfFuel
  | S fuel =>
      '(key, r) ← read_uvarint r;
      if as_u32 key =? target_key then '(v, _) ← read_value r; Ok (Some v)
      else '(_, r) ← skip_value r; one_loop fuel target_key (count - 1) r
  end.

Definition decode_one (rec : bytes) (target_key : Z) : result (option Value.t) :=
  '(count, r) ← read_uvarint rec;
  one_loop (S (length r)) target_key count r.

(** * Labels *)

Definition BITMASK_MAX_LABELS : Z := 64.
Definition use_bitmask (label_alphabet : Z) : bool := label_alphabet <=? BITMASK_MAX_LABELS.

(** A mask of the labels, which are below 64. *)
Definition label_mask (label_ids : list Z) : Z := foldl (λ mask l, Z.lor mask (Z.shiftl 1 (Z.land l 63))) 0 label_ids.
Definition encode_labels_bitmask (label_ids : list Z) : bytes := le_bytes 8 (label_mask label_ids).

(** [while mask != 0]: the lowest bit is taken and cleared, as [word_ids] does. *)
Definition decode_labels_bitmask (rec : bytes) : result (list Z) :=
  if zlen rec =? 8 then Ok (word_ids 64 0 (le_val rec)) else Err (Bail "bitmask label record is not 8 bytes").

Definition encode_labels_record (label_ids : list Z) : bytes := write_uvarint (zlen label_ids) ++ concat (map write_uvarint label_ids).

Definition read_label : reader Z := λ r, '(l, r) ← read_uvarint r; Ok (as_u32 l, r).

Definition decode_labels_varint (rec : bytes) : result (list Z) :=
  '(count, r) ← read_uvarint rec;
  '(out, _) ← read_many read_label count r;
  Ok out.

Definition decode_labels (rec : bytes) (bitmask : bool) : result (list Z) :=
  if bitmask then decode_labels_bitmask rec else decode_labels_varint rec.

(** * Hubs *)

(** Ids ascending, as the differences to the one before; a descent panics. *)
Fixpoint hub_entries (prev : Z) (entries : list (Z * Z)) : result bytes :=
  match entries with
  | [] => Ok []
  | (id, deg) :: entries =>
      if id <? prev then Err (Panic "attempt to subtract with overflow") else
      rest ← hub_entries id entries;
      Ok (write_uvarint (id - prev) ++ write_uvarint deg ++ rest)
  end.

Definition encode_hub_list (entries : list (Z * Z)) : result bytes :=
  rest ← hub_entries 0 entries; Ok (write_uvarint (zlen entries) ++ rest).

Fixpoint hub_loop (fuel : nat) (count prev : Z) (r : bytes) (out : list (Z * Z)) : result (list (Z * Z)) :=
  if count <=? 0 then Ok out else
  match fuel with
  | O => Err OutOfFuel
  | S fuel =>
      '(delta, r) ← read_uvarint r;
      id ← add_u64 prev delta;
      '(deg, r) ← read_uvarint r;
      hub_loop fuel (count - 1) id r (out ++ [(id, as_u32 deg)])
  end.

Definition decode_hub_list (rec : bytes) : result (list (Z * Z)) :=
  '(count, r) ← read_uvarint rec;
  hub_loop (S (length r)) count 0 r [].

(** * Histograms *)

Definition DEFAULT_HISTOGRAM_MAX_DISTINCT : Z := 4096.

Definition write_bucket (p : Value.t * Z) : bytes := write_value p.1 ++ write_uvarint p.2.
Definition encode_histogram (pairs : list (Value.t * Z)) : bytes := write_uvarint (zlen pairs) ++ concat (map write_bucket pairs).

Definition read_bucket : reader (Value.t * Z) := λ r,
  '(v, r) ← read_value r;
  '(n, r) ← read_uvarint r;
  Ok (v, n, r).

Definition decode_histogram (rec : bytes) : result (list (Value.t * Z)) :=
  '(count, r) ← read_uvarint rec;
  '(out, _) ← read_many read_bucket count r;
  Ok out.

(** * The stores *)

Section stores.
Context {crypto : Crypto}.
Variable zstd_encode_all : bytes → Z → result bytes.
Variable zstd_decode : bytes → list bytes * bool.
Variable random_nonce : nat → bytes.
Variables (target_block_bytes zstd_level : Z) (cipher : option FileCipher).
Local Abbreviation append_to c := (append_record zstd_encode_all random_nonce target_block_bytes c zstd_level cipher) (only parsing).

Record PropsWriter := mkProps { pw_inner : BlockFileWriter; pw_next_id : Z }.

Definition props_create : PropsWriter := mkProps (create_inner Zstd cipher) 0.

Definition props_append_raw (rec : bytes) (w : PropsWriter) : result (Z * PropsWriter) :=
  '(_, inner) ← append_to Zstd rec (pw_inner w);
  Ok (pw_next_id w, mkProps inner (pw_next_id w + 1)).

Definition props_append (props : list (Z * Value.t)) (w : PropsWriter) : result (Z * PropsWriter) := props_append_raw (encode_props_record props) w.
Definition props_len (w : PropsWriter) : Z := pw_next_id w.
Definition props_finish (w : PropsWriter) : result (bytes * Z) := finish zstd_encode_all random_nonce Zstd zstd_level cipher (pw_inner w).

(** Entities in order of their ids: the ids, and the writer. *)
Fixpoint props_append_all (entities : list (list (Z * Value.t))) (w : PropsWriter) : result (list Z * PropsWriter) :=
  match entities with
  | [] => Ok ([], w)
  | props :: entities =>
      '(id, w) ← props_append props w;
      '(ids, w) ← props_append_all entities w;
      Ok (id :: ids, w)
  end.

Definition props_read (r : BlockFileReader) (entity_id : Z) : result (list (Z * Value.t)) :=
  rec ← read_record_global zstd_decode r entity_id; decode_props rec.

(** Of the labels, the writer that a build creates is never in the mode of masks, and a mask is
    the record of a raw container only. *)
Record NodeLabelsWriter := mkLabels { lw_inner : BlockFileWriter; lw_next : Z; lw_bitmask : bool }.

Definition labels_create_for_alphabet (label_alphabet : Z) : NodeLabelsWriter := mkLabels (create_inner Zstd cipher) 0 false.

Definition labels_append_raw (rec : bytes) (w : NodeLabelsWriter) : result (Z * NodeLabelsWriter) :=
  '(_, inner) ← append_to Zstd rec (lw_inner w);
  Ok (lw_next w, mkLabels inner (lw_next w + 1) (lw_bitmask w)).

Definition labels_append (label_ids : list Z) (w : NodeLabelsWriter) : result (Z * NodeLabelsWriter) :=
  if lw_bitmask w then labels_append_raw (encode_labels_bitmask label_ids) w else labels_append_raw (encode_labels_record label_ids) w.

Definition labels_append_blob (varint_blob : bytes) (w : NodeLabelsWriter) : result (Z * NodeLabelsWriter) :=
  if lw_bitmask w then
    ids ← decode_labels_varint varint_blob;
    labels_append_raw (encode_labels_bitmask ids) w
  else labels_append_raw varint_blob w.

Definition labels_read (r : BlockFileReader) (node_id : Z) : result (list Z) :=
  rec ← read_record_global zstd_decode r node_id;
  decode_labels rec (match bf_codec r with Raw => true | Zstd => false end).

Definition write_hub_degrees (out_hubs in_hubs : list (Z * Z)) : result (bytes * Z) :=
  out ← encode_hub_list out_hubs;
  '(_, w) ← append_to Zstd out (create_inner Zstd cipher);
  inn ← encode_hub_list in_hubs;
  '(_, w) ← append_to Zstd inn w;
  finish zstd_encode_all random_nonce Zstd zstd_level cipher w.
End stores.

(** * Records read back *)

Definition prop_ok (p : Z * Value.t) : Prop := is_u32 p.1 ∧ value_ok p.2.

#[export] Instance prop_codec : Codec prop_ok write_prop read_prop.
Proof.
  split.
  - intros r [k v] r' H. unfold read_prop in H. split_bind. simplify_eq. consume.
  - intros [k v] rest [Hk Hv]. cbn [fst snd] in *. unfold read_prop, write_prop. cbn [fst snd]. rewrite <- app_assoc.
    rewrite codec_roundtrip by (unfold is_u32, is_u64 in *; lia). cbn [mbind result_bind]. rewrite (codec_roundtrip (wf := value_ok)) by done.
    cbn [mbind result_bind]. unfold as_u32. by rewrite Z.mod_small.
Qed.

#[export] Instance read_prop_consuming : Consuming read_prop := codec_consuming (Codec := prop_codec).

(** The first value of a key. *)
Definition prop_of (props : list (Z * Value.t)) (key : Z) : option Value.t := snd <$> head (filter (λ p, p.1 = key) props).

(** Reading one property is reading all and looking: on any bytes. *)
Lemma one_loop_props fuel target n r props r' : (length r < fuel)%nat → fits r → read_many read_prop n r = Ok (props, r') →
  one_loop fuel target n r = Ok (prop_of props target).
Proof.
  revert n r props. induction fuel as [|fuel IH]; intros n r props Hl Hf Hm; [lia|]. cbn [one_loop]. destruct (Z.leb_spec n 0) as [Hn|Hn].
  { rewrite read_many_zero in Hm by done. by injection Hm as <- _. }
  rewrite (read_many_step read_prop) in Hm by done. apply bind_Ok in Hm as ([[k v] r1] & Hp & Hm). apply bind_Ok in Hm as ([ps r2] & Hm & [= <- <-]).
  unfold read_prop in Hp. apply bind_Ok in Hp as ([k0 r0] & Hk & Hp). apply bind_Ok in Hp as ([v0 r3] & Hv & [= <- <- <-]). rewrite Hk. cbn [mbind result_bind].
  apply (consuming (rd := read_uvarint)) in Hk. unfold prop_of. destruct (Z.eqb_spec (as_u32 k0) target) as [E|E].
  - rewrite Hv, filter_cons_True by done. done.
  - rewrite filter_cons_False by done. assert (fits r0) as Hf0 by (apply (fits_le r); [lia|done]).
    destruct (skip_value_agrees r0 r3 Hf0) as [Hskip _]. rewrite (Hskip v0 Hv). cbn [mbind result_bind].
    apply (consuming (rd := read_value)) in Hv. apply IH; [lia| |done]. apply (fits_le r); [lia|done].
Qed.

(** Reading one property of an entity is reading them all and taking the first of that key.
    On whatever bytes, forged or not, if the whole record decodes then the partial decoder, which
    steps over other values without decoding them, answers, and answers the same. *)
Theorem one_of_props rec key props : fits rec → decode_props rec = Ok props → decode_one rec key = Ok (prop_of props key).
Proof.
  intros Hf H. unfold decode_props in H. unfold decode_one. apply bind_Ok in H as ([n r] & Hn & H). rewrite Hn. cbn [mbind result_bind].
  apply bind_Ok in H as ([out r'] & Hm & [= ->]). apply (consuming (rd := read_uvarint)) in Hn. eapply one_loop_props; [lia| |done]. apply (fits_le rec); [lia|done].
Qed.

Lemma props_roundtrip props : Forall prop_ok props → fits props → decode_props (encode_props_record props) = Ok props.
Proof.
  intros Hp Hf. unfold decode_props, encode_props_record. rewrite read_write_uvarint by (by apply fits_u64). cbn [mbind result_bind].
  pose proof (codec_many_roundtrip (wf := prop_ok) (rd := read_prop) (wr := write_prop) props [] Hp) as E. rewrite app_nil_r in E. by rewrite E.
Qed.

#[export] Instance label_codec : Codec is_u32 write_uvarint read_label.
Proof.
  split.
  - intros r l r' H. unfold read_label in H. split_bind. simplify_eq. consume.
  - intros l rest Hl. unfold read_label. rewrite codec_roundtrip by (unfold is_u32, is_u64 in *; lia). cbn [mbind result_bind]. unfold as_u32. by rewrite Z.mod_small.
Qed.

Lemma labels_roundtrip labels : Forall is_u32 labels → fits labels → decode_labels (encode_labels_record labels) false = Ok labels.
Proof.
  intros Hp Hf. unfold decode_labels, decode_labels_varint, encode_labels_record. rewrite read_write_uvarint by (by apply fits_u64). cbn [mbind result_bind].
  pose proof (codec_many_roundtrip (wf := is_u32) (rd := read_label) (wr := write_uvarint) labels [] Hp) as E. rewrite app_nil_r in E. by rewrite E.
Qed.

(** A mask reads as the labels, ascending and each once. *)
Lemma label_mask_bits ids b : Forall (λ l, 0 <= l < 64) ids → 0 <= b → Z.testbit (label_mask ids) b = true ↔ b ∈ ids.
Proof.
  intros Hids Hb. unfold label_mask. assert (∀ m, Z.testbit (foldl (λ mask l, Z.lor mask (Z.shiftl 1 (Z.land l 63))) m ids) b = true ↔ Z.testbit m b = true ∨ b ∈ ids) as H.
  { induction Hids as [|l ids Hl _ IH]; intros m; cbn [foldl]; [rewrite elem_of_nil; tauto|]. rewrite IH, Z.lor_spec, orb_true_iff, Z.shiftl_1_l.
    change 63 with (Z.ones 6). rewrite Z.land_ones, Z.mod_small by lia. rewrite Z.pow2_bits_eqb by lia. rewrite Z.eqb_eq, elem_of_cons.
    split; [intros [[?| ->]|?]|intros [?|[-> |?]]]; auto. }
  rewrite H, Z.testbit_0_l. split; [intros [?|?]; done|by right].
Qed.

Lemma label_mask_u64 ids : Forall (λ l, 0 <= l < 64) ids → is_u64 (label_mask ids).
Proof.
  intros Hids. unfold label_mask. assert (∀ m, is_u64 m → is_u64 (foldl (λ mask l, Z.lor mask (Z.shiftl 1 (Z.land l 63))) m ids)) as H; [|by apply H].
  induction Hids as [|l ids Hl _ IH]; intros m Hm; cbn [foldl]; [done|]. apply IH. apply lor_u64; [done|]. rewrite Z.shiftl_1_l. change 63 with (Z.ones 6).
  rewrite Z.land_ones, Z.mod_small by lia. split; [apply Z.pow_nonneg; lia|]. apply Z.pow_lt_mono_r; lia.
Qed.

Theorem bitmask_roundtrip ids : Forall (λ l, 0 <= l < 64) ids → ∃ out, decode_labels (encode_labels_bitmask ids) true = Ok out ∧
  StronglySorted Z.lt out ∧ ∀ l, l ∈ out ↔ l ∈ ids.
Proof.
  intros Hids. pose proof (label_mask_u64 ids Hids) as Hu. unfold decode_labels, decode_labels_bitmask, encode_labels_bitmask.
  assert (zlen (le_bytes 8 (label_mask ids)) = 8) as -> by (unfold zlen; by rewrite length_le_bytes). rewrite Z.eqb_refl, le_val_bytes by apply Hu.
  eexists. split; [done|]. rewrite word_ids_bits by (done || apply count_ones_le). split.
  - pose proof (word_bits_sorted (label_mask ids)) as Hs. induction Hs as [|y l Hl IH Hy]; cbn [map]; constructor; [done|]. apply Forall_map. eapply Forall_impl; [exact Hy|]. cbn. lia.
  - intros l. rewrite list_elem_of_In, in_map_iff. setoid_rewrite <- list_elem_of_In. setoid_rewrite elem_of_word_bits. rewrite Forall_forall in Hids. split.
    + intros (b & <- & Hb & Ht). apply label_mask_bits in Ht; [done|by apply Forall_forall|lia].
    + intros Hl. specialize (Hids l Hl) as Hr. exists (Z.to_nat l). rewrite Z2Nat.id by lia. split_and!; [lia|lia|]. apply label_mask_bits; [by apply Forall_forall|lia|done].
Qed.

Fixpoint hubs_ok (prev : Z) (entries : list (Z * Z)) : Prop :=
  match entries with [] => True | (id, deg) :: entries => prev <= id < 2 ^ 64 ∧ is_u32 deg ∧ hubs_ok id entries end.

Lemma hub_entries_read prev entries : 0 <= prev → hubs_ok prev entries → ∃ rest, hub_entries prev entries = Ok rest ∧ (length entries <= length rest)%nat ∧
  ∀ fuel out, (length entries < fuel)%nat → hub_loop fuel (zlen entries) prev rest out = Ok (out ++ entries).
Proof.
  revert prev. induction entries as [|[id deg] entries IH]; intros prev Hp; cbn [hubs_ok hub_entries].
  - intros _. exists []. split_and!; [done|done|]. intros [|fuel] out Hf; [lia|]. cbn. by rewrite app_nil_r.
  - intros (Hid & Hd & Hes). rewrite (proj2 (Z.ltb_ge _ _)) by lia. destruct (IH id ltac:(lia) Hes) as (rest & -> & Hlen & Hloop). cbn [mbind result_bind].
    assert (is_u64 (id - prev)) as Hdelta by (unfold is_u64; lia). assert (is_u64 deg) as Hdeg by (unfold is_u32, is_u64 in *; lia).
    eexists. split; [done|]. split.
    + rewrite !length_app. cbn [length]. pose proof (codec_nonempty (wf := is_u64) (rd := read_uvarint) _ Hdelta). lia.
    + intros [|fuel] out Hf; cbn [length] in Hf; [lia|]. cbn [hub_loop]. rewrite zlen_cons. pose proof (zlen_nonneg entries). rewrite (proj2 (Z.leb_gt _ _)) by lia.
      rewrite codec_roundtrip by done. cbn [mbind result_bind]. unfold add_u64. rewrite (proj2 (Z.ltb_lt _ _)) by lia. cbn [mbind result_bind].
      rewrite codec_roundtrip by done. cbn [mbind result_bind]. replace (prev + (id - prev)) with id by lia. replace (zlen entries + 1 - 1) with (zlen entries) by lia.
      unfold as_u32. rewrite Z.mod_small by done. rewrite Hloop by lia. by rewrite <- app_assoc.
Qed.

Theorem hub_list_roundtrip entries : hubs_ok 0 entries → fits entries → ∃ rec, encode_hub_list entries = Ok rec ∧ decode_hub_list rec = Ok entries.
Proof.
  intros He Hf. destruct (hub_entries_read 0 entries ltac:(lia) He) as (rest & E & Hlen & Hloop). unfold encode_hub_list. rewrite E. cbn [mbind result_bind].
  eexists. split; [done|]. unfold decode_hub_list. rewrite read_write_uvarint by (by apply fits_u64). cbn [mbind result_bind]. by rewrite Hloop by lia.
Qed.

Definition bucket_ok (p : Value.t * Z) : Prop := value_ok p.1 ∧ is_u64 p.2.

#[export] Instance bucket_codec : Codec bucket_ok write_bucket read_bucket.
Proof.
  split.
  - intros r [v n] r' H. unfold read_bucket in H. split_bind. simplify_eq. consume.
  - intros [v n] rest [Hv Hn]. cbn [fst snd] in *. unfold read_bucket, write_bucket. cbn [fst snd]. rewrite <- app_assoc.
    rewrite (codec_roundtrip (wf := value_ok)) by done. cbn [mbind result_bind]. by rewrite codec_roundtrip.
Qed.

Lemma histogram_roundtrip pairs : Forall bucket_ok pairs → fits pairs → decode_histogram (encode_histogram pairs) = Ok pairs.
Proof.
  intros Hp Hf. unfold decode_histogram, encode_histogram. rewrite read_write_uvarint by (by apply fits_u64). cbn [mbind result_bind].
  pose proof (codec_many_roundtrip (wf := bucket_ok) (rd := read_bucket) (wr := write_bucket) pairs [] Hp) as E. rewrite app_nil_r in E. by rewrite E.
Qed.

(** * The store of properties *)

Section store.
Context {crypto : Crypto} {crypto_laws : CryptoLaws}.
Variable zstd_encode_all : bytes → Z → result bytes.
Variable zstd_decode : bytes → list bytes * bool.
Variable random_nonce : nat → bytes.
Variables (target_block_bytes zstd_level : Z) (cipher : option FileCipher).
Hypothesis lossless : zstd_lossless zstd_encode_all zstd_decode.
Hypothesis bounded : ∀ raw level comp, zstd_encode_all raw level = Ok comp → zlen comp <= zlen raw + zlen raw / 256 + 64.
Hypothesis nonce_length : ∀ i, zlen (random_nonce i) = NONCE_LEN.
Hypothesis target_small : 5 * target target_block_bytes + 20 <= 2 ^ 30.

(** Properties of an entity whose record fits a block. *)
Definition entity_ok (props : list (Z * Value.t)) : Prop := Forall prop_ok props ∧ record_fits target_block_bytes (encode_props_record props).

Lemma props_append_records entities inner next : props_append_all zstd_encode_all random_nonce target_block_bytes zstd_level cipher entities (mkProps inner next) =
  ('(_, inner) ← append_records zstd_encode_all random_nonce target_block_bytes Zstd zstd_level cipher (map encode_props_record entities) inner;
   Ok (seqZ next (zlen entities), mkProps inner (next + zlen entities))).
Proof.
  revert inner next. induction entities as [|props entities IH]; intros inner next; cbn [props_append_all append_records map].
  { cbn. by rewrite Z.add_0_r. }
  unfold props_append, props_append_raw. cbn [pw_inner pw_next_id]. destruct (append_record _ _ _ _ _ _ _ inner) as [[loc inner']|]; [|done]. cbn [mbind result_bind].
  rewrite IH. destruct (append_records _ _ _ _ _ _ _ inner') as [[locs w]|]; [|done]. cbn [mbind result_bind]. rewrite zlen_cons. pose proof (zlen_nonneg entities).
  rewrite (seqZ_cons next) by lia. do 3 f_equal; [|lia]. do 2 f_equal; lia.
Qed.

(** A record takes a byte and more for each property, so the properties are few. *)
Lemma entity_fits props : entity_ok props → fits props ∧ fits (encode_props_record props).
Proof.
  intros [Hp [_ Hr]]. assert (1 <= target target_block_bytes) by (unfold target; lia). assert (length props <= length (encode_props_record props))%nat as Hle.
  { unfold encode_props_record. rewrite length_app. clear Hr. enough (length props <= length (concat (map write_prop props)))%nat by lia. induction Hp as [|p props Hp _ IH]; [done|].
    cbn [map concat length]. rewrite length_app. pose proof (codec_nonempty (wf := prop_ok) (rd := read_prop) _ Hp). lia. }
  unfold fits, zlen in *. lia.
Qed.

(** C30: The properties of entities survive their store.  Appended in order, the entities get the
    ids from zero on; the file opens, and an entity's id reads its properties, in order, and each
    of them alone by its key. *)
Theorem props_store_exact entities ids w img blocks : Forall entity_ok entities →
  props_append_all zstd_encode_all random_nonce target_block_bytes zstd_level cipher entities (props_create cipher) = Ok (ids, w) →
  props_finish zstd_encode_all random_nonce zstd_level cipher w = Ok (img, blocks) → 44 * blocks <= MAX_BLOCK_BYTES → fits img →
  ids = seqZ 0 (zlen entities) ∧ props_len w = zlen entities ∧ ∃ r, open_blocks img cipher = Ok r ∧ total_records r = zlen entities ∧
    ∀ i props, entities !! i = Some props → props_read zstd_decode r (Z.of_nat i) = Ok props ∧
      ∀ key, (rec ← read_record_global zstd_decode r (Z.of_nat i); decode_one rec key) = Ok (prop_of props key).
Proof.
  intros He Ha Hfin Hsz Hfits. unfold props_create in Ha. rewrite props_append_records in Ha. apply bind_Ok in Ha as ([locs inner] & Ha & [= <- <-]).
  split; [done|]. split; [done|]. unfold props_finish in Hfin. cbn [pw_inner] in Hfin.
  assert (write_file zstd_encode_all random_nonce target_block_bytes Zstd zstd_level cipher (map encode_props_record entities) = Ok (locs, (img, blocks))) as Hw.
  { unfold write_file. rewrite Ha. cbn [mbind result_bind]. by rewrite Hfin. }
  assert (Forall (record_fits target_block_bytes) (map encode_props_record entities)) as Hr by (apply Forall_map; eapply Forall_impl; [exact He|by intros ? []]).
  destruct (written_file zstd_encode_all zstd_decode random_nonce target_block_bytes Zstd zstd_level cipher lossless bounded nonce_length target_small
    _ locs img blocks Hr Hw Hsz Hfits) as (r & fin & Ho & _ & Hf & Hc & _).
  exists r. split; [done|]. split; [rewrite (total_of _ r fin Hf), Hc; unfold zlen; by rewrite length_map|]. intros i props Hi.
  assert (read_record_global zstd_decode r (Z.of_nat i) = Ok (encode_props_record props)) as Hrd.
  { apply (read_global _ r fin Hf). by rewrite Hc, list_lookup_fmap, Hi. }
  pose proof (Forall_lookup_1 _ _ _ _ He Hi) as Hp. destruct (entity_fits props Hp) as [Hfp Hfr]. destruct Hp as [Hp _].
  unfold props_read. rewrite Hrd. cbn [mbind result_bind]. pose proof (props_roundtrip props Hp Hfp) as Hd. split; [done|]. intros key.
  by apply one_of_props.
Qed.
End store.

(** * Witnesses *)

Section witness.
#[local] Existing Instance toy_crypto.
#[local] Existing Instance toy_crypto_laws.

Definition example_entities : list (list (Z * Value.t)) := [[(7, Value.Bool true); (9, Value.Int 5)]; []; [(9, Value.Int 6)]].
Definition example_store : result (list Z * PropsWriter) :=
  props_append_all stored_encode example_block_nonces 3 3 example_block_key example_entities (props_create example_block_key).
Definition example_store_writer : PropsWriter := match example_store with Ok (_, w) => w | Err _ => props_create example_block_key end.
Definition example_store_file : bytes * Z :=
  match props_finish stored_encode example_block_nonces 3 example_block_key example_store_writer with Ok out => out | Err _ => ([], 0) end.

Lemma example_store_appends :
  props_append_all stored_encode example_block_nonces 3 3 example_block_key example_entities (props_create example_block_key) = Ok ([0; 1; 2], example_store_writer).
Proof. vm_compute. reflexivity. Qed.

Lemma example_store_finishes :
  props_finish stored_encode example_block_nonces 3 example_block_key example_store_writer = Ok (example_store_file.1, example_store_file.2).
Proof. vm_compute. reflexivity. Qed.

Lemma example_entities_ok : Forall (entity_ok 3) example_entities.
Proof.
  repeat (apply Forall_cons; split); [..|by apply Forall_nil].
  all: split; [repeat (apply Forall_cons; split); try apply Forall_nil_2; (split; [unfold is_u32; cbn; lia|split; [cbn; unfold is_i64; done || lia|apply Nat.leb_le; reflexivity]])|split; [done|apply Z.leb_le; reflexivity]].
Qed.

Lemma props_store_exact_witness : ∃ r, open_blocks example_store_file.1 example_block_key = Ok r ∧
  props_read stored_decode r 0 = Ok [(7, Value.Bool true); (9, Value.Int 5)].
Proof.
  destruct (props_store_exact stored_encode stored_decode example_block_nonces 3 3 example_block_key stored_lossless stored_bounded example_block_nonce_length
    ltac:(apply Z.leb_le; reflexivity) example_entities [0; 1; 2] example_store_writer example_store_file.1 example_store_file.2 example_entities_ok
    example_store_appends example_store_finishes ltac:(apply Z.leb_le; vm_compute; reflexivity) ltac:(unfold fits; apply Z.ltb_lt; vm_compute; reflexivity))
    as (_ & _ & r & Ho & _ & Hr).
  exists r. split; [exact Ho|]. exact (proj1 (Hr 0%nat _ eq_refl)).
Defined.
End witness.
