(* ===== verification/Sidecars.v ===== *)
(** The statistics beside a generation: the histograms of indexed properties, which the builder
    derives from the finished range indexes ([graph-format/src/histogram.rs],
    [slater-build/src/common.rs]) and the server loads when it opens the generation
    ([slater/src/generation.rs]), and the lists of hubs. *)

From S2P Require Import Prelude Values Wire ValueOrder Identity Crypto BlockCodec KeyProbe Isam IsamLookup IsamExact BlockFile BlockRead BlockExact Plane PostingFile Columns.

Record PropertyHistogramDesc := mkHistDesc {
  index_name : str;
  hd_label : str;
  hd_property : str;
  distinct_count : Z;
}.

Definition index_file (name : str) : str := lit "range/" ++ name ++ lit ".isam".
Definition PROP_HIST : str := lit "prop_hist.blk".
Definition HUB_DEGREES : str := lit "hub_degrees.blk".

Section histograms.
Context {crypto : Crypto}.
Variable zstd_encode_all : bytes → Z → result bytes.
Variable zstd_decode : bytes → list bytes * bool.
Variable random_nonce : nat → bytes.
Variables (target_block_bytes zstd_level : Z).

(** The index is a file that may fail to be read. *)
Definition derive_histogram_from_isam (isam : result bytes) (cipher : option FileCipher) (max_distinct : Z) : result (option (list (Value.t * Z))) :=
  if max_distinct =? 0 then Ok None else
  src ← isam;
  r ← open_src src cipher;
  distinct_key_counts_bounded (top r) (load_block zstd_decode r) max_distinct.

Definition write_property_histograms (cipher : option FileCipher) (records : list bytes) : result (bytes * Z) :=
  '(_, w) ← append_records zstd_encode_all random_nonce target_block_bytes Zstd zstd_level cipher records (create_inner Zstd cipher);
  finish zstd_encode_all random_nonce Zstd zstd_level cipher w.

(** The loop of the builder over the declared indexes; [dir] are the files of the directory. *)
Fixpoint histograms_loop (dir : str → result bytes) (cipher : option BlockCipher) (max_distinct : Z) (range_indexes : list RangeIndexDesc)
    (descs : list PropertyHistogramDesc) (records : list bytes) : result (list PropertyHistogramDesc * list bytes) :=
  match range_indexes with
  | [] => Ok (descs, records)
  | ri :: range_indexes =>
      if negb (ri_node ri) then histograms_loop dir cipher max_distinct range_indexes descs records else
      let rel := index_file (ri_name ri) in
      pairs ← derive_histogram_from_isam (dir rel) (file_cipher cipher rel) max_distinct;
      match pairs with
      | Some pairs =>
          histograms_loop dir cipher max_distinct range_indexes
            (descs ++ [mkHistDesc (ri_name ri) (ri_label ri) (ri_property ri) (zlen pairs)]) (records ++ [encode_histogram pairs])
      | None => histograms_loop dir cipher max_distinct range_indexes descs records
      end
  end.

Definition build_property_histograms (dir : str → result bytes) (range_indexes : list RangeIndexDesc) (cipher : option BlockCipher) (max_distinct : Z) :
    result (list PropertyHistogramDesc * (bytes * Z)) :=
  '(descs, records) ← histograms_loop dir cipher max_distinct range_indexes [] [];
  out ← write_property_histograms (file_cipher cipher PROP_HIST) records;
  Ok (descs, out).

Fixpoint load_loop (r : BlockFileReader) (i : Z) (descs : list PropertyHistogramDesc) (h : gmap str (list (Value.t * Z))) :
    result (gmap str (list (Value.t * Z))) :=
  match descs with
  | [] => Ok h
  | d :: descs =>
      rec ← read_record_global zstd_decode r i;
      pairs ← decode_histogram rec;
      load_loop r (i + 1) descs (<[index_name d := pairs]> h)
  end.

(** [Generation::open], on the histograms: [file] is the object of the store, if it is there. *)
Definition load_histograms (file : result (option bytes)) (descs : list PropertyHistogramDesc) (cipher : option BlockCipher) :
    result (gmap str (list (Value.t * Z))) :=
  src ← file;
  match src, descs with
  | Some src, _ :: _ =>
      r ← open_blocks src (file_cipher cipher PROP_HIST);
      load_loop r 0 descs ∅
  | _, _ => Ok ∅
  end.

(** The lists of hubs that a generation holds, and the floor from which a node is on them. *)
Record Hubs := mkHubs { hub_out_degrees : list (Z * Z); hub_in_degrees : list (Z * Z); hub_degree_floor : option Z }.

(** [Generation::open], on the hubs: [desc] is the floor in the manifest, if it has one. *)
Definition load_hubs (file : result (option bytes)) (desc : option Z) (cipher : option BlockCipher) : result Hubs :=
  match desc with
  | Some floor =>
      src ← file;
      match src with
      | Some src =>
          r ← open_blocks src (file_cipher cipher HUB_DEGREES);
          rec ← read_record_global zstd_decode r 0;
          out ← decode_hub_list rec;
          rec ← read_record_global zstd_decode r 1;
          inn ← decode_hub_list rec;
          Ok (mkHubs out inn (Some floor))
      | None => Ok (mkHubs [] [] None)
      end
  | None => Ok (mkHubs [] [] None)
  end.
End histograms.

(** [binary_search_by_key] on the ids of a list. *)
Definition degree_if_hub (hubs : list (Z * Z)) (node : Z) : option Z :=
  match binary_search (map fst hubs) node with
  | inl i => snd <$> hubs !! i
  | inr _ => None
  end.
Definition core_out_degree_if_hub (h : Hubs) (node : Z) : option Z := degree_if_hub (hub_out_degrees h) node.
Definition core_in_degree_if_hub (h : Hubs) (node : Z) : option Z := degree_if_hub (hub_in_degrees h) node.

(** * The counts of an index *)

Definition keys_bytes {A} (l : list (Value.t * A)) : Z := zlen (concat (map (λ c, write_value c.1) l)) + 10 * zlen l.

Lemma keys_bytes_cons {A} (c : Value.t * A) l : keys_bytes (c :: l) = zlen (write_value c.1) + 10 + keys_bytes l.
Proof. unfold keys_bytes. cbn [map concat]. rewrite zlen_app, zlen_cons. lia. Qed.

Lemma keys_bytes_nil {A} : keys_bytes (@nil (Value.t * A)) = 0.
Proof. done. Qed.

Lemma keys_bytes_perm {A} (l l' : list (Value.t * A)) : l ≡ₚ l' → keys_bytes l = keys_bytes l'.
Proof. induction 1; rewrite ?keys_bytes_cons in *; lia. Qed.

Lemma tallies_bytes l out : keys_bytes (foldl tally out l) <= keys_bytes out + keys_bytes l.
Proof.
  revert out. induction l as [|e l IH]; intros out; cbn [foldl]; [rewrite keys_bytes_nil; lia|]. specialize (IH (tally out e)). rewrite (keys_bytes_cons e).
  assert (keys_bytes (tally out e) <= keys_bytes out + zlen (write_value e.1) + 10); [|lia]. pose proof (zlen_nonneg (write_value e.1)).
  unfold tally. destruct out as [|[prev n] rest]; [|case_bool_decide]; rewrite !keys_bytes_cons; cbn [fst]; lia.
Qed.

Lemma tallies_ok (P : Value.t → Prop) l out : Forall (λ e, P e.1) l → Forall (λ c, P c.1) out → Forall (λ c, P c.1) (foldl tally out l).
Proof.
  intros Hl. revert out. induction Hl as [|e l He _ IH]; intros out Ho; cbn [foldl]; [done|]. apply IH. unfold tally. destruct Ho as [|[prev n] rest Hp Ho]; [by repeat constructor|].
  case_bool_decide; by repeat constructor.
Qed.

Lemma zlen_uvarint_le v : is_u64 v → zlen (write_uvarint v) <= 10.
Proof. intros Hv. rewrite zlen_write_uvarint by done. destruct (uvarint_roundtrip v [] Hv); lia. Qed.

Lemma histogram_bytes pairs : Forall bucket_ok pairs → fits pairs → zlen (encode_histogram pairs) <= 10 + keys_bytes pairs.
Proof.
  intros Hp Hf. unfold encode_histogram. rewrite zlen_app. pose proof (zlen_uvarint_le (zlen pairs) ltac:(by apply fits_u64)) as H.
  enough (zlen (concat (map write_bucket pairs)) <= keys_bytes pairs) by lia. clear Hf H. induction Hp as [|p pairs [_ Hp] _ IH]; [done|].
  rewrite keys_bytes_cons. cbn [map concat]. unfold write_bucket at 1. rewrite !zlen_app. pose proof (zlen_uvarint_le p.2 Hp). lia.
Qed.

(** What a histogram may be of: entries that are values, fewer than [2^63] of them. *)
Lemma counts_ok entries : Forall (λ e, value_ok e.1) entries → fits entries → StronglySorted entry_le entries → Forall exact_entry entries →
  let counts := rev (foldl tally [] entries) in counts_of entries counts ∧ Forall bucket_ok counts ∧ fits counts ∧ keys_bytes counts <= keys_bytes entries.
Proof.
  intros Hv Hf Hs He. cbv zeta. pose proof (tally_counts entries Hs He) as Hc. pose proof (Permutation_rev (foldl tally [] entries)) as Hp.
  assert (zlen (foldl tally [] entries) <= zlen entries) as Hlen.
  { clear. enough (∀ out, zlen (foldl tally out entries) <= zlen out + zlen entries) as H by apply (H []). induction entries as [|e l IH]; intros out; cbn [foldl].
    - change (zlen []) with 0. lia.
    - rewrite zlen_cons. pose proof (tally_length out e). pose proof (IH (tally out e)). lia. }
  split_and!; [done| | |].
  - apply Forall_forall. intros c Hin. split.
    + pose proof (tallies_ok value_ok entries [] Hv ltac:(constructor)) as Hk. rewrite Forall_forall in Hk. apply Hk. by rewrite Hp.
    + pose proof (cn_number _ _ Hc) as Hn. rewrite Forall_forall in Hn. rewrite (Hn c Hin). unfold hits, zlen. rewrite length_map.
      pose proof (length_filter (λ e, Value.cmp_key e.1 c.1 = Eq) entries). unfold is_u64, fits, zlen in *. lia.
  - unfold fits in *. unfold zlen in *. rewrite length_rev. lia.
  - rewrite <- (keys_bytes_perm _ _ Hp). pose proof (tallies_bytes entries []) as H. rewrite keys_bytes_nil in H. lia.
Qed.

(** The histogram a build with a bound stores, of the counts of an index. *)
Definition stored_counts (max_distinct : Z) (counts : list (Value.t * Z)) : option (list (Value.t * Z)) :=
  if (max_distinct =? 0) || (max_distinct <? zlen counts) then None else Some counts.

Lemma stored_lookup {A B} (key : A → str) (val : A → B) (f : str → option B) (ps : list A) (h : gmap str B) name : (∀ p, p ∈ ps → f (key p) = Some (val p)) →
  foldl (λ h p, <[key p := val p]> h) h ps !! name = if decide (name ∈ map key ps) then f name else h !! name.
Proof.
  revert h. induction ps as [|p ps IH]; intros h H; cbn [foldl map]; [by rewrite decide_False by apply not_elem_of_nil|].
  rewrite IH by (intros; apply H; by right). destruct (decide (name ∈ map key ps)) as [Hin|Hout]; [by rewrite decide_True by by right|].
  destruct (decide (name = key p)) as [->|Hne]; [by rewrite lookup_insert_eq, decide_True, H by by left|].
  rewrite lookup_insert_ne by done. rewrite decide_False; [done|]. by intros [|]%elem_of_cons.
Qed.

(** * From the indexes to the generation *)

Section exact.
Context {crypto : Crypto} {crypto_laws : CryptoLaws}.
Variable zstd_encode_all : bytes → Z → result bytes.
Variable zstd_decode : bytes → list bytes * bool.
Variable random_nonce : nat → bytes.
Variables (target_block_bytes zstd_level : Z).
Hypothesis lossless : zstd_lossless zstd_encode_all zstd_decode.
Hypothesis bounded : ∀ raw level comp, zstd_encode_all raw level = Ok comp → zlen comp <= zlen raw + zlen raw / 256 + 64.
Hypothesis nonce_length : ∀ i, zlen (random_nonce i) = NONCE_LEN.
Hypothesis target_small : 5 * target target_block_bytes + 20 <= 2 ^ 30.

Variables (dir : str → result bytes) (cipher : option BlockCipher) (max_distinct : Z).
Hypothesis max_usize : 0 <= max_distinct.

(** A file of the directory is the index of some entries, as the builder writes it. *)
Definition index_written (name : str) (entries : list entry) : Prop := ∃ nonces index_target level img n,
  dir (index_file name) = Ok img ∧ (∀ i, zlen (nonces i) = NONCE_LEN) ∧ 0 <= index_target ∧
  Forall (entry_fits index_target) entries ∧ Forall exact_entry entries ∧ fits entries ∧ fits img ∧
  top_fits zstd_encode_all nonces index_target level (file_cipher cipher (index_file name)) (sort_entries entries) ∧
  write_isam_with_cipher zstd_encode_all nonces index_target level (file_cipher cipher (index_file name)) entries = Ok (img, n).

Local Abbreviation derived name := (derive_histogram_from_isam zstd_decode (dir (index_file name)) (file_cipher cipher (index_file name)) max_distinct).

Lemma derive_counts name entries : index_written name entries → ∃ counts, counts_of entries counts ∧ Forall bucket_ok counts ∧ fits counts ∧
  keys_bytes counts <= keys_bytes entries ∧ derived name = Ok (stored_counts max_distinct counts).
Proof.
  intros (nonces & tgt & level & img & n & Hdir & Hnl & Ht & Hfit & Hex & Hfe & Hfi & Htop & Hw).
  destruct (written_leaves zstd_encode_all zstd_decode nonces tgt level _ lossless bounded Hnl Ht entries img n Hfit Hex Htop Hw Hfi) as (r & leaves & Ho & _ & Hl & Hp & Hs & He).
  destruct (counts_ok (concat leaves)) as (Hc & Hb & Hf & Hk); [|unfold fits, zlen in *; by rewrite Hp|done|done|].
  { rewrite Hp. eapply Forall_impl; [exact Hfit|]. by intros e [[? _] _]. }
  eexists. split_and!; [by apply (counts_of_perm _ _ _ Hp)|done|done|by rewrite <- (keys_bytes_perm _ _ Hp)|].
  unfold derive_histogram_from_isam, stored_counts. rewrite Hdir. cbn [mbind result_bind]. rewrite Ho. cbn [mbind result_bind]. destruct (max_distinct =? 0); [done|].
  by apply distinct_key_counts_tally.
Qed.

Definition histogram_for (name : str) : option (list (Value.t * Z)) := match derived name with Ok pairs => pairs | Err _ => None end.
Definition stored_for (ri : RangeIndexDesc) : option (RangeIndexDesc * list (Value.t * Z)) := if ri_node ri then (ri,.) <$> histogram_for (ri_name ri) else None.
Definition desc_of (p : RangeIndexDesc * list (Value.t * Z)) : PropertyHistogramDesc := mkHistDesc (ri_name p.1) (ri_label p.1) (ri_property p.1) (zlen p.2).

Lemma histograms_loop_stored ris descs records : (∀ ri, ri ∈ ris → ri_node ri = true → is_ok (derived (ri_name ri)) = true) →
  histograms_loop zstd_decode dir cipher max_distinct ris descs records =
  Ok (descs ++ map desc_of (omap stored_for ris), records ++ map (encode_histogram ∘ snd) (omap stored_for ris)).
Proof.
  revert descs records. induction ris as [|ri ris IH]; intros descs records Hok; cbn [histograms_loop omap list_omap]; [by rewrite !app_nil_r|].
  assert (∀ ri', ri' ∈ ris → ri_node ri' = true → is_ok (derived (ri_name ri')) = true) as Hr by (intros; apply Hok; [by right|done]).
  specialize (Hok ri ltac:(by left)). unfold stored_for at 1 4. destruct (ri_node ri); cbn [negb]; [|by rewrite IH].
  specialize (Hok eq_refl). unfold histogram_for. destruct (derived (ri_name ri)) as [[pairs|]|]; [| |done]; cbn [mbind result_bind fmap option_fmap option_map]; rewrite IH by done; [|done].
  cbn [map]. by rewrite <- !app_assoc.
Qed.

Lemma load_loop_reads r ps i h : (∀ k p, ps !! k = Some p → read_record_global zstd_decode r (i + Z.of_nat k) = Ok (encode_histogram p.2) ∧
    decode_histogram (encode_histogram p.2) = Ok p.2) →
  load_loop zstd_decode r i (map desc_of ps) h = Ok (foldl (λ h p, <[ri_name p.1 := p.2]> h) h ps).
Proof.
  revert i h. induction ps as [|p ps IH]; intros i h H; cbn [load_loop map foldl]; [done|].
  destruct (H 0%nat p eq_refl) as [Hr Hd]. rewrite Z.add_0_r in Hr. rewrite Hr. cbn [mbind result_bind]. rewrite Hd. cbn [mbind result_bind]. apply IH.
  intros k q Hk. specialize (H (S k) q Hk). by replace (i + 1 + Z.of_nat k) with (i + Z.of_nat (S k)) by lia.
Qed.
Variables (range_indexes : list RangeIndexDesc) (entries_of : str → list entry).
Hypothesis indexes_written : ∀ ri, ri ∈ range_indexes → ri_node ri = true → index_written (ri_name ri) (entries_of (ri_name ri)) ∧
  5 * target target_block_bytes + keys_bytes (entries_of (ri_name ri)) + 30 <= 2 ^ 30.
Local Abbreviation stored := (omap stored_for range_indexes).

Lemma stored_ok p : p ∈ stored → histogram_for (ri_name p.1) = Some p.2 ∧ Forall bucket_ok p.2 ∧ fits p.2 ∧ record_fits target_block_bytes (encode_histogram p.2).
Proof.
  intros (ri & Hin & Hs)%list_elem_of_omap. unfold stored_for in Hs. destruct (ri_node ri) eqn:Hn; [|done]. destruct (indexes_written ri Hin Hn) as [Hiw Hsize].
  destruct (derive_counts _ _ Hiw) as (counts & _ & Hbk & Hf & Hk & Hd). unfold histogram_for in *. rewrite Hd in Hs.
  destruct (stored_counts max_distinct counts) as [counts'|] eqn:Es; [|done]. cbn in Hs. injection Hs as <-. cbn [fst snd]. rewrite Hd.
  assert (counts' = counts) as -> by (unfold stored_counts in Es; destruct (_ || _); congruence). split_and!; [done..|].
  pose proof (histogram_bytes counts Hbk Hf). split; [by apply write_uvarint_nonempty, fits_u64|lia].
Qed.

(** The file of histograms holds a record for each that is stored, in the order of the indexes. *)
Lemma stored_read img blocks :
  write_property_histograms zstd_encode_all random_nonce target_block_bytes zstd_level (file_cipher cipher PROP_HIST) (map (encode_histogram ∘ snd) stored) = Ok (img, blocks) →
  44 * blocks <= MAX_BLOCK_BYTES → fits img → load_histograms zstd_decode (Ok (Some img)) (map desc_of stored) cipher =
    Ok (foldl (λ h p, <[ri_name p.1 := p.2]> h) ∅ stored).
Proof.
  intros Hw Hsz Hfits. unfold write_property_histograms in Hw. apply bind_Ok in Hw as ([locs w] & Ha & Hfin).
  destruct (written_file zstd_encode_all zstd_decode random_nonce target_block_bytes Zstd zstd_level (file_cipher cipher PROP_HIST) lossless bounded nonce_length target_small
    (map (encode_histogram ∘ snd) stored) locs img blocks) as (r & fin & Ho & _ & Hf & Hc & _); [| |done|done|].
  { apply Forall_map, Forall_forall. intros p Hp. by apply stored_ok. }
  { unfold write_file. rewrite Ha. cbn [mbind result_bind]. by rewrite Hfin. }
  assert (load_loop zstd_decode r 0 (map desc_of stored) ∅ = Ok (foldl (λ h p, <[ri_name p.1 := p.2]> h) ∅ stored)) as Hl.
  { apply load_loop_reads. intros k p Hk. destruct (stored_ok p) as (_ & Hb & Hfp & _); [by eapply list_elem_of_lookup_2|]. split; [|by apply histogram_roundtrip].
    apply (read_global _ r fin Hf). by rewrite Hc, list_lookup_fmap, Hk. }
  unfold load_histograms. cbn [mbind result_bind]. rewrite Ho. destruct (map desc_of stored) as [|d ds] eqn:E; [|exact Hl].
  apply map_eq_nil in E as ->. done.
Qed.

(** C15: The histograms of a generation are the counts of its indexes.  Whatever node indexes a
    build declares, the file of histograms it derives from their files loads under the same key,
    and the server then holds for each index every distinct key once, in order, with the number of
    its entries, unless the build's bound is zero or below their number, when it holds none.  It
    holds none for any other name. *)
Theorem histograms_exact descs img blocks :
  build_property_histograms zstd_encode_all zstd_decode random_nonce target_block_bytes zstd_level dir range_indexes cipher max_distinct = Ok (descs, (img, blocks)) →
  44 * blocks <= MAX_BLOCK_BYTES → fits img →
  ∃ h, load_histograms zstd_decode (Ok (Some img)) descs cipher = Ok h ∧
    (∀ ri, ri ∈ range_indexes → ri_node ri = true → ∃ counts, counts_of (entries_of (ri_name ri)) counts ∧ h !! ri_name ri = stored_counts max_distinct counts) ∧
    ∀ name, (∀ ri, ri ∈ range_indexes → ri_node ri = true → ri_name ri ≠ name) → h !! name = None.
Proof.
  intros Hb Hsz Hfits. unfold build_property_histograms in Hb. rewrite histograms_loop_stored in Hb.
  2:{ intros ri Hin Hn. destruct (indexes_written ri Hin Hn) as [Hw _]. by destruct (derive_counts _ _ Hw) as (counts & _ & _ & _ & _ & ->). }
  cbn [mbind result_bind app] in Hb. apply bind_Ok in Hb as ([img' blocks'] & Hw & [= <- <- <-]). eexists. split; [by apply stored_read with blocks'|].
  assert (∀ name, foldl (λ (h : gmap str (list (Value.t * Z))) p, <[ri_name p.1 := p.2]> h) ∅ stored !! name = if decide (name ∈ map (λ p, ri_name p.1) stored) then histogram_for name else None) as Hl.
  { intros name. rewrite (stored_lookup (λ p, ri_name p.1) snd histogram_for); [done|]. intros p Hp. by apply stored_ok. }
  split.
  - intros ri Hin Hn. destruct (indexes_written ri Hin Hn) as [Hiw _]. destruct (derive_counts _ _ Hiw) as (counts & Hc & _ & _ & _ & Hd). exists counts. split; [done|].
    assert (histogram_for (ri_name ri) = stored_counts max_distinct counts) as Hh by (unfold histogram_for; by rewrite Hd).
    rewrite Hl, Hh. destruct (decide _) as [|Hout]; [done|]. destruct (stored_counts _ _) as [c|] eqn:Es; [|done]. destruct Hout.
    apply list_elem_of_fmap. exists (ri, c). split; [done|]. apply list_elem_of_omap. exists ri. split; [done|]. unfold stored_for. by rewrite Hn, Hh.
  - intros name Hno. rewrite Hl, decide_False; [done|]. intros (p & -> & (ri & Hin & Hs)%list_elem_of_omap)%list_elem_of_fmap.
    unfold stored_for in Hs. destruct (ri_node ri) eqn:Hn; [|done]. destruct (histogram_for _); [|done]. injection Hs as <-. by apply (Hno ri).
Qed.
End exact.

(** * Hubs *)

Lemma ids_below_count ids i node : StronglySorted Z.lt ids → ids !! i = Some node → length (filter (λ s, s < node) ids) = i.
Proof.
  intros Hs Hi. apply filter_below; [apply lookup_lt_Some in Hi; lia|]. intros j x Hx. split.
  - intros Hlt. destruct (Nat.lt_ge_cases j i) as [|Hge]; [done|]. destruct (Nat.eq_dec i j) as [->|]; [simplify_eq; lia|].
    pose proof (sorted_lt_lookup ids i j node x Hs Hi Hx ltac:(lia)). lia.
  - intros Hlt. exact (sorted_lt_lookup ids j i x node Hs Hx Hi Hlt).
Qed.

(** A search finds exactly the listed ids. *)
Lemma degree_if_hub_listed hubs node deg : StronglySorted Z.lt (map fst hubs) → degree_if_hub hubs node = Some deg ↔ (node, deg) ∈ hubs.
Proof.
  intros Hs. unfold degree_if_hub, binary_search. split.
  - destruct (decide _) as [Hi|]; [|done]. destruct (hubs !! _) as [[id d]|] eqn:E; [|done]. intros [= <-].
    rewrite list_lookup_fmap, E in Hi. injection Hi as ->. by eapply list_elem_of_lookup_2.
  - intros [i Hi]%list_elem_of_lookup_1. assert (map fst hubs !! i = Some node) as Hm by by rewrite list_lookup_fmap, Hi.
    rewrite (ids_below_count _ i node) by done. by rewrite decide_True, Hi by done.
Qed.

Section hubs.
Context {crypto : Crypto} {crypto_laws : CryptoLaws}.
Variable zstd_encode_all : bytes → Z → result bytes.
Variable zstd_decode : bytes → list bytes * bool.
Variable random_nonce : nat → bytes.
Variables (target_block_bytes zstd_level : Z) (cipher : option BlockCipher).
Hypothesis lossless : zstd_lossless zstd_encode_all zstd_decode.
Hypothesis bounded : ∀ raw level comp, zstd_encode_all raw level = Ok comp → zlen comp <= zlen raw + zlen raw / 256 + 64.
Hypothesis nonce_length : ∀ i, zlen (random_nonce i) = NONCE_LEN.
Hypothesis target_small : 5 * target target_block_bytes + 20 <= 2 ^ 30.

(** A list of hubs: ascending ids, degrees of 32 bits, and a record below a gigabyte. *)
Definition hub_list_ok (hubs : list (Z * Z)) : Prop := hubs_ok 0 hubs ∧ StronglySorted Z.lt (map fst hubs) ∧ fits hubs ∧
  ∀ rec, encode_hub_list hubs = Ok rec → 5 * target target_block_bytes + zlen rec + 20 <= 2 ^ 30.

Lemma hub_record hubs : hub_list_ok hubs → ∃ rec, encode_hub_list hubs = Ok rec ∧ decode_hub_list rec = Ok hubs ∧ record_fits target_block_bytes rec.
Proof.
  intros (Ho & _ & Hf & Hsz). destruct (hub_list_roundtrip hubs Ho Hf) as (rec & He & Hd). exists rec. split_and!; [done..|].
  split; [|by apply Hsz]. unfold encode_hub_list in He. apply bind_Ok in He as (rest & _ & [= <-]). by apply write_uvarint_nonempty, fits_u64.
Qed.

(** The hubs of a generation are those that were written: a node is found exactly when it is
    listed, with its degree. *)
Theorem hub_degrees_exact out inn img blocks floor : hub_list_ok out → hub_list_ok inn →
  write_hub_degrees zstd_encode_all random_nonce target_block_bytes zstd_level (file_cipher cipher HUB_DEGREES) out inn = Ok (img, blocks) →
  44 * blocks <= MAX_BLOCK_BYTES → fits img →
  ∃ h, load_hubs zstd_decode (Ok (Some img)) (Some floor) cipher = Ok h ∧ hub_degree_floor h = Some floor ∧
    ∀ node deg, (core_out_degree_if_hub h node = Some deg ↔ (node, deg) ∈ out) ∧ (core_in_degree_if_hub h node = Some deg ↔ (node, deg) ∈ inn).
Proof.
  intros Ho Hi Hw Hsz Hfits. destruct (hub_record out Ho) as (ro & Heo & Hdo & Hro). destruct (hub_record inn Hi) as (ri & Hei & Hdi & Hri).
  assert (∃ locs, write_file zstd_encode_all random_nonce target_block_bytes Zstd zstd_level (file_cipher cipher HUB_DEGREES) [ro; ri] = Ok (locs, (img, blocks))) as (locs & Hfile).
  { unfold write_hub_degrees in Hw. rewrite Heo, Hei in Hw. cbn [mbind result_bind] in Hw. apply bind_Ok in Hw as ([l1 w1] & H1 & Hw). apply bind_Ok in Hw as ([l2 w2] & H2 & Hw).
    exists [l1; l2]. unfold write_file. cbn [append_records]. rewrite H1. cbn [mbind result_bind]. rewrite H2. cbn [mbind result_bind]. by rewrite Hw. }
  destruct (written_file zstd_encode_all zstd_decode random_nonce target_block_bytes Zstd zstd_level (file_cipher cipher HUB_DEGREES) lossless bounded nonce_length target_small
    [ro; ri] locs img blocks) as (r & fin & Hop & _ & Hf & Hc & _); [by rewrite !Forall_cons|done..|].
  exists (mkHubs out inn (Some floor)). split_and!.
  - unfold load_hubs. cbn [mbind result_bind]. rewrite Hop. cbn [mbind result_bind].
    pose proof (read_global _ r fin Hf 0 ro) as E0. pose proof (read_global _ r fin Hf 1 ri) as E1. rewrite Hc in E0, E1.
    change (Z.of_nat 0) with 0 in E0. change (Z.of_nat 1) with 1 in E1.
    rewrite (E0 eq_refl). cbn [mbind result_bind]. rewrite Hdo. cbn [mbind result_bind]. rewrite (E1 eq_refl). cbn [mbind result_bind]. by rewrite Hdi.
  - done.
  - intros node deg. split; apply degree_if_hub_listed; [apply Ho|apply Hi].
Qed.
End hubs.

(** * Witnesses *)

Section witness.
#[local] Existing Instance toy_crypto.
#[local] Existing Instance toy_crypto_laws.

Definition example_name : str := lit "node_A_id".
Definition example_descs : list RangeIndexDesc := [mkIndexDesc example_name true (lit "A") (lit "id"); mkIndexDesc (lit "edge_R_w") false (lit "R") (lit "w")].
Definition example_generation : option BlockCipher := None.
Definition example_plain : result (bytes * Z) := write_isam_with_cipher stored_encode example_nonces 8 3 None example_entries.
Definition example_plain_img : bytes := match example_plain with Ok (img, _) => img | Err _ => [] end.
Definition example_dir (file : str) : result bytes := if bool_decide (file = index_file example_name) then Ok example_plain_img else Err (Bail "no such file").
Definition example_hist : bytes * Z :=
  match build_property_histograms stored_encode stored_decode example_block_nonces 3 3 example_dir example_descs example_generation 4 with
  | Ok (_, out) => out
  | Err _ => ([], 0)
  end.

Lemma example_plain_written : write_isam_with_cipher stored_encode example_nonces 8 3 (file_cipher example_generation (index_file example_name)) example_entries =
  Ok (example_plain_img, 3).
Proof. vm_compute. reflexivity. Qed.

Lemma example_plain_top : top_fits stored_encode example_nonces 8 3 (file_cipher example_generation (index_file example_name)) (sort_entries example_entries).
Proof. intros st H. vm_compute in H. injection H as <-. apply Z.leb_le. vm_compute. reflexivity. Qed.

Lemma example_index_file : index_written stored_encode example_dir example_generation example_name example_entries.
Proof.
  exists example_nonces, 8, 3, example_plain_img, 3. split_and!; [reflexivity|exact example_nonce_length|lia|exact example_fits|exact example_exact|reflexivity| |
    exact example_plain_top|exact example_plain_written].
  unfold fits. apply Z.ltb_lt. vm_compute. reflexivity.
Qed.

Lemma example_indexes ri : ri ∈ example_descs → ri_node ri = true →
  index_written stored_encode example_dir example_generation (ri_name ri) example_entries ∧ 5 * target 3 + keys_bytes example_entries + 30 <= 2 ^ 30.
Proof.
  intros [->|[->|[]%elem_of_nil]%elem_of_cons]%elem_of_cons; [|done]. intros _. split; [exact example_index_file|]. apply Z.leb_le. vm_compute. reflexivity.
Qed.

Lemma example_hist_built : build_property_histograms stored_encode stored_decode example_block_nonces 3 3 example_dir example_descs example_generation 4 =
  Ok ([mkHistDesc example_name (lit "A") (lit "id") 4], (example_hist.1, example_hist.2)).
Proof. vm_compute. reflexivity. Qed.

Lemma histograms_exact_witness : ∃ h, load_histograms stored_decode (Ok (Some example_hist.1)) [mkHistDesc example_name (lit "A") (lit "id") 4] example_generation = Ok h ∧
  (∃ counts, counts_of example_entries counts ∧ h !! example_name = stored_counts 4 counts) ∧ h !! (lit "edge_R_w") = None.
Proof.
  destruct (histograms_exact stored_encode stored_decode example_block_nonces 3 3 stored_lossless stored_bounded example_block_nonce_length ltac:(apply Z.leb_le; reflexivity)
    example_dir example_generation 4 ltac:(lia) example_descs (λ _, example_entries) example_indexes _ _ _ example_hist_built
    ltac:(apply Z.leb_le; vm_compute; reflexivity) ltac:(unfold fits; apply Z.ltb_lt; vm_compute; reflexivity)) as (h & Hl & Hin & Hout).
  exists h. split; [exact Hl|]. split; [exact (Hin (mkIndexDesc example_name true (lit "A") (lit "id")) ltac:(by left) eq_refl)|].
  apply Hout. intros ri [->|[->|[]%elem_of_nil]%elem_of_cons]%elem_of_cons Hn; done.
Defined.
End witness.
