(* ===== verification/DegreeEf.v ===== *)
(** Degree chunks (crates/graph-format/src/degree_ef.rs): the degrees of a run of nodes, stored
    as Elias-Fano over their cumulative sums, as runs, dense or compressed, whichever is
    smallest, and read one degree at a time.

    The report of a corrupt chunk is a log line and is left out; the degree it accompanies is
    not. *)

From S2P Require Import Prelude Values Wire BlockCodec Bits EliasFano RunLength Plane.

Definition MAX_CHUNK_DEGREES : Z := MAX_BLOCK_BYTES / 4.

(** ** Elias-Fano over the cumulative degrees *)

(** [for i in 0..m], with the running sum [c]; the last pass has no degree to add. *)
Fixpoint deg_fill (l : Z) (st : nat * list Z * bytes) (c : Z) (degrees : list Z) : option (nat * list Z * bytes) :=
  st ← ef_put l st c;
  match degrees with
  | [] => Some st
  | d :: degrees => deg_fill l st (as_u64 (c + d)) degrees
  end.

Definition deg_total (degrees : list Z) : Z := foldl (λ acc d, as_u64 (acc + d)) 0 degrees.

Definition deg_encode (degrees : list Z) : option Ef :=
  let n := zlen degrees in
  let m := n + 1 in
  let total := deg_total degrees in
  let l := low_bits total m in
  '(_, highs, lows) ← deg_fill l (ef_empty m total l) 0 degrees;
  Some {| ef_count := as_u32 n; ef_l := l; ef_lows := lows; ef_highs := highs;
          ef_sample := build_sample highs (Z.to_nat m) |}.

(** The [while w == 0] of [next_one_after]. *)
Fixpoint next_word (fuel : nat) (highs : list Z) (wi : nat) (w : Z) : option nat :=
  if w =? 0 then
    match fuel with
    | O => None
    | S fuel => w ← highs !! S wi; next_word fuel highs (S wi) w
    end
  else Some (wi * 64 + trailing_zeros w)%nat.

Definition next_one_after (highs : list Z) (p : nat) : option nat :=
  let wi := ((p + 1) / 64)%nat in
  w ← highs !! wi;
  next_word (length highs) highs wi (mask_from w ((p + 1) mod 64)).

Definition deg_ef_degree_at (e : Ef) (slot : nat) : option Z :=
  p0 ← select1 (ef_highs e) (ef_sample e) slot;
  p1 ← next_one_after (ef_highs e) p0;
  low0 ← read_low (ef_lows e) (ef_l e) slot;
  low1 ← read_low (ef_lows e) (ef_l e) (slot + 1);
  let v0 := ef_join (ef_l e) p0 slot low0 in
  let v1 := ef_join (ef_l e) p1 (slot + 1) low1 in
  Some (as_u32 (Z.max 0 (v1 - v0))).

Definition deg_ef_deserialize (body : bytes) : result Ef := ef_deserialize "ef degree chunk" 1 body.

(** ** Run length *)

Definition rle_chunk_deserialize (body : bytes) : result Rle :=
  rle_deserialize "rle degree chunk" MAX_CHUNK_DEGREES as_u32 body.

(** ** The stored record and its resident form *)

Inductive ChunkKind := DKEf | DKRawU32 | DKZstdDense | DKRle.

Definition chunk_kind_u8 (k : ChunkKind) : Z :=
  match k with DKEf => 1 | DKRawU32 => 2 | DKZstdDense => 3 | DKRle => 4 end.

Definition chunk_kind_from_u8 (b : Z) : result ChunkKind :=
  match b with
  | 1 => Ok DKEf
  | 2 => Ok DKRawU32
  | 3 => Ok DKZstdDense
  | 4 => Ok DKRle
  | _ => Err (Bail "unknown degree-chunk codec tag")
  end.

Inductive DegreeChunk :=
  | DEf (e : Ef)
  | DRle (r : Rle).

Definition degree_chunk_len (c : DegreeChunk) : Z := match c with DEf e => ef_count e | DRle r => rle_n r end.

Definition degree_access (c : DegreeChunk) (off : nat) : option Z :=
  match c with DEf e => deg_ef_degree_at e off | DRle r => rle_value_at r off end.

Definition degree_at (c : DegreeChunk) (off : nat) : result (option Z) :=
  if degree_chunk_len c <=? Z.of_nat off then Ok None
  else d ← or_panic (degree_access c off); Ok (Some d).

Definition to_degrees (c : DegreeChunk) : result (list Z) :=
  match c with
  | DEf e => or_panic (mapM (deg_ef_degree_at e) (seq 0 (Z.to_nat (ef_count e))))
  | DRle r => Ok (rle_to_values r)
  end.

Definition resident_from_degrees (degrees : list Z) : result DegreeChunk :=
  match degrees with
  | first :: _ =>
      if negb (forallb (λ d, d =? first) degrees) then e ← or_panic (deg_encode degrees); Ok (DEf e)
      else Ok (DRle (rle_from_values degrees))
  | [] => Ok (DRle (rle_from_values degrees))
  end.

Definition dense_degrees (degrees : list Z) : bytes := concat (map (le_bytes 4) degrees).

Section Zstd.
Context (zstd_encode_all : bytes → Z → result bytes).
Context (zstd_decode : bytes → list bytes * bool).

Definition degree_zstd (degrees : list Z) (opts : PlaneCodecOpts) (free_len raw_len : Z) : result (option bytes) :=
  if price_zstd opts free_len raw_len then
    zbytes ← compress zstd_encode_all (dense_degrees degrees) (zstd_level opts);
    let zstd_len := 1 + 4 + zlen zbytes in
    Ok (if zstd_wins opts zstd_len free_len
        then Some (chunk_kind_u8 DKZstdDense :: le_bytes 4 (as_u32 (zlen degrees)) ++ zbytes) else None)
  else Ok None.

Definition encode_chunk (degrees : list Z) (opts : PlaneCodecOpts) : result bytes :=
  if MAX_CHUNK_DEGREES <? zlen degrees then Err (Bail "degree chunk exceeds the degree ceiling")
  else if (length degrees =? 0)%nat then
    Ok (chunk_kind_u8 DKRle :: rle_serialize (rle_from_values degrees))
  else
    ef ← or_panic (deg_encode degrees);
    let ef_len := 1 + ef_serialized_len ef in
    let rle := rle_from_values degrees in
    let rle_len := 1 + rle_body_len rle in
    let raw_len := 1 + zlen degrees * 4 in
    let free_len := Z.min (Z.min ef_len rle_len) raw_len in
    zstd ← degree_zstd degrees opts free_len raw_len;
    match zstd with
    | Some record => Ok record
    | None =>
        if (rle_len <=? ef_len) && (rle_len <=? raw_len) then Ok (chunk_kind_u8 DKRle :: rle_serialize rle)
        else if ef_len <=? raw_len then Ok (chunk_kind_u8 DKEf :: ef_serialize ef)
        else Ok (chunk_kind_u8 DKRawU32 :: dense_degrees degrees)
    end.

Definition decode_chunk (record : bytes) : result DegreeChunk :=
  '(tag, body) ← split_first (Bail "empty degree-chunk record") record;
  kind ← chunk_kind_from_u8 tag;
  match kind with
  | DKEf => e ← deg_ef_deserialize body; Ok (DEf e)
  | DKRle => r ← rle_chunk_deserialize body; Ok (DRle r)
  | DKRawU32 =>
      if negb (zlen body mod 4 =? 0) then Err (Bail "raw degree-chunk body not a multiple of 4")
      else resident_from_degrees (map le_val (as_chunks 4 body))
  | DKZstdDense =>
      if zlen body <? 4 then Err (Bail "zstd degree-chunk body too short")
      else
        let n := le_val (take 4 body) in
        let raw_len := Z.min (n * 4) (2 ^ 64 - 1) in
        dense ← decompress zstd_decode (drop 4 body) raw_len;
        if negb (zlen dense =? raw_len) then Err (Bail "zstd degree-chunk decoded length")
        else resident_from_degrees (map le_val (as_chunks 4 dense))
  end.

End Zstd.

(** * Cumulative degrees *)

Fixpoint cumulative (c : Z) (degrees : list Z) : list Z :=
  c :: match degrees with [] => [] | d :: degrees => cumulative (c + d) degrees end.

Definition sum_from (c : Z) (degrees : list Z) : Z := foldl Z.add c degrees.

Lemma length_cumulative c degrees : length (cumulative c degrees) = S (length degrees).
Proof. revert c. induction degrees as [|d degrees IH]; intros c; cbn; by rewrite ?IH. Qed.

Lemma sum_from_range c degrees : Forall is_u32 degrees → c <= sum_from c degrees <= c + zlen degrees * 2 ^ 32.
Proof.
  intros Hu. revert c. induction Hu as [|d degrees Hd _ IH]; intros c; cbn; [change (zlen []) with 0; lia|].
  specialize (IH (c + d)). rewrite zlen_cons. unfold sum_from, is_u32 in *. lia.
Qed.

Lemma deg_fill_cumulative l st c degrees : 0 <= c → Forall is_u32 degrees → c + zlen degrees * 2 ^ 32 < 2 ^ 64 →
  deg_fill l st c degrees = ef_fill l st (cumulative c degrees).
Proof.
  intros Hc Hu. revert st c Hc. induction Hu as [|d degrees Hd _ IH]; intros st c Hc Hs; cbn [deg_fill cumulative ef_fill].
  { destruct (ef_put l st c); done. }
  rewrite zlen_cons in Hs. unfold is_u32 in Hd. pose proof (zlen_nonneg degrees). destruct (ef_put l st c); [|done]. cbn [mbind option_bind].
  unfold as_u64. rewrite Z.mod_small by lia. apply IH; lia.
Qed.

Lemma deg_total_sum degrees : Forall is_u32 degrees → zlen degrees * 2 ^ 32 < 2 ^ 64 → deg_total degrees = sum_from 0 degrees.
Proof.
  intros Hu Hs. unfold deg_total, sum_from. assert (∀ c, 0 <= c → c + zlen degrees * 2 ^ 32 < 2 ^ 64 →
    foldl (λ acc d, as_u64 (acc + d)) c degrees = foldl Z.add c degrees) as H; [|apply H; lia]. clear Hs.
  induction Hu as [|d degrees Hd _ IH]; intros c Hc Hs; [done|]. rewrite zlen_cons in Hs. unfold is_u32 in Hd. pose proof (zlen_nonneg degrees).
  cbn [foldl]. unfold as_u64 at 2. rewrite Z.mod_small by lia. apply IH; lia.
Qed.

Lemma cumulative_bounds c degrees : Forall is_u32 degrees → Forall (λ v, c <= v <= sum_from c degrees) (cumulative c degrees).
Proof.
  intros Hu. revert c. induction Hu as [|d degrees Hd Hu IH]; intros c; cbn [cumulative].
  { constructor; [cbn; lia|constructor]. }
  constructor.
  - pose proof (sum_from_range c (d :: degrees) ltac:(by constructor)). lia.
  - eapply Forall_impl; [apply IH|]. unfold is_u32 in Hd. cbn. unfold sum_from. lia.
Qed.

Lemma cumulative_sorted c degrees : Forall is_u32 degrees → StronglySorted Z.le (cumulative c degrees).
Proof.
  intros Hu. revert c. induction Hu as [|d degrees Hd Hu IH]; intros c; cbn [cumulative]; [by repeat constructor|].
  constructor; [apply IH|]. eapply Forall_impl; [by apply cumulative_bounds|]. unfold is_u32 in Hd. cbn. lia.
Qed.

Lemma cumulative_lookup c degrees i d : degrees !! i = Some d →
  ∃ a, cumulative c degrees !! i = Some a ∧ cumulative c degrees !! S i = Some (a + d).
Proof.
  revert c i. induction degrees as [|x degrees IH]; intros c i; [by rewrite lookup_nil|].
  destruct i as [|i]; cbn [lookup list_lookup cumulative].
  - intros [= ->]. exists c. split; [done|]. by destruct degrees.
  - intros Hi. destruct (IH (c + x) i Hi) as (a & H1 & H2). by exists a.
Qed.

(** ** The next one-bit *)

Lemma next_word_spec fuel highs wi w q rest : Forall is_u64 highs → is_u64 w → (wi < length highs <= fuel + wi)%nat →
  map (λ b, wi * 64 + b)%nat (word_bits w) ++ ones_from (S wi) (drop (S wi) highs) = q :: rest →
  next_word fuel highs wi w = Some q.
Proof.
  intros Hh. revert wi w. induction fuel as [|fuel IH]; intros wi w Hw Hf E; [lia|]. cbn [next_word].
  destruct (Z.eqb_spec w 0) as [->|Hne].
  - change (word_bits 0) with (@nil nat) in E. cbn [map app] in E. destruct (highs !! S wi) as [w'|] eqn:Ew.
    2:{ apply lookup_ge_None in Ew. rewrite drop_ge in E by lia. done. }
    pose proof (lookup_lt_Some _ _ _ Ew). rewrite (drop_S _ _ _ Ew) in E. cbn [ones_from] in E. cbn [mbind option_bind].
    apply IH; [by eapply Forall_lookup_1|lia|exact E].
  - destruct (word_bits w) as [|b bs] eqn:Eb; [by apply word_bits_nil in Eb|]. cbn [map app] in E.
    unfold trailing_zeros. rewrite Eb. cbn [head default from_option]. unfold id. congruence.
Qed.

Lemma next_one_after_spec highs i p q : Forall is_u64 highs → ones highs !! i = Some p → ones highs !! S i = Some q →
  next_one_after highs p = Some q.
Proof.
  intros Hh Hp Hq. pose proof (ones_from_sorted 0 highs) as Hs. fold (ones highs) in Hs.
  pose proof (sorted_drop _ _ _ Hs Hp) as Hdrop. rewrite (drop_S _ _ _ Hq) in Hdrop.
  assert (p < q)%nat as Hpq.
  { assert (q ∈ filter (λ q, (p < q)%nat) (ones highs)) as [? _]%list_elem_of_filter by (rewrite <- Hdrop; left). done. }
  assert (q < 64 * length highs)%nat as Hql by (apply list_elem_of_lookup_2, elem_of_ones_from in Hq; lia).
  unfold next_one_after. assert ((p + 1) / 64 < length highs)%nat as Hwi by (apply Nat.Div0.div_lt_upper_bound; lia).
  destruct (lookup_lt_is_Some_2 highs ((p + 1) / 64)%nat Hwi) as [w Ew]. rewrite Ew. cbn [mbind option_bind].
  pose proof (ones_after highs p _ w eq_refl Hh Ew) as Ha. rewrite <- Hdrop in Ha. symmetry in Ha.
  eapply next_word_spec; [done|apply mask_from_u64; by eapply Forall_lookup_1|lia|exact Ha].
Qed.

(** * Degrees *)

(** A degree is the saturating difference of two consecutive values of the record. *)
Lemma deg_ef_degree_at_values e slot : ef_wf 1 e → 64 * zlen (ef_highs e) <= 2 ^ 32 → Z.of_nat slot < ef_count e →
  ∃ a b, ef_value_at e slot = Some a ∧ ef_value_at e (slot + 1) = Some b ∧
    deg_ef_degree_at e slot = Some (as_u32 (Z.max 0 (b - a))).
Proof.
  intros Hwf Hsz Hslot. unfold ef_value_at, deg_ef_degree_at.
  destruct (ef_wf_select 1 e slot) as (p0 & -> & H0); [done|lia|done|].
  destruct (ef_wf_select 1 e (slot + 1)) as (p1 & -> & H1); [done|lia|done|]. rewrite Nat.add_1_r in H1. cbn [mbind option_bind].
  rewrite (next_one_after_spec _ slot p0 p1) by (done || apply Hwf). cbn [mbind option_bind].
  destruct (ef_wf_read_low 1 e slot) as [low0 ->]; [done|lia|].
  destruct (ef_wf_read_low 1 e (slot + 1)) as [low1 ->]; [done|lia|]. cbn [mbind option_bind]. by eexists _, _.
Qed.

Record degree_answers (c : DegreeChunk) (degrees : list Z) : Prop := {
  da_len : degree_chunk_len c = zlen degrees;
  da_get i d : degrees !! i = Some d → degree_access c i = Some d;
  da_all : to_degrees c = Ok degrees;
}.

Lemma degree_answers_at c degrees i : degree_answers c degrees → degree_at c i = Ok (degrees !! i).
Proof.
  intros [Hlen Hget _]. unfold degree_at. rewrite Hlen. unfold zlen. destruct (Z.leb_spec (Z.of_nat (length degrees)) (Z.of_nat i)).
  - by rewrite lookup_ge_None_2 by lia.
  - destruct (lookup_lt_is_Some_2 degrees i) as [d Ed]; [lia|]. by rewrite (Hget _ _ Ed), Ed.
Qed.

Lemma deg_encode_answers degrees : Forall is_u32 degrees → 0 < zlen degrees <= 2 ^ 29 →
  ∃ e, deg_encode degrees = Some e ∧ ef_wf 1 e ∧ degree_answers (DEf e) degrees.
Proof.
  intros Hu Hn. set (vs := cumulative 0 degrees). assert (zlen vs = zlen degrees + 1) as Hlen by (unfold zlen, vs; rewrite length_cumulative; lia).
  pose proof (sum_from_range 0 degrees Hu) as Hsum. pose proof (cumulative_bounds 0 degrees Hu) as Hb. fold vs in Hb.
  assert (low_bits (sum_from 0 degrees) (zlen degrees + 1) <= 57) as Hl57.
  { transitivity 31; [|lia]. apply low_bits_le; [lia|lia|]. change (31 + 1) with 32. lia. }
  destruct (ef_encode_spec 1 vs (sum_from 0 degrees) _ (zlen degrees + 1) eq_refl) as (highs & lows & E & _ & _ & Hwf & Hsz & Hget);
    [done|lia|lia|lia| |by apply cumulative_sorted|unfold is_u64; lia| |].
  { eapply Forall_impl; [exact Hb|]. unfold is_u64. cbn. lia. }
  { eapply Forall_impl; [exact Hb|]. cbn. lia. }
  unfold deg_encode. cbv zeta. rewrite deg_total_sum, deg_fill_cumulative by (done || lia). fold vs. rewrite E. cbn [mbind option_bind].
  assert (as_u32 (zlen degrees) = zlen degrees + 1 - 1) as -> by (unfold as_u32; rewrite Z.mod_small; lia).
  eexists. split; [done|]. split; [exact Hwf|]. specialize (Hget Hl57).
  set (e := {| ef_count := _ |}) in *.
  assert (∀ i d, degrees !! i = Some d → deg_ef_degree_at e i = Some d) as Hdeg.
  { intros i d Hi. pose proof (lookup_lt_Some _ _ _ Hi). assert (Z.of_nat i < ef_count e) by (cbn; unfold zlen; lia).
    destruct (deg_ef_degree_at_values e i Hwf Hsz) as (a & b & Ea & Eb & ->); [done|].
    destruct (cumulative_lookup 0 degrees i d Hi) as (x & Hx & Hy). fold vs in Hx, Hy. rewrite Nat.add_1_r in Eb.
    rewrite (Hget _ _ Hx) in Ea. rewrite (Hget _ _ Hy) in Eb. injection Ea as <-. injection Eb as <-.
    rewrite Forall_lookup in Hu. pose proof (Hu _ _ Hi) as Hd. unfold is_u32 in Hd. unfold as_u32. f_equal.
    rewrite Z.max_r, Z.mod_small by lia. lia. }
  split; [cbn; lia|exact Hdeg|]. cbn [to_degrees]. replace (ef_count e) with (zlen degrees) by (cbn; lia).
  unfold zlen. rewrite Nat2Z.id, (mapM_seq _ degrees) by done. done.
Qed.

Lemma degree_rle_answers degrees : zlen degrees < 2 ^ 32 → degree_answers (DRle (rle_from_values degrees)) degrees.
Proof.
  intros Hlen. split; [by apply rle_from_values_n| |by cbn; rewrite rle_materialise].
  intros i v Hi. cbn [degree_access]. rewrite rle_lookup; [done|done|by eapply lookup_lt_Some].
Qed.

Lemma resident_degrees_answers degrees : Forall is_u32 degrees → zlen degrees <= 2 ^ 29 →
  ∃ c, resident_from_degrees degrees = Ok c ∧ degree_answers c degrees.
Proof.
  intros Hu Hn. destruct degrees as [|d degrees]; [by eexists; split; [|apply degree_rle_answers]|].
  unfold resident_from_degrees. destruct (negb _).
  - destruct (deg_encode_answers _ Hu) as (e & -> & _ & Hans); [rewrite zlen_cons in *; pose proof (zlen_nonneg degrees); lia|]. by eexists.
  - eexists. split; [done|]. apply degree_rle_answers. lia.
Qed.

Lemma dense_degrees_read degrees : Forall is_u32 degrees → map le_val (as_chunks 4 (dense_degrees degrees)) = degrees.
Proof. intros Hu. apply cells_bytes_read; [lia|exact Hu]. Qed.

Lemma zlen_dense_degrees degrees : zlen (dense_degrees degrees) = zlen degrees * 4.
Proof. unfold zlen, dense_degrees. rewrite length_cells_bytes. lia. Qed.

(** ** The round trip of each candidate *)

Section Candidates.
Context (zstd_encode_all : bytes → Z → result bytes) (zstd_decode : bytes → list bytes * bool).
Context (degrees : list Z) (Hu : Forall is_u32 degrees) (Hn : zlen degrees <= 2 ^ 29).

Abbreviation answers record := (∃ c, decode_chunk zstd_decode record = Ok c ∧ degree_answers c degrees).

Lemma deg_rle_candidate : answers (chunk_kind_u8 DKRle :: rle_serialize (rle_from_values degrees)).
Proof.
  unfold decode_chunk. cbn [split_first mbind result_bind chunk_kind_u8 chunk_kind_from_u8].
  unfold rle_chunk_deserialize. rewrite rle_roundtrip.
  - eexists. split; [done|]. apply degree_rle_answers. lia.
  - exact Hn.
  - done.
  - eapply Forall_impl; [exact Hu|]. unfold is_u64, is_u32, as_u32. intros d Hd. split; [lia|]. by apply Z.mod_small.
Qed.

Lemma deg_ef_candidate e : degrees ≠ [] → deg_encode degrees = Some e → answers (chunk_kind_u8 DKEf :: ef_serialize e).
Proof.
  intros Hne E. destruct (deg_encode_answers degrees Hu) as (e' & E' & Hwf & Hans).
  { destruct degrees; [done|]. rewrite zlen_cons in *. pose proof (zlen_nonneg l). lia. }
  rewrite E in E'. injection E' as <-. unfold decode_chunk. cbn [split_first mbind result_bind chunk_kind_u8 chunk_kind_from_u8].
  unfold deg_ef_deserialize. rewrite ef_roundtrip by done. by eexists.
Qed.

Lemma deg_raw_candidate : answers (chunk_kind_u8 DKRawU32 :: dense_degrees degrees).
Proof.
  unfold decode_chunk. cbn [split_first mbind result_bind chunk_kind_u8 chunk_kind_from_u8].
  rewrite zlen_dense_degrees, Z.mod_mul, dense_degrees_read by done. by apply resident_degrees_answers.
Qed.

Lemma deg_zstd_candidate level zbytes : zstd_lossless zstd_encode_all zstd_decode →
  compress zstd_encode_all (dense_degrees degrees) level = Ok zbytes →
  answers (chunk_kind_u8 DKZstdDense :: le_bytes 4 (as_u32 (zlen degrees)) ++ zbytes).
Proof.
  intros Hz Hc. pose proof (zlen_nonneg degrees).
  unfold decode_chunk. cbn [split_first mbind result_bind chunk_kind_u8 chunk_kind_from_u8].
  rewrite zlen_app. unfold zlen at 1. rewrite length_le_bytes. pose proof (zlen_nonneg zbytes).
  destruct (Z.ltb_spec (Z.of_nat 4 + zlen zbytes) 4); [lia|]. cbv zeta.
  rewrite take_app_length', drop_app_length' by (by rewrite length_le_bytes).
  assert (as_u32 (zlen degrees) = zlen degrees) as -> by (apply Z.mod_small; lia).
  rewrite is_u32_le_val by (unfold is_u32; lia). rewrite Z.min_l by lia. rewrite <- zlen_dense_degrees.
  rewrite (compress_decompress _ _ (dense_degrees degrees) level zbytes Hz).
  2:{ rewrite zlen_dense_degrees. unfold MAX_BLOCK_BYTES. change (Z.shiftl 2 30) with (2 ^ 31). lia. }
  2:{ exact Hc. }
  cbn [mbind result_bind]. rewrite Z.eqb_refl. cbn [negb]. rewrite dense_degrees_read by done. by apply resident_degrees_answers.
Qed.

Lemma degree_zstd_answers opts free_len raw_len : zstd_lossless zstd_encode_all zstd_decode →
  (∀ raw level, is_ok (zstd_encode_all raw level) = true) →
  ∃ z, degree_zstd zstd_encode_all degrees opts free_len raw_len = Ok z ∧ ∀ record, z = Some record → answers record.
Proof.
  intros Hz Htotal. unfold degree_zstd. cbv zeta. destruct (price_zstd _ _ _); [|by exists None].
  destruct (compress _ _ _) as [zbytes|err] eqn:Ec.
  2:{ unfold compress in Ec. specialize (Htotal (dense_degrees degrees) (zstd_level opts)). by rewrite Ec in Htotal. }
  cbn [mbind result_bind]. eexists. split; [done|]. intros record. destruct (zstd_wins _ _ _); [|done]. intros [= <-].
  by apply (deg_zstd_candidate (zstd_level opts)).
Qed.

Lemma encode_chunk_answers opts : zstd_lossless zstd_encode_all zstd_decode →
  (∀ raw level, is_ok (zstd_encode_all raw level) = true) →
  ∃ record c, encode_chunk zstd_encode_all degrees opts = Ok record ∧ decode_chunk zstd_decode record = Ok c ∧
    degree_answers c degrees.
Proof.
  intros Hz Htotal. unfold encode_chunk. unfold MAX_CHUNK_DEGREES, MAX_BLOCK_BYTES. change (Z.shiftl 2 30 / 4) with (2 ^ 29).
  destruct (Z.ltb_spec (2 ^ 29) (zlen degrees)) as [Hgt|_]; [lia|].
  destruct (Nat.eqb_spec (length degrees) 0) as [E|Hne].
  { destruct deg_rle_candidate as (c & ? & ?). by eexists _, c. }
  assert (degrees ≠ []) as Hne' by by intros ->.
  destruct (deg_encode_answers degrees Hu) as (e & Ee & _); [unfold zlen in *; lia|]. rewrite Ee. cbn [or_panic mbind result_bind]. cbv zeta.
  match goal with |- context [degree_zstd _ _ _ ?f ?r] => destruct (degree_zstd_answers opts f r Hz Htotal) as (z & -> & Hans) end.
  cbn [mbind result_bind]. destruct z as [record|].
  { destruct (Hans record eq_refl) as (c & ? & ?). by eexists _, c. }
  destruct (_ && _); [|destruct (_ <=? _)].
  - destruct deg_rle_candidate as (c & ? & ?). by eexists _, c.
  - destruct (deg_ef_candidate e Hne' Ee) as (c & ? & ?). by eexists _, c.
  - destruct deg_raw_candidate as (c & ? & ?). by eexists _, c.
Qed.

End Candidates.

(** * Properties *)

(** A degree chunk survives its stored form whichever encoding is chosen: for every list of
    [u32] degrees up to the ceiling the encoder produces a record, the record decodes, and the
    resident form has their count, answers every offset with the exact degree (and an offset
    past the end with nothing), never panics, and materialises to the same list. *)
Theorem degree_chunk_roundtrip zstd_encode_all zstd_decode degrees opts : Forall is_u32 degrees →
  zlen degrees <= MAX_CHUNK_DEGREES → zstd_lossless zstd_encode_all zstd_decode →
  (∀ raw level, is_ok (zstd_encode_all raw level) = true) →
  ∃ record c, encode_chunk zstd_encode_all degrees opts = Ok record ∧ decode_chunk zstd_decode record = Ok c ∧
    degree_chunk_len c = zlen degrees ∧ (∀ off, degree_at c off = Ok (degrees !! off)) ∧ to_degrees c = Ok degrees.
Proof.
  intros Hu Hn Hz Ht. destruct (encode_chunk_answers _ _ degrees Hu Hn opts Hz Ht) as (record & c & He & Hd & Ha).
  exists record, c. split_and!; [done|done|apply Ha| |apply Ha]. intros off. by apply degree_answers_at.
Qed.

(** ** Hostile records *)

Definition no_panic {A} (m : result A) : Prop := ∀ msg, m ≠ Err (Panic msg).

Lemma bind_no_panic {A B} (m : result A) (f : A → result B) : no_panic m → (∀ a, m = Ok a → no_panic (f a)) → no_panic (m ≫= f).
Proof. intros Hm Hf msg. destruct m as [a|e]; cbn; [by apply Hf|]. intros [= ->]. by apply (Hm msg). Qed.

Lemma read_uvarint_no_panic r : no_panic (read_uvarint r).
Proof.
  intros msg. unfold read_uvarint. generalize 0 at 1 as res. generalize 0 as shift. induction r as [|b r IH]; intros shift res; cbn [read_uvarint_loop]; [done|].
  cbv zeta. destruct (_ =? 0); [done|]. destruct (_ <=? _); [done|]. apply IH.
Qed.

Lemma rle_read_runs_no_panic narrow fuel count acc r : no_panic (rle_read_runs narrow fuel count acc r).
Proof.
  revert count acc r. induction fuel as [|fuel IH]; intros count acc r; cbn [rle_read_runs]; destruct (count <=? 0); try done.
  apply bind_no_panic; [apply read_uvarint_no_panic|]. intros [value r1] _.
  apply bind_no_panic; [apply read_uvarint_no_panic|]. intros [len r2] _. destruct (len =? 0); [done|].
  apply bind_no_panic; [apply IH|]. by intros [[vs ss] t] _.
Qed.

Lemma rle_deserialize_no_panic what max narrow body : no_panic (rle_deserialize what max narrow body).
Proof.
  unfold rle_deserialize. apply bind_no_panic; [apply read_uvarint_no_panic|]. intros [n r] _. cbv zeta. destruct (max <? _); [done|].
  apply bind_no_panic; [apply read_uvarint_no_panic|]. intros [count r'] _.
  apply bind_no_panic; [apply rle_read_runs_no_panic|]. intros [[vs ss] t] _. by destruct (negb _).
Qed.

Lemma ef_deserialize_no_panic what extra body : no_panic (ef_deserialize what extra body).
Proof.
  unfold ef_deserialize. destruct (_ <? 9); [done|]. cbv zeta.
  apply bind_no_panic; [unfold check_low_bits; by destruct (_ <? _)|]. intros _ _. destruct (negb _); [done|]. by destruct (negb _).
Qed.

Lemma decompress_capped_no_panic zstd_decode comp raw_len cap : no_panic (decompress_capped zstd_decode comp raw_len cap).
Proof.
  unfold decompress_capped. destruct (_ <? _); [done|]. destruct (decompress_sink _ _ _) as [sink ok].
  destruct (negb ok); [by destruct (overflowed sink)|]. by destruct (negb _).
Qed.

Lemma as_chunks_u32 bs : Forall is_u8 bs → Forall is_u32 (map le_val (as_chunks 4 bs)).
Proof.
  intros Hb. apply Forall_map. eapply Forall_impl.
  { apply Forall_and. split; [apply (as_chunks_lengths 4 bs)|apply (Forall_concat_chunks (P := is_u8) 4 bs Hb)]. }
  intros w [Hlw Hwu]. pose proof (le_val_range w Hwu) as Hr. unfold zlen in Hr. rewrite Hlw in Hr. exact Hr.
Qed.

(** What is safe to read: every offset below the count has a degree, and none past it. *)
Definition degrees_readable (c : DegreeChunk) : Prop :=
  ∀ off, ∃ o, degree_at c off = Ok o ∧ (is_Some o ↔ Z.of_nat off < degree_chunk_len c).

Lemma access_readable c : (∀ off, Z.of_nat off < degree_chunk_len c → is_Some (degree_access c off)) → degrees_readable c.
Proof.
  intros H off. unfold degree_at. destruct (Z.leb_spec (degree_chunk_len c) (Z.of_nat off)) as [Hge|Hlt].
  - exists None. split; [done|]. split; [by intros []|lia].
  - destruct (H off Hlt) as [d ->]. exists (Some d). split; [done|]. split; [done|by eexists].
Qed.

Lemma answers_readable c degrees : degree_answers c degrees → degrees_readable c.
Proof.
  intros Ha off. exists (degrees !! off). split; [by apply degree_answers_at|]. rewrite (da_len _ _ Ha), lookup_lt_is_Some. unfold zlen. lia.
Qed.

Lemma dense_readable bs c : Forall is_u8 bs → zlen bs <= 2 ^ 31 →
  no_panic (resident_from_degrees (map le_val (as_chunks 4 bs))) ∧
  (resident_from_degrees (map le_val (as_chunks 4 bs)) = Ok c → degrees_readable c).
Proof.
  intros Hb Hlen. destruct (resident_degrees_answers (map le_val (as_chunks 4 bs))) as (c' & E & Ha); [by apply as_chunks_u32| |].
  { unfold zlen in *. rewrite length_map. pose proof (as_chunks_count 4 bs ltac:(lia)). lia. }
  rewrite E. split; [done|]. intros [= <-]. by eapply answers_readable.
Qed.

(** A degree record is safe whatever its bytes: for any record of at most half a gigabyte,
    of any kind, decoding never indexes out of bounds, and a record that decodes has a degree
    at every offset below its count and none past it, even when its low bits do not ascend. *)
Theorem degree_decode_safe zstd_decode record : Forall is_u8 record → zlen record <= 2 ^ 29 →
  (∀ comp, Forall is_u8 (concat (zstd_decode comp).1)) →
  no_panic (decode_chunk zstd_decode record) ∧
  ∀ c, decode_chunk zstd_decode record = Ok c → degrees_readable c.
Proof.
  intros Hu Hlen Hzu. destruct record as [|tag body]; [done|]. apply Forall_cons in Hu as [_ Hu]. rewrite zlen_cons in Hlen.
  unfold decode_chunk. cbn [split_first mbind result_bind]. destruct (chunk_kind_from_u8 tag) as [k|e] eqn:Ek.
  2:{ unfold chunk_kind_from_u8 in Ek. by repeat (case_match; simplify_eq; try done). }
  cbn [mbind result_bind]. destruct k.
  - split; [apply bind_no_panic; [apply ef_deserialize_no_panic|done]|].
    intros c (e & He & [= <-])%bind_Ok. apply access_readable. intros off Hoff.
    apply ef_deserialize_wf in He as [Hwf Hsz]; [|lia|done].
    destruct (deg_ef_degree_at_values e off) as (a & b & _ & _ & Hd); [done|lia|done|]. cbn. rewrite Hd. by eexists.
  - destruct (negb _); [done|]. split; [|intros c]; apply (dense_readable body); (done || lia || exact (DRle (rle_from_values []))).
  - destruct (zlen body <? 4); [done|]. cbv zeta. unfold decompress. set (raw_len := Z.min _ _).
    destruct (decompress_capped _ _ _ _) as [dense|err] eqn:Ed.
    2:{ split; [|done]. cbn. intros msg [= ->]. by apply decompress_capped_no_panic in Ed. }
    cbn [mbind result_bind]. destruct (negb _); [done|].
    destruct (zstd_decode (drop 4 body)) as [pieces complete] eqn:Ez.
    assert (Forall is_u8 dense ∧ zlen dense <= 2 ^ 31) as [Hdu Hdl].
    { assert (0 <= raw_len) as Hraw by (pose proof (le_val_range (take 4 body) ltac:(by apply Forall_take)); unfold raw_len; lia).
      destruct (proj1 (decompress_capped_Ok _ _ _ _ pieces complete _ Hraw Ez) Ed) as (Hr & _ & Hl & Hd).
      rewrite Hl. split; [|exact Hr]. rewrite Hd. specialize (Hzu (drop 4 body)). by rewrite Ez in Hzu. }
    split; [|intros c]; apply (dense_readable dense); (done || lia || exact (DRle (rle_from_values []))).
  - split; [apply bind_no_panic; [apply rle_deserialize_no_panic|done]|].
    intros c (r & Hr & [= <-])%bind_Ok. apply access_readable. intros off Hoff. by eapply rle_decoded_total.
Qed.

(** A decoder that hands its input over in one piece, as bytes. *)
Definition byte_decode (comp : bytes) : list bytes * bool := ([map (λ b, b mod 256) comp], true).

