(* ===== verification/NodeDegree.v ===== *)
(** The column of degrees, of [graph-format/src/nodedegree.rs]: every node's out-degree and
    in-degree, in chunks of a fixed width, one record a chunk. *)

From S2P Require Import Prelude Values Wire Crypto BlockCodec Bits EliasFano RunLength BitPacked Plane DegreeEf Isam BlockFile BlockRead BlockExact.

Definition DEGREES_PER_RECORD : nat := Z.to_nat (Z.shiftl 1 18).

Definition records_per_half (node_count : nat) : nat := Z.to_nat (div_ceil (Z.of_nat node_count) (Z.of_nat DEGREES_PER_RECORD)).

(** [slice::chunks], of which the last may be short. *)
Fixpoint chunks_loop (fuel k : nat) (l : list Z) : list (list Z) :=
  match fuel, l with
  | S fuel, _ :: _ => take k l :: chunks_loop fuel k (drop k l)
  | _, _ => []
  end.
Definition chunks (k : nat) (l : list Z) : list (list Z) := chunks_loop (length l) k l.

Section column.
Context {crypto : Crypto}.
Variable zstd_encode_all : bytes → Z → result bytes.
Variable zstd_decode : bytes → list bytes * bool.
Variable random_nonce : nat → bytes.
Variables (target_block_bytes : Z) (opts : PlaneCodecOpts) (cipher : option FileCipher).
Local Abbreviation append := (append_record zstd_encode_all random_nonce target_block_bytes Raw (zstd_level opts) cipher) (only parsing).

Fixpoint append_chunks (cs : list (list Z)) (w : BlockFileWriter) : result BlockFileWriter :=
  match cs with
  | [] => Ok w
  | c :: cs =>
      rec ← encode_chunk zstd_encode_all c opts;
      '(_, w) ← append rec w;
      append_chunks cs w
  end.

Definition write_node_degrees (out_degs in_degs : list Z) : result (bytes * Z) :=
  if negb (length out_degs =? length in_degs)%nat then Err (Bail "node-degree columns differ in length") else
  w ← append_chunks (chunks DEGREES_PER_RECORD out_degs) (create_inner Raw cipher);
  w ← append_chunks (chunks DEGREES_PER_RECORD in_degs) w;
  finish zstd_encode_all random_nonce Raw (zstd_level opts) cipher w.

Definition read_degree_chunk (r : BlockFileReader) (per_half : nat) (outgoing : bool) (chunk : nat) : result DegreeChunk :=
  if (per_half <=? chunk)%nat then Err (Bail "degree chunk out of range") else
  let global := if outgoing then chunk else (per_half + chunk)%nat in
  bytes ← read_record_global zstd_decode r (Z.of_nat global);
  decode_chunk zstd_decode bytes.

Fixpoint degrees_loop (r : BlockFileReader) (todo n per_half : nat) (out inn : list Z) : result (list Z * list Z) :=
  match todo with
  | O => Ok (out, inn)
  | S todo =>
      bytes ← read_record_global zstd_decode r (Z.of_nat n);
      c ← decode_chunk zstd_decode bytes;
      degs ← to_degrees c;
      if (n <? per_half)%nat then degrees_loop r todo (S n) per_half (out ++ degs) inn
      else degrees_loop r todo (S n) per_half out (inn ++ degs)
  end.

Definition read_node_degrees (r : BlockFileReader) (node_count : nat) : result (list Z * list Z) :=
  let per_half := records_per_half node_count in
  let total := total_records r in
  if negb (total =? Z.of_nat (per_half * 2)) then Err (Bail "node_degrees.blk: unexpected number of records") else
  '(out, inn) ← degrees_loop r (Z.to_nat total) 0 per_half [] [];
  if negb ((length out =? node_count)%nat && (length inn =? node_count)%nat) then Err (Bail "node_degrees.blk: unexpected number of degrees")
  else Ok (out, inn).
End column.

(** * Chunks *)

Lemma chunks_loop_concat fuel k l : (0 < k)%nat → (length l <= fuel)%nat → concat (chunks_loop fuel k l) = l.
Proof.
  intros Hk. revert l. induction fuel as [|fuel IH]; intros [|x l] Hl; cbn [chunks_loop concat]; [done|cbn [length] in Hl; lia|done|].
  cbn [length] in Hl. rewrite IH by (rewrite length_drop; cbn [length]; lia). apply take_drop.
Qed.

Lemma chunks_concat k l : (0 < k)%nat → concat (chunks k l) = l.
Proof. intros Hk. by apply chunks_loop_concat. Qed.

Lemma chunks_loop_lookup fuel k l j : (0 < k)%nat → (length l <= fuel)%nat → (j * k < length l)%nat → chunks_loop fuel k l !! j = Some (take k (drop (j * k) l)).
Proof.
  intros Hk. revert l j. induction fuel as [|fuel IH]; intros [|x l] j Hl Hj; cbn [length] in *; [lia|lia|lia|]. cbn [chunks_loop]. destruct j as [|j]; [done|].
  cbn [lookup list_lookup]. rewrite IH by (rewrite length_drop; cbn [length]; lia). by rewrite drop_drop.
Qed.

Lemma chunks_loop_length fuel k l : (0 < k)%nat → (length l <= fuel)%nat → Z.of_nat (length (chunks_loop fuel k l)) = div_ceil (zlen l) (Z.of_nat k).
Proof.
  intros Hk. revert l. induction fuel as [|fuel IH]; intros [|x l] Hl; cbn [length] in Hl; [|lia| |].
  1-2: change (zlen []) with 0; cbn [chunks_loop length]; unfold div_ceil; by rewrite Z.div_small by lia.
  cbn [chunks_loop length]. rewrite Nat2Z.inj_succ, IH by (rewrite length_drop; cbn [length]; lia). set (n := zlen (x :: l)).
  assert (zlen (drop k (x :: l)) = Z.max 0 (n - Z.of_nat k)) as -> by (unfold n, zlen; rewrite length_drop; lia).
  assert (1 <= n) by (unfold n; rewrite zlen_cons; pose proof (zlen_nonneg l); lia). unfold div_ceil. destruct (Z.le_gt_cases n (Z.of_nat k)) as [Hle|Hgt].
  - rewrite Z.max_l by lia. rewrite (Z.div_small (0 + Z.of_nat k - 1)) by lia.
    replace (n + Z.of_nat k - 1) with (n - 1 + 1 * Z.of_nat k) by lia. rewrite Z.div_add, Z.div_small by lia. done.
  - rewrite Z.max_r by lia. replace (n + Z.of_nat k - 1) with (n - Z.of_nat k + Z.of_nat k - 1 + 1 * Z.of_nat k) by lia. rewrite Z.div_add by lia. lia.
Qed.

Lemma chunks_Forall (P : Z → Prop) k l : Forall P l → Forall (Forall P) (chunks k l).
Proof.
  unfold chunks. generalize (length l). intros fuel. revert l. induction fuel as [|fuel IH]; intros [|x l] Hl; cbn [chunks_loop]; [constructor..|].
  constructor; [by apply Forall_take|]. apply IH. by apply Forall_drop.
Qed.

Lemma chunks_short k l c : c ∈ chunks k l → (length c <= k)%nat.
Proof.
  unfold chunks. generalize (length l). intros fuel. revert l. induction fuel as [|fuel IH]; intros [|x l]; cbn [chunks_loop]; try by intros ?%elem_of_nil.
  intros [->|H]%elem_of_cons; [rewrite length_take; lia|by eapply IH].
Qed.

(** * Records *)

Section exact.
Context {crypto : Crypto} {crypto_laws : CryptoLaws}.
Variable zstd_encode_all : bytes → Z → result bytes.
Variable zstd_decode : bytes → list bytes * bool.
Variable random_nonce : nat → bytes.
Variables (target_block_bytes : Z) (opts : PlaneCodecOpts) (cipher : option FileCipher).
Hypothesis lossless : zstd_lossless zstd_encode_all zstd_decode.
Hypothesis total : ∀ raw level, is_ok (zstd_encode_all raw level) = true.
Hypothesis bounded : ∀ raw level comp, zstd_encode_all raw level = Ok comp → zlen comp <= zlen raw + zlen raw / 256 + 64.
Hypothesis nonce_length : ∀ i, zlen (random_nonce i) = NONCE_LEN.
Hypothesis target_small : 5 * target target_block_bytes + 2 ^ 22 <= 2 ^ 30.

Lemma ef_record_len e : zlen (ef_serialize e) = ef_serialized_len e.
Proof.
  unfold ef_serialize, ef_serialized_len. rewrite !zlen_app. assert (∀ n z, zlen (le_bytes n z) = Z.of_nat n) as -> by (intros; unfold zlen; by rewrite length_le_bytes).
  assert (∀ n z, zlen (le_bytes n z) = Z.of_nat n) as -> by (intros; unfold zlen; by rewrite length_le_bytes). change (zlen [ef_l e]) with 1.
  assert (zlen (concat (map (le_bytes 8) (ef_highs e))) = 8 * zlen (ef_highs e)) as -> by (unfold zlen; rewrite length_words_bytes; lia). lia.
Qed.

(** A chunk takes no more than four bytes a degree, and what zstd may add to them. *)
Lemma chunk_record_len degs rec : zlen degs <= 2 ^ 18 → encode_chunk zstd_encode_all degs opts = Ok rec → rec ≠ [] ∧ zlen rec <= 2 ^ 21.
Proof.
  intros Hlen. unfold encode_chunk. destruct (_ <? _); [done|]. destruct (Nat.eqb_spec (length degs) 0) as [E|_].
  { apply nil_length_inv in E as ->. intros [= <-]. split; [done|]. by vm_compute. }
  destruct (deg_encode degs) as [ef|]; [|done]. cbn [or_panic mbind result_bind]. cbv zeta. intros H. apply bind_Ok in H as (z & Hz & H).
  assert (zlen (dense_degrees degs) = zlen degs * 4) as Hdense by apply zlen_dense_degrees. pose proof (zlen_nonneg degs).
  destruct z as [record|].
  - injection H as <-. unfold degree_zstd in Hz. destruct (price_zstd _ _ _); [|done]. apply bind_Ok in Hz as (zb & Hc & Hz). unfold compress in Hc. apply bounded in Hc.
    rewrite Hdense in Hc. destruct (zstd_wins _ _ _); [|done].
    assert (chunk_kind_u8 DKZstdDense :: le_bytes 4 (as_u32 (zlen degs)) ++ zb = record) as <- by congruence. split; [done|]. rewrite zlen_cons, zlen_app. unfold zlen at 1. rewrite length_le_bytes.
    pose proof (Z.div_le_upper_bound (zlen degs * 4) 256 (2 ^ 12) ltac:(lia) ltac:(lia)). lia.
  - destruct (_ && _) eqn:E1; [|destruct (Z.leb_spec (1 + ef_serialized_len ef) (1 + zlen degs * 4)) as [E2|E2]].
    + apply andb_true_iff in E1 as [_ E1%Z.leb_le]. injection H as <-. split; [done|]. rewrite zlen_cons. unfold rle_body_len in E1. lia.
    + injection H as <-. split; [done|]. rewrite zlen_cons, ef_record_len. lia.
    + injection H as <-. split; [done|]. rewrite zlen_cons, Hdense. lia.
Qed.

(** The record of a chunk: it decodes to a chunk with the degrees, and fits a block. *)
Definition chunk_record (degs : list Z) (rec : bytes) : Prop :=
  encode_chunk zstd_encode_all degs opts = Ok rec ∧ record_fits target_block_bytes rec ∧ ∃ c, decode_chunk zstd_decode rec = Ok c ∧ degree_answers c degs.

Lemma chunk_records cs : Forall (Forall is_u32) cs → Forall (λ c, zlen c <= 2 ^ 18) cs → ∃ recs, Forall2 chunk_record cs recs.
Proof.
  intros Hu. induction Hu as [|c cs Hc _ IH]; intros Hl; [by exists []|]. apply Forall_cons in Hl as [Hlc Hl]. destruct (IH Hl) as (recs & Hrecs).
  destruct (encode_chunk_answers zstd_encode_all zstd_decode c Hc ltac:(lia) opts lossless total) as (rec & d & He & Hd & Ha). exists (rec :: recs).
  apply Forall2_cons. split; [|done]. destruct (chunk_record_len c rec Hlc He) as [Hne Hlen]. split_and!; [done|split; [done|lia]|by exists d].
Qed.

Lemma append_chunk_records cs recs w : Forall2 chunk_record cs recs → append_chunks zstd_encode_all random_nonce target_block_bytes opts cipher cs w =
  ('(_, w) ← append_records zstd_encode_all random_nonce target_block_bytes Raw (zstd_level opts) cipher recs w; Ok w).
Proof.
  intros H. revert w. induction H as [|c rec cs recs (He & _) _ IH]; intros w; cbn [append_chunks append_records]; [done|]. rewrite He. cbn [mbind result_bind].
  destruct (append_record _ _ _ _ _ _ rec w) as [[loc w']|]; [|done]. cbn [mbind result_bind]. rewrite IH. by destruct (append_records _ _ _ _ _ _ recs w') as [[? ?]|].
Qed.

(** An open file of the degrees: a record for every chunk of either direction. *)
Record column_of (r : BlockFileReader) (out inn : list Z) : Prop := {
  co_same : length inn = length out;
  co_total : total_records r = Z.of_nat (records_per_half (length out) * 2);
  co_chunk outgoing j c : chunks DEGREES_PER_RECORD (if outgoing : bool then out else inn) !! j = Some c →
    ∃ bytes d, read_record_global zstd_decode r (Z.of_nat (if outgoing then j else records_per_half (length out) + j)%nat) = Ok bytes ∧
      decode_chunk zstd_decode bytes = Ok d ∧ degree_answers d c;
}.

Lemma width_is : Z.of_nat DEGREES_PER_RECORD = 2 ^ 18.
Proof. unfold DEGREES_PER_RECORD. by rewrite Z2Nat.id. Qed.

Lemma width_pos : (0 < DEGREES_PER_RECORD)%nat.
Proof. pose proof width_is. lia. Qed.

Lemma chunk_count l : length (chunks DEGREES_PER_RECORD l) = records_per_half (length l).
Proof.
  pose proof width_pos. unfold records_per_half. apply Nat2Z.inj. unfold chunks. rewrite chunks_loop_length by done.
  rewrite Z2Nat.id; [done|]. pose proof (div_ceil_spec (Z.of_nat (length l)) (Z.of_nat DEGREES_PER_RECORD)). lia.
Qed.

Lemma written_column out inn img blocks : Forall is_u32 out → Forall is_u32 inn →
  write_node_degrees zstd_encode_all random_nonce target_block_bytes opts cipher out inn = Ok (img, blocks) → 44 * blocks <= MAX_BLOCK_BYTES → fits img →
  ∃ r, open_blocks img cipher = Ok r ∧ column_of r out inn.
Proof.
  intros Ho Hi Hw Hsz Hfits. unfold write_node_degrees in Hw. destruct (Nat.eqb_spec (length out) (length inn)) as [Hlen|]; [|done]. cbn [negb] in Hw.
  assert (∀ l, Forall is_u32 l → ∃ recs, Forall2 chunk_record (chunks DEGREES_PER_RECORD l) recs) as Hrecs.
  { intros l Hl. apply chunk_records; [by apply chunks_Forall|]. apply Forall_forall. intros c Hc%chunks_short. pose proof width_is. unfold zlen. lia. }
  destruct (Hrecs out Ho) as (ro & Hro). destruct (Hrecs inn Hi) as (ri & Hri).
  assert (∃ locs, write_file zstd_encode_all random_nonce target_block_bytes Raw (zstd_level opts) cipher (ro ++ ri) = Ok (locs, (img, blocks))) as (locs & Hfile).
  { pose proof (file_of_two zstd_encode_all random_nonce target_block_bytes Raw (zstd_level opts) cipher ro ri) as E.
    rewrite (append_chunk_records _ ro) in Hw by done. destruct (append_records _ _ _ _ _ _ ro _) as [[l1 w1]|]; [|done]. cbn [mbind result_bind] in *.
    rewrite (append_chunk_records _ ri) in Hw by done. destruct (append_records _ _ _ _ _ _ ri w1) as [[l2 w2]|]; [|done]. cbn [mbind result_bind] in *.
    rewrite Hw in E. destruct (write_file _ _ _ _ _ _ (ro ++ ri)) as [[locs o]|]; [|done]. cbn [mbind result_bind] in E. injection E as <-. by exists locs. }
  assert (Forall (record_fits target_block_bytes) (ro ++ ri)) as Hfit.
  { apply Forall_app. split; apply Forall_forall; intros rec [i Hr]%list_elem_of_lookup_1;
      [destruct (Forall2_lookup_r _ _ _ _ _ Hro Hr) as (c & _ & _ & ? & _)|destruct (Forall2_lookup_r _ _ _ _ _ Hri Hr) as (c & _ & _ & ? & _)]; done. }
  destruct (written_file zstd_encode_all zstd_decode random_nonce target_block_bytes Raw (zstd_level opts) cipher lossless bounded nonce_length ltac:(lia)
    _ locs img blocks Hfit Hfile Hsz Hfits) as (r & fin & Hopen & _ & Hf & Hc & _).
  pose proof (Forall2_length _ _ _ Hro) as Lo. pose proof (Forall2_length _ _ _ Hri) as Li. rewrite chunk_count in Lo, Li. rewrite <- Hlen in Li.
  exists r. split; [done|]. split; [done| |].
  - rewrite (total_of _ r fin Hf), Hc, zlen_app. unfold zlen. lia.
  - intros [|] j c Hj.
    + destruct (Forall2_lookup_l _ _ _ _ _ Hro Hj) as (rec & Hrec & _ & _ & d & Hd & Ha). exists rec, d. split_and!; [|done|done].
      apply (read_global _ r fin Hf). rewrite Hc. by apply lookup_app_l_Some.
    + destruct (Forall2_lookup_l _ _ _ _ _ Hri Hj) as (rec & Hrec & _ & _ & d & Hd & Ha). exists rec, d. split_and!; [|done|done].
      apply (read_global _ r fin Hf). rewrite Hc, lookup_app_r by lia. rewrite <- Lo. by replace (records_per_half (length out) + j - records_per_half (length out))%nat with j by lia.
Qed.

Lemma degrees_loop_read r out inn todo n : column_of r out inn → (n + todo = records_per_half (length out) * 2)%nat →
  degrees_loop zstd_decode r todo n (records_per_half (length out)) (concat (take n (chunks DEGREES_PER_RECORD out)))
    (concat (take (n - records_per_half (length out)) (chunks DEGREES_PER_RECORD inn))) = Ok (out, inn).
Proof.
  intros Hc. pose proof width_pos as Hk. pose proof (chunk_count out) as Lo. pose proof (chunk_count inn) as Li. rewrite (co_same _ _ _ Hc) in Li.
  set (per := records_per_half (length out)) in *. revert n. induction todo as [|todo IH]; intros n Hn; cbn [degrees_loop].
  - rewrite !take_ge by lia. by rewrite !chunks_concat.
  - destruct (Nat.ltb_spec n per) as [Hlt|Hge].
    + destruct (lookup_lt_is_Some_2 (chunks DEGREES_PER_RECORD out) n) as [c Hcn]; [lia|]. destruct (co_chunk _ _ _ Hc true n c Hcn) as (bytes & d & -> & Hd & Ha).
      cbn [mbind result_bind]. rewrite Hd. cbn [mbind result_bind]. rewrite (da_all _ _ Ha). cbn [mbind result_bind].
      specialize (IH (S n) ltac:(lia)). rewrite (take_S_r _ _ _ Hcn), concat_app in IH. cbn [concat] in IH. rewrite app_nil_r in IH.
      replace (S n - per)%nat with 0%nat in IH by lia. by replace (n - per)%nat with 0%nat by lia.
    + destruct (lookup_lt_is_Some_2 (chunks DEGREES_PER_RECORD inn) (n - per)) as [c Hcn]; [lia|].
      destruct (co_chunk _ _ _ Hc false (n - per)%nat c Hcn) as (bytes & d & Hread & Hd & Ha). fold per in Hread. replace (per + (n - per))%nat with n in Hread by lia.
      rewrite Hread. cbn [mbind result_bind]. rewrite Hd. cbn [mbind result_bind]. rewrite (da_all _ _ Ha). cbn [mbind result_bind].
      specialize (IH (S n) ltac:(lia)). replace (S n - per)%nat with (S (n - per)) in IH by lia. rewrite (take_S_r _ _ _ Hcn), concat_app in IH. cbn [concat] in IH. rewrite app_nil_r in IH.
      rewrite (take_ge (chunks DEGREES_PER_RECORD out) n) by lia. by rewrite (take_ge _ (S n)) in IH by lia.
Qed.

(** The chunk and the offset of a node. *)
Lemma chunk_of_node l i d : l !! i = Some d → ∃ c, chunks DEGREES_PER_RECORD l !! (i / DEGREES_PER_RECORD)%nat = Some c ∧ c !! (i mod DEGREES_PER_RECORD)%nat = Some d.
Proof.
  intros Hi. pose proof width_pos as Hk. pose proof (lookup_lt_Some _ _ _ Hi). pose proof (Nat.div_mod_eq i DEGREES_PER_RECORD). pose proof (Nat.mod_upper_bound i DEGREES_PER_RECORD ltac:(lia)).
  eexists. unfold chunks. rewrite chunks_loop_lookup by lia. split; [done|]. rewrite lookup_take_lt by lia. rewrite lookup_drop.
  by replace (i / DEGREES_PER_RECORD * DEGREES_PER_RECORD + i mod DEGREES_PER_RECORD)%nat with i by lia.
Qed.

Lemma degree_chunk_read r out inn outgoing i d : column_of r out inn → (if outgoing : bool then out else inn) !! i = Some d →
  ∃ c degs, read_degree_chunk zstd_decode r (records_per_half (length out)) outgoing (i / DEGREES_PER_RECORD) = Ok c ∧ degree_answers c degs ∧
    degs !! (i mod DEGREES_PER_RECORD)%nat = Some d.
Proof.
  intros Hc Hi. destruct (chunk_of_node _ i d Hi) as (degs & Hd & Hoff). destruct (co_chunk _ _ _ Hc outgoing _ _ Hd) as (bytes & c & Hr & Hdec & Ha).
  exists c, degs. split_and!; [|done|done]. unfold read_degree_chunk. apply lookup_lt_Some in Hd. rewrite chunk_count in Hd.
  assert (length (if outgoing then out else inn) = length out) as E by (destruct outgoing; [done|apply Hc]). rewrite E in Hd.
  rewrite (proj2 (Nat.leb_gt _ _)) by lia. cbv zeta. rewrite Hr. cbn [mbind result_bind]. exact Hdec.
Qed.

(** The column of degrees reads as it was written.  The file of the degrees of all nodes
    opens, reading it whole gives both columns back, and reading only the chunk of a node gives
    that node's degree, whichever encoding each chunk was stored in. *)
Theorem node_degrees_exact out inn img blocks : Forall is_u32 out → Forall is_u32 inn →
  write_node_degrees zstd_encode_all random_nonce target_block_bytes opts cipher out inn = Ok (img, blocks) → 44 * blocks <= MAX_BLOCK_BYTES → fits img →
  ∃ r, open_blocks img cipher = Ok r ∧ read_node_degrees zstd_decode r (length out) = Ok (out, inn) ∧
    ∀ (outgoing : bool) i d, (if outgoing then out else inn) !! i = Some d →
      (c ← read_degree_chunk zstd_decode r (records_per_half (length out)) outgoing (i / DEGREES_PER_RECORD); degree_at c (i mod DEGREES_PER_RECORD)) = Ok (Some d).
Proof.
  intros Ho Hi Hw Hsz Hfits. destruct (written_column out inn img blocks Ho Hi Hw Hsz Hfits) as (r & Hopen & Hc). exists r. split; [done|]. split.
  - unfold read_node_degrees. rewrite (co_total _ _ _ Hc), Z.eqb_refl, Nat2Z.id. cbn [negb].
    pose proof (degrees_loop_read r out inn (records_per_half (length out) * 2) 0 Hc eq_refl) as E. rewrite Nat.sub_0_l, !take_0 in E. cbn [concat] in E. rewrite E. cbn [mbind result_bind].
    by rewrite (co_same _ _ _ Hc), Nat.eqb_refl.
  - intros outgoing i d Hd. destruct (degree_chunk_read r out inn outgoing i d Hc Hd) as (c & degs & -> & Ha & Hoff). cbn [mbind result_bind].
    by rewrite (degree_answers_at c degs _ Ha), Hoff.
Qed.
End exact.

#[local] Existing Instance toy_crypto.
#[local] Existing Instance toy_crypto_laws.

Definition example_out : list Z := [3; 0; 70000; 4294967295].
Definition example_in : list Z := [1; 1; 1; 1].
Definition example_degrees : bytes * Z :=
  match write_node_degrees stored_encode example_block_nonces 3 default_opts example_block_key example_out example_in with Ok o => o | Err _ => ([], 0) end.

Lemma example_degrees_run :
  write_node_degrees stored_encode example_block_nonces 3 default_opts example_block_key example_out example_in = Ok (example_degrees.1, example_degrees.2).
Proof. vm_compute. reflexivity. Qed.

