(* ===== verification/DegreeColumn.v ===== *)
(** The resident column of degrees, of [slater/src/degree_column.rs]: chunks of the file that are
    faulted in when they are first read, kept within a budget, and freed when they are idle.

    The slots of a direction are behind a lock, the stamps and reference bits beside them are
    atomics.  [Action]s are the sections under a lock and the single accesses outside one, of
    whatever thread; a call is a sequence of them. *)

From S2P Require Import Prelude Values Wire Crypto BlockCodec Bits EliasFano RunLength BitPacked Plane DegreeEf Isam BlockFile BlockRead BlockExact NodeDegree.

Definition DEFAULT_BUDGET_BYTES : Z := 256 * 1024 * 1024.

Inductive DegreeResidency := Lazy | Pinned.
Definition is_pinned (r : DegreeResidency) : bool := match r with Pinned => true | Lazy => false end.

Record Half := mkHalf { slots : list (option DegreeChunk); last_used : list Z; referenced : list bool }.

Definition half_new (chunks : nat) : Half := mkHalf (replicate chunks None) (replicate chunks 0) (replicate chunks false).

(** The clock counts from the opening of the column.  The count of resident bytes is of memory in
    use, so it does not wrap. *)
Record DegreeColumn := mkColumn {
  reader : BlockFileReader;
  node_count : nat;
  per_half : nat;
  out : Half;
  in_ : Half;
  residency : DegreeResidency;
  budget_bytes : Z;
  resident_bytes : Z;
}.

Definition half_of (col : DegreeColumn) (outgoing : bool) : Half := if outgoing then out col else in_ col.
Definition with_half (outgoing : bool) (h : Half) (resident : Z) (col : DegreeColumn) : DegreeColumn :=
  mkColumn (reader col) (node_count col) (per_half col) (if outgoing then h else out col) (if outgoing then in_ col else h)
    (residency col) (budget_bytes col) resident.

Definition with_slot (c : nat) (s : option DegreeChunk) (h : Half) : Half := mkHalf (<[c := s]> (slots h)) (last_used h) (referenced h).
Definition with_stamp (c : nat) (t : Z) (h : Half) : Half := mkHalf (slots h) (<[c := t]> (last_used h)) (referenced h).
Definition with_bit (c : nat) (b : bool) (h : Half) : Half := mkHalf (slots h) (last_used h) (<[c := b]> (referenced h)).

Definition index {A} (l : list A) (c : nat) : result A := match l !! c with Some a => Ok a | None => Err (Panic "index out of bounds") end.

(** [DegreeChunk::resident_bytes]. *)
Definition chunk_bytes (d : DegreeChunk) : Z := match d with DEf e => ef_resident_bytes e | DRle r => rle_resident_bytes 4 r end.

(** The subtraction saturates, and an assertion of the debug build fails when it would. *)
Definition debit_resident (counter bytes : Z) : result Z :=
  if counter <? bytes then Err (Panic "degree-column resident-byte underflow") else Ok (counter - bytes).

(** * Sections *)

Definition read_slot (outgoing : bool) (c : nat) (col : DegreeColumn) : result (option DegreeChunk) := index (slots (half_of col outgoing)) c.

(** Under the write lock: the chunk another thread has stored since, or else this one. *)
Definition store_chunk (outgoing : bool) (c : nat) (decoded : DegreeChunk) (col : DegreeColumn) : result (option DegreeChunk * DegreeColumn) :=
  slot ← read_slot outgoing c col;
  match slot with
  | Some hit => Ok (Some hit, col)
  | None => Ok (None, with_half outgoing (with_slot c (Some decoded) (half_of col outgoing)) (resident_bytes col + chunk_bytes decoded) col)
  end.

Definition stamp (outgoing : bool) (c : nat) (now : Z) (col : DegreeColumn) : result DegreeColumn :=
  _ ← index (last_used (half_of col outgoing)) c;
  Ok (with_half outgoing (with_stamp c now (half_of col outgoing)) (resident_bytes col) col).

Definition mark (outgoing : bool) (c : nat) (col : DegreeColumn) : result DegreeColumn :=
  _ ← index (referenced (half_of col outgoing)) c;
  Ok (with_half outgoing (with_bit c true (half_of col outgoing)) (resident_bytes col) col).

(** [swap(false)]. *)
Definition clear_bit (outgoing : bool) (c : nat) (col : DegreeColumn) : result (bool * DegreeColumn) :=
  b ← index (referenced (half_of col outgoing)) c;
  Ok (b, with_half outgoing (with_bit c false (half_of col outgoing)) (resident_bytes col) col).

Definition evict_chunk (outgoing : bool) (c : nat) (col : DegreeColumn) : result DegreeColumn :=
  slot ← read_slot outgoing c col;
  match slot with
  | Some chunk =>
      resident ← debit_resident (resident_bytes col) (chunk_bytes chunk);
      Ok (with_half outgoing (with_slot c None (half_of col outgoing)) resident col)
  | None => Ok col
  end.

(** One slot of the idle sweep; whether it was freed. *)
Definition sweep_chunk (now ttl : Z) (outgoing : bool) (c : nat) (col : DegreeColumn) : result (bool * DegreeColumn) :=
  slot ← read_slot outgoing c col;
  match slot with
  | None => Ok (false, col)
  | Some _ =>
      '(b, col) ← clear_bit outgoing c col;
      if b : bool then col ← stamp outgoing c now col; Ok (false, col) else
      last ← index (last_used (half_of col outgoing)) c;
      if ttl <? Z.max 0 (now - last) then col ← evict_chunk outgoing c col; Ok (true, col) else Ok (false, col)
  end.

(** * Calls *)

Fixpoint sweep_half (now ttl : Z) (outgoing : bool) (cs : list nat) (freed : Z) (col : DegreeColumn) : result (Z * DegreeColumn) :=
  match cs with
  | [] => Ok (freed, col)
  | c :: cs =>
      '(b, col) ← sweep_chunk now ttl outgoing c col;
      sweep_half now ttl outgoing cs (if b : bool then freed + 1 else freed) col
  end.

Definition evict_expired (now ttl : Z) (col : DegreeColumn) : result (Z * DegreeColumn) :=
  if is_pinned (residency col) then Ok (0, col) else
  '(freed, col) ← sweep_half now ttl true (seq 0 (length (slots (out col)))) 0 col;
  sweep_half now ttl false (seq 0 (length (slots (in_ col)))) freed col.

(** The resident chunks but the protected one, coldest first; a stamp per slot is there. *)
Definition colder (a b : Z * (bool * nat)) : Prop := a.1 <= b.1.

#[export] Instance colder_dec a b : Decision (colder a b).
Proof. unfold colder. apply _. Defined.

Definition half_candidates (protect_outgoing : bool) (protect_chunk : nat) (outgoing : bool) (h : Half) : list (Z * (bool * nat)) :=
  concat (imap (λ c slot,
    match slot with
    | Some _ => if (Bool.eqb outgoing protect_outgoing) && (c =? protect_chunk)%nat then [] else [(nth c (last_used h) 0, (outgoing, c))]
    | None => []
    end) (slots h)).

Definition candidates (protect_outgoing : bool) (protect_chunk : nat) (col : DegreeColumn) : list (Z * (bool * nat)) :=
  merge_sort colder
    (half_candidates protect_outgoing protect_chunk true (out col) ++ half_candidates protect_outgoing protect_chunk false (in_ col)).

Definition within_budget (col : DegreeColumn) : bool := resident_bytes col <=? budget_bytes col.

(** The chunks spared, unless the bytes were back within the budget before the end. *)
Fixpoint first_pass (cands : list (bool * nat)) (spared : list (bool * nat)) (col : DegreeColumn) : result (option (list (bool * nat)) * DegreeColumn) :=
  match cands with
  | [] => Ok (Some spared, col)
  | (outgoing, c) :: cands =>
      if within_budget col then Ok (None, col) else
      '(b, col) ← clear_bit outgoing c col;
      if b : bool then first_pass cands (spared ++ [(outgoing, c)]) col else
      col ← evict_chunk outgoing c col;
      first_pass cands spared col
  end.

Fixpoint second_pass (spared : list (bool * nat)) (col : DegreeColumn) : result DegreeColumn :=
  match spared with
  | [] => Ok col
  | (outgoing, c) :: spared =>
      if within_budget col then Ok col else
      col ← evict_chunk outgoing c col;
      second_pass spared col
  end.

Definition enforce_budget (protect_outgoing : bool) (protect_chunk : nat) (col : DegreeColumn) : result DegreeColumn :=
  if (budget_bytes col =? 0) || is_pinned (residency col) then Ok col else
  if within_budget col then Ok col else
  '(spared, col) ← first_pass (map snd (candidates protect_outgoing protect_chunk col)) [] col;
  match spared with
  | Some spared => second_pass spared col
  | None => Ok col
  end.

Section column.
Context {crypto : Crypto}.
Variable zstd_decode : bytes → list bytes * bool.

Local Abbreviation fault col outgoing c := (read_degree_chunk zstd_decode (reader col) (per_half col) outgoing c) (only parsing).

(** A fault that fails is logged, and the caller reads the degree elsewhere. *)
Definition chunk (now : Z) (outgoing : bool) (c : nat) (col : DegreeColumn) : result (option DegreeChunk * DegreeColumn) :=
  slot ← read_slot outgoing c col;
  match slot with
  | Some hit => Ok (Some hit, col)
  | None =>
      match fault col outgoing c with
      | Err _ => Ok (None, col)
      | Ok decoded =>
          '(winner, col) ← store_chunk outgoing c decoded col;
          match winner with
          | Some hit => Ok (Some hit, col)
          | None =>
              col ← stamp outgoing c now col;
              col ← mark outgoing c col;
              col ← enforce_budget outgoing c col;
              Ok (Some decoded, col)
          end
      end
  end.

Definition degree (now : Z) (node : nat) (outgoing : bool) (col : DegreeColumn) : result (option Z * DegreeColumn) :=
  if (node_count col <=? node)%nat then Ok (None, col) else
  let c := (node / DEGREES_PER_RECORD)%nat in
  '(decoded, col) ← chunk now outgoing c col;
  match decoded with
  | None => Ok (None, col)
  | Some decoded =>
      col ← mark outgoing c col;
      d ← degree_at decoded (node mod DEGREES_PER_RECORD);
      Ok (d, col)
  end.

Definition out_degree (now : Z) (node : nat) (col : DegreeColumn) : result (option Z * DegreeColumn) := degree now node true col.
Definition in_degree (now : Z) (node : nat) (col : DegreeColumn) : result (option Z * DegreeColumn) := degree now node false col.

Fixpoint prefault (outgoing : bool) (cs : list nat) (col : DegreeColumn) : result DegreeColumn :=
  match cs with
  | [] => Ok col
  | c :: cs =>
      decoded ← fault col outgoing c;
      _ ← read_slot outgoing c col;
      prefault outgoing cs (with_half outgoing (with_slot c (Some decoded) (half_of col outgoing)) (resident_bytes col + chunk_bytes decoded) col)
  end.

Definition prefault_all (col : DegreeColumn) : result DegreeColumn :=
  col ← prefault true (seq 0 (per_half col)) col;
  prefault false (seq 0 (per_half col)) col.

Definition column_open (r : BlockFileReader) (node_count : nat) (residency : DegreeResidency) (budget_bytes : Z) : result DegreeColumn :=
  let per_half := records_per_half node_count in
  if negb (total_records r =? Z.of_nat (per_half * 2)) then Err (Bail "node_degrees.blk: unexpected number of records") else
  let col := mkColumn r node_count per_half (half_new per_half) (half_new per_half) residency budget_bytes 0 in
  if is_pinned residency then prefault_all col else Ok col.

Definition resident_chunks (col : DegreeColumn) : nat := length (filter is_Some (slots (out col))) + length (filter is_Some (slots (in_ col))).
End column.

(** * Interleavings *)

(** What a thread does between two moments at which others may act. *)
Inductive Action :=
  | Hit (outgoing : bool) (c : nat)
  | Fault (outgoing : bool) (c : nat)
  | Stamp (outgoing : bool) (c : nat) (now : Z)
  | Mark (outgoing : bool) (c : nat)
  | Clear (outgoing : bool) (c : nat)
  | Evict (outgoing : bool) (c : nat)
  | Sweep (outgoing : bool) (c : nat) (now ttl : Z).

Definition action_chunk (a : Action) : bool * nat :=
  match a with Hit o c | Fault o c | Stamp o c _ | Mark o c | Clear o c | Evict o c | Sweep o c _ _ => (o, c) end.

Section run.
Context {crypto : Crypto}.
Variable zstd_decode : bytes → list bytes * bool.

(** The chunk an action gives its thread.  A chunk is decoded off the lock, and the file does not
    change, so when it was decoded does not matter. *)
Definition act (a : Action) (col : DegreeColumn) : result (option DegreeChunk * DegreeColumn) :=
  match a with
  | Hit outgoing c => slot ← read_slot outgoing c col; Ok (slot, col)
  | Fault outgoing c =>
      match read_degree_chunk zstd_decode (reader col) (per_half col) outgoing c with
      | Err _ => Ok (None, col)
      | Ok decoded =>
          '(winner, col) ← store_chunk outgoing c decoded col;
          Ok (match winner with Some hit => Some hit | None => Some decoded end, col)
      end
  | Stamp outgoing c now => col ← stamp outgoing c now col; Ok (None, col)
  | Mark outgoing c => col ← mark outgoing c col; Ok (None, col)
  | Clear outgoing c => '(_, col) ← clear_bit outgoing c col; Ok (None, col)
  | Evict outgoing c =>
      if (budget_bytes col =? 0) || is_pinned (residency col) then Ok (None, col) else
      col ← evict_chunk outgoing c col; Ok (None, col)
  | Sweep outgoing c now ttl =>
      if is_pinned (residency col) then Ok (None, col) else
      '(_, col) ← sweep_chunk now ttl outgoing c col; Ok (None, col)
  end.

Fixpoint run (actions : list Action) (col : DegreeColumn) : result (list (option DegreeChunk) * DegreeColumn) :=
  match actions with
  | [] => Ok ([], col)
  | a :: actions =>
      '(got, col) ← act a col;
      '(gots, col) ← run actions col;
      Ok (got :: gots, col)
  end.
End run.

(** * Bytes *)

Definition slot_bytes (s : option DegreeChunk) : Z := match s with Some d => chunk_bytes d | None => 0 end.
Definition slots_bytes (l : list (option DegreeChunk)) : Z := foldr (λ s n, slot_bytes s + n) 0 l.
Definition footprint (col : DegreeColumn) : Z := slots_bytes (slots (out col)) + slots_bytes (slots (in_ col)).

Lemma slot_bytes_nonneg s : 0 <= slot_bytes s.
Proof.
  destruct s as [[e|r]|]; cbn; [unfold ef_resident_bytes|unfold rle_resident_bytes|lia];
    repeat match goal with |- context [zlen ?l] => lazymatch goal with H : 0 <= zlen l |- _ => fail | _ => pose proof (zlen_nonneg l) end end; lia.
Qed.

Lemma slots_bytes_cons s l : slots_bytes (s :: l) = slot_bytes s + slots_bytes l.
Proof. done. Qed.

Lemma slots_bytes_nonneg l : 0 <= slots_bytes l.
Proof. induction l as [|s l IH]; [done|]. rewrite slots_bytes_cons. pose proof (slot_bytes_nonneg s). lia. Qed.

Lemma slots_bytes_insert l c s s' : l !! c = Some s → slots_bytes (<[c := s']> l) = slots_bytes l - slot_bytes s + slot_bytes s'.
Proof.
  revert c. induction l as [|x l IH]; intros [|c] H; [done|done| |].
  - injection H as ->. change (<[0%nat := s']> (s :: l)) with (s' :: l). rewrite !slots_bytes_cons. lia.
  - change (<[S c := s']> (x :: l)) with (x :: <[c := s']> l). rewrite !slots_bytes_cons. specialize (IH c H). lia.
Qed.

Lemma slots_bytes_none l : (∀ c s, l !! c = Some s → s = None) → slots_bytes l = 0.
Proof. intros Ha. induction l as [|y l IHl]; [done|]. rewrite slots_bytes_cons, (Ha 0%nat y eq_refl), IHl; [done|]. intros c s Hc. by apply (Ha (S c)). Qed.

Lemma slots_bytes_only l c s : (∀ c' s', l !! c' = Some s' → c' ≠ c → s' = None) → l !! c = Some s → slots_bytes l = slot_bytes s.
Proof.
  intros Hn H. pose proof (slots_bytes_insert l c s None H) as E. rewrite (slots_bytes_none (<[c := None]> l)) in E; [cbn in E; lia|].
  intros c' s' Hc. apply list_lookup_insert_Some in Hc as [(<- & -> & _)|[Hne Hc]]; [done|]. by apply (Hn c').
Qed.

Lemma slots_bytes_empty n : slots_bytes (replicate n None) = 0.
Proof. apply slots_bytes_none. by intros c s [-> _]%lookup_replicate. Qed.

(** * What every action keeps *)

Lemma half_with o h res col o' : half_of (with_half o h res col) o' = if Bool.eqb o o' then h else half_of col o'.
Proof. by destruct o, o'. Qed.

Lemma footprint_with o h res col : footprint (with_half o h res col) = footprint col - slots_bytes (slots (half_of col o)) + slots_bytes (slots h).
Proof. unfold footprint. destruct o; cbn; lia. Qed.

(** The settings of a column do not change. *)
Definition same_settings (col col' : DegreeColumn) : Prop :=
  reader col' = reader col ∧ node_count col' = node_count col ∧ per_half col' = per_half col ∧ residency col' = residency col ∧ budget_bytes col' = budget_bytes col.

(** Slots are only emptied. *)
Definition shrinks (col col' : DegreeColumn) : Prop :=
  same_settings col col' ∧ ∀ o c s, slots (half_of col' o) !! c = Some s → s = None ∨ slots (half_of col o) !! c = Some s.

Definition slot_of (col : DegreeColumn) (k : bool * nat) : option (option DegreeChunk) := slots (half_of col k.1) !! k.2.

#[export] Instance same_settings_trans : PreOrder same_settings.
Proof. split; [by intros ?|]. unfold same_settings. intros a b c ? ?. intuition congruence. Qed.

#[export] Instance shrinks_trans : PreOrder shrinks.
Proof.
  split; [intros col; split; [done|by right]|]. intros a b c [S1 H1] [S2 H2]. split; [by etrans|]. intros o i s Hs.
  destruct (H2 o i s Hs) as [->|Hb]; [by left|]. by apply H1.
Qed.

Section kept.
Context {crypto : Crypto}.
Variable zstd_decode : bytes → list bytes * bool.
Variables (r : BlockFileReader) (outs inns : list Z).
Local Abbreviation per := (records_per_half (length outs)).

Definition file_chunk (o : bool) (c : nat) (d : DegreeChunk) : Prop := read_degree_chunk zstd_decode r per o c = Ok d.

Record column_ok (col : DegreeColumn) : Prop := {
  ok_reader : reader col = r;
  ok_nodes : node_count col = length outs;
  ok_per : per_half col = per;
  ok_len o : length (slots (half_of col o)) = per ∧ length (last_used (half_of col o)) = per ∧ length (referenced (half_of col o)) = per;
  ok_slot o c d : slots (half_of col o) !! c = Some (Some d) → file_chunk o c d;
  ok_bytes : resident_bytes col = footprint col;
  ok_pinned : residency col = Pinned → ∀ o c s, slots (half_of col o) !! c = Some s → is_Some s;
}.

Lemma half_update_ok col o h res : column_ok col → length (slots h) = per ∧ length (last_used h) = per ∧ length (referenced h) = per →
  (∀ c d, slots h !! c = Some (Some d) → file_chunk o c d) → res = resident_bytes col - slots_bytes (slots (half_of col o)) + slots_bytes (slots h) →
  (residency col = Pinned → ∀ c s, slots h !! c = Some s → is_Some s) → column_ok (with_half o h res col).
Proof.
  intros Hok Hlen Hs Hres Hp. split; try apply Hok.
  - intros o'. rewrite half_with. destruct (Bool.eqb o o'); [done|apply Hok].
  - intros o' c d. rewrite half_with. destruct (Bool.eqb_spec o o') as [<-|]; [apply Hs|apply Hok].
  - rewrite footprint_with. cbn. rewrite Hres, (ok_bytes _ Hok). lia.
  - intros Hpin o' c s. rewrite half_with. destruct (Bool.eqb_spec o o') as [<-|]; [by apply Hp|by apply Hok].
Qed.

Lemma index_ok {A} (l : list A) c : (c < length l)%nat → ∃ a, index l c = Ok a ∧ l !! c = Some a.
Proof. intros [a Ha]%lookup_lt_is_Some_2. exists a. split; [unfold index; by rewrite Ha|done]. Qed.

(** Stamps and bits. *)
Lemma beside_ok col o h : column_ok col → slots h = slots (half_of col o) → length (last_used h) = per → length (referenced h) = per →
  column_ok (with_half o h (resident_bytes col) col) ∧ shrinks col (with_half o h (resident_bytes col) col) ∧
  ∀ k, slot_of (with_half o h (resident_bytes col) col) k = slot_of col k.
Proof.
  intros Hok Hs Hl Hr. assert (∀ k, slot_of (with_half o h (resident_bytes col) col) k = slot_of col k) as Hk.
  { intros [o' c]. unfold slot_of. cbn [fst snd]. rewrite half_with. by destruct (Bool.eqb_spec o o') as [<-|]; [rewrite Hs|]. }
  split_and!; [|split; [done|]|done].
  - apply half_update_ok; [done|rewrite Hs; split_and!; [apply Hok|done..]| | |]; rewrite Hs; [apply Hok|lia|intros Hp; by apply Hok].
  - intros o' c s Hc. specialize (Hk (o', c)). unfold slot_of in Hk. cbn [fst snd] in Hk. right. by rewrite <- Hk.
Qed.

Lemma stamp_ok col o c now : column_ok col → (c < per)%nat → ∃ col', stamp o c now col = Ok col' ∧ column_ok col' ∧ shrinks col col' ∧ ∀ k, slot_of col' k = slot_of col k.
Proof.
  intros Hok Hc. destruct (ok_len _ Hok o) as (_ & Hl & Hr). unfold stamp. destruct (index_ok (last_used (half_of col o)) c) as (a & -> & _); [lia|]. cbn [mbind result_bind].
  eexists. split; [done|]. by apply beside_ok; [|done|cbn; rewrite length_insert|].
Qed.

Lemma mark_ok col o c : column_ok col → (c < per)%nat → ∃ col', mark o c col = Ok col' ∧ column_ok col' ∧ shrinks col col' ∧ ∀ k, slot_of col' k = slot_of col k.
Proof.
  intros Hok Hc. destruct (ok_len _ Hok o) as (_ & Hl & Hr). unfold mark. destruct (index_ok (referenced (half_of col o)) c) as (a & -> & _); [lia|]. cbn [mbind result_bind].
  eexists. split; [done|]. by apply beside_ok; [| | |cbn; rewrite length_insert].
Qed.

Lemma clear_ok col o c : column_ok col → (c < per)%nat → ∃ b col', clear_bit o c col = Ok (b, col') ∧ column_ok col' ∧ shrinks col col' ∧ ∀ k, slot_of col' k = slot_of col k.
Proof.
  intros Hok Hc. destruct (ok_len _ Hok o) as (_ & Hl & Hr). unfold clear_bit. destruct (index_ok (referenced (half_of col o)) c) as (a & -> & _); [lia|]. cbn [mbind result_bind].
  eexists _, _. split; [done|]. by apply beside_ok; [| | |cbn; rewrite length_insert].
Qed.

(** A slot changes, and the count of bytes with it. *)
Lemma slot_ok col o c old new res : column_ok col → slot_of col (o, c) = Some old → (∀ d, new = Some d → file_chunk o c d) →
  res = resident_bytes col - slot_bytes old + slot_bytes new → (residency col = Pinned → is_Some new) →
  let col' := with_half o (with_slot c new (half_of col o)) res col in
  column_ok col' ∧ slot_of col' (o, c) = Some new ∧ ∀ k, k ≠ (o, c) → slot_of col' k = slot_of col k.
Proof.
  intros Hok Hold Hnew Hres Hp col'. unfold slot_of in *. cbn [fst snd] in *. pose proof (lookup_lt_Some _ _ _ Hold) as Hlt. split_and!.
  - apply half_update_ok; [done|split_and!; [cbn; rewrite length_insert|..]; apply Hok| | |]; cbn [slots with_slot].
    + intros c' d [(<- & -> & _)|[_ H]]%list_lookup_insert_Some; [by apply Hnew|by apply Hok].
    + rewrite (slots_bytes_insert _ _ _ _ Hold). lia.
    + intros Hpin c' s [(<- & -> & _)|[_ H]]%list_lookup_insert_Some; [by apply Hp|by eapply ok_pinned].
  - unfold col'. rewrite half_with, Bool.eqb_reflx. cbn. by apply list_lookup_insert_eq.
  - intros [o' c'] Hk. cbn [fst snd]. unfold col'. rewrite half_with. destruct (Bool.eqb_spec o o') as [<-|]; [|done]. cbn. apply list_lookup_insert_ne. congruence.
Qed.

Lemma slot_there col o c : column_ok col → (c < per)%nat → ∃ s, read_slot o c col = Ok s ∧ slot_of col (o, c) = Some s.
Proof. intros Hok Hc. destruct (ok_len _ Hok o) as (Hl & _). destruct (index_ok (slots (half_of col o)) c) as (s & E & Hs); [lia|]. by exists s. Qed.

Lemma slot_within col o c s : column_ok col → slot_of col (o, c) = Some s → slot_bytes s <= resident_bytes col.
Proof.
  intros Hok Hs. unfold slot_of in Hs. cbn in Hs. rewrite (ok_bytes _ Hok). pose proof (slots_bytes_insert _ c s None Hs) as E. cbn [slot_bytes] in E.
  pose proof (slots_bytes_nonneg (<[c := None]> (slots (half_of col o)))). unfold footprint.
  pose proof (slots_bytes_nonneg (slots (out col))). pose proof (slots_bytes_nonneg (slots (in_ col))). destruct o; cbn in *; lia.
Qed.

Lemma store_ok col o c d : column_ok col → (c < per)%nat → file_chunk o c d → ∃ winner col', store_chunk o c d col = Ok (winner, col') ∧ column_ok col' ∧
  same_settings col col' ∧ slot_of col' (o, c) = Some (Some d) ∧ (∀ k, k ≠ (o, c) → slot_of col' k = slot_of col k) ∧
  match winner with Some hit => hit = d ∧ col' = col | None => slot_of col (o, c) = Some None end.
Proof.
  intros Hok Hc Hd. destruct (slot_there col o c Hok Hc) as (s & Hr & Hs). unfold store_chunk. rewrite Hr. cbn [mbind result_bind]. destruct s as [hit|].
  - exists (Some hit), col. assert (hit = d) as -> by (pose proof (ok_slot _ Hok o c hit Hs) as H; unfold file_chunk in *; congruence). by split_and!.
  - destruct (slot_ok col o c None (Some d) (resident_bytes col + chunk_bytes d) Hok Hs) as (H1 & H2 & H3); [by intros ? [= <-]|cbn; lia|by eexists|].
    eexists None, _. split; [done|]. by split_and!.
Qed.

Lemma evict_chunk_ok col o c : column_ok col → (c < per)%nat → residency col = Lazy → ∃ col', evict_chunk o c col = Ok col' ∧ column_ok col' ∧ shrinks col col' ∧
  slot_of col' (o, c) = Some None ∧ ∀ k, k ≠ (o, c) → slot_of col' k = slot_of col k.
Proof.
  intros Hok Hc Hlazy. destruct (slot_there col o c Hok Hc) as (s & Hr & Hs). unfold evict_chunk. rewrite Hr. cbn [mbind result_bind]. destruct s as [d|]; [|by exists col].
  pose proof (slot_within col o c (Some d) Hok Hs) as Hle. cbn [slot_bytes] in Hle. unfold debit_resident. rewrite (proj2 (Z.ltb_ge _ _)) by done. cbn [mbind result_bind].
  destruct (slot_ok col o c (Some d) None (resident_bytes col - chunk_bytes d) Hok Hs) as (H1 & H2 & H3); [done|cbn; lia|by rewrite Hlazy|].
  eexists. split; [done|]. split_and!; [done| |done|done]. split; [done|]. intros o' c' s' Hs'. destruct (decide ((o', c') = (o, c))) as [[= -> ->]|Hne].
  - left. unfold slot_of in H2. cbn [fst snd] in H2. congruence.
  - right. specialize (H3 _ Hne). unfold slot_of in H3. cbn [fst snd] in H3. congruence.
Qed.

Lemma sweep_ok col o c now ttl : column_ok col → (c < per)%nat → residency col = Lazy → ∃ b col', sweep_chunk now ttl o c col = Ok (b, col') ∧ column_ok col' ∧ shrinks col col'.
Proof.
  intros Hok Hc Hlazy. destruct (slot_there col o c Hok Hc) as (s & Hr & Hs). unfold sweep_chunk. rewrite Hr. cbn [mbind result_bind]. destruct s as [d|]; [|by exists false, col].
  destruct (clear_ok col o c Hok Hc) as (b & col1 & -> & Hok1 & Hsh1 & _). cbn [mbind result_bind]. destruct b.
  - destruct (stamp_ok col1 o c now Hok1 Hc) as (col2 & -> & Hok2 & Hsh2 & _). cbn [mbind result_bind]. eexists _, _. split_and!; [done|done|by etrans].
  - destruct (index_ok (last_used (half_of col1 o)) c) as (a & -> & _); [by destruct (ok_len _ Hok1 o) as (_ & -> & _)|]. cbn [mbind result_bind].
    destruct (_ <? _); [|by eexists _, _].
    destruct (evict_chunk_ok col1 o c Hok1 Hc) as (col2 & -> & Hok2 & Hsh2 & _); [destruct Hsh1 as [(_ & _ & _ & -> & _) _]; done|]. cbn [mbind result_bind].
    eexists _, _. split_and!; [done|done|by etrans].
Qed.

(** ** The budget *)

Lemma slot_in_range col o c s : column_ok col → slot_of col (o, c) = Some s → (c < per)%nat.
Proof. intros Hok Hs%lookup_lt_Some. cbn in Hs. by destruct (ok_len _ Hok o) as (<- & _). Qed.

Lemma stays_empty col col' k : column_ok col → column_ok col' → shrinks col col' → slot_of col k = Some None → slot_of col' k = Some None.
Proof.
  destruct k as [o c]. intros Hok Hok' [_ Hs] Hk. destruct (slot_there col' o c Hok') as (s & _ & Hs'); [by apply (slot_in_range col o c None)|].
  destruct (Hs o c s Hs') as [->|H]; [done|]. unfold slot_of in *. cbn [fst snd] in *. congruence.
Qed.

Lemma shrinks_lazy col col' : shrinks col col' → residency col = Lazy → residency col' = Lazy.
Proof. intros [(_ & _ & _ & -> & _) _]. done. Qed.

Lemma first_pass_ok cands spared col : column_ok col → residency col = Lazy → Forall (λ k, k.2 < per)%nat cands →
  ∃ res col', first_pass cands spared col = Ok (res, col') ∧ column_ok col' ∧ shrinks col col' ∧ (∀ k, k ∉ cands → slot_of col' k = slot_of col k) ∧
    match res with
    | None => within_budget col' = true
    | Some sp => spared ⊆ sp ∧ sp ⊆ spared ++ cands ∧ ∀ k, k ∈ cands → k ∈ sp ∨ slot_of col' k = Some None
    end.
Proof.
  revert spared col. induction cands as [|[o c] cands IH]; intros spared col Hok Hl Hc; cbn [first_pass].
  { eexists _, _. split; [done|]. split_and!; [done|done|done|done|by rewrite app_nil_r|]. by intros k ?%elem_of_nil. }
  apply Forall_cons in Hc as [Hc Hcs]. cbn [snd] in Hc. destruct (within_budget col) eqn:Ew; [by eexists _, _|].
  destruct (clear_ok col o c Hok Hc) as (b & col1 & -> & Hok1 & Hsh1 & Hsame1). cbn [mbind result_bind]. destruct b.
  - destruct (IH (spared ++ [(o, c)]) col1 Hok1 (shrinks_lazy _ _ Hsh1 Hl) Hcs) as (res & col' & -> & Hok' & Hsh' & Hother & Hres).
    eexists _, _. split; [done|]. split_and!; [done|by etrans| |].
    + intros k Hk. rewrite Hother by (intros ?; apply Hk; by right). apply Hsame1.
    + destruct res as [sp|]; [|done]. destruct Hres as (H1 & H2 & H3). split_and!; [set_solver|set_solver|]. intros k [->|Hk]%elem_of_cons; [left; apply H1; set_solver|by apply H3].
  - destruct (evict_chunk_ok col1 o c Hok1 Hc (shrinks_lazy _ _ Hsh1 Hl)) as (col2 & -> & Hok2 & Hsh2 & Hgone & Hsame2). cbn [mbind result_bind].
    assert (shrinks col col2) as Hsh by by etrans.
    destruct (IH spared col2 Hok2 (shrinks_lazy _ _ Hsh Hl) Hcs) as (res & col' & -> & Hok' & Hsh' & Hother & Hres).
    eexists _, _. split; [done|]. split_and!; [done|by etrans| |].
    + intros k Hk. rewrite Hother by (intros ?; apply Hk; by right). rewrite Hsame2 by (intros ->; apply Hk; by left). apply Hsame1.
    + destruct res as [sp|]; [|done]. destruct Hres as (H1 & H2 & H3). split_and!; [done|set_solver|]. intros k [->|Hk]%elem_of_cons; [|by apply H3].
      right. by apply (stays_empty col2).
Qed.

Lemma second_pass_ok spared col : column_ok col → residency col = Lazy → Forall (λ k, k.2 < per)%nat spared →
  ∃ col', second_pass spared col = Ok col' ∧ column_ok col' ∧ shrinks col col' ∧ (∀ k, k ∉ spared → slot_of col' k = slot_of col k) ∧
    (within_budget col' = true ∨ ∀ k, k ∈ spared → slot_of col' k = Some None).
Proof.
  revert col. induction spared as [|[o c] spared IH]; intros col Hok Hl Hc; cbn [second_pass].
  { exists col. split_and!; [done..|]. right. by intros k ?%elem_of_nil. }
  apply Forall_cons in Hc as [Hc Hcs]. cbn [snd] in Hc. destruct (within_budget col) eqn:Ew; [exists col; split_and!; [done..|by left]|].
  destruct (evict_chunk_ok col o c Hok Hc Hl) as (col1 & -> & Hok1 & Hsh1 & Hgone & Hsame). cbn [mbind result_bind].
  destruct (IH col1 Hok1 (shrinks_lazy _ _ Hsh1 Hl) Hcs) as (col' & -> & Hok' & Hsh' & Hother & Hres). exists col'. split_and!; [done|done|by etrans| |].
  - intros k Hk. rewrite Hother by (intros ?; apply Hk; by right). apply Hsame. intros ->. apply Hk. by left.
  - destruct Hres as [?|Hres]; [by left|]. right. intros k [->|Hk]%elem_of_cons; [by apply (stays_empty col1)|by apply Hres].
Qed.

Lemma elem_of_concat {A} (x : A) ls : x ∈ concat ls ↔ ∃ l, x ∈ l ∧ l ∈ ls.
Proof. rewrite list_elem_of_In, in_concat. setoid_rewrite list_elem_of_In. naive_solver. Qed.

Lemma half_candidates_spec po pc o h k : k ∈ map snd (half_candidates po pc o h) ↔ k.1 = o ∧ k ≠ (po, pc) ∧ ∃ d, slots h !! k.2 = Some (Some d).
Proof.
  unfold half_candidates. rewrite list_elem_of_In, in_map_iff. setoid_rewrite <- list_elem_of_In. split.
  - intros ([t k'] & Hk & (l & Hl & Hin)%elem_of_concat). cbn in Hk. subst k'. apply elem_of_lookup_imap in Hin as (c & s & -> & Hs).
    destruct s as [d|]; [|by apply elem_of_nil in Hl]. destruct (Bool.eqb_spec o po) as [->|Hne], (Nat.eqb_spec c pc) as [->|Hnc]; cbn [andb] in Hl;
      [by apply elem_of_nil in Hl|..]; apply list_elem_of_singleton in Hl as [= -> ->]; (split_and!; [done|congruence|by exists d]).
  - destruct k as [o' c]. cbn [fst snd]. intros (-> & Hne & d & Hd). eexists (_, (o, c)). split; [done|]. apply elem_of_concat. eexists. split; [|apply elem_of_lookup_imap; by exists c, (Some d)].
    cbn beta iota. destruct (Bool.eqb_spec o po) as [->|], (Nat.eqb_spec c pc) as [->|]; [done|cbn [andb]; by apply list_elem_of_singleton..].
Qed.

Lemma candidates_spec po pc col k : k ∈ map snd (candidates po pc col) ↔ k ≠ (po, pc) ∧ ∃ d, slot_of col k = Some (Some d).
Proof.
  unfold candidates. rewrite (merge_sort_Permutation colder), map_app, elem_of_app, !half_candidates_spec. unfold slot_of. destruct k as [o c]. cbn [fst snd]. destruct o; cbn; naive_solver.
Qed.

(** The budget is enforced on every chunk but the protected one. *)
Lemma enforce_ok po pc col : column_ok col → ∃ col', enforce_budget po pc col = Ok col' ∧ column_ok col' ∧ shrinks col col' ∧ slot_of col' (po, pc) = slot_of col (po, pc) ∧
  (residency col = Lazy → budget_bytes col ≠ 0 → within_budget col' = true ∨ ∀ k s, k ≠ (po, pc) → slot_of col' k = Some s → s = None).
Proof.
  intros Hok. unfold enforce_budget. destruct (Z.eqb_spec (budget_bytes col) 0) as [|Hb]; [by exists col|]. destruct (residency col) eqn:Hl; [|by exists col]. cbn [orb is_pinned].
  destruct (within_budget col) eqn:Ew; [exists col; split_and!; [done..|]; intros; by left|].
  set (cands := map snd (candidates po pc col)).
  assert (Forall (λ k, k.2 < per)%nat cands) as Hr.
  { apply Forall_forall. intros [o c] (_ & d & Hd)%candidates_spec. by apply (slot_in_range col o c (Some d)). }
  assert ((po, pc) ∉ cands) as Hp by by intros [? _]%candidates_spec.
  destruct (first_pass_ok cands [] col Hok Hl Hr) as (res & col1 & -> & Hok1 & Hsh1 & Ho1 & Hres). cbn [mbind result_bind]. destruct res as [sp|].
  2:{ exists col1. split_and!; [done|done|done|by apply Ho1|]. intros; by left. }
  destruct Hres as (_ & Hsub & Hall). destruct (second_pass_ok sp col1 Hok1 (shrinks_lazy _ _ Hsh1 Hl)) as (col2 & -> & Hok2 & Hsh2 & Ho2 & Hres).
  { apply Forall_forall. intros k Hk. rewrite Forall_forall in Hr. apply Hr. by apply Hsub in Hk. }
  exists col2. split_and!; [done|done|by etrans| |].
  - rewrite Ho2 by (by intros ?%Hsub). by apply Ho1.
  - intros _ _. destruct Hres as [?|Hempty]; [by left|]. right. intros k s Hk Hs. assert (slot_of col2 k = Some None) as E; [|congruence].
    destruct (slot_of col k) as [[d|]|] eqn:Es.
    + destruct (Hall k) as [Hin|Hgone]; [apply candidates_spec; eauto|by apply Hempty|by apply (stays_empty col1)].
    + apply (stays_empty col); [done|done|by etrans|done].
    + destruct k as [o c]. destruct (slot_there col o c Hok) as (s' & _ & H); [by apply (slot_in_range col2 o c s)|congruence].
Qed.

(** ** Actions and calls *)

Hypothesis Hfile : column_of zstd_decode r outs inns.

Local Abbreviation side o := (if o : bool then outs else inns).

(** A chunk of the column, as it is in the file. *)
Definition holds_chunk (k : bool * nat) (d : DegreeChunk) : Prop := ∃ degs, chunks DEGREES_PER_RECORD (side k.1) !! k.2 = Some degs ∧ degree_answers d degs.

Lemma file_chunk_there o c : (c < per)%nat → ∃ d, file_chunk o c d.
Proof.
  intros Hc. destruct (lookup_lt_is_Some_2 (chunks DEGREES_PER_RECORD (side o)) c) as [degs Hd].
  { rewrite chunk_count. destruct o; [done|]. by rewrite (co_same _ _ _ _ Hfile). }
  destruct (co_chunk _ _ _ _ Hfile o c degs Hd) as (bytes & d & Hr & Hdec & _). exists d. unfold file_chunk, read_degree_chunk.
  rewrite (proj2 (Nat.leb_gt _ _)) by done. cbv zeta. rewrite Hr. exact Hdec.
Qed.

Lemma file_chunk_holds o c d : file_chunk o c d → holds_chunk (o, c) d.
Proof.
  unfold file_chunk, read_degree_chunk. destruct (Nat.leb_spec per c) as [|Hc]; [done|]. cbv zeta. intros H.
  destruct (lookup_lt_is_Some_2 (chunks DEGREES_PER_RECORD (side o)) c) as [degs Hd].
  { rewrite chunk_count. destruct o; [done|]. by rewrite (co_same _ _ _ _ Hfile). }
  destruct (co_chunk _ _ _ _ Hfile o c degs Hd) as (bytes & d' & Hr & Hdec & Ha). rewrite Hr in H. cbn [mbind result_bind] in H.
  assert (d' = d) as -> by congruence. by exists degs.
Qed.

Lemma act_ok a col : column_ok col → ((action_chunk a).2 < per)%nat →
  ∃ got col', act zstd_decode a col = Ok (got, col') ∧ column_ok col' ∧ same_settings col col' ∧ ∀ d, got = Some d → holds_chunk (action_chunk a) d.
Proof.
  intros Hok Hc. destruct a as [o c|o c|o c now|o c|o c|o c|o c now ttl]; cbn [action_chunk snd act] in *.
  - destruct (slot_there col o c Hok Hc) as (s & -> & Hs). cbn [mbind result_bind]. eexists _, _. split_and!; [done..|]. intros d ->.
    apply file_chunk_holds. by apply (ok_slot _ Hok).
  - rewrite (ok_reader _ Hok), (ok_per _ Hok). destruct (file_chunk_there o c Hc) as (d & Hd). pose proof Hd as Hd'. unfold file_chunk in Hd'. rewrite Hd'.
    destruct (store_ok col o c d Hok Hc Hd) as (winner & col' & -> & Hok' & Hset & _ & _ & Hw). cbn [mbind result_bind]. eexists _, _. split_and!; [done..|].
    intros d' E. apply file_chunk_holds. destruct winner as [hit|]; [destruct Hw as [-> _]|]; by injection E as <-.
  - destruct (stamp_ok col o c now Hok Hc) as (col' & -> & Hok' & [Hset _] & _). by eexists _, _.
  - destruct (mark_ok col o c Hok Hc) as (col' & -> & Hok' & [Hset _] & _). by eexists _, _.
  - destruct (clear_ok col o c Hok Hc) as (b & col' & -> & Hok' & [Hset _] & _). by eexists _, _.
  - destruct (residency col) eqn:Hl; [|rewrite orb_true_r; by eexists _, _]. destruct (_ =? 0); [by eexists _, _|].
    destruct (evict_chunk_ok col o c Hok Hc Hl) as (col' & E & Hok' & [Hset _] & _). cbn [is_pinned orb]. rewrite E. by eexists _, _.
  - destruct (residency col) eqn:Hl; [|by eexists _, _]. cbn [is_pinned].
    destruct (sweep_ok col o c now ttl Hok Hc Hl) as (b & col' & -> & Hok' & [Hset _]). by eexists _, _.
Qed.

Lemma run_ok actions col : column_ok col → Forall (λ a, (action_chunk a).2 < per)%nat actions →
  ∃ gots col', run zstd_decode actions col = Ok (gots, col') ∧ column_ok col' ∧ same_settings col col' ∧
    Forall2 (λ a got, ∀ d, got = Some d → holds_chunk (action_chunk a) d) actions gots.
Proof.
  intros Hok Ha. revert col Hok. induction Ha as [|a actions Ha _ IH]; intros col Hok; cbn [run]; [by eexists _, _|].
  destruct (act_ok a col Hok Ha) as (got & col1 & -> & Hok1 & Hs1 & Hgot). cbn [mbind result_bind].
  destruct (IH col1 Hok1) as (gots & col2 & -> & Hok2 & Hs2 & Hgots). cbn [mbind result_bind]. eexists _, _. split_and!; [done|done|by etrans|by constructor].
Qed.

(** What the budget is worth after a lookup of a chunk: the bytes are within it, or the chunk is
    the only one. *)
Definition bounded_but (k : bool * nat) (col : DegreeColumn) : Prop :=
  residency col = Lazy → budget_bytes col ≠ 0 → resident_bytes col <= budget_bytes col ∨ ∀ k' s, k' ≠ k → slot_of col k' = Some s → s = None.

Lemma bounded_same k col col' : same_settings col col' → resident_bytes col' = resident_bytes col → (∀ k, slot_of col' k = slot_of col k) →
  bounded_but k col → bounded_but k col'.
Proof.
  intros (_ & _ & _ & Er & Eb) Hres Hs H. unfold bounded_but. rewrite Er, Eb, Hres. intros Hl Hb. destruct (H Hl Hb) as [?|Hn]; [by left|right].
  intros k' s. rewrite Hs. apply Hn.
Qed.

Lemma chunk_ok now o c col : column_ok col → (c < per)%nat →
  ∃ d col', chunk zstd_decode now o c col = Ok (Some d, col') ∧ column_ok col' ∧ same_settings col col' ∧ file_chunk o c d ∧ slot_of col' (o, c) = Some (Some d) ∧
    (slot_of col (o, c) = Some None → bounded_but (o, c) col').
Proof.
  intros Hok Hc. destruct (slot_there col o c Hok Hc) as (s & Hr & Hs). unfold chunk. rewrite Hr. cbn [mbind result_bind]. destruct s as [hit|].
  { exists hit, col. split_and!; [done..|by apply (ok_slot _ Hok)|done|by rewrite Hs]. }
  rewrite (ok_reader _ Hok), (ok_per _ Hok). destruct (file_chunk_there o c Hc) as (d & Hd). pose proof Hd as Hd'. unfold file_chunk in Hd'. rewrite Hd'.
  destruct (store_ok col o c d Hok Hc Hd) as (winner & col1 & -> & Hok1 & Hset1 & Hin & _ & Hw). cbn [mbind result_bind].
  destruct winner as [hit|]; [destruct Hw as [-> ->]; unfold slot_of in *; congruence|].
  destruct (stamp_ok col1 o c now Hok1 Hc) as (col2 & -> & Hok2 & [Hset2 _] & Hs2). cbn [mbind result_bind].
  destruct (mark_ok col2 o c Hok2 Hc) as (col3 & -> & Hok3 & [Hset3 _] & Hs3). cbn [mbind result_bind].
  destruct (enforce_ok o c col3 Hok3) as (col4 & -> & Hok4 & [Hset4 _] & Hs4 & Hb). cbn [mbind result_bind].
  exists d, col4. split_and!; [done|done|by do 3 (etrans; [done|])|done|by rewrite Hs4, Hs3, Hs2|]. intros _ Hl Hbb.
  destruct Hset4 as (_ & _ & _ & Er & Eb). rewrite Er in Hl. rewrite Eb in Hbb. destruct (Hb Hl Hbb) as [Hle|Hn]; [|by right]. left. by apply Z.leb_le.
Qed.

Lemma mark_bytes o c col col' : mark o c col = Ok col' → resident_bytes col' = resident_bytes col.
Proof. unfold mark. intros H. apply bind_Ok in H as (? & _ & [= <-]). done. Qed.

Lemma degree_in_chunk now o c off v degs col : column_ok col → chunks DEGREES_PER_RECORD (side o) !! c = Some degs → degs !! off = Some v →
  ∃ d col1 col', chunk zstd_decode now o c col = Ok (Some d, col1) ∧ mark o c col1 = Ok col' ∧ degree_at d off = Ok (Some v) ∧ column_ok col' ∧ same_settings col col' ∧
    (slot_of col (o, c) = Some None → bounded_but (o, c) col').
Proof.
  intros Hok Hd Hoff. assert (length (side o) = length outs) as Hlen by (destruct o; [done|apply (co_same _ _ _ _ Hfile)]).
  assert (c < per)%nat as Hc by (apply lookup_lt_Some in Hd; rewrite chunk_count, Hlen in Hd; done).
  destruct (chunk_ok now o c col Hok Hc) as (d & col1 & Hch & Hok1 & Hset1 & Hfd & Hin & Hb).
  destruct (mark_ok col1 o c Hok1 Hc) as (col2 & Hm & Hok2 & [Hset2 _] & Hs2). exists d, col1, col2.
  destruct (file_chunk_holds o c d Hfd) as (degs' & Hd' & Ha). change (chunks DEGREES_PER_RECORD (side o) !! c = Some degs') in Hd'. rewrite Hd in Hd'. injection Hd' as <-.
  split_and!; [done|done|by rewrite (degree_answers_at d degs _ Ha), Hoff|done|by etrans|].
  intros Hnone. apply (bounded_same _ col1); [done|by apply (mark_bytes o c)|done|by apply Hb].
Qed.

Lemma degree_ok now node o col : column_ok col →
  ∃ col', degree zstd_decode now node o col = Ok (side o !! node, col') ∧ column_ok col' ∧ same_settings col col' ∧
    (slot_of col (o, (node / DEGREES_PER_RECORD)%nat) = Some None → (node < length outs)%nat → bounded_but (o, (node / DEGREES_PER_RECORD)%nat) col').
Proof.
  intros Hok. assert (length (side o) = length outs) as Hlen by (destruct o; [done|apply (co_same _ _ _ _ Hfile)]).
  unfold degree. rewrite (ok_nodes _ Hok). destruct (Nat.leb_spec (length outs) node) as [Hge|Hlt].
  { exists col. rewrite lookup_ge_None_2 by lia. split; [reflexivity|]. split; [exact Hok|]. split; [reflexivity|]. intros _ Hl. exfalso. lia. }
  destruct (lookup_lt_is_Some_2 (side o) node) as [v Hv]; [lia|]. destruct (chunk_of_node (side o) node v Hv) as (degs & Hd & Hoff). cbv zeta.
  destruct (degree_in_chunk now o _ _ v degs col Hok Hd Hoff) as (d & col1 & col' & -> & Hm & Hat & Hok' & Hset & Hb). cbn [mbind result_bind]. rewrite Hm. cbn [mbind result_bind].
  rewrite Hat, Hv. cbn [mbind result_bind]. exists col'. split; [reflexivity|]. split; [exact Hok'|]. split; [exact Hset|]. intros Hn _. exact (Hb Hn).
Qed.

(** ** Opening *)

(** While a pinned column is filled, it is as a lazy one. *)
Definition as_lazy (col : DegreeColumn) : DegreeColumn :=
  mkColumn (reader col) (node_count col) (per_half col) (out col) (in_ col) Lazy (budget_bytes col) (resident_bytes col).

Lemma prefault_ok o cs col : column_ok (as_lazy col) → NoDup cs → (∀ c, c ∈ cs → (c < per)%nat ∧ slot_of col (o, c) = Some None) →
  ∃ col', prefault zstd_decode o cs col = Ok col' ∧ column_ok (as_lazy col') ∧ same_settings col col' ∧
    (∀ c, c ∈ cs → ∃ d, slot_of col' (o, c) = Some (Some d)) ∧ ∀ k, k.1 ≠ o ∨ k.2 ∉ cs → slot_of col' k = slot_of col k.
Proof.
  intros Hok Hnd. revert col Hok. induction Hnd as [|c cs Hc Hnd IH]; intros col Hok Hcs; cbn [prefault].
  { exists col. split_and!; [done..|by intros c ?%elem_of_nil|done]. }
  destruct (Hcs c ltac:(by left)) as [Hlt Hs]. destruct (file_chunk_there o c Hlt) as (d & Hd). pose proof (ok_reader _ Hok) as Er. pose proof (ok_per _ Hok) as Ep. cbn in Er, Ep.
  rewrite Er, Ep. pose proof Hd as Hd'. unfold file_chunk in Hd'. rewrite Hd'. cbn [mbind result_bind]. unfold read_slot, index. unfold slot_of in Hs. cbn [fst snd] in Hs.
  rewrite Hs. cbn [mbind result_bind]. set (col1 := with_half o _ _ col).
  destruct (slot_ok (as_lazy col) o c None (Some d) (resident_bytes col + chunk_bytes d) Hok Hs) as (Hok1 & Hin & Hother); [by intros ? [= <-]|cbn; lia|done|].
  destruct (IH col1) as (col' & -> & Hok' & Hset & Hall & Hsame); [exact Hok1| |].
  - intros c' Hc'. destruct (Hcs c' ltac:(by right)) as [? <-]. split; [done|]. apply (Hother (o, c')). intros [= ->]. done.
  - exists col'. split_and!; [done|done|by etrans| |].
    + intros c' [->|Hc']%elem_of_cons; [|by apply Hall]. exists d. rewrite Hsame by by right. exact Hin.
    + intros k Hk. rewrite Hsame; [|destruct Hk as [?|Hk]; [by left|right; intros ?; apply Hk; by right]]. apply (Hother k). intros ->. cbn in Hk. destruct Hk as [?|Hk]; [done|apply Hk; by left].
Qed.

Lemma empty_column_ok residency budget : column_ok (as_lazy (mkColumn r (length outs) per (half_new per) (half_new per) residency budget 0)).
Proof.
  assert (∀ o, half_of (as_lazy (mkColumn r (length outs) per (half_new per) (half_new per) residency budget 0)) o = half_new per) as Hh by by intros [].
  split; [done..| | | |done].
  - intros o. rewrite Hh. cbn. by rewrite !length_replicate.
  - intros o c d. rewrite Hh. cbn. by intros [? _]%lookup_replicate.
  - unfold footprint. cbn. by rewrite slots_bytes_empty.
Qed.

Lemma open_ok residency budget : ∃ col, column_open zstd_decode r (length outs) residency budget = Ok col ∧ column_ok col ∧
  DegreeColumn.residency col = residency ∧ budget_bytes col = budget.
Proof.
  unfold column_open. rewrite (co_total _ _ _ _ Hfile), Z.eqb_refl. cbv zeta. cbn [negb]. set (col0 := mkColumn _ _ _ _ _ _ _ _).
  pose proof (empty_column_ok residency budget) as Hok. fold col0 in Hok. destruct residency; cbn [is_pinned]; [by exists col0|].
  assert (∀ o c, (c < per)%nat → slot_of col0 (o, c) = Some None) as Hempty.
  { intros o c Hc. unfold slot_of. destruct o; cbn; by apply lookup_replicate_2. }
  assert (NoDup (seq 0 per)) as Hnd by apply NoDup_seq.
  unfold prefault_all. change (per_half col0) with per.
  destruct (prefault_ok true (seq 0 per) col0 Hok Hnd) as (col1 & -> & Hok1 & Hset1 & Hin1 & Hs1).
  { intros c Hc%elem_of_seq. split; [lia|]. apply Hempty. lia. }
  cbn [mbind result_bind]. replace (per_half col1) with per by (destruct Hset1 as (_ & _ & -> & _); done).
  destruct (prefault_ok false (seq 0 per) col1 Hok1 Hnd) as (col2 & -> & Hok2 & Hset2 & Hin2 & Hs2).
  { intros c Hc%elem_of_seq. split; [lia|]. rewrite Hs1 by by left. apply Hempty. lia. }
  assert (same_settings col0 col2) as (_ & _ & _ & Er & Eb) by by etrans.
  exists col2. split_and!; [done| |exact Er|exact Eb]. destruct Hok2 as [H1 H2 H3 H4 H5 H6 _]. split; try done.
  intros _ o c s Hs. pose proof (lookup_lt_Some _ _ _ Hs) as Hlt. destruct (H4 o) as (Hl & _). change (half_of (as_lazy col2) o) with (half_of col2 o) in Hl. rewrite Hl in Hlt.
  assert (c ∈ seq 0 per) as Hc by (apply elem_of_seq; lia). assert (∃ d, slot_of col2 (o, c) = Some (Some d)) as (d & Hd); [|unfold slot_of in Hd; cbn [fst snd] in Hd; rewrite Hd in Hs; injection Hs as <-; by eexists].
  destruct o; [|by apply Hin2]. destruct (Hin1 c Hc) as [d Hd]. exists d. rewrite (Hs2 (true, c)); [done|left; done].
Qed.
End kept.

(** * Soundness *)

Section exact.
Context {crypto : Crypto} {crypto_laws : CryptoLaws}.
Variable zstd_encode_all : bytes → Z → result bytes.
Variable zstd_decode : bytes → list bytes * bool.
Variable random_nonce : nat → bytes.
Variables (target_block_bytes : Z) (opts : PlaneCodecOpts) (cipher : option FileCipher).
Hypothesis lossless : zstd_lossless zstd_encode_all zstd_decode.
Hypothesis total : ∀ raw level, is_ok (zstd_encode_all raw level) = true.
Hypothesis bounded : ∀ raw level comp, zstd_encode_all raw level = Ok comp → zlen comp <= zlen raw + zlen raw / 256 + 64.
Hypothesis nonce_length : ∀ i, zlen (random_nonce i) = NONCE_LEN.
Hypothesis target_small : 5 * target target_block_bytes + 2 ^ 22 <= 2 ^ 30.

(** C14: The resident degrees are those that were written, whatever threads do.  The file of the
    degrees opens to a column, lazy or pinned, and after any interleaving of the threads' actions
    none has panicked, every chunk a thread was handed is the file's, and the count of bytes is
    that of the resident chunks.  A lookup then gives the node's degree, or nothing past the last
    node; if it had to fault its chunk into a lazy column with a budget, the bytes are back within
    the budget or the chunk is the only one left; and a pinned column has every chunk. *)
Theorem degree_column_sound outs inns img blocks residency budget actions : Forall is_u32 outs → Forall is_u32 inns →
  write_node_degrees zstd_encode_all random_nonce target_block_bytes opts cipher outs inns = Ok (img, blocks) → 44 * blocks <= MAX_BLOCK_BYTES → fits img →
  Forall (λ a, (action_chunk a).2 < records_per_half (length outs))%nat actions →
  ∃ r col0 gots col, open_blocks img cipher = Ok r ∧ column_open zstd_decode r (length outs) residency budget = Ok col0 ∧
    run zstd_decode actions col0 = Ok (gots, col) ∧ Forall2 (λ a got, ∀ d, got = Some d → holds_chunk outs inns (action_chunk a) d) actions gots ∧
    resident_bytes col = footprint col ∧
    (∀ now node outgoing, ∃ col', degree zstd_decode now node outgoing col = Ok ((if outgoing : bool then outs else inns) !! node, col') ∧
      resident_bytes col' = footprint col' ∧
      let k := (outgoing, (node / DEGREES_PER_RECORD)%nat) in
      (residency = Lazy → budget ≠ 0 → (node < length outs)%nat → slot_of col k = Some None →
        resident_bytes col' <= budget ∨ ∀ k' s, k' ≠ k → slot_of col' k' = Some s → s = None)) ∧
    (residency = Pinned → ∀ k s, slot_of col k = Some s → is_Some s).
Proof.
  intros Ho Hi Hw Hsz Hfits Ha. destruct (written_column zstd_encode_all zstd_decode random_nonce target_block_bytes opts cipher lossless total bounded nonce_length target_small
    outs inns img blocks Ho Hi Hw Hsz Hfits) as (r & Hopen & Hcol).
  destruct (open_ok zstd_decode r outs inns Hcol residency budget) as (col0 & H0 & Hok0 & Hres0 & Hbud0).
  destruct (run_ok zstd_decode r outs inns Hcol actions col0 Hok0 Ha) as (gots & col & Hrun & Hok & (_ & _ & _ & Er & Eb) & Hgots).
  exists r, col0, gots, col. split; [exact Hopen|]. split; [exact H0|]. split; [exact Hrun|]. split; [exact Hgots|]. split; [apply Hok|]. split.
  - intros now node outgoing. destruct (degree_ok zstd_decode r outs inns Hcol now node outgoing col Hok) as (col' & Hd & Hok' & (_ & _ & _ & Er' & Eb') & Hb).
    exists col'. split; [exact Hd|]. split; [apply Hok'|]. intros k Hl Hbz Hn Hk. specialize (Hb Hk Hn). unfold bounded_but in Hb. rewrite Er', Er, Hres0, Eb', Eb, Hbud0 in Hb.
    exact (Hb Hl Hbz).
  - intros Hp [o c] s Hs. apply (ok_pinned _ _ _ _ Hok) with o c; [congruence|exact Hs].
Qed.
End exact.

#[local] Existing Instance toy_crypto.
#[local] Existing Instance toy_crypto_laws.

Definition example_actions : list Action := [Fault true 0; Fault false 0; Hit true 0; Clear true 0; Evict true 0; Fault true 0; Sweep false 0 9 5].

Lemma degree_column_sound_witness : ∃ r col0 gots col, open_blocks example_degrees.1 example_block_key = Ok r ∧
  column_open stored_decode r 4 Lazy 1 = Ok col0 ∧ run stored_decode example_actions col0 = Ok (gots, col) ∧
  ∃ col', degree stored_decode 7 2 true col = Ok (Some 70000, col').
Proof.
  destruct (degree_column_sound stored_encode stored_decode example_block_nonces 3 default_opts example_block_key stored_lossless (λ _ _, eq_refl) stored_bounded
    example_block_nonce_length ltac:(apply Z.leb_le; reflexivity) example_out example_in example_degrees.1 example_degrees.2 Lazy 1 example_actions
    ltac:(repeat (apply Forall_cons; split); [..|by apply Forall_nil]; split; lia) ltac:(repeat (apply Forall_cons; split); [..|by apply Forall_nil]; split; lia)
    example_degrees_run ltac:(apply Z.leb_le; vm_compute; reflexivity) ltac:(unfold fits; apply Z.ltb_lt; vm_compute; reflexivity)
    ltac:(repeat (apply Forall_cons; split); [..|by apply Forall_nil]; apply Nat.ltb_lt; vm_compute; reflexivity)) as (r & col0 & gots & col & Ho & H0 & Hr & _ & _ & Hd & _).
  exists r, col0, gots, col. split; [exact Ho|]. split; [exact H0|]. split; [exact Hr|]. destruct (Hd 7 2%nat true) as (col' & E & _). exists col'. exact E.
Defined.
