(* ===== verification/BlockCaches.v ===== *)
(** The two caches over [ShardedCache]: of decompressed blocks, [graph-format/src/blockcache.rs],
    and of decoded index leaves, [graph-format/src/isam.rs]; and reading a record through the
    first. *)

From S2P Require Import Prelude Values Wire Crypto BlockCodec Isam ClockCache ShardedCache BlockFile BlockRead BlockExact.

(** * Keys and shards *)

Record BlockKey := mkBlockKey { bk_scope : Z; bk_sub : Z; bk_block : Z }.

#[export] Instance BlockKey_eq_dec : EqDecision BlockKey.
Proof. solve_decision. Defined.

#[export] Instance BlockKey_countable : Countable BlockKey :=
  inj_countable' (λ k, (bk_scope k, bk_sub k, bk_block k)) (λ '(a, b, c), mkBlockKey a b c) ltac:(by intros []).

(** The finaliser both selectors end in. *)
Definition splitmix (x : Z) : Z :=
  let x := as_u64 (Z.lxor x (Z.shiftr x 30) * 0xbf58476d1ce4e5b9) in
  let x := as_u64 (Z.lxor x (Z.shiftr x 27) * 0x94d049bb133111eb) in
  Z.lxor x (Z.shiftr x 31).

Definition shard_hash (key : BlockKey) : Z :=
  let x := Z.lxor (as_u64 (bk_scope key)) (as_u64 (Z.shiftr (bk_scope key) 64)) in
  splitmix (Z.lxor x (Z.lor (as_u64 (Z.shiftl (bk_sub key) 32)) (bk_block key))).

Definition leaf_hash (key : Z * Z) : Z := splitmix (Z.lor (as_u64 (Z.shiftl key.1 32)) key.2).

(** * The cache of decompressed blocks *)

Definition LAST_USED_GRANULARITY_MS : Z := 10.

(** The stamp of an entry is [last_used_ms]. *)
Definition touch (now_ms : Z) (e : Entry bytes Z) : Entry bytes Z :=
  mkEntry (value e) (e_bytes e) true
    (if LAST_USED_GRANULARITY_MS <=? Z.max 0 (now_ms - stamp e) then now_ms else stamp e).

#[export] Instance touch_touching now : Touching (touch now).
Proof. by split. Qed.

Abbreviation BlockCache := (Cache BlockKey bytes Z).

Definition keeps (now_ms ttl_ms : Z) (e : Entry bytes Z) : bool := Z.max 0 (now_ms - stamp e) <=? ttl_ms.

Definition evict_expired_inner (now_ms ttl_ms : Z) (st : ShardInner BlockKey bytes Z) : Z * ShardInner BlockKey bytes Z :=
  let m := filter (λ '(_, e), keeps now_ms ttl_ms e = true) (sh_map st) in
  let bytes := map_fold (λ _ e acc, if keeps now_ms ttl_ms e then acc else acc - e_bytes e) (sh_bytes st) (sh_map st) in
  let evicted := Z.of_nat (size (sh_map st)) - Z.of_nat (size m) in
  if 0 <? evicted then
    let ring := filter (λ k, is_Some (m !! k)) (ring st) in
    (evicted, mkShardInner m ring (if (length ring <=? hand st)%nat then 0%nat else hand st) bytes (sh_budget st))
  else (evicted, mkShardInner m (ring st) (hand st) bytes (sh_budget st)).

Definition expire_shard (now_ms ttl_ms : Z) (sh : Shard BlockKey bytes Z) : Z * Shard BlockKey bytes Z :=
  let '(evicted, st) := evict_expired_inner now_ms ttl_ms (inner sh) in
  (evicted, mkShard st (hits sh) (misses sh) (if 0 <? evicted then as_u64 (evictions sh + evicted) else evictions sh)).

Definition evict_expired (now_ms ttl_ms : Z) (c : BlockCache) : Z * BlockCache :=
  (foldr (λ sh total, (expire_shard now_ms ttl_ms sh).1 + total) 0 (shards c),
   mkCache (map (λ sh, (expire_shard now_ms ttl_ms sh).2) (shards c)) (mask c)).

Definition get_or_try_insert (now_ms now_ms' : Z) (key : BlockKey) (load : result bytes) (c : BlockCache) : result (result bytes * BlockCache) :=
  '(found, c) ← find shard_hash (touch now_ms) key c;
  match found with
  | Some v => Ok (Ok v, c)
  | None =>
      match load with
      | Err e => Ok (Err e, c)
      | Ok v => '(v, c) ← install shard_hash (touch now_ms') key v (zlen v) now_ms' c; Ok (Ok v, c)
      end
  end.

(** [BlockCache::record]: the record as the bytes its [BlockRecord] borrows. *)
Definition record {crypto : Crypto} (zstd_decode : bytes → list bytes * bool) (now_ms now_ms' : Z)
    (reader : BlockFileReader) (scope sub global : Z) (c : BlockCache) : result (result bytes * BlockCache) :=
  match locate reader global with
  | Err e => Ok (Err e, c)
  | Ok loc =>
      '(raw, c) ← get_or_try_insert now_ms now_ms' (mkBlockKey scope sub (loc_block loc))
                    (read_block zstd_decode reader (Z.to_nat (loc_block loc))) c;
      Ok (raw ← raw; '(start, end_) ← record_range_in_block raw (loc_slot loc); slice raw start end_, c)
  end.

(** * The cache of decoded leaves *)

Class ValueLayout := { size_of_Value : Z; size_of_entry : Z }.

Section leaves.
Context {layout : ValueLayout}.

Fixpoint value_heap_bytes (v : Value.t) : Z :=
  match v with
  | Value.Str s => zlen s
  | Value.List items => zlen items * size_of_Value + foldr (λ i acc, value_heap_bytes i + acc) 0 items
  | Value.Vector f => zlen f * 4
  | _ => 0
  end.

Definition decoded_bytes (entries : list (Value.t * Z)) : Z :=
  zlen entries * size_of_entry + foldr (λ e acc, value_heap_bytes e.1 + acc) 0 entries.

(** No stamp. *)
Definition mark (e : Entry (list (Value.t * Z)) unit) : Entry (list (Value.t * Z)) unit :=
  mkEntry (value e) (e_bytes e) true (stamp e).

Definition leaf_get_or_load (sub block : Z) (load : result (list (Value.t * Z))) (c : Cache (Z * Z) (list (Value.t * Z)) unit) :
    result (result (list (Value.t * Z)) * Cache (Z * Z) (list (Value.t * Z)) unit) :=
  get_or_load leaf_hash mark (sub, block) load decoded_bytes tt c.

(** [IsamReader::block] with a cache attached under [sub]. *)
Definition cached_block {crypto : Crypto} (zstd_decode : bytes → list bytes * bool) (r : IsamReader) (sub : Z) (b : nat)
    (c : Cache (Z * Z) (list (Value.t * Z)) unit) : result (result (list (Value.t * Z)) * Cache (Z * Z) (list (Value.t * Z)) unit) :=
  leaf_get_or_load sub (as_u32 (Z.of_nat b)) (load_block zstd_decode r b) c.
End leaves.

#[export] Instance mark_touching : Touching mark.
Proof. by split. Qed.

(** * Expiry keeps the invariant *)

Section expiry.
Variables (load : BlockKey → option (bytes * Z)) (now ttl per : Z).
Implicit Types m : gmap BlockKey (Entry bytes Z).

(** The bytes of the entries that do not stay, over the map and over the ring. *)
Definition dropped (e : Entry bytes Z) : Z := if keeps now ttl e then 0 else e_bytes e.

Lemma dropped_nonneg e : 0 <= e_bytes e → 0 <= dropped e.
Proof. unfold dropped. by destruct (keeps now ttl e). Qed.

Lemma fold_dropped m b : map_fold (λ _ e acc, if keeps now ttl e then acc else acc - e_bytes e) b m =
  b - foldr (λ p acc, dropped p.2 + acc) 0 (map_to_list m).
Proof.
  rewrite map_fold_foldr. induction (map_to_list m) as [|[k e] l IH]; cbn; [lia|]. rewrite IH.
  pose proof (eq_refl : dropped e = if keeps now ttl e then 0 else e_bytes e) as Hd. destruct (keeps now ttl e); lia.
Qed.

Lemma dropped_ring m ks : NoDup ks → (∀ k, k ∈ ks ↔ is_Some (m !! k)) →
  foldr (λ p acc, dropped p.2 + acc) 0 (map_to_list m) = foldr (λ k acc, from_option dropped 0 (m !! k) + acc) 0 ks.
Proof.
  intros Hnd Hk. assert ((map_to_list m).*1 ≡ₚ ks) as Hp.
  { apply NoDup_Permutation; [apply NoDup_fst_map_to_list|done|]. intros k. rewrite Hk. split.
    - intros Hin%list_elem_of_fmap; destruct Hin as ([k' e] & -> & Hin). apply elem_of_map_to_list in Hin. cbn. eauto.
    - intros [e He]. apply list_elem_of_fmap. exists (k, e). split; [done|by apply elem_of_map_to_list]. }
  transitivity (foldr (λ k acc, from_option dropped 0 (m !! k) + acc) 0 (map_to_list m).*1).
  - assert (Forall (λ p, m !! p.1 = Some p.2) (map_to_list m)) as Hall.
    { apply Forall_forall. intros [k e] Hin. by apply elem_of_map_to_list. }
    clear Hp. induction Hall as [|[k e] l Hke _ IH]; cbn in *; [done|]. rewrite Hke. cbn. lia.
  - clear -Hp. induction Hp; cbn; lia.
Qed.

Local Abbreviation kept m := (filter (λ '(_, e), keeps now ttl e = true) m) (only parsing).

Lemma kept_lookup m k e : kept m !! k = Some e ↔ m !! k = Some e ∧ keeps now ttl e = true.
Proof. by rewrite map_lookup_filter_Some. Qed.

Lemma kept_bytes m ks : ring_bytes m ks - foldr (λ k acc, from_option dropped 0 (m !! k) + acc) 0 ks =
  ring_bytes (kept m) (filter (λ k, is_Some (kept m !! k)) ks).
Proof.
  induction ks as [|k ks IH]; cbn [ring_bytes foldr]; [done|]. rewrite filter_cons. unfold bytes_at at 1.
  destruct (m !! k) as [e|] eqn:E; cbn [from_option].
  - unfold dropped at 1. destruct (keeps now ttl e) eqn:Ek.
    + assert (kept m !! k = Some e) as Hs by (by apply kept_lookup). rewrite decide_True by (rewrite Hs; eauto). cbn [ring_bytes].
      unfold bytes_at at 1. rewrite Hs. cbn. lia.
    + rewrite decide_False; [lia|]. intros [e' [He' Hk']%kept_lookup]. congruence.
  - rewrite decide_False; [lia|]. intros [e' [He' _]%kept_lookup]. congruence.
Qed.

Lemma expire_inner_ok st : inner_ok load per st → inner_ok load per (evict_expired_inner now ttl st).2.
Proof.
  intros [[Hnd Hr Hb Hn] Hl Hw Hbu]. unfold evict_expired_inner. set (m := kept (sh_map st)).
  rewrite fold_dropped, (dropped_ring _ (ring st)) by done. rewrite Hb, kept_bytes. fold m.
  assert (∀ k e, m !! k = Some e → sh_map st !! k = Some e) as Hsub by (intros k e [? _]%kept_lookup; done).
  assert (∀ ks, NoDup ks → ks ⊆ ring st → (∀ k, k ∈ ks ↔ is_Some (m !! k)) → (length ks <= length (ring st))%nat →
    ks ≡ₚ filter (λ k, is_Some (m !! k)) (ring st) → ∀ h,
    inner_ok load per (mkShardInner m ks h (ring_bytes m (filter (λ k, is_Some (m !! k)) (ring st))) (sh_budget st))) as Hnew.
  { intros ks Hks Hin Hiff Hlen Hperm h. split; [split|..]; cbn; try done.
    - by rewrite (ring_bytes_perm _ _ _ Hperm).
    - intros k e He. by apply (Hn k), Hsub.
    - intros k e He. by apply Hl, Hsub.
    - destruct Hw as [Hw|Hw]; [left|right; cbn; lia]. cbn. rewrite Hb in Hw. unfold m. rewrite <- kept_bytes.
      assert (∀ l, 0 <= foldr (λ k acc, from_option dropped 0 (sh_map st !! k) + acc) 0 l) as Hpos; [|specialize (Hpos (ring st)); lia].
      induction l as [|k l IH]; cbn; [done|]. destruct (sh_map st !! k) as [e|] eqn:E; cbn; [|lia]. pose proof (dropped_nonneg e (Hn k e E)). lia. }
  assert (∀ k, k ∈ filter (λ k, is_Some (m !! k)) (ring st) ↔ is_Some (m !! k)) as Hf.
  { intros k. rewrite list_elem_of_filter, Hr. split; [by intros [? _]|]. intros [e He]. split; [eauto|]. exists e. by apply Hsub. }
  destruct (Z.ltb_spec 0 (Z.of_nat (size (sh_map st)) - Z.of_nat (size m))) as [Hev|Hev]; cbn [snd].
  - apply Hnew; [by apply NoDup_filter|intros k [_ ?]%list_elem_of_filter; done|done|apply length_filter|done].
  - assert (m = sh_map st) as Em.
    { apply map_subseteq_size_eq; [apply map_filter_subseteq|lia]. }
    assert (filter (λ k, is_Some (m !! k)) (ring st) = ring st) as Ef.
    { assert (∀ l : list BlockKey, (∀ k, k ∈ l → is_Some (m !! k)) → filter (λ k, is_Some (m !! k)) l = l) as Hall; [|apply Hall; intros k Hk; rewrite Em; by apply Hr].
      induction l as [|k l IH]; intros Hin; [done|]. rewrite filter_cons, decide_True by (apply Hin; set_solver). f_equal. apply IH. set_solver. }
    rewrite Ef in *. by apply Hnew.
Qed.
End expiry.

(** * Runs of the block cache

    What threads do to a cache, in whatever order their lock sections come. *)

Inductive cache_event :=
  | Find (now_ms : Z) (key : BlockKey)
  | Install (now_ms : Z) (key : BlockKey) (v : bytes)
  | Expire (now_ms ttl_ms : Z).

Inductive cache_answer :=
  | Found (v : option bytes)
  | Installed (v : bytes)
  | Expired (n : Z).

Definition cache_step (ev : cache_event) (c : BlockCache) : result (cache_answer * BlockCache) :=
  match ev with
  | Find now key => '(v, c) ← find shard_hash (touch now) key c; Ok (Found v, c)
  | Install now key v => '(v, c) ← install shard_hash (touch now) key v (zlen v) now c; Ok (Installed v, c)
  | Expire now ttl => let '(n, c) := evict_expired now ttl c in Ok (Expired n, c)
  end.

Fixpoint cache_run (evs : list cache_event) (c : BlockCache) : result (list cache_answer * BlockCache) :=
  match evs with
  | [] => Ok ([], c)
  | ev :: evs =>
      '(a, c) ← cache_step ev c;
      '(as_, c) ← cache_run evs c;
      Ok (a :: as_, c)
  end.

Section runs.
(** The block each key stands for. *)
Variable blocks : BlockKey → option bytes.

Definition sized (k : BlockKey) : option (bytes * Z) := (λ v, (v, zlen v)) <$> blocks k.

Lemma sized_Some k v n : sized k = Some (v, n) ↔ blocks k = Some v ∧ n = zlen v.
Proof. unfold sized. destruct (blocks k); cbn; naive_solver. Qed.

Lemma sized_nonneg k v n : sized k = Some (v, n) → 0 <= n.
Proof. intros [_ ->]%sized_Some. apply zlen_nonneg. Qed.

(** A thread inserts the block it loaded. *)
Definition loads (ev : cache_event) : Prop := if ev is Install _ key v then blocks key = Some v else True.

Definition truthful (ev : cache_event) (a : cache_answer) : Prop :=
  match ev, a with
  | Find _ key, Found v => v = None ∨ v = blocks key
  | Install _ key v, Installed v' => v' = v
  | Expire _ _, Expired _ => True
  | _, _ => False
  end.

Lemma expire_ok budget per now ttl c : cache_ok sized budget per c → cache_ok sized budget per (evict_expired now ttl c).2.
Proof.
  intros [Hs Hb Hp Hi]. split; cbn [evict_expired snd shards mask]; unfold zlen in *; rewrite ?length_map; try done.
  apply Forall_fmap. eapply Forall_impl; [exact Hi|]. intros sh Hsh. cbn. unfold expire_shard.
  pose proof (expire_inner_ok sized now ttl per (inner sh) Hsh) as H. by destruct (evict_expired_inner now ttl (inner sh)).
Qed.

Lemma cache_step_ok budget per c ev : cache_ok sized budget per c → loads ev →
  ∃ a c', cache_step ev c = Ok (a, c') ∧ cache_ok sized budget per c' ∧ truthful ev a.
Proof.
  intros Hc Hl. destruct ev as [now key|now key v|now ttl]; cbn [cache_step].
  - destruct (find_ok shard_hash sized (touch now) budget per c key Hc) as (found & c' & -> & Hc' & Hf).
    exists (Found found), c'. split_and!; [done|done|]. cbn. destruct found as [v|]; [right|by left].
    destruct (Hf v eq_refl) as [n [Hv _]%sized_Some]. done.
  - destruct (install_ok shard_hash sized sized_nonneg (touch now) budget per c key v (zlen v) now Hc) as (c' & -> & Hc' & _);
      [by apply sized_Some|]. by exists (Installed v), c'.
  - pose proof (expire_ok budget per now ttl c Hc) as Hc'. destruct (evict_expired now ttl c) as [n c']. by exists (Expired n), c'.
Qed.

Lemma cache_run_ok budget per evs c : cache_ok sized budget per c → Forall loads evs →
  ∃ answers c', cache_run evs c = Ok (answers, c') ∧ cache_ok sized budget per c' ∧ Forall2 truthful evs answers.
Proof.
  intros Hc Hl. revert c Hc. induction Hl as [|ev evs Hev _ IH]; intros c Hc; cbn [cache_run].
  - exists [], c. split_and!; [done|done|constructor].
  - destruct (cache_step_ok budget per c ev Hc Hev) as (a & c1 & -> & Hc1 & Ha). cbn [mbind result_bind].
    destruct (IH c1 Hc1) as (as_ & c2 & -> & Hc2 & Has). exists (a :: as_), c2. split_and!; [done|done|by constructor].
Qed.

(** C20: The block cache is transparent and bounded.  However the lock sections of readers and of
    the expiry interleave, no section panics and every sweep ends; a hit is the block its key
    stands for, and a reader that loaded a block gets that block; every shard is within its share
    of the budget or holds a single block, so that when blocks fit a share the cache holds no
    more bytes than its budget; and a block just inserted is found by the next read. *)
Theorem block_cache_sound budget n evs : n <= 2 ^ 63 → Forall loads evs →
  ∃ c0 per answers c, with_shards budget n = Ok c0 ∧ cache_run evs c0 = Ok (answers, c) ∧ Forall2 truthful evs answers ∧
    zlen (shards c) * per <= Z.max budget 1 ∧
    Forall (λ sh, sh_bytes (inner sh) <= per ∨ (length (ring (inner sh)) <= 1)%nat) (shards c) ∧
    ((∀ k v, blocks k = Some v → zlen v <= per) → 0 <= cache_bytes c <= Z.max budget 1) ∧
    ∀ now now' key v, blocks key = Some v →
      ∃ c1 c2, cache_step (Install now key v) c = Ok (Installed v, c1) ∧ cache_step (Find now' key) c1 = Ok (Found (Some v), c2).
Proof.
  intros Hn Hl. destruct (with_shards_ok (S := Z) sized budget n Hn) as (c0 & per & -> & Hc0).
  destruct (cache_run_ok (Z.max budget 1) per evs c0 Hc0 Hl) as (answers & c & Hr & Hc & Ht). exists c0, per, answers, c.
  split_and!; [done|done|done|apply Hc| | |].
  - eapply Forall_impl; [exact (co_inner _ _ _ _ Hc)|]. intros sh [_ _ Hw <-]. exact Hw.
  - intros Hfit. apply (cache_bytes_bounded sized (Z.max budget 1) per c Hc). intros k v m [Hk ->]%sized_Some. by apply (Hfit k).
  - intros now now' key v Hk. destruct (install_ok shard_hash sized sized_nonneg (touch now) _ per c key v (zlen v) now Hc)
      as (c1 & Hi & _ & Hf); [by apply sized_Some|]. destruct (Hf (touch now')) as [c2 Hc2]. exists c1, c2. cbn [cache_step]. by rewrite Hi, Hc2.
Qed.
End runs.

(** * Witness and exhibit *)

(** Blocks of two bytes under the first three keys; the cache has room for two of them. *)
Definition example_blocks (key : BlockKey) : option bytes :=
  if (bk_block key <? 3) then Some [bk_block key; 7] else None.

Definition example_sections : list cache_event :=
  [Find 0 (mkBlockKey 0 0 0); Install 0 (mkBlockKey 0 0 0) [0; 7]; Find 1 (mkBlockKey 0 0 0);
   Install 1 (mkBlockKey 0 0 1) [1; 7]; Install 2 (mkBlockKey 0 0 2) [2; 7]; Expire 100 99].

Lemma example_sections_load : Forall (loads example_blocks) example_sections.
Proof. repeat (apply Forall_cons; split); [..|by apply Forall_nil]. all: done. Qed.

Lemma block_cache_sound_witness : ∃ c0 answers c, with_shards 4 1 = Ok c0 ∧ cache_run example_sections c0 = Ok (answers, c) ∧
  Forall2 (truthful example_blocks) example_sections answers.
Proof.
  destruct (block_cache_sound example_blocks 4 1 example_sections ltac:(lia) example_sections_load) as (c0 & per & answers & c & H0 & Hr & Ht & _).
  exists c0, answers, c. split; [exact H0|]. split; [exact Hr|exact Ht].
Defined.

(** Each shard keeps at least one block, so with blocks larger than a share the shards together
    hold more than the budget: here thirteen bytes, of eight. *)
Lemma floor_is_per_shard :
  (c0 ← with_shards 8 8;
   '(_, c) ← cache_run [Install 0 (mkBlockKey 0 0 0) (repeat 1 7); Install 0 (mkBlockKey 0 0 1) (repeat 1 6)] c0;
   Ok (cache_bytes c)) = Ok 13.
Proof. vm_compute. reflexivity. Qed.

(** An entry that has been idle for exactly the limit stays. *)
Lemma idle_for_ttl_stays :
  (c0 ← with_shards 8 1;
   '(_, c) ← cache_run [Install 0 (mkBlockKey 0 0 0) [1]; Expire 50 50] c0;
   Ok (cache_len c)) = Ok 1.
Proof. vm_compute. reflexivity. Qed.
