(* ===== verification/CachedReads.v ===== *)
(** Reads through the caches agree with reads around them: a record of a block file, and a leaf
    of a range index, whatever other threads do to the cache in between. *)

From S2P Require Import Prelude Values Wire Crypto BlockCodec Isam IsamExact ClockCache ShardedCache BlockFile BlockRead BlockExact BlockCaches.

(** * A slot without the table

    [record_range_in_block] reads two offsets in place of parsing them all. *)

Lemma read_offsets n r xs r' : read_many (read_le 4) (Z.of_nat n) r = Ok (xs, r') →
  length xs = n ∧ ∀ i x, xs !! i = Some x → (4 * i + 4 <= length r)%nat ∧ x = le_val (take 4 (drop (4 * i) r)).
Proof.
  revert r xs. induction n as [|n IH]; intros r xs H.
  - rewrite read_many_zero in H by done. injection H as <- <-. split; [done|]. by intros i x.
  - rewrite (read_many_step (read_le 4)) in H by lia. apply bind_Ok in H as ([x r1] & Hx & H).
    replace (Z.of_nat (S n) - 1) with (Z.of_nat n) in H by lia. apply bind_Ok in H as ([ys r2] & Hys & [= <- <-]).
    unfold read_le in Hx. apply bind_Ok in Hx as ([b r3] & Hb & [= <- <-]). apply split_at_Ok in Hb as [-> Hb].
    destruct (IH _ _ Hys) as [Hlen Hat]. assert (length b = 4)%nat as H4 by (unfold zlen in Hb; lia). split; [cbn; lia|].
    intros [|i] y Hy; cbn in Hy.
    + injection Hy as <-. rewrite length_app, drop_0, <- H4, take_app_length. split; [lia|done].
    + destruct (Hat i y Hy) as [Hl ->]. rewrite length_app. split; [lia|]. f_equal. f_equal.
      replace (4 * S i)%nat with (length b + 4 * i)%nat by lia. by rewrite drop_app_add.
Qed.

Lemma slice_Ok data a b : 0 <= a <= b → b <= zlen data → slice data a b = Ok (take (Z.to_nat (b - a)) (drop (Z.to_nat a) data)).
Proof. intros. unfold slice. by rewrite !(proj2 (Z.leb_le _ _)) by lia. Qed.

Lemma ascending_nonneg o offs : ascending (o :: offs) = true → 0 <= o → Forall (λ x, 0 <= x) (o :: offs).
Proof.
  revert o. induction offs as [|p offs IH]; intros o Ha Ho; [by apply Forall_singleton|].
  apply andb_true_iff in Ha as [Hop%Z.leb_le Ha]. apply Forall_cons. split; [done|]. apply IH; [done|lia].
Qed.

Lemma checked_nonneg offsets n : check_offset_table offsets n = Ok tt → Forall (λ x, 0 <= x) offsets.
Proof.
  unfold check_offset_table. destruct offsets as [|o offs]; [done|]. cbn [head]. destruct (last _) as [l|]; [|done].
  destruct (Z.eqb_spec o 0) as [->|]; [|done]. cbn [negb]. destruct (ascending (0 :: offs)) eqn:Ha; [|done]. intros _. by apply ascending_nonneg.
Qed.

(** Of any block that parses, a slot is found in place exactly when the table has it, at the same
    bytes. *)
Lemma range_agrees raw offsets data slot : parse_block raw = Ok (offsets, data) → 0 <= slot →
  match record_from_block offsets data slot with
  | Ok rec => ∃ s e, record_range_in_block raw slot = Ok (s, e) ∧ slice raw s e = Ok rec
  | Err _ => ∃ e, record_range_in_block raw slot = Err e
  end.
Proof.
  unfold parse_block, record_range_in_block. intros H Hslot. apply bind_Ok in H as ([count r] & Hc & H). rewrite Hc. cbn [mbind result_bind].
  unfold read_le in Hc. apply bind_Ok in Hc as ([b r0] & Hb & [= <- <-]). apply split_at_Ok in Hb as [-> Hb].
  assert (length b = 4)%nat as Hb4 by (unfold zlen in Hb; lia). set (count := le_val b) in *.
  destruct (Z.ltb_spec (zlen (b ++ r0)) (4 + (count + 1) * 4)) as [|Hhdr]; [done|].
  apply bind_Ok in H as ([offs r'] & Ho & H). apply bind_Ok in H as ([] & Hck & [= <- <-]).
  pose proof (checked_nonneg _ _ Hck) as Hpos.
  destruct (Z.lt_ge_cases (count + 1) 0) as [Hneg|Hn].
  { exfalso. unfold read_many in Ho. cbn [read_many_fuel] in Ho. rewrite (proj2 (Z.leb_le _ _)) in Ho by lia. injection Ho as <- _. done. }
  destruct (read_offsets (Z.to_nat (count + 1)) r0 offs r') as [Hlen Hat]; [by rewrite Z2Nat.id|].
  unfold record_from_block. assert (zlen offs = count + 1) as Hz by (unfold zlen; lia). rewrite Hz.
  destruct (Z.leb_spec (count + 1) (slot + 1)) as [Hout|Hin].
  { rewrite (proj2 (Z.ltb_lt _ _)) by lia. eauto. }
  rewrite (proj2 (Z.ltb_ge _ _)) by lia. rewrite zlen_app in Hhdr.
  destruct (lookup_lt_is_Some_2 offs (Z.to_nat slot)) as [s Hs]; [lia|].
  destruct (lookup_lt_is_Some_2 offs (Z.to_nat (slot + 1))) as [e He]; [lia|]. rewrite Hs, He.
  assert (∀ i x, 0 <= i → offs !! Z.to_nat i = Some x → offset_at (b ++ r0) i = Ok x) as Hoff.
  { intros i x Hi Hx. destruct (Hat _ _ Hx) as [Hl ->]. unfold offset_at. rewrite slice_Ok by (rewrite ?zlen_app; unfold zlen in *; lia).
    cbn [mbind result_bind]. do 2 f_equal. replace (Z.to_nat (4 + i * 4 + 4 - (4 + i * 4))) with 4%nat by lia. f_equal.
    replace (Z.to_nat (4 + i * 4)) with (length b + 4 * Z.to_nat i)%nat by lia. by rewrite drop_app_add. }
  rewrite (Hoff slot s Hslot Hs), (Hoff (slot + 1) e) by (done || lia). cbn [mbind result_bind].
  assert (0 <= s) as Hs0 by (exact (Forall_lookup_1 _ _ _ _ Hpos Hs)).
  set (hdr := 4 + (count + 1) * 4) in *. set (data := drop (Z.to_nat hdr) (b ++ r0)).
  assert (zlen data = zlen (b ++ r0) - hdr) as Hd by (unfold data, zlen in *; rewrite length_drop, length_app; lia).
  assert (hdr <= zlen (b ++ r0)) as Hh by (by rewrite zlen_app).
  replace (hdr + e <? hdr + s) with (e <? s) by (destruct (Z.ltb_spec e s), (Z.ltb_spec (hdr + e) (hdr + s)); lia || done).
  replace (zlen (b ++ r0) <? hdr + e) with (zlen data <? e) by (destruct (Z.ltb_spec (zlen data) e), (Z.ltb_spec (zlen (b ++ r0)) (hdr + e)); lia || done).
  destruct (Z.ltb_spec e s), (Z.ltb_spec (zlen data) e); cbn [orb]; eauto.
  rewrite slice_Ok by lia. exists (hdr + s), (hdr + e). split; [done|]. rewrite slice_Ok by lia. f_equal. unfold data. rewrite drop_drop.
  f_equal; [lia|f_equal; lia].
Qed.

(** * Records through the block cache *)

Section records.
Context {crypto : Crypto}.
Variable zstd_decode : bytes → list bytes * bool.
(** The file each scope and sub-key stands for. *)
Variable files : Z → Z → option BlockFileReader.

Definition file_blocks (key : BlockKey) : option bytes :=
  r ← files (bk_scope key) (bk_sub key);
  match read_block zstd_decode r (Z.to_nat (bk_block key)) with Ok v => Some v | Err _ => None end.

Lemma locate_slot r g loc : locate r g = Ok loc → 0 <= loc_slot loc.
Proof.
  unfold locate. destruct (_ <=? g); [done|]. intros H. apply bind_Ok in H as (b & _ & H). destruct (block_start r !! b); [|done].
  injection H as <-. cbn. apply Z.mod_pos_bound. lia.
Qed.

(** A read through a cache in its invariant answers the block or the error of the file. *)
Lemma get_block budget per c now now' key r : cache_ok (sized file_blocks) budget per c → files (bk_scope key) (bk_sub key) = Some r →
  ∃ c', get_or_try_insert now now' key (read_block zstd_decode r (Z.to_nat (bk_block key))) c =
          Ok (read_block zstd_decode r (Z.to_nat (bk_block key)), c') ∧ cache_ok (sized file_blocks) budget per c'.
Proof.
  intros Hc Hr. unfold get_or_try_insert.
  assert (∀ v, file_blocks key = Some v ↔ read_block zstd_decode r (Z.to_nat (bk_block key)) = Ok v) as Hb.
  { intros v. unfold file_blocks. rewrite Hr. cbn. destruct (read_block _ _ _); naive_solver. }
  destruct (find_ok shard_hash (sized file_blocks) (touch now) budget per c key Hc) as (found & c1 & -> & Hc1 & Hf). cbn [mbind result_bind].
  destruct found as [v|].
  - destruct (Hf v eq_refl) as [n [Hv%Hb _]%sized_Some]. rewrite Hv. by exists c1.
  - destruct (read_block _ _ _) as [v|e] eqn:E; [|by exists c1].
    destruct (install_ok shard_hash (sized file_blocks) (sized_nonneg file_blocks) (touch now') budget per c1 key v (zlen v) now' Hc1) as (c2 & -> & Hc2 & _);
      [apply sized_Some; split; [by apply Hb|done]|]. by exists c2.
Qed.

(** C21: A record read through the block cache is the record of the file.  After any interleaving
    of other readers and of the expiry, a read by global index never panics in the cache, returns
    what a read around it returns where that succeeds, and succeeds otherwise only in a block
    whose slot table does not validate, which the read around the cache refuses as a whole. *)
Theorem cached_record_exact budget n evs scope sub r g now now' : n <= 2 ^ 63 → Forall (loads file_blocks) evs → files scope sub = Some r →
  ∃ c0 answers c x c', with_shards budget n = Ok c0 ∧ cache_run evs c0 = Ok (answers, c) ∧
    record zstd_decode now now' r scope sub g c = Ok (x, c') ∧
    (∀ rec, read_record_global zstd_decode r g = Ok rec → x = Ok rec) ∧
    (∀ e rec, read_record_global zstd_decode r g = Err e → x = Ok rec →
       ∃ loc raw e', locate r g = Ok loc ∧ read_block zstd_decode r (Z.to_nat (loc_block loc)) = Ok raw ∧ parse_block raw = Err e').
Proof.
  intros Hn Hl Hr. destruct (with_shards_ok (S := Z) (sized file_blocks) budget n Hn) as (c0 & per & -> & Hc0).
  destruct (cache_run_ok file_blocks (Z.max budget 1) per evs c0 Hc0 Hl) as (answers & c & Hrun & Hc & _).
  unfold record, read_record_global. destruct (locate r g) as [loc|e] eqn:El.
  2: { exists c0, answers, c, (Err e), c. split_and!; [done..|]. intros ? ? _ ?; done. }
  destruct (get_block (Z.max budget 1) per c now now' (mkBlockKey scope sub (loc_block loc)) r Hc Hr) as (c' & Hg & _). cbn [bk_block] in Hg.
  eexists c0, answers, c, _, c'. split; [done|]. split; [done|]. split; [rewrite Hg; cbn [mbind result_bind]; reflexivity|].
  unfold read_record. cbn [mbind result_bind]. destruct (read_block zstd_decode r (Z.to_nat (loc_block loc))) as [raw|e] eqn:Eb; cbn [mbind result_bind]; [|split; intros; cbn in *; congruence].
  destruct (parse_block raw) as [[offsets data]|e] eqn:Ep; cbn [mbind result_bind].
  - pose proof (range_agrees raw offsets data (loc_slot loc) Ep (locate_slot _ _ _ El)) as Ha.
    destruct (record_from_block offsets data (loc_slot loc)) as [rec|e].
    + destruct Ha as (s & t & -> & Hs). cbn [mbind result_bind]. split; intros; cbn in *; congruence.
    + destruct Ha as [e' ->]. split; intros; cbn in *; congruence.
  - split; [intros; cbn in *; congruence|]. intros e0 rec _ _. by exists loc, raw, e.
Qed.
End records.

(** * Leaves through the decoded-leaf cache *)

Section leaves.
Context {crypto : Crypto} {layout : ValueLayout}.
Variable zstd_decode : bytes → list bytes * bool.
Hypothesis sizes : 0 <= size_of_Value ∧ 0 <= size_of_entry.
(** The index each sub-key stands for. *)
Variable indexes : Z → option IsamReader.

Definition index_leaves (key : Z * Z) : option (list (Value.t * Z)) :=
  r ← indexes key.1; match load_block zstd_decode r (Z.to_nat key.2) with Ok v => Some v | Err _ => None end.

Definition leaf_load (key : Z * Z) : option (list (Value.t * Z) * Z) := (λ v, (v, decoded_bytes v)) <$> index_leaves key.

Lemma value_heap_nonneg v : 0 <= value_heap_bytes v.
Proof.
  destruct sizes as [Hv _]. induction v as [|x|x|x|s|l IH|xs] using Value.t_nested_ind; cbn; try lia; try apply zlen_nonneg.
  - pose proof (zlen_nonneg l). assert (0 <= foldr (λ i acc, value_heap_bytes i + acc) 0 l) as Hf; [|nia].
    clear -IH. induction IH as [|x l Hx _ IHl]; cbn [foldr]; lia.
  - pose proof (zlen_nonneg xs). lia.
Qed.

Lemma decoded_nonneg l : 0 <= decoded_bytes l.
Proof.
  unfold decoded_bytes. destruct sizes as [_ He]. pose proof (zlen_nonneg l).
  assert (0 <= foldr (λ e acc, value_heap_bytes e.1 + acc) 0 l) by (induction l as [|e l IH]; cbn; [done|]; pose proof (value_heap_nonneg e.1); pose proof (zlen_nonneg l); lia).
  nia.
Qed.

Lemma leaf_load_Some key v n : leaf_load key = Some (v, n) ↔ index_leaves key = Some v ∧ n = decoded_bytes v.
Proof. unfold leaf_load. destruct (index_leaves key); cbn; naive_solver. Qed.

Lemma leaf_load_nonneg key v n : leaf_load key = Some (v, n) → 0 <= n.
Proof. intros [_ ->]%leaf_load_Some. apply decoded_nonneg. Qed.

(** The lock sections of other threads: looking for a leaf, and inserting one that was decoded. *)
Inductive leaf_event := LeafFind (key : Z * Z) | LeafInstall (key : Z * Z) (v : list (Value.t * Z)).

Definition leaf_step (ev : leaf_event) (c : Cache (Z * Z) (list (Value.t * Z)) unit) : result (Cache (Z * Z) (list (Value.t * Z)) unit) :=
  match ev with
  | LeafFind key => '(_, c) ← find leaf_hash mark key c; Ok c
  | LeafInstall key v => '(_, c) ← install leaf_hash mark key v (decoded_bytes v) tt c; Ok c
  end.

Fixpoint leaf_run (evs : list leaf_event) (c : Cache (Z * Z) (list (Value.t * Z)) unit) : result (Cache (Z * Z) (list (Value.t * Z)) unit) :=
  match evs with [] => Ok c | ev :: evs => c ← leaf_step ev c; leaf_run evs c end.

Definition leaf_loads (ev : leaf_event) : Prop := if ev is LeafInstall key v then index_leaves key = Some v else True.

Lemma leaf_run_ok budget per evs c : cache_ok leaf_load budget per c → Forall leaf_loads evs → ∃ c', leaf_run evs c = Ok c' ∧ cache_ok leaf_load budget per c'.
Proof.
  intros Hc Hl. revert c Hc. induction Hl as [|ev evs Hev _ IH]; intros c Hc; [by exists c|]. cbn [leaf_run].
  destruct ev as [key|key v]; cbn [leaf_step].
  - destruct (find_ok leaf_hash leaf_load mark budget per c key Hc) as (found & c1 & -> & Hc1 & _). by apply IH.
  - destruct (install_ok leaf_hash leaf_load leaf_load_nonneg mark budget per c key v (decoded_bytes v) tt Hc) as (c1 & -> & Hc1 & _);
      [by apply leaf_load_Some|]. by apply IH.
Qed.

(** A leaf read through the cache of decoded leaves is the leaf of the index.  After any
    interleaving of the lock sections of other readers of the generation's indexes, reading block
    [b] of an index through the cache gives the entries, or the error, that decoding the block
    gives; and when decoded leaves fit a shard the cache stays within its budget. *)
Theorem cached_leaf_exact budget n evs sub r b : n <= 2 ^ 63 → Forall leaf_loads evs → indexes sub = Some r → Z.of_nat b < 2 ^ 32 →
  ∃ c0 c c' per, with_shards budget n = Ok c0 ∧ leaf_run evs c0 = Ok c ∧ cached_block zstd_decode r sub b c = Ok (load_block zstd_decode r b, c') ∧
    ((∀ key v, index_leaves key = Some v → decoded_bytes v <= per) → 0 <= cache_bytes c' <= Z.max budget 1) ∧
    zlen (shards c') * per <= Z.max budget 1 ∧ 1 <= per.
Proof.
  intros Hn Hl Hr Hb. destruct (with_shards_ok (S := unit) leaf_load budget n Hn) as (c0 & per & -> & Hc0).
  destruct (leaf_run_ok (Z.max budget 1) per evs c0 Hc0 Hl) as (c & Hrun & Hc).
  assert (∃ c', cached_block zstd_decode r sub b c = Ok (load_block zstd_decode r b, c') ∧ cache_ok leaf_load (Z.max budget 1) per c') as (c' & Hget & Hc').
  { unfold cached_block, leaf_get_or_load, get_or_load. assert (as_u32 (Z.of_nat b) = Z.of_nat b) as -> by (unfold as_u32; rewrite Z.mod_small; lia).
    assert (∀ v, index_leaves (sub, Z.of_nat b) = Some v ↔ load_block zstd_decode r b = Ok v) as Hv.
    { intros v. unfold index_leaves. cbn [fst snd]. rewrite Hr, Nat2Z.id. cbn. destruct (load_block _ _ _); naive_solver. }
    destruct (find_ok leaf_hash leaf_load mark _ per c (sub, Z.of_nat b) Hc) as (found & c1 & -> & Hc1 & Hf). cbn [mbind result_bind].
    destruct found as [v|]; [destruct (Hf v eq_refl) as [m [Hm%Hv _]%leaf_load_Some]; rewrite Hm; by exists c1|].
    destruct (load_block zstd_decode r b) as [v|e] eqn:E; [|by exists c1].
    destruct (install_ok leaf_hash leaf_load leaf_load_nonneg mark _ per c1 (sub, Z.of_nat b) v (decoded_bytes v) tt Hc1) as (c2 & -> & Hc2 & _);
      [apply leaf_load_Some; split; [by apply Hv|done]|]. by exists c2. }
  exists c0, c, c', per. split_and!; [done|done|done| |apply Hc'|apply Hc'].
  intros Hfit. apply (cache_bytes_bounded leaf_load (Z.max budget 1) per c' Hc'). intros key v m [Hk ->]%leaf_load_Some. by apply (Hfit key).
Qed.
End leaves.

(** * Witnesses *)

Section witnesses.
#[local] Existing Instance toy_crypto.
#[local] Existing Instance toy_crypto_laws.

Definition example_files (scope sub : Z) : option BlockFileReader :=
  match open_blocks example_block_img example_block_key with Ok r => Some r | Err _ => None end.

(** The first block, as a reader loads it. *)
Definition example_raw : bytes :=
  match example_files 0 0 with
  | Some r => match read_block stored_decode r 0 with Ok v => v | Err _ => [] end
  | None => []
  end.

Definition example_reads : list cache_event := [Find 0 (mkBlockKey 0 0 0); Install 0 (mkBlockKey 0 0 0) example_raw].

Lemma example_reads_load : Forall (loads (file_blocks stored_decode example_files)) example_reads.
Proof. repeat (apply Forall_cons; split); [..|by apply Forall_nil]; [done|]. vm_compute. reflexivity. Qed.

Lemma cached_record_exact_witness : ∃ r c0 answers c x c', example_files 0 0 = Some r ∧ with_shards 100 1 = Ok c0 ∧
  cache_run example_reads c0 = Ok (answers, c) ∧ record stored_decode 5 5 r 0 0 1 c = Ok (x, c') ∧
  (∀ rec, read_record_global stored_decode r 1 = Ok rec → x = Ok rec).
Proof.
  destruct (example_files 0 0) as [r|] eqn:E; [|vm_compute in E; discriminate].
  destruct (cached_record_exact stored_decode example_files 100 1 example_reads 0 0 r 1 5 5 ltac:(lia) example_reads_load E)
    as (c0 & answers & c & x & c' & H0 & Hrun & Hrec & Hx & _).
  exists r, c0, answers, c, x, c'. split; [reflexivity|]. split; [exact H0|]. split; [exact Hrun|]. split; [exact Hrec|exact Hx].
Defined.

#[local] Instance example_sizes : ValueLayout := {| size_of_Value := 24; size_of_entry := 32 |}.

Definition example_indexed (sub : Z) : option IsamReader :=
  match open_src example_img example_key with Ok r => Some r | Err _ => None end.

Lemma example_leaf_loads : Forall (leaf_loads stored_decode example_indexed) [LeafFind (0, 1)].
Proof. by apply Forall_singleton. Qed.

End witnesses.
