(* ===== verification/Extents.v ===== *)
(** The extent table (crates/graph-format/src/extents.rs): which member of a generation set
    owns a dense id.  The base generation owns the first band of ids and every upper segment a
    further one; the bands tile the id space.

    [Extents.from_set] takes the bands of the segments of a set manifest
    (crates/graph-format/src/setmanifest.rs), the only part of it routing reads. *)

From S2P Require Import Prelude.

(** [SegmentOrd], with the derived order [Base < Upper(0) < Upper(1) < ...]. *)
Inductive SegmentOrd :=
  | Base
  | Upper (i : nat).

#[export] Instance segment_ord_eq_dec : EqDecision SegmentOrd.
Proof. solve_decision. Defined.

Definition segment_ord_le (a b : SegmentOrd) : bool :=
  match a, b with
  | Base, _ => true
  | Upper _, Base => false
  | Upper i, Upper j => (i <=? j)%nat
  end.

Record Extent := {
  e_base : Z;
  e_end : Z;
  e_owner : SegmentOrd;
}.

Record ExtentTable := {
  bands : list Extent;
  total : Z;
}.

(** The owner check of [validate] and [from_lengths] against the previous band's. *)
Definition owner_follows (prev : option SegmentOrd) (owner : SegmentOrd) : bool :=
  match prev with Some p => negb (segment_ord_le owner p) | None => true end.

(** The [for] of [validate], from the end of the bands before. *)
Fixpoint validate_bands (cursor : Z) (prev : option SegmentOrd) (bs : list Extent) : result Z :=
  match bs with
  | [] => Ok cursor
  | e :: bs =>
      if negb (e_base e =? cursor) then Err (Bail "extent band does not start where the previous one ended")
      else if e_end e <? e_base e then Err (Bail "extent band ends before it starts")
      else if negb (owner_follows prev (e_owner e)) then Err (Bail "extent owners must strictly increase")
      else validate_bands (e_end e) (Some (e_owner e)) bs
  end.

Definition validate (t : ExtentTable) : result unit :=
  cursor ← validate_bands 0 None (bands t);
  if negb (cursor =? total t) then Err (Bail "extent bands do not tile up to the total") else Ok tt.

Definition from_bands (bs : list Extent) (tot : Z) : result ExtentTable :=
  let t := {| bands := bs; total := tot |} in
  _ ← validate t; Ok t.

(** The [for] of [from_lengths]: the bands pushed, and the cursor after them. *)
Fixpoint bands_of_lengths (cursor : Z) (prev : option SegmentOrd) (lengths : list (Z * SegmentOrd)) : result (list Extent * Z) :=
  match lengths with
  | [] => Ok ([], cursor)
  | (len, owner) :: lengths =>
      if negb (owner_follows prev owner) then Err (Bail "extent owners must strictly increase")
      else
        let base := cursor in
        if 2 ^ 64 <=? cursor + len then Err (Bail "extent band overflows u64")
        else
          let end_ := cursor + len in
          '(bs, last) ← bands_of_lengths end_ (Some owner) lengths;
          Ok ({| e_base := base; e_end := end_; e_owner := owner |} :: bs, last)
  end.

Definition from_lengths (lengths : list (Z * SegmentOrd)) : result ExtentTable :=
  '(bs, cursor) ← bands_of_lengths 0 None lengths; from_bands bs cursor.

Definition table_singleton (base_count : Z) : ExtentTable :=
  {| bands := [{| e_base := 0; e_end := base_count; e_owner := Base |}]; total := base_count |}.

(** An index of -1 would panic. *)
Definition route (t : ExtentTable) (id : Z) : result (option SegmentOrd) :=
  if total t <=? id then Ok None
  else
    match partition_point (λ e, e_base e <=? id) (bands t) with
    | O => Err (Panic "index out of bounds")
    | S idx =>
        match bands t !! idx with
        | Some e => Ok (Some (e_owner e))
        | None => Err (Panic "index out of bounds")
        end
    end.

Definition band_of (t : ExtentTable) (ord : SegmentOrd) : option (Z * Z) :=
  (λ e, (e_base e, e_end e)) <$> find (λ e, bool_decide (e_owner e = ord)) (bands t).

(** ** A generation set *)

(** The bands of a [SegmentRef]. *)
Record SegmentRef := {
  node_band : Z * Z;
  edge_band : Z * Z;
}.

Record Extents := {
  nodes : ExtentTable;
  edges : ExtentTable;
}.

Definition extents_singleton (base_node_count base_edge_count : Z) : Extents :=
  {| nodes := table_singleton base_node_count; edges := table_singleton base_edge_count |}.

Definition set_bands (base_count : Z) (segment_bands : list (Z * Z)) : list Extent :=
  {| e_base := 0; e_end := base_count; e_owner := Base |} ::
  imap (λ i b, {| e_base := b.1; e_end := b.2; e_owner := Upper i |}) segment_bands.

Definition from_set (segments : list SegmentRef) (base_node_count base_edge_count : Z) : result Extents :=
  let node_bands := set_bands base_node_count (map node_band segments) in
  let edge_bands := set_bands base_edge_count (map edge_band segments) in
  let node_total := default 0 (e_end <$> last node_bands) in
  let edge_total := default 0 (e_end <$> last edge_bands) in
  ns ← from_bands node_bands node_total;
  es ← from_bands edge_bands edge_total;
  Ok {| nodes := ns; edges := es |}.

(** * Tiling *)

(** The bands from [cursor] to [stop], each starting where the one before ended, their owners
    above [prev] and strictly increasing. *)
Fixpoint tiles (cursor : Z) (prev : option SegmentOrd) (bs : list Extent) (stop : Z) : Prop :=
  match bs with
  | [] => stop = cursor
  | e :: bs =>
      e_base e = cursor ∧ e_base e <= e_end e ∧ owner_follows prev (e_owner e) = true ∧
      tiles (e_end e) (Some (e_owner e)) bs stop
  end.

Lemma validate_bands_tiles cursor prev bs stop : validate_bands cursor prev bs = Ok stop ↔ tiles cursor prev bs stop.
Proof.
  revert cursor prev. induction bs as [|e bs IH]; intros cursor prev; cbn [validate_bands tiles]; [split; congruence|].
  destruct (Z.eqb_spec (e_base e) cursor); cbn [negb]; [|split; [done|by intros []]].
  destruct (Z.ltb_spec (e_end e) (e_base e)); [split; [done|intros (_ & ? & _); lia]|].
  destruct (owner_follows prev (e_owner e)); cbn [negb]; [|split; [done|by intros (_ & _ & ? & _)]].
  rewrite IH. split; [done|by intros (_ & _ & _ & ?)].
Qed.

Definition tiled (t : ExtentTable) : Prop := tiles 0 None (bands t) (total t).

Lemma validate_tiled t : validate t = Ok tt ↔ tiled t.
Proof.
  unfold validate, tiled. destruct (validate_bands 0 None (bands t)) as [cursor|e] eqn:E; cbn [mbind result_bind].
  - apply validate_bands_tiles in E as Ht. destruct (Z.eqb_spec cursor (total t)) as [<-|Hne]; [done|]. cbn [negb]. split; [done|].
    intros Ht'. apply validate_bands_tiles in Ht'. congruence.
  - split; [done|]. intros Ht%validate_bands_tiles. congruence.
Qed.

Lemma from_bands_Ok bs tot t : from_bands bs tot = Ok t ↔ t = {| bands := bs; total := tot |} ∧ tiled t.
Proof.
  unfold from_bands. destruct (validate _) as [[]|e] eqn:E; cbn.
  - apply validate_tiled in E. split; [intros [= <-]; done|by intros [-> _]].
  - split; [done|]. intros [-> Ht%validate_tiled]. congruence.
Qed.

Definition owns (e : Extent) (id : Z) : Prop := e_base e <= id < e_end e.

Lemma tiles_base_le cursor prev bs stop : tiles cursor prev bs stop → Forall (λ e, cursor <= e_base e) bs ∧ cursor <= stop.
Proof.
  revert cursor prev. induction bs as [|e bs IH]; intros cursor prev; cbn [tiles].
  { intros ->. split; [constructor|lia]. }
  intros (<- & Hle & _ & Ht). destruct (IH _ _ Ht) as [Hall Hs]. split; [|lia]. constructor; [lia|].
  eapply Forall_impl; [exact Hall|]. cbn. lia.
Qed.

(** The band before the first that starts past an id is the one that owns it. *)
Lemma tiles_partition cursor prev bs stop id : tiles cursor prev bs stop → cursor <= id < stop →
  ∃ k e, partition_point (λ e, e_base e <=? id) bs = S k ∧ bs !! k = Some e ∧ owns e id.
Proof.
  revert cursor prev. induction bs as [|e bs IH]; intros cursor prev; cbn [tiles partition_point]; [intros ->; lia|].
  intros (<- & Hle & Ho & Ht) Hid. rewrite (proj2 (Z.leb_le _ _)) by lia.
  destruct (decide (e_end e <= id)) as [Hge|Hlt].
  - destruct (IH _ _ Ht) as (k & e' & -> & Hk & Hown); [lia|]. by exists (S k), e'.
  - exists O, e. split_and!; [|done|unfold owns; lia]. f_equal. destruct bs as [|e' bs]; [done|]. cbn.
    destruct Ht as (Hb & _). destruct (Z.leb_spec (e_base e') id); [lia|done].
Qed.

Lemma tiles_unique cursor prev bs stop id i j e e' : tiles cursor prev bs stop → bs !! i = Some e → bs !! j = Some e' →
  owns e id → owns e' id → i = j.
Proof.
  revert cursor prev i j. induction bs as [|x bs IH]; intros cursor prev i j; [by rewrite lookup_nil|]. cbn [tiles].
  intros (_ & _ & _ & Ht) Hi Hj Hoi Hoj. pose proof (tiles_base_le _ _ _ _ Ht) as [Hall _]. rewrite Forall_lookup in Hall.
  unfold owns in *. destruct i as [|i], j as [|j]; cbn in Hi, Hj; simplify_eq; [done| | |].
  - specialize (Hall _ _ Hj). lia.
  - specialize (Hall _ _ Hi). lia.
  - f_equal. by eapply IH.
Qed.

Lemma follows_trans a b c : owner_follows (Some a) b = true → owner_follows (Some b) c = true → owner_follows (Some a) c = true.
Proof.
  unfold owner_follows, segment_ord_le. destruct a as [|i], b as [|j], c as [|k]; cbn; try done.
  rewrite !negb_true_iff, !Nat.leb_gt. lia.
Qed.

Lemma follows_neq a b : owner_follows (Some a) b = true → b ≠ a.
Proof.
  intros H ->. unfold owner_follows, segment_ord_le in H. destruct a as [|i]; [done|]. by rewrite Nat.leb_refl in H.
Qed.

Lemma tiles_owners_above cursor p bs stop : tiles cursor (Some p) bs stop → Forall (λ e, owner_follows (Some p) (e_owner e) = true) bs.
Proof.
  revert cursor p. induction bs as [|e bs IH]; intros cursor p; cbn [tiles]; [constructor|]. intros (_ & _ & Ho & Ht).
  constructor; [done|]. eapply Forall_impl; [by eapply IH|]. intros x Hx. by eapply follows_trans.
Qed.

(** The owners of the bands are distinct, so a band is found by its owner. *)
Lemma tiles_find cursor prev bs stop i e : tiles cursor prev bs stop → bs !! i = Some e →
  find (λ x, bool_decide (e_owner x = e_owner e)) bs = Some e.
Proof.
  revert cursor prev i. induction bs as [|x bs IH]; intros cursor prev i; [by rewrite lookup_nil|]. cbn [tiles].
  intros (_ & _ & _ & Ht) Hi. cbn [find]. destruct i as [|i]; cbn in Hi.
  - injection Hi as ->. by rewrite bool_decide_true.
  - rewrite bool_decide_false; [by eapply IH|]. intros E. pose proof (tiles_owners_above _ _ _ _ Ht) as Hall.
    rewrite Forall_lookup in Hall. specialize (Hall _ _ Hi). rewrite E in Hall. by apply follows_neq in Hall.
Qed.

Lemma bands_of_lengths_tiles cursor prev lengths bs stop : 0 <= cursor < 2 ^ 64 → Forall (λ l, 0 <= l.1) lengths →
  bands_of_lengths cursor prev lengths = Ok (bs, stop) → tiles cursor prev bs stop ∧ 0 <= stop < 2 ^ 64.
Proof.
  revert cursor prev bs. induction lengths as [|[len owner] lengths IH]; intros cursor prev bs Hc Hl; cbn [bands_of_lengths].
  { intros [= <- <-]. done. }
  apply Forall_cons in Hl as [Hlen Hl]. cbn in Hlen. destruct (owner_follows prev owner) eqn:Ho; cbn [negb]; [|done]. cbv zeta.
  destruct (Z.leb_spec (2 ^ 64) (cursor + len)); [done|]. intros ([bs' last] & Hb & [= <- <-])%bind_Ok.
  apply IH in Hb as [Ht Hs]; [|lia|done]. split; [|done]. cbn [tiles e_base e_end e_owner]. split_and!; [done|lia|done|done].
Qed.

(** Every constructor builds a table that passes validation. *)
Lemma from_lengths_tiled lengths t : Forall (λ l, 0 <= l.1) lengths → from_lengths lengths = Ok t → tiled t ∧ total t < 2 ^ 64.
Proof.
  intros Hl ([bs cursor] & Hb & [-> Ht]%from_bands_Ok)%bind_Ok. split; [done|].
  apply bands_of_lengths_tiles in Hb as [_ Hs]; [cbn; lia|lia|done].
Qed.

Lemma table_singleton_tiled n : 0 <= n → tiled (table_singleton n).
Proof. intros Hn. unfold tiled. cbn. split_and!; done || lia. Qed.

Lemma from_set_tiled segments n m x : from_set segments n m = Ok x → tiled (nodes x) ∧ tiled (edges x) ∧
  bands (nodes x) = set_bands n (map node_band segments) ∧ bands (edges x) = set_bands m (map edge_band segments).
Proof. by intros (ns & [-> Hn]%from_bands_Ok & (es & [-> He]%from_bands_Ok & [= <-])%bind_Ok)%bind_Ok. Qed.

(** An empty set routes like the base alone. *)
Lemma from_set_empty n m : 0 <= n → 0 <= m → from_set [] n m = Ok (extents_singleton n m).
Proof.
  intros Hn Hm. assert (∀ k, 0 <= k → from_bands (set_bands k []) k = Ok (table_singleton k)) as H.
  { intros k Hk. apply from_bands_Ok. split; [done|by apply table_singleton_tiled]. }
  unfold from_set. cbn [map]. change (default 0 (e_end <$> last (set_bands n []))) with n.
  change (default 0 (e_end <$> last (set_bands m []))) with m. by rewrite !H.
Qed.

(** * Properties *)

(** The extent table routes: in a table that passes validation, an id below the total is
    routed to the owner of the one band that contains it, an id at or past the total to nobody,
    no lookup indexes out of range, and [band_of] gives back the band of every owner.
    Zero-width bands are never chosen. *)
Theorem extents_route t : validate t = Ok tt →
  (∀ id, 0 <= id → ∃ r, route t id = Ok r ∧
    (r = None ↔ total t <= id) ∧
    (∀ o, r = Some o ↔ ∃ e, e ∈ bands t ∧ owns e id ∧ e_owner e = o)) ∧
  (∀ e, e ∈ bands t → band_of t (e_owner e) = Some (e_base e, e_end e)).
Proof.
  intros Ht%validate_tiled. unfold tiled in Ht. split.
  - intros id Hid. unfold route. pose proof (tiles_base_le _ _ _ _ Ht) as [_ Hpos].
    assert (∀ e, e ∈ bands t → owns e id → id < total t) as Hin.
    { intros e He Hown. clear Hpos. revert Ht. generalize 0 at 1. generalize (@None SegmentOrd). induction (bands t) as [|x bs IH].
      - by apply elem_of_nil in He.
      - intros prev c (_ & _ & _ & Ht). pose proof (tiles_base_le _ _ _ _ Ht) as [_ Hs]. unfold owns in Hown.
        apply elem_of_cons in He as [->|He]; [lia|by eapply IH]. }
    destruct (Z.leb_spec (total t) id) as [Hge|Hlt].
    + exists None. split; [done|]. split; [done|]. intros o. split; [done|]. intros (e & He & Hown & _). specialize (Hin e He Hown). lia.
    + destruct (tiles_partition _ _ _ _ id Ht) as (k & e & -> & Hk & Hown); [lia|]. rewrite Hk. eexists. split; [done|].
      split; [split; [done|lia]|]. intros o. split.
      * intros [= <-]. exists e. split_and!; [by eapply list_elem_of_lookup_2|done|done].
      * intros (e' & (j & Hj)%list_elem_of_lookup & Hown' & <-). assert (k = j) as -> by by eapply tiles_unique. congruence.
  - intros e (i & Hi)%list_elem_of_lookup. unfold band_of. by rewrite (tiles_find _ _ _ _ _ _ Ht Hi).
Qed.

